(* ===== verification/_CoqProject ===== *)
-Q . S2P
Prelude.v
Framing.v
Zstd.v
Bitpack.v
Columns.v
Sparse.v
Schema.v
Wal.v
Strconv.v
Chunk.v
Cache.v
Rows.v
Index.v
Ids.v
Times.v
Seal.v
Segments.v
TopN.v
Pages.v
Query.v
Filter.v
Search.v
Paging.v
Ring.v
Writer.v
Durable.v
WalCache.v
Counts.v
Requests.v
Lookups.v
IngestQueue.v
Jobs.v
Guard.v
Breaker.v
Scrub.v
Utf8.v
Pipeline.v
Floats.v
Conditions.v
KeyedMutex.v
Watches.v
Adapter.v
IngestHttp.v
Validate.v
ErrorGroups.v
EnvScope.v
Accounts.v
Gate.v
