(* ===== verification/Prelude.v ===== *)
(** * OpenTrace, a mechanised model of its log store

    OpenTrace collects log entries from instrumented applications and answers
    queries over them.  Its own storage engine is src/internal/logstore; this
    development models that engine from the bytes of its files up to the queries, and
    proves what makes it a log store: acknowledged entries survive crashes, sealing
    changes no answer, and queries return exactly the entries they should.

    ** How the parts fit together

    An entry (chunk.Entry) is given an ID and appended to the write-ahead log of the
    current hour (wal/, engine/writer.go); a group commit acknowledges it.  It is also
    pushed to the ring of the live tail (engine/ring.go).  When the hour is over, or a
    segment is full, the log is renamed and sealed (engine/seal.go) into a segment: a
    directory of columnar chunks (chunk/, encoding/), one inverted index per chunk
    (index/), a metadata file and a completion marker.  The segment manager
    (engine/segment.go) lists the sealed segments and repairs interrupted seals at
    start-up.  A query (engine/store.go, query.go) takes a snapshot of the segments and
    of the unsealed logs, narrows every chunk by its columns and index, walks the logs
    through a cache of parsed entries (engine/walcache.go), and merges pages.

    ** Files, in order

    - [Prelude]: Go errors and panics (the [result] monad), slices with their bounds
      checks, machine integers, encoding/binary, setters, shared list lemmas and
      tactics.
    - [Framing] (encoding/strlen.go, varint.go), [Zstd] (encoding/zstd.go), [Bitpack]
      (bitpack.go), [Columns] (delta.go, dictionary.go, zstdblock.go), [Sparse]
      (sparse.go): the value and column encodings.
    - [Schema] (chunk/schema.go): the 47 columns and the [Entry] record.
    - [Wal] (wal/binary.go, scanner.go): the log record, the three field lists of the
      source each translated in its order, and the replay of a file.
    - [Strconv], [Times]: the standard-library conversions the engine relies on
      (decimal numbers; the hour, minute and RFC 3339 layouts of UTC times).
    - [Chunk] (chunk/writer.go, reader.go), [Cache] (engine/colcache.go,
      index/cache.go), [Rows] (engine/chunkcols.go, chunkrow.go, and the row readers of
      store.go), [Index] (index/).
    - [Ids] (engine/id.go), [Seal] (engine/seal.go and recoverDir of segment.go),
      [Segments] (engine/segment.go).
    - [TopN], [Pages] (the bounded heaps and the merging of pages in store.go), [Query]
      (search parameters and [matchesParams]), [Filter] (the column filters), [Search]
      (chunks and segments), [Paging] ([Store.Search]).
    - [Ring] (engine/ring.go), [Writer] (engine/writer.go), [Durable] (the writer under
      concurrent appenders, crashes and start-up).
    - [WalCache] (engine/walcache.go), [Counts] (the counts and histograms of store.go).
    - [Requests] (engine/requests.go): whole-range scans of requests and their sums.
    - [Lookups] (store.go): lookup by ID and distinct values.
    - [IngestQueue] (internal/ingest/queue.go): the buffered insert queue.
    - [Jobs] (internal/jobs): the SQL job queue, its worker and its scheduler.
    - [Guard] (internal/guardrail): the read-only SQL guardrail.
    - [Breaker] (internal/connector/circuit_breaker.go, internal/retry): resilience of outbound calls.
    - [Scrub], [Utf8], [Pipeline] (logstore/ingest/pipeline.go, internal/fingerprint): redaction of
      personal data, valid UTF-8, and the stages a batch goes through before the writer.
    - [Floats]: float64 as IEEE 754 binary64, and the durations of package time.
    - [Conditions] (internal/watcher: watch_conditions.go, watch_metrics.go, watch_helpers.go),
      [KeyedMutex] (the lock of watch_evaluator.go), [Watches] (watch_evaluator.go,
      watch_session.go, watch_scheduler.go, watch_stream.go, adapter/sqlite/watch_store.go).
    - [Adapter] (pkg/store/models_logs.go, logstore/adapter): the canonical entry, its conversions
      to and from rows, the write path and the cache of recent batches.
    - [IngestHttp] (internal/ingest: limits, flat_handler, fingerprint, sampling, decode, handler):
      from a decoded request to the response; [Validate] (validate.go, spec.go): the dry run.
    - [ErrorGroups] (adapter/sqlite: error_group_store, error_impact_store; the error statements of
      processAfterInsert): groups by fingerprint and environment, their lifecycle, their users.
    - [EnvScope] (mcp/envscope; mcp/tools: envresolve, envguard, errors_*, users): the
      environments of a token and the tools over error groups.
    - [Accounts] (adapter/sqlite/user_store.go, routes/auth, mcp/tools/admin_users.go): users,
      roles, failed logins, first connection and tokens.
    - [Gate] (internal/api: middleware.go, proxy_auth.go, mcp_sse_gate.go, and the settings of
      server.go): rate limits, client addresses, keys, proxies, origins and MCP sessions.

    Definitions keep the names of the source; where Go has one name in several packages
    the prefix of the package is added ([IndexOpenReader], [Writer_Close]).  A loop of
    the source that carries state is a separate definition named after its function
    ([seal_loop], [directory_loop]).  Properties of a component are proved as lemmas
    named [..._ok] and applied by the property itself and by the components above.

    ** Conventions

    Go's [(value, error)] results and panics are the monad [result] ([Ok], [Err],
    [Panic]); machine integers are [Z] with their wrap-around written out where the
    source can overflow; a string or a byte slice is [list byte]; a directory is the map
    of its files; a time is its nanoseconds since 1970 in UTC.  State is passed
    explicitly; a scan of columns threads the memo and the shared caches
    ([chunkColumns]), a seal emits the trace of its file operations ([traced]), so that
    a crash is a prefix of the trace.  A mutex-protected method is one step, and a method
    that releases its mutex in the middle is several ([append_locked] and
    [sync_covered]/[sync_done] of [Append]; [push_ring] and [fan_out] of [Push]).

    ** Code outside the repository

    - klauspost/compress/zstd: class [Zstd], laws in [ZstdLaws]: decoding inverts
      encoding within the decoder's limit, and never yields more than the limit.
      [Zstd.stored_codec] is an instance.
    - The Unicode tables, strings.EqualFold and TrimSpace: classes [Unicode] and [Text];
      [TextLaws] states that EqualFold is symmetric and holds of equal
      strings.  encoding/json of bodies and metadata: [BodyJSON], [MarshalMeta] and
      [BodyCodec], with the laws [BodyCodecOk] and the instance [Pipeline.tree_codec];
      crypto/md5 is [MD5].
    - The operating system: outcomes of writes, fsyncs, truncations and renames are
      arguments; a crash keeps the synced bytes and any part of what follows, and may undo the
      rename of a rotation ([Durable.crashed]; its argument says whether the entry of a new
      file in its directory is durable with the file).

    ** What the theorems show

    - Durability: [Durable.acknowledged_survives] for the transition system of
      concurrent appends, shared and failing fsyncs, rotations, seals and crashes, unless a
      rollback or a flush at a rotation has failed ([Durable.fault_step]);
      [Durable.group_commit_progress]; [Seal.seal_crash_safe] for crashes inside a seal;
      [Wal.replay_recovers] and [Wal.replay_resumes] for torn logs.
    - Fidelity of stored data: [Wal.record_roundtrip], [Chunk.chunk_roundtrip],
      [Rows.chunk_row_roundtrip], [Rows.sealed_rows_equal_wal], and the round trips of
      each column encoding.
    - Queries: [Paging.search_page_exact], [Paging.sealing_keeps_answers],
      [Index.index_search_exact], [TopN.top_rows_correct], [Segments.no_segment_missed],
      [Counts.count_by_level_exact], [Counts.count_by_service_exact],
      [Counts.histogram_exact], [WalCache.wal_cache_transparent].
    - The ingest queue: [IngestQueue.ingest_queue_conserves],
      [IngestQueue.enqueue_all_or_nothing], [IngestQueue.flush_delivers].
    - Whole-range scans and lookups: [Requests.search_requests_exact],
      [Requests.aggregate_requests_exact], [Lookups.get_by_id_exact],
      [Lookups.distinct_values_exact].
    - Jobs: [Jobs.operations_follow_lifecycle], [Jobs.job_rows_well_formed],
      [Jobs.claim_next_exact], [Jobs.claim_is_exclusive], [Jobs.failure_is_retried],
      [Jobs.worker_terminates], [Jobs.worker_finishes].
    - The guardrail: [Guard.accepted_reads_only] of queries in lexical pieces,
      [Guard.accepted_exact] of normal forms, [Guard.literals_do_not_matter],
      [Guard.scans_exact], [Guard.guard_terminates]; [Guard.line_comment_hides_anything]
      and the lemmas after it show where it can be got round.
    - Resilience: [Breaker.breaker_cycle], [Breaker.breaker_trips], [Breaker.retry_exact].
    - The pipeline: [Pipeline.process_redacts], [Pipeline.process_exact],
      [Scrub.scrubbed_text_is_clean]; [Pipeline.refused_body_leaks], [Pipeline.deep_value_leaks]
      and [Scrub.long_card_leaks] show what escapes redaction.
    - Watches: [Conditions.condition_tree_exact], [Watches.evaluate_exact], and of any
      interleaving [Watches.alerts_follow_triggers], [Watches.checks_are_serial] and
      [Watches.evaluators_progress]; [KeyedMutex.keyed_mutex_is_a_lock] and
      [KeyedMutex.keyed_mutex_no_leak] of the lock they share.
    - The way in: [IngestHttp.wire_to_column] and [IngestHttp.columns_capped] from wire fields to
      columns, [IngestHttp.endpoints_agree], [IngestHttp.fingerprints_agree],
      [IngestHttp.truncation_exact]; [IngestHttp.batch_stored_once] and
      [IngestHttp.recorded_when_stored] for retried batches over [Adapter.batch_cache_refines];
      [Adapter.row_roundtrip] and [Adapter.metadata_lost] for what is read back;
      [Validate.editDistance_exact] and [Validate.suggestion_nearest].
    - Error groups: [ErrorGroups.status_explained] of any sequence of operations,
      [ErrorGroups.environments_isolated], [ErrorGroups.transition_exact],
      [ErrorGroups.batch_tracked] and [ErrorGroups.issue_filed_once].
    - Scopes: [EnvScope.pinned_reads_own_environments] and
      [EnvScope.pinned_writes_own_environments]; [EnvScope.user_impact_crosses_environments] and
      the theorems after it show the answers that are not scoped.
    - Accounts and the gate: [Accounts.admin_remains], [Accounts.first_admin_once],
      [Accounts.connect_token_works], [Accounts.guesses_bounded]; [Gate.limiter_bounded],
      [Gate.admitted_bounded], [Gate.client_ip_unforgeable], [Gate.token_admits],
      [Gate.api_key_fails_closed], [Gate.session_one_user]; [Accounts.lockout_not_atomic],
      [Gate.second_line_ignored] and the theorems after it show where they give way.
    - State: [Segments.register_refines_map], [Segments.prune_is_safe],
      [Ids.ids_are_ordered], [Cache.cache_invariant], [Seal.segment_meta_exact],
      [Ring.tail_has_no_gap].
    - Hostile input: no arbitrary file makes the record decoder, the chunk reader or the
      index reader panic, and a decoded block is bounded whatever it claims.
    - Defects: [Sparse.oversized_body_unreadable], [Index.long_token_lost],
      [Durable.failed_handoff_acknowledges], [Durable.failed_rollback_hides] and
      [Durable.unsynced_directory_loses] prove behaviours the code does not intend.

    ** Fuel

    Loops that are not structural take a fuel that their callers compute from the data:
    replays and column readers the length of the remaining bytes plus one (each round
    consumes at least one byte), the merge of posting lists the sum of the two lengths,
    heap operations the size of the heap, the free-hour search its probe limit.  The
    exactness theorems are about the composed functions with that fuel, so a fuel that
    ran out would make them false.

    ** Not modelled

    Goroutines, contexts and channels that only parallelise independent work (the
    fan-out of Search over segments), mutexes that make a whole method atomic, hit and
    miss counters, log messages, and Close.  Of the rest of the program: the other HTTP
    handlers, the client, the other MCP tools and SQLite stores, the connectors and the command
    line are I/O and SQL around the engine.  A statement is one step, and so is a method of
    the job queue that reads and then writes ([Jobs.Fail]); an insert of the queue that fails
    has stored nothing ([IngestQueue.BatchInsert]); a condition tree is evaluated at one
    instant against one log store ([Conditions]).  Of the ingest handlers, the side effects
    after the insert are modelled for error groups only, and the dry run of validate mode is
    [Validate], not a branch of the handler; of the adapter, not the read
    methods that rename parameters; of the errors tool, not the log entries it adds, the
    traits it derives from JSON, nor the parsing of its time window.  JSON, MessagePack, MD5, zstd and the Unicode tables are libraries
    and stay parameters. *)

From stdpp Require Import base list gmap strings numbers sorting.
From Stdlib Require Import ZArith Lia.

Global Open Scope Z_scope.

(** ** Go errors, results and panics

    A Go call either returns a value, returns a non-nil [error], or panics
    (slice or index out of range, explicit [panic]).  [gerror] keeps the static
    part of the message and the wrapping chain that [%w] builds; formatted
    arguments are not kept.  [ErrIs] is [errors.Is]. *)

Inductive gerror :=
| Errorf (msg : string)
| Wrapf (msg : string) (inner : gerror)
| Sentinel (name : string).

#[export] Instance gerror_eq_dec : EqDecision gerror.
Proof. solve_decision. Defined.

Fixpoint ErrIs (e target : gerror) : bool :=
  bool_decide (e = target) ||
  match e with
  | Wrapf _ i => ErrIs i target
  | _ => false
  end.

Inductive result (A : Type) :=
| Ok (a : A)
| Err (e : gerror)
| Panic.
Arguments Ok {A} a.
Arguments Err {A} e.
Arguments Panic {A}.

#[export] Instance result_ret : MRet result := fun A a => Ok a.
#[export] Instance result_bind : MBind result := fun A B f m =>
  match m with
  | Ok a => f a
  | Err e => Err e
  | Panic => Panic
  end.
#[export] Instance result_fmap : FMap result := fun A B f m =>
  match m with
  | Ok a => Ok (f a)
  | Err e => Err e
  | Panic => Panic
  end.

(** [return fmt.Errorf(msg + ": %w", err)] around a call that may fail. *)
Definition wrap {A} (msg : string) (m : result A) : result A :=
  match m with
  | Err e => Err (Wrapf msg e)
  | _ => m
  end.

(** The Go call does not panic. *)
Definition no_panic {A} (m : result A) : Prop := m <> Panic.

(** The Go call returns with a nil error. *)
Definition is_ok {A} (m : result A) : bool :=
  match m with Ok _ => true | _ => false end.

(** ** Machine integers

    Go's [int] and [int64] are 64-bit two's complement, [uint8], [uint16],
    [uint32] and [uint64] are unsigned.  A conversion wraps.  Sums of lengths
    and offsets stay far below [2^63] and are written without a wrap. *)

Definition uint8 (z : Z) : Z := z mod 2 ^ 8.
Definition uint16 (z : Z) : Z := z mod 2 ^ 16.
Definition uint32 (z : Z) : Z := z mod 2 ^ 32.
Definition uint64 (z : Z) : Z := z mod 2 ^ 64.
Definition int64 (z : Z) : Z := (z + 2 ^ 63) mod 2 ^ 64 - 2 ^ 63.

Definition is_uint (w z : Z) : Prop := 0 <= z < 2 ^ w.
Definition is_int64 (z : Z) : Prop := - 2 ^ 63 <= z < 2 ^ 63.

(** ** Slices

    A [[]byte] and a Go [string] are both lists of byte values.  A cell is an
    integer and an integer read of it takes it modulo 256 ([uint8], [le_val]),
    so that every list is a byte string and the statements about arbitrary input
    need no side condition. *)

Abbreviation bytes := (list Z).

Definition byte_of_ascii (a : Ascii.ascii) : Z := Z.of_N (Ascii.N_of_ascii a).

Fixpoint str (s : string) : bytes :=
  match s with
  | EmptyString => []
  | String a s => byte_of_ascii a :: str s
  end.

Definition len {A} (l : list A) : Z := Z.of_nat (length l).

(** [l[i]] *)
Definition index {A} (l : list A) (i : Z) : result A :=
  if 0 <=? i then
    match l !! Z.to_nat i with Some x => Ok x | None => Panic end
  else Panic.

(** [int(data[i])] on a byte slice. *)
Definition index8 (data : bytes) (i : Z) : result Z := uint8 <$> index data i.

(** [l[i:]] *)
Definition slice_from {A} (l : list A) (i : Z) : result (list A) :=
  if (0 <=? i) && (i <=? len l) then Ok (drop (Z.to_nat i) l) else Panic.

(** [l[i:j]] *)
Definition slice {A} (l : list A) (i j : Z) : result (list A) :=
  if (0 <=? i) && (i <=? j) && (j <=? len l)
  then Ok (take (Z.to_nat (j - i)) (drop (Z.to_nat i) l)) else Panic.

(** [l[i] = v] *)
Definition store {A} (l : list A) (i : Z) (v : A) : result (list A) :=
  if (0 <=? i) && (i <? len l) then Ok (<[Z.to_nat i := v]> l) else Panic.

(** [make([]T, n)], [n] non-negative. *)
Definition make {A} (zero : A) (n : Z) : list A := replicate (Z.to_nat n) zero.

(** ** encoding/binary: little-endian words *)

Fixpoint le_bytes (n : nat) (w : Z) : bytes :=
  match n with
  | O => []
  | S n => w mod 256 :: le_bytes n (w / 256)
  end.

Fixpoint le_val (l : bytes) : Z :=
  match l with
  | [] => 0
  | b :: l => uint8 b + 256 * le_val l
  end.

(** [binary.LittleEndian.UintN(data)]: panics when [data] is too short. *)
Definition le_uint (n : nat) (data : bytes) : result Z :=
  if Z.of_nat n <=? len data then Ok (le_val (take n data)) else Panic.

Definition Uint16 := le_uint 2.
Definition Uint32 := le_uint 4.
Definition Uint64 := le_uint 8.

Definition AppendUint16 (buf : bytes) (v : Z) : bytes := buf ++ le_bytes 2 v.
Definition AppendUint32 (buf : bytes) (v : Z) : bytes := buf ++ le_bytes 4 v.
Definition AppendUint64 (buf : bytes) (v : Z) : bytes := buf ++ le_bytes 8 v.

(** ** encoding/binary: varints *)

Definition MaxVarintLen64 : Z := 10.

(** [binary.PutUvarint]: the fuel is [MaxVarintLen64], the size of the buffer
    every caller passes. *)
Fixpoint put_uvarint (fuel : nat) (x : Z) : bytes :=
  match fuel with
  | O => []
  | S fuel =>
      if x <? 128 then [x]
      else Z.lor (uint8 x) 128 :: put_uvarint fuel (Z.shiftr x 7)
  end.

Definition binary_PutUvarint (x : Z) : bytes := put_uvarint 10 x.

(** [binary.Uvarint]: the value and the number of bytes read; [n = 0] when the
    buffer is too small, [n < 0] on overflow. *)
Fixpoint uvarint_loop (buf : bytes) (i x s : Z) : Z * Z :=
  match buf with
  | [] => (0, 0)
  | b :: buf =>
      if i =? MaxVarintLen64 then (0, - (i + 1))
      else if b <? 128 then
        if (i =? MaxVarintLen64 - 1) && (1 <? b) then (0, - (i + 1))
        else (Z.lor x (uint64 (Z.shiftl b s)), i + 1)
      else uvarint_loop buf (i + 1)
             (Z.lor x (uint64 (Z.shiftl (Z.land b 127) s))) (s + 7)
  end.

Definition Uvarint (buf : bytes) : Z * Z := uvarint_loop buf 0 0 0.

Definition binary_PutVarint (x : Z) : bytes :=
  let ux := uint64 (Z.shiftl (uint64 x) 1) in
  let ux := if x <? 0 then uint64 (Z.lnot ux) else ux in
  binary_PutUvarint ux.

Definition Varint (buf : bytes) : Z * Z :=
  let '(ux, n) := Uvarint buf in
  let x := int64 (Z.shiftr ux 1) in
  let x := if negb (Z.land ux 1 =? 0) then Z.lnot x else x in
  (x, n).

(** ** Automation *)

Create HintDb go discriminated.
Create Rewrite HintDb len.

(** Case analysis on the boolean comparisons of the code. *)
Ltac zbool :=
  repeat match goal with
  | H : context [?a <=? ?b] |- _ => destruct (Z.leb_spec a b)
  | H : context [?a <? ?b] |- _ => destruct (Z.ltb_spec a b)
  | H : context [?a =? ?b] |- _ => destruct (Z.eqb_spec a b)
  | |- context [?a <=? ?b] => destruct (Z.leb_spec a b)
  | |- context [?a <? ?b] => destruct (Z.ltb_spec a b)
  | |- context [?a =? ?b] => destruct (Z.eqb_spec a b)
  end; simpl in *.

(** Decide the comparisons of the goal whose outcome [lia] knows. *)
Ltac zcmp :=
  repeat match goal with
  | |- context [?a <=? ?b] =>
      first [ rewrite (proj2 (Z.leb_le a b)) by lia
            | rewrite (proj2 (Z.leb_gt a b)) by lia ]
  | |- context [?a <? ?b] =>
      first [ rewrite (proj2 (Z.ltb_lt a b)) by lia
            | rewrite (proj2 (Z.ltb_ge a b)) by lia ]
  | |- context [?a =? ?b] =>
      first [ rewrite (proj2 (Z.eqb_eq a b)) by lia
            | rewrite (proj2 (Z.eqb_neq a b)) by lia ]
  end; cbn [andb orb negb].

(** ** Results *)

Lemma no_panic_ok {A} (a : A) : no_panic (Ok a).
Proof. done. Qed.

Lemma no_panic_err {A} (e : gerror) : no_panic (@Err A e).
Proof. done. Qed.

Lemma no_panic_bind {A B} (m : result A) (f : A -> result B) :
  no_panic m -> (forall a, m = Ok a -> no_panic (f a)) -> no_panic (m ≫= f).
Proof. destruct m as [a | e |]; intros H Hf; [by apply Hf | done | done]. Qed.

Lemma no_panic_wrap {A} msg (m : result A) : no_panic m -> no_panic (wrap msg m).
Proof. by destruct m. Qed.

Lemma bind_ok_inv {A B} (m : result A) (f : A -> result B) b :
  m ≫= f = Ok b -> exists a, m = Ok a /\ f a = Ok b.
Proof. destruct m; cbn; naive_solver. Qed.

Lemma wrap_ok_inv {A} msg (m : result A) a : wrap msg m = Ok a -> m = Ok a.
Proof. by destruct m. Qed.

#[export] Hint Resolve no_panic_ok no_panic_err no_panic_wrap : go.

(** ** Machine integers *)

Lemma uint8_small z : 0 <= z < 256 -> uint8 z = z.
Proof. apply Z.mod_small. Qed.

Lemma uint16_small z : 0 <= z < 65536 -> uint16 z = z.
Proof. intros. unfold uint16. apply Z.mod_small. lia. Qed.

Lemma uint32_small z : 0 <= z < 2 ^ 32 -> uint32 z = z.
Proof. apply Z.mod_small. Qed.

Lemma uint64_small z : 0 <= z < 2 ^ 64 -> uint64 z = z.
Proof. apply Z.mod_small. Qed.

Lemma int64_small z : is_int64 z -> int64 z = z.
Proof. unfold is_int64, int64. intros. rewrite Z.mod_small by lia. lia. Qed.

Lemma int64_range z : is_int64 (int64 z).
Proof.
  unfold is_int64, int64.
  pose proof (Z.mod_pos_bound (z + 2 ^ 63) (2 ^ 64) ltac:(lia)). lia.
Qed.

Lemma uint64_range z : is_uint 64 (uint64 z).
Proof. apply Z.mod_pos_bound. lia. Qed.

Lemma int64_shift z k : int64 (z + k * 2 ^ 64) = int64 z.
Proof.
  unfold int64. f_equal.
  replace (z + k * 2 ^ 64 + 2 ^ 63) with (z + 2 ^ 63 + k * 2 ^ 64) by lia.
  apply Z.mod_add. lia.
Qed.

Lemma uint64_shift z k : uint64 (z + k * 2 ^ 64) = uint64 z.
Proof. apply Z.mod_add. lia. Qed.

Lemma int64_decomp z : exists k, int64 z = z + k * 2 ^ 64.
Proof.
  exists (- ((z + 2 ^ 63) / 2 ^ 64)). unfold int64.
  pose proof (Z.div_mod (z + 2 ^ 63) (2 ^ 64) ltac:(lia)). lia.
Qed.

Lemma uint64_decomp z : exists k, uint64 z = z + k * 2 ^ 64.
Proof.
  exists (- (z / 2 ^ 64)). unfold uint64.
  pose proof (Z.div_mod z (2 ^ 64) ltac:(lia)). lia.
Qed.

Lemma int64_uint64 z : int64 (uint64 z) = int64 z.
Proof. destruct (uint64_decomp z) as [k ->]. apply int64_shift. Qed.

Lemma uint64_int64 z : uint64 (int64 z) = uint64 z.
Proof. destruct (int64_decomp z) as [k ->]. apply uint64_shift. Qed.

Lemma int64_add_l a b : int64 (int64 a + b) = int64 (a + b).
Proof.
  destruct (int64_decomp a) as [k ->].
  replace (a + k * 2 ^ 64 + b) with (a + b + k * 2 ^ 64) by lia.
  apply int64_shift.
Qed.

Lemma int64_add_r a b : int64 (a + int64 b) = int64 (a + b).
Proof. rewrite Z.add_comm, int64_add_l. f_equal. lia. Qed.

(** Disjoint bit fields: [or] is addition. *)
Lemma lor_shift_add a b s :
  0 <= s -> 0 <= a < 2 ^ s -> Z.lor a (Z.shiftl b s) = a + b * 2 ^ s.
Proof.
  intros Hs Ha. rewrite <- (Z.shiftl_mul_pow2 b s Hs).
  assert (Z.land a (Z.shiftl b s) = 0) as Hd.
  { apply Z.bits_inj'. intros i Hi. rewrite Z.land_spec, Z.bits_0.
    destruct (Z.lt_ge_cases i s) as [Hlt | Hge].
    - rewrite (Z.shiftl_spec_low b s i Hlt). apply andb_false_r.
    - replace (Z.testbit a i) with false; [done |].
      rewrite <- (Z.mod_small a (2 ^ s)) by lia.
      symmetry. by apply Z.mod_pow2_bits_high. }
  rewrite <- Z.lxor_lor by done. symmetry. by apply Z.add_nocarry_lxor.
Qed.

Lemma lor_mul_add a b s :
  0 <= s -> 0 <= a < 2 ^ s -> Z.lor a (b * 2 ^ s) = a + b * 2 ^ s.
Proof.
  intros Hs Ha. rewrite <- (Z.shiftl_mul_pow2 b s Hs) at 1.
  by apply lor_shift_add.
Qed.

Lemma land_ones_mod a n : 0 <= n -> Z.land a (2 ^ n - 1) = a mod 2 ^ n.
Proof. intros. rewrite <- Z.land_ones, Z.ones_equiv by done. f_equal. Qed.

(** ** Lists *)

Section ListLemmas.
Context {A : Type}.
Implicit Types l data pre mid rest : list A.

Lemma len_nonneg l : 0 <= len l.
Proof. unfold len. lia. Qed.

Lemma len_nil : len (@nil A) = 0.
Proof. done. Qed.

Lemma len_cons a l : len (a :: l) = 1 + len l.
Proof. unfold len. cbn [length]. lia. Qed.

Lemma len_app l1 l2 : len (l1 ++ l2) = len l1 + len l2.
Proof. unfold len. rewrite length_app. lia. Qed.

Lemma len_0_nil l : len l = 0 -> l = [].
Proof. unfold len. destruct l; cbn; [done | lia]. Qed.

Lemma len_drop n l : 0 <= n <= len l -> len (drop (Z.to_nat n) l) = len l - n.
Proof. unfold len. rewrite length_drop. lia. Qed.

Lemma len_take n l : 0 <= n <= len l -> len (take (Z.to_nat n) l) = n.
Proof. unfold len. rewrite length_take. lia. Qed.

Lemma len_make (z : A) n : 0 <= n -> len (make z n) = n.
Proof. unfold len, make. rewrite length_replicate. lia. Qed.

Lemma len_insert i x l : len (<[i := x]> l) = len l.
Proof. unfold len. by rewrite length_insert. Qed.

Lemma drop_len_app l1 l2 : drop (Z.to_nat (len l1)) (l1 ++ l2) = l2.
Proof. unfold len. rewrite Nat2Z.id. apply drop_app_length. Qed.

Lemma slice_from_ok l i :
  0 <= i <= len l -> slice_from l i = Ok (drop (Z.to_nat i) l).
Proof. intros. unfold slice_from. by zcmp. Qed.

Lemma slice_from_split data pre rest i :
  data = pre ++ rest -> i = len pre -> slice_from data i = Ok rest.
Proof.
  intros -> ->. pose proof (len_nonneg pre). pose proof (len_nonneg rest).
  rewrite slice_from_ok by (rewrite len_app; lia). by rewrite drop_len_app.
Qed.

Lemma slice_ok l i j :
  0 <= i <= j -> j <= len l ->
  slice l i j = Ok (take (Z.to_nat (j - i)) (drop (Z.to_nat i) l)).
Proof. intros. unfold slice. by zcmp. Qed.

Lemma slice_split data pre mid rest i j :
  data = pre ++ mid ++ rest -> i = len pre -> j = len pre + len mid ->
  slice data i j = Ok mid.
Proof.
  intros -> -> ->. pose proof (len_nonneg pre). pose proof (len_nonneg mid).
  pose proof (len_nonneg rest).
  rewrite slice_ok by (rewrite ?len_app; lia).
  rewrite drop_len_app. f_equal.
  replace (len pre + len mid - len pre) with (len mid) by lia.
  unfold len. rewrite Nat2Z.id. apply take_app_length.
Qed.

Lemma index_ok l i :
  0 <= i < len l -> exists x, index l i = Ok x /\ l !! Z.to_nat i = Some x.
Proof.
  unfold index, len. intros. zcmp.
  destruct (lookup_lt_is_Some_2 l (Z.to_nat i)) as [x Hx]; [lia |].
  rewrite Hx. eauto.
Qed.

Lemma index_split data pre x rest i :
  data = pre ++ x :: rest -> i = len pre -> index data i = Ok x.
Proof.
  intros -> ->. pose proof (len_nonneg pre). unfold index. zcmp.
  unfold len. by rewrite Nat2Z.id, list_lookup_middle.
Qed.

Lemma index_no_panic l i : 0 <= i < len l -> no_panic (index l i).
Proof. intros (x & -> & _)%index_ok. done. Qed.

Lemma slice_no_panic l i j :
  0 <= i <= j -> j <= len l -> no_panic (slice l i j).
Proof. intros. by rewrite slice_ok. Qed.

Lemma slice_from_no_panic l i : 0 <= i <= len l -> no_panic (slice_from l i).
Proof. intros. by rewrite slice_from_ok. Qed.

End ListLemmas.

#[export] Hint Rewrite @len_nil @len_cons @len_app @len_insert : len.

Lemma len_fmap {A B} (f : A -> B) (l : list A) : len (f <$> l) = len l.
Proof. unfold len. by rewrite length_fmap. Qed.

(** ** Little-endian words *)

Lemma length_le_bytes n w : length (le_bytes n w) = n.
Proof. revert w. induction n; intros; cbn; auto. Qed.

Lemma len_le_bytes n w : len (le_bytes n w) = Z.of_nat n.
Proof. unfold len. by rewrite length_le_bytes. Qed.

#[export] Hint Rewrite len_le_bytes @len_fmap : len.

(** Every length in sight is non-negative. *)
Ltac len_pose :=
  repeat match goal with
  | |- context [len ?l] =>
      lazymatch goal with H : 0 <= len l |- _ => fail | _ => pose proof (len_nonneg l) end
  | _ : context [len ?l] |- _ =>
      lazymatch goal with H : 0 <= len l |- _ => fail | _ => pose proof (len_nonneg l) end
  end.

(** Normalise [len] and decide. *)
Ltac len_lia := autorewrite with len in *; len_pose; lia.

Lemma le_val_bytes n w : le_val (le_bytes n w) = w mod 256 ^ Z.of_nat n.
Proof.
  revert w. induction n as [| n IH]; intros w.
  { cbn. by rewrite Z.mod_1_r. }
  cbn [le_bytes le_val]. unfold uint8 at 1. change (2 ^ 8) with 256.
  rewrite IH, Z.mod_mod by lia.
  replace (Z.of_nat (S n)) with (1 + Z.of_nat n) by lia.
  rewrite Z.pow_add_r, Z.pow_1_r, Z.rem_mul_r by lia. lia.
Qed.

Lemma le_val_range l : 0 <= le_val l < 256 ^ len l.
Proof.
  induction l as [| b l IH]; [done |]. cbn [le_val]. unfold uint8.
  pose proof (Z.mod_pos_bound b (2 ^ 8) ltac:(lia)). pose proof (len_nonneg l).
  rewrite len_cons, Z.pow_add_r by lia. lia.
Qed.

Lemma le_uint_range n data v : le_uint n data = Ok v -> 0 <= v < 256 ^ Z.of_nat n.
Proof.
  unfold le_uint. destruct (Z.leb_spec (Z.of_nat n) (len data)); [| done].
  intros [= <-]. pose proof (le_val_range (take n data)) as Hr.
  replace (len (take n data)) with (Z.of_nat n) in Hr; [done |].
  unfold len in *. rewrite length_take. lia.
Qed.

Lemma le_uint_app n w rest :
  0 <= w < 256 ^ Z.of_nat n -> le_uint n (le_bytes n w ++ rest) = Ok w.
Proof.
  intros Hw. unfold le_uint. pose proof (len_nonneg rest).
  rewrite len_app, len_le_bytes. zcmp.
  rewrite take_app_length' by (by rewrite length_le_bytes).
  by rewrite le_val_bytes, Z.mod_small.
Qed.

Lemma Uint16_app w rest : is_uint 16 w -> Uint16 (le_bytes 2 w ++ rest) = Ok w.
Proof. intros. apply le_uint_app. exact H. Qed.

Lemma Uint32_app w rest : is_uint 32 w -> Uint32 (le_bytes 4 w ++ rest) = Ok w.
Proof. intros. apply le_uint_app. exact H. Qed.

Lemma Uint64_app w rest : is_uint 64 w -> Uint64 (le_bytes 8 w ++ rest) = Ok w.
Proof. intros. apply le_uint_app. exact H. Qed.

Lemma le_uint_no_panic n data : Z.of_nat n <= len data -> no_panic (le_uint n data).
Proof. intros. unfold le_uint. by zcmp. Qed.

(** ** Varints *)

Lemma lor_128 x : Z.lor (uint8 x) 128 = x mod 128 + 128.
Proof.
  unfold uint8.
  assert (x mod 128 = (x mod 2 ^ 8) mod 128) as ->.
  { change (2 ^ 8) with (128 * 2). rewrite Z.rem_mul_r by lia.
    rewrite Z.mul_comm, Z.mod_add, Z.mod_mod by lia. done. }
  pose proof (Z.mod_pos_bound x (2 ^ 8) ltac:(lia)) as Hb.
  revert Hb. generalize (x mod 2 ^ 8). intros b Hb.
  assert (forall n : nat, Z.of_nat n < 256 ->
    Z.lor (Z.of_nat n) 128 = Z.of_nat n mod 128 + 128) as Hall.
  { intros n Hn. do 256 (destruct n as [| n]; [done |]). lia. }
  rewrite <- (Z2Nat.id b) by lia. apply Hall. lia.
Qed.

Lemma land_127 x : Z.land (x mod 128 + 128) 127 = x mod 128.
Proof.
  change 127 with (2 ^ 7 - 1). rewrite land_ones_mod by lia.
  change (2 ^ 7) with 128. replace 128 with (1 * 128) at 2 by lia.
  rewrite Z.mod_add, Z.mod_mod by lia. done.
Qed.

Lemma put_uvarint_loop fuel x i acc rest :
  (1 <= fuel)%nat -> 0 <= i -> i + Z.of_nat fuel = 10 ->
  0 <= acc < 2 ^ (7 * i) -> 0 <= x -> acc + x * 2 ^ (7 * i) < 2 ^ 64 ->
  uvarint_loop (put_uvarint fuel x ++ rest) i acc (7 * i) =
    (acc + x * 2 ^ (7 * i), i + len (put_uvarint fuel x)).
Proof.
  revert x i acc. induction fuel as [| fuel IH]; intros x i acc Hf Hi Hif Ha Hx Hb;
    [lia |].
  assert (0 < 2 ^ (7 * i)) as Hp by lia.
  cbn [put_uvarint]. destruct (Z.ltb_spec x 128) as [Hlt | Hge].
  - cbn [app uvarint_loop]. unfold MaxVarintLen64. zcmp.
    assert ((i =? 10 - 1) && (1 <? x) = false) as ->.
    { destruct (Z.eqb_spec i (10 - 1)) as [-> |]; [| done]. cbn in Hb. zcmp. done. }
    rewrite Z.shiftl_mul_pow2, uint64_small by lia.
    rewrite lor_mul_add by lia. done.
  - assert (1 <= fuel)%nat as Hf'.
    { destruct fuel; [| lia]. assert (i = 9) as -> by lia.
      change (2 ^ (7 * 9)) with (2 ^ 63) in *. lia. }
    assert (2 ^ (7 * (i + 1)) = 128 * 2 ^ (7 * i)) as Hp7.
    { replace (7 * (i + 1)) with (7 + 7 * i) by lia.
      rewrite Z.pow_add_r by lia. done. }
    pose proof (Z.mod_pos_bound x 128 ltac:(lia)) as Hm.
    pose proof (Z.div_mod x 128 ltac:(lia)) as Hdm.
    rewrite lor_128. cbn [app uvarint_loop]. unfold MaxVarintLen64. zcmp.
    rewrite land_127, Z.shiftl_mul_pow2, uint64_small by nia.
    rewrite lor_mul_add by lia.
    replace (7 * i + 7) with (7 * (i + 1)) by lia.
    rewrite Z.shiftr_div_pow2 by lia. change (2 ^ 7) with 128.
    rewrite IH by (lia || nia || (apply Z.div_pos; lia)).
    rewrite Hp7, len_cons. f_equal; [nia | lia].
Qed.

Lemma Uvarint_put x rest :
  is_uint 64 x ->
  Uvarint (binary_PutUvarint x ++ rest) = (x, len (binary_PutUvarint x)).
Proof.
  intros [Hx1 Hx2]. unfold Uvarint, binary_PutUvarint.
  pose proof (put_uvarint_loop 10 x 0 0 rest) as H.
  change (7 * 0) with 0 in H. change (2 ^ 0) with 1 in H.
  rewrite H by lia. f_equal; lia.
Qed.

Lemma put_uvarint_len fuel x : len (put_uvarint fuel x) <= Z.of_nat fuel.
Proof.
  revert x. induction fuel as [| fuel IH]; intros x; cbn [put_uvarint]; [done |].
  destruct (x <? 128); rewrite len_cons; [rewrite len_nil; lia |]. specialize (IH (Z.shiftr x 7)). lia.
Qed.

Lemma put_uvarint_pos fuel x : 1 <= len (put_uvarint (S fuel) x).
Proof.
  cbn [put_uvarint]. destruct (x <? 128); rewrite len_cons; [done |].
  pose proof (len_nonneg (put_uvarint fuel (Z.shiftr x 7))). lia.
Qed.

Lemma PutUvarint_len x : 1 <= len (binary_PutUvarint x) <= 10.
Proof. split; [apply put_uvarint_pos | apply (put_uvarint_len 10)]. Qed.

(** The byte count [Uvarint] reports lies within the buffer. *)
Lemma uvarint_loop_bound buf i x s :
  0 <= i -> (uvarint_loop buf i x s).2 <= i + len buf.
Proof.
  revert i x s. induction buf as [| b buf IH]; intros i x s Hi; cbn [uvarint_loop];
    [cbn; unfold len; cbn; lia |].
  rewrite len_cons. pose proof (len_nonneg buf).
  unfold MaxVarintLen64. zbool; try lia.
  all: try (specialize (IH (i + 1)
    (Z.lor x (uint64 (Z.shiftl (Z.land b 127) s))) (s + 7) ltac:(lia)); lia).
Qed.

Lemma Uvarint_bound buf v n : Uvarint buf = (v, n) -> n <= len buf.
Proof.
  intros H. pose proof (uvarint_loop_bound buf 0 0 0 ltac:(lia)) as Hb.
  unfold Uvarint in H. rewrite H in Hb. cbn in Hb. lia.
Qed.

Lemma land_1_odd z : Z.land z 1 = z mod 2.
Proof. apply (land_ones_mod z 1). lia. Qed.

Lemma Varint_put x rest :
  is_int64 x ->
  Varint (binary_PutVarint x ++ rest) = (x, len (binary_PutVarint x)).
Proof.
  intros [Hlo Hhi]. unfold Varint, binary_PutVarint.
  set (ux := if x <? 0 then _ else _).
  assert (ux = if x <? 0 then - 2 * x - 1 else 2 * x) as Hux.
  { subst ux. rewrite Z.shiftl_mul_pow2 by lia. destruct (Z.ltb_spec x 0).
    - assert (uint64 x = x + 2 ^ 64) as ->.
      { rewrite <- (uint64_small (x + 2 ^ 64)) by lia.
        rewrite <- (uint64_shift x 1). f_equal; lia. }
      replace ((x + 2 ^ 64) * 2 ^ 1) with (2 * x + 2 ^ 64 + 1 * 2 ^ 64) by lia.
      rewrite uint64_shift, (uint64_small (2 * x + 2 ^ 64)) by lia.
      unfold Z.lnot. replace (Z.pred (- (2 * x + 2 ^ 64)))
        with (- 2 * x - 1 + -1 * 2 ^ 64) by lia.
      rewrite uint64_shift. apply uint64_small. lia.
    - rewrite (uint64_small x), uint64_small by lia. lia. }
  assert (is_uint 64 ux) by (rewrite Hux; unfold is_uint; destruct (Z.ltb_spec x 0); lia).
  rewrite Uvarint_put by done. f_equal.
  rewrite Z.shiftr_div_pow2, land_1_odd, Hux by lia. change (2 ^ 1) with 2.
  destruct (Z.ltb_spec x 0).
  - replace (-2 * x - 1) with (1 + (- x - 1) * 2) by lia.
    rewrite Z.mod_add, Z.div_add by lia. change (1 mod 2) with 1.
    change (1 / 2) with 0. cbn [Z.eqb Pos.eqb negb]. rewrite Z.add_0_l.
    rewrite int64_small by (unfold is_int64; lia). unfold Z.lnot. lia.
  - replace (2 * x) with (0 + x * 2) by lia.
    rewrite Z.mod_add, Z.div_add by lia. change (0 mod 2) with 0.
    change (0 / 2) with 0. cbn [Z.eqb negb]. rewrite Z.add_0_l.
    apply int64_small. unfold is_int64; lia.
Qed.

Lemma PutVarint_len x : 1 <= len (binary_PutVarint x) <= 10.
Proof. apply PutUvarint_len. Qed.

Lemma Varint_bound buf v n : Varint buf = (v, n) -> n <= len buf.
Proof.
  unfold Varint. destruct (Uvarint buf) as [u k] eqn:E. intros [= _ <-].
  by eapply Uvarint_bound.
Qed.

(** [make([]T, n)] panics on a negative length. *)
Definition check_make (n : Z) : result unit := if n <? 0 then Panic else Ok tt.

Lemma check_make_ok n : 0 <= n -> check_make n = Ok tt.
Proof. intros. unfold check_make. by zcmp. Qed.

(** ** First-occurrence deduplication *)

Section Uniq.
Context {A : Type} `{EqDecision A}.
Implicit Types (x : A) (l seen : list A).

(** The elements of [l] that are not in [seen], each at its first occurrence. *)
Fixpoint uniq_from seen l : list A :=
  match l with
  | [] => []
  | x :: l =>
      if bool_decide (x ∈ seen) then uniq_from seen l
      else x :: uniq_from (seen ++ [x]) l
  end.

Definition uniq l : list A := uniq_from [] l.

Lemma elem_of_uniq_from seen l x : x ∈ uniq_from seen l <-> x ∈ l /\ x ∉ seen.
Proof.
  revert seen. induction l as [| y l IH]; intros seen; cbn [uniq_from]; [set_solver |].
  case_bool_decide; [rewrite IH; set_solver |].
  rewrite elem_of_cons, IH, elem_of_cons, elem_of_app, list_elem_of_singleton.
  destruct (decide (x = y)) as [-> |]; naive_solver.
Qed.

Lemma elem_of_uniq l x : x ∈ uniq l <-> x ∈ l.
Proof. unfold uniq. rewrite elem_of_uniq_from. set_solver. Qed.

Lemma NoDup_uniq_from seen l : NoDup (uniq_from seen l).
Proof.
  revert seen. induction l as [| y l IH]; intros seen; cbn [uniq_from]; [constructor |].
  case_bool_decide; [apply IH |]. constructor; [| apply IH].
  rewrite elem_of_uniq_from. set_solver.
Qed.

Lemma NoDup_uniq l : NoDup (uniq l).
Proof. apply NoDup_uniq_from. Qed.

End Uniq.

Lemma Forall_filtered {A} (Q P : A -> Prop) `{!forall x, Decision (P x)} (l : list A) :
  Forall Q l -> Forall Q (filter P l).
Proof.
  intros HQ. apply list.Forall_forall. intros x [_ Hx]%list_elem_of_filter.
  by eapply list.Forall_forall in HQ.
Qed.

Lemma to_nat_len {A} (l : list A) : Z.to_nat (len l) = length l.
Proof. unfold len. lia. Qed.
