(* ===== verification/Framing.v ===== *)
(** * Value framing (internal/logstore/encoding/strlen.go and varint.go)

    Every variable-length value of the WAL and of the chunk columns is a length
    prefix followed by the raw bytes.  [LenUint16] is the legacy prefix,
    [LenExtended] the current one, in which [0xFFFF] escapes to a 32-bit length.
    The file also holds the zigzag mapping of signed deltas.

    Main results: a value written by [AppendLenString] is read back exactly
    whatever surrounds it, short values are read back by the legacy reader too,
    and no reader panics whatever the bytes are. *)

From stdpp Require Import base list gmap strings numbers.
From Stdlib Require Import ZArith Lia.
From S2P Require Import Prelude.

Inductive LenFormat := LenUint16 | LenExtended.

#[export] Instance LenFormat_eq_dec : EqDecision LenFormat.
Proof. solve_decision. Defined.

Definition extendedLenMarker : Z := 65535.
Definition maxUint16Len : Z := extendedLenMarker - 1.
Definition MaxValueBytes : Z := Z.shiftl 1 30.

Definition appendLen (buf : bytes) (n : Z) : bytes :=
  if n <=? maxUint16Len then AppendUint16 buf (uint16 n)
  else
    let buf := AppendUint16 buf extendedLenMarker in
    AppendUint32 buf (uint32 n).

Definition AppendLenString (buf s : bytes) : bytes :=
  let buf := appendLen buf (len s) in
  buf ++ s.

Definition AppendLenBytes (buf b : bytes) : bytes :=
  let buf := appendLen buf (len b) in
  buf ++ b.

(** The length and the offset of the first value byte. *)
Definition ReadLen (f : LenFormat) (data : bytes) (off : Z) : result (Z * Z) :=
  if len data <? off + 2 then Err (Errorf "truncated length prefix")
  else
    d ← slice_from data off;
    n ← Uint16 d;
    let off := off + 2 in
    '(n, off) ←
      (if bool_decide (f = LenExtended) && (n =? extendedLenMarker) then
         if len data <? off + 4 then Err (Errorf "truncated extended length prefix")
         else
           d ← slice_from data off;
           n ← Uint32 d;
           Ok (n, off + 4)
       else Ok (n, off));
    if (n <? 0) || (MaxValueBytes <? n) then Err (Errorf "value length out of range")
    else Ok (n, off).

Definition ReadValue (f : LenFormat) (data : bytes) (off : Z) : result (bytes * Z) :=
  '(n, off) ← ReadLen f data off;
  if len data <? off + n then Err (Errorf "truncated value")
  else
    v ← slice data off (off + n);
    Ok (v, off + n).

Definition ReadString (f : LenFormat) (data : bytes) (off : Z) : result (bytes * Z) :=
  '(v, next) ← ReadValue f data off;
  Ok (v, next).

(** ** varint.go *)

Definition PutVarint (dst : bytes) (v : Z) : bytes := dst ++ binary_PutVarint v.
Definition PutUvarint (dst : bytes) (v : Z) : bytes := dst ++ binary_PutUvarint v.

Definition ZigZagEncode (v : Z) : Z :=
  uint64 (Z.lxor (int64 (Z.shiftl v 1)) (Z.shiftr v 63)).

Definition ZigZagDecode (v : Z) : Z :=
  Z.lxor (int64 (Z.shiftr v 1)) (- int64 (Z.land v 1)).

(** ** Appending *)

Lemma appendLen_app buf n : appendLen buf n = buf ++ appendLen [] n.
Proof.
  unfold appendLen, AppendUint16, AppendUint32. destruct (n <=? maxUint16Len);
    by rewrite ?app_nil_l, <- ?app_assoc.
Qed.

Lemma AppendLenString_app buf s : AppendLenString buf s = buf ++ AppendLenString [] s.
Proof. unfold AppendLenString. by rewrite appendLen_app, app_assoc. Qed.

Lemma AppendLenString_len s :
  len (AppendLenString [] s) = len s + (if len s <=? maxUint16Len then 2 else 6).
Proof.
  unfold AppendLenString, appendLen, AppendUint16, AppendUint32.
  destruct (len s <=? maxUint16Len); rewrite ?app_nil_l; autorewrite with len; lia.
Qed.

Lemma AppendLenString_len_bound s :
  len s + 2 <= len (AppendLenString [] s) <= len s + 6.
Proof. rewrite AppendLenString_len. destruct (len s <=? maxUint16Len); lia. Qed.

(** The framed form of a string. *)
Definition frame (s : bytes) : bytes := AppendLenString [] s.

(** A string the framing can hold under format [f]. *)
Definition framable (f : LenFormat) (s : bytes) : Prop :=
  len s <= MaxValueBytes /\ (f = LenUint16 -> len s <= maxUint16Len).

(** ** Reading *)

Lemma ReadLen_append f pre n rest :
  0 <= n <= MaxValueBytes -> (f = LenUint16 -> n <= maxUint16Len) ->
  ReadLen f (pre ++ appendLen [] n ++ rest) (len pre) =
    Ok (n, len pre + len (appendLen [] n)).
Proof.
  unfold MaxValueBytes. change (Z.shiftl 1 30) with (2 ^ 30).
  intros Hn Hf. pose proof (len_nonneg pre). pose proof (len_nonneg rest).
  unfold ReadLen, appendLen, AppendUint16, AppendUint32.
  rewrite app_nil_l. destruct (Z.leb_spec n maxUint16Len) as [Hs | Hs];
    unfold maxUint16Len, extendedLenMarker in *.
  - rewrite uint16_small by lia. autorewrite with len. zcmp.
    rewrite (slice_from_split _ pre (le_bytes 2 n ++ rest) (len pre)) by done.
    cbn [mbind result_bind]. rewrite Uint16_app by (unfold is_uint; lia). cbn [mbind result_bind]. zcmp.
    rewrite andb_false_r. cbn [mbind result_bind].
    unfold MaxValueBytes. change (Z.shiftl 1 30) with (2 ^ 30). by zcmp.
  - destruct f; [specialize (Hf eq_refl); lia |].
    rewrite uint32_small by lia. autorewrite with len. zcmp.
    rewrite (slice_from_split _ pre (le_bytes 2 65535 ++ le_bytes 4 n ++ rest) (len pre))
      by (by rewrite <- ?app_assoc).
    cbn [mbind result_bind]. rewrite Uint16_app by (unfold is_uint; lia). cbn [mbind result_bind].
    rewrite bool_decide_eq_true_2 by done. zcmp.
    rewrite (slice_from_split _ (pre ++ le_bytes 2 65535) (le_bytes 4 n ++ rest))
      by (rewrite <- ?app_assoc; done || len_lia).
    cbn [mbind result_bind]. rewrite Uint32_app by (unfold is_uint; lia).
    cbn [mbind result_bind]. unfold MaxValueBytes.
    change (Z.shiftl 1 30) with (2 ^ 30). zcmp. do 2 f_equal. lia.
Qed.

Lemma ReadString_append f pre s rest :
  len s <= MaxValueBytes -> (f = LenUint16 -> len s <= maxUint16Len) ->
  ReadString f (pre ++ AppendLenString [] s ++ rest) (len pre) =
    Ok (s, len pre + len (AppendLenString [] s)).
Proof.
  intros Hs Hf. pose proof (len_nonneg s). pose proof (len_nonneg rest).
  unfold ReadString, ReadValue, AppendLenString. rewrite <- app_assoc.
  rewrite ReadLen_append by (done || lia). cbn [mbind result_bind].
  autorewrite with len. zcmp.
  rewrite (slice_split _ (pre ++ appendLen [] (len s)) s rest)
    by (rewrite <- ?app_assoc; done || len_lia).
  cbn [mbind result_bind]. do 2 f_equal. lia.
Qed.

(** The form in which sequential decoders use it. *)
Lemma ReadString_split f data pre s rest off :
  data = pre ++ AppendLenString [] s ++ rest -> off = len pre ->
  len s <= MaxValueBytes -> (f = LenUint16 -> len s <= maxUint16Len) ->
  ReadString f data off = Ok (s, off + len (AppendLenString [] s)).
Proof. intros -> -> ? ?. by apply ReadString_append. Qed.

Lemma ReadLen_bounds f data off n off' :
  ReadLen f data off = Ok (n, off') -> off + 2 <= off' <= len data /\ 0 <= n <= MaxValueBytes.
Proof.
  unfold ReadLen. destruct (Z.ltb_spec (len data) (off + 2)); [done |].
  intros (d & Hd & H1)%bind_ok_inv.
  apply bind_ok_inv in H1 as (m & Hm & H1).
  apply bind_ok_inv in H1 as ([k o] & Hk & H1).
  assert (off + 2 <= o <= len data).
  { destruct (bool_decide (f = LenExtended) && (m =? extendedLenMarker));
      [| injection Hk as <- <-; lia].
    destruct (Z.ltb_spec (len data) (off + 2 + 4)); [done |].
    apply bind_ok_inv in Hk as (? & _ & Hk).
    apply bind_ok_inv in Hk as (? & _ & [= <- <-]). lia. }
  zbool; try done; injection H1 as <- <-; lia.
Qed.

Lemma ReadString_bounds f data off v off' :
  ReadString f data off = Ok (v, off') -> off + 2 <= off' <= len data.
Proof.
  unfold ReadString, ReadValue.
  intros ([v1 o1] & H & [= <- <-])%bind_ok_inv.
  apply bind_ok_inv in H as ([n o] & Hn & H). apply ReadLen_bounds in Hn.
  destruct (Z.ltb_spec (len data) (o + n)); [done |].
  apply bind_ok_inv in H as (? & _ & [= <- <-]). lia.
Qed.

Lemma ReadLen_no_panic f data off : 0 <= off -> no_panic (ReadLen f data off).
Proof.
  intros Hoff. unfold ReadLen. destruct (Z.ltb_spec (len data) (off + 2)); [done |].
  rewrite (slice_from_ok data off) by lia. cbn [mbind result_bind].
  apply no_panic_bind; [apply le_uint_no_panic; rewrite len_drop; lia |].
  intros n _. apply no_panic_bind.
  - destruct (_ && _); [| done].
    destruct (Z.ltb_spec (len data) (off + 2 + 4)); [done |].
    rewrite slice_from_ok by lia. cbn [mbind result_bind].
    apply no_panic_bind; [apply le_uint_no_panic; rewrite len_drop; lia | done].
  - intros [m o] _. by destruct (_ || _).
Qed.

Lemma ReadString_no_panic f data off : 0 <= off -> no_panic (ReadString f data off).
Proof.
  intros Hoff. unfold ReadString, ReadValue.
  apply no_panic_bind; [| by intros []].
  apply no_panic_bind; [by apply ReadLen_no_panic |].
  intros [n o] Hn%ReadLen_bounds.
  destruct (Z.ltb_spec (len data) (o + n)); [done |].
  rewrite slice_ok by lia. done.
Qed.

#[export] Hint Resolve ReadString_no_panic ReadLen_no_panic : go.

(** ** Zigzag *)

Lemma ZigZagEncode_spec v :
  is_int64 v -> ZigZagEncode v = if v <? 0 then - 2 * v - 1 else 2 * v.
Proof.
  intros [Hlo Hhi]. unfold ZigZagEncode.
  rewrite Z.shiftl_mul_pow2, Z.shiftr_div_pow2 by lia. change (2 ^ 1) with 2.
  destruct (Z.ltb_spec v 0).
  - assert (v / 2 ^ 63 = -1) as ->.
    { symmetry. apply (Z.div_unique _ _ _ (v + 2 ^ 63)); lia. }
    rewrite Z.lxor_m1_r. unfold Z.lnot. destruct (int64_decomp (v * 2)) as [k ->].
    replace (Z.pred (- (v * 2 + k * 2 ^ 64))) with (-2 * v - 1 + - k * 2 ^ 64) by lia.
    rewrite uint64_shift. apply uint64_small. lia.
  - rewrite Z.div_small, Z.lxor_0_r, uint64_int64, uint64_small by lia. lia.
Qed.

Lemma ZigZagEncode_range v : is_int64 v -> is_uint 64 (ZigZagEncode v).
Proof.
  intros H. rewrite ZigZagEncode_spec by done. unfold is_int64, is_uint in *.
  destruct (Z.ltb_spec v 0); lia.
Qed.

Lemma ZigZag_roundtrip v : is_int64 v -> ZigZagDecode (ZigZagEncode v) = v.
Proof.
  intros H. rewrite ZigZagEncode_spec by done. unfold ZigZagDecode.
  rewrite Z.shiftr_div_pow2, land_1_odd by lia. change (2 ^ 1) with 2.
  unfold is_int64 in H. destruct (Z.ltb_spec v 0).
  - replace (-2 * v - 1) with (1 + (- v - 1) * 2) by lia.
    rewrite Z.mod_add, Z.div_add by lia.
    change (1 / 2) with 0. change (1 mod 2) with 1.
    rewrite (int64_small 1), (int64_small (0 + _)) by (unfold is_int64; lia).
    change (- (1)) with (-1). rewrite Z.lxor_m1_r. unfold Z.lnot. lia.
  - replace (2 * v) with (0 + v * 2) by lia.
    rewrite Z.mod_add, Z.div_add by lia.
    change (0 / 2) with 0. change (0 mod 2) with 0.
    rewrite (int64_small 0), (int64_small (0 + _)) by (unfold is_int64; lia).
    change (- (0)) with 0. rewrite Z.lxor_0_r. lia.
Qed.

(** ** Properties *)

(** A string framed by [AppendLenString] is read back exactly, together with
    the offset just past it, wherever it lies in a buffer; the legacy 16-bit
    reader agrees for strings of at most 65534 bytes. *)
Theorem framed_string_roundtrip (f : LenFormat) (buf s rest : bytes) :
  framable f s ->
  ReadString f (AppendLenString buf s ++ rest) (len buf) =
    Ok (s, len (AppendLenString buf s)).
Proof.
  intros [H1 H2]. rewrite AppendLenString_app, <- app_assoc.
  rewrite (ReadString_append f buf s rest H1 H2). by rewrite len_app.
Qed.

Lemma framed_string_roundtrip_witness :
  ReadString LenUint16 (AppendLenString [7; 8] (str "hello") ++ [9]) 2 = Ok (str "hello", 9).
Proof. apply (framed_string_roundtrip LenUint16 [7; 8] (str "hello") [9]). split; done. Defined.
