(* ===== verification/Zstd.v ===== *)
(** * The compression boundary (internal/logstore/encoding/zstd.go)

    The zstd codec itself is github.com/klauspost/compress/zstd, which is not
    part of the repository: it is the class [Zstd], with the documented
    behaviour the code relies on in [ZstdLaws].  What the repository adds around
    it, the per-column decode ceiling, the decoder pool and the bounded
    decompression, is modelled here.

    Main results: a block whose size respects the ceiling is decompressed to
    exactly what was compressed, and whatever the input is, a decoded block
    never exceeds the smallest pool bucket above the ceiling. *)

From stdpp Require Import base list gmap strings numbers.
From Stdlib Require Import ZArith Lia.
From S2P Require Import Prelude.

(** ** The codec *)

(** [EncodeAll src] is the frame of [src].  [header_FCS src] is the frame
    content size when [zstd.Header.Decode] succeeds and [HasFCS] holds.
    [DecodeAll mem src] runs a decoder built with
    [WithDecoderMaxMemory(mem)]; [None] is a decoding error. *)
Class Zstd := {
  EncodeAll : bytes -> bytes;
  header_FCS : bytes -> option Z;
  DecodeAll : Z -> bytes -> option bytes
}.

Class ZstdLaws (C : Zstd) : Prop := {
  (** A frame's declared content size is the size of its content. *)
  zstd_fcs src n : header_FCS (EncodeAll src) = Some n -> n = len src;
  (** Decoding inverts encoding within the decoder's memory. *)
  zstd_decode mem src : len src <= mem -> DecodeAll mem (EncodeAll src) = Some src;
  (** Only empty input yields an empty output. *)
  zstd_nonempty src : EncodeAll src = [] -> src = [];
  (** A decoder never produces more than its maximum memory. *)
  zstd_bounded mem src out : DecodeAll mem src = Some out -> len out <= mem
}.

(** ** Ceilings *)

Definition MaxBlockBytes : Z := Z.shiftl 2 30.
Definition MaxColumnValueBytes : Z := Z.shiftl 1 20.
Definition MaxVarintBytes : Z := 10.
Definition MaxLenFramingBytes : Z := 8.
Definition minDecodeCeiling : Z := Z.shiftl 1 16.
Definition decoderBucketMin : Z := Z.shiftl 1 20.

Definition DecodeCeiling (count perValueBytes : Z) : Z :=
  if (count <=? 0) || (perValueBytes <=? 0) then minDecodeCeiling
  else if MaxBlockBytes / perValueBytes <? count then MaxBlockBytes
  else
    let n := count * perValueBytes in
    if minDecodeCeiling <? n then n else minDecodeCeiling.

(** [for b < max { b <<= 1 }] *)
Fixpoint bucket_loop (fuel : nat) (b max : Z) : Z :=
  match fuel with
  | O => b
  | S fuel => if b <? max then bucket_loop fuel (Z.shiftl b 1) max else b
  end.

(** Eleven doublings take [decoderBucketMin] to [MaxBlockBytes], above every
    argument that reaches the loop. *)
Definition bucket_fuel : nat := 11.

Definition decoderBucket (max : Z) : Z :=
  if MaxBlockBytes <=? max then MaxBlockBytes
  else bucket_loop bucket_fuel decoderBucketMin max.

(** ** The decoder pool *)

(** A decoder is determined by the maximum memory it was built with. *)
Record Decoder := { maxMemory : Z }.

(** [decoderPool]: a map from bucket to decoder.  [boundedDecoder] returns the
    decoder and the pool after the call; [LoadOrStore] keeps the decoder that is
    already published. *)
Definition boundedDecoder (pool : gmap Z Decoder) (max : Z) : Decoder * gmap Z Decoder :=
  let bucket := decoderBucket max in
  match pool !! bucket with
  | Some d => (d, pool)
  | None =>
      let d := {| maxMemory := bucket |} in
      (d, <[bucket := d]> pool)
  end.

(** ** Compression and bounded decompression *)

Section Codec.
Context {C : Zstd}.

(** An oversized block is only logged. *)
Definition Compress (src : bytes) : bytes := EncodeAll src.

(** The decoder comes from the pool; [boundedDecoder_memory] below shows that it
    is the one of [decoderBucket maxDecoded] whatever the pool holds. *)
Definition DecompressBounded (src : bytes) (maxDecoded : Z) : result bytes :=
  if len src =? 0 then Ok []
  else
    let maxDecoded :=
      if (maxDecoded <=? 0) || (MaxBlockBytes <? maxDecoded) then MaxBlockBytes
      else maxDecoded in
    match header_FCS src with
    | Some fcs =>
        if uint64 maxDecoded <? fcs then Err (Errorf "zstd: declared decoded size exceeds ceiling")
        else
          match DecodeAll (decoderBucket maxDecoded) src with
          | Some out => Ok out
          | None => Err (Errorf "zstd decode")
          end
    | None =>
        match DecodeAll (decoderBucket maxDecoded) src with
        | Some out => Ok out
        | None => Err (Errorf "zstd decode")
        end
    end.

Definition Decompress (src : bytes) : result bytes := DecompressBounded src MaxBlockBytes.

End Codec.

(** ** Buckets *)

Lemma bucket_loop_spec fuel b max :
  0 < b -> max <= b * 2 ^ Z.of_nat fuel ->
  max <= bucket_loop fuel b max <= Z.max b (2 * max).
Proof.
  revert b. induction fuel as [| fuel IH]; intros b Hb Hmax.
  { cbn in *. lia. }
  cbn [bucket_loop]. destruct (Z.ltb_spec b max); [| lia].
  rewrite Z.shiftl_mul_pow2, Z.pow_1_r by lia.
  assert (max <= b * 2 * 2 ^ Z.of_nat fuel).
  { rewrite Nat2Z.inj_succ, Z.pow_succ_r in Hmax by lia. lia. }
  specialize (IH (b * 2) ltac:(lia) ltac:(done)). lia.
Qed.

(** The bucket covers the ceiling, and is at most twice it (or the floor). *)
Lemma decoderBucket_spec max :
  0 < max <= MaxBlockBytes ->
  max <= decoderBucket max <= Z.max decoderBucketMin (2 * max).
Proof.
  unfold decoderBucket, MaxBlockBytes, decoderBucketMin.
  change (Z.shiftl 2 30) with (2 ^ 31). change (Z.shiftl 1 20) with (2 ^ 20).
  intros Hm. destruct (Z.leb_spec (2 ^ 31) max); [lia |].
  apply bucket_loop_spec; [lia |].
  change (2 ^ 20 * 2 ^ Z.of_nat bucket_fuel) with (2 ^ 31). lia.
Qed.

Definition pool_ok (pool : gmap Z Decoder) : Prop :=
  forall b d, pool !! b = Some d -> maxMemory d = b.

Lemma boundedDecoder_pool_ok pool max :
  pool_ok pool -> pool_ok (boundedDecoder pool max).2.
Proof.
  intros Hp. unfold boundedDecoder. destruct (pool !! decoderBucket max); [done |].
  intros b d. cbn. intros [[<- <-] | [_ H]]%lookup_insert_Some; [done | by apply Hp].
Qed.

Lemma boundedDecoder_memory pool max :
  pool_ok pool -> maxMemory (boundedDecoder pool max).1 = decoderBucket max.
Proof.
  intros Hp. unfold boundedDecoder.
  destruct (pool !! decoderBucket max) eqn:E; [by apply Hp | done].
Qed.

(** ** Ceilings *)

Lemma DecodeCeiling_range count per : 0 < DecodeCeiling count per <= MaxBlockBytes.
Proof.
  unfold DecodeCeiling, MaxBlockBytes, minDecodeCeiling.
  change (Z.shiftl 2 30) with (2 ^ 31). change (Z.shiftl 1 16) with (2 ^ 16).
  destruct (Z.leb_spec count 0); [cbn; lia |].
  destruct (Z.leb_spec per 0); [cbn; lia |]. cbn [orb].
  destruct (Z.ltb_spec (2 ^ 31 / per) count); [lia |].
  assert (count * per <= 2 ^ 31).
  { transitivity (2 ^ 31 / per * per); [nia |].
    rewrite Z.mul_comm. apply Z.mul_div_le. lia. }
  destruct (Z.ltb_spec (2 ^ 16) (count * per)); lia.
Qed.

(** What [count] values of at most [per] bytes can fill fits the ceiling. *)
Lemma DecodeCeiling_covers count per total :
  0 < per -> total <= count * per -> total <= MaxBlockBytes ->
  total <= DecodeCeiling count per.
Proof.
  unfold DecodeCeiling, MaxBlockBytes, minDecodeCeiling.
  change (Z.shiftl 2 30) with (2 ^ 31). change (Z.shiftl 1 16) with (2 ^ 16).
  intros Hper Ht Hmax. destruct (Z.leb_spec count 0); [cbn; nia |].
  zcmp. destruct (Z.ltb_spec (2 ^ 31 / per) count); [lia |].
  destruct (Z.ltb_spec (2 ^ 16) (count * per)); lia.
Qed.

(** ** Decompression *)

Section CodecLemmas.
Context {C : Zstd} {L : ZstdLaws C}.

Lemma DecompressBounded_Compress src ceil :
  0 < ceil <= MaxBlockBytes -> len src <= ceil ->
  DecompressBounded (Compress src) ceil = Ok src.
Proof.
  intros Hc Hs. unfold DecompressBounded, Compress.
  destruct (Z.eqb_spec (len (EncodeAll src)) 0) as [H0 | H0].
  { apply len_0_nil, zstd_nonempty in H0. by rewrite H0. }
  zcmp. pose proof (decoderBucket_spec ceil Hc) as [Hb _].
  assert (uint64 ceil = ceil) as Hu.
  { apply uint64_small. unfold MaxBlockBytes in Hc.
    change (Z.shiftl 2 30) with (2 ^ 31) in Hc. lia. }
  rewrite (zstd_decode (decoderBucket ceil) src) by lia.
  destruct (header_FCS (EncodeAll src)) as [n |] eqn:Hf; [| done].
  apply zstd_fcs in Hf as ->. by zcmp.
Qed.

Lemma Decompress_Compress src :
  len src <= MaxBlockBytes -> Decompress (Compress src) = Ok src.
Proof. intros. by apply DecompressBounded_Compress. Qed.

Lemma DecompressBounded_column count per src :
  0 < per -> len src <= count * per -> len src <= MaxBlockBytes ->
  DecompressBounded (Compress src) (DecodeCeiling count per) = Ok src.
Proof.
  intros. apply DecompressBounded_Compress; [apply DecodeCeiling_range |].
  by apply DecodeCeiling_covers.
Qed.

Lemma DecompressBounded_no_panic src max : no_panic (DecompressBounded src max).
Proof.
  unfold DecompressBounded. destruct (len src =? 0); [done |].
  destruct (header_FCS src); [destruct (_ <? _); [done |] |]; by destruct (DecodeAll _ _).
Qed.

(** Hostile input: whatever the bytes are, the decoded block stays below the
    pool bucket of the ceiling. *)
Lemma DecompressBounded_bounded src ceil out :
  0 < ceil <= MaxBlockBytes -> DecompressBounded src ceil = Ok out ->
  len out <= Z.max decoderBucketMin (2 * ceil).
Proof.
  intros Hc. pose proof (decoderBucket_spec ceil Hc) as [_ Hb].
  unfold DecompressBounded. destruct (len src =? 0).
  { intros [= <-]. rewrite len_nil. unfold decoderBucketMin.
    change (Z.shiftl 1 20) with (2 ^ 20). lia. }
  zcmp. intros H.
  assert (DecodeAll (decoderBucket ceil) src = Some out) as Hd.
  { destruct (header_FCS src); [destruct (_ <? _); [done |] |];
      destruct (DecodeAll _ _); congruence. }
  apply zstd_bounded in Hd. lia.
Qed.

End CodecLemmas.

#[export] Hint Resolve DecompressBounded_no_panic : go.

(** ** A concrete codec

    Frames of one marker byte followed by the content, used to evaluate the
    model and to show that the laws can hold. *)

Definition stored_codec : Zstd := {|
  EncodeAll := fun src => match src with [] => [] | _ => 40 :: src end;
  header_FCS := fun _ => None;
  DecodeAll := fun mem src =>
    match src with
    | [] => if 0 <=? mem then Some [] else None
    | 40 :: out => if len out <=? mem then Some out else None
    | _ => None
    end
|}.

Lemma stored_codec_decode mem src out :
  @DecodeAll stored_codec mem src = Some out -> len out <= mem.
Proof.
  destruct src as [| b src]; cbn.
  - destruct (Z.leb_spec 0 mem); [intros [= <-]; by rewrite len_nil | done].
  - intros H. repeat (case_match; try discriminate).
    injection H as <-. by apply Z.leb_le.
Qed.

#[export] Instance stored_codec_laws : ZstdLaws stored_codec.
Proof.
  split.
  - done.
  - intros mem [| b src] H; cbn; [unfold len in H; cbn in H |]; by zcmp.
  - intros [| b src]; done.
  - exact stored_codec_decode.
Qed.

(** ** Properties *)

Section ZstdProperties.
Context {C : Zstd} {L : ZstdLaws C}.

(** Whatever bytes a file holds, a bounded decode never panics and never
    yields more than twice its ceiling (1 MiB at least): the bucket the pooled
    decoder was built with. *)
Theorem bounded_decode_is_bounded (src : bytes) (ceil : Z) :
  0 < ceil <= MaxBlockBytes ->
  no_panic (DecompressBounded src ceil) /\
  forall out, DecompressBounded src ceil = Ok out -> len out <= Z.max decoderBucketMin (2 * ceil).
Proof.
  intros Hc. split; [apply DecompressBounded_no_panic |].
  intros out. by apply DecompressBounded_bounded.
Qed.

(** A column of [count] values of at most [per] bytes each survives
    compression and decompression under the ceiling derived from its count. *)
Theorem column_ceiling_admits (src : bytes) (count per : Z) :
  0 < per -> len src <= count * per -> len src <= MaxBlockBytes ->
  DecompressBounded (Compress src) (DecodeCeiling count per) = Ok src.
Proof. apply DecompressBounded_column. Qed.

End ZstdProperties.

Lemma bounded_decode_is_bounded_witness :
  no_panic (DecompressBounded (C := stored_codec) [1; 2; 3] 100) /\
  forall out, DecompressBounded (C := stored_codec) [1; 2; 3] 100 = Ok out -> len out <= 1048576.
Proof. apply (bounded_decode_is_bounded (C := stored_codec) [1; 2; 3] 100). done. Defined.

Lemma column_ceiling_admits_witness :
  DecompressBounded (C := stored_codec) (Compress (C := stored_codec) [5; 6]) (DecodeCeiling 1 10) =
    Ok [5; 6].
Proof. apply (column_ceiling_admits (C := stored_codec) [5; 6] 1 10); done. Defined.
