(* ===== verification/Bitpack.v ===== *)
(** * Bit packing (internal/logstore/encoding/bitpack.go)

    [BitpackEncode] packs small indices into [bitsPerValue] bits each, across
    byte boundaries, by in-place [|=] on the packed buffer; [BitpackDecode]
    unpacks them, after bounding the count it reads off disk.  The file also
    holds the null bitmaps' primitive [or_at], shared with Sparse.v, and the
    correspondence between a byte buffer and the number whose little-endian
    digits it holds ([le_val]), under which a packed buffer is simply the sum of
    the values shifted to their bit positions. *)

From stdpp Require Import base list gmap strings numbers.
From Stdlib Require Import ZArith Lia.
From S2P Require Import Prelude.

(** [packed[i] |= v] *)
Definition or_at (packed : bytes) (i v : Z) : result bytes :=
  b ← index packed i;
  store packed i (Z.lor b v).

Fixpoint pack_loop (bits mask : Z) (indices : list Z) (bitPos : Z) (packed : bytes)
  : result bytes :=
  match indices with
  | [] => Ok packed
  | idx :: indices =>
      let val := Z.land idx mask in
      let byteIdx := bitPos / 8 in
      let bitOffset := bitPos mod 8 in
      packed ← or_at packed byteIdx (uint8 (Z.shiftl val bitOffset));
      packed ←
        (if (8 <? bitOffset + bits) && (byteIdx + 1 <? len packed)
         then or_at packed (byteIdx + 1) (Z.shiftr val (8 - bitOffset))
         else Ok packed);
      pack_loop bits mask indices (bitPos + bits) packed
  end.

Definition BitpackEncode (indices : list Z) (bitsPerValue : Z) : result bytes :=
  if (bitsPerValue <? 1) || (8 <? bitsPerValue) then Panic
  else
    let totalBits := len indices * bitsPerValue in
    let packedSize := (totalBits + 7) / 8 in
    let packed := make 0 packedSize in
    let mask := uint8 (Z.shiftl 1 bitsPerValue - 1) in
    packed ← pack_loop bitsPerValue mask indices 0 packed;
    let result := [uint8 bitsPerValue] in
    let result := AppendUint32 result (uint32 (len indices)) in
    Ok (result ++ packed).

(** The loop over [range count]; [break] leaves the remaining slots zero. *)
Fixpoint unpack_loop (count : nat) (bits mask : Z) (packed : bytes) (bitPos : Z)
  : result (list Z) :=
  match count with
  | O => Ok []
  | S n =>
      let byteIdx := bitPos / 8 in
      let bitOffset := bitPos mod 8 in
      if len packed <=? byteIdx then Ok (replicate (S n) 0)
      else
        b ← index packed byteIdx;
        let val := Z.shiftr b bitOffset in
        val ←
          (if (8 <? bitOffset + bits) && (byteIdx + 1 <? len packed)
           then b1 ← index packed (byteIdx + 1);
                Ok (Z.lor val (uint8 (Z.shiftl b1 (8 - bitOffset))))
           else Ok val);
        rest ← unpack_loop n bits mask packed (bitPos + bits);
        Ok (Z.land val mask :: rest)
  end.

Definition BitpackDecode (data : bytes) : result (list Z) :=
  if len data <? 5 then Err (Errorf "bitpack data too short")
  else
    bitsPerValue ← index data 0;
    if (bitsPerValue <? 1) || (8 <? bitsPerValue)
    then Err (Errorf "bitpack: invalid bitsPerValue")
    else
      d ← slice data 1 5;
      count ← Uint32 d;
      packed ← slice_from data 5;
      let maxCount := len packed * 8 / bitsPerValue in
      if (count <? 0) || (maxCount <? count)
      then Err (Errorf "bitpack: count exceeds values encodable")
      else
        let mask := uint8 (Z.shiftl 1 bitsPerValue - 1) in
        unpack_loop (Z.to_nat count) bitsPerValue mask packed 0.

Fixpoint bits_loop (fuel : nat) (v bits : Z) : Z :=
  match fuel with
  | O => bits
  | S fuel => if 0 <? v then bits_loop fuel (Z.shiftr v 1) (bits + 1) else bits
  end.

(** [n] is an [int], so 63 shifts exhaust it. *)
Definition BitsNeeded (n : Z) : Z :=
  if n <=? 1 then 1 else bits_loop 63 (n - 1) 0.

(** ** Buffers as numbers *)

Definition bytes_ok (l : bytes) : Prop := Forall (fun b => 0 <= b < 256) l.

Lemma le_val_cons b l : 0 <= b < 256 -> le_val (b :: l) = Z.lor b (Z.shiftl (le_val l) 8).
Proof.
  intros Hb. cbn [le_val]. rewrite lor_shift_add, uint8_small by lia.
  change (2 ^ 8) with 256. lia.
Qed.

(** Byte [i] of a buffer is the [i]-th base-256 digit of its number. *)
Lemma le_val_byte l i b :
  bytes_ok l -> l !! i = Some b -> b = Z.shiftr (le_val l) (8 * Z.of_nat i) mod 2 ^ 8.
Proof.
  intros Hok. revert i. induction Hok as [| c l Hc Hl IH]; intros i Hi; [done |].
  cbn [le_val]. rewrite uint8_small by done. destruct i as [| i].
  - injection Hi as <-. rewrite Z.mul_0_r, Z.shiftr_0_r. change (2 ^ 8) with 256.
    rewrite Z.mul_comm, Z.mod_add, Z.mod_small by lia. done.
  - rewrite (IH i Hi).
    replace (8 * Z.of_nat (S i)) with (8 + 8 * Z.of_nat i) by lia.
    rewrite <- Z.shiftr_shiftr by lia. do 2 f_equal.
    rewrite Z.shiftr_div_pow2 by lia. change (2 ^ 8) with 256.
    rewrite Z.mul_comm, Z.div_add, Z.div_small by lia. lia.
Qed.

Lemma le_val_replicate n : le_val (replicate n 0) = 0.
Proof. induction n; cbn [replicate le_val]; rewrite ?IHn; done. Qed.

Lemma bytes_ok_replicate n : bytes_ok (replicate n 0).
Proof. apply Forall_replicate. lia. Qed.

Lemma bytes_ok_le_bytes n w : bytes_ok (le_bytes n w).
Proof.
  revert w. induction n; intros; constructor; [| apply IHn].
  apply Z.mod_pos_bound. lia.
Qed.

Lemma lor_byte_range a b : 0 <= a < 256 -> 0 <= b < 256 -> 0 <= Z.lor a b < 256.
Proof.
  intros Ha Hb. split; [apply Z.lor_nonneg; lia |].
  destruct (Z.eq_dec (Z.lor a b) 0) as [-> | Hne]; [lia |].
  assert (0 <= Z.lor a b) by (apply Z.lor_nonneg; lia).
  change 256 with (2 ^ 8). apply Z.log2_lt_pow2; [lia |].
  rewrite Z.log2_lor by lia.
  destruct (Z.eq_dec a 0) as [-> | Ha0]; destruct (Z.eq_dec b 0) as [-> | Hb0];
    cbn [Z.log2 Z.max Z.compare]; try lia.
  - pose proof (Z.log2_lt_pow2 b 8 ltac:(lia)). lia.
  - pose proof (Z.log2_lt_pow2 a 8 ltac:(lia)). lia.
  - pose proof (Z.log2_lt_pow2 b 8 ltac:(lia)).
    pose proof (Z.log2_lt_pow2 a 8 ltac:(lia)). lia.
Qed.

(** Or-ing into a byte is or-ing the shifted value into the number. *)
Lemma le_val_insert l i b v :
  bytes_ok l -> 0 <= v < 256 -> l !! i = Some b ->
  bytes_ok (<[i := Z.lor b v]> l) /\
  le_val (<[i := Z.lor b v]> l) = Z.lor (le_val l) (Z.shiftl v (8 * Z.of_nat i)).
Proof.
  intros Hok Hv. revert i. induction Hok as [| c l Hc Hl IH]; intros i Hi; [done |].
  destruct i as [| i]; cbn in Hi.
  - injection Hi as ->. cbn [insert list_insert]. pose proof (lor_byte_range b v Hc Hv).
    split; [by constructor |]. rewrite !le_val_cons, Z.mul_0_r, Z.shiftl_0_r by lia.
    rewrite <- !Z.lor_assoc. f_equal. apply Z.lor_comm.
  - destruct (IH i Hi) as [H1 H2].
    change (<[S i := Z.lor b v]> (c :: l)) with (c :: <[i := Z.lor b v]> l).
    split; [by constructor |].
    rewrite !le_val_cons by lia. rewrite H2, Z.shiftl_lor, Z.lor_assoc, Z.shiftl_shiftl by lia.
    do 2 f_equal. lia.
Qed.

Lemma or_at_ok packed i v :
  bytes_ok packed -> 0 <= v < 256 -> 0 <= i < len packed ->
  exists packed', or_at packed i v = Ok packed' /\ bytes_ok packed' /\
    len packed' = len packed /\
    le_val packed' = Z.lor (le_val packed) (Z.shiftl v (8 * i)).
Proof.
  intros Hok Hv Hi. destruct (index_ok packed i Hi) as (b & Hb & Hl).
  unfold or_at, store. rewrite Hb. cbn [mbind result_bind]. zcmp.
  destruct (le_val_insert packed (Z.to_nat i) b v Hok Hv Hl) as [H1 H2].
  eexists. split; [done |]. split; [done |]. split; [apply len_insert |].
  rewrite H2. do 2 f_equal. lia.
Qed.

(** ** One value *)

Lemma mask_spec bits : 1 <= bits <= 8 -> uint8 (Z.shiftl 1 bits - 1) = 2 ^ bits - 1.
Proof.
  intros. unfold uint8. rewrite Z.shiftl_mul_pow2, Z.mul_1_l by lia.
  apply Z.mod_small. assert (2 ^ bits <= 2 ^ 8) by (apply Z.pow_le_mono_r; lia). lia.
Qed.

Lemma shift_split val o :
  0 <= o <= 8 ->
  Z.shiftl val o = Z.lor (uint8 (Z.shiftl val o)) (Z.shiftl (Z.shiftr val (8 - o)) 8).
Proof.
  intros Ho. unfold uint8. apply Z.bits_inj'. intros i Hi.
  rewrite Z.lor_spec, Z.testbit_mod_pow2, !Z.shiftl_spec by lia.
  destruct (Z.ltb_spec i 8); cbn [andb orb].
  - rewrite (Z.testbit_neg_r (Z.shiftr _ _)) by lia. by rewrite orb_false_r.
  - rewrite Z.shiftr_spec by lia. f_equal. lia.
Qed.

Lemma pow2_le_256 bits : bits <= 8 -> 2 ^ bits <= 256.
Proof. intros. change 256 with (2 ^ 8). apply Z.pow_le_mono_r; lia. Qed.

(** The two in-place writes of the encoder put [val] at bit [bitPos]. *)
Lemma pack_value bits val bitPos packed :
  1 <= bits <= 8 -> 0 <= val < 2 ^ bits -> 0 <= bitPos ->
  bytes_ok packed -> bitPos + bits <= 8 * len packed ->
  exists packed',
    (p ← or_at packed (bitPos / 8) (uint8 (Z.shiftl val (bitPos mod 8)));
     if (8 <? bitPos mod 8 + bits) && (bitPos / 8 + 1 <? len p)
     then or_at p (bitPos / 8 + 1) (Z.shiftr val (8 - bitPos mod 8))
     else Ok p) = Ok packed' /\
    bytes_ok packed' /\ len packed' = len packed /\
    le_val packed' = Z.lor (le_val packed) (Z.shiftl val bitPos).
Proof.
  intros Hbits Hval Hpos Hok Hroom. pose proof (pow2_le_256 bits ltac:(lia)) as Hp.
  pose proof (Z.div_mod bitPos 8 ltac:(lia)) as Hdm.
  pose proof (Z.mod_pos_bound bitPos 8 ltac:(lia)) as Hm.
  pose proof (Z.div_pos bitPos 8 ltac:(lia) ltac:(lia)) as Hd.
  set (o := bitPos mod 8) in *. set (q := bitPos / 8) in *.
  assert (Z.shiftl val bitPos = Z.shiftl (Z.shiftl val o) (8 * q)) as Hsh.
  { rewrite Z.shiftl_shiftl by lia. f_equal. lia. }
  destruct (or_at_ok packed q (uint8 (Z.shiftl val o)) Hok) as (p1 & E1 & Ok1 & L1 & V1);
    [apply Z.mod_pos_bound; lia | lia |].
  rewrite E1. cbn [mbind result_bind]. destruct (Z.ltb_spec 8 (o + bits)) as [Hx | Hx].
  - assert (q + 1 < len p1) by lia. zcmp.
    assert (0 <= Z.shiftr val (8 - o) < 256).
    { rewrite Z.shiftr_div_pow2 by lia. split; [apply Z.div_pos; lia |].
      apply Z.div_lt_upper_bound; nia. }
    destruct (or_at_ok p1 (q + 1) (Z.shiftr val (8 - o)) Ok1) as (p2 & E2 & Ok2 & L2 & V2);
      [done | lia |].
    exists p2. split_and!; try done; [lia |].
    rewrite V2, V1, Hsh. rewrite (shift_split val o) at 2 by lia.
    rewrite Z.shiftl_lor, Z.lor_assoc. f_equal.
    rewrite Z.shiftl_shiftl by lia. f_equal. lia.
  - exists p1. split_and!; try done. rewrite V1, Hsh. do 2 f_equal.
    unfold uint8. apply Z.mod_small. rewrite Z.shiftl_mul_pow2 by lia.
    assert (2 ^ bits * 2 ^ o <= 2 ^ 8).
    { rewrite <- Z.pow_add_r by lia. apply Z.pow_le_mono_r; lia. }
    nia.
Qed.

(** The number a list of [bits]-wide values packs into. *)
Fixpoint packnum (bits : Z) (vs : list Z) : Z :=
  match vs with
  | [] => 0
  | v :: vs => Z.lor v (Z.shiftl (packnum bits vs) bits)
  end.

Definition fits (bits : Z) (vs : list Z) : Prop := Forall (fun v => 0 <= v < 2 ^ bits) vs.

Lemma packnum_nonneg bits vs : fits bits vs -> 0 <= packnum bits vs.
Proof.
  induction 1; cbn [packnum]; [done |]. apply Z.lor_nonneg. split; [lia |].
  by apply Z.shiftl_nonneg.
Qed.

Lemma packnum_hd bits v vs :
  1 <= bits -> 0 <= v < 2 ^ bits -> packnum bits (v :: vs) mod 2 ^ bits = v.
Proof.
  intros Hb Hv. cbn [packnum]. rewrite lor_shift_add by lia.
  rewrite Z.mod_add by lia. by apply Z.mod_small.
Qed.

Lemma packnum_tl bits v vs :
  1 <= bits -> 0 <= v < 2 ^ bits ->
  Z.shiftr (packnum bits (v :: vs)) bits = packnum bits vs.
Proof.
  intros Hb Hv. cbn [packnum]. rewrite lor_shift_add, Z.shiftr_div_pow2 by lia.
  rewrite Z.div_add, Z.div_small by lia. done.
Qed.

Lemma pack_loop_ok bits indices bitPos packed :
  1 <= bits <= 8 -> fits bits indices -> 0 <= bitPos -> bytes_ok packed ->
  bitPos + bits * len indices <= 8 * len packed ->
  exists packed', pack_loop bits (2 ^ bits - 1) indices bitPos packed = Ok packed' /\
    bytes_ok packed' /\ len packed' = len packed /\
    le_val packed' = Z.lor (le_val packed) (Z.shiftl (packnum bits indices) bitPos).
Proof.
  intros Hb Hf. revert bitPos packed.
  induction Hf as [| v vs Hv Hf IH]; intros bitPos packed Hpos Hok Hroom.
  { exists packed. split_and!; try done. cbn [packnum]. by rewrite Z.shiftl_0_l, Z.lor_0_r. }
  rewrite len_cons in Hroom. pose proof (len_nonneg vs).
  cbn [pack_loop].
  assert (Z.land v (2 ^ bits - 1) = v) as Hm.
  { rewrite land_ones_mod by lia. by apply Z.mod_small. }
  rewrite Hm. destruct (pack_value bits v bitPos packed) as (p & E & Okp & Lp & Vp);
    try done; try nia.
  destruct (or_at packed (bitPos / 8) (uint8 (Z.shiftl v (bitPos mod 8)))) as [q | |] eqn:Eq;
    try done.
  cbn [mbind result_bind] in *. rewrite E. cbn [mbind result_bind].
  destruct (IH (bitPos + bits) p) as (p' & E' & Ok' & L' & V'); try done; try nia.
  exists p'. split_and!; try done; [lia |].
  rewrite V', Vp. cbn [packnum]. rewrite <- Z.lor_assoc. f_equal.
  rewrite Z.shiftl_lor, Z.shiftl_shiftl by lia. do 2 f_equal. lia.
Qed.

(** The two reads of the decoder extract [bits] bits at [bitPos]. *)
Lemma unpack_value bits N bitPos b b1 :
  1 <= bits <= 8 -> 0 <= bitPos -> 0 <= N ->
  b = Z.shiftr N (8 * (bitPos / 8)) mod 2 ^ 8 ->
  b1 = Z.shiftr N (8 * (bitPos / 8 + 1)) mod 2 ^ 8 ->
  Z.land (if 8 <? bitPos mod 8 + bits
          then Z.lor (Z.shiftr b (bitPos mod 8)) (uint8 (Z.shiftl b1 (8 - bitPos mod 8)))
          else Z.shiftr b (bitPos mod 8)) (2 ^ bits - 1) =
  Z.shiftr N bitPos mod 2 ^ bits.
Proof.
  intros Hb Hpos HN -> ->.
  pose proof (Z.div_mod bitPos 8 ltac:(lia)) as Hdm.
  pose proof (Z.mod_pos_bound bitPos 8 ltac:(lia)) as Hm.
  set (o := bitPos mod 8) in *. set (q := bitPos / 8) in *.
  assert (0 <= q) by lia.
  rewrite land_ones_mod by lia. unfold uint8. apply Z.bits_inj'. intros i Hi.
  rewrite !Z.testbit_mod_pow2 by lia. destruct (Z.ltb_spec i bits); cbn [andb]; [| done].
  rewrite (Z.shiftr_spec N bitPos i) by lia.
  destruct (Z.ltb_spec 8 (o + bits)).
  - rewrite Z.lor_spec, Z.shiftr_spec, !Z.testbit_mod_pow2 by lia.
    rewrite Z.shiftr_spec by lia. destruct (Z.ltb_spec (i + o) 8); cbn [andb].
    + rewrite Z.shiftl_spec_low by lia. rewrite andb_false_r, orb_false_r. f_equal. lia.
    + zcmp. rewrite Z.shiftl_spec, Z.testbit_mod_pow2, Z.shiftr_spec by lia. zcmp.
      f_equal. lia.
  - rewrite Z.shiftr_spec, Z.testbit_mod_pow2, Z.shiftr_spec by lia. zcmp.
    f_equal. lia.
Qed.

Lemma unpack_loop_ok bits vs packed bitPos :
  1 <= bits <= 8 -> fits bits vs -> 0 <= bitPos -> bytes_ok packed ->
  bitPos + bits * len vs <= 8 * len packed ->
  Z.shiftr (le_val packed) bitPos = packnum bits vs ->
  unpack_loop (length vs) bits (2 ^ bits - 1) packed bitPos = Ok vs.
Proof.
  intros Hb Hf. revert bitPos.
  induction Hf as [| v vs Hv Hf IH]; intros bitPos Hpos Hok Hroom Hnum; [done |].
  rewrite len_cons in Hroom. pose proof (len_nonneg vs).
  pose proof (Z.div_mod bitPos 8 ltac:(lia)) as Hdm.
  pose proof (Z.mod_pos_bound bitPos 8 ltac:(lia)) as Hm.
  pose proof (Z.div_pos bitPos 8 ltac:(lia) ltac:(lia)) as Hd.
  cbn [length unpack_loop]. zcmp.
  destruct (index_ok packed (bitPos / 8)) as (b & Eb & Lb); [nia |].
  rewrite Eb. cbn [mbind result_bind].
  pose proof (le_val_byte packed _ b Hok Lb) as Hbv.
  rewrite Z2Nat.id in Hbv by lia.
  pose proof (unpack_value bits (le_val packed) bitPos b _ Hb Hpos
    (proj1 (le_val_range packed)) Hbv eq_refl) as Hval.
  rewrite Hnum, packnum_hd in Hval by lia.
  rewrite (IH (bitPos + bits)); [ | lia | done | nia | ].
  2:{ rewrite <- Z.shiftr_shiftr, Hnum, packnum_tl by lia. done. }
  destruct (Z.ltb_spec 8 (bitPos mod 8 + bits)); cbn [andb mbind result_bind].
  - assert (bitPos / 8 + 1 < len packed) by nia. zcmp.
    destruct (index_ok packed (bitPos / 8 + 1)) as (b1 & Eb1 & Lb1); [lia |].
    rewrite Eb1. cbn [mbind result_bind].
    pose proof (le_val_byte packed _ b1 Hok Lb1) as Hb1. rewrite Z2Nat.id in Hb1 by lia.
    rewrite <- Hb1 in Hval. by rewrite Hval.
  - by rewrite Hval.
Qed.

(** ** Round trip *)

Lemma Bitpack_roundtrip_lemma indices bits :
  1 <= bits <= 8 -> fits bits indices -> len indices < 2 ^ 32 ->
  exists data, BitpackEncode indices bits = Ok data /\ BitpackDecode data = Ok indices.
Proof.
  intros Hb Hf Hlen. pose proof (len_nonneg indices).
  unfold BitpackEncode. zcmp. rewrite mask_spec by lia.
  set (size := (len indices * bits + 7) / 8).
  assert (0 <= size /\ len indices * bits <= 8 * size) as [Hs1 Hs2].
  { subst size. pose proof (Z.div_mod (len indices * bits + 7) 8 ltac:(lia)).
    pose proof (Z.mod_pos_bound (len indices * bits + 7) 8 ltac:(lia)). nia. }
  destruct (pack_loop_ok bits indices 0 (make 0 size)) as (p & E & Okp & Lp & Vp);
    try done; [apply bytes_ok_replicate | rewrite len_make by lia; lia |].
  rewrite E. cbn [mbind result_bind]. rewrite len_make in Lp by lia.
  unfold make in Vp. rewrite le_val_replicate, Z.lor_0_l, Z.shiftl_0_r in Vp.
  eexists. split; [done |].
  unfold AppendUint32. rewrite uint32_small by lia.
  unfold uint8. rewrite (Z.mod_small bits) by lia.
  unfold BitpackDecode. rewrite <- app_assoc.
  autorewrite with len. zcmp.
  rewrite (index_split _ [] bits (le_bytes 4 (len indices) ++ p)) by done.
  cbn [mbind result_bind]. zcmp.
  rewrite (slice_split _ [bits] (le_bytes 4 (len indices)) p) by (done || len_lia).
  cbn [mbind result_bind].
  rewrite <- (app_nil_r (le_bytes 4 (len indices))) at 1.
  rewrite Uint32_app by (unfold is_uint; lia). cbn [mbind result_bind].
  rewrite (slice_from_split _ ([bits] ++ le_bytes 4 (len indices)) p)
    by (rewrite <- ?app_assoc; done || len_lia).
  cbn [mbind result_bind].
  assert (len indices <= len p * 8 / bits) by (apply Z.div_le_lower_bound; lia). zcmp.
  rewrite mask_spec by lia. unfold len at 1. rewrite Nat2Z.id.
  apply unpack_loop_ok; try done; try nia.
Qed.

(** ** Hostile input *)

Lemma unpack_loop_no_panic n bits mask packed bitPos :
  0 <= bits -> 0 <= bitPos -> no_panic (unpack_loop n bits mask packed bitPos).
Proof.
  revert bitPos. induction n as [| n IH]; intros bitPos Hb Hp; [done |].
  cbn [unpack_loop]. pose proof (Z.div_pos bitPos 8 ltac:(lia) ltac:(lia)).
  destruct (Z.leb_spec (len packed) (bitPos / 8)); [done |].
  apply no_panic_bind; [apply index_no_panic; lia |]. intros b _.
  apply no_panic_bind.
  - destruct (Z.ltb_spec 8 (bitPos mod 8 + bits)); [| done].
    destruct (Z.ltb_spec (bitPos / 8 + 1) (len packed)); [| done]. cbn [andb].
    apply no_panic_bind; [apply index_no_panic; lia | done].
  - intros v _. apply no_panic_bind; [apply IH; lia | done].
Qed.

Lemma unpack_loop_length n bits mask packed bitPos vs :
  unpack_loop n bits mask packed bitPos = Ok vs -> length vs = n.
Proof.
  revert bitPos vs. induction n as [| n IH]; intros bitPos vs; cbn [unpack_loop].
  { by intros [= <-]. }
  destruct (len packed <=? bitPos / 8).
  { intros [= <-]. cbn. by rewrite length_replicate. }
  intros (b & _ & H)%bind_ok_inv. apply bind_ok_inv in H as (v & _ & H).
  apply bind_ok_inv in H as (r & Hr & [= <-]). cbn. by rewrite (IH _ _ Hr).
Qed.

Lemma BitpackDecode_no_panic data : no_panic (BitpackDecode data).
Proof.
  unfold BitpackDecode. destruct (Z.ltb_spec (len data) 5); [done |].
  apply no_panic_bind; [apply index_no_panic; lia |]. intros bits _.
  destruct (Z.ltb_spec bits 1); [done |]. destruct (Z.ltb_spec 8 bits); [done |].
  cbn [orb]. rewrite slice_ok by lia. cbn [mbind result_bind].
  apply no_panic_bind.
  { apply le_uint_no_panic. change (5 - 1) with 4.
    rewrite len_take; rewrite ?len_drop; lia. }
  intros count _. rewrite slice_from_ok by lia. cbn [mbind result_bind].
  destruct (_ || _); [done |]. apply unpack_loop_no_panic; lia.
Qed.

(** The allocation is bounded by the packed payload. *)
Lemma BitpackDecode_bounded data vs :
  BitpackDecode data = Ok vs -> len vs <= 8 * len data.
Proof.
  unfold BitpackDecode. destruct (Z.ltb_spec (len data) 5); [done |].
  intros (bits & _ & Hd)%bind_ok_inv.
  destruct (Z.ltb_spec bits 1); [done |]. destruct (Z.ltb_spec 8 bits); [done |].
  cbn [orb] in Hd. apply bind_ok_inv in Hd as (d & _ & Hd).
  apply bind_ok_inv in Hd as (count & _ & Hd).
  rewrite slice_from_ok in Hd by lia. cbn [mbind result_bind] in Hd.
  rewrite len_drop in Hd by lia.
  destruct (Z.ltb_spec count 0); [done |].
  destruct (Z.ltb_spec ((len data - 5) * 8 / bits) count) as [| Hc]; [done |].
  cbn [orb] in Hd. apply unpack_loop_length in Hd.
  unfold len at 1. rewrite Hd, Z2Nat.id by lia.
  transitivity ((len data - 5) * 8 / bits); [done |].
  apply Z.div_le_upper_bound; nia.
Qed.

(** ** Index width *)

Lemma bits_loop_spec fuel v k :
  0 <= v < 2 ^ Z.of_nat fuel ->
  bits_loop fuel v k = k + (if v =? 0 then 0 else Z.log2 v + 1).
Proof.
  revert v k. induction fuel as [| fuel IH]; intros v k Hv.
  { change (2 ^ Z.of_nat 0) with 1 in Hv. assert (v = 0) as -> by lia. cbn. lia. }
  rewrite Nat2Z.inj_succ, Z.pow_succ_r in Hv by lia. cbn [bits_loop].
  destruct (Z.ltb_spec 0 v); [| zcmp; lia].
  rewrite IH by (rewrite Z.shiftr_div_pow2, Z.pow_1_r by lia;
    split; [apply Z.div_pos; lia | apply Z.div_lt_upper_bound; lia]).
  zcmp. rewrite Z.log2_shiftr by lia.
  destruct (Z.eqb_spec (Z.shiftr v 1) 0) as [E | E].
  - rewrite Z.shiftr_div_pow2, Z.pow_1_r in E by lia.
    assert (v < 2) by (apply Z.div_small_iff in E; lia).
    assert (v = 1) as -> by lia. cbn. lia.
  - assert (1 < v). { destruct (Z.eq_dec v 1) as [-> |]; [done | lia]. }
    pose proof (Z.log2_le_mono 2 v ltac:(lia)) as Hl. change (Z.log2 2) with 1 in Hl. lia.
Qed.

Lemma BitsNeeded_spec n :
  2 <= n < 2 ^ 63 -> 2 ^ (BitsNeeded n - 1) < n <= 2 ^ BitsNeeded n.
Proof.
  intros Hn. unfold BitsNeeded. zcmp. rewrite bits_loop_spec by (cbn; lia). zcmp.
  pose proof (Z.log2_spec (n - 1) ltac:(lia)) as [H1 H2].
  replace (0 + (Z.log2 (n - 1) + 1) - 1) with (Z.log2 (n - 1)) by lia.
  replace (0 + (Z.log2 (n - 1) + 1)) with (Z.succ (Z.log2 (n - 1))) by lia. lia.
Qed.

Lemma BitsNeeded_range n : n <= 256 -> 1 <= BitsNeeded n <= 8.
Proof.
  intros Hn. unfold BitsNeeded. destruct (Z.leb_spec n 1); [lia |].
  rewrite bits_loop_spec by (cbn; lia). zcmp.
  pose proof (Z.log2_nonneg (n - 1)).
  pose proof (Z.log2_lt_pow2 (n - 1) 8 ltac:(lia)) as [Hl _].
  change (2 ^ 8) with 256 in Hl. lia.
Qed.

(** ** Properties *)

(** Indices that fit their bit width are packed without a panic and unpacked
    to the same indices, for every width from 1 to 8. *)
Theorem bitpack_roundtrip (indices : list Z) (bits : Z) :
  1 <= bits <= 8 -> fits bits indices -> len indices < 2 ^ 32 ->
  exists data, BitpackEncode indices bits = Ok data /\ BitpackDecode data = Ok indices.
Proof. apply Bitpack_roundtrip_lemma. Qed.

Lemma bitpack_roundtrip_witness :
  exists data, BitpackEncode [5; 0; 7; 3] 3 = Ok data /\ BitpackDecode data = Ok [5; 0; 7; 3].
Proof. apply (bitpack_roundtrip [5; 0; 7; 3] 3); [done | repeat constructor; done | done]. Defined.

(** [BitsNeeded n] is the least width that can index [n] values: [2^(w-1) < n <= 2^w]. *)
Theorem BitsNeeded_least (n : Z) :
  2 <= n < 2 ^ 63 -> 2 ^ (BitsNeeded n - 1) < n <= 2 ^ BitsNeeded n.
Proof. apply BitsNeeded_spec. Qed.

Lemma BitsNeeded_least_witness : 2 ^ (BitsNeeded 5 - 1) < 5 <= 2 ^ BitsNeeded 5.
Proof. apply (BitsNeeded_least 5). lia. Defined.
