(* ===== verification/Columns.v ===== *)
(** * Dense column encodings
    (internal/logstore/encoding/delta.go, dictionary.go, zstdblock.go)

    Delta + zigzag varint for identifiers and times, dictionary + 16-bit indices
    for low-cardinality strings, raw zstd blocks for messages and timestamps.
    Every decoder takes the row count from the chunk header and runs under the
    ceiling that count allows. *)

From stdpp Require Import base list gmap strings numbers.
From Stdlib Require Import ZArith Lia.
From S2P Require Import Prelude Framing Zstd Bitpack.

(** ** Reading a run of strings *)

(** [for i := 0; i < n; i++ { s, off, err = f.ReadString(data, off) }] *)
Fixpoint read_strings (msg : string) (f : LenFormat) (n : nat) (data : bytes) (off : Z)
  : result (list bytes) :=
  match n with
  | O => Ok []
  | S n =>
      '(s, off) ← wrap msg (ReadString f data off);
      rest ← read_strings msg f n data off;
      Ok (s :: rest)
  end.

(** [for _, v := range values { buf = AppendLenString(buf, v) }] *)
Definition append_strings (buf : bytes) (values : list bytes) : bytes :=
  foldl AppendLenString buf values.

(** ** delta.go *)

Section Delta.
Context {C : Zstd}.

Fixpoint delta_loop (values : list Z) (prev : Z) (deltaBuf : bytes) : bytes :=
  match values with
  | [] => deltaBuf
  | v :: values =>
      let delta := int64 (v - prev) in
      let deltaBuf := PutUvarint deltaBuf (ZigZagEncode delta) in
      delta_loop values v deltaBuf
  end.

Definition DeltaEncode (values : list Z) : bytes :=
  match values with
  | [] => []
  | base :: _ =>
      let compressed := Compress (delta_loop values base []) in
      le_bytes 8 (uint64 base) ++ compressed
  end.

(** [for i := 0; i < count && offset < len(raw); i++] *)
Fixpoint undelta_loop (count : nat) (raw : bytes) (offset prev : Z) : result (list Z) :=
  match count with
  | O => Ok []
  | S count =>
      if offset <? len raw then
        d ← slice_from raw offset;
        let '(encoded, n) := Uvarint d in
        if n <=? 0 then Err (Errorf "invalid delta varint")
        else
          let delta := ZigZagDecode encoded in
          let prev := int64 (prev + delta) in
          rest ← undelta_loop count raw (offset + n) prev;
          Ok (prev :: rest)
      else Ok []
  end.

Definition DeltaDecode (data : bytes) (count : Z) : result (list Z) :=
  if len data <? 8 then Err (Errorf "delta data too short")
  else
    d ← slice data 0 8;
    base ← Uint64 d;
    let base := int64 base in
    d ← slice_from data 8;
    raw ← wrap "decompress delta" (DecompressBounded d (DecodeCeiling count MaxVarintBytes));
    _ ← check_make count;
    undelta_loop (Z.to_nat count) raw 0 base.

End Delta.

(** ** dictionary.go *)

Definition MaxDictEntries : Z := 65535.

Record DictEncoded := mkDict {
  Dict : list bytes;      (* index to string *)
  Indices : list Z        (* uint16, per entry *)
}.

Fixpoint dict_loop (limit : Z) (values : list bytes) (dict : gmap bytes Z)
  (order : list bytes) : list bytes * list Z :=
  match values with
  | [] => (order, [])
  | v :: values =>
      match dict !! v with
      | Some idx =>
          let '(order, indices) := dict_loop limit values dict order in
          (order, idx :: indices)
      | None =>
          if limit <=? len order then
            let '(order, indices) := dict_loop limit values dict order in
            (order, 0 :: indices)
          else
            let idx := uint16 (len order) in
            let '(order, indices) :=
              dict_loop limit values (<[v := idx]> dict) (order ++ [v]) in
            (order, idx :: indices)
      end
  end.

Definition DictEncodeLimit (values : list bytes) (limit : Z) : DictEncoded :=
  let limit := if (limit <? 1) || (MaxDictEntries <? limit) then MaxDictEntries else limit in
  let dict := <[ [] := 0 ]> ∅ in
  let order := [ [] ] in
  let '(order, indices) := dict_loop limit values dict order in
  mkDict order indices.

Definition DictEncode (values : list bytes) : DictEncoded :=
  DictEncodeLimit values MaxDictEntries.

(** [for i, idx := range d.Indices { PutUint16(idxBuf[i*2:], idx) }] *)
Definition put_uint16s (indices : list Z) : bytes := indices ≫= le_bytes 2.

Definition DictLookup (d : DictEncoded) : list bytes :=
  (fun idx =>
     if idx <? len (Dict d) then default [] (Dict d !! Z.to_nat idx) else []) <$> Indices d.

(** [for i := 0; i < count && i*2+1 < len(rawIdx); i++], over a zeroed slice. *)
Fixpoint get_uint16s (count : nat) (i : Z) (rawIdx : bytes) : result (list Z) :=
  match count with
  | O => Ok []
  | S n =>
      if i * 2 + 1 <? len rawIdx then
        d ← slice_from rawIdx (i * 2);
        idx ← Uint16 d;
        rest ← get_uint16s n (i + 1) rawIdx;
        Ok (idx :: rest)
      else Ok (replicate (S n) 0)
  end.

Section Dict.
Context {C : Zstd}.

Definition DictMarshal (d : DictEncoded) : bytes :=
  let entries :=
    if MaxDictEntries <? len (Dict d) then take (Z.to_nat MaxDictEntries) (Dict d)
    else Dict d in
  let dictBuf := AppendUint16 [] (uint16 (len entries)) in
  let dictBuf := append_strings dictBuf entries in
  let compressedIdx := Compress (put_uint16s (Indices d)) in
  AppendUint32 [] (uint32 (len dictBuf)) ++ dictBuf ++ compressedIdx.

Definition DictUnmarshal (data : bytes) (count : Z) (f : LenFormat) : result DictEncoded :=
  if len data <? 4 then Err (Errorf "dict data too short")
  else
    d ← slice data 0 4;
    dictSize ← Uint32 d;
    if len data <? 4 + dictSize then Err (Errorf "dict size exceeds data length")
    else
      dictBuf ← slice data 4 (4 + dictSize);
      if len dictBuf <? 2 then Err (Errorf "dict buffer too short")
      else
        d ← slice dictBuf 0 2;
        dictLen ← Uint16 d;
        dict ← read_strings "dict entry" f (Z.to_nat dictLen) dictBuf 2;
        compressedIdx ← slice_from data (4 + dictSize);
        rawIdx ← wrap "decompress dict indices"
                   (DecompressBounded compressedIdx (DecodeCeiling count 2));
        _ ← check_make count;
        indices ← get_uint16s (Z.to_nat count) 0 rawIdx;
        Ok (mkDict dict indices).

(** ** zstdblock.go *)

Definition ZstdBlockEncodeStrings (values : list bytes) : bytes :=
  Compress (append_strings [] values).

Definition ZstdBlockDecodeStrings (data : bytes) (count : Z) (f : LenFormat)
  : result (list bytes) :=
  raw ← wrap "decompress zstd block strings"
    (DecompressBounded data (DecodeCeiling count (MaxColumnValueBytes + MaxLenFramingBytes)));
  _ ← check_make count;
  read_strings "zstd block string" f (Z.to_nat count) raw 0.

Definition put_int64s (values : list Z) : bytes := values ≫= (fun v => le_bytes 8 (uint64 v)).

Definition ZstdBlockEncodeInt64 (values : list Z) : bytes := Compress (put_int64s values).

(** [for i := range count { if i*8+8 > len(raw) { break } ... }], zeroed slice. *)
Fixpoint get_int64s (count : nat) (i : Z) (raw : bytes) : result (list Z) :=
  match count with
  | O => Ok []
  | S n =>
      if len raw <? i * 8 + 8 then Ok (replicate (S n) 0)
      else
        d ← slice_from raw (i * 8);
        v ← Uint64 d;
        rest ← get_int64s n (i + 1) raw;
        Ok (int64 v :: rest)
  end.

Definition ZstdBlockDecodeInt64 (data : bytes) (count : Z) : result (list Z) :=
  raw ← wrap "decompress zstd block int64" (DecompressBounded data (DecodeCeiling count 8));
  _ ← check_make count;
  get_int64s (Z.to_nat count) 0 raw.

End Dict.

(** ** Runs of strings *)

Lemma append_strings_app buf values :
  append_strings buf values = buf ++ (values ≫= frame).
Proof.
  revert buf. induction values as [| v values IH]; intros buf; cbn; [by rewrite app_nil_r |].
  change (foldl AppendLenString (AppendLenString buf v) values)
    with (append_strings (AppendLenString buf v) values).
  by rewrite IH, AppendLenString_app, <- app_assoc.
Qed.

Lemma read_strings_append msg f values data pre rest off :
  Forall (framable f) values ->
  data = pre ++ (values ≫= frame) ++ rest -> off = len pre ->
  read_strings msg f (length values) data off = Ok values.
Proof.
  intros Hf. revert pre off. induction Hf as [| v vs [Hv1 Hv2] Hf IH]; intros pre off Hd Ho;
    [done |].
  cbn [length read_strings].
  rewrite (ReadString_split f data pre v ((vs ≫= frame) ++ rest) off);
    [| by rewrite Hd, bind_cons, <- app_assoc | done | done | done].
  cbn [wrap mbind result_bind].
  rewrite (IH (pre ++ frame v)); [done | |].
  - by rewrite Hd, bind_cons, <- !app_assoc.
  - rewrite len_app. unfold frame. lia.
Qed.

Lemma read_strings_no_panic msg f n data off :
  0 <= off -> no_panic (read_strings msg f n data off).
Proof.
  revert off. induction n as [| n IH]; intros off Ho; [done |]. cbn [read_strings].
  apply no_panic_bind; [auto with go |]. intros [s o] Hs%wrap_ok_inv%ReadString_bounds.
  apply no_panic_bind; [apply IH; lia | done].
Qed.

Lemma read_strings_length msg f n data off vs :
  read_strings msg f n data off = Ok vs -> length vs = n.
Proof.
  revert off vs. induction n as [| n IH]; intros off vs; cbn [read_strings]; [by intros [= <-] |].
  intros ([s o] & _ & H)%bind_ok_inv. apply bind_ok_inv in H as (r & Hr & [= <-]).
  cbn. by rewrite (IH _ _ Hr).
Qed.

#[export] Hint Resolve read_strings_no_panic : go.

(** ** Delta *)

Section DeltaLemmas.
Context {C : Zstd} {L : ZstdLaws C}.

(** The varint of one delta. *)
Definition delta_varint (v prev : Z) : bytes :=
  binary_PutUvarint (ZigZagEncode (int64 (v - prev))).

Lemma delta_loop_app values prev buf :
  delta_loop values prev buf = buf ++ delta_loop values prev [].
Proof.
  revert prev buf. induction values as [| v vs IH]; intros prev buf; cbn [delta_loop].
  { by rewrite app_nil_r. }
  rewrite IH. rewrite (IH v (PutUvarint [] _)). unfold PutUvarint.
  rewrite app_nil_l, <- app_assoc. reflexivity.
Qed.

Lemma delta_loop_cons v vs prev :
  delta_loop (v :: vs) prev [] = delta_varint v prev ++ delta_loop vs v [].
Proof.
  cbn [delta_loop]. rewrite delta_loop_app. unfold PutUvarint, delta_varint.
  rewrite app_nil_l. reflexivity.
Qed.

Lemma delta_loop_len values prev : len (delta_loop values prev []) <= len values * 10.
Proof.
  revert prev. induction values as [| v vs IH]; intros prev; [done |].
  rewrite delta_loop_cons. autorewrite with len. specialize (IH v).
  pose proof (PutUvarint_len (ZigZagEncode (int64 (v - prev)))).
  unfold delta_varint. lia.
Qed.

Lemma undelta_loop_delta values raw pre prev off :
  Forall is_int64 values -> is_int64 prev ->
  raw = pre ++ delta_loop values prev [] -> off = len pre ->
  undelta_loop (length values) raw off prev = Ok values.
Proof.
  intros Hf. revert pre prev off.
  induction Hf as [| v vs Hv Hf IH]; intros pre prev off Hp Hr Ho; [done |].
  rewrite delta_loop_cons in Hr. cbn [length undelta_loop].
  pose proof (PutUvarint_len (ZigZagEncode (int64 (v - prev)))) as Hl.
  assert (off < len raw).
  { subst. pose proof (len_nonneg (delta_loop vs v [])). autorewrite with len.
    unfold delta_varint. lia. }
  zcmp. rewrite (slice_from_split _ pre (delta_varint v prev ++ delta_loop vs v [])) by done.
  cbn [mbind result_bind]. unfold delta_varint at 1.
  rewrite Uvarint_put by apply ZigZagEncode_range, int64_range. zcmp.
  rewrite ZigZag_roundtrip by apply int64_range.
  rewrite int64_add_r. replace (prev + (v - prev)) with v by lia.
  rewrite int64_small by done.
  rewrite (IH (pre ++ delta_varint v prev)); [done | done | | ].
  - by rewrite Hr, app_assoc.
  - rewrite len_app. unfold delta_varint. lia.
Qed.

Lemma Delta_roundtrip_lemma values :
  values <> [] -> Forall is_int64 values -> len values * 10 <= MaxBlockBytes ->
  DeltaDecode (DeltaEncode values) (len values) = Ok values.
Proof.
  intros Hne Hf Hmax. destruct values as [| base vs]; [done |].
  set (values := base :: vs) in *. pose proof (len_nonneg values).
  assert (is_int64 base) as Hb by (by inversion Hf).
  assert (DeltaEncode values =
    le_bytes 8 (uint64 base) ++ Compress (delta_loop values base [])) as -> by done.
  unfold DeltaDecode. autorewrite with len.
  pose proof (len_nonneg (Compress (delta_loop values base []))). zcmp.
  rewrite (slice_split _ [] (le_bytes 8 (uint64 base)) (Compress (delta_loop values base [])))
    by (done || len_lia).
  cbn [mbind result_bind]. rewrite <- (app_nil_r (le_bytes 8 _)) at 1.
  rewrite Uint64_app by apply uint64_range. cbn [mbind result_bind].
  rewrite (slice_from_split _ (le_bytes 8 (uint64 base)) (Compress (delta_loop values base [])))
    by (done || len_lia).
  cbn [mbind result_bind]. pose proof (delta_loop_len values base).
  rewrite DecompressBounded_column by (unfold MaxVarintBytes; lia).
  cbn [wrap mbind result_bind]. rewrite check_make_ok by done. cbn [mbind result_bind].
  rewrite int64_uint64, int64_small by done.
  rewrite to_nat_len. by apply (undelta_loop_delta values _ []).
Qed.

Lemma undelta_loop_no_panic n raw off prev : 0 <= off -> no_panic (undelta_loop n raw off prev).
Proof.
  revert off prev. induction n as [| n IH]; intros off prev Ho; [done |]. cbn [undelta_loop].
  destruct (Z.ltb_spec off (len raw)); [| done].
  rewrite slice_from_ok by lia. cbn [mbind result_bind].
  destruct (Uvarint _) as [e k]. destruct (Z.leb_spec k 0); [done |].
  apply no_panic_bind; [apply IH; lia | done].
Qed.

Lemma DeltaDecode_no_panic data count : 0 <= count -> no_panic (DeltaDecode data count).
Proof.
  intros Hc. unfold DeltaDecode. destruct (Z.ltb_spec (len data) 8); [done |].
  rewrite slice_ok by lia. cbn [mbind result_bind].
  apply no_panic_bind.
  { apply le_uint_no_panic. rewrite len_take; rewrite ?len_drop; lia. }
  intros b _. rewrite slice_from_ok by lia. cbn [mbind result_bind].
  apply no_panic_bind; [auto with go |]. intros raw _.
  rewrite check_make_ok by done. by apply undelta_loop_no_panic.
Qed.

End DeltaLemmas.

(** ** Dictionary *)

(** [dict] inverts [order], whose entries are distinct. *)
Definition dict_inv (dict : gmap bytes Z) (order : list bytes) : Prop :=
  NoDup order /\ (forall v i, dict !! v = Some i <-> 0 <= i /\ order !! Z.to_nat i = Some v).

Lemma dict_inv_None dict order v : dict_inv dict order -> dict !! v = None -> v ∉ order.
Proof.
  intros [_ Hd] Hv [i Hi]%list_elem_of_lookup. destruct (Hd v (Z.of_nat i)) as [_ H].
  rewrite H in Hv; [done |]. rewrite Nat2Z.id. auto with lia.
Qed.

Lemma dict_inv_snoc dict order v :
  dict_inv dict order -> dict !! v = None ->
  dict_inv (<[v := len order]> dict) (order ++ [v]).
Proof.
  intros [Hnd Hd] Hv.
  assert (v ∉ order) as Hni by (by eapply dict_inv_None).
  split.
  { apply list.NoDup_app. split_and!; [done | set_solver | apply NoDup_singleton]. }
  intros w i. destruct (decide (w = v)) as [-> | Hne].
  - rewrite lookup_insert_eq. split.
    + intros [= <-]. split; [apply len_nonneg |]. unfold len. rewrite Nat2Z.id.
      by apply list_lookup_middle.
    + intros [Hi Hl]. f_equal. apply lookup_app_Some in Hl as [Hl | [Hl1 Hl2]].
      * exfalso. apply Hni. by eapply list_elem_of_lookup_2.
      * apply list_lookup_singleton_Some in Hl2 as [Hl2 _]. unfold len. lia.
  - rewrite lookup_insert_ne by done. rewrite Hd. split; intros [Hi Hl]; split; try done.
    + by apply lookup_app_l_Some.
    + apply lookup_app_Some in Hl as [Hl | [Hl1 Hl2]]; [done |].
      apply list_lookup_singleton_Some in Hl2 as [_ Hl2]. congruence.
Qed.

(** What row [v] decodes to once the dictionary is [order]. *)
Definition folded (order : list bytes) (v : bytes) : bytes :=
  if bool_decide (v ∈ order) then v else [].

Definition lookup_in (order : list bytes) (idx : Z) : bytes :=
  if idx <? len order then default [] (order !! Z.to_nat idx) else [].

(** What the loop started at [order] promises. *)
Record dict_spec (limit : Z) (order : list bytes) (values : list bytes)
  (order' : list bytes) (indices : list Z) : Prop := {
  ds_order : order' = take (Z.to_nat limit) (order ++ uniq_from order values);
  ds_nodup : NoDup order';
  ds_len : len order' <= limit;
  ds_prefix : order `prefix_of` order';
  ds_length : length indices = length values;
  ds_range : Forall (fun i => 0 <= i < len order') indices;
  ds_lookup : lookup_in order' <$> indices = folded order' <$> values
}.

Lemma dict_spec_cons limit order order1 v vs order' idx indices :
  dict_spec limit order1 vs order' indices ->
  order `prefix_of` order1 ->
  order' = take (Z.to_nat limit) (order ++ uniq_from order (v :: vs)) ->
  0 <= idx < len order' -> lookup_in order' idx = folded order' v ->
  dict_spec limit order (v :: vs) order' (idx :: indices).
Proof.
  intros [E1 E2 E3 E4 E5 E6 E7] Hpre Ho Hi Hl.
  split; try done.
  - by etrans.
  - cbn. by f_equal.
  - by constructor.
  - cbn [fmap list_fmap]. by f_equal.
Qed.

Lemma lookup_in_hit order idx v :
  0 <= idx -> order !! Z.to_nat idx = Some v ->
  idx < len order /\ lookup_in order idx = folded order v.
Proof.
  intros Hi Hl. assert (idx < len order) by (apply lookup_lt_Some in Hl; unfold len; lia).
  split; [done |]. unfold lookup_in, folded. zcmp. rewrite Hl. cbn.
  rewrite bool_decide_eq_true_2; [done | by eapply list_elem_of_lookup_2].
Qed.

(** The dictionary is full: it stays what it is and [v] folds onto index 0. *)
Lemma dict_spec_full limit order v vs order' indices :
  order !! 0%nat = Some [] -> v ∉ order -> len order = limit ->
  dict_spec limit order vs order' indices ->
  dict_spec limit order (v :: vs) order' (0 :: indices).
Proof.
  intros H0 Hni Hlim Hs.
  assert (length order = Z.to_nat limit) as Hn by (unfold len in *; lia).
  assert (order' = order) as ->.
  { rewrite (ds_order _ _ _ _ _ Hs), take_app_length' by done. done. }
  assert (0 < len order) by (apply lookup_lt_Some in H0; unfold len; lia).
  eapply dict_spec_cons; [done | done | by rewrite take_app_length' | lia |].
  unfold lookup_in, folded. zcmp. change (Z.to_nat 0) with 0%nat. rewrite H0.
  by rewrite bool_decide_eq_false_2.
Qed.

Lemma dict_loop_spec limit values dict order :
  limit <= MaxDictEntries -> order !! 0%nat = Some [] ->
  dict_inv dict order -> len order <= limit ->
  let '(order', indices) := dict_loop limit values dict order in
  dict_spec limit order values order' indices.
Proof.
  intros Hmax. revert dict order.
  induction values as [| v vs IH]; intros dict order H0 Hinv Hlen; cbn [dict_loop].
  { split; try done; cbn [uniq_from].
    - rewrite app_nil_r, take_ge by (unfold len in Hlen; lia). done.
    - apply Hinv. }
  destruct (dict !! v) as [i |] eqn:Ei.
  - destruct (proj1 (proj2 Hinv v i) Ei) as [Hi Hl].
    specialize (IH dict order H0 Hinv Hlen).
    destruct (dict_loop limit vs dict order) as [order' indices].
    destruct (ds_prefix _ _ _ _ _ IH) as [k Ek].
    destruct (lookup_in_hit order' i v) as [H1 H2]; [done | |].
    { rewrite Ek. by apply lookup_app_l_Some. }
    eapply dict_spec_cons; [done | done | | done | done].
    cbn [uniq_from]. rewrite bool_decide_eq_true_2 by (by eapply list_elem_of_lookup_2).
    apply (ds_order _ _ _ _ _ IH).
  - pose proof (dict_inv_None _ _ _ Hinv Ei) as Hni.
    destruct (Z.leb_spec limit (len order)) as [Hfull | Hroom].
    + specialize (IH dict order H0 Hinv Hlen).
      destruct (dict_loop limit vs dict order) as [order' indices].
      apply dict_spec_full; try done. lia.
    + pose proof (len_nonneg order). unfold MaxDictEntries in Hmax.
      rewrite (uint16_small (len order)) by lia.
      specialize (IH (<[v := len order]> dict) (order ++ [v])).
      destruct (dict_loop limit vs _ (order ++ [v])) as [order' indices].
      specialize (IH (lookup_app_l_Some _ _ _ _ H0) (dict_inv_snoc _ _ _ Hinv Ei)
        ltac:(autorewrite with len; lia)).
      destruct (ds_prefix _ _ _ _ _ IH) as [k Ek].
      destruct (lookup_in_hit order' (len order) v) as [H1 H2]; [done | |].
      { rewrite Ek, <- app_assoc. unfold len. rewrite Nat2Z.id. by apply list_lookup_middle. }
      eapply dict_spec_cons; [done | by eexists | | done | done].
      cbn [uniq_from]. rewrite bool_decide_eq_false_2 by done.
      rewrite (ds_order _ _ _ _ _ IH), <- app_assoc. done.
Qed.

Lemma DictEncodeLimit_lemma values limit :
  1 <= limit <= MaxDictEntries ->
  let d := DictEncodeLimit values limit in
  dict_spec limit [ [] ] values (Dict d) (Indices d).
Proof.
  intros Hl. unfold DictEncodeLimit. zcmp.
  pose proof (dict_loop_spec limit values (<[ [] := 0 ]> ∅) [ [] ]) as H.
  destruct (dict_loop limit values _ _) as [order indices]. cbn [Dict Indices].
  apply H; [lia | done | | unfold len; cbn [length]; lia]. split; [apply NoDup_singleton |].
  intros v i. rewrite lookup_insert_Some, list_lookup_singleton_Some. split.
  - intros [[<- <-] | [_ H1]]; [by split_and! | by rewrite lookup_empty in H1].
  - intros (Hi & Hn & <-). left. split; [done | lia].
Qed.

Lemma DictLookup_folded values limit :
  1 <= limit <= MaxDictEntries ->
  DictLookup (DictEncodeLimit values limit) =
    folded (Dict (DictEncodeLimit values limit)) <$> values.
Proof. intros H. apply (ds_lookup _ _ _ _ _ (DictEncodeLimit_lemma values limit H)). Qed.

(** Nothing is folded while the distinct values fit the dictionary. *)
Lemma folded_all values limit :
  1 <= limit <= MaxDictEntries -> len (uniq ([] :: values)) <= limit ->
  folded (Dict (DictEncodeLimit values limit)) <$> values = values.
Proof.
  intros Hl Hu. rewrite (ds_order _ _ _ _ _ (DictEncodeLimit_lemma values limit Hl)).
  change ([ [] ] ++ uniq_from [ [] ] values) with (uniq ([] :: values)).
  rewrite take_ge by (unfold len in Hu; lia).
  transitivity (id <$> values); [| apply list_fmap_id].
  apply list_fmap_ext. intros i v Hv. unfold folded. cbn [id].
  rewrite bool_decide_eq_true_2; [done |]. apply elem_of_uniq.
  apply elem_of_cons. right. by eapply list_elem_of_lookup_2.
Qed.

(** ** Index and integer runs *)

Lemma get_uint16s_put indices raw pre i :
  Forall (is_uint 16) indices -> raw = pre ++ put_uint16s indices -> len pre = i * 2 -> 0 <= i ->
  get_uint16s (length indices) i raw = Ok indices.
Proof.
  intros Hf. revert pre i. induction Hf as [| v vs Hv Hf IH]; intros pre i Hr Hp Hi; [done |].
  unfold put_uint16s in Hr. rewrite bind_cons in Hr. cbn [length get_uint16s].
  assert (i * 2 + 1 < len raw) by (subst; len_lia). zcmp.
  rewrite (slice_from_split _ pre (le_bytes 2 v ++ (vs ≫= le_bytes 2))) by (done || lia).
  cbn [mbind result_bind]. rewrite Uint16_app by done. cbn [mbind result_bind].
  rewrite (IH (pre ++ le_bytes 2 v)); [done | by rewrite Hr, <- app_assoc | len_lia | lia].
Qed.

Lemma put_uint16s_len indices : len (put_uint16s indices) = len indices * 2.
Proof.
  induction indices as [| v vs IH]; [done |]. unfold put_uint16s in *.
  rewrite bind_cons. autorewrite with len. rewrite IH. lia.
Qed.

Lemma get_uint16s_no_panic n i raw : 0 <= i -> no_panic (get_uint16s n i raw).
Proof.
  revert i. induction n as [| n IH]; intros i Hi; [done |]. cbn [get_uint16s].
  destruct (Z.ltb_spec (i * 2 + 1) (len raw)); [| done].
  rewrite slice_from_ok by lia. cbn [mbind result_bind].
  apply no_panic_bind; [apply le_uint_no_panic; rewrite len_drop; lia |]. intros v _.
  apply no_panic_bind; [apply IH; lia | done].
Qed.

Lemma get_uint16s_length n i raw vs : get_uint16s n i raw = Ok vs -> length vs = n.
Proof.
  revert i vs. induction n as [| n IH]; intros i vs; cbn [get_uint16s]; [by intros [= <-] |].
  destruct (_ <? _); [| intros [= <-]; cbn; by rewrite length_replicate].
  intros (d & _ & H)%bind_ok_inv. apply bind_ok_inv in H as (v & _ & H).
  apply bind_ok_inv in H as (r & Hr & [= <-]). cbn. by rewrite (IH _ _ Hr).
Qed.

Lemma get_int64s_put values raw pre i :
  Forall is_int64 values -> raw = pre ++ put_int64s values -> len pre = i * 8 -> 0 <= i ->
  get_int64s (length values) i raw = Ok values.
Proof.
  intros Hf. revert pre i. induction Hf as [| v vs Hv Hf IH]; intros pre i Hr Hp Hi; [done |].
  unfold put_int64s in Hr. rewrite bind_cons in Hr. cbn [length get_int64s].
  assert (i * 8 + 8 <= len raw) by (subst; len_lia). zcmp.
  rewrite (slice_from_split _ pre (le_bytes 8 (uint64 v) ++ put_int64s vs)) by (done || lia).
  cbn [mbind result_bind]. rewrite Uint64_app by apply uint64_range. cbn [mbind result_bind].
  rewrite int64_uint64, int64_small by done.
  rewrite (IH (pre ++ le_bytes 8 (uint64 v)));
    [done | by rewrite Hr, <- app_assoc | len_lia | lia].
Qed.

Lemma put_int64s_len values : len (put_int64s values) = len values * 8.
Proof.
  induction values as [| v vs IH]; [done |]. unfold put_int64s in *.
  rewrite bind_cons. autorewrite with len. rewrite IH. lia.
Qed.

Lemma get_int64s_no_panic n i raw : 0 <= i -> no_panic (get_int64s n i raw).
Proof.
  revert i. induction n as [| n IH]; intros i Hi; [done |]. cbn [get_int64s].
  destruct (Z.ltb_spec (len raw) (i * 8 + 8)); [done |].
  rewrite slice_from_ok by lia. cbn [mbind result_bind].
  apply no_panic_bind; [apply le_uint_no_panic; rewrite len_drop; lia |]. intros v _.
  apply no_panic_bind; [apply IH; lia | done].
Qed.

(** ** Serialised dictionaries and blocks *)

Section DictLemmas.
Context {C : Zstd} {L : ZstdLaws C}.

(** The dictionary part of the column, before compression of the indices. *)
Definition dict_section (d : DictEncoded) : bytes :=
  le_bytes 2 (len (Dict d)) ++ (Dict d ≫= frame).

Lemma DictMarshal_eq d :
  len (Dict d) <= MaxDictEntries -> len (dict_section d) < 2 ^ 32 ->
  DictMarshal d = le_bytes 4 (len (dict_section d)) ++ dict_section d
                    ++ Compress (put_uint16s (Indices d)).
Proof.
  intros Hl Hs. unfold DictMarshal. zcmp.
  rewrite append_strings_app. unfold AppendUint16, AppendUint32. rewrite !app_nil_l.
  unfold MaxDictEntries in Hl. pose proof (len_nonneg (Dict d)).
  rewrite uint16_small by lia. fold (dict_section d).
  pose proof (len_nonneg (dict_section d)). by rewrite uint32_small by lia.
Qed.

Lemma Dict_roundtrip_lemma d f :
  len (Dict d) <= MaxDictEntries -> Forall (framable f) (Dict d) ->
  len (dict_section d) < 2 ^ 32 -> Forall (is_uint 16) (Indices d) ->
  len (Indices d) * 2 <= MaxBlockBytes ->
  DictUnmarshal (DictMarshal d) (len (Indices d)) f = Ok d.
Proof.
  intros Hl Hf Hs Hi Hmax. rewrite DictMarshal_eq by done.
  set (z := Compress (put_uint16s (Indices d))). set (ds := dict_section d) in *.
  pose proof (len_nonneg z). pose proof (len_nonneg ds). pose proof (len_nonneg (Dict d)).
  pose proof (len_nonneg (Indices d)).
  assert (2 <= len ds).
  { subst ds. unfold dict_section. pose proof (len_nonneg (Dict d ≫= frame)).
    autorewrite with len. lia. }
  unfold DictUnmarshal. autorewrite with len. zcmp.
  rewrite (slice_split _ [] (le_bytes 4 (len ds)) (ds ++ z)) by (done || len_lia).
  cbn [mbind result_bind]. rewrite <- (app_nil_r (le_bytes 4 _)) at 1.
  rewrite Uint32_app by (unfold is_uint; lia). cbn [mbind result_bind]. zcmp.
  rewrite (slice_split _ (le_bytes 4 (len ds)) ds z) by (done || len_lia).
  cbn [mbind result_bind]. zcmp.
  unfold MaxDictEntries in Hl.
  rewrite (slice_split ds [] (le_bytes 2 (len (Dict d))) (Dict d ≫= frame)) by (done || len_lia).
  cbn [mbind result_bind]. rewrite <- (app_nil_r (le_bytes 2 _)) at 1.
  rewrite Uint16_app by (unfold is_uint; lia). cbn [mbind result_bind].
  rewrite (to_nat_len (Dict d)).
  rewrite (read_strings_append _ f (Dict d) ds (le_bytes 2 (len (Dict d))) [])
    by (done || (rewrite app_nil_r; done) || len_lia).
  cbn [mbind result_bind].
  rewrite (slice_from_split _ (le_bytes 4 (len ds) ++ ds) z)
    by (rewrite <- ?app_assoc; done || len_lia).
  cbn [mbind result_bind]. subst z.
  rewrite DecompressBounded_column by (rewrite ?put_uint16s_len; lia).
  cbn [wrap mbind result_bind]. rewrite check_make_ok by done. cbn [mbind result_bind].
  rewrite (to_nat_len (Indices d)).
  rewrite (get_uint16s_put (Indices d) _ []) by done. by destruct d.
Qed.

Lemma DictUnmarshal_no_panic data count f : 0 <= count -> no_panic (DictUnmarshal data count f).
Proof.
  intros Hc. unfold DictUnmarshal. destruct (Z.ltb_spec (len data) 4); [done |].
  rewrite slice_ok by lia. cbn [mbind result_bind].
  apply no_panic_bind.
  { apply le_uint_no_panic. rewrite len_take; rewrite ?len_drop; lia. }
  intros n Hn%le_uint_range. destruct (Z.ltb_spec (len data) (4 + n)); [done |].
  rewrite slice_ok by lia. cbn [mbind result_bind].
  rewrite len_take by (rewrite len_drop; lia).
  destruct (Z.ltb_spec (4 + n - 4) 2); [done |].
  apply no_panic_bind; [apply slice_no_panic; rewrite ?len_take; rewrite ?len_drop; lia |].
  intros d Hd. rewrite slice_ok in Hd by (rewrite ?len_take; rewrite ?len_drop; lia).
  injection Hd as <-. apply no_panic_bind.
  { apply le_uint_no_panic. rewrite len_take; rewrite ?len_drop; rewrite ?len_take;
      rewrite ?len_drop; lia. }
  intros k _. apply no_panic_bind; [auto with go lia |]. intros dict _.
  rewrite slice_from_ok by lia. cbn [mbind result_bind].
  apply no_panic_bind; [auto with go |]. intros raw _.
  rewrite check_make_ok by done. cbn [mbind result_bind].
  apply no_panic_bind; [by apply get_uint16s_no_panic | done].
Qed.

Lemma ZstdBlockStrings_roundtrip_lemma values f :
  Forall (framable f) values ->
  Forall (fun s => len s <= MaxColumnValueBytes) values ->
  len (values ≫= frame) <= MaxBlockBytes ->
  ZstdBlockDecodeStrings (ZstdBlockEncodeStrings values) (len values) f = Ok values.
Proof.
  intros Hf Hc Hmax. pose proof (len_nonneg values).
  unfold ZstdBlockDecodeStrings, ZstdBlockEncodeStrings.
  rewrite append_strings_app, app_nil_l.
  rewrite DecompressBounded_column; [ | done | | done].
  2:{ clear - Hc. induction Hc as [| v vs Hv Hc IH]; [done |]. rewrite bind_cons.
      autorewrite with len. pose proof (AppendLenString_len_bound v).
      unfold frame at 1. unfold MaxLenFramingBytes in *. lia. }
  cbn [wrap mbind result_bind]. rewrite check_make_ok by done. cbn [mbind result_bind].
  rewrite to_nat_len.
  apply (read_strings_append _ f values _ [] []); [done | by rewrite app_nil_r | done].
Qed.

Lemma ZstdBlockInt64_roundtrip_lemma values :
  Forall is_int64 values -> len values * 8 <= MaxBlockBytes ->
  ZstdBlockDecodeInt64 (ZstdBlockEncodeInt64 values) (len values) = Ok values.
Proof.
  intros Hf Hmax. pose proof (len_nonneg values).
  unfold ZstdBlockDecodeInt64, ZstdBlockEncodeInt64.
  rewrite DecompressBounded_column by (rewrite ?put_int64s_len; lia).
  cbn [wrap mbind result_bind]. rewrite check_make_ok by done. cbn [mbind result_bind].
  rewrite to_nat_len. by apply (get_int64s_put values _ []).
Qed.

Lemma ZstdBlockDecodeStrings_no_panic data count f :
  0 <= count -> no_panic (ZstdBlockDecodeStrings data count f).
Proof.
  intros Hc. unfold ZstdBlockDecodeStrings. apply no_panic_bind; [auto with go |].
  intros raw _. rewrite check_make_ok by done. cbn [mbind result_bind]. auto with go lia.
Qed.

Lemma ZstdBlockDecodeInt64_no_panic data count :
  0 <= count -> no_panic (ZstdBlockDecodeInt64 data count).
Proof.
  intros Hc. unfold ZstdBlockDecodeInt64. apply no_panic_bind; [auto with go |].
  intros raw _. rewrite check_make_ok by done. cbn [mbind result_bind].
  by apply get_int64s_no_panic.
Qed.

End DictLemmas.

#[export] Hint Resolve DeltaDecode_no_panic DictUnmarshal_no_panic
  ZstdBlockDecodeStrings_no_panic ZstdBlockDecodeInt64_no_panic BitpackDecode_no_panic : go.

(** ** Properties *)

Section ColumnProperties.
Context {C : Zstd} {L : ZstdLaws C}.

(** The delta encoding of a non-empty integer column is inverted, wrap-around
    differences included. *)
Theorem delta_roundtrip (values : list Z) :
  values <> [] -> Forall is_int64 values -> len values * 10 <= MaxBlockBytes ->
  DeltaDecode (DeltaEncode values) (len values) = Ok values.
Proof. apply Delta_roundtrip_lemma. Qed.

(** Dictionary encoding under a cardinality limit assigns each value an index
    in range; looking the indices up gives every value back that made it into the
    dictionary and the empty string for the rest, and gives all values back when
    the distinct values (with the empty string) do not exceed the limit. *)
Theorem dictionary_folds (values : list bytes) (limit : Z) :
  1 <= limit <= MaxDictEntries ->
  let d := DictEncodeLimit values limit in
  len (Dict d) <= limit /\ NoDup (Dict d) /\
  DictLookup d = folded (Dict d) <$> values /\
  (len (uniq ([] :: values)) <= limit -> DictLookup d = values).
Proof.
  intros Hl. cbv zeta. destruct (DictEncodeLimit_lemma values limit Hl) as [_ Hn Hlen _ _ _ _].
  split_and!; [done | done | by apply DictLookup_folded |].
  intros Hu. by rewrite DictLookup_folded, folded_all.
Qed.

(** A marshalled dictionary column is parsed back to the same dictionary and
    indices. *)
Theorem dictionary_roundtrip (d : DictEncoded) (f : LenFormat) :
  len (Dict d) <= MaxDictEntries -> Forall (framable f) (Dict d) ->
  len (dict_section d) < 2 ^ 32 -> Forall (is_uint 16) (Indices d) ->
  len (Indices d) * 2 <= MaxBlockBytes ->
  DictUnmarshal (DictMarshal d) (len (Indices d)) f = Ok d.
Proof. apply Dict_roundtrip_lemma. Qed.

End ColumnProperties.

Lemma delta_roundtrip_witness :
  DeltaDecode (C := stored_codec) (DeltaEncode (C := stored_codec) [5; -3; 9223372036854775807]) 3 =
    Ok [5; -3; 9223372036854775807].
Proof.
  apply (delta_roundtrip (C := stored_codec) [5; -3; 9223372036854775807]);
    [done | repeat constructor; done | done].
Defined.

Lemma dictionary_folds_witness :
  let d := DictEncodeLimit [str "a"; str "b"; str "a"; str "c"] 3 in
  len (Dict d) <= 3 /\ NoDup (Dict d) /\
  DictLookup d = folded (Dict d) <$> [str "a"; str "b"; str "a"; str "c"] /\
  (len (uniq ([] :: [str "a"; str "b"; str "a"; str "c"])) <= 3 ->
   DictLookup d = [str "a"; str "b"; str "a"; str "c"]).
Proof. apply (dictionary_folds [str "a"; str "b"; str "a"; str "c"] 3). done. Defined.

Lemma dictionary_roundtrip_witness :
  DictUnmarshal (C := stored_codec)
    (DictMarshal (C := stored_codec) (mkDict [[]; str "x"] [1; 0; 1])) 3 LenExtended =
    Ok (mkDict [[]; str "x"] [1; 0; 1]).
Proof.
  apply (dictionary_roundtrip (C := stored_codec) (mkDict [[]; str "x"] [1; 0; 1]) LenExtended);
    [done | repeat constructor; done | done | repeat constructor; done | done].
Defined.
