(* ===== verification/Sparse.v ===== *)
(** * Sparse column encodings (internal/logstore/encoding/sparse.go)

    A null bitmap (one bit per row) followed by the packed non-null values.
    Four value types share the layout: strings (empty is null), nullable
    integers, nullable booleans (a second bitmap) and nullable byte blobs. *)

From stdpp Require Import base list gmap strings numbers.
From Stdlib Require Import ZArith Lia.
From S2P Require Import Prelude Framing Zstd Bitpack Columns.

(** ** Bitmap helpers *)

Fixpoint bitmap_loop {A} (isPresent : A -> bool) (values : list A) (i : Z)
  (bitmap : bytes) (nonNullCount : Z) : result (bytes * Z) :=
  match values with
  | [] => Ok (bitmap, nonNullCount)
  | v :: values =>
      if isPresent v then
        bitmap ← or_at bitmap (i / 8) (uint8 (Z.shiftl 1 (i mod 8)));
        bitmap_loop isPresent values (i + 1) bitmap (nonNullCount + 1)
      else bitmap_loop isPresent values (i + 1) bitmap nonNullCount
  end.

Definition buildBitmap {A} (values : list A) (isPresent : A -> bool) : result (bytes * Z) :=
  let bitmapSize := (len values + 7) / 8 in
  bitmap_loop isPresent values 0 (make 0 bitmapSize) 0.

(** [v != nil] *)
Definition not_nil {A} (v : option A) : bool :=
  match v with Some _ => true | None => false end.

Definition buildBitmapPtr (values : list (option Z)) : result (bytes * Z) :=
  let bitmapSize := (len values + 7) / 8 in
  bitmap_loop not_nil values 0 (make 0 bitmapSize) 0.

Definition buildBitmapPtrBool (values : list (option bool)) : result (bytes * Z) :=
  let bitmapSize := (len values + 7) / 8 in
  bitmap_loop not_nil values 0 (make 0 bitmapSize) 0.

Definition buildBitmapBytes (values : list (option bytes)) : result (bytes * Z) :=
  let bitmapSize := (len values + 7) / 8 in
  bitmap_loop not_nil values 0 (make 0 bitmapSize) 0.

Definition getBit (bitmap : bytes) (i : Z) : result bool :=
  if len bitmap <=? i / 8 then Ok false
  else
    b ← index bitmap (i / 8);
    Ok (negb (Z.land b (Z.shiftl 1 (i mod 8)) =? 0)).

Definition marshalSparse (nonNullCount : Z) (bitmap values : bytes) : bytes :=
  let result := AppendUint32 [] (uint32 nonNullCount) in
  let result := AppendUint32 result (uint32 (len bitmap)) in
  let result := result ++ bitmap in
  result ++ values.

Definition unmarshalSparse (data : bytes) : result (Z * bytes * bytes) :=
  if len data <? 8 then Err (Errorf "sparse data too short")
  else
    d ← slice data 0 4;
    nonNullCount ← Uint32 d;
    d ← slice data 4 8;
    bitmapSize ← Uint32 d;
    if len data <? 8 + bitmapSize then Err (Errorf "bitmap size exceeds data length")
    else
      bitmap ← slice data 8 (8 + bitmapSize);
      values ← slice_from data (8 + bitmapSize);
      Ok (nonNullCount, bitmap, values).

(** The row loop shared by the four decoders: [read i offset] decodes the next
    stored value, [null] stays in the slots whose bit is clear. *)
Fixpoint unsparse_loop {A} (bitmap : bytes) (read : Z -> Z -> result (A * Z)) (null : A)
  (i : Z) (count : nat) (offset : Z) : result (list A) :=
  match count with
  | O => Ok []
  | S n =>
      bit ← getBit bitmap i;
      if bit : bool then
        '(v, offset) ← read i offset;
        rest ← unsparse_loop bitmap read null (i + 1) n offset;
        Ok (v :: rest)
      else
        rest ← unsparse_loop bitmap read null (i + 1) n offset;
        Ok (null :: rest)
  end.

Section Sparse.
Context {C : Zstd}.

(** ** Strings *)

Definition non_empty (v : bytes) : bool := negb (bool_decide (v = [])).

Definition SparseStrings (values : list bytes) : result bytes :=
  '(bitmap, nonNullCount) ← buildBitmap values non_empty;
  let buf := foldl (fun buf v => if non_empty v then AppendLenString buf v else buf) [] values in
  let compressed := Compress buf in
  Ok (marshalSparse nonNullCount bitmap compressed).

Definition UnsparseStrings (data : bytes) (count : Z) (f : LenFormat) : result (list bytes) :=
  '(nonNullCount, bitmap, compressedValues) ← unmarshalSparse data;
  raw ←
    (if 0 <? nonNullCount then
       wrap "decompress sparse strings"
         (DecompressBounded compressedValues
            (DecodeCeiling count (MaxColumnValueBytes + MaxLenFramingBytes)))
     else Ok []);
  _ ← check_make count;
  unsparse_loop bitmap
    (fun i offset => wrap "sparse string" (ReadString f raw offset))
    [] 0 (Z.to_nat count) 0.

(** ** Integers *)

Definition SparseInt64 (values : list (option Z)) : result bytes :=
  '(bitmap, nonNullCount) ← buildBitmapPtr values;
  let buf :=
    foldl (fun buf v => match v with Some v => PutVarint buf v | None => buf end) [] values in
  let compressed := Compress buf in
  Ok (marshalSparse nonNullCount bitmap compressed).

Definition UnsparseInt64 (data : bytes) (count : Z) : result (list (option Z)) :=
  '(nonNullCount, bitmap, compressedValues) ← unmarshalSparse data;
  raw ←
    (if 0 <? nonNullCount then
       wrap "decompress sparse int64"
         (DecompressBounded compressedValues (DecodeCeiling count MaxVarintBytes))
     else Ok []);
  _ ← check_make count;
  unsparse_loop bitmap
    (fun i offset =>
       if len raw <=? offset then Err (Errorf "sparse int64: truncated")
       else
         d ← slice_from raw offset;
         let '(v, n) := Varint d in
         if n <=? 0 then Err (Errorf "sparse int64: invalid varint")
         else Ok (Some v, offset + n))
    None 0 (Z.to_nat count) 0.

(** ** Booleans *)

Fixpoint value_bits_loop (values : list (option bool)) (idx : Z) (valueBitmap : bytes)
  : result bytes :=
  match values with
  | [] => Ok valueBitmap
  | Some b :: values =>
      valueBitmap ←
        (if (b : bool) then or_at valueBitmap (idx / 8) (uint8 (Z.shiftl 1 (idx mod 8)))
         else Ok valueBitmap);
      value_bits_loop values (idx + 1) valueBitmap
  | None :: values => value_bits_loop values idx valueBitmap
  end.

Definition SparseBool (values : list (option bool)) : result bytes :=
  '(nullBitmap, nonNullCount) ← buildBitmapPtrBool values;
  let valueBitmapSize := (nonNullCount + 7) / 8 in
  valueBitmap ← value_bits_loop values 0 (make 0 valueBitmapSize);
  Ok (marshalSparse nonNullCount nullBitmap valueBitmap).

Definition UnsparseBool (data : bytes) (count : Z) : result (list (option bool)) :=
  '(_, nullBitmap, valueBitmap) ← unmarshalSparse data;
  _ ← check_make count;
  unsparse_loop nullBitmap
    (fun i idx => v ← getBit valueBitmap idx; Ok (Some v, idx + 1))
    None 0 (Z.to_nat count) 0.

(** ** Blobs *)

Definition SparseBytes (values : list (option bytes)) : result bytes :=
  '(bitmap, nonNullCount) ← buildBitmapBytes values;
  let buf :=
    foldl (fun buf v =>
             match v with
             | Some v => AppendUint32 buf (uint32 (len v)) ++ v
             | None => buf
             end) [] values in
  let compressed := Compress buf in
  Ok (marshalSparse nonNullCount bitmap compressed).

Definition UnsparseBytes (data : bytes) (count : Z) : result (list (option bytes)) :=
  '(nonNullCount, bitmap, compressedValues) ← unmarshalSparse data;
  raw ←
    (if 0 <? nonNullCount then
       wrap "decompress sparse bytes"
         (DecompressBounded compressedValues
            (DecodeCeiling count (MaxColumnValueBytes + MaxLenFramingBytes)))
     else Ok []);
  _ ← check_make count;
  unsparse_loop bitmap
    (fun i offset =>
       if len raw <? offset + 4 then Err (Errorf "sparse bytes: truncated length")
       else
         d ← slice_from raw offset;
         bLen ← Uint32 d;
         let offset := offset + 4 in
         if len raw <? offset + bLen then Err (Errorf "sparse bytes: truncated data")
         else
           val ← slice raw offset (offset + bLen);
           Ok (Some val, offset + bLen))
    None 0 (Z.to_nat count) 0.

End Sparse.

(** ** Bitmaps as numbers *)

(** The bits a list of flags stands for. *)
Definition bitnum (flags : list bool) : Z := packnum 1 (Z.b2z <$> flags).

Lemma bitnum_cons b flags : bitnum (b :: flags) = Z.lor (Z.b2z b) (Z.shiftl (bitnum flags) 1).
Proof. done. Qed.

Lemma bitnum_bit0 b flags : Z.testbit (bitnum (b :: flags)) 0 = b.
Proof.
  rewrite bitnum_cons, Z.lor_spec, Z.shiftl_spec_low by lia. rewrite orb_false_r.
  by destruct b.
Qed.

Lemma bitnum_tail b flags : Z.shiftr (bitnum (b :: flags)) 1 = bitnum flags.
Proof.
  rewrite bitnum_cons, lor_shift_add by (destruct b; cbn [Z.b2z]; lia).
  rewrite Z.shiftr_div_pow2 by lia.
  rewrite Z.div_add by lia. by destruct b.
Qed.

Lemma shiftl_1_split i :
  0 <= i -> Z.shiftl (uint8 (Z.shiftl 1 (i mod 8))) (8 * (i / 8)) = Z.shiftl 1 i.
Proof.
  intros Hi. pose proof (Z.mod_pos_bound i 8 ltac:(lia)).
  pose proof (Z.div_mod i 8 ltac:(lia)). pose proof (Z.div_pos i 8 ltac:(lia) ltac:(lia)).
  unfold uint8. rewrite Z.mod_small.
  - rewrite Z.shiftl_shiftl by lia. f_equal. lia.
  - rewrite Z.shiftl_mul_pow2, Z.mul_1_l by lia. split; [lia |].
    apply Z.pow_lt_mono_r; lia.
Qed.

Definition count_true (flags : list bool) : Z := len (filter (fun b => b = true) flags).

Lemma count_true_cons b flags : count_true (b :: flags) = Z.b2z b + count_true flags.
Proof.
  unfold count_true. rewrite filter_cons.
  destruct b; case_decide; try done; rewrite ?len_cons; cbn [Z.b2z]; lia.
Qed.

Lemma count_true_bound flags : 0 <= count_true flags <= len flags.
Proof.
  unfold count_true, len. pose proof (length_filter (fun b => b = true) flags). lia.
Qed.

Lemma bitmap_loop_ok {A} (present : A -> bool) values i bitmap nn :
  bytes_ok bitmap -> 0 <= i -> i + len values <= 8 * len bitmap ->
  exists bitmap',
    bitmap_loop present values i bitmap nn = Ok (bitmap', nn + count_true (present <$> values)) /\
    bytes_ok bitmap' /\ len bitmap' = len bitmap /\
    le_val bitmap' = Z.lor (le_val bitmap) (Z.shiftl (bitnum (present <$> values)) i).
Proof.
  revert i bitmap nn. induction values as [| v vs IH]; intros i bitmap nn Hok Hi Hroom.
  { exists bitmap. cbn. rewrite Z.add_0_r, Z.shiftl_0_l, Z.lor_0_r. done. }
  rewrite len_cons in Hroom. rewrite fmap_cons, count_true_cons, bitnum_cons.
  rewrite Z.shiftl_lor, Z.shiftl_shiftl by lia. cbn [bitmap_loop].
  destruct (present v); cbn [Z.b2z].
  - len_pose. destruct (or_at_ok bitmap (i / 8) (uint8 (Z.shiftl 1 (i mod 8))))
      as (b1 & E1 & O1 & L1 & V1); [done | apply Z.mod_pos_bound; lia | |].
    { split; [apply Z.div_pos; lia | apply Z.div_lt_upper_bound; lia]. }
    rewrite E1. cbn [mbind result_bind].
    destruct (IH (i + 1) b1 (nn + 1)) as (b2 & E2 & O2 & L2 & V2); [done | lia | lia |].
    exists b2. rewrite E2, V2, V1, shiftl_1_split by done. split_and!; try done.
    + f_equal. f_equal. lia.
    + lia.
    + rewrite <- Z.lor_assoc, (Z.add_comm i 1). done.
  - destruct (IH (i + 1) bitmap nn) as (b2 & E2 & O2 & L2 & V2); [done | lia | lia |].
    exists b2. rewrite E2, V2. split_and!; try done.
    rewrite Z.shiftl_0_l, Z.lor_0_l, (Z.add_comm i 1). done.
Qed.

Lemma buildBitmap_ok {A} (values : list A) (present : A -> bool) :
  exists bitmap,
    bitmap_loop present values 0 (make 0 ((len values + 7) / 8)) 0 =
      Ok (bitmap, count_true (present <$> values)) /\
    bytes_ok bitmap /\ len bitmap = (len values + 7) / 8 /\
    le_val bitmap = bitnum (present <$> values).
Proof.
  len_pose. pose proof (Z.div_mod (len values + 7) 8 ltac:(lia)).
  pose proof (Z.mod_pos_bound (len values + 7) 8 ltac:(lia)).
  destruct (bitmap_loop_ok present values 0 (make 0 ((len values + 7) / 8)) 0)
    as (b & E & O & Lb & V); [apply bytes_ok_replicate | lia | rewrite len_make; lia |].
  exists b. rewrite E. split_and!; try done; [by rewrite Lb, len_make by lia |].
  rewrite V. unfold make. by rewrite le_val_replicate, Z.shiftl_0_r.
Qed.

Lemma getBit_ok bitmap i :
  bytes_ok bitmap -> 0 <= i -> getBit bitmap i = Ok (Z.testbit (le_val bitmap) i).
Proof.
  intros Hok Hi. pose proof (Z.mod_pos_bound i 8 ltac:(lia)).
  pose proof (Z.div_mod i 8 ltac:(lia)). pose proof (Z.div_pos i 8 ltac:(lia) ltac:(lia)).
  unfold getBit. destruct (Z.leb_spec (len bitmap) (i / 8)) as [Hge | Hlt].
  - f_equal. symmetry. pose proof (le_val_range bitmap) as Hr.
    rewrite <- (Z.mod_small (le_val bitmap) (2 ^ (8 * len bitmap))).
    2:{ len_pose. rewrite Z.pow_mul_r by lia. done. }
    apply Z.mod_pow2_bits_high. len_pose. lia.
  - destruct (index_ok bitmap (i / 8)) as (b & Eb & Lb); [lia |].
    rewrite Eb. cbn [mbind result_bind]. f_equal.
    pose proof (le_val_byte _ _ _ Hok Lb) as Hb. rewrite Z2Nat.id in Hb by lia.
    assert (Z.testbit (le_val bitmap) i = Z.testbit b (i mod 8)) as ->.
    { rewrite Hb, Z.testbit_mod_pow2, Z.shiftr_spec by lia. zcmp. f_equal. lia. }
    rewrite Z.shiftl_mul_pow2, Z.mul_1_l by lia.
    destruct (Z.eqb_spec (Z.land b (2 ^ (i mod 8))) 0) as [E | E]; cbn [negb].
    + assert (Z.testbit (Z.land b (2 ^ (i mod 8))) (i mod 8) = false) as F
        by (by rewrite E, Z.bits_0).
      rewrite Z.land_spec, Z.pow2_bits_true, andb_true_r in F by lia. done.
    + destruct (Z.testbit b (i mod 8)) eqn:F; [done |]. exfalso. apply E.
      apply Z.bits_inj'. intros k Hk. rewrite Z.land_spec, Z.bits_0.
      destruct (Z.eq_dec k (i mod 8)) as [-> | Hne]; [by rewrite F |].
      rewrite Z.pow2_bits_false by lia. apply andb_false_r.
Qed.

Lemma getBit_no_panic bitmap i : 0 <= i -> no_panic (getBit bitmap i).
Proof.
  intros Hi. pose proof (Z.div_pos i 8 ltac:(lia) ltac:(lia)). unfold getBit.
  destruct (Z.leb_spec (len bitmap) (i / 8)); [done |].
  apply no_panic_bind; [apply index_no_panic; lia | done].
Qed.

(** ** The shared layout *)

Lemma unmarshalSparse_marshal nn bitmap values :
  0 <= nn < 2 ^ 32 -> len bitmap < 2 ^ 32 ->
  unmarshalSparse (marshalSparse nn bitmap values) = Ok (nn, bitmap, values).
Proof.
  intros Hn Hb. len_pose. unfold marshalSparse, AppendUint32. rewrite app_nil_l, <- !app_assoc.
  rewrite !uint32_small by lia. unfold unmarshalSparse. autorewrite with len. len_pose. zcmp.
  rewrite (slice_split _ [] (le_bytes 4 nn) (le_bytes 4 (len bitmap) ++ bitmap ++ values) 0 4)
    by (done || len_lia).
  cbn [mbind result_bind]. rewrite <- (app_nil_r (le_bytes 4 nn)) at 1.
  rewrite Uint32_app by (unfold is_uint; lia). cbn [mbind result_bind].
  rewrite (slice_split _ (le_bytes 4 nn) (le_bytes 4 (len bitmap)) (bitmap ++ values) 4 8)
    by (done || len_lia).
  cbn [mbind result_bind]. rewrite <- (app_nil_r (le_bytes 4 (len bitmap))) at 1.
  rewrite Uint32_app by (unfold is_uint; lia). cbn [mbind result_bind]. zcmp.
  rewrite (slice_split _ (le_bytes 4 nn ++ le_bytes 4 (len bitmap)) bitmap values)
    by (rewrite <- ?app_assoc; done || len_lia).
  cbn [mbind result_bind].
  rewrite (slice_from_split _ (le_bytes 4 nn ++ le_bytes 4 (len bitmap) ++ bitmap) values)
    by (rewrite <- ?app_assoc; done || len_lia).
  done.
Qed.

Lemma unmarshalSparse_no_panic data : no_panic (unmarshalSparse data).
Proof.
  unfold unmarshalSparse. destruct (Z.ltb_spec (len data) 8); [done |].
  rewrite (slice_ok data 0 4), (slice_ok data 4 8) by lia. cbn [mbind result_bind].
  apply no_panic_bind; [apply le_uint_no_panic; rewrite len_take; rewrite ?len_drop; lia |].
  intros nn _.
  apply no_panic_bind; [apply le_uint_no_panic; rewrite len_take; rewrite ?len_drop; lia |].
  intros k Hk%le_uint_range. destruct (Z.ltb_spec (len data) (8 + k)); [done |].
  rewrite slice_ok, slice_from_ok by lia. done.
Qed.

(** Decoding the rows inverts the bitmap, for any value reader [read] that,
    from an offset related by [R] to the pending values, yields the first of
    them and an offset related to the rest. *)
Lemma unsparse_loop_ok {A} (present : A -> bool) (null : A) read (R : Z -> list A -> Prop)
    bitmap values i off :
  Forall (fun v => present v = false -> v = null) values ->
  (forall j o v ps, R o (v :: ps) -> exists o', read j o = Ok (v, o') /\ R o' ps) ->
  bytes_ok bitmap -> 0 <= i ->
  Z.shiftr (le_val bitmap) i = bitnum (present <$> values) ->
  R off (filter (fun v => present v = true) values) ->
  unsparse_loop bitmap read null i (length values) off = Ok values.
Proof.
  intros Hnull Hread Hok. revert i off.
  induction Hnull as [| v vs Hv Hnull IH]; intros i off Hi Hb HR; [done |].
  cbn [length unsparse_loop]. rewrite getBit_ok by done. cbn [mbind result_bind].
  rewrite fmap_cons in Hb.
  assert (Z.testbit (le_val bitmap) i = present v) as ->.
  { rewrite <- (bitnum_bit0 (present v) (present <$> vs)), <- Hb.
    rewrite Z.shiftr_spec by lia. f_equal; lia. }
  assert (Z.shiftr (le_val bitmap) (i + 1) = bitnum (present <$> vs)) as Hb'.
  { rewrite <- Z.shiftr_shiftr, Hb by lia. apply bitnum_tail. }
  rewrite filter_cons in HR. destruct (present v); case_decide; try done.
  - destruct (Hread i off v _ HR) as (o' & -> & HR'). cbn [mbind result_bind].
    by rewrite (IH (i + 1) o') by (done || lia).
  - rewrite (IH (i + 1) off) by (done || lia). cbn [mbind result_bind].
    by rewrite Hv.
Qed.

Lemma unsparse_loop_no_panic {A} (null : A) bitmap read i n off :
  0 <= i -> 0 <= off ->
  (forall j o, 0 <= o -> no_panic (read j o)) ->
  (forall j o v o', 0 <= o -> read j o = Ok (v, o') -> 0 <= o') ->
  no_panic (unsparse_loop bitmap read null i n off).
Proof.
  intros Hi Ho Hp Hm. revert i off Hi Ho.
  induction n as [| n IH]; intros i off Hi Ho; [done |]. cbn [unsparse_loop].
  apply no_panic_bind; [by apply getBit_no_panic |]. intros [] _.
  - apply no_panic_bind; [by apply Hp |]. intros [v o'] Hr.
    apply no_panic_bind; [| done]. apply IH; [lia | by eapply Hm].
  - apply no_panic_bind; [| done]. apply IH; lia.
Qed.

Lemma unsparse_loop_length {A} (null : A) bitmap read i n off vs :
  unsparse_loop bitmap read null i n off = Ok vs -> length vs = n.
Proof.
  revert i off vs. induction n as [| n IH]; intros i off vs; cbn [unsparse_loop];
    [by intros [= <-] |].
  intros ([] & _ & H)%bind_ok_inv.
  - apply bind_ok_inv in H as ([v o] & _ & H). apply bind_ok_inv in H as (r & Hr & [= <-]).
    cbn. by rewrite (IH _ _ _ Hr).
  - apply bind_ok_inv in H as (r & Hr & [= <-]). cbn. by rewrite (IH _ _ _ Hr).
Qed.

(** Folding an append over the present values. *)
Lemma foldl_present {A} (enc : A -> bytes) (step : bytes -> A -> bytes) (present : A -> bool)
    buf values :
  (forall b v, present v = true -> step b v = b ++ enc v) ->
  (forall b v, present v = false -> step b v = b) ->
  foldl step buf values = buf ++ (filter (fun v => present v = true) values ≫= enc).
Proof.
  intros H1 H0. revert buf. induction values as [| v vs IH]; intros buf.
  { cbn. by rewrite app_nil_r. }
  cbn [foldl]. rewrite IH, filter_cons. destruct (present v) eqn:E; case_decide; try done.
  - by rewrite H1, bind_cons, <- app_assoc.
  - by rewrite H0.
Qed.

(** The same bound holds for every value the encoder stores. *)
Lemma bind_len_bound {A} (enc : A -> bytes) per (l : list A) :
  Forall (fun v => len (enc v) <= per) l -> len (l ≫= enc) <= len l * per.
Proof.
  induction 1 as [| v vs Hv H IH]; [done |]. rewrite bind_cons. autorewrite with len. lia.
Qed.

Lemma filter_len {A} (P : A -> Prop) `{!forall x, Decision (P x)} (l : list A) :
  len (filter P l) <= len l.
Proof. unfold len. pose proof (length_filter P l). lia. Qed.

Lemma count_true_filter {A} (present : A -> bool) (l : list A) :
  count_true (present <$> l) = len (filter (fun v => present v = true) l).
Proof.
  induction l as [| v vs IH]; [done |].
  rewrite fmap_cons, count_true_cons, IH, filter_cons.
  destruct (present v); case_decide; try done; cbn [Z.b2z]; rewrite ?len_cons; lia.
Qed.


Section SparseLemmas.
Context {C : Zstd} {L : ZstdLaws C}.

Lemma sparse_raw {A} msg (enc : A -> bytes) per count (ps : list A) :
  0 < per -> Forall (fun v => len (enc v) <= per) ps -> len ps <= count ->
  len (ps ≫= enc) <= MaxBlockBytes ->
  (if 0 <? len ps
   then wrap msg (DecompressBounded (Compress (ps ≫= enc)) (DecodeCeiling count per))
   else Ok []) = Ok (ps ≫= enc).
Proof.
  intros Hper Hf Hc Hmax. len_pose. destruct (Z.ltb_spec 0 (len ps)).
  - pose proof (bind_len_bound enc per ps Hf).
    rewrite DecompressBounded_column by (done || nia). done.
  - assert (ps = []) as -> by (apply len_0_nil; lia). done.
Qed.

Lemma bitmap_size n : 0 <= n < 2 ^ 32 -> (n + 7) / 8 < 2 ^ 32.
Proof. intros. apply Z.div_lt_upper_bound; lia. Qed.

Lemma SparseStrings_roundtrip_lemma values f :
  Forall (framable f) values ->
  Forall (fun s => len s <= MaxColumnValueBytes) values ->
  len values < 2 ^ 32 ->
  len (filter (fun v => non_empty v = true) values ≫= frame) <= MaxBlockBytes ->
  exists data, SparseStrings values = Ok data /\
    UnsparseStrings data (len values) f = Ok values.
Proof.
  intros Hf Hc Hlen Hmax. len_pose.
  destruct (buildBitmap_ok values non_empty) as (bm & Eb & Ob & Lb & Vb).
  unfold SparseStrings, buildBitmap. rewrite Eb. cbn [mbind result_bind].
  eexists. split; [done |].
  rewrite (foldl_present frame _ non_empty).
  2:{ intros b v ->. apply AppendLenString_app. }
  2:{ by intros b v ->. }
  rewrite app_nil_l, count_true_filter.
  set (ps := filter (fun v => non_empty v = true) values) in *.
  assert (len ps <= len values) by apply filter_len. len_pose.
  pose proof (bitmap_size (len values) ltac:(lia)).
  unfold UnsparseStrings. rewrite unmarshalSparse_marshal by lia. cbn [mbind result_bind].
  rewrite sparse_raw; [ | done | | done | done].
  2:{ apply list.Forall_forall. intros v [_ Hv]%list_elem_of_filter.
      rewrite list.Forall_forall in Hc. specialize (Hc v Hv).
      pose proof (AppendLenString_len_bound v). unfold frame, MaxLenFramingBytes. lia. }
  cbn [mbind result_bind]. rewrite check_make_ok by done. cbn [mbind result_bind].
  rewrite to_nat_len.
  apply (unsparse_loop_ok non_empty [] _
    (fun o qs => exists pre, ps ≫= frame = pre ++ (qs ≫= frame) /\ o = len pre /\
                 Forall (framable f) qs)); try done.
  - apply list.Forall_forall. intros v _. unfold non_empty. case_bool_decide; done.
  - intros j o v qs (pre & Hp & -> & Hq). inversion Hq as [| ? ? [Hv1 Hv2] Hq']; subst.
    rewrite bind_cons in Hp.
    rewrite (ReadString_split f _ pre v (qs ≫= frame)) by done. cbn [wrap].
    eexists. split; [done |]. exists (pre ++ frame v).
    split; [by rewrite Hp, app_assoc | split; [unfold frame; len_lia | done]].
  - exists []. split_and!; try done. by apply Forall_filtered.
Qed.

Lemma SparseInt64_roundtrip_lemma values :
  Forall (fun v => match v with Some z => is_int64 z | None => True end) values ->
  len values < 2 ^ 32 -> len values * 10 <= MaxBlockBytes ->
  exists data, SparseInt64 values = Ok data /\ UnsparseInt64 data (len values) = Ok values.
Proof.
  intros Hf Hlen Hmax. len_pose.
  destruct (buildBitmap_ok values not_nil) as (bm & Eb & Ob & Lb & Vb).
  unfold SparseInt64, buildBitmapPtr. rewrite Eb. cbn [mbind result_bind].
  eexists. split; [done |].
  set (enc := fun v : option Z => match v with Some z => binary_PutVarint z | None => [] end).
  rewrite (foldl_present enc _ not_nil).
  2:{ by intros b [z |]. }
  2:{ by intros b [z |]. }
  rewrite app_nil_l, count_true_filter.
  set (ps := filter (fun v => not_nil v = true) values) in *.
  assert (len ps <= len values) by apply filter_len. len_pose.
  pose proof (bitmap_size (len values) ltac:(lia)).
  assert (Forall (fun v => len (enc v) <= MaxVarintBytes) ps) as Henc.
  { apply list.Forall_forall. intros [z |] _; unfold enc, MaxVarintBytes;
      [apply PutVarint_len | by rewrite len_nil]. }
  pose proof (bind_len_bound _ _ _ Henc). unfold MaxVarintBytes in *.
  unfold UnsparseInt64. rewrite unmarshalSparse_marshal by lia. cbn [mbind result_bind].
  rewrite sparse_raw by (done || lia).
  cbn [mbind result_bind]. rewrite check_make_ok by done. cbn [mbind result_bind].
  rewrite to_nat_len.
  apply (unsparse_loop_ok not_nil None _
    (fun o qs => exists pre, ps ≫= enc = pre ++ (qs ≫= enc) /\ o = len pre /\
       Forall (fun v => match v with Some z => is_int64 z | None => False end) qs)); try done.
  - apply list.Forall_forall. by intros [z |] _.
  - intros j o v qs (pre & Hp & -> & Hq). inversion Hq as [| ? ? Hv Hq']; subst.
    destruct v as [z |]; [| done]. rewrite bind_cons in Hp. cbn [enc] in Hp.
    pose proof (PutVarint_len z). rewrite Hp. autorewrite with len. len_pose. zcmp.
    rewrite (slice_from_split _ pre (binary_PutVarint z ++ (qs ≫= enc))) by done.
    cbn [mbind result_bind]. rewrite Varint_put by done. zcmp.
    eexists. split; [done |]. exists (pre ++ binary_PutVarint z).
    split; [by rewrite <- ?app_assoc | split; [len_lia | done]].
  - exists []. split_and!; try done. apply list.Forall_forall.
    intros v [Hv1 Hv2]%list_elem_of_filter. rewrite list.Forall_forall in Hf.
    specialize (Hf v Hv2). by destruct v.
Qed.

(** The value bitmap of a boolean column is the bitmap of its non-null values. *)
Lemma value_bits_loop_bitmap values idx bitmap nn :
  value_bits_loop values idx bitmap =
    fst <$> bitmap_loop (fun b => b) (omap (fun v => v) values) idx bitmap nn.
Proof.
  revert idx bitmap nn. induction values as [| [b |] vs IH]; intros idx bitmap nn; [done | |].
  - cbn [value_bits_loop omap list_omap bitmap_loop]. destruct b.
    + destruct (or_at _ _ _) as [bm | |]; [| done | done].
      apply (IH (idx + 1) bm (nn + 1)).
    + apply (IH (idx + 1) bitmap nn).
  - apply IH.
Qed.

Lemma omap_filter_len {A} (values : list (option A)) :
  len (omap (fun v => v) values) = len (filter (fun v => not_nil v = true) values).
Proof.
  induction values as [| [a |] vs IH]; [done | |]; rewrite filter_cons; case_decide; try done.
  cbn [omap list_omap]. rewrite !len_cons. lia.
Qed.

Lemma SparseBool_roundtrip_lemma values :
  len values < 2 ^ 32 ->
  exists data, SparseBool values = Ok data /\ UnsparseBool data (len values) = Ok values.
Proof.
  intros Hlen. len_pose.
  destruct (buildBitmap_ok values not_nil) as (bm & Eb & Ob & Lb & Vb).
  unfold SparseBool, buildBitmapPtrBool. rewrite Eb. cbn [mbind result_bind].
  rewrite count_true_filter, <- omap_filter_len.
  set (bs := omap (fun v => v) values).
  destruct (buildBitmap_ok bs (fun b => b)) as (vm & Ev & Ov & Lv & Vv).
  rewrite (value_bits_loop_bitmap values 0 _ 0). fold bs. rewrite Ev.
  cbn [fmap result_fmap mbind result_bind fst].
  eexists. split; [done |].
  assert (len bs <= len values) by (subst bs; rewrite omap_filter_len; apply filter_len).
  len_pose. pose proof (bitmap_size (len values) ltac:(lia)).
  unfold UnsparseBool. rewrite unmarshalSparse_marshal by lia. cbn [mbind result_bind].
  rewrite check_make_ok by done. cbn [mbind result_bind].
  rewrite to_nat_len.
  apply (unsparse_loop_ok not_nil None _
    (fun o qs => 0 <= o /\ Forall (fun v => not_nil v = true) qs /\
       Z.shiftr (le_val vm) o = bitnum (omap (fun v => v) qs))); try done.
  - apply list.Forall_forall. by intros [b |] _.
  - intros j o v qs (Ho & Hq & Hn). inversion Hq as [| ? ? Hv Hq']; subst.
    destruct v as [b |]; [| done]. cbn [omap list_omap] in Hn.
    rewrite getBit_ok by done. cbn [mbind result_bind]. exists (o + 1). split_and!; try done.
    + do 3 f_equal. rewrite <- (bitnum_bit0 b (omap (fun v => v) qs)), <- Hn.
      rewrite Z.shiftr_spec by lia. f_equal; lia.
    + lia.
    + rewrite <- Z.shiftr_shiftr, Hn by lia. apply bitnum_tail.
  - split_and!; [done | |].
    + apply list.Forall_forall. by intros v [Hv _]%list_elem_of_filter.
    + rewrite Z.shiftr_0_r, Vv. change ((fun b => b) <$> bs) with (id <$> bs).
      rewrite list_fmap_id. subst bs. f_equal.
      clear. induction values as [| [b |] vs IH]; [done | |]; rewrite filter_cons;
        case_decide; try done. cbn [omap list_omap]. by f_equal.
Qed.

Definition blob_frame (v : option bytes) : bytes :=
  match v with Some b => le_bytes 4 (len b) ++ b | None => [] end.

Lemma value_small (b : bytes) : len b <= MaxColumnValueBytes -> 0 <= len b < 2 ^ 32.
Proof.
  unfold MaxColumnValueBytes. change (Z.shiftl 1 20) with (2 ^ 20). intros. len_pose. lia.
Qed.

Lemma blob_foldl values buf :
  Forall (fun v => match v with Some b => len b <= MaxColumnValueBytes | None => True end) values ->
  foldl (fun (buf : bytes) (v : option bytes) =>
      match v with Some v => AppendUint32 buf (uint32 (len v)) ++ v | None => buf end)
    buf values = buf ++ (filter (fun v => not_nil v = true) values ≫= blob_frame).
Proof.
  intros Hf. revert buf. induction Hf as [| v vs Hv Hf IH]; intros buf; [by rewrite app_nil_r |].
  cbn [foldl]. rewrite IH, filter_cons. destruct v as [b |]; case_decide; try done.
  rewrite bind_cons. cbn [blob_frame]. unfold AppendUint32.
  rewrite uint32_small by (by apply value_small). by rewrite <- !app_assoc.
Qed.

Lemma SparseBytes_roundtrip_lemma values :
  Forall (fun v => match v with Some b => len b <= MaxColumnValueBytes | None => True end) values ->
  len values < 2 ^ 32 ->
  len (filter (fun v => not_nil v = true) values ≫= blob_frame) <= MaxBlockBytes ->
  exists data, SparseBytes values = Ok data /\ UnsparseBytes data (len values) = Ok values.
Proof.
  intros Hf Hlen Hmax. len_pose.
  destruct (buildBitmap_ok values not_nil) as (bm & Eb & Ob & Lb & Vb).
  unfold SparseBytes, buildBitmapBytes. rewrite Eb. cbn [mbind result_bind].
  eexists. split; [done |].
  rewrite blob_foldl, app_nil_l by done.
  rewrite count_true_filter.
  set (ps := filter (fun v => not_nil v = true) values) in *.
  assert (len ps <= len values) by apply filter_len. len_pose.
  pose proof (bitmap_size (len values) ltac:(lia)).
  unfold UnsparseBytes. rewrite unmarshalSparse_marshal by lia. cbn [mbind result_bind].
  rewrite sparse_raw; [ | done | | done | done].
  2:{ apply Forall_filtered. eapply list.Forall_impl; [exact Hf |]. intros [b |] Hb; cbn.
      - unfold MaxLenFramingBytes. len_lia.
      - by rewrite len_nil. }
  cbn [mbind result_bind]. rewrite check_make_ok by done. cbn [mbind result_bind].
  rewrite to_nat_len.
  apply (unsparse_loop_ok not_nil None _
    (fun o qs => exists pre, ps ≫= blob_frame = pre ++ (qs ≫= blob_frame) /\ o = len pre /\
       Forall (fun v => match v with Some b => len b <= MaxColumnValueBytes | None => False end)
         qs)); try done.
  - apply list.Forall_forall. by intros [z |] _.
  - intros j o v qs (pre & Hp & -> & Hq). inversion Hq as [| ? ? Hv Hq']; subst.
    destruct v as [b |]; [| done]. rewrite bind_cons in Hp. cbn [blob_frame] in Hp.
    rewrite <- app_assoc in Hp. pose proof (value_small b Hv) as Hsmall.
    rewrite Hp. autorewrite with len. len_pose. zcmp.
    rewrite (slice_from_split _ pre (le_bytes 4 (len b) ++ b ++ (qs ≫= blob_frame))) by done.
    cbn [mbind result_bind]. rewrite Uint32_app by (unfold is_uint; lia).
    cbn [mbind result_bind]. zcmp.
    rewrite (slice_split _ (pre ++ le_bytes 4 (len b)) b (qs ≫= blob_frame))
      by (rewrite <- ?app_assoc; done || len_lia).
    cbn [mbind result_bind]. eexists. split; [done |].
    exists (pre ++ le_bytes 4 (len b) ++ b).
    split; [by rewrite <- ?app_assoc | split; [len_lia | done]].
  - exists []. split_and!; try done. apply list.Forall_forall.
    intros v [Hv1 Hv2]%list_elem_of_filter. rewrite list.Forall_forall in Hf.
    specialize (Hf v Hv2). by destruct v.
Qed.

(** ** Arbitrary bytes never panic a decoder *)

Lemma sparse_raw_no_panic msg (b : bool) src max :
  no_panic (if b then wrap msg (DecompressBounded src max) else Ok []).
Proof. destruct b; [| done]. apply no_panic_wrap, DecompressBounded_no_panic. Qed.

Lemma UnsparseStrings_no_panic data count f :
  0 <= count -> no_panic (UnsparseStrings data count f).
Proof.
  intros Hc. unfold UnsparseStrings. apply no_panic_bind; [apply unmarshalSparse_no_panic |].
  intros [[nn bm] cv] _. apply no_panic_bind; [apply sparse_raw_no_panic |]. intros raw _.
  rewrite check_make_ok by done. apply unsparse_loop_no_panic; [done | done | |].
  - intros j o Ho. by apply no_panic_wrap, ReadString_no_panic.
  - intros j o v o' Ho H%wrap_ok_inv%ReadString_bounds; lia.
Qed.

Lemma UnsparseInt64_no_panic data count : 0 <= count -> no_panic (UnsparseInt64 data count).
Proof.
  intros Hc. unfold UnsparseInt64. apply no_panic_bind; [apply unmarshalSparse_no_panic |].
  intros [[nn bm] cv] _. apply no_panic_bind; [apply sparse_raw_no_panic |]. intros raw _.
  rewrite check_make_ok by done. apply unsparse_loop_no_panic; [done | done | |].
  - intros j o Ho. destruct (Z.leb_spec (len raw) o); [done |].
    rewrite slice_from_ok by lia. cbn [mbind result_bind].
    destruct (Varint _) as [v n]. by destruct (n <=? 0).
  - intros j o v o' Ho. destruct (Z.leb_spec (len raw) o); [done |].
    rewrite slice_from_ok by lia. cbn [mbind result_bind].
    destruct (Varint _) as [z n]. destruct (Z.leb_spec n 0); [done |]. intros [= _ <-]. lia.
Qed.

Lemma UnsparseBool_no_panic data count : 0 <= count -> no_panic (UnsparseBool data count).
Proof.
  intros Hc. unfold UnsparseBool. apply no_panic_bind; [apply unmarshalSparse_no_panic |].
  intros [[nn bm] cv] _. rewrite check_make_ok by done.
  apply unsparse_loop_no_panic; [done | done | |].
  - intros j o Ho. apply no_panic_bind; [by apply getBit_no_panic | done].
  - intros j o v o' Ho (b & _ & [= _ <-])%bind_ok_inv. lia.
Qed.

Lemma UnsparseBytes_no_panic data count : 0 <= count -> no_panic (UnsparseBytes data count).
Proof.
  intros Hc. unfold UnsparseBytes. apply no_panic_bind; [apply unmarshalSparse_no_panic |].
  intros [[nn bm] cv] _. apply no_panic_bind; [apply sparse_raw_no_panic |]. intros raw _.
  rewrite check_make_ok by done. apply unsparse_loop_no_panic; [done | done | |].
  - intros j o Ho. destruct (Z.ltb_spec (len raw) (o + 4)); [done |].
    rewrite slice_from_ok by lia. cbn [mbind result_bind].
    apply no_panic_bind; [apply le_uint_no_panic; rewrite len_drop; lia |].
    intros k Hk%le_uint_range. destruct (Z.ltb_spec (len raw) (o + 4 + k)); [done |].
    by rewrite slice_ok by lia.
  - intros j o v o' Ho. destruct (Z.ltb_spec (len raw) (o + 4)); [done |].
    rewrite slice_from_ok by lia. cbn [mbind result_bind].
    intros (k & Hk%le_uint_range & H')%bind_ok_inv.
    destruct (Z.ltb_spec (len raw) (o + 4 + k)); [done |].
    apply bind_ok_inv in H' as (? & _ & [= _ <-]). lia.
Qed.

End SparseLemmas.

#[export] Hint Resolve UnsparseStrings_no_panic UnsparseInt64_no_panic UnsparseBool_no_panic
  UnsparseBytes_no_panic : go.

(** ** Properties *)

Section SparseProperties.
Context {C : Zstd} {L : ZstdLaws C}.

(** A sparse string column is read back exactly, empty strings as nulls. *)
Theorem sparse_strings_roundtrip (values : list bytes) (f : LenFormat) :
  Forall (framable f) values -> Forall (fun s => len s <= MaxColumnValueBytes) values ->
  len values < 2 ^ 32 ->
  len (filter (fun v => non_empty v = true) values ≫= frame) <= MaxBlockBytes ->
  exists data, SparseStrings values = Ok data /\
    UnsparseStrings data (len values) f = Ok values.
Proof. apply SparseStrings_roundtrip_lemma. Qed.

(** A nullable integer column and a nullable boolean column are read back
    exactly. *)
Theorem sparse_scalars_roundtrip (ints : list (option Z)) (bools : list (option bool)) :
  Forall (fun v => match v with Some z => is_int64 z | None => True end) ints ->
  len ints < 2 ^ 32 -> len ints * 10 <= MaxBlockBytes -> len bools < 2 ^ 32 ->
  (exists data, SparseInt64 ints = Ok data /\ UnsparseInt64 data (len ints) = Ok ints) /\
  (exists data, SparseBool bools = Ok data /\ UnsparseBool data (len bools) = Ok bools).
Proof.
  intros. split; [by apply SparseInt64_roundtrip_lemma | by apply SparseBool_roundtrip_lemma].
Qed.

(** A nullable blob column whose values stay within the per-value ceiling is
    read back exactly, empty blobs distinct from nulls. *)
Theorem sparse_bytes_roundtrip (values : list (option bytes)) :
  Forall (fun v => match v with Some b => len b <= MaxColumnValueBytes | None => True end) values ->
  len values < 2 ^ 32 ->
  len (filter (fun v => not_nil v = true) values ≫= blob_frame) <= MaxBlockBytes ->
  exists data, SparseBytes values = Ok data /\ UnsparseBytes data (len values) = Ok values.
Proof. apply SparseBytes_roundtrip_lemma. Qed.

(** A blob column of one row whose value exceeds 2 MiB (plus framing) is
    encoded without an error and can never be read back: the ceiling is derived
    from the per-value maximum of 1 MiB, which nothing enforces on bodies. *)
Theorem oversized_body_unreadable (b : bytes) :
  2 ^ 21 + 16 < len b < 2 ^ 32 ->
  exists data, SparseBytes [Some b] = Ok data /\ UnsparseBytes data 1 <> Ok [Some b].
Proof.
  intros Hb. unfold SparseBytes, buildBitmapBytes.
  destruct (buildBitmap_ok [Some b] not_nil) as (bm & Eb & _ & Lb & _).
  rewrite Eb. cbn [mbind result_bind]. eexists. split; [done |]. unfold UnsparseBytes.
  change (count_true (not_nil <$> [Some b])) with 1.
  rewrite unmarshalSparse_marshal by (rewrite ?Lb; done). cbn [mbind result_bind].
  destruct (DecompressBounded _ _) as [raw | |] eqn:Er; [| done | done].
  apply DecompressBounded_bounded in Er; [| apply DecodeCeiling_range].
  change (Z.max decoderBucketMin (2 * DecodeCeiling 1 (MaxColumnValueBytes + MaxLenFramingBytes)))
    with (2 ^ 21 + 16) in Er.
  cbn [Z.ltb Z.compare wrap mbind result_bind check_make Z.to_nat Pos.to_nat Pos.iter_op unsparse_loop].
  intros (bit & _ & H)%bind_ok_inv. destruct bit.
  - apply bind_ok_inv in H as ([v o] & Hv & H). apply bind_ok_inv in H as (r & _ & [= -> _]).
    destruct (Z.ltb_spec (len raw) (0 + 4)); [done |].
    apply bind_ok_inv in Hv as (d & _ & Hv). apply bind_ok_inv in Hv as (k & _ & Hv).
    destruct (Z.ltb_spec (len raw) (0 + 4 + k)); [done |].
    apply bind_ok_inv in Hv as (val & Hval & [= -> _]).
    unfold slice in Hval. destruct (_ && _); [| done]. injection Hval as Hval.
    apply (f_equal len) in Hval. unfold len in *. rewrite length_take, length_drop in Hval. lia.
  - by apply bind_ok_inv in H as (r & _ & [=]).
Qed.

End SparseProperties.

Lemma sparse_strings_roundtrip_witness :
  exists data, SparseStrings (C := stored_codec) [str "a"; []; str "bc"] = Ok data /\
    UnsparseStrings (C := stored_codec) data 3 LenExtended = Ok [str "a"; []; str "bc"].
Proof.
  apply (sparse_strings_roundtrip (C := stored_codec) [str "a"; []; str "bc"] LenExtended);
    [repeat constructor; done | repeat constructor; done | done | done].
Defined.

Lemma sparse_scalars_roundtrip_witness :
  (exists data, SparseInt64 (C := stored_codec) [Some 5; None; Some (-7)] = Ok data /\
     UnsparseInt64 (C := stored_codec) data 3 = Ok [Some 5; None; Some (-7)]) /\
  (exists data, SparseBool [Some true; None; Some false] = Ok data /\
     UnsparseBool data 3 = Ok [Some true; None; Some false]).
Proof.
  apply (sparse_scalars_roundtrip (C := stored_codec) [Some 5; None; Some (-7)]
    [Some true; None; Some false]); [repeat constructor; done | done | done | done].
Defined.

Lemma sparse_bytes_roundtrip_witness :
  exists data, SparseBytes (C := stored_codec) [Some [1; 2]; None; Some []] = Ok data /\
    UnsparseBytes (C := stored_codec) data 3 = Ok [Some [1; 2]; None; Some []].
Proof.
  apply (sparse_bytes_roundtrip (C := stored_codec) [Some [1; 2]; None; Some []]);
    [repeat constructor; done | done | done].
Defined.

Lemma oversized_body_unreadable_witness :
  exists data, SparseBytes (C := stored_codec) [Some (make 0 3000000)] = Ok data /\
    UnsparseBytes (C := stored_codec) data 1 <> Ok [Some (make 0 3000000)].
Proof.
  apply (oversized_body_unreadable (C := stored_codec) (make 0 3000000)).
  rewrite len_make by lia. lia.
Defined.
