(* ===== verification/Schema.v ===== *)
(** * The chunk schema and the log entry (internal/logstore/chunk/schema.go)

    The column types, the ordered column list and the [Entry] struct every
    component of the log store passes around. *)

From stdpp Require Import base list gmap strings.
From Stdlib Require Import ZArith Lia.
From S2P Require Import Prelude.

(** ** Column types *)

Inductive ColumnType :=
| ColDeltaVarint
| ColZstdInt64
| ColDictBitpack
| ColDictZstd
| ColZstdBlock
| ColSparseString
| ColSparseInt64
| ColSparseBool
| ColSparseBytes
| ColSparseDictZstd.

#[export] Instance ColumnType_eq_dec : EqDecision ColumnType.
Proof. solve_decision. Defined.

(** The constant's numeric value. *)
Definition ColumnType_code (t : ColumnType) : Z :=
  match t with
  | ColDeltaVarint => 1
  | ColZstdInt64 => 2
  | ColDictBitpack => 3
  | ColDictZstd => 4
  | ColZstdBlock => 5
  | ColSparseString => 6
  | ColSparseInt64 => 7
  | ColSparseBool => 8
  | ColSparseBytes => 9
  | ColSparseDictZstd => 10
  end.

Record ColumnDef := mkColumn { Name : string; Type_ : ColumnType }.

Definition Schema : list ColumnDef := [
  mkColumn "id" ColDeltaVarint;
  mkColumn "ts" ColZstdInt64;
  mkColumn "received_at" ColDeltaVarint;
  mkColumn "level" ColDictBitpack;
  mkColumn "service" ColDictZstd;
  mkColumn "message" ColZstdBlock;
  mkColumn "env" ColDictZstd;
  mkColumn "version" ColSparseDictZstd;
  mkColumn "host" ColSparseDictZstd;
  mkColumn "kind" ColDictZstd;
  mkColumn "event_type" ColSparseDictZstd;
  mkColumn "trace_id" ColSparseString;
  mkColumn "span_id" ColSparseString;
  mkColumn "parent_span_id" ColSparseString;
  mkColumn "request_id" ColSparseString;
  mkColumn "user_id" ColSparseString;
  mkColumn "tenant_id" ColSparseDictZstd;
  mkColumn "session_id" ColSparseString;
  mkColumn "method" ColSparseDictZstd;
  mkColumn "path" ColSparseString;
  mkColumn "route" ColSparseDictZstd;
  mkColumn "handler" ColSparseDictZstd;
  mkColumn "status" ColSparseDictZstd;
  mkColumn "duration_ms" ColSparseInt64;
  mkColumn "db_ms" ColSparseInt64;
  mkColumn "db_count" ColSparseInt64;
  mkColumn "cache_ms" ColSparseInt64;
  mkColumn "cache_hits" ColSparseInt64;
  mkColumn "cache_misses" ColSparseInt64;
  mkColumn "ext_ms" ColSparseInt64;
  mkColumn "ext_count" ColSparseInt64;
  mkColumn "render_ms" ColSparseInt64;
  mkColumn "alloc_count" ColSparseInt64;
  mkColumn "mem_delta_mb" ColSparseInt64;
  mkColumn "n_plus_one" ColSparseBool;
  mkColumn "slow_queries" ColSparseInt64;
  mkColumn "dup_queries" ColSparseInt64;
  mkColumn "error_class" ColSparseDictZstd;
  mkColumn "error_message" ColSparseString;
  mkColumn "source_file" ColSparseString;
  mkColumn "source_line" ColSparseInt64;
  mkColumn "error_fingerprint" ColSparseString;
  mkColumn "job_class" ColSparseDictZstd;
  mkColumn "job_queue" ColSparseDictZstd;
  mkColumn "job_id" ColSparseString;
  mkColumn "queue_ms" ColSparseInt64;
  mkColumn "body" ColSparseBytes
].

(** [init]: later columns of a name would overwrite earlier ones. *)
Fixpoint index_columns (i : Z) (cols : list ColumnDef) (m : gmap string Z) : gmap string Z :=
  match cols with
  | [] => m
  | col :: cols => index_columns (i + 1) cols (<[Name col := i]> m)
  end.

Definition ColumnIndex : gmap string Z := index_columns 0 Schema ∅.

(** ** Entries

    [int], [int64] fields are integers, strings and the raw JSON body byte
    lists (a nil and an empty body are the same slice value), [*bool] an
    option. *)

Record Entry := mkEntry {
  ID : Z;
  Ts : Z;
  ReceivedAt : Z;
  Level : bytes;
  Service : bytes;
  Message : bytes;
  Env : bytes;
  Version : bytes;
  Host : bytes;
  Kind : bytes;
  EventType : bytes;
  TraceID : bytes;
  SpanID : bytes;
  ParentSpanID : bytes;
  RequestID : bytes;
  UserID : bytes;
  TenantID : bytes;
  SessionID : bytes;
  Method : bytes;
  Path : bytes;
  Route : bytes;
  Handler : bytes;
  Status : Z;
  DurationMs : Z;
  DbMs : Z;
  DbCount : Z;
  CacheMs : Z;
  CacheHits : Z;
  CacheMisses : Z;
  ExtMs : Z;
  ExtCount : Z;
  RenderMs : Z;
  AllocCount : Z;
  MemDeltaMb : Z;
  NPlusOne : option bool;
  SlowQueries : Z;
  DupQueries : Z;
  ErrorClass : bytes;
  ErrorMessage : bytes;
  SourceFile : bytes;
  SourceLine : Z;
  ErrorFingerprint : bytes;
  JobClass : bytes;
  JobQueue : bytes;
  JobID : bytes;
  QueueMs : Z;
  Body : bytes
}.

(** [chunk.Entry{}] *)
Definition Entry0 : Entry := {|
  ID := 0;
  Ts := 0;
  ReceivedAt := 0;
  Level := [];
  Service := [];
  Message := [];
  Env := [];
  Version := [];
  Host := [];
  Kind := [];
  EventType := [];
  TraceID := [];
  SpanID := [];
  ParentSpanID := [];
  RequestID := [];
  UserID := [];
  TenantID := [];
  SessionID := [];
  Method := [];
  Path := [];
  Route := [];
  Handler := [];
  Status := 0;
  DurationMs := 0;
  DbMs := 0;
  DbCount := 0;
  CacheMs := 0;
  CacheHits := 0;
  CacheMisses := 0;
  ExtMs := 0;
  ExtCount := 0;
  RenderMs := 0;
  AllocCount := 0;
  MemDeltaMb := 0;
  NPlusOne := None;
  SlowQueries := 0;
  DupQueries := 0;
  ErrorClass := [];
  ErrorMessage := [];
  SourceFile := [];
  SourceLine := 0;
  ErrorFingerprint := [];
  JobClass := [];
  JobQueue := [];
  JobID := [];
  QueueMs := 0;
  Body := []
|}.

(** ** Field assignment

    [set F v e] is [e.F = v]. *)

Class Setter {R T : Type} (proj : R -> T) := set : T -> R -> R.
#[global] Hint Mode Setter - - ! : typeclass_instances.
Arguments set {R T} proj {_} v r : simpl never.

Definition entry_eta (e : Entry) : Entry := mkEntry (ID e) (Ts e) (ReceivedAt e) (Level e) (Service e) (Message e) (Env e) (Version e) (Host e) (Kind e) (EventType e) (TraceID e) (SpanID e) (ParentSpanID e) (RequestID e) (UserID e) (TenantID e) (SessionID e) (Method e) (Path e) (Route e) (Handler e) (Status e) (DurationMs e) (DbMs e) (DbCount e) (CacheMs e) (CacheHits e) (CacheMisses e) (ExtMs e) (ExtCount e) (RenderMs e) (AllocCount e) (MemDeltaMb e) (NPlusOne e) (SlowQueries e) (DupQueries e) (ErrorClass e) (ErrorMessage e) (SourceFile e) (SourceLine e) (ErrorFingerprint e) (JobClass e) (JobQueue e) (JobID e) (QueueMs e) (Body e).

Ltac entry_setter proj :=
  let v := fresh "v" in
  let e := fresh "e" in
  intros v e;
  let t := eval cbv beta delta [entry_eta] in (entry_eta e) in
  match t with
  | context C [proj e] => let r := context C [v] in exact r
  end.

#[export] Instance set_ID : Setter ID := ltac:(entry_setter ID).
#[export] Instance set_Ts : Setter Ts := ltac:(entry_setter Ts).
#[export] Instance set_ReceivedAt : Setter ReceivedAt := ltac:(entry_setter ReceivedAt).
#[export] Instance set_Level : Setter Level := ltac:(entry_setter Level).
#[export] Instance set_Service : Setter Service := ltac:(entry_setter Service).
#[export] Instance set_Message : Setter Message := ltac:(entry_setter Message).
#[export] Instance set_Env : Setter Env := ltac:(entry_setter Env).
#[export] Instance set_Version : Setter Version := ltac:(entry_setter Version).
#[export] Instance set_Host : Setter Host := ltac:(entry_setter Host).
#[export] Instance set_Kind : Setter Kind := ltac:(entry_setter Kind).
#[export] Instance set_EventType : Setter EventType := ltac:(entry_setter EventType).
#[export] Instance set_TraceID : Setter TraceID := ltac:(entry_setter TraceID).
#[export] Instance set_SpanID : Setter SpanID := ltac:(entry_setter SpanID).
#[export] Instance set_ParentSpanID : Setter ParentSpanID := ltac:(entry_setter ParentSpanID).
#[export] Instance set_RequestID : Setter RequestID := ltac:(entry_setter RequestID).
#[export] Instance set_UserID : Setter UserID := ltac:(entry_setter UserID).
#[export] Instance set_TenantID : Setter TenantID := ltac:(entry_setter TenantID).
#[export] Instance set_SessionID : Setter SessionID := ltac:(entry_setter SessionID).
#[export] Instance set_Method : Setter Method := ltac:(entry_setter Method).
#[export] Instance set_Path : Setter Path := ltac:(entry_setter Path).
#[export] Instance set_Route : Setter Route := ltac:(entry_setter Route).
#[export] Instance set_Handler : Setter Handler := ltac:(entry_setter Handler).
#[export] Instance set_Status : Setter Status := ltac:(entry_setter Status).
#[export] Instance set_DurationMs : Setter DurationMs := ltac:(entry_setter DurationMs).
#[export] Instance set_DbMs : Setter DbMs := ltac:(entry_setter DbMs).
#[export] Instance set_DbCount : Setter DbCount := ltac:(entry_setter DbCount).
#[export] Instance set_CacheMs : Setter CacheMs := ltac:(entry_setter CacheMs).
#[export] Instance set_CacheHits : Setter CacheHits := ltac:(entry_setter CacheHits).
#[export] Instance set_CacheMisses : Setter CacheMisses := ltac:(entry_setter CacheMisses).
#[export] Instance set_ExtMs : Setter ExtMs := ltac:(entry_setter ExtMs).
#[export] Instance set_ExtCount : Setter ExtCount := ltac:(entry_setter ExtCount).
#[export] Instance set_RenderMs : Setter RenderMs := ltac:(entry_setter RenderMs).
#[export] Instance set_AllocCount : Setter AllocCount := ltac:(entry_setter AllocCount).
#[export] Instance set_MemDeltaMb : Setter MemDeltaMb := ltac:(entry_setter MemDeltaMb).
#[export] Instance set_NPlusOne : Setter NPlusOne := ltac:(entry_setter NPlusOne).
#[export] Instance set_SlowQueries : Setter SlowQueries := ltac:(entry_setter SlowQueries).
#[export] Instance set_DupQueries : Setter DupQueries := ltac:(entry_setter DupQueries).
#[export] Instance set_ErrorClass : Setter ErrorClass := ltac:(entry_setter ErrorClass).
#[export] Instance set_ErrorMessage : Setter ErrorMessage := ltac:(entry_setter ErrorMessage).
#[export] Instance set_SourceFile : Setter SourceFile := ltac:(entry_setter SourceFile).
#[export] Instance set_SourceLine : Setter SourceLine := ltac:(entry_setter SourceLine).
#[export] Instance set_ErrorFingerprint : Setter ErrorFingerprint := ltac:(entry_setter ErrorFingerprint).
#[export] Instance set_JobClass : Setter JobClass := ltac:(entry_setter JobClass).
#[export] Instance set_JobQueue : Setter JobQueue := ltac:(entry_setter JobQueue).
#[export] Instance set_JobID : Setter JobID := ltac:(entry_setter JobID).
#[export] Instance set_QueueMs : Setter QueueMs := ltac:(entry_setter QueueMs).
#[export] Instance set_Body : Setter Body := ltac:(entry_setter Body).
