(* ===== verification/Wal.v ===== *)
(** * The write-ahead log record codec (internal/logstore/wal)

    binary.go: one entry is a length-prefixed record whose optional fields are
    announced by a 64-bit flags word.  scanner.go: replaying a file of records.
    The three field lists of the source (which flags are set, what is written,
    what is read back) are translated separately, in source order; that they
    agree is a theorem. *)

From stdpp Require Import base list gmap strings numbers sorting.
From Stdlib Require Import ZArith Lia.
From S2P Require Import Prelude Framing Zstd Schema.

(** ** Flags and limits *)

Definition FlagEnv : Z := Z.shiftl 1 0.
Definition FlagVersion : Z := Z.shiftl 1 1.
Definition FlagHost : Z := Z.shiftl 1 2.
Definition FlagKind : Z := Z.shiftl 1 3.
Definition FlagEventType : Z := Z.shiftl 1 4.
Definition FlagTraceID : Z := Z.shiftl 1 5.
Definition FlagSpanID : Z := Z.shiftl 1 6.
Definition FlagParentSpanID : Z := Z.shiftl 1 7.
Definition FlagRequestID : Z := Z.shiftl 1 8.
Definition FlagUserID : Z := Z.shiftl 1 9.
Definition FlagTenantID : Z := Z.shiftl 1 10.
Definition FlagSessionID : Z := Z.shiftl 1 11.
Definition FlagMethod : Z := Z.shiftl 1 12.
Definition FlagPath : Z := Z.shiftl 1 13.
Definition FlagRoute : Z := Z.shiftl 1 14.
Definition FlagHandler : Z := Z.shiftl 1 15.
Definition FlagStatus : Z := Z.shiftl 1 16.
Definition FlagDurationMs : Z := Z.shiftl 1 17.
Definition FlagDbMs : Z := Z.shiftl 1 18.
Definition FlagDbCount : Z := Z.shiftl 1 19.
Definition FlagCacheMs : Z := Z.shiftl 1 20.
Definition FlagCacheHits : Z := Z.shiftl 1 21.
Definition FlagCacheMisses : Z := Z.shiftl 1 22.
Definition FlagExtMs : Z := Z.shiftl 1 23.
Definition FlagExtCount : Z := Z.shiftl 1 24.
Definition FlagRenderMs : Z := Z.shiftl 1 25.
Definition FlagAllocCount : Z := Z.shiftl 1 26.
Definition FlagMemDeltaMb : Z := Z.shiftl 1 27.
Definition FlagNPlusOne : Z := Z.shiftl 1 28.
Definition FlagSlowQueries : Z := Z.shiftl 1 29.
Definition FlagDupQueries : Z := Z.shiftl 1 30.
Definition FlagErrorClass : Z := Z.shiftl 1 31.
Definition FlagErrorMessage : Z := Z.shiftl 1 32.
Definition FlagSourceFile : Z := Z.shiftl 1 33.
Definition FlagSourceLine : Z := Z.shiftl 1 34.
Definition FlagErrFingerprint : Z := Z.shiftl 1 35.
Definition FlagJobClass : Z := Z.shiftl 1 36.
Definition FlagJobQueue : Z := Z.shiftl 1 37.
Definition FlagJobID : Z := Z.shiftl 1 38.
Definition FlagQueueMs : Z := Z.shiftl 1 39.
Definition FlagBody : Z := Z.shiftl 1 40.
Definition FlagExtendedStrings : Z := Z.shiftl 1 63.
Definition FlagRawBody : Z := Z.shiftl 1 62.

Definition levelToEnum (level : bytes) : option Z :=
  if bool_decide (level = str "trace") then Some 0
  else if bool_decide (level = str "debug") then Some 1
  else if bool_decide (level = str "info") then Some 2
  else if bool_decide (level = str "warn") then Some 3
  else if bool_decide (level = str "warning") then Some 3
  else if bool_decide (level = str "error") then Some 4
  else if bool_decide (level = str "fatal") then Some 5
  else None.

Definition enumToLevel : list bytes :=
  [str "trace"; str "debug"; str "info"; str "warn"; str "error"; str "fatal"].

Definition levelEnumInfo : Z := 2.
Definition levelEnumCustom : Z := 255.
Definition MaxFieldBytes : Z := Z.shiftl 1 20.
Definition maxCompressedBodyBytes : Z := Z.shiftl 8 20.
Definition maxRecordBytes : Z := Z.shiftl 48 20.
Definition minRecordBytes : Z := 33.

(** ** Field truncation *)

(** [utf8.RuneStart]: not a continuation byte. *)
Definition RuneStart (b : Z) : bool := negb (Z.land b 192 =? 128).

(** [for cut > 0 && !utf8.RuneStart(s[cut]) { cut-- }] *)
Fixpoint cut_loop (s : bytes) (cut : nat) : result Z :=
  match cut with
  | O => Ok 0
  | S n =>
      b ← index8 s (Z.of_nat cut);
      if RuneStart b then Ok (Z.of_nat cut) else cut_loop s n
  end.

Definition truncateField (s : bytes) : result bytes :=
  if len s <=? MaxFieldBytes then Ok s
  else
    cut ← cut_loop s (Z.to_nat MaxFieldBytes);
    slice s 0 cut.

Definition appendString (buf s : bytes) : result bytes :=
  s ← truncateField s;
  Ok (AppendLenString buf s).

(** ** Writing *)

(** The calls that compute the flags word. *)
Inductive flag_call :=
| setStr (f : Z) (v : bytes)
| setInt (f v : Z)
| setPtr (f : Z) (v : option bool).

Definition run_flag (flags : Z) (c : flag_call) : Z :=
  match c with
  | setStr f v => if bool_decide (v = []) then flags else Z.lor flags f
  | setInt f v => if 0 <? v then Z.lor flags f else flags
  | setPtr f v => match v with Some _ => Z.lor flags f | None => flags end
  end.

Definition flag_calls (e : Entry) : list flag_call := [
  setStr FlagEnv (Env e);
  setStr FlagVersion (Version e);
  setStr FlagHost (Host e);
  setStr FlagKind (Kind e);
  setStr FlagEventType (EventType e);
  setStr FlagTraceID (TraceID e);
  setStr FlagSpanID (SpanID e);
  setStr FlagParentSpanID (ParentSpanID e);
  setStr FlagRequestID (RequestID e);
  setStr FlagUserID (UserID e);
  setStr FlagTenantID (TenantID e);
  setStr FlagSessionID (SessionID e);
  setStr FlagMethod (Method e);
  setStr FlagPath (Path e);
  setStr FlagRoute (Route e);
  setStr FlagHandler (Handler e);
  setInt FlagStatus (Status e);
  setInt FlagDurationMs (DurationMs e);
  setInt FlagDbMs (DbMs e);
  setInt FlagDbCount (DbCount e);
  setInt FlagCacheMs (CacheMs e);
  setInt FlagCacheHits (CacheHits e);
  setInt FlagCacheMisses (CacheMisses e);
  setInt FlagExtMs (ExtMs e);
  setInt FlagExtCount (ExtCount e);
  setInt FlagRenderMs (RenderMs e);
  setInt FlagAllocCount (AllocCount e);
  setInt FlagMemDeltaMb (MemDeltaMb e);
  setPtr FlagNPlusOne (NPlusOne e);
  setInt FlagSlowQueries (SlowQueries e);
  setInt FlagDupQueries (DupQueries e);
  setStr FlagErrorClass (ErrorClass e);
  setStr FlagErrorMessage (ErrorMessage e);
  setStr FlagSourceFile (SourceFile e);
  setInt FlagSourceLine (SourceLine e);
  setStr FlagErrFingerprint (ErrorFingerprint e);
  setStr FlagJobClass (JobClass e);
  setStr FlagJobQueue (JobQueue e);
  setStr FlagJobID (JobID e);
  setInt FlagQueueMs (QueueMs e)
].

(** The calls that write the optional fields. *)
Inductive write_call :=
| writeStr (f : Z) (v : bytes)
| writeUvar (f v : Z)
| writeStatus (f v : Z)
| writeBool (f : Z) (v : option bool).

(** [flags&f != 0] *)
Definition has (flags f : Z) : bool := negb (Z.land flags f =? 0).

Definition run_write (flags : Z) (buf : bytes) (c : write_call) : result bytes :=
  match c with
  | writeStr f v => if has flags f then appendString buf v else Ok buf
  | writeUvar f v => Ok (if has flags f then PutUvarint buf (uint64 v) else buf)
  | writeStatus f v => Ok (if has flags f then AppendUint16 buf (uint16 v) else buf)
  | writeBool f v =>
      if has flags f then
        match v with
        | Some b => Ok (buf ++ [if b then 1 else 0])
        | None => Panic
        end
      else Ok buf
  end.

Definition write_calls (e : Entry) : list write_call := [
  writeStr FlagEnv (Env e);
  writeStr FlagVersion (Version e);
  writeStr FlagHost (Host e);
  writeStr FlagKind (Kind e);
  writeStr FlagEventType (EventType e);
  writeStr FlagTraceID (TraceID e);
  writeStr FlagSpanID (SpanID e);
  writeStr FlagParentSpanID (ParentSpanID e);
  writeStr FlagRequestID (RequestID e);
  writeStr FlagUserID (UserID e);
  writeStr FlagTenantID (TenantID e);
  writeStr FlagSessionID (SessionID e);
  writeStr FlagMethod (Method e);
  writeStr FlagPath (Path e);
  writeStr FlagRoute (Route e);
  writeStr FlagHandler (Handler e);
  writeStatus FlagStatus (Status e);
  writeUvar FlagDurationMs (DurationMs e);
  writeUvar FlagDbMs (DbMs e);
  writeUvar FlagDbCount (DbCount e);
  writeUvar FlagCacheMs (CacheMs e);
  writeUvar FlagCacheHits (CacheHits e);
  writeUvar FlagCacheMisses (CacheMisses e);
  writeUvar FlagExtMs (ExtMs e);
  writeUvar FlagExtCount (ExtCount e);
  writeUvar FlagRenderMs (RenderMs e);
  writeUvar FlagAllocCount (AllocCount e);
  writeUvar FlagMemDeltaMb (MemDeltaMb e);
  writeBool FlagNPlusOne (NPlusOne e);
  writeUvar FlagSlowQueries (SlowQueries e);
  writeUvar FlagDupQueries (DupQueries e);
  writeStr FlagErrorClass (ErrorClass e);
  writeStr FlagErrorMessage (ErrorMessage e);
  writeStr FlagSourceFile (SourceFile e);
  writeUvar FlagSourceLine (SourceLine e);
  writeStr FlagErrFingerprint (ErrorFingerprint e);
  writeStr FlagJobClass (JobClass e);
  writeStr FlagJobQueue (JobQueue e);
  writeStr FlagJobID (JobID e);
  writeUvar FlagQueueMs (QueueMs e)
].

Fixpoint run_writes (flags : Z) (buf : bytes) (cs : list write_call) : result bytes :=
  match cs with
  | [] => Ok buf
  | c :: cs => buf ← run_write flags buf c; run_writes flags buf cs
  end.

Section Wal.
Context {C : Zstd}.
(** [CompressBodies] *)
Context (CompressBodies : bool).

(** The encoded body and the body flags. *)
Definition encode_body (e : Entry) (flags : Z) : bytes * Z :=
  if 0 <? len (Body e) then
    let '(body, flags) :=
      if CompressBodies then (Compress (Body e), flags)
      else (Body e, Z.lor flags FlagRawBody) in
    if maxCompressedBodyBytes <? len body then ([], flags)
    else (body, Z.lor flags FlagBody)
  else ([], flags).

(** The record is built behind its 4-byte length, which is patched last. *)
Definition AppendEntry (buf : bytes) (e : Entry) : result bytes :=
  let recStart := len buf in
  let buf := buf ++ [0; 0; 0; 0] in
  let buf := AppendUint64 buf (uint64 (ID e)) in
  let buf := AppendUint64 buf (uint64 (Ts e)) in
  let buf := AppendUint64 buf (uint64 (ReceivedAt e)) in
  let lvl := match levelToEnum (Level e) with Some l => l | None => levelEnumCustom end in
  let buf := buf ++ [lvl] in
  let flags := foldl run_flag FlagExtendedStrings (flag_calls e) in
  let '(body, flags) := encode_body e flags in
  let buf := AppendUint64 buf flags in
  buf ← (match levelToEnum (Level e) with
         | None => appendString buf (Level e)
         | Some _ => Ok buf
         end);
  buf ← appendString buf (Service e);
  buf ← appendString buf (Message e);
  buf ← run_writes flags buf (write_calls e);
  let buf := if has flags FlagBody then AppendUint32 buf (uint32 (len body)) ++ body else buf in
  Ok (take (Z.to_nat recStart) buf ++ le_bytes 4 (uint32 (len buf - recStart - 4)) ++
      drop (Z.to_nat (recStart + 4)) buf).

Definition MarshalEntry (e : Entry) : result bytes := AppendEntry [] e.

(** ** Reading *)

(** The calls that read the optional fields; the setter is the destination. *)
Inductive read_call :=
| rStr (f : Z) (dest : bytes -> Entry -> Entry) (name : string)
| rUvar (f : Z) (dest : Z -> Entry -> Entry) (name : string)
| rStatus (f : Z) (dest : Z -> Entry -> Entry)
| rBool (f : Z) (dest : option bool -> Entry -> Entry).

Definition run_read (lenFmt : LenFormat) (flags : Z) (data : bytes) (st : Entry * Z)
  (c : read_call) : result (Entry * Z) :=
  let '(e, off) := st in
  match c with
  | rStr f dest name =>
      if has flags f then
        '(v, off) ← wrap ("read " +:+ name) (ReadString lenFmt data off);
        Ok (dest v e, off)
      else Ok (e, off)
  | rUvar f dest name =>
      if has flags f then
        d ← slice_from data off;
        let '(v, n) := Uvarint d in
        if n <=? 0 then Err (Errorf ("read " +:+ name +:+ ": invalid uvarint"))
        else Ok (dest (int64 v) e, off + n)
      else Ok (e, off)
  | rStatus f dest =>
      if has flags f then
        if len data <? off + 2 then Err (Errorf "read status: truncated")
        else
          d ← slice_from data off;
          v ← Uint16 d;
          Ok (dest v e, off + 2)
      else Ok (e, off)
  | rBool f dest =>
      if has flags f then
        if len data <=? off then Err (Errorf "read n_plus_one: truncated")
        else
          b ← index8 data off;
          Ok (dest (Some (negb (b =? 0))) e, off + 1)
      else Ok (e, off)
  end.

Definition read_calls : list read_call := [
  rStr FlagEnv (set Env) "env";
  rStr FlagVersion (set Version) "version";
  rStr FlagHost (set Host) "host";
  rStr FlagKind (set Kind) "kind";
  rStr FlagEventType (set EventType) "event_type";
  rStr FlagTraceID (set TraceID) "trace_id";
  rStr FlagSpanID (set SpanID) "span_id";
  rStr FlagParentSpanID (set ParentSpanID) "parent_span_id";
  rStr FlagRequestID (set RequestID) "request_id";
  rStr FlagUserID (set UserID) "user_id";
  rStr FlagTenantID (set TenantID) "tenant_id";
  rStr FlagSessionID (set SessionID) "session_id";
  rStr FlagMethod (set Method) "method";
  rStr FlagPath (set Path) "path";
  rStr FlagRoute (set Route) "route";
  rStr FlagHandler (set Handler) "handler";
  rStatus FlagStatus (set Status);
  rUvar FlagDurationMs (set DurationMs) "duration_ms";
  rUvar FlagDbMs (set DbMs) "db_ms";
  rUvar FlagDbCount (set DbCount) "db_count";
  rUvar FlagCacheMs (set CacheMs) "cache_ms";
  rUvar FlagCacheHits (set CacheHits) "cache_hits";
  rUvar FlagCacheMisses (set CacheMisses) "cache_misses";
  rUvar FlagExtMs (set ExtMs) "ext_ms";
  rUvar FlagExtCount (set ExtCount) "ext_count";
  rUvar FlagRenderMs (set RenderMs) "render_ms";
  rUvar FlagAllocCount (set AllocCount) "alloc_count";
  rUvar FlagMemDeltaMb (set MemDeltaMb) "mem_delta_mb";
  rBool FlagNPlusOne (set NPlusOne);
  rUvar FlagSlowQueries (set SlowQueries) "slow_queries";
  rUvar FlagDupQueries (set DupQueries) "dup_queries";
  rStr FlagErrorClass (set ErrorClass) "error_class";
  rStr FlagErrorMessage (set ErrorMessage) "error_message";
  rStr FlagSourceFile (set SourceFile) "source_file";
  rUvar FlagSourceLine (set SourceLine) "source_line";
  rStr FlagErrFingerprint (set ErrorFingerprint) "error_fingerprint";
  rStr FlagJobClass (set JobClass) "job_class";
  rStr FlagJobQueue (set JobQueue) "job_queue";
  rStr FlagJobID (set JobID) "job_id";
  rUvar FlagQueueMs (set QueueMs) "queue_ms"
].

Fixpoint run_reads (lenFmt : LenFormat) (flags : Z) (data : bytes) (st : Entry * Z)
  (cs : list read_call) : result (Entry * Z) :=
  match cs with
  | [] => Ok st
  | c :: cs => st ← run_read lenFmt flags data st c; run_reads lenFmt flags data st cs
  end.

Definition read_level (lenFmt : LenFormat) (flags lvlEnum : Z) (data : bytes) (off : Z)
  : result (bytes * Z) :=
  if (lvlEnum =? levelEnumCustom) && has flags FlagExtendedStrings then
    wrap "read level" (ReadString lenFmt data off)
  else if lvlEnum <? len enumToLevel then
    l ← index enumToLevel lvlEnum; Ok (l, off)
  else
    l ← index enumToLevel levelEnumInfo; Ok (l, off).

Definition read_body (flags : Z) (data : bytes) (st : Entry * Z) : result (Entry * Z) :=
  let '(e, off) := st in
  if has flags FlagBody then
    if len data <? off + 4 then Err (Errorf "read body length: truncated")
    else
      d ← slice_from data off;
      bodyLen ← Uint32 d;
      let off := off + 4 in
      if len data <? off + bodyLen then Err (Errorf "read body: truncated")
      else
        encodedBody ← slice data off (off + bodyLen);
        body ← (if has flags FlagRawBody then Ok encodedBody
                else wrap "decompress body" (Decompress encodedBody));
        Ok (set Body body e, off + bodyLen)
  else Ok (e, off).

Definition UnmarshalEntryInto (data : bytes) : result Entry :=
  if len data <? minRecordBytes then Err (Errorf "entry data too short")
  else
    let e := Entry0 in
    d ← slice_from data 0; v ← Uint64 d;
    let e := set ID (int64 v) e in
    d ← slice_from data 8; v ← Uint64 d;
    let e := set Ts (int64 v) e in
    d ← slice_from data 16; v ← Uint64 d;
    let e := set ReceivedAt (int64 v) e in
    lvlEnum ← index8 data 24;
    d ← slice_from data 25; flags ← Uint64 d;
    let lenFmt := if has flags FlagExtendedStrings then LenExtended else LenUint16 in
    '(level, off) ← read_level lenFmt flags lvlEnum data 33;
    let e := set Level level e in
    '(v, off) ← wrap "read service" (ReadString lenFmt data off);
    let e := set Service v e in
    '(v, off) ← wrap "read message" (ReadString lenFmt data off);
    let e := set Message v e in
    st ← run_reads lenFmt flags data (e, off) read_calls;
    '(e, off) ← read_body flags data st;
    if negb (off =? len data) then Err (Errorf "entry has trailing bytes")
    else Ok e.

Definition UnmarshalEntry (data : bytes) : result Entry := UnmarshalEntryInto data.

(** ** Scanning

    A reader is the bytes still to come and what [Read] returns after them:
    [io.EOF], or the error of a failing device. *)

Definition EOF : gerror := Sentinel "EOF".
Definition ErrUnexpectedEOF : gerror := Sentinel "unexpected EOF".

Record reader := mkReader { rd_data : bytes; rd_err : gerror }.

(** [io.ReadFull] into a buffer of [n > 0] bytes. *)
Definition ReadFull (r : reader) (n : Z) : reader * (bytes + gerror) :=
  if n <=? len (rd_data r) then
    (mkReader (drop (Z.to_nat n) (rd_data r)) (rd_err r), inl (take (Z.to_nat n) (rd_data r)))
  else
    (mkReader [] (rd_err r),
     inr (if bool_decide (rd_data r <> []) && bool_decide (rd_err r = EOF)
          then ErrUnexpectedEOF else rd_err r)).

Record Scanner := mkScanner { sc_r : reader; sc_consumed : Z; sc_err : option gerror }.

Definition NewScanner (r : reader) : Scanner := mkScanner r 0 None.

(** [Next]: the decoded entry when it returns true. *)
Definition Next (s : Scanner) : result (Scanner * option Entry) :=
  match sc_err s with
  | Some _ => Ok (s, None)
  | None =>
      match ReadFull (sc_r s) 4 with
      | (r, inr err) =>
          Ok (mkScanner r (sc_consumed s)
                (if bool_decide (err = EOF) then None
                 else Some (Wrapf "read entry length" err)), None)
      | (r, inl lenBuf) =>
          entryLen ← Uint32 lenBuf;
          if (entryLen <? minRecordBytes) || (maxRecordBytes <? entryLen) then
            Ok (mkScanner r (sc_consumed s) (Some (Errorf "invalid entry length")), None)
          else
            match ReadFull r entryLen with
            | (r, inr err) =>
                Ok (mkScanner r (sc_consumed s) (Some (Wrapf "read entry data" err)), None)
            | (r, inl rec) =>
                match UnmarshalEntryInto rec with
                | Ok e => Ok (mkScanner r (sc_consumed s + (4 + entryLen)) None, Some e)
                | Err err =>
                    Ok (mkScanner r (sc_consumed s) (Some (Wrapf "unmarshal entry" err)), None)
                | Panic => Panic
                end
            end
      end
  end.

(** [NextBatch] onto a slice of capacity [cap]; growing past it panics. *)
Fixpoint next_batch_loop (fuel : nat) (s : Scanner) (dst : list Entry) (cap max : Z)
  : result (Scanner * list Entry) :=
  match fuel with
  | O => Ok (s, dst)
  | S fuel =>
      if len dst <? max then
        if cap <? len dst + 1 then Panic
        else
          '(s, r) ← Next s;
          match r with
          | None => Ok (s, dst)
          | Some e => next_batch_loop fuel s (dst ++ [e]) cap max
          end
      else Ok (s, dst)
  end.

Definition NextBatch (s : Scanner) (dst : list Entry) (cap max : Z)
  : result (Scanner * list Entry) :=
  next_batch_loop (Z.to_nat max) s dst cap max.

(** Every record takes at least 37 bytes, so the bytes left bound the loop. *)
Fixpoint read_entries_loop (fuel : nat) (s : Scanner) (entries : list Entry)
  : result (Scanner * list Entry) :=
  match fuel with
  | O => Ok (s, entries)
  | S fuel =>
      '(s, r) ← Next s;
      match r with
      | None => Ok (s, entries)
      | Some e => read_entries_loop fuel s (entries ++ [e])
      end
  end.

Definition ReadEntriesFrom (r : reader) : result (list Entry * Z * option gerror) :=
  '(s, entries) ← read_entries_loop (S (length (rd_data r))) (NewScanner r) [];
  Ok (entries, sc_consumed s, sc_err s).

Definition ReadEntries (r : reader) : result (list Entry * option gerror) :=
  '(entries, _, err) ← ReadEntriesFrom r;
  Ok (entries, err).

End Wal.

(** ** Truncation *)

Lemma cut_loop_spec s cut :
  Z.of_nat cut < len s ->
  exists c, cut_loop s cut = Ok c /\ 0 <= c <= Z.of_nat cut /\
    (c = 0 \/ exists b, index8 s c = Ok b /\ RuneStart b = true) /\
    (forall k, c < k <= Z.of_nat cut -> exists b, index8 s k = Ok b /\ RuneStart b = false).
Proof.
  induction cut as [| n IH]; intros Hc.
  { exists 0. cbn. split_and!; try done; [by left | lia]. }
  cbn [cut_loop]. destruct (index_ok s (Z.of_nat (S n))) as (x & Hx & _); [lia |].
  unfold index8 at 1. rewrite Hx. cbn [fmap result_fmap mbind result_bind].
  destruct (RuneStart (uint8 x)) eqn:E.
  - exists (Z.of_nat (S n)). split; [done |]. split; [lia |]. split; [| intros; lia].
    right. exists (uint8 x). unfold index8. by rewrite Hx.
  - destruct IH as (c & -> & Hr & Hs & Hk); [lia |]. exists c.
    split; [done |]. split; [lia |]. split; [done |]. intros k Hk'. destruct (decide (k = Z.of_nat (S n))) as [-> |].
    + exists (uint8 x). unfold index8. by rewrite Hx.
    + apply Hk. lia.
Qed.

(** The value that reaches the record. *)
Definition truncated (s : bytes) : bytes :=
  match truncateField s with Ok t => t | _ => [] end.

Lemma truncateField_spec s :
  truncateField s = Ok (truncated s) /\ len (truncated s) <= MaxFieldBytes /\
  truncated s `prefix_of` s /\ (len s <= MaxFieldBytes -> truncated s = s).
Proof.
  unfold truncated, truncateField. destruct (Z.leb_spec (len s) MaxFieldBytes) as [H | H].
  { split_and!; done. }
  assert (0 <= MaxFieldBytes) by done. revert H H0. generalize MaxFieldBytes. intros m H Hm.
  destruct (cut_loop_spec s (Z.to_nat m)) as (c & -> & Hr & _ & _); [lia |].
  cbn [mbind result_bind]. rewrite slice_ok by lia. rewrite drop_0, Z.sub_0_r.
  split_and!; [done | rewrite len_take; lia | apply prefix_take | lia].
Qed.

Lemma truncated_nil : truncated [] = [].
Proof. apply (truncateField_spec []). done. Qed.

Lemma truncated_framable f s : f = LenExtended -> framable f (truncated s).
Proof.
  intros ->. pose proof (truncateField_spec s) as (_ & H & _ & _).
  split; [| done]. change MaxFieldBytes with (2 ^ 20) in H.
  change MaxValueBytes with (2 ^ 30). lia.
Qed.

Lemma appendString_ok buf s : appendString buf s = Ok (buf ++ frame (truncated s)).
Proof.
  unfold appendString. rewrite (proj1 (truncateField_spec s)). cbn [mbind result_bind].
  by rewrite AppendLenString_app.
Qed.

Lemma frame_truncated_len s : 2 <= len (frame (truncated s)) <= MaxFieldBytes + 6.
Proof.
  pose proof (truncateField_spec s) as (_ & H & _ & _).
  pose proof (AppendLenString_len_bound (truncated s)). unfold frame. len_pose. lia.
Qed.

(** ** The flags word *)

Lemma has_testbit w i : 0 <= i -> has w (Z.shiftl 1 i) = Z.testbit w i.
Proof.
  intros Hi. unfold has. rewrite Z.shiftl_1_l. destruct (Z.testbit w i) eqn:E.
  - destruct (Z.eqb_spec (Z.land w (2 ^ i)) 0) as [H |]; [| done].
    assert (Z.testbit (Z.land w (2 ^ i)) i = false) as H' by (rewrite H; apply Z.bits_0).
    rewrite Z.land_spec, E, Z.pow2_bits_true in H' by done. done.
  - replace (Z.land w (2 ^ i)) with 0; [done |]. symmetry. apply Z.bits_inj_0. intros k.
    rewrite Z.land_spec. destruct (decide (k = i)) as [-> | Hne]; [by rewrite E |].
    rewrite (Z.pow2_bits_false i k) by lia. apply andb_false_r.
Qed.

Lemma has_lor w i j :
  0 <= i -> 0 <= j -> has (Z.lor w (Z.shiftl 1 j)) (Z.shiftl 1 i) = has w (Z.shiftl 1 i) || (i =? j).
Proof.
  intros. rewrite !has_testbit, Z.lor_spec, Z.shiftl_1_l by done. f_equal.
  destruct (Z.eqb_spec i j) as [-> |]; [by apply Z.pow2_bits_true |].
  apply Z.pow2_bits_false. lia.
Qed.

(** ** The optional fields as one table

    [fields] lists flag bit, struct field and name; the three call lists of the
    codec are its projections. *)

Inductive field :=
| FStr (i : Z) (proj : Entry -> bytes) {S : Setter proj} (name : string)
| FInt (i : Z) (proj : Entry -> Z) {S : Setter proj} (name : string)
| FStatus (i : Z) (proj : Entry -> Z) {S : Setter proj}
| FBool (i : Z) (proj : Entry -> option bool) {S : Setter proj}.

Definition field_bit (fd : field) : Z :=
  match fd with
  | FStr i _ _ | FInt i _ _ | FStatus i _ | FBool i _ => i
  end.

Definition field_flag (e : Entry) (fd : field) : flag_call :=
  match fd with
  | FStr i proj _ => setStr (Z.shiftl 1 i) (proj e)
  | FInt i proj _ | FStatus i proj => setInt (Z.shiftl 1 i) (proj e)
  | FBool i proj => setPtr (Z.shiftl 1 i) (proj e)
  end.

Definition field_write (e : Entry) (fd : field) : write_call :=
  match fd with
  | FStr i proj _ => writeStr (Z.shiftl 1 i) (proj e)
  | FInt i proj _ => writeUvar (Z.shiftl 1 i) (proj e)
  | FStatus i proj => writeStatus (Z.shiftl 1 i) (proj e)
  | FBool i proj => writeBool (Z.shiftl 1 i) (proj e)
  end.

Definition field_read (fd : field) : read_call :=
  match fd with
  | FStr i proj name => rStr (Z.shiftl 1 i) (set proj) name
  | FInt i proj name => rUvar (Z.shiftl 1 i) (set proj) name
  | FStatus i proj => rStatus (Z.shiftl 1 i) (set proj)
  | FBool i proj => rBool (Z.shiftl 1 i) (set proj)
  end.

Definition fields : list field := [
  FStr 0 Env "env";
  FStr 1 Version "version";
  FStr 2 Host "host";
  FStr 3 Kind "kind";
  FStr 4 EventType "event_type";
  FStr 5 TraceID "trace_id";
  FStr 6 SpanID "span_id";
  FStr 7 ParentSpanID "parent_span_id";
  FStr 8 RequestID "request_id";
  FStr 9 UserID "user_id";
  FStr 10 TenantID "tenant_id";
  FStr 11 SessionID "session_id";
  FStr 12 Method "method";
  FStr 13 Path "path";
  FStr 14 Route "route";
  FStr 15 Handler "handler";
  FStatus 16 Status;
  FInt 17 DurationMs "duration_ms";
  FInt 18 DbMs "db_ms";
  FInt 19 DbCount "db_count";
  FInt 20 CacheMs "cache_ms";
  FInt 21 CacheHits "cache_hits";
  FInt 22 CacheMisses "cache_misses";
  FInt 23 ExtMs "ext_ms";
  FInt 24 ExtCount "ext_count";
  FInt 25 RenderMs "render_ms";
  FInt 26 AllocCount "alloc_count";
  FInt 27 MemDeltaMb "mem_delta_mb";
  FBool 28 NPlusOne;
  FInt 29 SlowQueries "slow_queries";
  FInt 30 DupQueries "dup_queries";
  FStr 31 ErrorClass "error_class";
  FStr 32 ErrorMessage "error_message";
  FStr 33 SourceFile "source_file";
  FInt 34 SourceLine "source_line";
  FStr 35 ErrorFingerprint "error_fingerprint";
  FStr 36 JobClass "job_class";
  FStr 37 JobQueue "job_queue";
  FStr 38 JobID "job_id";
  FInt 39 QueueMs "queue_ms"
].

Lemma flag_calls_fields e : flag_calls e = field_flag e <$> fields.
Proof. reflexivity. Qed.

Lemma write_calls_fields e : write_calls e = field_write e <$> fields.
Proof. reflexivity. Qed.

Lemma read_calls_fields : read_calls = field_read <$> fields.
Proof. reflexivity. Qed.

(** No two fields share a bit, and none takes a body or format bit. *)
Lemma fields_bits : NoDup (field_bit <$> fields) /\
  Forall (fun fd => 0 <= field_bit fd < 40) fields.
Proof. split; apply (bool_decide_unpack _); vm_compute; exact I. Qed.

(** The field is in the record. *)
Definition field_present (e : Entry) (fd : field) : bool :=
  match fd with
  | FStr _ proj _ => negb (bool_decide (proj e = []))
  | FInt _ proj _ | FStatus _ proj => 0 <? proj e
  | FBool _ proj => match proj e with Some _ => true | None => false end
  end.

(** The bytes it takes there. *)
Definition field_enc (e : Entry) (fd : field) : bytes :=
  if field_present e fd then
    match fd with
    | FStr _ proj _ => frame (truncated (proj e))
    | FInt _ proj _ => binary_PutUvarint (proj e)
    | FStatus _ proj => le_bytes 2 (uint16 (proj e))
    | FBool _ proj => [match proj e with Some true => 1 | _ => 0 end]
    end
  else [].

(** What reading those bytes assigns. *)
Definition field_eff (e acc : Entry) (fd : field) : Entry :=
  if field_present e fd then
    match fd with
    | FStr _ proj _ => set proj (truncated (proj e)) acc
    | FInt _ proj _ => set proj (proj e) acc
    | FStatus _ proj => set proj (uint16 (proj e)) acc
    | FBool _ proj => set proj (proj e) acc
    end
  else acc.

(** Integer fields hold a Go [int]. *)
Definition field_ok (e : Entry) (fd : field) : Prop :=
  match fd with
  | FInt _ proj _ | FStatus _ proj => is_int64 (proj e)
  | _ => True
  end.

Lemma run_flag_field e w fd :
  run_flag w (field_flag e fd) =
    if field_present e fd then Z.lor w (Z.shiftl 1 (field_bit fd)) else w.
Proof.
  destruct fd; cbn; [by case_bool_decide | done | done | by destruct (proj e)].
Qed.

Lemma has_flags e fds w i :
  0 <= i -> Forall (fun fd => 0 <= field_bit fd < 40) fds ->
  has (foldl run_flag w (field_flag e <$> fds)) (Z.shiftl 1 i) =
    has w (Z.shiftl 1 i) ||
    existsb (fun fd => field_present e fd && (i =? field_bit fd)) fds.
Proof.
  intros Hi Hf. revert w. induction Hf as [| fd fds Hb Hf IH]; intros w.
  { cbn. by rewrite orb_false_r. }
  cbn [fmap list_fmap foldl existsb]. rewrite IH, run_flag_field.
  destruct (field_present e fd); [| done]. rewrite has_lor by lia. cbn [andb].
  by rewrite orb_assoc.
Qed.

Lemma has_field e w fds fd :
  NoDup (field_bit <$> fds) -> Forall (fun fd => 0 <= field_bit fd < 40) fds ->
  fd ∈ fds -> has w (Z.shiftl 1 (field_bit fd)) = false ->
  has (foldl run_flag w (field_flag e <$> fds)) (Z.shiftl 1 (field_bit fd)) = field_present e fd.
Proof.
  intros Hn Hf Hin Hw. rewrite has_flags; [| | done].
  2:{ rewrite list.Forall_forall in Hf. apply Hf in Hin. lia. }
  rewrite Hw. cbn [orb]. clear Hf Hw. revert Hn Hin.
  induction fds as [| g fds IH]; [by intros _ ?%elem_of_nil |].
  cbn [fmap list_fmap]. rewrite NoDup_cons, elem_of_cons. cbn [existsb].
  intros [Hg Hn] [-> | Hin].
  - rewrite Z.eqb_refl, andb_true_r.
    destruct (existsb _ fds) eqn:E; [| by rewrite orb_false_r].
    apply existsb_exists in E as (h & Hh & [_ Hb%Z.eqb_eq]%andb_prop).
    destruct Hg. rewrite Hb. apply list_elem_of_fmap_2. by apply list_elem_of_In.
  - rewrite IH by done. destruct (Z.eqb_spec (field_bit fd) (field_bit g)) as [E |].
    + destruct Hg. rewrite <- E. by apply list_elem_of_fmap_2.
    + by rewrite andb_false_r.
Qed.

Definition field_encs (e : Entry) (fds : list field) : bytes := fds ≫= field_enc e.

Lemma run_writes_fields e flags buf fds :
  Forall (field_ok e) fds ->
  Forall (fun fd => has flags (Z.shiftl 1 (field_bit fd)) = field_present e fd) fds ->
  run_writes flags buf (field_write e <$> fds) = Ok (buf ++ field_encs e fds).
Proof.
  intros Hok Hf. revert buf. induction Hf as [| fd fds Hb Hf IH]; intros buf.
  { by rewrite app_nil_r. }
  inversion Hok as [| ? ? Hfd Hok']; subst. cbn [fmap list_fmap run_writes].
  assert (run_write flags buf (field_write e fd) = Ok (buf ++ field_enc e fd)) as ->.
  { destruct fd as [i p S n | i p S n | i p S | i p S]; cbn [field_write run_write field_bit] in *;
      rewrite Hb; unfold field_enc; destruct (field_present e _) eqn:E;
      rewrite ?app_nil_r; try done.
    - apply appendString_ok.
    - cbn in E, Hfd. unfold PutUvarint. rewrite uint64_small; [done |].
      unfold is_int64 in Hfd. apply Z.ltb_lt in E. lia.
    - cbn in E. by destruct (p e) as [[] |]. }
  cbn [mbind result_bind]. rewrite IH by done. unfold field_encs.
  by rewrite bind_cons, <- app_assoc.
Qed.

Lemma run_read_field e flags data pre rest fd acc off :
  field_ok e fd -> has flags (Z.shiftl 1 (field_bit fd)) = field_present e fd ->
  data = pre ++ field_enc e fd ++ rest -> off = len pre ->
  run_read LenExtended flags data (acc, off) (field_read fd) =
    Ok (field_eff e acc fd, off + len (field_enc e fd)).
Proof.
  intros Hok Hb Hd ->. len_pose.
  destruct fd as [i p S n | i p S n | i p S | i p S]; cbn [field_read run_read field_bit] in *;
    rewrite Hb; unfold field_eff, field_enc in *; destruct (field_present e _) eqn:E;
    try (rewrite len_nil, Z.add_0_r; done).
  - destruct (truncated_framable LenExtended (p e) eq_refl) as [Hl Hl'].
    rewrite (ReadString_split _ _ pre (truncated (p e)) rest) by done. done.
  - cbn in E, Hok. apply Z.ltb_lt in E. unfold is_int64 in Hok.
    pose proof (PutUvarint_len (p e)).
    rewrite (slice_from_split _ pre (binary_PutUvarint (p e) ++ rest)) by done.
    cbn [mbind result_bind]. rewrite Uvarint_put by (unfold is_uint; lia). zcmp.
    by rewrite int64_small by (unfold is_int64; lia).
  - subst data. autorewrite with len. len_pose. zcmp.
    rewrite (slice_from_split _ pre (le_bytes 2 (uint16 (p e)) ++ rest)) by done.
    cbn [mbind result_bind]. rewrite Uint16_app; [done |]. apply Z.mod_pos_bound. lia.
  - subst data. autorewrite with len. len_pose. zcmp. unfold index8.
    rewrite (index_split _ pre (match p e with Some true => 1 | _ => 0 end) rest) by done.
    cbn in E. by destruct (p e) as [[] |].
Qed.

Lemma run_reads_fields e flags data pre rest fds acc off :
  Forall (field_ok e) fds ->
  Forall (fun fd => has flags (Z.shiftl 1 (field_bit fd)) = field_present e fd) fds ->
  data = pre ++ field_encs e fds ++ rest -> off = len pre ->
  run_reads LenExtended flags data (acc, off) (field_read <$> fds) =
    Ok (foldl (field_eff e) acc fds, off + len (field_encs e fds)).
Proof.
  intros Hok Hf. revert pre acc off. induction Hf as [| fd fds Hb Hf IH];
    intros pre acc off Hd ->.
  { unfold field_encs. cbn [mbind list_bind]. rewrite len_nil, Z.add_0_r. done. }
  inversion Hok as [| ? ? Hfd Hok']; subst.
  cbn [fmap list_fmap run_reads foldl]. unfold field_encs in *. rewrite bind_cons.
  rewrite (run_read_field e flags _ pre ((fds ≫= field_enc e) ++ rest))
    by (rewrite <- ?app_assoc; done).
  cbn [mbind result_bind].
  rewrite (IH Hok' (pre ++ field_enc e fd)); [| by rewrite bind_cons, <- ?app_assoc | rewrite len_app; lia].
  do 2 f_equal. len_lia.
Qed.

(** ** What survives a write and a read *)

(** The level after the enum mapping. *)
Definition stored_level (level : bytes) : bytes :=
  match levelToEnum level with
  | Some l => default [] (enumToLevel !! Z.to_nat l)
  | None => truncated level
  end.

(** An [int] field is kept when positive. *)
Definition stored_int (v : Z) : Z := if 0 <? v then v else 0.

Lemma eff_str e acc i (proj : Entry -> bytes) {S : Setter proj} name :
  (forall a, set proj (proj a) a = a) -> proj acc = [] ->
  field_eff e acc (FStr i proj name) = set proj (truncated (proj e)) acc.
Proof.
  intros Hl H0. unfold field_eff. cbn [field_present]. case_bool_decide as E; [| done].
  cbn [negb]. rewrite E, truncated_nil, <- H0. by rewrite Hl.
Qed.

Lemma eff_int e acc i (proj : Entry -> Z) {S : Setter proj} name :
  (forall a, set proj (proj a) a = a) -> proj acc = 0 ->
  field_eff e acc (FInt i proj name) = set proj (stored_int (proj e)) acc.
Proof.
  intros Hl H0. unfold field_eff, stored_int. cbn [field_present].
  destruct (0 <? proj e); [done |]. rewrite <- H0. by rewrite Hl.
Qed.

Lemma eff_status e acc i (proj : Entry -> Z) {S : Setter proj} :
  (forall a, set proj (proj a) a = a) -> proj acc = 0 ->
  field_eff e acc (FStatus i proj) = set proj (uint16 (stored_int (proj e))) acc.
Proof.
  intros Hl H0. unfold field_eff, stored_int. cbn [field_present].
  destruct (0 <? proj e); [done |].
  change (uint16 0) with 0. rewrite <- H0. by rewrite Hl.
Qed.

Lemma eff_bool e acc i (proj : Entry -> option bool) {S : Setter proj} :
  (forall a, set proj (proj a) a = a) -> proj acc = None ->
  field_eff e acc (FBool i proj) = set proj (proj e) acc.
Proof.
  intros Hl H0. unfold field_eff. cbn [field_present].
  destruct (proj e); [done |]. rewrite <- H0. by rewrite Hl.
Qed.

(** An entry whose integers fit their Go types. *)
Definition entry_ok (e : Entry) : Prop :=
  is_int64 (ID e) /\ is_int64 (Ts e) /\ is_int64 (ReceivedAt e) /\ Forall (field_ok e) fields.

Lemma foldl_eff e acc fd fds :
  foldl (field_eff e) acc (fd :: fds) = foldl (field_eff e) (field_eff e acc fd) fds.
Proof. done. Qed.

Section WalLemmas.
Context {C : Zstd} {L : ZstdLaws C}.
Context (CompressBodies : bool).

Definition encoded_body (e : Entry) : bytes :=
  if CompressBodies then Compress (Body e) else Body e.

(** The body is in the record. *)
Definition body_present (e : Entry) : bool :=
  (0 <? len (Body e)) && (len (encoded_body e) <=? maxCompressedBodyBytes).

Definition stored_body (e : Entry) : bytes := if body_present e then Body e else [].

(** The entry a reader of the record gets: strings cut at [MaxFieldBytes], the
    level through the enum, non-positive integers as zero, the status at 16
    bits, an oversized body dropped. *)
Definition stored (e : Entry) : Entry := {|
  ID := ID e;
  Ts := Ts e;
  ReceivedAt := ReceivedAt e;
  Level := stored_level (Level e);
  Service := truncated (Service e);
  Message := truncated (Message e);
  Env := truncated (Env e);
  Version := truncated (Version e);
  Host := truncated (Host e);
  Kind := truncated (Kind e);
  EventType := truncated (EventType e);
  TraceID := truncated (TraceID e);
  SpanID := truncated (SpanID e);
  ParentSpanID := truncated (ParentSpanID e);
  RequestID := truncated (RequestID e);
  UserID := truncated (UserID e);
  TenantID := truncated (TenantID e);
  SessionID := truncated (SessionID e);
  Method := truncated (Method e);
  Path := truncated (Path e);
  Route := truncated (Route e);
  Handler := truncated (Handler e);
  Status := uint16 (stored_int (Status e));
  DurationMs := stored_int (DurationMs e);
  DbMs := stored_int (DbMs e);
  DbCount := stored_int (DbCount e);
  CacheMs := stored_int (CacheMs e);
  CacheHits := stored_int (CacheHits e);
  CacheMisses := stored_int (CacheMisses e);
  ExtMs := stored_int (ExtMs e);
  ExtCount := stored_int (ExtCount e);
  RenderMs := stored_int (RenderMs e);
  AllocCount := stored_int (AllocCount e);
  MemDeltaMb := stored_int (MemDeltaMb e);
  NPlusOne := NPlusOne e;
  SlowQueries := stored_int (SlowQueries e);
  DupQueries := stored_int (DupQueries e);
  ErrorClass := truncated (ErrorClass e);
  ErrorMessage := truncated (ErrorMessage e);
  SourceFile := truncated (SourceFile e);
  SourceLine := stored_int (SourceLine e);
  ErrorFingerprint := truncated (ErrorFingerprint e);
  JobClass := truncated (JobClass e);
  JobQueue := truncated (JobQueue e);
  JobID := truncated (JobID e);
  QueueMs := stored_int (QueueMs e);
  Body := stored_body e
|}.

Lemma fields_stored e :
  foldl (field_eff e)
    (set Message (truncated (Message e)) (set Service (truncated (Service e))
      (set Level (stored_level (Level e)) (set ReceivedAt (ReceivedAt e)
        (set Ts (Ts e) (set ID (ID e) Entry0)))))) fields = set Body [] (stored e).
Proof.
  unfold fields.
  repeat (rewrite foldl_eff;
    first [ rewrite eff_str; [| by intros [] | reflexivity ]
    | rewrite eff_int; [| by intros [] | reflexivity ]
    | rewrite eff_status; [| by intros [] | reflexivity ]
    | rewrite eff_bool; [| by intros [] | reflexivity ] ]).
  reflexivity.
Qed.

(** ** The flags of a record *)

Definition record_flags (e : Entry) : Z :=
  (encode_body CompressBodies e (foldl run_flag FlagExtendedStrings (flag_calls e))).2.

Lemma encode_body_eq e w :
  encode_body CompressBodies e w =
    (if body_present e then encoded_body e else [],
     let w' := if (0 <? len (Body e)) && negb CompressBodies then Z.lor w FlagRawBody else w in
     if body_present e then Z.lor w' FlagBody else w').
Proof.
  unfold encode_body, body_present, encoded_body.
  destruct (0 <? len (Body e)); [| done]. cbn [andb].
  destruct CompressBodies; cbn [negb]; rewrite Z.ltb_antisym; by destruct (_ <=? _).
Qed.

Lemma field_flags_high e i :
  40 <= i -> has (foldl run_flag FlagExtendedStrings (flag_calls e)) (Z.shiftl 1 i) = (i =? 63).
Proof.
  intros Hi. rewrite flag_calls_fields, has_flags by (lia || apply fields_bits).
  unfold FlagExtendedStrings. rewrite has_testbit, Z.shiftl_1_l, Z.pow2_bits_eqb by lia.
  destruct (existsb _ fields) eqn:E; [| by rewrite orb_false_r, Z.eqb_sym].
  apply existsb_exists in E as (fd & Hfd%list_elem_of_In & [_ Hb%Z.eqb_eq]%andb_prop).
  destruct fields_bits as [_ Hf]. rewrite list.Forall_forall in Hf. apply Hf in Hfd. lia.
Qed.

Lemma record_flags_has e i :
  0 <= i ->
  has (record_flags e) (Z.shiftl 1 i) =
    has (foldl run_flag FlagExtendedStrings (flag_calls e)) (Z.shiftl 1 i) ||
    ((0 <? len (Body e)) && negb CompressBodies && (i =? 62)) || (body_present e && (i =? 40)).
Proof.
  intros Hi. unfold record_flags. rewrite encode_body_eq. cbn [snd].
  unfold FlagRawBody, FlagBody.
  destruct (body_present e), ((0 <? len (Body e)) && negb CompressBodies);
    rewrite ?has_lor by lia; cbn [andb]; by rewrite ?orb_false_r.
Qed.

Lemma record_flags_fields e :
  Forall (fun fd => has (record_flags e) (Z.shiftl 1 (field_bit fd)) = field_present e fd) fields.
Proof.
  destruct fields_bits as [Hn Hf]. apply list.Forall_forall. intros fd Hfd.
  pose proof Hf as Hf'. rewrite list.Forall_forall in Hf'. apply Hf' in Hfd as Hb.
  rewrite record_flags_has by lia.
  rewrite (proj2 (Z.eqb_neq (field_bit fd) 62)), (proj2 (Z.eqb_neq (field_bit fd) 40)) by lia.
  rewrite !andb_false_r, !orb_false_r, flag_calls_fields. apply has_field; try done.
  unfold FlagExtendedStrings. rewrite has_testbit, Z.shiftl_1_l, Z.pow2_bits_eqb by lia.
  apply Z.eqb_neq. lia.
Qed.

Lemma record_flags_extended e : has (record_flags e) FlagExtendedStrings = true.
Proof. unfold FlagExtendedStrings. rewrite record_flags_has, field_flags_high by lia. done. Qed.

Lemma record_flags_body e : has (record_flags e) FlagBody = body_present e.
Proof.
  unfold FlagBody. rewrite record_flags_has, field_flags_high by lia. cbn [Z.eqb Pos.eqb orb].
  by rewrite andb_false_r, andb_true_r.
Qed.

Lemma record_flags_raw e :
  body_present e = true -> has (record_flags e) FlagRawBody = negb CompressBodies.
Proof.
  intros H. unfold FlagRawBody. rewrite record_flags_has, field_flags_high by lia.
  unfold body_present in H. apply andb_prop in H as [-> _]. cbn [Z.eqb Pos.eqb orb andb].
  by rewrite andb_false_r, orb_false_r, andb_true_r.
Qed.

Lemma lor_uint64 a b : is_uint 64 a -> is_uint 64 b -> is_uint 64 (Z.lor a b).
Proof.
  intros [Ha1 Ha2] [Hb1 Hb2]. split; [by apply Z.lor_nonneg |].
  rewrite <- (Z.mod_small a (2 ^ 64)), <- (Z.mod_small b (2 ^ 64)) by done.
  rewrite <- !Z.land_ones, <- Z.land_lor_distr_l, Z.land_ones by done.
  apply Z.mod_pos_bound. done.
Qed.

Lemma shift_uint64 i : 0 <= i < 64 -> is_uint 64 (Z.shiftl 1 i).
Proof. intros. rewrite Z.shiftl_1_l. split; [lia |]. apply Z.pow_lt_mono_r; lia. Qed.

Lemma record_flags_range e : is_uint 64 (record_flags e).
Proof.
  unfold record_flags. rewrite encode_body_eq. cbn [snd]. rewrite flag_calls_fields.
  assert (forall w fds, is_uint 64 w -> Forall (fun fd => 0 <= field_bit fd < 40) fds ->
    is_uint 64 (foldl run_flag w (field_flag e <$> fds))) as H.
  { intros w fds Hw Hf. revert w Hw. induction Hf as [| fd fds Hb Hf IH]; intros w Hw; [done |].
    cbn [fmap list_fmap foldl]. apply IH. rewrite run_flag_field.
    destruct (field_present e fd); [| done]. apply lor_uint64; [done |]. apply shift_uint64. lia. }
  specialize (H FlagExtendedStrings fields (shift_uint64 63 ltac:(lia)) (proj2 fields_bits)).
  pose proof (shift_uint64 62 ltac:(lia)). pose proof (shift_uint64 40 ltac:(lia)).
  destruct (body_present e), ((0 <? len (Body e)) && negb CompressBodies);
    repeat apply lor_uint64; done.
Qed.

(** ** The layout of a record *)

Definition level_byte (e : Entry) : Z :=
  match levelToEnum (Level e) with Some l => l | None => levelEnumCustom end.

Definition level_enc (e : Entry) : bytes :=
  match levelToEnum (Level e) with Some _ => [] | None => frame (truncated (Level e)) end.

Definition body_enc (e : Entry) : bytes :=
  if body_present e then le_bytes 4 (len (encoded_body e)) ++ encoded_body e else [].

Definition record_head (e : Entry) : bytes :=
  le_bytes 8 (uint64 (ID e)) ++ le_bytes 8 (uint64 (Ts e)) ++ le_bytes 8 (uint64 (ReceivedAt e)) ++
  [level_byte e] ++ le_bytes 8 (record_flags e).

Definition record (e : Entry) : bytes :=
  record_head e ++ level_enc e ++ frame (truncated (Service e)) ++
  frame (truncated (Message e)) ++ field_encs e fields ++ body_enc e.

(** The framed record, as it lies in the file. *)
Definition framed (e : Entry) : bytes := le_bytes 4 (len (record e)) ++ record e.

Definition field_max (fd : field) : Z :=
  match fd with FStr _ _ _ => MaxFieldBytes + 6 | _ => 10 end.

Lemma field_encs_len e fds : len (field_encs e fds) <= foldr (fun fd a => field_max fd + a) 0 fds.
Proof.
  induction fds as [| fd fds IH]; [done |]. unfold field_encs in *. rewrite bind_cons, len_app.
  cbn [foldr]. assert (len (field_enc e fd) <= field_max fd); [| lia].
  unfold field_enc. destruct (field_present e fd); [| rewrite len_nil; by destruct fd].
  destruct fd; cbn [field_max].
  - apply frame_truncated_len.
  - apply PutUvarint_len.
  - rewrite len_le_bytes. done.
  - rewrite len_cons, len_nil. done.
Qed.

Lemma level_enc_len e : len (level_enc e) <= MaxFieldBytes + 6.
Proof.
  unfold level_enc. destruct (levelToEnum (Level e)); [by rewrite len_nil |].
  apply frame_truncated_len.
Qed.

Lemma body_enc_len e : len (body_enc e) <= maxCompressedBodyBytes + 4.
Proof.
  unfold body_enc, body_present. destruct (0 <? len (Body e)); cbn [andb]; [| by rewrite len_nil].
  destruct (Z.leb_spec (len (encoded_body e)) maxCompressedBodyBytes); [| by rewrite len_nil].
  rewrite len_app, len_le_bytes. lia.
Qed.

Lemma record_head_len e : len (record_head e) = minRecordBytes.
Proof. unfold record_head. autorewrite with len. done. Qed.

(** No record outgrows what the scanner accepts. *)
Lemma record_len e : minRecordBytes <= len (record e) <= maxRecordBytes.
Proof.
  unfold record. rewrite !len_app, record_head_len.
  pose proof (field_encs_len e fields) as Hf. pose proof (level_enc_len e).
  pose proof (body_enc_len e). pose proof (frame_truncated_len (Service e)).
  pose proof (frame_truncated_len (Message e)).
  set (m := foldr _ 0 fields) in Hf. vm_compute in m. subst m.
  change MaxFieldBytes with (2 ^ 20) in *. change maxCompressedBodyBytes with (2 ^ 23) in *.
  change maxRecordBytes with (48 * 2 ^ 20). change minRecordBytes with 33. len_pose. lia.
Qed.

Lemma record_u32 e : is_uint 32 (len (record e)).
Proof.
  pose proof (record_len e) as H. change maxRecordBytes with (48 * 2 ^ 20) in H.
  unfold minRecordBytes in H. unfold is_uint. lia.
Qed.

Lemma AppendEntry_ok buf e :
  entry_ok e -> AppendEntry CompressBodies buf e = Ok (buf ++ framed e).
Proof.
  intros (_ & _ & _ & Hok). unfold AppendEntry.
  pose proof (record_flags_fields e) as Hf.
  assert (encode_body CompressBodies e (foldl run_flag FlagExtendedStrings (flag_calls e)) =
    (if body_present e then encoded_body e else [], record_flags e)) as ->.
  { unfold record_flags. rewrite encode_body_eq. done. }
  assert (forall b, match levelToEnum (Level e) with
    | Some _ => Ok b | None => appendString b (Level e) end = Ok (b ++ level_enc e)) as Hl.
  { intros b. unfold level_enc. destruct (levelToEnum (Level e)); [by rewrite app_nil_r |].
    apply appendString_ok. }
  rewrite Hl. cbn [mbind result_bind]. rewrite appendString_ok. cbn [mbind result_bind].
  rewrite appendString_ok. cbn [mbind result_bind].
  rewrite write_calls_fields, run_writes_fields by done. cbn [mbind result_bind].
  fold (level_byte e). rewrite record_flags_body. unfold AppendUint64, AppendUint32.
  set (b := if body_present e then _ else _).
  assert (b = (buf ++ [0; 0; 0; 0]) ++ record e) as ->.
  { subst b. unfold record, record_head, body_enc.
    destruct (body_present e) eqn:E; rewrite ?app_nil_r, <- ?app_assoc; [| done].
    rewrite uint32_small; [done |]. unfold body_present in E. apply andb_prop in E as [_ E].
    apply Z.leb_le in E. change maxCompressedBodyBytes with (2 ^ 23) in E. len_pose. lia. }
  rewrite !len_app. change (len [0; 0; 0; 0]) with 4.
  replace (len buf + 4 + len (record e) - len buf - 4) with (len (record e)) by lia.
  rewrite uint32_small by apply record_u32. f_equal. unfold framed.
  rewrite <- app_assoc, to_nat_len, take_app_length. do 2 f_equal.
  replace (len buf + 4) with (len (buf ++ [0; 0; 0; 0])) by (rewrite len_app; done).
  rewrite app_assoc. apply drop_len_app.
Qed.

(** ** Reading a record back *)

Lemma levelToEnum_range level l :
  levelToEnum level = Some l -> 0 <= l < len enumToLevel.
Proof.
  unfold levelToEnum. repeat case_bool_decide; intros [= <-]; by vm_compute.
Qed.

Lemma index_enum l :
  0 <= l < len enumToLevel -> index enumToLevel l = Ok (default [] (enumToLevel !! Z.to_nat l)).
Proof. intros (x & -> & ->)%index_ok. done. Qed.

Lemma read_level_ok e rest :
  read_level LenExtended (record_flags e) (uint8 (level_byte e))
    (record_head e ++ level_enc e ++ rest) 33 =
    Ok (stored_level (Level e), 33 + len (level_enc e)).
Proof.
  unfold read_level, level_byte, level_enc, stored_level. rewrite record_flags_extended.
  destruct (levelToEnum (Level e)) as [l |] eqn:E.
  - apply levelToEnum_range in E. change (len enumToLevel) with 6 in *.
    unfold uint8. rewrite Z.mod_small by lia. unfold levelEnumCustom. zcmp.
    rewrite index_enum by (change (len enumToLevel) with 6; lia). cbn [mbind result_bind].
    by rewrite len_nil.
  - destruct (truncated_framable LenExtended (Level e) eq_refl) as [Hl Hl'].
    rewrite (ReadString_split _ _ (record_head e) (truncated (Level e)) rest 33); done.
Qed.

Lemma read_body_ok e acc pre :
  (CompressBodies = true -> len (Body e) <= MaxBlockBytes) -> Body acc = [] ->
  read_body (record_flags e) (pre ++ body_enc e) (acc, len pre) =
    Ok (set Body (stored_body e) acc, len (pre ++ body_enc e)).
Proof.
  intros Hb H0. unfold read_body. rewrite record_flags_body. unfold body_enc, stored_body.
  destruct (body_present e) eqn:E.
  2:{ rewrite app_nil_r, <- H0. do 2 f_equal. by destruct acc. }
  assert (is_uint 32 (len (encoded_body e))) as Hu.
  { unfold body_present in E. apply andb_prop in E as [_ E]. apply Z.leb_le in E.
    change maxCompressedBodyBytes with (2 ^ 23) in E. unfold is_uint. len_pose. lia. }
  set (b := encoded_body e) in *. autorewrite with len. len_pose. zcmp.
  rewrite (slice_from_split _ pre (le_bytes 4 (len b) ++ b)) by done.
  cbn [mbind result_bind]. rewrite Uint32_app by done. cbn [mbind result_bind]. zcmp.
  rewrite (slice_split _ (pre ++ le_bytes 4 (len b)) b [])
    by (rewrite ?app_nil_r, <- ?app_assoc; done || len_lia).
  cbn [mbind result_bind]. rewrite record_flags_raw by done.
  assert ((if negb CompressBodies then Ok b else wrap "decompress body" (Decompress b)) =
    Ok (Body e)) as ->.
  { subst b. unfold encoded_body. destruct CompressBodies; [| done]. cbn [negb].
    by rewrite Decompress_Compress by auto. }
  cbn [mbind result_bind]. do 2 f_equal. len_lia.
Qed.

Lemma int64_uint64_id z : is_int64 z -> int64 (uint64 z) = z.
Proof. intros. by rewrite int64_uint64, int64_small. Qed.

Lemma Uint64_uint64 z rest : Uint64 (le_bytes 8 (uint64 z) ++ rest) = Ok (uint64 z).
Proof. apply Uint64_app, uint64_range. Qed.

Lemma head_slices e t :
  let data := record_head e ++ t in
  (exists r, slice_from data 0 = Ok (le_bytes 8 (uint64 (ID e)) ++ r)) /\
  (exists r, slice_from data 8 = Ok (le_bytes 8 (uint64 (Ts e)) ++ r)) /\
  (exists r, slice_from data 16 = Ok (le_bytes 8 (uint64 (ReceivedAt e)) ++ r)) /\
  index8 data 24 = Ok (uint8 (level_byte e)) /\
  (exists r, slice_from data 25 = Ok (le_bytes 8 (record_flags e) ++ r)).
Proof.
  cbn zeta. unfold record_head. set (i := le_bytes 8 (uint64 (ID e))).
  set (s := le_bytes 8 (uint64 (Ts e))). set (r := le_bytes 8 (uint64 (ReceivedAt e))).
  set (f := le_bytes 8 (record_flags e)).
  split; [| split; [| split; [| split]]].
  - eexists. apply (slice_from_split _ []); [by rewrite <- ?app_assoc | done].
  - eexists. apply (slice_from_split _ i); [by rewrite <- ?app_assoc | subst i; len_lia].
  - eexists. apply (slice_from_split _ (i ++ s)); [by rewrite <- ?app_assoc | subst i s; len_lia].
  - unfold index8. rewrite (index_split _ (i ++ s ++ r) (level_byte e) (f ++ t)); [done | |].
    + by rewrite <- ?app_assoc.
    + subst i s r. len_lia.
  - eexists. apply (slice_from_split _ (i ++ s ++ r ++ [level_byte e]));
      [by rewrite <- ?app_assoc | subst i s r; len_lia].
Qed.

Lemma ReadString_framed data pre s rest off :
  data = pre ++ frame (truncated s) ++ rest -> off = len pre ->
  ReadString LenExtended data off = Ok (truncated s, off + len (frame (truncated s))).
Proof.
  intros Hd Ho. destruct (truncated_framable LenExtended s eq_refl) as [H1 H2].
  by rewrite (ReadString_split _ _ pre (truncated s) rest).
Qed.

Lemma UnmarshalEntryInto_record e :
  entry_ok e -> (CompressBodies = true -> len (Body e) <= MaxBlockBytes) ->
  UnmarshalEntryInto (record e) = Ok (stored e).
Proof.
  intros (Hid & Hts & Hra & Hok) Hb. unfold UnmarshalEntryInto.
  pose proof (record_len e) as [Hmin _]. zcmp. clear Hmin. unfold record.
  set (t := level_enc e ++ _).
  destruct (head_slices e t) as ([r1 H1] & [r2 H2] & [r3 H3] & H4 & [r5 H5]).
  rewrite H1. cbn [mbind result_bind]. rewrite Uint64_uint64. cbn [mbind result_bind].
  rewrite H2. cbn [mbind result_bind]. rewrite Uint64_uint64. cbn [mbind result_bind].
  rewrite H3. cbn [mbind result_bind]. rewrite Uint64_uint64. cbn [mbind result_bind].
  rewrite H4. cbn [mbind result_bind]. rewrite H5. cbn [mbind result_bind].
  rewrite Uint64_app by apply record_flags_range. cbn [mbind result_bind].
  clear H1 H2 H3 H4 H5. rewrite !int64_uint64_id by done. subst t.
  rewrite record_flags_extended, read_level_ok. cbn [mbind result_bind].
  pose proof (record_head_len e) as Hh. change minRecordBytes with 33 in Hh.
  rewrite (ReadString_framed _ (record_head e ++ level_enc e) (Service e)
    (frame (truncated (Message e)) ++ field_encs e fields ++ body_enc e))
    by (rewrite <- ?app_assoc; done || len_lia).
  cbn [wrap mbind result_bind].
  rewrite (ReadString_framed _ (record_head e ++ level_enc e ++ frame (truncated (Service e)))
    (Message e) (field_encs e fields ++ body_enc e))
    by (rewrite <- ?app_assoc; done || len_lia).
  cbn [wrap mbind result_bind].
  set (pre := record_head e ++ level_enc e ++ frame (truncated (Service e)) ++
    frame (truncated (Message e))).
  assert (record_head e ++ level_enc e ++ frame (truncated (Service e)) ++
    frame (truncated (Message e)) ++ field_encs e fields ++ body_enc e =
    pre ++ field_encs e fields ++ body_enc e) as -> by (subst pre; by rewrite <- ?app_assoc).
  rewrite read_calls_fields, (run_reads_fields e _ _ pre (body_enc e))
    by (try done; try apply record_flags_fields; subst pre; len_lia).
  cbn [mbind result_bind]. rewrite fields_stored, app_assoc.
  replace (_ + len (field_encs e fields)) with (len (pre ++ field_encs e fields))
    by (subst pre; len_lia).
  rewrite read_body_ok by done. cbn [mbind result_bind]. rewrite Z.eqb_refl. cbn [negb].
  by destruct e.
Qed.

(** ** Arbitrary bytes *)

(** A read keeps the offset within the data and never panics. *)
Lemma run_read_safe f flags data e off c :
  0 <= off <= len data ->
  no_panic (run_read f flags data (e, off) c) /\
  (forall e' off', run_read f flags data (e, off) c = Ok (e', off') -> off <= off' <= len data).
Proof.
  intros Ho. destruct c as [fl dest n | fl dest n | fl dest | fl dest]; cbn [run_read];
    (destruct (has flags fl); [| split; [done | intros ? ? [= <- <-]; lia]]).
  - split.
    + apply no_panic_bind; [apply no_panic_wrap, ReadString_no_panic; lia | by intros []].
    + intros e' off' ([v o] & Hr%wrap_ok_inv%ReadString_bounds & [= <- <-])%bind_ok_inv. lia.
  - rewrite slice_from_ok by lia. cbn [mbind result_bind].
    destruct (Uvarint _) as [v n'] eqn:E. apply Uvarint_bound in E. rewrite len_drop in E by lia.
    destruct (Z.leb_spec n' 0); [done |]. split; [done |]. intros ? ? [= <- <-]. lia.
  - destruct (Z.ltb_spec (len data) (off + 2)); [done |].
    rewrite slice_from_ok by lia. cbn [mbind result_bind]. split.
    + apply no_panic_bind; [apply le_uint_no_panic; rewrite len_drop; lia | done].
    + intros ? ? (v & _ & [= <- <-])%bind_ok_inv. lia.
  - destruct (Z.leb_spec (len data) off); [done |]. unfold index8.
    destruct (index_ok data off) as (x & -> & _); [lia |]. cbn [fmap result_fmap mbind result_bind].
    split; [done |]. intros ? ? [= <- <-]. lia.
Qed.

Lemma run_reads_safe f flags data cs e off :
  0 <= off <= len data ->
  no_panic (run_reads f flags data (e, off) cs) /\
  (forall e' off', run_reads f flags data (e, off) cs = Ok (e', off') -> off <= off' <= len data).
Proof.
  revert e off. induction cs as [| c cs IH]; intros e off Ho; cbn [run_reads].
  { split; [done |]. intros ? ? [= <- <-]. lia. }
  destruct (run_read_safe f flags data e off c Ho) as [Hp Hb]. split.
  - apply no_panic_bind; [done |]. intros [e' o'] Hr%Hb. apply IH. lia.
  - intros e' off' ([e1 o1] & Hr%Hb & H)%bind_ok_inv. apply IH in H; lia.
Qed.

Lemma read_body_no_panic flags data e off :
  0 <= off <= len data -> no_panic (read_body flags data (e, off)).
Proof.
  intros Ho. unfold read_body. destruct (has flags FlagBody); [| done].
  destruct (Z.ltb_spec (len data) (off + 4)); [done |].
  rewrite slice_from_ok by lia. cbn [mbind result_bind].
  apply no_panic_bind; [apply le_uint_no_panic; rewrite len_drop; lia |].
  intros k Hk%le_uint_range. destruct (Z.ltb_spec (len data) (off + 4 + k)); [done |].
  rewrite slice_ok by lia. cbn [mbind result_bind]. apply no_panic_bind; [| done].
  destruct (has flags FlagRawBody); [done |]. apply no_panic_wrap, DecompressBounded_no_panic.
Qed.

Lemma read_level_safe f flags l data :
  0 <= l -> 33 <= len data ->
  no_panic (read_level f flags l data 33) /\
  (forall v off, read_level f flags l data 33 = Ok (v, off) -> 33 <= off <= len data).
Proof.
  intros Hl Hd. unfold read_level. destruct (_ && _).
  { split; [apply no_panic_wrap, ReadString_no_panic; lia |].
    intros v off H%wrap_ok_inv%ReadString_bounds. lia. }
  destruct (Z.ltb_spec l (len enumToLevel)).
  - rewrite index_enum by lia. split; [done |]. intros ? ? [= <- <-]. lia.
  - split; [done |]. intros ? ? [= <- <-]. lia.
Qed.

Lemma UnmarshalEntryInto_no_panic data : no_panic (UnmarshalEntryInto data).
Proof.
  unfold UnmarshalEntryInto, minRecordBytes.
  destruct (Z.ltb_spec (len data) 33) as [| Hmin]; [done |].
  assert (forall i, 0 <= i <= 25 -> no_panic (slice_from data i ≫= Uint64)) as Hu.
  { intros i Hi. rewrite slice_from_ok by lia. apply le_uint_no_panic. rewrite len_drop; lia. }
  do 3 (apply no_panic_bind; [apply slice_from_no_panic; lia |]; intros ? Hs;
    apply no_panic_bind; [rewrite slice_from_ok in Hs by lia; injection Hs as <-;
      apply le_uint_no_panic; rewrite len_drop; lia |]; intros ? _; clear Hs).
  unfold index8. destruct (index_ok data 24) as (x & -> & _); [lia |].
  cbn [fmap result_fmap mbind result_bind].
  rewrite slice_from_ok by lia. cbn [mbind result_bind].
  apply no_panic_bind; [apply le_uint_no_panic; rewrite len_drop; lia |]. intros flags _.
  set (f := if has flags FlagExtendedStrings then _ else _).
  destruct (read_level_safe f flags (uint8 x) data) as [Hp Hb];
    [apply Z.mod_pos_bound; lia | lia |].
  apply no_panic_bind; [done |]. intros [lv o1] H1%Hb.
  apply no_panic_bind; [apply no_panic_wrap, ReadString_no_panic; lia |].
  intros [sv o2] H2%wrap_ok_inv%ReadString_bounds.
  apply no_panic_bind; [apply no_panic_wrap, ReadString_no_panic; lia |].
  intros [mv o3] H3%wrap_ok_inv%ReadString_bounds.
  match goal with |- context [run_reads ?a ?b ?c (?d, ?e) ?g] =>
    destruct (run_reads_safe a b c g d e) as [Hp' Hb']; [lia |] end.
  apply no_panic_bind; [done |]. intros [e4 o4] H4%Hb'.
  apply no_panic_bind; [apply read_body_no_panic; lia |]. intros [e5 o5] _. by destruct (negb _).
Qed.

(** ** Replaying a file *)

Lemma ReadFull_app l rest err n :
  n = len l -> ReadFull (mkReader (l ++ rest) err) n = (mkReader rest err, inl l).
Proof.
  intros ->. unfold ReadFull. cbn [rd_data rd_err]. rewrite len_app. len_pose. zcmp.
  by rewrite drop_len_app, to_nat_len, take_app_length.
Qed.

Lemma Next_framed e rest err consumed :
  entry_ok e -> (CompressBodies = true -> len (Body e) <= MaxBlockBytes) ->
  Next (mkScanner (mkReader (framed e ++ rest) err) consumed None) =
    Ok (mkScanner (mkReader rest err) (consumed + len (framed e)) None, Some (stored e)).
Proof.
  intros He Hb. unfold Next, framed. cbn [sc_err sc_r sc_consumed]. rewrite <- app_assoc.
  rewrite ReadFull_app by (by rewrite len_le_bytes).
  pose proof (record_len e) as [Hmin Hmax].
  rewrite <- (app_nil_r (le_bytes 4 (len (record e)))), Uint32_app by apply record_u32.
  cbn [mbind result_bind]. zcmp. rewrite ReadFull_app by done.
  rewrite UnmarshalEntryInto_record by done. rewrite app_nil_r, len_app, len_le_bytes. done.
Qed.

Lemma Next_no_panic s : no_panic (Next s).
Proof.
  unfold Next. destruct (sc_err s); [done |].
  destruct (ReadFull (sc_r s) 4) as [r [b | err]] eqn:E; [| done].
  apply no_panic_bind.
  { apply le_uint_no_panic. unfold ReadFull in E.
    destruct (Z.leb_spec 4 (len (rd_data (sc_r s)))); [| done].
    injection E as _ <-. rewrite len_take; lia. }
  intros n _. destruct (_ || _); [done |].
  destruct (ReadFull r n) as [r' [b' | err]]; [| done].
  pose proof (UnmarshalEntryInto_no_panic b'). by destruct (UnmarshalEntryInto b').
Qed.

Lemma read_entries_loop_no_panic n s acc : no_panic (read_entries_loop n s acc).
Proof.
  revert s acc. induction n as [| n IH]; intros s acc; [done |]. cbn [read_entries_loop].
  apply no_panic_bind; [apply Next_no_panic |]. intros [s' [e |]] _; [apply IH | done].
Qed.

Lemma ReadFull_torn d err n :
  len d < n -> exists e, ReadFull (mkReader d err) n = (mkReader [] err, inr e) /\
    (d = [] -> e = err) /\ (d <> [] -> err = EOF -> e = ErrUnexpectedEOF).
Proof.
  intros H. unfold ReadFull. cbn [rd_data rd_err]. zcmp. eexists. split; [done |]. split.
  - intros ->. done.
  - intros Hd ->. by rewrite !bool_decide_eq_true_2.
Qed.

Lemma prefix_of_app_cases (torn a b : bytes) :
  torn `prefix_of` a ++ b -> torn <> a ++ b ->
  (torn `prefix_of` a /\ torn <> a) \/ (exists t, torn = a ++ t /\ t `prefix_of` b /\ t <> b).
Proof.
  intros [k Hk] Hne. symmetry in Hk. apply app_eq_inv in Hk as [(m & -> & ->) | (m & -> & ->)].
  - right. exists m. split_and!; [done | by exists k | intros E; apply Hne; by rewrite <- E].
  - destruct m as [| x m].
    + right. exists []. split_and!; [by rewrite !app_nil_r | apply prefix_nil |].
      intros E. apply Hne. by rewrite <- E, !app_nil_r.
    + left. split; [by exists (x :: m) |]. intros H.
      apply (f_equal length) in H. rewrite length_app in H. cbn in H. lia.
Qed.

(** A torn record stops the scan without moving the offset. *)
Lemma Next_torn e torn consumed :
  torn `prefix_of` framed e -> torn <> framed e ->
  exists err, Next (mkScanner (mkReader torn EOF) consumed None) =
      Ok (mkScanner (mkReader [] EOF) consumed err, None) /\ (err = None <-> torn = []).
Proof.
  intros Hp Hne. unfold Next. cbn [sc_err sc_r sc_consumed].
  destruct (prefix_of_app_cases _ _ _ Hp Hne) as [[Hp' Hne'] | (t & -> & Ht & Htne)].
  - assert (len torn < 4).
    { destruct Hp' as [k Hk]. pose proof (f_equal len Hk) as Hl. autorewrite with len in Hl.
      destruct k; [by rewrite app_nil_r in Hk |]. rewrite len_cons in Hl. len_pose. lia. }
    destruct (ReadFull_torn torn EOF 4 ltac:(done)) as (er & -> & H1 & H2).
    eexists. split; [done |]. destruct (decide (torn = [])) as [-> |].
    + rewrite H1 by done. by rewrite bool_decide_eq_true_2.
    + rewrite H2 by done. by rewrite bool_decide_eq_false_2.
  - rewrite ReadFull_app by (by rewrite len_le_bytes).
    pose proof (record_len e) as [Hmin Hmax].
    rewrite <- (app_nil_r (le_bytes 4 (len (record e)))), Uint32_app by apply record_u32.
    cbn [mbind result_bind]. zcmp. assert (len t < len (record e)).
    { destruct Ht as [k Hk]. pose proof (f_equal len Hk) as Hl. autorewrite with len in Hl.
      destruct k; [by rewrite app_nil_r in Hk |]. rewrite len_cons in Hl. len_pose. lia. }
    destruct (ReadFull_torn t EOF (len (record e)) ltac:(done)) as (er & -> & _ & _).
    eexists. split; [done |]. split; [done |]. intros H'. apply (f_equal len) in H'.
    autorewrite with len in H'. len_pose. lia.
Qed.

Lemma read_entries_loop_replay es e torn consumed acc fuel :
  Forall entry_ok es -> Forall (fun e => CompressBodies = true -> len (Body e) <= MaxBlockBytes) es ->
  torn `prefix_of` framed e -> torn <> framed e -> (length es < fuel)%nat ->
  exists err, read_entries_loop fuel
      (mkScanner (mkReader ((es ≫= framed) ++ torn) EOF) consumed None) acc =
    Ok (mkScanner (mkReader [] EOF) (consumed + len (es ≫= framed)) err,
        acc ++ (stored <$> es)) /\ (err = None <-> torn = []).
Proof.
  intros Hok. revert consumed acc fuel.
  induction Hok as [| x es Hx Hok IH]; intros consumed acc fuel Hbs Hp Hne Hf;
    (destruct fuel as [| fuel]; [cbn in Hf; lia |]); cbn [read_entries_loop].
  - destruct (Next_torn e torn consumed Hp Hne) as (err & H & Hiff).
    cbn [mbind list_bind app]. rewrite H. cbn [mbind result_bind].
    rewrite len_nil, Z.add_0_r, app_nil_r. eauto.
  - inversion Hbs as [| ? ? Hb Hbs']; subst. rewrite bind_cons, <- app_assoc.
    rewrite Next_framed by done. cbn [mbind result_bind].
    destruct (IH (consumed + len (framed x)) (acc ++ [stored x]) fuel) as (err & H & Hiff);
      [done | done | done | cbn in Hf; lia |].
    rewrite H. exists err. split; [| done].
    rewrite fmap_cons, len_app, <- app_assoc. do 3 f_equal. lia.
Qed.

Lemma framed_len e : 37 <= len (framed e).
Proof.
  unfold framed. rewrite len_app, len_le_bytes. pose proof (record_len e) as [H _].
  change minRecordBytes with 33 in H. lia.
Qed.

Lemma bind_framed_length es : (length es <= length (es ≫= framed))%nat.
Proof.
  induction es as [| e es IH]; [done |]. rewrite bind_cons, length_app. cbn [length].
  pose proof (framed_len e). unfold len in *. lia.
Qed.

(** ** Resuming a scan at its offset *)

Lemma ReadFull_inl d err n r b :
  0 <= n -> ReadFull (mkReader d err) n = (r, inl b) ->
  n <= len d /\ r = mkReader (drop (Z.to_nat n) d) err /\ b = take (Z.to_nat n) d /\
  forall ext, ReadFull (mkReader (b ++ ext) err) n = (mkReader ext err, inl b).
Proof.
  intros Hn. unfold ReadFull. cbn [rd_data rd_err]. destruct (Z.leb_spec n (len d)); [| done].
  intros [= <- <-]. split_and!; try done. intros ext. rewrite len_app, len_take by done. len_pose. zcmp.
  assert (length (take (Z.to_nat n) d) = Z.to_nat n) as Hl.
  { rewrite length_take. unfold len in *. lia. }
  rewrite drop_app_length', take_app_length' by done. done.
Qed.

Lemma Next_success d err c s' e :
  Next (mkScanner (mkReader d err) c None) = Ok (s', Some e) ->
  exists k, 37 <= k <= len d /\
    s' = mkScanner (mkReader (drop (Z.to_nat k) d) err) (c + k) None /\
    forall ext c', Next (mkScanner (mkReader (take (Z.to_nat k) d ++ ext) err) c' None) =
      Ok (mkScanner (mkReader ext err) (c' + k) None, Some e).
Proof.
  unfold Next. cbn [sc_err sc_r sc_consumed].
  destruct (ReadFull (mkReader d err) 4) as [r [b | er]] eqn:E1; [| done].
  apply ReadFull_inl in E1 as (H4 & -> & Hb & X1); [| done].
  intros (n & Hn & H)%bind_ok_inv. pose proof (le_uint_range _ _ _ Hn) as Hr.
  destruct (_ || _) eqn:Eb; [done |].
  apply orb_false_iff in Eb as [Hmin%Z.ltb_ge Hmax%Z.ltb_ge]. change minRecordBytes with 33 in Hmin.
  destruct (ReadFull _ n) as [r2 [b2 | er]] eqn:E2; [| done].
  apply ReadFull_inl in E2 as (Hn2 & -> & Hb2 & X2); [| lia].
  destruct (UnmarshalEntryInto b2) as [e' | |] eqn:Eu; [| done | done].
  injection H as <- <-. rewrite len_drop in Hn2 by lia.
  assert (drop (Z.to_nat n) (drop (Z.to_nat 4) d) = drop (Z.to_nat (4 + n)) d) as Hdd.
  { rewrite drop_drop. f_equal. lia. }
  exists (4 + n). rewrite Hdd. split; [lia |]. split; [done |].
  assert (take (Z.to_nat (4 + n)) d = b ++ b2) as ->.
  { rewrite Hb, Hb2. rewrite <- (take_drop (Z.to_nat 4) d) at 1. rewrite take_app_ge.
    - f_equal. f_equal. rewrite length_take. unfold len in *. lia.
    - rewrite length_take. unfold len in *. lia. }
  intros ext c'. rewrite <- app_assoc, X1, Hn. cbn [mbind result_bind].
  rewrite (proj2 (Z.ltb_ge n minRecordBytes)) by (change minRecordBytes with 33; lia).
  rewrite (proj2 (Z.ltb_ge maxRecordBytes n)) by done. cbn [orb].
  by rewrite X2, Eu.
Qed.

Lemma read_entries_loop_fuel n m d err c acc :
  (length d < n)%nat -> (length d < m)%nat ->
  read_entries_loop n (mkScanner (mkReader d err) c None) acc =
  read_entries_loop m (mkScanner (mkReader d err) c None) acc.
Proof.
  revert m d c acc. induction n as [| n IH]; intros m d c acc Hn Hm; [lia |].
  destruct m as [| m]; [lia |]. cbn [read_entries_loop].
  destruct (Next _) as [[s' [e |]] | |] eqn:E; [| done | done | done].
  apply Next_success in E as (k & Hk & -> & _). cbn [mbind result_bind].
  unfold len in Hk. apply IH; rewrite length_drop; lia.
Qed.

Lemma read_entries_loop_resume n d err c acc s' es' :
  (length d < n)%nat ->
  read_entries_loop n (mkScanner (mkReader d err) c None) acc = Ok (s', es') ->
  exists k es, es' = acc ++ es /\ sc_consumed s' = c + k /\ 0 <= k <= len d /\
    forall ext c' acc' m m', (length (take (Z.to_nat k) d ++ ext) < m)%nat -> (length ext < m')%nat ->
      read_entries_loop m (mkScanner (mkReader (take (Z.to_nat k) d ++ ext) err) c' None) acc' =
      read_entries_loop m' (mkScanner (mkReader ext err) (c' + k) None) (acc' ++ es).
Proof.
  revert d c acc. induction n as [| n IH]; intros d c acc Hn; [lia |]. cbn [read_entries_loop].
  intros ([s1 [e |]] & H1 & H2)%bind_ok_inv.
  - apply Next_success in H1 as (k1 & Hk1 & -> & X). unfold len in Hk1.
    apply IH in H2 as (k & es & -> & Hc & Hk & Y); [| rewrite length_drop; lia].
    unfold len in Hk. rewrite length_drop in Hk.
    assert (take (Z.to_nat (k1 + k)) d = take (Z.to_nat k1) d ++ take (Z.to_nat k) (drop (Z.to_nat k1) d)) as Hdd.
    { rewrite <- (take_drop (Z.to_nat k1) d) at 1. rewrite take_app_ge by (rewrite length_take; lia).
      do 2 f_equal. rewrite length_take. lia. }
    exists (k1 + k), (e :: es). rewrite <- app_assoc. cbn [app].
    split; [done |]. split; [lia |]. split; [unfold len; lia |].
    intros ext c' acc' m m' Hm Hm'. destruct m as [| m]; [lia |].
    cbn [read_entries_loop]. rewrite Hdd, <- app_assoc in *. rewrite X. cbn [mbind result_bind].
    assert (length (take (Z.to_nat k1) d) = Z.to_nat k1) as Hl by (rewrite length_take; lia).
    rewrite length_app, Hl in Hm.
    rewrite (Y ext (c' + k1) (acc' ++ [e]) m m') by lia.
    by rewrite <- app_assoc, Z.add_assoc.
  - injection H2 as <- <-. exists 0, []. rewrite app_nil_r. len_pose.
    assert (sc_consumed s1 = c) as ->.
    { unfold Next in H1. cbn [sc_err sc_r sc_consumed] in H1.
      destruct (ReadFull _ 4) as [r [b | er]]; [| by injection H1 as <-].
      apply bind_ok_inv in H1 as (k & _ & H1). destruct (_ || _); [by injection H1 as <- |].
      destruct (ReadFull r k) as [r2 [b2 | er]]; [| by injection H1 as <-].
      destruct (UnmarshalEntryInto b2); [done | by injection H1 as <- | done]. }
    split; [done |]. split; [lia |]. split; [lia |]. intros ext c' acc' m m' Hm Hm'.
    rewrite app_nil_r, Z.add_0_r. cbn [Z.to_nat drop].
    apply read_entries_loop_fuel; done.
Qed.

(** ** Batches *)

(** A batch takes the records that fit, whatever follows them. *)
Lemma next_batch_loop_full es rest err c dst cap max fuel :
  Forall entry_ok es -> Forall (fun e => CompressBodies = true -> len (Body e) <= MaxBlockBytes) es ->
  len dst + len es = max -> max <= cap -> (length es <= fuel)%nat ->
  next_batch_loop fuel (mkScanner (mkReader ((es ≫= framed) ++ rest) err) c None) dst cap max =
    Ok (mkScanner (mkReader rest err) (c + len (es ≫= framed)) None, dst ++ (stored <$> es)).
Proof.
  intros Hok. revert c dst fuel.
  induction Hok as [| x es Hx Hok IH]; intros c dst fuel Hbs Hlen Hcap Hf.
  - rewrite len_nil in Hlen. cbn [mbind list_bind app]. rewrite len_nil, Z.add_0_r, app_nil_r.
    destruct fuel; cbn [next_batch_loop]; [done |]. by zcmp.
  - inversion Hbs as [| ? ? Hb Hbs']; subst. rewrite len_cons in *. len_pose.
    destruct fuel as [| fuel]; [cbn in Hf; lia |]. cbn [next_batch_loop]. zcmp.
    rewrite bind_cons, <- app_assoc, Next_framed by done. cbn [mbind result_bind].
    rewrite IH; [| done | rewrite len_app, len_cons, len_nil; lia | lia | cbn in Hf; lia].
    rewrite fmap_cons, <- app_assoc, len_app. do 3 f_equal. lia.
Qed.

(** The last batch of a file stops at its torn tail. *)
Lemma next_batch_loop_last es e torn c dst cap max fuel :
  Forall entry_ok es -> Forall (fun e => CompressBodies = true -> len (Body e) <= MaxBlockBytes) es ->
  torn `prefix_of` framed e -> torn <> framed e ->
  len dst + len es < max -> max <= cap -> (length es < fuel)%nat ->
  exists err, next_batch_loop fuel
      (mkScanner (mkReader ((es ≫= framed) ++ torn) EOF) c None) dst cap max =
    Ok (mkScanner (mkReader [] EOF) (c + len (es ≫= framed)) err, dst ++ (stored <$> es)) /\
    (err = None <-> torn = []).
Proof.
  intros Hok. revert c dst fuel.
  induction Hok as [| x es Hx Hok IH]; intros c dst fuel Hbs Hp Hne Hlen Hcap Hf;
    (destruct fuel as [| fuel]; [cbn in Hf; lia |]); cbn [next_batch_loop].
  - rewrite len_nil in Hlen. zcmp. destruct (Next_torn e torn c Hp Hne) as (err & H & Hiff).
    cbn [mbind list_bind app]. rewrite H. cbn [mbind result_bind].
    rewrite len_nil, Z.add_0_r, app_nil_r. eauto.
  - inversion Hbs as [| ? ? Hb Hbs']; subst. rewrite len_cons in *. len_pose. zcmp.
    rewrite bind_cons, <- app_assoc, Next_framed by done. cbn [mbind result_bind].
    destruct (IH (c + len (framed x)) (dst ++ [stored x]) fuel) as (err & Hn & Hiff);
      [done | done | done | rewrite len_app, len_cons, len_nil; lia | done | cbn in Hf; lia |].
    rewrite Hn. exists err. split; [| done].
    rewrite fmap_cons, len_app, <- app_assoc. do 3 f_equal. lia.
Qed.

End WalLemmas.

#[export] Hint Resolve UnmarshalEntryInto_no_panic Next_no_panic read_entries_loop_no_panic : go.

(** Replaying from another offset and another prefix of entries shifts both. *)
Lemma Next_shift {C : Zstd} r c k s o :
  Next (mkScanner r c None) = Ok (s, o) ->
  Next (mkScanner r (k + c) None) = Ok (mkScanner (sc_r s) (k + sc_consumed s) (sc_err s), o).
Proof.
  unfold Next. cbn [sc_err sc_r sc_consumed]. destruct (ReadFull r 4) as [r1 [b | er]].
  - intros (n & -> & H)%bind_ok_inv. cbn [mbind result_bind]. destruct (_ || _).
    { by injection H as <- <-. }
    destruct (ReadFull r1 n) as [r2 [b2 | er]]; [| by injection H as <- <-].
    destruct (UnmarshalEntryInto b2); [| by injection H as <- <- | done].
    injection H as <- <-. cbn [sc_r sc_consumed sc_err]. do 3 f_equal. lia.
  - by intros [= <- <-].
Qed.

Lemma read_entries_loop_shift {C : Zstd} n r c k acc acc0 s out :
  read_entries_loop n (mkScanner r c None) acc = Ok (s, out) ->
  read_entries_loop n (mkScanner r (k + c) None) (acc0 ++ acc) =
    Ok (mkScanner (sc_r s) (k + sc_consumed s) (sc_err s), acc0 ++ out).
Proof.
  revert r c acc. induction n as [| n IH]; intros r c acc; cbn [read_entries_loop].
  { by intros [= <- <-]. }
  intros ([s1 o] & H1 & H2)%bind_ok_inv. pose proof (Next_shift r c k s1 o H1) as ->.
  cbn [mbind result_bind]. destruct o as [e |]; [| by injection H2 as <- <-].
  destruct r as [d err]. apply Next_success in H1 as (j & _ & -> & _).
  cbn [sc_r sc_consumed sc_err]. rewrite <- app_assoc. by apply IH.
Qed.

(** The bytes [p] are whole records that parse to [es], whatever follows them. *)
Definition parses {C : Zstd} (err : gerror) (p : bytes) (es : list Entry) : Prop :=
  forall ext es' c' e',
    ReadEntriesFrom (mkReader ext err) = Ok (es', c', e') ->
    ReadEntriesFrom (mkReader (p ++ ext) err) = Ok (es ++ es', len p + c', e').

Lemma parses_nil {C : Zstd} err : parses err [] [].
Proof. intros ext es' c' e' H. exact H. Qed.

Lemma parses_app {C : Zstd} err p q es1 es2 :
  parses err p es1 -> parses err q es2 -> parses err (p ++ q) (es1 ++ es2).
Proof.
  intros Hp Hq ext es' c' e' H. rewrite <- !app_assoc, len_app, <- Z.add_assoc.
  apply Hp. by apply Hq.
Qed.

(** What a replay consumed parses to what it returned. *)
Lemma replay_parses {C : Zstd} d err es c e :
  ReadEntriesFrom (mkReader d err) = Ok (es, c, e) ->
  0 <= c <= len d /\ parses err (take (Z.to_nat c) d) es.
Proof.
  unfold ReadEntriesFrom, NewScanner. cbn [rd_data].
  intros ([s out] & Hl & [= -> <- <-])%bind_ok_inv.
  apply read_entries_loop_resume in Hl as (k & es0 & -> & Hc & Hk & Hres); [| lia].
  cbn [app] in *. rewrite Z.add_0_l in Hc. rewrite Hc. split; [done |].
  unfold parses, ReadEntriesFrom, NewScanner. cbn [rd_data].
  intros ext es' c' e' ([s' out'] & Hl' & [= -> <- <-])%bind_ok_inv.
  rewrite (Hres ext 0 [] _ (S (length ext))) by lia. rewrite Z.add_0_l. cbn [app].
  apply (read_entries_loop_shift _ _ _ k [] es0) in Hl'. rewrite app_nil_r, Z.add_0_r in Hl'.
  rewrite Hl'. cbn [mbind result_bind sc_consumed sc_err]. by rewrite len_take.
Qed.

(** ** Properties *)

Section WalProperties.
Context {C : Zstd} {L : ZstdLaws C}.
Context (CompressBodies : bool).

(** C13: Appending an entry to a buffer adds one length-prefixed record, whose
    payload stays within the scanner's limits, and decoding the payload gives
    the stored form of the entry: every flag, every field and the body. *)
Theorem record_roundtrip (buf : bytes) (e : Entry) :
  entry_ok e -> (CompressBodies = true -> len (Body e) <= MaxBlockBytes) ->
  exists payload,
    AppendEntry CompressBodies buf e = Ok (buf ++ le_bytes 4 (len payload) ++ payload) /\
    minRecordBytes <= len payload <= maxRecordBytes /\
    UnmarshalEntryInto payload = Ok (stored CompressBodies e).
Proof.
  intros He Hb. exists (record CompressBodies e).
  split; [by apply AppendEntry_ok | split; [apply record_len |]].
  by apply UnmarshalEntryInto_record.
Qed.

(** C3: Replaying a file of appended records followed by a torn one yields the
    stored entries in order, reports the offset after the last whole record, and
    reports an error exactly when there is a torn tail. *)
Theorem replay_recovers (es : list Entry) (last_e : Entry) (torn : bytes) :
  Forall entry_ok es ->
  Forall (fun e => CompressBodies = true -> len (Body e) <= MaxBlockBytes) es ->
  torn `prefix_of` framed CompressBodies last_e -> torn <> framed CompressBodies last_e ->
  exists err, ReadEntriesFrom (mkReader ((es ≫= framed CompressBodies) ++ torn) EOF) =
    Ok (stored CompressBodies <$> es, len (es ≫= framed CompressBodies), err) /\
    (err = None <-> torn = []).
Proof.
  intros Hok Hb Hp Hne. unfold ReadEntriesFrom, NewScanner. cbn [rd_data].
  destruct (read_entries_loop_replay CompressBodies es last_e torn 0 []
    (S (length ((es ≫= framed CompressBodies) ++ torn)))) as (err & -> & Hiff); try done.
  { rewrite length_app. pose proof (bind_framed_length CompressBodies es). lia. }
  exists err. split; [| done]. cbn [mbind result_bind sc_consumed sc_err app]. by rewrite Z.add_0_l.
Qed.

(** Decoding arbitrary bytes as a record, and replaying an arbitrary file
    with an arbitrary read error at its end, never panics. *)
Theorem replay_never_panics (data : bytes) (r : reader) :
  no_panic (UnmarshalEntryInto data) /\ no_panic (ReadEntriesFrom r).
Proof.
  split; [apply UnmarshalEntryInto_no_panic |]. unfold ReadEntriesFrom.
  apply no_panic_bind; [apply read_entries_loop_no_panic | by intros []].
Qed.

(** A replay stops at an offset within the file from which it can be resumed:
    for every later extension of the file, replaying the whole file gives the
    entries already read followed by those of a replay from the offset. *)
Theorem replay_resumes (d : bytes) (err : gerror) (es : list Entry) (c : Z) (e : option gerror) :
  ReadEntriesFrom (mkReader d err) = Ok (es, c, e) ->
  0 <= c <= len d /\
  forall ext es' c' e',
    ReadEntriesFrom (mkReader (drop (Z.to_nat c) d ++ ext) err) = Ok (es', c', e') ->
    ReadEntriesFrom (mkReader (d ++ ext) err) = Ok (es ++ es', c + c', e').
Proof.
  intros [Hc Hp]%replay_parses. split; [done |]. intros ext es' c' e' H.
  rewrite <- (take_drop (Z.to_nat c) d) at 1. rewrite <- app_assoc.
  rewrite (Hp _ _ _ _ H). by rewrite len_take.
Qed.

End WalProperties.
(** A small entry for the examples. *)
Definition sample_entry : Entry :=
  set Level (str "warning") (set Service (str "api") (set Message (str "slow query")
    (set Env (str "prod") (set Status 503 (set DurationMs 250 (set NPlusOne (Some true)
      (set Body (str "{}") (set ID 4294967299 (set Ts 1700000000000 Entry0))))))))).

Lemma sample_entry_ok : entry_ok sample_entry.
Proof. unfold entry_ok. split_and!; try done. repeat constructor; done. Qed.

Lemma record_roundtrip_witness :
  exists payload,
    AppendEntry (C := stored_codec) true [7] sample_entry =
      Ok ([7] ++ le_bytes 4 (len payload) ++ payload) /\
    minRecordBytes <= len payload <= maxRecordBytes /\
    UnmarshalEntryInto (C := stored_codec) payload = Ok (stored (C := stored_codec) true sample_entry).
Proof.
  apply (record_roundtrip (C := stored_codec) true [7] sample_entry); [apply sample_entry_ok | done].
Defined.

Lemma replay_recovers_witness :
  exists err,
    ReadEntriesFrom (C := stored_codec)
      (mkReader (([sample_entry; sample_entry] ≫= framed (C := stored_codec) true) ++
                 take 9 (framed (C := stored_codec) true sample_entry)) EOF) =
      Ok (stored (C := stored_codec) true <$> [sample_entry; sample_entry],
          len ([sample_entry; sample_entry] ≫= framed (C := stored_codec) true), err) /\
    (err = None <-> take 9 (framed (C := stored_codec) true sample_entry) = []).
Proof.
  apply (replay_recovers (C := stored_codec) true [sample_entry; sample_entry] sample_entry);
    [repeat constructor; apply sample_entry_ok | repeat constructor; done | apply prefix_take |].
  vm_compute. discriminate.
Defined.

Lemma replay_resumes_witness :
  0 <= 0 <= len [1; 2] /\
  forall ext es' c' e',
    ReadEntriesFrom (C := stored_codec) (mkReader (drop (Z.to_nat 0) [1; 2] ++ ext) EOF) =
      Ok (es', c', e') ->
    ReadEntriesFrom (C := stored_codec) (mkReader ([1; 2] ++ ext) EOF) = Ok ([] ++ es', 0 + c', e').
Proof.
  apply (replay_resumes (C := stored_codec) [1; 2] EOF [] 0
    (Some (Wrapf "read entry length" ErrUnexpectedEOF))). reflexivity.
Defined.
