(* ===== verification/Strconv.v ===== *)
(** * Decimal conversion (Go's fmt %d and strconv.Atoi)

    The standard-library conversions the log store applies to HTTP status codes
    and to query parameters.  Digits are ASCII bytes. *)

From stdpp Require Import base list gmap strings numbers sorting.
From Stdlib Require Import ZArith Lia.
From S2P Require Import Prelude.

(** The digits of a non-negative number, least significant last; an [int] has at
    most 19 of them. *)
Fixpoint digits (fuel : nat) (n : Z) (acc : bytes) : bytes :=
  match fuel with
  | O => acc
  | S fuel =>
      let acc := 48 + n mod 10 :: acc in
      if n <? 10 then acc else digits fuel (n / 10) acc
  end.

(** [fmt.Sprintf("%d", n)] *)
Definition Itoa (n : Z) : bytes :=
  if n <? 0 then 45 :: digits 20 (- n) [] else digits 20 n [].

Definition is_digit (b : Z) : bool := (48 <=? b) && (b <=? 57).

Fixpoint parse_digits (s : bytes) (acc : Z) : option Z :=
  match s with
  | [] => Some acc
  | b :: s => if is_digit b then parse_digits s (acc * 10 + (b - 48)) else None
  end.

(** [strconv.Atoi]: [None] is a non-nil error (syntax or range). *)
Definition Atoi (s : bytes) : option Z :=
  let '(neg, body) :=
    match s with
    | b :: rest => if b =? 45 then (true, rest) else if b =? 43 then (false, rest) else (false, s)
    | [] => (false, s)
    end in
  match body with
  | [] => None
  | _ :: _ =>
      match parse_digits body 0 with
      | None => None
      | Some n =>
          let n := if neg : bool then - n else n in
          if (- 2 ^ 63 <=? n) && (n <? 2 ^ 63) then Some n else None
      end
  end.

Lemma parse_digits_app s t acc :
  parse_digits (s ++ t) acc = parse_digits s acc ≫= parse_digits t.
Proof.
  revert acc. induction s as [| b s IH]; intros acc; [done |]. cbn [parse_digits app].
  by destruct (is_digit b).
Qed.

(** Parsing the digits put in front of [acc]. *)
Lemma parse_digits_digits fuel n t :
  0 <= n < 10 ^ Z.of_nat fuel ->
  exists d ds, digits fuel n t = (d :: ds) ++ t /\ is_digit d = true /\
    parse_digits (d :: ds) 0 = Some n \/ fuel = O.
Proof.
  revert n t. induction fuel as [| fuel IH]; intros n t Hn.
  { exists 0, []. by right. }
  pose proof (Z.mod_pos_bound n 10 ltac:(lia)) as Hm.
  assert (is_digit (48 + n mod 10) = true) as Hd.
  { unfold is_digit. by zcmp. }
  cbn [digits]. destruct (Z.ltb_spec n 10).
  - exists (48 + n mod 10), []. left. split_and!; [done | done |].
    cbn [parse_digits]. rewrite Hd. f_equal. rewrite Z.mod_small by lia. lia.
  - assert (0 <= n / 10 < 10 ^ Z.of_nat fuel) as Hq.
    { split; [apply Z.div_pos; lia |]. apply Z.div_lt_upper_bound; [lia |].
      replace (Z.of_nat (S fuel)) with (1 + Z.of_nat fuel) in Hn by lia.
      rewrite Z.pow_add_r in Hn by lia. lia. }
    destruct (IH (n / 10) (48 + n mod 10 :: t) Hq) as (d & ds & [(He & Hd' & Hp) | ->]).
    + exists d, (ds ++ [48 + n mod 10]). left. split_and!; [| done |].
      * rewrite He. cbn. by rewrite <- app_assoc.
      * rewrite app_comm_cons, parse_digits_app, Hp. cbn [mbind option_bind parse_digits].
        rewrite Hd. f_equal. pose proof (Z.div_mod n 10). lia.
    + cbn in Hn. lia.
Qed.

Lemma Atoi_Itoa n : 0 <= n < 2 ^ 63 -> Atoi (Itoa n) = Some n.
Proof.
  intros Hn. unfold Itoa. zcmp.
  destruct (parse_digits_digits 20 n []) as (d & ds & [(-> & Hd & Hp) | H]); [cbn; lia | | done].
  rewrite app_nil_r. unfold Atoi. unfold is_digit in Hd.
  apply andb_prop in Hd as [H1%Z.leb_le H2%Z.leb_le]. zcmp. rewrite Hp. by zcmp.
Qed.

Lemma Itoa_nonempty n : 0 <= n < 2 ^ 63 -> Itoa n <> [].
Proof. intros Hn H. apply Atoi_Itoa in Hn. by rewrite H in Hn. Qed.

Lemma digits_len fuel n t : len (digits fuel n t) <= Z.of_nat fuel + len t.
Proof.
  revert n t. induction fuel as [| fuel IH]; intros n t; cbn [digits]; [lia |].
  destruct (n <? 10).
  - rewrite len_cons. lia.
  - specialize (IH (n / 10) (48 + n mod 10 :: t)). rewrite len_cons in IH. lia.
Qed.

Lemma Itoa_len n : len (Itoa n) <= 21.
Proof.
  unfold Itoa. pose proof (digits_len 20 n []). pose proof (digits_len 20 (- n) []).
  rewrite len_nil in *. destruct (n <? 0); rewrite ?len_cons; lia.
Qed.
