(* ===== verification/Chunk.v ===== *)
(** * Columnar chunk files (internal/logstore/chunk/writer.go, reader.go)

    A chunk is a 64-byte header, one encoded block per schema column, and a
    directory of those blocks.  A file is its bytes; device errors of the
    operating system are not modelled. *)

From stdpp Require Import base list gmap strings numbers sorting.
From Stdlib Require Import ZArith Lia.
From S2P Require Import Prelude Framing Zstd Bitpack Columns Sparse Schema Strconv.

Definition Magic : bytes := str "OTCL".
Definition Version_ : Z := 2.
Definition MinReadableVersion : Z := 1.
Definition HeaderSize : Z := 64.
Definition maxChunkEntries : Z := Z.shiftl 1 20.
Definition maxChunkColumns : Z := 256.
Definition maxBitpackDictEntries : Z := 256.

Record DirectoryEntry := mkDir {
  dName : bytes;
  dType : Z;
  dOffset : Z;
  dCompressedSize : Z;
  dRawSize : Z;
  dNullCount : Z
}.

(** ** Extracting columns *)

(** [switch name { case c: ... }] over the cases in source order; an unknown
    name leaves the zero value. *)
Fixpoint switch {A} (name : string) (cases : list (string * A)) : option A :=
  match cases with
  | [] => None
  | (c, a) :: cases => if bool_decide (name = c) then Some a else switch name cases
  end.

Definition int64_cases : list (string * (Entry -> Z)) := [
  ("id", ID);
  ("ts", Ts);
  ("received_at", ReceivedAt)
].

Definition extractInt64 (entries : list Entry) (name : string) : list Z :=
  (fun e => match switch name int64_cases with Some get => get e | None => 0 end) <$> entries.

Definition string_cases : list (string * (Entry -> bytes)) := [
  ("level", Level);
  ("service", Service);
  ("env", Env);
  ("version", Version);
  ("message", Message);
  ("event_type", EventType);
  ("trace_id", TraceID);
  ("span_id", SpanID);
  ("parent_span_id", ParentSpanID);
  ("request_id", RequestID);
  ("user_id", UserID);
  ("tenant_id", TenantID);
  ("session_id", SessionID);
  ("method", Method);
  ("path", Path);
  ("status", fun e => if 0 <? Status e then Itoa (Status e) else []);
  ("host", Host);
  ("kind", Kind);
  ("route", Route);
  ("handler", Handler);
  ("error_class", ErrorClass);
  ("error_message", ErrorMessage);
  ("source_file", SourceFile);
  ("error_fingerprint", ErrorFingerprint);
  ("job_class", JobClass);
  ("job_queue", JobQueue);
  ("job_id", JobID)
].

Definition extractString (entries : list Entry) (name : string) : list bytes :=
  (fun e => match switch name string_cases with Some get => get e | None => [] end) <$> entries.

Definition optional_int64_cases : list (string * (Entry -> Z)) := [
  ("duration_ms", DurationMs);
  ("db_ms", DbMs);
  ("db_count", DbCount);
  ("slow_queries", SlowQueries);
  ("dup_queries", DupQueries);
  ("source_line", SourceLine);
  ("cache_ms", CacheMs);
  ("cache_hits", CacheHits);
  ("cache_misses", CacheMisses);
  ("ext_ms", ExtMs);
  ("ext_count", ExtCount);
  ("render_ms", RenderMs);
  ("alloc_count", AllocCount);
  ("mem_delta_mb", MemDeltaMb);
  ("queue_ms", QueueMs)
].

Definition extractOptionalInt64 (entries : list Entry) (name : string) : list (option Z) :=
  (fun e =>
     match switch name optional_int64_cases with
     | Some get => if 0 <? get e then Some (get e) else None
     | None => None
     end) <$> entries.

Definition extractOptionalBool (entries : list Entry) (name : string) : list (option bool) :=
  (fun e => if bool_decide (name = "n_plus_one") then NPlusOne e else None) <$> entries.

Definition extractBody (entries : list Entry) : list (option bytes) :=
  (fun e => if 0 <? len (Body e) then Some (Body e) else None) <$> entries.

(** ** Writing *)

Definition serializeDictOnly (dict : list bytes) : bytes :=
  let buf := AppendUint16 [] (uint16 (len dict)) in
  append_strings buf dict.

Definition count_nil {A} (values : list (option A)) : Z :=
  len (filter (fun v => not_nil v = false) values).

Definition count_empty (values : list bytes) : Z :=
  len (filter (fun v => non_empty v = false) values).

Section Chunk.
Context {C : Zstd}.

(** The encoded block and the null count. *)
Definition encodeColumn (entries : list Entry) (col : ColumnDef) : result (bytes * Z) :=
  match Type_ col with
  | ColDeltaVarint =>
      let values := extractInt64 entries (Name col) in
      Ok (DeltaEncode values, 0)
  | ColZstdInt64 =>
      let values := extractInt64 entries (Name col) in
      Ok (ZstdBlockEncodeInt64 values, 0)
  | ColDictBitpack =>
      let values := extractString entries (Name col) in
      let d := DictEncodeLimit values maxBitpackDictEntries in
      let bits := BitsNeeded (len (Dict d)) in
      let indices8 := uint8 <$> Indices d in
      let dictBuf := serializeDictOnly (Dict d) in
      bitpackBytes ← BitpackEncode indices8 bits;
      let result := AppendUint32 [] (uint32 (len dictBuf)) in
      let result := result ++ dictBuf in
      let result := result ++ bitpackBytes in
      Ok (result, 0)
  | ColDictZstd =>
      let values := extractString entries (Name col) in
      let d := DictEncode values in
      Ok (DictMarshal d, 0)
  | ColZstdBlock =>
      let values := extractString entries (Name col) in
      Ok (ZstdBlockEncodeStrings values, 0)
  | ColSparseString | ColSparseDictZstd =>
      let values := extractString entries (Name col) in
      data ← SparseStrings values;
      Ok (data, count_empty values)
  | ColSparseInt64 =>
      let values := extractOptionalInt64 entries (Name col) in
      data ← SparseInt64 values;
      Ok (data, count_nil values)
  | ColSparseBool =>
      let values := extractOptionalBool entries (Name col) in
      data ← SparseBool values;
      Ok (data, count_nil values)
  | ColSparseBytes =>
      let values := extractBody entries in
      data ← SparseBytes values;
      Ok (data, count_nil values)
  end.

Record Writer := mkWriter {
  w_f : bytes;
  w_entries : list Entry;
  w_offset : Z;
  w_directory : list DirectoryEntry
}.

(** The header is a placeholder until [Close]. *)
Definition NewWriter (entries : list Entry) : Writer :=
  mkWriter (make 0 HeaderSize) entries HeaderSize [].

Fixpoint write_columns (cols : list ColumnDef) (w : Writer) : result Writer :=
  match cols with
  | [] => Ok w
  | col :: cols =>
      '(data, nullCount) ← wrap ("encode column " +:+ Name col) (encodeColumn (w_entries w) col);
      let n := len data in
      write_columns cols
        (mkWriter (w_f w ++ data) (w_entries w) (uint64 (w_offset w + n))
           (w_directory w ++
              [mkDir (str (Name col)) (ColumnType_code (Type_ col)) (w_offset w)
                 (uint32 n) 0 (uint32 nullCount)]))
  end.

Definition WriteAllColumns (w : Writer) : result Writer := write_columns Schema w.

Definition marshalDirectoryEntry (buf : bytes) (e : DirectoryEntry) : bytes :=
  let buf := buf ++ [uint8 (len (dName e))] in
  let buf := buf ++ dName e in
  let buf := buf ++ [uint8 (dType e)] in
  let buf := AppendUint64 buf (dOffset e) in
  let buf := AppendUint32 buf (dCompressedSize e) in
  AppendUint32 buf (dNullCount e).

Definition marshalDirectory (entries : list DirectoryEntry) : bytes :=
  let buf := AppendUint16 [] (uint16 (len entries)) in
  foldl marshalDirectoryEntry buf entries.

(** [copy(dst[off:], src)] and [PutUintN(dst[off:], v)] within bounds. *)
Definition copy_at (dst : bytes) (off : Z) (src : bytes) : bytes :=
  take (Z.to_nat off) dst ++ src ++ drop (Z.to_nat (off + len src)) dst.

Definition header_bytes (entryCount colCount dirOffset : Z) : bytes :=
  let header := make 0 HeaderSize in
  let header := copy_at header 0 Magic in
  let header := copy_at header 4 (le_bytes 2 Version_) in
  let header := copy_at header 8 (le_bytes 4 (uint32 entryCount)) in
  let header := copy_at header 12 (le_bytes 2 (uint16 colCount)) in
  copy_at header 16 (le_bytes 8 dirOffset).

(** The finished file. *)
Definition Writer_Close (w : Writer) : bytes :=
  let dirOffset := w_offset w in
  let dirData := marshalDirectory (w_directory w) in
  let f := w_f w ++ dirData in
  let header := header_bytes (len (w_entries w)) (len (w_directory w)) dirOffset in
  copy_at f 0 header.

(** The three calls of the seal path. *)
Definition write_chunk (entries : list Entry) : result bytes :=
  w ← WriteAllColumns (NewWriter entries);
  Ok (Writer_Close w).

(** ** Reading *)

Definition ErrColumnMissing : gerror := Sentinel "column not found in chunk".

(** [f.ReadAt(make([]byte, n), off)] *)
Definition ReadAt (f : bytes) (n off : Z) : result bytes :=
  if off <? 0 then Err (Errorf "negative offset")
  else if n =? 0 then Ok []
  else if off + n <=? len f then slice f off (off + n)
  else Err (Sentinel "EOF").

Record Reader := mkChunkReader {
  r_f : bytes;
  r_size : Z;
  EntryCount : Z;
  r_Version : Z;
  lenFormat : LenFormat;
  r_directory : gmap bytes DirectoryEntry
}.

Fixpoint directory_loop (n : nat) (data : bytes) (offset : Z) : result (list DirectoryEntry) :=
  match n with
  | O => Ok []
  | S n =>
      if len data <=? offset then Err (Errorf "directory truncated")
      else
        nameLen ← index8 data offset;
        let offset := offset + 1 in
        if len data <? offset + nameLen then Err (Errorf "directory name truncated")
        else
          name ← slice data offset (offset + nameLen);
          let offset := offset + nameLen in
          if len data <? offset + 17 then Err (Errorf "directory entry truncated")
          else
            colType ← index8 data offset;
            let offset := offset + 1 in
            d ← slice_from data offset; colOffset ← Uint64 d;
            let offset := offset + 8 in
            d ← slice_from data offset; compressedSize ← Uint32 d;
            let offset := offset + 4 in
            d ← slice_from data offset; nullCount ← Uint32 d;
            let offset := offset + 4 in
            rest ← directory_loop n data offset;
            Ok (mkDir name colType colOffset compressedSize 0 nullCount :: rest)
  end.

Definition unmarshalDirectory (data : bytes) (expectedCount : Z) : result (list DirectoryEntry) :=
  if len data <? 2 then Err (Errorf "directory too short")
  else
    d ← slice data 0 2;
    count ← Uint16 d;
    if negb (count =? expectedCount) then Err (Errorf "directory count mismatch")
    else directory_loop (Z.to_nat count) data 2.

Definition readerLenFormat (version : Z) : LenFormat :=
  if version <? 2 then LenUint16 else LenExtended.

Definition OpenReader (f : bytes) : result Reader :=
  header ← wrap "read header" (ReadAt f HeaderSize 0);
  m ← slice header 0 4;
  if negb (bool_decide (m = Magic)) then Err (Errorf "invalid magic")
  else
    d ← slice_from header 4; version ← Uint16 d;
    if (version <? MinReadableVersion) || (Version_ <? version)
    then Err (Errorf "unsupported version")
    else
      d ← slice_from header 8; entryCount ← Uint32 d;
      d ← slice_from header 12; colCount ← Uint16 d;
      d ← slice_from header 16; dirOffset ← Uint64 d;
      let size := len f in
      if (int64 dirOffset <? HeaderSize) || (size <? int64 dirOffset)
      then Err (Errorf "corrupt chunk: directory offset out of range")
      else if (entryCount <? 0) || (maxChunkEntries <? entryCount)
      then Err (Errorf "corrupt chunk: entry count out of range")
      else if (colCount <? 0) || (maxChunkColumns <? colCount)
      then Err (Errorf "corrupt chunk: column count out of range")
      else
        let dirSize := size - int64 dirOffset in
        dirBuf ← wrap "read directory" (ReadAt f dirSize (int64 dirOffset));
        directory ← wrap "parse directory" (unmarshalDirectory dirBuf colCount);
        let dirMap := foldl (fun m e => <[dName e := e]> m) ∅ directory in
        Ok (mkChunkReader f size entryCount version (readerLenFormat version) dirMap).

Definition HasColumn (r : Reader) (name : string) : bool :=
  match r_directory r !! str name with Some _ => true | None => false end.

Definition NullCount (r : Reader) (name : string) : Z :=
  match r_directory r !! str name with Some e => dNullCount e | None => EntryCount r end.

Definition readColumnRaw (r : Reader) (name : string) : result (bytes * Z) :=
  match r_directory r !! str name with
  | None => Err (Wrapf name ErrColumnMissing)
  | Some entry =>
      if r_size r <? dCompressedSize entry
      then Err (Errorf "corrupt chunk: column size exceeds file size")
      else
        data ← wrap ("read column " +:+ name)
                 (ReadAt (r_f r) (dCompressedSize entry) (int64 (dOffset entry)));
        Ok (data, dType entry)
  end.

Definition missingColumn (err : gerror) : bool := ErrIs err ErrColumnMissing.

(** The head of every [Read*] method: a missing column is [EntryCount] zero
    values, any other error is returned. *)
Definition column_or {A} (zero : A) (r : Reader) (name : string)
  (decode : bytes -> result (list A)) : result (list A) :=
  match readColumnRaw r name with
  | Ok (data, _) => decode data
  | Err err => if missingColumn err then Ok (make zero (EntryCount r)) else Err err
  | Panic => Panic
  end.

Definition ReadDeltaInt64 (r : Reader) (name : string) : result (list Z) :=
  column_or 0 r name (fun data => DeltaDecode data (EntryCount r)).

Definition ReadZstdInt64 (r : Reader) (name : string) : result (list Z) :=
  column_or 0 r name (fun data => ZstdBlockDecodeInt64 data (EntryCount r)).

Definition deserializeDictOnly (data : bytes) (f : LenFormat) : result (list bytes) :=
  if len data <? 2 then Err (Errorf "dict too short")
  else
    d ← slice data 0 2;
    count ← Uint16 d;
    read_strings "dict entry" f (Z.to_nat count) data 2.

Definition ReadDictBitpack (r : Reader) (name : string) : result (list bytes) :=
  column_or (A := bytes) [] r name (fun data =>
    if len data <? 4 then Err (Errorf "dict+bitpack data too short")
    else
      d ← slice data 0 4;
      dictLen ← Uint32 d;
      if len data <? 4 + dictLen then Err (Errorf "dict+bitpack: dict overflows data")
      else
        dictData ← slice data 4 (4 + dictLen);
        bitpackData ← slice_from data (4 + dictLen);
        dict ← wrap "dict parse" (deserializeDictOnly dictData (lenFormat r));
        indices ← wrap "bitpack decode" (BitpackDecode bitpackData);
        Ok (DictLookup (mkDict dict indices))).

Definition ReadDictZstd (r : Reader) (name : string) : result (list bytes) :=
  column_or (A := bytes) [] r name (fun data =>
    d ← wrap ("dict unmarshal " +:+ name) (DictUnmarshal data (EntryCount r) (lenFormat r));
    Ok (DictLookup d)).

Definition ReadZstdBlockStrings (r : Reader) (name : string) : result (list bytes) :=
  column_or (A := bytes) [] r name (fun data => ZstdBlockDecodeStrings data (EntryCount r) (lenFormat r)).

Definition ReadSparseStrings (r : Reader) (name : string) : result (list bytes) :=
  column_or (A := bytes) [] r name (fun data => UnsparseStrings data (EntryCount r) (lenFormat r)).

Definition ReadSparseInt64 (r : Reader) (name : string) : result (list (option Z)) :=
  column_or None r name (fun data => UnsparseInt64 data (EntryCount r)).

Definition ReadSparseBool (r : Reader) (name : string) : result (list (option bool)) :=
  column_or None r name (fun data => UnsparseBool data (EntryCount r)).

Definition ReadSparseBytes (r : Reader) (name : string) : result (list (option bytes)) :=
  column_or None r name (fun data => UnsparseBytes data (EntryCount r)).

(** The dynamic value [ReadColumn] returns. *)
Inductive column_value :=
| ColInts (v : list Z)
| ColStrs (v : list bytes)
| ColOptInts (v : list (option Z))
| ColBools (v : list (option bool))
| ColBlobs (v : list (option bytes))
| ColNil.

Definition ReadColumn (r : Reader) (name : string) : result column_value :=
  match r_directory r !! str name with
  | None => Ok ColNil
  | Some entry =>
      let t := dType entry in
      if t =? ColumnType_code ColDeltaVarint then ColInts <$> ReadDeltaInt64 r name
      else if t =? ColumnType_code ColZstdInt64 then ColInts <$> ReadZstdInt64 r name
      else if t =? ColumnType_code ColDictBitpack then ColStrs <$> ReadDictBitpack r name
      else if t =? ColumnType_code ColDictZstd then ColStrs <$> ReadDictZstd r name
      else if t =? ColumnType_code ColZstdBlock then ColStrs <$> ReadZstdBlockStrings r name
      else if (t =? ColumnType_code ColSparseString) || (t =? ColumnType_code ColSparseDictZstd)
      then ColStrs <$> ReadSparseStrings r name
      else if t =? ColumnType_code ColSparseInt64 then ColOptInts <$> ReadSparseInt64 r name
      else if t =? ColumnType_code ColSparseBool then ColBools <$> ReadSparseBool r name
      else if t =? ColumnType_code ColSparseBytes then ColBlobs <$> ReadSparseBytes r name
      else Err (Errorf "unknown column type")
  end.

End Chunk.

(** ** The header *)

Lemma header_bytes_eq n c off :
  header_bytes n c off =
    Magic ++ le_bytes 2 2 ++ [0; 0] ++ le_bytes 4 (uint32 n) ++ le_bytes 2 (uint16 c) ++ [0; 0] ++
    le_bytes 8 off ++ make 0 40.
Proof. reflexivity. Qed.

Lemma header_bytes_len n c off : len (header_bytes n c off) = HeaderSize.
Proof. reflexivity. Qed.

Lemma copy_at_0 (f rest src : bytes) : len f = len src -> copy_at (f ++ rest) 0 src = src ++ rest.
Proof.
  intros H. unfold copy_at. rewrite Z.add_0_l, <- H. cbn [Z.to_nat take app].
  by rewrite drop_len_app.
Qed.

(** ** The directory *)

(** An entry the directory format can hold. *)
Definition dir_ok (e : DirectoryEntry) : Prop :=
  len (dName e) < 256 /\ is_uint 8 (dType e) /\ is_uint 64 (dOffset e) /\
  is_uint 32 (dCompressedSize e) /\ dRawSize e = 0 /\ is_uint 32 (dNullCount e).

Definition dir_bytes (e : DirectoryEntry) : bytes :=
  [len (dName e)] ++ dName e ++ [dType e] ++ le_bytes 8 (dOffset e) ++
  le_bytes 4 (dCompressedSize e) ++ le_bytes 4 (dNullCount e).

Lemma marshalDirectory_eq es :
  Forall dir_ok es -> marshalDirectory es = le_bytes 2 (uint16 (len es)) ++ (es ≫= dir_bytes).
Proof.
  intros Hf. unfold marshalDirectory, AppendUint16. rewrite app_nil_l.
  generalize (le_bytes 2 (uint16 (len es))). intros b. revert b.
  induction Hf as [| e es (Hn & Ht & _) Hf IH]; intros b; [cbn; by rewrite app_nil_r |].
  cbn [foldl]. rewrite IH, bind_cons. unfold marshalDirectoryEntry, AppendUint64, AppendUint32, dir_bytes.
  len_pose. rewrite !uint8_small by (done || (unfold is_uint; lia)).
  by rewrite <- !app_assoc.
Qed.

Lemma directory_step e n pre rest :
  dir_ok e ->
  directory_loop (S n) (pre ++ dir_bytes e ++ rest) (len pre) =
    (r ← directory_loop n (pre ++ dir_bytes e ++ rest) (len pre + len (dir_bytes e)); Ok (e :: r)).
Proof.
  intros (Hn & Ht & Ho & Hc & Hr & Hnull). destruct e as [name ty off cs rs nc].
  cbn [dName dType dOffset dCompressedSize dRawSize dNullCount] in *. subst rs.
  set (data := pre ++ _ ++ rest). cbn [directory_loop].
  assert (data = pre ++ len name :: name ++ ty :: le_bytes 8 off ++ le_bytes 4 cs ++ le_bytes 4 nc
    ++ rest) as Hd.
  { subst data. unfold dir_bytes. by rewrite <- ?app_assoc. }
  pose proof (f_equal len Hd) as Hl. autorewrite with len in Hl. len_pose. zcmp.
  unfold index8. rewrite (index_split _ _ _ _ (len pre) Hd) by done.
  cbn [fmap result_fmap mbind result_bind]. rewrite uint8_small by (unfold is_uint; lia). zcmp.
  rewrite (slice_split data (pre ++ [len name]) name _ (len pre + 1))
    by (try rewrite Hd; rewrite <- ?app_assoc; done || len_lia).
  cbn [mbind result_bind]. zcmp.
  rewrite (index_split data (pre ++ [len name] ++ name) ty _ (len pre + 1 + len name))
    by (try rewrite Hd; rewrite <- ?app_assoc; done || len_lia).
  cbn [fmap result_fmap mbind result_bind]. rewrite uint8_small by done.
  rewrite (slice_from_split data (pre ++ [len name] ++ name ++ [ty]) _ (len pre + 1 + len name + 1))
    by (try rewrite Hd; rewrite <- ?app_assoc; done || len_lia).
  cbn [mbind result_bind]. rewrite Uint64_app by done. cbn [mbind result_bind].
  rewrite (slice_from_split data (pre ++ [len name] ++ name ++ [ty] ++ le_bytes 8 off) _
    (len pre + 1 + len name + 1 + 8)) by (try rewrite Hd; rewrite <- ?app_assoc; done || len_lia).
  cbn [mbind result_bind]. rewrite Uint32_app by done. cbn [mbind result_bind].
  rewrite (slice_from_split data
    (pre ++ [len name] ++ name ++ [ty] ++ le_bytes 8 off ++ le_bytes 4 cs) _
    (len pre + 1 + len name + 1 + 8 + 4)) by (try rewrite Hd; rewrite <- ?app_assoc; done || len_lia).
  cbn [mbind result_bind]. rewrite Uint32_app by done. cbn [mbind result_bind].
  do 2 f_equal. unfold dir_bytes. cbn [dName dType dOffset dCompressedSize dNullCount]. len_lia.
Qed.

Lemma directory_loop_ok es pre :
  Forall dir_ok es ->
  directory_loop (length es) (pre ++ (es ≫= dir_bytes)) (len pre) = Ok es.
Proof.
  intros Hf. revert pre. induction Hf as [| e es He Hf IH]; intros pre; [done |].
  rewrite bind_cons. cbn [length]. rewrite directory_step by done.
  rewrite app_assoc, <- len_app, IH. done.
Qed.

Lemma unmarshalDirectory_marshal es :
  Forall dir_ok es -> len es < 2 ^ 16 ->
  unmarshalDirectory (marshalDirectory es) (len es) = Ok es.
Proof.
  intros Hf Hl. len_pose. rewrite marshalDirectory_eq, uint16_small by (done || lia).
  unfold unmarshalDirectory. autorewrite with len. len_pose. zcmp.
  rewrite (slice_split _ [] (le_bytes 2 (len es)) (es ≫= dir_bytes)) by (done || len_lia).
  cbn [mbind result_bind]. rewrite <- (app_nil_r (le_bytes 2 (len es))) at 1.
  rewrite Uint16_app by (unfold is_uint; lia). cbn [mbind result_bind]. zcmp.
  rewrite to_nat_len. rewrite <- (directory_loop_ok es (le_bytes 2 (len es)) Hf).
  by rewrite len_le_bytes.
Qed.

Section ChunkLemmas.
Context {C : Zstd} {L : ZstdLaws C}.

(** ** The layout of a written chunk *)

Definition encodes (entries : list Entry) (col : ColumnDef) (enc : bytes * Z) : Prop :=
  encodeColumn entries col = Ok enc.

(** The directory of the columns written from offset [off]. *)
Fixpoint dir_list (off : Z) (cols : list ColumnDef) (encs : list (bytes * Z))
  : list DirectoryEntry :=
  match cols, encs with
  | col :: cols, (data, nulls) :: encs =>
      mkDir (str (Name col)) (ColumnType_code (Type_ col)) off (uint32 (len data)) 0 (uint32 nulls)
      :: dir_list (off + len data) cols encs
  | _, _ => []
  end.

Lemma write_columns_ok entries cols encs f off ds :
  Forall2 (encodes entries) cols encs -> 0 <= off -> off + len (encs ≫= fst) < 2 ^ 64 ->
  write_columns cols (mkWriter f entries off ds) =
    Ok (mkWriter (f ++ (encs ≫= fst)) entries (off + len (encs ≫= fst))
          (ds ++ dir_list off cols encs)).
Proof.
  intros Hf. revert f off ds.
  induction Hf as [| col [data nulls] cols encs He Hf IH]; intros f off ds Ho Hs.
  { cbn [write_columns mbind list_bind dir_list]. rewrite len_nil, Z.add_0_r, !app_nil_r. done. }
  rewrite bind_cons in *. cbn [fst] in *. rewrite len_app in Hs.
  cbn [write_columns w_entries w_f w_offset w_directory dir_list]. rewrite He.
  cbn [wrap mbind result_bind]. len_pose. rewrite uint64_small by lia.
  rewrite IH by lia. rewrite <- !app_assoc, len_app. cbn [app]. do 2 f_equal. lia.
Qed.

Definition chunk_file (entries : list Entry) (encs : list (bytes * Z)) : bytes :=
  header_bytes (len entries) (len (dir_list HeaderSize Schema encs))
    (HeaderSize + len (encs ≫= fst)) ++
  (encs ≫= fst) ++ marshalDirectory (dir_list HeaderSize Schema encs).

Lemma write_chunk_ok entries encs :
  Forall2 (encodes entries) Schema encs -> HeaderSize + len (encs ≫= fst) < 2 ^ 64 ->
  write_chunk entries = Ok (chunk_file entries encs).
Proof.
  intros Hf Hs. unfold write_chunk, WriteAllColumns, NewWriter.
  rewrite (write_columns_ok entries Schema encs) by done. cbn [mbind result_bind].
  unfold Writer_Close. cbn [w_f w_entries w_offset w_directory]. rewrite app_nil_l, <- app_assoc.
  by rewrite copy_at_0.
Qed.

Lemma dir_list_length off cols encs :
  length cols = length encs -> length (dir_list off cols encs) = length cols.
Proof.
  revert off encs. induction cols as [| col cols IH]; intros off [| [d n] encs]; try done.
  cbn. intros [= H]. by rewrite IH.
Qed.

Lemma dir_list_ok off cols encs :
  Forall (fun col => len (str (Name col)) < 256) cols -> 0 <= off ->
  off + len (encs ≫= fst) < 2 ^ 64 -> Forall dir_ok (dir_list off cols encs).
Proof.
  intros Hn. revert off encs. induction Hn as [| col cols Hc Hn IH];
    intros off [| [d n] encs] Ho Hs; try done; try constructor.
  - unfold dir_ok. cbn [dName dType dOffset dCompressedSize dRawSize dNullCount].
    rewrite bind_cons, len_app in Hs. cbn [fst] in Hs. len_pose. unfold is_uint.
    split_and!; try done; try lia; try (apply Z.mod_pos_bound; lia); by destruct (Type_ col).
  - rewrite bind_cons, len_app in Hs. cbn [fst] in Hs. len_pose. apply IH; lia.
Qed.

Lemma dir_list_names off cols encs :
  length cols = length encs ->
  dName <$> dir_list off cols encs = (fun c => str (Name c)) <$> cols.
Proof.
  revert off encs. induction cols as [| col cols IH]; intros off [| [d n] encs]; try done.
  cbn. intros [= H]. f_equal. by apply IH.
Qed.

Lemma dir_list_split off pre col post epre data nulls epost :
  length pre = length epre ->
  mkDir (str (Name col)) (ColumnType_code (Type_ col)) (off + len (epre ≫= fst))
    (uint32 (len data)) 0 (uint32 nulls) ∈
  dir_list off (pre ++ col :: post) (epre ++ (data, nulls) :: epost).
Proof.
  revert off epre. induction pre as [| c pre IH]; intros off [| [d n] epre] H; try done.
  - cbn [app dir_list]. cbn [mbind list_bind]. rewrite len_nil, Z.add_0_r. left.
  - cbn [app dir_list]. rewrite bind_cons, len_app. cbn [fst]. right.
    rewrite Z.add_assoc. apply IH. by injection H.
Qed.

(** The directory map holds each entry under its name. *)
Lemma dir_map_lookup (ds : list DirectoryEntry) (m : gmap bytes DirectoryEntry) e :
  NoDup (dName <$> ds) -> e ∈ ds ->
  foldl (fun m e => <[dName e := e]> m) m ds !! dName e = Some e.
Proof.
  revert m. induction ds as [| d ds IH]; intros m Hn He; [by apply elem_of_nil in He |].
  cbn [fmap list_fmap foldl] in *. apply NoDup_cons in Hn as [Hd Hn].
  apply elem_of_cons in He as [-> | He]; [| by apply IH].
  clear IH. assert (forall m : gmap bytes DirectoryEntry, m !! dName d = Some d ->
    foldl (fun m e => <[dName e := e]> m) m ds !! dName d = Some d) as H.
  { clear Hn m. induction ds as [| x ds IH]; intros m Hm; [done |]. cbn [foldl]. apply IH.
    - intros Hx. apply Hd. cbn. by right.
    - rewrite lookup_insert_ne; [done |]. intros E. apply Hd. cbn. rewrite E. left. }
  apply H. apply lookup_insert_eq.
Qed.

Lemma Schema_names :
  NoDup ((fun c => str (Name c)) <$> Schema) /\ Forall (fun c => len (str (Name c)) < 256) Schema.
Proof. split; apply (bool_decide_unpack _); vm_compute; exact I. Qed.

Lemma ReadAt_split f pre mid rest n off :
  f = pre ++ mid ++ rest -> off = len pre -> n = len mid -> ReadAt f n off = Ok mid.
Proof.
  intros -> -> ->. unfold ReadAt. len_pose. zcmp. destruct (Z.eqb_spec (len mid) 0) as [E |].
  { by rewrite (len_0_nil mid E). }
  autorewrite with len. len_pose. zcmp. by apply (slice_split _ pre mid rest).
Qed.

(** The reader of a written chunk. *)
Definition chunk_reader (entries : list Entry) (encs : list (bytes * Z)) : Reader :=
  mkChunkReader (chunk_file entries encs) (len (chunk_file entries encs)) (len entries) 2 LenExtended
    (foldl (fun m e => <[dName e := e]> m) ∅ (dir_list HeaderSize Schema encs)).

Lemma header_reads n c off rest :
  is_uint 32 n -> is_uint 16 c -> is_uint 64 off ->
  let h := header_bytes n c off in
  ReadAt (h ++ rest) HeaderSize 0 = Ok h /\ slice h 0 4 = Ok Magic /\
  (exists r, slice_from h 4 = Ok (le_bytes 2 2 ++ r)) /\
  (exists r, slice_from h 8 = Ok (le_bytes 4 n ++ r)) /\
  (exists r, slice_from h 12 = Ok (le_bytes 2 c ++ r)) /\
  (exists r, slice_from h 16 = Ok (le_bytes 8 off ++ r)).
Proof.
  intros Hn Hc Ho h. split.
  { apply (ReadAt_split _ [] h rest); [done | done |]. subst h. by rewrite header_bytes_len. }
  subst h. rewrite header_bytes_eq, uint32_small, uint16_small by done.
  split; [reflexivity |]. split; [eexists; reflexivity |]. split; [eexists; reflexivity |].
  split; eexists; reflexivity.
Qed.

Lemma OpenReader_ok entries encs :
  length Schema = length encs -> len entries <= maxChunkEntries ->
  HeaderSize + len (encs ≫= fst) < 2 ^ 63 ->
  OpenReader (chunk_file entries encs) = Ok (chunk_reader entries encs).
Proof.
  intros Hl He Hs. unfold OpenReader.
  set (ds := dir_list HeaderSize Schema encs).
  assert (len ds = 47) as Hds.
  { subst ds. unfold len. rewrite dir_list_length by done. done. }
  assert (Forall dir_ok ds) as Hok.
  { apply dir_list_ok; [apply Schema_names | done | lia]. }
  change maxChunkEntries with (2 ^ 20) in He. assert (HeaderSize = 64) as H64 by done. len_pose.
  destruct (header_reads (len entries) (len ds) (HeaderSize + len (encs ≫= fst))
    ((encs ≫= fst) ++ marshalDirectory ds)) as (G0 & G1 & [r2 G2] & [r3 G3] & [r4 G4] & [r5 G5]);
    [unfold is_uint; lia | unfold is_uint; lia | unfold is_uint; lia |].
  unfold chunk_file. fold ds. rewrite G0. cbn [wrap mbind result_bind]. rewrite G1.
  cbn [mbind result_bind]. rewrite bool_decide_eq_true_2 by done. cbn [negb].
  rewrite G2. cbn [mbind result_bind]. rewrite Uint16_app by done. cbn [mbind result_bind].
  unfold MinReadableVersion, Version_. cbn [Z.ltb Z.compare Pos.compare Pos.compare_cont orb].
  rewrite G3. cbn [mbind result_bind]. rewrite Uint32_app by (unfold is_uint; lia).
  cbn [mbind result_bind]. rewrite G4. cbn [mbind result_bind].
  rewrite Uint16_app by (unfold is_uint; lia). cbn [mbind result_bind].
  rewrite G5. cbn [mbind result_bind].
  rewrite Uint64_app by (unfold is_uint; lia). cbn [mbind result_bind].
  clear G0 G1 G2 G3 G4 G5. rewrite int64_small by (unfold is_int64; lia).
  set (h := header_bytes _ _ _).
  assert (len h = HeaderSize) as Hh by (subst h; apply header_bytes_len).
  rewrite !len_app, Hh. change maxChunkEntries with (2 ^ 20). change maxChunkColumns with 256.
  len_pose. zcmp.
  rewrite (ReadAt_split _ (h ++ (encs ≫= fst)) (marshalDirectory ds) [])
    by (rewrite ?app_nil_r, <- ?app_assoc; done || (rewrite ?len_app, ?Hh; lia)).
  cbn [wrap mbind result_bind].
  rewrite unmarshalDirectory_marshal by (done || lia). cbn [wrap mbind result_bind].
  unfold chunk_reader, chunk_file. fold ds. fold h. rewrite !len_app, Hh. done.
Qed.

(** Every column's bytes are found again. *)
Lemma readColumnRaw_ok entries pre col post epre data nulls epost :
  Schema = pre ++ col :: post -> length pre = length epre -> length post = length epost ->
  len data < 2 ^ 32 ->
  HeaderSize + len ((epre ++ (data, nulls) :: epost) ≫= fst) < 2 ^ 63 ->
  let r := chunk_reader entries (epre ++ (data, nulls) :: epost) in
  readColumnRaw r (Name col) = Ok (data, ColumnType_code (Type_ col)) /\
  exists d, r_directory r !! str (Name col) = Some d /\ dType d = ColumnType_code (Type_ col).
Proof.
  intros HS H1 H2 Hd Hs r. set (encs := epre ++ _) in *.
  pose proof (dir_list_split HeaderSize pre col post epre data nulls epost H1) as Hin.
  rewrite <- HS in Hin. fold encs in Hin. set (d := mkDir _ _ _ _ _ _) in Hin.
  assert (r_directory r !! str (Name col) = Some d) as Hlk.
  { apply (dir_map_lookup _ _ d); [| done].
    rewrite dir_list_names; [apply Schema_names |]. rewrite HS. subst encs.
    rewrite !length_app. cbn. lia. }
  split; [| by exists d]. unfold readColumnRaw. rewrite Hlk.
  assert (encs ≫= fst = (epre ≫= fst) ++ data ++ (epost ≫= fst)) as Henc.
  { subst encs. by rewrite bind_app, bind_cons. }
  rewrite Henc, !len_app in Hs. assert (HeaderSize = 64) as H64 by done. len_pose.
  cbn [dCompressedSize dOffset dType d]. rewrite uint32_small by done.
  rewrite int64_small by (unfold is_int64; lia).
  subst r. cbn [r_size r_f chunk_reader]. unfold chunk_file. rewrite Henc.
  set (h := header_bytes _ _ _).
  assert (len h = HeaderSize) as Hh by (subst h; apply header_bytes_len).
  rewrite !len_app, Hh. len_pose. zcmp.
  rewrite (ReadAt_split _ (h ++ (epre ≫= fst)) data
    ((epost ≫= fst) ++ marshalDirectory (dir_list HeaderSize Schema encs)))
    by (rewrite <- ?app_assoc; done || (rewrite ?len_app, ?Hh; done)).
  done.
Qed.

(** ** Columns that fit the format *)

Lemma bind_sublist_len {A} (g : A -> bytes) (l k : list A) :
  l `sublist_of` k -> len (l ≫= g) <= len (k ≫= g).
Proof.
  induction 1 as [| x l k H IH | x l k H IH]; [done | |];
    rewrite ?bind_cons, ?len_app; len_pose; lia.
Qed.

Lemma uniq_from_sublist `{EqDecision A} (seen l : list A) : uniq_from seen l `sublist_of` l.
Proof.
  revert seen. induction l as [| x l IH]; intros seen; cbn [uniq_from]; [done |].
  case_bool_decide; [by apply sublist_cons | by apply sublist_skip].
Qed.

(** A string column: field-sized values within one block. *)
Definition strings_fit (values : list bytes) : Prop :=
  Forall (fun s => len s <= MaxColumnValueBytes) values /\
  len (values ≫= frame) <= MaxBlockBytes.

Lemma strings_fit_framable values :
  strings_fit values -> Forall (framable LenExtended) values.
Proof.
  intros [Hf _]. eapply list.Forall_impl; [exact Hf |]. intros s Hs. cbn beta in Hs. split; [| done].
  change MaxColumnValueBytes with (2 ^ 20) in Hs. change MaxValueBytes with (2 ^ 30). lia.
Qed.

Definition column_fits (entries : list Entry) (col : ColumnDef) : Prop :=
  match Type_ col with
  | ColDeltaVarint | ColZstdInt64 => Forall is_int64 (extractInt64 entries (Name col))
  | ColDictBitpack =>
      let values := extractString entries (Name col) in
      strings_fit values /\ len (uniq ([] :: values)) <= maxBitpackDictEntries
  | ColDictZstd =>
      let values := extractString entries (Name col) in
      strings_fit values /\ len (uniq ([] :: values)) <= MaxDictEntries
  | ColZstdBlock | ColSparseString | ColSparseDictZstd =>
      strings_fit (extractString entries (Name col))
  | ColSparseInt64 =>
      Forall (fun v => match v with Some z => is_int64 z | None => True end)
        (extractOptionalInt64 entries (Name col))
  | ColSparseBool => True
  | ColSparseBytes =>
      Forall (fun v => match v with Some b => len b <= MaxColumnValueBytes | None => True end)
        (extractBody entries) /\
      len (filter (fun v => not_nil v = true) (extractBody entries) ≫= blob_frame) <= MaxBlockBytes
  end /\
  (forall data nulls, encodeColumn entries col = Ok (data, nulls) -> len data < 2 ^ 32).

(** What the reader returns for a column. *)
Definition reads (r : Reader) (entries : list Entry) (col : ColumnDef) : Prop :=
  let name := Name col in
  match Type_ col with
  | ColDeltaVarint => ReadDeltaInt64 r name = Ok (extractInt64 entries name)
  | ColZstdInt64 => ReadZstdInt64 r name = Ok (extractInt64 entries name)
  | ColDictBitpack => ReadDictBitpack r name = Ok (extractString entries name)
  | ColDictZstd => ReadDictZstd r name = Ok (extractString entries name)
  | ColZstdBlock => ReadZstdBlockStrings r name = Ok (extractString entries name)
  | ColSparseString | ColSparseDictZstd => ReadSparseStrings r name = Ok (extractString entries name)
  | ColSparseInt64 => ReadSparseInt64 r name = Ok (extractOptionalInt64 entries name)
  | ColSparseBool => ReadSparseBool r name = Ok (extractOptionalBool entries name)
  | ColSparseBytes => ReadSparseBytes r name = Ok (extractBody entries)
  end.

Lemma dict_section_fits values limit :
  1 <= limit <= MaxDictEntries -> strings_fit values ->
  Forall (framable LenExtended) (Dict (DictEncodeLimit values limit)) /\
  len (dict_section (DictEncodeLimit values limit)) < 2 ^ 32.
Proof.
  intros Hl Hv. pose proof (DictEncodeLimit_lemma values limit Hl) as [Ho _ Hlen _ _ _ _].
  assert (Dict (DictEncodeLimit values limit) `sublist_of` [] :: values) as Hsub.
  { rewrite Ho. etrans; [apply sublist_take |]. cbn. apply sublist_skip, uniq_from_sublist. }
  split.
  - apply list.Forall_forall. intros s Hs.
    eapply elem_of_sublist in Hs; [| exact Hsub].
    apply elem_of_cons in Hs as [-> | Hs]; [by split |].
    apply strings_fit_framable in Hv. rewrite list.Forall_forall in Hv. by apply Hv.
  - unfold dict_section. rewrite len_app, len_le_bytes.
    pose proof (bind_sublist_len frame _ _ Hsub) as H. rewrite bind_cons, len_app in H.
    destruct Hv as [_ Hb]. change MaxBlockBytes with (2 ^ 31) in Hb.
    change (len (frame [])) with 2 in H. lia.
Qed.

Lemma read_strings_dict d rest :
  Forall (framable LenExtended) d -> len d < 2 ^ 16 ->
  deserializeDictOnly (le_bytes 2 (len d) ++ (d ≫= frame) ++ rest) LenExtended = Ok d.
Proof.
  intros Hf Hl. len_pose. unfold deserializeDictOnly. autorewrite with len. len_pose. zcmp.
  rewrite (slice_split _ [] (le_bytes 2 (len d)) ((d ≫= frame) ++ rest)) by (done || len_lia).
  cbn [mbind result_bind]. rewrite <- (app_nil_r (le_bytes 2 (len d))) at 1.
  rewrite Uint16_app by (unfold is_uint; lia). cbn [mbind result_bind]. rewrite to_nat_len.
  by apply (read_strings_append _ _ d _ (le_bytes 2 (len d)) rest).
Qed.

Lemma column_or_ok {A} (zero : A) r name data t decode :
  readColumnRaw r name = Ok (data, t) -> column_or zero r name decode = decode data.
Proof. intros H. unfold column_or. by rewrite H. Qed.

Lemma bitpack_column_ok values r name :
  strings_fit values -> len (uniq ([] :: values)) <= maxBitpackDictEntries ->
  len values < 2 ^ 32 -> lenFormat r = LenExtended ->
  let d := DictEncodeLimit values maxBitpackDictEntries in
  exists packed, BitpackEncode (uint8 <$> Indices d) (BitsNeeded (len (Dict d))) = Ok packed /\
    forall data t,
      data = AppendUint32 [] (uint32 (len (serializeDictOnly (Dict d)))) ++
        serializeDictOnly (Dict d) ++ packed ->
      readColumnRaw r name = Ok (data, t) -> ReadDictBitpack r name = Ok values.
Proof.
  intros Hv Hu Hn Hr d. unfold maxBitpackDictEntries in *.
  pose proof (DictEncodeLimit_lemma values 256 ltac:(done)) as [_ _ Hlen _ Hlen' Hrange _].
  destruct (dict_section_fits values 256 ltac:(done) Hv) as [Hf Hs].
  fold d in Hlen, Hlen', Hrange, Hf, Hs. len_pose.
  assert (uint8 <$> Indices d = Indices d) as Hidx.
  { clear - Hrange Hlen. induction Hrange as [| i l Hi Hrange IH]; [done |].
    rewrite fmap_cons, IH. f_equal. apply uint8_small. unfold is_uint. lia. }
  rewrite Hidx. pose proof (BitsNeeded_range (len (Dict d)) Hlen) as Hbits.
  assert (fits (BitsNeeded (len (Dict d))) (Indices d)) as Hfits.
  { eapply list.Forall_impl; [exact Hrange |]. intros i Hi. cbn beta in Hi.
    destruct (Z.leb_spec 2 (len (Dict d))).
    - pose proof (BitsNeeded_spec (len (Dict d)) ltac:(lia)). lia.
    - assert (2 ^ 1 <= 2 ^ BitsNeeded (len (Dict d))) by (apply Z.pow_le_mono_r; lia). lia. }
  assert (len (Indices d) = len values) as Hcount by (unfold len; by rewrite Hlen').
  destruct (Bitpack_roundtrip_lemma (Indices d) _ Hbits Hfits) as (packed & He & Hd); [lia |].
  exists packed. split; [done |]. intros data t Hdata Hraw.
  assert (serializeDictOnly (Dict d) = dict_section d) as Hser.
  { unfold serializeDictOnly, dict_section, AppendUint16. rewrite append_strings_app, app_nil_l.
    by rewrite uint16_small by lia. }
  rewrite Hser in Hdata. unfold AppendUint32 in Hdata. rewrite app_nil_l in Hdata. len_pose.
  rewrite uint32_small in Hdata by lia.
  unfold ReadDictBitpack. rewrite (column_or_ok _ _ _ _ _ _ Hraw).
  pose proof (f_equal len Hdata) as Hl. autorewrite with len in Hl. len_pose. zcmp.
  rewrite (slice_split data [] (le_bytes 4 (len (dict_section d))) (dict_section d ++ packed))
    by (done || len_lia).
  cbn [mbind result_bind]. rewrite <- (app_nil_r (le_bytes 4 _)) at 1.
  rewrite Uint32_app by (unfold is_uint; lia). cbn [mbind result_bind]. zcmp.
  rewrite (slice_split data (le_bytes 4 (len (dict_section d))) (dict_section d) packed)
    by (done || len_lia).
  cbn [mbind result_bind].
  rewrite (slice_from_split data (le_bytes 4 (len (dict_section d)) ++ dict_section d) packed)
    by (rewrite <- ?app_assoc; done || len_lia).
  cbn [mbind result_bind]. rewrite Hr.
  rewrite <- (app_nil_r (dict_section d)). unfold dict_section at 1. rewrite <- app_assoc.
  rewrite read_strings_dict by (done || lia). cbn [wrap mbind result_bind].
  rewrite Hd. cbn [wrap mbind result_bind].
  replace (mkDict (Dict d) (Indices d)) with d by (by destruct d). subst d.
  rewrite DictLookup_folded, folded_all by done. done.
Qed.

Lemma dict_column_ok values r name t :
  strings_fit values -> len (uniq ([] :: values)) <= MaxDictEntries ->
  len values <= maxChunkEntries -> lenFormat r = LenExtended -> EntryCount r = len values ->
  readColumnRaw r name = Ok (DictMarshal (DictEncode values), t) ->
  ReadDictZstd r name = Ok values.
Proof.
  intros Hv Hu Hn Hr Hc Hraw. unfold DictEncode in *.
  pose proof (DictEncodeLimit_lemma values MaxDictEntries ltac:(done))
    as [_ _ Hlen _ Hlen' Hrange _].
  destruct (dict_section_fits values MaxDictEntries ltac:(done) Hv) as [Hf Hs].
  set (d := DictEncodeLimit values MaxDictEntries) in *.
  assert (len (Indices d) = len values) as Hcount by (unfold len; by rewrite Hlen').
  unfold ReadDictZstd. rewrite (column_or_ok _ _ _ _ _ _ Hraw), Hr, Hc, <- Hcount.
  rewrite Dict_roundtrip_lemma.
  - cbn [wrap mbind result_bind]. subst d. by rewrite DictLookup_folded, folded_all by done.
  - done.
  - done.
  - done.
  - eapply list.Forall_impl; [exact Hrange |]. intros i Hi. cbn beta in Hi. unfold is_uint.
    change MaxDictEntries with 65535 in Hlen. lia.
  - rewrite Hcount. change maxChunkEntries with (2 ^ 20) in Hn.
    change MaxBlockBytes with (2 ^ 31). lia.
Qed.

Lemma extract_len entries name :
  len (extractInt64 entries name) = len entries /\ len (extractString entries name) = len entries /\
  len (extractOptionalInt64 entries name) = len entries /\
  len (extractOptionalBool entries name) = len entries /\ len (extractBody entries) = len entries.
Proof. split_and!; apply len_fmap. Qed.

Lemma sparse_strings_fit values :
  strings_fit values ->
  len (filter (fun v => non_empty v = true) values ≫= frame) <= MaxBlockBytes.
Proof.
  intros [_ Hb]. etrans; [| exact Hb]. apply bind_sublist_len, sublist_filter.
Qed.

(** Every column is encoded, and reading the block gives the column back. *)
Lemma column_roundtrip entries col :
  entries <> [] -> len entries <= maxChunkEntries -> column_fits entries col ->
  exists data nulls, encodeColumn entries col = Ok (data, nulls) /\
    forall r t, EntryCount r = len entries -> lenFormat r = LenExtended ->
      readColumnRaw r (Name col) = Ok (data, t) -> reads r entries col.
Proof.
  intros Hne Hn [Hfit _]. destruct (extract_len entries (Name col)) as (L1 & L2 & L3 & L4 & L5).
  change maxChunkEntries with (2 ^ 20) in Hn. pose proof (eq_refl : MaxBlockBytes = 2 ^ 31) as Hmax.
  unfold encodeColumn, reads. destruct (Type_ col).
  - do 2 eexists. split; [done |]. intros r t Hc Hf Hr. unfold ReadDeltaInt64.
    rewrite (column_or_ok _ _ _ _ _ _ Hr), Hc, <- L1. apply Delta_roundtrip_lemma; [| done | lia].
    by destruct entries.
  - do 2 eexists. split; [done |]. intros r t Hc Hf Hr. unfold ReadZstdInt64.
    rewrite (column_or_ok _ _ _ _ _ _ Hr), Hc, <- L1. apply ZstdBlockInt64_roundtrip_lemma; [done | lia].
  - destruct Hfit as [Hv Hu].
    pose proof (bitpack_column_ok (extractString entries (Name col))
      (mkChunkReader [] 0 0 0 LenExtended ∅) (Name col) Hv Hu ltac:(lia) eq_refl) as (p & Hp & _).
    do 2 eexists. split; [by rewrite Hp |]. intros r t Hc Hf Hr.
    pose proof (bitpack_column_ok (extractString entries (Name col)) r (Name col) Hv Hu
      ltac:(lia) Hf) as (p' & Hp' & H). rewrite Hp in Hp'. injection Hp' as <-.
    eapply H; [| exact Hr]. by rewrite <- ?app_assoc.
  - destruct Hfit as [Hv Hu]. do 2 eexists. split; [done |]. intros r t Hc Hf Hr.
    eapply dict_column_ok; try done; [change maxChunkEntries with (2 ^ 20); lia | lia].
  - do 2 eexists. split; [done |]. intros r t Hc Hf Hr. unfold ReadZstdBlockStrings.
    rewrite (column_or_ok _ _ _ _ _ _ Hr), Hc, Hf, <- L2.
    apply ZstdBlockStrings_roundtrip_lemma; [by apply strings_fit_framable | apply Hfit | apply Hfit].
  - destruct (SparseStrings_roundtrip_lemma (extractString entries (Name col)) LenExtended)
      as (data & He & Hd); [by apply strings_fit_framable | apply Hfit | lia | by apply sparse_strings_fit |].
    do 2 eexists. split; [by rewrite He |]. intros r t Hc Hf Hr. unfold ReadSparseStrings.
    by rewrite (column_or_ok _ _ _ _ _ _ Hr), Hc, Hf, <- L2.
  - destruct (SparseInt64_roundtrip_lemma (extractOptionalInt64 entries (Name col)))
      as (data & He & Hd); [done | lia | lia |].
    do 2 eexists. split; [by rewrite He |]. intros r t Hc Hf Hr. unfold ReadSparseInt64.
    by rewrite (column_or_ok _ _ _ _ _ _ Hr), Hc, <- L3.
  - destruct (SparseBool_roundtrip_lemma (extractOptionalBool entries (Name col)))
      as (data & He & Hd); [lia |].
    do 2 eexists. split; [by rewrite He |]. intros r t Hc Hf Hr. unfold ReadSparseBool.
    by rewrite (column_or_ok _ _ _ _ _ _ Hr), Hc, <- L4.
  - destruct (SparseBytes_roundtrip_lemma (extractBody entries)) as (data & He & Hd);
      [apply Hfit | lia | apply Hfit |].
    do 2 eexists. split; [by rewrite He |]. intros r t Hc Hf Hr. unfold ReadSparseBytes.
    by rewrite (column_or_ok _ _ _ _ _ _ Hr), Hc, <- L5.
  - destruct (SparseStrings_roundtrip_lemma (extractString entries (Name col)) LenExtended)
      as (data & He & Hd); [by apply strings_fit_framable | apply Hfit | lia | by apply sparse_strings_fit |].
    do 2 eexists. split; [by rewrite He |]. intros r t Hc Hf Hr. unfold ReadSparseStrings.
    by rewrite (column_or_ok _ _ _ _ _ _ Hr), Hc, Hf, <- L2.
Qed.

(** ** Whole files *)

Definition chunk_fits (entries : list Entry) : Prop :=
  entries <> [] /\ len entries <= maxChunkEntries /\ Forall (column_fits entries) Schema.

Lemma encodes_all entries cols :
  entries <> [] -> len entries <= maxChunkEntries -> Forall (column_fits entries) cols ->
  exists encs, Forall2 (encodes entries) cols encs /\ Forall (fun enc => len enc.1 < 2 ^ 32) encs.
Proof.
  intros Hne Hn. induction 1 as [| col cols Hfit Hf IH]; [by exists [] |].
  destruct IH as (encs & H2 & Hl).
  destruct (column_roundtrip entries col Hne Hn Hfit) as (data & nulls & He & _).
  exists ((data, nulls) :: encs). split; constructor; try done.
  destruct Hfit as [_ Hs]. by apply (Hs data nulls).
Qed.

Lemma encs_total (encs : list (bytes * Z)) :
  Forall (fun enc => len enc.1 < 2 ^ 32) encs -> len (encs ≫= fst) <= len encs * 2 ^ 32.
Proof.
  induction 1 as [| [d n] encs Hd Hf IH]; [done |]. rewrite bind_cons, len_app, len_cons.
  cbn [fst] in *. lia.
Qed.

Lemma chunk_roundtrip_lemma entries :
  chunk_fits entries ->
  exists f r, write_chunk entries = Ok f /\ OpenReader f = Ok r /\
    EntryCount r = len entries /\ lenFormat r = LenExtended /\
    Forall (fun col => HasColumn r (Name col) = true /\ reads r entries col) Schema.
Proof.
  intros (Hne & Hn & Hfit).
  destruct (encodes_all entries Schema Hne Hn Hfit) as (encs & H2 & Hl).
  pose proof (Forall2_length _ _ _ H2) as Hlen. pose proof (encs_total encs Hl) as Ht.
  assert (len encs = 47) as H47 by (unfold len; by rewrite <- Hlen).
  rewrite H47 in Ht. pose proof (eq_refl : HeaderSize = 64) as H64.
  exists (chunk_file entries encs), (chunk_reader entries encs).
  split; [apply write_chunk_ok; [done | lia] |].
  split; [apply OpenReader_ok; [done | done | lia] |]. split; [done |]. split; [done |].
  apply list.Forall_forall. intros col (pre & post & HS)%list_elem_of_split.
  pose proof H2 as H2'. rewrite HS in H2'.
  apply Forall2_app_inv_l in H2' as (epre & rest & Hp & Hr & ->).
  inversion Hr as [| ? [data nulls] ? epost He Hpost]; subst.
  apply Forall_app in Hl as [_ Hl]. inversion Hl as [| ? ? Hd _]; subst. cbn [fst] in Hd.
  destruct (readColumnRaw_ok entries pre col post epre data nulls epost) as [Hraw (d & Hdir & _)];
    [done | by eapply Forall2_length | by eapply Forall2_length | done | lia |].
  split; [unfold HasColumn; by rewrite Hdir |].
  rewrite list.Forall_forall in Hfit. assert (col ∈ Schema) as Hin.
  { rewrite HS. apply elem_of_app. right. left. }
  destruct (column_roundtrip entries col Hne Hn (Hfit col Hin)) as (data' & nulls' & He' & H').
  unfold encodes in He. rewrite He in He'. injection He' as <- <-. by eapply H'.
Qed.

(** ** Arbitrary files *)

Lemma ReadAt_no_panic f n off : 0 <= n -> no_panic (ReadAt f n off).
Proof.
  intros Hn. unfold ReadAt. destruct (Z.ltb_spec off 0); [done |].
  destruct (Z.eqb_spec n 0); [done |]. destruct (Z.leb_spec (off + n) (len f)); [| done].
  apply slice_no_panic; lia.
Qed.

Lemma ReadAt_len f n off b : 0 <= n -> ReadAt f n off = Ok b -> len b = n.
Proof.
  intros Hn. unfold ReadAt. destruct (Z.ltb_spec off 0); [done |].
  destruct (Z.eqb_spec n 0) as [-> |]; [by intros [= <-] |].
  destruct (Z.leb_spec (off + n) (len f)); [| done]. rewrite slice_ok by lia. intros [= <-].
  rewrite len_take; [lia |]. rewrite len_drop; lia.
Qed.

Definition dir_sane (e : DirectoryEntry) : Prop := 0 <= dCompressedSize e < 2 ^ 32.

Lemma directory_loop_safe n data off :
  0 <= off ->
  no_panic (directory_loop n data off) /\
  (forall ds, directory_loop n data off = Ok ds -> Forall dir_sane ds).
Proof.
  revert off. induction n as [| n IH]; intros off Ho; cbn [directory_loop].
  { split; [done |]. by intros ds [= <-]. }
  destruct (Z.leb_spec (len data) off) as [| H1]; [done |].
  unfold index8. destruct (index_ok data off) as (x & -> & _); [lia |].
  cbn [fmap result_fmap mbind result_bind].
  assert (0 <= uint8 x) by (apply Z.mod_pos_bound; lia).
  destruct (Z.ltb_spec (len data) (off + 1 + uint8 x)) as [| H2]; [done |].
  rewrite slice_ok by lia. cbn [mbind result_bind].
  destruct (Z.ltb_spec (len data) (off + 1 + uint8 x + 17)) as [| H3]; [done |].
  destruct (index_ok data (off + 1 + uint8 x)) as (y & -> & _); [lia |].
  cbn [fmap result_fmap mbind result_bind].
  rewrite !slice_from_ok by lia. cbn [mbind result_bind]. unfold Uint64, Uint32, Uint16.
  assert (forall k i, 0 <= i -> i + Z.of_nat k <= len data ->
    exists v, le_uint k (drop (Z.to_nat i) data) = Ok v /\ 0 <= v < 256 ^ Z.of_nat k) as Hle.
  { intros k i Hi Hk. destruct (le_uint k (drop (Z.to_nat i) data)) as [v | |] eqn:E.
    - exists v. split; [done |]. by apply le_uint_range in E.
    - unfold le_uint in E. by destruct (_ <=? _).
    - by apply le_uint_no_panic in E; [| rewrite len_drop; lia]. }
  destruct (Hle 8%nat (off + 1 + uint8 x + 1)) as (v1 & -> & _); [lia | lia |].
  destruct (Hle 4%nat (off + 1 + uint8 x + 1 + 8)) as (v2 & -> & Hv2); [lia | lia |].
  destruct (Hle 4%nat (off + 1 + uint8 x + 1 + 8 + 4)) as (v3 & -> & _); [lia | lia |].
  cbn [mbind result_bind].
  destruct (IH (off + 1 + uint8 x + 1 + 8 + 4 + 4)) as [Hp Hs]; [lia |].
  split.
  - apply no_panic_bind; [done |]. done.
  - intros ds (rest & Hr & [= <-])%bind_ok_inv. constructor; [done | by apply Hs].
Qed.

Lemma unmarshalDirectory_safe data n :
  no_panic (unmarshalDirectory data n) /\
  (forall ds, unmarshalDirectory data n = Ok ds -> Forall dir_sane ds).
Proof.
  unfold unmarshalDirectory. destruct (Z.ltb_spec (len data) 2); [done |].
  rewrite slice_ok by lia. cbn [mbind result_bind]. split.
  - apply no_panic_bind; [apply le_uint_no_panic; rewrite len_take; rewrite ?len_drop; lia |].
    intros c _. destruct (negb _); [done |]. by apply directory_loop_safe.
  - intros ds (c & _ & H')%bind_ok_inv. destruct (negb _); [done |].
    by eapply directory_loop_safe in H'.
Qed.

(** What [OpenReader] guarantees about any reader it returns. *)
Record reader_ok (r : Reader) : Prop := {
  ro_count : 0 <= EntryCount r <= maxChunkEntries;
  ro_size : r_size r = len (r_f r);
  ro_dir : forall name e, r_directory r !! name = Some e -> dir_sane e
}.

Lemma dir_map_sane (ds : list DirectoryEntry) (m : gmap bytes DirectoryEntry) name e :
  Forall dir_sane ds -> (forall k d, m !! k = Some d -> dir_sane d) ->
  foldl (fun m e => <[dName e := e]> m) m ds !! name = Some e -> dir_sane e.
Proof.
  intros Hf. revert m. induction Hf as [| d ds Hd Hf IH]; intros m Hm; cbn [foldl]; [by apply Hm |].
  apply IH. intros k x. destruct (decide (k = dName d)) as [-> | Hne].
  - rewrite lookup_insert_eq. by intros [= <-].
  - rewrite lookup_insert_ne by done. apply Hm.
Qed.

Lemma OpenReader_safe f :
  no_panic (OpenReader f) /\ (forall r, OpenReader f = Ok r -> reader_ok r).
Proof.
  unfold OpenReader. destruct (ReadAt f HeaderSize 0) as [h | |] eqn:Eh; cbn [wrap mbind result_bind];
    [| done | by apply ReadAt_no_panic in Eh].
  apply ReadAt_len in Eh; [| done]. change HeaderSize with 64 in Eh.
  rewrite slice_ok by lia. cbn [mbind result_bind]. destruct (negb _); [done |].
  rewrite !slice_from_ok by lia. cbn [mbind result_bind]. unfold Uint64, Uint32, Uint16.
  assert (forall k i, 0 <= i -> i + Z.of_nat k <= 64 ->
    exists v, le_uint k (drop (Z.to_nat i) h) = Ok v /\ 0 <= v) as Hle.
  { intros k i Hi Hk. destruct (le_uint k (drop (Z.to_nat i) h)) as [v | |] eqn:E.
    - exists v. split; [done |]. apply le_uint_range in E. lia.
    - unfold le_uint in E. by destruct (_ <=? _).
    - by apply le_uint_no_panic in E; [| rewrite len_drop; lia]. }
  destruct (Hle 2%nat 4) as (ver & -> & _); [lia | lia |]. cbn [mbind result_bind].
  destruct (_ || _); [done |].
  destruct (Hle 4%nat 8) as (n & -> & Hn); [lia | lia |].
  destruct (Hle 2%nat 12) as (c & -> & _); [lia | lia |].
  destruct (Hle 8%nat 16) as (off & -> & _); [lia | lia |]. cbn [mbind result_bind].
  destruct (_ || _) eqn:E1; [done |].
  destruct ((n <? 0) || (maxChunkEntries <? n)) eqn:E2; [done |].
  destruct ((c <? 0) || (maxChunkColumns <? c)); [done |].
  apply orb_false_iff in E1 as [E1a%Z.ltb_ge E1b%Z.ltb_ge].
  apply orb_false_iff in E2 as [E2a%Z.ltb_ge E2b%Z.ltb_ge].
  destruct (ReadAt f _ (int64 off)) as [b | |] eqn:Eb; cbn [wrap mbind result_bind];
    [| done | by apply ReadAt_no_panic in Eb; [| lia]].
  destruct (unmarshalDirectory_safe b c) as [Hp Hs].
  destruct (unmarshalDirectory b c) as [ds | |] eqn:Ed; cbn [wrap mbind result_bind]; [| done | done].
  split; [done |]. intros r [= <-]. split; cbn [EntryCount r_size r_f r_directory]; [done | done |].
  intros name e. apply dir_map_sane; [by apply Hs |]. done.
Qed.

Lemma column_or_no_panic {A} (zero : A) r name decode :
  reader_ok r -> (forall data, no_panic (decode data)) -> no_panic (column_or zero r name decode).
Proof.
  intros [Hc Hs Hd] Hdec. unfold column_or, readColumnRaw.
  destruct (r_directory r !! str name) as [e |] eqn:E.
  2:{ by destruct (missingColumn _). }
  apply Hd in E. destruct (r_size r <? dCompressedSize e); [by destruct (missingColumn _) |].
  destruct (ReadAt _ _ _) as [b | |] eqn:Er; cbn [wrap mbind result_bind];
    [apply Hdec | by destruct (missingColumn _) |].
  apply ReadAt_no_panic in Er; [done |]. unfold dir_sane in E. lia.
Qed.

Lemma deserializeDictOnly_no_panic data f : no_panic (deserializeDictOnly data f).
Proof.
  unfold deserializeDictOnly. destruct (Z.ltb_spec (len data) 2); [done |].
  rewrite slice_ok by lia. cbn [mbind result_bind].
  apply no_panic_bind; [apply le_uint_no_panic; rewrite len_take; rewrite ?len_drop; lia |].
  intros c _. by apply read_strings_no_panic.
Qed.

Lemma ReadDictBitpack_no_panic r name : reader_ok r -> no_panic (ReadDictBitpack r name).
Proof.
  intros Hr. apply column_or_no_panic; [done |]. intros data.
  destruct (Z.ltb_spec (len data) 4); [done |].
  rewrite slice_ok by lia. cbn [mbind result_bind].
  apply no_panic_bind; [apply le_uint_no_panic; rewrite len_take; rewrite ?len_drop; lia |].
  intros k Hk%le_uint_range. destruct (Z.ltb_spec (len data) (4 + k)); [done |].
  rewrite slice_ok, slice_from_ok by lia. cbn [mbind result_bind].
  apply no_panic_bind; [apply no_panic_wrap, deserializeDictOnly_no_panic |]. intros dict _.
  apply no_panic_bind; [apply no_panic_wrap, BitpackDecode_no_panic | done].
Qed.

Lemma ReadDictZstd_no_panic r name : reader_ok r -> no_panic (ReadDictZstd r name).
Proof.
  intros Hr. apply column_or_no_panic; [done |]. intros data. destruct Hr as [Hc _ _].
  apply no_panic_bind; [apply no_panic_wrap, DictUnmarshal_no_panic; lia | done].
Qed.

Lemma no_panic_fmap {A B} (g : A -> B) (m : result A) : no_panic m -> no_panic (g <$> m).
Proof. by destruct m. Qed.

Lemma ReadColumn_no_panic r name : reader_ok r -> no_panic (ReadColumn r name).
Proof.
  intros Hr. pose proof Hr as [Hc _ _]. unfold ReadColumn.
  destruct (r_directory r !! str name); [| done].
  repeat match goal with |- no_panic (if ?b then _ else _) => destruct b end; try done;
    apply no_panic_fmap; auto using ReadDictBitpack_no_panic, ReadDictZstd_no_panic;
    apply column_or_no_panic; try done; intros data.
  - apply DeltaDecode_no_panic. lia.
  - apply ZstdBlockDecodeInt64_no_panic. lia.
  - apply ZstdBlockDecodeStrings_no_panic. lia.
  - apply UnsparseStrings_no_panic. lia.
  - apply UnsparseInt64_no_panic. lia.
  - apply UnsparseBool_no_panic. lia.
  - apply UnsparseBytes_no_panic. lia.
Qed.

End ChunkLemmas.

(** ** Properties *)

Section ChunkProperties.
Context {C : Zstd} {L : ZstdLaws C}.

(** C14: A chunk written from entries that fit the format opens with the right
    row count, and every one of the 47 schema columns is present and decodes to
    exactly the values extracted from the entries. *)
Theorem chunk_roundtrip (entries : list Entry) :
  chunk_fits entries ->
  exists f r, write_chunk entries = Ok f /\ OpenReader f = Ok r /\
    EntryCount r = len entries /\ lenFormat r = LenExtended /\
    Forall (fun col => HasColumn r (Name col) = true /\ reads r entries col) Schema.
Proof. apply chunk_roundtrip_lemma. Qed.

(** Opening an arbitrary file as a chunk never panics, and no column of a
    reader it returns panics when read, whatever the directory claims. *)
Theorem chunk_never_panics (f : bytes) :
  no_panic (OpenReader f) /\
  forall r name, OpenReader f = Ok r ->
    0 <= EntryCount r <= maxChunkEntries /\ no_panic (ReadColumn r name).
Proof.
  destruct (OpenReader_safe f) as [Hp Hr]. split; [done |]. intros r name Ho.
  apply Hr in Ho. split; [apply Ho | by apply ReadColumn_no_panic].
Qed.

(** The directory is parsed back to the entries it was written from. *)
Theorem directory_roundtrip (es : list DirectoryEntry) :
  Forall dir_ok es -> len es < 2 ^ 16 ->
  unmarshalDirectory (marshalDirectory es) (len es) = Ok es.
Proof. apply unmarshalDirectory_marshal. Qed.

End ChunkProperties.

(** Check the fit of concrete entries column by column. *)
Ltac column_fits_tac :=
  split;
  [ cbv zeta iota beta; repeat split; try (apply (bool_decide_unpack _); vm_compute; exact I);
    repeat constructor; vm_compute; try done; try discriminate
  | intros ? ? Henc; vm_compute in Henc; injection Henc as <- <-; vm_compute; done ].

Definition sample_rows : list Entry :=
  [ set Level (str "warn") (set Message (str "slow query") (set Status 503 (set DurationMs 250
      (set Body (str "{}") (set ID 7 (set Ts 1700000000000 Entry0))))))
  ; set Level (str "info") (set Service (str "api") (set NPlusOne (Some false) (set ID 8 Entry0))) ].

Lemma sample_rows_fit : chunk_fits (C := stored_codec) sample_rows.
Proof.
  split; [done |]. split; [done |]. unfold Schema.
  repeat (apply Forall_cons; split; [column_fits_tac |]). apply Forall_nil; exact I.
Qed.

Lemma chunk_roundtrip_witness :
  exists f r, write_chunk (C := stored_codec) sample_rows = Ok f /\ OpenReader f = Ok r /\
    EntryCount r = 2 /\ lenFormat r = LenExtended /\
    Forall (fun col => HasColumn r (Name col) = true /\ reads (C := stored_codec) r sample_rows col)
      Schema.
Proof. apply (chunk_roundtrip (C := stored_codec) sample_rows), sample_rows_fit. Defined.

Lemma chunk_never_panics_witness :
  no_panic (OpenReader (str "OTCL")) /\
  forall r name, OpenReader (str "OTCL") = Ok r ->
    0 <= EntryCount r <= maxChunkEntries /\ no_panic (ReadColumn (C := stored_codec) r name).
Proof. apply (chunk_never_panics (C := stored_codec) (str "OTCL")). Defined.

Lemma directory_roundtrip_witness :
  unmarshalDirectory (marshalDirectory [mkDir (str "id") 1 64 10 0 3]) 1 =
    Ok [mkDir (str "id") 1 64 10 0 3].
Proof.
  apply (directory_roundtrip [mkDir (str "id") 1 64 10 0 3]); [repeat constructor; done | done].
Defined.
