(* ===== verification/Cache.v ===== *)
(** * Byte-bounded LRU caches (engine/colcache.go, index/cache.go)

    The decoded-column cache and the index cache share one algorithm: a map from
    key to list element, a recency list (front = most recent) and a byte count,
    with an admission limit that is a share of the budget (a quarter for columns,
    a half for indexes).  Main results: the map, the list and the byte count
    never disagree, the budget is never exceeded, the eviction loop only drops
    the least recently used suffix and always makes room. *)

From stdpp Require Import base list gmap strings numbers sorting.
From Stdlib Require Import ZArith Lia.
From S2P Require Import Prelude.

Section LRU.
Context {K V : Type} `{Countable K}.

Record entry := mkCacheEntry { key : K; value : V; size : Z }.

(** [items] holds the element a key points at, [lru] the elements in order. *)
Record cache := mkCache {
  budget : Z;
  used : Z;
  items : gmap K entry;
  lru : list entry
}.

(** A nil cache ([None]) is disabled. *)
Definition newCache (budget : Z) : option cache :=
  if budget <=? 0 then None else Some (mkCache budget 0 ∅ []).

(** [lru.MoveToFront(el)], [lru.Remove(el)]: the element is found by its key. *)
Definition without (k : K) (l : list entry) : list entry :=
  filter (fun e => key e <> k) l.

Definition MoveToFront (el : entry) (l : list entry) : list entry :=
  el :: without (key el) l.

Definition get (c : cache) (k : K) : cache * option V :=
  match items c !! k with
  | None => (c, None)
  | Some el =>
      (mkCache (budget c) (used c) (items c) (MoveToFront el (lru c)), Some (value el))
  end.

(** [for c.used+size > c.budget { evict lru.Back() }]; the second component says
    whether the loop ran out of elements (and [put] returns). *)
Fixpoint evict (fuel : nat) (c : cache) (sz : Z) : cache * bool :=
  if budget c <? used c + sz then
    match fuel, last (lru c) with
    | S fuel, Some oldest =>
        evict fuel
          (mkCache (budget c) (used c - size oldest) (delete (key oldest) (items c))
             (without (key oldest) (lru c))) sz
    | _, _ => (c, true)
    end
  else (c, false).

Definition put (share : Z) (c : cache) (k : K) (v : V) (sz : Z) : cache :=
  if (sz <=? 0) || (budget c / share <? sz) then c
  else
    match items c !! k with
    | Some el => mkCache (budget c) (used c) (items c) (MoveToFront el (lru c))
    | None =>
        let '(c, stuck) := evict (length (lru c)) c sz in
        if stuck : bool then c
        else
          let el := mkCacheEntry k v sz in
          mkCache (budget c) (used c + sz) (<[k := el]> (items c)) (el :: lru c)
    end.

(** [stats], [Stats] *)
Definition stats (c : option cache) : Z * Z :=
  match c with None => (0, 0) | Some c => (Z.of_nat (base.size (items c)), used c) end.

(** ** The invariant *)

Definition total (l : list entry) : Z := foldr (fun e a => size e + a) 0 l.

Record cache_ok (c : cache) : Prop := {
  co_nodup : NoDup (key <$> lru c);
  co_items : forall k e, items c !! k = Some e <-> e ∈ lru c /\ key e = k;
  co_used : used c = total (lru c);
  co_pos : Forall (fun e => 0 < size e) (lru c);
  co_budget : used c <= budget c
}.

Lemma without_app k l1 l2 : without k (l1 ++ l2) = without k l1 ++ without k l2.
Proof. apply filter_app. Qed.

Lemma without_id k l : k ∉ key <$> l -> without k l = l.
Proof.
  intros Hk. unfold without. induction l as [| e l IH]; [done |]. rewrite filter_cons.
  cbn in Hk. rewrite not_elem_of_cons in Hk. destruct Hk as [Hk1 Hk2].
  case_decide as Hd; [by rewrite IH | congruence].
Qed.

Lemma total_app l1 l2 : total (l1 ++ l2) = total l1 + total l2.
Proof. unfold total. induction l1 as [| e l1 IH]; cbn [foldr app]; lia. Qed.

Lemma total_perm l1 l2 : l1 ≡ₚ l2 -> total l1 = total l2.
Proof. unfold total. induction 1; cbn [foldr]; lia. Qed.

Lemma total_nonneg l : Forall (fun e => 0 < size e) l -> 0 <= total l.
Proof. unfold total. induction 1 as [| e l He Hf IH]; cbn [foldr]; lia. Qed.

Lemma MoveToFront_perm e l : NoDup (key <$> l) -> e ∈ l -> MoveToFront e l ≡ₚ l.
Proof.
  intros Hn (l1 & l2 & ->)%list_elem_of_split. unfold MoveToFront.
  rewrite fmap_app, fmap_cons in Hn. apply list.NoDup_app in Hn as (H1 & H2 & H3).
  apply NoDup_cons in H3 as [H3 H4].
  rewrite without_app. rewrite (without_id _ l1).
  - unfold without at 1. rewrite filter_cons. case_decide as E; [done |].
    fold (without (key e) l2). rewrite without_id by done. by rewrite <- Permutation_middle.
  - intros Hin. apply (H2 _ Hin). left.
Qed.

Lemma cache_ok_perm c l :
  cache_ok c -> l ≡ₚ lru c -> cache_ok (mkCache (budget c) (used c) (items c) l).
Proof.
  intros [Hn Hi Hu Hp Hb] Hl. split; cbn [lru items used budget].
  - by rewrite Hl.
  - intros k e. rewrite Hi. by rewrite Hl.
  - by rewrite (total_perm _ _ Hl).
  - by rewrite Hl.
  - done.
Qed.

Lemma get_ok c k : cache_ok c -> cache_ok (get c k).1.
Proof.
  intros Hc. unfold get. destruct (items c !! k) as [e |] eqn:E; [| done]. cbn [fst].
  apply cache_ok_perm; [done |]. destruct Hc as [Hn Hi _ _ _].
  apply Hi in E as [He _]. by apply MoveToFront_perm.
Qed.

Lemma get_items c k : (get c k).2 = value <$> items c !! k /\ items (get c k).1 = items c.
Proof. unfold get. by destruct (items c !! k). Qed.

(** A hit returns the stored value and makes the key the most recent. *)
Lemma get_spec c k :
  cache_ok c ->
  (get c k).2 = value <$> items c !! k /\ items (get c k).1 = items c /\
  (forall e, items c !! k = Some e -> lru (get c k).1 = e :: without k (lru c)).
Proof.
  intros Hc. unfold get. destruct (items c !! k) as [e |] eqn:E; cbn; [| done].
  split_and!; try done. intros ? [= <-].
  destruct Hc as [_ Hi _ _ _]. apply Hi in E as [_ <-]. done.
Qed.

Lemma without_last k l e : NoDup (key <$> (l ++ [e])) -> key e = k -> without k (l ++ [e]) = l.
Proof.
  intros Hn <-. rewrite fmap_app in Hn. apply list.NoDup_app in Hn as (_ & Hn & _).
  rewrite without_app, without_id.
  - unfold without. rewrite filter_cons. case_decide; [done |]. cbn. apply app_nil_r.
  - intros Hin. apply (Hn _ Hin). left.
Qed.

(** Eviction keeps the invariant and a prefix of the list, and stops as soon as
    the new entry fits. *)
Lemma evict_ok fuel c sz c' stuck :
  cache_ok c -> (length (lru c) <= fuel)%nat -> 0 < sz <= budget c ->
  evict fuel c sz = (c', stuck) ->
  cache_ok c' /\ stuck = false /\ used c' + sz <= budget c' /\ budget c' = budget c /\
  lru c' `prefix_of` lru c.
Proof.
  revert c. induction fuel as [| fuel IH]; intros c Hc Hf Hs He.
  - assert (lru c = []) as Hl by (destruct (lru c); [done | cbn in Hf; lia]).
    pose proof Hc as [_ _ Hu _ _]. rewrite Hl in Hu. cbn in Hu. cbn [evict] in He.
    rewrite (proj2 (Z.ltb_ge _ _)) in He by lia. injection He as <- <-.
    split_and!; done || lia.
  - cbn [evict] in He. destruct (Z.ltb_spec (budget c) (used c + sz)) as [Hlt | Hge].
    2:{ injection He as <- <-. split_and!; done. }
    destruct (last (lru c)) as [old |] eqn:El.
    2:{ apply last_None in El. destruct Hc as [_ _ Hu _ _]. rewrite El in Hu. cbn in Hu. lia. }
    apply last_Some in El as [l Hl]. pose proof Hc as [Hn Hi Hu Hp Hb].
    assert (without (key old) (lru c) = l) as Hw.
    { rewrite Hl in *. by apply without_last. }
    rewrite Hw in He. apply IH in He.
    + cbn [budget lru] in He. destruct He as (H1 & H2 & H3 & H4 & H5). split_and!; try done.
      etrans; [exact H5 |]. rewrite Hl. by apply prefix_app_r.
    + rewrite Hl in Hn, Hp, Hu. rewrite fmap_app in Hn. apply list.NoDup_app in Hn as (N1 & N2 & _).
      apply Forall_app in Hp as [P1 P2]. rewrite total_app in Hu. cbn in Hu.
      split; cbn [lru items used budget]; try done; try lia.
      * intros k e. rewrite lookup_delete_Some, Hi, Hl, elem_of_app, list_elem_of_singleton.
        split.
        -- intros (Hne & [He' | ->] & Hk); [done | congruence].
        -- intros [He' Hk]. split; [| by auto]. intros E. apply (N2 (key e)).
           ++ by apply list_elem_of_fmap_2.
           ++ rewrite Hk, <- E. left.
      * inversion P2; subst. lia.
    + cbn [lru]. rewrite Hl in Hf. rewrite length_app in Hf. cbn in Hf. lia.
    + done.
Qed.

Lemma put_ok share c k v sz : 1 <= share -> cache_ok c -> cache_ok (put share c k v sz).
Proof.
  intros Hsh Hc. unfold put. destruct (_ || _) eqn:Eb; [done |].
  apply orb_false_iff in Eb as [E1%Z.leb_gt E2%Z.ltb_ge].
  destruct (items c !! k) as [e |] eqn:Ei.
  { apply cache_ok_perm; [done |]. destruct Hc as [Hn Hi _ _ _]. apply Hi in Ei as [He _].
    by apply MoveToFront_perm. }
  destruct (evict _ c sz) as [c' stuck] eqn:Ee.
  assert (0 <= budget c) as Hb0.
  { destruct Hc as [_ _ Hu Hp Hb]. apply total_nonneg in Hp. lia. }
  assert (budget c / share <= budget c) by (apply Z.div_le_upper_bound; nia).
  apply evict_ok in Ee as (Hc' & -> & Hfit & Hbud & Hpre); [| done | lia | lia].
  destruct Hc' as [Hn Hi Hu Hp Hb]. pose proof Hc as [Hn0 Hi0 _ _ _].
  assert (k ∉ key <$> lru c') as Hk.
  { intros (e & -> & He)%list_elem_of_fmap. destruct Hpre as [s Hs].
    assert (items c !! key e = Some e) as Hx.
    { apply Hi0. split; [| done]. rewrite Hs. apply elem_of_app. by left. }
    by rewrite Ei in Hx. }
  split; cbn [lru items used budget]; try lia.
  - cbn. by constructor.
  - intros k' e. destruct (decide (k = k')) as [<- | Hne].
    + rewrite lookup_insert_eq, elem_of_cons. split.
      * intros [= <-]. split; [by left | done].
      * intros [[-> | He] Hk']; [done |]. destruct Hk. rewrite <- Hk'. by apply list_elem_of_fmap_2.
    + rewrite lookup_insert_ne, Hi, elem_of_cons by done. split; [naive_solver |].
      intros [[-> | He] Hk']; [done | done].
  - unfold total in *. cbn [foldr size]. lia.
  - by constructor.
Qed.

(** An admissible new key is stored with its value, whatever had to go. *)
Lemma put_stores share c k v sz :
  1 <= share -> cache_ok c -> 0 < sz <= budget c / share -> items c !! k = None ->
  let c' := put share c k v sz in
  items c' !! k = Some (mkCacheEntry k v sz) /\
  exists kept, lru c' = mkCacheEntry k v sz :: kept /\ kept `prefix_of` lru c.
Proof.
  intros Hsh Hc Hsz Hk. cbv zeta. unfold put.
  rewrite (proj2 (Z.leb_gt sz 0)), (proj2 (Z.ltb_ge (budget c / share) sz)) by lia. cbn [orb].
  rewrite Hk. destruct (evict _ c sz) as [c' stuck] eqn:Ee.
  assert (0 <= budget c) as Hb0.
  { destruct Hc as [_ _ Hu Hp Hb]. apply total_nonneg in Hp. lia. }
  assert (budget c / share <= budget c) by (apply Z.div_le_upper_bound; nia).
  apply evict_ok in Ee as (_ & -> & _ & _ & Hpre); [| done | lia | lia].
  cbn [items lru]. split; [apply lookup_insert_eq | by exists (lru c')].
Qed.

(** Nothing enters the cache but what [put] was given. *)
Lemma evict_items fuel c sz k e :
  items (evict fuel c sz).1 !! k = Some e -> items c !! k = Some e.
Proof.
  revert c. induction fuel as [| fuel IH]; intros c; cbn [evict].
  { by destruct (_ <? _). }
  destruct (_ <? _); [| done]. destruct (last (lru c)) as [old |]; [| done].
  intros H1%IH. cbn [items] in H1. by apply lookup_delete_Some in H1 as [_ H1].
Qed.

Lemma put_items share c k v sz k' e :
  items (put share c k v sz) !! k' = Some e ->
  items c !! k' = Some e \/ (k' = k /\ e = mkCacheEntry k v sz).
Proof.
  unfold put. destruct (_ || _); [by left |].
  destruct (items c !! k) as [x |] eqn:Ei; [by left |].
  destruct (evict _ c sz) as [c' []] eqn:Ee; cbn [items].
  - intros H1. left. apply (evict_items (length (lru c)) c sz). by rewrite Ee.
  - destruct (decide (k = k')) as [<- | Hne].
    + rewrite lookup_insert_eq. intros [= <-]. by right.
    + rewrite lookup_insert_ne by done. intros H1. left.
      apply (evict_items (length (lru c)) c sz). by rewrite Ee.
Qed.

Lemma newCache_ok b c : newCache b = Some c -> cache_ok c.
Proof.
  unfold newCache. destruct (Z.leb_spec b 0); [done |]. intros [= <-].
  split; cbn [lru items used budget]; try done; try lia.
  - constructor.
  - intros k e. rewrite lookup_empty. split; [done |]. by intros [?%elem_of_nil _].
Qed.

End LRU.

Arguments entry K V : clear implicits.
Arguments cache K V {_ _}.

(** ** Properties *)

Section CacheProperties.
Context {K V : Type} `{Countable K}.

(** Lookups and insertions keep the cache consistent: the map and the recency
    list hold the same elements, the byte count is their total, and it never
    exceeds the budget. *)
Theorem cache_invariant (share : Z) (c : cache K V) (k : K) (v : V) (sz : Z) :
  1 <= share -> cache_ok c -> cache_ok (get c k).1 /\ cache_ok (put share c k v sz).
Proof. intros. split; [by apply get_ok | by apply put_ok]. Qed.

(** An admissible entry under a new key is always stored and is then returned
    by a lookup; only a least-recently-used suffix of the others is evicted. *)
Theorem cache_stores (share : Z) (c : cache K V) (k : K) (v : V) (sz : Z) :
  1 <= share -> cache_ok c -> 0 < sz <= budget c / share -> items c !! k = None ->
  (get (put share c k v sz) k).2 = Some v /\
  exists kept, lru (put share c k v sz) = mkCacheEntry k v sz :: kept /\ kept `prefix_of` lru c.
Proof.
  intros Hsh Hc Hsz Hk. destruct (put_stores share c k v sz Hsh Hc Hsz Hk) as [H1 H2].
  split; [| done]. by rewrite (proj1 (get_items _ _)), H1.
Qed.

End CacheProperties.

Lemma cache_invariant_witness :
  cache_ok (get (mkCache (K := Z) (V := bool) 100 0 ∅ []) 7).1 /\
  cache_ok (put 4 (mkCache (K := Z) (V := bool) 100 0 ∅ []) 7 true 20).
Proof.
  apply (cache_invariant 4 (mkCache (K := Z) (V := bool) 100 0 ∅ []) 7 true 20); [done |].
  by apply (newCache_ok 100).
Defined.

Lemma cache_stores_witness :
  (get (put 4 (mkCache (K := Z) (V := bool) 100 0 ∅ []) 7 true 20) 7).2 = Some true /\
  exists kept, lru (put 4 (mkCache (K := Z) (V := bool) 100 0 ∅ []) 7 true 20) =
    mkCacheEntry 7 true 20 :: kept /\ kept `prefix_of` [].
Proof.
  apply (cache_stores 4 (mkCache (K := Z) (V := bool) 100 0 ∅ []) 7 true 20);
    [done | by apply (newCache_ok 100) | done | done].
Defined.
