(* ===== verification/Rows.v ===== *)
(** * Reading entries out of a chunk (engine/chunkcols.go, chunkrow.go, store.go)

    [chunkColumns] memoises decoded columns for one scan, backed by the shared
    column cache; [chunkRow] pulls one row's values out of it and keeps the first
    error; [fillEntryFromChunkProjected] assembles the entry. *)

From stdpp Require Import base list gmap strings numbers sorting.
From Stdlib Require Import ZArith Lia.
From S2P Require Import Prelude Framing Zstd Bitpack Columns Sparse Schema Strconv Wal Chunk Cache.

(** ** Size estimates (colcache.go) *)

Definition maxColumnShareOfBudget : Z := 4.
Definition sliceHeaderBytes : Z := 24.
Definition pointerBytes : Z := 8.
Definition int64Bytes : Z := 8.
Definition perEntryOverhead : Z := 48.
Definition stringSampleLimit : Z := 512.

Definition sizeOfInt64s (v : list Z) : Z := len v * int64Bytes + perEntryOverhead.

Definition sizeOfStrings (v : list bytes) : Z :=
  let total := len v * sliceHeaderBytes in
  let n := Z.min (len v) stringSampleLimit in
  let total :=
    if 0 <? n then
      let sampled := foldl (fun sampled s => sampled + len s) 0 (take (Z.to_nat n) v) in
      total + sampled / n * len v
    else total in
  total + perEntryOverhead.

Definition sizeOfOptInt64s (v : list (option Z)) : Z :=
  foldl (fun total p => match p with Some _ => total + int64Bytes | None => total end)
    (len v * pointerBytes) v + perEntryOverhead.

Definition sizeOfBlobs (v : list (option bytes)) : Z :=
  foldl (fun total b => total + len (default [] b)) (len v * sliceHeaderBytes) v
  + perEntryOverhead.

Definition sizeOfBools (v : list (option bool)) : Z :=
  foldl (fun total p => match p with Some _ => total + 1 | None => total end)
    (len v * pointerBytes) v + perEntryOverhead.

(** ** Memoised columns *)

(** [columnKey] *)
Definition columnKey : Type := bytes * string.

Record chunkColumns := mkCols {
  cc_r : Reader;
  shared : option (cache columnKey column_value);
  path : bytes;
  ints : gmap string (list Z);
  strs : gmap string (list bytes);
  optInts : gmap string (list (option Z));
  bools : gmap string (list (option bool));
  blobs : gmap string (list (option bytes));
  errs : gmap string gerror
}.

Definition newCachedChunkColumns (r : Reader) (shared : option (cache columnKey column_value))
  (path : bytes) : chunkColumns := mkCols r shared path ∅ ∅ ∅ ∅ ∅ ∅.

Definition newChunkColumns (r : Reader) : chunkColumns := newCachedChunkColumns r None [].

Definition entryCount (c : chunkColumns) : Z := EntryCount (cc_r c).
Definition hasColumn (c : chunkColumns) (name : string) : bool := HasColumn (cc_r c) name.

Definition with_shared (s : option (cache columnKey column_value)) (c : chunkColumns)
  : chunkColumns :=
  mkCols (cc_r c) s (path c) (ints c) (strs c) (optInts c) (bools c) (blobs c) (errs c).

Definition with_err (name : string) (err : gerror) (c : chunkColumns) : chunkColumns :=
  mkCols (cc_r c) (shared c) (path c) (ints c) (strs c) (optInts c) (bools c) (blobs c)
    (<[name := err]> (errs c)).

(** The element types of the memo maps: the map each one uses and the dynamic
    value ([any]) it is stored under in the shared cache. *)
Class ColKind (T : Type) := {
  to_any : list T -> column_value;
  of_any : column_value -> option (list T);
  memo : chunkColumns -> gmap string (list T);
  set_memo : gmap string (list T) -> chunkColumns -> chunkColumns
}.

#[export] Instance kind_ints : ColKind Z := {|
  to_any := ColInts;
  of_any v := match v with ColInts v => Some v | _ => None end;
  memo := ints;
  set_memo m c := mkCols (cc_r c) (shared c) (path c) m (strs c) (optInts c) (bools c) (blobs c)
    (errs c)
|}.

#[export] Instance kind_strs : ColKind bytes := {|
  to_any := ColStrs;
  of_any v := match v with ColStrs v => Some v | _ => None end;
  memo := strs;
  set_memo m c := mkCols (cc_r c) (shared c) (path c) (ints c) m (optInts c) (bools c) (blobs c)
    (errs c)
|}.

#[export] Instance kind_optInts : ColKind (option Z) := {|
  to_any := ColOptInts;
  of_any v := match v with ColOptInts v => Some v | _ => None end;
  memo := optInts;
  set_memo m c := mkCols (cc_r c) (shared c) (path c) (ints c) (strs c) m (bools c) (blobs c)
    (errs c)
|}.

#[export] Instance kind_bools : ColKind (option bool) := {|
  to_any := ColBools;
  of_any v := match v with ColBools v => Some v | _ => None end;
  memo := bools;
  set_memo m c := mkCols (cc_r c) (shared c) (path c) (ints c) (strs c) (optInts c) m (blobs c)
    (errs c)
|}.

#[export] Instance kind_blobs : ColKind (option bytes) := {|
  to_any := ColBlobs;
  of_any v := match v with ColBlobs v => Some v | _ => None end;
  memo := blobs;
  set_memo m c := mkCols (cc_r c) (shared c) (path c) (ints c) (strs c) (optInts c) (bools c) m
    (errs c)
|}.

(** [cache[name] = v] *)
Definition remember {T} `{ColKind T} (name : string) (v : list T) (c : chunkColumns)
  : chunkColumns := set_memo (<[name := v]> (memo c)) c.

(** [memoColumn].  A failed decode is remembered; with a shared cache attached
    the cold decode runs under [loads.Do], whose function looks the key up again
    (one caller runs it, so it is inlined here). *)
Definition memoColumn {T} `{ColKind T} (c : chunkColumns) (name : string)
  (read : string -> result (list T)) (sizeOf : list T -> Z) : chunkColumns * result (list T) :=
  match errs c !! name with
  | Some err => (c, Err err)
  | None =>
      match memo c !! name with
      | Some v => (c, Ok v)
      | None =>
          match shared c, bool_decide (path c = []) with
          | Some sh, false =>
              let k := (path c, name) in
              let '(sh, hit) := get sh k in
              let c := with_shared (Some sh) c in
              match hit ≫= of_any with
              | Some typed => (remember name typed c, Ok typed)
              | None =>
                  let '(sh, hit) := get sh k in
                  let c := with_shared (Some sh) c in
                  match hit with
                  | Some loaded =>
                      match of_any loaded with
                      | Some typed => (remember name typed c, Ok typed)
                      | None => (c, Err (Errorf "cached column has unexpected type"))
                      end
                  | None =>
                      match read name with
                      | Ok v =>
                          let sh := put maxColumnShareOfBudget sh k (to_any v) (sizeOf v) in
                          (remember name v (with_shared (Some sh) c), Ok v)
                      | Err err => (with_err name err c, Err err)
                      | Panic => (c, Panic)
                      end
                  end
              end
          | _, _ =>
              match read name with
              | Ok v => (remember name v c, Ok v)
              | Err err => (with_err name err c, Err err)
              | Panic => (c, Panic)
              end
          end
      end
  end.

Section Rows.
Context {C : Zstd}.

Definition deltaInt64 (c : chunkColumns) (name : string) :=
  memoColumn c name (ReadDeltaInt64 (cc_r c)) sizeOfInt64s.
Definition zstdInt64 (c : chunkColumns) (name : string) :=
  memoColumn c name (ReadZstdInt64 (cc_r c)) sizeOfInt64s.
Definition dictBitpack (c : chunkColumns) (name : string) :=
  memoColumn c name (ReadDictBitpack (cc_r c)) sizeOfStrings.
Definition dictZstd (c : chunkColumns) (name : string) :=
  memoColumn c name (ReadDictZstd (cc_r c)) sizeOfStrings.
Definition zstdBlockStrings (c : chunkColumns) (name : string) :=
  memoColumn c name (ReadZstdBlockStrings (cc_r c)) sizeOfStrings.
Definition sparseStrings (c : chunkColumns) (name : string) :=
  memoColumn c name (ReadSparseStrings (cc_r c)) sizeOfStrings.
Definition sparseInt64 (c : chunkColumns) (name : string) :=
  memoColumn c name (ReadSparseInt64 (cc_r c)) sizeOfOptInt64s.
Definition sparseBool (c : chunkColumns) (name : string) :=
  memoColumn c name (ReadSparseBool (cc_r c)) sizeOfBools.
Definition sparseBytes (c : chunkColumns) (name : string) :=
  memoColumn c name (ReadSparseBytes (cc_r c)) sizeOfBlobs.

(** ** One row *)

Record chunkRow := mkRow { c_c : chunkColumns; c_row : Z; c_err : option gerror }.

(** [chunkValue]: [None] is the false second result. *)
Definition chunkValue {T} (c : chunkRow) (name : string)
  (read : chunkColumns -> string -> chunkColumns * result (list T)) : result (chunkRow * option T) :=
  match c_err c with
  | Some _ => Ok (c, None)
  | None =>
      match read (c_c c) name with
      | (cols, Ok vals) =>
          let c := mkRow cols (c_row c) None in
          if len vals <=? c_row c then Ok (c, None)
          else v ← index vals (c_row c); Ok (c, Some v)
      | (cols, Err err) =>
          if ErrIs err ErrColumnMissing then Ok (mkRow cols (c_row c) None, None)
          else Ok (mkRow cols (c_row c) (Some (Wrapf "read column" err)), None)
      | (_, Panic) => Panic
      end
  end.

(** [c.str], [c.i64] *)
Definition row_value {T} (c : chunkRow) (name : string)
  (read : chunkColumns -> string -> chunkColumns * result (list T))
  (dst : T -> Entry -> Entry) (e : Entry) : result (chunkRow * Entry) :=
  '(c, v) ← chunkValue c name read;
  Ok (c, match v with Some v => dst v e | None => e end).

(** [c.sparseInt], [c.sparseBool], [c.sparseBytes]: a null value leaves the field. *)
Definition row_optional {T} (c : chunkRow) (name : string)
  (read : chunkColumns -> string -> chunkColumns * result (list (option T)))
  (dst : T -> Entry -> Entry) (e : Entry) : result (chunkRow * Entry) :=
  '(c, v) ← chunkValue c name read;
  Ok (c, match v with Some (Some v) => dst v e | _ => e end).

(** The package-level tables. *)
Definition entrySparseStrings : list (string * (bytes -> Entry -> Entry)) := [
  ("version", set Version);
  ("host", set Host);
  ("event_type", set EventType);
  ("trace_id", set TraceID);
  ("span_id", set SpanID);
  ("parent_span_id", set ParentSpanID);
  ("request_id", set RequestID);
  ("user_id", set UserID);
  ("tenant_id", set TenantID);
  ("session_id", set SessionID);
  ("method", set Method);
  ("path", set Path);
  ("route", set Route);
  ("handler", set Handler);
  ("error_class", set ErrorClass);
  ("error_message", set ErrorMessage);
  ("source_file", set SourceFile);
  ("error_fingerprint", set ErrorFingerprint);
  ("job_class", set JobClass);
  ("job_queue", set JobQueue);
  ("job_id", set JobID)
].

Definition entrySparseInts : list (string * (Z -> Entry -> Entry)) := [
  ("duration_ms", set DurationMs);
  ("db_ms", set DbMs);
  ("db_count", set DbCount);
  ("cache_ms", set CacheMs);
  ("cache_hits", set CacheHits);
  ("cache_misses", set CacheMisses);
  ("ext_ms", set ExtMs);
  ("ext_count", set ExtCount);
  ("render_ms", set RenderMs);
  ("alloc_count", set AllocCount);
  ("mem_delta_mb", set MemDeltaMb);
  ("slow_queries", set SlowQueries);
  ("dup_queries", set DupQueries);
  ("source_line", set SourceLine);
  ("queue_ms", set QueueMs)
].

Fixpoint fill_strings (fs : list (string * (bytes -> Entry -> Entry))) (c : chunkRow) (e : Entry)
  : result (chunkRow * Entry) :=
  match fs with
  | [] => Ok (c, e)
  | (col, dst) :: fs =>
      '(c, e) ← row_value c col sparseStrings dst e;
      fill_strings fs c e
  end.

Fixpoint fill_ints (fs : list (string * (Z -> Entry -> Entry))) (c : chunkRow) (e : Entry)
  : result (chunkRow * Entry) :=
  match fs with
  | [] => Ok (c, e)
  | (col, dst) :: fs =>
      '(c, e) ← row_optional c col sparseInt64 dst e;
      fill_ints fs c e
  end.

(** The status column is a decimal string. *)
Definition set_status (status : bytes) (e : Entry) : Entry :=
  if bool_decide (status = []) then e
  else match Atoi status with Some v => set Status v e | None => e end.

Definition fillEntryFromChunkProjected (cols : chunkColumns) (row : Z) (includeBody : bool)
  : result (chunkColumns * Entry * option gerror) :=
  let e := Entry0 in
  let c := mkRow cols row None in
  '(c, e) ← row_value c "id" deltaInt64 (set ID) e;
  '(c, e) ← row_value c "ts" zstdInt64 (set Ts) e;
  '(c, e) ← row_value c "received_at" deltaInt64 (set ReceivedAt) e;
  '(c, e) ← row_value c "level" dictBitpack (set Level) e;
  '(c, e) ← row_value c "service" dictZstd (set Service) e;
  '(c, e) ← row_value c "env" dictZstd (set Env) e;
  '(c, e) ← row_value c "message" zstdBlockStrings (set Message) e;
  '(c, e) ← row_value c "kind" dictZstd (set Kind) e;
  '(c, e) ← fill_strings entrySparseStrings c e;
  '(c, e) ← row_value c "status" sparseStrings set_status e;
  '(c, e) ← fill_ints entrySparseInts c e;
  '(c, e) ← row_optional c "n_plus_one" sparseBool (fun v => set NPlusOne (Some v)) e;
  '(c, e) ← (if includeBody then row_optional c "body" sparseBytes (set Body) e else Ok (c, e));
  Ok (c_c c, e, c_err c).

Definition fillEntryFromChunk (cols : chunkColumns) (row : Z)
  : result (chunkColumns * Entry * option gerror) :=
  fillEntryFromChunkProjected cols row true.

Definition readEntryFromChunk (cols : chunkColumns) (row : Z) : result (chunkColumns * Entry) :=
  '(cols, e, err) ← fillEntryFromChunk cols row;
  match err with Some err => Err err | None => Ok (cols, e) end.

End Rows.

(** ** What a column decodes to *)

Definition column_of (entries : list Entry) (col : ColumnDef) : column_value :=
  match Type_ col with
  | ColDeltaVarint | ColZstdInt64 => ColInts (extractInt64 entries (Name col))
  | ColDictBitpack | ColDictZstd | ColZstdBlock | ColSparseString | ColSparseDictZstd =>
      ColStrs (extractString entries (Name col))
  | ColSparseInt64 => ColOptInts (extractOptionalInt64 entries (Name col))
  | ColSparseBool => ColBools (extractOptionalBool entries (Name col))
  | ColSparseBytes => ColBlobs (extractBody entries)
  end.

Fixpoint find_column (name : string) (cols : list ColumnDef) : option ColumnDef :=
  match cols with
  | [] => None
  | col :: cols => if bool_decide (Name col = name) then Some col else find_column name cols
  end.

Definition canon (entries : list Entry) (name : string) : option column_value :=
  column_of entries <$> find_column name Schema.

Lemma find_column_in name cols col :
  find_column name cols = Some col -> col ∈ cols /\ Name col = name.
Proof.
  induction cols as [| c cols IH]; [done |]. cbn [find_column].
  case_bool_decide; [intros [= <-]; split; [left | done] |].
  intros [H1 H2]%IH. split; [by right | done].
Qed.

(** The entries of each chunk file the shared cache may know. *)
Class World := chunk_at : bytes -> option (list Entry).

(** A cache shared by the scans of many chunks holds true decodings. *)
Definition shared_ok `{World} (sh : cache columnKey column_value) : Prop :=
  forall p es n e, chunk_at p = Some es -> items sh !! (p, n) = Some e ->
    canon es n = Some (value e).

(** The memo maps and the shared cache hold true decodings. *)
Record cols_ok `{World} (r : Reader) (entries : list Entry) (c : chunkColumns) : Prop := {
  ck_r : cc_r c = r;
  ck_errs : errs c = ∅;
  ck_ints : forall n v, ints c !! n = Some v -> canon entries n = Some (ColInts v);
  ck_strs : forall n v, strs c !! n = Some v -> canon entries n = Some (ColStrs v);
  ck_optInts : forall n v, optInts c !! n = Some v -> canon entries n = Some (ColOptInts v);
  ck_bools : forall n v, bools c !! n = Some v -> canon entries n = Some (ColBools v);
  ck_blobs : forall n v, blobs c !! n = Some v -> canon entries n = Some (ColBlobs v);
  ck_shared : forall sh, shared c = Some sh ->
    chunk_at (path c) = Some entries /\ shared_ok sh
}.

Class ColKindLaws {W : World} (T : Type) {K : ColKind T} : Prop := {
  of_to v : of_any (to_any v) = Some v;
  to_of a v : of_any a = Some v -> a = to_any v;
  memo_canon r entries c n v :
    cols_ok r entries c -> memo c !! n = Some v -> canon entries n = Some (to_any v);
  remember_ok r entries c n v :
    cols_ok r entries c -> canon entries n = Some (to_any v) -> cols_ok r entries (remember n v c)
}.

Lemma insert_canon {T} (inj : list T -> column_value) entries (m : gmap string (list T)) n v :
  (forall n v, m !! n = Some v -> canon entries n = Some (inj v)) ->
  canon entries n = Some (inj v) ->
  forall n' v', <[n := v]> m !! n' = Some v' -> canon entries n' = Some (inj v').
Proof.
  intros Hm Hn n' v'. destruct (decide (n = n')) as [<- |].
  - rewrite lookup_insert_eq. by intros [= <-].
  - rewrite lookup_insert_ne by done. apply Hm.
Qed.

Ltac kind_laws :=
  split;
  [ done
  | by intros [] ? [= <-]
  | intros ? ? ? n v []; revert n v; assumption
  | intros ? ? ? ? ? [] ?; split;
    first [ assumption | apply insert_canon; assumption ] ].

#[export] Instance ints_laws `{World} : ColKindLaws Z.
Proof. kind_laws. Qed.
#[export] Instance strs_laws `{World} : ColKindLaws bytes.
Proof. kind_laws. Qed.
#[export] Instance optInts_laws `{World} : ColKindLaws (option Z).
Proof. kind_laws. Qed.
#[export] Instance bools_laws `{World} : ColKindLaws (option bool).
Proof. kind_laws. Qed.
#[export] Instance blobs_laws `{World} : ColKindLaws (option bytes).
Proof. kind_laws. Qed.

Lemma with_shared_ok `{World} r entries c sh sh' :
  cols_ok r entries c -> shared c = Some sh -> shared_ok sh' ->
  cols_ok r entries (with_shared (Some sh') c).
Proof.
  intros [] Es H'. split; cbn [with_shared cc_r shared path ints strs optInts bools blobs errs]; try done.
  intros ? [= <-]. split; [| done]. by apply (ck_shared0 sh).
Qed.

(** The caches are transparent: whatever they hold, a read returns what decoding
    the column returns. *)
Lemma memoColumn_ok {W : World} {T} `{!ColKind T} `{!ColKindLaws T} r entries c name read sizeOf v :
  cols_ok r entries c -> canon entries name = Some (to_any v) -> read name = Ok v ->
  exists c', memoColumn c name read sizeOf = (c', Ok v) /\ cols_ok r entries c'.
Proof.
  intros Hc Hcanon Hread.
  assert (forall v', canon entries name = Some (to_any v') -> v' = v) as Hinj.
  { intros v'. rewrite Hcanon. intros [= E]. pose proof (of_to v) as H1. rewrite E, of_to in H1.
    congruence. }
  unfold memoColumn. rewrite (ck_errs _ _ _ Hc), lookup_empty.
  destruct (memo c !! name) as [v' |] eqn:Em.
  { eapply memo_canon in Em; [| done]. rewrite (Hinj v' Em). eauto. }
  assert (exists c', match read name with
    | Ok v => (remember name v c, Ok v) | Err err => (with_err name err c, Err err)
    | Panic => (c, Panic) end = (c', Ok v) /\ cols_ok r entries c') as Hplain.
  { rewrite Hread. eexists. split; [done |]. by apply remember_ok. }
  destruct (shared c) as [sh |] eqn:Es; [| done]. destruct (bool_decide _); [done |].
  destruct (ck_shared _ _ _ Hc _ Es) as [Hp Hsh].
  pose proof (get_items sh (path c, name)) as [G1 G2].
  destruct (get sh (path c, name)) as [sh1 hit]. cbn [fst snd] in G1, G2.
  assert (shared_ok sh1) as Hsh1 by (intros ? ? ? ?; rewrite G2; apply Hsh).
  pose proof (with_shared_ok _ _ _ _ _ Hc Es Hsh1) as Hc1.
  destruct hit as [x |]; symmetry in G1;
    [apply fmap_Some in G1 as (e & Ei & ->) | apply fmap_None in G1 as Ei].
  - apply (Hsh _ _ _ _ Hp) in Ei. rewrite Hcanon in Ei. injection Ei as E.
    cbn [mbind option_bind]. rewrite <- E, of_to. cbv beta iota. eexists. split; [done |]. by apply remember_ok.
  - cbn [mbind option_bind]. pose proof (get_items sh1 (path c, name)) as [G3 G4].
    rewrite G2, Ei in G3. destruct (get sh1 (path c, name)) as [sh2 hit].
    cbn [fst snd fmap option_fmap option_map] in G3, G4. subst hit. rewrite Hread. eexists. split; [done |].
    assert (shared_ok sh2) as Hsh2 by (intros ? ? ? ?; rewrite G4; apply Hsh1).
    apply remember_ok; [| done].
    apply (with_shared_ok r entries (with_shared (Some sh2) (with_shared (Some sh1) c)) sh2);
      [by apply (with_shared_ok r entries (with_shared (Some sh1) c) sh1) | done |].
    intros p es n e Hw [He | [[= -> ->] ->]]%put_items; [by apply (Hsh2 p es n e) |].
    rewrite Hp in Hw. by injection Hw as <-.
Qed.

Section RowLemmas.
Context {C : Zstd} {L : ZstdLaws C} {W : World}.
Context (r : Reader) (entries : list Entry).
Hypothesis Hreads : Forall (reads r entries) Schema.

(** A reader method returns the column, whatever the caches hold. *)
Definition reads_col {T} (read : chunkColumns -> string -> chunkColumns * result (list T))
  (name : string) (vals : list T) : Prop :=
  forall cols, cols_ok r entries cols ->
    exists cols', read cols name = (cols', Ok vals) /\ cols_ok r entries cols'.

Lemma reads_schema name t :
  find_column name Schema = Some (mkColumn name t) -> reads r entries (mkColumn name t).
Proof.
  intros [Hin _]%find_column_in. rewrite list.Forall_forall in Hreads. by apply Hreads.
Qed.

Ltac reads_method :=
  intros Hf cols Hc; pose proof (reads_schema _ _ Hf) as Hr; cbn in Hr;
  apply memoColumn_ok; [done | unfold canon; rewrite Hf; done | by rewrite (ck_r _ _ _ Hc)].

Lemma deltaInt64_ok name :
  find_column name Schema = Some (mkColumn name ColDeltaVarint) ->
  reads_col deltaInt64 name (extractInt64 entries name).
Proof. reads_method. Qed.

Lemma zstdInt64_ok name :
  find_column name Schema = Some (mkColumn name ColZstdInt64) ->
  reads_col zstdInt64 name (extractInt64 entries name).
Proof. reads_method. Qed.

Lemma dictBitpack_ok name :
  find_column name Schema = Some (mkColumn name ColDictBitpack) ->
  reads_col dictBitpack name (extractString entries name).
Proof. reads_method. Qed.

Lemma dictZstd_ok name :
  find_column name Schema = Some (mkColumn name ColDictZstd) ->
  reads_col dictZstd name (extractString entries name).
Proof. reads_method. Qed.

Lemma zstdBlockStrings_ok name :
  find_column name Schema = Some (mkColumn name ColZstdBlock) ->
  reads_col zstdBlockStrings name (extractString entries name).
Proof. reads_method. Qed.

Lemma sparseStrings_ok name t :
  find_column name Schema = Some (mkColumn name t) ->
  t = ColSparseString \/ t = ColSparseDictZstd ->
  reads_col sparseStrings name (extractString entries name).
Proof. intros Hf [-> | ->]; revert Hf; reads_method. Qed.

Lemma sparseInt64_ok name :
  find_column name Schema = Some (mkColumn name ColSparseInt64) ->
  reads_col sparseInt64 name (extractOptionalInt64 entries name).
Proof. reads_method. Qed.

Lemma sparseBool_ok name :
  find_column name Schema = Some (mkColumn name ColSparseBool) ->
  reads_col sparseBool name (extractOptionalBool entries name).
Proof. reads_method. Qed.

Lemma sparseBytes_ok name :
  find_column name Schema = Some (mkColumn name ColSparseBytes) ->
  reads_col sparseBytes name (extractBody entries).
Proof. reads_method. Qed.

Context (row : Z) (x : Entry).
Hypothesis Hrow : 0 <= row.
Hypothesis Hx : entries !! Z.to_nat row = Some x.

Definition row_ok (c : chunkRow) : Prop :=
  cols_ok r entries (c_c c) /\ c_row c = row /\ c_err c = None.

Lemma chunkValue_ok {T} c name read (f : Entry -> T) :
  row_ok c -> reads_col read name (f <$> entries) ->
  exists c', chunkValue c name read = Ok (c', Some (f x)) /\ row_ok c'.
Proof.
  intros (Hc & Hr & He) Hread. unfold chunkValue. rewrite He.
  destruct (Hread _ Hc) as (cols' & -> & Hc'). cbn [c_row]. rewrite Hr, len_fmap.
  assert (row < len entries) by (apply lookup_lt_Some in Hx; unfold len; lia). zcmp.
  cbn [c_row]. unfold index. zcmp. rewrite list_lookup_fmap, Hx. cbn [fmap option_fmap option_map mbind result_bind].
  eexists. split; [done |]. by split.
Qed.

Lemma row_value_ok {T} c name read (f : Entry -> T) dst e :
  row_ok c -> reads_col read name (f <$> entries) ->
  exists c', row_value c name read dst e = Ok (c', dst (f x) e) /\ row_ok c'.
Proof.
  intros Hc Hr. unfold row_value. destruct (chunkValue_ok c name read f Hc Hr) as (c' & -> & Hc').
  cbn [mbind result_bind]. eauto.
Qed.

Lemma row_optional_ok {T} c name read (f : Entry -> option T) dst e :
  row_ok c -> reads_col read name (f <$> entries) ->
  exists c', row_optional c name read dst e =
    Ok (c', match f x with Some v => dst v e | None => e end) /\ row_ok c'.
Proof.
  intros Hc Hr. unfold row_optional.
  destruct (chunkValue_ok c name read f Hc Hr) as (c' & -> & Hc').
  cbn [mbind result_bind]. eauto.
Qed.

(** The value of a string column in an entry. *)
Definition string_value (name : string) (e : Entry) : bytes :=
  match switch name string_cases with Some get => get e | None => [] end.

Definition optional_value (name : string) (e : Entry) : option Z :=
  match switch name optional_int64_cases with
  | Some get => if 0 <? get e then Some (get e) else None
  | None => None
  end.

Lemma fill_strings_ok fs c e :
  row_ok c ->
  Forall (fun f => reads_col sparseStrings f.1 (extractString entries f.1)) fs ->
  exists c', fill_strings fs c e =
    Ok (c', foldl (fun e f => f.2 (string_value f.1 x) e) e fs) /\ row_ok c'.
Proof.
  intros Hc Hf. revert c e Hc. induction Hf as [| [col dst] fs Hr Hf IH]; intros c e Hc.
  { by exists c. }
  cbn [fill_strings foldl fst snd].
  destruct (row_value_ok c col sparseStrings (string_value col) dst e Hc Hr) as (c' & -> & Hc').
  cbn [mbind result_bind]. by apply IH.
Qed.

Definition int_step (e : Entry) (f : string * (Z -> Entry -> Entry)) : Entry :=
  match optional_value f.1 x with Some v => f.2 v e | None => e end.

Lemma fill_ints_ok fs c e :
  row_ok c ->
  Forall (fun f => reads_col sparseInt64 f.1 (extractOptionalInt64 entries f.1)) fs ->
  exists c', fill_ints fs c e = Ok (c', foldl int_step e fs) /\ row_ok c'.
Proof.
  intros Hc Hf. revert c e Hc. induction Hf as [| [col dst] fs Hr Hf IH]; intros c e Hc.
  { by exists c. }
  cbn [fill_ints foldl fst snd].
  destruct (row_optional_ok c col sparseInt64 (optional_value col) dst e Hc Hr) as (c' & -> & Hc').
  cbn [mbind result_bind]. by apply IH.
Qed.

Definition int64_value (name : string) (e : Entry) : Z :=
  match switch name int64_cases with Some get => get e | None => 0 end.

(** The entry a chunk gives back: non-positive integers read as zero. *)
Definition sealed (e : Entry) : Entry := {|
  ID := ID e;
  Ts := Ts e;
  ReceivedAt := ReceivedAt e;
  Level := Level e;
  Service := Service e;
  Message := Message e;
  Env := Env e;
  Version := Version e;
  Host := Host e;
  Kind := Kind e;
  EventType := EventType e;
  TraceID := TraceID e;
  SpanID := SpanID e;
  ParentSpanID := ParentSpanID e;
  RequestID := RequestID e;
  UserID := UserID e;
  TenantID := TenantID e;
  SessionID := SessionID e;
  Method := Method e;
  Path := Path e;
  Route := Route e;
  Handler := Handler e;
  Status := stored_int (Status e);
  DurationMs := stored_int (DurationMs e);
  DbMs := stored_int (DbMs e);
  DbCount := stored_int (DbCount e);
  CacheMs := stored_int (CacheMs e);
  CacheHits := stored_int (CacheHits e);
  CacheMisses := stored_int (CacheMisses e);
  ExtMs := stored_int (ExtMs e);
  ExtCount := stored_int (ExtCount e);
  RenderMs := stored_int (RenderMs e);
  AllocCount := stored_int (AllocCount e);
  MemDeltaMb := stored_int (MemDeltaMb e);
  NPlusOne := NPlusOne e;
  SlowQueries := stored_int (SlowQueries e);
  DupQueries := stored_int (DupQueries e);
  ErrorClass := ErrorClass e;
  ErrorMessage := ErrorMessage e;
  SourceFile := SourceFile e;
  SourceLine := stored_int (SourceLine e);
  ErrorFingerprint := ErrorFingerprint e;
  JobClass := JobClass e;
  JobQueue := JobQueue e;
  JobID := JobID e;
  QueueMs := stored_int (QueueMs e);
  Body := Body e
|}.

Lemma int_step_ok e name (proj : Entry -> Z) {S : Setter proj} :
  switch name optional_int64_cases = Some proj ->
  (forall a, set proj (proj a) a = a) -> proj e = 0 ->
  int_step e (name, set proj) = set proj (stored_int (proj x)) e.
Proof.
  intros Hs Hl H0. unfold int_step, optional_value, stored_int. cbn [fst snd]. rewrite Hs.
  destruct (0 <? proj x); [done |]. rewrite <- H0. by rewrite Hl.
Qed.

Lemma foldl_int_step e f fs : foldl int_step e (f :: fs) = foldl int_step (int_step e f) fs.
Proof. done. Qed.

Lemma set_status_ok e :
  is_int64 (Status x) -> Status e = 0 ->
  set_status (if 0 <? Status x then Itoa (Status x) else []) e =
    set Status (stored_int (Status x)) e.
Proof.
  intros Hi H0. unfold set_status, stored_int, is_int64 in *.
  destruct (Z.ltb_spec 0 (Status x)).
  - rewrite bool_decide_eq_false_2 by (apply Itoa_nonempty; lia).
    by rewrite Atoi_Itoa by lia.
  - rewrite bool_decide_eq_true_2 by done. rewrite <- H0. by destruct e.
Qed.

Lemma set_bool_ok e :
  NPlusOne e = None ->
  match NPlusOne x with Some v => set NPlusOne (Some v) e | None => e end =
    set NPlusOne (NPlusOne x) e.
Proof. intros H0. destruct (NPlusOne x); [done |]. rewrite <- H0. by destruct e. Qed.

Lemma set_body_ok e :
  Body e = [] ->
  match (if 0 <? len (Body x) then Some (Body x) else None) with
  | Some v => set Body v e | None => e end = set Body (Body x) e.
Proof.
  intros H0. destruct (Z.ltb_spec 0 (len (Body x))); [done |].
  assert (Body x = []) as -> by (apply len_0_nil; len_pose; lia). rewrite <- H0. by destruct e.
Qed.

(** The assignments of the row, in order. *)
Definition head_entry : Entry :=
  set Kind (Kind x) (set Message (Message x) (set Env (Env x) (set Service (Service x)
    (set Level (Level x) (set ReceivedAt (ReceivedAt x) (set Ts (Ts x) (set ID (ID x) Entry0))))))).

Definition strings_entry : Entry :=
  foldl (fun e f => f.2 (string_value f.1 x) e) head_entry entrySparseStrings.

Lemma ints_entry :
  foldl int_step (set Status (stored_int (Status x)) strings_entry) entrySparseInts =
    set Body [] (set NPlusOne None (sealed x)).
Proof.
  unfold entrySparseInts.
  repeat (rewrite foldl_int_step; rewrite int_step_ok; [| reflexivity | by intros [] | reflexivity]).
  reflexivity.
Qed.

Ltac step_value lem f :=
  match goal with
  | Hc : row_ok ?c |- context [row_value ?c ?n ?rd ?d ?e] =>
      let Hc' := fresh "Hc" in
      let c' := fresh "c" in
      let E := fresh "E" in
      destruct (row_value_ok c n rd (f n) d e Hc (lem n eq_refl)) as (c' & E & Hc');
      rewrite E; clear E Hc; cbn [mbind result_bind]
  end.

Lemma fillEntry_ok cols body :
  cols_ok r entries cols -> is_int64 (Status x) ->
  exists cols', fillEntryFromChunkProjected cols row body =
    Ok (cols', if body : bool then sealed x else set Body [] (sealed x), None) /\
    cols_ok r entries cols'.
Proof.
  intros Hc Hi. unfold fillEntryFromChunkProjected.
  assert (row_ok (mkRow cols row None)) as Hrow0 by done.
  step_value deltaInt64_ok int64_value. step_value zstdInt64_ok int64_value.
  step_value deltaInt64_ok int64_value. step_value dictBitpack_ok string_value.
  step_value dictZstd_ok string_value. step_value dictZstd_ok string_value.
  step_value zstdBlockStrings_ok string_value. step_value dictZstd_ok string_value.
  match goal with |- context [fill_strings _ ?c ?e] =>
    destruct (fill_strings_ok entrySparseStrings c e) as (c8 & -> & Hc8) end; [done | |].
  { repeat constructor; (eapply sparseStrings_ok; [reflexivity | auto]). }
  cbn [mbind result_bind].
  match goal with |- context [row_value ?c ?n ?rd ?d ?e] =>
    destruct (row_value_ok c n rd (string_value n) d e Hc8) as (c9 & -> & Hc9) end.
  { eapply sparseStrings_ok; [reflexivity | auto]. }
  cbn [mbind result_bind].
  match goal with |- context [fill_ints _ ?c ?e] =>
    destruct (fill_ints_ok entrySparseInts c e) as (c10 & -> & Hc10) end; [done | |].
  { repeat constructor; (eapply sparseInt64_ok; reflexivity). }
  cbn [mbind result_bind].
  match goal with |- context [row_optional ?c ?n ?rd ?d ?e] =>
    destruct (row_optional_ok c n rd NPlusOne d e Hc10 (sparseBool_ok n eq_refl))
      as (c11 & -> & Hc11) end.
  cbn [mbind result_bind].
  set (acc := foldl int_step _ entrySparseInts).
  assert (acc = set Body [] (set NPlusOne None (sealed x))) as ->.
  { subst acc. rewrite <- ints_entry. f_equal. exact (set_status_ok strings_entry Hi eq_refl). }
  rewrite set_bool_ok by done. destruct body.
  - match goal with |- context [row_optional ?c ?n ?rd ?d ?e] =>
      destruct (row_optional_ok c n rd (fun y => if 0 <? len (Body y) then Some (Body y) else None)
        d e Hc11 (sparseBytes_ok n eq_refl)) as (c12 & -> & Hc12) end.
    cbn [mbind result_bind]. rewrite set_body_ok by done.
    destruct Hc12 as (Hk & _ & ->). eexists. by split.
  - cbn [mbind result_bind]. destruct Hc11 as (Hk & _ & ->). eexists. by split.
Qed.

End RowLemmas.

Lemma newCachedChunkColumns_ok `{World} r entries sh p :
  (forall s, sh = Some s -> chunk_at p = Some entries /\ shared_ok s) ->
  cols_ok r entries (newCachedChunkColumns r sh p).
Proof.
  intros Hs. split; cbn [newCachedChunkColumns cc_r errs ints strs optInts bools blobs shared path];
    try done; intros n v; by rewrite lookup_empty.
Qed.

Lemma newChunkColumns_ok `{World} r entries : cols_ok r entries (newChunkColumns r).
Proof. by apply newCachedChunkColumns_ok. Qed.

Lemma stored_int_nonneg z : 0 <= z -> stored_int z = z.
Proof. intros. unfold stored_int. destruct (Z.ltb_spec 0 z); lia. Qed.

Lemma stored_int_idem z : stored_int (stored_int z) = stored_int z.
Proof. apply stored_int_nonneg. unfold stored_int. destruct (Z.ltb_spec 0 z); lia. Qed.

(** A chunk of replayed entries gives them back unchanged. *)
Lemma sealed_stored {C : Zstd} cb e : sealed (stored cb e) = stored cb e.
Proof.
  assert (stored_int (uint16 (stored_int (Status e))) = uint16 (stored_int (Status e))) as Hs.
  { apply stored_int_nonneg. apply Z.mod_pos_bound. lia. }
  unfold sealed, stored. cbn [ID Ts ReceivedAt Level Service Message Env Version Host Kind EventType
    TraceID SpanID ParentSpanID RequestID UserID TenantID SessionID Method Path Route Handler Status
    DurationMs DbMs DbCount CacheMs CacheHits CacheMisses ExtMs ExtCount RenderMs AllocCount
    MemDeltaMb NPlusOne SlowQueries DupQueries ErrorClass ErrorMessage SourceFile SourceLine
    ErrorFingerprint JobClass JobQueue JobID QueueMs Body].
  by rewrite Hs, !stored_int_idem.
Qed.

Lemma readEntry_ok {C : Zstd} {L : ZstdLaws C} {W : World} r entries row x cols :
  Forall (reads r entries) Schema -> 0 <= row -> entries !! Z.to_nat row = Some x ->
  cols_ok r entries cols -> is_int64 (Status x) ->
  exists cols', readEntryFromChunk cols row = Ok (cols', sealed x) /\ cols_ok r entries cols'.
Proof.
  intros Hr Hrow Hx Hc Hi. unfold readEntryFromChunk, fillEntryFromChunk.
  destruct (fillEntry_ok r entries Hr row x Hrow Hx cols true Hc Hi) as (cols' & -> & Hc').
  cbn [mbind result_bind]. eauto.
Qed.

(** ** Properties *)

Section RowProperties.
Context {C : Zstd} {L : ZstdLaws C}.

(** Every row of a written chunk is read back as the entry it was written
    from (non-positive integers as zero), through any state of the scan's memo
    and of the shared column cache that holds true decodings of the chunks it
    knows, and the read leaves such a state. *)
Theorem chunk_row_roundtrip (entries : list Entry) :
  chunk_fits entries -> Forall (fun e => is_int64 (Status e)) entries ->
  exists f r, write_chunk entries = Ok f /\ OpenReader f = Ok r /\
    forall (W : World) cols row x,
      cols_ok r entries cols -> 0 <= row -> entries !! Z.to_nat row = Some x ->
      exists cols', readEntryFromChunk cols row = Ok (cols', sealed x) /\ cols_ok r entries cols'.
Proof.
  intros Hfit Hst. destruct (chunk_roundtrip_lemma entries Hfit) as (f & r & Hw & Ho & _ & _ & Hc).
  exists f, r. split; [done |]. split; [done |]. intros W cols row x Hcols Hrow Hx.
  apply (readEntry_ok r entries); try done.
  - eapply list.Forall_impl; [exact Hc |]. by intros ? [].
  - rewrite list.Forall_forall in Hst. apply Hst. by eapply list_elem_of_lookup_2.
Qed.

(** C2: Durability across sealing, for what the chunk format holds: when the integers of the
    entries fit their Go types, a body that is compressed fits the record codec, and the stored
    forms fit one chunk - no field above one mebibyte, no body above MaxColumnValueBytes,
    no more distinct values than the dictionaries hold ([chunk_fits]) - replaying the log of a
    batch and writing the replayed entries as a chunk, every row of the chunk reads back as the
    stored form of the entry that was appended.  Without the condition on bodies it fails: a
    larger one is logged and sealed but never read again
    ([Sparse.oversized_body_unreadable]). *)
Theorem sealed_rows_equal_wal (cb : bool) (es : list Entry) :
  Forall entry_ok es -> Forall (fun e => cb = true -> len (Body e) <= MaxBlockBytes) es ->
  chunk_fits (stored cb <$> es) ->
  exists entries n f r,
    ReadEntriesFrom (Wal.mkReader (es ≫= framed cb) EOF) = Ok (entries, n, None) /\
    write_chunk entries = Ok f /\ OpenReader f = Ok r /\
    forall row e, 0 <= row -> es !! Z.to_nat row = Some e ->
      exists cols, readEntryFromChunk (newChunkColumns r) row = Ok (cols, stored cb e).
Proof.
  intros Hok Hb Hfit.
  destruct (chunk_roundtrip_lemma _ Hfit) as (f & r & Hw & Ho & _ & _ & Hc).
  destruct (read_entries_loop_replay cb es Entry0 [] 0 [] (S (length (es ≫= framed cb))))
    as (err & Hl & Hiff); [done | done | apply prefix_nil | | |].
  { intros E. apply (f_equal len) in E. pose proof (framed_len cb Entry0) as H1.
    rewrite <- E in H1. done. }
  { pose proof (bind_framed_length cb es). lia. }
  exists (stored cb <$> es), (len (es ≫= framed cb)), f, r. split.
  { unfold ReadEntriesFrom, NewScanner. cbn [rd_data]. rewrite app_nil_r in Hl. rewrite Hl.
    cbn [mbind result_bind sc_consumed sc_err app]. by rewrite (proj2 Hiff eq_refl). }
  split; [done |]. split; [done |]. intros row e Hrow He.
  destruct (readEntry_ok (W := fun _ => None) r (stored cb <$> es) row (stored cb e) (newChunkColumns r))
    as (cols & Hr & _).
  - eapply list.Forall_impl; [exact Hc |]. by intros ? [].
  - done.
  - by rewrite list_lookup_fmap, He.
  - apply newChunkColumns_ok.
  - unfold is_int64, stored. cbn [Status].
    pose proof (Z.mod_pos_bound (stored_int (Status e)) (2 ^ 16) ltac:(lia)). unfold uint16. lia.
  - exists cols. by rewrite Hr, sealed_stored.
Qed.

End RowProperties.

Lemma chunk_row_roundtrip_witness :
  exists f r, write_chunk (C := stored_codec) sample_rows = Ok f /\ OpenReader f = Ok r /\
    forall (W : World) cols row x,
      cols_ok r sample_rows cols -> 0 <= row -> sample_rows !! Z.to_nat row = Some x ->
      exists cols', readEntryFromChunk (C := stored_codec) cols row = Ok (cols', sealed x) /\
        cols_ok r sample_rows cols'.
Proof.
  apply (chunk_row_roundtrip (C := stored_codec) sample_rows);
    [apply sample_rows_fit | repeat constructor; done].
Defined.

Lemma stored_sample_fit : chunk_fits (C := stored_codec) (stored (C := stored_codec) true <$> [sample_entry]).
Proof.
  split; [done |]. split; [done |]. unfold Schema.
  repeat (apply Forall_cons; split; [column_fits_tac |]). apply Forall_nil; exact I.
Qed.

Lemma sealed_rows_equal_wal_witness :
  exists entries n f r,
    ReadEntriesFrom (C := stored_codec)
      (Wal.mkReader ([sample_entry] ≫= framed (C := stored_codec) true) EOF) = Ok (entries, n, None) /\
    write_chunk (C := stored_codec) entries = Ok f /\ OpenReader f = Ok r /\
    forall row e, 0 <= row -> [sample_entry] !! Z.to_nat row = Some e ->
      exists cols, readEntryFromChunk (C := stored_codec) (newChunkColumns r) row =
        Ok (cols, stored (C := stored_codec) true e).
Proof.
  apply (sealed_rows_equal_wal (C := stored_codec) true [sample_entry]);
    [repeat constructor; apply sample_entry_ok | repeat constructor; done | apply stored_sample_fit].
Defined.
