(* ===== verification/Index.v ===== *)
(** * The full-text index (internal/logstore/index)

    tokenizer.go, builder.go and reader.go: messages are split into lowercased
    tokens, each token keeps the rows it occurs in, and the sealed file holds a
    sorted term table over compressed posting lists.  The Unicode tables of the
    Go library are the parameter [Unicode]; nothing is assumed about them. *)

From stdpp Require Import base list gmap strings numbers sorting.
From Stdlib Require Import ZArith Lia.
From S2P Require Import Prelude Framing Zstd.

(** ** Runes *)

Definition RuneError : Z := 65533.

(** A continuation byte in [lo, hi]. *)
Definition cont (lo hi b : Z) : bool := (lo <=? b) && (b <=? hi).

(** [utf8.DecodeRuneInString] on a non-empty string: the rune and its width; a
    malformed sequence is [RuneError] of width 1. *)
Definition DecodeRune (s : bytes) : Z * nat :=
  match s with
  | [] => (RuneError, 0%nat)
  | b0 :: rest =>
      if b0 <? 128 then (b0, 1%nat)
      else if (b0 <? 194) || (244 <? b0) then (RuneError, 1%nat)
      else if b0 <? 224 then
        match rest with
        | b1 :: _ =>
            if cont 128 191 b1 then (Z.lor (Z.shiftl (Z.land b0 31) 6) (Z.land b1 63), 2%nat)
            else (RuneError, 1%nat)
        | [] => (RuneError, 1%nat)
        end
      else if b0 <? 240 then
        match rest with
        | b1 :: b2 :: _ =>
            let lo := if b0 =? 224 then 160 else 128 in
            let hi := if b0 =? 237 then 159 else 191 in
            if cont lo hi b1 && cont 128 191 b2 then
              (Z.lor (Z.shiftl (Z.land b0 15) 12)
                 (Z.lor (Z.shiftl (Z.land b1 63) 6) (Z.land b2 63)), 3%nat)
            else (RuneError, 1%nat)
        | _ => (RuneError, 1%nat)
        end
      else
        match rest with
        | b1 :: b2 :: b3 :: _ =>
            let lo := if b0 =? 240 then 144 else 128 in
            let hi := if b0 =? 244 then 143 else 191 in
            if cont lo hi b1 && cont 128 191 b2 && cont 128 191 b3 then
              (Z.lor (Z.shiftl (Z.land b0 7) 18)
                 (Z.lor (Z.shiftl (Z.land b1 63) 12)
                    (Z.lor (Z.shiftl (Z.land b2 63) 6) (Z.land b3 63))), 4%nat)
            else (RuneError, 1%nat)
        | _ => (RuneError, 1%nat)
        end
  end.

(** [strings.ToLower], [unicode.IsLetter], [unicode.IsDigit] *)
Class Unicode := {
  ToLower : bytes -> bytes;
  IsLetter : Z -> bool;
  IsDigit : Z -> bool
}.

(** ** Tokens *)

(** [strings.FieldsFunc]: the maximal runs of runes that fail [f]; [cur] is the
    run being collected. *)
Fixpoint fields_loop (f : Z -> bool) (fuel : nat) (s cur : bytes) : list bytes :=
  match fuel, s with
  | S fuel, _ :: _ =>
      let '(r, w) := DecodeRune s in
      if f r then
        let rest := fields_loop f fuel (drop w s) [] in
        if bool_decide (cur = []) then rest else cur :: rest
      else fields_loop f fuel (drop w s) (cur ++ take w s)
  | _, _ => if bool_decide (cur = []) then [] else [cur]
  end.

Definition FieldsFunc (s : bytes) (f : Z -> bool) : list bytes := fields_loop f (length s) s [].

(** [terms]: term to row ids. *)
Abbreviation Builder := (gmap bytes (list Z)).

Section Tokenizer.
Context {U : Unicode}.

(** ['_'] is 95, ['-'] is 45. *)
Definition is_separator (r : Z) : bool :=
  negb (IsLetter r) && negb (IsDigit r) && negb (r =? 95) && negb (r =? 45).

Definition Tokenize (s : bytes) : list bytes :=
  let s := ToLower s in
  let tokens := FieldsFunc s is_separator in
  filter (fun t => 2 <= len t) tokens.

Fixpoint unique_loop (tokens : list bytes) (seen : gset bytes) (unique : list bytes) : list bytes :=
  match tokens with
  | [] => unique
  | t :: tokens =>
      if bool_decide (t ∈ seen) then unique_loop tokens seen unique
      else unique_loop tokens ({[t]} ∪ seen) (unique ++ [t])
  end.

Definition TokenizeUnique (s : bytes) : list bytes := unique_loop (Tokenize s) ∅ [].

(** ** Building *)

Definition NewBuilder : Builder := ∅.

Definition add_term (rowIdx : Z) (b : Builder) (t : bytes) : Builder :=
  <[t := default [] (b !! t) ++ [rowIdx]]> b.

Definition Add (b : Builder) (rowIdx : Z) (message : bytes) : Builder :=
  foldl (add_term rowIdx) b (TokenizeUnique message).

End Tokenizer.

(** Go's string order is by bytes. *)
Fixpoint str_lt (a b : bytes) : bool :=
  match a, b with
  | _, [] => false
  | [], _ :: _ => true
  | x :: a, y :: b => if x <? y then true else if x =? y then str_lt a b else false
  end.

Definition str_le (a b : bytes) : Prop := str_lt b a = false.

#[export] Instance str_le_dec a b : Decision (str_le a b).
Proof. unfold str_le. apply _. Defined.

(** [sort.Strings] over the keys of the map. *)
Definition sorted_terms (b : Builder) : list bytes := merge_sort str_le (map_to_list b).*1.

(** [delta := id - prev] in [uint32]. *)
Fixpoint delta_ids (prev : Z) (ids : list Z) (deltas : bytes) : bytes :=
  match ids with
  | [] => deltas
  | id :: ids => delta_ids id ids (PutUvarint deltas (uint64 (uint32 (id - prev))))
  end.

Record termEntry := mkTerm { te_term : bytes; te_offset : Z; te_len : Z }.

Section Index.
Context {C : Zstd} {U : Unicode}.

Fixpoint build_postings (b : Builder) (terms : list bytes) (postingsBuf : bytes)
  (termEntries : list termEntry) : bytes * list termEntry :=
  match terms with
  | [] => (postingsBuf, termEntries)
  | term :: terms =>
      let rowIDs := default [] (b !! term) in
      let deltas := delta_ids 0 rowIDs [] in
      let compressed := Compress deltas in
      build_postings b terms (postingsBuf ++ compressed)
        (termEntries ++ [mkTerm term (uint32 (len postingsBuf)) (uint32 (len compressed))])
  end.

Definition append_term (termTable : bytes) (te : termEntry) : bytes :=
  let termTable := AppendUint16 termTable (uint16 (len (te_term te))) in
  let termTable := termTable ++ te_term te in
  let termTable := AppendUint32 termTable (te_offset te) in
  AppendUint32 termTable (te_len te).

(** The bytes of the index file. *)
Definition Write (b : Builder) (entryCount : Z) : bytes :=
  let sortedTerms := sorted_terms b in
  let '(postingsBuf, termEntries) := build_postings b sortedTerms [] [] in
  let termTable := foldl append_term [] termEntries in
  let header :=
    str "OTIX" ++ le_bytes 4 (uint32 (len sortedTerms)) ++ le_bytes 4 (uint32 entryCount) ++
    le_bytes 4 (uint32 (len termTable)) in
  header ++ termTable ++ postingsBuf.

(** ** Reading *)

Record IndexReader := mkIndex {
  terms : list termEntry;
  postingsData : bytes;
  ix_entryCount : Z
}.

Fixpoint term_loop (n : nat) (termTable : bytes) (offset : Z) : result (list termEntry) :=
  match n with
  | O => Ok []
  | S n =>
      if len termTable <? offset + 2 then Err (Errorf "term table truncated")
      else
        d ← slice_from termTable offset; termLen ← Uint16 d;
        let offset := offset + 2 in
        if len termTable <? offset + termLen + 8 then Err (Errorf "term entry truncated")
        else
          term ← slice termTable offset (offset + termLen);
          let offset := offset + termLen in
          d ← slice_from termTable offset; postingsOffset ← Uint32 d;
          let offset := offset + 4 in
          d ← slice_from termTable offset; postingsLen ← Uint32 d;
          let offset := offset + 4 in
          rest ← term_loop n termTable offset;
          Ok (mkTerm term postingsOffset postingsLen :: rest)
  end.

Definition IndexOpenReader (data : bytes) : result IndexReader :=
  if len data <? 16 then Err (Errorf "index too short")
  else
    m ← slice data 0 4;
    if negb (bool_decide (m = str "OTIX")) then Err (Errorf "invalid index magic")
    else
      d ← slice_from data 4; termCount ← Uint32 d;
      d ← slice_from data 8; entryCount ← Uint32 d;
      d ← slice_from data 12; termTableSize ← Uint32 d;
      if len data <? 16 + termTableSize then Err (Errorf "term table overflows file")
      else
        termTable ← slice data 16 (16 + termTableSize);
        postingsData ← slice_from data (16 + termTableSize);
        terms ← term_loop (Z.to_nat termCount) termTable 0;
        Ok (mkIndex terms postingsData entryCount).

(** [sort.Search(n, f)]: the interval halves, so [n] rounds are enough. *)
Fixpoint search_loop (f : Z -> result bool) (fuel : nat) (i j : Z) : result Z :=
  match fuel with
  | O => Ok i
  | S fuel =>
      if i <? j then
        let h := (i + j) / 2 in
        b ← f h;
        if (b : bool) then search_loop f fuel i h else search_loop f fuel (h + 1) j
      else Ok i
  end.

Definition sort_Search (n : Z) (f : Z -> result bool) : result Z :=
  search_loop f (Z.to_nat n) 0 n.

(** The delta decoding loop; each round consumes a byte. *)
Fixpoint undelta_ids (fuel : nat) (raw : bytes) (prev offset : Z) : result (list Z) :=
  match fuel with
  | O => Ok []
  | S fuel =>
      if offset <? len raw then
        d ← slice_from raw offset;
        let '(delta, n) := Uvarint d in
        if n <=? 0 then Err (Errorf "invalid delta uvarint")
        else
          let prev := uint32 (prev + uint32 delta) in
          ids ← undelta_ids fuel raw prev (offset + n);
          Ok (prev :: ids)
      else Ok []
  end.

Definition lookup_term (r : IndexReader) (term : bytes) : result (list Z) :=
  idx ← sort_Search (len (terms r))
          (fun i => t ← index (terms r) i; Ok (negb (str_lt (te_term t) term)));
  if len (terms r) <=? idx then Ok []
  else
    t ← index (terms r) idx;
    if negb (bool_decide (te_term t = term)) then Ok []
    else if len (postingsData r) <? te_offset t + te_len t then Err (Errorf "postings overflow")
    else
      compressed ← slice (postingsData r) (te_offset t) (uint32 (te_offset t + te_len t));
      raw ← wrap "decompress postings" (Decompress compressed);
      undelta_ids (S (length raw)) raw 0 0.

(** Two cursors; a round advances at least one of them. *)
Fixpoint intersect_loop (fuel : nat) (a b : list Z) : list Z :=
  match fuel with
  | O => []
  | S fuel =>
      match a, b with
      | x :: a', y :: b' =>
          if x =? y then x :: intersect_loop fuel a' b'
          else if x <? y then intersect_loop fuel a' b
          else intersect_loop fuel a b'
      | _, _ => []
      end
  end.

Definition intersectSorted (a b : list Z) : list Z := intersect_loop (length a + length b) a b.

(** The posting lists of the query terms; [None] when one of them is empty. *)
Fixpoint posting_lists (r : IndexReader) (queryTerms : list bytes)
  : result (option (list (list Z))) :=
  match queryTerms with
  | [] => Ok (Some [])
  | qt :: queryTerms =>
      ids ← wrap "lookup" (lookup_term r qt);
      if len ids =? 0 then Ok None
      else
        rest ← posting_lists r queryTerms;
        Ok (rest ≫= fun ls => Some (ids :: ls))
  end.

Fixpoint intersect_all (result : list Z) (lists : list (list Z)) : list Z :=
  match lists with
  | [] => result
  | l :: lists =>
      let result := intersectSorted result l in
      if len result =? 0 then [] else intersect_all result lists
  end.

Definition Search (r : IndexReader) (query : bytes) : result (list Z) :=
  let queryTerms := TokenizeUnique query in
  if len queryTerms =? 0 then Ok []
  else
    postingLists ← posting_lists r queryTerms;
    match postingLists with
    | None => Ok []
    | Some [l] => Ok l
    | Some [] => Panic
    | Some (l :: lists) => Ok (intersect_all l lists)
    end.

End Index.

(** ** Tokens *)

Lemma unique_loop_uniq tokens seen unique :
  (forall t, t ∈ seen <-> t ∈ unique) ->
  unique_loop tokens seen unique = unique ++ uniq_from unique tokens.
Proof.
  revert seen unique. induction tokens as [| t tokens IH]; intros seen unique Hs;
    cbn [unique_loop uniq_from]; [by rewrite app_nil_r |].
  rewrite (bool_decide_ext (t ∈ seen) (t ∈ unique)) by apply Hs.
  case_bool_decide as Ht; [by apply IH |].
  rewrite IH; [by rewrite <- app_assoc |].
  intros x. rewrite elem_of_union, elem_of_singleton, elem_of_app, list_elem_of_singleton, Hs. tauto.
Qed.

Section TokenLemmas.
Context {U : Unicode}.

Lemma TokenizeUnique_uniq s : TokenizeUnique s = uniq (Tokenize s).
Proof. unfold TokenizeUnique. rewrite unique_loop_uniq; [done |]. set_solver. Qed.

Lemma elem_of_TokenizeUnique s t : t ∈ TokenizeUnique s <-> t ∈ Tokenize s.
Proof. rewrite TokenizeUnique_uniq. apply elem_of_uniq. Qed.

Lemma NoDup_TokenizeUnique s : NoDup (TokenizeUnique s).
Proof. rewrite TokenizeUnique_uniq. apply NoDup_uniq. Qed.

(** ** The builder's rows *)

(** The rows, numbered from [i], whose message has the token. *)
Fixpoint rows_from (i : Z) (t : bytes) (msgs : list bytes) : list Z :=
  match msgs with
  | [] => []
  | m :: msgs =>
      if bool_decide (t ∈ Tokenize m) then i :: rows_from (i + 1) t msgs
      else rows_from (i + 1) t msgs
  end.

(** [for i, e := range entries { b.Add(uint32(i), e.Message) }] from row [i]. *)
Fixpoint add_all (i : Z) (msgs : list bytes) (b : Builder) : Builder :=
  match msgs with
  | [] => b
  | m :: msgs => add_all (i + 1) msgs (Add b (uint32 i) m)
  end.

Lemma add_terms_lookup row ts b t :
  NoDup ts ->
  foldl (add_term row) b ts !! t =
    if bool_decide (t ∈ ts) then Some (default [] (b !! t) ++ [row]) else b !! t.
Proof.
  intros Hn. revert b. induction Hn as [| u ts Hu Hn IH]; intros b; [done |].
  cbn [foldl]. rewrite IH. unfold add_term. destruct (decide (t = u)) as [-> | Hne].
  - rewrite bool_decide_eq_false_2 by done. rewrite lookup_insert_eq.
    by rewrite bool_decide_eq_true_2 by (by left).
  - rewrite lookup_insert_ne by done.
    rewrite (bool_decide_ext (t ∈ u :: ts) (t ∈ ts)); [done |].
    rewrite elem_of_cons. tauto || naive_solver.
Qed.

Lemma Add_lookup b row m t :
  Add b row m !! t =
    if bool_decide (t ∈ Tokenize m) then Some (default [] (b !! t) ++ [row]) else b !! t.
Proof.
  unfold Add. rewrite add_terms_lookup by apply NoDup_TokenizeUnique.
  by rewrite (bool_decide_ext _ _ (elem_of_TokenizeUnique m t)).
Qed.

Lemma add_all_lookup msgs i b t :
  0 <= i -> i + len msgs <= 2 ^ 32 ->
  add_all i msgs b !! t =
    match b !! t, rows_from i t msgs with
    | None, [] => None
    | o, rows => Some (default [] o ++ rows)
    end.
Proof.
  revert i b. induction msgs as [| m msgs IH]; intros i b Hi Hn.
  { cbn [add_all rows_from]. destruct (b !! t); cbn; by rewrite ?app_nil_r. }
  cbn [add_all rows_from]. rewrite len_cons in Hn. len_pose. rewrite IH by lia.
  rewrite Add_lookup, uint32_small by lia. case_bool_decide.
  - destruct (b !! t); cbn; by rewrite <- ?app_assoc.
  - by destruct (b !! t).
Qed.

Lemma add_all_empty msgs t :
  len msgs <= 2 ^ 32 ->
  add_all 0 msgs NewBuilder !! t =
    match rows_from 0 t msgs with [] => None | rows => Some rows end.
Proof.
  intros Hn. unfold NewBuilder. rewrite add_all_lookup by lia. rewrite lookup_empty.
  by destruct (rows_from 0 t msgs).
Qed.

Lemma elem_of_rows_from t msgs i k :
  k ∈ rows_from i t msgs <->
  exists m, msgs !! Z.to_nat (k - i) = Some m /\ i <= k /\ t ∈ Tokenize m.
Proof.
  revert i. induction msgs as [| m msgs IH]; intros i; cbn [rows_from].
  { split; [by intros ?%elem_of_nil | by intros (m & ? & _)]. }
  assert (k ∈ rows_from (i + 1) t msgs <->
    exists m', (m :: msgs) !! Z.to_nat (k - i) = Some m' /\ i < k /\ t ∈ Tokenize m') as Hrest.
  { rewrite IH. split; intros (m' & H1 & H2 & H3); exists m'; (split; [| split; [lia | done]]).
    - replace (Z.to_nat (k - i)) with (S (Z.to_nat (k - (i + 1)))) by lia. done.
    - replace (Z.to_nat (k - i)) with (S (Z.to_nat (k - (i + 1)))) in H1 by lia. done. }
  case_bool_decide as Ht.
  - rewrite elem_of_cons, Hrest. split.
    + intros [-> | (m' & ? & ? & ?)]; [| exists m'; split_and!; done || lia].
      exists m. by rewrite Z.sub_diag.
    + intros (m' & H1 & H2 & H3). destruct (decide (k = i)) as [-> |]; [by left |].
      right. exists m'. split_and!; done || lia.
  - rewrite Hrest. split.
    + intros (m' & ? & ? & ?). exists m'. split_and!; done || lia.
    + intros (m' & H1 & H2 & H3). exists m'. split_and!; try done.
      destruct (decide (k = i)) as [-> |]; [| lia].
      rewrite Z.sub_diag in H1. by injection H1 as <-.
Qed.

Lemma rows_from_sorted i t msgs :
  StronglySorted Z.lt (rows_from i t msgs) /\ Forall (fun k => i <= k < i + len msgs) (rows_from i t msgs).
Proof.
  revert i. induction msgs as [| m msgs IH]; intros i; cbn [rows_from]; [split; constructor |].
  destruct (IH (i + 1)) as [Hs Hf]. rewrite len_cons. len_pose.
  assert (Forall (fun k => i <= k < i + (1 + len msgs)) (rows_from (i + 1) t msgs)) as Hf'.
  { eapply list.Forall_impl; [exact Hf |]. intros k Hk. cbn beta in *. lia. }
  case_bool_decide; [| done]. split; constructor; try done; try lia.
  eapply list.Forall_impl; [exact Hf |]. intros k Hk. cbn beta in *. lia.
Qed.

End TokenLemmas.

(** ** Byte order *)

Lemma str_lt_irrefl a : str_lt a a = false.
Proof. induction a as [| x a IH]; [done |]. cbn [str_lt]. by rewrite Z.ltb_irrefl, Z.eqb_refl. Qed.

Lemma str_lt_trans a b c : str_lt a b = true -> str_lt b c = true -> str_lt a c = true.
Proof.
  revert b c. induction a as [| x a IH]; intros [| y b] [| z c]; try done. cbn [str_lt].
  destruct (Z.ltb_spec x y), (Z.eqb_spec x y); try done;
    destruct (Z.ltb_spec y z), (Z.eqb_spec y z); try done; zcmp; try done; try lia.
  intros. subst. eauto.
Qed.

Lemma str_lt_total a b : str_lt a b = true \/ a = b \/ str_lt b a = true.
Proof.
  revert b. induction a as [| x a IH]; intros [| y b]; cbn [str_lt]; auto.
  destruct (Z.ltb_spec x y); [by left |]. destruct (Z.eqb_spec x y) as [-> |].
  - rewrite Z.ltb_irrefl, Z.eqb_refl. destruct (IH b) as [H1 | [-> | H1]]; auto.
  - zcmp. auto.
Qed.

Lemma str_lt_asym a b : str_lt a b = true -> str_lt b a = false.
Proof.
  intros H. destruct (str_lt b a) eqn:E; [| done].
  pose proof (str_lt_trans _ _ _ H E) as H'. by rewrite str_lt_irrefl in H'.
Qed.

#[export] Instance str_le_total : Total str_le.
Proof.
  intros a b. unfold str_le. destruct (str_lt_total a b) as [H | [-> | H]].
  - left. by apply str_lt_asym.
  - left. apply str_lt_irrefl.
  - right. by apply str_lt_asym.
Qed.

Lemma str_le_lt a b : str_le a b -> a <> b -> str_lt a b = true.
Proof. unfold str_le. destruct (str_lt_total a b) as [H | [-> | H]]; intros; congruence. Qed.

#[export] Instance str_le_trans : Transitive str_le.
Proof.
  intros a b c Hab Hbc. destruct (decide (a = b)) as [-> | Hne]; [done |].
  destruct (decide (b = c)) as [-> | Hne']; [done |].
  apply str_lt_asym. apply (str_lt_trans a b c); by apply str_le_lt.
Qed.

(** The term list is strictly ascending and holds exactly the keys. *)
Lemma sorted_terms_spec (b : Builder) :
  StronglySorted (fun x y => str_lt x y = true) (sorted_terms b) /\
  (forall t, t ∈ sorted_terms b <-> is_Some (b !! t)) /\ NoDup (sorted_terms b).
Proof.
  unfold sorted_terms. set (ks := (map_to_list b).*1).
  pose proof (merge_sort_Permutation str_le ks) as Hp.
  assert (NoDup (merge_sort str_le ks)) as Hn.
  { rewrite Hp. apply NoDup_fst_map_to_list. }
  split_and!; [| | done].
  - pose proof (StronglySorted_merge_sort str_le ks) as Hs. revert Hn Hs.
    generalize (merge_sort str_le ks). clear Hp ks. intros l.
    induction l as [| x l IH]; intros Hn Hs; [constructor |].
    apply NoDup_cons in Hn as [Hx Hn]. apply StronglySorted_inv in Hs as [Hs Hf].
    constructor; [by apply IH |]. rewrite list.Forall_forall in *.
    intros y Hy. apply str_le_lt; [by apply Hf |]. by intros ->.
  - intros t. rewrite Hp. subst ks. rewrite list_elem_of_fmap. split.
    + intros ([k v] & -> & Hkv%elem_of_map_to_list). by exists v.
    + intros [v Hv]. exists (t, v). split; [done |]. by apply elem_of_map_to_list.
Qed.

(** ** Posting lists *)

Lemma delta_ids_app prev ids buf : delta_ids prev ids buf = buf ++ delta_ids prev ids [].
Proof.
  revert prev buf. induction ids as [| id ids IH]; intros prev buf; cbn [delta_ids];
    [by rewrite app_nil_r |].
  rewrite IH, (IH id (PutUvarint [] _)). unfold PutUvarint. by rewrite app_nil_l, app_assoc.
Qed.

Lemma delta_ids_cons prev id ids :
  delta_ids prev (id :: ids) [] =
    binary_PutUvarint (uint64 (uint32 (id - prev))) ++ delta_ids id ids [].
Proof. cbn [delta_ids]. rewrite delta_ids_app. reflexivity. Qed.

Lemma uint32_range z : is_uint 32 (uint32 z).
Proof. apply Z.mod_pos_bound. lia. Qed.

Lemma uint32_add_sub p i : is_uint 32 p -> is_uint 32 i -> uint32 (p + uint32 (uint32 (i - p))) = i.
Proof.
  intros Hp Hi. rewrite (uint32_small (uint32 (i - p))) by apply uint32_range. unfold uint32.
  rewrite Zplus_mod_idemp_r. replace (p + (i - p)) with i by lia. by apply Z.mod_small.
Qed.

Lemma undelta_ids_ok ids pre prev fuel :
  Forall (is_uint 32) ids -> is_uint 32 prev ->
  (length (delta_ids prev ids []) < fuel)%nat ->
  undelta_ids fuel (pre ++ delta_ids prev ids []) prev (len pre) = Ok ids.
Proof.
  intros Hf. revert pre prev fuel. induction Hf as [| id ids Hid Hf IH]; intros pre prev fuel Hp Hl;
    (destruct fuel as [| fuel]; [lia |]); cbn [undelta_ids].
  - cbn [delta_ids]. rewrite app_nil_r. by zcmp.
  - rewrite delta_ids_cons in *. set (x := uint64 (uint32 (id - prev))) in *.
    pose proof (PutUvarint_len x). rewrite len_app, len_app. len_pose. zcmp.
    rewrite (slice_from_split _ pre (binary_PutUvarint x ++ delta_ids id ids [])) by done.
    cbn [mbind result_bind]. rewrite Uvarint_put by apply uint64_range. zcmp.
    assert (x = uint32 (id - prev)) as Hx.
    { subst x. apply uint64_small. pose proof (uint32_range (id - prev)) as Hr.
      unfold is_uint in Hr. lia. }
    assert (uint32 (prev + uint32 x) = id) as -> by (rewrite Hx; by apply uint32_add_sub).
    rewrite app_assoc, <- len_app.
    rewrite IH; [done | done |]. rewrite length_app in Hl. unfold len in *. lia.
Qed.

Lemma delta_ids_len ids prev : len (delta_ids prev ids []) <= len ids * 10.
Proof.
  revert prev. induction ids as [| id ids IH]; intros prev; [done |].
  rewrite delta_ids_cons, len_app, len_cons. specialize (IH id).
  pose proof (PutUvarint_len (uint64 (uint32 (id - prev)))). lia.
Qed.

(** ** The term table *)

Definition term_bytes (te : termEntry) : bytes :=
  le_bytes 2 (uint16 (len (te_term te))) ++ te_term te ++ le_bytes 4 (te_offset te) ++
  le_bytes 4 (te_len te).

Definition term_ok (te : termEntry) : Prop :=
  len (te_term te) < 65536 /\ is_uint 32 (te_offset te) /\ is_uint 32 (te_len te).

Lemma foldl_append_term tes buf : foldl append_term buf tes = buf ++ (tes ≫= term_bytes).
Proof.
  revert buf. induction tes as [| te tes IH]; intros buf; [by rewrite app_nil_r |].
  cbn [foldl]. rewrite IH, bind_cons. unfold append_term, AppendUint16, AppendUint32, term_bytes.
  by rewrite <- !app_assoc.
Qed.

Lemma term_loop_ok tes pre :
  Forall term_ok tes ->
  term_loop (length tes) (pre ++ (tes ≫= term_bytes)) (len pre) = Ok tes.
Proof.
  intros Hf. revert pre. induction Hf as [| [t o l] tes (Ht & Ho & Hl) Hf IH]; intros pre; [done |].
  cbn [te_term te_offset te_len] in *. rewrite bind_cons. cbn [length term_loop].
  set (data := pre ++ term_bytes _ ++ _). set (rest := tes ≫= term_bytes) in *.
  assert (data = pre ++ le_bytes 2 (len t) ++ t ++ le_bytes 4 o ++ le_bytes 4 l ++ rest) as Hd.
  { subst data. unfold term_bytes. cbn [te_term te_offset te_len]. len_pose.
    rewrite uint16_small by lia. by rewrite <- !app_assoc. }
  pose proof (f_equal len Hd) as Hlen. autorewrite with len in Hlen. len_pose. zcmp.
  rewrite (slice_from_split data pre (le_bytes 2 (len t) ++ t ++ le_bytes 4 o ++ le_bytes 4 l ++ rest))
    by done.
  cbn [mbind result_bind]. rewrite Uint16_app by (unfold is_uint; lia). cbn [mbind result_bind]. zcmp.
  rewrite (slice_split data (pre ++ le_bytes 2 (len t)) t (le_bytes 4 o ++ le_bytes 4 l ++ rest)
    (len pre + 2)) by (try rewrite Hd; rewrite <- ?app_assoc; done || len_lia).
  cbn [mbind result_bind].
  rewrite (slice_from_split data (pre ++ le_bytes 2 (len t) ++ t) (le_bytes 4 o ++ le_bytes 4 l ++ rest)
    (len pre + 2 + len t)) by (try rewrite Hd; rewrite <- ?app_assoc; done || len_lia).
  cbn [mbind result_bind]. rewrite Uint32_app by done. cbn [mbind result_bind].
  rewrite (slice_from_split data (pre ++ le_bytes 2 (len t) ++ t ++ le_bytes 4 o) (le_bytes 4 l ++ rest)
    (len pre + 2 + len t + 4)) by (try rewrite Hd; rewrite <- ?app_assoc; done || len_lia).
  cbn [mbind result_bind]. rewrite Uint32_app by done. cbn [mbind result_bind].
  assert (data = (pre ++ term_bytes (mkTerm t o l)) ++ rest) as -> by (subst data; apply app_assoc).
  replace (len pre + 2 + len t + 4 + 4) with (len (pre ++ term_bytes (mkTerm t o l)));
    [by rewrite IH |].
  unfold term_bytes. cbn [te_term te_offset te_len]. len_lia.
Qed.

(** ** Binary search *)

Section Search.
Context (f : Z -> result bool) (p : Z -> bool) (n : Z).
Hypothesis Hf : forall i, 0 <= i < n -> f i = Ok (p i).
Hypothesis Hmono : forall i j, 0 <= i <= j -> j < n -> p i = true -> p j = true.

Lemma search_loop_ok fuel i j :
  0 <= i <= j -> j <= n -> j - i <= Z.of_nat fuel ->
  (forall k, 0 <= k < i -> p k = false) -> (forall k, j <= k < n -> p k = true) ->
  exists r, search_loop f fuel i j = Ok r /\ 0 <= r <= n /\
    (forall k, 0 <= k < r -> p k = false) /\ (forall k, r <= k < n -> p k = true).
Proof.
  revert i j. induction fuel as [| fuel IH]; intros i j Hij Hj Hfu Hlo Hhi; cbn [search_loop].
  { assert (j = i) as -> by lia. exists i. split_and!; try done; lia. }
  destruct (Z.ltb_spec i j).
  2:{ assert (j = i) as -> by lia. exists i. split_and!; try done; lia. }
  pose proof (Z.div_mod (i + j) 2). pose proof (Z.mod_pos_bound (i + j) 2).
  set (h := (i + j) / 2) in *. rewrite Hf by lia. cbn [mbind result_bind].
  destruct (p h) eqn:E.
  - apply IH; try lia; [done |]. intros k Hk. apply (Hmono h k); lia || done.
  - apply IH; try lia; [| done]. intros k Hk. destruct (p k) eqn:Ek; [| done].
    rewrite (Hmono k h) in E; [done | lia | lia | done].
Qed.

Lemma sort_Search_ok :
  0 <= n ->
  exists r, sort_Search n f = Ok r /\ 0 <= r <= n /\
    (forall k, 0 <= k < r -> p k = false) /\ (forall k, r <= k < n -> p k = true).
Proof. intros Hn. apply search_loop_ok; lia. Qed.

End Search.

(** The position of a term in a strictly ascending table. *)
Lemma table_search (tes : list termEntry) term :
  StronglySorted (fun x y => str_lt (te_term x) (te_term y) = true) tes ->
  exists idx, sort_Search (len tes)
      (fun i => t ← index tes i; Ok (negb (str_lt (te_term t) term))) = Ok idx /\
    0 <= idx <= len tes /\
    (forall te, te ∈ tes -> te_term te = term -> tes !! Z.to_nat idx = Some te).
Proof.
  intros Hs.
  assert (forall (i j : nat) x y, (i < j)%nat -> tes !! i = Some x -> tes !! j = Some y ->
    str_lt (te_term x) (te_term y) = true) as Hlt.
  { clear -Hs. induction Hs as [| z l Hs IH Hz]; intros i j x y Hij Hi Hj; [done |].
    destruct j as [| j]; [lia |]. destruct i as [| i]; cbn in Hi, Hj.
    - injection Hi as ->. rewrite list.Forall_forall in Hz. apply Hz. by eapply list_elem_of_lookup_2.
    - apply (IH i j); done || lia. }
  set (p := fun i => match tes !! Z.to_nat i with
                     | Some t => negb (str_lt (te_term t) term) | None => true end).
  destruct (sort_Search_ok (fun i => t ← index tes i; Ok (negb (str_lt (te_term t) term))) p (len tes))
    as (r & Hr & Hb & Hlo & Hhi).
  - intros i Hi. destruct (index_ok tes i Hi) as (t & -> & Ht). unfold p. by rewrite Ht.
  - intros i j Hij Hj. unfold p.
    destruct (index_ok tes i) as (x & _ & Hx); [lia |].
    destruct (index_ok tes j) as (y & _ & Hy); [lia |]. rewrite Hx, Hy.
    destruct (decide (i = j)) as [-> | Hne]; [congruence |].
    pose proof (Hlt (Z.to_nat i) (Z.to_nat j) x y ltac:(lia) Hx Hy) as Hxy.
    destruct (str_lt (te_term y) term) eqn:E; [| done].
    by rewrite (str_lt_trans _ _ _ Hxy E).
  - apply len_nonneg.
  - exists r. split; [done |]. split; [done |]. intros te Hin Ht.
    apply list_elem_of_lookup in Hin as [k Hk].
    pose proof (lookup_lt_Some _ _ _ Hk) as Hkl. unfold len in *.
    assert (p (Z.of_nat k) = true) as Hpk.
    { unfold p. rewrite Nat2Z.id, Hk, Ht, str_lt_irrefl. done. }
    assert (r <= Z.of_nat k).
    { destruct (Z.leb_spec r (Z.of_nat k)); [done |]. rewrite Hlo in Hpk by lia. done. }
    destruct (decide (r = Z.of_nat k)) as [-> | Hne]; [by rewrite Nat2Z.id |].
    destruct (lookup_lt_is_Some_2 tes (Z.to_nat r)) as [y Hy]; [lia |].
    pose proof (Hhi r ltac:(lia)) as Hpr. unfold p in Hpr. rewrite Hy in Hpr.
    rewrite <- Ht in Hpr. by rewrite (Hlt (Z.to_nat r) k y te ltac:(lia) Hy Hk) in Hpr.
Qed.

(** ** The file *)

Section FileLemmas.
Context {C : Zstd} {L : ZstdLaws C} {U : Unicode}.

Definition posting (b : Builder) (t : bytes) : bytes :=
  Compress (delta_ids 0 (default [] (b !! t)) []).

Fixpoint entries_from (b : Builder) (off : Z) (ts : list bytes) : list termEntry :=
  match ts with
  | [] => []
  | t :: ts =>
      mkTerm t (uint32 off) (uint32 (len (posting b t))) ::
      entries_from b (off + len (posting b t)) ts
  end.

Lemma build_postings_ok b ts buf tes :
  build_postings b ts buf tes = (buf ++ (ts ≫= posting b), tes ++ entries_from b (len buf) ts).
Proof.
  revert buf tes. induction ts as [| t ts IH]; intros buf tes; cbn [build_postings entries_from].
  { cbn [mbind list_bind]. by rewrite !app_nil_r. }
  rewrite IH, bind_cons, len_app, <- !app_assoc. done.
Qed.

Lemma entries_from_terms b off ts : te_term <$> entries_from b off ts = ts.
Proof. revert off. induction ts as [| t ts IH]; intros off; [done |]. cbn. by rewrite IH. Qed.

Lemma entries_from_ok b off ts :
  Forall (fun t => len t < 65536) ts -> Forall term_ok (entries_from b off ts).
Proof.
  intros Hf. revert off. induction Hf as [| t ts Ht Hf IH]; intros off; constructor; [| apply IH].
  split; [done |]. split; apply uint32_range.
Qed.

(** Where an entry's postings lie. *)
Lemma entries_from_split b ts k te :
  entries_from b 0 ts !! k = Some te -> len (ts ≫= posting b) < 2 ^ 32 ->
  exists pre post, ts ≫= posting b = pre ++ posting b (te_term te) ++ post /\
    te_offset te = len pre /\ te_len te = len (posting b (te_term te)).
Proof.
  intros Hk Hl.
  assert (forall off, 0 <= off -> off + len (ts ≫= posting b) < 2 ^ 32 ->
    entries_from b off ts !! k = Some te ->
    exists pre post, ts ≫= posting b = pre ++ posting b (te_term te) ++ post /\
      te_offset te = off + len pre /\ te_len te = len (posting b (te_term te))) as H.
  { clear Hk Hl. revert k. induction ts as [| t ts IH]; intros k off Ho Hl Hk; [done |].
    rewrite bind_cons, len_app in Hl. len_pose. destruct k as [| k]; cbn in Hk.
    - injection Hk as <-. exists [], (ts ≫= posting b). cbn [te_term te_offset te_len].
      rewrite bind_cons, len_nil, !uint32_small by lia. split_and!; done || lia.
    - apply IH in Hk as (pre & post & E & E1 & E2); [| lia | lia].
      exists (posting b t ++ pre), post. rewrite bind_cons, E, len_app, <- app_assoc.
      split_and!; done || lia. }
  destruct (H 0 ltac:(done) ltac:(lia) Hk) as (pre & post & E & E1 & E2).
  exists pre, post. split_and!; done || lia.
Qed.

(** A well-formed index: terms the table can hold and a file below 4 GiB. *)
Definition index_fits (b : Builder) (n : Z) : Prop :=
  (forall t, is_Some (b !! t) -> len t < 65536) /\ len (Write b n) < 2 ^ 32.

Lemma Write_eq b n :
  let ts := sorted_terms b in
  let table := entries_from b 0 ts ≫= term_bytes in
  Write b n = (str "OTIX" ++ le_bytes 4 (uint32 (len ts)) ++ le_bytes 4 (uint32 n) ++
    le_bytes 4 (uint32 (len table))) ++ table ++ (ts ≫= posting b).
Proof.
  cbv zeta. unfold Write. rewrite build_postings_ok, foldl_append_term, !app_nil_l. done.
Qed.

Lemma term_bytes_bind_len tes : len tes <= len (tes ≫= term_bytes).
Proof.
  induction tes as [| te tes IH]; [done |]. rewrite bind_cons, len_app, len_cons.
  unfold term_bytes at 1. rewrite !len_app, !len_le_bytes. len_pose. lia.
Qed.

Lemma IndexOpenReader_Write b n :
  index_fits b n ->
  IndexOpenReader (Write b n) =
    Ok (mkIndex (entries_from b 0 (sorted_terms b)) (sorted_terms b ≫= posting b) (uint32 n)) /\
  len (sorted_terms b ≫= posting b) < 2 ^ 32.
Proof.
  intros [Hterms Hlen]. rewrite Write_eq in *. cbv zeta in *.
  set (ts := sorted_terms b) in *. set (tes := entries_from b 0 ts) in *.
  set (table := tes ≫= term_bytes) in *. set (posts := ts ≫= posting b) in *.
  assert (len tes = len ts) as Hcount.
  { rewrite <- (len_fmap te_term tes). subst tes. by rewrite entries_from_terms. }
  pose proof (term_bytes_bind_len tes) as Htab. fold table in Htab.
  autorewrite with len in Hlen. change (len (str "OTIX")) with 4 in Hlen. len_pose.
  split; [| lia].
  rewrite (uint32_small (len ts)), (uint32_small (len table)) by lia.
  set (m := str "OTIX"). set (n' := uint32 n).
  set (data := (m ++ _) ++ table ++ posts).
  assert (data = m ++ le_bytes 4 (len ts) ++ le_bytes 4 n' ++ le_bytes 4 (len table) ++ table ++ posts)
    as Hd by (subst data; by rewrite <- !app_assoc).
  assert (len m = 4) as Hm by done.
  pose proof (f_equal len Hd) as Hl. autorewrite with len in Hl. rewrite Hm in Hl.
  unfold IndexOpenReader. zcmp.
  rewrite (slice_split data [] m (le_bytes 4 (len ts) ++ le_bytes 4 n' ++ le_bytes 4 (len table) ++
    table ++ posts)) by (done || len_lia).
  cbn [mbind result_bind]. rewrite bool_decide_eq_true_2 by done. cbn [negb].
  rewrite (slice_from_split data m (le_bytes 4 (len ts) ++ le_bytes 4 n' ++ le_bytes 4 (len table) ++
    table ++ posts) 4) by done.
  cbn [mbind result_bind]. rewrite Uint32_app by (unfold is_uint; lia). cbn [mbind result_bind].
  rewrite (slice_from_split data (m ++ le_bytes 4 (len ts)) (le_bytes 4 n' ++ le_bytes 4 (len table) ++
    table ++ posts) 8) by (rewrite <- ?app_assoc; done).
  cbn [mbind result_bind]. rewrite Uint32_app by apply uint32_range. cbn [mbind result_bind].
  rewrite (slice_from_split data (m ++ le_bytes 4 (len ts) ++ le_bytes 4 n')
    (le_bytes 4 (len table) ++ table ++ posts) 12) by (rewrite <- ?app_assoc; done).
  cbn [mbind result_bind]. rewrite Uint32_app by (unfold is_uint; lia). cbn [mbind result_bind]. zcmp.
  set (h := m ++ le_bytes 4 (len ts) ++ le_bytes 4 n' ++ le_bytes 4 (len table)).
  assert (len h = 16) as Hh by done.
  assert (data = h ++ table ++ posts) as Hdh by (subst h; rewrite Hd; by rewrite <- ?app_assoc).
  rewrite (slice_split data h table posts 16) by (done || lia).
  cbn [mbind result_bind].
  rewrite (slice_from_split data (h ++ table) posts)
    by (by rewrite <- ?app_assoc || (rewrite len_app; lia)).
  cbn [mbind result_bind]. rewrite <- Hcount, to_nat_len.
  pose proof (term_loop_ok tes []) as Ht. cbn [app] in Ht. rewrite len_nil in Ht.
  fold table in Ht. rewrite Ht; [done |].
  apply entries_from_ok, list.Forall_forall. intros t Hin. apply Hterms.
  by apply (proj1 (proj2 (sorted_terms_spec b))).
Qed.

Lemma entries_from_sorted b off ts :
  StronglySorted (fun x y => str_lt x y = true) ts ->
  StronglySorted (fun x y => str_lt (te_term x) (te_term y) = true) (entries_from b off ts).
Proof.
  intros Hs. revert off. induction Hs as [| t ts Hs IH Hf]; intros off; cbn [entries_from];
    constructor; [done |].
  apply list.Forall_forall. intros te Hin. rewrite list.Forall_forall in Hf. cbn [te_term].
  apply Hf. rewrite <- (entries_from_terms b (off + len (posting b t)) ts).
  by apply list_elem_of_fmap_2.
Qed.

(** Looking a term up in the file is looking it up in the builder. *)
Lemma lookup_term_ok b n t :
  index_fits b n ->
  (forall ids, b !! t = Some ids -> Forall (is_uint 32) ids /\ len ids * 10 <= MaxBlockBytes) ->
  lookup_term (mkIndex (entries_from b 0 (sorted_terms b)) (sorted_terms b ≫= posting b) (uint32 n)) t =
    Ok (default [] (b !! t)).
Proof.
  intros Hfit Hids. pose proof (IndexOpenReader_Write b n Hfit) as [_ Hpost].
  destruct (sorted_terms_spec b) as (Hsort & Hkeys & _).
  set (ts := sorted_terms b) in *. set (tes := entries_from b 0 ts).
  pose proof (entries_from_sorted b 0 ts Hsort) as Hst. fold tes in Hst.
  destruct (table_search tes t Hst) as (idx & Hs & Hr & Hfound).
  unfold lookup_term. cbn [terms postingsData]. rewrite Hs. cbn [mbind result_bind].
  destruct (b !! t) as [ids |] eqn:Eb.
  - destruct (Hids ids eq_refl) as [Hu Hmax].
    assert (t ∈ te_term <$> tes) as (te & Et & Hin)%list_elem_of_fmap.
    { subst tes. rewrite entries_from_terms. apply Hkeys. by exists ids. }
    specialize (Hfound te Hin (eq_sym Et)).
    pose proof (lookup_lt_Some _ _ _ Hfound) as Hlt.
    rewrite (proj2 (Z.leb_gt (len tes) idx)) by (unfold len; lia).
    unfold index. zcmp. rewrite Hfound. cbn [mbind result_bind].
    rewrite bool_decide_eq_true_2 by done. cbn [negb].
    destruct (entries_from_split b ts _ te Hfound Hpost) as (pre & post & E & E1 & E2).
    rewrite E, E1, E2, <- Et. rewrite E, <- Et, !len_app in Hpost. rewrite !len_app. len_pose. zcmp.
    rewrite uint32_small by lia.
    rewrite (slice_split _ pre (posting b t) post) by (rewrite ?Et; done).
    cbn [mbind result_bind]. unfold posting. rewrite Eb. cbn [default].
    pose proof (delta_ids_len ids 0) as Hd. rewrite Decompress_Compress by (etrans; [exact Hd | exact Hmax]).
    cbn [wrap mbind result_bind].
    rewrite <- (app_nil_l (delta_ids 0 ids [])) at 2.
    change 0 with (len (@nil Z)) at 2. apply undelta_ids_ok; [done | by vm_compute | lia].
  - destruct (Z.leb_spec (len tes) idx); [done |].
    destruct (index_ok tes idx) as (te & -> & Hte); [lia |]. cbn [mbind result_bind].
    rewrite bool_decide_eq_false_2; [done |]. intros E.
    assert (t ∈ ts) as Hin.
    { rewrite <- (entries_from_terms b 0 ts), <- E. apply list_elem_of_fmap_2.
      by eapply list_elem_of_lookup_2. }
    apply Hkeys in Hin as [v Hv]. congruence.
Qed.

End FileLemmas.

(** ** Intersection *)

(** Filters that agree on the list agree. *)
Lemma filter_agree {A} (P Q : A -> Prop) `{!forall x, Decision (P x)} `{!forall x, Decision (Q x)} (l : list A) :
  (forall z, z ∈ l -> P z <-> Q z) -> filter P l = filter Q l.
Proof.
  induction l as [| z l IH]; intros Hag; [done |]. rewrite !filter_cons, IH.
  - specialize (Hag z ltac:(left)). destruct (decide (P z)), (decide (Q z)); tauto || done.
  - intros w Hw. apply Hag. by right.
Qed.

Lemma intersect_loop_ok fuel a b :
  StronglySorted Z.lt a -> StronglySorted Z.lt b -> (length a + length b <= fuel)%nat ->
  intersect_loop fuel a b = filter (fun x => x ∈ b) a.
Proof.
  revert a b. induction fuel as [| fuel IH]; intros a b Ha Hb Hf.
  { destruct a; [done | cbn in Hf; lia]. }
  destruct a as [| x a]; [done |]. destruct b as [| y b]; cbn [intersect_loop].
  { symmetry. generalize (x :: a). intros l. induction l as [| z l IHl]; [done |].
    rewrite filter_cons. case_decide as E; [by apply elem_of_nil in E | done]. }
  apply StronglySorted_inv in Ha as [Ha Fa]. apply StronglySorted_inv in Hb as [Hb Fb].
  rewrite list.Forall_forall in Fa, Fb. cbn in Hf.
  destruct (Z.eqb_spec x y) as [-> | Hne].
  - rewrite filter_cons. case_decide as E; [| destruct E; left]. f_equal. rewrite IH by (done || lia).
    apply filter_agree. intros z Hz%Fa. rewrite elem_of_cons. split; [auto |].
    intros [-> |]; [lia | done].
  - destruct (Z.ltb_spec x y).
    + rewrite filter_cons. case_decide as E.
      { apply elem_of_cons in E as [-> | E%Fb]; lia. }
      apply IH; [done | by constructor; [| apply list.Forall_forall] | cbn; lia].
    + rewrite IH; [| by constructor; [| apply list.Forall_forall] | done | cbn; lia].
      apply filter_agree. intros z Hz. rewrite elem_of_cons.
      split; [auto |]. intros [-> |]; [| done].
      apply elem_of_cons in Hz as [-> | Hz%Fa]; [done | lia].
Qed.

Lemma sorted_ext (a b : list Z) :
  StronglySorted Z.lt a -> StronglySorted Z.lt b -> (forall x, x ∈ a <-> x ∈ b) -> a = b.
Proof.
  intros Ha. revert b. induction Ha as [| x a Ha IH Fa]; intros b Hb Hm.
  { destruct b as [| y b]; [done |]. by pose proof (proj2 (Hm y) ltac:(left)) as ?%elem_of_nil. }
  destruct Hb as [| y b Hb Fb].
  { by pose proof (proj1 (Hm x) ltac:(left)) as ?%elem_of_nil. }
  rewrite list.Forall_forall in Fa, Fb.
  assert (x = y) as ->.
  { pose proof (proj1 (Hm x) ltac:(left)) as Hx. pose proof (proj2 (Hm y) ltac:(left)) as Hy.
    apply elem_of_cons in Hx as [-> | Hx%Fb]; [done |].
    apply elem_of_cons in Hy as [-> | Hy%Fa]; [done | lia]. }
  f_equal. apply IH; [done |]. intros z. specialize (Hm z). rewrite !elem_of_cons in Hm.
  split; intros Hz.
  - destruct (proj1 Hm (or_intror Hz)) as [-> |]; [| done]. apply Fa in Hz. lia.
  - destruct (proj2 Hm (or_intror Hz)) as [-> |]; [| done]. apply Fb in Hz. lia.
Qed.

Lemma StronglySorted_filter {A} (R : A -> A -> Prop) (P : A -> Prop) `{!forall x, Decision (P x)}
    (l : list A) : StronglySorted R l -> StronglySorted R (filter P l).
Proof.
  induction 1 as [| x l Hs IH Hf]; [constructor |]. rewrite filter_cons. case_decide; [| done].
  constructor; [done |]. by apply Forall_filtered.
Qed.

Lemma intersect_all_ok l ls :
  StronglySorted Z.lt l -> Forall (StronglySorted Z.lt) ls ->
  StronglySorted Z.lt (intersect_all l ls) /\
  (forall x, x ∈ intersect_all l ls <-> x ∈ l /\ Forall (fun l' => x ∈ l') ls).
Proof.
  intros Hl Hls. revert l Hl. induction Hls as [| k ls Hk Hls IH]; intros l Hl; cbn [intersect_all].
  { split; [done |]. intros x. split; [by split | by intros []]. }
  unfold intersectSorted. rewrite intersect_loop_ok by done.
  set (m := filter (fun x => x ∈ k) l).
  assert (StronglySorted Z.lt m) as Hm by (by apply StronglySorted_filter).
  assert (forall x, x ∈ m <-> x ∈ l /\ x ∈ k) as Hmem.
  { intros x. subst m. rewrite list_elem_of_filter. tauto. }
  destruct (Z.eqb_spec (len m) 0) as [E |].
  - apply len_0_nil in E. rewrite E in Hmem. split; [constructor |]. intros x.
    specialize (Hmem x). rewrite Forall_cons, elem_of_nil in *. tauto.
  - destruct (IH m Hm) as [H1 H2]. split; [done |]. intros x.
    rewrite H2, Hmem, Forall_cons. tauto.
Qed.

Section SearchLemmas.
Context {C : Zstd} {L : ZstdLaws C} {U : Unicode}.

(** Every token of the query is a token of the message. *)
Definition matches (query message : bytes) : Prop :=
  Forall (fun t => t ∈ Tokenize message) (Tokenize query).

#[global] Instance matches_dec q m : Decision (matches q m).
Proof. unfold matches. apply _. Defined.

(** The rows of the messages that match, from [i]. *)
Fixpoint matching_rows (i : Z) (query : bytes) (msgs : list bytes) : list Z :=
  match msgs with
  | [] => []
  | m :: msgs =>
      if bool_decide (matches query m) then i :: matching_rows (i + 1) query msgs
      else matching_rows (i + 1) query msgs
  end.

Lemma matching_rows_spec i q msgs :
  StronglySorted Z.lt (matching_rows i q msgs) /\
  Forall (fun k => i <= k) (matching_rows i q msgs) /\
  forall k, k ∈ matching_rows i q msgs <->
    exists m, msgs !! Z.to_nat (k - i) = Some m /\ i <= k /\ matches q m.
Proof.
  revert i. induction msgs as [| m msgs IH]; intros i; cbn [matching_rows].
  { split_and!; [constructor | constructor |]. intros k.
    split; [by intros ?%elem_of_nil | by intros (m & ? & _)]. }
  destruct (IH (i + 1)) as (Hs & Hf & Hm).
  assert (Forall (fun k => i <= k) (matching_rows (i + 1) q msgs)) as Hf'.
  { eapply list.Forall_impl; [exact Hf |]. intros k Hk. cbn beta in *. lia. }
  assert (forall k, k ∈ matching_rows (i + 1) q msgs <->
    exists m', (m :: msgs) !! Z.to_nat (k - i) = Some m' /\ i < k /\ matches q m') as Hrest.
  { intros k. rewrite Hm. split; intros (m' & H1 & H2 & H3); exists m'; (split; [| split; [lia | done]]).
    - by replace (Z.to_nat (k - i)) with (S (Z.to_nat (k - (i + 1)))) by lia.
    - by replace (Z.to_nat (k - i)) with (S (Z.to_nat (k - (i + 1)))) in H1 by lia. }
  case_bool_decide as Hq.
  - split_and!; [| by constructor |].
    + constructor; [done |]. eapply list.Forall_impl; [exact Hf |]. intros k Hk. cbn beta in *. lia.
    + intros k. rewrite elem_of_cons, Hrest. split.
      * intros [-> | (m' & ? & ? & ?)]; [| exists m'; split_and!; done || lia].
        exists m. by rewrite Z.sub_diag.
      * intros (m' & H1 & H2 & H3). destruct (decide (k = i)) as [-> |]; [by left |].
        right. exists m'. split_and!; done || lia.
  - split_and!; [done | done |]. intros k. rewrite Hrest. split.
    + intros (m' & ? & ? & ?). exists m'. split_and!; done || lia.
    + intros (m' & H1 & H2 & H3). exists m'. split_and!; try done.
      destruct (decide (k = i)) as [-> |]; [| lia].
      rewrite Z.sub_diag in H1. by injection H1 as <-.
Qed.

Definition opened (b : Builder) (n : Z) : IndexReader :=
  mkIndex (entries_from b 0 (sorted_terms b)) (sorted_terms b ≫= posting b) (uint32 n).

Lemma lookup_rows msgs n t :
  index_fits (add_all 0 msgs NewBuilder) n -> len msgs * 10 <= MaxBlockBytes ->
  lookup_term (opened (add_all 0 msgs NewBuilder) n) t = Ok (rows_from 0 t msgs).
Proof.
  intros Hfit Hn. change MaxBlockBytes with (2 ^ 31) in Hn. len_pose.
  assert (default [] (add_all 0 msgs NewBuilder !! t) = rows_from 0 t msgs) as Hd.
  { rewrite add_all_empty by lia. by destruct (rows_from 0 t msgs). }
  unfold opened. rewrite lookup_term_ok; [by rewrite Hd | done |]. intros ids Hids.
  rewrite Hids in Hd. change (ids = rows_from 0 t msgs) in Hd. subst ids.
  destruct (rows_from_sorted 0 t msgs) as [_ Hf]. split.
  - eapply list.Forall_impl; [exact Hf |]. intros k Hk. cbn beta in Hk. unfold is_uint. lia.
  - change MaxBlockBytes with (2 ^ 31).
    assert (len (rows_from 0 t msgs) <= len msgs); [| lia].
    assert (forall i, len (rows_from i t msgs) <= len msgs) as H1; [| apply H1].
    clear. induction msgs as [| m msgs IH]; intros i; [done |]. cbn [rows_from].
    specialize (IH (i + 1)). case_bool_decide; rewrite ?len_cons; lia.
Qed.

Lemma posting_lists_ok msgs n qts :
  index_fits (add_all 0 msgs NewBuilder) n -> len msgs * 10 <= MaxBlockBytes ->
  posting_lists (opened (add_all 0 msgs NewBuilder) n) qts =
    Ok (if existsb (fun t => len (rows_from 0 t msgs) =? 0) qts then None
        else Some ((fun t => rows_from 0 t msgs) <$> qts)).
Proof.
  intros Hfit Hn. induction qts as [| t qts IH]; [done |]. cbn [posting_lists existsb].
  rewrite lookup_rows by done. cbn [wrap mbind result_bind].
  destruct (len (rows_from 0 t msgs) =? 0); [done |]. rewrite IH. cbn [mbind result_bind orb].
  by destruct (existsb _ qts).
Qed.

(** Search over the file is token containment over the messages. *)
Lemma Search_ok msgs n query :
  index_fits (add_all 0 msgs NewBuilder) n -> len msgs * 10 <= MaxBlockBytes ->
  Search (opened (add_all 0 msgs NewBuilder) n) query =
    Ok (if bool_decide (Tokenize query = []) then [] else matching_rows 0 query msgs).
Proof.
  intros Hfit Hn. unfold Search.
  destruct (TokenizeUnique query) as [| t ts] eqn:Eq.
  { rewrite bool_decide_eq_true_2; [done |]. destruct (Tokenize query) as [| t l] eqn:E; [done |].
    assert (t ∈ TokenizeUnique query) as Hin by (apply elem_of_TokenizeUnique; rewrite E; left).
    rewrite Eq in Hin. by apply elem_of_nil in Hin. }
  rewrite bool_decide_eq_false_2.
  2:{ intros E. assert (t ∈ TokenizeUnique query) as Hin by (rewrite Eq; left).
      apply elem_of_TokenizeUnique in Hin. rewrite E in Hin. by apply elem_of_nil in Hin. }
  rewrite len_cons. len_pose. zcmp. rewrite posting_lists_ok by done. cbn [mbind result_bind].
  destruct (matching_rows_spec 0 query msgs) as (Ms & _ & Mm).
  assert (forall k m, msgs !! Z.to_nat (k - 0) = Some m ->
    matches query m <-> Forall (fun t => t ∈ Tokenize m) (t :: ts)) as Hmq.
  { intros k m _. unfold matches. rewrite !list.Forall_forall, <- Eq.
    split; intros H1 x Hx; apply H1; by apply elem_of_TokenizeUnique. }
  assert (forall k, k ∈ matching_rows 0 query msgs <->
    Forall (fun u => k ∈ rows_from 0 u msgs) (t :: ts)) as Hall.
  { intros k. rewrite Mm. split.
    - intros (m & H1 & H2 & H3). rewrite (Hmq k m H1) in H3. eapply list.Forall_impl; [exact H3 |].
      intros u Hu. apply elem_of_rows_from. eauto.
    - intros Hf. pose proof Hf as Hf'. inversion Hf' as [| ? ? Ht _]; subst.
      apply elem_of_rows_from in Ht as (m & H1 & H2 & _). exists m. split_and!; try done.
      rewrite (Hmq k m H1). eapply list.Forall_impl; [exact Hf |].
      intros u Hu. apply elem_of_rows_from in Hu as (m' & H1' & _ & H3). congruence. }
  destruct (existsb _ (t :: ts)) eqn:Ex.
  { apply existsb_exists in Ex as (u & Hu%list_elem_of_In & E%Z.eqb_eq%len_0_nil).
    f_equal. apply sorted_ext; [constructor | done |]. intros k. rewrite Hall.
    split; [by intros ?%elem_of_nil |]. rewrite list.Forall_forall. intros Hf.
    specialize (Hf u Hu). by rewrite E in Hf. }
  rewrite fmap_cons. cbv beta.
  assert (Forall (StronglySorted Z.lt) ((fun t => rows_from 0 t msgs) <$> ts)) as Hss.
  { apply Forall_fmap, list.Forall_forall. intros u _. apply rows_from_sorted. }
  destruct (intersect_all_ok (rows_from 0 t msgs) _ (proj1 (rows_from_sorted 0 t msgs)) Hss)
    as [Is Im].
  assert (intersect_all (rows_from 0 t msgs) ((fun t => rows_from 0 t msgs) <$> ts) =
    matching_rows 0 query msgs) as <-.
  { apply sorted_ext; [done | done |]. intros k. rewrite Im, Hall, Forall_cons, Forall_fmap. done. }
  by destruct ((fun t => rows_from 0 t msgs) <$> ts).
Qed.

(** ** Tokens beyond the 16-bit length *)

Lemma str_lt_take k t : (k < length t)%nat -> str_lt (take k t) t = true.
Proof.
  revert k. induction t as [| x t IH]; intros k Hk; [cbn in Hk; lia |].
  destruct k as [| k]; [done |]. cbn [take str_lt]. rewrite Z.ltb_irrefl, Z.eqb_refl.
  apply IH. cbn in Hk. lia.
Qed.

Lemma long_token_table t o l rest :
  65536 <= len t ->
  exists o' l', term_loop 1 (term_bytes (mkTerm t o l) ++ rest) 0 =
    Ok [mkTerm (take (Z.to_nat (uint16 (len t))) t) o' l'].
Proof.
  intros Ht. cbn [term_loop]. unfold term_bytes. cbn [te_term te_offset te_len].
  set (k := uint16 (len t)). assert (0 <= k < 65536) as Hk by (apply Z.mod_pos_bound; lia).
  set (data := (le_bytes 2 k ++ _) ++ rest).
  assert (data = le_bytes 2 k ++ t ++ le_bytes 4 o ++ le_bytes 4 l ++ rest) as Hd.
  { subst data. by rewrite <- !app_assoc. }
  pose proof (f_equal len Hd) as Hl. autorewrite with len in Hl. len_pose. zcmp.
  rewrite (slice_from_split data [] (le_bytes 2 k ++ t ++ le_bytes 4 o ++ le_bytes 4 l ++ rest) 0)
    by done.
  cbn [mbind result_bind]. rewrite Uint16_app by (unfold is_uint; lia). cbn [mbind result_bind]. zcmp.
  assert (t = take (Z.to_nat k) t ++ drop (Z.to_nat k) t) as Hsplit by (by rewrite take_drop).
  assert (len (take (Z.to_nat k) t) = k) as Htk by (apply len_take; lia).
  rewrite (slice_split data (le_bytes 2 k) (take (Z.to_nat k) t)
    (drop (Z.to_nat k) t ++ le_bytes 4 o ++ le_bytes 4 l ++ rest) (0 + 2)).
  2:{ rewrite Hd, Hsplit at 1. by rewrite <- !app_assoc. }
  2:{ done. }
  2:{ rewrite len_le_bytes. lia. }
  cbn [mbind result_bind]. rewrite !slice_from_ok by lia. cbn [mbind result_bind].
  assert (forall i, 0 <= i -> i + 4 <= len data -> exists v, Uint32 (drop (Z.to_nat i) data) = Ok v)
    as Hu.
  { intros i Hi Hb. unfold Uint32, le_uint. rewrite len_drop by lia. zcmp. eauto. }
  destruct (Hu (0 + 2 + k)) as [o' ->]; [lia | lia |]. cbn [mbind result_bind].
  destruct (Hu (0 + 2 + k + 4)) as [l' ->]; [lia | lia |]. cbn [mbind result_bind]. eauto.
Qed.

Lemma singleton_builder m t :
  TokenizeUnique m = [t] -> add_all 0 [m] NewBuilder = {[ t := [0] ]}.
Proof. intros Hm. cbn [add_all]. unfold Add. rewrite Hm. reflexivity. Qed.

Lemma long_token_lost_lemma m t :
  TokenizeUnique m = [t] -> 65536 <= len t < 2 ^ 31 ->
  exists r, IndexOpenReader (Write (add_all 0 [m] NewBuilder) 1) = Ok r /\
    Search r m = Ok [] /\ matching_rows 0 m [m] = [0].
Proof.
  intros Hm Ht. rewrite (singleton_builder m t Hm). rewrite Write_eq.
  assert (sorted_terms {[ t := [0] ]} = [t]) as ->.
  { unfold sorted_terms. by rewrite map_to_list_singleton. }
  cbn [entries_from mbind list_bind]. rewrite !app_nil_r.
  set (te := mkTerm t _ _). set (posts := posting _ t).
  assert (len (term_bytes te) = len t + 10) as Htab.
  { unfold term_bytes. cbn [te_term te_offset te_len te]. len_lia. }
  set (mg := str "OTIX"). change (uint32 (len [t])) with 1. change (uint32 1) with 1.
  rewrite (uint32_small (len (term_bytes te))) by lia.
  set (data := (mg ++ _) ++ term_bytes te ++ posts).
  set (h := mg ++ le_bytes 4 1 ++ le_bytes 4 1 ++ le_bytes 4 (len (term_bytes te))).
  assert (data = h ++ term_bytes te ++ posts) as Hd by done.
  assert (len h = 16) as Hh by done.
  pose proof (f_equal len Hd) as Hl. rewrite !len_app, Hh in Hl. len_pose.
  assert (exists o' l', IndexOpenReader data =
    Ok (mkIndex [mkTerm (take (Z.to_nat (uint16 (len t))) t) o' l'] posts 1)) as (o' & l' & Hopen).
  { destruct (long_token_table t (te_offset te) (te_len te) [] ltac:(lia)) as (o' & l' & Hloop).
    change (mkTerm t (te_offset te) (te_len te)) with te in Hloop.
    rewrite app_nil_r in Hloop. exists o', l'. unfold IndexOpenReader. zcmp.
    rewrite (slice_split data [] mg (le_bytes 4 1 ++ le_bytes 4 1 ++ le_bytes 4 (len (term_bytes te)) ++
      term_bytes te ++ posts)) by (done || (rewrite Hd; subst h; by rewrite <- ?app_assoc)).
    cbn [mbind result_bind]. rewrite bool_decide_eq_true_2 by done. cbn [negb].
    rewrite (slice_from_split data mg (le_bytes 4 1 ++ le_bytes 4 1 ++ le_bytes 4 (len (term_bytes te)) ++
      term_bytes te ++ posts) 4) by (done || (rewrite Hd; subst h; by rewrite <- ?app_assoc)).
    cbn [mbind result_bind]. rewrite Uint32_app by done. cbn [mbind result_bind].
    rewrite (slice_from_split data (mg ++ le_bytes 4 1) (le_bytes 4 1 ++ le_bytes 4 (len (term_bytes te)) ++
      term_bytes te ++ posts) 8) by (done || (rewrite Hd; subst h; by rewrite <- ?app_assoc)).
    cbn [mbind result_bind]. rewrite Uint32_app by done. cbn [mbind result_bind].
    rewrite (slice_from_split data (mg ++ le_bytes 4 1 ++ le_bytes 4 1) (le_bytes 4 (len (term_bytes te)) ++
      term_bytes te ++ posts) 12) by (done || (rewrite Hd; subst h; by rewrite <- ?app_assoc)).
    cbn [mbind result_bind]. rewrite Uint32_app by (unfold is_uint; lia). cbn [mbind result_bind]. zcmp.
    rewrite (slice_split data h (term_bytes te) posts 16) by (done || lia).
    cbn [mbind result_bind].
    rewrite (slice_from_split data (h ++ term_bytes te) posts)
      by (by rewrite <- ?app_assoc || (rewrite len_app; lia)).
    cbn [mbind result_bind]. change (Z.to_nat 1) with 1%nat. rewrite Hloop. done. }
  exists (mkIndex [mkTerm (take (Z.to_nat (uint16 (len t))) t) o' l'] posts 1).
  split; [done |].
  assert (0 <= uint16 (len t) < 65536) as Hk by (apply Z.mod_pos_bound; lia). split.
  - unfold Search. rewrite Hm. cbn [len length]. change (len [t] =? 0) with false. cbv iota.
    cbn [posting_lists]. unfold lookup_term. cbn [terms]. unfold sort_Search.
    change (len [_]) with 1. change (Z.to_nat 1) with 1%nat. cbn [search_loop Z.ltb Z.compare].
    change ((0 + 1) / 2) with 0. cbv beta iota zeta.
    assert (forall x : termEntry, index [x] 0 = Ok x) as Hix by done.
    rewrite Hix. cbn [mbind result_bind te_term].
    rewrite str_lt_take by (unfold len in *; lia). done.
  - cbn [matching_rows]. rewrite bool_decide_eq_true_2; [done |].
    apply list.Forall_forall. done.
Qed.

(** ** Arbitrary index files *)

Lemma term_loop_no_panic n table off : 0 <= off -> no_panic (term_loop n table off).
Proof.
  revert off. induction n as [| n IH]; intros off Ho; [done |]. cbn [term_loop].
  destruct (Z.ltb_spec (len table) (off + 2)); [done |].
  rewrite slice_from_ok by lia. cbn [mbind result_bind].
  apply no_panic_bind; [apply le_uint_no_panic; rewrite len_drop; lia |]. intros k Hk%le_uint_range.
  destruct (Z.ltb_spec (len table) (off + 2 + k + 8)); [done |].
  rewrite slice_ok, !slice_from_ok by lia. cbn [mbind result_bind].
  apply no_panic_bind; [apply le_uint_no_panic; rewrite len_drop; lia |]. intros o _.
  apply no_panic_bind; [apply le_uint_no_panic; rewrite len_drop; lia |]. intros l _.
  apply no_panic_bind; [apply IH; lia | done].
Qed.

(** The table entries of any opened file: offsets and lengths are unsigned. *)
Definition te_sane (te : termEntry) : Prop := 0 <= te_offset te < 2 ^ 32 /\ 0 <= te_len te < 2 ^ 32.

Lemma term_loop_sane n table off tes : term_loop n table off = Ok tes -> Forall te_sane tes.
Proof.
  revert off tes. induction n as [| n IH]; intros off tes; cbn [term_loop]; [by intros [= <-] |].
  destruct (_ <? _); [done |]. intros (d1 & _ & H1)%bind_ok_inv.
  apply bind_ok_inv in H1 as (k & _ & H1). destruct (_ <? _); [done |].
  apply bind_ok_inv in H1 as (t & _ & H1). apply bind_ok_inv in H1 as (d2 & _ & H1).
  apply bind_ok_inv in H1 as (o & Ho%le_uint_range & H1). apply bind_ok_inv in H1 as (d3 & _ & H1).
  apply bind_ok_inv in H1 as (l & Hl%le_uint_range & H1).
  apply bind_ok_inv in H1 as (rest & Hr%IH & [= <-]). by constructor.
Qed.

Lemma IndexOpenReader_safe data :
  no_panic (IndexOpenReader data) /\
  (forall r, IndexOpenReader data = Ok r ->
     Forall te_sane (terms r) /\ len (postingsData r) <= len data).
Proof.
  unfold IndexOpenReader. destruct (Z.ltb_spec (len data) 16); [done |].
  rewrite slice_ok by lia. cbn [mbind result_bind]. destruct (negb _); [done |].
  rewrite !slice_from_ok by lia. cbn [mbind result_bind].
  assert (forall i, 0 <= i -> i + 4 <= len data -> exists v, Uint32 (drop (Z.to_nat i) data) = Ok v /\ 0 <= v)
    as Hu.
  { intros i Hi Hb. destruct (Uint32 (drop (Z.to_nat i) data)) as [v | |] eqn:E.
    - exists v. split; [done |]. apply le_uint_range in E. lia.
    - unfold Uint32, le_uint in E. by destruct (_ <=? _).
    - by apply le_uint_no_panic in E; [| rewrite len_drop; lia]. }
  destruct (Hu 4) as (n & -> & Hn); [lia | lia |]. cbn [mbind result_bind].
  destruct (Hu 8) as (c & -> & Hc); [lia | lia |]. cbn [mbind result_bind].
  destruct (Hu 12) as (sz & -> & Hsz); [lia | lia |]. cbn [mbind result_bind].
  destruct (Z.ltb_spec (len data) (16 + sz)); [done |].
  rewrite slice_ok, slice_from_ok by lia. cbn [mbind result_bind]. split.
  - apply no_panic_bind; [by apply term_loop_no_panic | done].
  - intros r (tes & Ht%term_loop_sane & [= <-])%bind_ok_inv. cbn [terms postingsData].
    split; [done |]. rewrite len_drop; lia.
Qed.

Lemma undelta_ids_no_panic fuel raw prev off : 0 <= off -> no_panic (undelta_ids fuel raw prev off).
Proof.
  revert prev off. induction fuel as [| fuel IH]; intros prev off Ho; [done |]. cbn [undelta_ids].
  destruct (Z.ltb_spec off (len raw)); [| done]. rewrite slice_from_ok by lia.
  cbn [mbind result_bind]. destruct (Uvarint _) as [d k]. destruct (Z.leb_spec k 0); [done |].
  apply no_panic_bind; [apply IH; lia | done].
Qed.

Lemma search_loop_range f n fuel i j :
  (forall k, 0 <= k < n -> no_panic (f k)) -> 0 <= i <= j -> j <= n ->
  no_panic (search_loop f fuel i j) /\
  (forall r, search_loop f fuel i j = Ok r -> 0 <= r <= n).
Proof.
  intros Hf. revert i j. induction fuel as [| fuel IH]; intros i j Hi Hj; cbn [search_loop].
  { split; [done |]. intros r [= <-]. lia. }
  destruct (Z.ltb_spec i j); [| split; [done |]; intros r [= <-]; lia].
  pose proof (Z.div_mod (i + j) 2). pose proof (Z.mod_pos_bound (i + j) 2).
  set (h := (i + j) / 2) in *.
  assert (no_panic (f h)) as Hfh by (apply Hf; lia).
  destruct (f h) as [[] | |]; cbn [mbind result_bind]; try done; apply IH; lia.
Qed.

(** The offset sum of a term entry is taken in 32 bits: files below 4 GiB. *)
Lemma lookup_term_no_panic r t :
  Forall te_sane (terms r) -> len (postingsData r) < 2 ^ 32 -> no_panic (lookup_term r t).
Proof.
  intros Hs Hl. unfold lookup_term, sort_Search.
  destruct (search_loop_range (fun i => t0 ← index (terms r) i; Ok (negb (str_lt (te_term t0) t)))
    (len (terms r)) (Z.to_nat (len (terms r))) 0 (len (terms r))) as [Hp Hr].
  { intros k Hk. destruct (index_ok (terms r) k Hk) as (x & -> & _). done. }
  { len_pose. lia. }
  { done. }
  apply no_panic_bind; [done |]. intros idx Hidx%Hr.
  destruct (Z.leb_spec (len (terms r)) idx); [done |].
  destruct (index_ok (terms r) idx) as (te & -> & Hte); [lia |]. cbn [mbind result_bind].
  destruct (negb _); [done |].
  destruct (Z.ltb_spec (len (postingsData r)) (te_offset te + te_len te)); [done |].
  rewrite list.Forall_forall in Hs. apply list_elem_of_lookup_2, Hs in Hte as [Ho Hn].
  rewrite uint32_small, slice_ok by lia. cbn [mbind result_bind].
  apply no_panic_bind; [apply no_panic_wrap, DecompressBounded_no_panic |]. intros raw _.
  by apply undelta_ids_no_panic.
Qed.

Lemma posting_lists_no_panic r qts :
  Forall te_sane (terms r) -> len (postingsData r) < 2 ^ 32 ->
  no_panic (posting_lists r qts) /\
  (forall ls, posting_lists r qts = Ok (Some ls) -> length ls = length qts).
Proof.
  intros Hs Hl. induction qts as [| t qts [IH1 IH2]]; cbn [posting_lists].
  { split; [done |]. by intros ls [= <-]. }
  pose proof (lookup_term_no_panic r t Hs Hl) as Hp.
  destruct (lookup_term r t) as [ids | |]; cbn [wrap mbind result_bind]; try done.
  destruct (len ids =? 0); [done |].
  destruct (posting_lists r qts) as [[ls |] | |]; cbn [mbind result_bind option_bind]; try done.
  split; [done |]. intros ? [= <-]. cbn. by rewrite (IH2 ls).
Qed.

Lemma Search_no_panic r q :
  Forall te_sane (terms r) -> len (postingsData r) < 2 ^ 32 -> no_panic (Search r q).
Proof.
  intros Hs Hl. unfold Search. destruct (Z.eqb_spec (len (TokenizeUnique q)) 0) as [| Hne]; [done |].
  destruct (posting_lists_no_panic r (TokenizeUnique q) Hs Hl) as [Hp Hlen].
  apply no_panic_bind; [done |]. intros [ls |] Hls; [| done].
  apply Hlen in Hls. destruct ls as [| l [| l' ls]]; [| done | done].
  unfold len in Hne. rewrite <- Hls in Hne. done.
Qed.

End SearchLemmas.

(** A rune takes at least one byte and no more than there are. *)
Lemma DecodeRune_width s : s <> [] -> (1 <= (DecodeRune s).2 <= length s)%nat.
Proof.
  destruct s as [| b0 rest]; [done |]. intros _. unfold DecodeRune.
  repeat (case_match; cbn [snd length]; try lia).
Qed.

(** Without separators the whole text is one field. *)
Lemma fields_loop_whole f fuel s cur :
  (forall r, f r = false) -> (length s <= fuel)%nat ->
  fields_loop f fuel s cur = if bool_decide (cur ++ s = []) then [] else [cur ++ s].
Proof.
  intros Hf. revert s cur. induction fuel as [| fuel IH]; intros s cur Hl.
  { destruct s; [| cbn in Hl; lia]. cbn [fields_loop]. by rewrite app_nil_r. }
  destruct s as [| b s]; [cbn [fields_loop]; by rewrite app_nil_r |].
  cbn [fields_loop]. pose proof (DecodeRune_width (b :: s) ltac:(done)) as Hw.
  destruct (DecodeRune (b :: s)) as [r w]. cbn [snd] in Hw. rewrite Hf, IH.
  - by rewrite <- app_assoc, take_drop.
  - rewrite length_drop. cbn [length] in *. lia.
Qed.

(** ** Properties *)

Section IndexProperties.
Context {C : Zstd} {L : ZstdLaws C} {U : Unicode}.

(** C15: Full-text search over a sealed index of tokens shorter than 65536 bytes and a file below
    4 GiB ([index_fits]; a longer token is lost, [long_token_lost]) returns, in ascending order
    and without duplicates, exactly the rows whose message contains every token of the query
    (and nothing for a query without tokens). *)
Theorem index_search_exact (msgs : list bytes) (n : Z) (query : bytes) :
  index_fits (add_all 0 msgs NewBuilder) n -> len msgs * 10 <= MaxBlockBytes ->
  exists r, IndexOpenReader (Write (add_all 0 msgs NewBuilder) n) = Ok r /\
    Search r query =
      Ok (if bool_decide (Tokenize query = []) then [] else matching_rows 0 query msgs).
Proof.
  intros Hfit Hn. eexists. split; [by apply IndexOpenReader_Write |]. by apply Search_ok.
Qed.

(** Opening an arbitrary file below 4 GiB as an index and searching it for an
    arbitrary query never panics. *)
Theorem index_never_panics (data query : bytes) :
  len data < 2 ^ 32 ->
  no_panic (IndexOpenReader data) /\
  forall r, IndexOpenReader data = Ok r -> no_panic (Search r query).
Proof.
  intros Hl. destruct (IndexOpenReader_safe data) as [Hp Hr]. split; [done |].
  intros r [Hs Hb]%Hr. apply Search_no_panic; [done | lia].
Qed.

(** A token of 65536 bytes or more is written under a 16-bit length that
    wraps: the index opens without an error and a search for the message's own
    token returns nothing, though the row matches. *)
Theorem long_token_lost (m t : bytes) :
  TokenizeUnique m = [t] -> 65536 <= len t < 2 ^ 31 ->
  exists r, IndexOpenReader (Write (add_all 0 [m] NewBuilder) 1) = Ok r /\
    Search r m = Ok [] /\ matching_rows 0 m [m] = [0].
Proof. apply long_token_lost_lemma. Qed.

End IndexProperties.

(** Lowercasing and classification of ASCII. *)
Definition ascii_unicode : Unicode := {|
  ToLower := fmap (fun b => if (65 <=? b) && (b <=? 90) then b + 32 else b);
  IsLetter := fun r => (97 <=? r) && (r <=? 122);
  IsDigit := fun r => (48 <=? r) && (r <=? 57)
|}.

Definition letters_unicode : Unicode := {|
  ToLower := fun s => s; IsLetter := fun _ => true; IsDigit := fun _ => false
|}.

Definition sample_messages : list bytes :=
  [str "Slow query on users"; str "slow start"; str "users: slow"].

Lemma index_fits_check {C : Zstd} (b : Builder) (n : Z) :
  bool_decide (Forall (fun kv : bytes * list Z => len kv.1 < 65536) (map_to_list b)) = true ->
  (len (Write b n) <? 2 ^ 32) = true -> index_fits b n.
Proof.
  intros Hf%bool_decide_eq_true Hl%Z.ltb_lt. split; [| done].
  intros t [rows Hrows%elem_of_map_to_list]. rewrite list.Forall_forall in Hf. by apply Hf in Hrows.
Qed.

Lemma sample_index_fits :
  index_fits (C := stored_codec) (add_all (U := ascii_unicode) 0 sample_messages NewBuilder) 3.
Proof. apply index_fits_check; by vm_compute. Qed.

Lemma index_search_exact_witness :
  exists r, IndexOpenReader
      (Write (C := stored_codec) (add_all (U := ascii_unicode) 0 sample_messages NewBuilder) 3) = Ok r /\
    Search (C := stored_codec) (U := ascii_unicode) r (str "USERS slow") = Ok [0; 2].
Proof.
  apply (index_search_exact (C := stored_codec) (U := ascii_unicode) sample_messages 3
    (str "USERS slow")); [apply sample_index_fits | done].
Defined.

Lemma index_never_panics_witness :
  no_panic (IndexOpenReader (str "OTIX")) /\
  forall r, IndexOpenReader (str "OTIX") = Ok r ->
    no_panic (Search (C := stored_codec) (U := ascii_unicode) r (str "slow")).
Proof. apply (index_never_panics (C := stored_codec) (U := ascii_unicode) (str "OTIX")). done. Defined.

Lemma long_token_tokens :
  TokenizeUnique (U := letters_unicode) (make 97 70000) = [make 97 70000].
Proof.
  rewrite TokenizeUnique_uniq. unfold Tokenize, FieldsFunc. cbn [ToLower letters_unicode].
  rewrite fields_loop_whole by done. rewrite app_nil_l.
  pose proof (len_make 97 70000 ltac:(done)) as Hl. revert Hl. generalize (make 97 70000).
  intros m Hl. rewrite bool_decide_eq_false_2 by (intros ->; done).
  rewrite filter_cons. case_decide; [done | lia].
Qed.

Lemma long_token_lost_witness :
  exists r, IndexOpenReader (Write (C := stored_codec)
      (add_all (U := letters_unicode) 0 [make 97 70000] NewBuilder) 1) = Ok r /\
    Search (C := stored_codec) (U := letters_unicode) r (make 97 70000) = Ok [] /\
    matching_rows (U := letters_unicode) 0 (make 97 70000) [make 97 70000] = [0].
Proof.
  apply (long_token_lost (C := stored_codec) (U := letters_unicode) (make 97 70000) (make 97 70000)).
  - apply long_token_tokens.
  - rewrite len_make by done. done.
Defined.
