(* ===== verification/Ids.v ===== *)
(** * Composite entry IDs (engine/id.go)

    An ID packs the segment hour (hours since the Unix epoch), an 8-bit chunk
    number and a 23-bit row into a positive int64.  Main results: IDs of
    positions in range decode to their fields and are ordered like the pairs of
    hour and position, and consecutive rows of one logical chunk have consecutive
    IDs (which the physical chunk lookup relies on). *)

From stdpp Require Import base list gmap strings numbers sorting.
From Stdlib Require Import ZArith Lia.
From S2P Require Import Prelude.

Definition rowBits : Z := 23.
Definition chunkBits : Z := 8.
Definition rowMask : Z := 2 ^ rowBits - 1.
Definition chunkMask : Z := 2 ^ chunkBits - 1.
Definition chunkSize : Z := 50000.
Definition maxChunksPerSegment : Z := chunkMask + 1.
Definition MaxEntriesPerSegment : Z := chunkSize * maxChunksPerSegment.

(** [a << s] on int64. *)
Definition shl64 (a s : Z) : Z := int64 (Z.shiftl a s).

Definition EncodeID (segmentHour chunkNum row : Z) : Z :=
  Z.lor
    (Z.lor (shl64 segmentHour (rowBits + chunkBits))
       (shl64 (Z.land chunkNum chunkMask) rowBits))
    (Z.land row rowMask).

(** The segment hour, chunk number and row of an ID. *)
Definition DecodeID (id : Z) : Z * Z * Z :=
  (Z.shiftr id (rowBits + chunkBits),
   Z.land (Z.shiftr id rowBits) chunkMask,
   Z.land id rowMask).

(** A [time.Time] is its instant in nanoseconds since the Unix epoch. *)
Definition Unix (t : Z) : Z := t / 1000000000.
Definition UnixMilli (t : Z) : Z := int64 (t / 1000000).

(** Go's integer division truncates towards zero. *)
Definition SegmentHourFromTime (t : Z) : Z := Z.quot (Unix t) 3600.

Definition TimeFromSegmentHour (h : Z) : Z := h * 3600 * 1000000000.

Definition IDForPosition (segmentHour entryIndex : Z) : Z :=
  let chunkNum := Z.quot entryIndex chunkSize in
  let row := Z.rem entryIndex chunkSize in
  EncodeID segmentHour chunkNum row.

Definition SegmentHasRoom (have n : Z) : bool :=
  (0 <=? have) && (0 <=? n) && (have + n <=? MaxEntriesPerSegment).

(** ** Arithmetic of the layout *)

Lemma shl64_small a s : 0 <= s -> 0 <= a * 2 ^ s < 2 ^ 63 -> shl64 a s = a * 2 ^ s.
Proof.
  intros. unfold shl64. rewrite Z.shiftl_mul_pow2 by done.
  apply int64_small. unfold is_int64. lia.
Qed.

(** The numeric value of an ID whose fields are in range. *)
Lemma EncodeID_value h c r :
  0 <= h < 2 ^ 32 -> 0 <= c < 2 ^ 8 -> 0 <= r < 2 ^ 23 ->
  EncodeID h c r = h * 2 ^ 31 + c * 2 ^ 23 + r.
Proof.
  intros Hh Hc Hr. unfold EncodeID, chunkMask, rowMask, rowBits, chunkBits.
  rewrite !land_ones_mod, (Z.mod_small c), (Z.mod_small r) by lia.
  rewrite !shl64_small by lia. change (23 + 8) with 31.
  rewrite (Z.lor_comm (h * 2 ^ 31)), lor_mul_add by lia.
  rewrite Z.lor_comm.
  replace (c * 2 ^ 23 + h * 2 ^ 31) with ((c + h * 2 ^ 8) * 2 ^ 23) by lia.
  rewrite lor_mul_add by lia. lia.
Qed.

Lemma DecodeID_value h c r :
  0 <= c < 2 ^ 8 -> 0 <= r < 2 ^ 23 ->
  DecodeID (h * 2 ^ 31 + c * 2 ^ 23 + r) = (h, c, r).
Proof.
  intros Hc Hr. unfold DecodeID, chunkMask, rowMask, rowBits, chunkBits.
  rewrite !Z.shiftr_div_pow2, !land_ones_mod by lia. change (23 + 8) with 31.
  f_equal; [f_equal |].
  - symmetry. apply (Z.div_unique _ _ _ (c * 2 ^ 23 + r)); lia.
  - replace ((h * 2 ^ 31 + c * 2 ^ 23 + r) / 2 ^ 23) with (c + h * 2 ^ 8).
    + rewrite Z.mod_add by lia. apply Z.mod_small. lia.
    + apply (Z.div_unique _ _ _ r); lia.
  - replace (h * 2 ^ 31 + c * 2 ^ 23 + r) with (r + (h * 2 ^ 8 + c) * 2 ^ 23) by lia.
    rewrite Z.mod_add by lia. apply Z.mod_small. lia.
Qed.

(** A position in range is a chunk number and a row in range. *)
Lemma position_split i :
  0 <= i < MaxEntriesPerSegment ->
  let c := Z.quot i chunkSize in let r := Z.rem i chunkSize in
  i = c * chunkSize + r /\ 0 <= c < 2 ^ 8 /\ 0 <= r < chunkSize.
Proof.
  unfold MaxEntriesPerSegment, maxChunksPerSegment, chunkMask, chunkBits, chunkSize.
  intros Hi. cbv zeta. rewrite Z.quot_div_nonneg, Z.rem_mod_nonneg by lia.
  pose proof (Z.div_mod i 50000 ltac:(lia)).
  pose proof (Z.mod_pos_bound i 50000 ltac:(lia)). lia.
Qed.

(** Name the chunk number and row of position [i], with their equation. *)
Ltac split_position i Hi :=
  let c := fresh "c" in let r := fresh "r" in
  let E := fresh "E" in let Hc := fresh "Hc" in let Hr := fresh "Hr" in
  destruct (position_split i Hi) as (E & Hc & Hr);
  remember (Z.quot i chunkSize) as c eqn:E1; remember (Z.rem i chunkSize) as r eqn:E2;
  clear E1 E2; change chunkSize with 50000 in E, Hr.

Lemma IDForPosition_value h i :
  0 <= h < 2 ^ 32 -> 0 <= i < MaxEntriesPerSegment ->
  IDForPosition h i = h * 2 ^ 31 + Z.quot i chunkSize * 2 ^ 23 + Z.rem i chunkSize.
Proof.
  intros Hh Hi. unfold IDForPosition. cbv zeta. split_position i Hi.
  rewrite EncodeID_value; lia.
Qed.

Lemma IDForPosition_decode h i :
  0 <= h < 2 ^ 32 -> 0 <= i < MaxEntriesPerSegment ->
  DecodeID (IDForPosition h i) = (h, Z.quot i chunkSize, Z.rem i chunkSize).
Proof.
  intros Hh Hi. rewrite IDForPosition_value by done. split_position i Hi.
  rewrite DecodeID_value; [done | lia | lia].
Qed.

Lemma IDForPosition_lt h i j :
  0 <= h < 2 ^ 32 -> 0 <= i < MaxEntriesPerSegment -> 0 <= j < MaxEntriesPerSegment ->
  (IDForPosition h i < IDForPosition h j <-> i < j).
Proof.
  intros Hh Hi Hj. rewrite !IDForPosition_value by done.
  split_position i Hi. split_position j Hj.
  destruct (Z.lt_trichotomy c c0) as [? | [-> | ?]]; lia.
Qed.

Lemma IDForPosition_range h i :
  0 <= h < 2 ^ 32 -> 0 <= i < MaxEntriesPerSegment ->
  h * 2 ^ 31 <= IDForPosition h i < (h + 1) * 2 ^ 31.
Proof.
  intros Hh Hi. rewrite IDForPosition_value by done.
  split_position i Hi. lia.
Qed.

(** Within one logical chunk consecutive positions have consecutive IDs. *)
Lemma IDForPosition_offset h i k :
  0 <= h < 2 ^ 32 -> 0 <= i -> 0 <= k -> i + k < MaxEntriesPerSegment ->
  Z.rem i chunkSize + k < chunkSize ->
  IDForPosition h (i + k) = IDForPosition h i + k.
Proof.
  intros Hh Hi Hk Hm. assert (0 <= i < MaxEntriesPerSegment) as Hi' by lia.
  assert (0 <= i + k < MaxEntriesPerSegment) as Hk' by lia.
  rewrite !IDForPosition_value by lia.
  split_position i Hi'. split_position (i + k) Hk'.
  change chunkSize with 50000. intros Hb.
  destruct (Z.lt_trichotomy c c0) as [? | [-> | ?]]; lia.
Qed.

(** ** Properties *)

(** The IDs a segment hands out to positions in range decode to their hour,
    chunk and row, stay in the positive int64 range, and are ordered like the
    pairs of hour and position: no two positions of any two hours collide. *)
Theorem ids_are_ordered (h h' i j : Z) :
  0 <= h < 2 ^ 32 -> 0 <= h' < 2 ^ 32 ->
  0 <= i < MaxEntriesPerSegment -> 0 <= j < MaxEntriesPerSegment ->
  DecodeID (IDForPosition h i) = (h, Z.quot i chunkSize, Z.rem i chunkSize) /\
  0 <= IDForPosition h i < 2 ^ 63 /\
  (IDForPosition h i < IDForPosition h' j <-> h < h' \/ h = h' /\ i < j).
Proof.
  intros Hh Hh' Hi Hj. split; [by apply IDForPosition_decode |].
  pose proof (IDForPosition_range h i Hh Hi). pose proof (IDForPosition_range h' j Hh' Hj).
  split; [lia |]. destruct (decide (h = h')) as [<- | Hne].
  - rewrite IDForPosition_lt by done. lia.
  - lia.
Qed.

Lemma ids_are_ordered_witness :
  IDForPosition 493000 50001 < IDForPosition 493001 3.
Proof.
  apply (ids_are_ordered 493000 493001 50001 3);
    [lia | lia | unfold MaxEntriesPerSegment; split; [lia | reflexivity] .. | by left].
Defined.
