(* ===== verification/Times.v ===== *)
(** * Calendar times (Go's time.Format and time.Parse)

    The log store names segment directories by hour ("2006-01-02T15"), keys its
    histograms by minute ("2006-01-02T15:04") and records time ranges in RFC 3339.
    This file models those layouts for UTC times: the proleptic Gregorian
    calendar, formatting and parsing, and the round trips between them. *)

From stdpp Require Import base list gmap strings numbers sorting.
From Stdlib Require Import ZArith Lia.
From S2P Require Import Prelude Strconv.

(** ** The proleptic Gregorian calendar *)

Definition is_leap (y : Z) : bool :=
  (y mod 4 =? 0) && (negb (y mod 100 =? 0) || (y mod 400 =? 0)).

Definition daysIn (m y : Z) : Z :=
  if m =? 2 then (if is_leap y then 29 else 28)
  else if (m =? 4) || (m =? 6) || (m =? 9) || (m =? 11) then 30 else 31.

(** The year, month and day of a day counted from 1970-01-01.  Years start in
    March here, so that the leap day is the last one of its year. *)
Definition civil_of_days (days : Z) : Z * Z * Z :=
  let z := days + 719468 in
  let era := z / 146097 in
  let doe := z mod 146097 in
  let c := Z.min (doe / 36524) 3 in
  let doc := doe - c * 36524 in
  let q := doc / 1461 in
  let doq := doc mod 1461 in
  let a := Z.min (doq / 365) 3 in
  let doy := doq - a * 365 in
  let mp := (5 * doy + 2) / 153 in
  let d := doy - (153 * mp + 2) / 5 + 1 in
  let m := if mp <? 10 then mp + 3 else mp - 9 in
  (era * 400 + c * 100 + q * 4 + a + (if m <=? 2 then 1 else 0), m, d).

Definition days_of_civil (y m d : Z) : Z :=
  let y' := if m <=? 2 then y - 1 else y in
  let mp := if m <=? 2 then m + 9 else m - 3 in
  let yoe := y' mod 400 in
  y' / 400 * 146097 + (yoe * 365 + yoe / 4 - yoe / 100 + (153 * mp + 2) / 5 + d - 1) - 719468.

(** [lia] with the Euclidean equations of the divisions in sight. *)
Ltac zdiv := Z.to_euclidean_division_equations; lia.

Lemma daysIn_31 m y : daysIn m y <= 31.
Proof. unfold daysIn. repeat case_match; lia. Qed.

(** March-based month lengths: every month but the last (February). *)
Lemma month_split doy :
  0 <= doy < 366 ->
  let mp := (5 * doy + 2) / 153 in let d := doy - (153 * mp + 2) / 5 + 1 in
  0 <= mp <= 11 /\ 1 <= d /\
  (mp < 11 -> d <= (153 * (mp + 1) + 2) / 5 - (153 * mp + 2) / 5) /\
  (mp = 11 -> d <= 29 /\ (doy < 365 -> d <= 28)).
Proof. cbv zeta. intros. zdiv. Qed.

(** The century, four-year cycle, year and day of a day of a 400-year era. *)
Lemma era_split doe :
  0 <= doe < 146097 ->
  let c := Z.min (doe / 36524) 3 in let doc := doe - c * 36524 in
  let q := doc / 1461 in let doq := doc mod 1461 in
  let a := Z.min (doq / 365) 3 in let doy := doq - a * 365 in
  0 <= c <= 3 /\ 0 <= q <= 24 /\ 0 <= a <= 3 /\ 0 <= doy < 366 /\
  doe = c * 36524 + q * 1461 + a * 365 + doy /\
  (doy = 365 -> a = 3 /\ (q = 24 -> c = 3)).
Proof. cbv zeta. intros. zdiv. Qed.

(** Year arithmetic of a year [a] of four-year cycle [q] of century [c] of an era. *)
Lemma year_of_era era c q a :
  0 <= c <= 3 -> 0 <= q <= 24 -> 0 <= a <= 3 ->
  let y := era * 400 + c * 100 + q * 4 + a in
  y / 400 = era /\ y mod 400 = c * 100 + q * 4 + a /\
  (c * 100 + q * 4 + a) / 4 = c * 25 + q /\ (c * 100 + q * 4 + a) / 100 = c /\
  (a = 3 -> (q = 24 -> c = 3) -> is_leap (y + 1) = true).
Proof.
  intros Hc Hq Ha y. subst y.
  assert ((era * 400 + c * 100 + q * 4 + a) / 400 = era) as E1 by zdiv.
  assert ((era * 400 + c * 100 + q * 4 + a) mod 400 = c * 100 + q * 4 + a) as E2 by zdiv.
  do 4 (split; [zdiv |]). intros -> Hcent. unfold is_leap.
  rewrite (proj2 (Z.eqb_eq _ 0)) by zdiv. cbn [andb].
  destruct (Z.eqb_spec ((era * 400 + c * 100 + q * 4 + 3 + 1) mod 100) 0) as [E | _]; [| done].
  cbn [negb orb]. apply Z.eqb_eq. assert (q = 24) as -> by zdiv. rewrite Hcent by done. zdiv.
Qed.

Lemma civil_of_days_ok days :
  let '(y, m, d) := civil_of_days days in
  days_of_civil y m d = days /\ 1 <= m <= 12 /\ 1 <= d <= daysIn m y.
Proof.
  unfold civil_of_days. cbv zeta.
  pose proof (Z.div_mod (days + 719468) 146097 ltac:(lia)) as Hz.
  pose proof (Z.mod_pos_bound (days + 719468) 146097 ltac:(lia)) as Hdoe.
  set (era := (days + 719468) / 146097) in *. set (doe := (days + 719468) mod 146097) in *.
  clearbody era doe.
  destruct (era_split doe Hdoe) as (Hc & Hq & Ha & Hdoy & Edoe & Hleap).
  set (c := Z.min (doe / 36524) 3) in *. set (q := (doe - c * 36524) / 1461) in *.
  set (a := Z.min ((doe - c * 36524) mod 1461 / 365) 3) in *.
  set (doy := (doe - c * 36524) mod 1461 - a * 365) in *. clearbody c q a doy.
  destruct (month_split doy Hdoy) as (Hmp & Hd1 & Hd & Hd11).
  set (mp := (5 * doy + 2) / 153) in *. clearbody mp.
  set (d := doy - (153 * mp + 2) / 5 + 1) in *.
  assert (doy = (153 * mp + 2) / 5 + d - 1) as Edoy by lia. clearbody d.
  destruct (year_of_era era c q a Hc Hq Ha) as (Y1 & Y2 & Y3 & Y4 & Yleap).
  set (y := era * 400 + c * 100 + q * 4 + a) in *. clearbody y.
  assert (((if mp <? 10 then mp + 3 else mp - 9) <=? 2) = (10 <=? mp)) as ->
    by (zbool; try lia; done).
  split; [| split; [zbool; lia |]].
  - unfold days_of_civil.
    assert (((if mp <? 10 then mp + 3 else mp - 9) <=? 2) = (10 <=? mp)) as ->
      by (zbool; try lia; done).
    replace (if 10 <=? mp then y + (if 10 <=? mp then 1 else 0) - 1
      else y + (if 10 <=? mp then 1 else 0)) with y by (zbool; lia).
    replace (if 10 <=? mp then (if mp <? 10 then mp + 3 else mp - 9) + 9
      else (if mp <? 10 then mp + 3 else mp - 9) - 3) with mp by (zbool; lia).
    cbv zeta. rewrite Y1, Y2, Y3, Y4. lia.
  - split; [lia |]. unfold daysIn.
    assert (mp = 0 \/ mp = 1 \/ mp = 2 \/ mp = 3 \/ mp = 4 \/ mp = 5 \/ mp = 6 \/ mp = 7 \/
      mp = 8 \/ mp = 9 \/ mp = 10 \/ mp = 11) as Hcases by lia.
    destruct (decide (mp = 11)) as [-> | Hne].
    + destruct (decide (d = 29)) as [-> | Hd29].
      * change ((153 * 11 + 2) / 5) with 337 in Edoy.
        destruct (Hleap ltac:(lia)) as [Ha3 Hc3]. simpl. by rewrite (Yleap Ha3 Hc3).
      * destruct (Hd11 eq_refl). simpl. case_match; lia.
    + specialize (Hd ltac:(lia)).
      repeat destruct Hcases as [-> | Hcases]; [.. | by subst]; clear - Hd; simpl in Hd |- *; zdiv.
Qed.

(** ** Formatting

    [time.Time.UTC().Format] for the layouts the log store uses; the instant is in
    seconds. *)

Definition digit (n : Z) : Z := 48 + n.

(** Two digits of a field below 100. *)
Definition two (n : Z) : bytes := [digit (n / 10); digit (n mod 10)].

(** A year is at least four digits wide. *)
Definition year4 (y : Z) : bytes :=
  if (0 <=? y) && (y <? 10000) then
    [digit (y / 1000); digit (y / 100 mod 10); digit (y / 10 mod 10); digit (y mod 10)]
  else Itoa y.

Definition dash : Z := 45.
Definition colon : Z := 58.
Definition letterT : Z := 84.
Definition letterZ : Z := 90.

(** Layout "2006-01-02". *)
Definition fmt_date (secs : Z) : bytes :=
  let '(y, m, d) := civil_of_days (secs / 86400) in
  year4 y ++ [dash] ++ two m ++ [dash] ++ two d.

Definition fmt_hour (secs : Z) : bytes :=
  fmt_date secs ++ [letterT] ++ two (secs mod 86400 / 3600).

Definition fmt_minute (secs : Z) : bytes :=
  fmt_hour secs ++ [colon] ++ two (secs mod 3600 / 60).

(** [time.RFC3339] of a UTC time. *)
Definition fmt_RFC3339 (secs : Z) : bytes :=
  fmt_minute secs ++ [colon] ++ two (secs mod 60) ++ [letterZ].

(** ** Parsing

    [time.Parse] for the same layouts.  A parser consumes a prefix; [None] is a
    non-nil error.  As in Go the hour field may have one digit, the seconds may be
    followed by a fraction, and a zone is [Z] or an offset. *)

Definition expect (c : Z) (s : bytes) : option bytes :=
  match s with
  | b :: rest => if b =? c then Some rest else None
  | [] => None
  end.

Definition get2 (s : bytes) : option (Z * bytes) :=
  match s with
  | a :: b :: rest =>
      if is_digit a && is_digit b then Some ((a - 48) * 10 + (b - 48), rest) else None
  | _ => None
  end.

Definition get4 (s : bytes) : option (Z * bytes) :=
  match s with
  | a :: b :: c :: d :: rest =>
      if is_digit a && is_digit b && is_digit c && is_digit d
      then Some ((a - 48) * 1000 + (b - 48) * 100 + (c - 48) * 10 + (d - 48), rest)
      else None
  | _ => None
  end.

(** One or two digits. *)
Definition get12 (s : bytes) : option (Z * bytes) :=
  match s with
  | a :: rest =>
      if is_digit a then
        match get2 s with
        | Some r => Some r
        | None => Some (a - 48, rest)
        end
      else None
  | [] => None
  end.

Definition in_range (lo hi : Z) (r : Z * bytes) : option (Z * bytes) :=
  if (lo <=? r.1) && (r.1 <=? hi) then Some r else None.

(** The date as a day number. *)
Definition get_date (s : bytes) : option (Z * bytes) :=
  '(y, s) ← get4 s;
  s ← expect dash s;
  '(m, s) ← get2 s ≫= in_range 1 12;
  s ← expect dash s;
  '(d, s) ← get2 s ≫= in_range 1 (daysIn m y);
  Some (days_of_civil y m d, s).

Definition get_hour (s : bytes) : option (Z * bytes) :=
  '(days, s) ← get_date s;
  s ← expect letterT s;
  '(h, s) ← get12 s ≫= in_range 0 23;
  Some (days * 86400 + h * 3600, s).

Definition get_minute (s : bytes) : option (Z * bytes) :=
  '(t, s) ← get_hour s;
  s ← expect colon s;
  '(m, s) ← get2 s ≫= in_range 0 59;
  Some (t + m * 60, s).

Fixpoint digit_run (s : bytes) : bytes * bytes :=
  match s with
  | b :: rest =>
      if is_digit b then let '(ds, r) := digit_run rest in (b :: ds, r) else ([], s)
  | [] => ([], [])
  end.

(** A fraction of a second in nanoseconds: nine digits count. *)
Definition frac_nanos (ds : bytes) : Z :=
  default 0 (parse_digits (take 9 (ds ++ replicate 9 48)) 0).

Definition get_fraction (s : bytes) : Z * bytes :=
  match s with
  | b :: rest =>
      if (b =? 46) || (b =? 44) then
        match digit_run rest with
        | ([], _) => (0, s)
        | (ds, r) => (frac_nanos ds, r)
        end
      else (0, s)
  | [] => (0, s)
  end.

(** The zone offset in seconds. *)
Definition get_zone (s : bytes) : option (Z * bytes) :=
  match s with
  | b :: rest =>
      if b =? letterZ then Some (0, rest)
      else if (b =? 43) || (b =? 45) then
        '(h, r) ← get2 rest ≫= in_range 0 24;
        r ← expect colon r;
        '(m, r) ← get2 r ≫= in_range 0 60;
        Some ((if b =? 45 then -1 else 1) * (h * 3600 + m * 60), r)
      else None
  | [] => None
  end.

Definition at_end {A} (r : A * bytes) : option A :=
  match r.2 with [] => Some r.1 | _ => None end.

(** Results in nanoseconds since the epoch. *)
Definition parse_hour_layout (s : bytes) : option Z :=
  t ← get_hour s ≫= at_end; Some (t * 1000000000).

Definition parse_minute_layout (s : bytes) : option Z :=
  t ← get_minute s ≫= at_end; Some (t * 1000000000).

Definition parse_RFC3339 (s : bytes) : option Z :=
  '(t, s) ← get_minute s;
  s ← expect colon s;
  '(sec, s) ← get2 s ≫= in_range 0 59;
  let '(ns, s) := get_fraction s in
  '(off, s) ← get_zone s;
  at_end ((t + sec - off) * 1000000000 + ns, s).

(** ** Round trips *)

Lemma is_digit_digit n : 0 <= n <= 9 -> is_digit (digit n) = true.
Proof. intros. unfold is_digit, digit. zcmp. done. Qed.

Lemma digit_value n : digit n - 48 = n.
Proof. unfold digit. lia. Qed.

Lemma get2_two n rest : 0 <= n <= 99 -> get2 (two n ++ rest) = Some (n, rest).
Proof.
  intros. unfold two. cbn [get2 app]. rewrite !is_digit_digit by zdiv. cbn [andb].
  rewrite !digit_value. do 2 f_equal. zdiv.
Qed.

Lemma get12_two n rest : 0 <= n <= 99 -> get12 (two n ++ rest) = Some (n, rest).
Proof.
  intros. unfold get12. rewrite get2_two by done. unfold two. cbn [app].
  by rewrite is_digit_digit by zdiv.
Qed.

Lemma get4_year y rest : 0 <= y <= 9999 -> get4 (year4 y ++ rest) = Some (y, rest).
Proof.
  intros. unfold year4. zcmp. cbn [get4 app]. rewrite !is_digit_digit by zdiv. cbn [andb].
  rewrite !digit_value. do 2 f_equal. zdiv.
Qed.

Lemma in_range_ok lo hi n s : lo <= n <= hi -> in_range lo hi (n, s) = Some (n, s).
Proof. intros. unfold in_range. cbn [fst]. by zcmp. Qed.

Lemma expect_cons c s : expect c (c :: s) = Some s.
Proof. cbn. by rewrite Z.eqb_refl. Qed.

(** Instants before the year 6325; four-digit years. *)
Definition datable (secs : Z) : Prop := 0 <= secs < 2 ^ 37.

Lemma datable_year secs y m d :
  datable secs -> civil_of_days (secs / 86400) = (y, m, d) -> 0 <= y <= 9999.
Proof.
  unfold datable, civil_of_days. intros Hs. cbv zeta. intros [= <- _ _].
  assert (0 <= secs / 86400 <= 1590729) as Hd by zdiv. set (days := secs / 86400) in *.
  clearbody days.
  destruct (era_split ((days + 719468) mod 146097)) as (Hc & Hq & Ha & _).
  { apply Z.mod_pos_bound. lia. }
  assert (0 <= (days + 719468) / 146097 <= 20) as He by zdiv.
  match goal with |- context [if ?b then 1 else 0] => destruct b end; lia.
Qed.

Lemma get_date_fmt secs rest :
  datable secs -> get_date (fmt_date secs ++ rest) = Some (secs / 86400, rest).
Proof.
  intros Hs. unfold fmt_date. pose proof (civil_of_days_ok (secs / 86400)) as Hok.
  destruct (civil_of_days (secs / 86400)) as [[y m] d] eqn:E.
  apply datable_year in E; [| done]. destruct Hok as (Hd & Hm & Hdd).
  pose proof (daysIn_31 m y).
  unfold get_date. rewrite <- !app_assoc, get4_year by done. cbn [mbind option_bind app].
  rewrite expect_cons. cbn [mbind option_bind]. rewrite get2_two by lia.
  cbn [mbind option_bind]. rewrite in_range_ok by done. cbn [mbind option_bind].
  rewrite expect_cons. cbn [mbind option_bind]. rewrite get2_two by lia.
  cbn [mbind option_bind]. rewrite in_range_ok by done. cbn [mbind option_bind].
  by rewrite Hd.
Qed.

Lemma get_hour_fmt secs rest :
  datable secs -> get_hour (fmt_hour secs ++ rest) = Some (secs / 3600 * 3600, rest).
Proof.
  intros Hs. unfold get_hour, fmt_hour. rewrite <- !app_assoc, get_date_fmt by done.
  cbn [mbind option_bind app]. rewrite expect_cons. cbn [mbind option_bind].
  rewrite get12_two by zdiv. cbn [mbind option_bind]. rewrite in_range_ok by zdiv.
  cbn [mbind option_bind]. do 2 f_equal. zdiv.
Qed.

Lemma get_minute_fmt secs rest :
  datable secs -> get_minute (fmt_minute secs ++ rest) = Some (secs / 60 * 60, rest).
Proof.
  intros Hs. unfold get_minute, fmt_minute. rewrite <- !app_assoc, get_hour_fmt by done.
  cbn [mbind option_bind app]. rewrite expect_cons. cbn [mbind option_bind].
  rewrite get2_two by zdiv. cbn [mbind option_bind]. rewrite in_range_ok by zdiv.
  cbn [mbind option_bind]. do 2 f_equal. zdiv.
Qed.

Lemma parse_hour_fmt secs :
  datable secs -> parse_hour_layout (fmt_hour secs) = Some (secs / 3600 * 3600 * 1000000000).
Proof.
  intros Hs. unfold parse_hour_layout. pose proof (get_hour_fmt secs [] Hs) as E.
  rewrite app_nil_r in E. by rewrite E.
Qed.

Lemma parse_minute_fmt secs :
  datable secs -> parse_minute_layout (fmt_minute secs) = Some (secs / 60 * 60 * 1000000000).
Proof.
  intros Hs. unfold parse_minute_layout. pose proof (get_minute_fmt secs [] Hs) as E.
  rewrite app_nil_r in E. by rewrite E.
Qed.

Lemma parse_RFC3339_fmt secs :
  datable secs -> parse_RFC3339 (fmt_RFC3339 secs) = Some (secs * 1000000000).
Proof.
  intros Hs. unfold parse_RFC3339, fmt_RFC3339. rewrite get_minute_fmt by done.
  cbn [mbind option_bind app]. rewrite expect_cons. cbn [mbind option_bind].
  rewrite get2_two by zdiv. cbn [mbind option_bind]. rewrite in_range_ok by zdiv.
  cbn. f_equal. zdiv.
Qed.

Example fmt_RFC3339_ex : fmt_RFC3339 1775304000 = str "2026-04-04T12:00:00Z".
Proof. vm_compute. reflexivity. Qed.

Example fmt_hour_ex : fmt_hour 951782400 = str "2000-02-29T00".
Proof. vm_compute. reflexivity. Qed.
