(* ===== verification/Seal.v ===== *)
(** * Sealing a WAL into a segment (engine/seal.go, engine/segment.go recoverDir)

    A segment directory is the map of its files; [Seal] streams the WAL a row
    group at a time into chunk and index files, accumulates the metadata and
    commits with the completion marker.  It is written as a traced computation: a
    crash is a prefix of its file operations.  Main results: the row groups
    partition the stored entries without crossing a logical chunk boundary, the
    metadata counts are exact, every crash prefix recovers to the segment an
    uninterrupted seal writes, and entries are located by their ID. *)

From stdpp Require Import base list gmap strings numbers sorting.
From Stdlib Require Import ZArith Lia.
From S2P Require Import Prelude Framing Zstd Schema Wal Strconv Chunk Index Ids Times.

(** ** Directories and traced effects

    A segment directory is the map of its files.  A traced computation lists the
    file operations it performed, also when it fails, so that a crash between any
    two of them is a prefix of the list. *)

Abbreviation Dir := (gmap bytes bytes).

Inductive fs_op :=
| WriteFile (name : bytes) (data : bytes)
| RemoveFile (name : bytes)
| RenameFile (old new : bytes).

Definition apply_op (d : Dir) (op : fs_op) : Dir :=
  match op with
  | WriteFile n data => <[n := data]> d
  | RemoveFile n => delete n d
  | RenameFile a b => match d !! a with Some x => <[b := x]> (delete a d) | None => d end
  end.

Definition apply_ops (d : Dir) (ops : list fs_op) : Dir := foldl apply_op d ops.

Definition traced (A : Type) : Type := list fs_op * result A.

#[export] Instance traced_ret : MRet traced := fun A a => ([], Ok a).
#[export] Instance traced_bind : MBind traced := fun A B f m =>
  match m with
  | (ops, Ok a) => let '(ops', r) := f a in (ops ++ ops', r)
  | (ops, Err e) => (ops, Err e)
  | (ops, Panic) => (ops, Panic)
  end.

Definition emit (op : fs_op) : traced unit := ([op], Ok tt).
Definition lift {A} (r : result A) : traced A := ([], r).

(** ** Segment metadata *)

Record ChunkMeta := mkChunkMeta { Index : Z; cm_EntryCount : Z; cm_IDRange : Z * Z }.

Record MetaCounts := mkCounts {
  ByLevel : gmap bytes Z;
  ByService : gmap bytes Z;
  ByServiceError : gmap bytes Z
}.

Record HBucket := mkBucket { Total : Z; Errors : Z }.

Record SegmentMeta := mkMeta {
  FormatVersion : Z;
  ChunkEntries : Z;
  Segment : bytes;
  Chunks : list ChunkMeta;
  sm_EntryCount : Z;
  IDRange : Z * Z;
  TimeRange : bytes * bytes;
  Counts : MetaCounts;
  Histogram : gmap bytes HBucket;
  Dicts : gmap bytes (list bytes)
}.

(** [encoding/json] of the metadata file. *)
Class MetaJSON := { MarshalMeta : SegmentMeta -> bytes; UnmarshalMeta : bytes -> option SegmentMeta }.

(** [SealChunkEntries] is a package variable. *)
Definition effectiveSealChunkEntries (SealChunkEntries : Z) : Z :=
  if (SealChunkEntries <? 1) || (chunkSize <? SealChunkEntries) then chunkSize
  else SealChunkEntries.

Definition isErrorLevel (level : bytes) : bool :=
  bool_decide (level = str "error") || bool_decide (level = str "fatal").

Definition SegmentDirName (h : Z) : bytes := fmt_hour (Unix (TimeFromSegmentHour h)).

Record metaAccumulator := mkAcc {
  acc_meta : SegmentMeta;
  dictSets : gmap bytes (gset bytes);
  acc_first : option Entry;
  acc_last : Entry;
  seen : Z
}.

Definition newMetaAccumulator (SealChunkEntries : Z) (segName : bytes) : metaAccumulator :=
  mkAcc
    (mkMeta 2 (effectiveSealChunkEntries SealChunkEntries) segName [] 0 (0, 0) ([], [])
       (mkCounts ∅ ∅ ∅) ∅ ∅)
    (<[str "service" := ∅]> (<[str "level" := ∅]> (<[str "env" := ∅]>
       (<[str "event_type" := ∅]> ∅))))
    None Entry0 0.

(** [m[k]++] *)
Definition incr (m : gmap bytes Z) (k : bytes) : gmap bytes Z := <[k := default 0 (m !! k) + 1]> m.

(** [sets[name][v] = true] *)
Definition note (sets : gmap bytes (gset bytes)) (name : string) (v : bytes)
  : gmap bytes (gset bytes) :=
  <[str name := {[v]} ∪ default ∅ (sets !! str name)]> sets.

Definition bump (b : HBucket) (err : bool) : HBucket :=
  mkBucket (Total b + 1) (if err then Errors b + 1 else Errors b).

(** The key of a minute, [time.UnixMilli(minute*60000).UTC().Format(...)]. *)
Definition minute_key (minute : Z) : bytes := fmt_minute (int64 (minute * 60000) / 1000).

(** The state of the loop of [add]: counts, histogram, dictionaries and the
    cached minute with its key. *)
Record add_state := mkAdd {
  st_counts : MetaCounts;
  st_hist : gmap bytes HBucket;
  st_dicts : gmap bytes (gset bytes);
  lastMinute : Z;
  minuteKey : bytes
}.

Definition add_counts (c : MetaCounts) (e : Entry) : MetaCounts :=
  mkCounts (incr (ByLevel c) (Level e))
    (if bool_decide (Service e = []) then ByService c else incr (ByService c) (Service e))
    (if bool_decide (Service e = []) then ByServiceError c
     else if isErrorLevel (Level e) then incr (ByServiceError c) (Service e)
     else ByServiceError c).

Definition note_nonempty (name : string) (v : bytes) (sets : gmap bytes (gset bytes))
  : gmap bytes (gset bytes) :=
  if bool_decide (v = []) then sets else note sets name v.

Definition add_dicts (sets : gmap bytes (gset bytes)) (e : Entry) : gmap bytes (gset bytes) :=
  let sets := note sets "level" (Level e) in
  let sets := note_nonempty "service" (Service e) sets in
  let sets := note_nonempty "env" (Env e) sets in
  note_nonempty "event_type" (EventType e) sets.

Definition add_entry (s : add_state) (e : Entry) : add_state :=
  let minute := Z.quot (ReceivedAt e) 60000 in
  let '(last, key) :=
    if minute =? lastMinute s then (lastMinute s, minuteKey s) else (minute, minute_key minute) in
  let bucket := default (mkBucket 0 0) (st_hist s !! key) in
  mkAdd (add_counts (st_counts s) e)
    (<[key := bump bucket (isErrorLevel (Level e))]> (st_hist s))
    (add_dicts (st_dicts s) e) last key.

Definition with_stats (m : SegmentMeta) (c : MetaCounts) (h : gmap bytes HBucket) : SegmentMeta :=
  mkMeta (FormatVersion m) (ChunkEntries m) (Segment m) (Chunks m) (sm_EntryCount m) (IDRange m)
    (TimeRange m) c h (Dicts m).

Definition acc_add (a : metaAccumulator) (entries : list Entry) : metaAccumulator :=
  match entries with
  | [] => a
  | e0 :: _ =>
      let s := foldl add_entry
        (mkAdd (Counts (acc_meta a)) (Histogram (acc_meta a)) (dictSets a) (-1) []) entries in
      mkAcc (with_stats (acc_meta a) (st_counts s) (st_hist s)) (st_dicts s)
        (match acc_first a with Some f => Some f | None => Some e0 end)
        (default Entry0 (last entries)) (seen a + len entries)
  end.

(** [time.UnixMilli(ms).UTC().Format(time.RFC3339)] *)
Definition ms_RFC3339 (ms : Z) : bytes := fmt_RFC3339 (ms / 1000).

(** The order in which Go ranges over a set is unspecified; [elements] is one. *)
Definition finish (a : metaAccumulator) : SegmentMeta :=
  let m := acc_meta a in
  let '(ids, times) :=
    match acc_first a with
    | Some f => ((ID f, ID (acc_last a)),
                 (ms_RFC3339 (ReceivedAt f), ms_RFC3339 (ReceivedAt (acc_last a))))
    | None => (IDRange m, TimeRange m)
    end in
  mkMeta (FormatVersion m) (ChunkEntries m) (Segment m) (Chunks m) (seen a) ids times
    (Counts m) (Histogram m) (elements <$> dictSets a).

(** ** File names *)

(** [fmt.Sprintf("%03d", n)] of a non-negative number. *)
Definition pad3 (n : Z) : bytes :=
  let ds := Itoa n in replicate (3 - length ds) 48 ++ ds.

Definition chunk_name (ci : Z) : bytes := str "chunk_" ++ pad3 ci ++ str ".col".
Definition index_name (ci : Z) : bytes := str "chunk_" ++ pad3 ci ++ str ".idx".
Definition meta_name : bytes := str "meta.json".
Definition marker_name : bytes := str ".seal_complete".
Definition active_name : bytes := str "active.wal".
Definition sealing_name (h : Z) : bytes := str "sealing_" ++ SegmentDirName h ++ str ".wal".

Definition IsSealComplete (d : Dir) : bool := bool_decide (is_Some (d !! marker_name)).

(** ** Sealing (Seal, writeChunk) *)

Definition add_chunk (m : SegmentMeta) (c : ChunkMeta) : SegmentMeta :=
  mkMeta (FormatVersion m) (ChunkEntries m) (Segment m) (Chunks m ++ [c]) (sm_EntryCount m)
    (IDRange m) (TimeRange m) (Counts m) (Histogram m) (Dicts m).

Definition with_meta (a : metaAccumulator) (m : SegmentMeta) : metaAccumulator :=
  mkAcc m (dictSets a) (acc_first a) (acc_last a) (seen a).

Section Seal.
Context {C : Zstd} {U : Unicode} {J : MetaJSON}.

(** The index of one chunk: message [i] under row [i]. *)
Definition index_file (entries : list Entry) : bytes :=
  Write (add_all 0 (Message <$> entries) NewBuilder) (len entries).

(** The writer creates the file with a placeholder header; a column that fails to
    encode leaves it incomplete. *)
Definition writeChunk (ci : Z) (entries : list Entry) (meta : SegmentMeta) : traced SegmentMeta :=
  emit (WriteFile (chunk_name ci) (make 0 HeaderSize));;
  data ← lift (wrap "write chunk columns" (write_chunk entries));
  emit (WriteFile (chunk_name ci) data);;
  emit (WriteFile (index_name ci) (index_file entries));;
  first ← lift (index entries 0);
  last ← lift (index entries (len entries - 1));
  mret (add_chunk meta (mkChunkMeta ci (len entries) (ID first, ID last))).

(** Go's [min]. *)
Fixpoint seal_loop (fuel : nat) (physicalChunkSize : Z) (acc : metaAccumulator) (sc : Scanner)
  (total : Z) : traced (metaAccumulator * Scanner * Z) :=
  match fuel with
  | O => mret (acc, sc, total)
  | S fuel =>
      let limit := Z.min physicalChunkSize (chunkSize - Z.rem total chunkSize) in
      '(sc, batch) ← lift (NextBatch sc [] physicalChunkSize limit);
      if bool_decide (batch = []) then mret (acc, sc, total)
      else
        let acc := acc_add acc batch in
        meta ← writeChunk (len (Chunks (acc_meta acc))) batch (acc_meta acc);
        seal_loop fuel physicalChunkSize (with_meta acc meta) sc (total + len batch)
  end.

(** Sealing the WAL [walName] of directory [d].  Every batch consumes a record, so
    the length of the file bounds the rounds.  [None] is the nil metadata of an
    empty or unreadable WAL. *)
Definition Seal (SealChunkEntries : Z) (d : Dir) (walName : bytes) (segmentHour : Z)
  : traced (option SegmentMeta) :=
  let segName := SegmentDirName segmentHour in
  if IsSealComplete d then lift (Err (Errorf "refusing to reseal: segment already sealed"))
  else
    match d !! walName with
    | None => lift (Err (Errorf "open WAL"))
    | Some data =>
        '(acc, sc, total) ←
          seal_loop (S (length data)) (effectiveSealChunkEntries SealChunkEntries)
            (newMetaAccumulator SealChunkEntries segName) (NewScanner (mkReader data EOF)) 0;
        if total =? 0 then
          match sc_err sc with
          | Some _ => emit (RenameFile walName (walName ++ str ".corrupt"));; mret None
          | None => emit (RemoveFile walName);; mret None
          end
        else
          let meta := finish acc in
          emit (WriteFile meta_name (MarshalMeta meta));;
          emit (WriteFile marker_name (str "ok"));;
          emit (RemoveFile walName);;
          mret (Some meta)
    end.

(** ** Recovery at startup (CleanIncompleteSeal, recoverDir) *)

(** [strings.HasPrefix] and [strings.HasSuffix] *)
Definition HasPrefix (p s : bytes) : bool := bool_decide (take (length p) s = p).
Definition HasSuffix (q s : bytes) : bool :=
  bool_decide ((length q <= length s)%nat /\ drop (length s - length q) s = q).

(** A glob [p*q] with a literal prefix and suffix. *)
Definition glob (p q s : bytes) : bool :=
  HasPrefix p s && HasSuffix q s && bool_decide ((length p + length q <= length s)%nat).

Definition glob_names (d : Dir) (p q : bytes) : list bytes :=
  merge_sort str_le (filter (fun n => glob p q n = true) (map_to_list d).*1).

Definition CleanIncompleteSeal (d : Dir) : list fs_op :=
  (RemoveFile <$> glob_names d (str "chunk_") (str ".col")) ++
  (RemoveFile <$> glob_names d (str "chunk_") (str ".idx")) ++
  [RemoveFile meta_name; RemoveFile marker_name].

(** [Seal] whose error the caller only logs. *)
Definition seal_ops (SealChunkEntries : Z) (d : Dir) (walName : bytes) (hour : Z) : list fs_op :=
  (Seal SealChunkEntries d walName hour).1.

Fixpoint reseal (SealChunkEntries : Z) (d : Dir) (hour : Z) (wals : list bytes) : Dir :=
  match wals with
  | [] => d
  | w :: wals =>
      reseal SealChunkEntries (apply_ops d (seal_ops SealChunkEntries d w hour)) hour wals
  end.

(** [parseSegmentHour]: zero when the name is not an hour. *)
Definition parseSegmentHour (dirName : bytes) : Z :=
  match parse_hour_layout dirName with
  | Some t => SegmentHourFromTime t
  | None => 0
  end.

(** The directory after recovery. *)
Definition recoverDir (SealChunkEntries : Z) (d : Dir) (dirName : bytes) (currentHour : Z) : Dir :=
  if IsSealComplete d then d
  else
    let hour := parseSegmentHour dirName in
    if hour <=? 0 then d
    else
      match glob_names d (str "sealing_") (str ".wal") with
      | (_ :: _) as sealingFiles =>
          reseal SealChunkEntries (apply_ops d (CleanIncompleteSeal d)) hour sealingFiles
      | [] =>
          if currentHour <=? hour then d
          else
            match d !! active_name with
            | None => d
            | Some _ =>
                let d := apply_op d (RenameFile active_name (sealing_name hour)) in
                apply_ops d (seal_ops SealChunkEntries d (sealing_name hour) hour)
            end
      end.

End Seal.

(** ** The row groups of a segment *)

(** How the stored entries are cut: at most [phys] rows per group, never across a
    logical chunk boundary. *)
Fixpoint batches (fuel : nat) (phys total : Z) (es : list Entry) : list (list Entry) :=
  match fuel, es with
  | S fuel, _ :: _ =>
      let limit := Z.to_nat (Z.min phys (chunkSize - Z.rem total chunkSize)) in
      take limit es ::
      batches fuel phys (total + len (take limit es)) (drop limit es)
  | _, _ => []
  end.

Definition row_groups (phys : Z) (es : list Entry) : list (list Entry) :=
  batches (length es) phys 0 es.

(** The accumulator after one row group. *)
Definition group_meta (ci : Z) (b : list Entry) : ChunkMeta :=
  mkChunkMeta ci (len b) (ID (default Entry0 (head b)), ID (default Entry0 (last b))).

Definition seal_group (acc : metaAccumulator) (b : list Entry) : metaAccumulator :=
  let acc := acc_add acc b in
  with_meta acc (add_chunk (acc_meta acc) (group_meta (len (Chunks (acc_meta acc))) b)).

(** The files of one row group. *)
Definition chunk_data `{Zstd} (b : list Entry) : bytes :=
  match write_chunk b with Ok f => f | _ => [] end.

Definition group_ops `{Zstd} `{Unicode} (ci : Z) (b : list Entry) : list fs_op :=
  [WriteFile (chunk_name ci) (make 0 HeaderSize); WriteFile (chunk_name ci) (chunk_data b);
   WriteFile (index_name ci) (index_file b)].

Fixpoint groups_ops `{Zstd} `{Unicode} (ci : Z) (bs : list (list Entry)) : list fs_op :=
  match bs with
  | [] => []
  | b :: bs => group_ops ci b ++ groups_ops (ci + 1) bs
  end.

Lemma traced_bind_ok {A B} (ops : list fs_op) (a : A) (f : A -> traced B) :
  (ops, Ok a) ≫= f = (ops ++ (f a).1, (f a).2).
Proof. cbn. by destruct (f a). Qed.

Lemma lift_bind {A B} (a : A) (f : A -> traced B) : lift (Ok a) ≫= f = f a.
Proof. unfold lift. rewrite traced_bind_ok. by destruct (f a). Qed.

Lemma emit_bind {B} op (f : unit -> traced B) :
  emit op ≫= f = (op :: (f tt).1, (f tt).2).
Proof. unfold emit. by rewrite traced_bind_ok. Qed.

Lemma apply_ops_app d ops ops' : apply_ops d (ops ++ ops') = apply_ops (apply_ops d ops) ops'.
Proof. apply foldl_app. Qed.

Lemma acc_add_chunks acc b : Chunks (acc_meta (acc_add acc b)) = Chunks (acc_meta acc).
Proof. by destruct b. Qed.

Lemma seal_group_chunks acc b :
  Chunks (acc_meta (seal_group acc b)) =
    Chunks (acc_meta acc) ++ [group_meta (len (Chunks (acc_meta acc))) b].
Proof. unfold seal_group. cbn. by rewrite acc_add_chunks. Qed.

Lemma index_head (b : list Entry) x : head b = Some x -> index b 0 = Ok x.
Proof. destruct b; [done |]. intros [= ->]. done. Qed.

Lemma index_last (b : list Entry) x : last b = Some x -> index b (len b - 1) = Ok x.
Proof.
  intros [l ->]%last_Some. rewrite len_app, len_cons, len_nil.
  apply (index_split _ l x []); [done | lia].
Qed.

Lemma group_ends (b : list Entry) :
  b <> [] -> exists x y, head b = Some x /\ last b = Some y.
Proof.
  intros Hne. destruct b as [| x b]; [done |]. exists x.
  destruct (last (x :: b)) as [y |] eqn:E; [by exists y |].
  by apply last_None in E.
Qed.

Section SealLemmas.
Context {C : Zstd} {L : ZstdLaws C} {U : Unicode} {J : MetaJSON}.
Context (cb : bool).

(** What the WAL codec needs of an entry. *)
Definition loggable (e : Entry) : Prop :=
  entry_ok e /\ (cb = true -> len (Body e) <= MaxBlockBytes).

Lemma loggable_split es :
  Forall loggable es ->
  Forall entry_ok es /\ Forall (fun e => cb = true -> len (Body e) <= MaxBlockBytes) es.
Proof. intros H. split; (eapply list.Forall_impl; [exact H |]); by intros ? []. Qed.

Lemma writeChunk_ok ci b m :
  chunk_fits b ->
  writeChunk ci b m = (group_ops ci b, Ok (add_chunk m (group_meta ci b))).
Proof.
  intros Hfit. destruct (chunk_roundtrip_lemma b Hfit) as (f & r & Hw & _).
  destruct (group_ends b (proj1 Hfit)) as (x & y & Ex & Ey).
  unfold writeChunk, group_ops, chunk_data, group_meta. rewrite Hw, Ex, Ey. cbn [wrap].
  rewrite emit_bind, lift_bind, !emit_bind, (index_head b x Ex), lift_bind.
  by rewrite (index_last b y Ey), lift_bind.
Qed.

(** A scanner at the end of its file yields nothing more. *)
Lemma NextBatch_end c err cap max :
  NextBatch (mkScanner (mkReader [] EOF) c err) [] cap max =
    Ok (mkScanner (mkReader [] EOF) c err, []) \/ cap < 1.
Proof.
  destruct (Z.lt_ge_cases cap 1) as [? | Hcap]; [by right | left].
  unfold NextBatch. destruct (Z.to_nat max) as [| n]; [done |]. cbn [next_batch_loop].
  destruct (len [] <? max); [| done]. rewrite len_nil. zcmp. by destruct err.
Qed.

Lemma seal_limit phys total :
  1 <= phys <= chunkSize -> 0 <= total ->
  1 <= Z.min phys (chunkSize - Z.rem total chunkSize) <= phys.
Proof.
  unfold chunkSize. intros. pose proof (Z.rem_bound_pos total 50000 ltac:(lia) ltac:(lia)). lia.
Qed.

Lemma seal_loop_end phys acc c err total fuel :
  1 <= phys -> (0 < fuel)%nat ->
  seal_loop fuel phys acc (mkScanner (mkReader [] EOF) c err) total =
    ([], Ok (acc, mkScanner (mkReader [] EOF) c err, total)).
Proof.
  intros Hp Hf. destruct fuel as [| fuel]; [lia |]. cbn [seal_loop].
  destruct (NextBatch_end c err phys (Z.min phys (chunkSize - Z.rem total chunkSize)))
    as [-> | ?]; [| lia].
  by rewrite lift_bind.
Qed.

Lemma batches_cons fuel phys total e es :
  let limit := Z.to_nat (Z.min phys (chunkSize - Z.rem total chunkSize)) in
  batches (S fuel) phys total (e :: es) =
    take limit (e :: es) ::
    batches fuel phys (total + len (take limit (e :: es))) (drop limit (e :: es)).
Proof. done. Qed.

(** One batch of a file of framed records: the next row group, then either the
    rest of the file or its end. *)
Lemma NextBatch_group es e torn c phys limit :
  1 <= limit <= phys -> Forall loggable es ->
  torn `prefix_of` framed cb e -> torn <> framed cb e ->
  let es1 := take (Z.to_nat limit) es in let es2 := drop (Z.to_nat limit) es in
  exists c' rest err, NextBatch
      (mkScanner (mkReader ((es ≫= framed cb) ++ torn) EOF) c None) [] phys limit =
    Ok (mkScanner (mkReader rest EOF) c' err, stored cb <$> es1) /\
    ((rest = (es2 ≫= framed cb) ++ torn /\ err = None) \/
     (es2 = [] /\ rest = [] /\ (err = None <-> torn = []))).
Proof.
  intros Hlim Hok Hp Hne es1 es2. destruct (loggable_split es Hok) as [Hok1 Hok2].
  assert (es = es1 ++ es2) as Ees by (symmetry; apply take_drop).
  unfold NextBatch. destruct (Z.lt_ge_cases (len es) limit) as [Hlt | Hge].
  - assert (es2 = []) as E2 by (apply drop_ge; unfold len in Hlt; lia).
    assert (es1 = es) as E1 by (rewrite Ees, E2, app_nil_r; done).
    destruct (next_batch_loop_last cb es e torn c [] phys limit (Z.to_nat limit))
      as (err & E & Hiff); [done | done | done | done | rewrite (@len_nil Entry); lia | lia
      | unfold len in Hlt; lia |].
    rewrite E, E1. eexists _, _, err. split; [done |]. by right.
  - rewrite Ees, Forall_app in Hok1, Hok2. rewrite Ees, bind_app, <- app_assoc.
    assert (len es1 = limit) as El1.
    { subst es1. unfold len in *. rewrite length_take. lia. }
    rewrite next_batch_loop_full;
      [| tauto | tauto | rewrite (@len_nil Entry); lia | lia | unfold len in El1; lia].
    eexists _, _, None. split; [done |]. by left.
Qed.

(** The loop writes every row group of the file, whatever torn record ends it. *)
Lemma seal_loop_ok phys es e torn acc c total fuel bfuel :
  1 <= phys <= chunkSize -> 0 <= total -> Forall loggable es ->
  torn `prefix_of` framed cb e -> torn <> framed cb e ->
  (length es <= bfuel)%nat -> (length es < fuel)%nat ->
  let bs := batches bfuel phys total (stored cb <$> es) in
  Forall chunk_fits bs ->
  exists sc, seal_loop fuel phys acc
      (mkScanner (mkReader ((es ≫= framed cb) ++ torn) EOF) c None) total =
    (groups_ops (len (Chunks (acc_meta acc))) bs,
     Ok (foldl seal_group acc bs, sc, total + len es)) /\ (sc_err sc = None <-> torn = []).
Proof.
  intros Hphys Ht Hok Hp Hne. revert es acc c total bfuel Ht Hok.
  induction fuel as [| fuel IH]; intros es acc c total bfuel Ht Hok Hbf Hf bs Hfit; [lia |].
  pose proof (seal_limit phys total Hphys Ht) as Hlim.
  set (limit := Z.min phys (chunkSize - Z.rem total chunkSize)) in *.
  destruct (loggable_split es Hok) as [Hok1 Hok2].
  cbn [seal_loop]. fold limit.
  destruct es as [| e0 es0].
  - destruct (next_batch_loop_last cb [] e torn c [] phys limit (Z.to_nat limit))
      as (err & E & Hiff); [done | done | done | done | rewrite !(@len_nil Entry); lia | lia | cbn; lia |].
    unfold NextBatch. rewrite E, lift_bind. cbn [app fmap list_fmap].
    exists (mkScanner (mkReader [] EOF) (c + len ([] ≫= framed cb)) err). split; [| done].
    subst bs. rewrite bool_decide_eq_true_2 by done.
    replace (total + len []) with total by (rewrite (@len_nil Entry); lia).
    by destruct bfuel.
  - set (es := e0 :: es0) in *. destruct bfuel as [| bfuel]; [cbn in Hbf; lia |].
    assert (bs = take (Z.to_nat limit) (stored cb <$> es) ::
      batches bfuel phys (total + len (take (Z.to_nat limit) (stored cb <$> es)))
        (drop (Z.to_nat limit) (stored cb <$> es))) as Ebs by done.
    clearbody bs. rewrite <- fmap_take, <- fmap_drop in Ebs.
    set (es1 := take (Z.to_nat limit) es) in *. set (es2 := drop (Z.to_nat limit) es) in *.
    assert (es = es1 ++ es2) as Ees by (symmetry; apply take_drop).
    assert (es1 <> []) as Hne1.
    { subst es1 es. destruct (Z.to_nat limit) eqn:El; [lia | done]. }
    assert (Forall loggable es2) as Hok' by (rewrite Ees, Forall_app in Hok; tauto).
    assert (len es1 <= limit) as Hl1.
    { subst es1. unfold len. rewrite length_take. lia. }
    rewrite Ebs in Hfit. inversion Hfit as [| ? ? Hfit1 Hfit2]; subst bs.
    destruct (NextBatch_group es e torn c phys limit Hlim Hok Hp Hne)
      as (c' & rest & err & E & Hcase). fold es1 es2 in E, Hcase.
    rewrite E, lift_bind. rewrite bool_decide_eq_false_2 by (by intros ?%fmap_nil_inv).
    rewrite writeChunk_ok by done. rewrite traced_bind_ok.
    assert (len (Chunks (acc_meta (acc_add acc (stored cb <$> es1)))) =
      len (Chunks (acc_meta acc))) as Ech by (by rewrite acc_add_chunks).
    assert (len es = len es1 + len es2) as Elen by (by rewrite Ees, len_app).
    assert (length es2 < length es)%nat as Hlt.
    { rewrite Ees, length_app. destruct es1; [done | cbn; lia]. }
    rewrite len_fmap in *. cbn [foldl groups_ops].
    change (with_meta (acc_add acc (stored cb <$> es1)) _)
      with (seal_group acc (stored cb <$> es1)).
    rewrite Ech.
    assert (len (Chunks (acc_meta (seal_group acc (stored cb <$> es1)))) =
      len (Chunks (acc_meta acc)) + 1) as Ech'.
    { rewrite seal_group_chunks. len_lia. }
    destruct Hcase as [(-> & ->) | (E2 & -> & Hiff)].
    + destruct (IH es2 (seal_group acc (stored cb <$> es1)) c' (total + len es1) bfuel)
        as (sc & E' & Hiff); [len_pose; lia | done | cbn in *; lia | lia | done |].
      rewrite E', Ech'. cbn [fst snd]. exists sc. split; [| done]. do 3 f_equal. lia.
    + rewrite seal_loop_end by lia. cbn [fst snd]. rewrite E2. cbn [fmap list_fmap].
      exists (mkScanner (mkReader [] EOF) c' err). split; [| exact Hiff]. replace (total + len es) with (total + len es1)
        by (rewrite Elen, E2, (@len_nil Entry); lia).
      by destruct bfuel.
Qed.

End SealLemmas.

(** ** What the row groups are *)

(** [total] rows precede the first group. *)
Fixpoint cut_ok (phys total : Z) (bs : list (list Entry)) : Prop :=
  match bs with
  | [] => True
  | b :: bs =>
      b <> [] /\ len b <= phys /\ Z.rem total chunkSize + len b <= chunkSize /\
      cut_ok phys (total + len b) bs
  end.

Lemma batches_ok phys total es fuel :
  1 <= phys <= chunkSize -> 0 <= total -> (length es <= fuel)%nat ->
  concat (batches fuel phys total es) = es /\ cut_ok phys total (batches fuel phys total es).
Proof.
  intros Hp. revert total es. induction fuel as [| fuel IH]; intros total es Ht Hf.
  - destruct es; [done | cbn in Hf; lia].
  - destruct es as [| e es]; [done |]. rewrite batches_cons.
    pose proof (seal_limit phys total Hp Ht) as Hlim.
    set (limit := Z.min phys (chunkSize - Z.rem total chunkSize)) in *.
    set (b := take (Z.to_nat limit) (e :: es)).
    assert (b <> [] /\ len b <= limit) as [Hne Hb].
    { subst b. destruct (Z.to_nat limit) as [| n] eqn:El; [lia |]. split; [done |].
      unfold len. rewrite length_take. lia. }
    destruct (IH (total + len b) (drop (Z.to_nat limit) (e :: es))) as [Hc Hcut];
      [len_pose; lia | rewrite length_drop; cbn in *; lia |].
    cbn [concat cut_ok]. rewrite Hc. split; [apply take_drop |].
    split; [done |]. split; [lia |]. split; [| done]. subst limit. lia.
Qed.

Lemma row_groups_concat phys es :
  1 <= phys <= chunkSize -> concat (row_groups phys es) = es.
Proof. intros. by apply batches_ok. Qed.

Lemma row_groups_cut phys es :
  1 <= phys <= chunkSize -> cut_ok phys 0 (row_groups phys es).
Proof. intros. by apply batches_ok. Qed.

Lemma effective_range s : 1 <= effectiveSealChunkEntries s <= chunkSize.
Proof. unfold effectiveSealChunkEntries, chunkSize. zbool; lia. Qed.

Fixpoint group_metas (ci : Z) (bs : list (list Entry)) : list ChunkMeta :=
  match bs with
  | [] => []
  | b :: bs => group_meta ci b :: group_metas (ci + 1) bs
  end.

Lemma fold_groups_chunks bs acc :
  Chunks (acc_meta (foldl seal_group acc bs)) =
    Chunks (acc_meta acc) ++ group_metas (len (Chunks (acc_meta acc))) bs.
Proof.
  revert acc. induction bs as [| b bs IH]; intros acc; cbn [foldl group_metas].
  - by rewrite app_nil_r.
  - rewrite IH, seal_group_chunks, <- app_assoc. by rewrite len_app, len_cons, len_nil, Z.add_0_r.
Qed.

Lemma finish_chunks acc : Chunks (finish acc) = Chunks (acc_meta acc).
Proof. unfold finish. by destruct (acc_first acc). Qed.

(** The metadata of a segment sealed from the stored entries [es]. *)
Definition segment_meta (s h : Z) (es : list Entry) : SegmentMeta :=
  finish (foldl seal_group (newMetaAccumulator s (SegmentDirName h))
    (row_groups (effectiveSealChunkEntries s) es)).

Lemma segment_meta_chunks s h es :
  Chunks (segment_meta s h es) = group_metas 0 (row_groups (effectiveSealChunkEntries s) es).
Proof. unfold segment_meta. by rewrite finish_chunks, fold_groups_chunks. Qed.

(** The file operations of an uninterrupted seal. *)
Definition seal_trace `{Zstd} `{Unicode} `{MetaJSON} (s h : Z) (walName : bytes) (es : list Entry)
  : list fs_op :=
  groups_ops 0 (row_groups (effectiveSealChunkEntries s) es) ++
  [WriteFile meta_name (MarshalMeta (segment_meta s h es));
   WriteFile marker_name (str "ok"); RemoveFile walName].

Lemma total_pos (es : list Entry) : es <> [] -> (0 + len es =? 0) = false.
Proof. destruct es; [done |]. intros _. rewrite len_cons. len_pose. apply Z.eqb_neq. lia. Qed.

Section SealWhole.
Context {C : Zstd} {L : ZstdLaws C} {U : Unicode} {J : MetaJSON}.
Context (cb : bool).

(** Every row group fits the chunk format. *)
Definition segment_fits (s : Z) (es : list Entry) : Prop :=
  Forall chunk_fits (row_groups (effectiveSealChunkEntries s) es).

Lemma wal_fuel (es : list Entry) torn :
  (length es < S (length ((es ≫= framed cb) ++ torn)))%nat.
Proof. rewrite length_app. pose proof (bind_framed_length cb es). lia. Qed.

Lemma Seal_ok s h d walName es e torn :
  IsSealComplete d = false -> d !! walName = Some ((es ≫= framed cb) ++ torn) ->
  es <> [] -> Forall (loggable cb) es -> torn `prefix_of` framed cb e -> torn <> framed cb e ->
  segment_fits s (stored cb <$> es) ->
  Seal s d walName h =
    (seal_trace s h walName (stored cb <$> es), Ok (Some (segment_meta s h (stored cb <$> es)))).
Proof.
  intros Hd Hw Hne Hok Hp Hpne Hfit. unfold Seal. rewrite Hd, Hw.
  destruct (seal_loop_ok cb (effectiveSealChunkEntries s) es e torn
    (newMetaAccumulator s (SegmentDirName h)) 0 0 (S (length ((es ≫= framed cb) ++ torn)))
    (length (stored cb <$> es))) as (sc & E & _);
    [apply effective_range | lia | done | done | done | by rewrite length_fmap | apply wal_fuel
    | done |].
  unfold NewScanner. rewrite E, traced_bind_ok.
  rewrite (total_pos es Hne).
  rewrite !emit_bind. reflexivity.
Qed.

(** A WAL without a whole record is removed when it is empty and quarantined when
    it holds a torn one. *)
Lemma Seal_empty s h d walName e torn :
  IsSealComplete d = false -> d !! walName = Some torn ->
  torn `prefix_of` framed cb e -> torn <> framed cb e ->
  Seal s d walName h =
    ([if decide (torn = []) then RemoveFile walName
      else RenameFile walName (walName ++ str ".corrupt")], Ok None).
Proof.
  intros Hd Hw Hp Hpne. unfold Seal. rewrite Hd, Hw.
  destruct (seal_loop_ok cb (effectiveSealChunkEntries s) [] e torn
    (newMetaAccumulator s (SegmentDirName h)) 0 0 (S (length torn)) 0) as (sc & E & Hiff);
    [apply effective_range | lia | done | done | done | done | cbn; lia | constructor |].
  unfold NewScanner. cbn [mbind list_bind app] in E. rewrite E, traced_bind_ok.
  change (0 + len (@nil Entry) =? 0) with true.
  clear E. destruct (sc_err sc) as [g |].
  - rewrite decide_False; [by rewrite emit_bind |]. intros Ht. by apply Hiff in Ht.
  - rewrite decide_True; [by rewrite emit_bind |]. by apply Hiff.
Qed.

End SealWhole.

(** ** Locating an entry by its ID *)

(** [locatePhysicalChunk] (engine/store.go): the chunk index and row. *)
Definition locate_in (chunks : list ChunkMeta) (id : Z) : option (Z * Z) :=
  cm ← list_find (fun cm => (cm_IDRange cm).1 <= id <= (cm_IDRange cm).2) chunks;
  Some (Index cm.2, int64 (id - (cm_IDRange cm.2).1)).

Definition locatePhysicalChunk (meta : option SegmentMeta) (id : Z) : option (Z * Z) :=
  match meta with
  | None => None
  | Some meta => locate_in (Chunks meta) id
  end.

(** The entries carry the IDs of the positions from [start] on in segment [h], as
    [Append] assigns them. *)
Definition ids_from (h start : Z) (es : list Entry) : Prop :=
  forall i e, es !! i = Some e -> ID e = IDForPosition h (start + Z.of_nat i).

Lemma ids_from_app h start es1 es2 :
  ids_from h start (es1 ++ es2) <->
    ids_from h start es1 /\ ids_from h (start + len es1) es2.
Proof.
  unfold ids_from. split.
  - intros H. split; intros i e Hi.
    + apply H. by apply lookup_app_l_Some.
    + rewrite (H (length es1 + i)%nat e); [unfold len; f_equal; lia |].
      rewrite lookup_app_r by lia. by replace (length es1 + i - length es1)%nat with i by lia.
  - intros [H1 H2] i e [Hi | [Hlen Hi]]%lookup_app_Some; [by apply H1 |].
    rewrite (H2 _ _ Hi). unfold len. f_equal. lia.
Qed.

(** The range of a group of consecutive rows. *)
Lemma group_ids h start b :
  0 <= h < 2 ^ 32 -> 0 <= start -> start + len b <= MaxEntriesPerSegment ->
  Z.rem start chunkSize + len b <= chunkSize -> ids_from h start b -> b <> [] ->
  cm_IDRange (group_meta 0 b) = (IDForPosition h start, IDForPosition h (start + len b - 1)) /\
  IDForPosition h (start + len b - 1) = IDForPosition h start + (len b - 1).
Proof.
  intros Hh Hs Hm Hr Hids Hne. destruct (group_ends b Hne) as (x & y & Ex & Ey).
  assert (1 <= len b) as Hlen by (destruct b; [done | rewrite len_cons; len_pose; lia]).
  cbn [cm_IDRange group_meta]. rewrite Ex, Ey. cbn [from_option id]. split.
  - rewrite last_lookup in Ey. rewrite head_lookup in Ex.
    rewrite (Hids _ _ Ex), (Hids _ _ Ey). unfold len in *. do 2 f_equal; lia.
  - replace (start + len b - 1) with (start + (len b - 1)) by lia.
    apply IDForPosition_offset; lia.
Qed.

Lemma locate_groups h phys start ci bs i e :
  0 <= h < 2 ^ 32 -> 0 <= start -> start + len (concat bs) <= MaxEntriesPerSegment ->
  cut_ok phys start bs -> ids_from h start (concat bs) -> concat bs !! i = Some e ->
  exists k b j, bs !! k = Some b /\ b !! j = Some e /\
    locate_in (group_metas ci bs) (ID e) = Some (ci + Z.of_nat k, Z.of_nat j).
Proof.
  intros Hh. revert start ci i. induction bs as [| b bs IH]; intros start ci i Hs Hm Hcut Hids Hi;
    [done |].
  cbn [concat] in *. destruct Hcut as (Hne & Hphys & Hrem & Hcut).
  rewrite len_app in Hm. apply ids_from_app in Hids as [Hids1 Hids2]. len_pose.
  destruct (group_ids h start b) as [Hrange Hlast]; [done | done | lia | done | done | done |].
  assert (1 <= len b) as Hlen by (destruct b; [done | rewrite len_cons; len_pose; lia]).
  assert (cm_IDRange (group_meta ci b) =
    (IDForPosition h start, IDForPosition h (start + len b - 1))) as Hrange' by exact Hrange.
  unfold locate_in. cbn [group_metas list_find].
  apply lookup_app_Some in Hi as [Hi | [Hge Hi]].
  - assert (Z.of_nat i < len b) as Hib by (apply lookup_lt_Some in Hi; unfold len; lia).
    assert (ID e = IDForPosition h start + Z.of_nat i) as Eid.
    { rewrite (Hids1 _ _ Hi). apply IDForPosition_offset; lia. }
    exists 0%nat, b, i. rewrite decide_True by (rewrite Hrange'; cbn [fst snd]; lia).
    split; [done |]. split; [done |]. cbn [mbind option_bind fst snd]. rewrite Hrange'.
    cbn [fst Index group_meta]. rewrite int64_small; [do 2 f_equal; lia |].
    unfold is_int64. unfold MaxEntriesPerSegment, maxChunksPerSegment, chunkMask, chunkBits, chunkSize in Hm. lia.
  - assert (Z.of_nat (i - length b) < len (concat bs)) as Hib
      by (apply lookup_lt_Some in Hi; unfold len; lia).
    assert (IDForPosition h (start + len b - 1) < ID e) as Hlt.
    { rewrite (Hids2 _ _ Hi). apply IDForPosition_lt; lia. }
    destruct (IH (start + len b) (ci + 1) (i - length b)%nat) as (k & b' & j & Hk & Hj & Hloc);
      [lia | lia | done | done | done |].
    exists (S k), b', j. split; [done |]. split; [done |].
    rewrite decide_False by (rewrite Hrange'; cbn [fst snd]; lia).
    unfold locate_in in Hloc. destruct (list_find _ (group_metas (ci + 1) bs)) as [[n cm] |];
      [| done].
    cbn in Hloc |- *. rewrite Hloc. do 2 f_equal. lia.
Qed.

(** Every entry of a segment is found under its ID, in its row group. *)
Lemma locate_segment s h es i e :
  0 <= h < 2 ^ 32 -> len es <= MaxEntriesPerSegment -> ids_from h 0 es -> es !! i = Some e ->
  exists k b j, row_groups (effectiveSealChunkEntries s) es !! k = Some b /\ b !! j = Some e /\
    locatePhysicalChunk (Some (segment_meta s h es)) (ID e) = Some (Z.of_nat k, Z.of_nat j).
Proof.
  intros Hh Hm Hids Hi. pose proof (effective_range s) as Hp.
  pose proof (row_groups_concat _ es Hp) as Ec. pose proof (row_groups_cut _ es Hp) as Hcut.
  destruct (locate_groups h (effectiveSealChunkEntries s) 0 0
    (row_groups (effectiveSealChunkEntries s) es) i e) as (k & b & j & H1 & H2 & H3);
    rewrite ?Ec; try done.
  exists k, b, j. split; [done |]. split; [done |].
  cbn [locatePhysicalChunk]. by rewrite segment_meta_chunks, H3.
Qed.

(** ** File names *)

Lemma parse_zeros k s : parse_digits (replicate k 48 ++ s) 0 = parse_digits s 0.
Proof. induction k as [| k IH]; [done |]. cbn [replicate app parse_digits]. exact IH. Qed.

Lemma parse_Itoa n : 0 <= n < 2 ^ 63 -> parse_digits (Itoa n) 0 = Some n.
Proof.
  intros Hn. unfold Itoa. zcmp.
  destruct (parse_digits_digits 20 n []) as (d & ds & [(-> & _ & Hp) | H0]); [cbn; lia | | done].
  by rewrite app_nil_r.
Qed.

Lemma pad3_inj n m : 0 <= n < 2 ^ 63 -> 0 <= m < 2 ^ 63 -> pad3 n = pad3 m -> n = m.
Proof.
  intros Hn Hm E. assert (parse_digits (pad3 n) 0 = parse_digits (pad3 m) 0) as E' by (by rewrite E).
  unfold pad3 in E'. rewrite !parse_zeros, !parse_Itoa in E' by done. congruence.
Qed.

Lemma chunk_name_inj n m :
  0 <= n < 2 ^ 63 -> 0 <= m < 2 ^ 63 -> chunk_name n = chunk_name m -> n = m.
Proof.
  intros Hn Hm E. unfold chunk_name in E. apply app_inv_head, app_inv_tail in E.
  by apply pad3_inj.
Qed.

Lemma index_name_inj n m :
  0 <= n < 2 ^ 63 -> 0 <= m < 2 ^ 63 -> index_name n = index_name m -> n = m.
Proof.
  intros Hn Hm E. unfold index_name in E. apply app_inv_head, app_inv_tail in E.
  by apply pad3_inj.
Qed.

Lemma last_app_cons {A} (l k : list A) x : last (l ++ k ++ [x]) = Some x.
Proof. rewrite app_assoc. apply last_snoc. Qed.

Lemma chunk_index_name n m : chunk_name n <> index_name m.
Proof.
  intros E. assert (last (chunk_name n) = last (index_name m)) as E' by (by rewrite E).
  unfold chunk_name, index_name in E'.
  change (str ".col") with ([46; 99; 111] ++ [108]) in E'.
  change (str ".idx") with ([46; 105; 100] ++ [120]) in E'.
  rewrite !(app_assoc (pad3 _)), !last_app_cons in E'. done.
Qed.

Lemma glob_mid p m q : glob p q (p ++ m ++ q) = true.
Proof.
  unfold glob, HasPrefix, HasSuffix. rewrite take_app_length, bool_decide_eq_true_2 by done.
  rewrite app_assoc, (length_app (p ++ m)).
  replace (length (p ++ m) + length q - length q)%nat with (length (p ++ m)) by lia.
  rewrite drop_app_length. rewrite length_app.
  rewrite !bool_decide_eq_true_2; [done | lia | split; [lia | done]].
Qed.

Lemma glob_prefix p q s : glob p q s = true -> exists t, s = p ++ t.
Proof.
  unfold glob, HasPrefix. rewrite !andb_true_iff. intros [[Hp%bool_decide_eq_true _] _].
  exists (drop (length p) s). rewrite <- Hp at 1. by rewrite take_drop.
Qed.

Lemma glob_other_prefix p q a s s' b c :
  p = a :: b -> s = c :: s' -> a <> c -> glob p q s = false.
Proof.
  intros -> -> Hne. destruct (glob (a :: b) q (c :: s')) eqn:E; [| done].
  apply glob_prefix in E as [t [= -> _]]. done.
Qed.

(** ** The files a seal writes *)

Section SealFiles.
Context {C : Zstd} {L : ZstdLaws C} {U : Unicode} {J : MetaJSON}.

Lemma group_ops_other n ci b d :
  n <> chunk_name ci -> n <> index_name ci -> apply_ops d (group_ops ci b) !! n = d !! n.
Proof.
  intros H1 H2. unfold group_ops, apply_ops. cbn [foldl apply_op].
  by rewrite !lookup_insert_ne by done.
Qed.

Lemma groups_ops_other n ci bs d :
  (forall k, ci <= k < ci + len bs -> n <> chunk_name k /\ n <> index_name k) ->
  apply_ops d (groups_ops ci bs) !! n = d !! n.
Proof.
  revert ci d. induction bs as [| b bs IH]; intros ci d Hn; [done |]. cbn [groups_ops].
  rewrite len_cons in Hn. len_pose. destruct (Hn ci ltac:(lia)).
  rewrite apply_ops_app, IH by (intros; apply Hn; lia). by apply group_ops_other.
Qed.

Lemma groups_ops_file ci bs d k b :
  0 <= ci -> ci + len bs < 2 ^ 63 -> bs !! k = Some b ->
  apply_ops d (groups_ops ci bs) !! chunk_name (ci + Z.of_nat k) = Some (chunk_data b) /\
  apply_ops d (groups_ops ci bs) !! index_name (ci + Z.of_nat k) = Some (index_file b).
Proof.
  revert ci d k. induction bs as [| b0 bs IH]; intros ci d k Hci Hm Hk; [done |].
  cbn [groups_ops]. rewrite len_cons in Hm. len_pose. rewrite apply_ops_app.
  destruct k as [| k].
  - injection Hk as ->. rewrite Z.add_0_r.
    rewrite !groups_ops_other.
    + unfold group_ops, apply_ops. cbn [foldl apply_op].
      rewrite lookup_insert_ne by (intros Ei; symmetry in Ei; by apply chunk_index_name in Ei).
      by rewrite !lookup_insert_eq.
    + intros k' Hk'. split; [intros Ei; symmetry in Ei; by apply chunk_index_name in Ei |].
      intros Ei%index_name_inj; lia.
    + intros k' Hk'. split; [| apply chunk_index_name]. intros Ei%chunk_name_inj; lia.
  - replace (ci + Z.of_nat (S k)) with (ci + 1 + Z.of_nat k) by lia. apply IH; [lia | lia | done].
Qed.

End SealFiles.

(** ** Crashes *)

(** A crash leaves a prefix of the operations, the last write possibly cut short. *)
Inductive crash_of (ops : list fs_op) : list fs_op -> Prop :=
| crash_between pre rest : ops = pre ++ rest -> crash_of ops pre
| crash_torn pre n data rest part :
    ops = pre ++ WriteFile n data :: rest -> part `prefix_of` data ->
    crash_of ops (pre ++ [WriteFile n part]).

(** The names a seal writes before its marker. *)
Definition segment_name (n : bytes) : Prop :=
  glob (str "chunk_") (str ".col") n = true \/ glob (str "chunk_") (str ".idx") n = true \/
  n = meta_name.

Definition segment_write (op : fs_op) : Prop :=
  match op with WriteFile n _ => segment_name n | _ => False end.

Lemma segment_name_chunk ci : segment_name (chunk_name ci).
Proof. left. apply glob_mid. Qed.

Lemma segment_name_index ci : segment_name (index_name ci).
Proof. right. left. apply glob_mid. Qed.

Lemma segment_name_head n :
  segment_name n -> exists c t, n = c :: t /\ (c = 99 \/ c = 109).
Proof.
  intros [H | [H | ->]]; [apply glob_prefix in H as [t ->] .. |]; eexists _, _;
    (split; [reflexivity |]); [by left | by left | by right].
Qed.

Lemma marker_not_segment : ~ segment_name marker_name.
Proof.
  intros (c & t & E & Hc)%segment_name_head.
  assert (head marker_name = Some 46) as Eh by done. rewrite E in Eh. injection Eh as ->. lia.
Qed.

Lemma sealing_not_segment h : ~ segment_name (sealing_name h).
Proof.
  intros (c & t & E & Hc)%segment_name_head.
  assert (head (sealing_name h) = Some 115) as Eh by done. rewrite E in Eh. injection Eh as ->. lia.
Qed.

Lemma sealing_not_marker h : sealing_name h <> marker_name.
Proof.
  intros E. assert (head (sealing_name h) = Some 115) as Eh by done. rewrite E in Eh. done.
Qed.

Lemma groups_writes `{Zstd} `{Unicode} ci bs : Forall segment_write (groups_ops ci bs).
Proof.
  revert ci. induction bs as [| b bs IH]; intros ci; [constructor |].
  cbn [groups_ops]. apply Forall_app. split; [| done].
  unfold group_ops. constructor; [apply segment_name_chunk |].
  constructor; [apply segment_name_chunk |]. constructor; [apply segment_name_index | constructor].
Qed.

(** A crash either precedes the marker or leaves the segment as it should be. *)
Lemma crash_cases (T : list fs_op) data w ops :
  Forall segment_write T -> crash_of (T ++ [WriteFile marker_name data; RemoveFile w]) ops ->
  Forall segment_write ops \/
  exists x tail, ops = T ++ WriteFile marker_name x :: tail /\ (tail = [] \/ tail = [RemoveFile w]).
Proof.
  intros HT. inversion 1 as [pre rest E | pre n data' rest part E Hp]; subst.
  - apply app_eq_inv in E as [(k & -> & _) | (k & -> & E)].
    + left. by apply Forall_app in HT as [? _].
    + destruct k as [| k1 k]; [rewrite app_nil_r; by left |]. injection E as <- E.
      right. exists data, k. split; [done |].
      destruct k as [| k2 k]; [by left | right]. injection E as <- E.
      by destruct k.
  - apply app_eq_inv in E as [(k & -> & E) | (k & -> & E)].
    + apply Forall_app in HT as [H1 H2]. destruct k as [| k1 k].
      * injection E as -> _ _. right. exists part, []. rewrite app_nil_r. split; [done | by left].
      * injection E as <- E. left. apply Forall_app. split; [done |].
        constructor; [| constructor]. by inversion H2.
    + destruct k as [| k1 k]; [injection E as <- <- <- |].
      * right. exists part, []. rewrite app_nil_r. split; [done | by left].
      * injection E as <- E. destruct k as [| k2 k]; [done |]. injection E as <- E. by destruct k.
Qed.

Lemma segment_writes_keep ops d n :
  Forall segment_write ops -> ~ segment_name n -> apply_ops d ops !! n = d !! n.
Proof.
  intros H Hn. revert d. induction H as [| op ops Hop _ IH]; intros d; [done |].
  cbn [apply_ops foldl]. unfold apply_ops in IH. rewrite IH.
  destruct op; [| done | done]. cbn. apply lookup_insert_ne. intros ->. done.
Qed.

Lemma segment_writes_names ops d n :
  Forall segment_write ops -> is_Some (apply_ops d ops !! n) -> is_Some (d !! n) \/ segment_name n.
Proof.
  intros H. revert d. induction H as [| op ops Hop _ IH]; intros d; [by left |].
  cbn [apply_ops foldl]. intros Hs. unfold apply_ops in IH. apply IH in Hs as [Hs | Hs]; [| by right].
  destruct op as [m data | |]; [| done | done]. cbn in Hs.
  destruct (decide (m = n)) as [-> | Hne]; [by right |].
  rewrite lookup_insert_ne in Hs by done. by left.
Qed.

Lemma remove_all_lookup ns d n :
  apply_ops d (RemoveFile <$> ns) !! n = if decide (n ∈ ns) then None else d !! n.
Proof.
  revert d. induction ns as [| m ns IH]; intros d; [done |].
  cbn [fmap list_fmap apply_ops foldl apply_op]. unfold apply_ops in IH. unfold fmap in IH. rewrite IH.
  destruct (decide (n ∈ ns)); [rewrite decide_True by set_solver; done |].
  destruct (decide (m = n)) as [-> | Hne].
  - rewrite lookup_delete_eq, decide_True by set_solver. done.
  - rewrite lookup_delete_ne by done. by rewrite decide_False by set_solver.
Qed.

Lemma elem_of_glob_names d p q n :
  n ∈ glob_names d p q <-> glob p q n = true /\ is_Some (d !! n).
Proof.
  unfold glob_names. rewrite merge_sort_Permutation, list_elem_of_filter, list_elem_of_fmap.
  split.
  - intros [Hg ([k v] & -> & Hkv%elem_of_map_to_list)]. cbn in *. eauto.
  - intros [Hg [v Hv]]. split; [done |]. exists (n, v). split; [done |].
    by apply elem_of_map_to_list.
Qed.

Lemma NoDup_glob_names d p q : NoDup (glob_names d p q).
Proof.
  unfold glob_names. rewrite merge_sort_Permutation. apply list.NoDup_filter.
  apply NoDup_fst_map_to_list.
Qed.

Lemma singleton_list {A} (l : list A) x :
  NoDup l -> (forall y, y ∈ l <-> y = x) -> l = [x].
Proof.
  intros Hnd Hx. destruct l as [| a l]; [exfalso; eapply not_elem_of_nil, Hx; done |].
  apply list.NoDup_cons in Hnd as [Ha _].
  assert (a = x) as -> by (apply Hx; set_solver).
  destruct l as [| b l]; [done |]. exfalso. apply Ha.
  assert (b = x) as -> by (apply Hx; set_solver). set_solver.
Qed.

Lemma parse_SegmentDirName h :
  0 <= h -> h * 3600 < 2 ^ 37 -> parseSegmentHour (SegmentDirName h) = h.
Proof.
  intros H0 H1. unfold parseSegmentHour, SegmentDirName, Unix, TimeFromSegmentHour.
  rewrite Z.div_mul by lia. rewrite parse_hour_fmt by (unfold datable; lia).
  rewrite (Z.div_mul h 3600) by lia. unfold SegmentHourFromTime, Unix.
  rewrite Z.div_mul by lia. rewrite Z.quot_mul by lia. done.
Qed.

Lemma cut_ok_len phys t l : cut_ok phys t l -> len l <= len (concat l).
Proof.
  revert t. induction l as [| b l IH]; intros t; cbn [concat cut_ok]; [done |].
  intros (Hb & _ & _ & Hc). rewrite len_cons, len_app. specialize (IH _ Hc).
  destruct b; [done |]. rewrite len_cons. len_pose. lia.
Qed.

Lemma row_groups_len phys es : 1 <= phys <= chunkSize -> len (row_groups phys es) <= len es.
Proof.
  intros Hp. pose proof (cut_ok_len _ _ _ (row_groups_cut phys es Hp)) as Hl.
  by rewrite row_groups_concat in Hl.
Qed.

Section Crash.
Context {C : Zstd} {L : ZstdLaws C} {U : Unicode} {J : MetaJSON}.
Context (cb : bool) (s h currentHour : Z) (es : list Entry) (e : Entry) (torn : bytes).
Hypothesis Hh : 0 < h.
Hypothesis Hdate : h * 3600 < 2 ^ 37.
Hypothesis Hne : es <> [].
Hypothesis Hok : Forall (loggable cb) es.
Hypothesis Hp : torn `prefix_of` framed cb e.
Hypothesis Hpne : torn <> framed cb e.
Hypothesis Hfit : segment_fits s (stored cb <$> es).

(** A directory that holds nothing but the rotated WAL. *)
Definition rotated_dir : Dir := {[ sealing_name h := (es ≫= framed cb) ++ torn ]}.

Definition final_ops : list fs_op := seal_trace s h (sealing_name h) (stored cb <$> es).

Lemma rotated_seal : seal_ops s rotated_dir (sealing_name h) h = final_ops.
Proof.
  unfold seal_ops. rewrite (Seal_ok cb s h _ _ es e torn); try done.
  - unfold IsSealComplete, rotated_dir. rewrite lookup_singleton_ne; [done |].
    apply sealing_not_marker.
  - apply lookup_singleton_eq.
Qed.

(** What a crash before the marker leaves is cleaned up and sealed again. *)
Lemma recover_unsealed ops :
  Forall segment_write ops ->
  recoverDir s (apply_ops rotated_dir ops) (SegmentDirName h) currentHour =
    apply_ops rotated_dir final_ops.
Proof.
  intros Hw. set (d := apply_ops rotated_dir ops).
  assert (d !! sealing_name h = Some ((es ≫= framed cb) ++ torn)) as Hwal.
  { unfold d. rewrite segment_writes_keep by (done || apply sealing_not_segment).
    apply lookup_singleton_eq. }
  assert (forall n, is_Some (d !! n) -> n = sealing_name h \/ segment_name n) as Hnames.
  { intros n [Hr | Hs]%segment_writes_names; [left | by right | done].
    unfold rotated_dir in Hr. by apply lookup_singleton_is_Some in Hr as ->. }
  assert (d !! marker_name = None) as Hm.
  { destruct (d !! marker_name) eqn:E; [| done].
    destruct (Hnames marker_name) as [E' | E']; [by eexists | | by apply marker_not_segment in E'].
    symmetry in E'. by apply sealing_not_marker in E'. }
  assert (glob_names d (str "sealing_") (str ".wal") = [sealing_name h]) as Hglob.
  { apply singleton_list; [apply NoDup_glob_names |]. intros n. rewrite elem_of_glob_names. split.
    - intros [Hg Hs]. destruct (Hnames n Hs) as [-> | (c & t & -> & Hc)%segment_name_head]; [done |].
      apply glob_prefix in Hg as [u Hu].
      assert (head (c :: t) = Some 115) as Eh by (by rewrite Hu). injection Eh as ->. lia.
    - intros ->. split; [apply glob_mid | by rewrite Hwal]. }
  unfold recoverDir. rewrite parse_SegmentDirName by lia. zcmp.
  unfold IsSealComplete. rewrite Hm, Hglob. cbn [reseal].
  assert (apply_ops d (CleanIncompleteSeal d) = rotated_dir) as ->.
  { apply map_eq. intros n. unfold CleanIncompleteSeal.
    rewrite !apply_ops_app. change [RemoveFile meta_name; RemoveFile marker_name]
      with (RemoveFile <$> [meta_name; marker_name]).
    rewrite !remove_all_lookup. unfold rotated_dir.
    destruct (decide (n = sealing_name h)) as [-> | Hn].
    - rewrite lookup_singleton_eq. rewrite !decide_False; [done | ..].
      + intros [Hg _]%elem_of_glob_names. apply (sealing_not_segment h). by left.
      + intros [Hg _]%elem_of_glob_names. apply (sealing_not_segment h). right. by left.
      + intros [E | [E | []%not_elem_of_nil]%elem_of_cons]%elem_of_cons.
        * apply (sealing_not_segment h). rewrite E. right. by right.
        * by apply sealing_not_marker in E.
    - rewrite lookup_singleton_ne by done.
      destruct (d !! n) eqn:E; [| by repeat case_decide].
      destruct (Hnames n) as [-> | Hs]; [by eexists | done |].
      repeat (case_decide; [done |]). exfalso.
      destruct Hs as [Hs | [Hs | ->]]; rewrite ?elem_of_glob_names in *; set_solver. }
  rewrite rotated_seal. done.
Qed.

Lemma final_ops_eq :
  final_ops =
    (groups_ops 0 (row_groups (effectiveSealChunkEntries s) (stored cb <$> es)) ++
     [WriteFile meta_name (MarshalMeta (segment_meta s h (stored cb <$> es)))]) ++
    [WriteFile marker_name (str "ok"); RemoveFile (sealing_name h)].
Proof. unfold final_ops, seal_trace. by rewrite <- app_assoc. Qed.

Lemma crash_recovery_lemma ops :
  crash_of final_ops ops ->
  let d := recoverDir s (apply_ops rotated_dir ops) (SegmentDirName h) currentHour in
  IsSealComplete d = true /\
  forall n, n <> sealing_name h -> n <> marker_name ->
    d !! n = apply_ops rotated_dir final_ops !! n.
Proof.
  intros Hc. rewrite final_ops_eq in Hc. set (T := groups_ops 0 _ ++ _) in Hc.
  assert (Forall segment_write T) as HT.
  { apply Forall_app. split; [apply groups_writes |]. constructor; [| constructor]. right. by right. }
  assert (forall tail x, tail = [] \/ tail = [RemoveFile (sealing_name h)] ->
    IsSealComplete (apply_ops rotated_dir (T ++ WriteFile marker_name x :: tail)) = true) as Hcomplete.
  { intros tail x Ht. rewrite apply_ops_app. unfold IsSealComplete. apply bool_decide_eq_true.
    destruct Ht as [-> | ->]; cbn [apply_ops foldl apply_op].
    - rewrite lookup_insert_eq. by eexists.
    - rewrite lookup_delete_ne by apply sealing_not_marker. rewrite lookup_insert_eq. by eexists. }
  destruct (crash_cases T (str "ok") (sealing_name h) ops HT Hc) as [Hw | (x & tail & -> & Ht)].
  - intros d. subst d. rewrite recover_unsealed by done. split; [| done].
    rewrite final_ops_eq. fold T. apply Hcomplete. by right.
  - intros d. subst d. unfold recoverDir. rewrite Hcomplete by done. split; [by apply Hcomplete |].
    intros n H1 H2. rewrite final_ops_eq. fold T. rewrite !apply_ops_app.
    cbn [apply_ops foldl apply_op].
    destruct Ht as [-> | ->]; cbn [foldl apply_op];
      rewrite ?lookup_delete_ne by done; by rewrite !lookup_insert_ne by done.
Qed.

(** The files of the finished segment. *)
Lemma final_files k b :
  len es <= MaxEntriesPerSegment ->
  row_groups (effectiveSealChunkEntries s) (stored cb <$> es) !! k = Some b ->
  let d := apply_ops rotated_dir final_ops in
  d !! chunk_name (Z.of_nat k) = Some (chunk_data b) /\
  d !! index_name (Z.of_nat k) = Some (index_file b) /\
  d !! meta_name = Some (MarshalMeta (segment_meta s h (stored cb <$> es))) /\
  d !! marker_name = Some (str "ok") /\ d !! sealing_name h = None.
Proof.
  intros Hlen Hk d. set (bs := row_groups _ _) in *.
  assert (len bs < 2 ^ 63) as Hbs.
  { pose proof (row_groups_len (effectiveSealChunkEntries s) (stored cb <$> es)
      (effective_range s)) as Hl. fold bs in Hl. rewrite len_fmap in Hl.
    change MaxEntriesPerSegment with 12800000 in Hlen. lia. }
  destruct (groups_ops_file 0 bs rotated_dir k b) as [H1 H2]; [lia | lia | done |].
  rewrite Z.add_0_l in H1, H2. subst d. unfold final_ops, seal_trace. fold bs.
  rewrite apply_ops_app. cbn [apply_ops foldl apply_op].
  assert (forall n, segment_name n -> n <> meta_name -> forall d x y,
    delete (sealing_name h) (<[marker_name := y]> (<[meta_name := x]> d)) !! n = (d : Dir) !! n) as Hn.
  { intros n Hs Hnm d x y. rewrite lookup_delete_ne, !lookup_insert_ne; [done | done | ..].
    - intros <-. by apply marker_not_segment in Hs.
    - intros <-. by apply sealing_not_segment in Hs. }
  rewrite (Hn (chunk_name _)), (Hn (index_name _));
    [| apply segment_name_index | | apply segment_name_chunk |].
  - split; [done |]. split; [done |]. split_and!.
    + rewrite lookup_delete_ne, lookup_insert_ne, lookup_insert_eq; [done | done |].
      intros E. apply (sealing_not_segment h). rewrite E. right. by right.
    + rewrite lookup_delete_ne by apply sealing_not_marker. by rewrite lookup_insert_eq.
    + apply lookup_delete_eq.
  - intros E. assert (head (index_name (Z.of_nat k)) = Some 99) as Eh by done.
    by rewrite E in Eh.
  - intros E. assert (head (chunk_name (Z.of_nat k)) = Some 99) as Eh by done.
    by rewrite E in Eh.
Qed.

End Crash.

(** ** Metadata counts *)

(** The number of entries satisfying a predicate. *)
Definition count {A} (f : A -> bool) (l : list A) : Z := len (filter (fun x => f x = true) l).

Lemma count_nil {A} (f : A -> bool) : count f [] = 0.
Proof. done. Qed.

Lemma count_cons {A} (f : A -> bool) x l : count f (x :: l) = (if f x then 1 else 0) + count f l.
Proof.
  unfold count. rewrite filter_cons. destruct (f x) eqn:E.
  - rewrite decide_True by done. by rewrite len_cons.
  - rewrite decide_False by done. lia.
Qed.

Definition add_hist (m : gmap bytes HBucket) (e : Entry) : gmap bytes HBucket :=
  let key := minute_key (Z.quot (ReceivedAt e) 60000) in
  <[key := bump (default (mkBucket 0 0) (m !! key)) (isErrorLevel (Level e))]> m.

Definition minute_cached (s : add_state) : Prop :=
  lastMinute s = -1 \/ minuteKey s = minute_key (lastMinute s).

(** The minute cached by the loop is transparent. *)
Lemma add_entry_spec s e :
  minute_cached s -> 0 <= ReceivedAt e ->
  let s' := add_entry s e in
  minute_cached s' /\ st_counts s' = add_counts (st_counts s) e /\
  st_hist s' = add_hist (st_hist s) e /\ st_dicts s' = add_dicts (st_dicts s) e.
Proof.
  intros Hs He. unfold add_entry.
  assert (0 <= Z.quot (ReceivedAt e) 60000) as Hq by (apply Z.quot_pos; lia).
  destruct (Z.eqb_spec (Z.quot (ReceivedAt e) 60000) (lastMinute s)) as [E | E].
  - destruct Hs as [Hs | Hs]; [lia |]. unfold minute_cached, add_hist. cbn.
    rewrite E, Hs. split_and!; [by right | done ..].
  - unfold minute_cached, add_hist. cbn. split_and!; [by right | done ..].
Qed.

Lemma foldl_add_entry b s :
  minute_cached s -> Forall (fun e => 0 <= ReceivedAt e) b ->
  let s' := foldl add_entry s b in
  st_counts s' = foldl add_counts (st_counts s) b /\
  st_hist s' = foldl add_hist (st_hist s) b /\ st_dicts s' = foldl add_dicts (st_dicts s) b.
Proof.
  intros Hs Hb. revert s Hs. induction Hb as [| e b He Hb IH]; intros s Hs; [done |].
  cbn [foldl]. destruct (add_entry_spec s e Hs He) as (Hs' & <- & <- & <-). by apply IH.
Qed.

(** The running totals of an accumulator. *)
Definition acc_stats (a : metaAccumulator)
  : MetaCounts * gmap bytes HBucket * gmap bytes (gset bytes) * Z :=
  (Counts (acc_meta a), Histogram (acc_meta a), dictSets a, seen a).

Lemma seal_group_stats a b :
  Forall (fun e => 0 <= ReceivedAt e) b ->
  acc_stats (seal_group a b) =
    (foldl add_counts (Counts (acc_meta a)) b, foldl add_hist (Histogram (acc_meta a)) b,
     foldl add_dicts (dictSets a) b, seen a + len b).
Proof.
  intros Hb. destruct b as [| e b].
  - unfold acc_stats, seal_group. cbn. by rewrite Z.add_0_r.
  - unfold acc_stats, seal_group, acc_add.
    destruct (foldl_add_entry (e :: b)
      (mkAdd (Counts (acc_meta a)) (Histogram (acc_meta a)) (dictSets a) (-1) []))
      as (E1 & E2 & E3); [by left | done |]. cbn [st_counts st_hist st_dicts] in E1, E2, E3.
    cbn [acc_meta with_meta add_chunk with_stats Counts Histogram dictSets seen].
    by rewrite E1, E2, E3.
Qed.

Lemma fold_groups_stats bs a :
  Forall (fun e => 0 <= ReceivedAt e) (concat bs) ->
  acc_stats (foldl seal_group a bs) =
    (foldl add_counts (Counts (acc_meta a)) (concat bs),
     foldl add_hist (Histogram (acc_meta a)) (concat bs),
     foldl add_dicts (dictSets a) (concat bs), seen a + len (concat bs)).
Proof.
  revert a. induction bs as [| b bs IH]; intros a Hb; cbn [foldl concat] in *.
  - unfold acc_stats. cbn [foldl]. by rewrite (@len_nil Entry), Z.add_0_r.
  - apply Forall_app in Hb as [Hb1 Hb2]. rewrite IH by done.
    change (Counts (acc_meta (seal_group a b))) with (acc_stats (seal_group a b)).1.1.1.
    change (Histogram (acc_meta (seal_group a b))) with (acc_stats (seal_group a b)).1.1.2.
    change (dictSets (seal_group a b)) with (acc_stats (seal_group a b)).1.2.
    change (seen (seal_group a b)) with (acc_stats (seal_group a b)).2.
    rewrite seal_group_stats by done. cbn [fst snd].
    rewrite !foldl_app, len_app. f_equal. lia.
Qed.

Lemma default_incr m k k' :
  default 0 (incr m k !! k') = default 0 (m !! k') + (if decide (k = k') then 1 else 0).
Proof.
  unfold incr. case_decide as E.
  - subst. by rewrite lookup_insert_eq.
  - rewrite lookup_insert_ne by done. lia.
Qed.

Lemma counts_by_level es c l :
  default 0 (ByLevel (foldl add_counts c es) !! l) =
    default 0 (ByLevel c !! l) + count (fun e => bool_decide (Level e = l)) es.
Proof.
  revert c. induction es as [| e es IH]; intros c; cbn [foldl]; [rewrite count_nil; lia |].
  rewrite IH, count_cons. cbn [add_counts ByLevel]. rewrite default_incr.
  case_decide; [rewrite bool_decide_eq_true_2 by done | rewrite bool_decide_eq_false_2 by done]; lia.
Qed.

Lemma counts_by_service es c l :
  l <> [] ->
  default 0 (ByService (foldl add_counts c es) !! l) =
    default 0 (ByService c !! l) + count (fun e => bool_decide (Service e = l)) es.
Proof.
  intros Hl. revert c. induction es as [| e es IH]; intros c; cbn [foldl]; [rewrite count_nil; lia |].
  rewrite IH, count_cons. cbn [add_counts ByService]. rewrite bool_decide_decide.
  destruct (decide (Service e = [])) as [E | E].
  - rewrite E, (bool_decide_eq_false_2 ([] = l)) by done. lia.
  - rewrite default_incr. case_decide;
      [rewrite bool_decide_eq_true_2 by done | rewrite bool_decide_eq_false_2 by done]; lia.
Qed.

Lemma counts_by_service_error es c l :
  l <> [] ->
  default 0 (ByServiceError (foldl add_counts c es) !! l) =
    default 0 (ByServiceError c !! l) +
    count (fun e => bool_decide (Service e = l) && isErrorLevel (Level e)) es.
Proof.
  intros Hl. revert c. induction es as [| e es IH]; intros c; cbn [foldl]; [rewrite count_nil; lia |].
  rewrite IH, count_cons. cbn [add_counts ByServiceError]. rewrite bool_decide_decide.
  destruct (decide (Service e = [])) as [E | E].
  - rewrite E, (bool_decide_eq_false_2 ([] = l)) by done. cbn [andb]. lia.
  - destruct (isErrorLevel (Level e)); rewrite ?andb_true_r, ?andb_false_r; [| lia].
    rewrite default_incr. case_decide;
      [rewrite bool_decide_eq_true_2 by done | rewrite bool_decide_eq_false_2 by done]; lia.
Qed.

Definition in_minute (key : bytes) (e : Entry) : bool :=
  bool_decide (minute_key (Z.quot (ReceivedAt e) 60000) = key).

Lemma histogram_counts es m key :
  default (mkBucket 0 0) (foldl add_hist m es !! key) =
    let b := default (mkBucket 0 0) (m !! key) in
    mkBucket (Total b + count (in_minute key) es)
      (Errors b + count (fun e => in_minute key e && isErrorLevel (Level e)) es).
Proof.
  revert m. induction es as [| e es IH]; intros m; cbn [foldl].
  - rewrite !count_nil, !Z.add_0_r. cbn. by destruct (default _ _).
  - rewrite IH, !count_cons. unfold add_hist. cbv zeta.
    destruct (decide (minute_key (Z.quot (ReceivedAt e) 60000) = key)) as [E | E].
    + assert (in_minute key e = true) as -> by (by apply bool_decide_eq_true_2).
      rewrite E, lookup_insert_eq. cbn [from_option id bump andb].
      destruct (isErrorLevel (Level e)); cbn; f_equal; lia.
    + assert (in_minute key e = false) as -> by (by apply bool_decide_eq_false_2).
      rewrite lookup_insert_ne by done. cbn [andb]. f_equal; lia.
Qed.

(** [x] is the value of the entry in the dictionary [k]. *)
Definition dict_value (k : bytes) (e : Entry) (x : bytes) : Prop :=
  (k = str "level" /\ x = Level e) \/
  (x <> [] /\ ((k = str "service" /\ x = Service e) \/ (k = str "env" /\ x = Env e) \/
               (k = str "event_type" /\ x = EventType e))).

Lemma note_lookup sets name v k x :
  x ∈ default ∅ (note sets name v !! k) <->
    x ∈ default ∅ (sets !! k) \/ (k = str name /\ x = v).
Proof.
  unfold note. destruct (decide (str name = k)) as [<- | Hne].
  - rewrite lookup_insert_eq. cbn [from_option id]. set_solver.
  - rewrite lookup_insert_ne by done. naive_solver.
Qed.

Lemma note_nonempty_lookup sets name v k x :
  x ∈ default ∅ (note_nonempty name v sets !! k) <->
    x ∈ default ∅ (sets !! k) \/ (k = str name /\ x = v /\ x <> []).
Proof.
  unfold note_nonempty. case_bool_decide as E; [| rewrite note_lookup]; naive_solver.
Qed.

Lemma add_dicts_lookup es m k x :
  x ∈ default ∅ (foldl add_dicts m es !! k) <->
    x ∈ default ∅ (m !! k) \/ exists e, e ∈ es /\ dict_value k e x.
Proof.
  revert m. induction es as [| e es IH]; intros m; cbn [foldl].
  - split; [by left |]. intros [? | (? & []%not_elem_of_nil & _)]. done.
  - rewrite IH. unfold add_dicts. cbv zeta. rewrite !note_nonempty_lookup, note_lookup.
    unfold dict_value. setoid_rewrite elem_of_cons. naive_solver.
Qed.

(** What the metadata of a segment says about its entries. *)
Lemma segment_meta_stats s h es :
  Forall (fun e => 0 <= ReceivedAt e) es ->
  let m := segment_meta s h es in
  Counts m = foldl add_counts (mkCounts ∅ ∅ ∅) es /\ Histogram m = foldl add_hist ∅ es /\
  Dicts m = elements <$>
    foldl add_dicts (dictSets (newMetaAccumulator s (SegmentDirName h))) es /\
  sm_EntryCount m = len es.
Proof.
  intros Hr. set (bs := row_groups (effectiveSealChunkEntries s) es).
  assert (concat bs = es) as Hc by apply row_groups_concat, effective_range.
  pose proof (fold_groups_stats bs (newMetaAccumulator s (SegmentDirName h))) as E.
  rewrite Hc in E. specialize (E Hr). unfold acc_stats in E. cbv zeta.
  assert (forall a, Counts (finish a) = Counts (acc_meta a) /\
    Histogram (finish a) = Histogram (acc_meta a) /\
    Dicts (finish a) = elements <$> dictSets a /\ sm_EntryCount (finish a) = seen a) as Hf.
  { intros a. unfold finish. by destruct (acc_first a). }
  unfold segment_meta. fold bs.
  destruct (Hf (foldl seal_group (newMetaAccumulator s (SegmentDirName h)) bs))
    as (-> & -> & -> & ->).
  apply pair_equal_spec in E as [E E4]. apply pair_equal_spec in E as [E E3].
  apply pair_equal_spec in E as [E1 E2]. rewrite E1, E2, E3, E4. done.
Qed.

Lemma new_dicts_empty s name k :
  default ∅ (dictSets (newMetaAccumulator s name) !! k) = ∅.
Proof.
  cbn [newMetaAccumulator dictSets].
  repeat match goal with
  | |- context [<[?a := _]> _ !! k] =>
      destruct (decide (a = k)); [subst; by rewrite lookup_insert_eq |];
      rewrite lookup_insert_ne by done
  end. by rewrite lookup_empty.
Qed.

(** The dictionaries list the values of the sealed entries. *)
Lemma segment_meta_dicts s h es k x :
  Forall (fun e => 0 <= ReceivedAt e) es ->
  x ∈ default [] (Dicts (segment_meta s h es) !! k) <-> exists e, e ∈ es /\ dict_value k e x.
Proof.
  intros Hr. destruct (segment_meta_stats s h es Hr) as (_ & _ & Ed & _). rewrite Ed, lookup_fmap.
  transitivity (x ∈ default ∅
    (foldl add_dicts (dictSets (newMetaAccumulator s (SegmentDirName h))) es !! k)).
  - destruct (foldl add_dicts _ es !! k); cbn; [apply elem_of_elements |].
    split; [by intros ?%not_elem_of_nil | set_solver].
  - rewrite add_dicts_lookup, new_dicts_empty. set_solver.
Qed.

(** ** Properties *)

(** The metadata written with a segment is exact: the counts by level, by
    service and by service among error rows, the per-minute histogram and the
    column dictionaries agree with the sealed entries, however they were split
    into row groups. *)
Theorem segment_meta_exact (s h : Z) (es : list Entry) :
  Forall (fun e => 0 <= ReceivedAt e) es ->
  let m := segment_meta s h es in
  sm_EntryCount m = len es /\
  (forall l, default 0 (ByLevel (Counts m) !! l) = count (fun e => bool_decide (Level e = l)) es) /\
  (forall v, v <> [] ->
    default 0 (ByService (Counts m) !! v) = count (fun e => bool_decide (Service e = v)) es /\
    default 0 (ByServiceError (Counts m) !! v) =
      count (fun e => bool_decide (Service e = v) && isErrorLevel (Level e)) es) /\
  (forall k, default (mkBucket 0 0) (Histogram m !! k) =
    mkBucket (count (in_minute k) es)
      (count (fun e => in_minute k e && isErrorLevel (Level e)) es)) /\
  (forall k x, x ∈ default [] (Dicts m !! k) <-> exists e, e ∈ es /\ dict_value k e x).
Proof.
  intros Hr m. destruct (segment_meta_stats s h es Hr) as (Ec & Eh & Ed & En).
  fold m in Ec, Eh, Ed, En. split; [done |]. rewrite Ec, Eh, Ed. split; [| split; [| split]].
  - intros l. apply counts_by_level.
  - intros v Hv. split; [by apply counts_by_service | by apply counts_by_service_error].
  - intros k. by rewrite histogram_counts.
  - intros k x. rewrite <- Ed. by apply segment_meta_dicts.
Qed.

Section SealProperties.
Context {C : Zstd} {L : ZstdLaws C} {U : Unicode} {J : MetaJSON}.
Context (cb : bool) (s h currentHour : Z) (es : list Entry) (e : Entry) (torn : bytes).

(** The directory is the complete segment of the entries. *)
Definition segment_of (s h : Z) (sealed : list Entry) (d : Dir) : Prop :=
  IsSealComplete d = true /\
  d !! meta_name = Some (MarshalMeta (segment_meta s h sealed)) /\
  concat (row_groups (effectiveSealChunkEntries s) sealed) = sealed /\
  forall k b, row_groups (effectiveSealChunkEntries s) sealed !! k = Some b ->
    d !! chunk_name (Z.of_nat k) = Some (chunk_data b) /\
    d !! index_name (Z.of_nat k) = Some (index_file b).

Lemma segment_after_crash (ops : list fs_op) :
  0 < h -> h * 3600 < 2 ^ 37 -> es <> [] -> len es <= MaxEntriesPerSegment ->
  Forall (loggable cb) es -> torn `prefix_of` framed cb e -> torn <> framed cb e ->
  segment_fits s (stored cb <$> es) ->
  crash_of (seal_ops s (rotated_dir cb h es torn) (sealing_name h) h) ops ->
  segment_of s h (stored cb <$> es)
    (recoverDir s (apply_ops (rotated_dir cb h es torn) ops) (SegmentDirName h) currentHour).
Proof.
  intros Hh Hd Hne Hlen Hok Hp Hpne Hfit Hc. rewrite (rotated_seal cb s h es e torn) in Hc by done.
  destruct (crash_recovery_lemma cb s h currentHour es e torn Hh Hd Hne Hok Hp Hpne Hfit ops Hc)
    as [Hdone Hfiles].
  split; [done |].
  rewrite row_groups_concat by apply effective_range.
  assert (forall n c t, n = c :: t -> c = 99 \/ c = 109 -> n <> sealing_name h /\ n <> marker_name)
    as Hn.
  { intros n c t -> Hct. split; intros E.
    - assert (head (c :: t) = Some 115) as Eh by (by rewrite E). injection Eh as ->. lia.
    - assert (head (c :: t) = Some 46) as Eh by (by rewrite E). injection Eh as ->. lia. }
  assert (exists b, row_groups (effectiveSealChunkEntries s) (stored cb <$> es) !! 0%nat = Some b)
    as [b0 Hb0].
  { destruct es; [done |]. eexists. reflexivity. }
  split; [| split; [done |]].
  - destruct (Hn meta_name _ _ eq_refl (or_intror eq_refl)). rewrite Hfiles by done.
    by apply (final_files cb s h es torn 0 b0).
  - intros k b Hk. destruct (Hn (chunk_name (Z.of_nat k)) _ _ eq_refl (or_introl eq_refl)).
    destruct (Hn (index_name (Z.of_nat k)) _ _ eq_refl (or_introl eq_refl)).
    rewrite !Hfiles by done. split; by apply (final_files cb s h es torn k b).
Qed.

(** C6: Sealing is crash-safe: after a crash between any two file operations of a
    seal, or in the middle of a write, recovery at the next start leaves a complete
    segment whose chunk, index and metadata files are those of an uninterrupted
    seal of every whole record of the log. *)
Theorem seal_crash_safe (ops : list fs_op) :
  0 < h -> h * 3600 < 2 ^ 37 -> es <> [] -> len es <= MaxEntriesPerSegment ->
  Forall (loggable cb) es -> torn `prefix_of` framed cb e -> torn <> framed cb e ->
  segment_fits s (stored cb <$> es) ->
  crash_of (seal_ops s (rotated_dir cb h es torn) (sealing_name h) h) ops ->
  let d := recoverDir s (apply_ops (rotated_dir cb h es torn) ops) (SegmentDirName h) currentHour in
  let sealed := stored cb <$> es in
  IsSealComplete d = true /\
  d !! meta_name = Some (MarshalMeta (segment_meta s h sealed)) /\
  concat (row_groups (effectiveSealChunkEntries s) sealed) = sealed /\
  forall k b, row_groups (effectiveSealChunkEntries s) sealed !! k = Some b ->
    d !! chunk_name (Z.of_nat k) = Some (chunk_data b) /\
    d !! index_name (Z.of_nat k) = Some (index_file b).
Proof. apply segment_after_crash. Qed.

End SealProperties.

(** ** Witnesses *)

Definition sample_json : MetaJSON := {|
  MarshalMeta := fun m => Segment m; UnmarshalMeta := fun _ => None
|}.

Definition sample_log : list Entry :=
  [set ID (IDForPosition 493000 0) sample_entry;
   set Level (str "error") (set ReceivedAt 1774800000123 (set ID (IDForPosition 493000 1) sample_entry))].

Lemma sample_log_loggable cb : Forall (loggable cb) sample_log.
Proof.
  unfold sample_log, loggable. repeat constructor; intros; try done; vm_compute; congruence.
Qed.

Lemma sample_log_fit :
  segment_fits (C := stored_codec) 1 (stored (C := stored_codec) true <$> sample_log).
Proof.
  unfold segment_fits. unfold sample_log. cbn [row_groups].
  repeat (constructor; [
    split; [done |]; split; [done |]; unfold Schema;
    repeat (apply Forall_cons; split; [column_fits_tac |]); apply Forall_nil; exact I |]).
  constructor.
Qed.

Lemma seal_crash_safe_witness :
  let codec := stored_codec in
  let d := recoverDir (C := codec) (U := ascii_unicode) (J := sample_json) 1
    (apply_ops (rotated_dir (C := codec) true 493000 sample_log []) [WriteFile (chunk_name 0) [0; 0]])
    (SegmentDirName 493000) 493000 in
  IsSealComplete d = true.
Proof.
  apply (seal_crash_safe (C := stored_codec) (U := ascii_unicode) (J := sample_json) true 1 493000
    493000 sample_log sample_entry [] [WriteFile (chunk_name 0) [0; 0]]);
    [lia | lia | done | vm_compute; congruence | apply sample_log_loggable | apply prefix_nil
    | vm_compute; congruence | apply sample_log_fit |].
  rewrite (rotated_seal (C := stored_codec) true 1 493000 sample_log sample_entry []);
    [| done | apply sample_log_loggable | apply prefix_nil | vm_compute; congruence
    | apply sample_log_fit].
  eapply (crash_torn _ [] (chunk_name 0)); [reflexivity |].
  exists (make 0 (HeaderSize - 2)). reflexivity.
Defined.

Lemma segment_meta_exact_witness :
  default 0 (ByLevel (Counts (segment_meta 1 493000 sample_log)) !! str "error") = 1 /\
  sm_EntryCount (segment_meta 1 493000 sample_log) = 2.
Proof.
  destruct (segment_meta_exact 1 493000 sample_log) as (Hn & Hl & _);
    [repeat constructor; vm_compute; congruence |].
  split; [rewrite Hl; reflexivity | exact Hn].
Defined.
