(* ===== verification/Segments.v ===== *)
(** * The segment manager (engine/segment.go)

    The sealed segments known to the store, sorted by segment hour.  Main results:
    registration keeps the list strictly sorted and behaves as a finite map from
    hour to segment, an ID finds the segment of its hour, no entry whose event time
    is within an hour of its arrival is missed by a time-range query, and pruning
    only removes segments whose last entry is older than the cutoff. *)

From stdpp Require Import base list gmap strings numbers sorting.
From Stdlib Require Import ZArith Lia.
From S2P Require Import Prelude Framing Zstd Schema Wal Strconv Chunk Index Ids Times Seal.

Record LoadedSegment := mkSeg { Hour : Z; DirName : bytes; Meta : option SegmentMeta }.

(** [sort.Search] over the hours. *)
Definition hour_index (segments : list LoadedSegment) (hour : Z) : result Z :=
  sort_Search (len segments) (fun i => s ← index segments i; Ok (hour <=? Hour s)).

(** [idx < len(sm.segments) && sm.segments[idx].Hour == hour] *)
Definition segment_at (segments : list LoadedSegment) (idx hour : Z)
  : result (option LoadedSegment) :=
  if idx <? len segments then
    s ← index segments idx; Ok (if Hour s =? hour then Some s else None)
  else Ok None.

Definition Register (segments : list LoadedSegment) (hour : Z) (meta : option SegmentMeta)
  : result (list LoadedSegment) :=
  let seg := mkSeg hour (SegmentDirName hour) meta in
  idx ← hour_index segments hour;
  dup ← segment_at segments idx hour;
  match dup with
  | Some _ => store segments idx seg
  | None => Ok (take (Z.to_nat idx) segments ++ seg :: drop (Z.to_nat idx) segments)
  end.

Definition FindSegmentByID (segments : list LoadedSegment) (id : Z)
  : result (option LoadedSegment) :=
  let '(hour, _, _) := DecodeID id in
  idx ← hour_index segments hour;
  segment_at segments idx hour.

(** Durations and instants are in nanoseconds. *)
Definition Hour_ns : Z := 3600 * 1000000000.
Definition segmentRangeBuffer : Z := Hour_ns.

Definition overlaps (s : LoadedSegment) (start stop : Z) : bool :=
  match Meta s with
  | None => false
  | Some m =>
      match parse_RFC3339 (TimeRange m).1, parse_RFC3339 (TimeRange m).2 with
      | Some first, Some last =>
          let '(first, last) := if last <? first then (last, first) else (first, last) in
          negb (stop <? first - segmentRangeBuffer) && negb (last + segmentRangeBuffer <? start)
      | _, _ => false
      end
  end.

Definition SegmentsInRange (segments : list LoadedSegment) (start stop : Z)
  : list LoadedSegment :=
  let startHour := SegmentHourFromTime start - 1 in
  let endHour := SegmentHourFromTime stop + 1 in
  filter (fun seg =>
    ((startHour <=? Hour seg) && (Hour seg <=? endHour)) || overlaps seg start stop = true) segments.

Definition expiredAt (s : LoadedSegment) (cutoffHour cutoff : Z) : bool :=
  match Meta s ≫= (fun m => parse_RFC3339 (TimeRange m).2) with
  | Some last => last <? cutoff
  | None => Hour s <? cutoffHour
  end.

Definition AllSegments (segments : list LoadedSegment) : list LoadedSegment := segments.
Definition SegmentCount (segments : list LoadedSegment) : Z := len segments.

(** [Prune]: the clock is read once for the cutoff hour and once per segment;
    [removed] says whether [os.RemoveAll] succeeded. *)
Definition Prune (segments : list LoadedSegment) (now : Z) (now_at : LoadedSegment -> Z)
  (retention : Z) (removed : LoadedSegment -> bool) : Z * list LoadedSegment :=
  let cutoffHour := SegmentHourFromTime (now - retention) in
  foldl (fun acc seg =>
    let '(deleted, remaining) := acc in
    if expiredAt seg cutoffHour (now_at seg - retention) then
      if removed seg then (deleted + 1, remaining) else (deleted, remaining ++ [seg])
    else (deleted, remaining ++ [seg])) (0, []) segments.

(** ** Startup *)

#[export] Instance hour_le_dec (a b : LoadedSegment) : Decision (Hour a <= Hour b).
Proof. apply _. Defined.

Section Scan.
Context {C : Zstd} {U : Unicode} {J : MetaJSON}.

(** The data directory: its sub-directories in the order of [os.ReadDir]. *)
Definition DataDir : Type := list (bytes * Dir).

(** One directory of the scan: its state after recovery, and its segment. *)
Definition scan_dir (SealChunkEntries currentHour : Z) (entry : bytes * Dir)
  : (bytes * Dir) * option LoadedSegment :=
  let '(name, d) := entry in
  let d := recoverDir SealChunkEntries d name currentHour in
  ((name, d),
   if IsSealComplete d then
     metaData ← d !! meta_name;
     meta ← UnmarshalMeta metaData;
     Some (mkSeg (parseSegmentHour name) name (Some meta))
   else None).

(** [scan]; [now] is the clock. *)
Definition scan (SealChunkEntries now : Z) (dirs : DataDir) : DataDir * list LoadedSegment :=
  let rs := scan_dir SealChunkEntries (SegmentHourFromTime now) <$> dirs in
  (rs.*1, merge_sort (fun a b => Hour a <= Hour b) (omap snd rs)).

End Scan.

(** ** The list as a map *)

Definition hours_sorted (segments : list LoadedSegment) : Prop :=
  StronglySorted (fun a b => Hour a < Hour b) segments.

(** The abstract view: a segment per hour. *)
Definition segment_map (segments : list LoadedSegment) : gmap Z LoadedSegment :=
  list_to_map ((fun s => (Hour s, s)) <$> segments).

(** A strictly later element of a sorted list is related to an earlier one. *)
Lemma sorted_lookup {A} (R : A -> A -> Prop) (l : list A) (i j : nat) (x y : A) :
  StronglySorted R l -> l !! i = Some x -> l !! j = Some y -> (i < j)%nat -> R x y.
Proof.
  intros Hs. revert i j. induction Hs as [| a l Hs IH Ha]; intros i j Hi Hj Hij; [done |].
  destruct j as [| j]; [lia |]. destruct i as [| i].
  - injection Hi as <-. rewrite list.Forall_forall in Ha. apply Ha.
    exact (list_elem_of_lookup_2 l j y Hj).
  - apply (IH i j); [done | done | lia].
Qed.

Lemma hour_index_ok segments hour :
  hours_sorted segments ->
  exists l1 l2, segments = l1 ++ l2 /\ Forall (fun s => Hour s < hour) l1 /\
    Forall (fun s => hour <= Hour s) l2 /\ hour_index segments hour = Ok (len l1).
Proof.
  intros Hs.
  assert (forall i, 0 <= i < len segments -> exists s, index segments i = Ok s /\
    segments !! Z.to_nat i = Some s) as Hidx.
  { intros i Hi. destruct (index_ok segments i Hi) as (s & E1 & E2). by exists s. }
  set (p := fun i => match index segments i with Ok s => hour <=? Hour s | _ => false end).
  destruct (sort_Search_ok (fun i => s ← index segments i; Ok (hour <=? Hour s)) p (len segments))
    as (r & E & Hr & Hlo & Hhi).
  - intros i Hi. unfold p. by destruct (Hidx i Hi) as (s & -> & _).
  - intros i j Hij Hj. unfold p. destruct (Hidx i ltac:(lia)) as (s & -> & Es).
    destruct (Hidx j ltac:(lia)) as (t & -> & Et).
    destruct (decide (i = j)) as [-> | Hne]; [assert (s = t) as -> by congruence; done |].
    assert (Hour s < Hour t).
    { apply (sorted_lookup _ _ _ _ _ _ Hs Es Et). lia. }
    zbool; done || lia.
  - apply len_nonneg.
  - exists (take (Z.to_nat r) segments), (drop (Z.to_nat r) segments).
    split; [by rewrite take_drop |].
    assert (len (take (Z.to_nat r) segments) = r) as El by (by apply len_take).
    split; [| split; [| unfold hour_index; by rewrite E, El]].
    + apply Forall_lookup_2. intros i s Hi. apply lookup_take_Some in Hi as [Hi Hir].
      pose proof (lookup_lt_Some _ _ _ Hi). specialize (Hlo (Z.of_nat i) ltac:(lia)).
      unfold p in Hlo. destruct (Hidx (Z.of_nat i)) as (t & E' & Et); [unfold len; lia |].
      rewrite E' in Hlo. rewrite Nat2Z.id in Et. assert (s = t) as -> by congruence. zbool; done.
    + apply Forall_lookup_2. intros i s Hi. rewrite lookup_drop in Hi.
      pose proof (lookup_lt_Some _ _ _ Hi).
      specialize (Hhi (r + Z.of_nat i) ltac:(unfold len; lia)). unfold p in Hhi.
      destruct (Hidx (r + Z.of_nat i)) as (t & E' & Et); [unfold len; lia |].
      rewrite E' in Hhi. replace (Z.to_nat (r + Z.of_nat i)) with (Z.to_nat r + i)%nat in Et by lia.
      assert (s = t) as -> by congruence. zbool; done.
Qed.

Lemma segment_at_app l1 l2 hour :
  segment_at (l1 ++ l2) (len l1) hour =
    Ok (s ← head l2; if Hour s =? hour then Some s else None).
Proof.
  unfold segment_at. rewrite len_app. destruct l2 as [| s l2].
  - rewrite (@len_nil LoadedSegment). zcmp. done.
  - rewrite len_cons. len_pose. zcmp. by rewrite (index_split _ l1 s l2).
Qed.

Lemma segment_map_app l1 l2 : segment_map (l1 ++ l2) = segment_map l1 ∪ segment_map l2.
Proof. unfold segment_map. rewrite fmap_app. apply list_to_map_app. Qed.

Lemma segment_map_cons s l : segment_map (s :: l) = <[Hour s := s]> (segment_map l).
Proof. done. Qed.

Lemma segment_map_none l hour :
  Forall (fun s => Hour s <> hour) l -> segment_map l !! hour = None.
Proof.
  induction 1 as [| s l Hne _ IH]; [apply lookup_empty |].
  rewrite segment_map_cons, lookup_insert_ne; done.
Qed.

Lemma segment_map_lt l hour :
  Forall (fun s => Hour s < hour) l -> segment_map l !! hour = None.
Proof. intros Hl. apply segment_map_none. eapply list.Forall_impl; [exact Hl |]. cbn. lia. Qed.

(** Looking an hour up in a sorted list split at that hour. *)
Lemma segment_map_split l1 l2 hour :
  hours_sorted (l1 ++ l2) -> Forall (fun s => Hour s < hour) l1 ->
  Forall (fun s => hour <= Hour s) l2 ->
  segment_map (l1 ++ l2) !! hour = (s ← head l2; if Hour s =? hour then Some s else None).
Proof.
  intros Hs H1 H2. apply StronglySorted_app_1_r in Hs.
  rewrite segment_map_app, lookup_union_r
    by (by apply segment_map_lt).
  destruct l2 as [| s l2]; [done |]. cbn [head mbind option_bind].
  apply StronglySorted_cons in Hs as [Hf _]. rewrite segment_map_cons.
  inversion H2 as [| ? ? Hs2 _]; subst.
  destruct (Z.eqb_spec (Hour s) hour) as [<- | Hne]; [by rewrite lookup_insert_eq |].
  rewrite lookup_insert_ne by done. apply segment_map_none.
  eapply list.Forall_impl; [exact Hf |]. intros t Ht. cbn beta in Ht. lia.
Qed.

Lemma FindSegmentByID_lemma segments id :
  hours_sorted segments ->
  FindSegmentByID segments id = Ok (segment_map segments !! (DecodeID id).1.1).
Proof.
  intros Hs. unfold FindSegmentByID. destruct (DecodeID id) as [[hour c] row]. cbn [fst].
  destruct (hour_index_ok segments hour Hs) as (l1 & l2 & -> & H1 & H2 & ->).
  cbn [mbind result_bind]. by rewrite segment_at_app, segment_map_split.
Qed.

Lemma Register_lemma segments hour meta :
  hours_sorted segments ->
  exists segments', Register segments hour meta = Ok segments' /\ hours_sorted segments' /\
    segment_map segments' =
      <[hour := mkSeg hour (SegmentDirName hour) meta]> (segment_map segments).
Proof.
  intros Hs. unfold Register.
  destruct (hour_index_ok segments hour Hs) as (l1 & l2 & -> & H1 & H2 & ->).
  cbn [mbind result_bind]. rewrite segment_at_app. cbn [mbind result_bind].
  set (seg := mkSeg hour (SegmentDirName hour) meta).
  pose proof Hs as Hs'. apply StronglySorted_app in Hs' as (H12 & Hs1 & Hs2).
  destruct l2 as [| s l2]; [| destruct (Z.eqb_spec (Hour s) hour) as [Eh | Hne]];
    cbn [head option_bind mbind].
  - exists (l1 ++ [seg]). unfold len. rewrite Nat2Z.id, app_nil_r, firstn_all, drop_all.
    split; [done |]. split.
    + apply StronglySorted_app_2; [| done | repeat constructor].
      rewrite list.Forall_forall in H1. set_solver.
    + rewrite segment_map_app, segment_map_cons. change (segment_map []) with (∅ : gmap Z LoadedSegment).
      cbn [Hour seg]. rewrite <- insert_union_r by (by apply segment_map_lt). by rewrite map_union_empty.
  - rewrite (proj2 (Z.eqb_eq _ _) Eh). exists (l1 ++ seg :: l2). split; [| split].
    + unfold store. rewrite len_app, len_cons. len_pose. zcmp.
      do 2 f_equal. unfold len. rewrite Nat2Z.id. rewrite insert_app_r_alt by lia. by rewrite Nat.sub_diag.
    + apply StronglySorted_cons in Hs2 as [Hf Hs2].
      apply StronglySorted_app_2; [| done |].
      * intros x y Hx Hy. apply elem_of_cons in Hy as [-> | Hy].
        -- rewrite list.Forall_forall in H1. cbn. by apply H1.
        -- apply H12; [done |]. by right.
      * apply StronglySorted_cons. split; [| done]. cbn. by rewrite <- Eh.
    + rewrite !segment_map_app, !segment_map_cons. cbn [Hour seg]. rewrite Eh.
      rewrite <- !insert_union_r by (by apply segment_map_lt).
      by rewrite insert_insert_eq.
  - rewrite (proj2 (Z.eqb_neq _ _) Hne). exists (l1 ++ seg :: s :: l2).
    inversion H2 as [| ? ? Hs0 H2']; subst.
    unfold len. rewrite Nat2Z.id, take_app_length, drop_app_length. split; [done |].
    apply StronglySorted_cons in Hs2 as [Hf Hs2]. split.
    + apply StronglySorted_app_2; [| done |].
      * intros x y Hx Hy. apply elem_of_cons in Hy as [-> | Hy]; [| by apply H12].
        rewrite list.Forall_forall in H1. cbn. by apply H1.
      * apply StronglySorted_cons. split; [| by apply StronglySorted_cons]. cbn [Hour seg].
        constructor; [lia |]. eapply list.Forall_impl; [exact Hf |]. intros; cbn beta in *; lia.
    + rewrite !segment_map_app, (segment_map_cons seg). cbn [Hour seg].
      rewrite <- insert_union_r by (by apply segment_map_lt). done.
Qed.

(** ** Time ranges *)

(** The recorded range of a sealed segment, in nanoseconds: whole seconds. *)
Lemma segment_meta_range s h es first last :
  head es = Some first -> list.last es = Some last ->
  datable (ReceivedAt first / 1000) -> datable (ReceivedAt last / 1000) ->
  parse_RFC3339 (TimeRange (segment_meta s h es)).1 = Some (ReceivedAt first / 1000 * 1000000000) /\
  parse_RFC3339 (TimeRange (segment_meta s h es)).2 = Some (ReceivedAt last / 1000 * 1000000000).
Proof.
  intros Hf Hl D1 D2. unfold segment_meta.
  pose proof (row_groups_concat (effectiveSealChunkEntries s) es (effective_range s)) as Hc.
  pose proof (row_groups_cut (effectiveSealChunkEntries s) es (effective_range s)) as Hcut.
  set (bs := row_groups _ _) in *. clearbody bs. subst es.
  assert (forall acc t, cut_ok (effectiveSealChunkEntries s) t bs -> concat bs <> [] ->
    acc_first (foldl seal_group acc bs) =
      (match acc_first acc with Some f => Some f | None => head (concat bs) end) /\
    Some (acc_last (foldl seal_group acc bs)) = list.last (concat bs)) as H.
  { clear Hf Hl Hcut. induction bs as [| b bs IH]; intros acc t Hcut Hne; [done |].
    destruct Hcut as (Hb & _ & _ & Hcut). cbn [foldl concat].
    destruct b as [| x b]; [done |]. destruct (concat bs) as [| y cs] eqn:Ec.
    - destruct bs as [| b' bs].
      + rewrite app_nil_r. cbn [foldl]. unfold seal_group, acc_add. cbn [acc_first acc_last with_meta head].
        split; [by destruct (acc_first acc) |].
        destruct (list.last (x :: b)) eqn:El; [done |]. by apply last_None in El.
      + destruct Hcut as (Hb' & _). cbn in Ec. by destruct b'.
    - destruct (IH (seal_group acc (x :: b)) _ Hcut ltac:(done)) as [E1 E2]. rewrite E1, E2. split.
      + unfold seal_group, acc_add. cbn [acc_first with_meta head app]. by destruct (acc_first acc).
      + rewrite last_app. destruct (list.last (y :: cs)) eqn:El; [done |]. by apply last_None in El. }
  destruct (H (newMetaAccumulator s (SegmentDirName h)) 0 Hcut) as [E1 E2].
  { intros E. by rewrite E in Hf. }
  rewrite Hl in E2. injection E2 as E2. cbn [newMetaAccumulator acc_first] in E1. rewrite Hf in E1.
  unfold finish. rewrite E1, E2. cbn [TimeRange fst snd]. unfold ms_RFC3339.
  by rewrite !parse_RFC3339_fmt.
Qed.

Lemma sorted_ends (es : list Entry) first last e :
  StronglySorted (fun a b => ReceivedAt a <= ReceivedAt b) es ->
  head es = Some first -> list.last es = Some last -> e ∈ es ->
  ReceivedAt first <= ReceivedAt e <= ReceivedAt last.
Proof.
  intros Hs Hf Hl [i Hi]%list_elem_of_lookup_1.
  rewrite head_lookup in Hf. rewrite last_lookup in Hl.
  pose proof (lookup_lt_Some _ _ _ Hi). split.
  - destruct i as [| i]; [assert (e = first) as -> by congruence; lia |].
    apply (sorted_lookup _ _ _ _ _ _ Hs Hf Hi). lia.
  - destruct (decide (i = pred (length es))) as [-> | Hne].
    + assert (e = last) as -> by congruence. lia.
    + apply (sorted_lookup _ _ _ _ _ _ Hs Hi Hl). lia.
Qed.

(** Arrival times of a segment: non-decreasing, before the year 6325. *)
Definition arrivals_ok (es : list Entry) : Prop :=
  StronglySorted (fun a b => ReceivedAt a <= ReceivedAt b) es /\
  Forall (fun e => datable (ReceivedAt e / 1000)) es.

Lemma arrivals_ends es e :
  arrivals_ok es -> e ∈ es ->
  exists first last, head es = Some first /\ list.last es = Some last /\
    datable (ReceivedAt first / 1000) /\ datable (ReceivedAt last / 1000) /\
    ReceivedAt first <= ReceivedAt e <= ReceivedAt last.
Proof.
  intros [Hs Hd] He. assert (es <> []) as Hne by (intros ->; by apply not_elem_of_nil in He).
  destruct (group_ends es Hne) as (x & y & Hx & Hy). exists x, y.
  rewrite list.Forall_forall in Hd. split; [done |]. split; [done |].
  split; [apply Hd; by apply head_Some_elem_of |]. split; [apply Hd; by apply last_Some_elem_of |].
  by apply (sorted_ends es x y e).
Qed.

Lemma overlaps_entry s h es seg e start stop :
  Meta seg = Some (segment_meta s h es) -> arrivals_ok es -> e ∈ es ->
  - 3599000 <= Ts e - ReceivedAt e <= 3599000 ->
  start / 1000000 <= Ts e <= stop / 1000000 -> overlaps seg start stop = true.
Proof.
  intros Hm Ha He Hskew Ht.
  destruct (arrivals_ends es e Ha He) as (x & y & Hx & Hy & Dx & Dy & Hr).
  destruct (segment_meta_range s h es x y Hx Hy Dx Dy) as [R1 R2].
  unfold overlaps. rewrite Hm, R1, R2.
  rewrite (proj2 (Z.ltb_ge _ _)) by zdiv. unfold segmentRangeBuffer, Hour_ns.
  rewrite (proj2 (Z.ltb_ge stop _)) by zdiv. rewrite (proj2 (Z.ltb_ge _ start)) by zdiv. done.
Qed.

(** [Prune] as a filter. *)
Lemma Prune_lemma segments now now_at retention removed :
  let expired seg :=
    expiredAt seg (SegmentHourFromTime (now - retention)) (now_at seg - retention) in
  Prune segments now now_at retention removed =
    (count (fun seg => expired seg && removed seg) segments,
     filter (fun seg => expired seg && removed seg = false) segments).
Proof.
  intros expired. unfold Prune. fold expired.
  set (step := fun acc seg => _).
  assert (forall l d r, foldl step (d, r) l =
    (d + count (fun seg => expired seg && removed seg) l,
     r ++ filter (fun seg => expired seg && removed seg = false) l)) as Hl.
  { induction l as [| seg l IH]; intros d r; cbn [foldl].
    - by rewrite count_nil, Z.add_0_r, app_nil_r.
    - rewrite count_cons, filter_cons. unfold step at 2.
      change (expiredAt seg (SegmentHourFromTime (now - retention)) (now_at seg - retention))
        with (expired seg).
      destruct (expired seg), (removed seg); cbn [andb];
        [rewrite decide_False by done | rewrite decide_True by done ..];
        rewrite IH, <- ?app_assoc, ?Z.add_assoc, ?Z.add_0_r; cbn [app]; do 2 f_equal; lia. }
  by rewrite Hl.
Qed.

(** ** Properties *)

(** Registering a segment keeps the list strictly sorted by hour and acts on
    it as an insertion into the map from hours to segments: afterwards an ID of
    that hour finds the new segment and every other ID what it found before. *)
Theorem register_refines_map (segments : list LoadedSegment) (hour : Z) (meta : SegmentMeta) :
  hours_sorted segments ->
  exists segments', Register segments hour (Some meta) = Ok segments' /\
    hours_sorted segments' /\
    segment_map segments' =
      <[hour := mkSeg hour (SegmentDirName hour) (Some meta)]> (segment_map segments) /\
    forall id, FindSegmentByID segments' id =
      if (DecodeID id).1.1 =? hour then Ok (Some (mkSeg hour (SegmentDirName hour) (Some meta)))
      else FindSegmentByID segments id.
Proof.
  intros Hs. destruct (Register_lemma segments hour (Some meta) Hs) as (segs & E & Hs' & Em).
  exists segs. split; [done |]. split; [done |]. split; [done |]. intros id.
  rewrite !FindSegmentByID_lemma, Em by done.
  destruct (Z.eqb_spec (DecodeID id).1.1 hour) as [-> | Hne].
  - by rewrite lookup_insert_eq.
  - by rewrite lookup_insert_ne.
Qed.

(** A time-range query considers every segment that holds a matching row: an
    entry whose event time lies in the range, and within an hour (less a second)
    of its arrival, belongs to a segment that [SegmentsInRange] returns, whatever
    hour slot the segment was parked in. *)
Theorem no_segment_missed (segments : list LoadedSegment) (seg : LoadedSegment) (s h : Z)
  (es : list Entry) (e : Entry) (start stop : Z) :
  seg ∈ segments -> Meta seg = Some (segment_meta s h es) -> arrivals_ok es -> e ∈ es ->
  - 3599000 <= Ts e - ReceivedAt e <= 3599000 ->
  is_int64 (start / 1000000) -> is_int64 (stop / 1000000) ->
  UnixMilli start <= Ts e <= UnixMilli stop ->
  seg ∈ SegmentsInRange segments start stop.
Proof.
  intros Hin Hm Ha He Hskew Hs1 Hs2 Ht. unfold UnixMilli in Ht. rewrite !int64_small in Ht by done.
  unfold SegmentsInRange. apply list_elem_of_filter. split; [| done].
  rewrite (overlaps_entry s h es seg e start stop) by done. apply orb_true_r.
Qed.

(** Pruning keeps the order of the list, reports how many segments it dropped,
    drops only segments whose directory was removed, and a dropped segment holds
    no entry that arrived more than a second after the retention cutoff. *)
Theorem prune_is_safe (segments : list LoadedSegment) (now retention : Z)
  (now_at : LoadedSegment -> Z) (removed : LoadedSegment -> bool) :
  hours_sorted segments ->
  let '(deleted, remaining) := Prune segments now now_at retention removed in
  hours_sorted remaining /\ deleted + len remaining = len segments /\
  forall seg, seg ∈ segments -> seg ∉ remaining ->
    removed seg = true /\
    forall s h es e, Meta seg = Some (segment_meta s h es) -> arrivals_ok es -> e ∈ es ->
      ReceivedAt e * 1000000 < now_at seg - retention + 1000000000.
Proof.
  intros Hs. rewrite Prune_lemma. split; [by apply StronglySorted_filter |]. split.
  - unfold count. clear Hs. induction segments as [| seg l IH]; [done |].
    rewrite !filter_cons. destruct (expiredAt seg _ _ && removed seg);
      [rewrite decide_True, decide_False by done | rewrite decide_False, decide_True by done];
      rewrite !len_cons; lia.
  - intros seg Hin Hout. rewrite list_elem_of_filter in Hout.
    destruct (expiredAt seg _ _ && removed seg) eqn:E; [| by destruct Hout].
    apply andb_prop in E as [E Hrm]. split; [done |]. intros s h es e Hm Ha He.
    destruct (arrivals_ends es e Ha He) as (x & y & Hx & Hy & Dx & Dy & Hr).
    destruct (segment_meta_range s h es x y Hx Hy Dx Dy) as [R1 R2].
    unfold expiredAt in E. rewrite Hm in E. cbn [mbind option_bind] in E. rewrite R2 in E.
    apply Z.ltb_lt in E. zdiv.
Qed.

(** ** Witnesses *)

Definition sample_segments : list LoadedSegment :=
  [mkSeg 492998 (SegmentDirName 492998) None; mkSeg 493001 (SegmentDirName 493001) None].

Lemma sample_segments_sorted : hours_sorted sample_segments.
Proof. repeat constructor. Qed.

Lemma register_refines_map_witness :
  exists segments', Register sample_segments 493000 (Some (segment_meta 1 493000 sample_log)) =
      Ok segments' /\
    FindSegmentByID segments' (IDForPosition 493000 1) =
      Ok (Some (mkSeg 493000 (SegmentDirName 493000) (Some (segment_meta 1 493000 sample_log)))).
Proof.
  destruct (register_refines_map sample_segments 493000 (segment_meta 1 493000 sample_log)
    sample_segments_sorted) as (segs & E & _ & _ & Hfind).
  exists segs. split; [exact E |]. rewrite Hfind. reflexivity.
Defined.

(** Two entries received at 2026-03-29T16:00:00 and a millisecond later. *)
Definition arrived_log : list Entry :=
  [set Ts 1774800000000 (set ReceivedAt 1774800000000 sample_entry);
   set Ts 1774799990000 (set ReceivedAt 1774800000001 sample_entry)].

Lemma arrived_log_ok : arrivals_ok arrived_log.
Proof. split; repeat constructor; vm_compute; congruence. Qed.

(** A segment parked 40 hours ahead of its data. *)
Definition parked_segment : LoadedSegment :=
  mkSeg 493040 (SegmentDirName 493040) (Some (segment_meta 1 493040 arrived_log)).

Lemma no_segment_missed_witness :
  parked_segment ∈ SegmentsInRange (sample_segments ++ [parked_segment])
    (1774799900000 * 1000000) (1774799999000 * 1000000).
Proof.
  apply (no_segment_missed _ parked_segment 1 493040 arrived_log
    (set Ts 1774799990000 (set ReceivedAt 1774800000001 sample_entry)));
    [set_solver | done | apply arrived_log_ok | set_solver | vm_compute; split; congruence ..].
Defined.

Lemma prune_is_safe_witness :
  let '(deleted, remaining) := Prune [parked_segment] (1774900000000 * 1000000)
    (fun _ => 1774900000000 * 1000000) (3600 * 1000000000) (fun _ => true) in
  deleted + len remaining = 1.
Proof.
  assert (hours_sorted [parked_segment]) as Hs by repeat constructor.
  pose proof (prune_is_safe [parked_segment] (1774900000000 * 1000000) (3600 * 1000000000)
    (fun _ => 1774900000000 * 1000000) (fun _ => true) Hs) as H.
  destruct (Prune _ _ _ _ _) as [deleted remaining]. apply H.
Defined.
