(* ===== verification/TopN.v ===== *)
(** * Pages by a bounded heap (engine/store.go, Go's container/heap)

    A query keeps the best [n] rows of a scan in a heap whose root is the worst of
    them.  The standard library's heap is modelled on lists.  Main results: the
    heap operations keep the heap order and the elements, the root is extremal, and
    the rows and entries selected are the first [n] of the fully sorted list. *)

From stdpp Require Import base list gmap strings numbers sorting.
From Stdlib Require Import ZArith Lia.
From S2P Require Import Prelude Schema.

(** ** Go's container/heap

    [less] orders two elements; the element at index 0 is a least one. *)

Section Heap.
Context {A : Type} (less : A -> A -> bool).
Implicit Types (h : list A) (i j n : nat).

(** [h.Less(i, j)] on elements in range. *)
Definition Less h i j : bool :=
  match h !! i, h !! j with Some x, Some y => less x y | _, _ => false end.

Definition Swap h i j : list A :=
  match h !! i, h !! j with Some x, Some y => <[i := y]> (<[j := x]> h) | _, _ => h end.

(** [up]; the parent of 0 is 0. *)
Fixpoint up (fuel : nat) h j : list A :=
  match fuel with
  | O => h
  | S fuel =>
      let i := ((j - 1) / 2)%nat in
      if (i =? j)%nat || negb (Less h j i) then h else up fuel (Swap h i j) i
  end.

(** [down] over the first [n] elements. *)
Fixpoint down (fuel : nat) h i n : list A :=
  match fuel with
  | O => h
  | S fuel =>
      let j1 := (2 * i + 1)%nat in
      if (n <=? j1)%nat then h
      else
        let j2 := (j1 + 1)%nat in
        let j := if (j2 <? n)%nat && Less h j2 j1 then j2 else j1 in
        if negb (Less h j i) then h else down fuel (Swap h i j) j n
  end.

(** [heap.Push]: the index at least halves in each round. *)
Definition Push h (x : A) : list A := up (length h + 1) (h ++ [x]) (length h).

(** [heap.Fix(h, 0)]; [up] from the root does nothing. *)
Definition FixRoot h : list A := up 1 (down (length h) h 0 (length h)) 0.

End Heap.

(** ** The page heaps of the store (engine/store.go) *)

Record rowCandidate := mkCandidate { rc_row : Z; rc_ts : Z }.

Definition rowComesBefore (asc : bool) (a b : rowCandidate) : bool :=
  if negb (rc_ts a =? rc_ts b) then
    if asc then rc_ts a <? rc_ts b else rc_ts b <? rc_ts a
  else rc_row a <? rc_row b.

Definition entryComesBefore (asc : bool) (a b : Entry) : bool :=
  if negb (Ts a =? Ts b) then if asc then Ts a <? Ts b else Ts b <? Ts a
  else ID a <? ID b.

(** A short column is "no timestamp". *)
Definition tsAt (tsValues : list Z) (row : Z) : Z :=
  if (row <? 0) || (len tsValues <=? row) then 0 else default 0 (tsValues !! Z.to_nat row).

(** The heap keeps the worst selected element at its root: [Less(i, j)] is
    [comesBefore(j, i)].  One candidate of the loops of [selectTopRows] and
    [searchWALsTop]. *)
Definition top_step {A} (before : A -> A -> bool) (n : nat) (h : list A) (candidate : A) : list A :=
  let less x y := before y x in
  if (length h <? n)%nat then Push less h candidate
  else
    match h with
    | root :: rest =>
        if before candidate root then FixRoot less (candidate :: rest) else h
    | [] => h
    end.

Definition selectTopRows (tsValues rows : list Z) (asc : bool) (n : Z) : list Z :=
  if (n <=? 0) || (len rows <=? n) then rows
  else
    let h := foldl (fun h row =>
      top_step (rowComesBefore asc) (Z.to_nat n) h (mkCandidate row (tsAt tsValues row))) [] rows in
    merge_sort Z.le (rc_row <$> h).

(** [x] need not come after [y]. *)
Definition not_after {A} (before : A -> A -> bool) (x y : A) : Prop := before y x = false.

#[export] Instance not_after_dec {A} (before : A -> A -> bool) x y : Decision (not_after before x y).
Proof. unfold not_after. apply _. Defined.

(** [sort.Slice] of entries by [entryComesBefore]; where no two entries compare
    equal every sorting algorithm gives this list. *)
Definition sortEntriesByTs (entries : list Entry) (asc : bool) : list Entry :=
  merge_sort (not_after (entryComesBefore asc)) entries.

Definition capEntriesByTs (entries : list Entry) (asc : bool) (max : Z) : list Entry :=
  if (max <=? 0) || (len entries <=? max) then entries
  else take (Z.to_nat max) (sortEntriesByTs entries asc).

(** ** Heaps are heaps *)

Section HeapLemmas.
Context {A : Type} (less : A -> A -> bool).
Implicit Types (h : list A) (i j k n : nat) (x y z : A).

Definition le x y : Prop := less y x = false.

Hypothesis le_refl : forall x, le x x.
Hypothesis le_trans : forall x y z, le x y -> le y z -> le x z.
Hypothesis less_le : forall x y, less x y = true -> le x y.

Definition parent k : nat := ((k - 1) / 2)%nat.

Lemma parent_spec k p : (0 < k)%nat -> (parent k = p <-> (k = 2 * p + 1 \/ k = 2 * p + 2)%nat).
Proof.
  intros Hk. unfold parent.
  pose proof (Nat.div_mod_eq (k - 1) 2). pose proof (Nat.mod_upper_bound (k - 1) 2). lia.
Qed.

Lemma parent_lt k : (0 < k)%nat -> (parent k < k)%nat.
Proof. intros Hk. destruct (proj1 (parent_spec k _ Hk) eq_refl); lia. Qed.

Definition is_heap h : Prop :=
  forall k x y, (0 < k)%nat -> h !! parent k = Some x -> h !! k = Some y -> le x y.

Lemma Swap_eq h i j x y :
  h !! i = Some x -> h !! j = Some y -> Swap h i j = <[i := y]> (<[j := x]> h).
Proof. intros Hi Hj. unfold Swap. by rewrite Hi, Hj. Qed.

Lemma length_Swap h i j : length (Swap h i j) = length h.
Proof. unfold Swap. destruct (h !! i), (h !! j); by rewrite ?length_insert. Qed.

Lemma Swap_lookup h i j x y k :
  h !! i = Some x -> h !! j = Some y ->
  Swap h i j !! k = if decide (k = i) then Some y else if decide (k = j) then Some x else h !! k.
Proof.
  intros Hi Hj. rewrite (Swap_eq h i j x y Hi Hj).
  pose proof (lookup_lt_Some _ _ _ Hi). pose proof (lookup_lt_Some _ _ _ Hj).
  destruct (decide (k = i)) as [-> | Hki].
  - apply list_lookup_insert_eq. by rewrite length_insert.
  - rewrite list_lookup_insert_ne by done. destruct (decide (k = j)) as [-> | Hkj].
    + by apply list_lookup_insert_eq.
    + by apply list_lookup_insert_ne.
Qed.

Lemma Swap_perm h i j : Swap h i j ≡ₚ h.
Proof.
  destruct (h !! i) as [x |] eqn:Hi; [| unfold Swap; by rewrite Hi].
  destruct (h !! j) as [y |] eqn:Hj; [| unfold Swap; by rewrite Hi, Hj].
  apply Permutation_inj. split; [apply length_Swap |].
  exists (fun k => if decide (k = i) then j else if decide (k = j) then i else k). split.
  - intros a b. repeat case_decide; congruence.
  - intros k. rewrite (Swap_lookup h i j x y) by done. repeat case_decide; congruence.
Qed.

Lemma Less_lookup h i j x y : h !! i = Some x -> h !! j = Some y -> Less less h i j = less x y.
Proof. intros Hi Hj. unfold Less. by rewrite Hi, Hj. Qed.

(** A heap but for the element at [j], which may be smaller than its parent. *)
Definition heap_but_up h j : Prop :=
  (forall k x y, (0 < k)%nat -> k <> j -> h !! parent k = Some x -> h !! k = Some y -> le x y) /\
  (forall k x y, (0 < k)%nat -> (0 < j)%nat -> parent k = j ->
    h !! parent j = Some x -> h !! k = Some y -> le x y).

(** A heap but for the element at [i], which may be larger than its children. *)
Definition heap_but_down h i : Prop :=
  (forall k x y, (0 < k)%nat -> parent k <> i -> h !! parent k = Some x -> h !! k = Some y -> le x y) /\
  (forall k x y, (0 < k)%nat -> (0 < i)%nat -> parent k = i ->
    h !! parent i = Some x -> h !! k = Some y -> le x y).

Lemma up_swap h j x y :
  (0 < j)%nat -> heap_but_up h j -> h !! parent j = Some x -> h !! j = Some y ->
  less y x = true -> heap_but_up (Swap h (parent j) j) (parent j).
Proof.
  intros Hj [H1 H2] Hx Hy Hlt. pose proof (parent_lt j Hj) as Hpj.
  assert (forall k, Swap h (parent j) j !! k = if decide (k = parent j) then Some y
    else if decide (k = j) then Some x else h !! k) as HS by (intros; by apply Swap_lookup).
  split.
  - intros k a b Hk Hne. rewrite !HS. pose proof (parent_lt k Hk) as Hpk.
    rewrite (decide_False (P := k = parent j)) by done.
    destruct (decide (k = j)) as [-> | Hkj].
    + rewrite decide_True by done. intros [= <-] [= <-]. by apply less_le.
    + destruct (decide (parent k = parent j)) as [E | E].
      * intros [= <-] Hb. apply (le_trans _ x); [by apply less_le |].
        apply (H1 k x b); [done | done | by rewrite E | done].
      * destruct (decide (parent k = j)) as [E' | E'].
        -- intros [= <-] Hb. by apply (H2 k x b).
        -- intros Ha Hb. by apply (H1 k a b).
  - intros k a b Hk Hpos Hpk. rewrite !HS. pose proof (parent_lt _ Hpos) as Hpp.
    rewrite (decide_False (P := parent (parent j) = parent j)) by lia.
    rewrite (decide_False (P := parent (parent j) = j)) by lia.
    rewrite (decide_False (P := k = parent j)) by (pose proof (parent_lt k Hk); lia).
    intros Ha. assert (le a x) as Hax by (apply (H1 (parent j) a x); lia || done).
    destruct (decide (k = j)) as [-> | Hkj].
    + by intros [= <-].
    + intros Hb. apply (le_trans _ x); [done |]. apply (H1 k x b); [done | done | by rewrite Hpk | done].
Qed.

Lemma up_heap fuel h j :
  (j < fuel)%nat -> (j < length h)%nat -> heap_but_up h j -> is_heap (up less fuel h j).
Proof.
  revert h j. induction fuel as [| fuel IH]; intros h j Hf Hj Hh; [lia |].
  cbn [up]. fold (parent j).
  destruct (Nat.eqb_spec (parent j) j) as [E | E]; cbn [orb].
  { assert (j = 0%nat) as -> by (destruct j; [done | pose proof (parent_lt (S j)); lia]).
    intros k x y Hk. apply (proj1 Hh k x y); lia. }
  assert (0 < j)%nat as Hpos by (destruct j; [done | lia]).
  pose proof (parent_lt j Hpos) as Hlt.
  destruct (lookup_lt_is_Some_2 h j Hj) as [y Hy].
  destruct (lookup_lt_is_Some_2 h (parent j)) as [x Hx]; [lia |].
  rewrite (Less_lookup h j (parent j) y x) by done.
  destruct (less y x) eqn:Hyx; cbn [negb].
  - apply IH; [lia | rewrite length_Swap; lia |]. by apply (up_swap h j x y).
  - intros k a b Hk Ha Hb. destruct (decide (k = j)) as [-> | Hne].
    + assert (a = x) as -> by congruence. assert (b = y) as -> by congruence. exact Hyx.
    + by apply (proj1 Hh k a b).
Qed.

(** The smaller child of [i] that [down] picks. *)
Lemma pick_child h i n :
  n = length h -> (2 * i + 1 < n)%nat ->
  let j := if ((2 * i + 1 + 1 <? n)%nat && Less less h (2 * i + 1 + 1) (2 * i + 1)) then (2 * i + 1 + 1)%nat
           else (2 * i + 1)%nat in
  exists y, h !! j = Some y /\ parent j = i /\ (i < j < n)%nat /\
    forall k z, (0 < k)%nat -> parent k = i -> h !! k = Some z -> le y z.
Proof.
  intros -> Hn j. destruct (lookup_lt_is_Some_2 h (2 * i + 1) Hn) as [y1 Hy1].
  assert (forall k, (0 < k)%nat -> parent k = i -> k = (2 * i + 1)%nat \/ k = (2 * i + 1 + 1)%nat) as Hch.
  { intros k Hk Hp. apply parent_spec in Hp; lia. }
  destruct (Nat.ltb_spec (2 * i + 1 + 1) (length h)) as [H2 | H2]; cbn [andb] in j.
  - destruct (lookup_lt_is_Some_2 h _ H2) as [y2 Hy2]. subst j.
    rewrite (Less_lookup h _ _ y2 y1) by done. destruct (less y2 y1) eqn:E.
    + exists y2. split; [done |]. split; [apply parent_spec; lia |]. split; [lia |].
      intros k z Hk Hp Hz. destruct (Hch k Hk Hp) as [-> | ->].
      * assert (z = y1) as -> by congruence. by apply less_le.
      * assert (z = y2) as -> by congruence. apply le_refl.
    + exists y1. split; [done |]. split; [apply parent_spec; lia |]. split; [lia |].
      intros k z Hk Hp Hz. destruct (Hch k Hk Hp) as [-> | ->].
      * assert (z = y1) as -> by congruence. apply le_refl.
      * assert (z = y2) as -> by congruence. exact E.
  - subst j. exists y1. split; [done |]. split; [apply parent_spec; lia |]. split; [lia |].
    intros k z Hk Hp Hz. destruct (Hch k Hk Hp) as [-> | ->].
    + assert (z = y1) as -> by congruence. apply le_refl.
    + apply lookup_lt_Some in Hz. lia.
Qed.

Lemma down_swap h i j x y :
  heap_but_down h i -> parent j = i -> (i < j)%nat -> h !! i = Some x -> h !! j = Some y ->
  less y x = true -> (forall k z, (0 < k)%nat -> parent k = i -> h !! k = Some z -> le y z) ->
  heap_but_down (Swap h i j) j.
Proof.
  intros [H1 H2] Hp Hij Hx Hy Hlt Hmin.
  assert (forall k, Swap h i j !! k = if decide (k = i) then Some y
    else if decide (k = j) then Some x else h !! k) as HS by (intros; by apply Swap_lookup).
  split.
  - intros k a b Hk Hne. rewrite !HS. pose proof (parent_lt k Hk) as Hpk.
    rewrite (decide_False (P := parent k = j)) by done.
    destruct (decide (k = i)) as [-> | Hki].
    + rewrite decide_False by lia. intros Ha [= <-]. apply (H2 j a y); [lia | lia | done | done | done].
    + destruct (decide (parent k = i)) as [E | E].
      * intros [= <-]. destruct (decide (k = j)) as [-> | Hkj]; [intros [= <-]; by apply less_le |].
        intros Hb. by apply (Hmin k b).
      * destruct (decide (k = j)) as [-> | Hkj]; [done |]. intros Ha Hb. by apply (H1 k a b).
  - intros k a b Hk Hj Hpk. rewrite !HS. pose proof (parent_lt k Hk).
    rewrite Hp, decide_True by done. rewrite !decide_False by lia. intros [= <-] Hb.
    apply (H1 k y b); [done | lia | by rewrite Hpk | done].
Qed.

Lemma down_heap fuel h i n :
  n = length h -> (n <= i + fuel)%nat -> heap_but_down h i -> is_heap (down less fuel h i n).
Proof.
  revert h i. induction fuel as [| fuel IH]; intros h i -> Hf Hh; cbn [down].
  - intros k a b Hk Ha Hb. apply (proj1 Hh k a b); [done | | done | done].
    intros E. apply lookup_lt_Some in Hb. pose proof (parent_lt k Hk). lia.
  - destruct (Nat.leb_spec (length h) (2 * i + 1)) as [Hge | Hlt].
    + intros k a b Hk Ha Hb. apply (proj1 Hh k a b); [done | | done | done].
      intros E. apply lookup_lt_Some in Hb. apply parent_spec in E; lia.
    + destruct (pick_child h i (length h) eq_refl Hlt) as (y & Hy & Hp & Hij & Hmin).
      set (j := if _ && _ then _ else _) in *.
      destruct (lookup_lt_is_Some_2 h i) as [x Hx]; [lia |].
      rewrite (Less_lookup h j i y x) by done. destruct (less y x) eqn:E; cbn [negb].
      * apply IH; [by rewrite length_Swap | lia |].
        apply (down_swap h i j x y); try done. lia.
      * intros k a b Hk Ha Hb. destruct (decide (parent k = i)) as [Ek | Ek].
        -- assert (a = x) as -> by congruence. apply (le_trans _ y); [exact E |]. by apply (Hmin k b).
        -- by apply (proj1 Hh k a b).
Qed.

Lemma up_perm fuel h j : up less fuel h j ≡ₚ h.
Proof.
  revert h j. induction fuel as [| fuel IH]; intros h j; cbn [up]; [done |].
  destruct (_ || _); [done |]. rewrite IH. apply Swap_perm.
Qed.

Lemma down_perm fuel h i n : down less fuel h i n ≡ₚ h.
Proof.
  revert h i. induction fuel as [| fuel IH]; intros h i; cbn [down]; [done |].
  destruct (_ <=? _)%nat; [done |]. destruct (negb _); [done |]. rewrite IH. apply Swap_perm.
Qed.

Lemma Push_perm h x : Push less h x ≡ₚ x :: h.
Proof. unfold Push. rewrite up_perm. symmetry. apply Permutation_cons_append. Qed.

Lemma Push_heap h x : is_heap h -> is_heap (Push less h x).
Proof.
  intros Hh. unfold Push. apply up_heap; [lia | rewrite length_app; cbn; lia |]. split.
  - intros k a b Hk Hne Ha Hb. pose proof (parent_lt k Hk).
    assert (k < length h)%nat as Hlen.
    { apply lookup_lt_Some in Hb. rewrite length_app in Hb. cbn in Hb. lia. }
    rewrite lookup_app_l in Ha by lia. rewrite lookup_app_l in Hb by lia. by apply (Hh k a b).
  - intros k a b Hk _ Hp Ha Hb. pose proof (parent_lt k Hk).
    apply lookup_lt_Some in Hb. rewrite length_app in Hb. cbn in Hb. lia.
Qed.

Lemma FixRoot_perm h : FixRoot less h ≡ₚ h.
Proof. unfold FixRoot. by rewrite up_perm, down_perm. Qed.

Lemma FixRoot_heap x y rest : is_heap (y :: rest) -> is_heap (FixRoot less (x :: rest)).
Proof.
  intros Hh. unfold FixRoot.
  assert (forall l, up less 1 l 0 = l) as -> by done.
  apply down_heap; [done | lia |]. split; [| lia].
  intros k a b Hk Hne Ha Hb. pose proof (parent_lt k Hk).
  destruct k as [| k]; [lia |]. destruct (parent (S k)) as [| p] eqn:E; [done |].
  apply (Hh (S k) a b); [done | rewrite E; exact Ha | exact Hb].
Qed.

(** The root of a heap is a least element. *)
Lemma heap_root h r x : is_heap h -> head h = Some r -> x ∈ h -> le r x.
Proof.
  intros Hh Hr [k Hk]%list_elem_of_lookup_1. rewrite head_lookup in Hr. revert x Hk.
  induction k as [k IH] using lt_wf_ind. intros x Hk.
  destruct (decide (k = 0%nat)) as [-> | Hne].
  - assert (x = r) as -> by congruence. apply le_refl.
  - pose proof (parent_lt k ltac:(lia)) as Hp.
    destruct (lookup_lt_is_Some_2 h (parent k)) as [z Hz].
    { apply lookup_lt_Some in Hk. lia. }
    apply (le_trans _ z); [by apply (IH (parent k)) |]. by apply (Hh k z x); [lia | ..].
Qed.

End HeapLemmas.

(** ** The first elements of a list by a heap of bounded size *)

Section TopN.
Context {A : Type} (before : A -> A -> bool).
Implicit Types (h P rest : list A) (x y : A).

#[local] Abbreviation na := (not_after before).

Hypothesis na_refl : forall x, na x x.
Hypothesis na_trans : forall x y z, na x y -> na y z -> na x z.
Hypothesis na_before : forall x y, before x y = true -> na x y.

(** [h] holds the first [n] elements of [P]. *)
Record top_inv (n : nat) P h : Prop := {
  top_heap : is_heap (fun x y => before y x) h;
  top_length : length h = min n (length P);
  top_rest : exists rest, P ≡ₚ h ++ rest /\ forall x y, x ∈ h -> y ∈ rest -> na x y
}.

Lemma top_step_ok n P h c :
  (0 < n)%nat -> top_inv n P h -> top_inv n (c :: P) (top_step before n h c).
Proof.
  intros Hn [Hh Hl (rest & Hp & Hle)].
  assert (forall x, le (fun x y => before y x) x x) as Hr by (intros; apply na_refl).
  assert (forall x y z, le (fun x y => before y x) x y -> le (fun x y => before y x) y z ->
    le (fun x y => before y x) x z) as Ht by (intros ? y ? H1 H2; by apply (na_trans _ y)).
  assert (forall x y, (fun x y => before y x) x y = true -> le (fun x y => before y x) x y) as Hb
    by (intros x y Hxy; by apply na_before).
  assert (length P = length h + length rest)%nat as HlP by (by rewrite Hp, length_app).
  unfold top_step. destruct (Nat.ltb_spec (length h) n) as [Hlt | Hge].
  - assert (rest = []) as -> by (apply nil_length_inv; lia).
    rewrite app_nil_r in Hp. split.
    + apply Push_heap; [done.. | exact Hh].
    + rewrite Push_perm. cbn [length]. lia.
    + exists []. rewrite app_nil_r, Push_perm, Hp. split; [done |]. intros x y _ []%not_elem_of_nil.
  - destruct h as [| root tl]; [cbn in *; lia |].
    assert (forall x, x ∈ root :: tl -> na x root) as Hroot.
    { intros x Hx. apply (heap_root (fun x y => before y x) Hr Ht (root :: tl) root x Hh eq_refl Hx). }
    destruct (before c root) eqn:E.
    + split.
      * apply (FixRoot_heap (fun x y => before y x) Hr Ht Hb c root tl Hh).
      * rewrite FixRoot_perm. cbn [length] in *. lia.
      * exists (root :: rest). split.
        -- rewrite FixRoot_perm, Hp. cbn [app]. apply perm_skip, Permutation_middle.
        -- intros x y. rewrite FixRoot_perm. intros Hx Hy.
           assert (na x root) as Hxr.
           { apply elem_of_cons in Hx as [-> | Hx]; [by apply na_before |]. apply Hroot. by right. }
           apply elem_of_cons in Hy as [-> | Hy]; [done |].
           apply (na_trans _ root); [done |]. apply Hle; [by left | done].
    + split; [done | cbn [length] in *; lia |]. exists (c :: rest). split.
      * rewrite Hp. by rewrite Permutation_middle.
      * intros x y Hx Hy. apply elem_of_cons in Hy as [-> | Hy]; [| by apply Hle].
        apply (na_trans _ root); [by apply Hroot | exact E].
Qed.

Lemma top_fold_ok n l P h :
  (0 < n)%nat -> top_inv n P h -> top_inv n (rev l ++ P) (foldl (top_step before n) h l).
Proof.
  intros Hn. revert P h. induction l as [| c l IH]; intros P h HI; [done |].
  cbn [foldl rev]. rewrite <- app_assoc. apply IH. by apply top_step_ok.
Qed.

(** Where [na] separates the elements, the heap sorts to the beginning of
    the sorted list. *)
Lemma top_inv_sort n P h `{!Total na} :
  (forall x y, x ∈ P -> y ∈ P -> na x y -> na y x -> x = y) ->
  top_inv n P h -> merge_sort na h = take n (merge_sort na P).
Proof.
  intros Hanti [_ Hl (rest & Hp & Hle)].
  assert (Transitive na) as Ht by (intros x y z; apply na_trans).
  assert (merge_sort na P = merge_sort na h ++ merge_sort na rest) as ->.
  { apply (StronglySorted_unique_strong na).
    - intros x y Hx Hy. rewrite merge_sort_Permutation in Hx.
      rewrite !merge_sort_Permutation, <- Hp in Hy. by apply Hanti.
    - by apply StronglySorted_merge_sort.
    - apply StronglySorted_app_2; [| by apply StronglySorted_merge_sort ..].
      intros x y. rewrite !merge_sort_Permutation. apply Hle.
    - by rewrite !merge_sort_Permutation. }
  assert (length P = length h + length rest)%nat as HlP by (by rewrite Hp, length_app).
  assert (length (merge_sort na h) = length h) as Hlm by (by rewrite merge_sort_Permutation).
  destruct (Nat.le_gt_cases n (length P)) as [Hn | Hn].
  - rewrite take_app_length'; [done | lia].
  - assert (rest = []) as -> by (apply nil_length_inv; lia). cbn [merge_sort].
    rewrite app_nil_r, take_ge; [done | lia].
Qed.

Lemma top_fold_sort n l `{!Total na} :
  (0 < n)%nat ->
  (forall x y, x ∈ l -> y ∈ l -> na x y -> na y x -> x = y) ->
  merge_sort na (foldl (top_step before n) [] l) = take n (merge_sort na l).
Proof.
  intros Hn Hanti. pose proof (top_fold_ok n l [] [] Hn) as HI. rewrite app_nil_r in HI.
  assert (top_inv n [] []) as H0.
  { split; [intros k x y Hk Hx; done | by rewrite Nat.min_0_r |]. exists []. split; [done |].
    intros x y []%not_elem_of_nil. }
  specialize (HI H0).
  assert (Transitive na) as Ht by (intros x y z; apply na_trans).
  rewrite (top_inv_sort n (rev l) _); [| | done].
  - f_equal. apply (StronglySorted_unique_strong na).
    + intros x y. rewrite !merge_sort_Permutation, <- Permutation_rev. apply Hanti.
    + by apply StronglySorted_merge_sort.
    + by apply StronglySorted_merge_sort.
    + by rewrite !merge_sort_Permutation, <- Permutation_rev.
  - intros x y. rewrite <- Permutation_rev. apply Hanti.
Qed.

Lemma top_fold_perm n l `{!Total na} :
  (0 < n)%nat ->
  (forall x y, x ∈ l -> y ∈ l -> na x y -> na y x -> x = y) ->
  foldl (top_step before n) [] l ≡ₚ take n (merge_sort na l).
Proof.
  intros Hn Hanti. rewrite <- (top_fold_sort n l) by done. by rewrite merge_sort_Permutation.
Qed.

End TopN.

(** ** The orders of the store are total *)

Lemma row_before_refl asc x : not_after (rowComesBefore asc) x x.
Proof. unfold not_after, rowComesBefore. zbool; done || lia. Qed.

Lemma row_before_trans asc x y z :
  not_after (rowComesBefore asc) x y -> not_after (rowComesBefore asc) y z ->
  not_after (rowComesBefore asc) x z.
Proof. unfold not_after, rowComesBefore. destruct asc; zbool; try done; lia. Qed.

Lemma row_before_asym asc x y : rowComesBefore asc x y = true -> not_after (rowComesBefore asc) x y.
Proof. unfold not_after, rowComesBefore. destruct asc; zbool; try done; lia. Qed.

#[export] Instance row_before_total asc : Total (not_after (rowComesBefore asc)).
Proof. intros x y. unfold not_after, rowComesBefore. destruct asc; zbool; auto; lia. Qed.

Lemma row_before_anti asc x y :
  not_after (rowComesBefore asc) x y -> not_after (rowComesBefore asc) y x -> x = y.
Proof.
  destruct x as [r t], y as [r' t']. unfold not_after, rowComesBefore. cbn [rc_row rc_ts].
  destruct asc; zbool; try done; try lia; intros; f_equal; lia.
Qed.

Lemma entry_before_refl asc x : not_after (entryComesBefore asc) x x.
Proof. unfold not_after, entryComesBefore. zbool; done || lia. Qed.

Lemma entry_before_trans asc x y z :
  not_after (entryComesBefore asc) x y -> not_after (entryComesBefore asc) y z ->
  not_after (entryComesBefore asc) x z.
Proof. unfold not_after, entryComesBefore. destruct asc; zbool; try done; lia. Qed.

Lemma entry_before_asym asc x y : entryComesBefore asc x y = true -> not_after (entryComesBefore asc) x y.
Proof. unfold not_after, entryComesBefore. destruct asc; zbool; try done; lia. Qed.

#[export] Instance entry_before_total asc : Total (not_after (entryComesBefore asc)).
Proof. intros x y. unfold not_after, entryComesBefore. destruct asc; zbool; auto; lia. Qed.

(** Two entries that tie in both directions have one ID. *)
Lemma entry_before_anti asc x y :
  not_after (entryComesBefore asc) x y -> not_after (entryComesBefore asc) y x -> ID x = ID y.
Proof. unfold not_after, entryComesBefore. destruct asc; zbool; try done; lia. Qed.

(** Entries with distinct IDs are determined by their position in the order. *)
Definition distinct_ids (es : list Entry) : Prop := NoDup (ID <$> es).

Lemma distinct_ids_inj es x y :
  distinct_ids es -> x ∈ es -> y ∈ es -> ID x = ID y -> x = y.
Proof.
  intros Hd [i Hi]%list_elem_of_lookup_1 [j Hj]%list_elem_of_lookup_1 E.
  assert (i = j) as ->; [| congruence].
  apply (NoDup_lookup (ID <$> es) i j (ID x)); [done | |];
    rewrite list_lookup_fmap; [by rewrite Hi | rewrite Hj, E; done].
Qed.

Lemma distinct_ids_perm es es' : es ≡ₚ es' -> distinct_ids es -> distinct_ids es'.
Proof. intros Hp. unfold distinct_ids. by rewrite Hp. Qed.

Lemma distinct_ids_anti asc es x y :
  distinct_ids es -> x ∈ es -> y ∈ es -> not_after (entryComesBefore asc) x y ->
  not_after (entryComesBefore asc) y x -> x = y.
Proof.
  intros Hd Hx Hy H1 H2. apply (distinct_ids_inj es); [done | done | done |].
  by apply (entry_before_anti asc).
Qed.

(** A heap of at most [n] entries sorts to the first [n] of them. *)
Lemma entries_top asc n es :
  (0 < n)%nat -> distinct_ids es ->
  foldl (top_step (entryComesBefore asc) n) [] es ≡ₚ take n (sortEntriesByTs es asc).
Proof.
  intros Hn Hd. apply top_fold_perm.
  - apply entry_before_refl.
  - apply entry_before_trans.
  - apply entry_before_asym.
  - apply _.
  - done.
  - intros x y. by apply distinct_ids_anti.
Qed.

Lemma sortEntries_perm asc es es' :
  distinct_ids es -> es ≡ₚ es' -> sortEntriesByTs es asc = sortEntriesByTs es' asc.
Proof.
  intros Hd Hp. unfold sortEntriesByTs.
  assert (Transitive (not_after (entryComesBefore asc))) as Ht
    by (intros x y z; apply entry_before_trans).
  apply (StronglySorted_unique_strong (not_after (entryComesBefore asc))).
  - intros x y Hx Hy. rewrite merge_sort_Permutation in Hx.
    rewrite merge_sort_Permutation, <- Hp in Hy. by apply (distinct_ids_anti asc es).
  - apply StronglySorted_merge_sort; apply _.
  - apply StronglySorted_merge_sort; apply _.
  - by rewrite !merge_sort_Permutation.
Qed.

Lemma capEntries_perm asc es max :
  0 < max -> distinct_ids es ->
  capEntriesByTs es asc max ≡ₚ take (Z.to_nat max) (sortEntriesByTs es asc).
Proof.
  intros Hm Hd. unfold capEntriesByTs. rewrite (proj2 (Z.leb_gt max 0)) by lia. cbn [orb].
  destruct (Z.leb_spec (len es) max) as [Hle | Hgt]; [| done].
  rewrite take_ge; [unfold sortEntriesByTs; by rewrite merge_sort_Permutation |].
  unfold sortEntriesByTs. rewrite merge_sort_Permutation. unfold len in Hle. lia.
Qed.

(** ** The rows of a page *)

(** The first [n] rows in the order of the page, as a reference. *)
Definition first_rows (tsValues rows : list Z) (asc : bool) (n : Z) : list Z :=
  rc_row <$> take (Z.to_nat n) (merge_sort (not_after (rowComesBefore asc))
    ((fun row => mkCandidate row (tsAt tsValues row)) <$> rows)).

Lemma sorted_Z_unique (l l' : list Z) : StronglySorted Z.le l -> StronglySorted Z.le l' -> l ≡ₚ l' -> l = l'.
Proof. apply StronglySorted_unique. intros x y. lia. Qed.

Lemma candidate_rows (f : Z -> Z) (rows : list Z) :
  rc_row <$> ((fun row => mkCandidate row (f row)) <$> rows) = rows.
Proof. induction rows as [| r rows IH]; [done |]. rewrite !fmap_cons, IH. done. Qed.

Lemma selectTopRows_lemma tsValues rows asc n :
  0 < n -> StronglySorted Z.lt rows ->
  selectTopRows tsValues rows asc n = merge_sort Z.le (first_rows tsValues rows asc n).
Proof.
  intros Hn Hs. unfold selectTopRows. rewrite (proj2 (Z.leb_gt n 0)) by lia. cbn [orb].
  set (cand := fun row => mkCandidate row (tsAt tsValues row)).
  assert (Transitive Z.le) as Ht by (intros x y z; lia).
  assert (Total Z.le) as Hto by (intros x y; lia).
  apply sorted_Z_unique; [| apply StronglySorted_merge_sort; apply _ |].
  - destruct (len rows <=? n); [| apply StronglySorted_merge_sort; apply _].
    induction Hs as [| x l Hs IH Hx]; constructor; [done |].
    eapply list.Forall_impl; [exact Hx |]. intros; lia.
  - etransitivity; [| symmetry; apply merge_sort_Permutation]. unfold first_rows. fold cand.
    destruct (Z.leb_spec (len rows) n) as [Hle | Hgt].
    + rewrite take_ge; [| rewrite merge_sort_Permutation, length_fmap; unfold len in Hle; lia].
      rewrite merge_sort_Permutation. unfold cand. by rewrite candidate_rows.
    + rewrite merge_sort_Permutation. apply fmap_Permutation.
      assert (forall h, foldl (fun h row => top_step (rowComesBefore asc) (Z.to_nat n) h (cand row)) h rows =
        foldl (top_step (rowComesBefore asc) (Z.to_nat n)) h (cand <$> rows)) as ->.
      { clear. induction rows as [| r rows IH]; intros h; [done |]. cbn [foldl fmap list_fmap].
        apply IH. }
      apply top_fold_perm; [apply row_before_refl | apply row_before_trans | apply row_before_asym
        | apply _ | lia |].
      intros x y _ _. apply row_before_anti.
Qed.

(** ** Properties *)

(** The bounded heap picks the page: for rows in ascending order,
    [selectTopRows] returns, in ascending row order, exactly the first [n] rows of
    the list sorted by timestamp in the caller's direction with ties by row, and
    the same heap run over entries with distinct IDs holds the first [n] of them. *)
Theorem top_rows_correct (tsValues rows : list Z) (es : list Entry) (asc : bool) (n : Z) :
  0 < n -> StronglySorted Z.lt rows -> distinct_ids es ->
  selectTopRows tsValues rows asc n = merge_sort Z.le (first_rows tsValues rows asc n) /\
  sortEntriesByTs (foldl (top_step (entryComesBefore asc) (Z.to_nat n)) [] es) asc =
    take (Z.to_nat n) (sortEntriesByTs es asc).
Proof.
  intros Hn Hs Hd. split; [by apply selectTopRows_lemma |].
  apply top_fold_sort; [apply entry_before_refl | apply entry_before_trans
    | apply entry_before_asym | apply _ | lia |].
  intros x y. by apply distinct_ids_anti.
Qed.

Lemma top_rows_correct_witness :
  selectTopRows [30; 10; 20; 30] [0; 1; 2; 3] false 3 = [0; 2; 3].
Proof.
  destruct (top_rows_correct [30; 10; 20; 30] [0; 1; 2; 3] [] false 3) as [E _];
    [lia | repeat constructor | constructor |].
  rewrite E. vm_compute. reflexivity.
Defined.
