(* ===== verification/Pages.v ===== *)
(** * Merging pages (engine/store.go)

    A page needs only the first entries of each source: the beginning of the
    sorted concatenation is determined by the beginnings of the sorted parts. *)

From stdpp Require Import base list gmap strings numbers sorting.
From Stdlib Require Import ZArith Lia.
From S2P Require Import Prelude Schema TopN.

Section Merge.
Context {A : Type} (R : A -> A -> Prop) `{!forall x y, Decision (R x y)}.

(** The first [n] of a merge come from the first [n] of both sides. *)
Lemma take_list_merge n m k (a b : list A) :
  (n <= m)%nat -> (n <= k)%nat ->
  take n (list_merge R a b) = take n (list_merge R (take m a) (take k b)).
Proof.
  revert m k a b. induction n as [| n IH]; intros m k a b Hm Hk; [done |].
  destruct m as [| m]; [lia |]. destruct k as [| k]; [lia |].
  destruct a as [| x a]; [cbn; destruct b as [| y b]; [done |] |].
  - cbn [take list_merge]. f_equal. rewrite take_take. f_equal. lia.
  - destruct b as [| y b].
    + cbn [take list_merge]. f_equal. rewrite take_take. f_equal. lia.
    + cbn [take]. rewrite !list_merge_cons. case_decide; cbn [take]; f_equal.
      * change (y :: take k b) with (take (S k) (y :: b)). apply IH; lia.
      * change (x :: take m a) with (take (S m) (x :: a)). apply IH; lia.
Qed.

End Merge.

(** An order of entries that distinct IDs make strict. *)
Class EntryOrder (before : Entry -> Entry -> bool) : Prop := {
  order_trans x y z : not_after before x y -> not_after before y z -> not_after before x z;
  order_total x y : not_after before x y \/ not_after before y x;
  order_anti x y : not_after before x y -> not_after before y x -> ID x = ID y
}.

#[export] Instance by_ts_order asc : EntryOrder (entryComesBefore asc).
Proof.
  split; [apply entry_before_trans | apply entry_before_total | apply entry_before_anti].
Qed.

Lemma distinct_ids_submseteq l l' : l ⊆+ l' -> distinct_ids l' -> distinct_ids l.
Proof.
  intros [k Hk]%submseteq_Permutation Hd. unfold distinct_ids in *. rewrite Hk, fmap_app in Hd.
  by apply NoDup_app in Hd as [Hd _].
Qed.

Lemma distinct_ids_app_r l1 l2 : distinct_ids (l1 ++ l2) -> distinct_ids l2.
Proof. unfold distinct_ids. rewrite fmap_app. by intros (_ & _ & ?)%NoDup_app. Qed.

Section Pages.
Context (before : Entry -> Entry -> bool) {EO : EntryOrder before}.

#[local] Abbreviation na := (not_after before).
#[local] Abbreviation sort l := (merge_sort na l).

#[local] Instance na_trans : Transitive na.
Proof. intros x y z. apply order_trans. Qed.

#[local] Instance na_total : Total na.
Proof. intros x y. apply order_total. Qed.

Lemma sort_by_sorted (l : list Entry) : StronglySorted na (sort l).
Proof. apply StronglySorted_merge_sort; apply _. Qed.

Lemma order_eq es x y : distinct_ids es -> x ∈ es -> y ∈ es -> na x y -> na y x -> x = y.
Proof.
  intros Hd Hx Hy H1 H2. apply (distinct_ids_inj es); [done | done | done |]. by apply order_anti.
Qed.

(** A sorted list of distinct entries is its own sort. *)
Lemma sort_by_unique l l' : distinct_ids l -> StronglySorted na l' -> l ≡ₚ l' -> sort l = l'.
Proof.
  intros Hd Hs Hp. apply (StronglySorted_unique_strong na); [| apply sort_by_sorted | done |].
  - intros x y Hx Hy. rewrite merge_sort_Permutation in Hx. rewrite <- Hp in Hy. by apply (order_eq l).
  - by rewrite merge_sort_Permutation.
Qed.

Lemma sort_by_perm l l' : distinct_ids l -> l ≡ₚ l' -> sort l = sort l'.
Proof.
  intros Hd Hp. apply sort_by_unique; [done | apply sort_by_sorted |].
  by rewrite merge_sort_Permutation.
Qed.

Lemma sort_by_app l1 l2 : distinct_ids (l1 ++ l2) -> sort (l1 ++ l2) = list_merge na (sort l1) (sort l2).
Proof.
  intros Hd. apply sort_by_unique; [done | |].
  - apply Sorted_StronglySorted; [apply _ |].
    apply Sorted_list_merge; [apply _ | |]; apply StronglySorted_Sorted, sort_by_sorted.
  - by rewrite merge_Permutation, !merge_sort_Permutation.
Qed.

(** [r] can stand for [l] in any page of [n] entries. *)
Definition page_of_source (n : nat) (l r : list Entry) : Prop :=
  r ⊆+ l /\ take n (sort r) = take n (sort l).

Lemma page_source_refl n l : page_of_source n l l.
Proof. by split. Qed.

Lemma page_source_app n l1 l2 r1 r2 :
  distinct_ids (l1 ++ l2) -> page_of_source n l1 r1 -> page_of_source n l2 r2 ->
  page_of_source n (l1 ++ l2) (r1 ++ r2).
Proof.
  intros Hd [S1 E1] [S2 E2]. assert (r1 ++ r2 ⊆+ l1 ++ l2) as Hs by (by apply submseteq_app).
  split; [done |]. rewrite !sort_by_app by (done || by eapply distinct_ids_submseteq).
  rewrite (take_list_merge na n n n (sort r1)), (take_list_merge na n n n (sort l1)) by done.
  by rewrite E1, E2.
Qed.

Lemma page_source_concat n ls rs :
  distinct_ids (concat ls) -> Forall2 (page_of_source n) ls rs ->
  page_of_source n (concat ls) (concat rs).
Proof.
  intros Hd H. induction H as [| l r ls rs Hl H IH]; [apply page_source_refl |].
  cbn [concat] in *. apply page_source_app; [done | done |]. apply IH. by eapply distinct_ids_app_r.
Qed.

Lemma take_sort_sorted n l : distinct_ids l -> sort (take n (sort l)) = take n (sort l).
Proof.
  intros Hd. apply sort_by_unique; [| | done].
  - apply (distinct_ids_submseteq _ l); [| done]. rewrite <- (merge_sort_Permutation na l) at 2.
    apply sublist_submseteq, sublist_take.
  - pose proof (sort_by_sorted l) as Hs. rewrite <- (take_drop n (sort l)) in Hs.
    by apply StronglySorted_app_1_l in Hs.
Qed.

Lemma page_source_perm n l r r' :
  distinct_ids l -> r ≡ₚ r' -> page_of_source n l r -> page_of_source n l r'.
Proof.
  intros Hd Hp [Hs E]. split; [by rewrite <- Hp |]. rewrite <- E. f_equal.
  symmetry. apply sort_by_perm; [by eapply distinct_ids_submseteq | done].
Qed.

Lemma page_source_trans n l r s :
  page_of_source n l r -> page_of_source n r s -> page_of_source n l s.
Proof. intros [H1 E1] [H2 E2]. split; [by etransitivity | congruence]. Qed.

(** The first [n] stand for the whole. *)
Lemma page_source_take n l : distinct_ids l -> page_of_source n l (take n (sort l)).
Proof.
  intros Hd. split.
  - rewrite <- (merge_sort_Permutation na l) at 2. apply sublist_submseteq, sublist_take.
  - rewrite take_sort_sorted by done. by rewrite take_take, Nat.min_id.
Qed.

End Pages.

(** ** The pages of a search, by event time *)

Section ByTs.
Context (asc : bool).

#[local] Abbreviation sort l := (sortEntriesByTs l asc).
#[local] Abbreviation before := (entryComesBefore asc).

Lemma sort_perm_id (l : list Entry) : sort l ≡ₚ l.
Proof. apply merge_sort_Permutation. Qed.

Lemma sort_sorted (l : list Entry) : StronglySorted (not_after before) (sort l).
Proof. apply (sort_by_sorted before). Qed.

Lemma sort_unique l l' :
  distinct_ids l -> StronglySorted (not_after before) l' -> l ≡ₚ l' -> sort l = l'.
Proof. apply (sort_by_unique before). Qed.

Lemma page_source_cap n l :
  0 < n -> distinct_ids l -> page_of_source before (Z.to_nat n) l (capEntriesByTs l asc n).
Proof.
  intros Hn Hd. apply (page_source_perm _ _ _ (take (Z.to_nat n) (sort l))); [done | |].
  - symmetry. by apply capEntries_perm.
  - by apply (page_source_take before).
Qed.

Lemma page_source_top n l :
  0 < n -> distinct_ids l ->
  page_of_source before (Z.to_nat n) l (foldl (top_step before (Z.to_nat n)) [] l).
Proof.
  intros Hn Hd. apply (page_source_perm _ _ _ (take (Z.to_nat n) (sort l))); [done | |].
  - symmetry. apply entries_top; [lia | done].
  - by apply (page_source_take before).
Qed.

End ByTs.
