(* ===== verification/Query.v ===== *)
(** * Search parameters and what an entry must satisfy (engine/query.go, store.go)

    [SearchParams] with its defaults, and [matchesParams] with the predicates it
    is made of: case-insensitive equality, the handler and path tests, the
    token semantics of a full-text query, metadata and exclusion filters. *)

From stdpp Require Import base list gmap strings numbers sorting.
From Stdlib Require Import ZArith Lia.
From S2P Require Import Prelude Zstd Schema Index Ids.

(** ** Strings *)

(** [strings.EqualFold] and [strings.TrimSpace]: Unicode tables of the Go library. *)
Class Text := {
  EqualFold : bytes -> bytes -> bool;
  TrimSpace : bytes -> bytes
}.

(** [EqualFold] is an equivalence: equality under simple case folding. *)
Class TextLaws (T : Text) : Prop := {
  EqualFold_refl s : EqualFold s s = true;
  EqualFold_sym s t : EqualFold s t = EqualFold t s
}.

(** encoding/json on an entry's body: the [metadata] object of the document, each
    value rendered with [fmt.Sprintf("%v")]; [None] when the body is not an
    object or carries no such object. *)
Class BodyJSON := { body_metadata : bytes -> option (gmap bytes bytes) }.

Definition nonempty (s : bytes) : bool := negb (bool_decide (s = [])).

(** [strings.Contains] *)
Fixpoint Contains (s sub : bytes) : bool :=
  bool_decide (take (length sub) s = sub) ||
  match s with [] => false | _ :: s => Contains s sub end.

(** [strings.Index(s, c)] for a one-byte string: [None] is -1. *)
Fixpoint IndexByte (s : bytes) (c : Z) : option nat :=
  match s with
  | [] => None
  | b :: s => if b =? c then Some O else S <$> IndexByte s c
  end.

(** [strings.Split(s, c)] for a one-byte separator. *)
Fixpoint split_loop (s : bytes) (c : Z) (cur : bytes) : list bytes :=
  match s with
  | [] => [cur]
  | b :: s => if b =? c then cur :: split_loop s c [] else split_loop s c (cur ++ [b])
  end.

Definition Split (s : bytes) (c : Z) : list bytes := split_loop s c [].

(** ** Parameters *)

(** A time is its nanoseconds since 1970; a nil pointer is [None]. *)
Record SearchParams := mkParams {
  p_Query : bytes;
  p_Service : bytes;
  p_Level : bytes;
  p_Env : bytes;
  p_TraceID : bytes;
  p_RequestID : bytes;
  p_UserID : bytes;
  p_TenantID : bytes;
  p_EventType : bytes;
  p_ErrorClass : bytes;
  p_ErrorFingerprint : bytes;
  p_SourceFile : bytes;
  p_CommitHash : bytes;
  p_Method : bytes;
  p_Path : bytes;
  p_Handler : bytes;
  p_MinDurationMs : Z;
  p_PositiveDurationOnly : bool;
  p_MinSQLCount : Z;
  p_NPlusOneOnly : bool;
  p_RequestsOnly : bool;
  p_MetadataFilter : gmap bytes bytes;
  p_Exclude : gmap bytes bytes;
  p_Start : option Z;
  p_End : option Z;
  p_SinceID : Z;
  p_Limit : Z;
  p_Offset : Z;
  p_SortAsc : bool;
  p_OmitBody : bool
}.

(** [SearchParams{}] *)
Definition Params0 : SearchParams :=
  mkParams [] [] [] [] [] [] [] [] [] [] [] [] [] [] [] [] 0 false 0 false false ∅ ∅ None None
    0 0 0 false false.

(** [filterParams.Query = ""] *)
Definition without_query (p : SearchParams) : SearchParams :=
  mkParams [] (p_Service p) (p_Level p) (p_Env p) (p_TraceID p) (p_RequestID p) (p_UserID p)
    (p_TenantID p) (p_EventType p) (p_ErrorClass p) (p_ErrorFingerprint p) (p_SourceFile p)
    (p_CommitHash p) (p_Method p) (p_Path p) (p_Handler p) (p_MinDurationMs p)
    (p_PositiveDurationOnly p) (p_MinSQLCount p) (p_NPlusOneOnly p) (p_RequestsOnly p)
    (p_MetadataFilter p) (p_Exclude p) (p_Start p) (p_End p) (p_SinceID p) (p_Limit p)
    (p_Offset p) (p_SortAsc p) (p_OmitBody p).

(** The assignments to [params.Limit], [params.Start] and [params.End]. *)
Definition with_page (limit : Z) (start stop : option Z) (p : SearchParams) : SearchParams :=
  mkParams (p_Query p) (p_Service p) (p_Level p) (p_Env p) (p_TraceID p) (p_RequestID p)
    (p_UserID p) (p_TenantID p) (p_EventType p) (p_ErrorClass p) (p_ErrorFingerprint p)
    (p_SourceFile p) (p_CommitHash p) (p_Method p) (p_Path p) (p_Handler p) (p_MinDurationMs p)
    (p_PositiveDurationOnly p) (p_MinSQLCount p) (p_NPlusOneOnly p) (p_RequestsOnly p)
    (p_MetadataFilter p) (p_Exclude p) start stop (p_SinceID p) limit
    (p_Offset p) (p_SortAsc p) (p_OmitBody p).

(** ** Predicates *)

Definition dictColumnValue (e : Entry) (column : bytes) : bytes :=
  if bool_decide (column = str "service") then Service e
  else if bool_decide (column = str "level") then Level e
  else if bool_decide (column = str "env") then Env e
  else if bool_decide (column = str "event_type") then EventType e
  else [].

Definition scanColumnValue (e : Entry) (column : bytes) : bytes * bool :=
  if bool_decide (column = str "error_fingerprint") then (ErrorFingerprint e, true)
  else if bool_decide (column = str "error_class") then (ErrorClass e, true)
  else if bool_decide (column = str "user_id") then (UserID e, true)
  else if bool_decide (column = str "tenant_id") then (TenantID e, true)
  else if bool_decide (column = str "trace_id") then (TraceID e, true)
  else if bool_decide (column = str "request_id") then (RequestID e, true)
  else if bool_decide (column = str "path") then (Path e, true)
  else if bool_decide (column = str "handler") then (Handler e, true)
  else if bool_decide (column = str "host") then (Host e, true)
  else ([], false).

Definition excludableField (e : Entry) (field : bytes) : bytes :=
  if nonempty (dictColumnValue e field) then dictColumnValue e field
  else (scanColumnValue e field).1.

Section Predicates.
Context {U : Unicode} {T : Text} {J : BodyJSON}.

Definition isRequestEntry (e : Entry) : bool :=
  (EqualFold (Kind e) (str "request") || EqualFold (EventType e) (str "http.request")) ||
  ((0 <? DurationMs e) && (nonempty (Method e) || nonempty (Path e) || nonempty (Handler e))).

(** ['#'] is 35. *)
Definition handlerMatches (stored want : bytes) : bool :=
  if EqualFold stored want then true
  else match IndexByte stored 35 with
       | Some i => EqualFold (take i stored) want
       | None => false
       end.

Definition containsFold (stored want : bytes) : bool :=
  Contains (ToLower stored) (ToLower want).

Definition messageMatchesQuery (message query : bytes) : bool :=
  let tokens := TokenizeUnique query in
  if len tokens =? 0 then false
  else forallb (fun t => bool_decide (t ∈ Tokenize message)) tokens.

Definition entryMetadata (e : Entry) : option (gmap bytes bytes) :=
  if len (Body e) =? 0 then None else body_metadata (Body e).

Definition matchesMetadata (e : Entry) (filter : gmap bytes bytes) : bool :=
  if bool_decide (filter = ∅) then true
  else match entryMetadata e with
       | None => false
       | Some meta => forallb (fun kw => bool_decide (meta !! kw.1 = Some kw.2)) (map_to_list filter)
       end.

(** [','] is 44. *)
Definition matchesExclude (e : Entry) (exclude : gmap bytes bytes) : bool :=
  forallb (fun fl =>
    let value := excludableField e fl.1 in
    if negb (nonempty value) then true
    else forallb (fun v => negb (nonempty (TrimSpace v) && EqualFold (TrimSpace v) value))
           (Split fl.2 44))
    (map_to_list exclude).

Definition needsPostReadFilter (p : SearchParams) : bool :=
  negb (bool_decide (p_MetadataFilter p = ∅)) || negb (bool_decide (p_Exclude p = ∅)).

Definition matchesParams (e : Entry) (p : SearchParams) : bool :=
  if nonempty (p_Service p) && negb (EqualFold (Service e) (p_Service p)) then false
  else if nonempty (p_Level p) && negb (EqualFold (Level e) (p_Level p)) then false
  else if nonempty (p_Env p) && nonempty (Env e) && negb (EqualFold (Env e) (p_Env p)) then false
  else if nonempty (p_TraceID p) && negb (bool_decide (TraceID e = p_TraceID p)) then false
  else if nonempty (p_RequestID p) && negb (bool_decide (RequestID e = p_RequestID p)) then false
  else if nonempty (p_UserID p) && negb (bool_decide (UserID e = p_UserID p)) then false
  else if nonempty (p_EventType p) && negb (EqualFold (EventType e) (p_EventType p)) then false
  else if nonempty (p_ErrorClass p) && negb (EqualFold (ErrorClass e) (p_ErrorClass p)) then false
  else if nonempty (p_ErrorFingerprint p) &&
          negb (bool_decide (ErrorFingerprint e = p_ErrorFingerprint p)) then false
  else if nonempty (p_TenantID p) && negb (bool_decide (TenantID e = p_TenantID p)) then false
  else if nonempty (p_SourceFile p) && negb (EqualFold (SourceFile e) (p_SourceFile p)) then false
  else if nonempty (p_CommitHash p) && negb (EqualFold (Version e) (p_CommitHash p)) then false
  else if (0 <? p_SinceID p) && (ID e <=? p_SinceID p) then false
  else if nonempty (p_Method p) && negb (EqualFold (Method e) (p_Method p)) then false
  else if nonempty (p_Path p) && negb (Contains (ToLower (Path e)) (ToLower (p_Path p))) then false
  else if p_RequestsOnly p && negb (isRequestEntry e) then false
  else if nonempty (p_Handler p) && negb (handlerMatches (Handler e) (p_Handler p)) then false
  else if (0 <? p_MinDurationMs p) && (DurationMs e <? p_MinDurationMs p) then false
  else if p_PositiveDurationOnly p && (DurationMs e <=? 0) then false
  else if (0 <? p_MinSQLCount p) && (DbCount e <? p_MinSQLCount p) then false
  else if p_NPlusOneOnly p && negb (default false (NPlusOne e)) then false
  else if nonempty (p_Query p) && negb (messageMatchesQuery (Message e) (p_Query p)) then false
  else if negb (matchesMetadata e (p_MetadataFilter p)) then false
  else if negb (matchesExclude e (p_Exclude p)) then false
  else if match p_Start p with Some t => Ts e <? UnixMilli t | None => false end then false
  else if match p_End p with Some t => UnixMilli t <? Ts e | None => false end then false
  else true.

End Predicates.
