(* ===== verification/Filter.v ===== *)
(** * Narrowing a chunk's rows by its columns (engine/store.go)

    A scan is a computation over the memoised columns of one chunk: it reads
    whole columns and filters row numbers.  [applyColumnFilters] applies every
    filter a column can decide, in the order of the code; [openChunkRows] first
    resolves the full-text query through the chunk's inverted index. *)

From stdpp Require Import base list gmap strings numbers sorting.
From Stdlib Require Import ZArith Lia.
From S2P Require Import Prelude Zstd Schema Chunk Cache Rows Index Ids Query.

(** ** Scans *)

Definition scan_m (T : Type) : Type := chunkColumns -> chunkColumns * result T.

#[export] Instance scan_ret : MRet scan_m := fun A a c => (c, Ok a).
#[export] Instance scan_bind : MBind scan_m := fun A B f m c =>
  match m c with
  | (c, Ok a) => f a c
  | (c, Err e) => (c, Err e)
  | (c, Panic) => (c, Panic)
  end.

(** A column method, its error wrapped with [fmt.Errorf("msg: %w")]. *)
Definition column {A} (msg : string)
  (read : chunkColumns -> string -> chunkColumns * result (list A)) (name : string)
  : scan_m (list A) :=
  fun c => let '(c, v) := read c name in (c, wrap msg v).

Definition has_column (name : string) : scan_m bool := fun c => (c, Ok (hasColumn c name)).

Definition keepRows (rows : list Z) (keep : Z -> bool) : list Z :=
  filter (fun row => keep row = true) rows.

(** [row < len(values) && f(values[row])] *)
Definition row_test {A} (values : list A) (f : A -> bool) (row : Z) : bool :=
  (row <? len values) && match values !! Z.to_nat row with Some v => f v | None => false end.

(** [0] is no column type. *)
Definition getColumnType (name : string) : option ColumnType :=
  match ColumnIndex !! name with
  | Some idx => Type_ <$> Schema !! Z.to_nat idx
  | None => None
  end.

(** The result of a stage that may end the whole filter with [return nil, nil]. *)
Definition stage : Type := option (list Z).

Definition if_left (rows : list Z) : stage :=
  if len rows =? 0 then None else Some rows.

Definition and_then (m : scan_m stage) (k : list Z -> scan_m (list Z)) : scan_m (list Z) :=
  r ← m; match r with None => mret [] | Some rows => k rows end.

Section Filters.
Context {C : Zstd} {U : Unicode} {T : Text}.

Definition filterByColumn (colName : string) (value : bytes) (rows : list Z) : scan_m (list Z) :=
  if negb (nonempty value) then mret rows
  else
    let colType := getColumnType colName in
    let finish (values : list bytes) : scan_m (list Z) :=
      let legacyWildcard := bool_decide (colName = "env") in
      mret (filter (fun row =>
              row_test values (fun v =>
                if legacyWildcard && negb (nonempty v) then true else EqualFold v value) row = true)
              rows) in
    match colType with
    | Some ColDictBitpack => values ← column "read column" dictBitpack colName; finish values
    | Some ColDictZstd => values ← column "read column" dictZstd colName; finish values
    | _ => mret rows
    end.

Definition filterBySparseColumn (colName : string) (value : bytes) (rows : list Z)
  : scan_m (list Z) :=
  if negb (nonempty value) then mret rows
  else
    has ← has_column colName;
    if has : bool then
      values ← column "read sparse column" sparseStrings colName;
      mret (filter (fun row => row_test values (fun v => EqualFold v value) row = true) rows)
    else mret [].

Definition filterByTimeRange (now : Z) (start stop : option Z) (rows : list Z) : scan_m (list Z) :=
  tsValues ← column "read ts column for time filter" zstdInt64 "ts";
  let startMs := match start with Some t => UnixMilli t | None => 0 end in
  let endMs := match stop with Some t => UnixMilli t | None => UnixMilli now end in
  mret (filter (fun row =>
    row_test tsValues (fun ts => (startMs <=? ts) && (ts <=? endMs)) row = true) rows).

(** The loop over [strFilters]. *)
Fixpoint string_filters (fs : list (string * bytes * (bytes -> bytes -> bool))) (rows : list Z)
  : scan_m stage :=
  match fs with
  | [] => mret (Some rows)
  | (col, value, match_) :: fs =>
      if negb (nonempty value) then string_filters fs rows
      else
        has ← has_column col;
        if has : bool then
          values ← column "read sparse column" sparseStrings col;
          match if_left (keepRows rows (row_test values (fun v => match_ v value))) with
          | None => mret None
          | Some rows => string_filters fs rows
          end
        else mret None
  end.

(** [values[row] != nil && *values[row] >= int64(f.min)] *)
Definition at_least (min : Z) (v : option Z) : bool :=
  match v with Some x => min <=? x | None => false end.

(** The loop over [intFilters]. *)
Fixpoint int_filters (fs : list (string * Z)) (rows : list Z) : scan_m stage :=
  match fs with
  | [] => mret (Some rows)
  | (col, min) :: fs =>
      if min <=? 0 then int_filters fs rows
      else
        values ← column "read sparse column" sparseInt64 col;
        match if_left (keepRows rows (row_test values (at_least min))) with
        | None => mret None
        | Some rows => int_filters fs rows
        end
  end.

Definition n_plus_one_filter (p : SearchParams) (rows : list Z) : scan_m stage :=
  if p_NPlusOneOnly p then
    values ← column "read sparse column n_plus_one" sparseBool "n_plus_one";
    mret (if_left (keepRows rows (row_test values (default false))))
  else mret (Some rows).

Definition since_filter (p : SearchParams) (rows : list Z) : scan_m stage :=
  if 0 <? p_SinceID p then
    ids ← column "read id column" deltaInt64 "id";
    mret (if_left (keepRows rows (row_test ids (fun id => p_SinceID p <? id))))
  else mret (Some rows).

(** [at]: the value of the row, or the empty string past the end. *)
Definition at_row (v : list bytes) (row : Z) : bytes :=
  if row <? len v then default [] (v !! Z.to_nat row) else [].

Definition filterRequestRows (rows : list Z) : scan_m (list Z) :=
  kinds ← column "read kind column" dictZstd "kind";
  eventTypes ← column "read event_type column" sparseStrings "event_type";
  durations ← column "read duration_ms column" sparseInt64 "duration_ms";
  methods ← column "read method column" sparseStrings "method";
  paths ← column "read path column" sparseStrings "path";
  handlers ← column "read handler column" sparseStrings "handler";
  mret (keepRows rows (fun row =>
    if EqualFold (at_row kinds row) (str "request") ||
       EqualFold (at_row eventTypes row) (str "http.request") then true
    else if negb (row_test durations (fun d => match d with Some d => 0 <? d | None => false end) row)
    then false
    else nonempty (at_row methods row) || nonempty (at_row paths row) ||
         nonempty (at_row handlers row))).

Definition applyScalarColumnFilters (p : SearchParams) (rows : list Z) : scan_m (list Z) :=
  let strFilters := [
    ("tenant_id", p_TenantID p, EqualFold);
    ("source_file", p_SourceFile p, EqualFold);
    ("version", p_CommitHash p, EqualFold);
    ("method", p_Method p, EqualFold);
    ("path", p_Path p, containsFold);
    ("handler", p_Handler p, handlerMatches)
  ] in
  let duration_min :=
    if p_PositiveDurationOnly p && (p_MinDurationMs p <=? 0) then 1 else p_MinDurationMs p in
  let intFilters := [("duration_ms", duration_min); ("db_count", p_MinSQLCount p)] in
  and_then (string_filters strFilters rows) (fun rows =>
  and_then (int_filters intFilters rows) (fun rows =>
  and_then (n_plus_one_filter p rows) (fun rows =>
  and_then (since_filter p rows) (fun rows =>
  if p_RequestsOnly p then filterRequestRows rows else mret rows)))).

Fixpoint dict_filters (fs : list (string * bytes)) (rows : list Z) : scan_m (list Z) :=
  match fs with
  | [] => mret rows
  | (col, value) :: fs => rows ← filterByColumn col value rows; dict_filters fs rows
  end.

Fixpoint sparse_filters (fs : list (string * bytes)) (rows : list Z) : scan_m (list Z) :=
  match fs with
  | [] => mret rows
  | (col, value) :: fs => rows ← filterBySparseColumn col value rows; sparse_filters fs rows
  end.

Definition applyColumnFilters (now : Z) (p : SearchParams) (rows : list Z) : scan_m (list Z) :=
  let dictFilters := [("level", p_Level p); ("service", p_Service p); ("env", p_Env p)] in
  let sparseFilters := [
    ("trace_id", p_TraceID p);
    ("request_id", p_RequestID p);
    ("user_id", p_UserID p);
    ("event_type", p_EventType p);
    ("error_class", p_ErrorClass p);
    ("error_fingerprint", p_ErrorFingerprint p)
  ] in
  rows ← dict_filters dictFilters rows;
  rows ← sparse_filters sparseFilters rows;
  rows ← (match p_Start p, p_End p with
          | None, None => mret rows
          | _, _ => filterByTimeRange now (p_Start p) (p_End p) rows
          end);
  applyScalarColumnFilters p rows.

End Filters.

(** ** What the filters compute *)

Section FilterLemmas.
Context {C : Zstd} {L : ZstdLaws C} {W : World} {U : Unicode} {T : Text}.
Context (r : Reader) (entries : list Entry).
Hypothesis Hgood : Forall (fun col => HasColumn r (Name col) = true /\ reads r entries col) Schema.

(** A scan returns [v], whatever true decodings the caches hold, and leaves such
    caches behind. *)
Definition runs {A} (m : scan_m A) (v : A) : Prop :=
  forall cols, cols_ok r entries cols ->
    exists cols', m cols = (cols', Ok v) /\ cols_ok r entries cols'.

Lemma runs_ret {A} (v : A) : runs (mret v) v.
Proof. intros cols H. by exists cols. Qed.

Lemma runs_bind {A B} (m : scan_m A) (k : A -> scan_m B) v w :
  runs m v -> runs (k v) w -> runs (m ≫= k) w.
Proof.
  intros Hm Hk cols H. destruct (Hm _ H) as (c1 & E1 & H1).
  destruct (Hk _ H1) as (c2 & E2 & H2). exists c2. split; [| done].
  unfold mbind, scan_bind. by rewrite E1.
Qed.

Lemma runs_eq {A} (m : scan_m A) v w : runs m v -> v = w -> runs m w.
Proof. by intros ? <-. Qed.

Lemma runs_column {A} msg read name (v : list A) :
  reads_col r entries read name v -> runs (column msg read name) v.
Proof.
  intros Hr cols H. destruct (Hr _ H) as (c' & E & H'). exists c'. split; [| done].
  unfold column. by rewrite E.
Qed.

Lemma runs_has_column col : col ∈ Schema -> runs (has_column (Name col)) true.
Proof.
  intros Hin cols H. exists cols. split; [| done]. unfold has_column, hasColumn.
  rewrite (ck_r _ _ _ H). rewrite list.Forall_forall in Hgood. by rewrite (proj1 (Hgood _ Hin)).
Qed.

Lemma good_reads : Forall (reads r entries) Schema.
Proof. eapply list.Forall_impl; [exact Hgood |]. by intros ? []. Qed.

(** Row numbers that exist in the chunk. *)
Definition rows_in (rows : list Z) : Prop := Forall (fun row => 0 <= row < len entries) rows.

Definition row_sat (P : Entry -> bool) (row : Z) : bool :=
  match entries !! Z.to_nat row with Some e => P e | None => false end.

(** The rows whose entry satisfies [P]. *)
Definition keep (P : Entry -> bool) (rows : list Z) : list Z :=
  filter (fun row => row_sat P row = true) rows.

Lemma row_test_sat {A} (f : Entry -> A) g row :
  row_test (f <$> entries) g row = row_sat (fun e => g (f e)) row.
Proof.
  unfold row_test, row_sat. rewrite list_lookup_fmap, len_fmap.
  destruct (entries !! Z.to_nat row) as [e |] eqn:E; cbn.
  - apply lookup_lt_Some in E. destruct (Z.ltb_spec row (len entries)); [done |]. unfold len in *. lia.
  - by rewrite andb_false_r.
Qed.

Lemma filter_ext_bool {A} (f g : A -> bool) (l : list A) :
  (forall x, x ∈ l -> f x = g x) -> filter (fun x => f x = true) l = filter (fun x => g x = true) l.
Proof.
  intros H. apply filter_agree. intros x Hx. by rewrite (H x Hx).
Qed.

Lemma keep_ext P Q rows : (forall e, P e = Q e) -> keep P rows = keep Q rows.
Proof.
  intros H. apply filter_ext_bool. intros row _. unfold row_sat.
  destruct (entries !! Z.to_nat row); [apply H | done].
Qed.

Lemma keep_keep P Q rows : keep Q (keep P rows) = keep (fun e => P e && Q e) rows.
Proof.
  unfold keep. rewrite list_filter_filter. apply list_filter_iff. intros row. unfold row_sat.
  destruct (entries !! Z.to_nat row); [| split; [by intros [] | done]].
  rewrite andb_true_iff. tauto.
Qed.

Lemma keep_true rows : rows_in rows -> keep (fun _ => true) rows = rows.
Proof.
  intros H. induction H as [| row rows Hr H IH]; [done |]. unfold keep in *. rewrite filter_cons, IH.
  destruct (lookup_lt_is_Some_2 entries (Z.to_nat row)) as [e He]; [unfold len in *; lia |].
  rewrite decide_True; [done |]. unfold row_sat. by rewrite He.
Qed.

Lemma keep_in P rows : rows_in rows -> rows_in (keep P rows).
Proof. apply Forall_filtered. Qed.

Lemma keep_nil P : keep P [] = [].
Proof. done. Qed.

Lemma filter_test {A} (f : Entry -> A) g rows :
  filter (fun row => row_test (f <$> entries) g row = true) rows = keep (fun e => g (f e)) rows.
Proof. apply filter_ext_bool. intros row _. apply row_test_sat. Qed.

(** The optional filters: an empty value filters nothing. *)
Definition wants (value : bytes) (test : bool) : bool := negb (nonempty value) || test.

Lemma keep_wants value (P : Entry -> bool) rows :
  rows_in rows -> nonempty value = false -> keep (fun e => wants value (P e)) rows = rows.
Proof.
  intros Hin Hv. rewrite (keep_ext _ (fun _ => true)); [by apply keep_true |].
  intros e. unfold wants. by rewrite Hv.
Qed.

Lemma runs_dict col value rows :
  rows_in rows ->
  find_column col Schema = Some (mkColumn col ColDictBitpack) /\
    getColumnType col = Some ColDictBitpack \/
  find_column col Schema = Some (mkColumn col ColDictZstd) /\
    getColumnType col = Some ColDictZstd ->
  runs (filterByColumn col value rows)
    (keep (fun e => wants value
      (if bool_decide (col = "env") && negb (nonempty (string_value col e)) then true
       else EqualFold (string_value col e) value)) rows).
Proof.
  intros Hin Ht. unfold filterByColumn.
  destruct (nonempty value) eqn:Hv; cbn [negb].
  2:{ eapply runs_eq; [apply runs_ret |]. by rewrite keep_wants. }
  destruct Ht as [[Hf Ht] | [Hf Ht]]; rewrite Ht.
  - eapply runs_bind; [apply runs_column, (dictBitpack_ok r entries good_reads); exact Hf |].
    eapply runs_eq; [apply runs_ret |]. setoid_rewrite filter_test. apply keep_ext.
    intros e. unfold wants. by rewrite Hv.
  - eapply runs_bind; [apply runs_column, (dictZstd_ok r entries good_reads); exact Hf |].
    eapply runs_eq; [apply runs_ret |]. setoid_rewrite filter_test. apply keep_ext.
    intros e. unfold wants. by rewrite Hv.
Qed.

Lemma keep_wants_eq value (P Q : Entry -> bool) rows :
  nonempty value = true -> (forall e, P e = Q e) -> keep P rows = keep (fun e => wants value (Q e)) rows.
Proof. intros Hv H. apply keep_ext. intros e. unfold wants. by rewrite Hv, H. Qed.

Lemma runs_sparse col t value rows :
  rows_in rows ->
  find_column col Schema = Some (mkColumn col t) -> t = ColSparseString \/ t = ColSparseDictZstd ->
  runs (filterBySparseColumn col value rows)
    (keep (fun e => wants value (EqualFold (string_value col e) value)) rows).
Proof.
  intros Hin Hf Ht. unfold filterBySparseColumn.
  destruct (nonempty value) eqn:Hv; cbn [negb].
  2:{ eapply runs_eq; [apply runs_ret |]. by rewrite keep_wants. }
  eapply runs_bind;
    [apply (runs_has_column (mkColumn col t)); by apply find_column_in in Hf as [? _] |].
  eapply runs_bind;
    [apply runs_column; by apply (sparseStrings_ok r entries good_reads col t) |].
  eapply runs_eq; [apply runs_ret |]. setoid_rewrite filter_test. by apply keep_wants_eq.
Qed.

Lemma runs_time_range now start stop rows :
  runs (filterByTimeRange now start stop rows)
    (keep (fun e => (match start with Some t => UnixMilli t | None => 0 end <=? Ts e) &&
                    (Ts e <=? match stop with Some t => UnixMilli t | None => UnixMilli now end)) rows).
Proof.
  unfold filterByTimeRange.
  eapply runs_bind; [apply runs_column, (zstdInt64_ok r entries good_reads "ts"); reflexivity |].
  eapply runs_eq; [apply runs_ret |]. by setoid_rewrite filter_test.
Qed.

(** A stage stands for its rows; the early return stands for none. *)
Definition stages (m : scan_m stage) (rows : list Z) : Prop :=
  exists s, runs m s /\ default [] s = rows.

Lemma stages_ret rows : stages (mret (Some rows)) rows.
Proof. exists (Some rows). split; [apply runs_ret | done]. Qed.

Lemma stages_left rows : stages (mret (if_left rows)) rows.
Proof.
  exists (if_left rows). split; [apply runs_ret |]. unfold if_left.
  destruct (Z.eqb_spec (len rows) 0) as [H |]; [| done]. by rewrite (len_0_nil _ H).
Qed.

Lemma runs_and_then m k rows Q :
  stages m rows -> runs (k rows) (keep Q rows) -> runs (and_then m k) (keep Q rows).
Proof.
  intros (s & Hm & Hs) Hk. eapply runs_bind; [exact Hm |]. destruct s; cbn in Hs; subst; [done |].
  apply runs_ret.
Qed.

Lemma stages_column {A} (read : scan_m A) v (cut : A -> list Z) k Q rows :
  runs read v -> cut v = rows -> stages (k rows) (keep Q rows) ->
  stages (v ← read; match if_left (cut v) with None => mret None | Some rows => k rows end)
    (keep Q rows).
Proof.
  intros Hr <- (s & Hk & Hs). unfold if_left. destruct (len (cut v) =? 0) eqn:E.
  - exists None. split; [| apply Z.eqb_eq in E; by rewrite (len_0_nil _ E)].
    eapply runs_bind; [exact Hr |]. rewrite E. apply runs_ret.
  - exists s. split; [| done]. eapply runs_bind; [exact Hr |]. by rewrite E.
Qed.

Definition string_filter_test (e : Entry) (f : string * bytes * (bytes -> bytes -> bool)) : bool :=
  wants f.1.2 (f.2 (string_value f.1.1 e) f.1.2).

Lemma stages_strings fs rows :
  rows_in rows ->
  Forall (fun f => exists t, find_column f.1.1 Schema = Some (mkColumn f.1.1 t) /\
                    (t = ColSparseString \/ t = ColSparseDictZstd)) fs ->
  stages (string_filters fs rows) (keep (fun e => forallb (string_filter_test e) fs) rows).
Proof.
  intros Hin Hf. revert rows Hin.
  induction Hf as [| [[col value] m] fs (t & Hc & Ht) Hf IH]; intros rows Hin; cbn [string_filters].
  { rewrite keep_true by done. apply stages_ret. }
  cbn [fst snd] in Hc, Ht. destruct (nonempty value) eqn:Hv; cbn [negb].
  2:{ cbn [forallb]. erewrite keep_ext; [by apply IH |]. intros e. cbn [forallb].
      unfold string_filter_test at 1, wants. cbn [fst snd]. by rewrite Hv. }
  assert (keep (fun e => forallb (string_filter_test e) ((col, value, m) :: fs)) rows =
    keep (fun e => forallb (string_filter_test e) fs)
      (keep (fun e => m (string_value col e) value) rows)) as ->.
  { rewrite keep_keep. apply keep_ext. intros e. cbn [forallb].
    unfold string_filter_test at 1, wants. cbn [fst snd]. by rewrite Hv. }
  assert (runs (has_column col) true) as Hcol.
  { apply (runs_has_column (mkColumn col t)). by apply find_column_in in Hc as [? _]. }
  pose proof (sparseStrings_ok r entries good_reads col t Hc Ht) as Hr.
  destruct (stages_column (column "read sparse column" sparseStrings col)
    (extractString entries col)
    (fun values => keepRows rows (row_test values (fun v => m v value)))
    (string_filters fs) (fun e => forallb (string_filter_test e) fs)
    (keep (fun e => m (string_value col e) value) rows)) as (s & Hs1 & Hs2).
  - by apply runs_column.
  - apply (filter_test (string_value col)).
  - by apply IH, keep_in.
  - exists s. split; [| done]. eapply runs_bind; [exact Hcol | exact Hs1].
Qed.

Definition int_filter_test (e : Entry) (f : string * Z) : bool :=
  (f.2 <=? 0) || at_least f.2 (optional_value f.1 e).

Lemma stages_ints fs rows :
  rows_in rows ->
  Forall (fun f => find_column f.1 Schema = Some (mkColumn f.1 ColSparseInt64)) fs ->
  stages (int_filters fs rows) (keep (fun e => forallb (int_filter_test e) fs) rows).
Proof.
  intros Hin Hf. revert rows Hin.
  induction Hf as [| [col min] fs Hc Hf IH]; intros rows Hin; cbn [int_filters].
  { rewrite keep_true by done. apply stages_ret. }
  cbn [fst snd] in Hc. destruct (Z.leb_spec min 0) as [Hm | Hm].
  { erewrite keep_ext; [by apply IH |]. intros e. cbn [forallb].
    unfold int_filter_test at 1. cbn [fst snd]. by zcmp. }
  assert (keep (fun e => forallb (int_filter_test e) ((col, min) :: fs)) rows =
    keep (fun e => forallb (int_filter_test e) fs)
      (keep (fun e => at_least min (optional_value col e)) rows)) as ->.
  { rewrite keep_keep. apply keep_ext. intros e. cbn [forallb].
    unfold int_filter_test at 1. cbn [fst snd]. by zcmp. }
  apply (stages_column (column "read sparse column" sparseInt64 col)
    (extractOptionalInt64 entries col)
    (fun values => keepRows rows (row_test values (at_least min)))
    (int_filters fs)).
  - apply runs_column, (sparseInt64_ok r entries good_reads col Hc).
  - apply (filter_test (optional_value col)).
  - by apply IH, keep_in.
Qed.

End FilterLemmas.

(** ** The filters agree with [matchesParams] *)

Section ColumnFilters.
Context {C : Zstd} {L : ZstdLaws C} {W : World} {U : Unicode} {T : Text}.

Definition string_tests (p : SearchParams) : list (string * bytes * (bytes -> bytes -> bool)) := [
  ("tenant_id", p_TenantID p, EqualFold);
  ("source_file", p_SourceFile p, EqualFold);
  ("version", p_CommitHash p, EqualFold);
  ("method", p_Method p, EqualFold);
  ("path", p_Path p, containsFold);
  ("handler", p_Handler p, handlerMatches)
].

Definition int_tests (p : SearchParams) : list (string * Z) := [
  ("duration_ms",
    if p_PositiveDurationOnly p && (p_MinDurationMs p <=? 0) then 1 else p_MinDurationMs p);
  ("db_count", p_MinSQLCount p)
].

Definition scalars_match (p : SearchParams) (e : Entry) : bool :=
  forallb (string_filter_test e) (string_tests p) &&
  (forallb (int_filter_test e) (int_tests p) &&
   ((negb (p_NPlusOneOnly p) || default false (NPlusOne e)) &&
    ((negb (0 <? p_SinceID p) || (p_SinceID p <? ID e)) &&
     (negb (p_RequestsOnly p) || isRequestEntry e)))).

Definition sparse_tests (p : SearchParams) : list (string * bytes) := [
  ("trace_id", p_TraceID p);
  ("request_id", p_RequestID p);
  ("user_id", p_UserID p);
  ("event_type", p_EventType p);
  ("error_class", p_ErrorClass p);
  ("error_fingerprint", p_ErrorFingerprint p)
].

Definition dict_tests (p : SearchParams) : list (string * bytes) :=
  [("level", p_Level p); ("service", p_Service p); ("env", p_Env p)].

Definition dict_test (e : Entry) (f : string * bytes) : bool :=
  wants f.2 (if bool_decide (f.1 = "env") && negb (nonempty (string_value f.1 e)) then true
             else EqualFold (string_value f.1 e) f.2).

Definition sparse_test (e : Entry) (f : string * bytes) : bool :=
  wants f.2 (EqualFold (string_value f.1 e) f.2).

Definition in_time (now : Z) (p : SearchParams) (e : Entry) : bool :=
  match p_Start p, p_End p with
  | None, None => true
  | start, stop =>
      (match start with Some t => UnixMilli t | None => 0 end <=? Ts e) &&
      (Ts e <=? match stop with Some t => UnixMilli t | None => UnixMilli now end)
  end.

(** What the columns decide about a row. *)
Definition columns_match (now : Z) (p : SearchParams) (e : Entry) : bool :=
  forallb (dict_test e) (dict_tests p) &&
  (forallb (sparse_test e) (sparse_tests p) && (in_time now p e && scalars_match p e)).

Section Chunk.
Context (r : Reader) (entries : list Entry).
Hypothesis Hgood : Forall (fun col => HasColumn r (Name col) = true /\ reads r entries col) Schema.

Lemma dict_filters_ok fs rows :
  rows_in entries rows ->
  Forall (fun f => find_column f.1 Schema = Some (mkColumn f.1 ColDictBitpack) /\
      getColumnType f.1 = Some ColDictBitpack \/
    find_column f.1 Schema = Some (mkColumn f.1 ColDictZstd) /\
      getColumnType f.1 = Some ColDictZstd) fs ->
  runs r entries (dict_filters fs rows) (keep entries (fun e => forallb (dict_test e) fs) rows).
Proof.
  intros Hin Hf. revert rows Hin. induction Hf as [| [col v] fs Hc Hf IH]; intros rows Hin.
  { eapply runs_eq; [apply runs_ret |]. by rewrite keep_true. }
  cbn [dict_filters]. eapply runs_bind; [by apply (runs_dict r entries Hgood col v) |].
  eapply runs_eq; [by apply IH, keep_in |]. apply keep_keep.
Qed.

Lemma sparse_filters_ok fs rows :
  rows_in entries rows ->
  Forall (fun f => exists t, find_column f.1 Schema = Some (mkColumn f.1 t) /\
                    (t = ColSparseString \/ t = ColSparseDictZstd)) fs ->
  runs r entries (sparse_filters fs rows) (keep entries (fun e => forallb (sparse_test e) fs) rows).
Proof.
  intros Hin Hf. revert rows Hin. induction Hf as [| [col v] fs (t & Hc & Ht) Hf IH]; intros rows Hin.
  { eapply runs_eq; [apply runs_ret |]. by rewrite keep_true. }
  cbn [sparse_filters]. eapply runs_bind; [by apply (runs_sparse r entries Hgood col t v) |].
  eapply runs_eq; [by apply IH, keep_in |]. apply keep_keep.
Qed.

Lemma time_filter_ok now p rows :
  rows_in entries rows ->
  runs r entries (match p_Start p, p_End p with
    | None, None => mret rows
    | _, _ => filterByTimeRange now (p_Start p) (p_End p) rows
    end) (keep entries (in_time now p) rows).
Proof.
  intros Hin.
  assert (runs r entries (filterByTimeRange now (p_Start p) (p_End p) rows)
    (keep entries (fun e =>
      (match p_Start p with Some t => UnixMilli t | None => 0 end <=? Ts e) &&
      (Ts e <=? match p_End p with Some t => UnixMilli t | None => UnixMilli now end)) rows)) as H.
  { by apply runs_time_range. }
  unfold in_time. destruct (p_Start p), (p_End p); try exact H.
  eapply runs_eq; [apply runs_ret |]. by rewrite keep_true.
Qed.

Lemma n_plus_one_ok p rows :
  rows_in entries rows ->
  stages r entries (n_plus_one_filter p rows)
    (keep entries (fun e => negb (p_NPlusOneOnly p) || default false (NPlusOne e)) rows).
Proof.
  intros Hin. unfold n_plus_one_filter. destruct (p_NPlusOneOnly p); cbn [negb orb].
  2:{ rewrite keep_true by done. apply stages_ret. }
  destruct (stages_left r entries (keep entries (fun e => default false (NPlusOne e)) rows))
    as (s & Hs & Hd). exists s. split; [| done].
  eapply runs_bind;
    [apply runs_column, (sparseBool_ok r entries (good_reads r entries Hgood) "n_plus_one"); reflexivity |].
  by setoid_rewrite (filter_test entries NPlusOne (default false)).
Qed.

Lemma since_ok p rows :
  rows_in entries rows ->
  stages r entries (since_filter p rows)
    (keep entries (fun e => negb (0 <? p_SinceID p) || (p_SinceID p <? ID e)) rows).
Proof.
  intros Hin. unfold since_filter. destruct (0 <? p_SinceID p); cbn [negb orb].
  2:{ rewrite keep_true by done. apply stages_ret. }
  destruct (stages_left r entries (keep entries (fun e => p_SinceID p <? ID e) rows))
    as (s & Hs & Hd). exists s. split; [| done].
  eapply runs_bind;
    [apply runs_column, (deltaInt64_ok r entries (good_reads r entries Hgood) "id"); reflexivity |].
  by setoid_rewrite (filter_test entries ID (fun id => p_SinceID p <? id)).
Qed.

Lemma at_row_value name row e :
  entries !! Z.to_nat row = Some e -> at_row (extractString entries name) row = string_value name e.
Proof.
  intros He. unfold at_row, extractString. rewrite len_fmap, list_lookup_fmap, He. cbn.
  apply lookup_lt_Some in He. destruct (Z.ltb_spec row (len entries)); [done |]. unfold len in *. lia.
Qed.

Lemma request_rows_ok rows :
  rows_in entries rows -> runs r entries (filterRequestRows rows) (keep entries isRequestEntry rows).
Proof.
  intros Hin. unfold filterRequestRows. pose proof (good_reads r entries Hgood) as Hr.
  eapply runs_bind; [apply runs_column, (dictZstd_ok r entries Hr "kind"); reflexivity |].
  eapply runs_bind;
    [apply runs_column; eapply (sparseStrings_ok r entries Hr "event_type"); [reflexivity | tauto] |].
  eapply runs_bind; [apply runs_column, (sparseInt64_ok r entries Hr "duration_ms"); reflexivity |].
  eapply runs_bind;
    [apply runs_column; eapply (sparseStrings_ok r entries Hr "method"); [reflexivity | tauto] |].
  eapply runs_bind;
    [apply runs_column; eapply (sparseStrings_ok r entries Hr "path"); [reflexivity | tauto] |].
  eapply runs_bind;
    [apply runs_column; eapply (sparseStrings_ok r entries Hr "handler"); [reflexivity | tauto] |].
  eapply runs_eq; [apply runs_ret |]. apply filter_ext_bool. intros row Hrow.
  unfold rows_in in Hin. rewrite list.Forall_forall in Hin. specialize (Hin row Hrow).
  destruct (lookup_lt_is_Some_2 entries (Z.to_nat row)) as [e He]; [unfold len in *; lia |].
  unfold row_sat. rewrite He.
  rewrite !(at_row_value _ row e He).
  rewrite (row_test_sat entries (optional_value "duration_ms")). unfold row_sat. rewrite He.
  change (string_value "kind" e) with (Kind e). change (string_value "event_type" e) with (EventType e).
  change (string_value "method" e) with (Method e). change (string_value "path" e) with (Path e).
  change (string_value "handler" e) with (Handler e).
  change (optional_value "duration_ms" e)
    with (if 0 <? DurationMs e then Some (DurationMs e) else None).
  unfold isRequestEntry.
  destruct (EqualFold (Kind e) _ || EqualFold (EventType e) _); [done |]. cbn [orb].
  destruct (0 <? DurationMs e) eqn:Hd; [rewrite Hd | done]. done.
Qed.

Lemma applyScalarColumnFilters_ok p rows :
  rows_in entries rows ->
  runs r entries (applyScalarColumnFilters p rows) (keep entries (scalars_match p) rows).
Proof.
  intros Hin. unfold applyScalarColumnFilters, scalars_match. rewrite <- keep_keep.
  apply runs_and_then with (rows := keep entries (fun e => forallb (string_filter_test e) (string_tests p)) rows).
  { apply stages_strings; [done | done |]. unfold string_tests.
    repeat constructor; eexists; (split; [reflexivity | tauto]). }
  rewrite <- keep_keep.
  apply runs_and_then with (rows := keep entries (fun e => forallb (int_filter_test e) (int_tests p))
    (keep entries (fun e => forallb (string_filter_test e) (string_tests p)) rows)).
  { apply stages_ints; [done | by apply keep_in |]. unfold int_tests. by repeat constructor. }
  rewrite <- keep_keep. eapply runs_and_then; [apply n_plus_one_ok; by repeat apply keep_in |].
  rewrite <- keep_keep. eapply runs_and_then; [apply since_ok; by repeat apply keep_in |].
  destruct (p_RequestsOnly p); cbn [negb orb].
  - apply request_rows_ok. by repeat apply keep_in.
  - eapply runs_eq; [apply runs_ret |]. rewrite keep_true; [done |]. by repeat apply keep_in.
Qed.

Lemma applyColumnFilters_ok now p rows :
  rows_in entries rows ->
  runs r entries (applyColumnFilters now p rows) (keep entries (columns_match now p) rows).
Proof.
  intros Hin. unfold applyColumnFilters, columns_match.
  eapply runs_bind.
  { apply (dict_filters_ok (dict_tests p)); [done |]. unfold dict_tests.
    repeat constructor; vm_compute; tauto. }
  eapply runs_bind.
  { apply (sparse_filters_ok (sparse_tests p)); [by apply keep_in |]. unfold sparse_tests.
    repeat constructor; eexists; (split; [reflexivity | tauto]). }
  eapply runs_bind; [apply time_filter_ok; by repeat apply keep_in |].
  eapply runs_eq; [apply applyScalarColumnFilters_ok; by repeat apply keep_in |].
  by rewrite !keep_keep.
Qed.

End Chunk.
End ColumnFilters.

(** ** Columns and entries decide alike *)

Section Agreement.
Context {U : Unicode} {T : Text} {TL : TextLaws T} {J : BodyJSON}.

(** The filters that [matchesParams] compares exactly and the columns compare
    with [EqualFold]. *)
Definition exact_match (p : SearchParams) (e : Entry) : bool :=
  wants (p_TraceID p) (bool_decide (TraceID e = p_TraceID p)) &&
  (wants (p_RequestID p) (bool_decide (RequestID e = p_RequestID p)) &&
   (wants (p_UserID p) (bool_decide (UserID e = p_UserID p)) &&
    (wants (p_ErrorFingerprint p) (bool_decide (ErrorFingerprint e = p_ErrorFingerprint p)) &&
     wants (p_TenantID p) (bool_decide (TenantID e = p_TenantID p))))).

(** What is left for after a row is read. *)
Definition post_match (p : SearchParams) (e : Entry) : bool :=
  matchesMetadata e (p_MetadataFilter p) && matchesExclude e (p_Exclude p).

Lemma if_false_and (b c : bool) : (if b then false else c) = negb b && c.
Proof. by destruct b. Qed.

Lemma clause_wants v (t : bool) : negb (nonempty v && negb t) = wants v t.
Proof. unfold wants. by destruct (nonempty v), t. Qed.

Lemma clause_env v w (t : bool) :
  negb (nonempty v && nonempty w && negb t) = wants v (if negb (nonempty w) then true else t).
Proof. unfold wants. by destruct (nonempty v), (nonempty w), t. Qed.

Lemma clause_min min d :
  negb ((0 <? min) && (d <? min)) =
    ((min <=? 0) || at_least min (if 0 <? d then Some d else None)).
Proof. unfold at_least. destruct (Z.ltb_spec 0 d); zbool; cbn; lia. Qed.

Lemma clause_duration (pos : bool) min d :
  negb ((0 <? min) && (d <? min)) && negb (pos && (d <=? 0)) =
    (let min := if pos && (min <=? 0) then 1 else min in
     (min <=? 0) || at_least min (if 0 <? d then Some d else None)).
Proof.
  destruct pos; cbn [andb negb].
  - destruct (Z.leb_spec min 0); cbv zeta; unfold at_least; destruct (Z.ltb_spec 0 d); zbool; cbn; lia.
  - rewrite andb_true_r. apply clause_min.
Qed.

Lemma exact_fold v w : wants v (bool_decide (w = v)) = true -> wants v (EqualFold w v) = true.
Proof.
  unfold wants. destruct (nonempty v); [| done]. cbn [negb orb]. case_bool_decide; [| done].
  subst. intros _. apply EqualFold_refl.
Qed.

Lemma columns_unfold now p e s t :
  p_Start p = Some s -> p_End p = Some t ->
  columns_match now p e =
    (wants (p_Level p) (EqualFold (Level e) (p_Level p)) &&
     (wants (p_Service p) (EqualFold (Service e) (p_Service p)) &&
      (wants (p_Env p) (if negb (nonempty (Env e)) then true else EqualFold (Env e) (p_Env p)) && true)) &&
     (wants (p_TraceID p) (EqualFold (TraceID e) (p_TraceID p)) &&
      (wants (p_RequestID p) (EqualFold (RequestID e) (p_RequestID p)) &&
       (wants (p_UserID p) (EqualFold (UserID e) (p_UserID p)) &&
        (wants (p_EventType p) (EqualFold (EventType e) (p_EventType p)) &&
         (wants (p_ErrorClass p) (EqualFold (ErrorClass e) (p_ErrorClass p)) &&
          (wants (p_ErrorFingerprint p) (EqualFold (ErrorFingerprint e) (p_ErrorFingerprint p)) &&
           true))))) &&
      ((UnixMilli s <=? Ts e) && (Ts e <=? UnixMilli t) &&
       (wants (p_TenantID p) (EqualFold (TenantID e) (p_TenantID p)) &&
        (wants (p_SourceFile p) (EqualFold (SourceFile e) (p_SourceFile p)) &&
         (wants (p_CommitHash p) (EqualFold (Version e) (p_CommitHash p)) &&
          (wants (p_Method p) (EqualFold (Method e) (p_Method p)) &&
           (wants (p_Path p) (containsFold (Path e) (p_Path p)) &&
            (wants (p_Handler p) (handlerMatches (Handler e) (p_Handler p)) && true))))) &&
        (int_filter_test e ("duration_ms",
           if p_PositiveDurationOnly p && (p_MinDurationMs p <=? 0) then 1 else p_MinDurationMs p) &&
         (int_filter_test e ("db_count", p_MinSQLCount p) && true) &&
         ((negb (p_NPlusOneOnly p) || default false (NPlusOne e)) &&
          ((negb (0 <? p_SinceID p) || (p_SinceID p <? ID e)) &&
           (negb (p_RequestsOnly p) || isRequestEntry e)))))))).
Proof. intros Hs Ht. unfold columns_match, in_time. rewrite Hs, Ht. reflexivity. Qed.

Lemma matchesParams_query p e :
  matchesParams e p =
    wants (p_Query p) (messageMatchesQuery (Message e) (p_Query p)) && matchesParams e (without_query p).
Proof.
  unfold matchesParams. rewrite !if_false_and. rewrite !clause_wants.
  cbn [without_query p_Query p_Service p_Level p_Env p_TraceID p_RequestID p_UserID p_TenantID
    p_EventType p_ErrorClass p_ErrorFingerprint p_SourceFile p_CommitHash p_Method p_Path p_Handler
    p_MinDurationMs p_PositiveDurationOnly p_MinSQLCount p_NPlusOneOnly p_RequestsOnly
    p_MetadataFilter p_Exclude p_Start p_End p_SinceID].
  change (wants [] ?b) with true. cbn [andb].
  apply eq_true_iff_eq. rewrite !andb_true_iff. tauto.
Qed.

Lemma ltb_negb a b : negb (a <? b) = (b <=? a).
Proof. by rewrite Z.leb_antisym. Qed.

Lemma clause_since s i : negb ((0 <? s) && (i <=? s)) = negb (0 <? s) || (s <? i).
Proof. rewrite (Z.ltb_antisym i s). by destruct (0 <? s), (i <=? s). Qed.

Lemma clause_flag (f t : bool) : negb (f && negb t) = negb f || t.
Proof. by destruct f, t. Qed.

(** For a page with both time bounds, a row matches exactly when its columns do,
    the exact fields do, and the filters on the whole entry do. *)
Lemma matchesParams_columns now p e s t :
  p_Start p = Some s -> p_End p = Some t ->
  matchesParams e (without_query p) = columns_match now p e && (exact_match p e && post_match p e).
Proof.
  intros Hs Ht. rewrite (columns_unfold now p e s t Hs Ht). unfold matchesParams, exact_match, post_match.
  cbn [without_query p_Query p_Service p_Level p_Env p_TraceID p_RequestID p_UserID p_TenantID
    p_EventType p_ErrorClass p_ErrorFingerprint p_SourceFile p_CommitHash p_Method p_Path p_Handler
    p_MinDurationMs p_PositiveDurationOnly p_MinSQLCount p_NPlusOneOnly p_RequestsOnly
    p_MetadataFilter p_Exclude p_Start p_End p_SinceID].
  rewrite Hs, Ht, !if_false_and, clause_env, clause_since, !clause_wants, !clause_flag, !negb_involutive,
    !ltb_negb.
  change (wants [] ?b) with true. fold (containsFold (Path e) (p_Path p)).
  match goal with |- context [int_filter_test e ("duration_ms", ?m)] =>
    change (int_filter_test e ("duration_ms", m)) with
      (let min := m in (min <=? 0) ||
       at_least min (if 0 <? DurationMs e then Some (DurationMs e) else None)) end.
  rewrite <- (clause_duration (p_PositiveDurationOnly p) (p_MinDurationMs p) (DurationMs e)).
  change (int_filter_test e ("db_count", p_MinSQLCount p)) with
    ((p_MinSQLCount p <=? 0) ||
     at_least (p_MinSQLCount p) (if 0 <? DbCount e then Some (DbCount e) else None)).
  rewrite <- (clause_min (p_MinSQLCount p) (DbCount e)).
  apply eq_true_iff_eq. rewrite !andb_true_iff.
  pose proof (exact_fold (p_TraceID p) (TraceID e)). pose proof (exact_fold (p_RequestID p) (RequestID e)).
  pose proof (exact_fold (p_UserID p) (UserID e)). pose proof (exact_fold (p_TenantID p) (TenantID e)).
  pose proof (exact_fold (p_ErrorFingerprint p) (ErrorFingerprint e)).
  tauto.
Qed.
End Agreement.
