(* ===== verification/Search.v ===== *)
(** * Searching chunks, segments and the whole store (engine/store.go, query.go)

    [searchChunk] narrows a chunk's rows by its columns, keeps the rows that can
    reach the caller's page, reads them and applies the remaining filters;
    [searchSegment] and [scanSegment] walk a segment's chunks; [SearchAll] merges
    the segments and the unsealed logs into one page. *)

From stdpp Require Import base list gmap strings numbers sorting.
From Stdlib Require Import ZArith Lia.
From S2P Require Import Prelude Zstd Schema Wal Chunk Cache Rows Index Ids Seal Segments TopN Pages Query Filter.

(** ** The caches a query goes through *)

Record Caches := mkCaches {
  columns : option (cache columnKey column_value);
  indexes : option (cache bytes IndexReader)
}.

Definition maxIndexShareOfBudget : Z := 2.

(** [Cache.Open]: [file] is the content of the index file, if it exists.  The
    load runs inside [loads.Do], whose function looks the path up again. *)
Definition index_size (file : bytes) (r : IndexReader) : Z :=
  foldl (fun size term => size + (len (te_term term) + 24)) (len file) (terms r).

Definition read_index (file : option bytes) : result IndexReader :=
  match file with
  | None => Err (Errorf "open index: no such file")
  | Some data => IndexOpenReader data
  end.

Definition Open (c : option (cache bytes IndexReader)) (path : bytes) (file : option bytes)
  : option (cache bytes IndexReader) * result IndexReader :=
  match c with
  | None => (None, read_index file)
  | Some c =>
      let '(c, hit) := get c path in
      match hit with
      | Some reader => (Some c, Ok reader)
      | None =>
          let '(c, hit) := get c path in
          match hit with
          | Some reader => (Some c, Ok reader)
          | None =>
              match read_index file with
              | Ok reader =>
                  let size := index_size (default [] file) reader in
                  (Some (put maxIndexShareOfBudget c path reader size), Ok reader)
              | Err e => (Some c, Err e)
              | Panic => (Some c, Panic)
              end
          end
      end
  end.

(** ** One chunk *)

Section Search.
Context {C : Zstd} {U : Unicode} {T : Text} {J : BodyJSON}.

(** The candidate rows of a full-text query, as the keys of a map in order. *)
Definition candidate_rows_of (rowIDs : list Z) : list Z :=
  merge_sort Z.le (elements (list_to_set rowIDs : gset Z)).

(** [openChunkRows]: [None] is the nil reader of a query without full-text
    matches.  The file contents stand for the paths; [now] is the clock read by
    the time filter. *)
Definition openChunkRows (now : Z) (cs : Caches) (chunkPath idxPath : bytes)
  (colFile idxFile : option bytes) (p : SearchParams)
  : Caches * result (option (chunkColumns * list Z)) :=
  let chunk_rows (ix : option (cache bytes IndexReader)) (candidates : option (list Z)) :=
    match wrap "open chunk" (match colFile with
                             | None => Err (Errorf "open: no such file")
                             | Some f => OpenReader f
                             end) with
    | Err e => (mkCaches (columns cs) ix, Err e)
    | Panic => (mkCaches (columns cs) ix, Panic)
    | Ok r =>
        let cols := newCachedChunkColumns r (columns cs) chunkPath in
        let matchingRows :=
          match candidates with
          | Some rowIDs => candidate_rows_of rowIDs
          | None => seqZ 0 (EntryCount r)
          end in
        match applyColumnFilters now p matchingRows cols with
        | (cols, Ok rows) => (mkCaches (shared cols) ix, Ok (Some (cols, rows)))
        | (cols, Err e) => (mkCaches (shared cols) ix, Err e)
        | (cols, Panic) => (mkCaches (shared cols) ix, Panic)
        end
    end in
  if nonempty (p_Query p) then
    match Open (indexes cs) idxPath idxFile with
    | (ix, Ok idx) =>
        match wrap "index search" (Search idx (p_Query p)) with
        | Ok rowIDs =>
            if len rowIDs =? 0 then (mkCaches (columns cs) ix, Ok None)
            else chunk_rows ix (Some rowIDs)
        | Err e => (mkCaches (columns cs) ix, Err e)
        | Panic => (mkCaches (columns cs) ix, Panic)
        end
    | (ix, Err e) => (mkCaches (columns cs) ix, Err (Wrapf "open index" e))
    | (ix, Panic) => (mkCaches (columns cs) ix, Panic)
    end
  else chunk_rows (indexes cs) None.

Definition topRowsByTs (rows : list Z) (asc : bool) (n : Z) : scan_m (list Z) :=
  tsValues ← column "read ts column for ordering" zstdInt64 "ts";
  mret (selectTopRows tsValues rows asc n).

(** The order of [rowsInTsOrder]: ties fall in the direction of the sort. *)
Definition ts_row_before (tsValues : list Z) (asc : bool) (a b : Z) : bool :=
  let ti := tsAt tsValues a in
  let tj := tsAt tsValues b in
  if negb (ti =? tj) then (if asc then ti <? tj else tj <? ti)
  else if asc then a <? b else b <? a.

Definition rowsInTsOrder (rows : list Z) (asc : bool) : scan_m (list Z) :=
  tsValues ← column "read ts column for ordering" zstdInt64 "ts";
  mret (merge_sort (not_after (ts_row_before tsValues asc)) rows).

(** [fillEntryFromChunkProjected] at a row of the scan: [None] is a row that
    could not be read, which the loops skip. *)
Definition fill_row (row : Z) (includeBody : bool) : scan_m (option Entry) := fun c =>
  match fillEntryFromChunkProjected c row includeBody with
  | Ok (c, e, None) => (c, Ok (Some e))
  | Ok (c, _, Some _) => (c, Ok None)
  | Err err => (c, Err err)
  | Panic => (c, Panic)
  end.

Definition add_match (p : SearchParams) (entries : list Entry) (e : option Entry) : list Entry :=
  match e with
  | Some e => if matchesParams e p then entries ++ [e] else entries
  | None => entries
  end.

(** The loop of [searchChunk]. *)
Fixpoint read_rows (p : SearchParams) (includeBody : bool) (rows : list Z) (entries : list Entry)
  : scan_m (list Entry) :=
  match rows with
  | [] => mret entries
  | row :: rows =>
      e ← fill_row row includeBody;
      read_rows p includeBody rows (add_match p entries e)
  end.

Fixpoint until_loop (p : SearchParams) (n : Z) (includeBody : bool) (rows : list Z)
  (entries : list Entry) : scan_m (list Entry) :=
  match rows with
  | [] => mret entries
  | row :: rows =>
      if len entries =? n then mret entries
      else
        e ← fill_row row includeBody;
        until_loop p n includeBody rows (add_match p entries e)
  end.

Definition materializeUntil (rows : list Z) (p : SearchParams) (n : Z) (includeBody : bool)
  : scan_m (list Entry) := until_loop p n includeBody rows [].

(** What [searchChunk] does with the surviving rows. *)
Definition page_rows (p : SearchParams) (matchingRows : list Z) : scan_m (list Entry) :=
  if len matchingRows =? 0 then mret []
  else
    let filterParams := without_query p in
    let limit := p_Offset p + p_Limit p in
    let postFilter := needsPostReadFilter filterParams in
    matchingRows ←
      (if (0 <? limit) && (limit <? len matchingRows) && negb postFilter
       then topRowsByTs matchingRows (p_SortAsc p) limit else mret matchingRows);
    if (0 <? limit) && postFilter && (limit <? len matchingRows) then
      matchingRows ← rowsInTsOrder matchingRows (p_SortAsc p);
      materializeUntil matchingRows filterParams limit true
    else read_rows filterParams (negb (p_OmitBody p)) matchingRows [].

Definition searchChunk (now : Z) (cs : Caches) (chunkPath idxPath : bytes)
  (colFile idxFile : option bytes) (p : SearchParams) : Caches * result (list Entry) :=
  match openChunkRows now cs chunkPath idxPath colFile idxFile p with
  | (cs, Ok None) => (cs, Ok [])
  | (cs, Ok (Some (cols, matchingRows))) =>
      let '(cols, res) := page_rows p matchingRows cols in
      (mkCaches (shared cols) (indexes cs), res)
  | (cs, Err e) => (cs, Err e)
  | (cs, Panic) => (cs, Panic)
  end.

(** ** Segments *)

(** ['/'] is 47. *)
Definition path_in (dir name : bytes) : bytes := dir ++ [47] ++ name.

Fixpoint search_chunks (now : Z) (cs : Caches) (dirPath : bytes) (d : Dir) (chunks : list ChunkMeta)
  (p : SearchParams) (allResults : list Entry) : Caches * result (list Entry) :=
  match chunks with
  | [] => (cs, Ok allResults)
  | cm :: chunks =>
      let chunkName := chunk_name (Index cm) in
      let idxName := index_name (Index cm) in
      match searchChunk now cs (path_in dirPath chunkName) (path_in dirPath idxName)
              (d !! chunkName) (d !! idxName) p with
      | (cs, Ok entries) => search_chunks now cs dirPath d chunks p (allResults ++ entries)
      | (cs, Err e) => (cs, Err (Wrapf "search chunk" e))
      | (cs, Panic) => (cs, Panic)
      end
  end.

(** A nil [Meta] panics. *)
Definition searchSegment (now : Z) (cs : Caches) (seg : LoadedSegment) (d : Dir) (p : SearchParams)
  : Caches * result (list Entry) :=
  match Meta seg with
  | None => (cs, Panic)
  | Some meta => search_chunks now cs (DirName seg) d (Chunks meta) p []
  end.

(** [visit] folds a chunk's surviving rows into the caller's accumulator. *)
Fixpoint scan_chunks {A : Type} (now : Z) (cs : Caches) (dirPath : bytes) (d : Dir)
  (chunks : list ChunkMeta) (p : SearchParams) (visit : list Z -> A -> scan_m A) (acc : A)
  : Caches * A * result unit :=
  match chunks with
  | [] => (cs, acc, Ok tt)
  | cm :: chunks =>
      let chunkName := chunk_name (Index cm) in
      let idxName := index_name (Index cm) in
      match openChunkRows now cs (path_in dirPath chunkName) (path_in dirPath idxName)
              (d !! chunkName) (d !! idxName) p with
      | (cs, Err e) => (cs, acc, Err (Wrapf "scan chunk" e))
      | (cs, Panic) => (cs, acc, Panic)
      | (cs, Ok None) => scan_chunks now cs dirPath d chunks p visit acc
      | (cs, Ok (Some (cols, rows))) =>
          let '(cols, res) := visit rows acc cols in
          let cs := mkCaches (shared cols) (indexes cs) in
          match res with
          | Ok acc => scan_chunks now cs dirPath d chunks p visit acc
          | Err e => (cs, acc, Err (Wrapf "scan chunk" e))
          | Panic => (cs, acc, Panic)
          end
      end
  end.

Definition scanSegment {A : Type} (now : Z) (cs : Caches) (seg : LoadedSegment) (d : Dir)
  (p : SearchParams) (visit : list Z -> A -> scan_m A) (acc : A) : Caches * A * result unit :=
  match Meta seg with
  | None => (cs, acc, Panic)
  | Some meta => scan_chunks now cs (DirName seg) d (Chunks meta) p visit acc
  end.

End Search.

(** ** What a chunk's files hold *)

Section ChunkLemmas.
Context {C : Zstd} {L : ZstdLaws C} {W : World} {U : Unicode} {T : Text} {TL : TextLaws T} {J : BodyJSON}.

Definition index_builder (es : list Entry) : Builder := add_all 0 (Message <$> es) NewBuilder.

Definition opened_index (es : list Entry) : IndexReader := opened (index_builder es) (len es).

(** The column file and the index of the entries [es], as sealing leaves them. *)
Record chunk_holds (es : list Entry) (colFile idxFile : bytes) : Prop := {
  ch_col : exists r, OpenReader colFile = Ok r /\ EntryCount r = len es /\
    Forall (fun col => HasColumn r (Name col) = true /\ reads r es col) Schema;
  ch_idx : IndexOpenReader idxFile = Ok (opened_index es);
  ch_fits : index_fits (index_builder es) (len es) /\ len es * 10 <= MaxBlockBytes;
  ch_rows : Forall (fun e => sealed e = e /\ is_int64 (Status e)) es;
  ch_ids : StronglySorted Z.lt (ID <$> es)
}.

Definition indexes_ok (ix : cache bytes IndexReader) : Prop :=
  forall p es e, chunk_at p = Some es -> items ix !! p = Some e -> value e = opened_index es.

(** The shared caches hold nothing but what the files hold. *)
Definition caches_ok (cs : Caches) : Prop :=
  (forall sh, columns cs = Some sh -> shared_ok sh) /\
  (forall ix, indexes cs = Some ix -> indexes_ok ix).

Lemma Open_ok c path es data :
  (forall ix, c = Some ix -> indexes_ok ix) -> chunk_at path = Some es ->
  IndexOpenReader data = Ok (opened_index es) ->
  exists c', Open c path (Some data) = (c', Ok (opened_index es)) /\
    (forall ix, c' = Some ix -> indexes_ok ix).
Proof.
  intros Hc Hp Hd. unfold Open, read_index. destruct c as [ix |]; [| rewrite Hd; by exists None].
  specialize (Hc ix eq_refl). pose proof (get_items ix path) as [G1 G2].
  destruct (get ix path) as [ix1 hit]. cbn [fst snd] in G1, G2. subst hit.
  assert (indexes_ok ix1) as H1 by (intros ? ? ?; rewrite G2; apply Hc).
  destruct (items ix !! path) as [e |] eqn:Ee; cbn [fmap option_fmap option_map].
  { exists (Some ix1). rewrite (Hc _ _ _ Hp Ee). split; [done |]. by intros ? [= <-]. }
  pose proof (get_items ix1 path) as [G3 G4]. destruct (get ix1 path) as [ix2 hit].
  cbn [fst snd] in G3, G4. subst hit. rewrite G2, Ee. cbn [fmap option_fmap option_map]. rewrite Hd.
  eexists. split; [done |]. intros ? [= <-]. intros p es' e Hw [He | [-> ->]]%put_items.
  - rewrite G4 in He. by apply (H1 p es' e).
  - rewrite Hp in Hw. by injection Hw as <-.
Qed.

(** ** Candidate rows *)

Lemma candidate_rows_sorted l : StronglySorted Z.lt l -> candidate_rows_of l = l.
Proof.
  intros Hl. unfold candidate_rows_of. assert (Transitive Z.le) as Ht by (intros x y z; lia).
  assert (base.Total Z.le) as Hto by (intros x y; lia).
  apply sorted_Z_unique.
  - apply StronglySorted_merge_sort; apply _.
  - clear -Hl. induction Hl as [| x l Hs IH Hx]; constructor; [done |].
    eapply list.Forall_impl; [exact Hx |]. intros; lia.
  - rewrite merge_sort_Permutation, elements_list_to_set; [done |].
    clear -Hl. induction Hl as [| x l Hs IH Hx]; constructor; [| done].
    intros Hin. rewrite list.Forall_forall in Hx. specialize (Hx x Hin). lia.
Qed.

Lemma seqZ_sorted i n : StronglySorted Z.lt (seqZ i n).
Proof.
  destruct (Z.le_gt_cases 0 n) as [Hn |]; [| rewrite seqZ_nil by lia; constructor].
  revert i. pattern n. apply natlike_ind; [| | done].
  - intros i. rewrite seqZ_nil by done. constructor.
  - intros m Hm IH i. rewrite seqZ_cons by lia. constructor; [rewrite Z.pred_succ; apply IH |].
    apply list.Forall_forall. intros x [? ?]%elem_of_seqZ. lia.
Qed.

Lemma rows_in_seq (es : list Entry) : rows_in es (seqZ 0 (len es)).
Proof. apply list.Forall_forall. intros x Hx%elem_of_seqZ. lia. Qed.

Lemma messageMatches_iff m q :
  messageMatchesQuery m q = true <-> Tokenize q <> [] /\ matches q m.
Proof.
  unfold messageMatchesQuery, matches.
  assert (TokenizeUnique q = [] <-> Tokenize q = []) as Hnil.
  { split; intros E; [destruct (Tokenize q) as [| t l] eqn:E2 | destruct (TokenizeUnique q) as [| t l] eqn:E2];
      try done; exfalso; eapply elem_of_nil.
    - rewrite <- E. apply elem_of_TokenizeUnique. rewrite E2. left.
    - rewrite <- E. apply elem_of_TokenizeUnique. rewrite E2. left. }
  destruct (Z.eqb_spec (len (TokenizeUnique q)) 0) as [E | E].
  - apply len_0_nil, Hnil in E. split; [done |]. by intros [].
  - assert (Tokenize q <> []) as Hne by (intros E2; apply E; by rewrite (proj2 Hnil E2)).
    rewrite forallb_forall, list.Forall_forall. split.
    + intros H. split; [done |]. intros t Ht%elem_of_TokenizeUnique.
      apply list_elem_of_In, H in Ht. by apply bool_decide_eq_true in Ht.
    + intros [_ H] t Ht%list_elem_of_In%elem_of_TokenizeUnique. apply bool_decide_eq_true. by apply H.
Qed.

(** The rows the index returns are the rows whose message matches. *)
Lemma query_rows es q :
  (if bool_decide (Tokenize q = []) then [] else matching_rows 0 q (Message <$> es)) =
    keep es (fun e => messageMatchesQuery (Message e) q) (seqZ 0 (len es)).
Proof.
  destruct (matching_rows_spec 0 q (Message <$> es)) as (Hs & _ & Hm).
  apply sorted_ext.
  - case_bool_decide; [constructor | done].
  - apply StronglySorted_filter, seqZ_sorted.
  - intros k. unfold keep, row_sat. rewrite list_elem_of_filter, elem_of_seqZ.
    case_bool_decide as Hq.
    + rewrite elem_of_nil. split; [done |]. intros [Hk _].
      destruct (es !! Z.to_nat k); [| done]. apply messageMatches_iff in Hk. tauto.
    + rewrite Hm. rewrite Z.sub_0_r. setoid_rewrite list_lookup_fmap. split.
      * intros (m & Hl & Hk & Hmt). destruct (es !! Z.to_nat k) as [e |] eqn:Ee; [| done].
        injection Hl as <-. split; [by apply messageMatches_iff |].
        apply lookup_lt_Some in Ee. unfold len. lia.
      * intros [Hk Hr]. destruct (es !! Z.to_nat k) as [e |] eqn:Ee; [| done].
        exists (Message e). split; [done |]. split; [lia |]. by apply messageMatches_iff in Hk as [_ Hk].
Qed.

Lemma cols_caches r es cols ix :
  cols_ok r es cols -> (forall i, ix = Some i -> indexes_ok i) ->
  caches_ok (mkCaches (shared cols) ix).
Proof. intros Hc Hi. split; [| done]. intros sh Hs. by apply (ck_shared _ _ _ Hc). Qed.

Definition good_reader (es : list Entry) (r : Reader) : Prop :=
  Forall (fun col => HasColumn r (Name col) = true /\ reads r es col) Schema.

(** The rows that the index and the columns let through. *)
Definition candidates (now : Z) (p : SearchParams) (es : list Entry) : list Z :=
  keep es (fun e => wants (p_Query p) (messageMatchesQuery (Message e) (p_Query p)) &&
                    columns_match now p e) (seqZ 0 (len es)).

Lemma openChunkRows_ok now cs chunkPath idxPath es colFile idxFile p :
  caches_ok cs -> chunk_at chunkPath = Some es -> chunk_at idxPath = Some es ->
  chunk_holds es colFile idxFile ->
  exists cs', caches_ok cs' /\
    ((exists r cols, good_reader es r /\ cols_ok r es cols /\
        openChunkRows now cs chunkPath idxPath (Some colFile) (Some idxFile) p =
          (cs', Ok (Some (cols, candidates now p es)))) \/
     (candidates now p es = [] /\
        openChunkRows now cs chunkPath idxPath (Some colFile) (Some idxFile) p = (cs', Ok None))).
Proof.
  intros [Hcs Hix] Hcp Hip [(r & Ho & Hn & Hg) Hidx [Hfit Hlen] _ _].
  set (q := fun e => wants (p_Query p) (messageMatchesQuery (Message e) (p_Query p))).
  assert (forall ix rows, (forall i, ix = Some i -> indexes_ok i) -> keep es q (seqZ 0 (len es)) = rows ->
    exists cols, cols_ok r es cols /\ caches_ok (mkCaches (shared cols) ix) /\
      applyColumnFilters now p rows (newCachedChunkColumns r (columns cs) chunkPath) =
        (cols, Ok (candidates now p es))) as Hrun.
  { intros ix rows Hi <-. unfold candidates. rewrite <- (keep_keep es q).
    destruct (applyColumnFilters_ok r es Hg now p (keep es q (seqZ 0 (len es))))
      with (cols := newCachedChunkColumns r (columns cs) chunkPath) as (cols & E & Hc).
    - apply keep_in, rows_in_seq.
    - apply newCachedChunkColumns_ok. intros s Hs. split; [done | by apply Hcs].
    - exists cols. split; [done |]. split; [by apply (cols_caches r es) | exact E]. }
  unfold openChunkRows. rewrite Ho. cbn [wrap].
  destruct (nonempty (p_Query p)) eqn:Hq.
  2:{ destruct (Hrun (indexes cs) (seqZ 0 (EntryCount r))) as (cols & Hc & Hcc & ->).
      - exact Hix.
      - rewrite Hn. rewrite (keep_ext es q (fun _ => true)); [apply keep_true, rows_in_seq |].
        intros e. unfold q, wants. by rewrite Hq.
      - exists (mkCaches (shared cols) (indexes cs)). split; [done |]. left. by exists r, cols. }
  destruct (Open_ok (indexes cs) idxPath es idxFile Hix Hip Hidx) as (ix & -> & Hi).
  unfold opened_index, index_builder. rewrite Search_ok.
  2:{ exact Hfit. }
  2:{ by rewrite len_fmap. }
  cbn [wrap]. rewrite query_rows.
  assert (keep es q (seqZ 0 (len es)) =
    keep es (fun e => messageMatchesQuery (Message e) (p_Query p)) (seqZ 0 (len es))) as Hk.
  { apply keep_ext. intros e. unfold q, wants. by rewrite Hq. }
  rewrite <- Hk. destruct (Z.eqb_spec (len (keep es q (seqZ 0 (len es)))) 0) as [E0 | E0].
  - exists (mkCaches (columns cs) ix). split; [by split |]. right. split; [| done].
    unfold candidates. rewrite <- (keep_keep es q), (len_0_nil _ E0). done.
  - rewrite candidate_rows_sorted by (apply StronglySorted_filter, seqZ_sorted).
    destruct (Hrun ix (keep es q (seqZ 0 (len es))) Hi eq_refl) as (cols & Hc & Hcc & ->).
    exists (mkCaches (shared cols) ix). split; [done |]. left. by exists r, cols.
Qed.
End ChunkLemmas.

(** ** Reading the rows of a page *)

Section PageLemmas.
Context {C : Zstd} {L : ZstdLaws C} {W : World} {U : Unicode} {T : Text} {TL : TextLaws T} {J : BodyJSON}.

(** The entry of a row, with or without its body. *)
Definition projected (includeBody : bool) (e : Entry) : Entry :=
  if includeBody then e else set Body [] e.

Definition at_rows (es : list Entry) (rows : list Z) : list Entry :=
  omap (fun row => es !! Z.to_nat row) rows.

Definition matching (p : SearchParams) (l : list Entry) : list Entry :=
  filter (fun e => matchesParams e p = true) l.

Section Reader.
Context (r : Reader) (es : list Entry).
Hypothesis Hg : good_reader es r.
Hypothesis Hes : Forall (fun e => sealed e = e /\ is_int64 (Status e)) es.

Lemma runs_fill row b e :
  0 <= row -> es !! Z.to_nat row = Some e -> runs r es (fill_row row b) (Some (projected b e)).
Proof.
  intros Hrow He cols Hc. rewrite list.Forall_forall in Hes.
  destruct (Hes e) as [Hs Hi]; [by eapply list_elem_of_lookup_2 |].
  destruct (fillEntry_ok r es (good_reads r es Hg) row e Hrow He cols b Hc Hi) as (cols' & E & Hc').
  exists cols'. split; [| done]. unfold fill_row. rewrite E, Hs. by destruct b.
Qed.

Lemma add_match_app p acc e : add_match p acc (Some e) = acc ++ matching p [e].
Proof.
  unfold add_match, matching. rewrite filter_cons, filter_nil.
  destruct (matchesParams e p); [done | by rewrite app_nil_r].
Qed.

Lemma matching_app p l l' : matching p (l ++ l') = matching p l ++ matching p l'.
Proof. apply filter_app. Qed.

Lemma matching_snoc p acc x l :
  (acc ++ matching p [x]) ++ matching p l = acc ++ matching p (x :: l).
Proof. rewrite <- app_assoc. f_equal. symmetry. apply (filter_app _ [x] l). Qed.

Lemma at_rows_cons row rows e :
  es !! Z.to_nat row = Some e -> at_rows es (row :: rows) = e :: at_rows es rows.
Proof. intros He. unfold at_rows. cbn [omap list_omap]. by rewrite He. Qed.

Lemma runs_read_rows p b rows acc :
  rows_in es rows ->
  runs r es (read_rows p b rows acc) (acc ++ matching p (projected b <$> at_rows es rows)).
Proof.
  intros Hin. revert acc. induction Hin as [| row rows Hr Hin IH]; intros acc; cbn [read_rows].
  { eapply runs_eq; [apply runs_ret |]. by rewrite app_nil_r. }
  destruct (lookup_lt_is_Some_2 es (Z.to_nat row)) as [e He]; [unfold len in *; lia |].
  eapply runs_bind; [apply (runs_fill row b e); [lia | done] |].
  eapply runs_eq; [apply IH |]. rewrite add_match_app, (at_rows_cons row rows e He), fmap_cons.
  apply matching_snoc.
Qed.

Lemma runs_until p n b rows acc :
  rows_in es rows -> len acc <= n ->
  runs r es (until_loop p n b rows acc)
    (take (Z.to_nat n) (acc ++ matching p (projected b <$> at_rows es rows))).
Proof.
  intros Hin. revert acc. induction Hin as [| row rows Hr Hin IH]; intros acc Hn; cbn [until_loop].
  { eapply runs_eq; [apply runs_ret |]. rewrite app_nil_r, take_ge; [done | unfold len in *; lia]. }
  destruct (Z.eqb_spec (len acc) n) as [E | E].
  { eapply runs_eq; [apply runs_ret |]. rewrite take_app_length'; [done | unfold len in *; lia]. }
  destruct (lookup_lt_is_Some_2 es (Z.to_nat row)) as [e He]; [unfold len in *; lia |].
  eapply runs_bind; [apply (runs_fill row b e); [lia | done] |].
  rewrite add_match_app. eapply runs_eq; [apply IH |].
  - rewrite len_app. unfold matching. rewrite filter_cons, filter_nil.
    case_decide; rewrite ?len_cons, ?len_nil; lia.
  - rewrite (at_rows_cons row rows e He), fmap_cons.
    by rewrite matching_snoc.
Qed.

(** [page_rows] as a function of the rows. *)
Definition page_of (p : SearchParams) (rows : list Z) : list Entry :=
  let limit := p_Offset p + p_Limit p in
  let post := needsPostReadFilter p in
  let ts := Ts <$> es in
  if (0 <? limit) && (limit <? len rows) then
    if post then
      take (Z.to_nat limit) (matching (without_query p)
        (at_rows es (merge_sort (not_after (ts_row_before ts (p_SortAsc p))) rows)))
    else
      matching (without_query p)
        (projected (negb (p_OmitBody p)) <$> at_rows es (selectTopRows ts rows (p_SortAsc p) limit))
  else
    matching (without_query p) (projected (negb (p_OmitBody p)) <$> at_rows es rows).

Lemma runs_ts msg : runs r es (column msg zstdInt64 "ts") (Ts <$> es).
Proof. apply runs_column, (zstdInt64_ok r es (good_reads r es Hg) "ts"). reflexivity. Qed.

Lemma rows_in_perm rows rows' : rows ≡ₚ rows' -> rows_in es rows -> rows_in es rows'.
Proof. intros Hp. unfold rows_in. by rewrite Hp. Qed.

Lemma projected_true (l : list Entry) : projected true <$> l = l.
Proof. apply list_fmap_id. Qed.

Lemma selectTopRows_in rows asc n :
  0 < n -> StronglySorted Z.lt rows -> rows_in es rows ->
  rows_in es (selectTopRows (Ts <$> es) rows asc n).
Proof.
  intros Hn Hs Hin. rewrite selectTopRows_lemma by done.
  apply (rows_in_perm (first_rows (Ts <$> es) rows asc n)); [by rewrite merge_sort_Permutation |].
  unfold rows_in in *. rewrite list.Forall_forall in *. intros x Hx. apply Hin.
  unfold first_rows in Hx. apply list_elem_of_fmap in Hx as (c & -> & Hc).
  apply elem_of_take in Hc as (i & Hc & _). apply list_elem_of_lookup_2 in Hc.
  rewrite merge_sort_Permutation in Hc. by apply list_elem_of_fmap in Hc as (x & -> & Hx).
Qed.

Lemma runs_page p rows :
  StronglySorted Z.lt rows -> rows_in es rows -> runs r es (page_rows p rows) (page_of p rows).
Proof.
  intros Hs Hin. unfold page_rows, page_of.
  change (needsPostReadFilter (without_query p)) with (needsPostReadFilter p).
  destruct (Z.eqb_spec (len rows) 0) as [E | E].
  { rewrite (len_0_nil _ E). change (len []) with 0. eapply runs_eq; [apply runs_ret |].
    destruct (Z.ltb_spec 0 (p_Offset p + p_Limit p)); [| done]. by zcmp. }
  destruct (Z.ltb_spec 0 (p_Offset p + p_Limit p)) as [Hl | Hl]; cbn [andb].
  2:{ eapply runs_bind; [apply runs_ret |]. apply (runs_read_rows _ _ rows []). done. }
  destruct (needsPostReadFilter p); cbn [negb andb].
  - rewrite andb_false_r. eapply runs_bind; [apply runs_ret |]. cbv beta.
    destruct (Z.ltb_spec (p_Offset p + p_Limit p) (len rows)) as [Hlt | Hge].
    + eapply runs_bind; [eapply runs_bind; [apply runs_ts | apply runs_ret] |].
      eapply runs_eq; [apply runs_until |].
      * apply (rows_in_perm rows); [by rewrite merge_sort_Permutation | done].
      * change (len (@nil Entry)) with 0. lia.
      * by rewrite projected_true.
    + apply (runs_read_rows _ _ rows []). done.
  - rewrite andb_true_r.
    destruct (Z.ltb_spec (p_Offset p + p_Limit p) (len rows)) as [Hlt | Hge].
    + eapply runs_bind; [eapply runs_bind; [apply runs_ts | apply runs_ret] |].
      cbv beta. apply (runs_read_rows _ _ _ []). by apply selectTopRows_in.
    + eapply runs_bind; [apply runs_ret |]. apply (runs_read_rows _ _ rows []). done.
Qed.

End Reader.
End PageLemmas.

(** ** The page of a chunk *)

Lemma StronglySorted_fmap_in {A B} (R : A -> A -> Prop) (S : B -> B -> Prop) (f : A -> B) (l : list A) :
  (forall x y, x ∈ l -> y ∈ l -> R x y -> S (f x) (f y)) ->
  StronglySorted R l -> StronglySorted S (f <$> l).
Proof.
  intros H Hs. induction Hs as [| x l Hs IH Hx]; [constructor |]. rewrite fmap_cons. constructor.
  - apply IH. intros y z Hy Hz. apply H; by right.
  - rewrite list.Forall_forall in Hx. apply list.Forall_forall.
    intros y' (y & -> & Hy)%list_elem_of_fmap. apply H; [left | by right | by apply Hx].
Qed.

Lemma lt_sorted_NoDup (l : list Z) : StronglySorted Z.lt l -> NoDup l.
Proof.
  induction 1 as [| x l Hs IH Hx]; constructor; [| done].
  intros Hin. rewrite list.Forall_forall in Hx. specialize (Hx x Hin). lia.
Qed.

Section RowOrder.
Context (es : list Entry) (asc : bool).
Hypothesis Hids : StronglySorted Z.lt (ID <$> es).

Definition entry_at (row : Z) : Entry := default Entry0 (es !! Z.to_nat row).

Lemma entry_at_in row : 0 <= row < len es -> es !! Z.to_nat row = Some (entry_at row).
Proof.
  intros Hr. destruct (lookup_lt_is_Some_2 es (Z.to_nat row)) as [e He]; [unfold len in *; lia |].
  unfold entry_at. by rewrite He.
Qed.

Lemma at_rows_fmap rows : rows_in es rows -> at_rows es rows = entry_at <$> rows.
Proof.
  induction 1 as [| row rows Hr H IH]; [done |]. rewrite fmap_cons, <- IH.
  apply at_rows_cons. by apply entry_at_in.
Qed.

Lemma tsAt_entry row : 0 <= row < len es -> tsAt (Ts <$> es) row = Ts (entry_at row).
Proof.
  intros Hr. unfold tsAt. rewrite len_fmap. zcmp. cbn [orb].
  rewrite list_lookup_fmap, (entry_at_in row) by done. done.
Qed.

Lemma sorted_ids_lt i j :
  0 <= i < len es -> 0 <= j < len es -> i < j -> ID (entry_at i) < ID (entry_at j).
Proof.
  intros Hi Hj Hlt. apply (sorted_lookup Z.lt (ID <$> es) (Z.to_nat i) (Z.to_nat j)); [done | | | lia].
  - rewrite list_lookup_fmap, (entry_at_in i) by done. done.
  - rewrite list_lookup_fmap, (entry_at_in j) by done. done.
Qed.

Lemma distinct_rows rows :
  StronglySorted Z.lt rows -> rows_in es rows -> distinct_ids (entry_at <$> rows).
Proof.
  intros Hs Hin. unfold distinct_ids. rewrite <- list_fmap_compose. apply lt_sorted_NoDup.
  apply (StronglySorted_fmap_in Z.lt); [| done]. unfold rows_in in Hin.
  rewrite list.Forall_forall in Hin. intros i j Hi%Hin Hj%Hin. by apply sorted_ids_lt.
Qed.

Lemma row_entry_order a b :
  0 <= rc_row a < len es -> 0 <= rc_row b < len es ->
  rc_ts a = Ts (entry_at (rc_row a)) -> rc_ts b = Ts (entry_at (rc_row b)) ->
  not_after (rowComesBefore asc) a b ->
  not_after (entryComesBefore asc) (entry_at (rc_row a)) (entry_at (rc_row b)).
Proof.
  intros Ha Hb Ea Eb. unfold not_after, rowComesBefore, entryComesBefore. rewrite Ea, Eb.
  pose proof (sorted_ids_lt (rc_row a) (rc_row b) Ha Hb).
  destruct (negb (Ts (entry_at (rc_row b)) =? Ts (entry_at (rc_row a)))); [done |].
  rewrite !Z.ltb_ge. intros Hle. destruct (decide (rc_row a = rc_row b)) as [-> |]; lia.
Qed.

(** Rows sorted by the timestamp column are their entries sorted. *)
Lemma sorted_rows_entries rows :
  StronglySorted Z.lt rows -> rows_in es rows ->
  entry_at <$> (rc_row <$> merge_sort (not_after (rowComesBefore asc))
    ((fun row => mkCandidate row (tsAt (Ts <$> es) row)) <$> rows)) =
  sortEntriesByTs (entry_at <$> rows) asc.
Proof.
  intros Hs Hin. set (cand := fun row => _).
  assert (Transitive (not_after (rowComesBefore asc))) as Ht
    by (intros x y z; apply row_before_trans).
  symmetry. apply sort_unique.
  - by apply distinct_rows.
  - rewrite <- list_fmap_compose.
    apply (StronglySorted_fmap_in (not_after (rowComesBefore asc))).
    + intros a b Ha Hb. rewrite merge_sort_Permutation in Ha, Hb.
      apply list_elem_of_fmap in Ha as (i & -> & Hi). apply list_elem_of_fmap in Hb as (j & -> & Hj).
      unfold rows_in in Hin. rewrite list.Forall_forall in Hin. apply Hin in Hi, Hj.
      apply row_entry_order; cbn [rc_row rc_ts cand]; try done; by apply tsAt_entry.
    + apply StronglySorted_merge_sort; apply _.
  - rewrite merge_sort_Permutation. unfold cand. by rewrite candidate_rows.
Qed.
End RowOrder.

Lemma filter_all {A} (P : A -> Prop) `{!forall x, Decision (P x)} (l : list A) :
  Forall P l -> filter P l = l.
Proof.
  intros HF. induction HF as [| x l Hx HF IH]; [done |]. by rewrite filter_cons, decide_True, IH.
Qed.

Section ChunkPage.
Context {C : Zstd} {U : Unicode} {T : Text} {TL : TextLaws T} {J : BodyJSON}.
Context (now : Z) (p : SearchParams) (es : list Entry).

(** An exactly compared field that agrees with the filter up to case is equal to
    it. *)
Definition case_exact (e : Entry) : Prop :=
  columns_match now p e = true -> exact_match p e = true.

(** The conditions under which a chunk's page is exact.  Both are about the
    filters the columns cannot decide: narrowing to a page drops rows before the
    exact comparison, and the scan for metadata and exclusions breaks timestamp
    ties by row. *)
Definition page_exact : Prop :=
  if needsPostReadFilter p then
    p_OmitBody p = false /\ (p_SortAsc p = true \/ NoDup (Ts <$> es))
  else Forall case_exact es.

Definition seen (e : Entry) : Entry := projected (negb (p_OmitBody p)) e.

Lemma seen_id e : ID (seen e) = ID e.
Proof. unfold seen, projected. by destruct (negb _). Qed.

Lemma seen_ts e : Ts (seen e) = Ts e.
Proof. unfold seen, projected. by destruct (negb _). Qed.

Lemma seen_ids (l : list Entry) : ID <$> (seen <$> l) = ID <$> l.
Proof. rewrite <- list_fmap_compose. apply list_fmap_ext. intros i e _. apply seen_id. Qed.

Lemma distinct_seen (l : list Entry) : distinct_ids l -> distinct_ids (seen <$> l).
Proof. unfold distinct_ids. by rewrite seen_ids. Qed.

Lemma seen_before asc a b :
  entryComesBefore asc (seen a) (seen b) = entryComesBefore asc a b.
Proof. unfold entryComesBefore. by rewrite !seen_ts, !seen_id. Qed.

(** Projection and sorting commute. *)
Lemma sort_seen asc (l : list Entry) :
  distinct_ids l -> sortEntriesByTs (seen <$> l) asc = seen <$> sortEntriesByTs l asc.
Proof.
  intros Hd. apply sort_unique; [by apply distinct_seen | | by rewrite sort_perm_id].
  apply (StronglySorted_fmap_in (not_after (entryComesBefore asc))); [| apply sort_sorted].
  intros x y _ _. unfold not_after. by rewrite seen_before.
Qed.

Lemma at_rows_keep P : at_rows es (keep es P (seqZ 0 (len es))) = filter (fun e => P e = true) es.
Proof.
  assert (forall l pre, es = pre ++ l ->
    at_rows es (keep es P (seqZ (len pre) (len l))) = filter (fun e => P e = true) l) as H.
  { induction l as [| e l IH]; intros pre E; [done |].
    rewrite len_cons, seqZ_cons by (len_pose; lia).
    replace (Z.pred (1 + len l)) with (len l) by lia. replace (Z.succ (len pre)) with (len (pre ++ [e]))
      by (rewrite len_app, len_cons, len_nil; lia).
    assert (es !! Z.to_nat (len pre) = Some e) as He.
    { rewrite E, to_nat_len, list_lookup_middle; done. }
    assert (row_sat es P (len pre) = P e) as Hsat by (unfold row_sat; by rewrite He).
    unfold keep. rewrite !filter_cons.
    fold (keep es P (seqZ (len (pre ++ [e])) (len l))).
    specialize (IH (pre ++ [e])). rewrite <- app_assoc in IH. specialize (IH E).
    destruct (P e) eqn:EP.
    - rewrite !decide_True by congruence. rewrite (at_rows_cons es _ _ e He). by f_equal.
    - rewrite !decide_False by congruence. exact IH. }
  apply (H es []). done.
Qed.

Definition candidate (e : Entry) : bool :=
  wants (p_Query p) (messageMatchesQuery (Message e) (p_Query p)) && columns_match now p e.

Lemma candidates_entries : at_rows es (candidates now p es) = filter (fun e => candidate e = true) es.
Proof. apply at_rows_keep. Qed.

Context (s t : Z).
Hypothesis Hs : p_Start p = Some s.
Hypothesis Ht : p_End p = Some t.

Lemma matches_candidate e :
  matchesParams e p = candidate e && matchesParams e (without_query p).
Proof.
  rewrite matchesParams_query. unfold candidate.
  rewrite !(matchesParams_columns now p e s t Hs Ht).
  by destruct (wants _ _), (columns_match now p e).
Qed.

Lemma post_match_free e : needsPostReadFilter p = false -> post_match p e = true.
Proof.
  unfold needsPostReadFilter, post_match, matchesMetadata, matchesExclude.
  intros [H1 H2]%orb_false_iff. apply negb_false_iff, bool_decide_eq_true in H1, H2.
  rewrite H1, H2. by rewrite bool_decide_eq_true_2, map_to_list_empty.
Qed.

(** A filter on the entry that does not need its body sees no difference. *)
Lemma matches_seen e :
  page_exact -> matchesParams (seen e) (without_query p) = matchesParams e (without_query p).
Proof.
  intros Hx. rewrite !(matchesParams_columns now p _ s t Hs Ht). unfold seen, projected.
  unfold page_exact in Hx. destruct (needsPostReadFilter p) eqn:Hp.
  - destruct Hx as [-> _]. done.
  - rewrite !post_match_free by done. destruct (negb (p_OmitBody p)); [done |]. reflexivity.
Qed.

Lemma matching_seen (l : list Entry) :
  page_exact -> matching (without_query p) (seen <$> l) = seen <$> matching (without_query p) l.
Proof.
  intros Hx. induction l as [| e l IH]; [done |]. rewrite fmap_cons. unfold matching in *.
  rewrite !filter_cons. rewrite matches_seen by done. case_decide; [| done]. by rewrite fmap_cons, IH.
Qed.

Lemma matching_candidates :
  matching (without_query p) (filter (fun e => candidate e = true) es) = matching p es.
Proof.
  unfold matching. rewrite list_filter_filter. apply list_filter_iff. intros e.
  rewrite matches_candidate, andb_true_iff. tauto.
Qed.

Hypothesis Hids : StronglySorted Z.lt (ID <$> es).

Lemma candidates_in : rows_in es (candidates now p es).
Proof. apply keep_in, rows_in_seq. Qed.

Lemma candidates_lt : StronglySorted Z.lt (candidates now p es).
Proof. apply StronglySorted_filter, seqZ_sorted. Qed.

Lemma distinct_matching : distinct_ids (matching p es).
Proof.
  apply (distinct_ids_submseteq _ es).
  - apply sublist_submseteq, sublist_filter.
  - apply lt_sorted_NoDup, Hids.
Qed.

Lemma candidates_fmap : entry_at es <$> candidates now p es = filter (fun e => candidate e = true) es.
Proof. rewrite <- candidates_entries. symmetry. apply at_rows_fmap, candidates_in. Qed.

(** Without a filter on the whole entry, what the columns let through matches. *)
Lemma candidates_match :
  needsPostReadFilter p = false -> page_exact -> filter (fun e => candidate e = true) es = matching p es.
Proof.
  intros Hp Hx. unfold page_exact in Hx. rewrite Hp in Hx. rewrite list.Forall_forall in Hx.
  apply filter_ext_bool. intros e He. rewrite matches_candidate.
  rewrite (matchesParams_columns now p e s t Hs Ht), (post_match_free e Hp).
  destruct (candidate e) eqn:Ec; [| done]. cbn [andb].
  apply andb_true_iff in Ec as [_ Ec]. by rewrite Ec, (Hx e He Ec).
Qed.

Lemma narrowed_page n :
  0 < n -> needsPostReadFilter p = false -> page_exact ->
  matching (without_query p)
    (seen <$> at_rows es (selectTopRows (Ts <$> es) (candidates now p es) (p_SortAsc p) n)) ≡ₚ
  take (Z.to_nat n) (sortEntriesByTs (seen <$> matching p es) (p_SortAsc p)).
Proof.
  intros Hn Hp Hx. rewrite matching_seen, sort_seen, <- fmap_take by (done || apply distinct_matching).
  apply fmap_Permutation. pose proof candidates_in as Hin. pose proof candidates_lt as Hlt.
  rewrite at_rows_fmap by (by apply selectTopRows_in).
  rewrite selectTopRows_lemma by done.
  assert (entry_at es <$> merge_sort Z.le (first_rows (Ts <$> es) (candidates now p es) (p_SortAsc p) n) ≡ₚ
    take (Z.to_nat n) (sortEntriesByTs (matching p es) (p_SortAsc p))) as Hperm.
  { rewrite merge_sort_Permutation. unfold first_rows. rewrite !fmap_take.
    rewrite (sorted_rows_entries es (p_SortAsc p) Hids) by done.
    rewrite candidates_fmap, candidates_match by done. done. }
  rewrite <- Hperm. unfold matching. rewrite filter_all; [done |].
  apply list.Forall_forall. intros e He. rewrite Hperm in He.
  apply elem_of_take in He as (i & He%list_elem_of_lookup_2 & _). rewrite sort_perm_id in He.
  apply list_elem_of_filter in He as [He _]. rewrite matches_candidate in He.
  by apply andb_true_iff in He as [_ He].
Qed.

(** Ties between timestamps fall as in the page when they are broken by row in
    the direction of the IDs, or do not occur. *)
Lemma ts_rows_sorted rows :
  StronglySorted Z.lt rows -> rows_in es rows -> p_SortAsc p = true \/ NoDup (Ts <$> es) ->
  entry_at es <$> merge_sort (not_after (ts_row_before (Ts <$> es) (p_SortAsc p))) rows =
    sortEntriesByTs (entry_at es <$> rows) (p_SortAsc p).
Proof.
  intros Hrs Hin Htie. symmetry. apply sort_unique; [by apply distinct_rows | |].
  - apply (StronglySorted_fmap_in (not_after (ts_row_before (Ts <$> es) (p_SortAsc p)))).
    + intros i j Hi Hj. rewrite merge_sort_Permutation in Hi, Hj.
      unfold rows_in in Hin. rewrite list.Forall_forall in Hin. apply Hin in Hi, Hj.
      unfold not_after, ts_row_before, entryComesBefore. rewrite !tsAt_entry by done.
      destruct (Z.eqb_spec (Ts (entry_at es j)) (Ts (entry_at es i))) as [E | E]; [| done].
      cbn [negb]. destruct Htie as [-> | Hnd].
      * rewrite !Z.ltb_ge. pose proof (sorted_ids_lt es Hids i j Hi Hj).
        destruct (decide (i = j)) as [-> |]; lia.
      * assert (Z.to_nat j = Z.to_nat i) as Eij.
        { apply (NoDup_lookup (Ts <$> es) _ _ (Ts (entry_at es j))); [done | |];
            rewrite list_lookup_fmap, entry_at_in by done; [done |]. by rewrite E. }
        assert (j = i) as -> by lia. intros _. apply Z.ltb_irrefl.
    + apply StronglySorted_merge_sort.
      * intros i j k. unfold not_after, ts_row_before.
        destruct (p_SortAsc p); zbool; try done; lia.
      * intros i j. unfold not_after, ts_row_before.
        destruct (p_SortAsc p); zbool; try tauto; lia.
  - by rewrite merge_sort_Permutation.
Qed.

Lemma filter_sorted_page q l asc :
  distinct_ids l -> matching q (sortEntriesByTs l asc) = sortEntriesByTs (matching q l) asc.
Proof.
  intros Hd. symmetry. unfold matching. apply sort_unique.
  - apply (distinct_ids_submseteq _ l); [| done]. apply sublist_submseteq, sublist_filter.
  - apply StronglySorted_filter, sort_sorted.
  - by rewrite sort_perm_id.
Qed.

Lemma seen_all (l : list Entry) : p_OmitBody p = false -> seen <$> l = l.
Proof. intros Ho. unfold seen. rewrite Ho. apply list_fmap_id. Qed.

(** What a chunk contributes stands for all its matching entries. *)
Lemma page_of_ok :
  0 < p_Offset p + p_Limit p -> page_exact ->
  page_of_source (entryComesBefore (p_SortAsc p)) (Z.to_nat (p_Offset p + p_Limit p)) (seen <$> matching p es)
    (page_of es p (candidates now p es)).
Proof.
  intros Hl Hx. unfold page_of. rewrite (proj2 (Z.ltb_lt _ _) Hl). cbn [andb].
  pose proof distinct_matching as Hd.
  destruct (Z.ltb_spec (p_Offset p + p_Limit p) (len (candidates now p es))) as [Hn | Hn].
  2:{ fold seen. rewrite candidates_entries, matching_seen, matching_candidates by done.
      apply page_source_refl. }
  destruct (needsPostReadFilter p) eqn:Hp.
  - pose proof Hx as Hx'. unfold page_exact in Hx'. rewrite Hp in Hx'. destruct Hx' as [Ho Htie].
    pose proof candidates_in as Hin. pose proof candidates_lt as Hlt.
    rewrite at_rows_fmap by (eapply rows_in_perm; [by rewrite merge_sort_Permutation | done]).
    rewrite ts_rows_sorted, candidates_fmap by done.
    rewrite filter_sorted_page, matching_candidates, seen_all by
      (done || (apply (distinct_ids_submseteq _ es);
        [apply sublist_submseteq, sublist_filter | apply lt_sorted_NoDup, Hids])).
    by apply (page_source_take (entryComesBefore (p_SortAsc p))).
  - apply (page_source_perm _ _ _
      (take (Z.to_nat (p_Offset p + p_Limit p)) (sortEntriesByTs (seen <$> matching p es) (p_SortAsc p)))).
    + by apply distinct_seen.
    + symmetry. by apply narrowed_page.
    + apply (page_source_take (entryComesBefore (p_SortAsc p))). by apply distinct_seen.
Qed.
End ChunkPage.
