(* ===== verification/Paging.v ===== *)
(** * One search over the whole store (engine/store.go Search, query.go)

    [SearchStore] is [Store.Search] on a snapshot of the store: the registered
    segments, their directories and the entries of the unsealed logs.  The
    segments are searched in order; the code runs them concurrently, and they
    share nothing but the caches, which change no answer. *)

From stdpp Require Import base list gmap strings numbers sorting.
From Stdlib Require Import ZArith Lia.
From S2P Require Import Prelude Zstd Schema Wal Chunk Cache Rows Index Ids Seal Segments TopN Pages Query.
From S2P Require Import Filter Search.

(** What [queryView] reads: the segments in order, the directory of each, and the
    parsed unsealed logs in the order of their paths. *)
Record StoreView := mkView {
  sv_segments : list LoadedSegment;
  sv_dirs : bytes -> Dir;
  sv_wals : list (list Entry)
}.

Section Store.
Context {C : Zstd} {U : Unicode} {T : Text} {J : BodyJSON}.

(** [forEachWALEntry] with a callback that never stops. *)
Definition wal_entries (v : StoreView) : list Entry := concat (sv_wals v).

(** [searchWALsTop]: the heap of the first [limit] matches, and their number. *)
Definition wal_step (p : SearchParams) (limit : Z) (acc : list Entry * Z) (e : Entry)
  : list Entry * Z :=
  if matchesParams e p then
    let candidate := if p_OmitBody p && negb (needsPostReadFilter p) then set Body [] e else e in
    (top_step (entryComesBefore (p_SortAsc p)) (Z.to_nat limit) acc.1 candidate, acc.2 + 1)
  else acc.

Definition searchWALsTop (v : StoreView) (p : SearchParams) (limit : Z) : list Entry * Z :=
  let limit := if limit <=? 0 then p_Limit p else limit in
  foldl (wal_step p limit) ([], 0) (wal_entries v).

(** [params.Limit], [params.Start] and [params.End] with their defaults. *)
Definition defaulted (now : Z) (p : SearchParams) : SearchParams :=
  let limit := if p_Limit p <=? 0 then 50 else p_Limit p in
  let limit := if 500 <? limit then 500 else limit in
  let start := match p_Start p with Some t => t | None => now - Hour_ns end in
  let stop := match p_End p with Some t => t | None => now end in
  with_page limit (Some start) (Some stop) p.

(** One segment's goroutine: a failed or panicking segment contributes nothing. *)
Definition segment_page (now : Z) (p : SearchParams) (perSegLimit : Z) (v : StoreView)
  (acc : Caches * list Entry * Z) (seg : LoadedSegment) : Caches * list Entry * Z :=
  let '(cs, allMatches, total) := acc in
  match searchSegment now cs seg (sv_dirs v (DirName seg)) p with
  | (cs, Ok entries) =>
      (cs, allMatches ++ capEntriesByTs entries (p_SortAsc p) perSegLimit, total + len entries)
  | (cs, _) => (cs, allMatches, total)
  end.

(** The page of the sorted matches. *)
Definition cut_page (p : SearchParams) (allMatches : list Entry) : list Entry :=
  let l :=
    if (0 <? p_Offset p) && (p_Offset p <? len allMatches) then drop (Z.to_nat (p_Offset p)) allMatches
    else if len allMatches <=? p_Offset p then [] else allMatches in
  if p_Limit p <? len l then take (Z.to_nat (p_Limit p)) l else l.

Definition SearchStore (now : Z) (cs : Caches) (v : StoreView) (p : SearchParams)
  : Caches * list Entry * Z :=
  let p := defaulted now p in
  let perSegLimit := p_Offset p + p_Limit p in
  let segs := SegmentsInRange (sv_segments v) (default 0 (p_Start p)) (default 0 (p_End p)) in
  let '(cs, allMatches, total) := foldl (segment_page now p perSegLimit v) (cs, [], 0) segs in
  let '(activeMatches, activeTotal) := searchWALsTop v p perSegLimit in
  let total := total + activeTotal in
  let allMatches := sortEntriesByTs (allMatches ++ activeMatches) (p_SortAsc p) in
  (cs, cut_page p allMatches, total).

End Store.

(** ** Chunks and segments *)

Section StoreLemmas.
Context {C : Zstd} {L : ZstdLaws C} {W : World} {U : Unicode} {T : Text} {TL : TextLaws T} {J : BodyJSON}.

Lemma page_of_nil es p : page_of es p [] = [].
Proof.
  unfold page_of. change (len (@nil Z)) with 0.
  destruct (Z.ltb_spec 0 (p_Offset p + p_Limit p)); [| done].
  rewrite (proj2 (Z.ltb_ge (p_Offset p + p_Limit p) 0)) by lia. done.
Qed.

Lemma searchChunk_ok now cs chunkPath idxPath es colFile idxFile p :
  caches_ok cs -> chunk_at chunkPath = Some es -> chunk_at idxPath = Some es ->
  chunk_holds es colFile idxFile ->
  exists cs', caches_ok cs' /\
    searchChunk now cs chunkPath idxPath (Some colFile) (Some idxFile) p =
      (cs', Ok (page_of es p (candidates now p es))).
Proof.
  intros Hcs Hcp Hip Hh.
  destruct (openChunkRows_ok now cs chunkPath idxPath es colFile idxFile p Hcs Hcp Hip Hh)
    as (cs1 & Hcs1 & [(r & cols & Hg & Hc & E) | [E0 E]]); unfold searchChunk; rewrite E.
  - destruct (runs_page r es Hg (ch_rows _ _ _ Hh) p (candidates now p es)) with (cols := cols)
      as (cols' & E' & Hc'); [by apply StronglySorted_filter, seqZ_sorted
        | apply keep_in, rows_in_seq | done |].
    rewrite E'. eexists. split; [| done]. apply (cols_caches r es); [done |]. by apply Hcs1.
  - exists cs1. split; [done |]. by rewrite E0, page_of_nil.
Qed.

(** The chunk [cm] of the directory [d] holds the entries [es]. *)
Definition chunk_stored (dirPath : bytes) (d : Dir) (cm : ChunkMeta) (es : list Entry) : Prop :=
  chunk_at (path_in dirPath (chunk_name (Index cm))) = Some es /\
  chunk_at (path_in dirPath (index_name (Index cm))) = Some es /\
  exists colFile idxFile,
    d !! chunk_name (Index cm) = Some colFile /\ d !! index_name (Index cm) = Some idxFile /\
    chunk_holds es colFile idxFile.

(** The segment's directory holds the row groups [bs]. *)
Definition segment_holds (dirs : bytes -> Dir) (seg : LoadedSegment) (bs : list (list Entry)) : Prop :=
  exists meta, Meta seg = Some meta /\
    Forall2 (chunk_stored (DirName seg) (dirs (DirName seg))) (Chunks meta) bs.

Lemma search_chunks_ok now p dirPath d chunks bs cs acc :
  caches_ok cs -> Forall2 (chunk_stored dirPath d) chunks bs ->
  exists cs', caches_ok cs' /\
    search_chunks now cs dirPath d chunks p acc =
      (cs', Ok (acc ++ concat ((fun es => page_of es p (candidates now p es)) <$> bs))).
Proof.
  intros Hcs H. revert cs acc Hcs.
  induction H as [| cm es chunks bs (Hp & Hi & col & idx & Hcol & Hidx & Hh) H IH]; intros cs acc Hcs.
  { exists cs. split; [done |]. cbn. by rewrite app_nil_r. }
  cbn [search_chunks]. rewrite Hcol, Hidx.
  destruct (searchChunk_ok now cs _ _ es col idx p Hcs Hp Hi Hh) as (cs1 & Hcs1 & ->).
  destruct (IH cs1 (acc ++ page_of es p (candidates now p es)) Hcs1) as (cs2 & Hcs2 & ->).
  exists cs2. split; [done |]. cbn [fmap list_fmap concat]. by rewrite app_assoc.
Qed.

Lemma searchSegment_ok now p dirs seg bs cs :
  caches_ok cs -> segment_holds dirs seg bs ->
  exists cs', caches_ok cs' /\
    searchSegment now cs seg (dirs (DirName seg)) p =
      (cs', Ok (concat ((fun es => page_of es p (candidates now p es)) <$> bs))).
Proof.
  intros Hcs (meta & Hm & H). unfold searchSegment. rewrite Hm.
  by apply (search_chunks_ok now p _ _ _ bs cs []).
Qed.

(** ** Pages *)

Lemma matching_concat p (ls : list (list Entry)) : matching p (concat ls) = concat (matching p <$> ls).
Proof.
  induction ls as [| l ls IH]; [done |]. cbn [concat fmap list_fmap]. rewrite matching_app. by f_equal.
Qed.

Lemma fmap_concat {A B} (f : A -> B) (ls : list (list A)) : fmap (M := list) f (concat ls) = concat (fmap (M := list) (fmap (M := list) f) ls).
Proof. induction ls as [| l ls IH]; [done |]. cbn [concat]. rewrite fmap_app, IH. done. Qed.

Lemma distinct_concat (ls : list (list Entry)) l :
  distinct_ids (concat ls) -> l ∈ ls -> distinct_ids l.
Proof.
  intros Hd (l1 & l2 & ->)%list_elem_of_split. rewrite concat_app in Hd. cbn [concat] in Hd.
  apply (distinct_ids_submseteq _ (concat l1 ++ l ++ concat l2)); [| done].
  apply submseteq_inserts_l, submseteq_inserts_r. done.
Qed.

Section Page.
Context (now : Z) (p : SearchParams) (s t : Z).
Hypothesis Hs : p_Start p = Some s.
Hypothesis Ht : p_End p = Some t.
Hypothesis Hl : 0 < p_Offset p + p_Limit p.

#[local] Abbreviation n := (Z.to_nat (p_Offset p + p_Limit p)).

Lemma distinct_seen_matching l : distinct_ids l -> distinct_ids (seen p <$> matching p l).
Proof.
  intros Hd. apply distinct_seen. apply (distinct_ids_submseteq _ l); [| done].
  apply sublist_submseteq, sublist_filter.
Qed.

(** A segment's capped matches stand for its matching entries. *)
Lemma segment_source bs :
  distinct_ids (concat bs) -> Forall (fun es => StronglySorted Z.lt (ID <$> es)) bs ->
  Forall (page_exact now p) bs ->
  page_of_source (entryComesBefore (p_SortAsc p)) n (seen p <$> matching p (concat bs))
    (capEntriesByTs (concat ((fun es => page_of es p (candidates now p es)) <$> bs)) (p_SortAsc p)
       (p_Offset p + p_Limit p)).
Proof.
  intros Hd Hids Hx.
  assert (page_of_source (entryComesBefore (p_SortAsc p)) n (seen p <$> matching p (concat bs))
    (concat ((fun es => page_of es p (candidates now p es)) <$> bs))) as H.
  { rewrite matching_concat, fmap_concat. apply (page_source_concat (entryComesBefore (p_SortAsc p))).
    - rewrite <- fmap_concat, <- matching_concat. by apply distinct_seen_matching.
    - clear Hd. induction bs as [| es bs IH]; [constructor |].
      apply Forall_cons in Hids as [Hi Hids]. apply Forall_cons in Hx as [Hxe Hx].
      cbn [fmap list_fmap]. constructor; [by apply (page_of_ok now p es s t) | by apply IH]. }
  eapply page_source_trans; [exact H |]. apply page_source_cap; [done |].
  eapply distinct_ids_submseteq; [apply H | by apply distinct_seen_matching].
Qed.

(** The unsealed logs' heap stands for their matching entries. *)
Lemma wal_fold l acc k :
  (needsPostReadFilter p = true -> p_OmitBody p = false) ->
  foldl (wal_step p (p_Offset p + p_Limit p)) (acc, k) l =
    (foldl (top_step (entryComesBefore (p_SortAsc p)) n) acc (seen p <$> matching p l),
     k + len (matching p l)).
Proof.
  intros Ho. revert acc k. induction l as [| e l IH]; intros acc k.
  { change (len (matching p [])) with 0. by rewrite Z.add_0_r. }
  cbn [foldl]. unfold wal_step at 2, matching. rewrite filter_cons.
  destruct (matchesParams e p); [| apply IH]. cbn [fst snd]. rewrite IH. fold (matching p l).
  rewrite decide_True by done. rewrite len_cons, fmap_cons. cbn [foldl].
  f_equal; [| lia]. do 2 f_equal.
  assert ((if p_OmitBody p && negb (needsPostReadFilter p) then set Body [] e else e) = seen p e) as ->; [| done].
  unfold seen, projected. destruct (needsPostReadFilter p); [by rewrite Ho |].
  by destruct (p_OmitBody p).
Qed.


(** The segments in order. *)
Lemma segments_ok v segs groups cs acc total :
  caches_ok cs -> Forall2 (segment_holds (sv_dirs v)) segs groups ->
  exists cs' total', caches_ok cs' /\
    foldl (segment_page now p (p_Offset p + p_Limit p) v) (cs, acc, total) segs =
      (cs', acc ++ concat ((fun bs =>
         capEntriesByTs (concat ((fun es => page_of es p (candidates now p es)) <$> bs)) (p_SortAsc p)
           (p_Offset p + p_Limit p)) <$> groups), total').
Proof.
  intros Hcs H. revert cs acc total Hcs.
  induction H as [| seg bs segs groups Hseg H IH]; intros cs acc total Hcs.
  { exists cs, total. split; [done |]. cbn. by rewrite app_nil_r. }
  cbn [foldl]. unfold segment_page at 2.
  destruct (searchSegment_ok now p (sv_dirs v) seg bs cs Hcs Hseg) as (cs1 & Hcs1 & ->).
  match goal with |- context [foldl _ (cs1, ?a, ?t) segs] => destruct (IH cs1 a t Hcs1) as (cs2 & t' & Hcs2 & ->) end.
  exists cs2, t'. split; [done |]. cbn [fmap list_fmap concat]. by rewrite app_assoc.
Qed.

Lemma holds_ids dirs seg bs :
  segment_holds dirs seg bs -> Forall (fun es => StronglySorted Z.lt (ID <$> es)) bs.
Proof.
  intros (meta & _ & H). induction H as [| cm es chunks bs (_ & _ & c & i & _ & _ & Hh) H IH]; constructor; [| done].
  by apply Hh.
Qed.

Lemma segments_source v segs groups :
  Forall2 (segment_holds (sv_dirs v)) segs groups -> distinct_ids (concat (@concat Entry <$> groups)) ->
  Forall (Forall (page_exact now p)) groups ->
  page_of_source (entryComesBefore (p_SortAsc p)) n (seen p <$> matching p (concat (@concat Entry <$> groups)))
    (concat ((fun bs =>
       capEntriesByTs (concat ((fun es => page_of es p (candidates now p es)) <$> bs)) (p_SortAsc p)
         (p_Offset p + p_Limit p)) <$> groups)).
Proof.
  intros H Hd Hx. induction H as [| seg bs segs groups Hseg H IH]; [apply page_source_refl |].
  apply Forall_cons in Hx as [Hxb Hx]. cbn [fmap list_fmap concat] in *.
  rewrite matching_app, fmap_app. apply (page_source_app (entryComesBefore (p_SortAsc p))).
  - rewrite <- fmap_app, <- matching_app. by apply distinct_seen_matching.
  - apply segment_source; [| by eapply holds_ids | done].
    eapply distinct_ids_submseteq; [| exact Hd]. by apply submseteq_inserts_r.
  - apply IH; [| done]. by eapply distinct_ids_app_r.
Qed.

Lemma cut_page_ok l :
  0 <= p_Offset p -> 0 < p_Limit p ->
  cut_page p l = drop (Z.to_nat (p_Offset p)) (take n l).
Proof.
  intros Ho Hp. assert (cut_page p l = take (Z.to_nat (p_Limit p)) (drop (Z.to_nat (p_Offset p)) l)) as ->.
  { unfold cut_page.
    assert ((if (0 <? p_Offset p) && (p_Offset p <? len l) then drop (Z.to_nat (p_Offset p)) l
      else if len l <=? p_Offset p then [] else l) = drop (Z.to_nat (p_Offset p)) l) as ->.
    { destruct (Z.ltb_spec 0 (p_Offset p)), (Z.ltb_spec (p_Offset p) (len l)); cbn [andb]; try done.
      - zcmp. rewrite drop_ge; [done |]. unfold len in *. lia.
      - zcmp. replace (p_Offset p) with 0 by lia. done.
      - zcmp. rewrite drop_ge; [done |]. unfold len in *. lia. }
    destruct (Z.ltb_spec (p_Limit p) (len (drop (Z.to_nat (p_Offset p)) l))); [done |].
    rewrite take_ge; [done |]. unfold len in *. lia. }
  rewrite take_drop_commute. do 2 f_equal. lia.
Qed.

End Page.
End StoreLemmas.

(** ** The page of a search *)

Section SearchPage.
Context {C : Zstd} {L : ZstdLaws C} {W : World} {U : Unicode} {T : Text} {TL : TextLaws T} {J : BodyJSON}.

Lemma defaulted_limit now q : 0 < p_Limit (defaulted now q) <= 500.
Proof.
  unfold defaulted, with_page. cbn [p_Limit].
  destruct (Z.leb_spec (p_Limit q) 0); [done |]. destruct (Z.ltb_spec 500 (p_Limit q)); lia.
Qed.

(** The entries of the store a query of [segs] can see. *)
Definition all_entries (groups : list (list (list Entry))) (v : StoreView) : list Entry :=
  concat (@concat Entry <$> groups) ++ wal_entries v.

Lemma SearchStore_ok now cs v q groups :
  let p := defaulted now q in
  let all := all_entries groups v in
  caches_ok cs -> 0 <= p_Offset q ->
  Forall2 (segment_holds (sv_dirs v))
    (SegmentsInRange (sv_segments v) (default 0 (p_Start p)) (default 0 (p_End p))) groups ->
  distinct_ids all ->
  Forall (Forall (page_exact now p)) groups -> (needsPostReadFilter q = true -> p_OmitBody q = false) ->
  exists cs' total, caches_ok cs' /\
    SearchStore now cs v q =
      (cs', drop (Z.to_nat (p_Offset q)) (take (Z.to_nat (p_Offset q + p_Limit p))
              (sortEntriesByTs (seen p <$> matching p all) (p_SortAsc q))), total).
Proof.
  intros p all Hcs Ho Hseg Hd Hx Hpost. pose proof (defaulted_limit now q) as Hlim. fold p in Hlim.
  change (p_Offset q) with (p_Offset p) in *. change (p_SortAsc q) with (p_SortAsc p).
  unfold SearchStore. fold p. assert (0 < p_Offset p + p_Limit p) as Hl by lia.
  destruct (segments_ok now p v _ groups cs [] 0 Hcs Hseg) as (cs' & total & Hcs' & ->).
  unfold searchWALsTop. rewrite (proj2 (Z.leb_gt _ 0)) by done.
  rewrite (wal_fold p (wal_entries v) [] 0) by exact Hpost.
  eexists cs', _. split; [done |]. rewrite cut_page_ok by (done || lia). do 2 f_equal. f_equal.
  rewrite app_nil_l. unfold all, all_entries in *. rewrite matching_app, fmap_app.
  apply (page_source_app (entryComesBefore (p_SortAsc p))).
  - rewrite <- fmap_app, <- matching_app. by apply distinct_seen_matching.
  - eapply (segments_source now p); [reflexivity | reflexivity | done | exact Hseg | | done].
    apply (distinct_ids_submseteq _ (concat (@concat Entry <$> groups) ++ wal_entries v)); [| done].
    by apply submseteq_inserts_r.
  - apply page_source_top; [done |]. apply distinct_seen_matching. by eapply distinct_ids_app_r.
Qed.

End SearchPage.

(** ** A sealed segment holds its entries *)

Section SealedSegment.
Context {C : Zstd} {L : ZstdLaws C} {W : World} {U : Unicode} {MJ : MetaJSON}.
Context (cb : bool) (s h : Z) (es : list Entry) (torn : bytes).

#[local] Abbreviation groups := (row_groups (effectiveSealChunkEntries s) (stored cb <$> es)).
#[local] Abbreviation dir := (apply_ops (rotated_dir cb h es torn) (final_ops cb s h es)).

(** The world knows the segment's files. *)
Definition knows_segment : Prop :=
  forall k b, groups !! k = Some b ->
    chunk_at (path_in (SegmentDirName h) (chunk_name (Z.of_nat k))) = Some b /\
    chunk_at (path_in (SegmentDirName h) (index_name (Z.of_nat k))) = Some b.

Lemma stored_rows_ok l : Forall (fun e => sealed e = e /\ is_int64 (Status e)) (stored cb <$> l).
Proof.
  apply list.Forall_forall. intros x (e & -> & _)%list_elem_of_fmap. split; [apply sealed_stored |].
  unfold is_int64, stored. cbn [Status].
  pose proof (Z.mod_pos_bound (stored_int (Status e)) (2 ^ 16) ltac:(lia)). unfold uint16. lia.
Qed.

Lemma ids_from_sorted start l :
  0 <= h < 2 ^ 32 -> 0 <= start -> start + len l <= MaxEntriesPerSegment ->
  ids_from h start l -> StronglySorted Z.lt (ID <$> l).
Proof.
  intros Hh Hs Hm. revert start Hs Hm. induction l as [| e l IH]; intros start Hs Hm Hids; [constructor |].
  rewrite len_cons in Hm. len_pose. change (e :: l) with ([e] ++ l) in Hids.
  apply ids_from_app in Hids as [H1 H2]. rewrite len_cons, len_nil, Z.add_0_r in H2.
  rewrite fmap_cons. constructor; [apply (IH (start + 1)); done || lia |].
  apply list.Forall_forall. intros x (e' & -> & [i Hi]%list_elem_of_lookup_1)%list_elem_of_fmap.
  pose proof (lookup_lt_Some _ _ _ Hi). rewrite (H2 i e' Hi), (H1 0%nat e eq_refl).
  apply IDForPosition_lt; try done; unfold len in *; lia.
Qed.

Lemma group_held k b :
  len es <= MaxEntriesPerSegment -> 0 <= h < 2 ^ 32 -> segment_fits s (stored cb <$> es) ->
  ids_from h 0 (stored cb <$> es) ->
  Forall (fun b => index_fits (index_builder b) (len b)) groups ->
  groups !! k = Some b -> chunk_holds b (chunk_data b) (index_file b).
Proof.
  intros Hlen Hh Hfit Hids Hix Hk.
  pose proof (row_groups_concat (effectiveSealChunkEntries s) (stored cb <$> es) (effective_range s)) as Hcat.
  pose proof (list_elem_of_lookup_2 _ _ _ Hk) as Hb.
  pose proof (list_elem_of_split _ _ Hb) as (l1 & l2 & Hsplit).
  assert (stored cb <$> es = concat l1 ++ b ++ concat l2) as Hes.
  { rewrite <- Hcat, Hsplit, concat_app. done. }
  pose proof Hes as Hlens. apply (f_equal len) in Hlens. rewrite len_fmap, !len_app in Hlens. len_pose.
  unfold segment_fits in Hfit. rewrite list.Forall_forall in Hfit, Hix.
  pose proof (Hix b Hb) as Hixb. pose proof (Hfit b Hb) as Hfitb.
  destruct (chunk_roundtrip_lemma b Hfitb) as (f & r & Hw & Ho & Hn & _ & Hg).
  assert (len b <= chunkSize) as Hbl.
  { pose proof (row_groups_cut (effectiveSealChunkEntries s) (stored cb <$> es) (effective_range s)) as Hc.
    rewrite Hsplit in Hc. clear -Hc.
    revert Hc. generalize 0. induction l1 as [| x l1 IH]; intros t; cbn [app cut_ok].
    - intros (_ & H1 & _). pose proof (effective_range s). lia.
    - intros (_ & _ & _ & H1). by apply IH in H1. }
  split.
  - exists r. unfold chunk_data. by rewrite Hw.
  - unfold index_file. by apply IndexOpenReader_Write.
  - split; [done |]. change MaxBlockBytes with (2 ^ 31). unfold chunkSize in Hbl. lia.
  - pose proof (stored_rows_ok es) as Hall. rewrite Hes in Hall.
    apply Forall_app in Hall as [_ Hall]. by apply Forall_app in Hall as [Hall _].
  - rewrite Hes in Hids. apply ids_from_app in Hids as [_ Hids]. apply ids_from_app in Hids as [Hids _].
    apply (ids_from_sorted (0 + len (concat l1))); try done; len_pose; lia.
Qed.

(** The directory of a finished seal, with the metadata [Register] is given. *)
Lemma sealed_segment_holds (dirs : bytes -> Dir) :
  len es <= MaxEntriesPerSegment -> 0 <= h < 2 ^ 32 -> segment_fits s (stored cb <$> es) ->
  ids_from h 0 (stored cb <$> es) ->
  Forall (fun b => index_fits (index_builder b) (len b)) groups ->
  knows_segment -> dirs (SegmentDirName h) = dir ->
  segment_holds dirs
    (mkSeg h (SegmentDirName h) (Some (segment_meta s h (stored cb <$> es)))) groups.
Proof.
  intros Hlen Hh Hfit Hids Hix Hw Hd. eexists. split; [done |]. cbn [DirName]. rewrite Hd.
  rewrite segment_meta_chunks.
  assert (forall bs i, (forall k b, bs !! k = Some b -> groups !! (i + k)%nat = Some b) ->
    Forall2 (chunk_stored (SegmentDirName h) dir) (group_metas (Z.of_nat i) bs) bs) as H; [| by apply (H _ 0%nat)].
  induction bs as [| b bs IH]; intros i Hk; [constructor |]. cbn [group_metas]. constructor.
  - pose proof (Hk 0%nat b eq_refl) as Hb. rewrite Nat.add_0_r in Hb.
    destruct (Hw i b Hb) as [W1 W2].
    destruct (final_files cb s h es torn i b Hlen Hb) as (F1 & F2 & _).
    split; [exact W1 |]. split; [exact W2 |]. exists (chunk_data b), (index_file b).
    split; [exact F1 |]. split; [exact F2 |]. by apply (group_held i).
  - replace (Z.of_nat i + 1) with (Z.of_nat (S i)) by lia. apply IH. intros k b' Hb'.
    replace (S i + k)%nat with (i + S k)%nat by lia. by apply Hk.
Qed.

End SealedSegment.

(** ** Answers do not depend on where an entry is *)

Section Answers.
Context {C : Zstd} {L : ZstdLaws C} {W : World} {U : Unicode} {T : Text} {TL : TextLaws T} {J : BodyJSON}.

(** The page of a search, as the specification. *)
Definition page_spec (now : Z) (q : SearchParams) (all : list Entry) : list Entry :=
  let p := defaulted now q in
  drop (Z.to_nat (p_Offset q)) (take (Z.to_nat (p_Offset q + p_Limit p))
    (sortEntriesByTs (seen p <$> matching p all) (p_SortAsc q))).

Lemma matching_perm p l l' : l ≡ₚ l' -> matching p l ≡ₚ matching p l'.
Proof. intros H. unfold matching. by rewrite H. Qed.

Lemma page_spec_perm now q all all' :
  distinct_ids all -> matching (defaulted now q) all ≡ₚ matching (defaulted now q) all' ->
  page_spec now q all = page_spec now q all'.
Proof.
  intros Hd Hp. unfold page_spec. do 2 f_equal. apply sortEntries_perm.
  - by apply distinct_seen_matching.
  - by rewrite Hp.
Qed.

Lemma matches_in_time now q e :
  matchesParams e (defaulted now q) = true ->
  UnixMilli (default 0 (p_Start (defaulted now q))) <= Ts e <=
  UnixMilli (default 0 (p_End (defaulted now q))).
Proof.
  rewrite matchesParams_query. intros [_ H]%andb_true_iff. revert H.
  erewrite (matchesParams_columns now); [| reflexivity | reflexivity].
  unfold columns_match, in_time. cbn [defaulted with_page p_Start p_End default].
  rewrite !andb_true_iff. cbn. lia.
Qed.

Lemma range_app segs1 segs2 s t :
  SegmentsInRange (segs1 ++ segs2) s t = SegmentsInRange segs1 s t ++ SegmentsInRange segs2 s t.
Proof. apply filter_app. Qed.

(** A segment out of the range of a query holds none of its matches. *)
Lemma unlisted_matches now q seg s h es :
  Meta seg = Some (segment_meta s h es) -> arrivals_ok es ->
  Forall (fun e => - 3599000 <= Ts e - ReceivedAt e <= 3599000) es ->
  let p := defaulted now q in
  is_int64 (default 0 (p_Start p) / 1000000) -> is_int64 (default 0 (p_End p) / 1000000) ->
  SegmentsInRange [seg] (default 0 (p_Start p)) (default 0 (p_End p)) <> [seg] ->
  matching p es = [].
Proof.
  intros Hm Ha Hsk p Hs Ht Hr. destruct (matching p es) as [| e l] eqn:E; [done |]. exfalso. apply Hr.
  assert (e ∈ matching p es) as He by (rewrite E; left).
  apply list_elem_of_filter in He as [Hmt He]. apply matches_in_time in Hmt. fold p in Hmt.
  unfold UnixMilli in Hmt. rewrite !int64_small in Hmt by done.
  rewrite list.Forall_forall in Hsk. specialize (Hsk e He).
  unfold SegmentsInRange. rewrite filter_cons, filter_nil, decide_True; [done |].
  rewrite (overlaps_entry s h es seg e) by done. apply orb_true_r.
Qed.

Lemma SegmentsInRange_single seg s t :
  SegmentsInRange [seg] s t = [seg] \/ SegmentsInRange [seg] s t = [].
Proof. unfold SegmentsInRange. rewrite filter_cons, filter_nil. case_decide; tauto. Qed.

(** A finished seal of a log: its directory is the one [Seal] leaves, its entries
    carry the IDs of the hour, arrived in order and within an hour of their event
    time. *)
Record sealed_in {MJ : MetaJSON} (cb : bool) (s h : Z) (es : list Entry) (torn : bytes) (dirs : bytes -> Dir) : Prop := {
  si_dir : dirs (SegmentDirName h) = apply_ops (rotated_dir cb h es torn) (final_ops cb s h es);
  si_hour : 0 <= h < 2 ^ 32;
  si_len : len es <= MaxEntriesPerSegment;
  si_fits : segment_fits s (stored cb <$> es);
  si_index : Forall (fun b => index_fits (index_builder b) (len b))
    (row_groups (effectiveSealChunkEntries s) (stored cb <$> es));
  si_ids : ids_from h 0 (stored cb <$> es);
  si_known : knows_segment cb s h es;
  si_arrivals : arrivals_ok (stored cb <$> es);
  si_skew : Forall (fun e => - 3599000 <= Ts e - ReceivedAt e <= 3599000) (stored cb <$> es)
}.

Definition sealed_segment (s h : Z) (rows : list Entry) : LoadedSegment :=
  mkSeg h (SegmentDirName h) (Some (segment_meta s h rows)).

Lemma sealing_keeps_lemma {MJ : MetaJSON} cb s h es torn now cs q segs1 segs2 dirs wals g1 g2 :
  let p := defaulted now q in
  let st := default 0 (p_Start p) in
  let en := default 0 (p_End p) in
  let rows := stored cb <$> es in
  let before := mkView (segs1 ++ segs2) dirs (rows :: wals) in
  let after := mkView (segs1 ++ sealed_segment s h rows :: segs2) dirs wals in
  sealed_in cb s h es torn dirs -> is_int64 (st / 1000000) -> is_int64 (en / 1000000) ->
  Forall2 (segment_holds dirs) (SegmentsInRange segs1 st en) g1 ->
  Forall2 (segment_holds dirs) (SegmentsInRange segs2 st en) g2 ->
  distinct_ids (all_entries (g1 ++ g2) before) ->
  Forall (Forall (page_exact now p)) (row_groups (effectiveSealChunkEntries s) rows :: g1 ++ g2) ->
  (needsPostReadFilter q = true -> p_OmitBody q = false) ->
  caches_ok cs -> 0 <= p_Offset q ->
  exists cs1 t1 cs2 t2,
    SearchStore now cs before q = (cs1, page_spec now q (all_entries (g1 ++ g2) before), t1) /\
    SearchStore now cs after q = (cs2, page_spec now q (all_entries (g1 ++ g2) before), t2).
Proof.
  intros p st en rows before after Hsi Hst Hen H1 H2 Hd Hx Hpost Hcs Ho.
  apply Forall_cons in Hx as [Hxs Hx].
  destruct (SearchStore_ok now cs before q (g1 ++ g2)) as (cs1 & t1 & _ & E1); try done.
  { cbn [sv_segments before]. rewrite range_app. by apply Forall2_app. }
  exists cs1, t1. rewrite E1.
  pose proof (SegmentsInRange_single (sealed_segment s h rows) st en) as Hcase.
  assert (SegmentsInRange (segs1 ++ sealed_segment s h rows :: segs2) st en =
    SegmentsInRange segs1 st en ++ SegmentsInRange [sealed_segment s h rows] st en ++
    SegmentsInRange segs2 st en) as Hrange.
  { rewrite range_app. f_equal. apply (range_app [_]). }
  set (own := if decide (SegmentsInRange [sealed_segment s h rows] st en = []) then []
              else [row_groups (effectiveSealChunkEntries s) rows]).
  assert (Forall2 (segment_holds dirs) (SegmentsInRange [sealed_segment s h rows] st en) own /\
    matching p (concat (@concat Entry <$> own)) = matching p rows) as [Hown Hmatch].
  { subst own. destruct (decide _) as [E | E].
    - rewrite E. split; [constructor |]. symmetry.
      destruct Hsi. eapply (unlisted_matches now q (sealed_segment s h rows)); try done.
      fold p st en. by rewrite E.
    - destruct Hcase as [-> | ?]; [| done]. split.
      + constructor; [| constructor]. destruct Hsi. by apply (sealed_segment_holds cb s h es torn).
      + cbn [fmap list_fmap concat]. rewrite app_nil_r. by rewrite row_groups_concat by apply effective_range. }
  destruct (SearchStore_ok now cs after q (g1 ++ own ++ g2)) as (cs2 & t2 & _ & E2); try done.
  { cbn [sv_segments after]. fold p st en. rewrite Hrange. by repeat apply Forall2_app. }
  - unfold all_entries, wal_entries in *. cbn [sv_wals after before concat] in *.
    eapply distinct_ids_submseteq; [| exact Hd]. rewrite !fmap_app, !concat_app.
    rewrite <- !app_assoc. apply submseteq_app; [done |].
    subst own. destruct (decide _); cbn [fmap list_fmap concat app]; [solve_submseteq |].
    rewrite app_nil_r, row_groups_concat by apply effective_range. solve_submseteq.
  - apply Forall_app in Hx as [Hx1 Hx2]. apply Forall_app. split; [done |]. apply Forall_app.
    split; [| done]. subst own. destruct (decide _); by repeat constructor.
  - exists cs2, t2. rewrite E2. split; [done |]. f_equal. f_equal. symmetry.
    apply (page_spec_perm now q); [done |]. fold p.
    unfold all_entries, wal_entries. cbn [sv_wals after before concat].
    rewrite !fmap_app, !concat_app, !matching_app, Hmatch. solve_Permutation.
Qed.
End Answers.

(** ** Properties *)

Section PagingProperties.
Context {C : Zstd} {L : ZstdLaws C} {W : World} {U : Unicode} {T : Text} {TL : TextLaws T} {J : BodyJSON}.

(** C4: A search returns exactly the page it was asked for: over any state of the
    shared caches, the entries are the [Limit] (default 50, at most 500) after the
    first [Offset] of all matching entries of the segments in range and of the
    unsealed logs, sorted by timestamp with ties by ID - although each chunk is
    narrowed to the rows that can reach the page, and matched by its columns
    only.  The condition [page_exact] on each chunk is the one the findings show
    to be needed. *)
Theorem search_page_exact (now : Z) (cs : Caches) (v : StoreView) (q : SearchParams)
  (groups : list (list (list Entry))) :
  let p := defaulted now q in
  caches_ok cs -> 0 <= p_Offset q ->
  Forall2 (segment_holds (sv_dirs v))
    (SegmentsInRange (sv_segments v) (default 0 (p_Start p)) (default 0 (p_End p))) groups ->
  distinct_ids (all_entries groups v) ->
  Forall (Forall (page_exact now p)) groups -> (needsPostReadFilter q = true -> p_OmitBody q = false) ->
  exists cs' total, caches_ok cs' /\
    SearchStore now cs v q = (cs', page_spec now q (all_entries groups v), total).
Proof. intros. by apply SearchStore_ok. Qed.


End PagingProperties.

(** ** Witnesses *)

(** Case folding of ASCII. *)
Definition ascii_lower (s : bytes) : bytes :=
  (fun b => if (65 <=? b) && (b <=? 90) then b + 32 else b) <$> s.

Definition ascii_text : Text := {|
  EqualFold := fun a b => bool_decide (ascii_lower a = ascii_lower b);
  TrimSpace := fun s => s
|}.

#[export] Instance ascii_text_laws : TextLaws ascii_text.
Proof.
  split; [intros s; by apply bool_decide_eq_true |]. intros s t. by apply bool_decide_ext.
Qed.

Definition no_json : BodyJSON := {| body_metadata := fun _ => None |}.

(** Two entries of 2026-03-29T16:00, received within a second of their event. *)
Definition paged_log : list Entry :=
  [set Ts 1774800000000 (set ReceivedAt 1774800000123 (set ID (IDForPosition 493000 0) sample_entry));
   set Ts 1774799999000 (set Level (str "error") (set ReceivedAt 1774800000456
     (set ID (IDForPosition 493000 1) sample_entry)))].

Lemma paged_log_fit : segment_fits (C := stored_codec) 1 (stored (C := stored_codec) true <$> paged_log).
Proof.
  unfold segment_fits, paged_log. cbn [row_groups].
  repeat (constructor; [
    split; [done |]; split; [done |]; unfold Schema;
    repeat (apply Forall_cons; split; [column_fits_tac |]); apply Forall_nil; exact I |]).
  constructor.
Qed.

Definition sample_groups : list (list Entry) :=
  row_groups 1 (stored (C := stored_codec) true <$> paged_log).

Definition sample_dir : Dir :=
  apply_ops (rotated_dir (C := stored_codec) true 493000 paged_log [])
    (final_ops (C := stored_codec) (U := ascii_unicode) (J := sample_json) true 1 493000 paged_log).

Definition sample_world : World := fun p =>
  if bool_decide (p = path_in (SegmentDirName 493000) (chunk_name 0) \/
                  p = path_in (SegmentDirName 493000) (index_name 0)) then sample_groups !! 0%nat
  else if bool_decide (p = path_in (SegmentDirName 493000) (chunk_name 1) \/
                       p = path_in (SegmentDirName 493000) (index_name 1)) then sample_groups !! 1%nat
  else None.

Lemma sample_sealed :
  sealed_in (C := stored_codec) (W := sample_world) (U := ascii_unicode) (MJ := sample_json)
    true 1 493000 paged_log [] (fun _ => sample_dir).
Proof.
  split.
  - reflexivity.
  - lia.
  - by vm_compute.
  - apply paged_log_fit.
  - constructor; [apply index_fits_check; by vm_compute |].
    constructor; [apply index_fits_check; by vm_compute | constructor].
  - intros [| [| i]] e He; [injection He as <-; by vm_compute .. | done].
  - intros [| [| k]] b Hb; [injection Hb as <-; split; by vm_compute .. | done].
  - split; [repeat constructor; vm_compute; congruence |].
    repeat constructor; vm_compute; congruence.
  - apply (bool_decide_unpack _). by vm_compute.
Qed.

(** Errors of the hour of the sample, newest first. *)
Definition sample_query : SearchParams :=
  mkParams [] [] (str "ERROR") [] [] [] [] [] [] [] [] [] [] [] [] [] 0 false 0 false false ∅ ∅
    (Some (1774799000 * 1000000000)) (Some (1774801000 * 1000000000)) 0 10 0 false false.


Lemma search_page_exact_witness :
  exists cs' total, SearchStore (C := stored_codec) (U := ascii_unicode) (T := ascii_text) (J := no_json) 0
      (mkCaches None None)
      (mkView [sealed_segment 1 493000 (stored (C := stored_codec) true <$> paged_log)]
        (fun _ => sample_dir) []) sample_query =
    (cs', drop 1 (stored (C := stored_codec) true <$> paged_log), total).
Proof.
  destruct (search_page_exact (C := stored_codec) (W := sample_world) (U := ascii_unicode)
    (T := ascii_text) (J := no_json) 0 (mkCaches None None)
    (mkView [sealed_segment 1 493000 (stored (C := stored_codec) true <$> paged_log)]
        (fun _ => sample_dir) []) sample_query [sample_groups]) as (cs' & total & _ & E).
  - by split.
  - by vm_compute.
  - replace (SegmentsInRange _ _ _) with
      [sealed_segment 1 493000 (stored (C := stored_codec) true <$> paged_log)] by (by vm_compute).
    constructor; [| constructor]. destruct sample_sealed.
    by apply (sealed_segment_holds (C := stored_codec) (W := sample_world) (U := ascii_unicode)
      (MJ := sample_json) true 1 493000 paged_log []).
  - apply (bool_decide_unpack _). by vm_compute.
  - repeat constructor; vm_compute; congruence.
  - intros E; by vm_compute in E.
  - exists cs', total. rewrite E. do 2 f_equal.
Defined.
