(* ===== verification/Ring.v ===== *)
(** * The live tail (engine/ring.go)

    A ring of the last 256 entries, without their bodies, and the channels of the
    subscribers.  A channel is the batches waiting in its buffer of 16.  [Push] is
    two critical sections, the ring under [mu] ([push_ring]) and the subscribers
    under [subMu] ([fan_out]), and others may run between them; pushes themselves
    come one at a time, from the log writer. *)

From stdpp Require Import base list gmap strings numbers sorting.
From Stdlib Require Import ZArith Lia.
From S2P Require Import Prelude Schema.

Definition ringSize : Z := 256.
Definition channelSize : Z := 16.

Record RingBuffer := mkRing {
  rb_entries : list Entry;
  head : Z;
  count : Z;
  subs : gmap Z (list (list Entry));
  nextSub : Z
}.

Definition NewRingBuffer : RingBuffer :=
  mkRing (make Entry0 ringSize) 0 0 ∅ 0.

(** [projected[i].Body = nil] *)
Definition without_body (e : Entry) : Entry := set Body [] e.

(** The newest [ringSize] entries of a push. *)
Definition pushed (entries : list Entry) : list Entry :=
  without_body <$>
    (if ringSize <? len entries then drop (Z.to_nat (len entries - ringSize)) entries else entries).

Definition push_one (rb : RingBuffer) (e : Entry) : RingBuffer :=
  mkRing (<[Z.to_nat (Z.rem (head rb) ringSize) := e]> (rb_entries rb)) (head rb + 1) (count rb + 1)
    (subs rb) (nextSub rb).

(** [select { case ch <- projected: default: }] *)
Definition send (batch : list Entry) (ch : list (list Entry)) : list (list Entry) :=
  if len ch <? channelSize then ch ++ [batch] else ch.

Definition fan_out (batch : list Entry) (rb : RingBuffer) : RingBuffer :=
  mkRing (rb_entries rb) (head rb) (count rb) (send batch <$> subs rb) (nextSub rb).

Definition push_ring (rb : RingBuffer) (entries : list Entry) : RingBuffer :=
  foldl push_one rb (pushed entries).

Definition Push (rb : RingBuffer) (entries : list Entry) : RingBuffer :=
  fan_out (pushed entries) (push_ring rb entries).

Definition Snapshot (rb : RingBuffer) : list Entry :=
  if count rb =? 0 then []
  else
    let n := if ringSize <? count rb then ringSize else count rb in
    let start := head rb - n in
    (fun i => default Entry0 (rb_entries rb !! Z.to_nat (Z.rem (start + i) ringSize))) <$> seqZ 0 n.

Definition Subscribe (rb : RingBuffer) : RingBuffer * Z :=
  (mkRing (rb_entries rb) (head rb) (count rb) (<[nextSub rb := []]> (subs rb)) (nextSub rb + 1),
   nextSub rb).

Definition SnapshotAndSubscribe (rb : RingBuffer) : RingBuffer * list Entry * Z :=
  let snapshot := Snapshot rb in
  let '(rb, id) := Subscribe rb in
  (rb, snapshot, id).

Definition unsubscribe (rb : RingBuffer) (id : Z) : RingBuffer :=
  mkRing (rb_entries rb) (head rb) (count rb) (delete id (subs rb)) (nextSub rb).

(** A subscriber takes the oldest waiting batch. *)
Definition receive (rb : RingBuffer) (id : Z) : RingBuffer * option (list Entry) :=
  match subs rb !! id with
  | Some (b :: ch) =>
      (mkRing (rb_entries rb) (head rb) (count rb) (<[id := ch]> (subs rb)) (nextSub rb), Some b)
  | _ => (rb, None)
  end.

(** ** The last entries of a stream *)

Definition newest {A} (n : nat) (l : list A) : list A := drop (length l - n) l.

Lemma newest_all {A} n (l : list A) : (length l <= n)%nat -> newest n l = l.
Proof. intros H. unfold newest. by replace (length l - n)%nat with 0%nat by lia. Qed.

Lemma newest_app {A} n (l1 l2 : list A) : (n <= length l2)%nat -> newest n (l1 ++ l2) = newest n l2.
Proof.
  intros H. unfold newest. rewrite length_app.
  replace (length l1 + length l2 - n)%nat with (length l1 + (length l2 - n))%nat by lia.
  apply drop_app_add.
Qed.

Lemma newest_app_newest {A} n (l1 l2 : list A) : newest n (l1 ++ l2) = newest n (newest n l1 ++ l2).
Proof.
  unfold newest. set (k := (length l1 - n)%nat).
  rewrite <- (drop_app_le l1 l2 k) by lia. rewrite drop_drop, length_drop, !length_app. f_equal. lia.
Qed.

(** ** The ring holds the newest entries *)

Record ring_ok (rb : RingBuffer) (all : list Entry) : Prop := {
  rk_length : length (rb_entries rb) = 256%nat;
  rk_head : head rb = len all;
  rk_count : count rb = len all;
  rk_entries : forall i e, all !! i = Some e -> (length all <= i + 256)%nat ->
    rb_entries rb !! (i mod 256)%nat = Some e
}.

Lemma new_ring_ok : ring_ok NewRingBuffer [].
Proof. split; done. Qed.

Lemma rem_nat (i : nat) : Z.to_nat (Z.rem (Z.of_nat i) ringSize) = (i mod 256)%nat.
Proof.
  unfold ringSize. rewrite Z.rem_mod_nonneg by lia. rewrite Z2Nat.inj_mod by lia.
  by rewrite Nat2Z.id.
Qed.

Lemma push_one_ok rb all e : ring_ok rb all -> ring_ok (push_one rb e) (all ++ [e]).
Proof.
  intros [Hl Hh Hc He]. split; cbn [push_one rb_entries head count].
  - by rewrite length_insert.
  - rewrite Hh, len_app, len_cons, len_nil. lia.
  - rewrite Hc, len_app, len_cons, len_nil. lia.
  - intros i x Hi Hle. rewrite length_app in Hle. cbn in Hle. rewrite Hh. unfold len. rewrite rem_nat.
    apply lookup_app_Some in Hi as [Hi | [Hge Hi]].
    + pose proof (lookup_lt_Some _ _ _ Hi) as Hlt. rewrite list_lookup_insert_ne.
      * apply He; [done | lia].
      * intros E. pose proof (Nat.div_mod_eq i 256). pose proof (Nat.div_mod_eq (length all) 256). lia.
    + apply list_lookup_singleton_Some in Hi as [Hi <-].
      replace i with (length all) by lia. apply list_lookup_insert_eq. rewrite Hl.
      apply Nat.mod_upper_bound. lia.
Qed.

Lemma push_fold_ok rb all l : ring_ok rb all -> ring_ok (foldl push_one rb l) (all ++ l).
Proof.
  revert rb all. induction l as [| e l IH]; intros rb all H; [by rewrite app_nil_r |].
  cbn [foldl]. change (e :: l) with ([e] ++ l). rewrite app_assoc. apply IH. by apply push_one_ok.
Qed.

Lemma Snapshot_ok rb all : ring_ok rb all -> Snapshot rb = newest 256 all.
Proof.
  intros [Hl Hh Hc He]. unfold Snapshot. rewrite Hc, Hh.
  destruct (Z.eqb_spec (len all) 0) as [E | E]; [by rewrite (len_0_nil _ E) |].
  set (n := if ringSize <? len all then ringSize else len all).
  assert (n = Z.of_nat (Nat.min 256 (length all))) as Hn.
  { subst n. unfold ringSize, len. destruct (Z.ltb_spec 256 (Z.of_nat (length all))); lia. }
  apply list_eq. intros i. rewrite list_lookup_fmap. unfold newest. rewrite lookup_drop.
  destruct (Nat.lt_ge_cases i (Nat.min 256 (length all))) as [Hi | Hi].
  - rewrite lookup_seqZ_lt by lia. cbn [fmap option_fmap option_map].
    destruct (lookup_lt_is_Some_2 all (length all - 256 + i)) as [e Hx]; [lia |].
    rewrite Hx. f_equal.
    replace (len all - n + (0 + Z.of_nat i)) with (Z.of_nat (length all - 256 + i)) by (unfold len; lia).
    rewrite rem_nat, (He _ e Hx) by lia. done.
  - rewrite lookup_seqZ_ge by lia. symmetry. apply lookup_ge_None. lia.
Qed.

Lemma fan_out_ok rb all b : ring_ok rb all -> ring_ok (fan_out b rb) all.
Proof. by intros []. Qed.

(** The ring after a sequence of operations that push [stream]: it agrees with
    the whole stream on the newest entries. *)
Definition ring_holds (rb : RingBuffer) (stream : list Entry) : Prop :=
  exists all, ring_ok rb all /\ newest 256 all = newest 256 (without_body <$> stream).

Lemma pushed_newest entries : pushed entries = newest 256 (without_body <$> entries) \/ (length entries <= 256)%nat /\ pushed entries = without_body <$> entries.
Proof.
  unfold pushed, newest, ringSize. rewrite length_fmap.
  destruct (Z.ltb_spec 256 (len entries)) as [H | H]; unfold len in *.
  - left. rewrite <- fmap_drop. do 2 f_equal. lia.
  - right. split; [lia | done].
Qed.

Lemma push_ring_holds rb stream entries :
  ring_holds rb stream -> ring_holds (push_ring rb entries) (stream ++ entries).
Proof.
  intros (all & Hok & Hn). exists (all ++ pushed entries). split; [by apply push_fold_ok |].
  rewrite fmap_app. rewrite (newest_app_newest 256 all), Hn, <- newest_app_newest.
  destruct (pushed_newest entries) as [-> | [_ ->]]; [| done].
  set (l := without_body <$> entries).
  destruct (Nat.le_gt_cases 256 (length l)) as [H | H].
  - rewrite !newest_app; [| done |].
    + unfold newest. rewrite drop_drop, length_drop. f_equal. lia.
    + unfold newest. rewrite length_drop. lia.
  - by rewrite (newest_all 256 l) by lia.
Qed.

Lemma fan_out_holds rb stream b : ring_holds rb stream -> ring_holds (fan_out b rb) stream.
Proof. intros (all & Hok & Hn). exists all. split; [by apply fan_out_ok | done]. Qed.

(** ** A subscriber *)

(** From the subscription [id] on: the pushes [batches], of which the last may still
    have to reach the subscribers ([pend], as may [pend0], a push the subscription
    found half done), the sends [sent] with the number of batches that waited in the
    subscriber's buffer at each, and the batches [received]. *)
Inductive tail_run (id : Z) (rb : RingBuffer) (pend0 : option (list Entry))
  : list (list Entry) -> list (list Entry * Z) -> list (list Entry) -> option (list Entry) -> RingBuffer -> Prop :=
| tail_start : tail_run id rb pend0 [] [] [] pend0 rb
| tail_push batches sent received rb' entries :
    tail_run id rb pend0 batches sent received None rb' ->
    tail_run id rb pend0 (batches ++ [entries]) sent received (Some entries) (push_ring rb' entries)
| tail_send batches sent received rb' ch entries :
    tail_run id rb pend0 batches sent received (Some entries) rb' -> subs rb' !! id = Some ch ->
    tail_run id rb pend0 batches (sent ++ [(entries, len ch)]) received None (fan_out (pushed entries) rb')
| tail_receive batches sent received pend rb' rb'' b :
    tail_run id rb pend0 batches sent received pend rb' -> receive rb' id = (rb'', Some b) ->
    tail_run id rb pend0 batches sent (received ++ [b]) pend rb''.

(** The sends that found room; the others are the dropped batches. *)
Definition delivered (sent : list (list Entry * Z)) : list (list Entry) :=
  (filter (fun s : list Entry * Z => s.2 < channelSize) sent).*1.

Lemma delivered_snoc sent entries n :
  delivered (sent ++ [(entries, n)]) = delivered sent ++ (if n <? channelSize then [entries] else []).
Proof.
  unfold delivered. rewrite filter_app, fmap_app, filter_cons, filter_nil. cbn [snd].
  destruct (Z.ltb_spec n channelSize); [by rewrite decide_True | by rewrite decide_False by lia].
Qed.

Lemma subs_fold l rb : subs (foldl push_one rb l) = subs rb.
Proof. revert rb. induction l as [| e l IH]; intros rb; [done |]. cbn [foldl]. by rewrite IH. Qed.

Lemma tail_run_ok id rb pend0 batches sent received pend rb' ch0 :
  subs rb !! id = Some ch0 -> tail_run id rb pend0 batches sent received pend rb' ->
  sent.*1 ++ option_list pend = option_list pend0 ++ batches /\
  exists ch, subs rb' !! id = Some ch /\ received ++ ch = ch0 ++ (pushed <$> delivered sent).
Proof.
  intros H0. induction 1 as [| batches sent received rb' entries _ [Hs IH]
    | batches sent received rb' ch entries _ [Hs IH] Hch | batches sent received pend rb' rb'' b _ [Hs IH] Hr].
  - split; [by rewrite app_nil_r |]. exists ch0. by rewrite app_nil_r.
  - split; [by rewrite app_assoc, <- Hs, app_nil_r |]. destruct IH as (ch & E & Heq). exists ch.
    unfold push_ring. by rewrite subs_fold.
  - split; [by rewrite fmap_app, app_nil_r |]. destruct IH as (ch' & E & Heq). rewrite E in Hch. injection Hch as ->.
    exists (send (pushed entries) ch). unfold fan_out. cbn [subs]. split; [by rewrite lookup_fmap, E |].
    rewrite delivered_snoc, fmap_app, (app_assoc ch0), <- Heq. unfold send.
    destruct (len ch <? channelSize); cbn [fmap list_fmap]; [by rewrite <- app_assoc | by rewrite app_nil_r].
  - split; [done |]. destruct IH as (ch' & E & Heq). unfold receive in Hr. rewrite E in Hr.
    destruct ch' as [| b' ch']; [done |]. injection Hr as <- <-. exists ch'. cbn [subs].
    rewrite lookup_insert_eq. split; [done |]. by rewrite <- app_assoc.
Qed.

Lemma tail_run_ring id rb pend0 batches sent received pend rb' stream :
  ring_holds rb stream -> tail_run id rb pend0 batches sent received pend rb' -> ring_holds rb' (stream ++ concat batches).
Proof.
  intros H. induction 1 as [| batches sent received rb' entries _ IH
    | batches sent received rb' ch entries _ IH Hch | batches sent received pend rb' rb'' b _ IH Hr].
  - by rewrite app_nil_r.
  - rewrite concat_app. cbn [concat]. rewrite app_nil_r, app_assoc. by apply push_ring_holds.
  - by apply fan_out_holds.
  - destruct IH as (all' & Hok' & Hn'). exists all'. split; [| done].
    unfold receive in Hr. destruct (subs rb' !! id) as [[| b' ch] |]; try done.
    injection Hr as <- <-. by destruct Hok'.
Qed.

(** ** Properties *)

(** C7: The live tail misses nothing but the batches it drops, even when the subscription falls
    between the two halves of a push: the snapshot taken with it is the newest 256 entries
    pushed before, oldest first and without bodies; the sends to the subscriber are the push it
    found half done, if any, followed by the pushes since, in order; and what the subscriber
    takes, with what waits in its buffer, is exactly the sends (each cut to its newest 256
    entries) that did not find sixteen batches waiting.  Those that did are dropped; their
    entries are in the next snapshot unless 256 newer ones were pushed.  Only the half-done
    push can be seen twice. *)
Theorem tail_has_no_gap (rb : RingBuffer) (stream : list Entry) (pend0 : option (list Entry)) :
  ring_holds rb stream ->
  let '(rb1, snapshot, id) := SnapshotAndSubscribe rb in
  snapshot = newest 256 (without_body <$> stream) /\
  forall batches sent received pend rb2, tail_run id rb1 pend0 batches sent received pend rb2 ->
    sent.*1 ++ option_list pend = option_list pend0 ++ batches /\
    (exists waiting, subs rb2 !! id = Some waiting /\ received ++ waiting = pushed <$> delivered sent) /\
    Snapshot rb2 = newest 256 (without_body <$> (stream ++ concat batches)).
Proof.
  intros H. cbn [SnapshotAndSubscribe Subscribe]. split.
  { destruct H as (all & Hok & Hn). by rewrite (Snapshot_ok rb all). }
  intros batches sent received pend rb2 Hrun.
  destruct (tail_run_ok _ _ _ _ _ _ _ _ [] (lookup_insert_eq _ _ _) Hrun) as [Hs (ch & E & Heq)].
  split; [done |]. split; [by exists ch |].
  apply (tail_run_ring _ _ _ _ _ _ _ _ stream) in Hrun as (all & Hok & Hn);
    [| destruct H as (all & Hok & Hn); exists all; by destruct Hok].
  by rewrite (Snapshot_ok rb2 all), Hn.
Qed.

(** A subscription in the middle of the push of one entry. *)
Lemma tail_has_no_gap_witness :
  let rb := push_ring NewRingBuffer [Entry0] in
  let '(rb1, snapshot, id) := SnapshotAndSubscribe rb in
  snapshot = [Entry0] /\
  exists waiting, subs (fan_out (pushed [Entry0]) rb1) !! id = Some waiting /\
    [] ++ waiting = [[Entry0]].
Proof.
  assert (ring_holds (push_ring NewRingBuffer [Entry0]) [Entry0]) as H.
  { apply (push_ring_holds NewRingBuffer []). exists []. split; [apply new_ring_ok | done]. }
  pose proof (tail_has_no_gap _ _ (Some [Entry0]) H) as Ht. cbn [SnapshotAndSubscribe Subscribe] in *.
  destruct Ht as [Hs Hr]. split; [exact Hs |].
  edestruct (Hr [] [([Entry0], 0)] [] None) as (_ & Hw & _); [| exact Hw].
  apply (tail_send _ _ _ [] [] [] _ []); [constructor | reflexivity].
Defined.
