(* ===== verification/Writer.v ===== *)
(** * The log writer (engine/writer.go)

    [WALWriter] over a map of directories.  An I/O call takes its outcome as an
    argument: [None] for a write that succeeds, [Some n] for one that fails after
    [n] bytes, a boolean for [Sync], [Truncate] and [Rename].  [Append] is its two
    phases, the write under [mu] ([append_locked]) and the group commit
    ([syncThrough]), so that their interleavings can be stated. *)

From stdpp Require Import base list gmap strings numbers sorting.
From Stdlib Require Import ZArith Lia.
From S2P Require Import Prelude Zstd Schema Wal Ids Seal Ring.

(** The directories under [dataDir], by name. *)
Abbreviation Disk := (gmap bytes Dir).

Definition dir_at (disk : Disk) (hour : Z) : Dir := default ∅ (disk !! SegmentDirName hour).

Definition write_file (disk : Disk) (hour : Z) (name data : bytes) : Disk :=
  <[SegmentDirName hour := <[name := data]> (dir_at disk hour)]> disk.

(** The handle [walFile] is the active log of [segmentHour]. *)
Record WALWriter := mkWALWriter {
  segmentHour : Z;
  w_entryCount : Z;
  validBytes : Z;
  fileSize : Z;
  writtenBytes : Z;
  syncedBytes : Z;
  ring : RingBuffer
}.

Definition ErrSegmentFull : gerror := Sentinel "segment hour is full".

Definition maxSealedHourProbe : Z := 24 * 365.

(** The hours from [start] on; the fuel is the number of probes left. *)
Fixpoint free_loop (probes : nat) (disk : Disk) (hour : Z) : option Z :=
  match probes with
  | O => None
  | S probes =>
      if negb (IsSealComplete (dir_at disk hour)) then Some hour
      else free_loop probes disk (hour + 1)
  end.

Definition freeSegmentHour (disk : Disk) (start : Z) : result Z :=
  match free_loop (Z.to_nat maxSealedHourProbe) disk start with
  | Some hour => Ok hour
  | None => Err (Errorf "no unsealed segment hour")
  end.

Definition walLenPrefixBytes : Z := 4.

Section Writer.
Context {C : Zstd}.

(** The loop of [scanWAL] over a file of [size] bytes.  Every round reads at least
    the length prefix, so the fuel of the length of the file is enough. *)
Fixpoint scan_loop (fuel : nat) (r : reader) (size count validBytes : Z)
  : result (Z * Z * option gerror) :=
  match fuel with
  | O => Ok (count, validBytes, None)
  | S fuel =>
      match ReadFull r walLenPrefixBytes with
      | (_, inr err) =>
          if bool_decide (err = EOF) then Ok (count, validBytes, None)
          else Ok (count, validBytes, Some (Wrapf "read entry length" err))
      | (r, inl lenBuf) =>
          entryLen ← Uint32 lenBuf;
          if (entryLen <=? 0) || (size - validBytes - walLenPrefixBytes <? entryLen)
          then Ok (count, validBytes, Some (Errorf "invalid entry length"))
          else
            match ReadFull r entryLen with
            | (_, inr err) => Ok (count, validBytes, Some (Wrapf "read entry data" err))
            | (r, inl data) =>
                match UnmarshalEntry data with
                | Err err => Ok (count, validBytes, Some (Wrapf "unmarshal entry" err))
                | Panic => Panic
                | Ok _ =>
                    scan_loop fuel r size (count + 1) (validBytes + (walLenPrefixBytes + entryLen))
                end
            end
      end
  end.

Definition scanWAL (data : bytes) : result (Z * Z * option gerror) :=
  scan_loop (S (length data)) (mkReader data EOF) (len data) 0 0.

Definition walPath_in (disk : Disk) (hour : Z) : option bytes := dir_at disk hour !! active_name.

(** [f.Truncate(size)]: shorter files are extended with zeros. *)
Definition truncate (data : bytes) (size : Z) : bytes :=
  take (Z.to_nat size) data ++ make 0 (size - len data).

(** [ensureWAL]: the writer's fields other than the ring are overwritten. *)
Definition ensureWAL (w : WALWriter) (disk : Disk) (hour : Z) : result (WALWriter * Disk) :=
  match walPath_in disk hour with
  | Some data =>
      '(count, valid, err) ← scanWAL data;
      let data := match err with Some _ => truncate data valid | None => data end in
      Ok (mkWALWriter hour count valid valid valid valid (ring w),
          write_file disk hour active_name data)
  | None =>
      Ok (mkWALWriter hour 0 0 0 0 0 (ring w), write_file disk hour active_name [])
  end.

(** [NewWALWriter] at the time [now]. *)
Definition NewWALWriter (disk : Disk) (rb : RingBuffer) (now : Z) : result (WALWriter * Disk) :=
  segHour ← freeSegmentHour disk (SegmentHourFromTime now);
  ensureWAL (mkWALWriter 0 0 0 0 0 0 rb) disk segHour.

(** ** Appending *)

Definition normalizeForRing (e : Entry) (record : bytes) : result Entry :=
  if (len record <? MaxFieldBytes) && (len (Body e) <? MaxFieldBytes) then Ok e
  else
    data ← slice_from record walLenPrefixBytes;
    match UnmarshalEntry data with
    | Ok stored => Ok stored
    | Err _ => Ok e
    | Panic => Panic
    end.

Fixpoint assign_ids (hour receivedAt idx : Z) (entries : list Entry) : list Entry :=
  match entries with
  | [] => []
  | e :: entries =>
      set ReceivedAt receivedAt (set ID (IDForPosition hour idx) e)
        :: assign_ids hour receivedAt (idx + 1) entries
  end.

(** The serialization loop: the batch buffer and the entries as the ring gets them. *)
Fixpoint serialize (cb : bool) (batchBuf : bytes) (entries : list Entry)
  : result (bytes * list Entry) :=
  match entries with
  | [] => Ok (batchBuf, [])
  | e :: entries =>
      let start := len batchBuf in
      batchBuf ← AppendEntry cb batchBuf e;
      record ← slice_from batchBuf start;
      e ← normalizeForRing e record;
      '(batchBuf, rest) ← serialize cb batchBuf entries;
      Ok (batchBuf, e :: rest)
  end.

(** [rollback]; a failed [Truncate] leaves everything as it is.  The outcome of the
    [Sync] is only logged. *)
Definition rollback (w : WALWriter) (disk : Disk) (offset : Z) (truncOk : bool)
  : WALWriter * Disk :=
  if truncOk then
    (mkWALWriter (segmentHour w) (w_entryCount w) offset offset offset
       (if offset <? syncedBytes w then offset else syncedBytes w) (ring w),
     write_file disk (segmentHour w) active_name
       (truncate (default [] (walPath_in disk (segmentHour w))) offset))
  else (w, disk).

(** The part of [Append] under [mu]: the entries and the offset to sync through. *)
Definition append_locked (cb : bool) (w : WALWriter) (disk : Disk) (now : Z) (entries : list Entry)
  (written : option Z) (truncOk : bool) : WALWriter * Disk * result (list Entry * Z) :=
  let startIdx := w_entryCount w in
  if negb (SegmentHasRoom startIdx (len entries)) then (w, disk, Err ErrSegmentFull)
  else
    let entries := assign_ids (segmentHour w) (UnixMilli now) startIdx entries in
    let lastGood := fileSize w in
    match serialize cb [] entries with
    | Panic => (w, disk, Panic)
    | Err e => (w, disk, Err e)
    | Ok (batchBuf, entries) =>
        let file := default [] (walPath_in disk (segmentHour w)) in
        match written with
        | Some n =>
            let disk := write_file disk (segmentHour w) active_name
                          (file ++ take (Z.to_nat n) batchBuf) in
            let '(w, disk) := rollback w disk lastGood truncOk in
            (w, disk, Err (Errorf "write WAL entry"))
        | None =>
            let disk := write_file disk (segmentHour w) active_name (file ++ batchBuf) in
            let size := lastGood + len batchBuf in
            (mkWALWriter (segmentHour w) (startIdx + len entries) (validBytes w) size size
               (syncedBytes w) (Push (ring w) entries),
             disk, Ok (entries, size))
        end
    end.

(** [syncThrough] holds [syncMu] over a snapshot of [writtenBytes], the system call
    and the update. *)
Definition sync_covered (w : WALWriter) (target : Z) : option Z :=
  if target <=? syncedBytes w then None else Some (writtenBytes w).

Definition sync_done (w : WALWriter) (covered : Z) : WALWriter :=
  if syncedBytes w <? covered then
    mkWALWriter (segmentHour w) (w_entryCount w) covered (fileSize w) (writtenBytes w) covered (ring w)
  else w.

Definition syncThrough (w : WALWriter) (target : Z) (syncOk : bool) : WALWriter * result unit :=
  match sync_covered w target with
  | None => (w, Ok tt)
  | Some covered =>
      if syncOk then (sync_done w covered, Ok tt) else (w, Err (Errorf "fsync WAL"))
  end.

(** One appender alone. *)
Definition Append (cb : bool) (w : WALWriter) (disk : Disk) (now : Z) (entries : list Entry)
  (written : option Z) (truncOk syncOk : bool) : WALWriter * Disk * result (list Entry) :=
  if len entries =? 0 then (w, disk, Ok [])
  else
    match append_locked cb w disk now entries written truncOk with
    | (w, disk, Ok (entries, durableAt)) =>
        let '(w, r) := syncThrough w durableAt syncOk in
        (w, disk, match r with Ok _ => Ok entries | Err e => Err e | Panic => Panic end)
    | (w, disk, Err e) => (w, disk, Err e)
    | (w, disk, Panic) => (w, disk, Panic)
    end.

(** ** Rotation *)

Definition flushBeforeHandoff (w : WALWriter) (syncOk : bool) : WALWriter :=
  (syncThrough w (writtenBytes w) syncOk).1.

(** [rotate]: the flush, the rename of [active.wal] and the log of the new hour. *)
Definition rotate (w : WALWriter) (disk : Disk) (newHour : Z) (syncOk renameOk : bool)
  : WALWriter * Disk * result unit :=
  let w := flushBeforeHandoff w syncOk in
  let hour := segmentHour w in
  let '(disk, err) :=
    match walPath_in disk hour with
    | Some data =>
        if renameOk then
          (<[SegmentDirName hour :=
               <[sealing_name hour := data]> (delete active_name (dir_at disk hour))]> disk, None)
        else (disk, Some (Errorf "rename WAL for sealing"))
    | None => (disk, None)
    end in
  match err with
  | Some e => (w, disk, Err e)
  | None =>
      match ensureWAL w disk newHour with
      | Ok (w, disk) => (w, disk, Ok tt)
      | Err e => (w, disk, Err e)
      | Panic => (w, disk, Panic)
      end
  end.

(** [advanceEmpty]: an empty log is removed, and its directory when nothing else is
    in it. *)
Definition advanceEmpty (w : WALWriter) (disk : Disk) (newHour : Z) : result (WALWriter * Disk) :=
  let hour := segmentHour w in
  let disk :=
    match walPath_in disk hour with
    | Some [] =>
        let d := delete active_name (dir_at disk hour) in
        if bool_decide (d = ∅) then delete (SegmentDirName hour) disk
        else <[SegmentDirName hour := d]> disk
    | _ => disk
    end in
  ensureWAL w disk newHour.

(** [Rotate]: the hour that was rotated away and its number of entries (0 when there
    was nothing to seal). *)
Definition Rotate (w : WALWriter) (disk : Disk) (now : Z) (syncOk renameOk : bool)
  : WALWriter * Disk * result (Z * Z) :=
  let sealHour := segmentHour w in
  let entryCount := w_entryCount w in
  let nextHour := SegmentHourFromTime now in
  if entryCount =? 0 then
    if sealHour <? nextHour then
      match advanceEmpty w disk nextHour with
      | Ok (w, disk) => (w, disk, Ok (sealHour, 0))
      | Err e => (w, disk, Err e)
      | Panic => (w, disk, Panic)
      end
    else (w, disk, Ok (sealHour, 0))
  else
    let nextHour := if nextHour <=? sealHour then sealHour + 1 else nextHour in
    match freeSegmentHour disk nextHour with
    | Err e => (w, disk, Err e)
    | Panic => (w, disk, Panic)
    | Ok nextHour =>
        match rotate w disk nextHour syncOk renameOk with
        | (w, disk, Ok _) => (w, disk, Ok (sealHour, entryCount))
        | (w, disk, Err e) => (w, disk, Err e)
        | (w, disk, Panic) => (w, disk, Panic)
        end
    end.

End Writer.

(** ** Scanning a log at start-up *)

Section WriterLemmas.
Context {C : Zstd} {L : ZstdLaws C} (cb : bool).

Lemma record_prefix e : Uint32 (le_bytes 4 (len (record cb e))) = Ok (len (record cb e)).
Proof. rewrite <- (app_nil_r (le_bytes 4 _)). apply Uint32_app, record_u32. Qed.

Lemma scan_loop_step e rest size count valid fuel :
  loggable cb e -> valid + len (framed cb e ++ rest) <= size ->
  scan_loop (S fuel) (mkReader (framed cb e ++ rest) EOF) size count valid =
    scan_loop fuel (mkReader rest EOF) size (count + 1) (valid + len (framed cb e)).
Proof.
  intros [He Hb] Hsize. unfold framed in *. rewrite <- app_assoc in *. cbn [scan_loop].
  unfold walLenPrefixBytes. rewrite ReadFull_app by (by rewrite len_le_bytes).
  pose proof (record_len cb e) as [Hmin _]. change minRecordBytes with 33 in Hmin.
  rewrite record_prefix. cbn [mbind result_bind].
  rewrite !len_app, len_le_bytes in Hsize. len_pose. zcmp. cbn [orb].
  rewrite ReadFull_app by done. unfold UnmarshalEntry. rewrite UnmarshalEntryInto_record by done.
  f_equal. rewrite !len_app, len_le_bytes. lia.
Qed.

Lemma scan_loop_torn e torn size count valid fuel :
  torn `prefix_of` framed cb e -> torn <> framed cb e -> size = valid + len torn ->
  exists err, scan_loop (S fuel) (mkReader torn EOF) size count valid = Ok (count, valid, err) /\
    (err = None <-> torn = []).
Proof.
  intros Hp Hne ->. cbn [scan_loop]. unfold walLenPrefixBytes.
  destruct (prefix_of_app_cases _ _ _ Hp Hne) as [[Hp' Hne'] | (t & -> & Ht & Htne)].
  - assert (len torn < 4).
    { destruct Hp' as [k Hk]. pose proof (f_equal len Hk) as Hl. autorewrite with len in Hl.
      destruct k; [by rewrite app_nil_r in Hk |]. rewrite len_cons in Hl. len_pose. lia. }
    destruct (ReadFull_torn torn EOF 4 ltac:(done)) as (er & -> & H1 & H2).
    destruct (decide (torn = [])) as [-> |].
    + rewrite H1 by done. rewrite bool_decide_eq_true_2 by done. by eexists.
    + rewrite H2 by done. rewrite bool_decide_eq_false_2 by done. eexists. split; [done |]. by split.
  - rewrite ReadFull_app by (by rewrite len_le_bytes).
    rewrite record_prefix. cbn [mbind result_bind].
    assert (len t < len (record cb e)).
    { destruct Ht as [k Hk]. pose proof (f_equal len Hk) as Hl. rewrite len_app in Hl.
      destruct k; [by rewrite app_nil_r in Hk |]. rewrite len_cons in Hl. len_pose. lia. }
    rewrite len_app, len_le_bytes. zcmp. rewrite orb_true_r. eexists. split; [done |].
    split; [done |]. intros E. apply (f_equal len) in E. rewrite len_app, len_le_bytes in E.
    change (len (@nil Z)) with 0 in E. len_pose. lia.
Qed.

(** A log of whole records followed by a torn one: the count and the offset of the
    whole records, and an error exactly when something is torn. *)
Lemma scanWAL_ok es e torn :
  Forall (loggable cb) es -> torn `prefix_of` framed cb e -> torn <> framed cb e ->
  exists err, scanWAL ((es ≫= framed cb) ++ torn) = Ok (len es, len (es ≫= framed cb), err) /\
    (err = None <-> torn = []).
Proof.
  intros Hok Hp Hne. unfold scanWAL.
  assert (forall fuel count valid size, (length es < fuel)%nat ->
    size = valid + len ((es ≫= framed cb) ++ torn) ->
    exists err, scan_loop fuel (mkReader ((es ≫= framed cb) ++ torn) EOF) size count valid =
      Ok (count + len es, valid + len (es ≫= framed cb), err) /\ (err = None <-> torn = [])) as H.
  { induction Hok as [| x es Hx Hok IH]; intros fuel count valid size Hf Hs;
      (destruct fuel as [| fuel]; [cbn in Hf; lia |]).
    - cbn [mbind list_bind app] in *. change (len (@nil Entry)) with 0. change (len (@nil Z)) with 0.
      rewrite !Z.add_0_r. by apply (scan_loop_torn e).
    - rewrite bind_cons, <- app_assoc in *.
      rewrite scan_loop_step by (done || lia).
      destruct (IH fuel (count + 1) (valid + len (framed cb x)) size) as (err & -> & Hiff);
        [cbn in Hf; lia | rewrite !len_app in *; lia |].
      exists err. split; [| done]. rewrite len_cons, len_app. do 3 f_equal; lia. }
  destruct (H (S (length ((es ≫= framed cb) ++ torn))) 0 0 (len ((es ≫= framed cb) ++ torn)))
    as (err & -> & Hiff); [| done |].
  - rewrite length_app. pose proof (bind_framed_length cb es). lia.
  - exists err. by rewrite !Z.add_0_l.
Qed.

End WriterLemmas.

(** ** Appending keeps the log *)

Lemma loggable_assigned cb e id r :
  loggable cb e -> is_int64 id -> is_int64 r -> loggable cb (set ReceivedAt r (set ID id e)).
Proof.
  intros [(_ & Hts & _ & Hf) Hb] Hi Hr. split; [| exact Hb].
  split; [exact Hi |]. split; [exact Hts |]. split; [exact Hr |].
  unfold fields in *.
  repeat (apply Forall_cons in Hf; destruct Hf as [? Hf]; apply Forall_cons; split; [assumption |]).
  apply Forall_nil. exact I.
Qed.

Lemma assign_ids_length hour r idx es : length (assign_ids hour r idx es) = length es.
Proof. revert idx. induction es as [| e es IH]; intros idx; [done |]. cbn. by rewrite IH. Qed.

Lemma assign_ids_from hour r idx es : ids_from hour idx (assign_ids hour r idx es).
Proof.
  revert idx. induction es as [| e es IH]; intros idx; [by intros [] |].
  cbn [assign_ids]. intros [| i] x Hx.
  - injection Hx as <-. cbn. by rewrite Z.add_0_r.
  - rewrite (IH (idx + 1) i x Hx). f_equal. lia.
Qed.

Lemma assign_ids_loggable cb hour r idx es :
  0 <= hour < 2 ^ 32 -> 0 <= idx -> idx + len es <= MaxEntriesPerSegment -> is_int64 r ->
  Forall (loggable cb) es -> Forall (loggable cb) (assign_ids hour r idx es).
Proof.
  intros Hh Hi Hm Hr Hf. revert idx Hi Hm. induction Hf as [| e es He Hf IH]; intros idx Hi Hm; [constructor |].
  rewrite len_cons in Hm. len_pose. cbn [assign_ids]. constructor; [| apply IH; lia].
  apply loggable_assigned; [done | | done].
  pose proof (IDForPosition_range hour idx Hh ltac:(lia)). unfold is_int64. lia.
Qed.

(** The form of an entry that the live tail serves. *)
Definition tailed {C : Zstd} (cb : bool) (e out : Entry) : Prop := out = e \/ out = stored cb e.

Section AppendLemmas.
Context {C : Zstd} {L : ZstdLaws C} (cb : bool).

Lemma normalizeForRing_ok e :
  loggable cb e -> exists out, normalizeForRing e (framed cb e) = Ok out /\ tailed cb e out.
Proof.
  intros [He Hb]. unfold normalizeForRing. destruct (_ && _); [exists e; split; [done | by left] |].
  unfold framed, walLenPrefixBytes. rewrite (slice_from_split _ (le_bytes 4 (len (record cb e))) (record cb e))
    by (done || by rewrite len_le_bytes).
  cbn [mbind result_bind]. unfold UnmarshalEntry. rewrite UnmarshalEntryInto_record by done.
  exists (stored cb e). split; [done | by right].
Qed.

Lemma serialize_ok es buf :
  Forall (loggable cb) es ->
  exists outs, serialize cb buf es = Ok (buf ++ (es ≫= framed cb), outs) /\
    Forall2 (tailed cb) es outs.
Proof.
  intros Hf. revert buf. induction Hf as [| e es He Hf IH]; intros buf.
  { exists []. cbn [serialize mbind list_bind]. rewrite app_nil_r. split; [done | constructor]. }
  cbn [serialize]. rewrite AppendEntry_ok by apply He. cbn [mbind result_bind].
  rewrite (slice_from_split _ buf (framed cb e)) by done. cbn [mbind result_bind].
  destruct (normalizeForRing_ok e He) as (out & -> & Hout). cbn [mbind result_bind].
  destruct (IH (buf ++ framed cb e)) as (outs & -> & H2). cbn [mbind result_bind].
  exists (out :: outs). split; [| by constructor]. by rewrite bind_cons, app_assoc.
Qed.

(** The active log holds the framed entries [es], which carry the IDs of the hour,
    and the offsets of the writer describe it. *)
Record writer_ok (w : WALWriter) (disk : Disk) (es : list Entry) : Prop := {
  wk_hour : 0 <= segmentHour w < 2 ^ 32;
  wk_file : walPath_in disk (segmentHour w) = Some (es ≫= framed cb);
  wk_count : w_entryCount w = len es;
  wk_size : fileSize w = len (es ≫= framed cb);
  wk_written : writtenBytes w = len (es ≫= framed cb);
  wk_synced : 0 <= syncedBytes w <= len (es ≫= framed cb);
  wk_log : Forall (loggable cb) es;
  wk_ids : ids_from (segmentHour w) 0 es;
  wk_room : len es <= MaxEntriesPerSegment
}.

Lemma walPath_write disk hour data : walPath_in (write_file disk hour active_name data) hour = Some data.
Proof.
  unfold walPath_in, write_file, dir_at. rewrite lookup_insert_eq. cbn [from_option id].
  apply lookup_insert_eq.
Qed.

Lemma truncate_app (a b : bytes) : truncate (a ++ b) (len a) = a.
Proof.
  unfold truncate. rewrite to_nat_len, take_app_length, len_app. len_pose.
  unfold make. replace (Z.to_nat (len a - (len a + len b))) with 0%nat by lia. apply app_nil_r.
Qed.

(** A write that fails and is rolled back leaves the log as it was. *)
Lemma rollback_ok w disk es junk :
  writer_ok w disk es ->
  let disk := write_file disk (segmentHour w) active_name ((es ≫= framed cb) ++ junk) in
  let '(w', disk') := rollback w disk (fileSize w) true in
  writer_ok w' disk' es /\ segmentHour w' = segmentHour w /\ ring w' = ring w /\
  syncedBytes w' <= syncedBytes w.
Proof.
  intros [Hh Hf Hc Hs Hw Hy Hl Hi Hr]. cbn [rollback]. rewrite walPath_write, Hs. cbn [from_option id].
  rewrite truncate_app. split; [| split; [done |]; split; [done |]; cbn [syncedBytes]].
  - split; cbn [segmentHour w_entryCount fileSize writtenBytes syncedBytes]; try done.
    + apply walPath_write.
    + destruct (Z.ltb_spec (len (es ≫= framed cb)) (syncedBytes w)); lia.
  - destruct (Z.ltb_spec (len (es ≫= framed cb)) (syncedBytes w)); lia.
Qed.

Lemma append_locked_ok w disk es now entries n truncOk :
  writer_ok w disk es -> Forall (loggable cb) entries ->
  SegmentHasRoom (len es) (len entries) = true ->
  let new := assign_ids (segmentHour w) (UnixMilli now) (len es) entries in
  exists outs, Forall2 (tailed cb) new outs /\
    Forall (loggable cb) new /\
    append_locked cb w disk now entries None truncOk =
      (mkWALWriter (segmentHour w) (len (es ++ new)) (validBytes w) (len ((es ++ new) ≫= framed cb))
         (len ((es ++ new) ≫= framed cb)) (syncedBytes w) (Push (ring w) outs),
       write_file disk (segmentHour w) active_name ((es ++ new) ≫= framed cb),
       Ok (outs, len ((es ++ new) ≫= framed cb))) /\
    append_locked cb w disk now entries (Some n) truncOk =
      (let '(w', disk') := rollback w (write_file disk (segmentHour w) active_name
         ((es ≫= framed cb) ++ take (Z.to_nat n) (new ≫= framed cb))) (fileSize w) truncOk in
       (w', disk', Err (Errorf "write WAL entry"))).
Proof.
  intros [Hh Hf Hc Hs Hw Hy Hl Hi Hr] He Hroom new.
  assert (Forall (loggable cb) new) as Hnew.
  { unfold SegmentHasRoom in Hroom. apply andb_true_iff in Hroom as [_ Hroom]. apply Z.leb_le in Hroom.
    apply assign_ids_loggable; try done; [len_pose; lia | apply int64_range]. }
  destruct (serialize_ok new [] Hnew) as (outs & Hser & Hout). cbn [app] in Hser.
  exists outs. split; [done |]. split; [done |]. unfold append_locked. rewrite Hc, Hroom. cbn [negb].
  fold new. rewrite Hser, Hf, Hs. cbn [from_option id]. split; [| done].
  assert (len outs = len entries) as Hlo.
  { unfold len. rewrite <- (Forall2_length _ _ _ Hout). unfold new. by rewrite assign_ids_length. }
  assert (len new = len entries) as Hln by (unfold len, new; by rewrite assign_ids_length).
  rewrite bind_app, !len_app, Hlo, Hln. done.
Qed.

Lemma append_writer_ok w disk es now entries outs :
  writer_ok w disk es -> Forall (loggable cb) entries ->
  SegmentHasRoom (len es) (len entries) = true ->
  let new := assign_ids (segmentHour w) (UnixMilli now) (len es) entries in
  writer_ok (mkWALWriter (segmentHour w) (len (es ++ new)) (validBytes w) (len ((es ++ new) ≫= framed cb))
         (len ((es ++ new) ≫= framed cb)) (syncedBytes w) (Push (ring w) outs))
    (write_file disk (segmentHour w) active_name ((es ++ new) ≫= framed cb)) (es ++ new).
Proof.
  intros [Hh Hf Hc Hs Hw Hy Hl Hi Hr] He Hroom new.
  unfold SegmentHasRoom in Hroom. apply andb_true_iff in Hroom as [_ Hroom]. apply Z.leb_le in Hroom.
  assert (len new = len entries) as Hln by (unfold len, new; by rewrite assign_ids_length).
  split; cbn [segmentHour w_entryCount fileSize writtenBytes syncedBytes]; try done.
  - apply walPath_write.
  - rewrite bind_app, len_app. len_pose. lia.
  - apply Forall_app. split; [done |]. apply assign_ids_loggable; try done; [len_pose; lia | apply int64_range].
  - apply ids_from_app. split; [done |]. apply assign_ids_from.
  - rewrite len_app. lia.
Qed.

End AppendLemmas.

(** ** Opening and rotating *)

Section RotateLemmas.
Context {C : Zstd} {L : ZstdLaws C} (cb : bool).

(** Hours that have a directory name of their own: before the year 6325. *)
Definition hour_ok (h : Z) : Prop := 0 < h /\ h * 3600 < 2 ^ 37.

Lemma hour_ok_range h : hour_ok h -> 0 <= h < 2 ^ 32.
Proof. unfold hour_ok. lia. Qed.

Lemma SegmentDirName_inj h h' : hour_ok h -> hour_ok h' -> SegmentDirName h = SegmentDirName h' -> h = h'.
Proof.
  intros [H1 H2] [H1' H2'] E. apply (f_equal parseSegmentHour) in E.
  rewrite (parse_SegmentDirName h), (parse_SegmentDirName h') in E by lia. congruence.
Qed.

Lemma dir_write_other disk h h' name data :
  hour_ok h -> hour_ok h' -> h <> h' -> dir_at (write_file disk h name data) h' = dir_at disk h'.
Proof.
  intros Hh Hh' Hne. unfold dir_at, write_file. rewrite lookup_insert_ne; [done |].
  intros E. apply Hne. by apply SegmentDirName_inj.
Qed.

Lemma dir_write_same disk h name data : dir_at (write_file disk h name data) h = <[name := data]> (dir_at disk h).
Proof. unfold write_file. unfold dir_at at 1. by rewrite lookup_insert_eq. Qed.

(** A log on disk: whole records with the IDs of the hour, and a torn one. *)
Definition log_ok (hour : Z) (data : bytes) (es : list Entry) : Prop :=
  exists e torn, data = (es ≫= framed cb) ++ torn /\ torn `prefix_of` framed cb e /\ torn <> framed cb e /\
    Forall (loggable cb) es /\ ids_from hour 0 es /\ len es <= MaxEntriesPerSegment.

Lemma ensureWAL_ok w disk hour data es :
  0 <= hour < 2 ^ 32 -> walPath_in disk hour = Some data -> log_ok hour data es ->
  exists w', ensureWAL w disk hour = Ok (w', write_file disk hour active_name (es ≫= framed cb)) /\
    writer_ok cb w' (write_file disk hour active_name (es ≫= framed cb)) es /\
    segmentHour w' = hour /\ syncedBytes w' = len (es ≫= framed cb) /\ ring w' = ring w.
Proof.
  intros Hh Hd (e & torn & -> & Hp & Hne & Hl & Hi & Hm). unfold ensureWAL. rewrite Hd.
  destruct (scanWAL_ok cb es e torn Hl Hp Hne) as (err & -> & Hiff). cbn [mbind result_bind].
  assert (match err with Some _ => truncate ((es ≫= framed cb) ++ torn) (len (es ≫= framed cb))
    | None => (es ≫= framed cb) ++ torn end = es ≫= framed cb) as ->.
  { destruct err; [apply truncate_app |]. rewrite (proj1 Hiff eq_refl). apply app_nil_r. }
  eexists. split; [done |]. split; [| done].
  split; cbn [segmentHour w_entryCount fileSize writtenBytes syncedBytes]; try done.
  all: first [apply walPath_write | len_pose; lia].
Qed.

Lemma ensureWAL_new w disk hour :
  0 <= hour < 2 ^ 32 -> walPath_in disk hour = None ->
  exists w', ensureWAL w disk hour = Ok (w', write_file disk hour active_name []) /\
    writer_ok cb w' (write_file disk hour active_name []) [] /\
    segmentHour w' = hour /\ syncedBytes w' = 0 /\ ring w' = ring w.
Proof.
  intros Hh Hd. unfold ensureWAL. rewrite Hd. eexists. split; [done |]. split; [| done].
  split; cbn [segmentHour w_entryCount fileSize writtenBytes syncedBytes]; try done.
  all: first [apply walPath_write | by intros []].
Qed.

(** Either way the writer describes the log of the hour. *)
Definition active_log (disk : Disk) (hour : Z) (es : list Entry) : Prop :=
  match walPath_in disk hour with
  | Some data => log_ok hour data es
  | None => es = []
  end.

Lemma ensureWAL_active w disk hour es :
  0 <= hour < 2 ^ 32 -> active_log disk hour es ->
  exists w', ensureWAL w disk hour = Ok (w', write_file disk hour active_name (es ≫= framed cb)) /\
    writer_ok cb w' (write_file disk hour active_name (es ≫= framed cb)) es /\
    segmentHour w' = hour /\ syncedBytes w' = len (es ≫= framed cb) /\ ring w' = ring w.
Proof.
  intros Hh Ha. unfold active_log in Ha. destruct (walPath_in disk hour) as [data |] eqn:E.
  - by apply (ensureWAL_ok w disk hour data).
  - subst. by apply ensureWAL_new.
Qed.

(** ** The hour that is written *)

Lemma free_loop_ok probes disk start hour :
  free_loop probes disk start = Some hour ->
  start <= hour < start + Z.of_nat probes /\ IsSealComplete (dir_at disk hour) = false /\
  forall h, start <= h < hour -> IsSealComplete (dir_at disk h) = true.
Proof.
  revert start. induction probes as [| probes IH]; intros start; [done |]. cbn [free_loop].
  destruct (IsSealComplete (dir_at disk start)) eqn:E; cbn [negb].
  - intros H%IH. destruct H as (H1 & H2 & H3). split; [lia |]. split; [done |].
    intros h Hh. destruct (decide (h = start)) as [-> |]; [done | apply H3; lia].
  - intros [= <-]. split; [lia |]. split; [done |]. lia.
Qed.

Lemma freeSegmentHour_ok disk start hour :
  freeSegmentHour disk start = Ok hour ->
  start <= hour < start + maxSealedHourProbe /\ IsSealComplete (dir_at disk hour) = false.
Proof.
  unfold freeSegmentHour. destruct (free_loop _ _ _) as [h |] eqn:E; [| done]. intros [= <-].
  apply free_loop_ok in E as (H1 & H2 & _). split; [| done].
  rewrite Z2Nat.id in H1 by done. done.
Qed.

(** ** The flush at a handoff *)

Lemma flush_ok w disk es :
  writer_ok cb w disk es ->
  writer_ok cb (flushBeforeHandoff w true) disk es /\
  syncedBytes (flushBeforeHandoff w true) = len (es ≫= framed cb) /\
  ring (flushBeforeHandoff w true) = ring w /\ segmentHour (flushBeforeHandoff w true) = segmentHour w.
Proof.
  intros [Hh Hf Hc Hs Hw Hy Hl Hi Hr]. unfold flushBeforeHandoff, syncThrough, sync_covered.
  destruct (Z.leb_spec (writtenBytes w) (syncedBytes w)) as [Hle | Hlt]; cbn [fst].
  - split; [by split |]. split; [lia | done].
  - unfold sync_done. rewrite (proj2 (Z.ltb_lt _ _) Hlt).
    cbn [syncedBytes ring segmentHour]. split; [| done].
    split; cbn [segmentHour w_entryCount fileSize writtenBytes syncedBytes]; try done. len_pose. lia.
Qed.
End RotateLemmas.

(** ** Rotation *)

Section Rotate.
Context {C : Zstd} {L : ZstdLaws C} (cb : bool).

(** The active directory holds nothing but the log, and the hours after it are
    unused. *)
Record disk_ok (hour : Z) (disk : Disk) (es : list Entry) : Prop := {
  do_active : dir_at disk hour = {[active_name := es ≫= framed cb]};
  do_unused : forall h, hour < h -> hour_ok h -> dir_at disk h = ∅
}.

Lemma dir_at_insert disk h d : dir_at (<[SegmentDirName h := d]> disk) h = d.
Proof. unfold dir_at. by rewrite lookup_insert_eq. Qed.

Lemma dir_at_insert_other disk h h' d :
  hour_ok h -> hour_ok h' -> h <> h' -> dir_at (<[SegmentDirName h := d]> disk) h' = dir_at disk h'.
Proof.
  intros Hh Hh' Hne. unfold dir_at. rewrite lookup_insert_ne; [done |].
  intros E. apply Hne. by apply SegmentDirName_inj.
Qed.

Lemma dir_at_delete disk h : dir_at (delete (SegmentDirName h) disk) h = ∅.
Proof. unfold dir_at. by rewrite lookup_delete_eq. Qed.

Lemma dir_at_delete_other disk h h' :
  hour_ok h -> hour_ok h' -> h <> h' -> dir_at (delete (SegmentDirName h) disk) h' = dir_at disk h'.
Proof.
  intros Hh Hh' Hne. unfold dir_at. rewrite lookup_delete_ne; [done |].
  intros E. apply Hne. by apply SegmentDirName_inj.
Qed.

(** Opening the log of an unused hour. *)
Lemma open_unused w disk hour :
  0 <= hour < 2 ^ 32 -> dir_at disk hour = ∅ ->
  exists w', ensureWAL w disk hour = Ok (w', write_file disk hour active_name []) /\
    writer_ok cb w' (write_file disk hour active_name []) [] /\
    dir_at (write_file disk hour active_name []) hour = {[active_name := []]} /\
    segmentHour w' = hour /\ syncedBytes w' = 0.
Proof.
  intros Hh Hd.
  destruct (ensureWAL_new cb w disk hour Hh) as (w' & E & Hw & H1 & H2 & _).
  { unfold walPath_in. by rewrite Hd. }
  exists w'. split; [done |]. split; [done |]. split; [| done].
  rewrite dir_write_same, Hd. done.
Qed.

Definition handed_disk (disk : Disk) (h : Z) (es : list Entry) : Disk :=
  <[SegmentDirName h := {[sealing_name h := es ≫= framed cb]}]> disk.

(** A rotation moves the whole log aside and opens the log of a later hour. *)
Lemma Rotate_full w disk es now w' disk' h n :
  writer_ok cb w disk es -> disk_ok (segmentHour w) disk es -> es <> [] -> hour_ok (segmentHour w) ->
  Rotate w disk now true true = (w', disk', Ok (h, n)) -> hour_ok (segmentHour w') ->
  h = segmentHour w /\ n = len es /\ segmentHour w < segmentHour w' /\
  disk' = write_file (handed_disk disk h es) (segmentHour w') active_name [] /\
  writer_ok cb w' disk' [] /\ dir_at disk' (segmentHour w') = {[active_name := []]} /\
  syncedBytes w' = 0.
Proof.
  intros Hw [Hd Hu] Hne Hh. unfold Rotate. rewrite (wk_count _ _ _ _ Hw).
  assert (0 < len es) by (destruct es; [done | rewrite len_cons; len_pose; lia]).
  rewrite (proj2 (Z.eqb_neq (len es) 0)) by lia.
  set (next := if _ <=? _ then _ else _).
  assert (segmentHour w < next) as Hnext.
  { unfold next. destruct (Z.leb_spec (SegmentHourFromTime now) (segmentHour w)); lia. }
  destruct (freeSegmentHour disk next) as [h' | |] eqn:Ef; [| done | done].
  apply freeSegmentHour_ok in Ef as [Hr _]. unfold rotate.
  destruct (flush_ok cb w disk es Hw) as (Hw1 & Hs1 & Hr1 & Hh1).
  set (w1 := flushBeforeHandoff w true) in *. rewrite Hh1.
  rewrite (wk_file _ _ _ _ Hw).
  assert (delete active_name (dir_at disk (segmentHour w)) = ∅) as ->.
  { rewrite Hd. apply delete_singleton_eq. }
  rewrite insert_empty. fold (handed_disk disk (segmentHour w) es).
  unfold ensureWAL. destruct (walPath_in _ h') eqn:Ew.
  - intros E Hok. exfalso.
    assert (segmentHour w' = h') as Ehw.
    { destruct (scanWAL _) as [[[c v] e] | |]; cbn [mbind result_bind] in E; by simplify_eq. }
    rewrite Ehw in Hok. unfold walPath_in in Ew. unfold handed_disk in Ew.
    rewrite dir_at_insert_other in Ew by (done || lia). rewrite Hu in Ew by (done || lia). done.
  - intros [= <- <- <- <-] Hok. cbn [segmentHour] in Hok |- *.
    destruct (open_unused w1 (handed_disk disk (segmentHour w) es) h') as (w2 & E2 & Hw2 & Hd2 & Hh2 & Hs2).
    + by apply hour_ok_range.
    + unfold handed_disk. rewrite dir_at_insert_other by (done || lia). apply Hu; [lia | done].
    + unfold ensureWAL in E2. rewrite Ew in E2. injection E2 as <-. split_and!; try done. lia.
Qed.

(** Without entries the writer follows the clock. *)
Lemma Rotate_idle w disk now w' disk' h n b :
  writer_ok cb w disk [] -> disk_ok (segmentHour w) disk [] -> hour_ok (segmentHour w) ->
  Rotate w disk now true b = (w', disk', Ok (h, n)) -> hour_ok (segmentHour w') ->
  n = 0 /\ ((w' = w /\ disk' = disk) \/
    (segmentHour w < segmentHour w' /\
     disk' = write_file (delete (SegmentDirName (segmentHour w)) disk) (segmentHour w') active_name [] /\
     writer_ok cb w' disk' [] /\ dir_at disk' (segmentHour w') = {[active_name := []]} /\
     syncedBytes w' = 0)).
Proof.
  intros Hw [Hd Hu] Hh. unfold Rotate. rewrite (wk_count _ _ _ _ Hw).
  change (len (@nil Entry) =? 0) with true. cbn match.
  destruct (Z.ltb_spec (segmentHour w) (SegmentHourFromTime now)) as [Hlt | Hge].
  - unfold advanceEmpty. rewrite (wk_file _ _ _ _ Hw). cbn [mbind list_bind] in *.
    assert (delete active_name (dir_at disk (segmentHour w)) = ∅) as ->.
    { rewrite Hd. apply delete_singleton_eq. }
    rewrite bool_decide_eq_true_2 by done.
    destruct (ensureWAL _ _ _) as [[w2 disk2] | |] eqn:E; [| done | done].
    intros [= -> -> <- <-] Hok. split; [done |]. right.
    assert (segmentHour w' = SegmentHourFromTime now) as Eh.
    { unfold ensureWAL in E. destruct (walPath_in _ _); [| by simplify_eq].
      destruct (scanWAL _) as [[[c v] e] | |]; cbn [mbind result_bind] in E; by simplify_eq. }
    rewrite Eh in *.
    destruct (open_unused w (delete (SegmentDirName (segmentHour w)) disk) (SegmentHourFromTime now))
      as (w2 & E2 & Hw2 & Hd2 & Hh2 & Hs2).
    + by apply hour_ok_range.
    + rewrite dir_at_delete_other by (done || lia). by apply Hu.
    + rewrite E2 in E. injection E as -> <-. split_and!; done.
  - intros [= <- <- <- <-] _. split; [done |]. by left.
Qed.

(** A rename that fails leaves the log where it was. *)
Lemma Rotate_failed w disk es now w' disk' err :
  writer_ok cb w disk es -> es <> [] ->
  Rotate w disk now true false = (w', disk', Err err) ->
  disk' = disk /\ (w' = w \/ w' = flushBeforeHandoff w true).
Proof.
  intros Hw Hne. unfold Rotate. rewrite (wk_count _ _ _ _ Hw).
  assert (0 < len es) by (destruct es; [done | rewrite len_cons; len_pose; lia]).
  rewrite (proj2 (Z.eqb_neq (len es) 0)) by lia.
  destruct (freeSegmentHour disk _) as [h' | |]; [| intros [= <- <- <-]; split; [done | by left] | done].
  unfold rotate. destruct (flush_ok cb w disk es Hw) as (Hw1 & Hs1 & Hr1 & Hh1). rewrite Hh1.
  rewrite (wk_file _ _ _ _ Hw). intros [= <- <- <-]. split; [done | by right].
Qed.

(** One whose flush fails too changes nothing. *)
Lemma Rotate_unflushed w disk es now w' disk' err :
  writer_ok cb w disk es -> es <> [] ->
  Rotate w disk now false false = (w', disk', Err err) -> disk' = disk /\ w' = w.
Proof.
  intros Hw Hne. unfold Rotate. rewrite (wk_count _ _ _ _ Hw).
  assert (0 < len es) by (destruct es; [done | rewrite len_cons; len_pose; lia]).
  rewrite (proj2 (Z.eqb_neq (len es) 0)) by lia.
  destruct (freeSegmentHour disk _) as [h' | |]; [| by intros [= <- <- <-] | done].
  unfold rotate. assert (flushBeforeHandoff w false = w) as ->.
  { unfold flushBeforeHandoff, syncThrough, sync_covered. by destruct (Z.leb_spec (writtenBytes w) (syncedBytes w)). }
  rewrite (wk_file _ _ _ _ Hw). by intros [= <- <- <-].
Qed.

End Rotate.
