(* ===== verification/Durable.v ===== *)
(** * Acknowledged entries and crashes (engine/writer.go, engine/seal.go, engine/segment.go)

    The log writer under concurrent appenders as a transition system whose steps are
    the operations of [Writer]: an append is its write, the fsync another
    appender may share, and the acknowledgement.  A crash keeps at least the bytes
    that were synced.  The file shows that start-up finds every acknowledged
    entry again. *)

From stdpp Require Import base list gmap strings numbers sorting.
From Stdlib Require Import ZArith Lia.
From S2P Require Import Prelude Zstd Schema Wal Index Times Ids Seal Ring Writer.

Section Durable.
Context {C : Zstd} {L : ZstdLaws C} {U : Unicode} {J : MetaJSON}.
Context (cb : bool) (sealChunkEntries : Z).

(** The writer, the disk, and what the program cannot see: the prefix of the active
    log that is on stable storage, the appenders between [w.mu.Unlock()] and the
    return of [Append] (the entries and the offset each waits for), the one that
    holds [syncMu] around [walFile.Sync()] with its [covered], whether the handle is
    open, the batches acknowledged so far and the number of fsyncs made for them.
    [sy_log] and [sy_handed] are the entries written to the active log and to the
    logs of earlier hours. *)
Record System := mkSystem {
  sy_w : WALWriter;
  sy_disk : Disk;
  sy_stable : Z;
  sy_open : bool;
  sy_waiting : list (list Entry * Z);
  sy_syncing : option (list Entry * Z);
  sy_acked : list (list Entry);
  sy_fsyncs : Z;
  sy_log : list Entry;
  sy_handed : list (Z * list Entry)
}.

(** The log directory after [Rotate] and a complete [Seal]. *)
Definition sealed_dir (h : Z) (es : list Entry) : Dir :=
  apply_ops (rotated_dir cb h es []) (final_ops cb sealChunkEntries h es).

Definition rename_error := Errorf "rename WAL for sealing".

Inductive step : System -> System -> Prop :=
(** [Append] up to [w.mu.Unlock()]. *)
| step_write w disk stable waiting syncing acked n log handed now entries w' disk' outs target :
    Forall (loggable cb) entries ->
    append_locked cb w disk now entries None true = (w', disk', Ok (outs, target)) ->
    step (mkSystem w disk stable true waiting syncing acked n log handed)
      (mkSystem w' disk' stable true ((outs, target) :: waiting) syncing acked n
         (log ++ assign_ids (segmentHour w) (UnixMilli now) (len log) entries) handed)
(** A write that fails after [k] bytes; [rollback] needs [syncMu]. *)
| step_write_failed w disk stable waiting acked n log handed now entries k w' disk' err :
    Forall (loggable cb) entries ->
    append_locked cb w disk now entries (Some k) true = (w', disk', Err err) ->
    step (mkSystem w disk stable true waiting None acked n log handed)
      (mkSystem w' disk' stable true waiting None acked n log handed)
(** [syncThrough] of an appender another fsync already covered. *)
| step_covered w disk stable o before outs target after acked n log handed :
    sync_covered w target = None ->
    step (mkSystem w disk stable o (before ++ (outs, target) :: after) None acked n log handed)
      (mkSystem w disk stable o (before ++ after) None (outs :: acked) n log handed)
(** [syncThrough] up to the system call. *)
| step_sync_begin w disk stable before outs target after acked n log handed covered :
    sync_covered w target = Some covered ->
    step (mkSystem w disk stable true (before ++ (outs, target) :: after) None acked n log handed)
      (mkSystem w disk stable true (before ++ after) (Some (outs, covered)) acked (n + 1) log handed)
| step_sync_ok w disk stable o waiting outs covered acked n log handed :
    step (mkSystem w disk stable o waiting (Some (outs, covered)) acked n log handed)
      (mkSystem (sync_done w covered) disk (Z.max stable covered) o waiting None (outs :: acked) n log handed)
| step_sync_failed w disk stable o waiting outs covered acked n log handed :
    step (mkSystem w disk stable o waiting (Some (outs, covered)) acked n log handed)
      (mkSystem w disk stable o waiting None acked n log handed)
(** The kernel writes the file back on its own. *)
| step_writeback w disk stable o waiting syncing acked n log handed data k :
    walPath_in disk (segmentHour w) = Some data -> stable <= k <= len data ->
    step (mkSystem w disk stable o waiting syncing acked n log handed)
      (mkSystem w disk k o waiting syncing acked n log handed)
(** [Rotate] of a log with entries; its flush waits for [syncMu] and either finds
    everything covered or syncs an open file. *)
| step_rotate w disk stable o waiting acked n log handed now w' disk' h count :
    o = true \/ sync_covered w (writtenBytes w) = None ->
    Rotate w disk now true true = (w', disk', Ok (h, count)) -> count <> 0 ->
    hour_ok (segmentHour w') ->
    step (mkSystem w disk stable o waiting None acked n log handed)
      (mkSystem w' disk' 0 true waiting None acked n [] ((h, log) :: handed))
(** [Rotate] of an empty log. *)
| step_idle w disk stable waiting acked n log handed now renameOk w' disk' h :
    Rotate w disk now true renameOk = (w', disk', Ok (h, 0)) -> hour_ok (segmentHour w') ->
    step (mkSystem w disk stable true waiting None acked n log handed)
      (mkSystem w' disk' 0 true waiting None acked n log handed)
(** [Rotate] whose rename fails, after a flush that succeeds or not: the handle is closed. *)
| step_rotate_failed w disk stable o waiting acked n log handed now w' disk' :
    o = true \/ sync_covered w (writtenBytes w) = None -> log <> [] ->
    Rotate w disk now true false = (w', disk', Err rename_error) ->
    step (mkSystem w disk stable o waiting None acked n log handed)
      (mkSystem w' disk' (len (log ≫= framed cb)) false waiting None acked n log handed)
| step_rotate_unflushed w disk stable o waiting acked n log handed now w' disk' :
    log <> [] -> Rotate w disk now false false = (w', disk', Err rename_error) ->
    step (mkSystem w disk stable o waiting None acked n log handed)
      (mkSystem w' disk' stable false waiting None acked n log handed)
(** [Seal] of a rotated log. *)
| step_seal w disk stable o waiting syncing acked n log handed h es :
    (h, es) ∈ handed -> segment_fits sealChunkEntries (stored cb <$> es) ->
    IsSealComplete (dir_at disk h) = false ->
    step (mkSystem w disk stable o waiting syncing acked n log handed)
      (mkSystem w (<[SegmentDirName h :=
           apply_ops (dir_at disk h)
             (seal_ops sealChunkEntries (dir_at disk h) (sealing_name h) h)]> disk)
         stable o waiting syncing acked n log handed).

Definition reachable (s s' : System) : Prop := rtc step s s'.

(** The failures the writer only logs: the truncation of [rollback], and the flush of a rotation
    that goes on.  The flag says whether there was one. *)
Inductive fault_step : System * bool -> System * bool -> Prop :=
| fault_none s s' faulty : step s s' -> fault_step (s, faulty) (s', faulty)
| fault_rollback w disk stable waiting acked n log handed now entries k w' disk' err faulty :
    Forall (loggable cb) entries ->
    append_locked cb w disk now entries (Some k) false = (w', disk', Err err) ->
    fault_step (mkSystem w disk stable true waiting None acked n log handed, faulty)
      (mkSystem w' disk' stable true waiting None acked n log handed, true)
| fault_flush w disk stable o waiting acked n log handed now w' disk' h count faulty :
    Rotate w disk now false true = (w', disk', Ok (h, count)) -> count <> 0 ->
    fault_step (mkSystem w disk stable o waiting None acked n log handed, faulty)
      (mkSystem w' disk' 0 true waiting None acked n [] ((h, log) :: handed), true).

(** A run without one is a run of the ordinary steps. *)
Lemma fault_free s0 s : rtc fault_step (s0, false) (s, false) -> reachable s0 s.
Proof.
  intros H. remember (s, false) as p eqn:Ep. revert s Ep.
  apply (rtc_ind_r (R := fault_step) (fun p => forall s, p = (s, false) -> reachable s0 s) (s0, false)); [| | exact H].
  - intros s [= <-]. apply rtc_refl.
  - intros p1 p2 _ Hs IH s ->. inversion Hs as [s1 s2 f Hst | |]; subst. eapply rtc_r; [by apply IH | exact Hst].
Qed.

Lemma reachable_fault_free s0 s : reachable s0 s -> rtc fault_step (s0, false) (s, false).
Proof.
  intros H. induction H as [s | s1 s2 s3 Hs _ IH]; [apply rtc_refl |]. eapply rtc_l; [by apply fault_none | exact IH].
Qed.

(** A writer just opened on an unused hour of a clean disk. *)
Definition started (s : System) : Prop :=
  exists w disk, s = mkSystem w disk 0 true [] None [] 0 [] [] /\
    writer_ok cb w disk [] /\ disk_ok cb (segmentHour w) disk [] /\ hour_ok (segmentHour w) /\
    syncedBytes w = 0.

(** ** What a crash leaves *)

(** The active file as it is or with the batch of an append in progress. *)
Definition in_progress (s : System) (file : bytes) : Prop :=
  walPath_in (sy_disk s) (segmentHour (sy_w s)) = Some file \/
  exists now entries w disk r,
    Forall (loggable cb) entries /\
    append_locked cb (sy_w s) (sy_disk s) now entries None true = (w, disk, Ok r) /\
    walPath_in disk (segmentHour (sy_w s)) = Some file.

(** The active log is cut no shorter than what is stable; a log of which nothing is
    stable may be missing, and so may every log when the fsync of a new file does not
    make its entry in the directory durable, since the writer never syncs the directory.
    The rename of a rotated log may not have reached the disk; a directory with a rotated
    log is else left at some point of its sealing. *)
Record crashed (entryDurable : bool) (s : System) (disk : Disk) : Prop := {
  cr_active :
    ((sy_stable s = 0 \/ entryDurable = false) /\ dir_at disk (segmentHour (sy_w s)) = ∅) \/
    exists file data,
      in_progress s file /\ data `prefix_of` file /\ sy_stable s <= len data /\
      dir_at disk (segmentHour (sy_w s)) = {[active_name := data]};
  cr_handed : forall h es, (h, es) ∈ sy_handed s ->
    dir_at disk h = dir_at (sy_disk s) h \/
    (dir_at (sy_disk s) h = rotated_dir cb h es [] /\
     (dir_at disk h = {[active_name := es ≫= framed cb]} \/ entryDurable = false /\ dir_at disk h = ∅)) \/
    (segment_fits sealChunkEntries (stored cb <$> es) /\ IsSealComplete (dir_at (sy_disk s) h) = false /\
     exists ops, crash_of (seal_ops sealChunkEntries (dir_at (sy_disk s) h) (sealing_name h) h) ops /\
       dir_at disk h = apply_ops (dir_at (sy_disk s) h) ops)
}.

(** ** The invariant *)

(** The acknowledged forms of entries of [l]. *)
Definition kept (l outs : list Entry) : Prop :=
  Forall (fun out => exists e, e ∈ l /\ tailed cb e out) outs.

(** The batch is in the log of an earlier hour or in the first [bound] bytes of the
    active one. *)
Definition safe (log : list Entry) (bound : Z) (handed : list (Z * list Entry)) (outs : list Entry) : Prop :=
  (exists h es, (h, es) ∈ handed /\ kept es outs) \/
  (exists l, l `prefix_of` log /\ len (l ≫= framed cb) <= bound /\ kept l outs).

Record handed_ok (hour : Z) (disk : Disk) (p : Z * list Entry) : Prop := {
  ho_hour : p.1 < hour;
  ho_ok : hour_ok p.1;
  ho_some : p.2 <> [];
  ho_log : Forall (loggable cb) p.2;
  ho_ids : ids_from p.1 0 p.2;
  ho_room : len p.2 <= MaxEntriesPerSegment;
  ho_dir : dir_at disk p.1 = rotated_dir cb p.1 p.2 [] \/
    (segment_fits sealChunkEntries (stored cb <$> p.2) /\ dir_at disk p.1 = sealed_dir p.1 p.2)
}.

Record inv (s : System) : Prop := {
  iv_writer : writer_ok cb (sy_w s) (sy_disk s) (sy_log s);
  iv_disk : disk_ok cb (segmentHour (sy_w s)) (sy_disk s) (sy_log s);
  iv_hour : hour_ok (segmentHour (sy_w s));
  iv_stable : syncedBytes (sy_w s) <= sy_stable s <= len (sy_log s ≫= framed cb);
  iv_handed : Forall (handed_ok (segmentHour (sy_w s)) (sy_disk s)) (sy_handed s);
  iv_nodup : NoDup (sy_handed s).*1;
  iv_waiting : Forall (fun p => safe (sy_log s) p.2 (sy_handed s) p.1) (sy_waiting s);
  iv_syncing : match sy_syncing s with
    | Some (outs, covered) => covered <= len (sy_log s ≫= framed cb) /\
        safe (sy_log s) covered (sy_handed s) outs
    | None => True
    end;
  iv_acked : Forall (safe (sy_log s) (sy_stable s) (sy_handed s)) (sy_acked s)
}.

Lemma kept_mono l l' outs : l ⊆ l' -> kept l outs -> kept l' outs.
Proof. intros Hs H. eapply Forall_impl; [exact H |]. intros out (e & He & Ht). exists e. split; [by apply Hs | done]. Qed.

Lemma kept_tailed l outs : Forall2 (tailed cb) l outs -> kept l outs.
Proof.
  intros H. induction H as [| e out l outs Ht H IH]; [constructor |]. constructor.
  - exists e. split; [by left | done].
  - eapply kept_mono; [| exact IH]. set_solver.
Qed.

Lemma safe_grow log bound handed more bound' outs :
  bound <= bound' -> safe log bound handed outs -> safe (log ++ more) bound' handed outs.
Proof.
  intros Hb [H | (l & Hp & Hl & Hk)]; [by left | right]. exists l. split; [| split; [lia | done]].
  by apply prefix_app_r.
Qed.

Lemma safe_bound log bound handed bound' outs :
  bound <= bound' -> safe log bound handed outs -> safe log bound' handed outs.
Proof. intros Hb H. rewrite <- (app_nil_r log). by apply (safe_grow log bound). Qed.

Lemma prefix_elem {A} (l k : list A) : l `prefix_of` k -> l ⊆ k.
Proof. intros [m ->]. set_solver. Qed.

Lemma safe_rotate log bound handed h bound' outs :
  safe log bound handed outs -> safe [] bound' ((h, log) :: handed) outs.
Proof.
  intros [(h' & es & He & Hk) | (l & Hp & _ & Hk)]; left.
  - exists h', es. split; [by right | done].
  - exists h, log. split; [by left |]. eapply kept_mono; [| done]. by apply prefix_elem.
Qed.

Lemma safe_idle bound handed bound' outs : 0 <= bound' -> safe [] bound handed outs -> safe [] bound' handed outs.
Proof.
  intros Hb [H | (l & Hp & _ & Hk)]; [by left | right]. exists []. split; [apply prefix_nil |].
  split; [done |]. eapply kept_mono; [| done]. by apply prefix_elem.
Qed.

Lemma framed_prefix_len (l log : list Entry) :
  l `prefix_of` log -> len (l ≫= framed cb) <= len (log ≫= framed cb).
Proof. intros [m ->]. rewrite bind_app, len_app. len_pose. lia. Qed.

(** Bytes written by the appender are below what a sync covers. *)
Lemma safe_all log bound handed outs :
  safe log bound handed outs -> safe log (len (log ≫= framed cb)) handed outs.
Proof.
  intros [H | (l & Hp & _ & Hk)]; [by left | right]. exists l.
  split; [done |]. split; [by apply framed_prefix_len | done].
Qed.

Lemma write_disk_ok hour disk es es' :
  hour_ok hour -> disk_ok cb hour disk es ->
  disk_ok cb hour (write_file disk hour active_name (es' ≫= framed cb)) es'.
Proof.
  intros Hh [Hd Hu]. split.
  - rewrite dir_write_same, Hd. apply insert_singleton_eq.
  - intros h Hlt Hok. rewrite dir_write_other by (done || lia). by apply Hu.
Qed.

Lemma write_write disk hour name a b :
  write_file (write_file disk hour name a) hour name b = write_file disk hour name b.
Proof.
  unfold write_file at 1. rewrite dir_write_same, insert_insert_eq. unfold write_file.
  by rewrite insert_insert_eq.
Qed.

Lemma handed_write hour disk data handed :
  hour_ok hour -> Forall (handed_ok hour disk) handed ->
  Forall (handed_ok hour (write_file disk hour active_name data)) handed.
Proof.
  intros Hh H. eapply Forall_impl; [exact H |]. intros p [H1 H2 H3 H4 H5 H6 H7].
  split; try done. rewrite dir_write_other by (done || lia). done.
Qed.

Lemma started_inv s : started s -> inv s.
Proof.
  intros (w & disk & -> & Hw & Hd & Hh & Hs).
  split; cbn; first [done | apply Forall_nil_2 | apply NoDup_nil_2 | rewrite Hs; done].
Qed.

(** ** Every step keeps the invariant *)

Lemma step_write_inv w disk stable waiting syncing acked n log handed now entries w' disk' outs target :
  inv (mkSystem w disk stable true waiting syncing acked n log handed) ->
  Forall (loggable cb) entries ->
  append_locked cb w disk now entries None true = (w', disk', Ok (outs, target)) ->
  inv (mkSystem w' disk' stable true ((outs, target) :: waiting) syncing acked n
         (log ++ assign_ids (segmentHour w) (UnixMilli now) (len log) entries) handed).
Proof.
  intros [Hw Hd Hh Hs Hf Hn Hwait Hsync Hack] He E. cbn in *.
  destruct (SegmentHasRoom (len log) (len entries)) eqn:Hroom;
    [| unfold append_locked in E; rewrite (wk_count _ _ _ _ Hw), Hroom in E; done].
  destruct (append_locked_ok cb w disk log now entries 0 true Hw He Hroom) as (outs' & H2 & Hnew & E' & _).
  pose proof (append_writer_ok cb w disk log now entries outs' Hw He Hroom) as Hw'. cbv zeta in Hw'.
  rewrite E' in E. injection E as <- <- <- <-.
  set (new := assign_ids _ _ _ entries) in *. set (w' := mkWALWriter _ _ _ _ _ _ _) in *.
  assert (len (log ≫= framed cb) <= len ((log ++ new) ≫= framed cb)) as Hgrow
    by (apply framed_prefix_len; by apply prefix_app_r).
  split; cbn; try done.
  - by apply (write_disk_ok _ _ log).
  - lia.
  - by apply handed_write.
  - apply Forall_cons. split.
    + right. exists (log ++ new). split; [done |]. split; [done |].
      apply (kept_mono new); [set_solver |]. by apply kept_tailed.
    + eapply Forall_impl; [exact Hwait |]. intros p Hp. by apply (safe_grow log p.2).
  - destruct syncing as [[outs covered] |]; [| done]. destruct Hsync as [Hc Hk].
    split; [lia | by apply (safe_grow log covered)].
  - eapply Forall_impl; [exact Hack |]. intros a Ha. by apply (safe_grow log stable).
Qed.

Lemma step_write_failed_inv w disk stable waiting acked n log handed now entries k w' disk' err :
  inv (mkSystem w disk stable true waiting None acked n log handed) ->
  Forall (loggable cb) entries ->
  append_locked cb w disk now entries (Some k) true = (w', disk', Err err) ->
  inv (mkSystem w' disk' stable true waiting None acked n log handed).
Proof.
  intros [Hw Hd Hh Hs Hf Hn Hwait Hsync Hack] He E. cbn in *.
  destruct (SegmentHasRoom (len log) (len entries)) eqn:Hroom.
  2:{ unfold append_locked in E. rewrite (wk_count _ _ _ _ Hw), Hroom in E. injection E as <- <- <-.
      by split. }
  destruct (append_locked_ok cb w disk log now entries k true Hw He Hroom) as (outs' & _ & _ & _ & E').
  rewrite E' in E.
  pose proof (rollback_ok cb w disk log (take (Z.to_nat k)
    (assign_ids (segmentHour w) (UnixMilli now) (len log) entries ≫= framed cb)) Hw) as Hr.
  cbv zeta in Hr. cbn [rollback] in E, Hr. destruct Hr as (Hw' & Hh' & _ & Hs').
  injection E as <- <- <-. set (w' := mkWALWriter _ _ _ _ _ _ _) in *.
  rewrite walPath_write, (wk_size _ _ _ _ Hw) in *. cbn [from_option id] in *.
  rewrite truncate_app in *.
  split; cbn; try done.
  - rewrite write_write. by apply (write_disk_ok _ _ log).
  - cbn in Hs'. lia.
  - rewrite write_write. by apply handed_write.
Qed.

Lemma safe_waiting log handed before after outs target :
  Forall (fun p => safe log p.2 handed p.1) (before ++ (outs, target) :: after) ->
  safe log target handed outs /\ Forall (fun p => safe log p.2 handed p.1) (before ++ after).
Proof.
  intros H. apply Forall_app in H as [H1 H]. apply Forall_cons in H as [H H2].
  split; [exact H |]. by apply Forall_app.
Qed.

Lemma step_covered_inv w disk stable o before outs target after acked n log handed :
  sync_covered w target = None ->
  inv (mkSystem w disk stable o (before ++ (outs, target) :: after) None acked n log handed) ->
  inv (mkSystem w disk stable o (before ++ after) None (outs :: acked) n log handed).
Proof.
  intros E [Hw Hd Hh Hs Hf Hn Hwait Hsync Hack]. cbn in *.
  apply safe_waiting in Hwait as [Ho Hwait]. split; cbn; try done.
  apply Forall_cons. split; [| done]. apply (safe_bound log target); [| done].
  unfold sync_covered in E. destruct (Z.leb_spec target (syncedBytes w)); [lia | done].
Qed.

Lemma step_sync_begin_inv w disk stable before outs target after acked n log handed covered :
  sync_covered w target = Some covered ->
  inv (mkSystem w disk stable true (before ++ (outs, target) :: after) None acked n log handed) ->
  inv (mkSystem w disk stable true (before ++ after) (Some (outs, covered)) acked (n + 1) log handed).
Proof.
  intros E [Hw Hd Hh Hs Hf Hn Hwait Hsync Hack]. cbn in *.
  apply safe_waiting in Hwait as [Ho Hwait].
  assert (covered = len (log ≫= framed cb)) as ->.
  { unfold sync_covered in E. destruct (target <=? syncedBytes w); [done |]. injection E as <-.
    apply (wk_written _ _ _ _ Hw). }
  split; cbn; try done. split; [lia |]. by apply (safe_all log target).
Qed.

Lemma sync_done_ok w disk log covered :
  writer_ok cb w disk log -> covered <= len (log ≫= framed cb) ->
  writer_ok cb (sync_done w covered) disk log /\
  segmentHour (sync_done w covered) = segmentHour w /\
  syncedBytes (sync_done w covered) = Z.max (syncedBytes w) covered.
Proof.
  intros [Hh Hf Hc Hs Hw Hy Hl Hi Hr] Hcov. unfold sync_done.
  destruct (Z.ltb_spec (syncedBytes w) covered); cbn.
  - split; [| split; [done | lia]]. split; cbn; try done. lia.
  - split; [by split |]. split; [done | lia].
Qed.

Lemma step_sync_ok_inv w disk stable o waiting outs covered acked n log handed :
  inv (mkSystem w disk stable o waiting (Some (outs, covered)) acked n log handed) ->
  inv (mkSystem (sync_done w covered) disk (Z.max stable covered) o waiting None (outs :: acked) n log handed).
Proof.
  intros [Hw Hd Hh Hs Hf Hn Hwait [Hc Ho] Hack]. cbn in *.
  destruct (sync_done_ok w disk log covered Hw Hc) as (Hw' & Eh & Es).
  split; cbn; rewrite ?Eh, ?Es; try done.
  - lia.
  - apply Forall_cons. split; [apply (safe_bound log covered); [lia | done] |].
    eapply Forall_impl; [exact Hack |]. intros a Ha. apply (safe_bound log stable); [lia | done].
Qed.

Lemma step_writeback_inv w disk stable o waiting syncing acked n log handed data k :
  walPath_in disk (segmentHour w) = Some data -> stable <= k <= len data ->
  inv (mkSystem w disk stable o waiting syncing acked n log handed) ->
  inv (mkSystem w disk k o waiting syncing acked n log handed).
Proof.
  intros Hdata Hk [Hw Hd Hh Hs Hf Hn Hwait Hsync Hack]. cbn in *.
  pose proof (wk_file _ _ _ _ Hw) as Hfile. cbn in Hfile. rewrite Hfile in Hdata. injection Hdata as <-.
  split; cbn; try done; [lia |].
  eapply Forall_impl; [exact Hack |]. intros a Ha. apply (safe_bound log stable); [lia | done].
Qed.

Lemma seal_rotated h es :
  es <> [] -> Forall (loggable cb) es -> segment_fits sealChunkEntries (stored cb <$> es) ->
  seal_ops sealChunkEntries (rotated_dir cb h es []) (sealing_name h) h =
    final_ops cb sealChunkEntries h es.
Proof.
  intros Hne Hl Hfit.
  apply (rotated_seal cb sealChunkEntries h es Entry0 []); first [apply prefix_nil | done].
Qed.

Lemma handed_forall_other hour disk handed h d :
  hour_ok h -> h ∉ handed.*1 -> Forall (handed_ok hour disk) handed ->
  Forall (handed_ok hour (<[SegmentDirName h := d]> disk)) handed.
Proof.
  intros Hh Hni H. rewrite list.Forall_forall in *. intros p Hp.
  destruct (H p Hp) as [H1 H2 H3 H4 H5 H6 H7]. split; try done.
  rewrite dir_at_insert_other; [done | done | done |]. intros ->. apply Hni. by apply list_elem_of_fmap_2.
Qed.

Lemma step_rotate_inv w disk stable o waiting acked n log handed now w' disk' h count :
  inv (mkSystem w disk stable o waiting None acked n log handed) ->
  Rotate w disk now true true = (w', disk', Ok (h, count)) -> count <> 0 ->
  hour_ok (segmentHour w') ->
  inv (mkSystem w' disk' 0 true waiting None acked n [] ((h, log) :: handed)).
Proof.
  intros [Hw Hd Hh Hs Hf Hn Hwait Hsync Hack] E Hc Hh'. cbn in *.
  assert (log <> []) as Hne.
  { intros ->. apply (Rotate_idle cb w disk now w' disk' h count true) in E as [E0 _]; done. }
  destruct (Rotate_full cb w disk log now w' disk' h count) as (-> & -> & Hlt & -> & Hw' & Hd' & Hs');
    [done .. |].
  split; cbn; try done; try lia.
  - split; [done |]. intros h' Hlt' Hok. rewrite dir_write_other by (done || lia).
    unfold handed_disk. rewrite dir_at_insert_other by (done || lia). apply (do_unused _ _ _ _ Hd); [lia | done].
  - by rewrite Hs'.
  - apply handed_write; [done |]. apply Forall_cons. split.
    + split; cbn; try done; try lia; try apply Hw.
      left. unfold handed_disk. rewrite dir_at_insert. unfold rotated_dir. by rewrite app_nil_r.
    + apply handed_forall_other; [done | |].
      * intros Hin. apply list_elem_of_fmap in Hin as (p & Ep & Hp).
        rewrite list.Forall_forall in Hf. destruct (Hf p Hp) as [H1 _]. lia.
      * eapply Forall_impl; [exact Hf |]. intros p [H1 H2 H3 H4 H5 H6 H7]. by split; try lia.
  - apply NoDup_cons. split; [| done]. intros Hin. apply list_elem_of_fmap in Hin as (p & Ep & Hp).
    rewrite list.Forall_forall in Hf. destruct (Hf p Hp) as [H1 _]. lia.
  - eapply Forall_impl; [exact Hwait |]. intros p Hp. by apply (safe_rotate log p.2).
  - eapply Forall_impl; [exact Hack |]. intros p Hp. by apply (safe_rotate log stable).
Qed.

Lemma step_idle_inv w disk stable waiting acked n log handed now renameOk w' disk' h :
  inv (mkSystem w disk stable true waiting None acked n log handed) ->
  Rotate w disk now true renameOk = (w', disk', Ok (h, 0)) -> hour_ok (segmentHour w') ->
  inv (mkSystem w' disk' 0 true waiting None acked n log handed).
Proof.
  intros [Hw Hd Hh Hs Hf Hn Hwait Hsync Hack] E Hh'. cbn in *.
  assert (log = []) as ->.
  { destruct log as [| x log]; [done |]. exfalso. unfold Rotate in E.
    rewrite (wk_count _ _ _ _ Hw), len_cons in E. len_pose.
    rewrite (proj2 (Z.eqb_neq (1 + len log) 0)) in E by lia.
    destruct (freeSegmentHour _ _); [| done | done].
    destruct (rotate _ _ _ _ _) as [[? ?] [? | |]]; [| done | done]. injection E as _ _ _ E. lia. }
  apply (Rotate_idle cb w disk now w' disk' h 0) in E as [_ [[-> ->] | (Hlt & -> & Hw' & Hd' & Hs')]]; try done.
  - change (len ([] ≫= framed cb)) with 0 in *. pose proof (wk_synced _ _ _ _ Hw).
    assert (stable = 0) as -> by lia. by split.
  - split; cbn [sy_w sy_disk sy_stable sy_waiting sy_syncing sy_acked sy_log sy_handed]; try done; try lia.
    + split; [done |]. intros h' Hlt' Hok. rewrite dir_write_other by (done || lia).
      rewrite dir_at_delete_other by (done || lia). apply (do_unused _ _ _ _ Hd); [lia | done].
    + by rewrite Hs'.
    + apply handed_write; [done |]. eapply Forall_impl; [exact Hf |].
      intros p [H1 H2 H3 H4 H5 H6 H7]. split; try done; try lia.
      by rewrite dir_at_delete_other by (done || lia).
    + eapply Forall_impl; [exact Hack |]. intros p Hp. by apply (safe_idle stable).
Qed.

Lemma step_rotate_failed_inv w disk stable o waiting acked n log handed now w' disk' :
  log <> [] -> inv (mkSystem w disk stable o waiting None acked n log handed) ->
  Rotate w disk now true false = (w', disk', Err rename_error) ->
  inv (mkSystem w' disk' (len (log ≫= framed cb)) false waiting None acked n log handed).
Proof.
  intros Hne [Hw Hd Hh Hs Hf Hn Hwait Hsync Hack] E. cbn in *.
  assert (Forall (safe log (len (log ≫= framed cb)) handed) acked) as Hall.
  { eapply Forall_impl; [exact Hack |]. intros p Hp. apply (safe_bound log stable); [lia | done]. }
  apply (Rotate_failed cb w disk log) in E as [-> [-> | ->]]; [| | done | done].
  - split; cbn; try done. lia.
  - destruct (flush_ok cb w disk log Hw) as (Hw1 & Hs1 & _ & Hh1).
    split; cbn [sy_w sy_disk sy_stable sy_waiting sy_syncing sy_acked sy_log sy_handed]; rewrite ?Hh1; try done. lia.
Qed.

Lemma step_rotate_unflushed_inv w disk stable o waiting acked n log handed now w' disk' err :
  log <> [] -> inv (mkSystem w disk stable o waiting None acked n log handed) ->
  Rotate w disk now false false = (w', disk', Err err) ->
  inv (mkSystem w' disk' stable false waiting None acked n log handed).
Proof.
  intros Hne [Hw Hd Hh Hs Hf Hn Hwait Hsync Hack] E. cbn in *.
  apply (Rotate_unflushed cb w disk log) in E as [-> ->]; [by split | done | done].
Qed.

Lemma sealed_complete h es :
  IsSealComplete (sealed_dir h es) = true.
Proof.
  unfold sealed_dir. rewrite final_ops_eq, apply_ops_app. cbn [apply_ops foldl apply_op].
  unfold IsSealComplete. rewrite lookup_delete_ne by apply sealing_not_marker.
  rewrite lookup_insert_eq. by apply bool_decide_eq_true_2.
Qed.

Lemma rotated_incomplete h es torn : IsSealComplete (rotated_dir cb h es torn) = false.
Proof.
  unfold IsSealComplete, rotated_dir. rewrite lookup_singleton_ne by apply sealing_not_marker.
  apply bool_decide_eq_false_2. by intros [].
Qed.

Lemma step_seal_inv w disk stable o waiting syncing acked n log handed h es :
  (h, es) ∈ handed -> segment_fits sealChunkEntries (stored cb <$> es) ->
  IsSealComplete (dir_at disk h) = false ->
  inv (mkSystem w disk stable o waiting syncing acked n log handed) ->
  inv (mkSystem w (<[SegmentDirName h :=
           apply_ops (dir_at disk h)
             (seal_ops sealChunkEntries (dir_at disk h) (sealing_name h) h)]> disk)
         stable o waiting syncing acked n log handed).
Proof.
  intros Hin Hfit Hinc [Hw Hd Hh Hs Hf Hn Hwait Hsync Hack].
  cbn [sy_w sy_disk sy_stable sy_waiting sy_syncing sy_acked sy_log sy_handed] in *.
  assert (handed_ok (segmentHour w) disk (h, es)) as [Ho1 Ho2 Ho3 Ho4 Ho5 Ho6 Ho7]
    by (rewrite list.Forall_forall in Hf; by apply Hf). cbn [fst snd] in *.
  destruct Ho7 as [Ho7 | [_ Ho7]]; [| by rewrite Ho7, sealed_complete in Hinc].
  rewrite Ho7, seal_rotated by done. fold (sealed_dir h es).
  assert (segmentHour w <> h) as Hne by lia.
  split; cbn [sy_w sy_disk sy_stable sy_waiting sy_syncing sy_acked sy_log sy_handed]; try done.
  - destruct Hw as [H1 H2 H3 H4 H5 H6 H7 H8 H9]. split; try done.
    unfold walPath_in. by rewrite dir_at_insert_other.
  - destruct Hd as [H1 H2]. split; [by rewrite dir_at_insert_other |].
    intros h' Hlt Hok. rewrite dir_at_insert_other by (done || lia). by apply H2.
  - rewrite list.Forall_forall in *. intros p Hp. destruct (Hf p Hp) as [H1 H2 H3 H4 H5 H6 H7].
    split; try done. destruct (decide (p.1 = h)) as [E | E].
    + assert (p = (h, es)) as ->.
      { apply list_elem_of_lookup in Hp as [i Hi]. apply list_elem_of_lookup in Hin as [j Hj].
        assert (i = j) as ->.
        { eapply (NoDup_lookup (handed.*1)); [done | |]; rewrite list_lookup_fmap.
          - rewrite Hi. cbn. by rewrite E.
          - by rewrite Hj. }
        congruence. }
      right. split; [done |]. apply dir_at_insert.
    + by rewrite dir_at_insert_other.
Qed.

Lemma step_inv s s' : step s s' -> inv s -> inv s'.
Proof.
  intros H Hi. destruct H;
    eauto using step_write_inv, step_write_failed_inv, step_covered_inv, step_sync_begin_inv,
      step_sync_ok_inv, step_writeback_inv, step_rotate_inv, step_idle_inv, step_rotate_failed_inv,
      step_rotate_unflushed_inv, step_seal_inv.
  destruct Hi as [Hw Hd Hh Hs Hf Hn Hwait Hsync Hack]. by split.
Qed.

Lemma reachable_inv s0 s : started s0 -> reachable s0 s -> inv s.
Proof.
  intros H0 Hr. apply started_inv in H0. induction Hr as [| s s1 s2 Hst Hr IH]; [done |].
  apply IH. by eapply step_inv.
Qed.

(** ** Recovery *)

(** The log of an hour that is over is sealed from where it is. *)
Lemma recover_orphan h es e torn currentHour :
  hour_ok h -> h < currentHour -> es <> [] -> Forall (loggable cb) es ->
  torn `prefix_of` framed cb e -> torn <> framed cb e ->
  segment_fits sealChunkEntries (stored cb <$> es) ->
  recoverDir sealChunkEntries {[active_name := (es ≫= framed cb) ++ torn]} (SegmentDirName h) currentHour =
    apply_ops (rotated_dir cb h es torn) (final_ops cb sealChunkEntries h es).
Proof.
  intros [Hh Hdate] Hlt Hne Hl Hp Hpne Hfit. unfold recoverDir.
  assert (IsSealComplete ({[active_name := (es ≫= framed cb) ++ torn]} : Dir) = false) as ->.
  { unfold IsSealComplete. rewrite lookup_singleton_ne by done. apply bool_decide_eq_false_2. by intros []. }
  rewrite parse_SegmentDirName by lia. zcmp.
  assert (glob_names {[active_name := (es ≫= framed cb) ++ torn]} (str "sealing_") (str ".wal") = []) as ->.
  { apply elem_of_nil_inv. intros n [Hg Hs]%elem_of_glob_names.
    apply lookup_singleton_is_Some in Hs as <-. done. }
  zcmp. rewrite lookup_singleton_eq. cbn [apply_op]. rewrite lookup_singleton_eq, delete_singleton_eq.
  rewrite insert_empty. fold (rotated_dir cb h es torn). by rewrite (rotated_seal cb sealChunkEntries h es e torn).
Qed.

(** A cut log is whole records and a torn one. *)
Lemma framed_cut l data :
  data `prefix_of` (l ≫= framed cb) ->
  exists k e torn, k `prefix_of` l /\ data = (k ≫= framed cb) ++ torn /\
    torn `prefix_of` framed cb e /\ torn <> framed cb e /\ (torn = [] \/ (k ++ [e]) `prefix_of` l).
Proof.
  revert data. induction l as [| x l IH]; intros data [m Hm].
  - cbn in Hm. symmetry in Hm. apply app_nil in Hm as [-> _]. exists [], Entry0, [].
    split; [done |]. split; [done |]. split; [apply prefix_nil |]. split; [done | by left].
  - rewrite bind_cons in Hm. symmetry in Hm. apply app_eq_inv in Hm as [(k & -> & Hm) | (k & E & Hm)].
    + destruct (IH k) as (k' & e & torn & Hp & -> & Ht1 & Ht2 & Ht3); [by exists m |].
      exists (x :: k'), e, torn. split; [by apply prefix_cons |].
      split; [by rewrite bind_cons, app_assoc |]. split; [done |]. split; [done |].
      destruct Ht3 as [Ht3 | Ht3]; [by left | right]. by apply prefix_cons.
    + destruct (decide (k = [])) as [-> | Hk].
      * rewrite app_nil_r in E. subst data. exists [x], Entry0, [].
        split; [apply prefix_cons, prefix_nil |].
        split; [by rewrite bind_cons, !app_nil_r |].
        split; [apply prefix_nil |]. split; [done | by left].
      * exists [], x, data. split; [apply prefix_nil |]. split; [done |].
        split; [by exists k |]. split; [| right; apply prefix_cons, prefix_nil].
        intros E'. apply Hk. apply (f_equal length) in E. rewrite length_app in E.
        rewrite E' in E. apply nil_length_inv. lia.
Qed.

(** The whole records of the stable bytes are among those left. *)
Lemma stable_kept (l1 l k : list Entry) e torn :
  l1 `prefix_of` l -> k `prefix_of` l -> torn `prefix_of` framed cb e -> torn <> framed cb e ->
  torn = [] \/ (k ++ [e]) `prefix_of` l ->
  len (l1 ≫= framed cb) <= len ((k ≫= framed cb) ++ torn) -> l1 `prefix_of` k.
Proof.
  intros H1 Hk Hp Hne Hor Hlen.
  destruct (prefix_weak_total l1 k l H1 Hk) as [? | [r ->]]; [done |].
  destruct r as [| y r]; [by rewrite app_nil_r |]. exfalso.
  rewrite bind_app, bind_cons, !len_app in Hlen. pose proof (framed_len cb y). len_pose.
  assert (len torn < len (framed cb y)); [| lia].
  destruct Hor as [-> | He]; [change (len []) with 0; lia |].
  assert (y = e) as ->.
  { destruct H1 as [m1 ->], He as [m2 He]. rewrite <- !app_assoc in He.
    apply app_inv_head in He. by injection He. }
  destruct Hp as [m Hm]. rewrite Hm, len_app. destruct m as [| c m]; [by rewrite app_nil_r in Hm |].
  rewrite len_cons. len_pose. lia.
Qed.

Lemma ids_from_prefix h i (l k : list Entry) : k `prefix_of` l -> ids_from h i l -> ids_from h i k.
Proof. intros [m ->] H. by apply ids_from_app in H as [H _]. Qed.

(** The file an append may be writing. *)
Lemma in_progress_log s file :
  inv s -> in_progress s file ->
  exists l, file = (l ≫= framed cb) /\ sy_log s `prefix_of` l /\ Forall (loggable cb) l /\
    ids_from (segmentHour (sy_w s)) 0 l /\ len l <= MaxEntriesPerSegment.
Proof.
  intros [Hw Hd Hh Hs Hf Hn Hwait Hsync Hack] [E | (now & entries & w & disk & r & He & E & Hfile)].
  - rewrite (wk_file _ _ _ _ Hw) in E. injection E as <-. exists (sy_log s).
    split; [done |]. split; [done |]. split; [apply Hw |]. split; apply Hw.
  - destruct (SegmentHasRoom (len (sy_log s)) (len entries)) eqn:Hroom;
      [| unfold append_locked in E; rewrite (wk_count _ _ _ _ Hw), Hroom in E; done].
    destruct (append_locked_ok cb _ _ (sy_log s) now entries 0 true Hw He Hroom) as (outs & _ & _ & E' & _).
    pose proof (append_writer_ok cb _ _ (sy_log s) now entries outs Hw He Hroom) as Hw'. cbv zeta in Hw'.
    rewrite E' in E. injection E as <- <- _. rewrite walPath_write in Hfile. injection Hfile as <-.
    eexists. split; [done |]. split; [by apply prefix_app_r |].
    split; [apply Hw' |]. split; [exact (wk_ids _ _ _ _ Hw') | exact (wk_room _ _ _ _ Hw')].
Qed.

(** ** Nothing acknowledged is lost *)

(** Start-up in the hour of the log opens a writer that describes exactly [l]. *)
Definition reopens (disk : Disk) (h : Z) (l : list Entry) : Prop :=
  forall w0, exists w disk', ensureWAL w0 disk h = Ok (w, disk') /\ writer_ok cb w disk' l /\
    segmentHour w = h.

(** Recovery leaves the complete segment of [l]. *)
Definition recovers (disk : Disk) (h : Z) (l : list Entry) (currentHour : Z) : Prop :=
  segment_of sealChunkEntries h (stored cb <$> l)
    (recoverDir sealChunkEntries (dir_at disk h) (SegmentDirName h) currentHour).

(** Whole records and a torn one in a log nobody has sealed. *)
Lemma left_log disk h k e torn :
  hour_ok h -> dir_at disk h = {[active_name := (k ≫= framed cb) ++ torn]} ->
  Forall (loggable cb) k -> ids_from h 0 k -> len k <= MaxEntriesPerSegment ->
  torn `prefix_of` framed cb e -> torn <> framed cb e ->
  reopens disk h k /\
  (k <> [] -> segment_fits sealChunkEntries (stored cb <$> k) ->
   forall currentHour, h < currentHour -> recovers disk h k currentHour).
Proof.
  intros Hok Hd Hgk Hid Hmk Ht1 Ht2. split.
  - intros w0. destruct (ensureWAL_ok cb w0 disk h ((k ≫= framed cb) ++ torn) k (hour_ok_range _ Hok))
      as (w & E & Hw & Hh & _).
    + unfold walPath_in. rewrite Hd. apply lookup_singleton_eq.
    + by exists e, torn.
    + by eexists _, _.
  - intros Hne Hfit currentHour Hlt. unfold recovers. rewrite Hd.
    rewrite (recover_orphan h k e torn currentHour) by done. destruct Hok as [Hh0 Hh1].
    assert (recoverDir sealChunkEntries
      (apply_ops (rotated_dir cb h k torn) (final_ops cb sealChunkEntries h k)) (SegmentDirName h)
      currentHour = apply_ops (rotated_dir cb h k torn) (final_ops cb sealChunkEntries h k)) as <-.
    { unfold recoverDir. unfold IsSealComplete. rewrite final_ops_eq, apply_ops_app. cbn [apply_ops foldl apply_op].
      rewrite lookup_delete_ne by apply sealing_not_marker. rewrite lookup_insert_eq.
      by rewrite bool_decide_eq_true_2. }
    apply (segment_after_crash cb sealChunkEntries h currentHour k e torn); try done.
    rewrite (rotated_seal cb sealChunkEntries h k e torn) by done.
    apply (crash_between _ _ []). by rewrite app_nil_r.
Qed.

(** A restart finds the entries of [l] in the directory of the hour [h]: start-up in that hour
    reopens them as the active log, and recovery seals them when the hour is over; or
    recovery leaves the complete segment. *)
Definition found (disk : Disk) (h : Z) (l : list Entry) : Prop :=
  (reopens disk h l /\
   (l <> [] -> segment_fits sealChunkEntries (stored cb <$> l) ->
    forall currentHour, h < currentHour -> recovers disk h l currentHour)) \/
  ((segment_fits sealChunkEntries (stored cb <$> l) -> forall currentHour, recovers disk h l currentHour) /\
   (~ segment_fits sealChunkEntries (stored cb <$> l) -> dir_at disk h = rotated_dir cb h l [])).

Lemma active_survives s disk outs :
  inv s -> crashed true s disk ->
  (exists l, l `prefix_of` sy_log s /\ len (l ≫= framed cb) <= sy_stable s /\ kept l outs) ->
  exists l, kept l outs /\ found disk (segmentHour (sy_w s)) l.
Proof.
  intros Hi [Hc _] (l1 & Hp1 & Hl1 & Hk). set (h := segmentHour (sy_w s)).
  pose proof (hour_ok_range _ (iv_hour _ Hi)) as Hr.
  destruct Hc as [[[Hs | Hs] Hd] | (file & data & Hf & Hp & Hst & Hd)]; [| done |].
  - exists []. split.
    { eapply kept_mono; [| exact Hk]. destruct l1 as [| x l1]; [done |]. exfalso.
      rewrite bind_cons, len_app, Hs in Hl1. pose proof (framed_len cb x). len_pose. lia. }
    left. split; [| done]. intros w0. destruct (open_unused cb w0 disk h Hr Hd) as (w & E & Hw & _ & Hh & _).
    by exists w, (write_file disk h active_name []).
  - destruct (in_progress_log s file Hi Hf) as (l & -> & Hlog & Hlg & Hid & Hm).
    destruct (framed_cut l data Hp) as (k & e & torn & Hkl & -> & Ht1 & Ht2 & Ht3).
    assert (Forall (loggable cb) k) as Hgk.
    { destruct Hkl as [m ->]. by apply Forall_app in Hlg as [? _]. }
    assert (len k <= MaxEntriesPerSegment) as Hmk.
    { destruct Hkl as [m ->]. rewrite len_app in Hm. len_pose. lia. }
    exists k. split.
    + eapply kept_mono; [| exact Hk]. apply prefix_elem.
      apply (stable_kept l1 l k e torn); try done; [by etrans | lia].
    + left. apply (left_log disk h k e torn); try done; [apply (iv_hour _ Hi) | by apply (ids_from_prefix h 0 l)].
Qed.

Lemma handed_survives s disk h l :
  inv s -> crashed true s disk -> (h, l) ∈ sy_handed s -> found disk h l.
Proof.
  intros Hi [_ Hc] Hin. specialize (Hc h l Hin).
  assert (handed_ok (segmentHour (sy_w s)) (sy_disk s) (h, l)) as [Ho1 Ho2 Ho3 Ho4 Ho5 Ho6 Ho7]
    by (pose proof (iv_handed _ Hi) as Hf; rewrite list.Forall_forall in Hf; by apply Hf).
  cbn [fst snd] in *. destruct Hc as [Hc | [(_ & [Hc | [? _]]) | Hc]]; [| | done |].
  2:{ left. apply (left_log disk h l Entry0 []); try done; [by rewrite app_nil_r | apply prefix_nil]. }
  all: right; destruct Ho2 as [Hh0 Hh1]; split.
  - intros Hfit currentHour.
    assert (exists ops, crash_of (final_ops cb sealChunkEntries h l) ops /\
      dir_at disk h = apply_ops (rotated_dir cb h l []) ops) as (ops & Hops & Hd).
    { destruct Ho7 as [Ho7 | [_ Ho7]].
      - exists []. split; [| by rewrite Hc, Ho7]. by apply (crash_between _ [] (final_ops cb sealChunkEntries h l)).
      - exists (final_ops cb sealChunkEntries h l). split; [| by rewrite Hc, Ho7].
        apply (crash_between _ _ []). by rewrite app_nil_r. }
    unfold recovers. rewrite Hd. apply (segment_after_crash cb sealChunkEntries h currentHour l Entry0 []); try done.
    + apply prefix_nil.
    + by rewrite seal_rotated.
  - intros Hnf. rewrite Hc. by destruct Ho7 as [Ho7 | [Ho7 _]].
  - intros Hfit currentHour. destruct Hc as (_ & Hinc & ops & Hops & Hd).
    destruct Ho7 as [Ho7 | [_ Ho7]]; [| by rewrite Ho7, sealed_complete in Hinc]. rewrite Ho7 in Hops, Hd.
    unfold recovers. rewrite Hd. by apply (segment_after_crash cb sealChunkEntries h currentHour l Entry0 []); try apply prefix_nil.
  - intros Hnf. by destruct Hc as [? _].
Qed.


(** ** Group commit *)

Lemma covered_drain w disk stable o waiting acked n log handed :
  Forall (fun p => p.2 <= syncedBytes w) waiting ->
  reachable (mkSystem w disk stable o waiting None acked n log handed)
    (mkSystem w disk stable o [] None (reverse (waiting.*1) ++ acked) n log handed).
Proof.
  intros H. revert acked. induction H as [| [outs target] waiting Ht H IH]; intros acked; [apply rtc_refl |].
  eapply rtc_l; [apply (step_covered w disk stable o [] outs target waiting) |].
  - unfold sync_covered. cbn in Ht. by rewrite (proj2 (Z.leb_le _ _) Ht).
  - cbn [app fmap list_fmap fst]. rewrite reverse_cons, <- app_assoc. apply IH.
Qed.

Lemma group_commit_lemma w disk stable waiting acked n log handed :
  Forall (fun p => p.2 <= writtenBytes w) waiting ->
  exists w' stable' n', n <= n' <= n + 1 /\
  reachable (mkSystem w disk stable true waiting None acked n log handed)
    (mkSystem w' disk stable' true [] None (reverse (waiting.*1) ++ acked) n' log handed).
Proof.
  intros H. revert acked. induction H as [| [outs target] waiting Ht H IH]; intros acked.
  { exists w, stable, n. split; [lia | apply rtc_refl]. }
  cbn [app fmap list_fmap fst]. rewrite reverse_cons, <- app_assoc. cbn [app].
  destruct (sync_covered w target) as [covered |] eqn:E.
  - assert (covered = writtenBytes w /\ syncedBytes w < target) as [-> Hlt].
    { unfold sync_covered in E. destruct (Z.leb_spec target (syncedBytes w)); [done |].
      injection E as <-. split; [done | lia]. }
    cbn [snd] in Ht.
    exists (sync_done w (writtenBytes w)), (Z.max stable (writtenBytes w)), (n + 1). split; [lia |].
    eapply rtc_l; [apply (step_sync_begin w disk stable [] outs target waiting); exact E |].
    eapply rtc_l; [apply step_sync_ok |]. apply covered_drain.
    eapply Forall_impl; [exact H |]. intros p Hp. cbn in Hp.
    unfold sync_done. rewrite (proj2 (Z.ltb_lt (syncedBytes w) (writtenBytes w))) by lia. done.
  - destruct (IH (outs :: acked)) as (w' & stable' & n' & Hn & Hr). exists w', stable', n'.
    split; [done |].
    eapply rtc_l; [apply (step_covered w disk stable true [] outs target waiting); exact E | exact Hr].
Qed.

(** C12: Group commit makes progress on one fsync: in a reachable state with the log
    open and no fsync in flight, the waiting appenders of the active log can all be
    acknowledged by steps of which at most one is a new fsync, without any further
    write, and every batch acknowledged is then stable. *)
Theorem group_commit_progress s0 s :
  started s0 -> reachable s0 s -> sy_open s = true -> sy_syncing s = None ->
  Forall (fun p => p.2 <= writtenBytes (sy_w s)) (sy_waiting s) ->
  exists s', reachable s s' /\ sy_waiting s' = [] /\
    sy_acked s' = reverse ((sy_waiting s).*1) ++ sy_acked s /\
    sy_fsyncs s <= sy_fsyncs s' <= sy_fsyncs s + 1 /\ sy_log s' = sy_log s /\
    Forall (fun outs => safe (sy_log s) (sy_stable s') (sy_handed s) outs) (sy_acked s').
Proof.
  intros H0 Hr Ho Hs Hw. destruct s as [w disk stable o waiting syncing acked n log handed]. cbn in *.
  subst o syncing.
  destruct (group_commit_lemma w disk stable waiting acked n log handed Hw) as (w' & stable' & n' & Hn & Hr').
  eexists. split; [exact Hr' |]. cbn. do 4 (split; [done |]).
  assert (reachable s0 (mkSystem w' disk stable' true [] None (reverse waiting.*1 ++ acked) n' log handed))
    as Hr2 by (unfold reachable in *; by etrans).
  exact (iv_acked _ (reachable_inv _ _ H0 Hr2)).
Qed.

End Durable.

(** ** Witnesses *)

Definition sample_writer : WALWriter := mkWALWriter 493000 0 0 0 0 0 NewRingBuffer.
Definition sample_disk : Disk := write_file ∅ 493000 active_name [].

(** An append at the time [493000 * 3600 s]. *)
Definition sample_append : WALWriter * Disk * result (list Entry * Z) :=
  append_locked (C := stored_codec) true sample_writer sample_disk 1774800000000000000 [sample_entry] None true.

Definition sample_reply : list Entry * Z :=
  match sample_append.2 with Ok r => r | _ => ([], 0) end.

Definition sample_start : System := mkSystem sample_writer sample_disk 0 true [] None [] 0 [] [].

Definition sample_waiting : System :=
  mkSystem sample_append.1.1 sample_append.1.2 0 true [sample_reply] None [] 0
    (assign_ids 493000 (UnixMilli 1774800000000000000) 0 [sample_entry]) [].

Definition sample_acked : System :=
  mkSystem (sync_done sample_append.1.1 sample_reply.2) sample_append.1.2 (Z.max 0 sample_reply.2) true
    [] None [sample_reply.1] (0 + 1)
    (assign_ids 493000 (UnixMilli 1774800000000000000) 0 [sample_entry]) [].

(** The append that is interrupted: three bytes of it reach the disk. *)
Definition sample_next : WALWriter * Disk * result (list Entry * Z) :=
  append_locked (C := stored_codec) true (sy_w sample_acked) (sy_disk sample_acked) 1774800000000000000
    [sample_entry] None true.

Definition sample_file : bytes := default [] (walPath_in sample_next.1.2 493000).

Definition sample_crash : Disk :=
  write_file ∅ 493000 active_name (take (Z.to_nat (sample_reply.2 + 3)) sample_file).

Lemma sample_entry_loggable : Forall (loggable true) [sample_entry].
Proof. repeat constructor; intros; try done; vm_compute; congruence. Qed.

Lemma sample_started : started (C := stored_codec) true sample_start.
Proof.
  exists sample_writer, sample_disk. split; [done |]. split.
  { split; try done; try (vm_compute; split; congruence); try constructor; by intros []. }
  split; [| split; [split; vm_compute; reflexivity | done]]. split; [vm_compute; reflexivity |].
  intros h Hlt Hok. unfold sample_disk. rewrite dir_write_other; [done | | done | cbn in Hlt; lia].
  split; vm_compute; reflexivity.
Qed.

Lemma sample_waiting_reached : reachable (C := stored_codec) (U := ascii_unicode) (J := sample_json) true 1
  sample_start sample_waiting.
Proof.
  eapply rtc_l; [| apply rtc_refl]. unfold sample_waiting. rewrite (surjective_pairing sample_reply).
  refine (step_write (C := stored_codec) true 1 sample_writer sample_disk 0 [] None [] 0 [] []
    1774800000000000000 [sample_entry] sample_append.1.1 sample_append.1.2 sample_reply.1 sample_reply.2
    sample_entry_loggable _).
  vm_compute. reflexivity.
Qed.

Lemma sample_acked_reached : reachable (C := stored_codec) (U := ascii_unicode) (J := sample_json) true 1
  sample_start sample_acked.
Proof.
  unfold reachable. etrans; [apply sample_waiting_reached |]. unfold sample_waiting.
  rewrite (surjective_pairing sample_reply).
  eapply rtc_l; [refine (step_sync_begin (C := stored_codec) true 1 _ _ _ [] _ _ [] _ _ _ _ sample_reply.2 _);
    vm_compute; reflexivity |].
  eapply rtc_l; [apply step_sync_ok |]. apply rtc_refl.
Qed.

Lemma sample_crashed : crashed (C := stored_codec) (U := ascii_unicode) (J := sample_json) true 1
  true sample_acked sample_crash.
Proof.
  split; [| by intros h es []%not_elem_of_nil].
  right. exists sample_file, (take (Z.to_nat (sample_reply.2 + 3)) sample_file).
  split; [| split; [| split]].
  - right. exists 1774800000000000000, [sample_entry], sample_next.1.1, sample_next.1.2,
      (match sample_next.2 with Ok r => r | _ => ([], 0) end).
    split; [apply sample_entry_loggable |]. split; vm_compute; reflexivity.
  - apply prefix_take.
  - vm_compute. congruence.
  - vm_compute. reflexivity.
Qed.


(** On a file system where the fsync of a new file does not make its directory entry durable a
    crash can take the whole log, acknowledged entries included. *)
Theorem unsynced_directory_loses :
  sample_reply.1 ∈ sy_acked sample_acked /\ sample_reply.1 <> [] /\
  crashed (C := stored_codec) (U := ascii_unicode) (J := sample_json) true 1 false sample_acked ∅ /\
  forall h, dir_at ∅ h = ∅.
Proof.
  split; [by left |]. split; [vm_compute; congruence |]. split; [| done].
  split; [by left; split; [right |] |]. by intros h es []%not_elem_of_nil.
Qed.

(** A failed append whose truncation fails leaves three bytes of its batch; the next append is
    acknowledged and lands behind them, where start-up finds no entry. *)
Definition stuck_append : WALWriter * Disk * result (list Entry * Z) :=
  append_locked (C := stored_codec) true sample_writer sample_disk 1774800000000000000 [sample_entry] (Some 3) false.

Definition hidden_append : WALWriter * Disk * result (list Entry * Z) :=
  append_locked (C := stored_codec) true stuck_append.1.1 stuck_append.1.2 1774800000000000000 [sample_entry] None true.

Theorem failed_rollback_hides :
  match hidden_append.2 with
  | Ok (outs, target) => outs <> [] /\ (syncThrough hidden_append.1.1 target true).2 = Ok tt
  | _ => False
  end /\
  match ensureWAL (C := stored_codec) sample_writer hidden_append.1.2 493000 with
  | Ok (w, _) => w_entryCount w = 0
  | _ => False
  end.
Proof. by vm_compute. Qed.

Lemma group_commit_progress_witness :
  exists s', reachable (C := stored_codec) (U := ascii_unicode) (J := sample_json) true 1 sample_waiting s' /\
    sy_waiting s' = [] /\ sy_fsyncs s' <= 1.
Proof.
  destruct (group_commit_progress (C := stored_codec) (U := ascii_unicode) (J := sample_json) true 1
    sample_start sample_waiting sample_started sample_waiting_reached) as (s' & Hr & Hw & _ & Hn & _);
    [done | done | apply Forall_singleton; vm_compute; congruence |].
  exists s'. split; [exact Hr |]. split; [exact Hw |]. apply Hn.
Defined.

(** ** A flush that fails at a rotation *)

(** The flush of a rotation is not checked: when the fsync of the old log fails,
    the rotation still succeeds, and an appender whose bytes are in the old log and
    were never synced is told that they are by an fsync of the new, empty log. *)
Theorem failed_handoff_acknowledges `{Zstd} `{!ZstdLaws _} cb w disk es newHour target :
  writer_ok cb w disk es -> disk_ok cb (segmentHour w) disk es ->
  hour_ok (segmentHour w) -> hour_ok newHour -> segmentHour w < newHour ->
  0 < target -> syncedBytes w < target <= writtenBytes w ->
  exists w' disk', rotate w disk newHour false true = (w', disk', Ok tt) /\
    walPath_in disk' newHour = Some [] /\ writtenBytes w' = 0 /\
    sync_covered w' target = Some 0 /\ (syncThrough w' target true).2 = Ok tt.
Proof.
  intros Hw [Hd Hu] Hh Hh' Hlt H0 Ht. unfold rotate.
  assert (flushBeforeHandoff w false = w) as ->.
  { unfold flushBeforeHandoff, syncThrough, sync_covered.
    by destruct (Z.leb_spec (writtenBytes w) (syncedBytes w)). }
  rewrite (wk_file _ _ _ _ Hw).
  set (moved := <[SegmentDirName (segmentHour w) := _]> disk).
  assert (dir_at moved newHour = ∅) as Hm.
  { unfold moved. rewrite dir_at_insert_other by (done || lia). by apply Hu. }
  destruct (open_unused cb w moved newHour (hour_ok_range _ Hh') Hm) as (w' & E & Hw' & _ & Hh2 & Hs).
  rewrite E. exists w', (write_file moved newHour active_name []). split; [done |].
  split; [apply walPath_write |]. pose proof (wk_written _ _ _ _ Hw') as Hwr.
  split; [done |]. unfold syncThrough, sync_covered. rewrite Hs, Hwr.
  by rewrite (proj2 (Z.leb_gt target 0) H0).
Qed.

Lemma failed_handoff_acknowledges_witness :
  exists w' disk',
    rotate (C := stored_codec) sample_append.1.1 sample_append.1.2 493001 false true = (w', disk', Ok tt) /\
    (syncThrough w' sample_reply.2 true).2 = Ok tt.
Proof.
  destruct (reachable_inv (C := stored_codec) (U := ascii_unicode) (J := sample_json) true 1 sample_start
    sample_waiting sample_started sample_waiting_reached) as [Hw Hd Hh _ _ _ _ _ _].
  destruct (failed_handoff_acknowledges true (sy_w sample_waiting) (sy_disk sample_waiting)
    (sy_log sample_waiting) 493001 sample_reply.2 Hw Hd Hh) as (w' & disk' & E & _ & _ & _ & Hs).
  - split; vm_compute; reflexivity.
  - vm_compute. reflexivity.
  - vm_compute. reflexivity.
  - vm_compute. split; congruence.
  - exists w', disk'. split; [exact E | exact Hs].
Defined.
