(* ===== verification/WalCache.v ===== *)
(** * The parsed unsealed logs (engine/walcache.go)

    Queries of the live hour walk its log.  [walCache] keeps the parsed entries of a
    file and reads on from the offset it reached; a file over the budget is streamed
    instead.  A file is its inode: the cache holds it open and compares it with what
    the path names now.  Main result: whatever files were created, appended to, renamed
    and removed between the queries, a walk visits exactly the entries a fresh
    parse of the file would, and what the cache retains stays within its budget. *)

From stdpp Require Import base list gmap strings numbers sorting.
From Stdlib Require Import ZArith Lia.
From S2P Require Import Prelude Zstd Schema Wal.

(** What [os.Open] and [os.Stat] see: the inode a path names, and the contents of
    the inodes, also of those that only an open handle keeps alive. *)
Record FileView := mkFiles {
  fv_names : gmap bytes Z;
  fv_data : gmap Z bytes
}.

Definition contents (fv : FileView) (ino : Z) : bytes := default [] (fv_data fv !! ino).

Record walCacheFile := mkCacheFile {
  cf_f : Z;
  cf_offset : Z;
  cf_entries : list Entry;
  cf_bytes : Z
}.

Record walCache := mkWalCache {
  files : gmap bytes walCacheFile;
  used : Z
}.

Definition newWALCache : walCache := mkWalCache ∅ 0.

Section WalCache.
Context {C : Zstd}.
(** The two limits are variables of the package; [unsafe.Sizeof] of an entry depends
    on the platform. *)
Context (WALCacheMaxEntries WALCacheBytes sizeof_Entry : Z).

Definition entryMemoryBytes (e : Entry) : Z :=
  foldl (fun total value => total + len value) (sizeof_Entry + len (Body e))
    [Level e; Service e; Message e; Env e; Version e; Host e; Kind e;
     EventType e; TraceID e; SpanID e; ParentSpanID e; RequestID e;
     UserID e; TenantID e; SessionID e; Method e; Path e; Route e;
     Handler e; ErrorClass e; ErrorMessage e; SourceFile e;
     ErrorFingerprint e; JobClass e; JobQueue e; JobID e].

Definition entriesMemoryBytes (entries : list Entry) : Z :=
  foldl (fun total e => total + entryMemoryBytes e) 0 entries.

Definition sameFileAs (fv : FileView) (cf : walCacheFile) (path : bytes) : bool :=
  match fv_names fv !! path with
  | None => false
  | Some byName =>
      if len (contents fv (cf_f cf)) <? cf_offset cf then false else bool_decide (byName = cf_f cf)
  end.

Definition removeLocked (c : walCache) (path : bytes) : walCache :=
  match files c !! path with
  | None => c
  | Some cf =>
      let used := used c - cf_bytes cf in
      mkWalCache (delete path (files c)) (if used <? 0 then 0 else used)
  end.

Definition evictDeletedLocked (fv : FileView) (c : walCache) (keep : bytes) : walCache :=
  foldl (fun c path =>
           if bool_decide (path = keep) then c
           else match fv_names fv !! path with None => removeLocked c path | Some _ => c end)
    c (map_to_list (files c)).*1.

(** The entry for the path, opened when it is new; [None] when it cannot be opened. *)
Definition cache_file (fv : FileView) (c : walCache) (path : bytes) : walCache * option walCacheFile :=
  let '(c, cf) :=
    match files c !! path with
    | Some cf => if sameFileAs fv cf path then (c, Some cf) else (removeLocked c path, None)
    | None => (c, None)
    end in
  match cf with
  | Some cf => (c, Some cf)
  | None =>
      match fv_names fv !! path with
      | None => (c, None)
      | Some ino =>
          let cf := mkCacheFile ino 0 [] 0 in
          (evictDeletedLocked fv (mkWalCache (<[path := cf]> (files c)) (used c)) path, Some cf)
      end
  end.

(** [cached]: [None] when the file has to be streamed. *)
Definition cached (fv : FileView) (c : walCache) (path : bytes)
  : result (walCache * option (list Entry)) :=
  if (WALCacheMaxEntries <=? 0) || (WALCacheBytes <=? 0) then Ok (c, None)
  else
    match cache_file fv c path with
    | (c, None) => Ok (c, None)
    | (c, Some cf) =>
        let pending := len (contents fv (cf_f cf)) - cf_offset cf in
        if WALCacheBytes <? used c + pending then Ok (removeLocked c path, None)
        else
          '(added, consumed, _) ←
            ReadEntriesFrom (mkReader (drop (Z.to_nat (cf_offset cf)) (contents fv (cf_f cf))) EOF);
          let addedBytes := entriesMemoryBytes added in
          let cf := mkCacheFile (cf_f cf) (cf_offset cf + consumed) (cf_entries cf ++ added)
                      (cf_bytes cf + addedBytes) in
          let c := mkWalCache (<[path := cf]> (files c)) (used c + addedBytes) in
          if (WALCacheMaxEntries <? len (cf_entries cf)) || (WALCacheBytes <? used c)
          then Ok (removeLocked c path, None)
          else Ok (c, Some (cf_entries cf))
    end.

(** A callback over a state [S] that stops the walk by returning false. *)
Fixpoint walk {S : Type} (fn : S -> Entry -> S * bool) (s : S) (entries : list Entry) : S :=
  match entries with
  | [] => s
  | e :: entries =>
      let '(s, go_on) := fn s e in
      if go_on then walk fn s entries else s
  end.

(** The loop of [streamWALFile]; every round but the last takes at least a byte. *)
Fixpoint stream_loop {S : Type} (fuel : nat) (fn : S -> Entry -> S * bool) (s : S) (sc : Scanner)
  : result S :=
  match fuel with
  | O => Ok s
  | Datatypes.S fuel =>
      '(sc, r) ← Next sc;
      match r with
      | None => Ok s
      | Some e =>
          let '(s, go_on) := fn s e in
          if go_on then stream_loop fuel fn s sc else Ok s
      end
  end.

Definition streamWALFile {S : Type} (fv : FileView) (path : bytes) (fn : S -> Entry -> S * bool) (s : S)
  : result S :=
  match fv_names fv !! path with
  | None => Ok s
  | Some ino =>
      stream_loop (Datatypes.S (length (contents fv ino))) fn s (NewScanner (mkReader (contents fv ino) EOF))
  end.

Definition forEach {S : Type} (fv : FileView) (c : walCache) (path : bytes)
  (fn : S -> Entry -> S * bool) (s : S) : result (walCache * S) :=
  '(c, entries) ← cached fv c path;
  match entries with
  | Some entries => Ok (c, walk fn s entries)
  | None =>
      s ← streamWALFile fv path fn s;
      Ok (c, s)
  end.

Definition forget (c : walCache) (path : bytes) : walCache := removeLocked c path.

Definition close (c : walCache) : walCache := foldl removeLocked c (map_to_list (files c)).*1.

(** [forEachWALEntry] (engine/query.go): the paths in order, one callback. *)
Fixpoint forEachWALEntry {S : Type} (fv : FileView) (c : walCache) (paths : list bytes)
  (fn : S -> Entry -> S * bool) (s : S * bool) : result (walCache * (S * bool)) :=
  match paths with
  | [] => Ok (c, s)
  | path :: paths =>
      '(c, s) ← forEach fv c path
        (fun s e => let '(x, go_on) := fn s.1 e in ((x, go_on), go_on)) s;
      if negb s.2 then Ok (c, s) else forEachWALEntry fv c paths fn s
  end.

End WalCache.

(** ** The invariant *)

Section WalCacheLemmas.
Context {C : Zstd}.
Context (WALCacheMaxEntries WALCacheBytes sizeof_Entry : Z).
Hypothesis Hsize : 0 <= sizeof_Entry.

Local Abbreviation cached := (cached WALCacheMaxEntries WALCacheBytes sizeof_Entry).
Local Abbreviation memory := (entriesMemoryBytes sizeof_Entry).

(** The entries of the file, parsed from its beginning. *)
Definition file_entries (fv : FileView) (path : bytes) : list Entry :=
  match fv_names fv !! path with
  | None => []
  | Some ino =>
      match ReadEntriesFrom (mkReader (contents fv ino) EOF) with
      | Ok (entries, _, _) => entries
      | _ => []
      end
  end.

(** The bytes accounted for the files of the cache. *)
Definition retained (c : walCache) : Z := map_fold (fun _ cf total => cf_bytes cf + total) 0 (files c).

(** The parsed bytes are still the beginning of the file, unless it is shorter now. *)
Record file_ok (fv : FileView) (cf : walCacheFile) : Prop := {
  fo_parse : exists p, parses EOF p (cf_entries cf) /\ len p = cf_offset cf /\
    (cf_offset cf <= len (contents fv (cf_f cf)) -> p `prefix_of` contents fv (cf_f cf));
  fo_bytes : cf_bytes cf = memory (cf_entries cf)
}.

Record cache_ok (fv : FileView) (c : walCache) : Prop := {
  co_files : forall path cf, files c !! path = Some cf -> file_ok fv cf;
  co_used : used c = retained c;
  co_budget : used c <= Z.max 0 WALCacheBytes;
  co_count : forall path cf, files c !! path = Some cf -> len (cf_entries cf) <= Z.max 0 WALCacheMaxEntries
}.

Lemma foldl_len_nonneg (l : list bytes) total : 0 <= total -> 0 <= foldl (fun t v => t + len v) total l.
Proof. revert total. induction l as [| v l IH]; intros total H; [done |]. cbn [foldl]. apply IH. len_pose. lia. Qed.

Lemma entry_memory_nonneg e : 0 <= entryMemoryBytes sizeof_Entry e.
Proof. apply foldl_len_nonneg. len_pose. lia. Qed.

Lemma memory_shift l total : foldl (fun t e => t + entryMemoryBytes sizeof_Entry e) total l = total + memory l.
Proof.
  unfold entriesMemoryBytes. revert total. induction l as [| e l IH]; intros total; cbn [foldl]; [lia |].
  rewrite IH, (IH (0 + _)). lia.
Qed.

Lemma memory_app l k : memory (l ++ k) = memory l + memory k.
Proof. unfold entriesMemoryBytes. by rewrite foldl_app, memory_shift. Qed.

Lemma memory_nonneg l : 0 <= memory l.
Proof.
  unfold entriesMemoryBytes. assert (forall t, 0 <= t -> 0 <= foldl (fun t e => t + entryMemoryBytes sizeof_Entry e) t l) as H.
  { induction l as [| e l IH]; intros t Ht; [done |]. cbn [foldl]. apply IH. pose proof (entry_memory_nonneg e). lia. }
  by apply H.
Qed.

Definition sum_bytes (m : gmap bytes walCacheFile) : Z := map_fold (fun _ cf total => cf_bytes cf + total) 0 m.

Lemma sum_insert m path cf : m !! path = None -> sum_bytes (<[path := cf]> m) = cf_bytes cf + sum_bytes m.
Proof. intros H. unfold sum_bytes. rewrite map_fold_insert_L; [reflexivity | intros; lia | exact H]. Qed.

Lemma sum_delete m path cf : m !! path = Some cf -> sum_bytes m = cf_bytes cf + sum_bytes (delete path m).
Proof. intros H. rewrite <- (insert_delete_id m path cf H) at 1. apply sum_insert, lookup_delete_eq. Qed.

Lemma sum_nonneg m : (forall path cf, m !! path = Some cf -> 0 <= cf_bytes cf) -> 0 <= sum_bytes m.
Proof.
  induction m as [| path cf m Hni IH] using map_ind; intros H; [done |]. rewrite sum_insert by done.
  assert (0 <= cf_bytes cf) by (apply (H path); apply lookup_insert_eq).
  assert (0 <= sum_bytes m); [| lia]. apply IH. intros p cf' Hp. apply (H p).
  rewrite lookup_insert_ne; [done |]. congruence.
Qed.

Lemma bytes_nonneg fv cf : file_ok fv cf -> 0 <= cf_bytes cf.
Proof. intros [_ ->]. apply memory_nonneg. Qed.

Lemma new_cache_ok fv : cache_ok fv newWALCache.
Proof. split; [by intros | done | cbn; lia | by intros]. Qed.

Lemma removeLocked_files c path : files (removeLocked c path) = delete path (files c).
Proof.
  unfold removeLocked. destruct (files c !! path) eqn:E; [done |].
  symmetry. by apply delete_id.
Qed.

Lemma removeLocked_ok fv c path : cache_ok fv c -> cache_ok fv (removeLocked c path).
Proof.
  intros [Hf Hu Hb Hn]. split.
  - intros p cf. rewrite removeLocked_files. intros [_ H]%lookup_delete_Some. by apply (Hf p).
  - unfold retained. rewrite removeLocked_files. unfold removeLocked.
    destruct (files c !! path) as [cf |] eqn:E; [| by rewrite delete_id].
    cbn [used]. rewrite Hu. unfold retained. fold (sum_bytes (files c)) (sum_bytes (delete path (files c))).
    rewrite (sum_delete _ _ _ E).
    assert (0 <= sum_bytes (delete path (files c))).
    { apply sum_nonneg. intros p cf' [_ H]%lookup_delete_Some. by apply (bytes_nonneg fv), (Hf p). }
    destruct (Z.ltb_spec (cf_bytes cf + sum_bytes (delete path (files c)) - cf_bytes cf) 0); lia.
  - unfold removeLocked. destruct (files c !! path) as [cf |] eqn:E; [| done]. cbn [used].
    pose proof (bytes_nonneg fv cf (Hf _ _ E)).
    destruct (Z.ltb_spec (used c - cf_bytes cf) 0); lia.
  - intros p cf. rewrite removeLocked_files. intros [_ H]%lookup_delete_Some. by apply (Hn p).
Qed.

Lemma fold_remove_ok fv (l : list bytes) (f : walCache -> bytes -> walCache) c :
  (forall c path, f c path = c \/ f c path = removeLocked c path) ->
  cache_ok fv c -> cache_ok fv (foldl f c l).
Proof.
  intros Hf. revert c. induction l as [| p l IH]; intros c H; [done |]. cbn [foldl]. apply IH.
  destruct (Hf c p) as [-> | ->]; [done | by apply removeLocked_ok].
Qed.

Lemma evict_keeps fv c keep : files (evictDeletedLocked fv c keep) !! keep = files c !! keep.
Proof.
  unfold evictDeletedLocked. generalize (map_to_list (files c)).*1. intros l. revert c.
  induction l as [| p l IH]; intros c; [done |]. cbn [foldl]. rewrite IH.
  case_bool_decide as E; [done |]. destruct (fv_names fv !! p); [done |].
  rewrite removeLocked_files. by apply lookup_delete_ne.
Qed.

(** A parsed file that grows. *)
Lemma read_on fv cf added consumed e :
  file_ok fv cf -> cf_offset cf <= len (contents fv (cf_f cf)) ->
  ReadEntriesFrom (mkReader (drop (Z.to_nat (cf_offset cf)) (contents fv (cf_f cf))) EOF) =
    Ok (added, consumed, e) ->
  file_ok fv (mkCacheFile (cf_f cf) (cf_offset cf + consumed) (cf_entries cf ++ added)
                (cf_bytes cf + memory added)) /\
  exists c e', ReadEntriesFrom (mkReader (contents fv (cf_f cf)) EOF) =
    Ok (cf_entries cf ++ added, c, e').
Proof.
  intros [(p & Hp & Hl & Hpre) Hby] Hle Hr. specialize (Hpre Hle) as [rest Hrest].
  rewrite Hrest, <- Hl, to_nat_len, drop_app_length in Hr.
  pose proof (replay_parses _ _ _ _ _ Hr) as [Hc Hq]. split.
  - split; cbn [cf_f cf_offset cf_entries cf_bytes].
    + exists (p ++ take (Z.to_nat consumed) rest). split; [by apply parses_app |].
      split; [rewrite len_app, len_take by lia; lia |]. intros _. rewrite Hrest. apply prefix_app, prefix_take.
    + by rewrite memory_app, Hby.
  - exists (len p + consumed), e. rewrite Hrest. by apply Hp.
Qed.

Lemma same_file fv cf path :
  sameFileAs fv cf path = true ->
  fv_names fv !! path = Some (cf_f cf) /\ cf_offset cf <= len (contents fv (cf_f cf)).
Proof.
  unfold sameFileAs. destruct (fv_names fv !! path) as [ino |]; [| done].
  destruct (Z.ltb_spec (len (contents fv (cf_f cf))) (cf_offset cf)); [done |].
  intros ->%bool_decide_eq_true. by split.
Qed.

Lemma cache_file_ok fv c path c' o :
  cache_ok fv c -> cache_file fv c path = (c', o) ->
  cache_ok fv c' /\
  match o with
  | None => fv_names fv !! path = None
  | Some cf => files c' !! path = Some cf /\ fv_names fv !! path = Some (cf_f cf) /\
      cf_offset cf <= len (contents fv (cf_f cf))
  end.
Proof.
  intros Hok. unfold cache_file.
  set (found := match files c !! path with Some cf => _ | None => _ end).
  assert (cache_ok fv found.1 /\ match found.2 with
    | Some cf => files found.1 !! path = Some cf /\ sameFileAs fv cf path = true
    | None => files found.1 !! path = None end) as [Hok1 Hfound].
  { subst found. destruct (files c !! path) as [cf |] eqn:E; [| by split].
    destruct (sameFileAs fv cf path) eqn:Es; cbn [fst snd]; [by split |].
    split; [by apply removeLocked_ok |]. rewrite removeLocked_files. apply lookup_delete_eq. }
  clearbody found. destruct found as [c1 [cf |]]; cbn [fst snd] in *.
  - intros [= <- <-]. destruct Hfound as [H1 H2]. apply same_file in H2 as [H2 H3]. done.
  - destruct (fv_names fv !! path) as [ino |] eqn:En; [| by intros [= <- <-]].
    intros [= <- <-]. set (cf := mkCacheFile ino 0 [] 0).
    assert (cache_ok fv (mkWalCache (<[path := cf]> (files c1)) (used c1))) as Hok2.
    { destruct Hok1 as [Hf Hu Hb Hn]. split; cbn [files used].
      - intros q cf'. destruct (decide (q = path)) as [-> | Hne].
        + rewrite lookup_insert_eq. intros [= <-]. split; [| done]. exists [].
          split; [apply parses_nil |]. split; [done |]. intros _. apply prefix_nil.
        + rewrite lookup_insert_ne by done. apply Hf.
      - rewrite Hu. unfold retained. cbn [files].
        fold (sum_bytes (files c1)) (sum_bytes (<[path := cf]> (files c1))). by rewrite sum_insert.
      - done.
      - intros q cf'. destruct (decide (q = path)) as [-> | Hne].
        + rewrite lookup_insert_eq. intros [= <-]. apply Z.le_max_l.
        + rewrite lookup_insert_ne by done. apply Hn. }
    split; [| split; [| split]].
    + apply fold_remove_ok; [| done]. intros c0 q. case_bool_decide; [by left |].
      destruct (fv_names fv !! q); [by left | by right].
    + rewrite evict_keeps. apply lookup_insert_eq.
    + done.
    + cbn. len_pose. lia.
Qed.

Lemma Next_ok s : exists r, Next s = Ok r.
Proof.
  pose proof (Next_no_panic s) as Hp. unfold Next in *. destruct (sc_err s); [eauto |].
  destruct (ReadFull (sc_r s) 4) as [r [b | er]]; [| eauto].
  unfold Uint32, le_uint in *. destruct (Z.of_nat 4 <=? len b); [| done].
  cbn [mbind result_bind] in *. destruct (_ || _); [eauto |].
  destruct (ReadFull r _) as [r' [b' | er]]; [| eauto].
  destruct (UnmarshalEntryInto b'); [eauto | eauto | done].
Qed.

Lemma read_loop_ok n s acc : exists s' es, read_entries_loop n s acc = Ok (s', acc ++ es).
Proof.
  revert s acc. induction n as [| n IH]; intros s acc; cbn [read_entries_loop].
  { exists s, []. by rewrite app_nil_r. }
  destruct (Next_ok s) as [[s1 [e |]] ->]; cbn [mbind result_bind].
  - destruct (IH s1 (acc ++ [e])) as (s' & es & ->). exists s', (e :: es). by rewrite <- app_assoc.
  - exists s1, []. by rewrite app_nil_r.
Qed.

Lemma parse_ok d : exists es c e, ReadEntriesFrom (mkReader d EOF) = Ok (es, c, e).
Proof.
  unfold ReadEntriesFrom. destruct (read_loop_ok (S (length (rd_data (mkReader d EOF))))
    (NewScanner (mkReader d EOF)) []) as (s & es & ->). by eexists _, _, _.
Qed.

(** Streaming visits the parsed entries. *)
Lemma stream_walk {S} (fn : S -> Entry -> S * bool) n sc sc' es acc s :
  read_entries_loop n sc acc = Ok (sc', acc ++ es) -> stream_loop n fn s sc = Ok (walk fn s es).
Proof.
  revert sc acc es s. induction n as [| n IH]; intros sc acc es s; cbn [read_entries_loop stream_loop].
  { intros [= _ H]. rewrite <- (app_nil_r acc) in H at 1. by apply app_inv_head in H as <-. }
  destruct (Next_ok sc) as [[s1 [e |]] ->]; cbn [mbind result_bind].
  - destruct (read_loop_ok n s1 (acc ++ [e])) as (s2 & es2 & E). intros H. pose proof H as H'.
    rewrite E in H. injection H as _ H. rewrite <- app_assoc in H. apply app_inv_head in H as <-.
    cbn [app walk]. destruct (fn s e) as [s3 [|]]; [| done].
    apply (IH s1 (acc ++ [e])). rewrite <- app_assoc. exact H'.
  - intros [= _ H]. rewrite <- (app_nil_r acc) in H at 1. by apply app_inv_head in H as <-.
Qed.

Lemma stream_ok {S} fv path (fn : S -> Entry -> S * bool) s :
  streamWALFile fv path fn s = Ok (walk fn s (file_entries fv path)).
Proof.
  unfold streamWALFile, file_entries. destruct (fv_names fv !! path) as [ino |]; [| done].
  unfold ReadEntriesFrom. cbn [rd_data].
  destruct (read_loop_ok (Datatypes.S (length (contents fv ino)))
    (NewScanner (mkReader (contents fv ino) EOF)) []) as (s' & es & E).
  rewrite E. cbn [mbind result_bind app]. by apply (stream_walk fn _ _ s' es []).
Qed.

Lemma cached_ok fv c path :
  cache_ok fv c ->
  exists c' o, cached fv c path = Ok (c', o) /\ cache_ok fv c' /\ match o with Some entries => entries = file_entries fv path | None => True end.
Proof.
  intros Hok. unfold cached. destruct (_ || _) eqn:Elim; [by exists c, None |].
  apply orb_false_iff in Elim as [Hl1%Z.leb_gt Hl2%Z.leb_gt].
  destruct (cache_file fv c path) as [c1 o] eqn:E.
  apply cache_file_ok in E as [Hok1 Hcf]; [| done].
  destruct o as [cf |]; [| by exists c1, None]. destruct Hcf as (Hin & Hname & Hle).
  destruct (WALCacheBytes <? _); [exists (removeLocked c1 path), None; split; [done |];
    split; [by apply removeLocked_ok | done] |].
  destruct (parse_ok (drop (Z.to_nat (cf_offset cf)) (contents fv (cf_f cf)))) as (added & consumed & e & Er).
  rewrite Er. cbn [mbind result_bind].
  destruct (read_on fv cf added consumed e (co_files _ _ Hok1 _ _ Hin) Hle Er) as [Hfile (c' & e' & Hall)].
  set (cf' := mkCacheFile _ _ _ _) in *. set (c2 := mkWalCache _ _).
  assert (retained c2 = used c2) as Hret.
  { unfold retained, c2. cbn [files used]. fold (sum_bytes (<[path := cf']> (files c1))).
    rewrite <- insert_delete_eq, sum_insert by apply lookup_delete_eq.
    rewrite (co_used _ _ Hok1). unfold retained. fold (sum_bytes (files c1)).
    rewrite (sum_delete _ _ _ Hin). unfold cf'. cbn [cf_bytes]. lia. }
  assert (forall q cf0, files c2 !! q = Some cf0 -> file_ok fv cf0) as Hfiles.
  { intros q cf0. unfold c2. cbn [files]. destruct (decide (q = path)) as [-> | Hne].
    - rewrite lookup_insert_eq. by intros [= <-].
    - rewrite lookup_insert_ne by done. apply (co_files _ _ Hok1). }
  assert (forall q cf0, q <> path -> files c2 !! q = Some cf0 ->
    len (cf_entries cf0) <= Z.max 0 WALCacheMaxEntries) as Hcount.
  { intros q cf0 Hne. unfold c2. cbn [files]. rewrite lookup_insert_ne by done. apply (co_count _ _ Hok1). }
  destruct (_ || _) eqn:Eover.
  - exists (removeLocked c2 path), None. split; [done |]. split; [| done].
    assert (files (removeLocked c2 path) = delete path (files c1)) as Hdel.
    { rewrite removeLocked_files. unfold c2. cbn [files]. apply delete_insert_eq. }
    assert (used (removeLocked c2 path) = sum_bytes (delete path (files c1))) as Hused.
    { unfold removeLocked, c2. cbn [files used]. rewrite lookup_insert_eq. cbn [used].
      rewrite (co_used _ _ Hok1). unfold retained. fold (sum_bytes (files c1)).
      rewrite (sum_delete _ _ _ Hin). unfold cf'. cbn [cf_bytes].
      assert (0 <= sum_bytes (delete path (files c1))).
      { apply sum_nonneg. intros p cf0 [_ H]%lookup_delete_Some.
        by apply (bytes_nonneg fv), (co_files _ _ Hok1 p). }
      destruct (Z.ltb_spec (cf_bytes cf + sum_bytes (delete path (files c1)) + memory added -
        (cf_bytes cf + memory added)) 0); lia. }
    split.
    + intros q cf0. rewrite Hdel. intros [_ H]%lookup_delete_Some. by apply (co_files _ _ Hok1 q).
    + unfold retained. by rewrite Hdel, Hused.
    + rewrite Hused. pose proof (co_budget _ _ Hok1) as Hb. rewrite (co_used _ _ Hok1) in Hb.
      unfold retained in Hb. fold (sum_bytes (files c1)) in Hb. rewrite (sum_delete _ _ _ Hin) in Hb.
      pose proof (bytes_nonneg fv cf (co_files _ _ Hok1 _ _ Hin)). lia.
    + intros q cf0. rewrite Hdel. intros [_ H]%lookup_delete_Some. by apply (co_count _ _ Hok1 q).
  - apply orb_false_iff in Eover as [Hn%Z.ltb_ge Hb%Z.ltb_ge].
    exists c2, (Some (cf_entries cf')). split; [done |]. split.
    + split; [done | done | lia |]. intros q cf0 Hq. destruct (decide (q = path)) as [-> | Hne].
      * unfold c2 in Hq. cbn [files] in Hq. rewrite lookup_insert_eq in Hq. injection Hq as <-. lia.
      * by apply (Hcount q).
    + unfold file_entries. rewrite Hname. by rewrite Hall.
Qed.

Lemma forEach_ok {S} fv c path (fn : S -> Entry -> S * bool) s :
  cache_ok fv c ->
  exists c', forEach WALCacheMaxEntries WALCacheBytes sizeof_Entry fv c path fn s =
      Ok (c', walk fn s (file_entries fv path)) /\ cache_ok fv c'.
Proof.
  intros Hok. destruct (cached_ok fv c path Hok) as (c' & o & E & Hok' & Ho).
  exists c'. split; [| done]. unfold forEach. rewrite E. cbn [mbind result_bind].
  destruct o as [entries |]; [by rewrite Ho | by rewrite stream_ok].
Qed.

(** The callback of [forEachWALEntry] also records whether it stopped. *)
Lemma walk_flag {S} (fn : S -> Entry -> S * bool) es s :
  exists go_on, walk (fun s e => let '(x, go_on) := fn s.1 e in ((x, go_on), go_on)) (s, true) es =
      (walk fn s es, go_on) /\
    forall more, walk fn s (es ++ more) = if go_on then walk fn (walk fn s es) more else walk fn s es.
Proof.
  revert s. induction es as [| e es IH]; intros s; [by exists true |]. cbn [walk app fst].
  destruct (fn s e) as [x [|]]; [apply IH | by exists false].
Qed.

Lemma forEachWALEntry_ok {S} fv c paths (fn : S -> Entry -> S * bool) s :
  cache_ok fv c ->
  exists c' go_on, forEachWALEntry WALCacheMaxEntries WALCacheBytes sizeof_Entry fv c paths fn (s, true) =
      Ok (c', (walk fn s (concat (file_entries fv <$> paths)), go_on)) /\ cache_ok fv c'.
Proof.
  revert c s. induction paths as [| path paths IH]; intros c s Hok; [by exists c, true |].
  cbn [forEachWALEntry].
  destruct (forEach_ok fv c path (fun s e => let '(x, go_on) := fn s.1 e in ((x, go_on), go_on)) (s, true) Hok)
    as (c1 & E & Hok1).
  rewrite E. cbn [mbind result_bind].
  destruct (walk_flag fn (file_entries fv path) s) as (go_on & Ew & Hmore). rewrite Ew.
  change (concat (file_entries fv <$> path :: paths))
    with (file_entries fv path ++ concat (file_entries fv <$> paths)).
  rewrite Hmore. destruct go_on; cbn [snd negb]; [by apply IH | by exists c1, false].
Qed.

(** ** Queries over changing files *)

(** Between two queries files come, go, grow and are renamed; the bytes the cache has
    parsed are not rewritten, unless the file is then shorter than what was parsed. *)
Definition files_change (c : walCache) (fv fv' : FileView) : Prop :=
  forall path cf, files c !! path = Some cf ->
    len (contents fv' (cf_f cf)) < cf_offset cf \/
    take (Z.to_nat (cf_offset cf)) (contents fv' (cf_f cf)) =
      take (Z.to_nat (cf_offset cf)) (contents fv (cf_f cf)).

Inductive cache_run : FileView -> walCache -> Prop :=
| run_new fv : cache_run fv newWALCache
| run_files fv fv' c : cache_run fv c -> files_change c fv fv' -> cache_run fv' c
| run_query fv c c' path o : cache_run fv c -> cached fv c path = Ok (c', o) -> cache_run fv c'
| run_forget fv c path : cache_run fv c -> cache_run fv (forget c path)
| run_close fv c : cache_run fv c -> cache_run fv (close c).

Lemma file_ok_change c fv fv' path cf :
  files_change c fv fv' -> files c !! path = Some cf -> file_ok fv cf -> file_ok fv' cf.
Proof.
  intros Hc Hin [(p & Hp & Hl & Hpre) Hb]. split; [| done]. exists p. split; [done |]. split; [done |].
  intros Hle. destruct (Hc path cf Hin) as [H | H]; [lia |].
  assert (len (take (Z.to_nat (cf_offset cf)) (contents fv' (cf_f cf))) = len p) as Hlen.
  { rewrite len_take; [lia |]. rewrite <- Hl. len_pose. lia. }
  rewrite H in Hlen.
  assert (cf_offset cf <= len (contents fv (cf_f cf))) as Hle'.
  { unfold len in *. rewrite length_take in Hlen. lia. }
  destruct (Hpre Hle') as [rest Hr].
  exists (drop (Z.to_nat (cf_offset cf)) (contents fv' (cf_f cf))).
  rewrite <- (take_drop (Z.to_nat (cf_offset cf)) (contents fv' (cf_f cf))) at 1.
  rewrite H, Hr, <- Hl, to_nat_len, take_app_length. done.
Qed.

Lemma cache_run_ok fv c : cache_run fv c -> cache_ok fv c.
Proof.
  induction 1 as [fv | fv fv' c _ IH Hc | fv c c' path o _ IH E | fv c path _ IH | fv c _ IH].
  - apply new_cache_ok.
  - destruct IH as [Hf Hu Hb Hn]. split; try done. intros path cf Hin.
    by apply (file_ok_change c fv fv' path); [| | apply (Hf path)].
  - destruct (cached_ok fv c path IH) as (c1 & o1 & E1 & Hok & _). rewrite E in E1. by injection E1 as -> ->.
  - by apply removeLocked_ok.
  - apply fold_remove_ok; [| done]. intros c0 path. by right.
Qed.

End WalCacheLemmas.

(** ** Properties *)

Section WalCacheProperties.
Context {C : Zstd}.
Context (WALCacheMaxEntries WALCacheBytes sizeof_Entry : Z).

(** C11: The cache of parsed logs is transparent and bounded: after any sequence of
    queries, log rotations, appends, removals and cache drops, walking the unsealed
    logs with any callback has the effect of walking freshly parsed files in order,
    up to where the callback stops; and the cache then accounts exactly for the
    entries it retains, within its byte budget and its entry cap per file. *)
Theorem wal_cache_transparent {S : Type} (fv : FileView) (c : walCache) (paths : list bytes)
  (fn : S -> Entry -> S * bool) (s : S) :
  0 <= sizeof_Entry ->
  cache_run WALCacheMaxEntries WALCacheBytes sizeof_Entry fv c ->
  exists c' go_on,
    forEachWALEntry WALCacheMaxEntries WALCacheBytes sizeof_Entry fv c paths fn (s, true) =
      Ok (c', (walk fn s (concat (file_entries fv <$> paths)), go_on)) /\
    used c' = retained c' /\ used c' <= Z.max 0 WALCacheBytes /\
    forall path cf, files c' !! path = Some cf ->
      cf_bytes cf = entriesMemoryBytes sizeof_Entry (cf_entries cf) /\
      len (cf_entries cf) <= Z.max 0 WALCacheMaxEntries.
Proof.
  intros Hs Hrun. apply cache_run_ok in Hrun; [| done].
  destruct (forEachWALEntry_ok WALCacheMaxEntries WALCacheBytes sizeof_Entry Hs fv c paths fn s Hrun)
    as (c' & go_on & E & Hok).
  exists c', go_on. split; [exact E |]. split; [apply Hok |]. split; [apply Hok |].
  intros path cf Hin. split; [apply (co_files _ _ _ _ _ Hok _ _ Hin) | apply (co_count _ _ _ _ _ Hok _ _ Hin)].
Qed.

End WalCacheProperties.

(** ** Witnesses *)

(** Two records, of which the first was already parsed, with a tear behind. *)
Definition sample_path : bytes := str "active.wal".

Definition sample_grown (n : nat) : FileView :=
  mkFiles {[sample_path := 1]}
    {[1 := take n ([sample_entry; sample_entry] ≫= framed (C := stored_codec) true)]}.

Definition sample_cache : walCache :=
  match cached (C := stored_codec) 10 100000 600 (sample_grown 80) newWALCache sample_path with
  | Ok (c, _) => c
  | _ => newWALCache
  end.

Definition sample_cache_file : walCacheFile :=
  default (mkCacheFile 0 0 [] 0) (files sample_cache !! sample_path).

Lemma sample_cache_files : files sample_cache = {[sample_path := sample_cache_file]}.
Proof. vm_compute. reflexivity. Qed.

Lemma sample_cache_half : len (cf_entries sample_cache_file) = 1.
Proof. vm_compute. reflexivity. Qed.

Lemma wal_cache_transparent_witness :
  exists c' go_on,
    forEachWALEntry (C := stored_codec) 10 100000 600 (sample_grown 200) sample_cache [sample_path]
      (fun n (_ : Entry) => (n + 1, true)) (0, true) = Ok (c', (2, go_on)) /\
    used c' = retained c'.
Proof.
  destruct (wal_cache_transparent (C := stored_codec) 10 100000 600 (sample_grown 200) sample_cache
    [sample_path] (fun n (_ : Entry) => (n + 1, true)) 0) as (c' & go_on & E & Hu & _); [done | |].
  - apply (run_files _ _ _ (sample_grown 80)).
    + apply (run_query _ _ _ _ newWALCache _ sample_path
        (match cached (C := stored_codec) 10 100000 600 (sample_grown 80) newWALCache sample_path with
         | Ok (_, o) => o | _ => None end)); [apply run_new | vm_compute; reflexivity].
    + intros path cf Hin. right. rewrite sample_cache_files in Hin.
      apply lookup_singleton_Some in Hin as [_ <-]. vm_compute. reflexivity.
  - exists c', go_on. split; [exact E | exact Hu].
Defined.
