(* ===== verification/Counts.v ===== *)
(** * Counts and histograms (engine/store.go)

    [CountByLevel], [CountByServiceDetailed] and [HistogramFiltered] over a snapshot of
    the store: per segment the metadata's totals where they are exact, a scan of the
    columns otherwise, and the unsealed logs row by row.  Main results: the counts are
    those of the entries in scope whichever way each segment was counted, and a
    histogram has a bounded number of buckets. *)

From stdpp Require Import base list gmap strings numbers sorting.
From Stdlib Require Import ZArith Lia.
From S2P Require Import Prelude Zstd Schema Wal Chunk Cache Rows Index Times Ids Seal Segments Query Filter Search Paging.

(** [SearchParams{Start: &start, End: &end, Service: ..., Level: ..., Env: ...}] *)
Definition scope_params (start stop : Z) (service level env : bytes) : SearchParams :=
  mkParams [] service level env [] [] [] [] [] [] [] [] [] [] [] [] 0 false 0 false false ∅ ∅
    (Some start) (Some stop) 0 0 0 false false.

Definition skewMarginSeconds : Z := 3600.

Definition segmentFullyInRange (hour start stop : Z) : bool :=
  let segStart := hour * 3600 - skewMarginSeconds in
  let segEnd := (hour + 1) * 3600 + skewMarginSeconds in
  (Unix start <=? segStart) && (segEnd <=? Unix stop).

(** [row < len(values)], then [values[row]]. *)
Definition value_at {A} (values : list A) (row : Z) : option A :=
  if row <? len values then values !! Z.to_nat row else None.

(** A column method whose error is returned as it is. *)
Definition plain {A} (read : chunkColumns -> string -> chunkColumns * result (list A)) (name : string)
  : scan_m (list A) := fun c => read c name.

Record ServiceCount := mkService { sc_Total : Z; sc_Errors : Z }.

Definition add (counts : gmap bytes ServiceCount) (svc : bytes) (total errs : Z) : gmap bytes ServiceCount :=
  let c := default (mkService 0 0) (counts !! svc) in
  <[svc := mkService (sc_Total c + total) (sc_Errors c + errs)]> counts.

(** [for level, count := range m { counts[level] += count }] *)
Definition add_levels (m counts : gmap bytes Z) : gmap bytes Z :=
  map_fold (fun level count counts => <[level := default 0 (counts !! level) + count]> counts) counts m.

Section Counts.
Context {C : Zstd} {U : Unicode} {T : Text} {J : BodyJSON}.

(** The loop over the segments of a range: [shortcut] is the use of the metadata, and
    a scan that fails is logged.  A nil [Meta] panics either way. *)
Fixpoint for_segments {A} (now : Z) (cs : Caches) (v : StoreView) (p : SearchParams)
  (shortcut : LoadedSegment -> SegmentMeta -> option (A -> A)) (visit : list Z -> A -> scan_m A)
  (segs : list LoadedSegment) (acc : A) : Caches * result A :=
  match segs with
  | [] => (cs, Ok acc)
  | seg :: segs =>
      match Meta seg with
      | None => (cs, Panic)
      | Some meta =>
          match shortcut seg meta with
          | Some use => for_segments now cs v p shortcut visit segs (use acc)
          | None =>
              match scanSegment now cs seg (sv_dirs v (DirName seg)) p visit acc with
              | (cs, _, Panic) => (cs, Panic)
              | (cs, acc, _) => for_segments now cs v p shortcut visit segs acc
              end
          end
      end
  end.

Definition envMatches (filter entryEnv : bytes) : bool :=
  if negb (nonempty filter) || negb (nonempty entryEnv) then true else EqualFold filter entryEnv.

Definition walEntryInScope (e : Entry) (start stop : Z) (service environment : bytes) : bool :=
  if (Ts e <? UnixMilli start) || (UnixMilli stop <? Ts e) then false
  else if nonempty service && negb (EqualFold (Service e) service) then false
  else envMatches environment (Env e).

(** ** Per level *)

Definition visit_levels (rows : list Z) (counts : gmap bytes Z) : scan_m (gmap bytes Z) :=
  levels ← plain dictBitpack "level";
  mret (foldl (fun counts row =>
    match value_at levels row with Some level => incr counts level | None => counts end) counts rows).

Definition countWALsByLevel (v : StoreView) (start stop : Z) (service environment : bytes) : gmap bytes Z :=
  foldl (fun counts e =>
    if negb (walEntryInScope e start stop service environment) then counts else incr counts (Level e))
    ∅ (wal_entries v).

Definition CountByLevel (now : Z) (cs : Caches) (v : StoreView) (start stop : Z)
  (service environment : bytes) : Caches * result (gmap bytes Z) :=
  let shortcut (seg : LoadedSegment) (meta : SegmentMeta) :=
    if negb (nonempty service) && negb (nonempty environment) && segmentFullyInRange (Hour seg) start stop
    then Some (add_levels (ByLevel (Counts meta))) else None in
  match for_segments now cs v (scope_params start stop service [] environment) shortcut visit_levels
          (SegmentsInRange (sv_segments v) start stop) ∅ with
  | (cs, Ok counts) => (cs, Ok (add_levels (countWALsByLevel v start stop service environment) counts))
  | (cs, r) => (cs, r)
  end.

(** ** Per service *)

Definition visit_services (rows : list Z) (counts : gmap bytes ServiceCount)
  : scan_m (gmap bytes ServiceCount) :=
  services ← plain dictZstd "service";
  levels ← plain dictBitpack "level";
  mret (foldl (fun counts row =>
    let errs := match value_at levels row with
                | Some level => if isErrorLevel level then 1 else 0 | None => 0 end in
    let svc := match value_at services row with Some s => s | None => [] end in
    add counts svc 1 errs) counts rows).

Definition countWALsByService (v : StoreView) (start stop : Z) (environment : bytes)
  : gmap bytes ServiceCount :=
  foldl (fun counts e =>
    if negb (walEntryInScope e start stop [] environment) then counts
    else
      let c := default (mkService 0 0) (counts !! Service e) in
      <[Service e := mkService (sc_Total c + 1)
          (if isErrorLevel (Level e) then sc_Errors c + 1 else sc_Errors c)]> counts)
    ∅ (wal_entries v).

(** [has_errors]: whether the metadata has the per-service error map, which segments
    sealed by older versions lack. *)
Definition CountByServiceDetailed (has_errors : LoadedSegment -> bool) (now : Z) (cs : Caches)
  (v : StoreView) (start stop : Z) (environment : bytes) : Caches * result (gmap bytes ServiceCount) :=
  let shortcut (seg : LoadedSegment) (meta : SegmentMeta) :=
    if negb (nonempty environment) && segmentFullyInRange (Hour seg) start stop && has_errors seg
    then Some (fun counts =>
      map_fold (fun svc count counts =>
        add counts svc count (default 0 (ByServiceError (Counts meta) !! svc)))
        counts (ByService (Counts meta)))
    else None in
  match for_segments now cs v (scope_params start stop [] [] environment) shortcut visit_services
          (SegmentsInRange (sv_segments v) start stop) ∅ with
  | (cs, Ok counts) =>
      (cs, Ok (map_fold (fun svc c counts => add counts svc (sc_Total c) (sc_Errors c)) counts
                 (countWALsByService v start stop environment)))
  | (cs, r) => (cs, r)
  end.

Definition CountByService (has_errors : LoadedSegment -> bool) (now : Z) (cs : Caches)
  (v : StoreView) (start stop : Z) (environment : bytes) : Caches * result (gmap bytes Z) :=
  match CountByServiceDetailed has_errors now cs v start stop environment with
  | (cs, Ok detailed) => (cs, Ok (sc_Total <$> detailed))
  | (cs, Err e) => (cs, Err e)
  | (cs, Panic) => (cs, Panic)
  end.

End Counts.

(** ** Scans of whole segments *)

Section ScanLemmas.
Context {C : Zstd} {L : ZstdLaws C} {W : World} {U : Unicode} {T : Text} {TL : TextLaws T} {J : BodyJSON}.

(** A visitor that folds [f] over the entries of the rows it is given, when the
    entries of the chunk satisfy [P]. *)
Definition visits {A} (P : Entry -> Prop) (visit : list Z -> A -> scan_m A) (f : A -> Entry -> A) : Prop :=
  forall r es rows acc, Forall P es -> good_reader es r -> rows_in es rows ->
    runs r es (visit rows acc) (foldl f acc (at_rows es rows)).

(** A scan whose visitor makes [g acc es] of a chunk's candidate rows, for the
    accumulators that satisfy [I], folds [g] over the chunks. *)
Definition visits_chunk {A} (I : A -> Prop) (now : Z) (p : SearchParams) (visit : list Z -> A -> scan_m A)
  (g : A -> list Entry -> A) (es : list Entry) : Prop :=
  forall r acc col idx, I acc -> chunk_holds es col idx -> good_reader es r ->
    runs r es (visit (candidates now p es) acc) (g acc es) /\
    (candidates now p es = [] -> g acc es = acc) /\ I (g acc es).

Lemma scan_chunks_fold {A} I now p dirPath d chunks bs visit (g : A -> list Entry -> A) cs acc :
  I acc -> Forall (visits_chunk I now p visit g) bs -> caches_ok cs ->
  Forall2 (chunk_stored dirPath d) chunks bs ->
  exists cs', caches_ok cs' /\
    scan_chunks now cs dirPath d chunks p visit acc = (cs', foldl g acc bs, Ok tt) /\ I (foldl g acc bs).
Proof.
  intros HI Hv Hcs H. revert cs acc HI Hcs.
  induction H as [| cm es chunks bs (Hp & Hi & col & idx & Hcol & Hidx & Hh) H IH]; intros cs acc HI Hcs.
  { by exists cs. }
  apply Forall_cons in Hv as [Hv1 Hv]. specialize (IH Hv).
  cbn [scan_chunks foldl]. rewrite Hcol, Hidx.
  destruct (openChunkRows_ok now cs _ _ es col idx p Hcs Hp Hi Hh)
    as (cs1 & Hcs1 & [(r & cols & Hg & Hc & E) | [E0 E]]); rewrite E.
  - destruct (Hv1 r acc col idx HI Hh Hg) as (Hr & _ & HI').
    destruct (Hr cols Hc) as (cols' & E' & Hc').
    rewrite E'. apply IH; [done |]. apply (cols_caches r es); [done |]. by apply Hcs1.
  - assert (exists r, good_reader es r) as [r Hg] by (destruct (ch_col _ _ _ Hh) as (r & _ & _ & Hg); by exists r).
    destruct (Hv1 r acc col idx HI Hh Hg) as (_ & Hnil & _). rewrite Hnil by done. by apply IH.
Qed.

Lemma scanSegment_fold {A} I now p dirs seg bs visit (g : A -> list Entry -> A) cs acc :
  I acc -> Forall (visits_chunk I now p visit g) bs -> caches_ok cs -> segment_holds dirs seg bs ->
  exists cs', caches_ok cs' /\
    scanSegment now cs seg (dirs (DirName seg)) p visit acc = (cs', foldl g acc bs, Ok tt) /\
    I (foldl g acc bs).
Proof.
  intros HI Hv Hcs (meta & Hm & H). unfold scanSegment. rewrite Hm. by apply scan_chunks_fold.
Qed.

(** An entry-wise visitor. *)
Definition fold_candidates {A} (now : Z) (p : SearchParams) (f : A -> Entry -> A) (acc : A)
  (es : list Entry) : A := foldl f acc (filter (fun e => candidate now p e = true) es).

Lemma visits_entries {A} P now p visit (f : A -> Entry -> A) es :
  visits P visit f -> Forall P es ->
  visits_chunk (fun _ => True) now p visit (fold_candidates now p f) es.
Proof.
  intros Hv HP r acc col idx _ _ Hg. unfold fold_candidates. rewrite <- candidates_entries.
  split; [apply Hv; [done | done | apply keep_in, rows_in_seq] |]. split; [by intros -> | done].
Qed.

Lemma fold_candidates_concat {A} now p (f : A -> Entry -> A) acc bs :
  foldl (fold_candidates now p f) acc bs = fold_candidates now p f acc (concat bs).
Proof.
  revert acc. induction bs as [| es bs IH]; intros acc; [done |]. cbn [foldl concat]. rewrite IH.
  unfold fold_candidates. by rewrite filter_app, foldl_app.
Qed.

Lemma scanSegment_ok {A} P now p dirs seg bs visit (f : A -> Entry -> A) cs acc :
  visits P visit f -> caches_ok cs -> segment_holds dirs seg bs -> Forall P (concat bs) ->
  exists cs', caches_ok cs' /\
    scanSegment now cs seg (dirs (DirName seg)) p visit acc =
      (cs', foldl f acc (filter (fun e => candidate now p e = true) (concat bs)), Ok tt).
Proof.
  intros Hv Hcs Hh HP.
  destruct (scanSegment_fold (fun _ => True) now p dirs seg bs visit (fold_candidates now p f) cs acc)
    as (cs' & Hcs' & E & _).
  - done.
  - apply list.Forall_forall. intros es Hes. apply (visits_entries P); [done |].
    apply list.Forall_forall. intros e He. rewrite list.Forall_forall in HP. apply HP.
    apply list_elem_of_In, in_concat. exists es. by rewrite <- !list_elem_of_In.
  - done.
  - done.
  - exists cs'. split; [done |]. rewrite E. by rewrite fold_candidates_concat.
Qed.

(** The loop over the segments, up to an equivalence [eqv] of accumulators that the
    fold respects: a shortcut has to do what the scan would. *)
Lemma for_segments_ok {A} (eqv : A -> A -> Prop) P now p v shortcut visit (f : A -> Entry -> A)
  segs groups cs acc acc0 :
  Equivalence eqv -> (forall a b e, eqv a b -> eqv (f a e) (f b e)) ->
  visits P visit f -> caches_ok cs -> Forall2 (segment_holds (sv_dirs v)) segs groups ->
  Forall (fun bs => Forall P (concat bs)) groups ->
  Forall2 (fun seg bs => forall meta use a, Meta seg = Some meta -> shortcut seg meta = Some use ->
    eqv (use a) (foldl f a (filter (fun e => candidate now p e = true) (concat bs)))) segs groups ->
  eqv acc acc0 ->
  exists cs' acc', caches_ok cs' /\
    for_segments now cs v p shortcut visit segs acc = (cs', Ok acc') /\
    eqv acc' (foldl f acc0 (filter (fun e => candidate now p e = true) (concat (@concat Entry <$> groups)))).
Proof.
  intros Heq Hf Hv Hcs H. revert cs acc acc0 Hcs.
  assert (forall l a b, eqv a b -> eqv (foldl f a l) (foldl f b l)) as Hfold.
  { induction l as [| e l IH]; intros a b Hab; [done |]. cbn [foldl]. by apply IH, Hf. }
  induction H as [| seg bs segs groups Hh H IH]; intros cs acc acc0 Hcs HP Hs Ha.
  { by exists cs, acc. }
  apply Forall_cons in HP as [HP1 HP].
  apply Forall2_cons in Hs as [Hs1 Hs]. cbn [for_segments fmap list_fmap concat].
  rewrite filter_app, foldl_app.
  pose proof Hh as (meta & Hm & _). rewrite Hm.
  destruct (shortcut seg meta) as [use |] eqn:Esc.
  - apply IH; [done | done | done |]. etrans; [by apply (Hs1 meta) |]. by apply Hfold.
  - destruct (scanSegment_ok P now p (sv_dirs v) seg bs visit f cs acc Hv Hcs Hh HP1) as (cs1 & Hcs1 & ->).
    apply IH; [done | done | done |]. by apply Hfold.
Qed.

Lemma value_at_entry {B} (es : list Entry) (value : Entry -> B) row e :
  es !! Z.to_nat row = Some e -> 0 <= row < len es -> value_at (value <$> es) row = Some (value e).
Proof.
  intros He Hr. unfold value_at. rewrite len_fmap, (proj2 (Z.ltb_lt _ _)) by lia.
  by rewrite list_lookup_fmap, He.
Qed.

(** A fold over rows that agrees with [f] row by row folds [f] over the entries. *)
Lemma rows_fold {A} (es : list Entry) (rows : list Z) (g : A -> Z -> A) (f : A -> Entry -> A) acc :
  rows_in es rows ->
  (forall a row e, es !! Z.to_nat row = Some e -> 0 <= row < len es -> g a row = f a e) ->
  foldl g acc rows = foldl f acc (at_rows es rows).
Proof.
  intros Hin Hg. revert acc. induction Hin as [| row rows Hr Hin IH]; intros acc; [done |].
  destruct (lookup_lt_is_Some_2 es (Z.to_nat row)) as [e He]; [unfold len in *; lia |].
  rewrite (at_rows_cons es row rows e He). cbn [foldl]. by rewrite (Hg acc row e), IH.
Qed.

Lemma runs_plain {A} r es (read : chunkColumns -> string -> chunkColumns * result (list A)) name v :
  reads_col r es read name v -> runs r es (plain read name) v.
Proof. intros H cols Hc. exact (H cols Hc). Qed.

Lemma visit_levels_ok : visits (fun _ => True) visit_levels (fun counts e => incr counts (Level e)).
Proof.
  intros r es rows acc _ Hg Hin. pose proof (good_reads r es Hg) as Hr. unfold visit_levels.
  eapply runs_bind; [apply runs_plain, (dictBitpack_ok r es Hr "level"); reflexivity |].
  eapply runs_eq; [apply runs_ret |]. apply rows_fold; [done |]. intros a row e He Hrow.
  change (extractString es "level") with (Level <$> es). by rewrite (value_at_entry es Level row e).
Qed.

Definition add_service (counts : gmap bytes ServiceCount) (e : Entry) : gmap bytes ServiceCount :=
  add counts (Service e) 1 (if isErrorLevel (Level e) then 1 else 0).

Lemma visit_services_ok : visits (fun _ => True) visit_services add_service.
Proof.
  intros r es rows acc _ Hg Hin. pose proof (good_reads r es Hg) as Hr. unfold visit_services.
  eapply runs_bind; [apply runs_plain, (dictZstd_ok r es Hr "service"); reflexivity |].
  eapply runs_bind; [apply runs_plain, (dictBitpack_ok r es Hr "level"); reflexivity |].
  eapply runs_eq; [apply runs_ret |]. apply rows_fold; [done |]. intros a row e He Hrow.
  change (extractString es "level") with (Level <$> es).
  change (extractString es "service") with (Service <$> es).
  by rewrite (value_at_entry es Level row e), (value_at_entry es Service row e).
Qed.

(** ** The scope of a count *)

Lemma wants_nil (b : bool) : wants [] b = true.
Proof. done. Qed.

Lemma candidate_scope now start stop service level env e :
  candidate now (scope_params start stop service level env) e =
    walEntryInScope e start stop service env && wants level (EqualFold (Level e) level).
Proof.
  unfold candidate, columns_match, scalars_match, in_time, walEntryInScope, envMatches, dict_tests, sparse_tests,
    string_tests, int_tests, dict_test, sparse_test, string_filter_test, int_filter_test.
  cbn [scope_params p_Query p_Service p_Level p_Env p_TraceID p_RequestID p_UserID p_TenantID p_EventType
    p_ErrorClass p_ErrorFingerprint p_SourceFile p_CommitHash p_Method p_Path p_Handler p_MinDurationMs
    p_PositiveDurationOnly p_MinSQLCount p_NPlusOneOnly p_RequestsOnly p_Start p_End p_SinceID
    forallb fst snd].
  rewrite !wants_nil. cbn [negb andb orb].
  change (0 <=? 0) with true. change (0 <? 0) with false. cbn [negb andb orb].
  change (string_value "level" e) with (Level e).
  change (string_value "service" e) with (Service e). change (string_value "env" e) with (Env e).
  rewrite (bool_decide_eq_false_2 ("service" = "env")), (bool_decide_eq_false_2 ("level" = "env")) by done.
  rewrite (bool_decide_eq_true_2 ("env" = "env")) by done. cbn [andb].
  rewrite !andb_true_r, !Z.leb_antisym. unfold wants.
  rewrite (EqualFold_sym env (Env e)).
  destruct (Ts e <? UnixMilli start), (UnixMilli stop <? Ts e), (nonempty service), (nonempty env),
    (nonempty (Env e)), (EqualFold (Service e) service), (EqualFold (Env e) env),
    (nonempty level), (EqualFold (Level e) level); done.
Qed.

End ScanLemmas.

(** ** Counting *)

Section CountLemmas.
Context {C : Zstd} {L : ZstdLaws C} {W : World} {U : Unicode} {T : Text} {TL : TextLaws T} {J : BodyJSON}.

(** Event times within an hour of the segment's own hour: the skew the code assumes. *)
Definition on_time (h : Z) (e : Entry) : Prop :=
  h * 3600000 - 3599000 <= Ts e <= (h + 1) * 3600000 + 3600000.

(** A segment with the row groups [bs] and the counts that sealing computed. *)
Record counted (v : StoreView) (seg : LoadedSegment) (bs : list (list Entry)) : Prop := {
  ct_holds : segment_holds (sv_dirs v) seg bs;
  ct_counts : forall meta, Meta seg = Some meta ->
    Counts meta = foldl add_counts (mkCounts ∅ ∅ ∅) (concat bs);
  ct_time : Forall (on_time (Hour seg)) (concat bs)
}.

Lemma full_scope h start stop l :
  is_int64 (start / 1000000) -> is_int64 (stop / 1000000) ->
  segmentFullyInRange h start stop = true -> Forall (on_time h) l ->
  filter (fun e => walEntryInScope e start stop [] [] = true) l = l.
Proof.
  intros Hs He Hfull Hl. apply filter_all. eapply list.Forall_impl; [exact Hl |].
  intros e [H1 H2]. cbn beta in *. unfold segmentFullyInRange, Unix, skewMarginSeconds in Hfull.
  apply andb_true_iff in Hfull as [F1%Z.leb_le F2%Z.leb_le].
  unfold walEntryInScope, UnixMilli. rewrite !int64_small by done.
  assert (start / 1000000 < (h * 3600 - 3600 + 1) * 1000).
  { apply Z.div_lt_upper_bound; [lia |]. pose proof (Z.mul_succ_div_gt start 1000000000 ltac:(lia)). lia. }
  assert (((h + 1) * 3600 + 3600) * 1000 <= stop / 1000000).
  { apply Z.div_le_lower_bound; [lia |]. pose proof (Z.mul_div_le stop 1000000000 ltac:(lia)). lia. }
  rewrite (proj2 (Z.ltb_ge (Ts e) _)), (proj2 (Z.ltb_ge _ (Ts e))) by lia. done.
Qed.

Lemma count_filter {A} (f g : A -> bool) (l : list A) :
  count f (filter (fun x => g x = true) l) = count (fun x => f x && g x) l.
Proof.
  induction l as [| x l IH]; [done |]. rewrite filter_cons, count_cons. destruct (g x) eqn:E.
  - rewrite decide_True by done. rewrite count_cons, IH, andb_true_r. done.
  - rewrite decide_False by done. rewrite IH, andb_false_r. lia.
Qed.

Lemma count_app {A} (f : A -> bool) (l k : list A) : count f (l ++ k) = count f l + count f k.
Proof. unfold count. by rewrite filter_app, len_app. Qed.

Lemma count_impl {A} (f g : A -> bool) (l : list A) :
  (forall x, f x = true -> g x = true) -> count f l <= count g l.
Proof.
  intros H. induction l as [| x l IH]; [done |]. rewrite !count_cons. specialize (H x).
  destruct (f x), (g x); first [lia | by specialize (H eq_refl)].
Qed.

Lemma foldl_filter {A B} (f : A -> B -> A) (g : B -> bool) acc l :
  foldl (fun a e => if negb (g e) then a else f a e) acc l =
    foldl f acc (filter (fun e => g e = true) l).
Proof.
  revert acc. induction l as [| x l IH]; intros acc; [done |]. rewrite filter_cons. cbn [foldl].
  destruct (g x) eqn:E.
  - rewrite decide_True by done. apply IH.
  - rewrite decide_False by done. apply IH.
Qed.

(** ** Levels *)

Definition level_eqv (a b : gmap bytes Z) : Prop := forall k, default 0 (a !! k) = default 0 (b !! k).

#[local] Instance level_eqv_equiv : Equivalence level_eqv.
Proof. split; [by intros a k | by intros a b H k | intros a b c H1 H2 k; by rewrite H1, H2]. Qed.

Lemma add_levels_lookup m counts k :
  default 0 (add_levels m counts !! k) = default 0 (counts !! k) + default 0 (m !! k).
Proof.
  unfold add_levels. apply (map_fold_weak_ind (fun r m => default 0 (r !! k) = default 0 (counts !! k) + default 0 (m !! k))).
  - rewrite lookup_empty. cbn. lia.
  - intros level n m' r Hn IH. destruct (decide (level = k)) as [-> | Hne].
    + rewrite !lookup_insert_eq. cbn [from_option id] in *. rewrite Hn in IH. cbn in IH. lia.
    + by rewrite !lookup_insert_ne.
Qed.

Lemma fold_levels counts l k :
  default 0 (foldl (fun c e => incr c (Level e)) counts l !! k) =
    default 0 (counts !! k) + count (fun e => bool_decide (Level e = k)) l.
Proof.
  revert counts. induction l as [| e l IH]; intros counts; cbn [foldl]; [rewrite count_nil; lia |].
  rewrite IH, count_cons, default_incr.
  case_decide; [rewrite bool_decide_eq_true_2 by done | rewrite bool_decide_eq_false_2 by done]; lia.
Qed.

Lemma holds_of v segs groups :
  Forall2 (counted v) segs groups -> Forall2 (segment_holds (sv_dirs v)) segs groups.
Proof. intros H. eapply Forall2_impl; [exact H |]. intros seg bs Hc. apply Hc. Qed.

Lemma filter_scope now start stop service env (l : list Entry) :
  filter (fun e => candidate now (scope_params start stop service [] env) e = true) l =
    filter (fun e => walEntryInScope e start stop service env = true) l.
Proof. apply list_filter_iff. intros e. by rewrite candidate_scope, wants_nil, andb_true_r. Qed.

Lemma CountByLevel_ok now cs v start stop service env groups :
  is_int64 (start / 1000000) -> is_int64 (stop / 1000000) -> caches_ok cs ->
  Forall2 (counted v) (SegmentsInRange (sv_segments v) start stop) groups ->
  exists cs' counts, caches_ok cs' /\ CountByLevel now cs v start stop service env = (cs', Ok counts) /\
    forall level, default 0 (counts !! level) =
      count (fun e => bool_decide (Level e = level) && walEntryInScope e start stop service env)
        (all_entries groups v).
Proof.
  intros Hs He Hcs H. unfold CountByLevel. set (p := scope_params start stop service [] env).
  destruct (for_segments_ok level_eqv (fun _ => True) now p v
    (fun seg meta =>
       if negb (nonempty service) && negb (nonempty env) && segmentFullyInRange (Hour seg) start stop
       then Some (add_levels (ByLevel (Counts meta))) else None)
    visit_levels (fun counts e => incr counts (Level e))
    (SegmentsInRange (sv_segments v) start stop) groups cs ∅ ∅) as (cs' & counts & Hcs' & E & Heq).
  - apply _.
  - intros a b e Hab k. rewrite !default_incr. by rewrite Hab.
  - apply visit_levels_ok.
  - done.
  - by apply holds_of.
  - apply list.Forall_forall. intros bs _. by apply Forall_true.
  - eapply Forall2_impl; [exact H |]. intros seg bs [_ Hc Ht] meta use a Hm Hsc k.
    destruct (negb (nonempty service)) eqn:E1; [| done].
    destruct (negb (nonempty env)) eqn:E2; [| done]. cbn [andb] in Hsc.
    destruct (segmentFullyInRange (Hour seg) start stop) eqn:Ef; [| done]. injection Hsc as <-.
    assert (service = []) as -> by (destruct service; done).
    assert (env = []) as -> by (destruct env; done).
    unfold p. rewrite filter_scope, (full_scope (Hour seg)) by done.
    rewrite add_levels_lookup, fold_levels, (Hc meta Hm), counts_by_level. cbn [ByLevel].
    rewrite lookup_empty. cbn [from_option id]. lia.
  - reflexivity.
  - rewrite E. eexists cs', _. split; [done |]. split; [done |]. intros level.
    rewrite add_levels_lookup, Heq. unfold countWALsByLevel. rewrite foldl_filter, !fold_levels.
    unfold all_entries, p. rewrite filter_scope, lookup_empty, count_app, !count_filter.
    cbn [from_option id]. lia.
Qed.

(** ** Services *)

Definition service_at (counts : gmap bytes ServiceCount) (svc : bytes) : Z * Z :=
  let c := default (mkService 0 0) (counts !! svc) in (sc_Total c, sc_Errors c).

(** The empty service is left out: the metadata does not count it. *)
Definition service_eqv (a b : gmap bytes ServiceCount) : Prop :=
  forall svc, svc <> [] -> service_at a svc = service_at b svc.

#[local] Instance service_eqv_equiv : Equivalence service_eqv.
Proof.
  split; [by intros a svc | intros a b H svc Hs; symmetry; by apply H |].
  intros a b c H1 H2 svc Hs. rewrite H1 by done. by apply H2.
Qed.

Lemma service_at_none m svc : m !! svc = None -> service_at m svc = (0, 0).
Proof. intros H. unfold service_at. by rewrite H. Qed.

Lemma service_at_eq m k c : service_at (<[k := c]> m) k = (sc_Total c, sc_Errors c).
Proof. unfold service_at. by rewrite lookup_insert_eq. Qed.

Lemma service_at_ne m k c svc : k <> svc -> service_at (<[k := c]> m) svc = service_at m svc.
Proof. intros H. unfold service_at. by rewrite lookup_insert_ne. Qed.

Lemma service_at_add counts svc total errs k :
  service_at (add counts svc total errs) k =
    if decide (svc = k) then ((service_at counts k).1 + total, (service_at counts k).2 + errs)
    else service_at counts k.
Proof.
  unfold service_at, add. case_decide as E; [subst; by rewrite lookup_insert_eq |].
  by rewrite lookup_insert_ne.
Qed.

Definition of_service (svc : bytes) (e : Entry) : bool := bool_decide (Service e = svc).
Definition error_of (svc : bytes) (e : Entry) : bool := of_service svc e && isErrorLevel (Level e).

Lemma fold_services counts l svc :
  service_at (foldl add_service counts l) svc =
    ((service_at counts svc).1 + count (of_service svc) l, (service_at counts svc).2 + count (error_of svc) l).
Proof.
  revert counts. induction l as [| e l IH]; intros counts; cbn [foldl].
  { rewrite !count_nil, !Z.add_0_r. by destruct (service_at counts svc). }
  rewrite IH, !count_cons. unfold add_service. rewrite service_at_add. unfold error_of, of_service.
  case_decide as E.
  - rewrite bool_decide_eq_true_2 by done. cbn [fst snd andb]. f_equal; [lia |].
    destruct (isErrorLevel (Level e)); lia.
  - rewrite bool_decide_eq_false_2 by done. cbn [andb]. f_equal; lia.
Qed.

(** Folding the totals of a map in. *)
Lemma fold_totals (total errs : bytes -> Z -> Z) (m : gmap bytes Z) counts svc :
  service_at (map_fold (fun k n counts => add counts k (total k n) (errs k n)) counts m) svc =
    match m !! svc with
    | Some n => ((service_at counts svc).1 + total svc n, (service_at counts svc).2 + errs svc n)
    | None => service_at counts svc
    end.
Proof.
  apply (map_fold_weak_ind (fun r m => service_at r svc =
    match m !! svc with
    | Some n => ((service_at counts svc).1 + total svc n, (service_at counts svc).2 + errs svc n)
    | None => service_at counts svc
    end)); [by rewrite lookup_empty |].
  intros k n m' r Hn IH. rewrite service_at_add. case_decide as E.
  - subst. rewrite lookup_insert_eq, IH, Hn. done.
  - by rewrite lookup_insert_ne.
Qed.

Lemma fold_details (m counts : gmap bytes ServiceCount) svc :
  service_at (map_fold (fun k c counts => add counts k (sc_Total c) (sc_Errors c)) counts m) svc =
    ((service_at counts svc).1 + (service_at m svc).1, (service_at counts svc).2 + (service_at m svc).2).
Proof.
  apply (map_fold_weak_ind (fun r m => service_at r svc =
    ((service_at counts svc).1 + (service_at m svc).1, (service_at counts svc).2 + (service_at m svc).2))).
  - rewrite (service_at_none ∅) by apply lookup_empty. cbn [fst snd].
    rewrite !Z.add_0_r. by destruct (service_at counts svc).
  - intros k c m' r Hn IH. rewrite service_at_add, IH. case_decide as E.
    + subst. rewrite (service_at_none m') by done. rewrite (service_at_eq m'). cbn [fst snd]. f_equal; lia.
    + rewrite (service_at_ne m') by done. done.
Qed.

Lemma meta_service_counts (l : list Entry) svc :
  svc <> [] ->
  let c := foldl add_counts (mkCounts ∅ ∅ ∅) l in
  default 0 (ByService c !! svc) = count (of_service svc) l /\
  default 0 (ByServiceError c !! svc) = count (error_of svc) l.
Proof.
  intros Hs c. subst c. rewrite counts_by_service, counts_by_service_error by done.
  cbn [ByService ByServiceError]. rewrite lookup_empty. done.
Qed.

Lemma fold_wal_services v start stop env :
  countWALsByService v start stop env =
    foldl add_service ∅ (filter (fun e => walEntryInScope e start stop [] env = true) (wal_entries v)).
Proof.
  unfold countWALsByService. rewrite <- foldl_filter.
  generalize (∅ : gmap bytes ServiceCount). induction (wal_entries v) as [| e l IH]; intros m; [done |].
  cbn [foldl]. rewrite IH. f_equal. destruct (walEntryInScope e start stop [] env); [| done]. cbn [negb].
  unfold add_service, add. by destruct (isErrorLevel (Level e)); rewrite ?Z.add_0_r.
Qed.

Lemma CountByServiceDetailed_ok has_errors now cs v start stop env groups :
  is_int64 (start / 1000000) -> is_int64 (stop / 1000000) -> caches_ok cs ->
  Forall2 (counted v) (SegmentsInRange (sv_segments v) start stop) groups ->
  exists cs' counts, caches_ok cs' /\
    CountByServiceDetailed has_errors now cs v start stop env = (cs', Ok counts) /\
    forall svc, svc <> [] -> service_at counts svc =
      (count (fun e => of_service svc e && walEntryInScope e start stop [] env) (all_entries groups v),
       count (fun e => error_of svc e && walEntryInScope e start stop [] env) (all_entries groups v)).
Proof.
  intros Hs He Hcs H. unfold CountByServiceDetailed. set (p := scope_params start stop [] [] env).
  match goal with |- context [for_segments _ _ _ _ ?s _ _ _] => set (shortcut := s) end.
  destruct (for_segments_ok service_eqv (fun _ => True) now p v shortcut visit_services add_service
    (SegmentsInRange (sv_segments v) start stop) groups cs ∅ ∅) as (cs' & counts & Hcs' & E & Heq).
  - apply _.
  - intros a b e Hab svc Hne. unfold add_service. rewrite !service_at_add.
    case_decide; by rewrite (Hab svc Hne).
  - apply visit_services_ok.
  - done.
  - by apply holds_of.
  - apply list.Forall_forall. intros bs _. by apply Forall_true.
  - eapply Forall2_impl; [exact H |]. intros seg bs [_ Hc Ht] meta use a Hm Hsc svc Hne.
    unfold shortcut in Hsc. destruct (negb (nonempty env)) eqn:E2; [| done]. cbn [andb] in Hsc.
    destruct (segmentFullyInRange (Hour seg) start stop) eqn:Ef; [| done].
    destruct (has_errors seg); [| done]. injection Hsc as <-.
    assert (env = []) as -> by (destruct env; done).
    unfold p. rewrite filter_scope, (full_scope (Hour seg)) by done.
    rewrite fold_services, (fold_totals (fun _ n => n) (fun k _ => default 0 (ByServiceError (Counts meta) !! k))).
    destruct (meta_service_counts (concat bs) svc Hne) as [M1 M2]. rewrite <- (Hc meta Hm) in M1, M2.
    rewrite M2, <- M1. destruct (ByService (Counts meta) !! svc); [done |]. cbn [from_option id] in *.
    assert (count (error_of svc) (concat bs) <= count (of_service svc) (concat bs)).
    { apply count_impl. intros e. unfold error_of. by destruct (of_service svc e). }
    assert (0 <= count (error_of svc) (concat bs)) by apply len_nonneg.
    replace (count (error_of svc) (concat bs)) with 0 by lia. rewrite !Z.add_0_r.
    by destruct (service_at a svc).
  - reflexivity.
  - rewrite E. eexists cs', _. split; [done |]. split; [done |]. intros svc Hne.
    rewrite fold_details, (Heq svc Hne), fold_wal_services, !fold_services. unfold p.
    rewrite filter_scope. unfold all_entries. unfold service_at. rewrite lookup_empty.
    cbn [from_option id sc_Total sc_Errors fst snd].
    rewrite !count_app, !count_filter. f_equal; lia.
Qed.

End CountLemmas.

(** ** Histograms *)

Record HistogramBucket := mkHistogramBucket { hb_Timestamp : Z; hb_Total : Z; hb_Errors : Z }.

Definition maxHistogramBuckets : Z := 10000.
Definition minHistogramInterval : Z := 1000000000.

Record HistogramFilter := mkHistogramFilter { hf_Service : bytes; hf_Level : bytes; hf_Environment : bytes }.

Definition isZero (f : HistogramFilter) : bool :=
  negb (nonempty (hf_Service f)) && negb (nonempty (hf_Level f)) && negb (nonempty (hf_Environment f)).

(** [time.Time.Sub]: the difference as a [Duration], saturated. *)
Definition time_sub (a b : Z) : Z := Z.max (- 2 ^ 63) (Z.min (2 ^ 63 - 1) (a - b)).

Definition bucket_sum (a b : HBucket) : HBucket := mkBucket (Total a + Total b) (Errors a + Errors b).

(** The interval floored, and widened so that the buckets stay bounded. *)
Definition effective_interval (span interval : Z) : Z :=
  let interval := if interval <? minHistogramInterval then minHistogramInterval else interval in
  if maxHistogramBuckets <? Z.quot span interval then
    let interval := Z.quot span maxHistogramBuckets in
    if interval <? minHistogramInterval then minHistogramInterval else interval
  else interval.

(** The bucket of a minute key, when it is a minute of the range. *)
Definition bucket_of (start stop interval : Z) (key : bytes) : option Z :=
  match parse_minute_layout key with
  | None => None
  | Some minute =>
      if (minute <? start) || negb (minute <? stop) then None
      else Some (Z.quot (time_sub minute start) interval)
  end.

Definition add_bucket (start stop interval nBuckets : Z) (key : bytes) (mb : HBucket)
  (buckets : list HistogramBucket) : list HistogramBucket :=
  match bucket_of start stop interval key with
  | None => buckets
  | Some idx =>
      if (0 <=? idx) && (idx <? nBuckets) then
        alter (fun b => mkHistogramBucket (hb_Timestamp b) (hb_Total b + Total mb) (hb_Errors b + Errors mb))
          (Z.to_nat idx) buckets
      else buckets
  end.

Section Histogram.
Context {C : Zstd} {U : Unicode} {T : Text} {J : BodyJSON}.

Definition filter_matches (f : HistogramFilter) (e : Entry) : bool :=
  if nonempty (hf_Service f) && negb (EqualFold (Service e) (hf_Service f)) then false
  else if nonempty (hf_Level f) && negb (EqualFold (Level e) (hf_Level f)) then false
  else envMatches (hf_Environment f) (Env e).

(** One row: the counts, the cached minute and its key. *)
Definition hist_row (received : list Z) (levels : list bytes)
  (s : gmap bytes HBucket * Z * bytes) (row : Z) : gmap bytes HBucket * Z * bytes :=
  let '(minuteCounts, lastMinute, key) := s in
  match value_at received row with
  | None => s
  | Some r =>
      let minute := Z.quot r 60000 in
      let '(lastMinute, key) :=
        if negb (minute =? lastMinute) then (minute, minute_key minute) else (lastMinute, key) in
      let err := match value_at levels row with Some level => isErrorLevel level | None => false end in
      (<[key := bump (default (mkBucket 0 0) (minuteCounts !! key)) err]> minuteCounts, lastMinute, key)
  end.

Definition visit_minutes (rows : list Z) (minuteCounts : gmap bytes HBucket)
  : scan_m (gmap bytes HBucket) :=
  received ← plain deltaInt64 "received_at";
  levels ← plain dictBitpack "level";
  mret (foldl (hist_row received levels) (minuteCounts, -1, []) rows).1.1.

Definition addWALHistogram (minuteCounts : gmap bytes HBucket) (v : StoreView) (start stop : Z)
  (f : HistogramFilter) : gmap bytes HBucket :=
  let startMs := UnixMilli start in
  let endMs := UnixMilli stop in
  foldl (fun minuteCounts e =>
    if (ReceivedAt e <? startMs) || (endMs <? ReceivedAt e) then minuteCounts
    else if negb (filter_matches f e) then minuteCounts
    else
      let key := fmt_minute (ReceivedAt e / 1000) in
      <[key := bump (default (mkBucket 0 0) (minuteCounts !! key)) (isErrorLevel (Level e))]> minuteCounts)
    minuteCounts (wal_entries v).

Definition HistogramFiltered (now : Z) (cs : Caches) (v : StoreView) (start stop interval : Z)
  (f : HistogramFilter) : Caches * result (list HistogramBucket) :=
  if negb (start <? stop) then (cs, Ok [])
  else
    let span := time_sub stop start in
    let interval := effective_interval span interval in
    let shortcut (seg : LoadedSegment) (meta : SegmentMeta) :=
      if isZero f then
        Some (fun minuteCounts : gmap bytes HBucket =>
          map_fold (fun key bucket (m : gmap bytes HBucket) =>
            <[key := bucket_sum (default (mkBucket 0 0) (m !! key)) bucket]> m)
            minuteCounts (Histogram meta))
      else None in
    match for_segments now cs v (scope_params start stop (hf_Service f) (hf_Level f) (hf_Environment f))
            shortcut visit_minutes (SegmentsInRange (sv_segments v) start stop) ∅ with
    | (cs, Ok minuteCounts) =>
        let minuteCounts := addWALHistogram minuteCounts v start stop f in
        let nBuckets := Z.quot span interval + 1 in
        let buckets := (fun i => mkHistogramBucket (start + i * interval) 0 0) <$> seqZ 0 nBuckets in
        (cs, Ok (map_fold (add_bucket start stop interval nBuckets) buckets minuteCounts))
    | (cs, Err e) => (cs, Err e)
    | (cs, Panic) => (cs, Panic)
    end.

End Histogram.

Section HistogramLemmas.
Context {C : Zstd} {L : ZstdLaws C} {W : World} {U : Unicode} {T : Text} {TL : TextLaws T} {J : BodyJSON}.

Lemma effective_interval_ok span interval :
  0 <= span ->
  let w := effective_interval span interval in
  minHistogramInterval <= w /\ 0 <= Z.quot span w <= maxHistogramBuckets.
Proof.
  intros Hs w. subst w. unfold effective_interval.
  set (i0 := if interval <? minHistogramInterval then minHistogramInterval else interval).
  assert (minHistogramInterval <= i0) as Hi0.
  { subst i0. destruct (Z.ltb_spec interval minHistogramInterval); lia. }
  unfold minHistogramInterval, maxHistogramBuckets in *.
  rewrite !Z.quot_div_nonneg by lia.
  destruct (Z.ltb_spec 10000 (span / i0)) as [H | H].
  - assert (10000 * 1000000000 <= span).
    { pose proof (Z.mul_div_le span i0 ltac:(lia)). nia. }
    assert (1000000000 <= span / 10000) by (apply Z.div_le_lower_bound; lia).
    rewrite (proj2 (Z.ltb_ge (span / 10000) 1000000000)) by lia. split; [lia |].
    rewrite Z.quot_div_nonneg by lia. split; [apply Z.div_pos; lia |].
    apply Z.lt_succ_r, Z.div_lt_upper_bound; [lia |].
    pose proof (Z.mul_succ_div_gt span 10000 ltac:(lia)). lia.
  - rewrite Z.quot_div_nonneg by lia. split; [lia |]. split; [apply Z.div_pos; lia | done].
Qed.

(** ** Minutes *)

Definition minute_of (e : Entry) : bytes := minute_key (Z.quot (ReceivedAt e) 60000).

Lemma hist_rows_ok (es : list Entry) rows m last key :
  rows_in es rows -> Forall (fun e => 0 <= ReceivedAt e) es ->
  last = -1 \/ key = minute_key last ->
  (foldl (hist_row (ReceivedAt <$> es) (Level <$> es)) (m, last, key) rows).1.1 =
    foldl add_hist m (at_rows es rows).
Proof.
  intros Hin Hpos. revert m last key. induction Hin as [| row rows Hr Hin IH]; intros m last key Hk; [done |].
  destruct (lookup_lt_is_Some_2 es (Z.to_nat row)) as [e He]; [unfold len in *; lia |].
  rewrite (at_rows_cons es row rows e He). cbn [foldl]. unfold hist_row at 2.
  rewrite (value_at_entry es ReceivedAt row e), (value_at_entry es Level row e) by done.
  assert (0 <= Z.quot (ReceivedAt e) 60000) as Hq.
  { apply Z.quot_pos; [| lia]. rewrite list.Forall_forall in Hpos. apply Hpos.
    by apply list_elem_of_lookup_2 in He. }
  destruct (Z.eqb_spec (Z.quot (ReceivedAt e) 60000) last) as [E | E]; cbn [negb].
  - destruct Hk as [Hk | Hk]; [lia |]. rewrite IH by (by right). unfold add_hist. by rewrite E, Hk.
  - rewrite IH by (by right). done.
Qed.

Lemma visit_minutes_ok : visits (fun e => 0 <= ReceivedAt e) visit_minutes add_hist.
Proof.
  intros r es rows acc Hpos Hg Hin. pose proof (good_reads r es Hg) as Hr. unfold visit_minutes.
  eapply runs_bind; [apply runs_plain, (deltaInt64_ok r es Hr "received_at"); reflexivity |].
  eapply runs_bind; [apply runs_plain, (dictBitpack_ok r es Hr "level"); reflexivity |].
  eapply runs_eq; [apply runs_ret |].
  change (extractString es "level") with (Level <$> es).
  change (extractInt64 es "received_at") with (ReceivedAt <$> es).
  apply hist_rows_ok; [done | done | by left].
Qed.

Lemma add_hist_lookup l m key :
  foldl add_hist m l !! key =
    if count (in_minute key) l =? 0 then m !! key
    else Some (mkBucket (Total (default (mkBucket 0 0) (m !! key)) + count (in_minute key) l)
      (Errors (default (mkBucket 0 0) (m !! key)) + count (fun e => in_minute key e && isErrorLevel (Level e)) l)).
Proof.
  pose proof (histogram_counts l m key) as H. cbv zeta in H.
  destruct (Z.eqb_spec (count (in_minute key) l) 0) as [E | E].
  - clear H. revert m E. induction l as [| e l IH]; intros m; [done |]. rewrite count_cons. cbn [foldl].
    assert (0 <= count (in_minute key) l) by apply len_nonneg.
    destruct (in_minute key e) eqn:Ee; intros E; [lia |]. rewrite IH by lia.
    unfold in_minute in Ee. apply bool_decide_eq_false in Ee. by apply lookup_insert_ne.
  - rewrite <- H. destruct (foldl add_hist m l !! key) as [b |] eqn:Eb; [done |]. exfalso. apply E. clear E H.
    revert m Eb. induction l as [| e l IH]; intros m; [done |]. cbn [foldl]. intros Eb.
    assert (in_minute key e = false) as Hne.
    { destruct (in_minute key e) eqn:Ee; [| done]. exfalso. unfold in_minute in Ee.
      apply bool_decide_eq_true in Ee. clear IH.
      assert (is_Some (add_hist m e !! key)) as Hsome by (unfold add_hist; rewrite Ee, lookup_insert_eq; eauto).
      revert Hsome Eb. generalize (add_hist m e). induction l as [| e' l IH]; intros m'; cbn [foldl].
      - by intros [x ->].
      - intros Hs. apply IH. unfold add_hist.
        destruct (decide (minute_key (Z.quot (ReceivedAt e') 60000) = key)) as [-> | Hk];
          [rewrite lookup_insert_eq; eauto | by rewrite lookup_insert_ne]. }
    rewrite count_cons, Hne. rewrite (IH _ Eb). lia.
Qed.

Lemma fold_buckets (m counts : gmap bytes HBucket) key :
  map_fold (fun key bucket (m : gmap bytes HBucket) =>
      <[key := bucket_sum (default (mkBucket 0 0) (m !! key)) bucket]> m) counts m !! key =
    match m !! key with
    | Some b => Some (bucket_sum (default (mkBucket 0 0) (counts !! key)) b)
    | None => counts !! key
    end.
Proof.
  apply (map_fold_weak_ind (fun r m => r !! key =
    match m !! key with
    | Some b => Some (bucket_sum (default (mkBucket 0 0) (counts !! key)) b)
    | None => counts !! key
    end)); [by rewrite lookup_empty |].
  intros k b m' r Hn IH. destruct (decide (k = key)) as [-> | Hne].
  - by rewrite !lookup_insert_eq, IH, Hn.
  - by rewrite !lookup_insert_ne.
Qed.

(** The metadata's minutes are the minutes of the entries. *)
Lemma meta_minutes (l : list Entry) m :
  map_fold (fun key bucket (m : gmap bytes HBucket) =>
      <[key := bucket_sum (default (mkBucket 0 0) (m !! key)) bucket]> m) m (foldl add_hist ∅ l) =
    foldl add_hist m l.
Proof.
  apply map_eq. intros key. rewrite fold_buckets, !add_hist_lookup, lookup_empty. cbn [from_option id].
  destruct (count (in_minute key) l =? 0); [done |]. unfold bucket_sum. cbn [Total Errors]. by rewrite !Z.add_0_l.
Qed.


(** The arrival times of the store: after 1970, within the years the layouts print. *)
Definition arrived (e : Entry) : Prop := 0 <= ReceivedAt e < 2 ^ 37 * 1000.

Definition wal_scope (start stop : Z) (f : HistogramFilter) (e : Entry) : bool :=
  (UnixMilli start <=? ReceivedAt e) && (ReceivedAt e <=? UnixMilli stop) && filter_matches f e.

Lemma fmt_minute_floor secs : fmt_minute (secs / 60 * 60) = fmt_minute secs.
Proof.
  unfold fmt_minute, fmt_hour, fmt_date.
  replace (secs / 60 * 60 / 86400) with (secs / 86400).
  2:{ change 86400 with (60 * 1440). rewrite <- !Z.div_div, Z.div_mul by lia. done. }
  replace (secs / 60 * 60 mod 86400 / 3600) with (secs mod 86400 / 3600) by (zdiv; lia).
  replace (secs / 60 * 60 mod 3600 / 60) with (secs mod 3600 / 60) by (zdiv; lia).
  done.
Qed.

Lemma wal_key e : arrived e -> fmt_minute (ReceivedAt e / 1000) = minute_of e.
Proof.
  intros [H0 H1]. unfold minute_of, minute_key. rewrite Z.quot_div_nonneg by lia.
  assert (ReceivedAt e / 60000 * 60000 <= ReceivedAt e) by (pose proof (Z.mul_div_le (ReceivedAt e) 60000); lia).
  assert (0 <= ReceivedAt e / 60000) by (apply Z.div_pos; lia).
  rewrite int64_small by (unfold is_int64; lia).
  rewrite <- (fmt_minute_floor (ReceivedAt e / 1000)). f_equal.
  rewrite Z.div_div by lia. change (1000 * 60) with 60000.
  replace (ReceivedAt e / 60000 * 60000) with (ReceivedAt e / 60000 * 60 * 1000) by lia.
  by rewrite Z.div_mul.
Qed.

Lemma wal_minutes m v start stop f :
  Forall arrived (wal_entries v) ->
  addWALHistogram m v start stop f =
    foldl add_hist m (filter (fun e => wal_scope start stop f e = true) (wal_entries v)).
Proof.
  intros H. unfold addWALHistogram. rewrite <- foldl_filter. revert m.
  induction H as [| e l He H IH]; intros m; [done |]. cbn [foldl]. rewrite IH. f_equal.
  unfold wal_scope. rewrite !Z.leb_antisym. rewrite (wal_key e He).
  destruct (ReceivedAt e <? UnixMilli start), (UnixMilli stop <? ReceivedAt e), (filter_matches f e); done.
Qed.

(** ** Buckets *)

Section Buckets.
Context (start stop w n : Z).
Hypothesis Hw : 0 < w.

(** What the minutes of a map add to the bucket [i]. *)
Definition totals (i : Z) (m : gmap bytes HBucket) : HBucket :=
  map_fold (fun key mb acc =>
    if decide (bucket_of start stop w key = Some i) then bucket_sum acc mb else acc) (mkBucket 0 0) m.

Lemma totals_insert i m key mb :
  m !! key = None ->
  totals i (<[key := mb]> m) =
    if decide (bucket_of start stop w key = Some i) then bucket_sum (totals i m) mb else totals i m.
Proof.
  intros H. unfold totals. rewrite map_fold_insert_L; [done | | exact H].
  intros k1 k2 x y acc _ _ _. repeat case_decide; try done. unfold bucket_sum. cbn. f_equal; lia.
Qed.

Definition in_key_bucket (i : Z) (e : Entry) : bool :=
  bool_decide (bucket_of start stop w (minute_of e) = Some i).

Lemma totals_add i m e :
  totals i (add_hist m e) =
    if in_key_bucket i e then bump (totals i m) (isErrorLevel (Level e)) else totals i m.
Proof.
  unfold add_hist, in_key_bucket. fold (minute_of e). set (key := minute_of e).
  rewrite <- insert_delete_eq, totals_insert by apply lookup_delete_eq.
  rewrite bool_decide_decide.
  destruct (m !! key) as [b |] eqn:E.
  - assert (totals i m = if decide (bucket_of start stop w key = Some i)
      then bucket_sum (totals i (delete key m)) b else totals i (delete key m)) as ->.
    { rewrite <- (insert_delete_id m key b E) at 1. apply totals_insert, lookup_delete_eq. }
    cbn [from_option id]. destruct (decide _); [| done]. unfold bump, bucket_sum. cbn.
    destruct (isErrorLevel (Level e)); f_equal; lia.
  - rewrite delete_id by done. cbn [from_option id]. destruct (decide _); [| done].
    unfold bump, bucket_sum. cbn. destruct (isErrorLevel (Level e)); f_equal; lia.
Qed.

Lemma totals_fold i l :
  totals i (foldl add_hist ∅ l) =
    mkBucket (count (in_key_bucket i) l) (count (fun e => in_key_bucket i e && isErrorLevel (Level e)) l).
Proof.
  induction l as [| e l IH] using rev_ind; [done |]. rewrite foldl_app. cbn [foldl].
  rewrite totals_add, IH, !count_app, !count_cons, !count_nil.
  destruct (in_key_bucket i e); cbn [andb]; [| by rewrite !Z.add_0_r].
  unfold bump. cbn. destruct (isErrorLevel (Level e)); f_equal; lia.
Qed.

Lemma buckets_fold m i :
  0 <= i < n ->
  map_fold (add_bucket start stop w n)
    ((fun i => mkHistogramBucket (start + i * w) 0 0) <$> seqZ 0 n) m !! Z.to_nat i =
    Some (mkHistogramBucket (start + i * w) (Total (totals i m)) (Errors (totals i m))).
Proof.
  intros Hi. apply (map_fold_weak_ind (fun r m => r !! Z.to_nat i =
    Some (mkHistogramBucket (start + i * w) (Total (totals i m)) (Errors (totals i m))))).
  - rewrite list_lookup_fmap, lookup_seqZ_lt by lia. cbn. do 2 f_equal. lia.
  - intros key mb m' r Hn IH. rewrite totals_insert by done. unfold add_bucket.
    destruct (bucket_of start stop w key) as [idx |] eqn:E; [| by rewrite decide_False].
    destruct (decide (idx = i)) as [-> | Hne].
    + rewrite decide_True by done. rewrite (proj2 (Z.leb_le 0 i)), (proj2 (Z.ltb_lt i n)) by lia. cbn [andb].
      rewrite list_lookup_alter_eq, IH. done.
    + rewrite decide_False by congruence. destruct (_ && _) eqn:Er; [| done].
      apply andb_true_iff in Er as [Er%Z.leb_le _]. rewrite list_lookup_alter_ne by lia. done.
Qed.

Lemma buckets_length m :
  0 <= n ->
  len (map_fold (add_bucket start stop w n)
    ((fun i => mkHistogramBucket (start + i * w) 0 0) <$> seqZ 0 n) m) = n.
Proof.
  intros Hn. apply (map_fold_weak_ind (fun r m => len r = n)).
  - unfold len. rewrite length_fmap, length_seqZ. lia.
  - intros key mb m' r _ IH. unfold add_bucket. destruct (bucket_of start stop w key); [| done].
    destruct (_ && _); [| done]. unfold len in *. by rewrite length_alter.
Qed.

(** The bucket of an entry: its minute of arrival, counted from the start. *)
Definition in_bucket (i : Z) (e : Entry) : bool :=
  let minute := ReceivedAt e / 60000 * 60000000000 in
  (start <=? minute) && (minute <? stop) && ((minute - start) / w =? i).

Lemma in_bucket_key i e :
  arrived e -> is_int64 (stop - start) -> in_key_bucket i e = in_bucket i e.
Proof.
  intros [H0 H1] Hspan. unfold in_key_bucket, in_bucket, bucket_of, minute_of, minute_key.
  rewrite Z.quot_div_nonneg by lia.
  assert (ReceivedAt e / 60000 * 60000 <= ReceivedAt e) by (pose proof (Z.mul_div_le (ReceivedAt e) 60000); lia).
  assert (0 <= ReceivedAt e / 60000) by (apply Z.div_pos; lia).
  rewrite int64_small by (unfold is_int64; lia).
  replace (ReceivedAt e / 60000 * 60000) with (ReceivedAt e / 60000 * 60 * 1000) by lia.
  rewrite Z.div_mul by lia. rewrite parse_minute_fmt by (unfold datable; lia).
  rewrite Z.div_mul by lia.
  replace (ReceivedAt e / 60000 * 60 * 1000000000) with (ReceivedAt e / 60000 * 60000000000) by lia.
  set (minute := ReceivedAt e / 60000 * 60000000000) in *.
  rewrite (Z.leb_antisym minute start). destruct (Z.ltb_spec minute start) as [Hs | Hs]; [done |].
  destruct (Z.ltb_spec minute stop) as [Ht | Ht]; [| done]. cbn [orb negb andb].
  unfold time_sub. unfold is_int64 in Hspan.
  replace (Z.max (- 2 ^ 63) (Z.min (2 ^ 63 - 1) (minute - start))) with (minute - start) by lia.
  rewrite Z.quot_div_nonneg by lia. destruct (Z.eqb_spec ((minute - start) / w) i) as [-> | Hne].
  - by apply bool_decide_eq_true.
  - apply bool_decide_eq_false. congruence.
Qed.

End Buckets.

(** ** Histograms of a store *)

Definition sealed_scope (start stop : Z) (f : HistogramFilter) (e : Entry) : bool :=
  isZero f || ((UnixMilli start <=? Ts e) && (Ts e <=? UnixMilli stop) && filter_matches f e).

(** A segment with the row groups [bs] and the minutes that sealing computed. *)
Record timed (v : StoreView) (seg : LoadedSegment) (bs : list (list Entry)) : Prop := {
  tm_holds : segment_holds (sv_dirs v) seg bs;
  tm_minutes : forall meta, Meta seg = Some meta -> Histogram meta = foldl add_hist ∅ (concat bs);
  tm_arrived : Forall arrived (concat bs)
}.

Lemma candidate_sealed now start stop f e :
  isZero f = false ->
  candidate now (scope_params start stop (hf_Service f) (hf_Level f) (hf_Environment f)) e =
    sealed_scope start stop f e.
Proof.
  intros Hz. rewrite candidate_scope. unfold sealed_scope, walEntryInScope, filter_matches, wants.
  rewrite Hz, !Z.leb_antisym. cbn [orb].
  destruct (Ts e <? UnixMilli start), (UnixMilli stop <? Ts e), (nonempty (hf_Service f)),
    (EqualFold (Service e) (hf_Service f)), (nonempty (hf_Level f)), (EqualFold (Level e) (hf_Level f)),
    (envMatches (hf_Environment f) (Env e)); done.
Qed.

(** The minutes of the sealed entries in scope, whichever way they are gathered. *)
Lemma sealed_minutes now cs v start stop f segs groups :
  caches_ok cs -> Forall2 (timed v) segs groups ->
  let shortcut (seg : LoadedSegment) (meta : SegmentMeta) :=
    if isZero f then
      Some (fun minuteCounts : gmap bytes HBucket =>
        map_fold (fun key bucket (m : gmap bytes HBucket) =>
          <[key := bucket_sum (default (mkBucket 0 0) (m !! key)) bucket]> m)
          minuteCounts (Histogram meta))
    else None in
  exists cs', caches_ok cs' /\
    for_segments now cs v (scope_params start stop (hf_Service f) (hf_Level f) (hf_Environment f))
      shortcut visit_minutes segs ∅ =
      (cs', Ok (foldl add_hist ∅
        (filter (fun e => sealed_scope start stop f e = true) (concat (@concat Entry <$> groups))))).
Proof.
  intros Hcs H shortcut. destruct (isZero f) eqn:Hz.
  - assert (forall acc cs, caches_ok cs -> exists cs', caches_ok cs' /\
      for_segments now cs v (scope_params start stop (hf_Service f) (hf_Level f) (hf_Environment f))
        shortcut visit_minutes segs acc =
        (cs', Ok (foldl add_hist acc (concat (@concat Entry <$> groups))))) as Hall.
    { clear Hcs cs. induction H as [| seg bs segs groups [(meta & Hm & _) Hmin _] H IH]; intros acc cs Hcs;
        [by exists cs |].
      cbn [for_segments fmap list_fmap concat]. rewrite Hm.
      destruct (shortcut seg meta) as [use |] eqn:Esc; unfold shortcut in Esc; [| done].
      injection Esc as <-. rewrite (Hmin meta Hm), meta_minutes, foldl_app. by apply IH. }
    destruct (Hall ∅ cs Hcs) as (cs' & Hcs' & E). exists cs'. split; [done |]. rewrite E. do 3 f_equal.
    symmetry. apply filter_all, list.Forall_forall. intros e _. unfold sealed_scope. by rewrite Hz.
  - destruct (for_segments_ok eq (fun e => 0 <= ReceivedAt e) now
      (scope_params start stop (hf_Service f) (hf_Level f) (hf_Environment f)) v shortcut visit_minutes add_hist
      segs groups cs ∅ ∅) as (cs' & acc & Hcs' & E & Heq); try done.
    + apply _.
    + by intros a b e ->.
    + apply visit_minutes_ok.
    + eapply Forall2_impl; [exact H |]. intros seg bs Ht. apply Ht.
    + clear -H. induction H as [| seg bs segs groups [_ _ Ha] H IH]; constructor; [| done].
      eapply list.Forall_impl; [exact Ha |]. by intros e [He _].
    + apply (Forall2_impl (timed v)); [done |]. intros seg bs _ meta use a _ Hsc.
      done.
    + exists cs'. split; [done |]. rewrite E, Heq. do 3 f_equal. apply list_filter_iff.
      intros e. by rewrite candidate_sealed.
Qed.

(** The entries of a store that the bucket [i] counts, among those that satisfy [P]. *)
Definition binned (groups : list (list (list Entry))) (v : StoreView) (start stop w : Z)
  (f : HistogramFilter) (P : Entry -> bool) (i : Z) : Z :=
  count (fun e => P e && in_bucket start stop w i e && sealed_scope start stop f e)
    (concat (@concat Entry <$> groups)) +
  count (fun e => P e && in_bucket start stop w i e && wal_scope start stop f e) (wal_entries v).

Lemma count_ext_in {A} (f g : A -> bool) (l : list A) :
  Forall (fun x => f x = g x) l -> count f l = count g l.
Proof. intros H. induction H as [| x l Hx H IH]; [done |]. by rewrite !count_cons, Hx, IH. Qed.

Lemma HistogramFiltered_ok now cs v start stop interval f groups :
  start < stop -> is_int64 (stop - start) -> caches_ok cs ->
  Forall2 (timed v) (SegmentsInRange (sv_segments v) start stop) groups ->
  Forall arrived (wal_entries v) ->
  exists cs' buckets w, caches_ok cs' /\
    HistogramFiltered now cs v start stop interval f = (cs', Ok buckets) /\
    minHistogramInterval <= w /\ len buckets = (stop - start) / w + 1 /\
    len buckets <= maxHistogramBuckets + 1 /\
    forall i, 0 <= i < len buckets ->
      buckets !! Z.to_nat i = Some (mkHistogramBucket (start + i * w)
        (binned groups v start stop w f (fun _ => true) i)
        (binned groups v start stop w f (fun e => isErrorLevel (Level e)) i)).
Proof.
  intros Hlt Hspan Hcs H Hwal. unfold HistogramFiltered.
  rewrite (proj2 (Z.ltb_lt _ _)) by done. cbn [negb].
  assert (time_sub stop start = stop - start) as ->.
  { unfold time_sub. unfold is_int64 in Hspan. lia. }
  pose proof (effective_interval_ok (stop - start) interval ltac:(lia)) as [Hw Hq].
  set (w := effective_interval (stop - start) interval) in *. unfold minHistogramInterval in Hw.
  destruct (sealed_minutes now cs v start stop f _ groups Hcs H) as (cs' & Hcs' & E).
  cbv zeta in E. rewrite E, wal_minutes by done. rewrite <- foldl_app.
  set (l := filter _ _ ++ filter _ _). rewrite Z.quot_div_nonneg in * by lia.
  eexists cs', _, w. split; [done |]. split; [done |]. split; [done |].
  rewrite buckets_length by lia. split; [done |]. split; [lia |]. intros i Hi.
  rewrite buckets_fold by lia. rewrite totals_fold.
  assert (Forall arrived l) as Hl.
  { assert (Forall arrived (concat (@concat Entry <$> groups))) as Hg.
    2:{ unfold l. apply Forall_app. split; apply list.Forall_forall; intros e [_ He]%list_elem_of_filter;
          [rewrite list.Forall_forall in Hg; by apply Hg | rewrite list.Forall_forall in Hwal; by apply Hwal]. }
    clear -H. induction H as [| seg bs segs groups [_ _ Ha] H IH]; [constructor |].
    cbn [fmap list_fmap concat]. by apply Forall_app. }
  assert (forall P : Entry -> bool, count (fun e => P e && in_key_bucket start stop w i e) l =
    binned groups v start stop w f P i) as Hb.
  { intros P. rewrite (count_ext_in _ (fun e => P e && in_bucket start stop w i e) l).
    - unfold l, binned. by rewrite count_app, !count_filter.
    - eapply list.Forall_impl; [exact Hl |]. intros e He. cbn beta. rewrite in_bucket_key by (done || lia). done. }
  cbn [Total Errors]. do 2 f_equal.
  - rewrite <- (Hb (fun _ => true)). done.
  - rewrite <- (Hb (fun e => isErrorLevel (Level e))). apply count_ext_in, list.Forall_forall.
    intros e _. apply andb_comm.
Qed.

End HistogramLemmas.

(** ** Properties *)

Section CountProperties.
Context {C : Zstd} {L : ZstdLaws C} {W : World} {U : Unicode} {T : Text} {TL : TextLaws T} {J : BodyJSON}.

(** What [Seal] registers is such a segment. *)
Lemma sealed_counted {MJ : MetaJSON} cb s h es torn v :
  sealed_in cb s h es torn (sv_dirs v) -> Forall (on_time h) (stored cb <$> es) ->
  Forall arrived (stored cb <$> es) ->
  let seg := sealed_segment s h (stored cb <$> es) in
  let bs := row_groups (effectiveSealChunkEntries s) (stored cb <$> es) in
  counted v seg bs /\ timed v seg bs.
Proof.
  intros [H1 H2 H3 H4 H5 H6 H7 H8 H9] Hon Harr seg bs.
  assert (segment_holds (sv_dirs v) seg bs) as Hh by (by apply (sealed_segment_holds cb s h es torn)).
  assert (concat bs = stored cb <$> es) as Hc by apply row_groups_concat, effective_range.
  destruct (segment_meta_stats s h (stored cb <$> es)) as (E1 & E2 & _).
  { eapply list.Forall_impl; [exact Harr |]. by intros e []. }
  split; split; try done; rewrite ?Hc; try done; by intros meta [= <-].
Qed.

(** C8: Counts by level are exact for segments whose entries were logged on time, that is with
    event times from an hour before to an hour after the hour of their segment ([on_time]; for
    other segments the precomputed totals may be used for a range their entries are not in):
    with every segment of the range counted from its metadata or by a scan of its columns, and
    the unsealed logs row by row, the number reported for a level is the number of entries of
    the store in scope that have it - in the time range, of the service and environment asked
    for, entries without an environment included. *)
Theorem count_by_level_exact (now : Z) (cs : Caches) (v : StoreView) (start stop : Z)
  (service env : bytes) (groups : list (list (list Entry))) :
  is_int64 (start / 1000000) -> is_int64 (stop / 1000000) -> caches_ok cs ->
  Forall2 (counted v) (SegmentsInRange (sv_segments v) start stop) groups ->
  exists cs' counts, caches_ok cs' /\ CountByLevel now cs v start stop service env = (cs', Ok counts) /\
    forall level, default 0 (counts !! level) =
      count (fun e => bool_decide (Level e = level) && walEntryInScope e start stop service env)
        (all_entries groups v).
Proof. apply CountByLevel_ok. Qed.

(** Totals and errors per service are exact for every named service, whether or
    not a segment's metadata has the per-service error counts. *)
Theorem count_by_service_exact (has_errors : LoadedSegment -> bool) (now : Z) (cs : Caches)
  (v : StoreView) (start stop : Z) (env : bytes) (groups : list (list (list Entry))) :
  is_int64 (start / 1000000) -> is_int64 (stop / 1000000) -> caches_ok cs ->
  Forall2 (counted v) (SegmentsInRange (sv_segments v) start stop) groups ->
  exists cs' counts, caches_ok cs' /\
    CountByServiceDetailed has_errors now cs v start stop env = (cs', Ok counts) /\
    forall svc, svc <> [] -> service_at counts svc =
      (count (fun e => of_service svc e && walEntryInScope e start stop [] env) (all_entries groups v),
       count (fun e => error_of svc e && walEntryInScope e start stop [] env) (all_entries groups v)).
Proof. apply CountByServiceDetailed_ok. Qed.

(** A histogram has at most 10001 buckets of at least a second each, which tile
    the range from its start, and each bucket counts exactly the entries in scope
    whose minute of arrival begins in it, and the errors among them - sealed entries
    by event time when a filter is set, unsealed ones by arrival. *)
Theorem histogram_exact (now : Z) (cs : Caches) (v : StoreView) (start stop interval : Z)
  (f : HistogramFilter) (groups : list (list (list Entry))) :
  start < stop -> is_int64 (stop - start) -> caches_ok cs ->
  Forall2 (timed v) (SegmentsInRange (sv_segments v) start stop) groups ->
  Forall arrived (wal_entries v) ->
  exists cs' buckets w, caches_ok cs' /\
    HistogramFiltered now cs v start stop interval f = (cs', Ok buckets) /\
    minHistogramInterval <= w /\ len buckets = (stop - start) / w + 1 /\
    len buckets <= maxHistogramBuckets + 1 /\
    forall i, 0 <= i < len buckets ->
      buckets !! Z.to_nat i = Some (mkHistogramBucket (start + i * w)
        (binned groups v start stop w f (fun _ => true) i)
        (binned groups v start stop w f (fun e => isErrorLevel (Level e)) i)).
Proof. apply HistogramFiltered_ok. Qed.

End CountProperties.

(** ** Witnesses *)

(** The sample segment, and a live log with the same rows. *)
Definition sample_view : StoreView :=
  mkView [sealed_segment 1 493000 (stored (C := stored_codec) true <$> paged_log)]
    (fun _ => sample_dir) [stored (C := stored_codec) true <$> paged_log].

Lemma sample_counted :
  counted (C := stored_codec) (W := sample_world) (U := ascii_unicode) sample_view
    (sealed_segment 1 493000 (stored (C := stored_codec) true <$> paged_log)) sample_groups /\
  timed (C := stored_codec) (W := sample_world) (U := ascii_unicode) sample_view
    (sealed_segment 1 493000 (stored (C := stored_codec) true <$> paged_log)) sample_groups.
Proof.
  apply (sealed_counted (C := stored_codec) (MJ := sample_json) true 1 493000 paged_log [] sample_view).
  - apply sample_sealed.
  - repeat constructor; vm_compute; congruence.
  - repeat constructor; vm_compute; congruence.
Qed.

Definition sample_start : Z := 1774790000 * 1000000000.
Definition sample_stop : Z := 1774810000 * 1000000000.

Lemma sample_range :
  SegmentsInRange (sv_segments sample_view) sample_start sample_stop =
    [sealed_segment 1 493000 (stored (C := stored_codec) true <$> paged_log)].
Proof. vm_compute. reflexivity. Qed.

Lemma count_by_level_exact_witness :
  exists cs' counts,
    CountByLevel (C := stored_codec) (U := ascii_unicode) (T := ascii_text) 0 (mkCaches None None)
      sample_view sample_start sample_stop [] [] = (cs', Ok counts) /\
    default 0 (counts !! str "error") = 2.
Proof.
  destruct (count_by_level_exact (C := stored_codec) (W := sample_world) (U := ascii_unicode)
    (T := ascii_text) 0 (mkCaches None None) sample_view sample_start sample_stop [] [] [sample_groups])
    as (cs' & counts & _ & E & H).
  - by vm_compute.
  - by vm_compute.
  - by split.
  - rewrite sample_range. constructor; [apply sample_counted | constructor].
  - exists cs', counts. split; [exact E |]. rewrite H. vm_compute. reflexivity.
Defined.

Lemma count_by_service_exact_witness :
  exists cs' counts,
    CountByServiceDetailed (C := stored_codec) (U := ascii_unicode) (T := ascii_text) (fun _ => true) 0
      (mkCaches None None) sample_view sample_start sample_stop [] = (cs', Ok counts) /\
    service_at counts (Service sample_entry) = (4, 2).
Proof.
  destruct (count_by_service_exact (C := stored_codec) (W := sample_world) (U := ascii_unicode)
    (T := ascii_text) (fun _ => true) 0 (mkCaches None None) sample_view sample_start sample_stop [] [sample_groups])
    as (cs' & counts & _ & E & H).
  - by vm_compute.
  - by vm_compute.
  - by split.
  - rewrite sample_range. constructor; [apply sample_counted | constructor].
  - exists cs', counts. split; [exact E |]. rewrite H by (vm_compute; congruence). vm_compute. reflexivity.
Defined.

Lemma histogram_exact_witness :
  exists cs' buckets w,
    HistogramFiltered (C := stored_codec) (U := ascii_unicode) (T := ascii_text) 0 (mkCaches None None)
      sample_view sample_start sample_stop (20000 * 1000000000) (mkHistogramFilter [] [] []) =
      (cs', Ok buckets) /\ len buckets = (sample_stop - sample_start) / w + 1.
Proof.
  destruct (histogram_exact (C := stored_codec) (W := sample_world) (U := ascii_unicode)
    (T := ascii_text) 0 (mkCaches None None) sample_view sample_start sample_stop (20000 * 1000000000)
    (mkHistogramFilter [] [] []) [sample_groups])
    as (cs' & buckets & w & _ & E & _ & Hl & _).
  - by vm_compute.
  - by vm_compute.
  - by split.
  - rewrite sample_range. constructor; [apply sample_counted | constructor].
  - repeat constructor; vm_compute; congruence.
  - exists cs', buckets, w. split; [exact E | exact Hl].
Defined.
