(* ===== verification/Requests.v ===== *)
(** * Whole-range scans of requests (engine/requests.go)

    Ordering "slowest first" and averaging over a range have to examine the whole
    range.  [SearchRequests] narrows every sealed chunk to its own best rows by reading
    the sort column alone; [AggregateRequests] sums four columns.  Both stop at
    [MaxScanRows] rows and report it.  Main results: below that cap the page and the
    sums are those of all matching entries, sealed or not. *)

From stdpp Require Import base list gmap strings numbers sorting.
From Stdlib Require Import ZArith Lia.
From S2P Require Import Prelude Zstd Schema Wal Chunk Cache Rows Index Times Ids Seal Segments TopN Pages Query Filter Search Paging WalCache Counts.

(** ** Floating-point sums of integers *)

(** [float64(n)]: the nearest multiple of the last of 53 binary digits, ties to even.
    The sums of this file stay integers, far below the largest [float64]. *)
Definition float64 (n : Z) : Z :=
  let e := Z.log2 (Z.abs n) - 52 in
  if e <=? 0 then n
  else
    let unit := 2 ^ e in
    let q := n / unit in
    let r := n mod unit in
    if (2 * r <? unit) || ((2 * r =? unit) && Z.even q) then q * unit else (q + 1) * unit.

Record RequestAggregate := mkAggregate {
  ra_Count : Z;
  ra_TotalDurationMs : Z;
  ra_TotalSQLCount : Z;
  ra_CacheReads : Z;
  ra_CacheHits : Z;
  ra_Truncated : bool
}.

Definition RequestAggregate0 : RequestAggregate := mkAggregate 0 0 0 0 0 false.

Section Requests.
Context {C : Zstd} {U : Unicode} {T : Text} {J : BodyJSON}.

(** A variable of the package, sized by the deployment profile (500000 at first). *)
Context (MaxScanRows : Z).

Definition walScanHeadroom (have : Z) : Z :=
  if MaxScanRows <=? have then 0 else MaxScanRows - have + 1.

Definition withDefaultRange (now : Z) (p : SearchParams) : SearchParams :=
  with_page (p_Limit p)
    (Some (match p_Start p with Some t => t | None => now - Hour_ns end))
    (Some (match p_End p with Some t => t | None => now end)) p.

(** [params.Limit = 0; params.Offset = 0] *)
Definition without_page (p : SearchParams) : SearchParams :=
  mkParams (p_Query p) (p_Service p) (p_Level p) (p_Env p) (p_TraceID p) (p_RequestID p)
    (p_UserID p) (p_TenantID p) (p_EventType p) (p_ErrorClass p) (p_ErrorFingerprint p)
    (p_SourceFile p) (p_CommitHash p) (p_Method p) (p_Path p) (p_Handler p) (p_MinDurationMs p)
    (p_PositiveDurationOnly p) (p_MinSQLCount p) (p_NPlusOneOnly p) (p_RequestsOnly p)
    (p_MetadataFilter p) (p_Exclude p) (p_Start p) (p_End p) (p_SinceID p) 0
    0 (p_SortAsc p) (p_OmitBody p).

(** [searchWALsCapped]: the callback stops the walk once [limit] matches are there. *)
Definition searchWALsCapped (v : StoreView) (p : SearchParams) (limit : Z) : list Entry :=
  if limit <=? 0 then []
  else
    walk (fun matches e =>
      let matches := if matchesParams e p then matches ++ [e] else matches in
      (matches, len matches <? limit)) [] (wal_entries v).

(** The loop over the segments: [full] is tested before each, and a segment that fails
    is logged and left as [step] leaves the accumulator. *)
Fixpoint until_full {A} (full : A -> bool) (step : Caches -> LoadedSegment -> A -> Caches * A * result unit)
  (segs : list LoadedSegment) (cs : Caches) (acc : A) : Caches * result (A * bool) :=
  match segs with
  | [] => (cs, Ok (acc, false))
  | seg :: segs =>
      if full acc then (cs, Ok (acc, true))
      else
        match step cs seg acc with
        | (cs, _, Panic) => (cs, Panic)
        | (cs, acc, _) => until_full full step segs cs acc
        end
  end.

(** What both collectors do after the segments. *)
Definition add_unsealed (v : StoreView) (p : SearchParams) (out : list Entry) (truncated : bool)
  : list Entry * bool :=
  let out := if truncated then out else out ++ searchWALsCapped v p (walScanHeadroom (len out)) in
  if MaxScanRows <? len out then (take (Z.to_nat MaxScanRows) out, true) else (out, truncated).

Definition collectMatching (now : Z) (cs : Caches) (v : StoreView) (p : SearchParams)
  : Caches * result (list Entry * bool) :=
  let p := without_page (withDefaultRange now p) in
  let segs := SegmentsInRange (sv_segments v) (default 0 (p_Start p)) (default 0 (p_End p)) in
  let step cs seg out :=
    match searchSegment now cs seg (sv_dirs v (DirName seg)) p with
    | (cs, Ok entries) => (cs, out ++ entries, Ok tt)
    | (cs, Err e) => (cs, out, Err e)
    | (cs, Panic) => (cs, out, Panic)
    end in
  match until_full (fun out => MaxScanRows <=? len out) step segs cs [] with
  | (cs, Ok (out, truncated)) => (cs, Ok (add_unsealed v p out truncated))
  | (cs, Err e) => (cs, Err e)
  | (cs, Panic) => (cs, Panic)
  end.

(** ** The top rows of a chunk by one column *)

Definition int_at (values : list (option Z)) (row : Z) : Z :=
  match value_at values row with Some (Some v) => v | _ => 0 end.

Definition value_row_before (values : list (option Z)) (i j : Z) : bool :=
  let vi := int_at values i in
  let vj := int_at values j in
  if negb (vi =? vj) then vj <? vi else i <? j.

Definition topRowsByColumn (rows : list Z) (col : string) (n : Z) : scan_m (list Z) :=
  if len rows <=? n then mret rows
  else
    values ← column "read column for ordering" sparseInt64 col;
    let ordered := merge_sort (not_after (value_row_before values)) rows in
    mret (merge_sort Z.le (take (Z.to_nat n) ordered)).

(** A row that cannot be decoded is dropped. *)
Fixpoint appendRows (rows : list Z) (out : list Entry) : scan_m (list Entry) :=
  match rows with
  | [] => mret out
  | row :: rows =>
      e ← fill_row row false;
      appendRows rows (match e with Some e => out ++ [e] | None => out end)
  end.

Definition visit_top (col : string) (n : Z) (rows : list Z) (out : list Entry) : scan_m (list Entry) :=
  top ← topRowsByColumn rows col n;
  appendRows top out.

Definition collectMatchingTop (now : Z) (cs : Caches) (v : StoreView) (p : SearchParams)
  (col : string) (n : Z) : Caches * result (list Entry * bool) :=
  if n <=? 0 then collectMatching now cs v p
  else
    let scan := without_page (withDefaultRange now p) in
    let segs := SegmentsInRange (sv_segments v) (default 0 (p_Start scan)) (default 0 (p_End scan)) in
    match until_full (fun out => MaxScanRows <=? len out)
            (fun cs seg out => scanSegment now cs seg (sv_dirs v (DirName seg)) scan (visit_top col n) out)
            segs cs [] with
    | (cs, Ok (out, truncated)) => (cs, Ok (add_unsealed v scan out truncated))
    | (cs, Err e) => (cs, Err e)
    | (cs, Panic) => (cs, Panic)
    end.

Definition requestSortColumn (sortBy : string) : string :=
  if bool_decide (sortBy = "sql_count") then "db_count"
  else if bool_decide (sortBy = "db_time_ms") then "db_ms"
  else if bool_decide (sortBy = "duplicate_queries") then "dup_queries"
  else "duration_ms".

Definition request_key (sortBy : string) (e : Entry) : Z :=
  if bool_decide (sortBy = "sql_count") then DbCount e
  else if bool_decide (sortBy = "db_time_ms") then DbMs e
  else if bool_decide (sortBy = "duplicate_queries") then DupQueries e
  else DurationMs e.

Definition request_before (sortBy : string) (a b : Entry) : bool :=
  if negb (request_key sortBy a =? request_key sortBy b) then request_key sortBy b <? request_key sortBy a
  else ID a <? ID b.

Definition sortRequestEntries (entries : list Entry) (sortBy : string) : list Entry :=
  merge_sort (not_after (request_before sortBy)) entries.

(** The offset and the limit of [SearchRequests]. *)
Definition cut_requests (entries : list Entry) (limit offset : Z) : list Entry :=
  if (0 <? offset) && (len entries <=? offset) then []
  else
    let entries := if 0 <? offset then drop (Z.to_nat offset) entries else entries in
    if (0 <? limit) && (limit <? len entries) then take (Z.to_nat limit) entries else entries.

Definition SearchRequests (now : Z) (cs : Caches) (v : StoreView) (p : SearchParams)
  (sortBy : string) (limit offset : Z) : Caches * result (list Entry) :=
  let want := offset + limit in
  match collectMatchingTop now cs v p (requestSortColumn sortBy) want with
  | (cs, Ok (entries, _)) => (cs, Ok (cut_requests (sortRequestEntries entries sortBy) limit offset))
  | (cs, Err e) => (cs, Err e)
  | (cs, Panic) => (cs, Panic)
  end.

(** ** Aggregates *)

Definition agg_add (agg : RequestAggregate) (d sql hits misses : Z) : RequestAggregate :=
  mkAggregate (ra_Count agg + 1) (float64 (ra_TotalDurationMs agg + float64 d))
    (float64 (ra_TotalSQLCount agg + float64 sql)) (int64 (ra_CacheReads agg + int64 (hits + misses)))
    (int64 (ra_CacheHits agg + hits)) (ra_Truncated agg).

(** One row of a chunk, with the number of rows scanned. *)
Definition agg_row (durations dbCounts hits misses : list (option Z)) (s : Z * RequestAggregate) (row : Z)
  : Z * RequestAggregate :=
  let '(scanned, agg) := s in
  let scanned := scanned + 1 in
  let d := int_at durations row in
  if d <=? 0 then (scanned, agg)
  else (scanned, agg_add agg d (int_at dbCounts row) (int_at hits row) (int_at misses row)).

Definition visit_requests (rows : list Z) (s : Z * RequestAggregate) : scan_m (Z * RequestAggregate) :=
  durations ← plain sparseInt64 "duration_ms";
  dbCounts ← plain sparseInt64 "db_count";
  hits ← plain sparseInt64 "cache_hits";
  misses ← plain sparseInt64 "cache_misses";
  mret (foldl (agg_row durations dbCounts hits misses) s rows).

Definition agg_unsealed (p : SearchParams) (agg : RequestAggregate) (e : Entry) : RequestAggregate :=
  if negb (matchesParams e p) || (DurationMs e <=? 0) then agg
  else agg_add agg (DurationMs e) (DbCount e) (CacheHits e) (CacheMisses e).

Definition with_truncated (b : bool) (agg : RequestAggregate) : RequestAggregate :=
  mkAggregate (ra_Count agg) (ra_TotalDurationMs agg) (ra_TotalSQLCount agg) (ra_CacheReads agg)
    (ra_CacheHits agg) b.

Definition AggregateRequests (now : Z) (cs : Caches) (v : StoreView) (p : SearchParams)
  : Caches * result RequestAggregate :=
  let scan := without_page (withDefaultRange now p) in
  let segs := SegmentsInRange (sv_segments v) (default 0 (p_Start scan)) (default 0 (p_End scan)) in
  match until_full (fun s => MaxScanRows <=? s.1)
          (fun cs seg s => scanSegment now cs seg (sv_dirs v (DirName seg)) scan visit_requests s)
          segs cs (0, RequestAggregate0) with
  | (cs, Ok ((_, agg), true)) => (cs, Ok (with_truncated true agg))
  | (cs, Ok ((_, agg), false)) => (cs, Ok (foldl (agg_unsealed scan) agg (wal_entries v)))
  | (cs, Err e) => (cs, Err e)
  | (cs, Panic) => (cs, Panic)
  end.

End Requests.

(** ** Scans *)

Section RequestLemmas.
Context {C : Zstd} {L : ZstdLaws C} {W : World} {U : Unicode} {T : Text} {TL : TextLaws T} {J : BodyJSON}.
Context (MaxScanRows : Z).

Lemma walk_capped p limit matches l :
  len matches < limit ->
  walk (fun matches e =>
    let matches := if matchesParams e p then matches ++ [e] else matches in
    (matches, len matches <? limit)) matches l = take (Z.to_nat limit) (matches ++ matching p l).
Proof.
  revert matches. induction l as [| e l IH]; intros matches Hm.
  { cbn. rewrite app_nil_r, take_ge; [done | unfold len in *; lia]. }
  cbn [walk]. unfold matching. rewrite filter_cons. fold (matching p l).
  destruct (matchesParams e p) eqn:Em.
  - rewrite decide_True by done.
    destruct (Z.ltb_spec (len (matches ++ [e])) limit) as [Hlt | Hge].
    + rewrite IH by done. by rewrite <- app_assoc.
    + rewrite len_app, len_cons, len_nil in Hge. change (e :: matching p l) with ([e] ++ matching p l).
      rewrite app_assoc, take_app_length'; [done |]. rewrite length_app. cbn. unfold len in *. lia.
  - rewrite decide_False by done. rewrite (proj2 (Z.ltb_lt _ _)) by done. by apply IH.
Qed.

Lemma searchWALsCapped_ok v p limit :
  searchWALsCapped v p limit = take (Z.to_nat limit) (matching p (wal_entries v)).
Proof.
  unfold searchWALsCapped. destruct (Z.leb_spec limit 0).
  - by replace (Z.to_nat limit) with O by lia.
  - by apply (walk_capped p limit []).
Qed.

Lemma add_unsealed_ok v p out :
  len out + len (matching p (wal_entries v)) <= MaxScanRows ->
  add_unsealed MaxScanRows v p out false = (out ++ matching p (wal_entries v), false).
Proof.
  intros Hm. unfold add_unsealed. rewrite searchWALsCapped_ok, take_ge.
  2:{ unfold walScanHeadroom. destruct (Z.leb_spec MaxScanRows (len out)); unfold len in *; lia. }
  rewrite len_app, (proj2 (Z.ltb_ge _ _)) by lia. done.
Qed.

Lemma until_full_fold {A} (I : A -> Prop) (full : A -> bool) step v segs groups
  (g : A -> list (list Entry) -> A) cs acc :
  (forall cs seg bs acc, I acc -> caches_ok cs -> segment_holds (sv_dirs v) seg bs -> bs ∈ groups ->
    exists cs', caches_ok cs' /\ step cs seg acc = (cs', g acc bs, Ok tt) /\ I (g acc bs)) ->
  (forall pre suf, groups = pre ++ suf -> suf <> [] -> full (foldl g acc pre) = false) ->
  I acc -> caches_ok cs -> Forall2 (segment_holds (sv_dirs v)) segs groups ->
  exists cs', caches_ok cs' /\ until_full full step segs cs acc = (cs', Ok (foldl g acc groups, false)) /\
    I (foldl g acc groups).
Proof.
  intros Hstep Hfull HI Hcs H. revert cs acc HI Hcs Hfull.
  induction H as [| seg bs segs groups Hh H IH]; intros cs acc HI Hcs Hfull; [by exists cs |].
  cbn [until_full foldl]. pose proof (Hfull [] (bs :: groups)) as Hn. cbn [foldl] in Hn. rewrite Hn by done.
  destruct (Hstep cs seg bs acc) as (cs1 & Hcs1 & -> & HI1); [done | done | done | by left |].
  apply IH; [| done | done |].
  - intros. apply Hstep; [done | done | done |]. by right.
  - intros pre suf -> Hne. by apply (Hfull (bs :: pre) suf).
Qed.

(** ** The order of a page of requests *)

#[export] Instance request_order sortBy : EntryOrder (request_before sortBy).
Proof.
  split; intros; unfold not_after, request_before in *.
  - revert H H0. zbool; try done; lia.
  - zbool; auto; lia.
  - revert H H0. zbool; try done; lia.
Qed.

Lemma sort_column_key sortBy :
  switch (requestSortColumn sortBy) optional_int64_cases = Some (request_key sortBy) /\
  find_column (requestSortColumn sortBy) Schema = Some (mkColumn (requestSortColumn sortBy) ColSparseInt64).
Proof.
  unfold requestSortColumn, request_key. repeat case_bool_decide; subst; by split.
Qed.

Lemma sealed_key sortBy e :
  sealed e = e -> default 0 (optional_value (requestSortColumn sortBy) e) = request_key sortBy e.
Proof.
  intros Hs. unfold optional_value. rewrite (proj1 (sort_column_key sortBy)).
  assert (stored_int (request_key sortBy e) = request_key sortBy e) as Hk.
  { rewrite <- Hs at 2. unfold request_key. by repeat case_bool_decide. }
  unfold stored_int in Hk. destruct (0 <? request_key sortBy e); [done |]. exact Hk.
Qed.

Section Chunk.
Context (r : Reader) (es : list Entry).
Hypothesis Hg : good_reader es r.
Hypothesis Hes : Forall (fun e => sealed e = e /\ is_int64 (Status e)) es.
Hypothesis Hids : StronglySorted Z.lt (ID <$> es).

Lemma int_at_value col row :
  0 <= row < len es ->
  int_at (extractOptionalInt64 es col) row = default 0 (optional_value col (entry_at es row)).
Proof.
  intros Hr. unfold int_at. change (extractOptionalInt64 es col) with (optional_value col <$> es).
  rewrite (value_at_entry es (optional_value col) row (entry_at es row));
    [by destruct (optional_value col _) | by apply entry_at_in | done].
Qed.

Lemma int_at_key sortBy row :
  0 <= row < len es ->
  int_at (extractOptionalInt64 es (requestSortColumn sortBy)) row = request_key sortBy (entry_at es row).
Proof.
  intros Hr. rewrite int_at_value by done. apply sealed_key.
  rewrite list.Forall_forall in Hes. eapply Hes, list_elem_of_lookup_2. by apply entry_at_in.
Qed.

(** The rows of [topRowsByColumn], as entries. *)
Definition top_entries (sortBy : string) (n : Z) (l : list Entry) : list Entry :=
  take (Z.to_nat n) (sortRequestEntries l sortBy).

Lemma sorted_rows_requests sortBy rows :
  StronglySorted Z.lt rows -> rows_in es rows ->
  entry_at es <$> merge_sort (not_after (value_row_before
    (extractOptionalInt64 es (requestSortColumn sortBy)))) rows =
  sortRequestEntries (entry_at es <$> rows) sortBy.
Proof.
  intros Hs Hin. symmetry. apply (sort_by_unique (request_before sortBy)).
  - by apply distinct_rows.
  - apply (StronglySorted_fmap_in (not_after (value_row_before
      (extractOptionalInt64 es (requestSortColumn sortBy))))).
    + intros i j Hi Hj. rewrite merge_sort_Permutation in Hi, Hj.
      unfold rows_in in Hin. rewrite list.Forall_forall in Hin. apply Hin in Hi, Hj.
      unfold not_after, value_row_before, request_before. rewrite !int_at_key by done.
      destruct (negb _); [done |]. rewrite !Z.ltb_ge. pose proof (sorted_ids_lt es Hids i j Hi Hj).
      destruct (decide (i = j)) as [-> |]; lia.
    + apply StronglySorted_merge_sort.
      * intros i j k. unfold not_after, value_row_before. zbool; try done; lia.
      * intros i j. unfold not_after, value_row_before. zbool; try tauto; lia.
  - by rewrite merge_sort_Permutation.
Qed.

Lemma runs_append rows out :
  rows_in es rows ->
  runs r es (appendRows rows out) (out ++ (projected false <$> at_rows es rows)).
Proof.
  intros Hin. revert out. induction Hin as [| row rows Hr Hin IH]; intros out; cbn [appendRows].
  { eapply runs_eq; [apply runs_ret |]. by rewrite app_nil_r. }
  assert (es !! Z.to_nat row = Some (entry_at es row)) as He by (by apply entry_at_in).
  eapply runs_bind; [apply (runs_fill r es Hg Hes row false); [lia | exact He] |].
  eapply runs_eq; [apply IH |]. rewrite (at_rows_cons es row rows _ He), fmap_cons.
  by rewrite <- app_assoc.
Qed.

(** The rows [topRowsByColumn] keeps. *)
Definition chunk_top (sortBy : string) (n : Z) (rows : list Z) : list Z :=
  if len rows <=? n then rows
  else merge_sort Z.le (take (Z.to_nat n) (merge_sort (not_after (value_row_before
    (extractOptionalInt64 es (requestSortColumn sortBy)))) rows)).

Lemma chunk_top_in sortBy n rows : rows_in es rows -> rows_in es (chunk_top sortBy n rows).
Proof.
  intros Hin. unfold chunk_top. destruct (len rows <=? n); [done |].
  unfold rows_in in *. rewrite list.Forall_forall in *. intros x Hx. apply Hin.
  rewrite merge_sort_Permutation in Hx. apply elem_of_take in Hx as (i & Hx & _).
  apply list_elem_of_lookup_2 in Hx. by rewrite merge_sort_Permutation in Hx.
Qed.

Lemma chunk_top_perm sortBy n rows :
  StronglySorted Z.lt rows -> rows_in es rows ->
  entry_at es <$> chunk_top sortBy n rows ≡ₚ top_entries sortBy n (entry_at es <$> rows).
Proof.
  intros Hs Hin. unfold chunk_top, top_entries. destruct (Z.leb_spec (len rows) n) as [Hle | Hgt].
  - rewrite take_ge; unfold sortRequestEntries; rewrite merge_sort_Permutation; [done |].
    rewrite length_fmap. unfold len in Hle. lia.
  - rewrite merge_sort_Permutation, fmap_take. by rewrite sorted_rows_requests.
Qed.

Lemma runs_visit_top sortBy n rows out :
  rows_in es rows ->
  runs r es (visit_top (requestSortColumn sortBy) n rows out)
    (out ++ (projected false <$> at_rows es (chunk_top sortBy n rows))).
Proof.
  intros Hin. unfold visit_top, topRowsByColumn.
  eapply runs_bind; [| by apply runs_append, chunk_top_in].
  unfold chunk_top. destruct (len rows <=? n); [apply runs_ret |].
  eapply runs_bind; [| apply runs_ret].
  apply runs_column, (sparseInt64_ok r es (good_reads r es Hg)), sort_column_key.
Qed.
End Chunk.

(** What a segment contributes stands for its matching entries without their bodies. *)
Definition segment_top (now : Z) (p : SearchParams) (sortBy : string) (n : Z) (out : list Entry)
  (bs : list (list Entry)) : list Entry :=
  out ++ concat ((fun es => projected false <$> at_rows es (chunk_top es sortBy n (candidates now p es))) <$> bs).

Lemma scan_top now p sortBy n dirs seg bs cs out :
  caches_ok cs -> segment_holds dirs seg bs ->
  exists cs', caches_ok cs' /\
    scanSegment now cs seg (dirs (DirName seg)) p (visit_top (requestSortColumn sortBy) n) out =
      (cs', segment_top now p sortBy n out bs, Ok tt).
Proof.
  intros Hcs Hh. set (g := fun out es =>
    out ++ (projected false <$> at_rows es (chunk_top es sortBy n (candidates now p es)))).
  destruct (scanSegment_fold (fun _ => True) now p dirs seg bs (visit_top (requestSortColumn sortBy) n) g cs out)
    as (cs' & Hcs' & E & _).
  - done.
  - apply list.Forall_forall. intros es _ r acc col idx _ Hc Hg. split; [| split; [| done]].
    + apply runs_visit_top; [done | by eapply ch_rows | apply keep_in, rows_in_seq].
    + intros E. unfold g. rewrite E. unfold chunk_top. change (len (@nil Z)) with 0.
      destruct (0 <=? n); cbn; [by rewrite app_nil_r |]. rewrite take_nil. cbn. by rewrite app_nil_r.
  - done.
  - done.
  - exists cs'. split; [done |]. rewrite E. do 2 f_equal. unfold segment_top. subst g. cbv beta.
    clear. revert out. induction bs as [| es bs IH]; intros out; [cbn; by rewrite app_nil_r |].
    cbn [foldl fmap list_fmap concat]. by rewrite IH, app_assoc.
Qed.

Section Pages.
Context (now : Z) (p : SearchParams) (s t : Z) (sortBy : string) (n : Z).
Hypothesis Hs : p_Start p = Some s.
Hypothesis Ht : p_End p = Some t.
Hypothesis Hpost : needsPostReadFilter p = false.
Hypothesis Hn : 0 < n.

#[local] Abbreviation stands := (page_of_source (request_before sortBy) (Z.to_nat n)).
#[local] Abbreviation bare l := (projected false <$> l).

Lemma bare_ids l : distinct_ids l -> distinct_ids (bare l).
Proof. unfold distinct_ids. by rewrite <- list_fmap_compose. Qed.

Lemma sort_bare l : distinct_ids l -> sortRequestEntries (bare l) sortBy = bare (sortRequestEntries l sortBy).
Proof.
  intros Hd. apply (sort_by_unique (request_before sortBy)).
  - by apply bare_ids.
  - apply (StronglySorted_fmap_in (not_after (request_before sortBy))); [done |].
    apply (sort_by_sorted (request_before sortBy)).
  - unfold sortRequestEntries. by rewrite merge_sort_Permutation.
Qed.

Lemma distinct_matching_of l : distinct_ids l -> distinct_ids (matching p l).
Proof. apply distinct_ids_submseteq, sublist_submseteq, sublist_filter. Qed.

Lemma chunk_source es :
  Forall (fun e => sealed e = e /\ is_int64 (Status e)) es -> StronglySorted Z.lt (ID <$> es) ->
  page_exact now p es ->
  stands (bare (matching p es)) (bare (at_rows es (chunk_top es sortBy n (candidates now p es)))).
Proof.
  intros Hes Hids Hx. assert (distinct_ids (matching p es)) as Hd by (by apply distinct_matching).
  assert (rows_in es (candidates now p es)) as Hin by apply candidates_in.
  apply (page_source_perm _ _ _ (take (Z.to_nat n) (sortRequestEntries (bare (matching p es)) sortBy))).
  - by apply bare_ids.
  - rewrite sort_bare, <- fmap_take by done. apply fmap_Permutation.
    rewrite at_rows_fmap by (by apply chunk_top_in).
    rewrite (chunk_top_perm es Hes Hids) by (apply candidates_lt || done).
    rewrite candidates_fmap, (candidates_match now p es s t) by done. done.
  - apply (page_source_take (request_before sortBy)). by apply bare_ids.
Qed.

(** Chunks as the scan leaves them. *)
Definition scannable (es : list Entry) : Prop :=
  Forall (fun e => sealed e = e /\ is_int64 (Status e)) es /\ StronglySorted Z.lt (ID <$> es) /\
  page_exact now p es.

Lemma segment_top_source out l bs :
  Forall scannable bs -> distinct_ids (l ++ bare (matching p (concat bs))) -> stands l out ->
  stands (l ++ bare (matching p (concat bs))) (segment_top now p sortBy n out bs).
Proof.
  intros Hb Hd Hl. unfold segment_top. apply (page_source_app (request_before sortBy)); [done | done |].
  apply distinct_ids_app_r in Hd. rewrite matching_concat, fmap_concat in *.
  apply (page_source_concat (request_before sortBy)); [done |].
  clear Hd Hl. induction Hb as [| es bs (H1 & H2 & H3) Hb IH]; cbn [fmap list_fmap]; constructor; [| done].
  by apply chunk_source.
Qed.

Lemma segments_top_source groups out l :
  Forall (Forall scannable) groups ->
  distinct_ids (l ++ bare (matching p (concat (@concat Entry <$> groups)))) -> stands l out ->
  stands (l ++ bare (matching p (concat (@concat Entry <$> groups))))
    (foldl (segment_top now p sortBy n) out groups).
Proof.
  intros Hg. revert out l. induction Hg as [| bs groups Hb Hg IH]; intros out l Hd Hl.
  { cbn. by rewrite app_nil_r. }
  cbn [fmap list_fmap concat foldl] in *. rewrite matching_app, fmap_app, app_assoc in *.
  apply IH; [done |]. apply segment_top_source; [done | | done].
  eapply distinct_ids_submseteq; [| exact Hd]. apply submseteq_inserts_r. done.
Qed.
End Pages.

(** ** Whole scans *)

Lemma cut_requests_ok entries limit offset :
  0 < limit -> 0 <= offset ->
  cut_requests entries limit offset =
    drop (Z.to_nat offset) (take (Z.to_nat (offset + limit)) entries).
Proof.
  intros Hl Ho. assert (cut_requests entries limit offset =
    take (Z.to_nat limit) (drop (Z.to_nat offset) entries)) as ->.
  { unfold cut_requests. rewrite (proj2 (Z.ltb_lt 0 limit)) by done. cbn [andb].
    assert ((if 0 <? offset then drop (Z.to_nat offset) entries else entries) =
      drop (Z.to_nat offset) entries) as ->.
    { destruct (Z.ltb_spec 0 offset); [done |]. by replace offset with 0 by lia. }
    destruct (Z.ltb_spec 0 offset), (Z.leb_spec (len entries) offset); cbn [andb].
    - by rewrite drop_ge, take_nil by (unfold len in *; lia).
    - destruct (Z.ltb_spec limit (len (drop (Z.to_nat offset) entries))); [done |].
      rewrite take_ge; [done | unfold len in *; lia].
    - destruct (Z.ltb_spec limit (len (drop (Z.to_nat offset) entries))); [done |].
      rewrite take_ge; [done | unfold len in *; lia].
    - destruct (Z.ltb_spec limit (len (drop (Z.to_nat offset) entries))); [done |].
      rewrite take_ge; [done | unfold len in *; lia]. }
  rewrite take_drop_commute. do 2 f_equal. lia.
Qed.

Lemma holds_scannable now p v segs groups :
  Forall2 (segment_holds (sv_dirs v)) segs groups -> Forall (Forall (page_exact now p)) groups ->
  Forall (Forall (scannable now p)) groups.
Proof.
  intros H Hx. induction H as [| seg bs segs groups (meta & _ & Hh) H IH]; [constructor |].
  apply Forall_cons in Hx as [Hx1 Hx]. constructor; [| by apply IH]. clear -Hh Hx1.
  induction Hh as [| cm es chunks bs (_ & _ & col & idx & _ & _ & Hc) Hh IH]; [constructor |].
  apply Forall_cons in Hx1 as [Hx Hx1]. constructor; [| by apply IH].
  split; [by eapply ch_rows | split; [by eapply ch_ids | done]].
Qed.

(** The entries of a page: those of a segment come without their bodies. *)
Definition shown_requests (p : SearchParams) (groups : list (list (list Entry))) (v : StoreView)
  : list Entry :=
  (projected false <$> matching p (concat (@concat Entry <$> groups))) ++ matching p (wal_entries v).

Lemma shown_ids p groups v :
  distinct_ids (all_entries groups v) -> distinct_ids (shown_requests p groups v).
Proof.
  intros Hd. assert (distinct_ids (matching p (all_entries groups v))) as H by (by apply distinct_matching_of).
  unfold all_entries in H. rewrite matching_app in H. unfold shown_requests, distinct_ids in *.
  rewrite fmap_app in H. rewrite fmap_app, <- list_fmap_compose. exact H.
Qed.

Lemma groups_prefix_len (p : SearchParams) (pre suf : list (list (list Entry))) v :
  len (matching p (concat (@concat Entry <$> pre))) <= len (matching p (all_entries (pre ++ suf) v)).
Proof.
  unfold all_entries. rewrite fmap_app, concat_app, !matching_app, !len_app. len_pose. lia.
Qed.

Lemma SearchRequests_ok now cs v q sortBy limit offset groups :
  let p := without_page (withDefaultRange now q) in
  0 < limit -> 0 <= offset -> caches_ok cs -> needsPostReadFilter q = false ->
  Forall2 (segment_holds (sv_dirs v))
    (SegmentsInRange (sv_segments v) (default 0 (p_Start p)) (default 0 (p_End p))) groups ->
  Forall (Forall (page_exact now p)) groups -> distinct_ids (all_entries groups v) ->
  len (matching p (all_entries groups v)) < MaxScanRows ->
  exists cs', caches_ok cs' /\
    SearchRequests MaxScanRows now cs v q sortBy limit offset =
      (cs', Ok (drop (Z.to_nat offset) (take (Z.to_nat (offset + limit))
        (sortRequestEntries (shown_requests p groups v) sortBy)))).
Proof.
  intros p Hl Ho Hcs Hpost Hseg Hx Hd Hmax. unfold SearchRequests, collectMatchingTop.
  rewrite (proj2 (Z.leb_gt _ 0)) by lia. fold p. cbv zeta.
  pose proof (holds_scannable now p v _ groups Hseg Hx) as Hsc.
  pose proof (shown_ids p groups v Hd) as Hsd. unfold shown_requests in Hsd.
  assert (forall pre suf, groups = pre ++ suf -> page_of_source (request_before sortBy) (Z.to_nat (offset + limit))
    (projected false <$> matching p (concat (@concat Entry <$> pre)))
    (foldl (segment_top now p sortBy (offset + limit)) [] pre)) as Hstand.
  { intros pre suf E. rewrite E in Hsc. apply Forall_app in Hsc as [Hsc _].
    eapply (segments_top_source now p _ _ sortBy (offset + limit) eq_refl eq_refl Hpost pre [] []);
      [done | | apply page_source_refl].
    rewrite app_nil_l. eapply distinct_ids_submseteq; [| exact Hsd].
    rewrite E, fmap_app, concat_app, matching_app, fmap_app, <- app_assoc. by apply submseteq_inserts_r. }
  destruct (until_full_fold (fun _ => True) (fun out => MaxScanRows <=? len out)
    (fun cs seg out => scanSegment now cs seg (sv_dirs v (DirName seg)) p
       (visit_top (requestSortColumn sortBy) (offset + limit)) out) v
    (SegmentsInRange (sv_segments v) (default 0 (p_Start p)) (default 0 (p_End p))) groups
    (segment_top now p sortBy (offset + limit)) cs []) as (cs' & Hcs' & E & _).
  - intros cs0 seg bs acc _ Hcs0 Hh _. destruct (scan_top now p sortBy (offset + limit) (sv_dirs v) seg bs cs0 acc)
      as (cs1 & ? & ?); [done | done |]. by exists cs1.
  - intros pre suf E _. apply Z.leb_gt. destruct (Hstand pre suf E) as [Hs%submseteq_length _].
    pose proof (groups_prefix_len p pre suf v) as Hp. rewrite E in Hmax.
    rewrite length_fmap in Hs. unfold len in *. lia.
  - done.
  - done.
  - done.
  - rewrite E. destruct (Hstand groups [] (eq_sym (app_nil_r _))) as [Hs1 Hs2].
    rewrite add_unsealed_ok.
    2:{ apply submseteq_length in Hs1. unfold all_entries in Hmax. rewrite matching_app, len_app in Hmax.
        rewrite length_fmap in Hs1. unfold len in *. lia. }
    exists cs'. split; [done |]. rewrite cut_requests_ok by lia. do 3 f_equal.
    apply (page_source_app (request_before sortBy)); [done | by split | apply page_source_refl].
Qed.

(** ** Aggregates *)

Lemma float64_small n : Z.abs n < 2 ^ 53 -> float64 n = n.
Proof.
  intros Hn. unfold float64. rewrite (proj2 (Z.leb_le _ 0)); [done |].
  destruct (decide (n = 0)) as [-> | Hz]; [done |].
  enough (Z.log2 (Z.abs n) < 53) by lia. apply Z.log2_lt_pow2; lia.
Qed.

Definition agg_entry (agg : RequestAggregate) (e : Entry) : RequestAggregate :=
  if DurationMs e <=? 0 then agg
  else agg_add agg (DurationMs e) (DbCount e) (CacheHits e) (CacheMisses e).

Lemma sealed_int name (proj : Entry -> Z) e :
  switch name optional_int64_cases = Some proj -> stored_int (proj e) = proj e ->
  default 0 (optional_value name e) = proj e.
Proof.
  intros Hsw Hk. unfold optional_value. rewrite Hsw. unfold stored_int in Hk.
  destruct (0 <? proj e); [done | exact Hk].
Qed.

Lemma visit_requests_ok :
  visits (fun e => sealed e = e) visit_requests (fun s e => (s.1 + 1, agg_entry s.2 e)).
Proof.
  intros r es rows s Hes Hg Hin. pose proof (good_reads r es Hg) as Hr. unfold visit_requests.
  eapply runs_bind; [apply runs_plain, (sparseInt64_ok r es Hr "duration_ms"); reflexivity |].
  eapply runs_bind; [apply runs_plain, (sparseInt64_ok r es Hr "db_count"); reflexivity |].
  eapply runs_bind; [apply runs_plain, (sparseInt64_ok r es Hr "cache_hits"); reflexivity |].
  eapply runs_bind; [apply runs_plain, (sparseInt64_ok r es Hr "cache_misses"); reflexivity |].
  eapply runs_eq; [apply runs_ret |]. apply rows_fold; [done |]. intros [k agg] row e He Hrow.
  assert (entry_at es row = e) as Ee by (unfold entry_at; by rewrite He).
  assert (sealed e = e) as Hs.
  { rewrite list.Forall_forall in Hes. by eapply Hes, list_elem_of_lookup_2. }
  unfold agg_row, agg_entry. rewrite !int_at_value, Ee by done.
  rewrite (sealed_int "duration_ms" DurationMs), (sealed_int "db_count" DbCount),
    (sealed_int "cache_hits" CacheHits), (sealed_int "cache_misses" CacheMisses)
    by (reflexivity || by rewrite <- Hs at 2).
  cbn [fst snd]. by destruct (DurationMs e <=? 0).
Qed.

Definition sumZ {A} (f : A -> Z) (l : list A) : Z := foldr (fun x n => f x + n) 0 l.

Lemma sumZ_cons {A} (f : A -> Z) x l : sumZ f (x :: l) = f x + sumZ f l.
Proof. done. Qed.

Lemma sumZ_nonneg {A} (f : A -> Z) l : Forall (fun x => 0 <= f x) l -> 0 <= sumZ f l.
Proof. induction 1 as [| x l Hx H IH]; [done |]. rewrite sumZ_cons. lia. Qed.

(** The entries an aggregate is about. *)
Definition timed_requests (l : list Entry) : list Entry := filter (fun e => 0 < DurationMs e) l.

Definition cache_reads (e : Entry) : Z := CacheHits e + CacheMisses e.

Definition nonneg_counts (e : Entry) : Prop := 0 <= DbCount e /\ 0 <= CacheHits e /\ 0 <= CacheMisses e.

#[export] Instance nonneg_counts_dec e : Decision (nonneg_counts e).
Proof. unfold nonneg_counts. apply _. Defined.

Lemma timed_cons e l :
  timed_requests (e :: l) = if decide (0 < DurationMs e) then e :: timed_requests l else timed_requests l.
Proof. unfold timed_requests. by rewrite filter_cons. Qed.

Lemma agg_add_small agg d sql hits misses :
  0 <= ra_TotalDurationMs agg -> 0 <= ra_TotalSQLCount agg -> 0 <= ra_CacheReads agg -> 0 <= ra_CacheHits agg ->
  0 <= d -> 0 <= sql -> 0 <= hits -> 0 <= misses ->
  ra_TotalDurationMs agg + d < 2 ^ 53 -> ra_TotalSQLCount agg + sql < 2 ^ 53 ->
  ra_CacheReads agg + (hits + misses) < 2 ^ 53 -> ra_CacheHits agg + hits < 2 ^ 53 ->
  agg_add agg d sql hits misses =
    mkAggregate (ra_Count agg + 1) (ra_TotalDurationMs agg + d) (ra_TotalSQLCount agg + sql)
      (ra_CacheReads agg + (hits + misses)) (ra_CacheHits agg + hits) (ra_Truncated agg).
Proof.
  intros. unfold agg_add.
  rewrite (float64_small d), (float64_small sql), !float64_small by lia.
  rewrite (int64_small (hits + misses)), !int64_small by (unfold is_int64; lia). done.
Qed.

Lemma agg_fold agg l :
  0 <= ra_TotalDurationMs agg -> 0 <= ra_TotalSQLCount agg -> 0 <= ra_CacheReads agg -> 0 <= ra_CacheHits agg ->
  Forall nonneg_counts (timed_requests l) ->
  ra_TotalDurationMs agg + sumZ DurationMs (timed_requests l) < 2 ^ 53 ->
  ra_TotalSQLCount agg + sumZ DbCount (timed_requests l) < 2 ^ 53 ->
  ra_CacheReads agg + sumZ cache_reads (timed_requests l) < 2 ^ 53 ->
  ra_CacheHits agg + sumZ CacheHits (timed_requests l) < 2 ^ 53 ->
  foldl agg_entry agg l =
    mkAggregate (ra_Count agg + len (timed_requests l))
      (ra_TotalDurationMs agg + sumZ DurationMs (timed_requests l))
      (ra_TotalSQLCount agg + sumZ DbCount (timed_requests l))
      (ra_CacheReads agg + sumZ cache_reads (timed_requests l))
      (ra_CacheHits agg + sumZ CacheHits (timed_requests l)) (ra_Truncated agg).
Proof.
  revert agg. induction l as [| e l IH]; intros agg D S R H Hn.
  { intros _ _ _ _. destruct agg. cbn. by rewrite !Z.add_0_r. }
  cbn [foldl]. rewrite timed_cons in Hn |- *.
  unfold agg_entry at 2.
  destruct (Z.leb_spec (DurationMs e) 0) as [Hle | Hgt].
  { rewrite decide_False in Hn |- * by lia. by apply IH. }
  rewrite decide_True in Hn |- * by lia. apply Forall_cons in Hn as [(N1 & N2 & N3) Hn].
  assert (0 <= sumZ DurationMs (timed_requests l)) as P1.
  { apply sumZ_nonneg, list.Forall_forall. intros x [Hx _]%list_elem_of_filter. lia. }
  assert (0 <= sumZ DbCount (timed_requests l)) as P2
    by (eapply sumZ_nonneg, list.Forall_impl; [exact Hn | by intros x (? & ? & ?)]).
  assert (0 <= sumZ cache_reads (timed_requests l)) as P3
    by (eapply sumZ_nonneg, list.Forall_impl; [exact Hn | intros x (? & ? & ?); unfold cache_reads; lia]).
  assert (0 <= sumZ CacheHits (timed_requests l)) as P4
    by (eapply sumZ_nonneg, list.Forall_impl; [exact Hn | by intros x (? & ? & ?)]).
  rewrite !sumZ_cons, len_cons. unfold cache_reads at 1 3. intros.
  rewrite agg_add_small by lia.
  rewrite IH; cbn [ra_TotalDurationMs ra_TotalSQLCount ra_CacheReads ra_CacheHits ra_Count ra_Truncated]; try lia; [| done].
  f_equal; lia.
Qed.

Lemma matching_groups now p s t groups :
  p_Start p = Some s -> p_End p = Some t -> needsPostReadFilter p = false ->
  Forall (Forall (page_exact now p)) groups ->
  filter (fun e => candidate now p e = true) (concat (@concat Entry <$> groups)) =
    matching p (concat (@concat Entry <$> groups)).
Proof.
  intros Hs Ht Hpost H. induction H as [| bs groups Hb H IH]; [done |].
  cbn [fmap list_fmap concat]. rewrite filter_app, matching_app, IH. f_equal. clear -Hb Hs Ht Hpost TL.
  induction Hb as [| es bs Hx Hb IH]; [done |]. cbn [concat]. rewrite filter_app, matching_app, IH.
  f_equal. by apply (candidates_match now p es s t).
Qed.

Lemma scan_counted agg k l :
  foldl (fun s e => (s.1 + 1, agg_entry s.2 e)) (k, agg) l = (k + len l, foldl agg_entry agg l).
Proof.
  revert k agg. induction l as [| e l IH]; intros k agg; [by rewrite len_nil, Z.add_0_r |].
  cbn [foldl fst snd]. rewrite IH, len_cons. f_equal. lia.
Qed.

Lemma unsealed_fold p agg l :
  foldl (agg_unsealed p) agg l = foldl agg_entry agg (matching p l).
Proof.
  revert agg. induction l as [| e l IH]; intros agg; [done |].
  cbn [foldl]. rewrite IH. unfold matching. rewrite filter_cons.
  assert (agg_unsealed p agg e = if matchesParams e p then agg_entry agg e else agg) as ->
    by (unfold agg_unsealed; by destruct (matchesParams e p)).
  destruct (matchesParams e p); [by rewrite decide_True | by rewrite decide_False].
Qed.

Lemma AggregateRequests_ok now cs v q groups :
  let p := without_page (withDefaultRange now q) in
  let l := timed_requests (matching p (all_entries groups v)) in
  caches_ok cs -> needsPostReadFilter q = false ->
  Forall2 (segment_holds (sv_dirs v))
    (SegmentsInRange (sv_segments v) (default 0 (p_Start p)) (default 0 (p_End p))) groups ->
  Forall (Forall (page_exact now p)) groups ->
  len (matching p (all_entries groups v)) < MaxScanRows ->
  Forall nonneg_counts l ->
  sumZ DurationMs l < 2 ^ 53 -> sumZ DbCount l < 2 ^ 53 -> sumZ cache_reads l < 2 ^ 53 ->
  sumZ CacheHits l < 2 ^ 53 ->
  exists cs', caches_ok cs' /\
    AggregateRequests MaxScanRows now cs v q =
      (cs', Ok (mkAggregate (len l) (sumZ DurationMs l) (sumZ DbCount l) (sumZ cache_reads l)
                  (sumZ CacheHits l) false)).
Proof.
  intros p l Hcs Hpost Hseg Hx Hmax Hn H1 H2 H3 H4. unfold AggregateRequests. cbv zeta. fold p.
  set (f := fun (s : Z * RequestAggregate) e => (s.1 + 1, agg_entry s.2 e)).
  assert (Forall (Forall (fun e => sealed e = e)) (@concat Entry <$> groups)) as Hsealed.
  { pose proof (holds_scannable now p v _ groups Hseg Hx) as Hsc. clear -Hsc.
    induction Hsc as [| bs groups Hb Hsc IH]; [constructor |]. cbn [fmap list_fmap]. constructor; [| done].
    clear -Hb. induction Hb as [| es bs (Hes & _) Hb IH]; [constructor |]. cbn [concat].
    apply Forall_app. split; [| done]. eapply list.Forall_impl; [exact Hes |]. by intros e []. }
  assert (forall pre suf, groups = pre ++ suf ->
    foldl (fun acc bs => foldl f acc (filter (fun e => candidate now p e = true) (concat bs)))
      (0, RequestAggregate0) pre =
    (len (matching p (concat (@concat Entry <$> pre))),
     foldl agg_entry RequestAggregate0 (matching p (concat (@concat Entry <$> pre))))) as Hfold.
  { intros pre suf E. rewrite E in Hx. apply Forall_app in Hx as [Hx _].
    rewrite <- (matching_groups now p _ _ pre eq_refl eq_refl Hpost Hx).
    rewrite <- (Z.add_0_l (len _)), <- scan_counted. fold f.
    generalize (0, RequestAggregate0). clear. induction pre as [| bs pre IH]; intros s; [done |].
    cbn [foldl fmap list_fmap concat]. by rewrite IH, filter_app, foldl_app. }
  destruct (until_full_fold (fun _ => True) (fun s => MaxScanRows <=? s.1)
    (fun cs seg s => scanSegment now cs seg (sv_dirs v (DirName seg)) p visit_requests s) v
    (SegmentsInRange (sv_segments v) (default 0 (p_Start p)) (default 0 (p_End p))) groups
    (fun acc bs => foldl f acc (filter (fun e => candidate now p e = true) (concat bs)))
    cs (0, RequestAggregate0)) as (cs' & Hcs' & E & _).
  - intros cs0 seg bs acc _ Hcs0 Hh Hbs.
    destruct (scanSegment_ok (fun e => sealed e = e) now p (sv_dirs v) seg bs visit_requests f cs0 acc)
      as (cs1 & ? & ?); [apply visit_requests_ok | done | done | | by exists cs1].
    rewrite list.Forall_forall in Hsealed. apply Hsealed. by apply list_elem_of_fmap_2.
  - intros pre suf E _. rewrite (Hfold pre suf E). apply Z.leb_gt. cbn [fst].
    pose proof (groups_prefix_len p pre suf v). rewrite E in Hmax. lia.
  - done.
  - done.
  - done.
  - rewrite E, (Hfold groups [] (eq_sym (app_nil_r _))). exists cs'. split; [done |].
    rewrite unsealed_fold, <- foldl_app, <- matching_app. fold (all_entries groups v).
    rewrite agg_fold; [done | done .. |].
    all: done.
Qed.
End RequestLemmas.

(** ** Properties *)

Section RequestProperties.
Context {C : Zstd} {L : ZstdLaws C} {W : World} {U : Unicode} {T : Text} {TL : TextLaws T} {J : BodyJSON}.

(** C10: The slowest requests of a range are the slowest of the whole range, for queries without
    metadata or exclusion filters (which this path does not apply to sealed rows) and with filter
    values that no row equals up to case only ([page_exact]): below the row cap, and whatever the
    caches hold, [SearchRequests] returns the entries from the offset on, at most the limit, of
    all entries that match - of the segments in range, read without their bodies, and of the
    unsealed logs - in descending order of the metric with ties by ID.  Each chunk is narrowed
    to its own best rows by the metric's column alone, and that changes nothing. *)
Theorem search_requests_exact (MaxScanRows now : Z) (cs : Caches) (v : StoreView) (q : SearchParams)
  (sortBy : string) (limit offset : Z) (groups : list (list (list Entry))) :
  let p := without_page (withDefaultRange now q) in
  0 < limit -> 0 <= offset -> caches_ok cs -> needsPostReadFilter q = false ->
  Forall2 (segment_holds (sv_dirs v))
    (SegmentsInRange (sv_segments v) (default 0 (p_Start p)) (default 0 (p_End p))) groups ->
  Forall (Forall (page_exact now p)) groups -> distinct_ids (all_entries groups v) ->
  len (matching p (all_entries groups v)) < MaxScanRows ->
  exists cs', caches_ok cs' /\
    SearchRequests MaxScanRows now cs v q sortBy limit offset =
      (cs', Ok (drop (Z.to_nat offset) (take (Z.to_nat (offset + limit))
        (sortRequestEntries (shown_requests p groups v) sortBy)))).
Proof. apply SearchRequests_ok. Qed.

(** Aggregates over a range are exact: below the row cap, and while the sums stay
    within the integers a float64 holds exactly, [AggregateRequests] reports the number
    of matching entries with a duration, sealed or not, and the sums of their
    durations, query counts, cache hits and cache reads, untruncated. *)
Theorem aggregate_requests_exact (MaxScanRows now : Z) (cs : Caches) (v : StoreView) (q : SearchParams)
  (groups : list (list (list Entry))) :
  let p := without_page (withDefaultRange now q) in
  let l := timed_requests (matching p (all_entries groups v)) in
  caches_ok cs -> needsPostReadFilter q = false ->
  Forall2 (segment_holds (sv_dirs v))
    (SegmentsInRange (sv_segments v) (default 0 (p_Start p)) (default 0 (p_End p))) groups ->
  Forall (Forall (page_exact now p)) groups ->
  len (matching p (all_entries groups v)) < MaxScanRows ->
  Forall nonneg_counts l ->
  sumZ DurationMs l < 2 ^ 53 -> sumZ DbCount l < 2 ^ 53 -> sumZ cache_reads l < 2 ^ 53 ->
  sumZ CacheHits l < 2 ^ 53 ->
  exists cs', caches_ok cs' /\
    AggregateRequests MaxScanRows now cs v q =
      (cs', Ok (mkAggregate (len l) (sumZ DurationMs l) (sumZ DbCount l) (sumZ cache_reads l)
                  (sumZ CacheHits l) false)).
Proof. apply AggregateRequests_ok. Qed.

End RequestProperties.

(** ** Witnesses *)

(** The sample segment alone, and its timed entries. *)
Definition requests_view : StoreView :=
  mkView [sealed_segment 1 493000 (stored (C := stored_codec) true <$> paged_log)]
    (fun _ => sample_dir) [].

Definition requests_query : SearchParams :=
  mkParams [] [] [] [] [] [] [] [] [] [] [] [] [] [] [] [] 0 true 0 false false ∅ ∅
    (Some (1774799000 * 1000000000)) (Some (1774801000 * 1000000000)) 0 0 0 false false.

Lemma requests_segment :
  Forall2 (segment_holds (C := stored_codec) (W := sample_world) (U := ascii_unicode) (sv_dirs requests_view))
    (SegmentsInRange (sv_segments requests_view) (1774799000 * 1000000000) (1774801000 * 1000000000))
    [sample_groups].
Proof.
  replace (SegmentsInRange _ _ _) with
    [sealed_segment 1 493000 (stored (C := stored_codec) true <$> paged_log)] by (by vm_compute).
  constructor; [| constructor]. destruct sample_sealed.
  by apply (sealed_segment_holds (C := stored_codec) (W := sample_world) (U := ascii_unicode)
    (MJ := sample_json) true 1 493000 paged_log []).
Qed.

Lemma search_requests_exact_witness :
  exists cs', SearchRequests (C := stored_codec) (U := ascii_unicode) (T := ascii_text) (J := no_json)
    500000 0 (mkCaches None None) requests_view requests_query "duration_ms" 1 1 =
    (cs', Ok (projected false <$> drop 1 (stored (C := stored_codec) true <$> paged_log))).
Proof.
  destruct (search_requests_exact (C := stored_codec) (W := sample_world) (U := ascii_unicode)
    (T := ascii_text) (J := no_json) 500000 0 (mkCaches None None) requests_view requests_query
    "duration_ms" 1 1 [sample_groups]) as (cs' & _ & E).
  - done.
  - done.
  - by split.
  - by vm_compute.
  - apply requests_segment.
  - repeat constructor; vm_compute; congruence.
  - apply (bool_decide_unpack _). by vm_compute.
  - by vm_compute.
  - exists cs'. rewrite E. apply (f_equal (fun l => (cs', Ok l))). vm_compute. reflexivity.
Defined.

Lemma aggregate_requests_exact_witness :
  exists cs' agg, AggregateRequests (C := stored_codec) (U := ascii_unicode) (T := ascii_text) (J := no_json)
    500000 0 (mkCaches None None) requests_view requests_query = (cs', Ok agg) /\ ra_Count agg = 2.
Proof.
  destruct (aggregate_requests_exact (C := stored_codec) (W := sample_world) (U := ascii_unicode)
    (T := ascii_text) (J := no_json) 500000 0 (mkCaches None None) requests_view requests_query
    [sample_groups]) as (cs' & _ & E).
  - by split.
  - by vm_compute.
  - apply requests_segment.
  - repeat constructor; vm_compute; congruence.
  - by vm_compute.
  - apply (bool_decide_unpack _). by vm_compute.
  - by vm_compute.
  - by vm_compute.
  - by vm_compute.
  - by vm_compute.
  - eexists cs', _. split; [exact E |]. by vm_compute.
Defined.
