(* ===== verification/Lookups.v ===== *)
(** * Point lookups and distinct values (engine/store.go)

    [GetByID] goes from a composite ID to its segment, chunk and row, or walks the
    unsealed logs; [DistinctValues] reads the segments' dictionaries or scans one
    column.  Main results: every entry of the store is found under its ID and
    no other ID finds anything, and the distinct values are those of the entries in
    scope, sorted. *)

From stdpp Require Import base list gmap strings numbers sorting.
From Stdlib Require Import ZArith Lia.
From S2P Require Import Prelude Zstd Schema Wal Chunk Cache Rows Index Times Ids Seal Segments TopN Pages Query Filter Search Paging WalCache Counts Requests.

Definition ErrEntryNotFound : gerror := Sentinel "log entry not found".

Section Lookups.
Context {C : Zstd} {U : Unicode} {T : Text} {J : BodyJSON}.

(** ** One entry *)

Definition findInWALs (wals : list Entry) (id : Z) : result Entry :=
  match walk (fun found e => if ID e =? id then (Some e, false) else (found, true)) None wals with
  | None => Err (Wrapf "entry ID" ErrEntryNotFound)
  | Some e => Ok e
  end.

(** The segments and the unsealed logs are looked at one after the other, so they are
    separate arguments. *)
Definition GetByID (segments : list LoadedSegment) (dirs : bytes -> Dir) (wals : list Entry)
  (cs : Caches) (id : Z) : Caches * result Entry :=
  match FindSegmentByID segments id with
  | Panic => (cs, Panic)
  | Err e => (cs, Err e)
  | Ok None => (cs, findInWALs wals id)
  | Ok (Some seg) =>
      match locatePhysicalChunk (Meta seg) id with
      | None => (cs, Err (Wrapf "entry ID" ErrEntryNotFound))
      | Some (chunkNum, row) =>
          match dirs (DirName seg) !! chunk_name chunkNum with
          | None => (cs, Err (Wrapf "entry ID" ErrEntryNotFound))
          | Some file =>
              match OpenReader file with
              | Panic => (cs, Panic)
              | Err e => (cs, Err (Wrapf "open chunk" e))
              | Ok r =>
                  if EntryCount r <=? row then (cs, Err (Wrapf "entry ID" ErrEntryNotFound))
                  else
                    let chunkPath := path_in (DirName seg) (chunk_name chunkNum) in
                    match fillEntryFromChunk (newCachedChunkColumns r (columns cs) chunkPath) row with
                    | Panic => (cs, Panic)
                    | Err e => (cs, Err e)
                    | Ok (cols, e, None) => (mkCaches (shared cols) (indexes cs), Ok e)
                    | Ok (cols, _, Some err) => (mkCaches (shared cols) (indexes cs), Err err)
                    end
              end
          end
      end
  end.

Definition GetBody (segments : list LoadedSegment) (dirs : bytes -> Dir) (wals : list Entry)
  (cs : Caches) (id : Z) : Caches * result bytes :=
  match GetByID segments dirs wals cs id with
  | (cs, Ok entry) => (cs, Ok (Body entry))
  | (cs, Err e) => (cs, Err e)
  | (cs, Panic) => (cs, Panic)
  end.

(** ** Distinct values *)

Definition maxDistinctValues : Z := 100000.

(** [len(seen)] *)
Definition set_len (seen : gset bytes) : Z := Z.of_nat (base.size seen).

Definition sortedKeys (seen : gset bytes) : list bytes := merge_sort str_le (elements seen).

Definition see (v : bytes) (seen : gset bytes) : gset bytes := if nonempty v then {[v]} ∪ seen else seen.

Definition dictColumnReader (column : string) : scan_m (list bytes) :=
  if bool_decide (column = "level") then plain dictBitpack "level"
  else if bool_decide (column = "event_type") then plain sparseStrings "event_type"
  else plain dictZstd column.

(** The rows of a chunk for a dictionary column. *)
Definition visit_dict (column : string) (rows : list Z) (seen : gset bytes) : scan_m (gset bytes) :=
  values ← dictColumnReader column;
  mret (foldl (fun seen row =>
    match value_at values row with Some v => see v seen | None => seen end) seen rows).

Definition distinct_params (start stop : Z) (service level environment : bytes) : SearchParams :=
  scope_params start stop service level environment.

Definition distinctDictValues (now : Z) (cs : Caches) (v : StoreView) (column : string) (start stop : Z)
  (service level environment : bytes) : Caches * result (list bytes) :=
  let params := distinct_params start stop service level environment in
  let filtered := nonempty service || nonempty level || nonempty environment in
  let shortcut (seg : LoadedSegment) (meta : SegmentMeta) :=
    if negb filtered then
      Some (fun seen => foldl (fun seen v => see v seen) seen (default [] (Dicts meta !! str column)))
    else None in
  match for_segments now cs v params shortcut (visit_dict column)
          (SegmentsInRange (sv_segments v) start stop) ∅ with
  | (cs, Ok seen) =>
      let seen :=
        walk (fun seen e =>
          if negb (matchesParams e params) then (seen, true)
          else
            let seen := see (dictColumnValue e (str column)) seen in
            (seen, set_len seen <? maxDistinctValues)) seen (wal_entries v) in
      (cs, Ok (sortedKeys seen))
  | (cs, Err e) => (cs, Err e)
  | (cs, Panic) => (cs, Panic)
  end.

(** The rows of a chunk for a scanned column: it stops at the cap. *)
Fixpoint distinct_rows_loop (values : list bytes) (rows : list Z) (seen : gset bytes) (full : bool)
  : gset bytes * bool :=
  match rows with
  | [] => (seen, full)
  | row :: rows =>
      match value_at values row with
      | Some v =>
          if nonempty v then
            let seen := {[v]} ∪ seen in
            if maxDistinctValues <=? set_len seen then (seen, true)
            else distinct_rows_loop values rows seen full
          else distinct_rows_loop values rows seen full
      | None => distinct_rows_loop values rows seen full
      end
  end.

Definition visit_scanned (column : string) (rows : list Z) (s : gset bytes * bool)
  : scan_m (gset bytes * bool) :=
  values ← plain sparseStrings column;
  mret (distinct_rows_loop values rows s.1 s.2).

(** One segment: [full] starts false, and is not looked at after an error. *)
Definition distinct_segment (now : Z) (v : StoreView) (params : SearchParams) (column : string)
  (cs : Caches) (seg : LoadedSegment) (s : gset bytes * bool) : Caches * (gset bytes * bool) * result unit :=
  match scanSegment now cs seg (sv_dirs v (DirName seg)) params (visit_scanned column) (s.1, false) with
  | (cs, (seen, full), Ok _) => (cs, (seen, full), Ok tt)
  | (cs, (seen, _), r) => (cs, (seen, false), r)
  end.

Definition DistinctValues (now : Z) (cs : Caches) (v : StoreView) (column : string) (start stop : Z)
  (service level environment : bytes) : Caches * result (list bytes) :=
  if bool_decide (column = "service") || bool_decide (column = "level") || bool_decide (column = "env")
     || bool_decide (column = "event_type")
  then distinctDictValues now cs v column start stop service level environment
  else if negb (scanColumnValue Entry0 (str column)).2
  then (cs, Err (Errorf "distinct values not supported for column"))
  else
    let params := distinct_params start stop service level environment in
    match until_full snd (distinct_segment now v params column)
            (SegmentsInRange (sv_segments v) start stop) cs (∅, false) with
    | (cs, Ok ((seen, _), _)) =>
        let seen :=
          if set_len seen <? maxDistinctValues then
            walk (fun seen e =>
              if negb (matchesParams e params) then (seen, true)
              else
                let seen := see (scanColumnValue e (str column)).1 seen in
                (seen, set_len seen <? maxDistinctValues)) seen (wal_entries v)
          else seen in
        (cs, Ok (sortedKeys seen))
    | (cs, Err e) => (cs, Err e)
    | (cs, Panic) => (cs, Panic)
    end.

End Lookups.

(** ** Locating *)

(** What [locatePhysicalChunk] points at has the ID it was asked for. *)
Lemma locate_groups_id h phys start ci bs id n row :
  0 <= h < 2 ^ 32 -> 0 <= start -> start + len (concat bs) <= MaxEntriesPerSegment ->
  cut_ok phys start bs -> ids_from h start (concat bs) -> locate_in (group_metas ci bs) id = Some (n, row) ->
  exists k b e, bs !! k = Some b /\ n = ci + Z.of_nat k /\ 0 <= row /\ b !! Z.to_nat row = Some e /\ ID e = id.
Proof.
  intros Hh. revert start ci. induction bs as [| b bs IH]; intros start ci Hs Hm Hcut Hids Hl; [done |].
  cbn [concat] in *. destruct Hcut as (Hne & Hphys & Hrem & Hcut).
  rewrite len_app in Hm. apply ids_from_app in Hids as [Hids1 Hids2]. len_pose.
  destruct (group_ids h start b) as [Hrange Hlast]; [done | done | lia | done | done | done |].
  assert (1 <= len b) as Hlen by (destruct b; [done | rewrite len_cons; len_pose; lia]).
  assert (cm_IDRange (group_meta ci b) =
    (IDForPosition h start, IDForPosition h (start + len b - 1))) as Hrange' by exact Hrange.
  unfold locate_in in Hl. cbn [group_metas list_find] in Hl. case_decide as Hin.
  - cbn [mbind option_bind fst snd] in Hl. rewrite Hrange' in Hl, Hin. cbn [fst snd Index group_meta] in Hl, Hin.
    pose proof (IDForPosition_range h start Hh ltac:(lia)) as Hr1.
    pose proof (IDForPosition_range h (start + len b - 1) Hh ltac:(lia)) as Hr2.
    rewrite int64_small in Hl by (unfold is_int64; lia). injection Hl as <- <-.
    set (j := id - IDForPosition h start).
    destruct (lookup_lt_is_Some_2 b (Z.to_nat j)) as [e He]; [unfold len in *; lia |].
    exists 0%nat, b, e. split; [done |]. split; [lia |]. split; [lia |]. split; [done |].
    rewrite (Hids1 _ _ He). rewrite IDForPosition_offset by lia. lia.
  - destruct (list_find _ (group_metas (ci + 1) bs)) as [[m cm] |] eqn:Ef; [| done].
    destruct (IH (start + len b) (ci + 1)) as (k & b' & e & Hk & -> & Hrest); [lia | lia | done | done | |].
    { unfold locate_in. rewrite Ef. exact Hl. }
    exists (S k), b', e. split; [done |]. split; [lia | done].
Qed.

Lemma locate_segment_id s h es id n row :
  0 <= h < 2 ^ 32 -> len es <= MaxEntriesPerSegment -> ids_from h 0 es ->
  locatePhysicalChunk (Some (segment_meta s h es)) id = Some (n, row) ->
  exists k b e, row_groups (effectiveSealChunkEntries s) es !! k = Some b /\ n = Z.of_nat k /\ 0 <= row /\
    b !! Z.to_nat row = Some e /\ ID e = id.
Proof.
  intros Hh Hm Hids Hl. pose proof (effective_range s) as Hp.
  pose proof (row_groups_concat _ es Hp) as Ec. pose proof (row_groups_cut _ es Hp) as Hcut.
  cbn [locatePhysicalChunk] in Hl. rewrite segment_meta_chunks in Hl.
  destruct (locate_groups_id h (effectiveSealChunkEntries s) 0 0
    (row_groups (effectiveSealChunkEntries s) es) id n row) as (k & b & e & H); rewrite ?Ec; try done.
  by exists k, b, e.
Qed.

Section LookupLemmas.
Context {C : Zstd} {L : ZstdLaws C} {W : World} {U : Unicode} {T : Text} {TL : TextLaws T} {J : BodyJSON} {MJ : MetaJSON}.

Lemma findInWALs_ok wals id :
  match findInWALs wals id with
  | Ok e => e ∈ wals /\ ID e = id
  | Err err => err = Wrapf "entry ID" ErrEntryNotFound /\ id ∉ ID <$> wals
  | Panic => False
  end.
Proof.
  unfold findInWALs. induction wals as [| e wals IH]; [split; [done |]; apply not_elem_of_nil |].
  cbn [walk]. destruct (Z.eqb_spec (ID e) id) as [E | E].
  - split; [left | done].
  - destruct (walk _ None wals) as [x |].
    + destruct IH as [H1 H2]. split; [by right | done].
    + destruct IH as [H1 H2]. split; [done |]. rewrite fmap_cons, not_elem_of_cons. by split.
Qed.

(** A registered segment as [Seal] left it, with the rows it holds. *)
Definition holds_rows (dirs : bytes -> Dir) (seg : LoadedSegment) (rows : list Entry) : Prop :=
  exists cb s es torn, rows = stored cb <$> es /\ sealed_in cb s (Hour seg) es torn dirs /\
    seg = sealed_segment s (Hour seg) (stored cb <$> es).

Lemma stored_ids cb es h i e :
  ids_from h 0 (stored cb <$> es) -> (stored cb <$> es) !! i = Some e ->
  ID e = IDForPosition h (Z.of_nat i).
Proof. intros H Hi. by rewrite (H i e Hi). Qed.

Lemma rows_hour dirs seg rows e :
  holds_rows dirs seg rows -> e ∈ rows -> (DecodeID (ID e)).1.1 = Hour seg.
Proof.
  intros (cb & s & es & torn & -> & [? Hh Hl _ _ Hids _ _ _] & _) [i Hi]%list_elem_of_lookup_1.
  pose proof (lookup_lt_Some _ _ _ Hi) as Hlt. rewrite length_fmap in Hlt.
  rewrite (stored_ids cb es (Hour seg) i e Hids Hi).
  rewrite IDForPosition_decode; [done | done |]. unfold len in Hl. lia.
Qed.

(** Reading a located row. *)
Lemma GetByID_row segs dirs wals cs seg cb s es torn k b row e :
  caches_ok cs -> FindSegmentByID segs (ID e) = Ok (Some seg) ->
  sealed_in cb s (Hour seg) es torn dirs -> seg = sealed_segment s (Hour seg) (stored cb <$> es) ->
  row_groups (effectiveSealChunkEntries s) (stored cb <$> es) !! k = Some b ->
  0 <= row -> b !! Z.to_nat row = Some e ->
  locatePhysicalChunk (Meta seg) (ID e) = Some (Z.of_nat k, row) ->
  exists cs', caches_ok cs' /\ GetByID segs dirs wals cs (ID e) = (cs', Ok e).
Proof.
  intros Hcs Hfind Hin Hseg Hk Hrow Hb Hloc.
  assert (segment_holds dirs seg (row_groups (effectiveSealChunkEntries s) (stored cb <$> es))) as Hh.
  { destruct Hin. rewrite Hseg. by apply (sealed_segment_holds cb s (Hour seg) es torn). }
  destruct Hh as (meta & Hmeta & Hch). rewrite Hseg in Hmeta. injection Hmeta as <-.
  rewrite segment_meta_chunks in Hch.
  assert (exists cm, group_metas 0 (row_groups (effectiveSealChunkEntries s) (stored cb <$> es)) !! k = Some cm /\
    Index cm = Z.of_nat k) as (cm & Hcm & Hix).
  { clear -Hk. assert (forall bs ci, bs !! k = Some b -> exists cm, group_metas ci bs !! k = Some cm /\
      Index cm = ci + Z.of_nat k) as H.
    { clear Hk. induction k as [| k IH]; intros [| b0 bs] ci Hk; try done; cbn [group_metas lookup list_lookup] in *.
      - eexists. split; [done |]. cbn. lia.
      - destruct (IH bs (ci + 1) Hk) as (cm & H1 & H2). exists cm. split; [done | lia]. }
    destruct (H _ 0 Hk) as (cm & H1 & H2). by exists cm. }
  destruct (Forall2_lookup_l _ _ _ _ _ Hch Hcm) as (b' & Hb' & Hp & _ & colFile & idxFile & Hcol & _ & [(r & Ho & Hn & Hg) _ _ Hrows _]).
  rewrite Hk in Hb'. injection Hb' as <-. rewrite Hix in Hp, Hcol.
  unfold GetByID. rewrite Hfind, Hloc, Hcol, Ho.
  pose proof (lookup_lt_Some _ _ _ Hb) as Hlt.
  rewrite Hn, (proj2 (Z.leb_gt _ _)) by (unfold len; lia).
  rewrite list.Forall_forall in Hrows. destruct (Hrows e) as [Hs Hi]; [by eapply list_elem_of_lookup_2 |].
  destruct (fillEntry_ok r b (good_reads r b Hg) row e Hrow Hb
    (newCachedChunkColumns r (columns cs) (path_in (DirName seg) (chunk_name (Z.of_nat k)))) true) as (cols & E & Hc);
    [| done |].
  - apply newCachedChunkColumns_ok. intros sh Hsh. split; [exact Hp |]. by apply (proj1 Hcs).
  - unfold fillEntryFromChunk. rewrite E, Hs. exists (mkCaches (shared cols) (indexes cs)). split; [| done].
    apply (cols_caches r b); [done |]. apply Hcs.
Qed.

Lemma segment_map_elem segs seg :
  hours_sorted segs -> (segment_map segs !! Hour seg = Some seg <-> seg ∈ segs).
Proof.
  intros Hs. split.
  - induction segs as [| s segs IH]; [done |]. rewrite segment_map_cons. intros Hl.
    destruct (decide (Hour s = Hour seg)) as [E | E].
    + rewrite E, lookup_insert_eq in Hl. injection Hl as ->. left.
    + rewrite lookup_insert_ne in Hl by done. right. apply IH; [| done]. by apply StronglySorted_cons in Hs as [_ ?].
  - induction segs as [| s segs IH]; [by intros ?%not_elem_of_nil |].
    apply StronglySorted_cons in Hs as [Hf Hs]. rewrite segment_map_cons, elem_of_cons.
    intros [-> | Hin]; [by rewrite lookup_insert_eq |]. rewrite list.Forall_forall in Hf.
    specialize (Hf seg Hin). cbn beta in Hf. rewrite lookup_insert_ne by lia. by apply IH.
Qed.

Lemma GetByID_ok segs dirs wals cs rows :
  hours_sorted segs -> Forall2 (holds_rows dirs) segs rows -> caches_ok cs -> distinct_ids wals ->
  Forall (fun e => segment_map segs !! (DecodeID (ID e)).1.1 = None) wals ->
  (forall e, e ∈ concat rows ++ wals ->
    exists cs', caches_ok cs' /\ GetByID segs dirs wals cs (ID e) = (cs', Ok e)) /\
  (forall id, id ∉ ID <$> (concat rows ++ wals) ->
    exists err, GetByID segs dirs wals cs id = (cs, Err err) /\ ErrIs err ErrEntryNotFound = true).
Proof.
  intros Hsort H Hcs Hd Hw. split.
  - intros e [He | He]%elem_of_app.
    + assert (exists seg l, seg ∈ segs /\ holds_rows dirs seg l /\ e ∈ l) as (seg & l & Hseg & Hl & Hel).
      { clear -H He. induction H as [| seg l segs rows Hl H IH]; [by apply not_elem_of_nil in He |].
        cbn [concat] in He. apply elem_of_app in He as [He | He]; [exists seg, l; split; [left | done] |].
        destruct (IH He) as (seg' & l' & H1 & H2). exists seg', l'. split; [by right | done]. }
      pose proof (rows_hour dirs seg l e Hl Hel) as Hhour.
      destruct Hl as (cb & s & es & torn & -> & Hin & Hsg).
      apply list_elem_of_lookup_1 in Hel as [i Hi]. pose proof Hin as [_ Hh Hlen _ _ Hids _ _ _].
      destruct (locate_segment s (Hour seg) (stored cb <$> es) i e) as (k & b & j & Hk & Hj & Hloc);
        [done | by rewrite len_fmap | done | done |].
      apply (GetByID_row segs dirs wals cs seg cb s es torn k b (Z.of_nat j) e); try done.
      * rewrite FindSegmentByID_lemma, Hhour by done. f_equal. by apply segment_map_elem.
      * lia.
      * by rewrite Nat2Z.id.
      * by rewrite Hsg at 1.
    + exists cs. split; [done |]. unfold GetByID. rewrite FindSegmentByID_lemma by done.
      rewrite list.Forall_forall in Hw. rewrite (Hw e He).
      pose proof (findInWALs_ok wals (ID e)) as Hf. destruct (findInWALs wals (ID e)) as [x | |].
      * destruct Hf as [Hx E]. by rewrite (distinct_ids_inj wals x e).
      * destruct Hf as [_ Hn]. exfalso. apply Hn. by apply list_elem_of_fmap_2.
      * done.
  - intros id Hid. rewrite fmap_app, not_elem_of_app in Hid. destruct Hid as [Hid1 Hid2].
    unfold GetByID. rewrite FindSegmentByID_lemma by done.
    destruct (segment_map segs !! (DecodeID id).1.1) as [seg |] eqn:Eseg.
    + destruct (locatePhysicalChunk (Meta seg) id) as [[n row] |] eqn:Eloc; [| by eexists].
      exfalso. apply Hid1.
      assert (seg ∈ segs) as Hseg.
      { apply segment_map_elem; [done |]. rewrite <- Eseg. f_equal.
        assert (forall segs, segment_map segs !! (DecodeID id).1.1 = Some seg -> Hour seg = (DecodeID id).1.1) as Hhr.
        { clear. induction segs as [| s segs IH]; [done |]. rewrite segment_map_cons. intros Hl.
          destruct (decide (Hour s = (DecodeID id).1.1)) as [E | E].
          - rewrite E, lookup_insert_eq in Hl. by injection Hl as <-.
          - rewrite lookup_insert_ne in Hl by done. by apply IH. }
        by apply (Hhr segs). }
      apply list_elem_of_lookup_1 in Hseg as [i Hi].
      destruct (Forall2_lookup_l _ _ _ _ _ H Hi) as (l & Hl & cb & s & es & torn & -> & Hin & Hsg).
      rewrite Hsg in Eloc. pose proof Hin as [_ Hh Hlen _ _ Hids _ _ _].
      destruct (locate_segment_id s (Hour seg) (stored cb <$> es) id n row) as (k & b & e & Hk & _ & _ & Hb & <-);
        [done | by rewrite len_fmap | done | exact Eloc |].
      apply list_elem_of_fmap_2. apply list_elem_of_In, in_concat. exists (stored cb <$> es).
      rewrite <- !list_elem_of_In. split; [by eapply list_elem_of_lookup_2 |].
      rewrite <- (row_groups_concat (effectiveSealChunkEntries s) (stored cb <$> es) (effective_range s)).
      apply list_elem_of_In, in_concat. exists b. rewrite <- !list_elem_of_In.
      split; by eapply list_elem_of_lookup_2.
    + pose proof (findInWALs_ok wals id) as Hf. destruct (findInWALs wals id) as [x | |].
      * destruct Hf as [Hx E]. exfalso. apply Hid2. rewrite <- E. by apply list_elem_of_fmap_2.
      * destruct Hf as [-> _]. by eexists.
      * done.
Qed.

(** ** Distinct values *)

(** The values of a column in a list of entries. *)
Definition values_of (col : Entry -> bytes) (l : list Entry) : gset bytes :=
  list_to_set (filter (fun v => v <> []) (col <$> l)).

Lemma values_of_cons col e l : values_of col (e :: l) = see (col e) ∅ ∪ values_of col l.
Proof.
  unfold values_of, see, nonempty. rewrite fmap_cons, filter_cons.
  destruct (decide (col e = [])) as [-> | Hne].
  - rewrite decide_False by (intros H; by apply H). rewrite bool_decide_eq_true_2 by done. cbn. set_solver.
  - rewrite decide_True by done. rewrite bool_decide_eq_false_2 by done. cbn. set_solver.
Qed.

Lemma see_union v seen : see v seen = see v ∅ ∪ seen.
Proof. unfold see. destruct (nonempty v); set_solver. Qed.

Lemma values_of_app col l l' : values_of col (l ++ l') = values_of col l ∪ values_of col l'.
Proof. unfold values_of. by rewrite fmap_app, filter_app, list_to_set_app_L. Qed.

Lemma see_fold col l seen : foldl (fun seen e => see (col e) seen) seen l = values_of col l ∪ seen.
Proof.
  revert seen. induction l as [| e l IH]; intros seen; cbn [foldl]; [set_solver |].
  rewrite IH, values_of_cons, see_union. set_solver.
Qed.

Lemma set_len_mono (a b : gset bytes) : a ⊆ b -> set_len a <= set_len b.
Proof. intros H. unfold set_len. apply subseteq_size in H. lia. Qed.

(** A walk that stops at the cap never stops below it. *)
Lemma distinct_walk col p l seen :
  set_len (values_of col (matching p l) ∪ seen) < maxDistinctValues ->
  walk (fun seen e =>
    if negb (matchesParams e p) then (seen, true)
    else let seen := see (col e) seen in (seen, set_len seen <? maxDistinctValues)) seen l =
  values_of col (matching p l) ∪ seen.
Proof.
  revert seen. induction l as [| e l IH]; intros seen Hlt; cbn [walk]; [set_solver |].
  assert (matching p (e :: l) = if matchesParams e p then e :: matching p l else matching p l) as Em.
  { unfold matching. rewrite filter_cons. by destruct (matchesParams e p). }
  rewrite Em in Hlt |- *. clear Em. destruct (matchesParams e p); cbn [negb]; [| by apply IH].
  cbv zeta. rewrite values_of_cons in Hlt |- *. rewrite (see_union (col e) seen).
  assert (see (col e) ∅ ∪ values_of col (matching p l) ∪ seen =
    values_of col (matching p l) ∪ (see (col e) ∅ ∪ seen)) as E by set_solver.
  rewrite E in Hlt |- *.
  assert (set_len (see (col e) ∅ ∪ seen) < maxDistinctValues) as Hs.
  { eapply Z.le_lt_trans; [| exact Hlt]. apply set_len_mono. set_solver. }
  rewrite (proj2 (Z.ltb_lt _ _) Hs). by apply IH.
Qed.

(** The entries in scope, by the columns or by [matchesParams]. *)
Lemma scope_matches now start stop service level env e :
  matchesParams e (scope_params start stop service level env) =
    candidate now (scope_params start stop service level env) e.
Proof.
  rewrite (matches_candidate now _ start stop) by done.
  rewrite (matchesParams_columns now _ e start stop) by done.
  rewrite post_match_free by done. unfold candidate. rewrite wants_nil.
  change (exact_match (scope_params start stop service level env) e) with true.
  change (columns_match now (without_query (scope_params start stop service level env)) e) with
    (columns_match now (scope_params start stop service level env) e).
  by destruct (columns_match _ _ _).
Qed.

Definition dict_columns : list string := ["service"; "level"; "env"; "event_type"].

Definition scanned_columns : list string :=
  ["error_fingerprint"; "error_class"; "user_id"; "tenant_id"; "trace_id"; "request_id"; "path"; "handler"; "host"].

Lemma dict_column_value col e : col ∈ dict_columns -> string_value col e = dictColumnValue e (str col).
Proof.
  intros H.
  enough (Forall (fun col => forall e, string_value col e = dictColumnValue e (str col)) dict_columns) as HF
    by (rewrite list.Forall_forall in HF; by apply HF).
  repeat (apply Forall_cons; split; [intros; reflexivity |]). apply Forall_nil. exact I.
Qed.

Lemma scanned_column_value col e :
  col ∈ scanned_columns -> scanColumnValue e (str col) = (string_value col e, true).
Proof.
  intros H.
  enough (Forall (fun col => forall e, scanColumnValue e (str col) = (string_value col e, true)) scanned_columns) as HF
    by (rewrite list.Forall_forall in HF; by apply HF).
  repeat (apply Forall_cons; split; [intros; reflexivity |]). apply Forall_nil. exact I.
Qed.

Lemma scanned_column_reads r es col :
  col ∈ scanned_columns -> good_reader es r -> runs r es (plain sparseStrings col) (extractString es col).
Proof.
  intros H Hg. pose proof (good_reads r es Hg) as Hr.
  enough (Forall (fun col => runs r es (plain sparseStrings col) (extractString es col)) scanned_columns) as HF
    by (rewrite list.Forall_forall in HF; by apply HF).
  repeat (apply Forall_cons; split;
    [apply runs_plain; eapply (sparseStrings_ok r es Hr); [reflexivity | tauto] |]). apply Forall_nil. exact I.
Qed.

Lemma dict_column_reads r es col :
  col ∈ dict_columns -> good_reader es r -> runs r es (dictColumnReader col) (extractString es col).
Proof.
  intros H Hg. pose proof (good_reads r es Hg) as Hr.
  enough (Forall (fun col => runs r es (dictColumnReader col) (extractString es col)) dict_columns) as HF
    by (rewrite list.Forall_forall in HF; by apply HF).
  repeat (apply Forall_cons; split; [apply runs_plain |]); [| | | | apply Forall_nil; exact I].
  - apply (dictZstd_ok r es Hr "service"). reflexivity.
  - apply (dictBitpack_ok r es Hr "level"). reflexivity.
  - apply (dictZstd_ok r es Hr "env"). reflexivity.
  - eapply (sparseStrings_ok r es Hr "event_type"); [reflexivity | tauto].
Qed.

Lemma visit_dict_ok col :
  col ∈ dict_columns -> visits (fun _ => True) (visit_dict col) (fun seen e => see (string_value col e) seen).
Proof.
  intros Hcol r es rows acc _ Hg Hin. unfold visit_dict.
  eapply runs_bind; [by apply dict_column_reads |].
  eapply runs_eq; [apply runs_ret |]. apply rows_fold; [done |]. intros a row e He Hrow.
  change (extractString es col) with (string_value col <$> es).
  by rewrite (value_at_entry es (string_value col) row e).
Qed.

(** Below the cap the loop over a chunk's rows adds all their values. *)
Lemma distinct_rows_ok col es rows seen :
  rows_in es rows -> set_len (values_of (string_value col) (at_rows es rows) ∪ seen) < maxDistinctValues ->
  distinct_rows_loop (extractString es col) rows seen false =
    (values_of (string_value col) (at_rows es rows) ∪ seen, false).
Proof.
  change (extractString es col) with (string_value col <$> es).
  intros Hin. revert seen. induction Hin as [| row rows Hr Hin IH]; intros seen Hlt; cbn [distinct_rows_loop].
  { f_equal. cbn. set_solver. }
  pose proof (entry_at_in es row Hr) as He. rewrite (value_at_entry es (string_value col) row _ He Hr).
  rewrite (at_rows_cons es row rows _ He), values_of_cons in Hlt |- *. unfold see in *.
  destruct (nonempty (string_value col (entry_at es row))).
  - assert (forall v : bytes, {[v]} ∪ ∅ ∪ values_of (string_value col) (at_rows es rows) ∪ seen =
      values_of (string_value col) (at_rows es rows) ∪ ({[v]} ∪ seen)) as E by set_solver.
    rewrite E in Hlt |- *. cbv zeta. rewrite (proj2 (Z.leb_gt _ _)); [by apply IH |].
    eapply Z.le_lt_trans; [| exact Hlt]. apply set_len_mono. set_solver.
  - rewrite (left_id_L ∅ (∪)) in Hlt |- *. by apply IH.
Qed.

(** A segment with the row groups [bs] and the dictionaries sealing made of them. *)
Record dicted (v : StoreView) (seg : LoadedSegment) (bs : list (list Entry)) : Prop := {
  dc_holds : segment_holds (sv_dirs v) seg bs;
  dc_dicts : forall meta, Meta seg = Some meta -> forall k x,
    x ∈ default [] (Dicts meta !! k) <-> exists e, e ∈ concat bs /\ dict_value k e x
}.

Lemma dict_value_column col e x :
  col ∈ dict_columns -> (x <> [] /\ dict_value (str col) e x <-> x <> [] /\ x = string_value col e).
Proof.
  intros H.
  enough (Forall (fun col => x <> [] /\ dict_value (str col) e x <-> x <> [] /\ x = string_value col e) dict_columns)
    as HF by (rewrite list.Forall_forall in HF; by apply HF).
  unfold dict_value.
  repeat (apply Forall_cons; split; [cbn; naive_solver |]). apply Forall_nil. exact I.
Qed.

Lemma see_list_elem l seen x :
  x ∈ foldl (fun seen v => see v seen) seen l <-> (x <> [] /\ x ∈ l) \/ x ∈ seen.
Proof.
  revert seen. induction l as [| v l IH]; intros seen; cbn [foldl]; [set_solver |].
  rewrite IH, elem_of_cons. unfold see, nonempty. case_bool_decide; cbn [negb]; set_solver.
Qed.

Lemma values_of_elem col l x : x ∈ values_of col l <-> x <> [] /\ exists e, e ∈ l /\ x = col e.
Proof.
  unfold values_of. rewrite elem_of_list_to_set, list_elem_of_filter, list_elem_of_fmap. naive_solver.
Qed.

Lemma values_of_ext f g l : (forall e, f e = g e) -> values_of f l = values_of g l.
Proof.
  intros Hfg. apply set_eq. intros x. rewrite !values_of_elem. by setoid_rewrite Hfg.
Qed.

Lemma dictionary_values v seg bs col meta seen :
  col ∈ dict_columns -> dicted v seg bs -> Meta seg = Some meta ->
  foldl (fun seen v => see v seen) seen (default [] (Dicts meta !! str col)) =
    values_of (string_value col) (concat bs) ∪ seen.
Proof.
  intros Hcol [_ Hd] Hm. apply set_eq. intros x. rewrite see_list_elem, elem_of_union, values_of_elem.
  rewrite (Hd meta Hm). pose proof (fun e => dict_value_column col e x Hcol) as Hdv. naive_solver.
Qed.

Lemma for_segments_dicts (now : Z) (v : StoreView) (p : SearchParams) (col : string) (visit : list Z -> gset bytes -> scan_m (gset bytes))
  (segs : list LoadedSegment)  (groups : list (list (list Entry))) (cs : Caches) (seen : gset bytes) :
  col ∈ dict_columns -> Forall2 (dicted v) segs groups ->
  for_segments now cs v p (fun _ meta => Some (fun seen =>
      foldl (fun seen v => see v seen) seen (default [] (Dicts meta !! str col)))) visit segs seen =
    (cs, Ok (values_of (string_value col) (concat (@concat Entry <$> groups)) ∪ seen)).
Proof.
  intros Hcol H. revert seen. induction H as [| seg bs segs groups Hd H IH]; intros seen; cbn [for_segments].
  { do 2 f_equal. cbn. set_solver. }
  pose proof Hd as [(meta & Hm & _) _]. rewrite Hm, IH, (dictionary_values v seg bs) by done.
  do 2 f_equal. cbn [fmap list_fmap concat]. rewrite values_of_app. set_solver.
Qed.

(** The sealed entries a distinct query of a column is about: without a filter the
    dictionaries of the segments in range answer, whatever the time of their entries. *)
Definition distinct_scope (p : SearchParams) (dict filtered : bool) (sealed_entries : list Entry) : list Entry :=
  if dict && negb filtered then sealed_entries else matching p sealed_entries.

Lemma matching_scope now start stop service level env l :
  filter (fun e => candidate now (scope_params start stop service level env) e = true) l =
    matching (scope_params start stop service level env) l.
Proof. apply list_filter_iff. intros e. by rewrite (scope_matches now). Qed.

Lemma distinctDictValues_ok now cs v col start stop service level env groups :
  let p := scope_params start stop service level env in
  let l := distinct_scope p true (nonempty service || nonempty level || nonempty env)
             (concat (@concat Entry <$> groups)) ++ matching p (wal_entries v) in
  col ∈ dict_columns -> caches_ok cs ->
  Forall2 (dicted v) (SegmentsInRange (sv_segments v) start stop) groups ->
  set_len (values_of (string_value col) l) < maxDistinctValues ->
  exists cs', caches_ok cs' /\
    distinctDictValues now cs v col start stop service level env =
      (cs', Ok (sortedKeys (values_of (string_value col) l))).
Proof.
  intros p l Hcol Hcs H Hlen. unfold distinctDictValues, distinct_params. fold p.
  set (sealed_entries := concat (@concat Entry <$> groups)) in *.
  assert (exists cs' , caches_ok cs' /\
    for_segments now cs v p
      (fun _ meta => if negb (nonempty service || nonempty level || nonempty env) then
        Some (fun seen => foldl (fun seen v => see v seen) seen (default [] (Dicts meta !! str col))) else None)
      (visit_dict col) (SegmentsInRange (sv_segments v) start stop) ∅ =
    (cs', Ok (values_of (string_value col) (distinct_scope p true
      (nonempty service || nonempty level || nonempty env) sealed_entries)))) as (cs' & Hcs' & ->).
  { unfold distinct_scope. destruct (nonempty service || nonempty level || nonempty env); cbn [andb negb].
    - destruct (for_segments_ok eq (fun _ => True) now p v (fun _ _ => None) (visit_dict col)
        (fun seen e => see (string_value col e) seen) (SegmentsInRange (sv_segments v) start stop) groups cs ∅ ∅)
        as (cs' & acc & Hcs' & E & ->); try done.
      + apply _.
      + by intros a b e ->.
      + by apply visit_dict_ok.
      + eapply Forall2_impl; [exact H |]. intros seg bs Hc. apply Hc.
      + apply list.Forall_forall. intros bs _. by apply Forall_true.
      + eapply Forall2_impl; [exact H |]. done.
      + exists cs'. split; [done |]. rewrite E. do 2 f_equal. unfold p. rewrite matching_scope, see_fold.
        apply (right_id_L ∅ (∪)).
    - exists cs. split; [done |]. rewrite (for_segments_dicts now v p col (visit_dict col) _ groups) by done.
      do 2 f_equal. apply (right_id_L ∅ (∪)). }
  exists cs'. split; [done |]. do 3 f_equal. unfold l in *. rewrite values_of_app in *.
  rewrite (union_comm_L _ (values_of _ (matching _ _))) in *.
  rewrite (values_of_ext (string_value col) (fun e => dictColumnValue e (str col)) (matching p _)) in Hlen |- *
    by (intros e; by apply dict_column_value).
  by apply (distinct_walk (fun e => dictColumnValue e (str col))).
Qed.

(** The scan of one chunk for a column below the cap. *)
Definition add_values (now : Z) (p : SearchParams) (col : string) (s : gset bytes * bool) (es : list Entry)
  : gset bytes * bool :=
  (values_of (string_value col) (at_rows es (candidates now p es)) ∪ s.1, s.2).

Definition below (F : gset bytes) (s : gset bytes * bool) : Prop := s.1 ⊆ F /\ s.2 = false.

Lemma visits_scanned now p col F es :
  col ∈ scanned_columns -> set_len F < maxDistinctValues ->
  values_of (string_value col) (at_rows es (candidates now p es)) ⊆ F ->
  visits_chunk (below F) now p (visit_scanned col) (add_values now p col) es.
Proof.
  intros Hcol HF Hes r [seen full] c i [Hs Hf] _ Hg. cbn [fst snd] in *. subst full.
  unfold visit_scanned, add_values. cbn [fst snd]. split; [| split].
  - eapply runs_bind; [by apply scanned_column_reads |].
    eapply runs_eq; [apply runs_ret |]. apply distinct_rows_ok; [apply keep_in, rows_in_seq |].
    eapply Z.le_lt_trans; [| exact HF]. apply set_len_mono. set_solver.
  - intros ->. f_equal. cbn. set_solver.
  - split; cbn [fst snd]; [set_solver | done].
Qed.

Lemma add_values_fold now p col s bs :
  foldl (add_values now p col) s bs =
    (values_of (string_value col) (filter (fun e => candidate now p e = true) (concat bs)) ∪ s.1, s.2).
Proof.
  revert s. induction bs as [| es bs IH]; intros [seen full]; cbn [foldl concat].
  { cbn. f_equal. set_solver. }
  rewrite IH, filter_app, values_of_app. unfold add_values. cbn [fst snd].
  rewrite candidates_entries. f_equal. set_solver.
Qed.

Lemma scanned_segments now v start stop service level env col groups F cs segs :
  let p := scope_params start stop service level env in
  col ∈ scanned_columns -> caches_ok cs -> set_len F < maxDistinctValues ->
  values_of (string_value col) (matching p (concat (@concat Entry <$> groups))) = F ->
  Forall2 (segment_holds (sv_dirs v)) segs groups ->
  exists cs', caches_ok cs' /\
    until_full snd (distinct_segment now v p col) segs cs (∅, false) = (cs', Ok ((F, false), false)).
Proof.
  intros p Hcol Hcs HF HFe H.
  assert (forall pre, foldl (fun s bs => foldl (add_values now p col) s bs) (∅, false) pre =
    (values_of (string_value col) (matching p (concat (@concat Entry <$> pre))), false)) as Hfold.
  { intros pre. unfold p. rewrite <- (matching_scope now). fold p.
    transitivity (values_of (string_value col) (filter (fun e => candidate now p e = true)
      (concat (@concat Entry <$> pre))) ∪ (∅ : gset bytes, false).1, (∅ : gset bytes, false).2);
      [| cbn; f_equal; apply (right_id_L ∅ (∪))].
    generalize (∅ : gset bytes, false). induction pre as [| bs pre IH]; intros [seen full]; cbn [foldl].
    - cbn. f_equal. set_solver.
    - rewrite IH, add_values_fold. cbn [fmap list_fmap concat fst snd].
      rewrite filter_app, values_of_app. f_equal. set_solver. }
  destruct (until_full_fold (below F) snd (distinct_segment now v p col) v segs groups
    (fun s bs => foldl (add_values now p col) s bs) cs (∅, false)) as (cs' & Hcs' & E & _).
  - intros cs0 seg bs [seen full] [Hs Hf] Hcs0 Hh Hbs. cbn [fst snd] in *. subst full.
    unfold distinct_segment. cbn [fst].
    destruct (scanSegment_fold (below F) now p (sv_dirs v) seg bs (visit_scanned col) (add_values now p col)
      cs0 (seen, false)) as (cs1 & Hcs1 & E & HI).
    + by split.
    + apply list.Forall_forall. intros es Hes. apply visits_scanned; [done | done |].
      rewrite candidates_entries. unfold p. rewrite matching_scope. fold p. rewrite <- HFe. intros x.
      rewrite !values_of_elem. intros [Hx (e & He & ->)]. split; [done |]. exists e. split; [| done].
      unfold matching in *. apply list_elem_of_filter in He as [Hm He]. apply list_elem_of_filter.
      split; [done |]. apply list_elem_of_In, in_concat. exists (concat bs).
      rewrite <- !list_elem_of_In. split; [by apply list_elem_of_fmap_2 |].
      apply list_elem_of_In, in_concat. exists es. by rewrite <- !list_elem_of_In.
    + done.
    + done.
    + exists cs1. split; [done |]. rewrite E. destruct HI as [HI1 HI2].
      destruct (foldl _ _ bs) as [s f]. cbn [fst snd] in *. by subst f.
  - intros pre suf -> _. by rewrite Hfold.
  - split; [cbn; set_solver | done].
  - done.
  - done.
  - exists cs'. split; [done |]. by rewrite E, Hfold, HFe.
Qed.

Lemma DistinctValues_ok now cs v col start stop service level env groups :
  let p := scope_params start stop service level env in
  let dict := bool_decide (col ∈ dict_columns) in
  let l := distinct_scope p dict (nonempty service || nonempty level || nonempty env)
             (concat (@concat Entry <$> groups)) ++ matching p (wal_entries v) in
  col ∈ dict_columns ++ scanned_columns -> caches_ok cs ->
  Forall2 (dicted v) (SegmentsInRange (sv_segments v) start stop) groups ->
  set_len (values_of (string_value col) l) < maxDistinctValues ->
  exists cs', caches_ok cs' /\
    DistinctValues now cs v col start stop service level env =
      (cs', Ok (sortedKeys (values_of (string_value col) l))).
Proof.
  intros p dict l Hcol Hcs H Hlen. unfold DistinctValues.
  assert (bool_decide (col = "service") || bool_decide (col = "level") || bool_decide (col = "env")
     || bool_decide (col = "event_type") = dict) as ->.
  { unfold dict, dict_columns. repeat case_bool_decide; subst; try done; set_solver. }
  destruct dict eqn:Edict.
  { apply distinctDictValues_ok; [by apply bool_decide_eq_true in Edict | done | done | exact Hlen]. }
  assert (col ∈ scanned_columns) as Hscan.
  { apply bool_decide_eq_false in Edict. apply elem_of_app in Hcol as [? | ?]; done. }
  rewrite scanned_column_value by done. cbn [snd negb]. unfold distinct_params. fold p.
  unfold l, distinct_scope in *. cbn [andb] in *. rewrite values_of_app in *.
  set (F := values_of (string_value col) (matching p (concat (@concat Entry <$> groups)))) in *.
  assert (set_len F < maxDistinctValues) as HF.
  { eapply Z.le_lt_trans; [| exact Hlen]. apply set_len_mono. set_solver. }
  destruct (scanned_segments now v start stop service level env col groups F cs
    (SegmentsInRange (sv_segments v) start stop)) as (cs' & Hcs' & E); try done.
  { eapply Forall2_impl; [exact H |]. intros seg bs Hc. apply Hc. }
  fold p in E. rewrite E. exists cs'. split; [done |]. rewrite (proj2 (Z.ltb_lt _ _) HF). do 3 f_equal.
  rewrite (union_comm_L F) in *.
  rewrite (values_of_ext (string_value col) (fun e => (scanColumnValue e (str col)).1) (matching p _)) in Hlen |- *
    by (intros e; by rewrite scanned_column_value).
  by apply (distinct_walk (fun e => (scanColumnValue e (str col)).1)).
Qed.
End LookupLemmas.

(** ** Properties *)

Section LookupProperties.
Context {C : Zstd} {L : ZstdLaws C} {W : World} {U : Unicode} {T : Text} {TL : TextLaws T} {J : BodyJSON} {MJ : MetaJSON}.

(** What [Seal] registers has exact dictionaries. *)
Lemma sealed_dicted cb s h es torn v :
  sealed_in cb s h es torn (sv_dirs v) -> Forall arrived (stored cb <$> es) ->
  dicted v (sealed_segment s h (stored cb <$> es))
    (row_groups (effectiveSealChunkEntries s) (stored cb <$> es)).
Proof.
  intros [H1 H2 H3 H4 H5 H6 H7 H8 H9] Harr. split.
  - by apply (sealed_segment_holds cb s h es torn).
  - intros meta [= <-] k x. rewrite row_groups_concat by apply effective_range.
    apply segment_meta_dicts. eapply list.Forall_impl; [exact Harr |]. by intros e [].
Qed.


(** The distinct values of a supported column are exactly the non-empty ones of the
    entries in scope, each once and in order, as long as there are fewer than the cap:
    entries of the unsealed logs that match, and sealed entries that match - except
    that the dictionaries of a segment in range answer for all its entries when no
    filter is set. *)
Theorem distinct_values_exact (now : Z) (cs : Caches) (v : StoreView) (col : string) (start stop : Z)
  (service level env : bytes) (groups : list (list (list Entry))) :
  let p := scope_params start stop service level env in
  let l := distinct_scope p (bool_decide (col ∈ dict_columns))
             (nonempty service || nonempty level || nonempty env)
             (concat (@concat Entry <$> groups)) ++ matching p (wal_entries v) in
  col ∈ dict_columns ++ scanned_columns -> caches_ok cs ->
  Forall2 (dicted v) (SegmentsInRange (sv_segments v) start stop) groups ->
  set_len (values_of (string_value col) l) < maxDistinctValues ->
  exists cs' values, caches_ok cs' /\
    DistinctValues now cs v col start stop service level env = (cs', Ok values) /\
    (forall x, x ∈ values <-> x <> [] /\ exists e, e ∈ l /\ x = string_value col e) /\
    NoDup values /\ StronglySorted str_le values.
Proof.
  intros p l Hcol Hcs H Hlen.
  destruct (DistinctValues_ok now cs v col start stop service level env groups Hcol Hcs H Hlen)
    as (cs' & Hcs' & E). fold p in E. fold l in E.
  eexists cs', _. split; [done |]. split; [exact E |]. unfold sortedKeys. split; [| split].
  - intros x. by rewrite merge_sort_Permutation, elem_of_elements, values_of_elem.
  - rewrite merge_sort_Permutation. apply NoDup_elements.
  - apply StronglySorted_merge_sort; apply _.
Qed.

End LookupProperties.

(** ** Witnesses *)

Definition sample_segment : LoadedSegment :=
  sealed_segment 1 493000 (stored (C := stored_codec) true <$> paged_log).

(** An entry of the hour after the sample's, still in the log. *)
Definition live_entry : Entry := set ID (IDForPosition 493001 0) (stored (C := stored_codec) true sample_entry).


Lemma distinct_values_exact_witness :
  exists cs' values,
    DistinctValues (C := stored_codec) (U := ascii_unicode) (T := ascii_text) (J := no_json) 0
      (mkCaches None None) sample_view "level" sample_start sample_stop [] [] [] = (cs', Ok values) /\
    str "error" ∈ values.
Proof.
  destruct (distinct_values_exact (C := stored_codec) (W := sample_world) (U := ascii_unicode)
    (T := ascii_text) (J := no_json) 0 (mkCaches None None) sample_view "level" sample_start sample_stop
    [] [] [] [sample_groups]) as (cs' & values & _ & E & Hv & _).
  - by right; left.
  - by split.
  - rewrite sample_range. constructor; [| constructor].
    apply (sealed_dicted (C := stored_codec) (MJ := sample_json) true 1 493000 paged_log [] sample_view).
    + apply sample_sealed.
    + repeat constructor; vm_compute; congruence.
  - by vm_compute.
  - exists cs', values. split; [exact E |]. apply Hv. split; [done |].
    eexists. split; [apply elem_of_app; left; apply list_elem_of_lookup_2 with (i := 1%nat); by vm_compute |].
    by vm_compute.
Defined.
