(* ===== verification/IngestQueue.v ===== *)
(** * The ingest queue (internal/ingest/queue.go)

    A bounded buffer between the handlers and the store.  [Enqueue], [Flush] and [Stop]
    are translated as they are, over a store whose inserts may fail; [step] interleaves
    their critical sections as concurrent handlers, the flush loop and shutdown do.
    Main results: an acknowledged entry is buffered, being written, stored or counted
    as dropped, never lost silently and never stored twice; the buffer never exceeds its
    bound; and a flush against a store that works empties the buffer into it. *)

From stdpp Require Import base list gmap strings numbers sorting.
From Stdlib Require Import ZArith Lia.
From S2P Require Import Prelude.

Definition flushMaxAttempts : nat := 3.

(** [QueueConfig] without the flush interval, which is the ticker's. *)
Record QueueConfig := mkQueueConfig { MaxQueueSize : Z; MaxBatchSize : Z }.

(** The defaults of [NewQueue]. *)
Definition with_defaults (cfg : QueueConfig) : QueueConfig :=
  mkQueueConfig (if MaxQueueSize cfg <=? 0 then 10000 else MaxQueueSize cfg)
    (if MaxBatchSize cfg <=? 0 then 1000 else MaxBatchSize cfg).

Section Queue.
Context {E : Type}.

(** The queue and the store behind it: [inserted] is what the store has taken, and
    [calls] the number of [BatchInsert] calls so far. *)
Record Queue := mkQueue {
  maxQueueSize : Z;
  maxBatchSize : Z;
  buffer : list E;
  stopped : bool;
  flushCount : Z;
  overflowCount : Z;
  dropCount : Z;
  inserted : list E;
  calls : nat
}.

Definition NewQueue (cfg : QueueConfig) : Queue :=
  let cfg := with_defaults cfg in
  mkQueue (MaxQueueSize cfg) (MaxBatchSize cfg) [] false 0 0 0 [] 0.

Definition with_buffer (b : list E) (q : Queue) : Queue :=
  mkQueue (maxQueueSize q) (maxBatchSize q) b (stopped q) (flushCount q) (overflowCount q)
    (dropCount q) (inserted q) (calls q).

Definition with_store (ins : list E) (n : nat) (q : Queue) : Queue :=
  mkQueue (maxQueueSize q) (maxBatchSize q) (buffer q) (stopped q) (flushCount q) (overflowCount q)
    (dropCount q) ins n.

Definition count_flush (q : Queue) : Queue :=
  mkQueue (maxQueueSize q) (maxBatchSize q) (buffer q) (stopped q) (flushCount q + 1) (overflowCount q)
    (dropCount q) (inserted q) (calls q).

Definition count_overflow (q : Queue) : Queue :=
  mkQueue (maxQueueSize q) (maxBatchSize q) (buffer q) (stopped q) (flushCount q) (overflowCount q + 1)
    (dropCount q) (inserted q) (calls q).

Definition count_drop (n : Z) (q : Queue) : Queue :=
  mkQueue (maxQueueSize q) (maxBatchSize q) (buffer q) (stopped q) (flushCount q) (overflowCount q)
    (dropCount q + n) (inserted q) (calls q).

Definition with_stopped (q : Queue) : Queue :=
  mkQueue (maxQueueSize q) (maxBatchSize q) (buffer q) true (flushCount q) (overflowCount q)
    (dropCount q) (inserted q) (calls q).

Section Store.
(** Whether the n-th call of [BatchInsert] succeeds; one that fails stores nothing. *)
Context (works : nat -> bool).

Definition BatchInsert (q : Queue) (entries : list E) : Queue * result Z :=
  if works (calls q) then (with_store (inserted q ++ entries) (S (calls q)) q, Ok (len entries))
  else (with_store (inserted q) (S (calls q)) q, Err (Errorf "batch insert")).

(** [tryBuffer] under [q.mu]: the number enqueued and the depth. *)
Definition tryBuffer (q : Queue) (entries : list E) : Queue * option (Z * Z) :=
  if maxQueueSize q - len (buffer q) <? len entries then (q, None)
  else
    let q := with_buffer (buffer q ++ entries) q in
    (q, Some (len entries, len (buffer q))).

(** The attempts that are left. *)
Fixpoint insert_loop (attempts : nat) (q : Queue) (chunk : list E) (err : result Z) : Queue * result Z :=
  match attempts with
  | O => (q, err)
  | S attempts =>
      let '(q, r) := BatchInsert q chunk in
      let q := count_flush q in
      match r with
      | Ok n => (q, Ok n)
      | _ => insert_loop attempts q chunk r
      end
  end.

Definition insertWithRetry (q : Queue) (chunk : list E) : Queue * result Z :=
  insert_loop flushMaxAttempts q chunk (Ok 0).

Definition requeueOrDrop (q : Queue) (chunk : list E) : Queue :=
  if negb (stopped q) && (len chunk <=? maxQueueSize q - len (buffer q))
  then with_buffer (chunk ++ buffer q) q
  else count_drop (len chunk) q.

(** The first chunk of a batch and the rest. *)
Definition cut_chunk (q : Queue) (entries : list E) : list E * list E :=
  let stop := if len entries <? maxBatchSize q then len entries else maxBatchSize q in
  (take (Z.to_nat stop) entries, drop (Z.to_nat stop) entries).

(** Every round takes at least one entry. *)
Fixpoint flushBatch (fuel : nat) (q : Queue) (entries : list E) : Queue :=
  match fuel with
  | O => q
  | S fuel =>
      if len entries =? 0 then q
      else
        let '(chunk, entries) := cut_chunk q entries in
        let '(q, r) := insertWithRetry q chunk in
        let q := match r with Ok _ => q | _ => requeueOrDrop q chunk end in
        flushBatch fuel q entries
  end.

Definition Flush (q : Queue) : Queue :=
  if len (buffer q) =? 0 then q
  else
    let batch := buffer q in
    flushBatch (length batch) (with_buffer [] q) batch.

Definition Enqueue (q : Queue) (entries : list E) : Queue * result Z :=
  if len entries =? 0 then (q, Ok 0)
  else if stopped q then BatchInsert q entries
  else
    match tryBuffer q entries with
    | (q, Some (enqueued, depth)) =>
        (if maxBatchSize q <=? depth then Flush q else q, Ok enqueued)
    | (q, None) =>
        let q := Flush (count_overflow q) in
        match (if stopped q then (q, None) else tryBuffer q entries) with
        | (q, Some (enqueued, depth)) =>
            (if maxBatchSize q <=? depth then Flush q else q, Ok enqueued)
        | (q, None) => BatchInsert q entries
        end
    end.

(** [Stop], with the final flush of the loop it waits for. *)
Definition Stop (q : Queue) : Queue := if stopped q then q else Flush (with_stopped q).

(** ** Interleavings *)

(** The critical sections of the handlers, the flush loop and [Stop] in any order:
    [inflight] are the batches taken off the buffer and not written yet, [acked] the
    entries whose caller was told they are accepted, [dropped] those given up. *)
Record System := mkSystem {
  sq : Queue;
  inflight : list (list E);
  acked : list E;
  dropped : list E
}.

Inductive step : System -> System -> Prop :=
| step_buffer q q' fl ak dr entries enqueued depth :
    stopped q = false -> tryBuffer q entries = (q', Some (enqueued, depth)) ->
    step (mkSystem q fl ak dr) (mkSystem q' fl (ak ++ entries) dr)
| step_overflow q fl ak dr entries :
    tryBuffer q entries = (q, None) ->
    step (mkSystem q fl ak dr) (mkSystem (count_overflow q) fl ak dr)
| step_direct q q' fl ak dr entries n :
    BatchInsert q entries = (q', Ok n) ->
    step (mkSystem q fl ak dr) (mkSystem q' fl (ak ++ entries) dr)
| step_direct_failed q q' fl ak dr entries err :
    BatchInsert q entries = (q', Err err) ->
    step (mkSystem q fl ak dr) (mkSystem q' fl ak dr)
| step_take q fl ak dr :
    buffer q <> [] ->
    step (mkSystem q fl ak dr) (mkSystem (with_buffer [] q) (buffer q :: fl) ak dr)
| step_insert q q' f1 f2 ak dr batch chunk rest n :
    cut_chunk q batch = (chunk, rest) -> batch <> [] ->
    BatchInsert q chunk = (q', Ok n) ->
    step (mkSystem q (f1 ++ batch :: f2) ak dr) (mkSystem (count_flush q') (f1 ++ rest :: f2) ak dr)
| step_insert_failed q q' fl ak dr chunk err :
    BatchInsert q chunk = (q', Err err) ->
    step (mkSystem q fl ak dr) (mkSystem (count_flush q') fl ak dr)
| step_give_up q f1 f2 ak dr batch chunk rest :
    cut_chunk q batch = (chunk, rest) -> batch <> [] ->
    step (mkSystem q (f1 ++ batch :: f2) ak dr)
      (mkSystem (requeueOrDrop q chunk) (f1 ++ rest :: f2) ak
        (if negb (stopped q) && (len chunk <=? maxQueueSize q - len (buffer q)) then dr else dr ++ chunk))
| step_stop q fl ak dr :
    step (mkSystem q fl ak dr) (mkSystem (with_stopped q) fl ak dr)
| step_done q f1 f2 ak dr :
    step (mkSystem q (f1 ++ [] :: f2) ak dr) (mkSystem q (f1 ++ f2) ak dr).

End Store.
End Queue.

(** ** Conservation *)

Arguments Queue : clear implicits.
Arguments System : clear implicits.

Section QueueLemmas.
Context {E : Type} (works : nat -> bool).
Implicit Types (q : Queue E) (s : System E).

(** Where an acknowledged entry can be; the drop counter has grown by the entries given up. *)
Definition accounted (s : System E) : list E :=
  buffer (sq s) ++ concat (inflight s) ++ inserted (sq s) ++ dropped s.

Record queue_inv (drops0 : Z) (s : System E) : Prop := {
  qi_conserved : accounted s ≡ₚ acked s;
  qi_bound : len (buffer (sq s)) <= maxQueueSize (sq s);
  qi_drops : dropCount (sq s) = drops0 + len (dropped s);
  qi_batch : 0 < maxBatchSize (sq s)
}.

Lemma cut_chunk_app q entries chunk rest :
  cut_chunk q entries = (chunk, rest) -> entries = chunk ++ rest.
Proof. unfold cut_chunk. intros [= <- <-]. by rewrite take_drop. Qed.

Lemma cut_chunk_nonempty q entries chunk rest :
  0 < maxBatchSize q -> entries <> [] -> cut_chunk q entries = (chunk, rest) -> chunk <> [].
Proof.
  unfold cut_chunk. intros Hb Hne [= <- <-]. destruct entries as [| e entries]; [done |].
  rewrite len_cons. pose proof (len_nonneg entries).
  destruct (Z.ltb_spec (1 + len entries) (maxBatchSize q)).
  - replace (Z.to_nat (1 + len entries)) with (S (Z.to_nat (len entries))) by lia. done.
  - replace (Z.to_nat (maxBatchSize q)) with (S (Z.to_nat (maxBatchSize q - 1))) by lia. done.
Qed.

Lemma concat_middle (f1 f2 : list (list E)) b : concat (f1 ++ b :: f2) ≡ₚ b ++ concat (f1 ++ f2).
Proof. rewrite !concat_app. cbn [concat]. by rewrite Permutation_app_swap_app. Qed.

Lemma tryBuffer_some q q' entries n depth :
  tryBuffer q entries = (q', Some (n, depth)) ->
  q' = with_buffer (buffer q ++ entries) q /\ n = len entries /\ len (buffer q') <= maxQueueSize q.
Proof.
  unfold tryBuffer. destruct (Z.ltb_spec (maxQueueSize q - len (buffer q)) (len entries)); [done |].
  intros [= <- <- _]. cbn [buffer with_buffer]. rewrite len_app. split; [done |]. split; [done | lia].
Qed.

Lemma BatchInsert_ok q q' entries n :
  BatchInsert works q entries = (q', Ok n) -> q' = with_store (inserted q ++ entries) (S (calls q)) q /\ n = len entries.
Proof. unfold BatchInsert. destruct (works (calls q)); by intros [= <- <-]. Qed.

Lemma BatchInsert_err q q' entries err :
  BatchInsert works q entries = (q', Err err) -> q' = with_store (inserted q) (S (calls q)) q.
Proof. unfold BatchInsert. destruct (works (calls q)); by intros [= <- <-]. Qed.

Lemma queue_step_inv d s s' : step works s s' -> queue_inv d s -> queue_inv d s'.
Proof.
  intros Hs [Hc Hb Hd Hm]. unfold accounted in *. destruct Hs; cbn [sq inflight acked dropped] in *.
  - apply tryBuffer_some in H0 as (-> & -> & Hl). split; cbn [sq inflight acked dropped buffer with_buffer inserted]; try done.
    unfold accounted. cbn [sq inflight acked dropped buffer with_buffer inserted]. rewrite <- Hc. solve_Permutation.
  - by split.
  - apply BatchInsert_ok in H as [-> ->]. split; try done. unfold accounted.
    cbn [sq inflight acked dropped buffer with_store inserted]. rewrite <- Hc. solve_Permutation.
  - apply BatchInsert_err in H as ->. by split.
  - split; try done.
    + unfold accounted. cbn [sq inflight acked dropped buffer with_buffer inserted concat app]. rewrite <- Hc.
      by rewrite <- app_assoc.
    + cbn [sq buffer with_buffer]. change (len []) with 0. pose proof (len_nonneg (buffer q)). cbn in *. lia.
  - apply BatchInsert_ok in H1 as [-> ->]. apply cut_chunk_app in H as ->. split; try done. unfold accounted.
    cbn [sq inflight acked dropped buffer with_store inserted count_flush]. rewrite <- Hc, !concat_middle. solve_Permutation.
  - apply BatchInsert_err in H as ->. by split.
  - apply cut_chunk_app in H as ->. unfold requeueOrDrop.
    destruct (Z.leb_spec (len chunk) (maxQueueSize q - len (buffer q))) as [Hl | Hl].
    1: destruct (negb (stopped q)).
    all: cbn [andb]; rewrite ?andb_false_r; split; unfold accounted;
      cbn [sq inflight acked dropped buffer with_buffer inserted count_drop dropCount maxQueueSize maxBatchSize];
      try done; try (rewrite len_app; lia); rewrite <- Hc, !concat_middle; solve_Permutation.
  - by split.
  - split; try done. unfold accounted. cbn [sq inflight]. cbn [acked inserted sq dropped inflight] in *. rewrite <- Hc, !concat_app. done.
Qed.

Lemma queue_steps_inv d s s' : rtc (step works) s s' -> queue_inv d s -> queue_inv d s'.
Proof. induction 1; eauto using queue_step_inv. Qed.

(** ** The operations are runs of the step relation *)

Lemma BatchInsert_cases q entries :
  (exists q', BatchInsert works q entries = (q', Ok (len entries))) \/
  (exists q' e, BatchInsert works q entries = (q', Err e)).
Proof. unfold BatchInsert. destruct (works (calls q)); eauto. Qed.

(** A chunk cut from a batch is still the chunk the batch would give after a failed insert. *)
Lemma cut_chunk_failed q q' entries batch e :
  BatchInsert works q entries = (q', Err e) -> cut_chunk (count_flush q') batch = cut_chunk q batch.
Proof. by intros ->%BatchInsert_err. Qed.

Lemma insert_loop_steps attempts q chunk rest batch f1 f2 ak dr err :
  cut_chunk q batch = (chunk, rest) -> batch <> [] ->
  (attempts = O -> exists e, err = Err e) ->
  exists q' r, insert_loop works attempts q chunk err = (q', r) /\
    match r with
    | Ok _ => rtc (step works) (mkSystem q (f1 ++ batch :: f2) ak dr) (mkSystem q' (f1 ++ rest :: f2) ak dr)
    | _ => rtc (step works) (mkSystem q (f1 ++ batch :: f2) ak dr) (mkSystem q' (f1 ++ batch :: f2) ak dr) /\
           cut_chunk q' batch = (chunk, rest)
    end.
Proof.
  intros Hc Hne. revert q err Hc. induction attempts as [| n IH]; intros q err Hc He; cbn [insert_loop].
  - destruct He as [e ->]; [done |]. eexists _, _. split; [done |]. by split.
  - destruct (BatchInsert_cases q chunk) as [(q' & Hb) | (q' & e & Hb)]; rewrite Hb.
    + eexists _, _. split; [done |]. apply rtc_once. by eapply step_insert.
    + destruct (IH (count_flush q') (Err e)) as (q'' & r & Hi & Hr); [by erewrite cut_chunk_failed | by eauto |].
      exists q'', r. split; [done |].
      assert (step works (mkSystem q (f1 ++ batch :: f2) ak dr) (mkSystem (count_flush q') (f1 ++ batch :: f2) ak dr))
        by by eapply step_insert_failed.
      destruct r; [by eapply rtc_l | | ]; destruct Hr; (split; [by eapply rtc_l | done]).
Qed.

Lemma insert_loop_sizes attempts q chunk err :
  maxBatchSize (insert_loop works attempts q chunk err).1 = maxBatchSize q.
Proof.
  revert q err. induction attempts as [| n IH]; intros q err; cbn [insert_loop]; [done |].
  unfold BatchInsert. destruct (works (calls q)); [done |]. by rewrite IH.
Qed.

Lemma flushBatch_steps fuel q entries f1 f2 ak dr :
  0 < maxBatchSize q -> (length entries <= fuel)%nat ->
  exists dr', rtc (step works) (mkSystem q (f1 ++ entries :: f2) ak dr)
                (mkSystem (flushBatch works fuel q entries) (f1 ++ f2) ak dr').
Proof.
  revert q entries dr. induction fuel as [| fuel IH]; intros q entries dr Hb Hf; cbn [flushBatch].
  { destruct entries; [| cbn in Hf; lia]. exists dr. apply rtc_once. constructor. }
  destruct (Z.eqb_spec (len entries) 0) as [Hz | Hz].
  { destruct entries; [| rewrite len_cons in Hz; pose proof (len_nonneg entries); lia].
    exists dr. apply rtc_once. constructor. }
  assert (entries <> []) as Hne by (by intros ->).
  destruct (cut_chunk q entries) as [chunk rest] eqn:Hc. unfold insertWithRetry.
  pose proof (cut_chunk_nonempty _ _ _ _ Hb Hne Hc) as Hcn. pose proof (cut_chunk_app _ _ _ _ Hc) as Happ.
  assert ((length rest <= fuel)%nat) as Hr.
  { rewrite Happ, length_app in Hf. destruct chunk; [done | cbn in Hf; lia]. }
  destruct (insert_loop_steps flushMaxAttempts q chunk rest entries f1 f2 ak dr (Ok 0) Hc Hne) as (q' & r & Hi & Hs); [done |].
  pose proof (insert_loop_sizes flushMaxAttempts q chunk (Ok 0)) as Hm. rewrite Hi in *. cbn [fst] in Hm.
  destruct r; [destruct (IH q' rest dr) as [dr' Hd]; [lia | done | exists dr'; by etrans] | |].
  all: destruct Hs as [Hs Hc']; eassert (step works _ _) as Hg by (by apply (step_give_up works q' f1 f2 ak dr entries chunk rest)).
  all: edestruct (IH (requeueOrDrop q' chunk) rest) as [dr' Hd];
    [unfold requeueOrDrop; case_match; cbn; lia | done | exists dr'; etrans; [exact Hs |]; by eapply rtc_l].
Qed.

Lemma Flush_steps q fl ak dr :
  0 < maxBatchSize q ->
  exists dr', rtc (step works) (mkSystem q fl ak dr) (mkSystem (Flush works q) fl ak dr').
Proof.
  intros Hb. unfold Flush. destruct (Z.eqb_spec (len (buffer q)) 0) as [Hz | Hz]; [by exists dr |].
  destruct (flushBatch_steps (length (buffer q)) (with_buffer [] q) (buffer q) [] fl ak dr) as [dr' Hd]; [done | done |].
  exists dr'. eapply rtc_l; [| exact Hd]. constructor. intros E0. by rewrite E0 in Hz.
Qed.

Lemma steps_batch_size s s' : rtc (step works) s s' -> maxBatchSize (sq s') = maxBatchSize (sq s).
Proof.
  induction 1 as [| s1 s2 s3 Hs _ IH]; [done |]. rewrite IH. destruct Hs; cbn [sq]; try done.
  - by apply tryBuffer_some in H0 as (-> & _).
  - by apply BatchInsert_ok in H as [-> _].
  - by apply BatchInsert_err in H as ->.
  - by apply BatchInsert_ok in H1 as [-> _].
  - by apply BatchInsert_err in H as ->.
  - unfold requeueOrDrop. by case_match.
Qed.

(** The entries the caller of [Enqueue] was told are accepted. *)
Definition acknowledged (r : result Z) (entries : list E) : list E :=
  match r with Ok _ => entries | _ => [] end.

Lemma BatchInsert_steps q entries fl ak dr q' r :
  BatchInsert works q entries = (q', r) ->
  rtc (step works) (mkSystem q fl ak dr) (mkSystem q' fl (ak ++ acknowledged r entries) dr).
Proof.
  intros Hb. apply rtc_once.
  destruct (BatchInsert_cases q entries) as [(p & Hp) | (p & e & Hp)]; rewrite Hp in Hb; injection Hb as <- <-;
    cbn [acknowledged]; [| rewrite app_nil_r]; by econstructor.
Qed.

Lemma tryBuffer_none q q' entries : tryBuffer q entries = (q', None) -> q' = q.
Proof. unfold tryBuffer. case_match; by intros [= <-]. Qed.

(** What follows a [tryBuffer] that fits. *)
Lemma buffered_steps q q1 entries n depth fl ak dr :
  0 < maxBatchSize q -> stopped q = false -> tryBuffer q entries = (q1, Some (n, depth)) ->
  exists dr', rtc (step works) (mkSystem q fl ak dr)
    (mkSystem (if maxBatchSize q1 <=? depth then Flush works q1 else q1) fl (ak ++ entries) dr').
Proof.
  intros Hb Hs Ht. pose proof (tryBuffer_some _ _ _ _ _ Ht) as (Hq1 & _).
  assert (step works (mkSystem q fl ak dr) (mkSystem q1 fl (ak ++ entries) dr)) by by econstructor.
  case_match; [| exists dr; by apply rtc_once].
  destruct (Flush_steps q1 fl (ak ++ entries) dr) as [dr' Hd]; [by rewrite Hq1 |].
  exists dr'. by eapply rtc_l.
Qed.

Lemma Enqueue_steps q entries fl ak dr q' r :
  0 < maxBatchSize q -> Enqueue works q entries = (q', r) ->
  exists dr', rtc (step works) (mkSystem q fl ak dr) (mkSystem q' fl (ak ++ acknowledged r entries) dr').
Proof.
  intros Hb He. unfold Enqueue in He. destruct (Z.eqb_spec (len entries) 0) as [Hz | _].
  { injection He as <- <-. exists dr. cbn [acknowledged].
    destruct entries; [by rewrite app_nil_r | rewrite len_cons in Hz; pose proof (len_nonneg entries); lia]. }
  destruct (stopped q) eqn:Hs; [exists dr; by apply BatchInsert_steps |].
  destruct (tryBuffer q entries) as [q1 [[n depth] |]] eqn:Ht.
  { destruct (buffered_steps _ _ _ _ _ fl ak dr Hb Hs Ht) as [dr' Hd]. exists dr'. by injection He as <- <-. }
  pose proof (tryBuffer_none _ _ _ Ht) as ->.
  destruct (Flush_steps (count_overflow q) fl ak dr Hb) as [d1 H1].
  assert (rtc (step works) (mkSystem q fl ak dr) (mkSystem (Flush works (count_overflow q)) fl ak d1)) as H2
    by (eapply rtc_l; [by eapply step_overflow | done]).
  pose proof (steps_batch_size _ _ H2) as Hm. cbn [sq] in Hm. clear H1.
  revert He Hm H2. generalize (Flush works (count_overflow q)). intros p He Hm H2.
  destruct (stopped p) eqn:Hsp; [exists d1; etrans; [done | by apply BatchInsert_steps] |].
  destruct (tryBuffer p entries) as [p1 [[n depth] |]] eqn:Htp.
  - destruct (buffered_steps _ _ _ _ _ fl ak d1 ltac:(by rewrite Hm) Hsp Htp) as [dr' Hd]. exists dr'.
    injection He as <- <-. by etrans.
  - pose proof (tryBuffer_none _ _ _ Htp) as ->.
    exists d1. etrans; [done | by apply BatchInsert_steps].
Qed.

Lemma Stop_steps q fl ak dr :
  0 < maxBatchSize q ->
  exists dr', rtc (step works) (mkSystem q fl ak dr) (mkSystem (Stop works q) fl ak dr').
Proof.
  intros Hb. unfold Stop. case_match; [by exists dr |].
  destruct (Flush_steps (with_stopped q) fl ak dr Hb) as [dr' Hd]. exists dr'. eapply rtc_l; [constructor | done].
Qed.

(** ** A flush delivers *)

(** Three calls in a row never all fail. *)
Definition transient : Prop := forall n, works n || works (S n) || works (S (S n)).

Lemma insertWithRetry_delivers q chunk :
  transient ->
  exists c f, insertWithRetry works q chunk =
    (mkQueue (maxQueueSize q) (maxBatchSize q) (buffer q) (stopped q) f (overflowCount q) (dropCount q)
      (inserted q ++ chunk) c, Ok (len chunk)).
Proof.
  intros Ht. specialize (Ht (calls q)). unfold insertWithRetry. cbn [insert_loop flushMaxAttempts]. unfold BatchInsert.
  destruct (works (calls q)) eqn:H1; [by eexists _, _ |]. cbn [calls count_flush with_store].
  destruct (works (S (calls q))) eqn:H2; [by eexists _, _ |]. cbn [calls count_flush with_store].
  cbn [orb] in Ht. rewrite (Is_true_true_1 _ Ht). by eexists _, _.
Qed.

Lemma flushBatch_delivers fuel q entries :
  transient -> 0 < maxBatchSize q -> (length entries <= fuel)%nat ->
  inserted (flushBatch works fuel q entries) = inserted q ++ entries /\
  buffer (flushBatch works fuel q entries) = buffer q /\
  dropCount (flushBatch works fuel q entries) = dropCount q.
Proof.
  intros Ht. revert q entries. induction fuel as [| fuel IH]; intros q entries Hb Hf; cbn [flushBatch].
  { destruct entries; [by rewrite app_nil_r | cbn in Hf; lia]. }
  destruct (Z.eqb_spec (len entries) 0) as [Hz | Hz].
  { destruct entries; [by rewrite app_nil_r | rewrite len_cons in Hz; pose proof (len_nonneg entries); lia]. }
  destruct (cut_chunk q entries) as [chunk rest] eqn:Hc. pose proof (cut_chunk_app _ _ _ _ Hc) as ->.
  assert (chunk <> []) as Hn by (eapply cut_chunk_nonempty; [exact Hb | intros E0; by rewrite E0 in Hz | exact Hc]).
  destruct (insertWithRetry_delivers q chunk Ht) as (c & f & ->).
  rewrite length_app in Hf. destruct chunk as [| e chunk]; [done |]. cbn in Hf.
  destruct (IH (mkQueue (maxQueueSize q) (maxBatchSize q) (buffer q) (stopped q) f (overflowCount q) (dropCount q)
      (inserted q ++ e :: chunk) c) rest) as (Hi & Hr); [done | lia |].
  split; [| done]. rewrite Hi. cbn [inserted]. by rewrite <- app_assoc.
Qed.

End QueueLemmas.

(** ** Claims *)

(** C27: Whatever the order in which handlers, the flush loop and shutdown run their critical
    sections, and whichever inserts fail, an acknowledged entry is in exactly one place:
    the buffer, a batch being written, the store, or the entries given up, which the drop
    counter counts; and the buffer never exceeds its bound. *)
Theorem ingest_queue_conserves {E : Type} (works : nat -> bool) (cfg : QueueConfig) (s : System E) :
  rtc (step works) (mkSystem (NewQueue cfg) [] [] []) s ->
  accounted s ≡ₚ acked s /\ len (buffer (sq s)) <= maxQueueSize (sq s) /\ dropCount (sq s) = len (dropped s).
Proof.
  intros Hr. destruct (queue_steps_inv works 0 _ _ Hr) as [Hc Hb Hd _]; [| by rewrite Hd].
  unfold NewQueue, with_defaults. split; cbn [sq buffer maxQueueSize maxBatchSize MaxQueueSize MaxBatchSize]; [done | | done |].
  - rewrite len_nil. destruct (Z.leb_spec (MaxQueueSize cfg) 0); lia.
  - destruct (Z.leb_spec (MaxBatchSize cfg) 0); lia.
Qed.

(** [Enqueue] is all or nothing: when it reports an error, nothing of the batch was
    buffered or stored; when it reports success, every entry of the batch and of the
    buffer before it is stored, buffered or counted as dropped, once. *)
Theorem enqueue_all_or_nothing {E : Type} (works : nat -> bool) (q q' : Queue E) (entries : list E) (r : result Z) :
  0 < maxBatchSize q -> len (buffer q) <= maxQueueSize q -> Enqueue works q entries = (q', r) ->
  exists lost,
    buffer q' ++ inserted q' ++ lost ≡ₚ buffer q ++ inserted q ++ acknowledged r entries /\
    dropCount q' = dropCount q + len lost /\ len (buffer q') <= maxQueueSize q'.
Proof.
  intros Hb Hm He. destruct (Enqueue_steps works q entries [] (buffer q ++ inserted q) [] q' r Hb He) as [lost Hs].
  destruct (queue_steps_inv works (dropCount q) _ _ Hs) as [Hc Hl Hd _].
  - split; cbn [sq dropped]; [| done | rewrite len_nil; lia | done]. unfold accounted. cbn. by rewrite app_nil_r.
  - exists lost. split; [| done]. unfold accounted in Hc. cbn in Hc. by rewrite <- app_assoc in Hc.
Qed.

(** C28: When the store never fails three times in a row, a flush writes the whole buffer, in
    order, and loses nothing, and so does stopping a running queue. *)
Theorem flush_delivers {E : Type} (works : nat -> bool) (q : Queue E) :
  transient works -> 0 < maxBatchSize q ->
  let delivered q' := buffer q' = [] /\ inserted q' = inserted q ++ buffer q /\ dropCount q' = dropCount q in
  delivered (Flush works q) /\ (stopped q = false -> delivered (Stop works q)).
Proof.
  intros Ht Hb delivered.
  assert (forall p : Queue E, 0 < maxBatchSize p -> buffer (Flush works p) = [] /\
    inserted (Flush works p) = inserted p ++ buffer p /\ dropCount (Flush works p) = dropCount p) as HF.
  { intros p Hp. unfold Flush. destruct (Z.eqb_spec (len (buffer p)) 0) as [Hz | Hz].
    - destruct (buffer p); [by rewrite app_nil_r | rewrite len_cons in Hz; pose proof (len_nonneg l); lia].
    - destruct (flushBatch_delivers works (length (buffer p)) (with_buffer [] p) (buffer p) Ht Hp) as (? & ? & ?); done. }
  split; [by apply HF |]. intros Hs. unfold Stop. rewrite Hs. apply (HF (with_stopped q) Hb).
Qed.

(** A store that fails its second and third calls. *)
Definition flaky (n : nat) : bool := negb (bool_decide (n = 1 \/ n = 2)%nat).

Definition flaky_queue : Queue nat := mkQueue 4 2 [1; 2; 3]%nat false 0 0 0 [] 0.

Lemma ingest_queue_conserves_witness :
  exists s : System nat,
    rtc (step flaky) (mkSystem (NewQueue (mkQueueConfig 0 0)) [] [] []) s /\
    acked s = [7%nat] /\
    accounted s ≡ₚ acked s /\ len (buffer (sq s)) <= maxQueueSize (sq s) /\ dropCount (sq s) = len (dropped s).
Proof.
  exists (mkSystem (with_buffer [7%nat] (NewQueue (mkQueueConfig 0 0))) [] [7%nat] []).
  assert (rtc (step flaky) (mkSystem (NewQueue (mkQueueConfig 0 0)) [] [] [])
    (mkSystem (with_buffer [7%nat] (NewQueue (mkQueueConfig 0 0))) [] [7%nat] [])) as Hr.
  { apply rtc_once. apply (step_buffer flaky _ _ [] [] [] [7%nat] 1 1); reflexivity. }
  split; [exact Hr |]. split; [reflexivity |]. exact (ingest_queue_conserves flaky _ _ Hr).
Defined.

Definition three : list nat := [4; 5; 6]%nat.

Definition enqueued : Queue nat * result Z := Enqueue flaky flaky_queue three.

Lemma enqueue_all_or_nothing_witness :
  (enqueued.2 = Ok 3 /\ inserted enqueued.1 = [1; 2; 3; 4; 5; 6]%nat) /\
  exists lost, buffer enqueued.1 ++ inserted enqueued.1 ++ lost ≡ₚ
    buffer flaky_queue ++ inserted flaky_queue ++ acknowledged enqueued.2 three.
Proof.
  split; [vm_compute; split; reflexivity |].
  destruct (enqueue_all_or_nothing flaky flaky_queue enqueued.1 three enqueued.2) as (lost & Hp & _).
  - reflexivity.
  - vm_compute. discriminate.
  - unfold enqueued. apply surjective_pairing.
  - exists lost. exact Hp.
Defined.

Lemma flaky_transient : transient flaky.
Proof. intros [| [| [| n]]]; [exact I | exact I | exact I |]. unfold flaky. by rewrite bool_decide_false by lia. Qed.

Lemma flush_delivers_witness :
  inserted (Flush flaky flaky_queue) = inserted flaky_queue ++ buffer flaky_queue /\ buffer flaky_queue = [1; 2; 3]%nat.
Proof.
  destruct (flush_delivers flaky flaky_queue flaky_transient eq_refl) as [(_ & Hi & _) _]. split; [exact Hi | reflexivity].
Defined.

(** Two chunks of one flush that both fail come back in the opposite order: the second is
    prepended before the first, though it is younger. *)
Lemma requeue_reverses :
  buffer (Flush (fun _ => false) (mkQueue 10 1 [1; 2]%nat false 0 0 0 [] 0)) = [2; 1]%nat.
Proof. reflexivity. Qed.
