(* ===== verification/Jobs.v ===== *)
(** * The job queue, its worker and its scheduler (internal/jobs)

    The jobs table is a finite map from id to row; every SQL statement of the package is
    the update or query it spells out, run by [stmt], which may fail and then changes
    nothing.  Times are the text columns' seconds: RFC 3339 in UTC compares as text the
    way the seconds compare.  Transactions of the database are serializable, so [ClaimNext]
    is one step once it commits.  [run_op] interleaves the operations of any number of
    workers, schedulers and operators.
    Main results: the row invariant holds after any operations; a claim takes the best
    due row and nobody else claims it until it is given back; no row disappears but a
    finished one past its retention; the backoff is bounded; and a worker that is given no
    new work stops after finitely many runs. *)

From stdpp Require Import base list gmap strings numbers sorting.
From Stdlib Require Import ZArith Lia.
From S2P Require Import Prelude.

(** ** Data *)

Inductive Status := StatusPending | StatusRunning | StatusCompleted | StatusFailed | StatusDead.

#[export] Instance Status_eq_dec : EqDecision Status.
Proof. solve_decision. Defined.

(** A row of the table, without its id. *)
Record Row := mkRow {
  r_Queue : bytes;
  JobType : bytes;
  Payload : bytes;
  r_Status : Status;
  Priority : Z;
  Attempts : Z;
  MaxAttempts : Z;
  RunAt : Z;
  StartedAt : option Z;
  CompletedAt : option Z;
  LastError : option bytes;
  CreatedAt : Z
}.

#[export] Instance Row_eq_dec : EqDecision Row.
Proof. solve_decision. Defined.

(** [Job]: a row as it is scanned. *)
Record Job := mkJob { ID : Z; job : Row }.

Record Table := mkTable { rows : gmap Z Row; last_id : Z }.

(** The database and the number of statements it was given. *)
Record DB := mkDB { table : Table; db_calls : nat }.

Definition empty_db : DB := mkDB (mkTable ∅ 0) 0.

Definition second : Z := 10 ^ 9.
Definition maxBackoff : Z := 5 * 60 * second.

(** The text of an instant given in nanoseconds. *)
Definition Format (t : Z) : Z := t / second.

Definition with_status (s : Status) (r : Row) : Row :=
  mkRow (r_Queue r) (JobType r) (Payload r) s (Priority r) (Attempts r) (MaxAttempts r) (RunAt r)
    (StartedAt r) (CompletedAt r) (LastError r) (CreatedAt r).
Definition set_started (t : Z) (r : Row) : Row :=
  mkRow (r_Queue r) (JobType r) (Payload r) (r_Status r) (Priority r) (Attempts r) (MaxAttempts r) (RunAt r)
    (Some t) (CompletedAt r) (LastError r) (CreatedAt r).
Definition set_completed (t : Z) (r : Row) : Row :=
  mkRow (r_Queue r) (JobType r) (Payload r) (r_Status r) (Priority r) (Attempts r) (MaxAttempts r) (RunAt r)
    (StartedAt r) (Some t) (LastError r) (CreatedAt r).
Definition set_attempts (n : Z) (r : Row) : Row :=
  mkRow (r_Queue r) (JobType r) (Payload r) (r_Status r) (Priority r) n (MaxAttempts r) (RunAt r)
    (StartedAt r) (CompletedAt r) (LastError r) (CreatedAt r).
Definition set_error (e : bytes) (r : Row) : Row :=
  mkRow (r_Queue r) (JobType r) (Payload r) (r_Status r) (Priority r) (Attempts r) (MaxAttempts r) (RunAt r)
    (StartedAt r) (CompletedAt r) (Some e) (CreatedAt r).
Definition set_run_at (t : Z) (r : Row) : Row :=
  mkRow (r_Queue r) (JobType r) (Payload r) (r_Status r) (Priority r) (Attempts r) (MaxAttempts r) t
    (StartedAt r) (CompletedAt r) (LastError r) (CreatedAt r).

(** ** Statements *)

(** UPDATE ... WHERE id = ? *)
Definition update_id (id : Z) (f : Row -> Row) (t : Table) : Table * unit :=
  (mkTable (alter f id (rows t)) (last_id t), tt).

(** The rows a condition selects. *)
Definition selected (p : Row -> bool) (m : gmap Z Row) : gmap Z Row := filter (fun kv => Is_true (p kv.2)) m.

Definition count_rows (p : Row -> bool) (m : gmap Z Row) : Z := Z.of_nat (base.size (selected p m)).

(** UPDATE ... WHERE p, with the rows affected. *)
Definition update_where (p : Row -> bool) (f : Row -> Row) (t : Table) : Table * Z :=
  (mkTable ((fun r => if p r then f r else r) <$> rows t) (last_id t), count_rows p (rows t)).

(** DELETE ... WHERE p, with the rows affected. *)
Definition delete_where (p : Row -> bool) (t : Table) : Table * Z :=
  (mkTable (filter (fun kv => ~ Is_true (p kv.2)) (rows t)) (last_id t), count_rows p (rows t)).

(** INSERT, with the AUTOINCREMENT id. *)
Definition insert_row (r : Row) (t : Table) : Table * Z :=
  let id := last_id t + 1 in (mkTable (<[id := r]> (rows t)) id, id).

Definition has_status (s : Status) (r : Row) : bool := bool_decide (r_Status r = s).

Definition eligible (queue : bytes) (now : Z) (r : Row) : bool :=
  bool_decide (r_Queue r = queue) && has_status StatusPending r && (RunAt r <=? now).

(** ORDER BY priority DESC, created_at ASC: [r1] may come before [r2]. *)
Definition claim_order (r1 r2 : Row) : bool :=
  (Priority r2 <? Priority r1) || ((Priority r1 =? Priority r2) && (CreatedAt r1 <=? CreatedAt r2)).

(** The row LIMIT 1 keeps; SQL leaves the choice among equal keys open. *)
Class Picks := pick : (Row -> bool) -> gmap Z Row -> option Z.

Class PicksLaws (P : Picks) : Prop := {
  pick_some p m id : pick p m = Some id ->
    exists r, m !! id = Some r /\ p r = true /\
      forall id' r', m !! id' = Some r' -> p r' = true -> claim_order r r' = true;
  pick_none p m : pick p m = None -> forall id r, m !! id = Some r -> p r = false
}.

(** ** Operations *)

(** A computation over the database that may fail. *)
Definition M (A : Type) : Type := DB -> DB * result A.

#[export] Instance M_ret : MRet M := fun A a db => (db, Ok a).
#[export] Instance M_bind : MBind M := fun A B f m db =>
  match m db with
  | (db, Ok a) => f a db
  | (db, Err e) => (db, Err e)
  | (db, Panic) => (db, Panic)
  end.

(** [fmt.Errorf(msg + ": %w", err)] around a call. *)
Definition wrapM {A} (msg : string) (m : M A) : M A := fun db => let '(db, r) := m db in (db, wrap msg r).

Definition throw {A} (e : gerror) : M A := fun db => (db, Err e).

Definition ErrNoRows : gerror := Sentinel "sql: no rows in result set".

(** [reapReason] *)
Definition reapReason : bytes := str "reclaimed: worker stopped or crashed while running".

(** The kind of a job's outcome: what the handler returned, or a panic, which
    [safe.Call] turns into an error. *)
Inductive outcome := Returned (err : option bytes) | Panicked (v : bytes).

Definition safe_Call (task : bytes) (o : outcome) : option bytes :=
  match o with
  | Returned err => err
  | Panicked v => Some (str "panic in " ++ task ++ str ": " ++ v)
  end.

Section Operations.
(** Whether the n-th statement executes. *)
Context (works : nat -> bool) `{Picks}.

Definition stmt {A} (run : Table -> Table * A) : M A := fun db =>
  if works (db_calls db)
  then let '(t, a) := run (table db) in (mkDB t (S (db_calls db)), Ok a)
  else (mkDB (table db) (S (db_calls db)), Err (Errorf "database")).

(** A statement that only reads. *)
Definition query {A} (run : Table -> A) : M A := stmt (fun t => (t, run t)).

(** A transaction: its writes are kept only when it ends in [commit]. *)
Definition transaction {A} (body : M A) : M A := fun db =>
  match body db with
  | (db', Ok a) => (db', Ok a)
  | (db', r) => (mkDB (table db) (db_calls db'), r)
  end.

(** [BeginTx] and [Commit] can fail like a statement. *)
Definition BeginTx : M unit := wrapM "begin tx" (query (fun _ => tt)).
Definition Commit : M unit := wrapM "commit tx" (query (fun _ => tt)).

Definition getByID (id : Z) : M Job :=
  wrapM "get job" (
    row ← query (fun t => rows t !! id);
    match row with
    | Some r => mret (mkJob id r)
    | None => throw ErrNoRows
    end).

(** [EnqueueAt] with what [json.Marshal] returned for the payload. *)
Definition EnqueueAt (now : Z) (jobType : bytes) (payload : result bytes) (runAt : Z) : M Job :=
  match payload with
  | Ok data =>
      let row := mkRow (str "default") jobType data StatusPending 0 0 3 (Format runAt) None None None (Format now) in
      id ← wrapM "insert job" (stmt (insert_row row));
      getByID id
  | Err e => throw (Wrapf "marshal payload" e)
  | Panic => fun db => (db, Panic)
  end.

Definition Enqueue (now : Z) (jobType : bytes) (payload : result bytes) : M Job := EnqueueAt now jobType payload now.

Definition ClaimNext (now : Z) (queue : bytes) : M (option Job) :=
  let now := Format now in
  claimed ← transaction (
    BeginTx;;
    found ← wrapM "select job" (query (fun t => pick (eligible queue now) (rows t)));
    match found with
    | None => mret None
    | Some id =>
        wrapM "update job" (stmt (update_id id (fun r => set_started now (with_status StatusRunning r))));;
        Commit;;
        mret (Some id)
    end);
  match claimed with
  | None => mret None
  | Some id => j ← getByID id; mret (Some j)
  end.

Definition Complete (now : Z) (id : Z) : M unit :=
  wrapM "complete job" (stmt (update_id id (fun r => set_completed (Format now) (with_status StatusCompleted r)))).

(** [1 << uint(n)] as an [int64]. *)
Definition shl1 (n : Z) : Z := if uint64 n <? 64 then int64 (Z.shiftl 1 (uint64 n)) else 0.

(** The pause before attempt [newAttempts + 1]. *)
Definition backoff_of (newAttempts : Z) : Z :=
  let backoff := int64 (int64 (shl1 newAttempts * 5) * second) in
  if maxBackoff <? backoff then maxBackoff else backoff.

(** The read and the UPDATE are two statements that may fail one after the other; [run_op] puts
    no statement of another process between them. *)
Definition Fail (now : Z) (id : Z) (jobErr : option bytes) : M unit :=
  j ← wrapM "get job" (getByID id);
  let newAttempts := int64 (Attempts (job j) + 1) in
  let errMsg := default [] jobErr in
  wrapM "fail job"
    (if MaxAttempts (job j) <=? newAttempts
     then stmt (update_id id (fun r => set_error errMsg (set_attempts newAttempts (with_status StatusDead r))))
     else
       let runAt := Format (now + backoff_of newAttempts) in
       stmt (update_id id (fun r =>
         set_run_at runAt (set_error errMsg (set_attempts newAttempts (with_status StatusPending r)))))).

Definition Retry (now : Z) (id : Z) : M unit :=
  wrapM "retry job" (stmt (update_id id (fun r =>
    if has_status StatusDead r || has_status StatusFailed r
    then set_run_at (Format now) (with_status StatusPending r) else r))).

(** The count of each status; the map has only those that occur. *)
Definition Stats : M (list (Status * Z)) :=
  wrapM "query stats" (query (fun t =>
    filter (fun sc => 0 < sc.2)
      ((fun s => (s, count_rows (has_status s) (rows t))) <$>
        [StatusPending; StatusRunning; StatusCompleted; StatusFailed; StatusDead]))).

Definition prunable (cutoff : Z) (r : Row) : bool :=
  (has_status StatusCompleted r || has_status StatusDead r) && (CreatedAt r <? cutoff).

Definition Prune (now olderThan : Z) : M Z :=
  wrapM "prune jobs" (stmt (delete_where (prunable (Format (now - olderThan))))).

(** The time predicate: every running row, or those started before the deadline. *)
Definition timePred (now olderThan : Z) (r : Row) : bool :=
  if 0 <? olderThan then
    match StartedAt r with
    | None => true
    | Some t => t <? Format (now - olderThan)
    end
  else true.

Definition ReapOrphaned (now olderThan : Z) : M Z :=
  deadN ← wrapM "reap orphaned jobs (dead)" (stmt (update_where
    (fun r => has_status StatusRunning r && (MaxAttempts r <=? Attempts r + 1) && timePred now olderThan r)
    (fun r => set_error reapReason (set_attempts (Attempts r + 1) (with_status StatusDead r)))));
  pendN ← wrapM "reap orphaned jobs (pending)" (stmt (update_where
    (fun r => has_status StatusRunning r && (Attempts r + 1 <? MaxAttempts r) && timePred now olderThan r)
    (fun r => set_error reapReason (set_attempts (Attempts r + 1) (set_run_at (Format now) (with_status StatusPending r))))));
  mret (deadN + pendN).

(** ** The worker and the scheduler *)

(** A [Worker]: its handlers and the queue it polls. *)
Record Worker := mkWorker { handlers : gmap bytes (bytes -> outcome); queueName : bytes }.

Definition NewWorker : Worker := mkWorker ∅ (str "default").

Definition Register (w : Worker) (jobType : bytes) (h : bytes -> outcome) : Worker :=
  mkWorker (<[jobType := h]> (handlers w)) (queueName w).

(** One tick of [poll]: claim at [now], bookkeeping at [later].  The errors are only
    logged; the result is the job whose handler ran. *)
Definition processNext (w : Worker) (now later : Z) (db : DB) : DB * option Job :=
  match ClaimNext now (queueName w) db with
  | (db, Ok (Some j)) =>
      match handlers w !! JobType (job j) with
      | None => ((Fail later (ID j) (Some (str "unknown job type: " ++ JobType (job j))) db).1, None)
      | Some handler =>
          match safe_Call (str "job:" ++ JobType (job j)) (handler (Payload (job j))) with
          | Some handlerErr => ((Fail later (ID j) (Some handlerErr) db).1, Some j)
          | None => ((Complete later (ID j) db).1, Some j)
          end
      end
  | (db, _) => (db, None)
  end.

Record Schedule := mkSchedule { s_JobType : bytes; s_Payload : result bytes }.

Definition active (jobType : bytes) (r : Row) : bool :=
  bool_decide (JobType r = jobType) && (has_status StatusPending r || has_status StatusRunning r).

(** One tick of a schedule. *)
Definition maybeEnqueue (now : Z) (sched : Schedule) (db : DB) : DB :=
  match query (fun t => count_rows (active (s_JobType sched)) (rows t)) db with
  | (db, Ok count) =>
      if 0 <? count then db else (Enqueue now (s_JobType sched) (s_Payload sched) db).1
  | (db, _) => db
  end.

(** ** Interleavings *)

(** The operations of any number of processes, each with its instant. *)
Inductive op :=
| OpEnqueue (now : Z) (jobType : bytes) (payload : result bytes) (runAt : Z)
| OpClaim (now : Z) (queue : bytes)
| OpComplete (now id : Z)
| OpFail (now id : Z) (jobErr : option bytes)
| OpRetry (now id : Z)
| OpPrune (now olderThan : Z)
| OpReap (now olderThan : Z)
| OpTick (now : Z) (sched : Schedule).

Definition run_op (o : op) (db : DB) : DB :=
  match o with
  | OpEnqueue now jobType payload runAt => (EnqueueAt now jobType payload runAt db).1
  | OpClaim now queue => (ClaimNext now queue db).1
  | OpComplete now id => (Complete now id db).1
  | OpFail now id jobErr => (Fail now id jobErr db).1
  | OpRetry now id => (Retry now id db).1
  | OpPrune now olderThan => (Prune now olderThan db).1
  | OpReap now olderThan => (ReapOrphaned now olderThan db).1
  | OpTick now sched => maybeEnqueue now sched db
  end.

Definition run_ops (ops : list op) (db : DB) : DB := fold_left (fun db o => run_op o db) ops db.

End Operations.

(** ** A program logic for statements *)

(** [m] run on a table [t] ends in [Q], whichever statements fail. *)
Definition wp {A} (m : M A) (Q : result A -> Table -> Prop) (t : Table) : Prop :=
  forall db, table db = t -> Q (m db).2 (table (m db).1).

Section Rules.
Context (works : nat -> bool) {P : Picks} {PL : PicksLaws P}.

(** Some statement fails. *)
Definition fails : Prop := exists n, works n = false.

Lemma wp_ret {A} (a : A) Q t : Q (Ok a) t -> wp (mret a) Q t.
Proof. by intros HQ db <-. Qed.

Lemma wp_throw {A} e (Q : result A -> Table -> Prop) t : Q (Err e) t -> wp (throw e) Q t.
Proof. by intros HQ db <-. Qed.

Lemma wp_bind {A B} (m : M A) (f : A -> M B) Q t :
  wp m (fun r t' => match r with
    | Ok a => wp (f a) Q t'
    | Err e => Q (Err e) t'
    | Panic => Q Panic t'
    end) t ->
  wp (m ≫= f) Q t.
Proof.
  intros Hm db Ht. specialize (Hm db Ht). unfold mbind, M_bind.
  destruct (m db) as [db' [a | e |]]; cbn in *; [by apply Hm | done | done].
Qed.

Lemma wp_stmt {A} (run : Table -> Table * A) Q t :
  Q (Ok (run t).2) (run t).1 -> (fails -> forall e, Q (Err e) t) -> wp (stmt works run) Q t.
Proof.
  intros H1 H2 db <-. unfold stmt. destruct (works (db_calls db)) eqn:Hw; [| apply H2; by exists (db_calls db)].
  by destruct (run (table db)).
Qed.

Lemma wp_query {A} (run : Table -> A) Q t :
  Q (Ok (run t)) t -> (fails -> forall e, Q (Err e) t) -> wp (query works run) Q t.
Proof. intros. by apply wp_stmt. Qed.

Lemma wp_wrap {A} msg (m : M A) Q t : wp m (fun r => Q (wrap msg r)) t -> wp (wrapM msg m) Q t.
Proof. intros Hm db Ht. specialize (Hm db Ht). unfold wrapM. by destruct (m db). Qed.

Lemma wp_transaction {A} (body : M A) Q t :
  wp body (fun r t' => Q r (match r with Ok _ => t' | _ => t end)) t -> wp (transaction body) Q t.
Proof.
  intros Hm db Ht. specialize (Hm db Ht). unfold transaction.
  destruct (body db) as [db' [a | e |]]; cbn in *; by rewrite ?Ht.
Qed.

Lemma wp_mono {A} (m : M A) (Q Q' : result A -> Table -> Prop) t :
  wp m Q t -> (forall r t', Q r t' -> Q' r t') -> wp m Q' t.
Proof. intros Hm HQ db Ht. by apply HQ, Hm. Qed.

(** ** Specifications of the operations *)

Lemma wp_getByID id Q t :
  (forall r, rows t !! id = Some r -> Q (Ok (mkJob id r)) t) ->
  (fails \/ rows t !! id = None -> forall e, Q (Err e) t) ->
  wp (getByID works id) Q t.
Proof.
  intros H1 H2. apply wp_wrap, wp_bind, wp_query; [| intros; apply H2; by left].
  destruct (rows t !! id) eqn:E; [by apply wp_ret, H1 | apply wp_throw, H2; by right].
Qed.

Definition claimed (now : Z) (r : Row) : Row := set_started now (with_status StatusRunning r).

(** A claim takes the row [pick] chooses, or changes nothing. *)
Lemma wp_ClaimNext now queue Q t :
  (pick (eligible queue (Format now)) (rows t) = None -> Q (Ok None) t) ->
  (fails -> forall e, Q (Err e) t) ->
  (forall id, pick (eligible queue (Format now)) (rows t) = Some id ->
    let t' := (update_id id (claimed (Format now)) t).1 in
    (forall r, rows t' !! id = Some r -> Q (Ok (Some (mkJob id r))) t') /\ (fails -> forall e, Q (Err e) t')) ->
  wp (ClaimNext works now queue) Q t.
Proof.
  intros HN HE HS. unfold ClaimNext. apply wp_bind, wp_transaction, wp_bind, wp_wrap, wp_query; [| intros; by apply HE].
  apply wp_bind, wp_wrap, wp_query; [| intros; by apply HE]. cbn [wrap].
  destruct (pick _ (rows t)) as [id |] eqn:E; [| by apply wp_ret, wp_ret, HN].
  destruct (HS id eq_refl) as [H1 H2].
  apply wp_bind, wp_wrap, wp_stmt; [| intros; by apply HE].
  apply wp_bind, wp_wrap, wp_query; [| intros; by apply HE].
  apply wp_ret, wp_bind, wp_getByID; [intros r Hr; by apply wp_ret, H1 |].
  intros [Hf | Hn]; [by apply H2 |]. destruct (pick_some _ _ _ E) as (r & Hr & _).
  cbn in Hn. by rewrite lookup_alter_eq, Hr in Hn.
Qed.

Definition completed (now : Z) (r : Row) : Row := set_completed now (with_status StatusCompleted r).

Lemma wp_Complete now id Q t :
  Q (Ok tt) (update_id id (completed (Format now)) t).1 -> (fails -> forall e, Q (Err e) t) ->
  wp (Complete works now id) Q t.
Proof. intros H1 H2. apply wp_wrap, wp_stmt; [done |]. intros. by apply H2. Qed.

(** What [Fail] writes over a row. *)
Definition failed (now : Z) (err : bytes) (attempts : Z) (dead : bool) (r : Row) : Row :=
  if dead then set_error err (set_attempts attempts (with_status StatusDead r))
  else set_run_at (Format (now + backoff_of attempts)) (set_error err (set_attempts attempts (with_status StatusPending r))).

Lemma wp_Fail now id err Q t :
  (fails \/ rows t !! id = None -> forall e, Q (Err e) t) ->
  (forall r, rows t !! id = Some r ->
    let n := int64 (Attempts r + 1) in
    Q (Ok tt) (update_id id (failed now (default [] err) n (MaxAttempts r <=? n)) t).1) ->
  wp (Fail works now id err) Q t.
Proof.
  intros HE HS. unfold Fail. apply wp_bind, wp_wrap, wp_getByID; [| intros; by apply HE].
  intros r Hr. cbn [wrap job]. apply wp_wrap. specialize (HS r Hr). unfold failed in HS.
  cbv zeta in *. destruct (MaxAttempts r <=? int64 (Attempts r + 1)); (apply wp_stmt; [exact HS | intros; apply HE; by left]).
Qed.

Lemma wp_EnqueueAt now jobType payload runAt Q t :
  (forall e, Q (Err e) t) -> Q Panic t ->
  (forall data, payload = Ok data ->
    let row := mkRow (str "default") jobType data StatusPending 0 0 3 (Format runAt) None None None (Format now) in
    let t' := (insert_row row t).1 in
    Q (Ok (mkJob (last_id t + 1) row)) t' /\ (fails -> forall e, Q (Err e) t')) ->
  wp (EnqueueAt works now jobType payload runAt) Q t.
Proof.
  intros HE HP HS. unfold EnqueueAt. destruct payload as [data | e |]; [| by apply wp_throw | by intros db <-].
  destruct (HS data eq_refl) as [H1 H2]. apply wp_bind, wp_wrap, wp_stmt; [| intros; by apply HE]. cbn [wrap].
  apply wp_getByID.
  - intros r. cbn. rewrite lookup_insert_eq. intros [= <-]. exact H1.
  - intros [Hf | Hn]; [by apply H2 |]. cbn in Hn. by rewrite lookup_insert_eq in Hn.
Qed.

End Rules.

(** ** The life of a row *)

(** What may happen to one row of the table; [None] is a row that does not exist. *)
Inductive lifecycle : option Row -> option Row -> Prop :=
| life_enqueued jobType data runAt created :
    lifecycle None (Some (mkRow (str "default") jobType data StatusPending 0 0 3 runAt None None None created))
| life_claimed now r : r_Status r = StatusPending -> lifecycle (Some r) (Some (claimed now r))
| life_completed now r : lifecycle (Some r) (Some (completed now r))
| life_failed now err r :
    lifecycle (Some r) (Some (failed now err (Attempts r + 1) (MaxAttempts r <=? Attempts r + 1) r))
| life_retried now r :
    r_Status r = StatusDead \/ r_Status r = StatusFailed ->
    lifecycle (Some r) (Some (set_run_at now (with_status StatusPending r)))
| life_pruned r :
    r_Status r = StatusCompleted \/ r_Status r = StatusDead -> lifecycle (Some r) None
| life_reaped_dead r :
    r_Status r = StatusRunning -> MaxAttempts r <= Attempts r + 1 ->
    lifecycle (Some r) (Some (set_error reapReason (set_attempts (Attempts r + 1) (with_status StatusDead r))))
| life_reaped_pending now r :
    r_Status r = StatusRunning -> Attempts r + 1 < MaxAttempts r ->
    lifecycle (Some r)
      (Some (set_error reapReason (set_attempts (Attempts r + 1) (set_run_at now (with_status StatusPending r))))).

(** The invariant of a row: [failed] is never written, a dead row has used its attempts up. *)
Record row_wf (r : Row) : Prop := {
  wf_attempts : 0 <= Attempts r;
  wf_max : MaxAttempts r = 3;
  wf_status : r_Status r <> StatusFailed;
  wf_dead : r_Status r = StatusDead -> MaxAttempts r <= Attempts r;
  wf_running : r_Status r = StatusRunning -> is_Some (StartedAt r);
  wf_completed : r_Status r = StatusCompleted -> is_Some (CompletedAt r)
}.

Lemma lifecycle_wf o o' :
  lifecycle o o' -> (forall r, o = Some r -> row_wf r) -> forall r, o' = Some r -> row_wf r.
Proof.
  intros Hl Hwf r' Hr'. destruct Hl; try specialize (Hwf _ eq_refl); try done; injection Hr' as <-.
  1: by split; cbn.
  3: unfold failed; destruct (Z.leb_spec (MaxAttempts r) (Attempts r + 1)).
  all: destruct Hwf; split; cbn; eauto; try done; lia.
Qed.

(** The attempts grow by at most one at a time. *)
Lemma lifecycle_attempts k o o' :
  lifecycle o o' -> (forall r, o = Some r -> Attempts r <= k) -> forall r, o' = Some r -> Attempts r <= k + 1 \/ Attempts r = 0.
Proof.
  intros Hl Ha r' Hr'. destruct Hl; try specialize (Ha _ eq_refl); try done; injection Hr' as <-; cbn; try (left; lia).
  - by right.
  - left. unfold failed. case_match; cbn; lia.
Qed.

Section Life.
Context (works : nat -> bool) {P : Picks} {PL : PicksLaws P}.

(** No step or one step. *)
Inductive reflc {A} (R : A -> A -> Prop) (x : A) : A -> Prop :=
| reflc_refl : reflc R x x
| reflc_once y : R x y -> reflc R x y.

(** [t'] is [t] with every row where it was or one step further. *)
Definition evolves (t t' : Table) : Prop := forall id, reflc lifecycle (rows t !! id) (rows t' !! id).

Lemma evolves_refl t : evolves t t.
Proof. intros id. left. Qed.

Lemma evolves_update_id id f t :
  (forall r, rows t !! id = Some r -> f r = r \/ lifecycle (Some r) (Some (f r))) -> evolves t (update_id id f t).1.
Proof.
  intros Hf id'. cbn [update_id fst rows]. destruct (decide (id = id')) as [<- | Hne].
  - rewrite lookup_alter_eq. destruct (rows t !! id) eqn:E; [| left]. destruct (Hf _ eq_refl) as [Hq | Hl]; cbn.
    + rewrite Hq. left.
    + by right.
  - rewrite lookup_alter_ne by done. left.
Qed.

Lemma evolves_where p f t :
  (forall r, p r = true -> lifecycle (Some r) (Some (f r))) -> evolves t (update_where p f t).1.
Proof.
  intros Hf id. cbn [update_where fst rows]. rewrite lookup_fmap. destruct (rows t !! id) as [r |]; [| left].
  cbn. destruct (p r) eqn:E; [right; by apply Hf | left].
Qed.

Lemma evolves_delete p t :
  (forall r, p r = true -> lifecycle (Some r) None) -> evolves t (delete_where p t).1.
Proof.
  intros Hf id. cbn [delete_where fst rows]. rewrite map_lookup_filter. destruct (rows t !! id) as [r |]; [| left].
  cbn. case_guard as Hg; [left |]. cbn. right; apply Hf. cbn in Hg. destruct (p r); [done |]. exfalso; by apply Hg.
Qed.

Lemma evolves_insert r t :
  rows t !! (last_id t + 1) = None -> lifecycle None (Some r) -> evolves t (insert_row r t).1.
Proof.
  intros Hn Hl id. cbn [insert_row fst rows]. destruct (decide (last_id t + 1 = id)) as [<- | Hne].
  - rewrite lookup_insert_eq, Hn. by right.
  - rewrite lookup_insert_ne by done. left.
Qed.


Definition ids_ok (t : Table) : Prop := forall id, is_Some (rows t !! id) -> 0 < id <= last_id t.

Lemma ids_ok_update_id id f t : ids_ok t -> ids_ok (update_id id f t).1.
Proof. intros Ht id' [r Hr]. apply Ht. revert Hr. cbn. rewrite lookup_alter. case_decide; [subst |]; by destruct (rows t !! _). Qed.

Lemma ids_ok_where p f t : ids_ok t -> ids_ok (update_where p f t).1.
Proof. intros Ht id [r Hr]. apply Ht. revert Hr. cbn. rewrite lookup_fmap. by destruct (rows t !! id). Qed.

Lemma ids_ok_delete p t : ids_ok t -> ids_ok (delete_where p t).1.
Proof. intros Ht id [r Hr]. apply Ht. by apply map_lookup_filter_Some in Hr as [? _]. Qed.

Lemma ids_ok_insert r t : 0 <= last_id t -> ids_ok t -> ids_ok (insert_row r t).1.
Proof.
  intros H0 Ht id Hs. cbn in *. destruct (decide (last_id t + 1 = id)) as [<- | Hne]; [lia |].
  rewrite lookup_insert_ne in Hs by done. apply Ht in Hs. lia.
Qed.

(** What a table satisfies after [k] operations. *)
Record table_inv (k : Z) (t : Table) : Prop := {
  inv_rows : forall id r, rows t !! id = Some r -> row_wf r /\ Attempts r <= k;
  inv_ids : ids_ok t;
  inv_last : 0 <= last_id t
}.

(** What one operation does to a table. *)
Definition op_ok (t t' : Table) : Prop := evolves t t' /\ ids_ok t' /\ 0 <= last_id t'.

Lemma op_ok_refl k t : table_inv k t -> op_ok t t.
Proof. intros [_ Hi Hl]. split; [apply evolves_refl | done]. Qed.

Lemma op_ok_inv k t t' : 0 <= k -> table_inv k t -> op_ok t t' -> table_inv (k + 1) t'.
Proof.
  intros Hk [Hr _ _] (He & Hi & Hl). split; [| done | done]. intros id r Hid. specialize (He id).
  inversion He as [Heq | o Hs Ho].
  - rewrite Hid in Heq. destruct (Hr _ _ Heq). split; [done | lia].
  - subst o. rewrite Hid in Hs. split.
    + eapply lifecycle_wf; [exact Hs | | done]. intros r0 Hr0. by apply (Hr id).
    + destruct (lifecycle_attempts k _ _ Hs) with (r := r); [| done | lia | lia]. intros r0 Hr0. by apply (Hr id).
Qed.

(** A row that is a fixed point of the first statement of a reap meets the second. *)
Lemma reap_ok k t p1 f1 p2 f2 :
  table_inv k t ->
  (forall r, p1 r = true -> lifecycle (Some r) (Some (f1 r)) /\ p2 (f1 r) = false) ->
  (forall r, p2 r = true -> lifecycle (Some r) (Some (f2 r))) ->
  op_ok t (update_where p2 f2 (update_where p1 f1 t).1).1.
Proof.
  intros [_ Hi Hl] H1 H2. split; [| split; [by apply ids_ok_where, ids_ok_where | done]].
  intros id. cbn. rewrite !lookup_fmap. destruct (rows t !! id) as [r |]; [| left]. cbn.
  destruct (p1 r) eqn:E1.
  - destruct (H1 r E1) as [Hs Hn]. rewrite Hn. by right.
  - destruct (p2 r) eqn:E2; [right; by apply H2 | left].
Qed.

Lemma small_attempts r k : row_wf r -> Attempts r <= k -> k < 2 ^ 62 -> int64 (Attempts r + 1) = Attempts r + 1.
Proof. intros [H0 _ _ _ _ _] Hk Hb. unfold int64. rewrite Z.mod_small; lia. Qed.

Lemma status_of s r : has_status s r = true -> r_Status r = s.
Proof. apply bool_decide_eq_true_1. Qed.

Lemma ClaimNext_ok k now queue t :
  table_inv k t -> wp (ClaimNext works now queue) (fun _ => op_ok t) t.
Proof.
  intros Ht. apply (@wp_ClaimNext works P PL); [intros; by eapply op_ok_refl | intros; by eapply op_ok_refl |].
  intros id Hp. enough (op_ok t (update_id id (claimed (Format now)) t).1) by done.
  destruct Ht as [_ Hi Hl]. split; [| split; [by apply ids_ok_update_id | done]].
  apply evolves_update_id. intros r Hr. right. apply life_claimed.
  destruct (pick_some _ _ _ Hp) as (r' & Hr' & He & _). rewrite Hr in Hr'. injection Hr' as <-.
  unfold eligible in He. apply andb_prop in He as [He _]. apply andb_prop in He as [_ He]. by apply status_of.
Qed.

Lemma Complete_ok k now id t : table_inv k t -> wp (Complete works now id) (fun _ => op_ok t) t.
Proof.
  intros Ht. apply wp_Complete; [| intros; by eapply op_ok_refl].
  destruct Ht as [_ Hi Hl]. split; [| split; [by apply ids_ok_update_id | done]].
  apply evolves_update_id. intros r _. right. constructor.
Qed.

Lemma Fail_ok k now id err t : k < 2 ^ 62 -> table_inv k t -> wp (Fail works now id err) (fun _ => op_ok t) t.
Proof.
  intros Hk Ht. apply wp_Fail; [intros; by eapply op_ok_refl |]. intros r Hr. destruct Ht as [Hw Hi Hl].
  destruct (Hw _ _ Hr) as [Hrw Ha]. rewrite (small_attempts r k) by done.
  split; [| split; [by apply ids_ok_update_id | done]].
  apply evolves_update_id. intros r' Hr'. rewrite Hr in Hr'. injection Hr' as <-. right. constructor.
Qed.

Lemma Retry_ok k now id t : table_inv k t -> wp (Retry works now id) (fun _ => op_ok t) t.
Proof.
  intros Ht. apply wp_wrap, wp_stmt; [| intros; by eapply op_ok_refl].
  destruct Ht as [_ Hi Hl]. split; [| split; [by apply ids_ok_update_id | done]].
  apply evolves_update_id. intros r _. destruct (has_status StatusDead r) eqn:E1; [right; constructor; left; by apply status_of |].
  destruct (has_status StatusFailed r) eqn:E2; [right; constructor; right; by apply status_of | by left].
Qed.

Lemma Prune_ok k now olderThan t : table_inv k t -> wp (Prune works now olderThan) (fun _ => op_ok t) t.
Proof.
  intros Ht. apply wp_wrap, wp_stmt; [| intros; by eapply op_ok_refl].
  destruct Ht as [_ Hi Hl]. split; [| split; [by apply ids_ok_delete | done]].
  apply evolves_delete. intros r Hr. apply andb_prop in Hr as [Hr _]. constructor.
  apply orb_prop in Hr as [Hr | Hr]; [left | right]; by apply status_of.
Qed.

Lemma Reap_ok k now olderThan t : table_inv k t -> wp (ReapOrphaned works now olderThan) (fun _ => op_ok t) t.
Proof.
  intros Ht. unfold ReapOrphaned.
  assert (forall (p : bool) (r : Row), has_status StatusRunning r && p && timePred now olderThan r = true -> r_Status r = StatusRunning /\ p = true) as HP.
  { intros p r E; apply andb_prop in E; destruct E as [E E3]; apply andb_prop in E; destruct E as [E1 E2]. split; [by apply status_of | done]. }
  apply wp_bind, wp_wrap, wp_stmt; [| intros; by eapply op_ok_refl]. cbn [wrap].
  apply wp_bind, wp_wrap, wp_stmt.
  - apply wp_ret. eapply reap_ok; [done | |].
    + intros r Hr. apply HP in Hr as [Hs Hm]. split; [constructor; [done | lia] | done].
    + intros r Hr. apply HP in Hr as [Hs Hm]. constructor; [done | lia].
  - intros _ e. cbn [wrap]. destruct Ht as [_ Hi Hl]. split; [| split; [by apply ids_ok_where | done]].
    apply evolves_where. intros r Hr. apply HP in Hr as [Hs Hm]. constructor; [done | lia].
Qed.

Lemma EnqueueAt_ok k now jobType payload runAt t :
  table_inv k t -> wp (EnqueueAt works now jobType payload runAt) (fun _ => op_ok t) t.
Proof.
  intros Ht. apply wp_EnqueueAt; [intros; by eapply op_ok_refl | by eapply op_ok_refl |]. intros data _.
  enough (op_ok t (insert_row (mkRow (str "default") jobType data StatusPending 0 0 3 (Format runAt) None None None (Format now)) t).1) by done.
  destruct Ht as [_ Hi Hl]. split; [| split; [by apply ids_ok_insert | cbn; lia]].
  apply evolves_insert; [| constructor]. apply eq_None_not_Some. intros Hs%Hi. lia.
Qed.

Lemma run_op_ok k o db : k < 2 ^ 62 -> table_inv k (table db) -> op_ok (table db) (table (run_op works o db)).
Proof.
  intros Hk Ht. destruct o; cbn [run_op].
  - by eapply EnqueueAt_ok.
  - by eapply ClaimNext_ok.
  - by eapply Complete_ok.
  - by eapply Fail_ok.
  - by eapply Retry_ok.
  - by eapply Prune_ok.
  - by eapply Reap_ok.
  - unfold maybeEnqueue, query, stmt. destruct (works (db_calls db)); [| by eapply op_ok_refl].
    cbn beta iota. case_match; [by eapply op_ok_refl |]. by eapply (EnqueueAt_ok k now _ _ now (table db)).
Qed.

Lemma run_ops_inv ops db k :
  0 <= k -> k + len ops < 2 ^ 62 -> table_inv k (table db) -> table_inv (k + len ops) (table (run_ops works ops db)).
Proof.
  revert k db. induction ops as [| o ops IH]; intros k db Hk Hl Ht.
  { rewrite len_nil. by replace (k + 0) with k by lia. }
  rewrite len_cons in *. pose proof (len_nonneg ops). cbn [run_ops fold_left].
  replace (k + (1 + len ops)) with (k + 1 + len ops) by lia. apply (IH (k + 1)); [lia | lia |].
  eapply op_ok_inv; [done | done |]. apply (run_op_ok k); [lia | done].
Qed.

Lemma empty_inv : table_inv 0 (table empty_db).
Proof. split; [intros id r [=] | intros id [r [=]] | done]. Qed.

(** ** Claims of rows *)

Lemma alter_some (f : Row -> Row) (m : gmap Z Row) id r : m !! id = Some r -> alter f id m = <[id := f r]> m.
Proof.
  intros Hm. apply map_eq. intros i. destruct (decide (id = i)) as [<- | Hne].
  - by rewrite lookup_alter_eq, lookup_insert_eq, Hm.
  - by rewrite lookup_alter_ne, lookup_insert_ne.
Qed.

Lemma eligible_pending queue now r : eligible queue now r = true -> r_Status r = StatusPending.
Proof. unfold eligible. intros [[_ Hp]%andb_prop _]%andb_prop. by apply status_of. Qed.

(** What [ClaimNext] may answer, and leave behind. *)
Definition claim_answer (now : Z) (queue : bytes) (t : Table) (r : result (option Job)) (t' : Table) : Prop :=
  match r with
  | Ok (Some j) => exists row,
      rows t !! ID j = Some row /\ eligible queue (Format now) row = true /\
      (forall id' row', rows t !! id' = Some row' -> eligible queue (Format now) row' = true -> claim_order row row' = true) /\
      job j = claimed (Format now) row /\ rows t' = <[ID j := job j]> (rows t)
  | Ok None => t' = t /\ forall id row, rows t !! id = Some row -> eligible queue (Format now) row = false
  | Err _ => fails works
  | Panic => False
  end.

Lemma ClaimNext_answer now queue t : wp (ClaimNext works now queue) (claim_answer now queue t) t.
Proof.
  apply (@wp_ClaimNext works P PL); [| done |].
  - intros Hp. split; [done |]. by eapply pick_none.
  - intros id Hp. split; [| done]. intros r Hr. destruct (pick_some _ _ _ Hp) as (row & Hrow & He & Hb).
    cbn in Hr. rewrite lookup_alter_eq, Hrow in Hr. injection Hr as <-.
    exists row. split; [done |]. split; [done |]. split; [done |]. split; [done |]. cbn. by apply alter_some.
Qed.

(** A reap without deadline takes every running row, one with a deadline those that started
    before it. *)
Definition overdue (now olderThan : Z) (r : Row) : bool :=
  (olderThan <=? 0) ||
  match StartedAt r with Some t => negb (Format (now - olderThan) <=? t) | None => true end.

Lemma timePred_overdue now olderThan r : timePred now olderThan r = overdue now olderThan r.
Proof.
  unfold timePred, overdue. rewrite Z.leb_antisym. destruct (0 <? olderThan); [| done].
  destruct (StartedAt r) as [t |]; [| done]. cbn. by rewrite Z.leb_antisym, negb_involutive.
Qed.

(** The operations that end the claim of the running row [r]: its completion, its failure, and a
    reap that takes rows as old as it. *)
Definition gives_back (id : Z) (r : Row) (o : op) : bool :=
  match o with
  | OpComplete _ id' | OpFail _ id' _ => id' =? id
  | OpReap now olderThan => overdue now olderThan r
  | _ => false
  end.

Lemma EnqueueAt_keeps now jobType payload runAt id r t :
  ids_ok t -> rows t !! id = Some r ->
  wp (EnqueueAt works now jobType payload runAt) (fun _ t' => rows t' !! id = Some r) t.
Proof.
  intros Hi Hr. apply wp_EnqueueAt; [done | done |]. intros data _ row.
  assert (last_id t + 1 <> id) as Hne by (specialize (Hi id (mk_is_Some _ _ Hr)); lia).
  split; [| intros _ _]; cbn; by rewrite lookup_insert_ne.
Qed.

Lemma running_kept id r o db :
  ids_ok (table db) -> rows (table db) !! id = Some r -> r_Status r = StatusRunning -> gives_back id r o = false ->
  rows (table (run_op works o db)) !! id = Some r.
Proof.
  intros Hi Hr Hs Hg. set (Q := fun t' => rows t' !! id = Some r).
  assert (Q (table db)) as H0 by exact Hr. revert db Hi Hr H0.
  enough (forall t, ids_ok t -> rows t !! id = Some r -> Q t ->
    forall db, table db = t -> Q (table (run_op works o db))) as HE by (intros db Hi Hr H0; by eapply HE).
  intros t Hi Hr H0. destruct o; cbn [run_op gives_back] in *; try done.
  - exact (EnqueueAt_keeps now jobType payload runAt id r t Hi Hr).
  - refine (@wp_ClaimNext works P PL now queue (fun _ => Q) t _ _ _); [done | done |]. intros id' Hp.
    destruct (pick_some _ _ _ Hp) as (r' & Hr' & He%eligible_pending & _).
    enough (Q (update_id id' (claimed (Format now)) t).1) by done. unfold Q. cbn. rewrite lookup_alter_ne; congruence.
  - refine (wp_Complete works now id0 (fun _ => Q) t _ _); [| done]. unfold Q. cbn. rewrite lookup_alter_ne; [done | lia].
  - refine (wp_Fail works now id0 jobErr (fun _ => Q) t _ _); [done |]. intros r' _. unfold Q. cbn.
    rewrite lookup_alter_ne; [done | lia].
  - refine (wp_wrap "retry job" _ (fun _ => Q) t (wp_stmt works _ (fun _ => Q) t _ _)); [| done]. unfold Q. cbn.
    destruct (decide (id0 = id)) as [-> | Hne]; [| by rewrite lookup_alter_ne].
    rewrite lookup_alter_eq, Hr. cbn. unfold has_status. by rewrite Hs.
  - refine (wp_wrap "prune jobs" _ (fun _ => Q) t (wp_stmt works _ (fun _ => Q) t _ _)); [| done]. unfold Q. cbn.
    apply map_lookup_filter_Some. split; [done |]. cbn. unfold prunable, has_status. rewrite Hs. by intros [].
  - assert (forall p f t', Q t' -> Q (update_where (fun r => has_status StatusRunning r && p r && timePred now olderThan r) f t').1) as HU.
    { intros p f t' Hq. unfold Q in *. cbn. rewrite lookup_fmap, Hq. cbn. by rewrite timePred_overdue, Hg, andb_false_r. }
    unfold ReapOrphaned. refine (@wp_bind Z Z _ _ (fun _ => Q) t _).
    apply wp_wrap, wp_stmt; [| done]. cbn [wrap]. refine (@wp_bind Z Z _ _ (fun _ => Q) _ _).
    apply wp_wrap, wp_stmt; [| intros _ e; by apply HU]. apply wp_ret. by apply HU, HU.
  - intros db <-. unfold maybeEnqueue, query, stmt. destruct (works (db_calls db)); [| done]. cbn beta iota.
    case_match; [done |]. by apply (EnqueueAt_keeps now _ _ now id r (table db)).
Qed.

Lemma running_kept_ops id r ops db k :
  0 <= k -> k + len ops < 2 ^ 62 -> table_inv k (table db) -> rows (table db) !! id = Some r -> r_Status r = StatusRunning ->
  forallb (fun o => negb (gives_back id r o)) ops = true ->
  rows (table (run_ops works ops db)) !! id = Some r.
Proof.
  revert k db. induction ops as [| o ops IH]; intros k db Hk Hl Ht Hr Hs Hg; [done |].
  rewrite len_cons in Hl. pose proof (len_nonneg ops). apply andb_prop in Hg as [Hg Hgs].
  apply (IH (k + 1)); [lia | lia | | | done | done].
  - eapply op_ok_inv; [done | done |]. apply (run_op_ok k); [lia | done].
  - apply running_kept; [by destruct Ht | done | done |]. by apply negb_true_iff.
Qed.

(** ** Attempts left *)

Definition retries (id : Z) (o : op) : bool := match o with OpRetry _ id' => id' =? id | _ => false end.

Definition waiting (r : Row) : Prop := r_Status r = StatusPending \/ r_Status r = StatusRunning.

Definition unspent (t : Table) (id : Z) : Prop :=
  forall r, rows t !! id = Some r -> waiting r -> Attempts r < MaxAttempts r.

(** A dead row stays out of the queues unless an operator retries it. *)
Lemma dead_stays k id r o db :
  k < 2 ^ 62 -> table_inv k (table db) -> rows (table db) !! id = Some r -> r_Status r = StatusDead -> retries id o = false ->
  forall r', rows (table (run_op works o db)) !! id = Some r' -> ~ waiting r'.
Proof.
  intros Hk Ht Hr Hs Ho. destruct (inv_rows _ _ Ht _ _ Hr) as [Hw Ha]. assert (~ waiting r) as Hn by (intros [|]; congruence).
  set (Q := fun t' => forall r', rows t' !! id = Some r' -> ~ waiting r').
  assert (forall t, rows t !! id = Some r -> Q t) as H0 by (intros t Hrt r' Hr'; congruence).
  assert (forall id' f t, rows t !! id = Some r -> (id' = id -> ~ waiting (f r)) -> Q (update_id id' f t).1) as HU.
  { intros id' f t Hrt Hf r'. cbn. destruct (decide (id' = id)) as [-> | Hne].
    - rewrite lookup_alter_eq, Hrt. intros [= <-]. by apply Hf.
    - rewrite lookup_alter_ne by done. by apply H0. }
  assert (Q (table db)) as HQ by by apply H0. destruct Ht as [_ Hi _]. change (Q (table (run_op works o db))).
  destruct o; cbn [run_op retries] in *; try done.
  - apply H0. exact (EnqueueAt_keeps now jobType payload runAt id r (table db) Hi Hr db eq_refl).
  - refine (@wp_ClaimNext works P PL now queue (fun _ => Q) (table db) _ _ _ db eq_refl); [done | done |].
    intros id' (r' & Hr' & He%eligible_pending & _)%pick_some.
    enough (Q (update_id id' (claimed (Format now)) (table db)).1) by done. apply HU; [done | congruence].
  - refine (wp_Complete works now id0 (fun _ => Q) (table db) _ _ db eq_refl); [| done]. apply HU; [done |]. by intros _ [|].
  - refine (wp_Fail works now id0 jobErr (fun _ => Q) (table db) _ _ db eq_refl); [done |]. intros r1 Hr1. apply HU; [done |].
    intros ->. rewrite Hr in Hr1. injection Hr1 as <-. rewrite (small_attempts r k) by done.
    pose proof (wf_dead _ Hw Hs). destruct (Z.leb_spec (MaxAttempts r) (Attempts r + 1)); [by intros [|] | lia].
  - refine (wp_wrap "retry job" _ (fun _ => Q) (table db) (wp_stmt works _ (fun _ => Q) (table db) _ _) db eq_refl); [| done].
    apply HU; [done | lia].
  - refine (wp_wrap "prune jobs" _ (fun _ => Q) (table db) (wp_stmt works _ (fun _ => Q) (table db) _ _) db eq_refl); [| done].
    intros r'. cbn. rewrite map_lookup_filter_Some. intros [Hr' _]. congruence.
  - assert (forall p f t', rows t' !! id = Some r ->
      rows (update_where (fun r => has_status StatusRunning r && p r && timePred now olderThan r) f t').1 !! id = Some r) as HW.
    { intros p f t' Hq. cbn. rewrite lookup_fmap, Hq. cbn. unfold has_status. by rewrite Hs. }
    apply H0. refine (@wp_bind Z Z _ _ (fun _ t' => rows t' !! id = Some r) (table db) _ db eq_refl).
    apply wp_wrap, wp_stmt; [| done]. cbn [wrap]. refine (@wp_bind Z Z _ _ (fun _ t' => rows t' !! id = Some r) _ _).
    apply wp_wrap, wp_stmt; [| intros _ e; by apply HW]. apply wp_ret. by apply HW, HW.
  - unfold maybeEnqueue, query, stmt. destruct (works (db_calls db)); [| done]. cbn beta iota.
    case_match; [done |]. apply H0. by apply (EnqueueAt_keeps now _ _ now id r (table db)).
Qed.

Lemma unspent_kept k id o db :
  k < 2 ^ 62 -> table_inv k (table db) -> retries id o = false ->
  unspent (table db) id -> unspent (table (run_op works o db)) id.
Proof.
  intros Hk Ht Ho Hu r' Hr' Hp. pose proof (run_op_ok k o db Hk Ht) as [He _]. specialize (He id).
  inversion He as [Heq | y Hl Hy]; [apply Hu; [congruence | done] |]. subst y. rewrite Hr' in Hl.
  inversion Hl as [? ? ? ? E | ? r E | ? r E | ? ? r E | ? r Hd E | | r Hd ? E | ? r ? ? E]; subst r'; symmetry in E; try done.
  - apply (Hu r); [done | by left].
  - by destruct Hp.
  - revert Hp. unfold failed. destruct (Z.leb_spec (MaxAttempts r) (Attempts r + 1)); [by intros [|] | done].
  - exfalso. destruct Hd as [Hd | Hd].
    + by apply (dead_stays k id r o db Hk Ht E Hd Ho _ Hr').
    + destruct (inv_rows _ _ Ht _ _ E) as [[] _]. done.
  - by destruct Hp.
Qed.

Lemma unspent_ops id ops db k :
  0 <= k -> k + len ops < 2 ^ 62 -> table_inv k (table db) -> existsb (retries id) ops = false ->
  unspent (table db) id -> unspent (table (run_ops works ops db)) id.
Proof.
  revert k db. induction ops as [| o ops IH]; intros k db Hk Hl Ht Hr Hu; [done |].
  rewrite len_cons in Hl. pose proof (len_nonneg ops). apply orb_false_elim in Hr as [Ho Hr].
  apply (IH (k + 1)); [lia | lia | | done |].
  - eapply op_ok_inv; [done | done |]. apply (run_op_ok k); [lia | done].
  - eapply (unspent_kept k); [lia | done..].
Qed.

(** ** Backoff *)

Lemma backoff_le n : backoff_of n <= maxBackoff.
Proof. unfold backoff_of. destruct (Z.ltb_spec maxBackoff (int64 (int64 (shl1 n * 5) * second))); lia. Qed.

(** 2^n * 5 s, capped, while nothing wraps. *)
Lemma backoff_exact n : 0 <= n <= 30 -> backoff_of n = Z.min (2 ^ n * 5 * second) maxBackoff.
Proof.
  intros Hn. assert (1 <= 2 ^ n <= 2 ^ 30) as Hp.
  { split; [change 1 with (2 ^ 0); apply Z.pow_le_mono_r; lia | apply Z.pow_le_mono_r; lia]. }
  assert (forall z, 0 <= z < 2 ^ 63 -> int64 z = z) as Hi by (intros z Hz; unfold int64; rewrite Z.mod_small; lia).
  assert (shl1 n = 2 ^ n) as Hs.
  { unfold shl1. replace (uint64 n) with n by (unfold uint64; rewrite Z.mod_small; lia).
    destruct (Z.ltb_spec n 64); [| lia]. rewrite Z.shiftl_1_l. apply Hi. lia. }
  unfold backoff_of. rewrite Hs, (Hi (2 ^ n * 5)) by lia. rewrite Hi by (unfold second; lia).
  destruct (Z.ltb_spec maxBackoff (2 ^ n * 5 * second)); lia.
Qed.

(** ** The worker's budget *)

(** The runs a row can still ask for: its attempts left, one at least while it is pending. *)
Definition row_budget (r : Row) : Z :=
  if has_status StatusPending r then Z.max 1 (MaxAttempts r - Attempts r) else 0.

Definition budget (t : Table) : Z := map_fold (fun _ r n => row_budget r + n) 0 (rows t).

Lemma row_budget_nonneg r : 0 <= row_budget r.
Proof. unfold row_budget. case_match; lia. Qed.

Lemma row_budget_pending r : r_Status r = StatusPending -> row_budget r = Z.max 1 (MaxAttempts r - Attempts r).
Proof. intros Hs. unfold row_budget, has_status. by rewrite Hs. Qed.

Lemma row_budget_other r : r_Status r <> StatusPending -> row_budget r = 0.
Proof. intros Hs. unfold row_budget, has_status. by rewrite bool_decide_false. Qed.

Lemma budget_fold_insert id r (m : gmap Z Row) : m !! id = None ->
  map_fold (fun _ r n => row_budget r + n) 0 (<[id := r]> m) = row_budget r + map_fold (fun _ r n => row_budget r + n) 0 m.
Proof. intros Hn. apply (map_fold_insert_L (fun _ r n => row_budget r + n)); [| done]. intros. lia. Qed.

Lemma budget_insert id r r' (m : gmap Z Row) : m !! id = Some r ->
  map_fold (fun _ r n => row_budget r + n) 0 (<[id := r']> m) =
  map_fold (fun _ r n => row_budget r + n) 0 m - row_budget r + row_budget r'.
Proof.
  intros Hr. rewrite <- (insert_delete_id m id r Hr) at 2. rewrite <- (insert_delete_eq m id r').
  rewrite !budget_fold_insert by apply lookup_delete_eq. lia.
Qed.

Lemma budget_nonneg t : 0 <= budget t.
Proof.
  unfold budget. apply (map_fold_weak_ind (fun n _ => 0 <= n)); [done |]. intros i x m n _ Hn. pose proof (row_budget_nonneg x). lia.
Qed.

(** One row of [t] was rewritten by a run of its handler, or by a claim that went no further. *)
Definition spends (queue : bytes) (now later : Z) (t t' : Table) : Prop :=
  exists id r r',
    rows t !! id = Some r /\ eligible queue (Format now) r = true /\ rows t' = <[id := r']> (rows t) /\
    row_budget r' < row_budget r /\ r_Queue r' = r_Queue r /\ RunAt r' <= Z.max (RunAt r) (Format (later + maxBackoff)) /\
    (fails works \/ r_Status r' = StatusPending \/ r_Status r' = StatusCompleted \/ r_Status r' = StatusDead).

(** What one tick of the worker does. *)
Definition ticked (queue : bytes) (now later : Z) (t t' : Table) (ran : option Job) : Prop :=
  (t' = t /\ ran = None /\ (fails works \/ forall id r, rows t !! id = Some r -> eligible queue (Format now) r = false)) \/
  spends queue now later t t'.

Lemma Format_mono a b : a <= b -> Format a <= Format b.
Proof. intros. apply Z.div_le_mono; unfold second; lia. Qed.

Lemma failed_spends now later queue k t t1 id r err :
  k < 2 ^ 62 -> table_inv k t -> rows t !! id = Some r -> eligible queue (Format now) r = true ->
  rows t1 = <[id := claimed (Format now) r]> (rows t) ->
  wp (Fail works later id err) (fun _ => spends queue now later t) t1.
Proof.
  intros Hk Ht Hr He Ht1. pose proof (eligible_pending _ _ _ He) as Hp.
  destruct (inv_rows _ _ Ht _ _ Hr) as [Hw Ha].
  assert (rows t1 !! id = Some (claimed (Format now) r)) as Hr1 by (rewrite Ht1; apply lookup_insert_eq).
  apply wp_Fail.
  - intros [Hf | Hn] _; [| congruence]. exists id, r, (claimed (Format now) r). repeat (split; [done |]).
    split; [rewrite (row_budget_pending r Hp), row_budget_other by done; lia |]. split; [done |]. split; [cbn; lia | by left].
  - intros r1 Hr1'. rewrite Hr1 in Hr1'. injection Hr1' as <-. cbn [Attempts MaxAttempts claimed set_started with_status].
    rewrite (small_attempts r k) by done. eexists id, r, _. split; [done |]. split; [done |].
    split. { cbn. rewrite (alter_some _ _ _ _ Hr1), Ht1, insert_insert_eq. reflexivity. }
    rewrite (row_budget_pending r Hp). unfold failed. destruct (Z.leb_spec (MaxAttempts r) (Attempts r + 1)).
    + rewrite row_budget_other by done. split; [lia |]. split; [done |]. split; [cbn; lia | auto].
    + rewrite row_budget_pending by done. cbn [Attempts MaxAttempts set_run_at set_error set_attempts with_status claimed set_started].
      split; [lia |]. split; [done |]. split; [| auto]. cbn.
      pose proof (backoff_le (Attempts r + 1)). pose proof (Format_mono (later + backoff_of (Attempts r + 1)) (later + maxBackoff)). lia.
Qed.

Lemma completed_spends now later queue t t1 id r :
  rows t !! id = Some r -> eligible queue (Format now) r = true ->
  rows t1 = <[id := claimed (Format now) r]> (rows t) ->
  wp (Complete works later id) (fun _ => spends queue now later t) t1.
Proof.
  intros Hr He Ht1. pose proof (eligible_pending _ _ _ He) as Hp.
  assert (rows t1 !! id = Some (claimed (Format now) r)) as Hr1 by (rewrite Ht1; apply lookup_insert_eq).
  apply wp_Complete.
  - eexists id, r, _. split; [done |]. split; [done |].
    split. { cbn. rewrite (alter_some _ _ _ _ Hr1), Ht1, insert_insert_eq. reflexivity. }
    rewrite (row_budget_pending r Hp), row_budget_other by done. split; [lia |]. split; [done |]. split; [cbn; lia | auto].
  - intros Hf _. exists id, r, (claimed (Format now) r). repeat (split; [done |]).
    split; [rewrite (row_budget_pending r Hp), row_budget_other by done; lia |]. split; [done |]. split; [cbn; lia | by left].
Qed.

Lemma processNext_ticked w now later k db :
  k < 2 ^ 62 -> table_inv k (table db) ->
  ticked (queueName w) now later (table db) (table (processNext works w now later db).1) (processNext works w now later db).2.
Proof.
  intros Hk Ht. unfold processNext.
  pose proof (@wp_ClaimNext works P PL now (queueName w) (fun r t' => match r with
    | Ok (Some j) => exists r, rows (table db) !! ID j = Some r /\ eligible (queueName w) (Format now) r = true /\
        rows t' = <[ID j := claimed (Format now) r]> (rows (table db))
    | Ok None => t' = table db /\ forall id r, rows (table db) !! id = Some r -> eligible (queueName w) (Format now) r = false
    | _ => fails works /\ (t' = table db \/ spends (queueName w) now later (table db) t')
    end) (table db)) as Hc.
  lapply Hc; [clear Hc; intros Hc | intros Hp; split; [done | by eapply pick_none]].
  lapply Hc; [clear Hc; intros Hc | intros Hf _; by auto].
  lapply Hc; [clear Hc; intros Hc |].
  2: { intros id Hp. destruct (pick_some _ _ _ Hp) as (r & Hr & He & _). cbn. rewrite (alter_some _ _ _ _ Hr). split.
    - intros r' _. by exists r.
    - intros Hf _. split; [done |]. right. exists id, r, (claimed (Format now) r). repeat (split; [done |]).
      rewrite (row_budget_pending r) by by eapply eligible_pending. rewrite row_budget_other by done.
      split; [lia |]. split; [done |]. split; [cbn; lia | by left]. }
  specialize (Hc db eq_refl). destruct (ClaimNext works now (queueName w) db) as [db1 [[j |] | e |]]; cbn [fst snd] in *.
  - destruct Hc as (r & Hr & He & Ht1). right.
    destruct (handlers w !! _) as [h |]; [destruct (safe_Call _ _) |]; cbn [fst].
    + by apply (failed_spends now later (queueName w) k (table db) (table db1) (ID j) r _ Hk Ht Hr He Ht1).
    + by apply (completed_spends now later (queueName w) (table db) (table db1) (ID j) r Hr He Ht1).
    + by apply (failed_spends now later (queueName w) k (table db) (table db1) (ID j) r _ Hk Ht Hr He Ht1).
  - left. destruct Hc as [-> Hn]. by auto.
  - destruct Hc as [Hf [-> | Hs]]; [left; auto | by right].
  - destruct Hc as [Hf [-> | Hs]]; [left; auto | by right].
Qed.

(** ** Ticks of a worker *)

(** The jobs whose handlers ran over a list of ticks, claim and bookkeeping instants. *)
Fixpoint worker_ticks (w : Worker) (ticks : list (Z * Z)) (db : DB) : DB * list Job :=
  match ticks with
  | [] => (db, [])
  | (now, later) :: ticks =>
      let '(db, ran) := processNext works w now later db in
      let '(db, jobs) := worker_ticks w ticks db in
      (db, match ran with Some j => j :: jobs | None => jobs end)
  end.

Lemma processNext_inv w now later db k :
  0 <= k -> k + 1 < 2 ^ 62 -> table_inv k (table db) -> table_inv (k + 2) (table (processNext works w now later db).1).
Proof.
  intros Hk Hl Ht. unfold processNext.
  assert (forall o db', 0 <= k -> table_inv (k + 1) (table db') -> table_inv (k + 2) (table (run_op works o db'))) as HO.
  { intros o db' _ Ht'. replace (k + 2) with (k + 1 + 1) by lia.
    eapply op_ok_inv; [lia | done |]. apply (run_op_ok (k + 1)); [lia | done]. }
  assert (table_inv (k + 1) (table (ClaimNext works now (queueName w) db).1)) as Hc.
  { eapply op_ok_inv; [lia | done |]. apply (run_op_ok k (OpClaim now (queueName w)) db); [lia | done]. }
  assert (forall db', table_inv (k + 1) (table db') -> table_inv (k + 2) (table db')) as HW.
  { intros db' [Hr Hi H0]. split; [| done | done]. intros id r Hid. destruct (Hr id r Hid). split; [done | lia]. }
  destruct (ClaimNext works now (queueName w) db) as [db1 [[j |] | e |]]; cbn [fst] in *; [| by apply HW..].
  destruct (handlers w !! _) as [h |]; [destruct (safe_Call _ _) as [err |] |]; cbn [fst].
  - by apply (HO (OpFail later (ID j) (Some err))).
  - by apply (HO (OpComplete later (ID j))).
  - by apply (HO (OpFail later (ID j) (Some _))).
Qed.

Lemma spends_budget queue now later t t' : spends queue now later t t' -> budget t' < budget t.
Proof.
  intros (id & r & r' & Hr & _ & Ht & Hb & _). unfold budget. rewrite Ht, (budget_insert _ r) by done. lia.
Qed.

Lemma worker_ticks_bound w ticks db k :
  0 <= k -> k + 2 * len ticks < 2 ^ 62 -> table_inv k (table db) ->
  len (worker_ticks w ticks db).2 <= budget (table db).
Proof.
  revert k db. induction ticks as [| [now later] ticks IH]; intros k db Hk Hl Ht; cbn [worker_ticks].
  { cbn [snd]. rewrite len_nil. apply budget_nonneg. }
  rewrite len_cons in Hl. pose proof (len_nonneg ticks).
  pose proof (processNext_ticked w now later k db ltac:(lia) Ht) as Hs.
  pose proof (processNext_inv w now later db k Hk ltac:(lia) Ht) as Hi.
  destruct (processNext works w now later db) as [db1 ran]. cbn [fst snd] in *.
  pose proof (IH (k + 2) db1 ltac:(lia) ltac:(lia) Hi) as HI.
  destruct (worker_ticks w ticks db1) as [db2 jobs]. cbn [snd] in *.
  destruct Hs as [(Heq & -> & _) | Hs]; [by rewrite Heq in HI |].
  apply spends_budget in Hs. destruct ran; rewrite ?len_cons; lia.
Qed.

(** Ticks that are at least the longest backoff apart, the first not before [t0]. *)
Fixpoint spaced (t0 : Z) (ticks : list (Z * Z)) : Prop :=
  match ticks with
  | [] => True
  | (now, later) :: ticks => t0 <= now <= later /\ spaced (later + maxBackoff) ticks
  end.

(** Where a row of the queue may be while only this worker runs. *)
Definition on_its_way (queue : bytes) (due : Z) (r : Row) : Prop :=
  r_Queue r = queue /\
  ((r_Status r = StatusPending /\ RunAt r <= Format due) \/ r_Status r = StatusCompleted \/ r_Status r = StatusDead).

Definition settled (queue : bytes) (r : Row) : Prop :=
  r_Queue r = queue /\ (r_Status r = StatusCompleted \/ r_Status r = StatusDead).

Lemma no_budget_settled queue due t id r :
  budget t <= 0 -> rows t !! id = Some r -> on_its_way queue due r -> settled queue r.
Proof.
  intros Hb Hr [Hq [[Hp _] | Hs]]; [| done].
  assert (budget t = row_budget r + budget (mkTable (delete id (rows t)) 0)) as Heq.
  { unfold budget. cbn [rows]. rewrite <- (insert_delete_id (rows t) id r Hr) at 1.
    apply budget_fold_insert, lookup_delete_eq. }
  pose proof (budget_nonneg (mkTable (delete id (rows t)) 0)). rewrite (row_budget_pending r Hp) in Heq. lia.
Qed.

Lemma due_eligible queue now t0 r :
  t0 <= now -> on_its_way queue t0 r -> r_Status r = StatusPending -> eligible queue (Format now) r = true.
Proof.
  intros Ht [Hq [[Hp Hr] | [Hs | Hs]]] Hp'; [| congruence..]. unfold eligible, has_status.
  rewrite !bool_decide_true by done. cbn. apply Z.leb_le. pose proof (Format_mono t0 now Ht). lia.
Qed.

Lemma on_its_way_mono queue a b r : a <= b -> on_its_way queue a r -> on_its_way queue b r.
Proof. intros Hab [Hq [[Hp Hr] | Hs]]; split; auto. left. split; [done |]. pose proof (Format_mono a b Hab). lia. Qed.

Lemma settled_kept w ticks db k id r :
  0 <= k -> k + 2 * len ticks < 2 ^ 62 -> table_inv k (table db) ->
  rows (table db) !! id = Some r -> settled (queueName w) r ->
  rows (table (worker_ticks w ticks db).1) !! id = Some r.
Proof.
  revert k db. induction ticks as [| [now later] ticks IH]; intros k db Hk Hl Ht Hr Hs; [done |]. cbn [worker_ticks].
  rewrite len_cons in Hl. pose proof (len_nonneg ticks).
  pose proof (processNext_ticked w now later k db ltac:(lia) Ht) as Htk.
  pose proof (processNext_inv w now later db k Hk ltac:(lia) Ht) as Hi.
  destruct (processNext works w now later db) as [db1 ran]. cbn [fst snd] in *.
  specialize (IH (k + 2) db1 ltac:(lia) ltac:(lia) Hi). destruct (worker_ticks w ticks db1) as [db2 jobs]. cbn [fst] in *.
  apply IH; [| done]. destruct Htk as [(-> & _) | (id0 & r0 & r0' & Hr0 & He0 & -> & _)]; [done |].
  rewrite lookup_insert_ne; [done |]. intros ->. rewrite Hr in Hr0. injection Hr0 as ->.
  apply eligible_pending in He0. destruct Hs as [_ [Hs | Hs]]; congruence.
Qed.

(** Every pending row of the queue is due. *)
Definition all_due (queue : bytes) (due : Z) (t : Table) : Prop :=
  forall id r, rows t !! id = Some r -> r_Queue r = queue -> r_Status r = StatusPending -> RunAt r <= Format due.

Lemma spends_due queue now later t0 t t' :
  ~ fails works -> t0 <= later + maxBackoff -> all_due queue t0 t -> spends queue now later t t' ->
  all_due queue (later + maxBackoff) t' /\
  forall id r, rows t !! id = Some r -> on_its_way queue t0 r ->
    exists r', rows t' !! id = Some r' /\ on_its_way queue (later + maxBackoff) r'.
Proof.
  intros Hnf Hlt Hdue (id0 & r0 & r0' & Hr0 & He0 & Heq & _ & Hq & Hrun & Hst).
  destruct Hst as [Hf | Hst]; [done |]. pose proof (eligible_pending _ _ _ He0) as Hp0.
  assert (r_Queue r0 = queue) as Hq0.
  { unfold eligible in He0. apply andb_prop in He0 as [[Hx _]%andb_prop _]. by apply bool_decide_eq_true_1 in Hx. }
  pose proof (Hdue _ _ Hr0 Hq0 Hp0). pose proof (Format_mono _ _ Hlt). split.
  - intros id r Hr Hqr Hp. rewrite Heq in Hr. destruct (decide (id0 = id)) as [<- | Hne].
    + rewrite lookup_insert_eq in Hr. injection Hr as <-. lia.
    + rewrite lookup_insert_ne in Hr by done. pose proof (Hdue _ _ Hr Hqr Hp). lia.
  - intros id r Hr Ho. rewrite Heq. destruct (decide (id0 = id)) as [<- | Hne].
    + rewrite lookup_insert_eq. exists r0'. split; [done |]. split; [congruence |].
      destruct Hst as [Hp | Hst]; [left; split; [done | lia] | by right].
    + rewrite lookup_insert_ne by done. exists r. split; [done |]. by eapply on_its_way_mono.
Qed.

Lemma worker_ticks_settle w ticks db k t0 id r :
  (forall n, works n = true) ->
  0 <= k -> k + 2 * len ticks < 2 ^ 62 -> table_inv k (table db) -> spaced t0 ticks -> budget (table db) <= len ticks ->
  all_due (queueName w) t0 (table db) -> rows (table db) !! id = Some r -> on_its_way (queueName w) t0 r ->
  exists r', rows (table (worker_ticks w ticks db).1) !! id = Some r' /\ settled (queueName w) r'.
Proof.
  intros Hw. assert (~ fails works) as Hnf by (intros [n Hn]; by rewrite Hw in Hn).
  revert k db t0 r. induction ticks as [| [now later] ticks IH]; intros k db t0 r Hk Hl Ht Hsp Hb Hdue Hr Ho.
  { rewrite len_nil in Hb. exists r. split; [done |]. by eapply no_budget_settled. }
  pose proof (settled_kept w ((now, later) :: ticks) db k id r Hk Hl Ht Hr) as Hkept. cbn [worker_ticks] in *.
  rewrite len_cons in *. pose proof (len_nonneg ticks). destruct Hsp as [Hnow Hsp].
  pose proof (processNext_ticked w now later k db ltac:(lia) Ht) as Hs.
  pose proof (processNext_inv w now later db k Hk ltac:(lia) Ht) as Hi.
  destruct (processNext works w now later db) as [db1 ran]. cbn [fst snd] in *.
  specialize (IH (k + 2) db1 (later + maxBackoff)).
  destruct (worker_ticks w ticks db1) as [db2 jobs]. cbn [fst] in *.
  destruct Hs as [(Heq & _ & Hne) | Hs].
  - destruct Hne as [Hf | Hne]; [done |]. exists r. enough (settled (queueName w) r) by auto.
    pose proof (Hne id r Hr) as Hel. destruct (decide (r_Status r = StatusPending)) as [Hp | Hp].
    + rewrite (due_eligible (queueName w) now t0 r) in Hel; [done | lia | done | done].
    + destruct Ho as [Hq [[? _] | Hst]]; [done | by split].
  - pose proof (spends_budget _ _ _ _ _ Hs) as Hd.
    assert (t0 <= later + maxBackoff) as Hlt by (unfold maxBackoff, second; lia).
    destruct (spends_due _ _ _ t0 _ _ Hnf Hlt Hdue Hs) as [Hdue' Hway].
    destruct (Hway id r Hr Ho) as (r' & Hr' & Ho'). apply (IH r'); (done || lia).
Qed.

End Life.

(** ** A choice that satisfies the laws: the best row in the map's order *)

Definition better (p : Row -> bool) (best : option (Z * Row)) (kv : Z * Row) : option (Z * Row) :=
  if p kv.2 then
    match best with
    | Some b => if claim_order b.2 kv.2 then best else Some kv
    | None => Some kv
    end
  else best.

#[export] Instance pick_first : Picks := fun p m => fst <$> fold_left (better p) (map_to_list m) None.

Lemma claim_order_trans r1 r2 r3 : claim_order r1 r2 = true -> claim_order r2 r3 = true -> claim_order r1 r3 = true.
Proof. unfold claim_order. lia. Qed.

Lemma claim_order_total r1 r2 : claim_order r1 r2 = false -> claim_order r2 r1 = true.
Proof. unfold claim_order. lia. Qed.

(** The best selected row of the ones seen. *)
Definition best_of (p : Row -> bool) (l : list (Z * Row)) (best : option (Z * Row)) : Prop :=
  match best with
  | Some b => b ∈ l /\ p b.2 = true /\ forall kv, kv ∈ l -> p kv.2 = true -> claim_order b.2 kv.2 = true
  | None => forall kv, kv ∈ l -> p kv.2 = false
  end.

Lemma better_best p seen best kv : best_of p seen best -> best_of p (seen ++ [kv]) (better p best kv).
Proof.
  assert (claim_order kv.2 kv.2 = true) as Hr by (unfold claim_order; lia).
  unfold better. destruct (p kv.2) eqn:Hp; [destruct best as [b |]; [destruct (claim_order b.2 kv.2) eqn:Ho |] |]; cbn.
  - intros (Hin & Hpb & Hb). split; [set_solver |]. split; [done |]. intros kv' Hkv'. destruct (decide (kv' = kv)) as [-> | ]; [done |].
    apply Hb. set_solver.
  - intros (Hin & Hpb & Hb). split; [set_solver |]. split; [done |]. intros kv' Hkv' Hp'.
    destruct (decide (kv' = kv)) as [-> | ]; [done |].
    eapply claim_order_trans; [by apply claim_order_total | apply Hb; set_solver].
  - intros Hn. split; [set_solver |]. split; [done |]. intros kv' Hkv' Hp'. destruct (decide (kv' = kv)) as [-> | ]; [done |].
    rewrite (Hn kv') in Hp' by set_solver. done.
  - destruct best as [b |]; cbn.
    + intros (Hin & Hpb & Hb). split; [set_solver |]. split; [done |]. intros kv' Hkv' Hp'.
      destruct (decide (kv' = kv)) as [-> | ]; [congruence | apply Hb; set_solver].
    + intros Hn kv' Hkv'. destruct (decide (kv' = kv)) as [-> | ]; [done | apply Hn; set_solver].
Qed.

Lemma fold_better p l seen best : best_of p seen best -> best_of p (seen ++ l) (fold_left (better p) l best).
Proof.
  revert seen best. induction l as [| kv l IH]; intros seen best Hb; cbn [fold_left]; [by rewrite app_nil_r |].
  replace (seen ++ kv :: l) with ((seen ++ [kv]) ++ l) by by rewrite <- app_assoc. by apply IH, better_best.
Qed.

#[export] Instance pick_first_laws : PicksLaws pick_first.
Proof.
  assert (forall p m, best_of p (map_to_list m) (fold_left (better p) (map_to_list m) None)) as HB.
  { intros p m. apply (fold_better p (map_to_list m) [] None). intros kv Hkv. set_solver. }
  split; intros p m; specialize (HB p m); unfold pick, pick_first;
    (destruct (fold_left (better p) (map_to_list m) None) as [[id0 r0] |]; [| try done]).
  - intros id [= <-]. destruct HB as (Hin & Hp & Hb). exists r0. split; [by apply elem_of_map_to_list |]. split; [done |].
    intros id' r' Hr' Hp'. by apply (Hb (id', r')), Hp'; apply elem_of_map_to_list.
  - done.
  - intros _ id r Hr. apply (HB (id, r)). by apply elem_of_map_to_list.
Qed.

(** ** Claims *)

Section Claims.
Context (works : nat -> bool) {P : Picks} {PL : PicksLaws P}.

(** C31: Whatever the workers, schedulers and operators do, and whichever statements fail,
    every row has attempts that are not negative and at most the operations so far, a start
    time while it runs and a completion time once it is completed; a dead row has used its
    three attempts up, no row is ever "failed", and a row that no operator retried is pending
    or running only while it has used fewer than three attempts. *)
Theorem job_rows_well_formed (ops : list op) (id : Z) (r : Row) :
  len ops < 2 ^ 62 -> rows (table (run_ops works ops empty_db)) !! id = Some r ->
  row_wf r /\ Attempts r <= len ops /\ 0 < id <= last_id (table (run_ops works ops empty_db)) /\
  (existsb (retries id) ops = false -> waiting r -> Attempts r < 3).
Proof.
  intros Hl Hr. destruct (run_ops_inv works ops empty_db 0 ltac:(lia) Hl empty_inv) as [Hw Hi _].
  destruct (Hw id r Hr) as [Hrw Ha]. split; [done |]. split; [done |]. split; [by apply Hi |].
  intros Ho Hp. rewrite <- (wf_max _ Hrw). apply (unspent_ops works id ops empty_db 0); [lia | done | apply empty_inv | done.. ].
Qed.

(** C29: Every operation moves every row of a reachable table along the job lifecycle by one
    step at most: it is enqueued, claimed when pending, completed, failed, retried when
    dead, reaped when running, or pruned when completed or dead, and in no other way does
    a row appear, change or disappear. *)
Theorem operations_follow_lifecycle (ops : list op) (o : op) (id : Z) :
  len ops < 2 ^ 62 ->
  let db := run_ops works ops empty_db in
  reflc lifecycle (rows (table db) !! id) (rows (table (run_op works o db)) !! id).
Proof.
  intros Hl. apply (run_op_ok works (0 + len ops)); [lia |]. apply (run_ops_inv works ops empty_db 0); [lia | lia | apply empty_inv].
Qed.

(** [ClaimNext] answers with a due pending row of the queue that no other such row comes
    before, by priority and then by age, and marks that row running and no other; it answers
    that there is nothing only when no row is due, and otherwise only when a statement fails. *)
Theorem claim_next_exact (now : Z) (queue : bytes) (db : DB) :
  claim_answer works now queue (table db) (ClaimNext works now queue db).2 (table (ClaimNext works now queue db).1).
Proof. exact (ClaimNext_answer works now queue (table db) db eq_refl). Qed.

(** C30: A claim is exclusive while it lasts: the row stays as it was claimed and no claim answers
    with it, whatever the other workers, schedulers and operators do, until the row is completed
    or failed by its id, or taken back by a reap without deadline or with one that the row's
    start time has passed.  A reap that spares the row does not end the claim; one that takes
    it does not stop the worker, whose late outcome is still recorded
    ([late_failure_reruns]). *)
Theorem claim_is_exclusive (before ops : list op) (now now' : Z) (queue queue' : bytes) (j : Job) :
  len before + len ops < 2 ^ 61 ->
  let db := run_ops works before empty_db in
  (ClaimNext works now queue db).2 = Ok (Some j) ->
  forallb (fun o => negb (gives_back (ID j) (job j) o)) ops = true ->
  let db' := run_ops works ops (ClaimNext works now queue db).1 in
  rows (table db') !! ID j = Some (job j) /\
  forall j', (ClaimNext works now' queue' db').2 = Ok (Some j') -> ID j' <> ID j.
Proof.
  intros Hl db Hj Hg db'. pose proof (len_nonneg before). pose proof (len_nonneg ops).
  assert (table_inv (len before) (table db)) as Hi.
  { apply (run_ops_inv works before empty_db 0); [lia | lia | apply empty_inv]. }
  pose proof (ClaimNext_answer works now queue (table db) db eq_refl) as Hc. rewrite Hj in Hc.
  destruct Hc as (row & Hr & He & _ & Hjr & Ht).
  assert (rows (table db') !! ID j = Some (job j)) as Hd.
  { apply (running_kept_ops works (ID j) (job j) ops _ (len before + 1)); [lia | lia | | | by rewrite Hjr | done].
    - eapply op_ok_inv; [lia | exact Hi |]. apply (run_op_ok works (len before) (OpClaim now queue) db); [lia | done].
    - rewrite Ht. apply lookup_insert_eq. }
  split; [done |]. intros j' Hj' Hid.
  pose proof (ClaimNext_answer works now' queue' (table db') db' eq_refl) as Hc. rewrite Hj' in Hc.
  destruct Hc as (row' & Hr' & He' & _). rewrite Hid, Hd in Hr'. injection Hr' as <-.
  apply eligible_pending in He'. by rewrite Hjr in He'.
Qed.

(** A failure that is recorded counts one attempt; the row is dead when they are used up,
    and otherwise due again after 5 s times 2 to the attempts, or after 5 minutes when that
    is less, the truncation to seconds aside. *)
Theorem failure_is_retried (k now id : Z) (err : option bytes) (r : Row) (db : DB) :
  k < 30 -> table_inv k (table db) -> rows (table db) !! id = Some r -> (Fail works now id err db).2 = Ok tt ->
  exists r', rows (table (Fail works now id err db).1) = <[id := r']> (rows (table db)) /\
    Attempts r' = Attempts r + 1 /\ LastError r' = Some (default [] err) /\
    if MaxAttempts r <=? Attempts r + 1 then r_Status r' = StatusDead
    else r_Status r' = StatusPending /\
      RunAt r' = Format (now + Z.min (2 ^ (Attempts r + 1) * 5 * second) maxBackoff).
Proof.
  intros Hk Ht Hr. destruct (inv_rows _ _ Ht _ _ Hr) as [Hw Ha].
  refine (wp_Fail works now id err (fun x t' => x = Ok tt -> exists r', rows t' = <[id := r']> (rows (table db)) /\ _)
    (table db) _ _ db eq_refl); [done |].
  intros r1 Hr1 n _. rewrite Hr in Hr1. injection Hr1 as <-. unfold n. rewrite (small_attempts r k) by (done || lia).
  eexists. split; [cbn; by apply alter_some |]. unfold failed.
  destruct (MaxAttempts r <=? Attempts r + 1); [done |]. cbn. do 3 (split; [done |]).
  rewrite backoff_exact; [done |]. destruct Hw. lia.
Qed.

(** A worker runs finitely many handlers: over any ticks, at whatever instants, with
    handlers that fail or panic and statements that fail, the runs are at most the attempts
    the pending rows have left. *)
Theorem worker_terminates (w : Worker) (ticks : list (Z * Z)) (ops : list op) :
  len ops + 2 * len ticks < 2 ^ 62 ->
  let db := run_ops works ops empty_db in
  len (worker_ticks works w ticks db).2 <= budget (table db).
Proof.
  intros Hl db. pose proof (len_nonneg ops). pose proof (len_nonneg ticks).
  apply (worker_ticks_bound works w ticks db (len ops)); [lia | lia |].
  apply (run_ops_inv works ops empty_db 0); [lia | lia | apply empty_inv].
Qed.

(** A worker finishes its queue: when no statement fails and the ticks are at least the
    longest backoff apart, after as many ticks as the attempts left every row that was
    pending in its queue is completed or dead, whatever the handlers do. *)
Theorem worker_finishes (w : Worker) (ticks : list (Z * Z)) (ops : list op) (t0 id : Z) (r : Row) :
  (forall n, works n = true) -> len ops + 2 * len ticks < 2 ^ 62 ->
  let db := run_ops works ops empty_db in
  all_due (queueName w) t0 (table db) -> spaced t0 ticks -> budget (table db) <= len ticks ->
  rows (table db) !! id = Some r -> r_Queue r = queueName w -> r_Status r = StatusPending ->
  exists r', rows (table (worker_ticks works w ticks db).1) !! id = Some r' /\ settled (queueName w) r'.
Proof.
  intros Hw Hl db Hdue Hsp Hb Hr Hq Hp. pose proof (len_nonneg ops). pose proof (len_nonneg ticks).
  apply (worker_ticks_settle works w ticks db (len ops) t0 id r); try done; try lia.
  - apply (run_ops_inv works ops empty_db 0); [lia | lia | apply empty_inv].
  - split; [done |]. left. split; [done |]. by apply (Hdue id).
Qed.

End Claims.

(** ** A concrete history *)

Definition always (n : nat) : bool := true.

Definition mail : bytes := str "mail".

(** One job is enqueued at one second past the epoch. *)
Definition history : list op := [OpEnqueue second mail (Ok (str "{}")) second].

Definition mail_row (s : Status) (started : option Z) : Row :=
  mkRow (str "default") mail (str "{}") s 0 0 3 1 started None None 1.

Definition mail_db : DB := run_ops always history empty_db.

Definition claimed_mail : DB * result (option Job) := ClaimNext always (2 * second) (str "default") mail_db.

(** A worker whose handler panics. *)
Definition panicking : Worker := Register NewWorker mail (fun _ => Panicked (str "boom")).

Definition three_ticks : list (Z * Z) :=
  [(2 * second, 3 * second); (400 * second, 401 * second); (800 * second, 801 * second)].

Lemma mail_inv : table_inv 1 (table mail_db).
Proof. apply (run_ops_inv always history empty_db 0); [lia | done | apply empty_inv]. Qed.

Lemma mail_rows : rows (table mail_db) = {[1 := mail_row StatusPending None]}.
Proof. by vm_compute. Qed.

Lemma mail_pending : rows (table mail_db) !! 1 = Some (mail_row StatusPending None).
Proof. by vm_compute. Qed.

Lemma job_rows_well_formed_witness :
  row_wf (mail_row StatusPending None) /\ Attempts (mail_row StatusPending None) <= len history /\
  0 < 1 <= last_id (table (run_ops always history empty_db)) /\
  (existsb (retries 1) history = false -> waiting (mail_row StatusPending None) -> Attempts (mail_row StatusPending None) < 3).
Proof. apply (job_rows_well_formed always history 1 (mail_row StatusPending None)); [done | exact mail_pending]. Defined.

Lemma operations_follow_lifecycle_witness :
  reflc lifecycle (rows (table mail_db) !! 1)
    (rows (table (run_op always (OpClaim (2 * second) (str "default")) mail_db)) !! 1) /\
  rows (table (run_op always (OpClaim (2 * second) (str "default")) mail_db)) !! 1 = Some (mail_row StatusRunning (Some 2)).
Proof.
  split; [apply (operations_follow_lifecycle always history (OpClaim (2 * second) (str "default")) 1); done |].
  by vm_compute.
Defined.

Lemma claim_next_exact_witness :
  claimed_mail.2 = Ok (Some (mkJob 1 (mail_row StatusRunning (Some 2)))) /\
  claim_answer always (2 * second) (str "default") (table mail_db) claimed_mail.2 (table claimed_mail.1).
Proof. split; [by vm_compute | exact (claim_next_exact always (2 * second) (str "default") mail_db)]. Defined.

(** While the first worker runs the job, the scheduler ticks and a second worker claims. *)
Lemma claim_is_exclusive_witness :
  rows (table (run_ops always [OpTick (3 * second) (mkSchedule mail (Ok [])); OpClaim (4 * second) (str "default")]
    claimed_mail.1)) !! 1 = Some (mail_row StatusRunning (Some 2)).
Proof.
  refine (proj1 (claim_is_exclusive always history
    [OpTick (3 * second) (mkSchedule mail (Ok [])); OpClaim (4 * second) (str "default")]
    (2 * second) 0 (str "default") [] (mkJob 1 (mail_row StatusRunning (Some 2))) _ _ _)); [done | by vm_compute | done].
Defined.

Lemma failure_is_retried_witness :
  exists r', rows (table (Fail always (3 * second) 1 None mail_db).1) = <[1 := r']> (rows (table mail_db)) /\
    Attempts r' = 1 /\ r_Status r' = StatusPending /\ RunAt r' = 13.
Proof.
  destruct (failure_is_retried always 1 (3 * second) 1 None (mail_row StatusPending None) mail_db) as (r' & Hr & Ha & _ & Hs & Ht).
  - done.
  - exact mail_inv.
  - exact mail_pending.
  - by vm_compute.
  - exists r'. split; [exact Hr |]. split; [exact Ha |]. split; [exact Hs |]. rewrite Ht. by vm_compute.
Defined.

Lemma worker_terminates_witness :
  len (worker_ticks always panicking three_ticks mail_db).2 <= budget (table mail_db) /\ budget (table mail_db) = 3.
Proof. split; [apply (worker_terminates always panicking three_ticks history); done | by vm_compute]. Defined.

Lemma worker_finishes_witness :
  exists r', rows (table (worker_ticks always panicking three_ticks mail_db).1) !! 1 = Some r' /\ settled (str "default") r'.
Proof.
  apply (worker_finishes always panicking three_ticks history (2 * second) 1 (mail_row StatusPending None)).
  - done.
  - done.
  - intros id r Hr _ _. change (rows (table mail_db) !! id = Some r) in Hr. rewrite mail_rows in Hr.
    apply lookup_singleton_Some in Hr as [_ <-]. done.
  - vm_compute. repeat split; discriminate.
  - by vm_compute.
  - exact mail_pending.
  - done.
  - done.
Defined.

(** ** What the modelling showed *)

(** From the 31st attempt the pause wraps to a negative one, below the cap. *)
Lemma backoff_wraps : backoff_of 31 < 0.
Proof. by vm_compute. Qed.

(** The statement that reads a claimed row back can fail after the claim has committed:
    the worker gets an error and the row stays running until it is reaped. *)
Lemma claim_read_back_lost :
  let works n := negb (bool_decide (n = 6%nat)) in
  let db := run_ops works history empty_db in
  is_ok (ClaimNext works (2 * second) (str "default") db).2 = false /\
  rows (table (ClaimNext works (2 * second) (str "default") db).1) !! 1 = Some (mail_row StatusRunning (Some 2)).
Proof. by vm_compute. Qed.

(** A worker that outlives the visibility timeout puts a completed job back in the queue:
    its row is reaped, run again and completed, and [Fail] does not look at the status. *)
Lemma late_failure_reruns :
  let s := second in
  let db := run_ops always (history ++ [OpClaim (2 * s) (str "default"); OpReap (2000 * s) (1800 * s);
    OpClaim (2001 * s) (str "default"); OpComplete (2002 * s) 1; OpFail (2003 * s) 1 None]) empty_db in
  r_Status <$> rows (table db) !! 1 = Some StatusPending.
Proof. by vm_compute. Qed.
