(* ===== verification/Guard.v ===== *)
(** * The read-only SQL guardrail (internal/guardrail)

    [normalizeSQL] brings a query into the form the keyword checks match against, and
    [ValidateReadOnlyGeneric] accepts or rejects it.  A position in the Go code is here the
    text from that position on.
    Main results: the word scans find exactly the tokens and calls of the text; in the code of
    an accepted query, read by the lexical rules the databases share, no write keyword stands
    and no denied function is called; what is inside literals and comments does not matter;
    the normaliser always terminates.  The last section holds queries outside those rules that
    are accepted although a database executes a write in them. *)

From stdpp Require Import base list gmap strings numbers sorting.
From Stdlib Require Import ZArith Lia.
From S2P Require Import Prelude Index.

(** ** Strings *)

(** [strings.HasPrefix(s, p)] *)
Definition starts (p s : bytes) : bool := bool_decide (take (length p) s = p).

(** [strings.Index] *)
Fixpoint IndexOf (s sub : bytes) : option nat :=
  if starts sub s then Some O
  else match s with
  | [] => None
  | _ :: s => S <$> IndexOf s sub
  end.

Definition contains_text (s sub : bytes) : bool := bool_decide (is_Some (IndexOf s sub)).

(** [unicode.IsSpace] *)
Definition IsSpace (r : Z) : bool :=
  cont 9 13 r || (r =? 32) || (r =? 133) || (r =? 160) || (r =? 5760) || cont 8192 8202 r ||
  (r =? 8232) || (r =? 8233) || (r =? 8239) || (r =? 8287) || (r =? 12288).

Definition isIdentByte (b : Z) : bool :=
  (b =? 95) || cont 65 90 b || cont 97 122 b || cont 48 57 b.

Definition isSpaceByte (b : Z) : bool := (b =? 32) || (b =? 9) || (b =? 10) || (b =? 13).

Definition isDigitByte (b : Z) : bool := cont 48 57 b.

Fixpoint take_while (f : Z -> bool) (s : bytes) : bytes :=
  match s with
  | b :: s => if f b then b :: take_while f s else []
  | [] => []
  end.

Fixpoint drop_while (f : Z -> bool) (s : bytes) : bytes :=
  match s with
  | b :: s' => if f b then drop_while f s' else s
  | [] => []
  end.

(** [strings.TrimSpace], rune by rune. *)
Fixpoint trim_left (fuel : nat) (s : bytes) : bytes :=
  match fuel, s with
  | S fuel, _ :: _ => let '(r, w) := DecodeRune s in if IsSpace r then trim_left fuel (drop w s) else s
  | _, _ => s
  end.

Fixpoint trim_right (fuel : nat) (s : bytes) : bytes :=
  match fuel, s with
  | S fuel, _ :: _ =>
      let '(r, w) := DecodeRune s in
      let rest := trim_right fuel (drop w s) in
      if IsSpace r && bool_decide (rest = []) then [] else take w s ++ rest
  | _, _ => s
  end.

Definition TrimSpace (s : bytes) : bytes :=
  let s := trim_left (length s) s in trim_right (length s) s.

(** [strings.TrimRight] of a set of bytes. *)
Fixpoint TrimRight (f : Z -> bool) (s : bytes) : bytes :=
  match s with
  | [] => []
  | b :: s =>
      match TrimRight f s with
      | [] => if f b then [] else [b]
      | s => b :: s
      end
  end.

(** ** Normalisation (sql_normalize.go) *)

Definition quote_char : Z := 39.
Definition maskedLiteral : bytes := [39; 39].

Definition cons_body (b : bytes) (r : option (bytes * bytes)) : option (bytes * bytes) :=
  match r with
  | Some (body, rest) => Some (b ++ body, rest)
  | None => None
  end.

(** [scanQuoted] after the opening quote: the body and what follows the closing quote. *)
Fixpoint scanQuoted (s : bytes) (quote : Z) (backslashEscapes : bool) : option (bytes * bytes) :=
  match s with
  | [] => None
  | b :: s =>
      if backslashEscapes && (b =? 92) then
        match s with
        | e :: s => cons_body [b; e] (scanQuoted s quote backslashEscapes)
        | [] => None
        end
      else if b =? quote then
        match s with
        | q :: s' => if q =? quote then cons_body [b; q] (scanQuoted s' quote backslashEscapes) else Some ([], s)
        | [] => Some ([], [])
        end
      else cons_body [b] (scanQuoted s quote backslashEscapes)
  end.

(** [strings.ReplaceAll] of a doubled quote by a single one. *)
Fixpoint undouble (q : Z) (s : bytes) : bytes :=
  match s with
  | a :: s =>
      match s with
      | b :: s' => if (a =? q) && (b =? q) then q :: undouble q s' else a :: undouble q s
      | [] => [a]
      end
  | [] => []
  end.

(** [scanDollarQuote] after the dollar: what follows the closing tag. *)
Definition scanDollarQuote (s : bytes) : option bytes :=
  let tag := match s with
    | b :: _ => if isDigitByte b then [] else take_while isIdentByte s
    | [] => []
    end in
  match drop (length tag) s with
  | 36 :: rest =>
      let tag := 36 :: tag ++ [36] in
      match IndexOf rest tag with
      | Some stop => Some (drop (stop + length tag) rest)
      | None => None
      end
  | _ => None
  end.

(** [scanBlockComment] after the opening: the text that is executed and what follows. *)
Definition scanBlockComment (s : bytes) : option (bytes * bytes) :=
  match IndexOf s (str "*/") with
  | None => None
  | Some stop =>
      let body := take stop s in
      let next := drop (stop + 2) s in
      if starts (str "!") body then Some (drop_while isDigitByte (drop 1 body), next) else Some ([], next)
  end.

Definition startsLineComment (s : bytes) : bool :=
  match s with
  | [] => true
  | _ => IsSpace (DecodeRune s).1
  end.

(** From the newline that ends the line on. *)
Definition skipToLineEnd (s : bytes) : bytes := drop_while (fun b => negb (b =? 10)) s.

(** The text written before what the rest gives. *)
Definition emit (out : bytes) (m : result bytes) : result bytes := (fun r => out ++ r) <$> m.

(** One round of the loop of [normalizeSQL]: what is written and the text that is left. *)
Definition norm_step (s : bytes) : result (bytes * bytes) :=
  match s with
  | [] => Ok ([], [])
  | c :: t =>
      let other :=
        let '(r, size) := DecodeRune s in
        Ok (if IsSpace r then [32] else take size s, drop size s) in
      if c =? 39 then
        match scanQuoted t 39 true with
        | Some (_, rest) => Ok (maskedLiteral, rest)
        | None => Err (Errorf "unterminated quoted string")
        end
      else if (c =? 34) || (c =? 96) then
        match scanQuoted t c false with
        | Some (body, rest) => Ok ([32] ++ undouble c body ++ [32], rest)
        | None => Err (Errorf "unterminated quoted string")
        end
      else if c =? 36 then
        match scanDollarQuote t with
        | Some rest => Ok (maskedLiteral, rest)
        | None => Ok ([c], t)
        end
      else if c =? 47 then
        match t with
        | 42 :: u =>
            match scanBlockComment u with
            | Some (body, rest) => Ok ([32] ++ body ++ [32], rest)
            | None => Err (Errorf "unterminated comment")
            end
        | _ => other
        end
      else if c =? 45 then
        match t with
        | 45 :: u => if startsLineComment u then Ok ([32], skipToLineEnd s) else other
        | _ => other
        end
      else other
  end.

Fixpoint norm_loop (fuel : nat) (s : bytes) : result bytes :=
  match s with
  | [] => Ok []
  | _ =>
      match fuel with
      | O => Panic
      | S fuel => '(out, s) ← norm_step s; emit out (norm_loop fuel s)
      end
  end.

Fixpoint collapseSpaces (prevSpace : bool) (s : bytes) : bytes :=
  match s with
  | [] => []
  | b :: s =>
      if b =? 32 then if prevSpace then collapseSpaces true s else 32 :: collapseSpaces true s
      else b :: collapseSpaces false s
  end.

Definition normalizeSQL (query : bytes) : result bytes :=
  (fun b => TrimSpace (collapseSpaces false b)) <$> norm_loop (length query) query.

(** ** Word scans *)

Definition first_is (f : Z -> bool) (s : bytes) : bool := match s with b :: _ => f b | [] => false end.

(** The byte before a position is an identifier byte. *)
Definition ident_before (s : bytes) (pos : nat) : bool :=
  match pos with
  | O => false
  | S p => match s !! p with Some b => isIdentByte b | None => false end
  end.

(** The loop the three scans share: the occurrences of [word] from [from] on that are not
    preceded by an identifier byte and whose continuation satisfies [ok]. *)
Fixpoint word_loop (ok : bytes -> bool) (fuel : nat) (upper word : bytes) (from : nat) : bool :=
  match fuel with
  | O => false
  | S fuel =>
      match IndexOf (drop from upper) word with
      | None => false
      | Some i =>
          let pos := (from + i)%nat in
          let from := (pos + length word)%nat in
          if ident_before upper pos then word_loop ok fuel upper word from
          else if ok (drop from upper) then true
          else word_loop ok fuel upper word from
      end
  end.

Definition scan_word (ok : bytes -> bool) (upper word : bytes) : bool :=
  word_loop ok (S (length upper)) upper word 0.

Definition containsWord : bytes -> bytes -> bool := scan_word (fun r => negb (first_is isIdentByte r)).

Definition containsWordNotCall : bytes -> bytes -> bool :=
  scan_word (fun r => negb (first_is isIdentByte r) &&
    negb (first_is (Z.eqb 40) (drop_while (Z.eqb 32) r))).

Definition hasFunctionCall (upper name : bytes) (pref : bool) : bool :=
  scan_word (fun r =>
    if pref then first_is (Z.eqb 40) (drop_while isSpaceByte (drop_while isIdentByte r))
    else negb (first_is isIdentByte r) && first_is (Z.eqb 40) (drop_while isSpaceByte r)) upper name.

(** ** Validation (sql_generic.go) *)

(** [strings.ToUpper], with the Unicode tables of the Go library. *)
Class Upper := ToUpper : bytes -> bytes.

Definition writeKeywords : list bytes := str <$> ([
  "DELETE"; "UPDATE"; "DROP"; "ALTER"; "CREATE"; "MERGE"; "UPSERT";
  "GRANT"; "REVOKE"; "ATTACH"; "DETACH"; "VACUUM"; "REINDEX"; "ANALYZE";
  "CALL"; "EXEC"; "EXECUTE"; "PREPARE"; "DEALLOCATE"; "LOCK"; "UNLOCK";
  "COPY"; "RENAME"; "LOAD"; "IMPORT"; "RESET"; "CLUSTER"; "REFRESH";
  "INTO"; "OUTFILE"; "DUMPFILE"]%string).

Definition functionLikeWriteKeywords : list bytes := str <$> (["INSERT"; "REPLACE"; "TRUNCATE"]%string).

Definition deniedExactFuncs : list bytes := str <$> ([
  "PG_TERMINATE_BACKEND"; "PG_CANCEL_BACKEND"; "PG_RELOAD_CONF"; "PG_ROTATE_LOGFILE"; "PG_SWITCH_WAL";
  "PG_SWITCH_XLOG"; "SETVAL"; "NEXTVAL"; "SET_CONFIG"; "PG_PROMOTE"; "PG_STAT_FILE"; "PG_STOP_BACKUP";
  "PG_START_BACKUP"; "LOAD_FILE"; "READFILE"; "WRITEFILE"; "EDIT"; "LOAD_EXTENSION"; "FTS3_TOKENIZER"]%string).

Definition deniedFuncPrefixes : list bytes := str <$> ([
  "PG_STAT_RESET"; "PG_READ_FILE"; "PG_READ_BINARY_FILE"; "PG_LS_"; "LO_"; "DBLINK"; "PG_ADVISORY_";
  "PG_CREATE_"; "PG_DROP_"; "PG_LOGICAL_"; "PG_REPLICATION_"; "PG_WAL"]%string).

Definition pragmaAllowsArg : list bytes := str <$> ([
  "TABLE_INFO"; "TABLE_XINFO"; "TABLE_LIST"; "INDEX_LIST"; "INDEX_INFO"; "INDEX_XINFO";
  "FOREIGN_KEY_LIST"; "FOREIGN_KEY_CHECK"]%string).

Definition pragmaReadOnlyScalar : list bytes := str <$> ([
  "DATABASE_LIST"; "COMPILE_OPTIONS"; "COLLATION_LIST"; "JOURNAL_MODE"; "PAGE_COUNT"; "PAGE_SIZE";
  "MAX_PAGE_COUNT"; "FREELIST_COUNT"; "ENCODING"; "DATA_VERSION"; "SCHEMA_VERSION"; "USER_VERSION";
  "APPLICATION_ID"]%string).

Definition member (w : bytes) (l : list bytes) : bool := bool_decide (w ∈ l).

(** The denied function a statement calls, exact names first. *)
Definition callsSideEffectingFunction (upper : bytes) : bool :=
  existsb (fun fn => hasFunctionCall upper fn false) deniedExactFuncs ||
  existsb (fun fn => hasFunctionCall upper fn true) deniedFuncPrefixes.

Definition checkNoWriteAnywhere (upper : bytes) : result unit :=
  if existsb (containsWord upper) writeKeywords then Err (Errorf "query rejected: not allowed in a read-only query")
  else if existsb (containsWordNotCall upper) functionLikeWriteKeywords
  then Err (Errorf "query rejected: not allowed in a read-only query")
  else if callsSideEffectingFunction upper then Err (Errorf "query rejected: calls side-effecting function")
  else Ok tt.

(** [strings.TrimPrefix] *)
Definition TrimPrefix (p s : bytes) : bytes := if starts p s then drop (length p) s else s.

Definition stripExplainPrefix (upper : bytes) : bytes :=
  let inner := TrimSpace (TrimPrefix (str "EXPLAIN") upper) in
  if starts (str "(") inner then
    match IndexOf inner (str ")") with
    | Some close => TrimSpace (drop (close + 1) inner)
    | None => inner
    end
  else inner.

Definition isReadOnlyKeyword (upper : bytes) : bool :=
  starts (str "SELECT") upper || starts (str "WITH") upper || starts (str "SHOW") upper ||
  starts (str "DESCRIBE") upper || starts (str "DESC ") upper || starts (str "PRAGMA") upper.

Fixpoint scanPragmaName (fuel : nat) (s : bytes) : bytes * bytes :=
  let name := take_while isIdentByte s in
  let rest := drop_while isIdentByte s in
  match fuel with
  | O => (name, rest)
  | S fuel => if starts (str ".") rest then scanPragmaName fuel (drop 1 rest) else (name, rest)
  end.

Definition validateReadOnlyPragma (upper : bytes) : result unit :=
  let rest := TrimSpace (TrimPrefix (str "PRAGMA") upper) in
  let '(name, after) := scanPragmaName (length rest) rest in
  if bool_decide (name = []) then Err (Errorf "PRAGMA name required")
  else
    let after := TrimSpace after in
    if member name pragmaAllowsArg then
      if bool_decide (after = []) || starts (str "(") after then Ok tt
      else Err (Errorf "PRAGMA: only the read/query form is allowed")
    else if member name pragmaReadOnlyScalar then
      if bool_decide (after = []) then Ok tt
      else Err (Errorf "PRAGMA: only the read/query form is allowed (assignment rejected)")
    else Err (Errorf "PRAGMA not in read-only allowlist").

Section Validate.
Context {U : Upper}.

Definition ValidateReadOnlyGeneric (query : bytes) : result unit :=
  if bool_decide (TrimSpace query = []) then Err (Errorf "empty query")
  else
    normalized ← normalizeSQL query;
    let cleaned := TrimRight (fun b => (b =? 59) || (b =? 32)) normalized in
    if bool_decide (cleaned = []) then Err (Errorf "query contains no statement")
    else if contains_text cleaned (str ";") then Err (Errorf "multiple statements are not allowed")
    else
      let upper := ToUpper cleaned in
      if starts (str "SELECT") upper || starts (str "WITH") upper then checkNoWriteAnywhere upper
      else if starts (str "EXPLAIN") upper then
        if containsWord upper (str "ANALYZE") then Err (Errorf "EXPLAIN ANALYZE is not allowed (it executes the query)")
        else
          let inner := stripExplainPrefix upper in
          if bool_decide (inner = []) then Err (Errorf "empty EXPLAIN statement")
          else if negb (isReadOnlyKeyword inner) then Err (Errorf "only SELECT statements are allowed inside EXPLAIN")
          else checkNoWriteAnywhere inner
      else if starts (str "SHOW") upper then Ok tt
      else if starts (str "DESCRIBE") upper || starts (str "DESC ") upper then Ok tt
      else if starts (str "PRAGMA") upper then validateReadOnlyPragma upper
      else Err (Errorf "only SELECT statements are allowed").

Definition HasLimitGeneric (query : bytes) : bool :=
  match normalizeSQL query with
  | Ok normalized => containsWord (ToUpper normalized) (str "LIMIT")
  | _ => false
  end.

End Validate.

(** Upper case of ASCII letters. *)
Definition ascii_upper : Upper := fmap (fun b => if cont 97 122 b then b - 32 else b).


(** ** Searching *)

Lemma starts_spec p s : starts p s = true <-> exists r, s = p ++ r.
Proof.
  unfold starts. rewrite bool_decide_eq_true. split.
  - intros Hp. exists (drop (length p) s). by rewrite <- Hp at 1; rewrite take_drop.
  - intros [r ->]. by rewrite take_app_length.
Qed.

Lemma IndexOf_some s sub i : IndexOf s sub = Some i ->
  starts sub (drop i s) = true /\ (i <= length s)%nat /\ forall j, (j < i)%nat -> starts sub (drop j s) = false.
Proof.
  revert i. induction s as [| b s IH]; intros i; cbn [IndexOf].
  - destruct (starts sub []) eqn:E; [| done]. intros [= <-]. split; [done |]. split; [cbn; lia | intros; lia].
  - destruct (starts sub (b :: s)) eqn:E; [intros [= <-]; split; [done |]; split; [cbn; lia | intros; lia] |].
    destruct (IndexOf s sub) as [k |]; [| done]. intros [= <-]. destruct (IH k eq_refl) as (H1 & H2 & H3).
    split; [done |]. split; [cbn; lia |]. intros [| j] Hj; [done |]. apply H3. lia.
Qed.

Lemma IndexOf_none s sub : IndexOf s sub = None -> forall j, starts sub (drop j s) = false.
Proof.
  induction s as [| b s IH]; cbn [IndexOf].
  - destruct (starts sub []) eqn:E; [done |]. intros _ [| j]; done.
  - destruct (starts sub (b :: s)) eqn:E; [done |]. destruct (IndexOf s sub); [done |].
    intros _ [| j]; [done |]. by apply IH.
Qed.

(** The first occurrence is found. *)
Lemma IndexOf_first s sub i :
  (i <= length s)%nat -> starts sub (drop i s) = true -> (forall j, (j < i)%nat -> starts sub (drop j s) = false) ->
  IndexOf s sub = Some i.
Proof.
  intros Hi Hs Hf. destruct (IndexOf s sub) as [k |] eqn:E.
  - destruct (IndexOf_some _ _ _ E) as (Hk & _ & Hfk). destruct (Nat.lt_trichotomy k i) as [H | [-> | H]]; [| done |].
    + by rewrite Hf in Hk.
    + by rewrite Hfk in Hs.
  - by rewrite (IndexOf_none _ _ E) in Hs.
Qed.

Definition ident_word (w : bytes) : Prop := w <> [] /\ forallb isIdentByte w = true.

Lemma forallb_lookup (f : Z -> bool) (w : bytes) i b : forallb f w = true -> w !! i = Some b -> f b = true.
Proof. intros Hw Hi. rewrite forallb_forall in Hw. apply Hw. apply list_elem_of_In. by eapply list_elem_of_lookup_2. Qed.

(** Inside an occurrence every position has an identifier byte before it. *)
Lemma inside_word upper word p pos :
  ident_word word -> starts word (drop p upper) = true -> (p < pos < p + length word)%nat -> ident_before upper pos = true.
Proof.
  intros [_ Hw] [r Hr]%starts_spec Hp. unfold ident_before. destruct pos as [| q]; [lia |].
  replace q with (p + (q - p))%nat by lia. rewrite <- lookup_drop, Hr, lookup_app_l by lia.
  destruct (word !! (q - p)%nat) as [b |] eqn:E.
  - by eapply forallb_lookup.
  - apply lookup_ge_None in E. lia.
Qed.

Section WordLoop.
Context (ok : bytes -> bool) (upper word : bytes) (Hword : ident_word word).

Definition occurs_at (pos : nat) : Prop :=
  starts word (drop pos upper) = true /\ ident_before upper pos = false /\ ok (drop (pos + length word) upper) = true.

Lemma word_loop_spec fuel from :
  (length upper < fuel + from)%nat ->
  word_loop ok fuel upper word from = true <-> exists pos, (from <= pos)%nat /\ occurs_at pos.
Proof.
  assert (0 < length word)%nat as Hl by (destruct Hword, word; [done | cbn; lia]).
  revert from. induction fuel as [| fuel IH]; intros from Hf; cbn [word_loop].
  { split; [done |]. intros (pos & Hp & [r Hr]%starts_spec & _). apply (f_equal length) in Hr.
    rewrite length_drop, length_app in Hr. lia. }
  destruct (IndexOf (drop from upper) word) as [i |] eqn:E.
  - destruct (IndexOf_some _ _ _ E) as (Hs & _ & Hfirst). rewrite drop_drop in Hs.
    assert (forall pos, (from <= pos)%nat -> occurs_at pos -> pos = (from + i)%nat \/ (from + i + length word <= pos)%nat) as Hnext.
    { intros pos Hp (Ho & Hb & _). destruct (Nat.lt_trichotomy pos (from + i)) as [H | [H | H]]; [| by left |].
      - specialize (Hfirst (pos - from)%nat ltac:(lia)). rewrite drop_drop in Hfirst.
        replace (from + (pos - from))%nat with pos in Hfirst by lia. congruence.
      - right. destruct (decide (from + i + length word <= pos)%nat); [done |].
        rewrite (inside_word upper word (from + i) pos) in Hb; [done | done | done | lia]. }
    assert (IHn := IH (from + i + length word)%nat ltac:(lia)).
    destruct (ident_before upper (from + i)) eqn:Hb; [| destruct (ok _) eqn:Hok].
    + rewrite IHn. split; intros (pos & Hp & Ho); exists pos; (split; [| done]); [lia |].
      destruct (Hnext pos Hp Ho) as [-> | H]; [| done]. destruct Ho as (_ & Ho & _). congruence.
    + split; [| done]. intros _. exists (from + i)%nat. split; [lia | done].
    + rewrite IHn. split; intros (pos & Hp & Ho); exists pos; (split; [| done]); [lia |].
      destruct (Hnext pos Hp Ho) as [-> | H]; [| done]. destruct Ho as (_ & _ & Ho). congruence.
  - split; [done |]. intros (pos & Hp & Ho & _). pose proof (IndexOf_none _ _ E (pos - from)) as Hn.
    rewrite drop_drop in Hn. replace (from + (pos - from))%nat with pos in Hn by lia. congruence.
Qed.

Definition ends_ident (a : bytes) : bool := match last a with Some b => isIdentByte b | None => false end.

Lemma ident_before_app a r : ident_before (a ++ r) (length a) = ends_ident a.
Proof.
  unfold ident_before, ends_ident. rewrite last_lookup. destruct a as [| b a]; [done |].
  cbn [length pred]. rewrite lookup_app_l; [done | cbn; lia].
Qed.

Lemma scan_word_spec :
  scan_word ok upper word = true <-> exists a r, upper = a ++ word ++ r /\ ends_ident a = false /\ ok r = true.
Proof.
  unfold scan_word. rewrite word_loop_spec by lia. split.
  - intros (pos & _ & [r Hr]%starts_spec & Hb & Hok). exists (take pos upper), r.
    assert (upper = take pos upper ++ word ++ r) as Hu by (by rewrite <- Hr, take_drop).
    assert (pos <= length upper)%nat as Hp.
    { apply (f_equal length) in Hr. rewrite length_drop, length_app in Hr. destruct Hword, word; [done | cbn in Hr; lia]. }
    assert (length (take pos upper) = pos) as Hl by (rewrite length_take; lia).
    split; [done |]. split.
    + rewrite <- (ident_before_app (take pos upper) (word ++ r)), <- Hu, Hl. done.
    + rewrite <- drop_drop, Hr, drop_app_length in Hok. done.
  - intros (a & r & Hu & Ha & Hr). exists (length a). unfold occurs_at. rewrite Hu. split; [lia |]. split; [| split].
    + apply starts_spec. exists r. by rewrite drop_app_length.
    + by rewrite ident_before_app.
    + by rewrite <- drop_drop, drop_app_length, drop_app_length.
Qed.

End WordLoop.

(** ** What the scans look for *)

(** [w] stands in [s] as a token: a maximal run of identifier bytes. *)
Definition is_token (s w : bytes) : Prop :=
  exists a r, s = a ++ w ++ r /\ ends_ident a = false /\ first_is isIdentByte r = false.

(** [w] is called in [s]: the token is followed by spaces and a parenthesis. *)
Definition is_call (space : Z -> bool) (s w : bytes) : Prop :=
  exists a sp r, s = a ++ w ++ sp ++ 40 :: r /\ ends_ident a = false /\ forallb space sp = true.

(** [w] stands in [s] as a token that is not called. *)
Definition is_plain_token (s w : bytes) : Prop :=
  exists a r, s = a ++ w ++ r /\ ends_ident a = false /\ first_is isIdentByte r = false /\
    forall sp t, forallb (Z.eqb 32) sp = true -> r <> sp ++ 40 :: t.

Lemma take_drop_while f s : s = take_while f s ++ drop_while f s.
Proof. induction s as [| b s IH]; cbn; [done |]. destruct (f b); cbn; [by rewrite <- IH | done]. Qed.

Lemma take_while_all f s : forallb f (take_while f s) = true.
Proof. induction s as [| b s IH]; cbn; [done |]. destruct (f b) eqn:E; cbn; [by rewrite E, IH | done]. Qed.

Lemma drop_while_app f a s : forallb f a = true -> first_is f s = false -> drop_while f (a ++ s) = s.
Proof.
  induction a as [| b a IH]; cbn; intros Ha Hs.
  - destruct s as [| c s]; [done |]. cbn in *. by rewrite Hs.
  - apply andb_prop in Ha as [-> Ha]. by apply IH.
Qed.

(** Spaces followed by a parenthesis. *)
Lemma opens_spec f s : f 40 = false ->
  first_is (Z.eqb 40) (drop_while f s) = true <-> exists sp t, s = sp ++ 40 :: t /\ forallb f sp = true.
Proof.
  intros Hf. split.
  - intros Ho. exists (take_while f s). destruct (drop_while f s) as [| b t] eqn:E; [done |].
    change ((40 =? b) = true) in Ho. apply Z.eqb_eq in Ho as <-. exists t. split; [| apply take_while_all].
    rewrite (take_drop_while f s) at 1. by rewrite E.
  - intros (sp & t & -> & Hsp). rewrite drop_while_app; [done | done | done].
Qed.

Lemma containsWord_spec s w : ident_word w -> containsWord s w = true <-> is_token s w.
Proof.
  intros Hw. unfold containsWord, is_token. rewrite scan_word_spec by done.
  split; intros (a & r & Hs & Ha & Hr); exists a, r; (split; [done |]; split; [done |]); by apply negb_true_iff.
Qed.

Lemma containsWordNotCall_spec s w : ident_word w -> containsWordNotCall s w = true <-> is_plain_token s w.
Proof.
  intros Hw. unfold containsWordNotCall, is_plain_token. rewrite scan_word_spec by done.
  split; intros (a & r & Hs & Ha & Hr); exists a, r; (split; [done |]; split; [done |]).
  - apply andb_prop in Hr as [Hi%negb_true_iff Ho%negb_true_iff]. split; [done |].
    intros sp t Hsp ->. rewrite (proj2 (opens_spec (Z.eqb 32) (sp ++ 40 :: t) eq_refl)) in Ho; [done | by exists sp, t].
  - destruct Hr as [Hi Ho]. rewrite Hi. cbn. apply negb_true_iff, not_true_is_false.
    intros (sp & t & -> & Hsp)%opens_spec; [by apply (Ho sp t) | done].
Qed.

Lemma space_not_ident sp t : forallb isSpaceByte sp = true -> first_is isIdentByte (sp ++ 40 :: t) = false.
Proof.
  destruct sp as [| b sp]; [done |]. cbn. intros [Hb _]%andb_prop. revert Hb. unfold isSpaceByte, isIdentByte, cont. lia.
Qed.

Lemma hasFunctionCall_spec s w : ident_word w -> hasFunctionCall s w false = true <-> is_call isSpaceByte s w.
Proof.
  intros Hw. unfold hasFunctionCall. rewrite scan_word_spec by done. split.
  - intros (a & r & Hs & Ha & [_ Ho]%andb_prop). apply opens_spec in Ho as (sp & t & -> & Hsp); [| done].
    by exists a, sp, t.
  - intros (a & sp & t & Hs & Ha & Hsp). exists a, (sp ++ 40 :: t). split; [done |]. split; [done |].
    apply andb_true_intro. split; [by rewrite space_not_ident | apply opens_spec; [done | by exists sp, t]].
Qed.

Lemma hasFunctionCall_prefix_spec s w : ident_word w ->
  hasFunctionCall s w true = true <-> exists suf, forallb isIdentByte suf = true /\ is_call isSpaceByte s (w ++ suf).
Proof.
  intros Hw. unfold hasFunctionCall. rewrite scan_word_spec by done. split.
  - intros (a & r & Hs & Ha & Ho). apply opens_spec in Ho as (sp & t & Hr & Hsp); [| done].
    exists (take_while isIdentByte r). split; [apply take_while_all |]. exists a, sp, t. split; [| done].
    by rewrite Hs, (take_drop_while isIdentByte r) at 1; rewrite Hr, <- !app_assoc.
  - intros (suf & Hsuf & a & sp & t & Hs & Ha & Hsp). exists a, (suf ++ sp ++ 40 :: t).
    split; [by rewrite Hs, <- !app_assoc |]. split; [done |].
    rewrite drop_while_app by (done || by apply space_not_ident). apply opens_spec; [done | by exists sp, t].
Qed.

(** ** Validation *)

(** Nothing in the statement writes, as far as its tokens show. *)
Record reads_only (upper : bytes) : Prop := {
  no_write : forall w, w ∈ writeKeywords -> ~ is_token upper w;
  no_function_write : forall w, w ∈ functionLikeWriteKeywords -> ~ is_plain_token upper w;
  no_denied_call : forall f, f ∈ deniedExactFuncs -> ~ is_call isSpaceByte upper f;
  no_denied_family : forall f suf, f ∈ deniedFuncPrefixes -> forallb isIdentByte suf = true ->
    ~ is_call isSpaceByte upper (f ++ suf)
}.

Lemma ident_words (l : list bytes) w :
  forallb (fun w => negb (bool_decide (w = [])) && forallb isIdentByte w) l = true -> w ∈ l -> ident_word w.
Proof.
  intros Hl Hw. rewrite forallb_forall in Hl. specialize (Hl w (proj1 (list_elem_of_In _ _) Hw)).
  apply andb_prop in Hl as [Hn Hi]. split; [| done]. apply negb_true_iff in Hn. by apply bool_decide_eq_false in Hn.
Qed.

Lemma existsb_none (f : bytes -> bool) l : existsb f l = false <-> forall w, w ∈ l -> f w = false.
Proof.
  split.
  - intros He w Hw. apply not_true_is_false. intros Hf. apply not_true_iff_false in He. apply He, existsb_exists.
    exists w. split; [by apply list_elem_of_In | done].
  - intros Hl. apply not_true_is_false. intros (w & Hw & Hf)%existsb_exists. rewrite Hl in Hf; [done |].
    by apply list_elem_of_In.
Qed.

Lemma check_spec upper : checkNoWriteAnywhere upper = Ok tt <-> reads_only upper.
Proof.
  assert (forall w, w ∈ writeKeywords -> ident_word w) as H1 by (intros w; by apply ident_words).
  assert (forall w, w ∈ functionLikeWriteKeywords -> ident_word w) as H2 by (intros w; by apply ident_words).
  assert (forall w, w ∈ deniedExactFuncs -> ident_word w) as H3 by (intros w; by apply ident_words).
  assert (forall w, w ∈ deniedFuncPrefixes -> ident_word w) as H4 by (intros w; by apply ident_words).
  unfold checkNoWriteAnywhere, callsSideEffectingFunction. split.
  - destruct (existsb (containsWord upper) writeKeywords) eqn:E1; [done |].
    destruct (existsb (containsWordNotCall upper) functionLikeWriteKeywords) eqn:E2; [done |].
    destruct (existsb (fun fn => hasFunctionCall upper fn false) deniedExactFuncs) eqn:E3; [done |].
    destruct (existsb (fun fn => hasFunctionCall upper fn true) deniedFuncPrefixes) eqn:E4; [done |]. intros _.
    rewrite existsb_none in E1, E2, E3, E4. split.
    + intros w Hw. rewrite <- containsWord_spec by auto. by rewrite E1.
    + intros w Hw. rewrite <- containsWordNotCall_spec by auto. by rewrite E2.
    + intros w Hw. rewrite <- hasFunctionCall_spec by auto. by rewrite E3.
    + intros w suf Hw Hsuf Hc. specialize (E4 w Hw). cbv beta in E4.
      apply not_true_iff_false in E4. apply E4, hasFunctionCall_prefix_spec; [auto | by exists suf].
  - intros [W F C P].
    rewrite (proj2 (existsb_none _ writeKeywords)).
    2: { intros w Hw. apply not_true_is_false. rewrite containsWord_spec by auto. by apply W. }
    rewrite (proj2 (existsb_none _ functionLikeWriteKeywords)).
    2: { intros w Hw. apply not_true_is_false. rewrite containsWordNotCall_spec by auto. by apply F. }
    rewrite (proj2 (existsb_none _ deniedExactFuncs)).
    2: { intros w Hw. apply not_true_is_false. rewrite hasFunctionCall_spec by auto. by apply C. }
    rewrite (proj2 (existsb_none _ deniedFuncPrefixes)); [done |].
    intros w Hw. apply not_true_is_false. rewrite hasFunctionCall_prefix_spec by auto.
    intros (suf & Hsuf & Hc). by eapply P.
Qed.

(** ** The normaliser terminates *)

Lemma scanQuoted_app s q bse body rest : scanQuoted s q bse = Some (body, rest) -> s = body ++ q :: rest.
Proof.
  remember (length s) as n eqn:Hn. assert (length s <= n)%nat as Hl by lia. clear Hn.
  revert s body rest Hl. induction n as [| n IH]; intros s body rest Hl; (destruct s as [| b s]; [done |]); [cbn in Hl; lia |].
  cbn [length] in Hl.
  assert (forall x s' body rest, (length s' <= n)%nat -> cons_body x (scanQuoted s' q bse) = Some (body, rest) ->
    x ++ s' = body ++ q :: rest) as HC.
  { intros x s' body' rest' Hl' Hx. destruct (scanQuoted s' q bse) as [[bd rs] |] eqn:E; [| done].
    injection Hx as <- <-. by rewrite (IH s' bd rs Hl' E), <- app_assoc. }
  cbn [scanQuoted]. destruct (bse && (b =? 92)).
  - destruct s as [| e s]; [done |]. apply (HC [b; e]). cbn in Hl. lia.
  - destruct (Z.eqb_spec b q) as [-> | Hb].
    + destruct s as [| q' s']; [by intros [= <- <-] |].
      destruct (Z.eqb_spec q' q) as [-> | Hq']; [apply (HC [q; q]); cbn in Hl; lia | by intros [= <- <-]].
    + apply (HC [b]). lia.
Qed.

Lemma skipToLineEnd_le s : (length (skipToLineEnd s) <= length s)%nat.
Proof. unfold skipToLineEnd. induction s as [| b s IH]; cbn; [lia |]. destruct (negb (b =? 10)); cbn in *; lia. Qed.

Lemma norm_step_shorter s out rest : s <> [] -> norm_step s = Ok (out, rest) -> (length rest < length s)%nat.
Proof.
  intros Hs. destruct s as [| c t]; [done |]. clear Hs. unfold norm_step.
  assert (forall out rest, (let '(r, size) := DecodeRune (c :: t) in
    Ok (if IsSpace r then [32] else take size (c :: t), drop size (c :: t))) = Ok (out, rest) -> (length rest < length (c :: t))%nat) as HD.
  { intros o rs. pose proof (DecodeRune_width (c :: t) ltac:(done)). destruct (DecodeRune (c :: t)) as [r w].
    intros [= _ <-]. rewrite length_drop. cbn in *. lia. }
  destruct (c =? 39).
  { destruct (scanQuoted t 39 true) as [[body rs] |] eqn:E; [| done]. intros [= _ <-].
    apply scanQuoted_app in E as ->. cbn. rewrite length_app. cbn. lia. }
  destruct ((c =? 34) || (c =? 96)).
  { destruct (scanQuoted t c false) as [[body rs] |] eqn:E; [| done]. intros [= _ <-].
    apply scanQuoted_app in E as ->. cbn. rewrite length_app. cbn. lia. }
  destruct (c =? 36).
  { unfold scanDollarQuote. set (tag := match t with [] => [] | _ => _ end). destruct (drop (length tag) t) as [| d u] eqn:E.
    { intros [= _ <-]. cbn. lia. }
    apply (f_equal length) in E. rewrite length_drop in E. cbn in E.
    destruct (decide (d = 36)) as [-> | Hd].
    - destruct (IndexOf u (36 :: tag ++ [36])); intros [= _ <-]; rewrite ?length_drop; cbn; lia.
    - assert (match d with 36 => match IndexOf u (36 :: tag ++ [36]) with
          | Some stop => Some (drop (stop + length (36 :: tag ++ [36])) u) | None => None end | _ => None end = None) as ->.
      { repeat (case_match; try done). }
      intros [= _ <-]. cbn. lia. }
  destruct (c =? 47).
  { destruct t as [| d u]; [by apply HD |]. destruct (decide (d = 42)) as [-> | Hd].
    - unfold scanBlockComment. destruct (IndexOf u (str "*/")) as [k |]; [| done].
      destruct (starts (str "!") (take k u)); intros [= _ <-]; rewrite length_drop; cbn; lia.
    - intros Hx. apply (HD out rest). revert Hx. repeat (case_match; try done). }
  destruct (Z.eqb_spec c 45) as [-> | _]; [| by apply HD].
  destruct t as [| d u]; [by apply HD |]. destruct (decide (d = 45)) as [-> | Hd].
  - destruct (startsLineComment u); [| by apply HD]. intros [= _ <-].
    change (skipToLineEnd (45 :: 45 :: u)) with (skipToLineEnd u).
    pose proof (skipToLineEnd_le u). cbn. lia.
  - intros Hx. apply (HD out rest). revert Hx. repeat (case_match; try done).
Qed.

Lemma norm_step_no_panic s : no_panic (norm_step s).
Proof. unfold no_panic, norm_step. repeat (case_match; try done). Qed.

Lemma norm_loop_no_panic fuel s : (length s <= fuel)%nat -> norm_loop fuel s <> Panic.
Proof.
  revert s. induction fuel as [| fuel IH]; intros s Hl; (destruct s as [| c t]; [done |]); [cbn in Hl; lia |].
  cbn [norm_loop]. pose proof (norm_step_no_panic (c :: t)) as Hp. pose proof (norm_step_shorter (c :: t)) as Hs.
  destruct (norm_step (c :: t)) as [[out rest] | e |]; [| done | done]. cbn.
  specialize (Hs out rest ltac:(done) eq_refl). specialize (IH rest ltac:(cbn in *; lia)).
  unfold emit. by destruct (norm_loop fuel rest).
Qed.

(** The normal form before the spaces are collapsed. *)
Definition norm (s : bytes) : result bytes := norm_loop (length s) s.

Lemma norm_loop_fuel fuel s : (length s <= fuel)%nat -> norm_loop fuel s = norm s.
Proof.
  unfold norm. remember (length s) as n eqn:Hn. assert (length s <= n)%nat as Hl by lia. clear Hn.
  revert fuel s Hl. induction n as [| n IH]; intros fuel s Hl Hf; (destruct s as [| c t]; [by destruct fuel |]); [cbn in Hl; lia |].
  destruct fuel as [| fuel]; [lia |]. cbn [norm_loop].
  destruct (norm_step (c :: t)) as [[out rest] | e |] eqn:E; [| done | done]. cbn.
  apply norm_step_shorter in E; [| done]. cbn in *. rewrite (IH fuel rest); [done | lia | lia].
Qed.

Lemma norm_cons s out rest : s <> [] -> norm_step s = Ok (out, rest) -> norm s = emit out (norm rest).
Proof.
  intros Hs He. pose proof (norm_step_shorter _ _ _ Hs He) as Hl. unfold norm at 1.
  destruct s as [| c t]; [done |]. cbn [length norm_loop]. rewrite He. cbn.
  rewrite norm_loop_fuel; [done | cbn in Hl; lia].
Qed.

(** ** Queries as the databases agree to read them *)

(** The lexical pieces every supported database reads alike. *)
Inductive piece :=
| Code (b : Z)
| Punct (b : Z)
| Literal (body : bytes)
| Quoted (q : Z) (body : bytes)
| Comment (body : bytes)
| LineComment (body : bytes).

Definition render (p : piece) : bytes :=
  match p with
  | Code b | Punct b => [b]
  | Literal body => 39 :: body ++ [39]
  | Quoted q body => q :: body ++ [q]
  | Comment body => 47 :: 42 :: body ++ [42; 47]
  | LineComment body => 45 :: 45 :: body
  end.

Definition query_of (ps : list piece) : bytes := concat (render <$> ps).

(** What the checks see of a piece. *)
Definition view (p : piece) : bytes :=
  match p with
  | Code b => [if IsSpace b then 32 else b]
  | Punct b => [b]
  | Literal _ => maskedLiteral
  | Quoted _ body => 32 :: body ++ [32]
  | Comment _ => [32; 32]
  | LineComment _ => [32]
  end.

Definition canonical (ps : list piece) : bytes := TrimSpace (collapseSpaces false (concat (view <$> ps))).

(** An ASCII byte that starts no other piece, and no comment of MySQL. *)
Definition plain_code (b : Z) : bool :=
  (0 <=? b) && (b <? 128) && negb ((b =? 39) || (b =? 34) || (b =? 96) || (b =? 36) || (b =? 47) || (b =? 45) || (b =? 35)).

(** A piece in front of the rest of the query. *)
Definition piece_ok (p : piece) (rest : bytes) : Prop :=
  match p with
  | Code b => plain_code b = true
  | Punct b => (b = 47 \/ b = 45) /\ first_is (fun c => (c =? 42) || (c =? 45)) rest = false
  | Literal body => forallb (fun c => negb ((c =? 39) || (c =? 92))) body = true /\ first_is (fun c => c =? 39) rest = false
  | Quoted q body => (q = 34 \/ q = 96) /\ forallb (fun c => negb (c =? q)) body = true /\ first_is (fun c => c =? q) rest = false
  | Comment body => forallb (fun c => negb (c =? 42)) body = true /\ starts (str "!") body = false
  | LineComment body =>
      startsLineComment (body ++ rest) = true /\ forallb (fun c => negb (c =? 10)) body = true /\
      (rest = [] \/ first_is (fun c => c =? 10) rest = true)
  end.

Fixpoint pieces_ok (ps : list piece) : Prop :=
  match ps with
  | [] => True
  | p :: ps => piece_ok p (query_of ps) /\ pieces_ok ps
  end.

Lemma scanQuoted_body q bse body rest :
  forallb (fun c => negb ((c =? q) || (bse && (c =? 92)))) body = true -> first_is (fun c => c =? q) rest = false ->
  bse && (q =? 92) = false -> scanQuoted (body ++ q :: rest) q bse = Some (body, rest).
Proof.
  intros Hb Hr Hq. induction body as [| c body IH]; cbn [app scanQuoted].
  - rewrite Hq, Z.eqb_refl. destruct rest as [| d rest]; [done |]. cbn in Hr. by rewrite Hr.
  - cbn in Hb. apply andb_prop in Hb as [Hc Hb]. apply negb_true_iff, orb_false_iff in Hc as [H1 H2].
    rewrite H1, H2, IH by done. done.
Qed.

Lemma quoted_ok q body :
  forallb (fun c => negb (c =? q)) body = true ->
  forallb (fun c => negb ((c =? q) || (false && (c =? 92)))) body = true.
Proof.
  induction body as [| c body IH]; [done |]. cbn [forallb andb]. rewrite orb_false_r.
  intros [-> Hb]%andb_prop. by apply IH.
Qed.

Lemma undouble_none q s : forallb (fun c => negb (c =? q)) s = true -> undouble q s = s.
Proof.
  induction s as [| a s IH]; [done |]. cbn [forallb]. intros [Ha Hs]%andb_prop. apply negb_true_iff in Ha.
  cbn [undouble]. destruct s as [| b s]; [done |]. rewrite Ha. cbn [andb]. by rewrite IH.
Qed.

Lemma IndexOf_comment body rest :
  forallb (fun c => negb (c =? 42)) body = true -> IndexOf (body ++ 42 :: 47 :: rest) (str "*/") = Some (length body).
Proof.
  intros Hb. induction body as [| c body IH]; [done |]. cbn [forallb] in Hb. apply andb_prop in Hb as [Hc Hb].
  cbn [app IndexOf]. rewrite IH by done. unfold starts. rewrite bool_decide_false; [done |].
  apply negb_true_iff, Z.eqb_neq in Hc. by intros [= ->].
Qed.

Lemma ascii_rune b s : 0 <= b < 128 -> DecodeRune (b :: s) = (b, 1%nat).
Proof. intros Hb. unfold DecodeRune. by rewrite (proj2 (Z.ltb_lt b 128)) by lia. Qed.

Lemma norm_step_piece p rest : piece_ok p rest -> norm_step (render p ++ rest) = Ok (view p, rest).
Proof.
  destruct p as [b | b | body | q body | body | body]; cbn [piece_ok render view app].
  - unfold plain_code. intros Hp. unfold norm_step.
    assert (0 <= b < 128 /\ b <> 39 /\ b <> 34 /\ b <> 96 /\ b <> 36 /\ b <> 47 /\ b <> 45) as (H & H1 & H2 & H3 & H4 & H5 & H6) by lia.
    rewrite !(proj2 (Z.eqb_neq _ _)) by done. cbn [orb]. rewrite ascii_rune by done. by destruct (IsSpace b).
  - intros [[-> | ->] Hr]; unfold norm_step; cbn -[DecodeRune IsSpace].
    + destruct rest as [| c r]; [done |]. cbn in Hr. apply orb_false_iff in Hr as [Hc _]. apply Z.eqb_neq in Hc.
      repeat (case_match; try done).
    + destruct rest as [| c r]; [done |]. cbn in Hr. apply orb_false_iff in Hr as [_ Hc]. apply Z.eqb_neq in Hc.
      repeat (case_match; try done).
  - intros [Hb Hr]. unfold norm_step. cbn [Z.eqb Pos.eqb]. rewrite <- app_assoc. cbn [app].
    rewrite scanQuoted_body; [done | | done | done]. done.
  - intros (Hq & Hb & Hr). unfold norm_step. replace (q =? 39) with false by (destruct Hq as [-> | ->]; done).
    replace ((q =? 34) || (q =? 96)) with true by (destruct Hq as [-> | ->]; done). rewrite <- app_assoc. cbn [app].
    rewrite scanQuoted_body; [by rewrite undouble_none | | done | done].
    by apply quoted_ok.
  - intros [Hb Hn]. unfold norm_step. cbn [Z.eqb Pos.eqb orb]. unfold scanBlockComment. rewrite <- app_assoc. cbn [app].
    rewrite IndexOf_comment by done. rewrite take_app_length, Hn.
    by rewrite <- drop_drop, drop_app_length.
  - intros (Hs & Hb & Hr). unfold norm_step. cbn [Z.eqb Pos.eqb orb]. rewrite Hs.
    change (skipToLineEnd (45 :: 45 :: body ++ rest)) with (skipToLineEnd (body ++ rest)).
    unfold skipToLineEnd. rewrite drop_while_app; [done | done |].
    destruct Hr as [-> | Hr]; [done |]. destruct rest as [| c r]; [done |]. cbn in *. by rewrite Hr.
Qed.

Lemma norm_pieces ps : pieces_ok ps -> norm (query_of ps) = Ok (concat (view <$> ps)).
Proof.
  induction ps as [| p ps IH]; [done |]. intros [Hp Hps]. change (query_of (p :: ps)) with (render p ++ query_of ps).
  rewrite (norm_cons _ (view p) (query_of ps)); [by rewrite IH | by destruct p | by apply norm_step_piece].
Qed.

Lemma normalize_pieces ps : pieces_ok ps -> normalizeSQL (query_of ps) = Ok (canonical ps).
Proof. intros Hps. unfold normalizeSQL, canonical. change (norm_loop _ _) with (norm (query_of ps)). by rewrite norm_pieces. Qed.

(** The same pieces, the insides of literals and comments aside. *)
Inductive same_code : piece -> piece -> Prop :=
| same_piece p : same_code p p
| same_literal b b' : same_code (Literal b) (Literal b')
| same_comment b b' : same_code (Comment b) (Comment b')
| same_line_comment b b' : same_code (LineComment b) (LineComment b').

Lemma same_canonical ps ps' : Forall2 same_code ps ps' -> canonical ps = canonical ps'.
Proof.
  intros Hs. unfold canonical. do 2 f_equal. induction Hs as [| p p' ps ps' Hp _ IH]; [done |].
  cbn [fmap list_fmap concat]. rewrite IH. by destruct Hp.
Qed.


Lemma contains_byte s b : contains_text s [b] = false <-> b ∉ s.
Proof.
  unfold contains_text. rewrite bool_decide_eq_false, <- eq_None_not_Some. split.
  - intros Hn (s1 & s2 & ->)%list_elem_of_split. pose proof (IndexOf_none _ _ Hn (length s1)) as Hs.
    rewrite drop_app_length in Hs. apply not_true_iff_false in Hs. apply Hs, starts_spec. by exists s2.
  - intros Hb. destruct (IndexOf s [b]) as [i |] eqn:E; [| done]. destruct Hb.
    apply IndexOf_some in E as ([r Hr]%starts_spec & _). rewrite <- (take_drop i s), Hr. set_solver.
Qed.

(** The law of [strings.ToUpper] on ASCII text. *)
Class UpperLaws (U : Upper) : Prop := {
  upper_ascii s : forallb (fun b => (0 <=? b) && (b <? 128)) s = true -> ToUpper s = ascii_upper s
}.

#[export] Instance ascii_upper_laws : UpperLaws ascii_upper.
Proof. by split. Qed.

Lemma norm_plain a t : forallb plain_code a = true ->
  norm (a ++ t) = emit ((fun b => if IsSpace b then 32 else b) <$> a) (norm t).
Proof.
  induction a as [| b a IH]; cbn [forallb].
  - intros _. change (norm t = emit [] (norm t)). unfold emit. by destruct (norm t).
  - intros [Hb Ha]%andb_prop. cbn [app]. rewrite (norm_cons _ [if IsSpace b then 32 else b] (a ++ t)); [| done |].
    + rewrite IH by done. unfold emit. by destruct (norm t).
    + apply (norm_step_piece (Code b) (a ++ t) Hb).
Qed.

(** ** The words of a query *)

Definition ascii_byte (b : Z) : bool := (0 <=? b) && (b <? 128).

(** What separates words and is not part of a statement. *)
Definition blank (p : piece) : bool :=
  match p with
  | Code b => IsSpace b
  | Comment _ | LineComment _ => true
  | _ => false
  end.

Definition word_piece (p : piece) : bool := match p with Code b => isIdentByte b | _ => false end.

Definition ends_word (ps : list piece) : bool := match last ps with Some p => word_piece p | None => false end.

Definition starts_word (ps : list piece) : bool := match ps with p :: _ => word_piece p | [] => false end.

(** [w] stands in the code of the query, in any case, outside its literals, comments and quoted
    identifiers, and not as a part of a longer word; [rest] is what follows it. *)
Definition word_in (ps : list piece) (w : bytes) (rest : list piece) : Prop :=
  exists before cs, ps = before ++ (Code <$> cs) ++ rest /\ ascii_upper cs = w /\ ends_word before = false.

Definition stands (ps : list piece) (w : bytes) : Prop := exists rest, word_in ps w rest /\ starts_word rest = false.

(** What follows is a parenthesis, blanks aside. *)
Definition opens_call (rest : list piece) : Prop := exists bl rest', rest = bl ++ Code 40 :: rest' /\ forallb blank bl = true.

Definition stands_uncalled (ps : list piece) (w : bytes) : Prop :=
  exists rest, word_in ps w rest /\ starts_word rest = false /\ ~ opens_call rest.

(** The function [w] is called, by its name or by its quoted name. *)
Definition called (ps : list piece) (w : bytes) : Prop :=
  exists rest, opens_call rest /\
    (word_in ps w rest \/ exists before q body, ps = before ++ Quoted q body :: rest /\ ascii_upper body = w).

(** The query begins with the word [w]. *)
Definition first_word (ps : list piece) (w : bytes) : Prop :=
  exists bl cs rest, ps = bl ++ (Code <$> cs) ++ rest /\ forallb blank bl = true /\ ascii_upper cs = w /\
    ident_word cs /\ starts_word rest = false.

(** Quoted identifiers are ASCII text that begins like an identifier and has no backslash. *)
Definition plain_quotes (ps : list piece) : Prop :=
  Forall (fun p => match p with
    | Quoted _ body => forallb (fun b => ascii_byte b && negb (b =? 92)) body = true /\ first_is isIdentByte body = true
    | _ => True
    end) ps.

(** A piece by itself. *)
Definition shape (p : piece) : Prop :=
  match p with
  | Code b => plain_code b = true
  | Punct b => b = 47 \/ b = 45
  | Quoted _ body => forallb ascii_byte body = true /\ first_is isIdentByte body = true
  | _ => True
  end.

Lemma shapes ps : pieces_ok ps -> plain_quotes ps -> Forall shape ps.
Proof.
  induction ps as [| p ps IH]; [constructor |]. intros [Hp Hps] [Hq Hqs]%Forall_cons. constructor; [| by apply IH].
  destruct p; cbn in *; try done; [by destruct Hp |]. destruct Hq as [Hq Hf]. split; [| done].
  rewrite forallb_forall in *. intros b Hb. by destruct (andb_prop _ _ (Hq b Hb)).
Qed.

Definition views (ps : list piece) : bytes := concat (view <$> ps).

Lemma views_app ps ps' : views (ps ++ ps') = views ps ++ views ps'.
Proof. unfold views. by rewrite fmap_app, concat_app. Qed.

Lemma views_cons p ps : views (p :: ps) = view p ++ views ps.
Proof. done. Qed.

Lemma ident_not_space b : isIdentByte b = true -> IsSpace b = false.
Proof. unfold isIdentByte, IsSpace, cont. lia. Qed.

Lemma ident_upper b : isIdentByte (if cont 97 122 b then b - 32 else b) = isIdentByte b.
Proof. destruct (cont 97 122 b) eqn:E; [| done]. revert E. unfold isIdentByte, cont. lia. Qed.

Lemma idents_upper cs : forallb isIdentByte (ascii_upper cs) = forallb isIdentByte cs.
Proof. induction cs as [| b cs IH]; [done |]. cbn. rewrite ident_upper. by f_equal. Qed.

Lemma views_code cs : forallb isIdentByte cs = true -> views (Code <$> cs) = cs.
Proof.
  induction cs as [| b cs IH]; [done |]. intros [Hb Hcs]%andb_prop. cbn. rewrite ident_not_space by done.
  unfold views in IH. by rewrite IH.
Qed.

Lemma ends_ident_snoc a b : ends_ident (a ++ [b]) = isIdentByte b.
Proof. unfold ends_ident. by rewrite last_snoc. Qed.

Lemma views_end before : Forall shape before -> ends_word before = false -> ends_ident (views before) = false.
Proof.
  unfold ends_word. destruct before as [| p before _] using rev_ind; [done |].
  rewrite last_snoc, views_app, views_cons, app_nil_r. intros [_ [Hp _]%Forall_cons]%Forall_app.
  assert (forall b, ends_ident (views before ++ [b]) = isIdentByte b) as HB by (intros; apply ends_ident_snoc).
  destruct p as [b | b | body | q body | body | body]; cbn [view word_piece shape] in *.
  - intros Hb. rewrite HB. by destruct (IsSpace b).
  - intros _. rewrite HB. by destruct Hp as [-> | ->].
  - intros _. unfold maskedLiteral. by rewrite (app_assoc _ [39] [39]), ends_ident_snoc.
  - intros _. rewrite app_comm_cons, app_assoc. by rewrite ends_ident_snoc.
  - intros _. by rewrite (app_assoc _ [32] [32]), ends_ident_snoc.
  - intros _. by rewrite HB.
Qed.

Lemma views_first rest : Forall shape rest -> starts_word rest = false -> first_is isIdentByte (views rest) = false.
Proof.
  destruct rest as [| p rest]; [done |]. intros [Hp _]%Forall_cons. rewrite views_cons.
  destruct p as [b | b | body | q body | body | body]; cbn [view starts_word word_piece shape app first_is] in *; try done.
  - intros Hb. by destruct (IsSpace b).
  - intros _. by destruct Hp as [-> | ->].
Qed.

Lemma views_blank bl : forallb blank bl = true -> forallb (Z.eqb 32) (views bl) = true.
Proof.
  induction bl as [| p bl IH]; [done |]. intros [Hp Hbl]%andb_prop. rewrite views_cons, forallb_app, IH by done.
  destruct p; try done; cbn in *. by rewrite Hp.
Qed.

Lemma plain_ascii b : plain_code b = true -> ascii_byte b = true.
Proof. unfold plain_code, ascii_byte. lia. Qed.

Lemma views_ascii ps : Forall shape ps -> forallb ascii_byte (views ps) = true.
Proof.
  induction 1 as [| p ps Hp _ IH]; [done |]. rewrite views_cons, forallb_app, IH, andb_true_r.
  destruct p as [b | b | body | q body | body | body]; cbn [view shape] in *; try done.
  - destruct (IsSpace b); [done |]. cbn. by rewrite (plain_ascii b Hp).
  - by destruct Hp as [-> | ->].
  - destruct Hp as [Hp _]. cbn. by rewrite forallb_app, Hp.
Qed.

(** A parenthesis shows where the pieces have it. *)
Lemma views_opens rest : Forall shape rest ->
  (exists sp t, views rest = sp ++ 40 :: t /\ forallb (Z.eqb 32) sp = true) <-> opens_call rest.
Proof.
  intros Hr. split.
  - induction Hr as [| p rest Hp Hr IH]; [by intros ([|] & t & E & _) |]. intros (sp & t & E & Hsp). rewrite views_cons in E.
    assert (forall v, forallb (Z.eqb 32) v = true -> view p = v -> blank p = true -> opens_call (p :: rest)) as HB.
    { intros v Hv Hpv Hb. rewrite Hpv in E.
      assert (exists sp' t', views rest = sp' ++ 40 :: t' /\ forallb (Z.eqb 32) sp' = true) as H.
      { apply app_eq_inv in E as [(k & -> & E) | (k & -> & E)].
        - destruct k as [| c k]; [by exists [], t |]. rewrite forallb_app in Hv. cbn in Hv, E. injection E as <- _.
          by rewrite andb_false_r in Hv.
        - rewrite forallb_app in Hsp. apply andb_prop in Hsp as [_ Hk]. by exists k, t. }
      destruct (IH H) as (bl & rest' & -> & Hbl). exists (p :: bl), rest'. split; [done |]. cbn. by rewrite Hb. }
    assert (forall b v, view p = b :: v -> b <> 32 -> b <> 40 -> opens_call (p :: rest)) as HN.
    { intros b v Hv H32 H40. rewrite Hv in E. destruct sp as [| c sp]; injection E as -> _; [done |].
      apply andb_prop in Hsp as [H%Z.eqb_eq _]. by subst. }
    destruct p as [b | b | body | q body | body | body].
    + destruct (IsSpace b) eqn:Eb; [by apply (HB [32]); cbn; rewrite ?Eb |].
      destruct (decide (b = 40)) as [-> | Hb]; [by exists [], rest |].
      apply (HN b []); [by cbn; rewrite Eb | | done]. by intros ->.
    + destruct Hp as [-> | ->]; (eapply HN; [reflexivity | done | done]).
    + eapply HN; [reflexivity | done | done].
    + exfalso. destruct Hp as [_ Hf]. destruct body as [| c body]; [done |]. cbn in Hf, E.
      destruct sp as [| d [| d' sp]]; injection E as; subst; try done.
      * apply andb_prop in Hsp as [_ [H%Z.eqb_eq _]%andb_prop]. by subst.
    + by apply (HB [32; 32]).
    + by apply (HB [32]).
  - intros (bl & rest' & -> & Hbl). exists (views bl), (views rest'). split; [by rewrite views_app |]. by apply views_blank.
Qed.

(** *** Words through the normaliser *)

(** The statement the checks look at. *)
Definition statement (normalized : bytes) : bytes := TrimRight (fun b => (b =? 59) || (b =? 32)) normalized.

Lemma ends_ident_cons c a : a <> [] -> ends_ident (c :: a) = ends_ident a.
Proof. by destruct a. Qed.

Lemma collapse_nil b s : collapseSpaces b s = [] -> forallb (Z.eqb 32) s = true.
Proof.
  revert b. induction s as [| c s IH]; intros b; [done |]. cbn. destruct (Z.eqb_spec c 32) as [-> |]; [| done].
  destruct b; [apply IH | done].
Qed.

Lemma blank_end a : forallb (Z.eqb 32) a = true -> ends_ident a = false.
Proof.
  induction a as [| c a _] using rev_ind; [done |]. rewrite forallb_app, ends_ident_snoc.
  intros [_ [H%Z.eqb_eq _]%andb_prop]%andb_prop. by subst.
Qed.

Lemma collapse_end b a : ends_ident (collapseSpaces b a) = ends_ident a.
Proof.
  revert b. induction a as [| c a IH]; intros b; [done |]. cbn [collapseSpaces].
  assert (forall b', collapseSpaces b' a <> [] -> ends_ident (c :: collapseSpaces b' a) = ends_ident (c :: a)) as HC.
  { intros b' Hn. rewrite ends_ident_cons, IH by done. destruct a; [by destruct b' | done]. }
  destruct (Z.eqb_spec c 32) as [-> | Hc]; [destruct b |].
  - rewrite IH. by destruct a.
  - destruct (collapseSpaces true a) eqn:E; [| rewrite <- E; apply HC; by rewrite E].
    rewrite (blank_end (32 :: a)); [done |]. by apply (collapse_nil true).
  - destruct a as [| d a]; [done |]. apply HC. cbn. by destruct (d =? 32).
Qed.

Lemma collapse_at b a x r : x <> 32 -> collapseSpaces b (a ++ x :: r) = collapseSpaces b a ++ x :: collapseSpaces false r.
Proof.
  intros Hx. revert b. induction a as [| c a IH]; intros b; cbn [app collapseSpaces].
  - by rewrite (proj2 (Z.eqb_neq x 32) Hx).
  - destruct (c =? 32); [destruct b |]; cbn; by rewrite IH.
Qed.

Lemma collapse_word b a cs r : cs <> [] -> forallb isIdentByte cs = true ->
  collapseSpaces b (a ++ cs ++ r) = collapseSpaces b a ++ cs ++ collapseSpaces false r.
Proof.
  destruct cs as [| x cs]; [done |]. intros _ [Hx Hcs]%andb_prop. cbn [app]. rewrite collapse_at by (by intros ->). do 2 f_equal.
  clear Hx. induction cs as [| y cs IH]; [done |]. apply andb_prop in Hcs as [Hy Hcs]. cbn. rewrite IH by done.
  destruct (Z.eqb_spec y 32) as [-> |]; done.
Qed.

Lemma collapse_blank b sp : forallb (Z.eqb 32) sp = true -> forallb (Z.eqb 32) (collapseSpaces b sp) = true.
Proof.
  revert b. induction sp as [| c sp IH]; intros b; [done |]. intros [<-%Z.eqb_eq Hsp]%andb_prop. cbn. destruct b; cbn; by apply IH.
Qed.

Lemma collapse_first r : first_is isIdentByte (collapseSpaces false r) = first_is isIdentByte r.
Proof. destruct r as [| c r]; [done |]. cbn. by destruct (Z.eqb_spec c 32) as [-> |]. Qed.

Lemma collapse_opens b r sp t : collapseSpaces b r = sp ++ 40 :: t -> forallb (Z.eqb 32) sp = true ->
  exists sp' t', r = sp' ++ 40 :: t' /\ forallb (Z.eqb 32) sp' = true.
Proof.
  revert b sp. induction r as [| c r IH]; intros b sp; [by destruct sp |]. cbn [collapseSpaces].
  assert (forall b' sp', collapseSpaces b' r = sp' ++ 40 :: t -> forallb (Z.eqb 32) sp' = true -> c = 32 ->
    exists sp' t', c :: r = sp' ++ 40 :: t' /\ forallb (Z.eqb 32) sp' = true) as HS.
  { intros b' sp' E Hsp ->. destruct (IH b' sp' E Hsp) as (sp2 & t2 & -> & H2). by exists (32 :: sp2), t2. }
  destruct (Z.eqb_spec c 32) as [-> | Hc]; [destruct b; [intros E Hs; by eapply HS |] |]; intros E Hs.
  - destruct sp as [| d sp]; [done |]. injection E as <- E. eapply HS; [exact E | exact Hs | done].
  - destruct sp as [| d sp]; injection E as -> E; [by exists [], r |]. apply andb_prop in Hs as [H%Z.eqb_eq _]. congruence.
Qed.

(** [m] stays when [f] is trimmed off on both sides. *)
Lemma core_kept (f : Z -> bool) (l s t a m r : bytes) :
  l ++ s ++ t = a ++ m ++ r -> forallb f l = true -> forallb f t = true ->
  first_is f m = false -> m <> [] -> (forall b, last m = Some b -> f b = false) ->
  exists a' r', s = a' ++ m ++ r' /\ a = l ++ a' /\ r = r' ++ t.
Proof.
  intros E Hl Ht Hm Hn Hlast. destruct m as [| x m]; [done |]. cbn in Hm.
  assert (exists a', a = l ++ a' /\ s ++ t = a' ++ (x :: m) ++ r) as (a' & -> & E').
  { apply app_eq_inv in E as [(k & -> & E) | (k & -> & E)]; [| by exists k].
    destruct k as [| c k]; [by exists []; rewrite !app_nil_r |]. rewrite forallb_app in Hl. cbn in Hl, E. injection E as -> _.
    by rewrite Hm, andb_false_r in Hl. }
  rewrite app_assoc in E'. apply app_eq_inv in E' as [(k & Hk & E') | (k & Hk & E')].
  - exists a', k. split; [by rewrite Hk, <- app_assoc |]. done.
  - destruct k as [| c k _] using rev_ind; [exists a', []; rewrite app_nil_r in Hk; rewrite app_nil_r; by rewrite E'; cbn |].
    exfalso. specialize (Hlast c). rewrite E' in Ht. rewrite forallb_app, forallb_app in Ht. cbn in Ht.
    assert (last (x :: m) = Some c) as Hc.
    { apply (f_equal last) in Hk. rewrite app_assoc, last_snoc in Hk. rewrite last_app_cons in Hk. done. }
    rewrite (Hlast Hc) in Ht. by rewrite andb_false_r in Ht.
Qed.

Lemma trim_left_ascii fuel s : forallb ascii_byte s = true -> (length s <= fuel)%nat ->
  exists l, s = l ++ trim_left fuel s /\ forallb IsSpace l = true /\ first_is IsSpace (trim_left fuel s) = false.
Proof.
  revert s. induction fuel as [| fuel IH]; intros s Hs Hl; (destruct s as [| b s]; [by exists [] |]); [cbn in Hl; lia |].
  apply andb_prop in Hs as [Hb Hs]. cbn [trim_left]. rewrite ascii_rune by (unfold ascii_byte in Hb; lia).
  destruct (IsSpace b) eqn:Eb; [| by exists []]. cbn in Hl. destruct (IH s Hs ltac:(lia)) as (l & E & Hsp & Hf).
  change (drop 1 (b :: s)) with s. exists (b :: l). cbn. by rewrite <- E, Eb.
Qed.

Lemma trim_right_ascii fuel s : forallb ascii_byte s = true -> (length s <= fuel)%nat ->
  exists t, s = trim_right fuel s ++ t /\ forallb IsSpace t = true.
Proof.
  revert s. induction fuel as [| fuel IH]; intros s Hs Hl; (destruct s as [| b s]; [by exists [] |]); [cbn in Hl; lia |].
  apply andb_prop in Hs as [Hb Hs]. cbn [trim_right]. rewrite ascii_rune by (unfold ascii_byte in Hb; lia).
  cbn in Hl. destruct (IH s Hs ltac:(lia)) as (t & E & Ht). change (drop 1 (b :: s)) with s. change (take 1 (b :: s)) with [b].
  destruct (IsSpace b) eqn:Eb; cbn [andb].
  - case_bool_decide as Er; [exists (b :: t) | by exists t; cbn; rewrite <- E]. rewrite Er in E. cbn in E. subst s. cbn. by rewrite Eb.
  - exists t. cbn. by rewrite <- E.
Qed.

(** What [TrimSpace] leaves of an ASCII text. *)
Lemma TrimSpace_ascii s : forallb ascii_byte s = true ->
  exists l t, s = l ++ TrimSpace s ++ t /\ forallb IsSpace l = true /\ forallb IsSpace t = true /\ first_is IsSpace (TrimSpace s) = false.
Proof.
  intros Hs. destruct (trim_left_ascii (length s) s Hs ltac:(lia)) as (l & E & Hl & Hf). unfold TrimSpace.
  set (m := trim_left (length s) s) in *. assert (forallb ascii_byte m = true) as Hm.
  { rewrite E, forallb_app in Hs. by apply andb_prop in Hs as [_ Hs]. }
  destruct (trim_right_ascii (length m) m Hm ltac:(lia)) as (t & Em & Ht). exists l, t. rewrite <- Em.
  split; [done |]. split; [done |]. split; [done |]. destruct (trim_right (length m) m) as [| c r]; [done |]. rewrite Em in Hf. exact Hf.
Qed.

Lemma TrimRight_split f s : exists t, s = TrimRight f s ++ t /\ forallb f t = true.
Proof.
  induction s as [| b s (t & E & Ht)]; [by exists [] |]. cbn. destruct (TrimRight f s) as [| c r].
  - cbn in E. subst s. destruct (f b) eqn:Eb; [exists (b :: t); cbn; by rewrite Eb | by exists t].
  - exists t. cbn in *. by rewrite <- E.
Qed.

Lemma collapse_ascii b s : forallb ascii_byte s = true -> forallb ascii_byte (collapseSpaces b s) = true.
Proof.
  revert b. induction s as [| c s IH]; intros b; [done |]. intros [Hc Hs]%andb_prop. cbn.
  destruct (c =? 32); [destruct b |]; cbn; rewrite ?Hc; by apply IH.
Qed.

(** What does not begin with a space, nor end with one or a semicolon, is still there in the statement. *)
Lemma statement_core ps a m r :
  Forall shape ps -> collapseSpaces false (views ps) = a ++ m ++ r -> m <> [] -> first_is IsSpace m = false ->
  (forall b, last m = Some b -> IsSpace b = false /\ b <> 59) ->
  exists l a' r' t, statement (canonical ps) = a' ++ m ++ r' /\ a = l ++ a' /\ r = r' ++ t /\
    first_is IsSpace a' = false.
Proof.
  intros Hp E Hn Hf Hl. unfold canonical. fold (views ps).
  destruct (TrimSpace_ascii _ (collapse_ascii false _ (views_ascii ps Hp))) as (l & t & Es & Hls & Ht & Hfs).
  rewrite E in Es. symmetry in Es.
  destruct (core_kept IsSpace _ _ _ _ _ _ Es Hls Ht Hf Hn) as (a' & r1 & E1 & -> & ->); [intros b Hb; by apply Hl |].
  rewrite E in *. set (n := TrimSpace _) in *. unfold statement.
  destruct (TrimRight_split (fun b => (b =? 59) || (b =? 32)) n) as (t2 & E2 & Ht2).
  assert (exists r', TrimRight (fun b => (b =? 59) || (b =? 32)) n = a' ++ m ++ r' /\ r1 = r' ++ t2) as (r' & Er & ->).
  { rewrite E1 in E2 at 1. symmetry in E2. rewrite (app_assoc a' m r1) in E2.
    apply app_eq_inv in E2 as [(k & Hk & E2) | (k & Hk & E2)]; [exists k; by rewrite Hk, <- app_assoc |].
    destruct k as [| c k _] using rev_ind; [exists []; rewrite !app_nil_r in *; by rewrite Hk, E2 |]. exfalso.
    assert (last m = Some c) as Hc.
    { apply (f_equal last) in Hk. rewrite app_assoc, last_snoc in Hk. destruct m as [| x m]; [done |]. by rewrite last_app_cons in Hk. }
    destruct (Hl c Hc) as [Hs H59]. rewrite E2, !forallb_app in Ht2. cbn in Ht2.
    apply andb_prop in Ht2 as [[_ [Hc2 _]%andb_prop]%andb_prop _]. apply orb_prop in Hc2 as [H%Z.eqb_eq | H%Z.eqb_eq]; subst; done. }
  exists l, a', r', (t2 ++ t). split; [done |]. split; [done |]. split; [by rewrite <- app_assoc |].
  rewrite E1 in Hfs. by destruct a'.
Qed.

Lemma ends_ident_suffix l a : ends_ident (l ++ a) = false -> ends_ident a = false.
Proof. destruct a as [| c a _] using rev_ind; [done |]. by rewrite app_assoc, !ends_ident_snoc. Qed.

Lemma idents_last cs b : forallb isIdentByte cs = true -> last cs = Some b -> isIdentByte b = true.
Proof. intros Hcs Hb. rewrite last_lookup in Hb. by eapply forallb_lookup. Qed.

(** A word of the query is a token of its statement, at the same place. *)
Lemma word_kept ps before cs rest :
  Forall shape ps -> ps = before ++ (Code <$> cs) ++ rest -> ends_word before = false -> ident_word cs ->
  exists a l t, statement (canonical ps) = a ++ cs ++ t /\ collapseSpaces false (views before) = l ++ a /\ ends_ident a = false /\
    first_is IsSpace a = false /\ exists t', collapseSpaces false (views rest) = t ++ t'.
Proof.
  intros Hp Hps Hb [Hn Hi]. assert (Forall shape before) as Hpb by (rewrite Hps in Hp; by apply Forall_app in Hp as [? _]).
  destruct (statement_core ps (collapseSpaces false (views before)) cs (collapseSpaces false (views rest)))
    as (l & a & t & t' & Es & Ea & Er & Hf); [done | | done | | |].
  - rewrite Hps, !views_app, (views_code cs Hi). by apply collapse_word.
  - destruct cs as [| c cs]; [done |]. apply andb_prop in Hi as [Hc _]. by apply ident_not_space.
  - intros b Hlb. apply (idents_last cs b Hi) in Hlb. split; [by apply ident_not_space | by intros ->].
  - exists a, l, t. split; [done |]. split; [done |]. split; [| split; [done | by exists t']].
    apply (ends_ident_suffix l). rewrite <- Ea, collapse_end. by apply views_end.
Qed.

Lemma first_prefix t t' : first_is isIdentByte (t ++ t') = false -> first_is isIdentByte t = false.
Proof. by destruct t. Qed.

Lemma upper_first t : first_is isIdentByte (ascii_upper t) = first_is isIdentByte t.
Proof. destruct t as [| b t]; [done |]. cbn. apply ident_upper. Qed.

Lemma upper_end a : ends_ident (ascii_upper a) = ends_ident a.
Proof. unfold ends_ident, ascii_upper. rewrite fmap_last. destruct (last a) as [b |]; [apply ident_upper | done]. Qed.

Lemma upper_app a b : ascii_upper (a ++ b) = ascii_upper a ++ ascii_upper b.
Proof. apply fmap_app. Qed.

Lemma upper_word cs : ident_word (ascii_upper cs) -> ident_word cs.
Proof. intros [Hn Hi]. split; [by intros -> | by rewrite idents_upper in Hi]. Qed.

Lemma upper_blank sp : forallb (Z.eqb 32) sp = true -> ascii_upper sp = sp.
Proof. induction sp as [| c sp IH]; [done |]. intros [<-%Z.eqb_eq H]%andb_prop. cbn. by f_equal; apply IH. Qed.

Lemma upper_opens t sp t' : ascii_upper t = sp ++ 40 :: t' -> forallb (Z.eqb 32) sp = true ->
  exists t2, t = sp ++ 40 :: t2.
Proof.
  intros E Hsp. apply fmap_app_inv in E as (s1 & s2 & E1 & E2 & ->). symmetry in E2. apply fmap_cons_inv in E2 as (c & t2 & Hc & _ & ->).
  exists t2. f_equal.
  - symmetry in E1. change (ascii_upper s1 = sp) in E1. rewrite <- E1. clear - Hsp E1. rewrite <- E1 in Hsp. clear E1. induction s1 as [| d s1 IH]; [done |].
    cbn [ascii_upper fmap list_fmap forallb] in Hsp |- *. apply andb_prop in Hsp as [Hd Hs]. apply Z.eqb_eq in Hd. f_equal; [| by apply IH]. revert Hd. destruct (cont 97 122 d) eqn:Ed; [| done].
    unfold cont in Ed. lia.
  - f_equal. revert Hc. destruct (cont 97 122 c) eqn:Ec; [| done]. unfold cont in Ec. lia.
Qed.

Section Kept.
Context (ps : list piece) (Hps : Forall shape ps).

Definition seen_statement : bytes := ascii_upper (statement (canonical ps)).

Lemma word_seen w rest : word_in ps w rest -> ident_word w ->
  exists a t t', seen_statement = a ++ w ++ ascii_upper t /\ ends_ident a = false /\ collapseSpaces false (views rest) = t ++ t'.
Proof.
  intros (before & cs & E & <- & Hb) Hw%upper_word. destruct (word_kept ps before cs rest Hps E Hb Hw) as (a & l & t & Es & _ & Ha & _ & t' & Et).
  exists (ascii_upper a), t, t'. unfold seen_statement. by rewrite Es, !upper_app, upper_end.
Qed.

Lemma rest_shape w rest : word_in ps w rest -> Forall shape rest.
Proof. intros (before & cs & E & _). rewrite E in Hps. by apply Forall_app in Hps as [_ [_ ?]%Forall_app]. Qed.

Lemma stands_seen w : stands ps w -> ident_word w -> is_token seen_statement w.
Proof.
  intros (rest & Hin & Hr) Hw. destruct (word_seen w rest Hin Hw) as (a & t & t' & Es & Ha & Et). exists a, (ascii_upper t).
  split; [done |]. split; [done |]. rewrite upper_first. apply (first_prefix t t'). rewrite <- Et, collapse_first.
  by apply views_first; [eapply rest_shape |].
Qed.

Lemma uncalled_seen w : stands_uncalled ps w -> ident_word w -> is_plain_token seen_statement w.
Proof.
  intros (rest & Hin & Hr & Ho) Hw. destruct (word_seen w rest Hin Hw) as (a & t & t' & Es & Ha & Et). exists a, (ascii_upper t).
  split; [done |]. split; [done |]. pose proof (rest_shape w rest Hin) as Hrs. split.
  - rewrite upper_first. apply (first_prefix t t'). rewrite <- Et, collapse_first. by apply views_first.
  - intros sp t1 Hsp E. destruct (upper_opens _ _ _ E Hsp) as [t2 ->]. rewrite <- app_assoc in Et.
    destruct (collapse_opens _ _ _ _ Et Hsp) as (sp' & t3 & Ev & Hsp'). apply Ho, views_opens; [done | by exists sp', t3].
Qed.

Lemma call_seen A cs sp R : views ps = A ++ cs ++ sp ++ 40 :: R -> ends_ident A = false -> forallb (Z.eqb 32) sp = true ->
  ident_word cs -> is_call isSpaceByte seen_statement (ascii_upper cs).
Proof.
  intros E HA Hsp [Hn Hi].
  destruct (statement_core ps (collapseSpaces false A) (cs ++ collapseSpaces false sp ++ [40]) (collapseSpaces false R))
    as (l & a & t & t' & Es & Ea & _ & Hf); [done | | by destruct cs | | |].
  - rewrite E, (collapse_word _ _ _ _ Hn Hi), (collapse_at _ sp 40) by done. by rewrite <- !app_assoc.
  - destruct cs as [| c cs]; [done |]. apply andb_prop in Hi as [Hc _]. by apply ident_not_space.
  - intros b. rewrite app_assoc, last_snoc. by intros [= <-].
  - exists (ascii_upper a), (collapseSpaces false sp), (ascii_upper t). unfold seen_statement. rewrite Es, !upper_app, <- !app_assoc.
    pose proof (collapse_blank false sp Hsp) as Hb. rewrite (upper_blank _ Hb). split; [done |]. split.
    + rewrite upper_end. apply (ends_ident_suffix l). by rewrite <- Ea, collapse_end.
    + rewrite forallb_forall in *. intros b Hbin. by apply Hb, Z.eqb_eq in Hbin as <-.
Qed.

Lemma called_seen f : called ps f -> ident_word f -> is_call isSpaceByte seen_statement f.
Proof.
  intros (rest & Ho & Hf) Hw. destruct Hf as [(before & cs & E & <- & Hb) | (before & q & body & E & <-)]; apply upper_word in Hw.
  - pose proof Hps as Hp. rewrite E in Hp. apply Forall_app in Hp as [Hb1 [_ Hr]%Forall_app]. apply views_opens in Ho as (sp & t & Ev & Hsp); [| done].
    apply (call_seen (views before) cs sp t); [| by apply views_end | done | done]. destruct Hw as [_ Hi].
    by rewrite E, !views_app, (views_code cs Hi), Ev.
  - assert (Forall shape rest) as Hr by (rewrite E in Hps; by apply Forall_app in Hps as [_ [_ ?]%Forall_cons]).
    apply views_opens in Ho as (sp & t & Ev & Hsp); [| done].
    apply (call_seen (views before ++ [32]) body (32 :: sp) t); [| by rewrite ends_ident_snoc | done | done].
    rewrite E, views_app, views_cons, Ev. cbn. by rewrite <- !app_assoc.
Qed.

(** Something of the statement is left behind a semicolon. *)
Lemma semicolon_seen before rest : ps = before ++ Code 59 :: rest ->
  forallb (fun p => blank p || match p with Code b => b =? 59 | _ => false end) rest = false -> 59 ∈ statement (canonical ps).
Proof.
  intros E Hr. assert (exists r1 p r2, rest = r1 ++ p :: r2 /\ (blank p || match p with Code b => b =? 59 | _ => false end) = false)
    as (r1 & p & r2 & -> & Hp).
  { clear E. induction rest as [| p rest IH]; [done |]. cbn in Hr. apply andb_false_iff in Hr as [Hr | Hr]; [by exists [], p, rest |].
    destruct (IH Hr) as (r1 & p' & r2 & -> & Hp). by exists (p :: r1), p', r2. }
  assert (shape p) as Hs by (rewrite E in Hps; by apply Forall_app in Hps as [_ [_ [_ [? _]%Forall_cons]%Forall_app]%Forall_cons]).
  assert (exists u x v, view p = u ++ x :: v /\ IsSpace x = false /\ x <> 59) as (u & x & v & Ev & Hx & H59).
  { apply orb_false_iff in Hp as [Hb H]. destruct p as [b | b | body | q body | body | body]; try done; cbn in *.
    - rewrite Hb. exists [], b, []. repeat split; [done |]. by apply Z.eqb_neq.
    - exists [], b, []. by destruct Hs as [-> | ->].
    - by exists [], 39, [39].
    - destruct Hs as [_ Hs], body as [| c body]; [done |]. exists [32], c, (body ++ [32]). split; [done |].
      split; [by apply ident_not_space | by intros ->]. }
  destruct (statement_core ps (collapseSpaces false (views before)) (59 :: collapseSpaces false (views r1 ++ u) ++ [x])
    (collapseSpaces false (v ++ views r2))) as (l & a & t & t' & Es & _); [done | | done | done | |].
  - rewrite E, views_app, views_cons, views_app, views_cons, Ev. cbn [view app]. change (IsSpace 59) with false. cbv iota.
    rewrite (collapse_at _ (views before) 59) by done. f_equal. cbn [app]. f_equal.
    rewrite <- (app_assoc _ [x]). cbn [app]. rewrite <- collapse_at by (intros ->; done). f_equal. by rewrite <- !app_assoc.
  - intros b. rewrite app_comm_cons, last_snoc. by intros [= <-].
  - rewrite Es. set_solver.
Qed.

(** The statement begins with the first word of the query. *)
Lemma first_seen w : first_word ps w -> exists t, seen_statement = w ++ t /\ first_is isIdentByte t = false /\ ident_word w.
Proof.
  intros (bl & cs & rest & E & Hbl & <- & Hw & Hr).
  assert (ends_word bl = false) as Hb.
  { clear - Hbl. unfold ends_word. destruct bl as [| p bl _] using rev_ind; [done |]. rewrite last_snoc. rewrite forallb_app in Hbl.
    apply andb_prop in Hbl as [_ [Hp _]%andb_prop]. destruct p as [b | | | | |]; try done. cbn in *.
    destruct (isIdentByte b) eqn:Eb; [| done]. apply ident_not_space in Eb. congruence. }
  destruct (word_kept ps bl cs rest Hps E Hb Hw) as (a & l & t & Es & Ea & _ & Hf & t' & Et).
  assert (a = []) as ->.
  { pose proof (collapse_blank false _ (views_blank bl Hbl)) as Hc. rewrite Ea, forallb_app in Hc. apply andb_prop in Hc as [_ Hc].
    destruct a as [| c a]; [done |]. apply andb_prop in Hc as [Hc%Z.eqb_eq _]. by subst. }
  exists (ascii_upper t). unfold seen_statement. rewrite Es. cbn [app]. rewrite upper_app. split; [done |]. split.
  - rewrite upper_first. apply (first_prefix t t'). rewrite <- Et, collapse_first. rewrite E in Hps.
    apply views_first; [| done]. by apply Forall_app in Hps as [_ [_ ?]%Forall_app].
  - destruct Hw as [Hn Hi]. split; [by destruct cs | by rewrite idents_upper].
Qed.

End Kept.

Lemma starts_word_of k w t : forallb isIdentByte k = true -> first_is isIdentByte t = false -> starts k (w ++ t) = starts k w.
Proof.
  intros Hk Ht. apply eq_true_iff_eq. rewrite !starts_spec. split; [| intros [r ->]; exists (r ++ t); by rewrite <- app_assoc].
  intros [r E]. apply app_eq_inv in E as [(z & -> & _) | (z & -> & E)]; [by exists z |].
  destruct z as [| c z]; [exists []; by rewrite !app_nil_r |]. rewrite E in Ht. rewrite forallb_app in Hk. cbn in Hk, Ht.
  rewrite Ht in Hk. by rewrite andb_false_r in Hk.
Qed.

Lemma desc_word w t : ident_word w -> first_is isIdentByte t = false -> starts (str "DESC ") (w ++ t) = true -> w = str "DESC".
Proof.
  intros [_ Hw] Ht [r E]%starts_spec. change (str "DESC ") with (str "DESC" ++ [32]) in E. rewrite <- app_assoc in E.
  apply app_eq_inv in E as [(z & -> & E) | (z & Hz & E)].
  - destruct z as [| c z]; [by rewrite app_nil_r |]. injection E as <- _. rewrite forallb_app in Hw. cbn in Hw. by rewrite andb_false_r in Hw.
  - destruct z as [| c z]; [by rewrite app_nil_r in Hz |]. exfalso. rewrite E in Ht. cbn in Ht.
    assert (forallb isIdentByte (str "DESC") = true) as Hd by done. rewrite Hz, forallb_app in Hd. cbn in Hd. rewrite Ht in Hd. by rewrite andb_false_r in Hd.
Qed.

Lemma statement_ascii ps : Forall shape ps -> forallb ascii_byte (statement (canonical ps)) = true.
Proof.
  intros Hp. unfold canonical. fold (views ps). pose proof (collapse_ascii false _ (views_ascii ps Hp)) as Ha.
  destruct (TrimSpace_ascii _ Ha) as (l & t & E & _). destruct (TrimRight_split (fun b => (b =? 59) || (b =? 32))
    (TrimSpace (collapseSpaces false (views ps)))) as (t2 & E2 & _). rewrite E, E2, !forallb_app in Ha. unfold statement.
  by apply andb_prop in Ha as [_ [[Ha _]%andb_prop _]%andb_prop].
Qed.


(** ** Claims *)

(** The word scans are exact: [containsWord] finds a word that stands in the text as a
    token, bounded by bytes that are not of an identifier, and nothing else, although it
    searches on behind every failed match; [containsWordNotCall] finds such a token that no
    parenthesis follows; [hasFunctionCall] finds a token called with that name, or with a
    name of that family. *)
Theorem scans_exact (s w : bytes) :
  w <> [] -> forallb isIdentByte w = true ->
  (containsWord s w = true <-> is_token s w) /\
  (containsWordNotCall s w = true <-> is_plain_token s w) /\
  (hasFunctionCall s w false = true <-> is_call isSpaceByte s w) /\
  (hasFunctionCall s w true = true <-> exists suf, forallb isIdentByte suf = true /\ is_call isSpaceByte s (w ++ suf)).
Proof.
  intros Hn Hw. assert (ident_word w) as Hi by by split.
  split; [by apply containsWord_spec |]. split; [by apply containsWordNotCall_spec |].
  split; [by apply hasFunctionCall_spec | by apply hasFunctionCall_prefix_spec].
Qed.

Section Claims.
Context {U : Upper} {UL : UpperLaws U}.


(** The guard in terms of the normal form of the query: an accepted query is there a single
    statement that begins with one of the read keywords; a SELECT, a WITH and the statement
    inside an EXPLAIN have no write keyword among their tokens, no INSERT, REPLACE or TRUNCATE
    that is not a call, and no call of a denied function; and a SELECT or WITH of one
    statement with none of these is accepted. *)
Theorem accepted_exact (query n : bytes) :
  TrimSpace query <> [] -> normalizeSQL query = Ok n -> statement n <> [] ->
  let upper := ToUpper (statement n) in
  (ValidateReadOnlyGeneric query = Ok tt ->
     (59 ∉ statement n) /\
     (((starts (str "SELECT") upper || starts (str "WITH") upper) = true /\ reads_only upper) \/
      (starts (str "EXPLAIN") upper = true /\ ~ is_token upper (str "ANALYZE") /\
         isReadOnlyKeyword (stripExplainPrefix upper) = true /\ reads_only (stripExplainPrefix upper)) \/
      (starts (str "SHOW") upper || (starts (str "DESCRIBE") upper || starts (str "DESC ") upper)) = true \/
      (starts (str "PRAGMA") upper = true /\ validateReadOnlyPragma upper = Ok tt))) /\
  ((59 ∉ statement n) -> (starts (str "SELECT") upper || starts (str "WITH") upper) = true -> reads_only upper ->
     ValidateReadOnlyGeneric query = Ok tt).
Proof.
  intros Hq Hn Hc upper. unfold ValidateReadOnlyGeneric. rewrite bool_decide_false by done. rewrite Hn. cbn [mbind result_bind].
  change (TrimRight _ n) with (statement n). rewrite bool_decide_false by done. change (ToUpper (statement n)) with upper.
  pose proof (contains_byte (statement n) 59) as Hb. change [59] with (str ";") in Hb. split.
  - destruct (contains_text (statement n) (str ";")); [done |]. intros Hv. split; [by apply Hb |].
    destruct (starts (str "SELECT") upper || starts (str "WITH") upper) eqn:E1; [left; split; [done | by apply check_spec] |].
    destruct (starts (str "EXPLAIN") upper) eqn:E2.
    { right. left. split; [done |]. destruct (containsWord upper (str "ANALYZE")) eqn:E3; [done |].
      case_bool_decide as E4; [done |]. destruct (isReadOnlyKeyword (stripExplainPrefix upper)) eqn:E5; [| done]. cbn in Hv.
      split; [| split; [done | by apply check_spec]].
      rewrite <- containsWord_spec by (by apply (ident_words [str "ANALYZE"]), list_elem_of_here). by rewrite E3. }
    do 2 right. destruct (starts (str "SHOW") upper); [by left |].
    destruct (starts (str "DESCRIBE") upper || starts (str "DESC ") upper); [by left |].
    destruct (starts (str "PRAGMA") upper); [by right | done].
  - intros H59 Hs Hr. rewrite (proj2 Hb H59), Hs. by apply check_spec.
Qed.

(** Nothing in the code of the query writes. *)
Record writes_nothing (ps : list piece) : Prop := {
  no_write_word : forall w, w ∈ writeKeywords -> ~ stands ps w;
  no_write_statement : forall w, w ∈ functionLikeWriteKeywords -> ~ stands_uncalled ps w;
  no_denied_function : forall f, f ∈ deniedExactFuncs -> ~ called ps f;
  no_denied_function_family : forall f suf, f ∈ deniedFuncPrefixes -> forallb isIdentByte suf = true -> ~ called ps (f ++ suf)
}.

Lemma reads_nothing ps : Forall shape ps -> reads_only (seen_statement ps) -> writes_nothing ps.
Proof.
  intros Hp [H1 H2 H3 H4]. split.
  - intros w Hw Hs. apply (H1 w Hw), stands_seen; [done | done |]. by apply (ident_words writeKeywords).
  - intros w Hw Hs. apply (H2 w Hw), uncalled_seen; [done | done |]. by apply (ident_words functionLikeWriteKeywords).
  - intros f Hf Hc. apply (H3 f Hf), called_seen; [done | done |]. by apply (ident_words deniedExactFuncs).
  - intros f suf Hf Hsuf Hc. apply (H4 f suf Hf Hsuf), called_seen; [done | done |].
    assert (ident_word f) as [Hn Hi] by by apply (ident_words deniedFuncPrefixes). split; [by destruct f | by rewrite forallb_app, Hi].
Qed.


(** What is inside literals and comments does not matter: a query rendered from lexical
    pieces is brought into the form its pieces show, so two queries that differ only inside
    literals and comments are both accepted or both rejected, and both have a limit or not. *)
Theorem literals_do_not_matter (ps ps' : list piece) :
  pieces_ok ps -> pieces_ok ps' -> Forall2 same_code ps ps' ->
  TrimSpace (query_of ps) <> [] -> TrimSpace (query_of ps') <> [] ->
  normalizeSQL (query_of ps) = Ok (canonical ps) /\
  ValidateReadOnlyGeneric (query_of ps) = ValidateReadOnlyGeneric (query_of ps') /\
  HasLimitGeneric (query_of ps) = HasLimitGeneric (query_of ps').
Proof.
  intros Hps Hps' Hs Hq Hq'. unfold HasLimitGeneric, ValidateReadOnlyGeneric.
  rewrite (normalize_pieces ps Hps), (normalize_pieces ps' Hps'), (same_canonical ps ps' Hs).
  by rewrite !bool_decide_false.
Qed.

(** The guard always answers: the normaliser ends on every input, whatever comments,
    quotes and malformed bytes it has. *)
Theorem guard_terminates (query : bytes) : normalizeSQL query <> Panic /\ ValidateReadOnlyGeneric query <> Panic.
Proof.
  assert (normalizeSQL query <> Panic) as Hn.
  { unfold normalizeSQL. pose proof (norm_loop_no_panic (length query) query ltac:(done)).
    by destruct (norm_loop (length query) query). }
  split; [done |]. unfold ValidateReadOnlyGeneric, checkNoWriteAnywhere, validateReadOnlyPragma.
  destruct (normalizeSQL query) as [n | e |]; [| case_bool_decide; done | done]. cbn [mbind result_bind].
  repeat (case_match; try done).
Qed.

(** The guard can be got round: after a line comment that begins with two dashes and a
    quote, which PostgreSQL and SQLite read as a comment and the guard as the start of a
    literal, every text without a quote or a backslash is accepted on the next line. *)
Theorem line_comment_hides_anything (s : bytes) :
  forallb (fun c => negb ((c =? 39) || (c =? 92))) s = true ->
  ValidateReadOnlyGeneric (str "WITH x AS (SELECT 1) --'" ++ [10] ++ s ++ str " --'") = Ok tt.
Proof.
  intros Hs.
  assert (normalizeSQL (str "WITH x AS (SELECT 1) --'" ++ [10] ++ s ++ str " --'") = Ok (str "WITH x AS (SELECT 1) --''")) as Hn.
  { unfold normalizeSQL. change (norm_loop _ ?q) with (norm q).
    change (str "WITH x AS (SELECT 1) --'") with (str "WITH x AS (SELECT 1) " ++ [45; 45; 39]).
    rewrite <- app_assoc, norm_plain by done.
    erewrite (norm_cons ([45; 45; 39] ++ _)); [| done | reflexivity].
    erewrite norm_cons; [| done | reflexivity].
    match goal with |- context [norm ?t] =>
      replace t with (render (Literal (10 :: s ++ str " --")) ++ []) by (cbn; by rewrite app_nil_r, <- app_assoc) end.
    rewrite (norm_cons _ maskedLiteral []); [by vm_compute | done |].
    apply (norm_step_piece (Literal (10 :: s ++ str " --")) []). split; [| done].
    cbn [forallb]. rewrite forallb_app, Hs. done. }
  unfold ValidateReadOnlyGeneric. rewrite Hn, bool_decide_false by done. cbn [mbind result_bind].
  rewrite upper_ascii by done. by vm_compute.
Qed.

End Claims.

(** ** Witnesses *)

Definition ascii_guard : bytes -> result unit := @ValidateReadOnlyGeneric ascii_upper.

Lemma scans_exact_witness :
  is_token (str "WITH X AS (SELECT 1)DELETE FROM T") (str "DELETE") /\
  is_call isSpaceByte (str "SELECT LOAD_FILE (1)") (str "LOAD_FILE").
Proof.
  split.
  - apply (proj1 (scans_exact (str "WITH X AS (SELECT 1)DELETE FROM T") (str "DELETE") ltac:(discriminate) eq_refl)).
    by vm_compute.
  - apply (proj1 (proj2 (proj2 (scans_exact (str "SELECT LOAD_FILE (1)") (str "LOAD_FILE") ltac:(discriminate) eq_refl)))).
    by vm_compute.
Defined.

(** [SELECT 'DELETE' FROM t; ] is accepted, and has no such word in its code. *)
Definition quoted_delete : list piece :=
  (Code <$> str "SELECT ") ++ Literal (str "DELETE") :: (Code <$> str " FROM t; ").


(** [SELECT 'a;b' -- x] and [SELECT 'DROP' -- y z]. *)
Definition two_queries : list piece * list piece :=
  ((Code <$> str "SELECT ") ++ [Literal (str "a;b"); Code 32; LineComment (str " x")],
   (Code <$> str "SELECT ") ++ [Literal (str "DROP"); Code 32; LineComment (str " y z")]).

Lemma literals_do_not_matter_witness :
  ascii_guard (str "SELECT 'a;b' -- x") = ascii_guard (str "SELECT 'DROP' -- y z") /\
  normalizeSQL (str "SELECT 'a;b' -- x") = Ok (str "SELECT ''").
Proof.
  destruct (@literals_do_not_matter ascii_upper two_queries.1 two_queries.2) as (Hn & Hv & _).
  - vm_compute. repeat split; by left.
  - vm_compute. repeat split; by left.
  - repeat constructor.
  - by vm_compute.
  - by vm_compute.
  - split; [exact Hv |]. change (normalizeSQL (str "SELECT 'a;b' -- x") = Ok (canonical two_queries.1)) in Hn.
    rewrite Hn. by vm_compute.
Defined.

Lemma line_comment_hides_anything_witness :
  ascii_guard (str "WITH x AS (SELECT 1) --'" ++ [10] ++ str "DELETE FROM users" ++ str " --'") = Ok tt.
Proof. exact (@line_comment_hides_anything ascii_upper _ (str "DELETE FROM users") eq_refl). Defined.

(** ** Other texts the databases read differently *)

(** A backslash does not escape a quote in standard SQL: the literal ends there. *)
Lemma backslash_hides_a_call : ascii_guard (str "SELECT '\', pg_terminate_backend(1) --'") = Ok tt.
Proof. by vm_compute. Qed.

(** PostgreSQL nests block comments: the quote is inside the outer one. *)
Lemma nested_comment_hides_a_call : ascii_guard (str "SELECT 1 /* /* */ ' */, pg_terminate_backend(1) --'") = Ok tt.
Proof. by vm_compute. Qed.

(** A dollar inside an identifier does not open a literal. *)
Lemma dollar_identifier_hides_a_call :
  ascii_guard (str "SELECT 1 AS a$b$, pg_terminate_backend(1) AS c$b$") = Ok tt.
Proof. by vm_compute. Qed.

(** The body of a MySQL version comment is matched as it stands, with its quotes. *)
Lemma version_comment_hides_a_call : ascii_guard (str "SELECT 1 /*!50000 , `load_file`('/etc/passwd') */") = Ok tt.
Proof. by vm_compute. Qed.

(** Inside EXPLAIN a PRAGMA is not held to the list of read-only ones. *)
Lemma explain_pragma_accepted : ascii_guard (str "EXPLAIN PRAGMA user_version=5") = Ok tt.
Proof. by vm_compute. Qed.
