(* ===== verification/Breaker.v ===== *)
(** * The circuit breaker and the retry loop (internal/connector, internal/retry)

    The breaker of a connector as its four critical sections, run in any order by any
    number of requests; and [Do], the retry loop of the notifiers.
    Main results: the breaker opens after exactly its threshold of failures in a row; while
    it is open nothing passes before the reset timeout, whatever late requests report; it
    closes again after its number of successes; and [Do] makes exactly the calls its
    configuration allows, with delays that double up to the cap. *)

From stdpp Require Import base list gmap strings numbers sorting.
From Stdlib Require Import ZArith Lia.
From S2P Require Import Prelude.

(** ** The circuit breaker *)

Inductive CircuitState := CircuitClosed | CircuitOpen | CircuitHalfOpen.

#[export] Instance CircuitState_eq_dec : EqDecision CircuitState.
Proof. solve_decision. Defined.

Record CircuitBreaker := mkCircuitBreaker {
  cb_state : CircuitState;
  failCount : Z;
  successCount : Z;
  lastFailTime : Z;
  threshold : Z;
  resetTimeout : Z;
  halfOpenMax : Z
}.

Record CircuitBreakerConfig := mkCircuitBreakerConfig { Threshold : Z; ResetTimeout : Z; HalfOpenMax : Z }.

Definition DefaultCircuitBreakerConfig : CircuitBreakerConfig := mkCircuitBreakerConfig 5 (30 * 10 ^ 9) 2.

Definition NewCircuitBreaker (cfg : CircuitBreakerConfig) : CircuitBreaker :=
  mkCircuitBreaker CircuitClosed 0 0 0
    (if Threshold cfg <=? 0 then 5 else Threshold cfg)
    (if ResetTimeout cfg <=? 0 then 30 * 10 ^ 9 else ResetTimeout cfg)
    (if HalfOpenMax cfg <=? 0 then 2 else HalfOpenMax cfg).

(** The breaker with its state and counters replaced. *)
Definition set_circuit (s : CircuitState) (fails successes last : Z) (cb : CircuitBreaker) : CircuitBreaker :=
  mkCircuitBreaker s fails successes last (threshold cb) (resetTimeout cb) (halfOpenMax cb).

Definition ErrCircuitOpen : gerror := Sentinel "circuit breaker is open: connector unavailable".

(** [time.Since(lastFailTime) >= resetTimeout] at [now]. *)
Definition cooled_down (now : Z) (cb : CircuitBreaker) : bool := resetTimeout cb <=? now - lastFailTime cb.

Definition State (now : Z) (cb : CircuitBreaker) : CircuitState :=
  match cb_state cb with
  | CircuitOpen => if cooled_down now cb then CircuitHalfOpen else CircuitOpen
  | s => s
  end.

Definition Allow (now : Z) (cb : CircuitBreaker) : CircuitBreaker * result unit :=
  match cb_state cb with
  | CircuitClosed => (cb, Ok tt)
  | CircuitOpen =>
      if cooled_down now cb
      then (set_circuit CircuitHalfOpen (failCount cb) 0 (lastFailTime cb) cb, Ok tt)
      else (cb, Err ErrCircuitOpen)
  | CircuitHalfOpen => (cb, Ok tt)
  end.

Definition RecordSuccess (cb : CircuitBreaker) : CircuitBreaker :=
  match cb_state cb with
  | CircuitHalfOpen =>
      let successes := successCount cb + 1 in
      if halfOpenMax cb <=? successes
      then set_circuit CircuitClosed 0 0 (lastFailTime cb) cb
      else set_circuit CircuitHalfOpen (failCount cb) successes (lastFailTime cb) cb
  | CircuitClosed => set_circuit CircuitClosed 0 (successCount cb) (lastFailTime cb) cb
  | CircuitOpen => cb
  end.

Definition RecordFailure (now : Z) (cb : CircuitBreaker) : CircuitBreaker :=
  match cb_state cb with
  | CircuitClosed =>
      let fails := failCount cb + 1 in
      set_circuit (if threshold cb <=? fails then CircuitOpen else CircuitClosed) fails (successCount cb) now cb
  | CircuitHalfOpen => set_circuit CircuitOpen (failCount cb) 0 now cb
  | CircuitOpen => set_circuit CircuitOpen (failCount cb) (successCount cb) now cb
  end.

Definition Reset (cb : CircuitBreaker) : CircuitBreaker := set_circuit CircuitClosed 0 0 (lastFailTime cb) cb.

(** What the requests do, each at its instant. *)
Inductive event := Asked | Succeeded | Failed | ResetBy.

Definition event_step (now : Z) (e : event) (cb : CircuitBreaker) : CircuitBreaker :=
  match e with
  | Asked => (Allow now cb).1
  | Succeeded => RecordSuccess cb
  | Failed => RecordFailure now cb
  | ResetBy => Reset cb
  end.

Definition run_events (es : list (Z * event)) (cb : CircuitBreaker) : CircuitBreaker :=
  fold_left (fun cb te => event_step te.1 te.2 cb) es cb.

(** ** The retry loop *)

(** What a call of [fn] returns. *)
Inductive answer := Success | Failure (e : gerror) | Permanent (e : gerror).

Record Config := mkConfig { MaxAttempts : Z; BaseDelay : Z; MaxDelay : Z }.

Definition DefaultConfig : Config := mkConfig 3 (10 ^ 9) (10 * 10 ^ 9).

(** The defaults of [Do]. *)
Definition normalized (cfg : Config) : Config :=
  mkConfig (if MaxAttempts cfg <=? 0 then 3 else MaxAttempts cfg)
    (if BaseDelay cfg <=? 0 then 10 ^ 9 else BaseDelay cfg)
    (if MaxDelay cfg <=? 0 then 10 * 10 ^ 9 else MaxDelay cfg).

(** [time.Duration] of a float64: out of range gives the least integer on amd64. *)
Definition Duration (z : Z) : Z := if (- 2 ^ 63 <=? z) && (z <? 2 ^ 63) then z else - 2 ^ 63.

(** A delay below 2^53 ns is exact as a float64, and doubling keeps it so. *)
Definition delay_of (cfg : Config) (attempt : Z) : Z :=
  let delay := Duration (BaseDelay cfg * 2 ^ attempt) in
  if MaxDelay cfg <? delay then MaxDelay cfg else delay.

Section Do.
(** The answer of the n-th call, and whether the context ends in the n-th pause. *)
Context (fn : nat -> answer) (cancelled : nat -> bool).

Definition ctx_err : gerror := Sentinel "context canceled".

(** The loop from an attempt on, [todo] attempts to go: the error if any, the calls made
    and the pauses begun. *)
Fixpoint do_loop (cfg : Config) (todo : nat) (attempt : nat) (lastErr : option gerror) : option gerror * nat * list Z :=
  match todo with
  | O => (lastErr, attempt, [])
  | S todo =>
      match fn attempt with
      | Success => (None, S attempt, [])
      | Permanent e => (Some e, S attempt, [])
      | Failure e =>
          if MaxAttempts cfg <=? Z.of_nat attempt + 1 then (Some e, S attempt, [])
          else
            let delay := delay_of cfg (Z.of_nat attempt) in
            if cancelled attempt then (Some ctx_err, S attempt, [delay])
            else
              let '(r, calls, delays) := do_loop cfg todo (S attempt) (Some e) in
              (r, calls, delay :: delays)
      end
  end.

Definition Do (cfg : Config) : option gerror * nat * list Z :=
  let cfg := normalized cfg in do_loop cfg (Z.to_nat (MaxAttempts cfg)) 0 None.

End Do.

(** ** When the breaker opens *)

Record breaker_ok (cb : CircuitBreaker) : Prop := {
  ok_threshold : 0 < threshold cb;
  ok_reset : 0 < resetTimeout cb;
  ok_half : 0 < halfOpenMax cb
}.

Lemma NewCircuitBreaker_ok cfg : breaker_ok (NewCircuitBreaker cfg).
Proof.
  split; cbn; [destruct (Z.leb_spec (Threshold cfg) 0) | destruct (Z.leb_spec (ResetTimeout cfg) 0) |
    destruct (Z.leb_spec (HalfOpenMax cfg) 0)]; lia.
Qed.

#[export] Instance event_eq_dec : EqDecision event.
Proof. solve_decision. Defined.

(** Nothing but failures and questions. *)
Definition quiet (es : list (Z * event)) : Prop := Forall (fun te => te.2 = Failed \/ te.2 = Asked) es.

Definition failures (es : list (Z * event)) : Z := len (filter (fun te => te.2 = Failed) es).

(** The breaker is open at some moment. *)
Definition opens (es : list (Z * event)) (cb : CircuitBreaker) : Prop :=
  exists es1 es2, es = es1 ++ es2 /\ cb_state (run_events es1 cb) = CircuitOpen.

(** [limit] failures in a row, [k] of them before the first event. *)
Definition in_a_row (limit k : Z) (es : list (Z * event)) : Prop :=
  (exists run b, es = run ++ b /\ quiet run /\ limit <= k + failures run) \/
  (exists a run b, es = a ++ run ++ b /\ quiet run /\ limit <= failures run).

Lemma failures_cons te es : failures (te :: es) = (if bool_decide (te.2 = Failed) then 1 else 0) + failures es.
Proof.
  unfold failures. rewrite filter_cons. case_bool_decide; [rewrite decide_True by done; by rewrite len_cons | by rewrite decide_False].
Qed.

Lemma failures_nil : failures [] = 0.
Proof. done. Qed.

Lemma failures_nonneg es : 0 <= failures es.
Proof. apply len_nonneg. Qed.

Lemma in_a_row_nil limit k : k < limit -> 0 < limit -> ~ in_a_row limit k [].
Proof.
  intros Hk Hl [(run & b & Hn & _ & Hf) | (a & run & b & Hn & _ & Hf)].
  - symmetry in Hn. apply app_eq_nil in Hn as [-> _]. rewrite failures_nil in Hf. lia.
  - symmetry in Hn. apply app_eq_nil in Hn as [_ Hn]. apply app_eq_nil in Hn as [-> _]. rewrite failures_nil in Hf. lia.
Qed.

(** A quiet event moves [k], and any other sets it back. *)
Lemma in_a_row_quiet limit k te es : 0 <= k < limit -> te.2 = Failed \/ te.2 = Asked ->
  in_a_row limit k (te :: es) <-> in_a_row limit (k + (if bool_decide (te.2 = Failed) then 1 else 0)) es \/
    limit <= k + (if bool_decide (te.2 = Failed) then 1 else 0).
Proof.
  intros Hk Hq. pose proof (failures_cons te) as HC. set (d := if bool_decide (te.2 = Failed) then 1 else 0) in *.
  assert (0 <= d) as Hd by (unfold d; case_bool_decide; lia). split.
  - intros [(run & b & Hn & Hqr & Hf) | (a & run & b & Hn & Hqr & Hf)].
    + destruct run as [| te' run]; [rewrite failures_nil in Hf; lia |]. injection Hn as <- ->.
      left. left. exists run, b. apply Forall_cons in Hqr as [_ Hqr]. rewrite HC in Hf. split; [done |]. split; [done | lia].
    + left. destruct a as [| te' a].
      * destruct run as [| te' run]; [rewrite failures_nil in Hf; lia |]. injection Hn as <- ->.
        left. exists run, b. apply Forall_cons in Hqr as [_ Hqr]. rewrite HC in Hf. split; [done |]. split; [done | lia].
      * injection Hn as <- ->. right. by exists a, run, b.
  - intros [[(run & b & -> & Hqr & Hf) | (a & run & b & -> & Hqr & Hf)] | Hl].
    + left. exists (te :: run), b. rewrite HC. split; [done |]. split; [by constructor | lia].
    + right. by exists (te :: a), run, b.
    + left. exists [te], es. rewrite HC, failures_nil. split; [done |]. split; [by constructor | lia].
Qed.

Lemma in_a_row_reset limit k te es : 0 <= k < limit -> te.2 <> Failed -> te.2 <> Asked ->
  in_a_row limit k (te :: es) <-> in_a_row limit 0 es.
Proof.
  intros Hk H1 H2. split.
  - intros [(run & b & Hn & Hqr & Hf) | (a & run & b & Hn & Hqr & Hf)].
    + destruct run as [| te' run]; [rewrite failures_nil in Hf; lia |]. injection Hn as <- ->.
      apply Forall_cons in Hqr as [[? | ?] _]; done.
    + destruct a as [| te' a].
      * destruct run as [| te' run]; [rewrite failures_nil in Hf; lia |]. injection Hn as <- ->.
        apply Forall_cons in Hqr as [[? | ?] _]; done.
      * injection Hn as <- ->. right. by exists a, run, b.
  - intros [(run & b & -> & Hqr & Hf) | (a & run & b & -> & Hqr & Hf)]; right.
    + by exists [te], run, b.
    + by exists (te :: a), run, b.
Qed.

Lemma opens_cons te es cb :
  cb_state cb <> CircuitOpen -> opens (te :: es) cb <-> opens es (event_step te.1 te.2 cb).
Proof.
  intros Hs. split.
  - intros ([| te' es1] & es2 & Hn & Ho); [done |]. injection Hn as <- ->. by exists es1, es2.
  - intros (es1 & es2 & -> & Ho). by exists (te :: es1), es2.
Qed.

Lemma opens_now es cb : cb_state cb = CircuitOpen -> opens es cb.
Proof. intros Hs. by exists [], es. Qed.

Lemma opens_iff es cb :
  0 < threshold cb -> cb_state cb = CircuitClosed -> 0 <= failCount cb < threshold cb ->
  opens es cb <-> in_a_row (threshold cb) (failCount cb) es.
Proof.
  revert cb. induction es as [| [t e] es IH]; intros cb Ht Hs Hk.
  { split; [| intros Hr; by apply in_a_row_nil in Hr; lia].
    intros (es1 & es2 & Hn & Ho). symmetry in Hn. apply app_eq_nil in Hn as [-> _]. cbn in Ho. congruence. }
  rewrite opens_cons by congruence. cbn [fst snd]. destruct e; cbn [event_step].
  - unfold Allow. rewrite Hs. cbn [fst]. rewrite IH, in_a_row_quiet by (done || by right). cbn.
    rewrite Z.add_0_r. split; [by left | intros [? | ?]; [done | lia]].
  - unfold RecordSuccess. rewrite Hs. rewrite IH by (cbn; (done || lia)). cbn [threshold failCount set_circuit].
    by rewrite in_a_row_reset.
  - rewrite in_a_row_quiet by (done || by left). cbn [snd]. rewrite bool_decide_true by done.
    unfold RecordFailure. rewrite Hs. destruct (Z.leb_spec (threshold cb) (failCount cb + 1)) as [Hl | Hl].
    + split; [by right | intros _; by apply opens_now].
    + rewrite IH by (cbn; (done || lia)). cbn [threshold failCount set_circuit]. split; [by left | intros [? | ?]; [done | lia]].
  - unfold Reset. rewrite IH by (cbn; (done || lia)). cbn [threshold failCount set_circuit]. by rewrite in_a_row_reset.
Qed.

(** ** While it is open, and after *)

Lemma run_events_sizes es cb :
  threshold (run_events es cb) = threshold cb /\ resetTimeout (run_events es cb) = resetTimeout cb /\
  halfOpenMax (run_events es cb) = halfOpenMax cb.
Proof.
  revert cb. induction es as [| [t e] es IH]; intros cb; [done |]. cbn [run_events fold_left fst snd].
  destruct (IH (event_step t e cb)) as (H1 & H2 & H3). fold (run_events es (event_step t e cb)). rewrite H1, H2, H3.
  destruct e; cbn [event_step]; unfold Allow, RecordSuccess, RecordFailure, Reset; repeat case_match; done.
Qed.

Lemma stays_open es cb t0 :
  cb_state cb = CircuitOpen -> t0 <= lastFailTime cb ->
  Forall (fun te => t0 <= te.1 < t0 + resetTimeout cb /\ te.2 <> ResetBy) es ->
  cb_state (run_events es cb) = CircuitOpen /\ t0 <= lastFailTime (run_events es cb).
Proof.
  revert cb. induction es as [| [t e] es IH]; intros cb Hs Hl Hes; [done |].
  apply Forall_cons in Hes as [[Ht He] Hes]. cbn [fst snd] in *. cbn [run_events fold_left fst snd].
  destruct e; cbn [event_step]; [| | | done].
  - unfold Allow, cooled_down. rewrite Hs, (proj2 (Z.leb_gt _ _)) by lia. by apply IH.
  - unfold RecordSuccess. rewrite Hs. by apply IH.
  - unfold RecordFailure. rewrite Hs. apply IH; [done | cbn; lia | done].
Qed.

Definition successes (es : list (Z * event)) : Z := len (filter (fun te => te.2 = Succeeded) es).

Lemma successes_cons te es : successes (te :: es) = (if bool_decide (te.2 = Succeeded) then 1 else 0) + successes es.
Proof.
  unfold successes. rewrite filter_cons. case_bool_decide; [rewrite decide_True by done; by rewrite len_cons | by rewrite decide_False].
Qed.

Lemma stays_closed es cb :
  cb_state cb = CircuitClosed -> failCount cb = 0 -> Forall (fun te => te.2 = Asked \/ te.2 = Succeeded) es ->
  cb_state (run_events es cb) = CircuitClosed /\ failCount (run_events es cb) = 0.
Proof.
  revert cb. induction es as [| [t e] es IH]; intros cb Hs Hf Hes; [done |].
  apply Forall_cons in Hes as [[He | He] Hes]; cbn [snd] in He; subst e; cbn [run_events fold_left fst snd event_step].
  - unfold Allow. rewrite Hs. by apply IH.
  - unfold RecordSuccess. rewrite Hs. by apply IH.
Qed.

Lemma closes es cb :
  cb_state cb = CircuitHalfOpen -> Forall (fun te => te.2 = Asked \/ te.2 = Succeeded) es ->
  successCount cb < halfOpenMax cb -> halfOpenMax cb <= successCount cb + successes es ->
  cb_state (run_events es cb) = CircuitClosed /\ failCount (run_events es cb) = 0.
Proof.
  revert cb. induction es as [| [t e] es IH]; intros cb Hs Hes Hlt Hle.
  { change (successes []) with 0 in Hle. lia. }
  rewrite successes_cons in Hle.
  apply Forall_cons in Hes as [[He | He] Hes]; cbn [snd] in He; subst e; cbn [run_events fold_left fst snd event_step].
  - unfold Allow. rewrite Hs. by apply IH.
  - rewrite bool_decide_true in Hle by done. unfold RecordSuccess. rewrite Hs.
    destruct (Z.leb_spec (halfOpenMax cb) (successCount cb + 1)).
    + by apply stays_closed.
    + apply IH; cbn; (done || lia).
Qed.

(** ** The retry loop *)

Section DoLemmas.
Context (fn : nat -> answer) (cancelled : nat -> bool).

(** The loop ends in the [k]-th call, the ones before it having failed. *)
Definition ends_at (cfg : Config) (n k : nat) (out : option gerror * nat * list Z) : Prop :=
  (forall j, (n <= j < k)%nat -> (exists e, fn j = Failure e) /\ cancelled j = false) /\
  let '(r, calls, delays) := out in
  calls = S k /\
  match fn k with
  | Success => r = None /\ delays = (fun i => delay_of cfg (Z.of_nat i)) <$> seq n (k - n)
  | Permanent e => r = Some e /\ delays = (fun i => delay_of cfg (Z.of_nat i)) <$> seq n (k - n)
  | Failure e =>
      (Z.of_nat k + 1 = MaxAttempts cfg /\ r = Some e /\ delays = (fun i => delay_of cfg (Z.of_nat i)) <$> seq n (k - n)) \/
      (Z.of_nat k + 1 < MaxAttempts cfg /\ cancelled k = true /\ r = Some ctx_err /\
        delays = (fun i => delay_of cfg (Z.of_nat i)) <$> seq n (S (k - n)))
  end.

Lemma do_loop_ends cfg todo n last :
  (0 < todo)%nat -> Z.of_nat (n + todo) = MaxAttempts cfg ->
  exists k, (n <= k < n + todo)%nat /\ ends_at cfg n k (do_loop fn cancelled cfg todo n last).
Proof.
  revert n last. induction todo as [| todo IH]; intros n last Ht Hm; [lia |]. cbn [do_loop].
  destruct (fn n) as [| e | e] eqn:Hf.
  - exists n. split; [lia |]. split; [lia |]. by rewrite Hf, Nat.sub_diag.
  - destruct (Z.leb_spec (MaxAttempts cfg) (Z.of_nat n + 1)) as [Hl | Hl].
    + exists n. split; [lia |]. split; [lia |]. split; [done |]. rewrite Hf, Nat.sub_diag. left. split; [lia | done].
    + destruct (cancelled n) eqn:Hc.
      * exists n. split; [lia |]. split; [lia |]. split; [done |]. rewrite Hf, Nat.sub_diag. right. split; [lia | done].
      * destruct (IH (S n) (Some e)) as (k & Hk & Hb & He); [lia | lia |]. exists k. split; [lia |].
        destruct (do_loop fn cancelled cfg todo (S n) (Some e)) as [[r calls] delays]. split.
        { intros j Hj. destruct (decide (j = n)) as [-> | Hne]; [split; [by exists e | done] | apply Hb; lia]. }
        destruct He as [-> He]. split; [done |]. replace (k - n)%nat with (S (k - S n)) by lia.
        cbn [seq fmap list_fmap]. destruct (fn k); [by destruct He as [-> ->] | | by destruct He as [-> ->]].
        destruct He as [(? & -> & ->) | (? & ? & -> & ->)]; [by left | by right].
  - exists n. split; [lia |]. split; [lia |]. by rewrite Hf, Nat.sub_diag.
Qed.

Lemma normalized_ok cfg : 0 < MaxAttempts (normalized cfg) /\ 0 < BaseDelay (normalized cfg) /\ 0 < MaxDelay (normalized cfg).
Proof.
  cbn. destruct (Z.leb_spec (MaxAttempts cfg) 0), (Z.leb_spec (BaseDelay cfg) 0), (Z.leb_spec (MaxDelay cfg) 0); lia.
Qed.

Lemma delay_of_exact cfg i : 0 < BaseDelay cfg -> 0 <= i -> BaseDelay cfg * 2 ^ i < 2 ^ 63 ->
  delay_of cfg i = Z.min (BaseDelay cfg * 2 ^ i) (MaxDelay cfg).
Proof.
  intros Hb Hi Hl. assert (0 < 2 ^ i) by (apply Z.pow_pos_nonneg; lia). unfold delay_of, Duration.
  assert (0 <= BaseDelay cfg * 2 ^ i) by (apply Z.mul_nonneg_nonneg; lia).
  rewrite (proj2 (Z.leb_le (- 2 ^ 63) _)), (proj2 (Z.ltb_lt _ (2 ^ 63))) by lia. cbn [andb].
  destruct (Z.ltb_spec (MaxDelay cfg) (BaseDelay cfg * 2 ^ i)); lia.
Qed.

Lemma delay_of_le cfg i : delay_of cfg i <= MaxDelay cfg.
Proof. unfold delay_of. destruct (Z.ltb_spec (MaxDelay cfg) (Duration (BaseDelay cfg * 2 ^ i))); lia. Qed.

End DoLemmas.

(** ** Claims *)

(** The breaker opens exactly when its threshold of failures come in a row, with no success
    and no reset in between, however many requests ask in between. *)
Theorem breaker_trips (cfg : CircuitBreakerConfig) (es : list (Z * event)) :
  opens es (NewCircuitBreaker cfg) <->
  exists a run b, es = a ++ run ++ b /\ quiet run /\ threshold (NewCircuitBreaker cfg) <= failures run.
Proof.
  rewrite opens_iff; [| by destruct (NewCircuitBreaker_ok cfg) | done | destruct (NewCircuitBreaker_ok cfg); cbn in *; lia].
  split; [| by right]. intros [(run & b & -> & Hq & Hf) | Hr]; [| done].
  exists [], run, b. split; [done |]. split; [done |]. cbn [failCount NewCircuitBreaker] in Hf. lia.
Qed.

(** An open breaker fails fast and then recovers: until the reset timeout every request is
    refused, whatever late requests report, and afterwards a request is let through, and
    the breaker is closed again, its failures forgotten, once its number of successes is
    reported without a failure. *)
Theorem breaker_cycle (cb : CircuitBreaker) (es rest : list (Z * event)) (now : Z) :
  breaker_ok cb -> cb_state cb = CircuitOpen ->
  Forall (fun te => lastFailTime cb <= te.1 < lastFailTime cb + resetTimeout cb /\ te.2 <> ResetBy) es ->
  let cb' := run_events es cb in
  (forall t, t < lastFailTime cb + resetTimeout cb -> (Allow t cb').2 = Err ErrCircuitOpen /\ State t cb' = CircuitOpen) /\
  (lastFailTime cb' + resetTimeout cb <= now ->
   Forall (fun te => te.2 = Asked \/ te.2 = Succeeded) rest -> halfOpenMax cb <= successes rest ->
   (Allow now cb').2 = Ok tt /\
   cb_state (run_events rest (Allow now cb').1) = CircuitClosed /\ failCount (run_events rest (Allow now cb').1) = 0).
Proof.
  intros Hok Hs Hes cb'. destruct (stays_open es cb (lastFailTime cb) Hs ltac:(lia) Hes) as [Ho Hl].
  destruct (run_events_sizes es cb) as (_ & Hr & Hh). fold cb' in Ho, Hl, Hr, Hh.
  unfold Allow, State, cooled_down. rewrite Ho, Hr. split.
  - intros t Ht. by rewrite (proj2 (Z.leb_gt _ _)) by lia.
  - intros Hn Hrest Hsucc. rewrite (proj2 (Z.leb_le _ _)) by lia. cbn [fst snd]. split; [done |].
    apply closes; [done | done | cbn; destruct Hok; lia | cbn; lia].
Qed.

(** [Do] ends in some call within its attempts: those before it failed without the context
    ending, it returns nil exactly when that call succeeds, the error of a permanent failure
    or of the last attempt, or the context's; and its pauses double from the base delay and
    never exceed the cap. *)
Theorem retry_exact (fn : nat -> answer) (cancelled : nat -> bool) (cfg : Config) :
  let cfg' := normalized cfg in
  (exists k, Z.of_nat k < MaxAttempts cfg' /\ ends_at fn cancelled cfg' 0 k (Do fn cancelled cfg)) /\
  forall i, 0 <= i ->
    delay_of cfg' i <= MaxDelay cfg' /\
    (BaseDelay cfg' * 2 ^ i < 2 ^ 63 -> delay_of cfg' i = Z.min (BaseDelay cfg' * 2 ^ i) (MaxDelay cfg')).
Proof.
  intros cfg'. destruct (normalized_ok cfg) as (Hm & Hb & _). fold cfg' in Hm, Hb. split.
  - destruct (do_loop_ends fn cancelled cfg' (Z.to_nat (MaxAttempts cfg')) 0 None) as (k & Hk & He); [lia | lia |].
    exists k. split; [lia | exact He].
  - intros i Hi. split; [apply delay_of_le | intros; by apply delay_of_exact].
Qed.

(** Two failures, a success, and three failures in a row open a breaker of threshold three. *)
Definition tripping : list (Z * event) :=
  [(1, Failed); (2, Failed); (3, Succeeded); (4, Failed); (5, Asked); (6, Failed); (7, Failed)].

Definition small_breaker : CircuitBreaker := NewCircuitBreaker (mkCircuitBreakerConfig 3 100 1).

Lemma breaker_cycle_witness :
  cb_state (run_events [(120, Asked); (121, Succeeded)] (Allow 107 (run_events tripping small_breaker)).1) = CircuitClosed /\
  (Allow 106 (run_events tripping small_breaker)).2 = Err ErrCircuitOpen.
Proof.
  destruct (breaker_cycle (run_events tripping small_breaker) [] [(120, Asked); (121, Succeeded)] 107) as [H1 H2].
  - split; reflexivity.
  - reflexivity.
  - constructor.
  - split.
    + apply H2; [done | repeat constructor; (by left) || by right | done].
    + apply H1. done.
Defined.

(** Past the 34th attempt with a base of one second the delay leaves the range of a
    duration: it is negative, below the cap, and the loop does not pause. *)
Lemma retry_delay_wraps : delay_of (normalized (mkConfig 40 0 0)) 34 < 0.
Proof. by vm_compute. Qed.
