(* ===== verification/Scrub.v ===== *)
(** * Redaction of personal data (logstore/ingest/pipeline.go)

    The four regular expressions of the pipeline, all of the form \b body \b, with a matcher
    that lists the matches in the order of preference of the Go engine, and
    [ReplaceAllString] over it.
    Main result: a scrubbed string holds no match of any pattern that was applied, although
    later replacements change the text around what earlier patterns left.

    The classes of the patterns are ASCII, so matching bytes and matching runes agree: a byte
    of a longer rune is in no class and is no word character. *)

From stdpp Require Import base list gmap strings numbers sorting.
From Stdlib Require Import ZArith Lia.
From S2P Require Import Prelude Index.

(** ** Regular expressions *)

Inductive re :=
| Eps
| Cls (f : Z -> bool)
| Many (greedy : bool) (f : Z -> bool)
| Opt (r : re)
| Seq (r1 r2 : re).

(** [r] n times. *)
Fixpoint times (n : nat) (r : re) : re :=
  match n with
  | O => Eps
  | S n => Seq r (times n r)
  end.

(** Up to [n] times more, as many as possible. *)
Fixpoint up_to (n : nat) (r : re) : re :=
  match n with
  | O => Eps
  | S n => Opt (Seq r (up_to n r))
  end.

(** r{m,n} *)
Definition between (m n : nat) (r : re) : re := Seq (times m r) (up_to (n - m) r).

(** The matches at the start of a text, preferred first: what is matched and what follows. *)
Fixpoint many (greedy : bool) (f : Z -> bool) (s : bytes) : list (bytes * bytes) :=
  match s with
  | b :: t =>
      if f b then
        let more := prod_map (cons b) id <$> many greedy f t in
        if greedy then more ++ [([], s)] else ([], s) :: more
      else [([], s)]
  | [] => [([], [])]
  end.

Fixpoint run (r : re) (s : bytes) : list (bytes * bytes) :=
  match r with
  | Eps => [([], s)]
  | Cls f => match s with b :: t => if f b then [([b], t)] else [] | [] => [] end
  | Many greedy f => many greedy f s
  | Opt r => run r s ++ [([], s)]
  | Seq r1 r2 =>
      '(m1, t) ← run r1 s;
      '(m2, t) ← run r2 t;
      [(m1 ++ m2, t)]
  end.

Definition isDigit (b : Z) : bool := cont 48 57 b.
Definition isUpper (b : Z) : bool := cont 65 90 b.
Definition isLower (b : Z) : bool := cont 97 122 b.

(** \w *)
Definition isWord (b : Z) : bool := isDigit b || isUpper b || isLower b || (b =? 95).

Definition one_of (l : bytes) (b : Z) : bool := bool_decide (b ∈ l).

(** \s *)
Definition isBlank : Z -> bool := one_of [9; 10; 12; 13; 32].

Definition word_at (o : option Z) : bool := match o with Some b => isWord b | None => false end.

(** \b between two characters, or an end of the text. *)
Definition bound (l r : option Z) : bool := negb (Bool.eqb (word_at l) (word_at r)).

(** The bodies of the patterns. *)
Definition creditCardRe : re :=
  between 13 19 (Seq (Cls isDigit) (Many false (one_of (str " -")))).

Definition emailRe : re :=
  let local := fun b => isUpper b || isLower b || isDigit b || one_of (str "._%+-") b in
  let domain := fun b => isUpper b || isLower b || isDigit b || one_of (str ".-") b in
  let tld := fun b => isUpper b || (b =? 124) || isLower b in
  Seq (Cls local) (Seq (Many true local) (Seq (Cls (Z.eqb 64)) (Seq (Cls domain) (Seq (Many true domain)
    (Seq (Cls (Z.eqb 46)) (Seq (times 2 (Cls tld)) (Many true tld))))))).

Definition phoneRe : re :=
  let sep := Opt (Cls (fun b => one_of (str "-.") b || isBlank b)) in
  Seq (Opt (Seq (Opt (Cls (Z.eqb 43))) (Seq (between 1 3 (Cls isDigit)) sep)))
    (Seq (Opt (Cls (Z.eqb 40))) (Seq (times 3 (Cls isDigit)) (Seq (Opt (Cls (Z.eqb 41))) (Seq sep
      (Seq (times 3 (Cls isDigit)) (Seq sep (times 4 (Cls isDigit)))))))).

Definition ssnRe : re :=
  Seq (times 3 (Cls isDigit)) (Seq (Cls (Z.eqb 45)) (Seq (times 2 (Cls isDigit))
    (Seq (Cls (Z.eqb 45)) (times 4 (Cls isDigit))))).

(** The preferred match of \b body \b at the start of [s], after the character [prev]. *)
Definition match_at (body : re) (prev : option Z) (s : bytes) : option (bytes * bytes) :=
  if bound prev (head s)
  then head (filter (fun mt => Is_true (bound (if bool_decide (mt.1 = []) then prev else last mt.1) (head mt.2))) (run body s))
  else None.

Definition filteredValue : bytes := str "[FILTERED]".

(** The loop of [ReplaceAllString], leftmost match first; the patterns match no empty text. *)
Fixpoint replace_loop (fuel : nat) (body : re) (prev : option Z) (s : bytes) : bytes :=
  match fuel, s with
  | S fuel, b :: t =>
      match match_at body prev s with
      | Some (m, rest) => filteredValue ++ replace_loop fuel body (last m) rest
      | None => b :: replace_loop fuel body (Some b) t
      end
  | _, _ => s
  end.

Definition ReplaceAllString (body : re) (s : bytes) : bytes := replace_loop (length s) body None s.

Definition scrubString (s : bytes) (patterns : list re) : bytes :=
  if bool_decide (s = []) then s else fold_left (fun s re => ReplaceAllString re s) patterns s.

(** ** What a pattern matches *)

(** The texts a body matches; they do not depend on what surrounds them. *)
Fixpoint lang (r : re) (m : bytes) : Prop :=
  match r with
  | Eps => m = []
  | Cls f => exists b, m = [b] /\ f b = true
  | Many _ f => forallb f m = true
  | Opt r => m = [] \/ lang r m
  | Seq r1 r2 => exists m1 m2, m = m1 ++ m2 /\ lang r1 m1 /\ lang r2 m2
  end.

Lemma many_spec greedy f s m t : (m, t) ∈ many greedy f s <-> s = m ++ t /\ forallb f m = true.
Proof.
  revert m t. induction s as [| b s IH]; intros m t; cbn [many].
  { rewrite list_elem_of_singleton. split; [by intros [= -> ->] |]. intros [Hn _]. symmetry in Hn.
    by apply app_eq_nil in Hn as [-> ->]. }
  assert (forall l, (m, t) ∈ l ++ [([], b :: s)] <-> (m, t) ∈ ([], b :: s) :: l) as Hc
    by (intros l; rewrite elem_of_app, list_elem_of_singleton, elem_of_cons; tauto).
  assert ((m, t) ∈ prod_map (cons b) id <$> many greedy f s <-> exists m', m = b :: m' /\ s = m' ++ t /\ forallb f m' = true) as Hm.
  { rewrite list_elem_of_fmap. split.
    - intros ([m' t'] & [= -> ->] & Hin). apply IH in Hin as [-> Hf]. by exists m'.
    - intros (m' & -> & Hs & Hf). exists (m', t). split; [done |]. by apply IH. }
  destruct (f b) eqn:Hb.
  - assert (((m, t) ∈ ([], b :: s) :: (prod_map (cons b) id <$> many greedy f s)) <-> b :: s = m ++ t /\ forallb f m = true) as Hr.
    { rewrite elem_of_cons, Hm. split.
      - intros [[= -> ->] | (m' & -> & -> & Hf)]; [done |]. cbn. by rewrite Hb.
      - intros [Hs Hf]. destruct m as [| c m]; [left; cbn in Hs; by rewrite Hs |]. right. injection Hs as <- ->.
        exists m. cbn in Hf. by rewrite Hb in Hf. }
    destruct greedy; [by rewrite Hc | done].
  - rewrite list_elem_of_singleton. split; [by intros [= -> ->] |]. intros [Hs Hf].
    destruct m as [| c m]; [cbn in Hs; by rewrite Hs |]. injection Hs as <- ->. cbn in Hf. by rewrite Hb in Hf.
Qed.

(** The matcher finds the matches of the language, all of them and nothing else. *)
Lemma run_spec r s m t : (m, t) ∈ run r s <-> s = m ++ t /\ lang r m.
Proof.
  revert s m t. induction r as [| f | g f | r IH | r1 IH1 r2 IH2]; intros s m t; cbn [run lang].
  - rewrite list_elem_of_singleton. split; [by intros [= -> ->] | by intros [-> ->]].
  - destruct s as [| b s]; [split; [by intros ?%elem_of_nil | by intros [Hn (b & -> & _)]] |].
    destruct (f b) eqn:Hb.
    + rewrite list_elem_of_singleton. split; [intros [= -> ->]; split; [done | by exists b] |].
      intros [Hs (c & -> & _)]. injection Hs as -> ->. done.
    + split; [by intros ?%elem_of_nil |]. intros [Hs (c & -> & Hc)]. injection Hs as -> ->. congruence.
  - apply many_spec.
  - rewrite elem_of_app, IH, list_elem_of_singleton. split.
    + intros [[Hs Hl] | [= -> ->]]; [by auto | by auto].
    + intros [-> [-> | Hl]]; [by right | by left].
  - unfold mbind, list_bind. split.
    + intros Hin. change ((m, t) ∈ run r1 s ≫= (fun '(m1, t) => run r2 t ≫= (fun '(m2, t) => [(m1 ++ m2, t)]))) in Hin.
      apply list_elem_of_bind in Hin as ([m1 t1] & Hin & H1). apply list_elem_of_bind in Hin as ([m2 t2] & Hin & H2).
      apply list_elem_of_singleton in Hin as [= -> ->]. apply IH1 in H1 as [-> L1]. apply IH2 in H2 as [-> L2].
      rewrite app_assoc. split; [done |]. by exists m1, m2.
    + intros [Hs (m1 & m2 & -> & L1 & L2)].
      change ((m1 ++ m2, t) ∈ run r1 s ≫= (fun '(m1, t) => run r2 t ≫= (fun '(m2, t) => [(m1 ++ m2, t)]))).
      apply list_elem_of_bind. exists (m1, m2 ++ t). split.
      * apply list_elem_of_bind. exists (m2, t). split; [by apply list_elem_of_singleton |]. by apply IH2.
      * apply IH1. rewrite Hs. by rewrite <- app_assoc.
Qed.

(** [m] matches \b body \b between [prev] and [rest]. *)
Definition is_match (body : re) (prev : option Z) (m rest : bytes) : Prop :=
  lang body m /\ m <> [] /\ bound prev (head m) = true /\ bound (last m) (head rest) = true.

(** No match of the pattern in [s], which stands after [prev]. *)
Definition clean_after (body : re) (prev : option Z) (s : bytes) : Prop :=
  forall a m b, s = a ++ m ++ b -> ~ is_match body (if bool_decide (a = []) then prev else last a) m b.

Definition clean (body : re) (s : bytes) : Prop := clean_after body None s.

(** What a pattern of the pipeline is like: its matches are not empty, have no bracket, and
    have a digit or an at sign. *)
Record pattern (body : re) : Prop := {
  pat_nonempty : ~ lang body [];
  pat_brackets : forall m, lang body m -> (91 ∉ m) /\ (93 ∉ m);
  pat_telling : forall m, lang body m -> exists b, (b ∈ m) /\ (isDigit b || (b =? 64)) = true
}.

Lemma match_at_some body prev s m rest : pattern body ->
  match_at body prev s = Some (m, rest) -> s = m ++ rest /\ is_match body prev m rest.
Proof.
  intros [Hne _ _]. unfold match_at. destruct (bound prev (head s)) eqn:Hb; [| done]. intros Hh.
  apply head_Some_elem_of in Hh. apply list_elem_of_filter in Hh as [Hend Hin]. apply run_spec in Hin as [-> Hl].
  cbn [fst snd] in Hend. assert (m <> []) as Hm by (intros ->; by destruct Hne). rewrite bool_decide_false in Hend by done.
  split; [done |]. split; [done |]. split; [done |]. destruct m as [| c m]; [done |]. split; [done |].
  by apply Is_true_true_1.
Qed.

Lemma match_at_none body prev s m rest :
  match_at body prev s = None -> s = m ++ rest -> ~ is_match body prev m rest.
Proof.
  unfold match_at. intros Hn -> (Hl & Hm & Hs & He). destruct m as [| c m]; [done |]. cbn [app head hd_error] in *.
  change (head ((c :: m) ++ rest)) with (Some c) in Hn. rewrite Hs in Hn.
  apply head_None in Hn. eapply (filter_nil_not_elem_of _ _ (c :: m, rest)) in Hn; [apply Hn; by apply run_spec |].
  cbn [fst snd]. rewrite bool_decide_false by done. by apply Is_true_true_2.
Qed.

(** Every character of a match satisfies [f]; some character does. *)
Fixpoint all_in (f : Z -> bool) (r : re) : Prop :=
  match r with
  | Eps => True
  | Cls g | Many _ g => forall b, g b = true -> f b = true
  | Opt r => all_in f r
  | Seq r1 r2 => all_in f r1 /\ all_in f r2
  end.

Fixpoint must (f : Z -> bool) (r : re) : Prop :=
  match r with
  | Cls g => forall b, g b = true -> f b = true
  | Seq r1 r2 => must f r1 \/ must f r2
  | _ => False
  end.

Lemma lang_all f r m : all_in f r -> lang r m -> forallb f m = true.
Proof.
  revert m. induction r as [| g | gr g | r IH | r1 IH1 r2 IH2]; intros m; cbn [all_in lang].
  - by intros _ ->.
  - intros Hg (b & -> & Hb). cbn. by rewrite Hg.
  - intros Hg Hm. rewrite forallb_forall in *. auto.
  - intros Hr [-> | Hl]; [done | by apply IH].
  - intros [H1 H2] (m1 & m2 & -> & L1 & L2). rewrite forallb_app, IH1, IH2; done.
Qed.

Lemma lang_must f r m : must f r -> lang r m -> exists b, (b ∈ m) /\ f b = true.
Proof.
  revert m. induction r as [| g | gr g | r IH | r1 IH1 r2 IH2]; intros m; cbn [must lang]; try done.
  - intros Hg (b & -> & Hb). exists b. split; [by apply list_elem_of_singleton | auto].
  - intros [H1 | H2] (m1 & m2 & -> & L1 & L2).
    + destruct (IH1 m1 H1 L1) as (b & Hb & Hf). exists b. split; [apply elem_of_app; by left | done].
    + destruct (IH2 m2 H2 L2) as (b & Hb & Hf). exists b. split; [apply elem_of_app; by right | done].
Qed.

Definition no_bracket (b : Z) : bool := negb ((b =? 91) || (b =? 93)).
Definition telling (b : Z) : bool := isDigit b || (b =? 64).

Lemma pattern_of body : all_in no_bracket body -> must telling body -> pattern body.
Proof.
  intros Ha Hm. split.
  - intros Hl. destruct (lang_must _ _ _ Hm Hl) as (b & Hb & _). by apply elem_of_nil in Hb.
  - intros m Hl. apply (lang_all _ _ _ Ha) in Hl. rewrite forallb_forall in Hl.
    split; intros Hin; apply list_elem_of_In, Hl in Hin; done.
  - intros m Hl. by apply (lang_must _ _ _ Hm).
Qed.

Lemma one_of_all l f b : forallb f l = true -> one_of l b = true -> f b = true.
Proof. intros Hl Hb%bool_decide_eq_true_1. rewrite forallb_forall in Hl. by apply Hl, list_elem_of_In. Qed.

Lemma all_in_times f n r : all_in f r -> all_in f (times n r).
Proof. intros Hr. induction n as [| n IH]; [done | by split]. Qed.

Lemma all_in_up_to f n r : all_in f r -> all_in f (up_to n r).
Proof. intros Hr. induction n as [| n IH]; [done | by split]. Qed.

Lemma must_times f n r : must f r -> must f (times (S n) r).
Proof. by left. Qed.

(** The classes of the patterns have no bracket. *)
Ltac one_class := intros b; unfold isDigit, isUpper, isLower, isBlank, cont, no_bracket, telling;
  repeat match goal with |- context [one_of ?l b] =>
    let H := fresh in pose proof (one_of_all l no_bracket b eq_refl) as H; unfold no_bracket in H; destruct (one_of l b);
      [specialize (H eq_refl) | clear H]
  end; unfold isDigit, cont; lia.

Lemma digits_plain b : isDigit b = true -> no_bracket b = true.
Proof. revert b. one_class. Qed.

Lemma digits_telling b : isDigit b = true -> telling b = true.
Proof. unfold telling. by intros ->. Qed.

Lemma creditCardRe_ok : pattern creditCardRe.
Proof.
  apply pattern_of.
  - split; [apply all_in_times | apply all_in_up_to]; split; [exact digits_plain | one_class | exact digits_plain | one_class].
  - left. apply (must_times _ 12). left. exact digits_telling.
Qed.

Lemma emailRe_ok : pattern emailRe.
Proof.
  apply pattern_of.
  - repeat split; one_class.
  - right. right. left. one_class.
Qed.

Lemma phoneRe_ok : pattern phoneRe.
Proof.
  apply pattern_of.
  - repeat split; try exact digits_plain; one_class.
  - right. right. left. apply (must_times _ 2). exact digits_telling.
Qed.

Lemma ssnRe_ok : pattern ssnRe.
Proof.
  apply pattern_of.
  - repeat split; try exact digits_plain; one_class.
  - left. apply (must_times _ 2). exact digits_telling.
Qed.

(** ** Replacement *)

(** The character before what follows [a], which stands after [prev]. *)
Definition before (prev : option Z) (a : bytes) : option Z := if bool_decide (a = []) then prev else last a.

Lemma before_app prev a b : before prev (a ++ b) = before (before prev a) b.
Proof.
  unfold before. destruct (decide (b = [])) as [-> | Hb].
  - by rewrite app_nil_r, (bool_decide_true ([] = [])).
  - rewrite (bool_decide_false (b = [])) by done. rewrite bool_decide_false by (intros [_ ?]%app_eq_nil; done).
    rewrite last_app. destruct (last b) eqn:E; [done |]. by apply last_None in E.
Qed.

Lemma before_cons prev c a : before prev (c :: a) = before (Some c) a.
Proof. exact (before_app prev [c] a). Qed.

Lemma clean_after_app q prev u t : clean_after q prev (u ++ t) -> clean_after q (before prev u) t.
Proof.
  intros Hc a m b ->. specialize (Hc (u ++ a) m b ltac:(by rewrite <- app_assoc)).
  fold (before prev (u ++ a)) in Hc. by rewrite before_app in Hc.
Qed.

Section Replace.
Context (p : re) (Hp : pattern p).

Lemma replace_gap fuel prev s m b :
  (length s <= fuel)%nat -> 91 ∉ m -> replace_loop fuel p prev s = m ++ b ->
  exists fuel' t, s = m ++ t /\ (length t <= fuel')%nat /\ b = replace_loop fuel' p (before prev m) t.
Proof.
  revert fuel prev s. induction m as [| c m IH]; intros fuel prev s Hl Hm Hr.
  { exists fuel, s. split; [done |]. split; [done |]. symmetry. exact Hr. }
  apply not_elem_of_cons in Hm as [Hc Hm].
  destruct fuel as [| fuel]; (destruct s as [| x t]; [done |]); [cbn in Hl; lia |]. cbn [replace_loop] in Hr.
  destruct (match_at p prev (x :: t)) as [[m0 rest] |]; [apply (f_equal head) in Hr; change (Some 91 = Some c) in Hr; congruence |]. injection Hr as -> Hr.
  destruct (IH fuel (Some c) t) as (fuel' & u & -> & Hu & ->); [cbn in Hl; lia | done | done |].
  exists fuel', u. split; [done |]. split; [done |]. by rewrite before_cons.
Qed.

(** The end of a match in the output is one in the input: the text of a match starts with a
    bracket, and the match it stands for at a word boundary. *)
Lemma replace_head fuel prev s : (length s <= fuel)%nat ->
  bound prev (head (replace_loop fuel p prev s)) = true -> bound prev (head s) = true.
Proof.
  intros Hl. destruct fuel as [| fuel]; (destruct s as [| x t]; [done |]); [cbn in Hl; lia |]. cbn [replace_loop].
  destruct (match_at p prev (x :: t)) as [[m rest] |] eqn:E; [| done]. intros _.
  apply match_at_some in E as (Hs & _ & Hm & Hb & _); [| done]. destruct m as [| c m]; [done |].
  injection Hs as -> _. done.
Qed.

(** What stands before the output in place of what stood before the input. *)
Definition related (p_in p_out : option Z) (s : bytes) : Prop :=
  p_out = p_in \/ (p_out = Some 93 /\ bound p_in (head s) = true).

Lemma filtered_no_match q a m b out : pattern q -> lang q m -> m <> [] -> filteredValue ++ out = a ++ m ++ b ->
  exists a', a = filteredValue ++ a' /\ out = a' ++ m ++ b.
Proof.
  intros Hq Hl Hne Heq. destruct (pat_brackets q Hq m Hl) as [_ H93]. destruct (pat_telling q Hq m Hl) as (c & Hc & Ht).
  apply app_eq_inv in Heq as [(k & Hx & Hy) | (k & -> & ->)]; [| by exists k].
  destruct (decide (k = [])) as [-> | Hk].
  { rewrite app_nil_r in Hx. subst a. exists []. rewrite app_nil_r. split; [done |]. by rewrite Hy. }
  exfalso. assert (last k = Some 93) as Hlast.
  { assert (last filteredValue = Some 93) as H93' by done. rewrite Hx, last_app in H93'.
    destruct (last k) eqn:E; [done |]. by apply last_None in E. }
  apply app_eq_inv in Hy as [(k' & Hm & _) | (k' & Hm & _)].
  - apply H93. rewrite Hm. apply elem_of_app. left. by apply last_Some_elem_of.
  - assert (c ∈ filteredValue) as Hf.
    { rewrite Hx, Hm. apply elem_of_app. right. apply elem_of_app. by left. }
    assert (forallb (fun b => negb (telling b)) filteredValue = true) as Hn by done.
    rewrite forallb_forall in Hn. apply list_elem_of_In in Hf. apply Hn in Hf. unfold telling in Hf. by rewrite Ht in Hf.
Qed.

Lemma replace_clean q fuel p_in p_out s :
  pattern q -> (length s <= fuel)%nat -> related p_in p_out s -> q = p \/ clean_after q p_in s ->
  clean_after q p_out (replace_loop fuel p p_in s).
Proof.
  intros Hq. revert p_in p_out s. induction fuel as [| fuel IH]; intros p_in p_out s Hl Hr Hc a m b Ho Hm;
    fold (before p_out a) in Hm.
  all: pose proof Hm as (Hlang & Hne & Hbs & Hbe).
  { destruct s; [| cbn in Hl; lia]. cbn in Ho. symmetry in Ho. apply app_eq_nil in Ho as [_ Ho]. apply app_eq_nil in Ho as [Ho _]. done. }
  destruct s as [| x t].
  { cbn in Ho. symmetry in Ho. apply app_eq_nil in Ho as [_ Ho]. apply app_eq_nil in Ho as [Ho _]. done. }
  cbn [replace_loop length] in *. destruct (match_at p p_in (x :: t)) as [[m0 rest] |] eqn:E.
  - apply match_at_some in E as (Hs & (_ & Hm0 & _ & He0)); [| done].
    destruct (filtered_no_match q a m b _ Hq Hlang Hne Ho) as (a' & -> & Ho').
    assert (length rest <= fuel)%nat as Hlr.
    { apply (f_equal length) in Hs. rewrite length_app in Hs. destruct m0; [done |]. cbn in Hs. lia. }
    rewrite before_app in Hm. refine (IH (last m0) (Some 93) rest Hlr _ _ a' m b Ho' Hm).
    + right. by split.
    + destruct Hc as [-> | Hc]; [by left | right]. rewrite Hs in Hc. apply clean_after_app in Hc.
      unfold before in Hc. by rewrite bool_decide_false in Hc.
  - destruct a as [| c a].
    + destruct m as [| c m]; [done |]. injection Ho as -> Ho. destruct (pat_brackets q Hq _ Hlang) as [H91 _].
      apply not_elem_of_cons in H91 as [_ H91].
      destruct (replace_gap fuel (Some c) t m b ltac:(lia) H91 Ho) as (fuel' & u & -> & Hu & Hb).
      assert (is_match q p_in (c :: m) u) as Hin.
      { split; [done |]. split; [done |]. split.
        - destruct Hr as [-> | [-> Hr]]; [done | exact Hr].
        - assert (last (c :: m) = before (Some c) m) as Hlast.
          { change (last (c :: m)) with (before None (c :: m)). by rewrite before_cons. }
          rewrite Hlast in *. apply (replace_head fuel'); [done |]. by rewrite <- Hb. }
      destruct Hc as [-> | Hc]; [by apply (match_at_none _ _ _ (c :: m) u E) in Hin |].
      by apply (Hc [] (c :: m) u).
    + injection Ho as -> Ho. refine (IH (Some c) (Some c) t ltac:(lia) _ _ a m b Ho _).
      * by left.
      * destruct Hc as [-> | Hc]; [by left | right]. by apply (clean_after_app q p_in [c] t).
      * by rewrite before_cons in Hm.
Qed.

End Replace.

Lemma ReplaceAllString_clean p q s :
  pattern p -> pattern q -> q = p \/ clean q s -> clean q (ReplaceAllString p s).
Proof. intros Hp Hq Hc. apply replace_clean; [done | done | done | by left | done]. Qed.

Lemma scrub_fold_clean patterns q s :
  Forall pattern patterns -> pattern q -> q ∈ patterns \/ clean q s ->
  clean q (fold_left (fun s re => ReplaceAllString re s) patterns s).
Proof.
  intros Hps Hq. revert s. induction Hps as [| p ps Hp Hps IH]; intros s Hc; cbn [fold_left].
  - destruct Hc as [Hc%elem_of_nil | Hc]; done.
  - apply IH. destruct Hc as [[-> | Hc]%elem_of_cons | Hc].
    + right. apply ReplaceAllString_clean; auto.
    + by left.
    + right. apply ReplaceAllString_clean; auto.
Qed.

Lemma clean_nil q : clean q [].
Proof.
  intros a m b Ho (_ & Hne & _). symmetry in Ho. apply app_eq_nil in Ho as [_ Ho]. by apply app_eq_nil in Ho as [Ho _].
Qed.

Definition pii_patterns : list re := [creditCardRe; emailRe; phoneRe; ssnRe].

Lemma pii_patterns_ok p : p ∈ pii_patterns -> pattern p.
Proof.
  intros Hp. assert (Forall pattern pii_patterns) as Hf.
  { repeat apply Forall_cons_2; [apply creditCardRe_ok | apply emailRe_ok | apply phoneRe_ok | apply ssnRe_ok | apply Forall_nil_2]. }
  rewrite list.Forall_forall in Hf. auto.
Qed.

Lemma scrubString_clean patterns q s :
  (forall p, p ∈ patterns -> p ∈ pii_patterns) -> q ∈ patterns -> clean q (scrubString s patterns).
Proof.
  intros Hps Hq. unfold scrubString. case_bool_decide as Hs; [subst s; apply clean_nil |].
  apply scrub_fold_clean; [| by apply pii_patterns_ok, Hps | by left].
  apply list.Forall_forall. intros p Hp. by apply pii_patterns_ok, Hps.
Qed.

(** ** Claims *)

(** A scrubbed string holds no match of any of the patterns it was scrubbed with: neither
    does a replacement leave or make a match of its own pattern, nor one of an earlier
    pattern, though it changes the characters around the text it leaves. *)
Theorem scrubbed_text_is_clean (s : bytes) (patterns : list re) (q : re) :
  (forall p, p ∈ patterns -> p ∈ pii_patterns) -> q ∈ patterns -> clean q (scrubString s patterns).
Proof. intros Hps Hq. by apply scrubString_clean. Qed.

Definition leaky : bytes := str "mail joe.x@b.com, +1 555 123-4567; ssn 123-45-6789. card 4111 1111 1111 1111!".

Lemma scrubbed_text_is_clean_witness :
  clean ssnRe (scrubString leaky pii_patterns) /\
  scrubString leaky pii_patterns = str "mail [FILTERED], +[FILTERED]; ssn [FILTERED]. card [FILTERED]!".
Proof.
  split; [| by vm_compute]. apply (scrubbed_text_is_clean leaky pii_patterns ssnRe).
  - intros p Hp. exact Hp.
  - do 3 apply list_elem_of_further. apply list_elem_of_here.
Defined.

(** The separators of the card pattern are lazy: a number of more than sixteen digits in
    groups is taken for one of the groups it starts with, and the rest stays. *)
Lemma long_card_leaks :
  scrubString (str "card 6304 0000 0000 0000 000") pii_patterns = str "card [FILTERED] 000".
Proof. by vm_compute. Qed.
