(* ===== verification/Utf8.v ===== *)
(** * Valid UTF-8 (unicode/utf8)

    The strings a JSON decoder returns are valid UTF-8, and the pipeline and the ingest
    limits keep them so.  [ValidString] is the check of the library over the decoder of
    [Index]; [utf8] is the same set as an inductive predicate, by runes. *)

From stdpp Require Import base list gmap strings numbers sorting.
From Stdlib Require Import ZArith Lia.
From S2P Require Import Prelude Index.

Fixpoint valid_loop (fuel : nat) (s : bytes) : bool :=
  match fuel, s with
  | S fuel, _ :: _ =>
      let '(r, w) := DecodeRune s in
      if (r =? RuneError) && bool_decide (w = 1%nat) then false else valid_loop fuel (drop w s)
  | _, _ => true
  end.

(** [utf8.ValidString] *)
Definition ValidString (s : bytes) : bool := valid_loop (length s) s.

Definition ascii (b : Z) : bool := b <? 128.

(** The encoding of a rune: one ASCII byte, or bytes that are not ASCII and decode together
    whatever follows. *)
Inductive rune : bytes -> Prop :=
| rune_ascii b : ascii b = true -> rune [b]
| rune_wide c r :
    (2 <= length c)%nat -> Forall (fun b => ascii b = false) c ->
    (forall t, DecodeRune (c ++ t) = (r, length c)) -> rune c.

Inductive utf8 : bytes -> Prop :=
| utf8_nil : utf8 []
| utf8_rune c s : rune c -> utf8 s -> utf8 (c ++ s).

#[export] Hint Constructors utf8 rune : core.

Lemma rune_width c t : rune c -> exists r, DecodeRune (c ++ t) = (r, length c) /\
  (r =? RuneError) && bool_decide (length c = 1%nat) = false.
Proof.
  intros [b Hb | c' r Hl _ Hd].
  - exists b. unfold ascii in Hb. cbn. rewrite Hb. split; [done |]. unfold RuneError. rewrite andb_true_r. lia.
  - exists r. split; [apply Hd |]. rewrite bool_decide_false by lia. apply andb_false_r.
Qed.

Lemma rune_nonempty c : rune c -> c <> [].
Proof. intros [b Hb | c' r Hl _ Hd] Hn; [done |]. rewrite Hn in Hl. cbn in Hl. lia. Qed.

Ltac wide_rune :=
  match goal with |- rune ?c => eapply (rune_wide c); [cbn; lia | | intros t; cbn] end.

(** What decodes at the start of a text is a rune. *)
Lemma DecodeRune_rune s r w : s <> [] -> DecodeRune s = (r, w) ->
  (r =? RuneError) && bool_decide (w = 1%nat) = false -> rune (take w s) /\ (1 <= w)%nat.
Proof.
  intros Hs. destruct s as [| b0 s]; [done |]. clear Hs. cbn [DecodeRune].
  destruct (b0 <? 128) eqn:E0. { intros [= <- <-] _. split; [by constructor | lia]. }
  assert (ascii b0 = false) as A0 by done.
  assert (forall lo hi b, 128 <= lo -> cont lo hi b = true -> ascii b = false) as Hc.
  { intros lo hi b Hlo Hb. unfold cont, ascii in *. lia. }
  destruct ((b0 <? 194) || (244 <? b0)) eqn:E1. { by intros [= <- <-]. }
  destruct (b0 <? 224) eqn:E2.
  { destruct s as [| b1 s]; [by intros [= <- <-] |]. destruct (cont 128 191 b1) eqn:C1; [| by intros [= <- <-]].
    intros [= <- <-] _. split; [| lia]. wide_rune.
    - repeat constructor; [done |]. by apply (Hc 128 191).
    - by rewrite E0, E1, E2, C1. }
  destruct (b0 <? 240) eqn:E3.
  { destruct s as [| b1 [| b2 s]]; [by intros [= <- <-] | by intros [= <- <-] |].
    destruct (cont (if b0 =? 224 then 160 else 128) (if b0 =? 237 then 159 else 191) b1 && cont 128 191 b2) eqn:C; [| by intros [= <- <-]].
    intros [= <- <-] _. split; [| lia]. wide_rune.
    - apply andb_true_iff in C as [C1 C2]. repeat constructor; [done | | by apply (Hc 128 191)].
      eapply Hc; [| exact C1]. destruct (b0 =? 224); lia.
    - by rewrite E0, E1, E2, E3, C. }
  destruct s as [| b1 [| b2 [| b3 s]]]; [by intros [= <- <-] | by intros [= <- <-] | by intros [= <- <-] |].
  destruct (cont (if b0 =? 240 then 144 else 128) (if b0 =? 244 then 143 else 191) b1 && cont 128 191 b2 && cont 128 191 b3) eqn:C; [| by intros [= <- <-]].
  intros [= <- <-] _. split; [| lia]. wide_rune.
  - apply andb_true_iff in C as [[C1 C2]%andb_true_iff C3]. repeat constructor; [done | | by apply (Hc 128 191) | by apply (Hc 128 191)].
    eapply Hc; [| exact C1]. destruct (b0 =? 240); lia.
  - by rewrite E0, E1, E2, E3, C.
Qed.

Lemma valid_loop_utf8 fuel s : (length s <= fuel)%nat -> valid_loop fuel s = true <-> utf8 s.
Proof.
  intros Hl. split.
  - revert s Hl. induction fuel as [| fuel IH]; intros s Hl; (destruct s as [| b s]; [by constructor |]); [cbn in Hl; lia |].
    cbn [valid_loop]. destruct (DecodeRune (b :: s)) as [r w] eqn:E.
    destruct ((r =? RuneError) && bool_decide (w = 1%nat)) eqn:Ee; [done |]. intros Hv.
    destruct (DecodeRune_rune (b :: s) r w) as [Hr Hw]; [done | done | done |].
    rewrite <- (take_drop w (b :: s)). constructor; [done |]. apply IH; [| done].
    rewrite length_drop. cbn in *. lia.
  - intros Hu. revert fuel Hl. induction Hu as [| c s Hc Hu IH]; intros fuel Hl; [by destruct fuel |].
    pose proof (rune_nonempty c Hc) as Hne. destruct (rune_width c s Hc) as (r & Hd & He). rewrite length_app in Hl.
    destruct c as [| b c]; [done |]. destruct fuel as [| fuel]; [cbn in Hl; lia |].
    change ((b :: c) ++ s) with (b :: (c ++ s)) in *. cbn [valid_loop]. rewrite Hd. cbv beta iota. rewrite He.
    change (b :: c ++ s) with ((b :: c) ++ s). rewrite drop_app_length. apply IH. cbn in Hl. lia.
Qed.

Lemma ValidString_utf8 s : ValidString s = true <-> utf8 s.
Proof. by apply valid_loop_utf8. Qed.

Lemma utf8_app s t : utf8 s -> utf8 t -> utf8 (s ++ t).
Proof. intros Hs Ht. induction Hs as [| c s Hc Hs IH]; [done |]. rewrite <- app_assoc. by constructor. Qed.

Lemma utf8_ascii s : forallb ascii s = true -> utf8 s.
Proof.
  induction s as [| b s IH]; [by constructor |]. cbn. intros [Hb Hs]%andb_true_iff.
  apply (utf8_rune [b]); auto.
Qed.

(** An ASCII byte ends one rune and starts the next. *)
Lemma utf8_ascii_cons b s : ascii b = true -> utf8 (b :: s) -> utf8 s.
Proof.
  intros Hb Hu. inversion Hu as [| c t Hc Ht Heq]; subst. destruct Hc as [b' Hb' | c r Hl Hf Hd].
  - by injection Heq as -> ->.
  - destruct c as [| b' c]; [cbn in Hl; lia |]. injection Heq as -> <-. apply Forall_cons in Hf as [Hf _]. congruence.
Qed.

Lemma utf8_ascii_app m s : forallb ascii m = true -> utf8 (m ++ s) -> utf8 s.
Proof.
  induction m as [| b m IH]; [done |]. cbn. intros [Hb Hm]%andb_true_iff Hu. apply IH; [done |]. by apply utf8_ascii_cons in Hu.
Qed.
