(* ===== verification/Pipeline.v ===== *)
(** * The ingest pipeline (logstore/ingest/pipeline.go, fingerprint)

    A batch is sampled, fingerprinted, scrubbed and expanded before the log writer sees it.
    [encoding/json], [crypto/md5] and the random source are parameters: a decoded body is
    [value], a draw is a boolean for [rand.Float64() < rate].
    Main results: sampling keeps the order and every error it is told to keep; whatever a
    batch holds, the output is bounded; no message, error message or body string within the
    scrubbing depth leaves the pipeline with a match of a configured pattern, and the logs
    expanded from a body come out scrubbed too. *)

From stdpp Require Import base list gmap strings numbers sorting.
From Stdlib Require Import ZArith Lia.
From S2P Require Import Prelude Schema Index Guard Scrub Utf8.

(** ** Data *)

(** [any] as [json.Unmarshal] fills it: a number is the bits of its float64, and a map is
    listed in the order of its keys, the one [json.Marshal] writes. *)
Inductive value :=
| VNull
| VBool (b : bool)
| VNumber (bits : Z)
| VString (s : bytes)
| VArray (l : list value)
| VObject (m : list (bytes * value)).

(** [SamplingRule] over the type of rates. *)
Record SamplingRule (F : Type) := mkSamplingRule { rule_Service : bytes; Rate : F; KeepErrors : bool }.
Arguments mkSamplingRule {F} _ _ _.
Arguments rule_Service {F} _.
Arguments Rate {F} _.
Arguments KeepErrors {F} _.

Record PIIConfig := mkPIIConfig {
  Enabled : bool;
  ScrubCreditCards : bool;
  ScrubEmails : bool;
  ScrubPhones : bool;
  ScrubSSN : bool;
  SensitiveFields : list bytes
}.

Definition DefaultPIIConfig : PIIConfig :=
  mkPIIConfig true true true true true
    (str <$> (["password"; "token"; "secret"; "authorization"; "api_key"; "credit_card"]%string)).

(** One element of body.logs; [l_At] is [int64(l.At)]. *)
Record InRequestLog := mkInRequestLog { l_Level : bytes; l_Message : bytes; l_At : Z }.

(** [json.Unmarshal] into [any] and into the logs struct, and [json.Marshal]. *)
Class BodyCodec := {
  UnmarshalAny : bytes -> option value;
  UnmarshalLogs : bytes -> option (list InRequestLog);
  MarshalAny : value -> option bytes
}.

(** ** Fingerprints (internal/fingerprint) *)

(** The hexadecimal digest of [crypto/md5]. *)
Class MD5 := md5_hex : bytes -> bytes.

(** A text as the regexp engine reads it: its runes, a malformed byte b as -1-b. *)
Fixpoint symbols (fuel : nat) (s : bytes) : list Z :=
  match fuel, s with
  | S fuel, b :: _ =>
      let '(r, w) := DecodeRune s in
      (if (r =? RuneError) && bool_decide (w = 1%nat) then - 1 - b else r) :: symbols fuel (drop w s)
  | _, _ => []
  end.

(** [utf8.AppendRune], a malformed byte as it was. *)
Definition encode_symbol (r : Z) : bytes :=
  if r <? 0 then [- 1 - r]
  else if r <? 128 then [r]
  else if r <? 2048 then [Z.lor 192 (Z.shiftr r 6); Z.lor 128 (Z.land r 63)]
  else if r <? 65536 then [Z.lor 224 (Z.shiftr r 12); Z.lor 128 (Z.land (Z.shiftr r 6) 63); Z.lor 128 (Z.land r 63)]
  else [Z.lor 240 (Z.shiftr r 18); Z.lor 128 (Z.land (Z.shiftr r 12) 63); Z.lor 128 (Z.land (Z.shiftr r 6) 63);
        Z.lor 128 (Z.land r 63)].

(** [ReplaceAllString] of a pattern that may begin and end with \b. *)
Fixpoint replace_symbols (fuel : nat) (bounded : bool) (body : re) (repl : bytes) (prev : option Z) (s : list Z) : list Z :=
  match fuel, s with
  | S fuel, b :: t =>
      let found :=
        if bounded then match_at body prev s else head (run body s) in
      match found with
      | Some (m, rest) => repl ++ replace_symbols fuel bounded body repl (last m) rest
      | None => b :: replace_symbols fuel bounded body repl (Some b) t
      end
  | _, _ => s
  end.

Definition replace_all (bounded : bool) (body : re) (repl : bytes) (s : bytes) : bytes :=
  let syms := symbols (length s) s in
  concat (encode_symbol <$> replace_symbols (length syms) bounded body repl None syms).

Definition isHex (b : Z) : bool := isDigit b || cont 97 102 b || cont 65 70 b.
Definition dash : re := Cls (Z.eqb 45).
(** r+ of a class *)
Definition some_of (f : Z -> bool) : re := Seq (Cls f) (Many true f).

Definition reUUIDs : re :=
  Seq (times 8 (Cls isHex)) (Seq dash (Seq (times 4 (Cls isHex)) (Seq dash (Seq (times 4 (Cls isHex)) (Seq dash
    (Seq (times 4 (Cls isHex)) (Seq dash (times 12 (Cls isHex))))))))).
Definition reHexIDs : re := Seq (times 16 (Cls isHex)) (Many true isHex).
Definition reNumbers : re := Seq (times 2 (Cls isDigit)) (Many true isDigit).
Definition quoted (q : Z) : re :=
  let f := fun b => negb (b =? q) in Seq (Cls (Z.eqb q)) (Seq (Seq (times 4 (Cls f)) (Many true f)) (Cls (Z.eqb q))).
Definition reQuoted : re := quoted 34.
Definition reSQuoted : re := quoted 39.
Definition reIPAddrs : re :=
  let d := between 1 3 (Cls isDigit) in
  let dot := Cls (Z.eqb 46) in
  Seq d (Seq dot (Seq d (Seq dot (Seq d (Seq dot (Seq d (Opt (Seq (Cls (Z.eqb 58)) (some_of isDigit))))))))).
Definition reURLPaths : re :=
  Seq (Cls (Z.eqb 47)) (Seq (some_of (fun b => isLower b || isUpper b || isDigit b || (b =? 95) || (b =? 45)))
    (Seq (Cls (Z.eqb 47)) (some_of isDigit))).

Definition Normalize (msg : bytes) : bytes :=
  let msg := if 500 <? len msg then take 500 msg else msg in
  let msg := replace_all false reUUIDs (str "<UUID>") msg in
  let msg := replace_all true reIPAddrs (str "<IP>") msg in
  let msg := replace_all true reHexIDs (str "<HEX>") msg in
  let msg := replace_all false reURLPaths (str "/<PATH>/<N>") msg in
  let msg := replace_all true reNumbers (str "<N>") msg in
  let msg := replace_all false reQuoted (str "<STR>") msg in
  let msg := replace_all false reSQuoted (str "<STR>") msg in
  TrimSpace msg.

Definition Compute `{MD5} (service errorClass sourceFile message : bytes) : bytes :=
  if bool_decide (errorClass = []) && bool_decide (sourceFile = []) && bool_decide (message = []) then []
  else
    let tail := if bool_decide (sourceFile = []) then Normalize message else sourceFile in
    take 16 (md5_hex (service ++ [0] ++ errorClass ++ [0] ++ tail)).

Definition computeErrorFingerprint `{MD5} (e : Entry) : Entry :=
  if bool_decide (ErrorClass e = []) && bool_decide (SourceFile e = []) then e
  else set ErrorFingerprint (Compute (Service e) (ErrorClass e) (SourceFile e) (Message e)) e.

(** ** Configuration *)

Definition maxScrubDepth : nat := 32.
Definition maxExpandedLogs : nat := 1000.
Definition maxProcessedEntries : Z := 10000.

Section Stages.
Context {U : Unicode} {M : MD5} {J : BodyCodec} {F : Type}.

(** [rule.Rate >= 1.0], and whether the n-th [rand.Float64()] of the call is below a rate. *)
Context (at_least_one : F -> bool) (draw : nat -> F -> bool).

Record Pipeline := mkPipeline {
  samplingRules : list (SamplingRule F);
  piiConfig : PIIConfig;
  ruleMap : gmap bytes (SamplingRule F);
  defaultRule : option (SamplingRule F);
  scrubPatterns : list re;
  sensitive : gset bytes
}.

Definition star : bytes := str "*".

(** [compileSamplingRules]: a later rule for a service replaces an earlier one. *)
Definition compileSamplingRules (rules : list (SamplingRule F)) : gmap bytes (SamplingRule F) * option (SamplingRule F) :=
  foldl (fun '(m, d) r =>
    if bool_decide (rule_Service r = star) then (m, Some r) else (<[rule_Service r := r]> m, d)) (∅, None) rules.

Definition buildScrubbers (c : PIIConfig) : list re * gset bytes :=
  ((if ScrubCreditCards c then [creditCardRe] else []) ++
   (if ScrubEmails c then [emailRe] else []) ++
   (if ScrubPhones c then [phoneRe] else []) ++
   (if ScrubSSN c then [ssnRe] else []),
   foldl (fun s f => s ∪ {[ToLower f]}) ∅ (SensitiveFields c)).

Definition NewPipeline (rules : list (SamplingRule F)) (c : PIIConfig) : Pipeline :=
  let '(m, d) := compileSamplingRules rules in
  let '(patterns, fields) := buildScrubbers c in
  mkPipeline rules c m d patterns fields.

(** ** Sampling *)

Definition isErrorLevel (level : bytes) : bool :=
  let l := ToLower level in bool_decide (l = str "error") || bool_decide (l = str "fatal").

Definition rule_of (p : Pipeline) (e : Entry) : option (SamplingRule F) :=
  match ruleMap p !! Service e with Some r => Some r | None => defaultRule p end.

(** The loop over the batch, [n] draws taken so far. *)
Fixpoint sample_loop (p : Pipeline) (n : nat) (entries : list Entry) : list Entry :=
  match entries with
  | [] => []
  | e :: entries =>
      match rule_of p e with
      | None => e :: sample_loop p n entries
      | Some rule =>
          if KeepErrors rule && isErrorLevel (Level e) then e :: sample_loop p n entries
          else if at_least_one (Rate rule) then e :: sample_loop p n entries
          else if draw n (Rate rule) then e :: sample_loop p (S n) entries
          else sample_loop p (S n) entries
      end
  end.

Definition applySampling (p : Pipeline) (entries : list Entry) : list Entry :=
  if bool_decide (samplingRules p = []) then entries else sample_loop p 0 entries.

(** ** Scrubbing *)

Fixpoint scrubValue (key : bytes) (val : value) (patterns : list re) (sensitiveFields : gset bytes) (depth : nat) : value :=
  if bool_decide (maxScrubDepth < depth)%nat then val
  else match val with
  | VObject m =>
      VObject (map (fun '(k, child) =>
        if bool_decide (ToLower k ∈ sensitiveFields) then (k, VString filteredValue)
        else (k, scrubValue k child patterns sensitiveFields (S depth))) m)
  | VArray l => VArray (map (fun child => scrubValue key child patterns sensitiveFields (S depth)) l)
  | VString v => VString (fold_left (fun v re => ReplaceAllString re v) patterns v)
  | _ => val
  end.

Definition scrubBodyWith (body : bytes) (patterns : list re) (sensitiveFields : gset bytes) : bytes :=
  match UnmarshalAny body with
  | None => body
  | Some data =>
      match MarshalAny (scrubValue [] data patterns sensitiveFields 0) with
      | Some result => result
      | None => body
      end
  end.

Definition scrubBody (p : Pipeline) (body : bytes) : bytes :=
  if negb (Enabled (piiConfig p)) || bool_decide (body = []) then body
  else scrubBodyWith body (scrubPatterns p) (sensitive p).

Definition scrubEntry (p : Pipeline) (e : Entry) : Entry :=
  if negb (Enabled (piiConfig p)) then e
  else if bool_decide (scrubPatterns p = []) && bool_decide (sensitive p = ∅) then e
  else
    let e := set Message (scrubString (Message e) (scrubPatterns p)) e in
    let e := set ErrorMessage (scrubString (ErrorMessage e) (scrubPatterns p)) e in
    if bool_decide (Body e = []) then e
    else set Body (scrubBodyWith (Body e) (scrubPatterns p) (sensitive p)) e.

(** ** Expansion *)

Definition quote : bytes := [34].
Definition inRequestLogsKey : bytes := quote ++ str "logs" ++ quote.

Definition child_of (parent : Entry) (l : InRequestLog) : Entry :=
  let level := if bool_decide (l_Level l = []) then str "info" else l_Level l in
  set Ts (int64 (Ts parent + l_At l)) (set Level level (set Service (Service parent) (set Env (Env parent)
    (set Version (Version parent) (set Message (l_Message l) (set EventType (str "in_request_log")
    (set TraceID (TraceID parent) (set RequestID (RequestID parent) (set UserID (UserID parent)
    (set TenantID (TenantID parent) Entry0)))))))))).

Definition expandInRequestLogs (parent : Entry) : list Entry :=
  if bool_decide (Body parent = []) then []
  else if negb (contains_text (Body parent) inRequestLogsKey) then []
  else match UnmarshalLogs (Body parent) with
  | None => []
  | Some logs => child_of parent <$> take maxExpandedLogs logs
  end.

(** ** The pipeline *)

(** What becomes of one entry before it is appended. *)
Definition prepare (p : Pipeline) (e : Entry) : Entry :=
  scrubEntry p (if isErrorLevel (Level e) then computeErrorFingerprint e else e).

(** The loop of [Process]; [budget] more entries may be expanded. *)
Fixpoint process_loop (p : Pipeline) (budget : Z) (entries : list Entry) : list Entry :=
  match entries with
  | [] => []
  | e :: entries =>
      let e := prepare p e in
      if negb (bool_decide (Body e = [])) && (0 <? budget) then
        let expanded := take (Z.to_nat budget) (expandInRequestLogs e) in
        e :: expanded ++ process_loop p (budget - len expanded) entries
      else e :: process_loop p budget entries
  end.

Definition Process (p : Pipeline) (entries : list Entry) : list Entry :=
  let entries := applySampling p entries in
  process_loop p (Z.max 0 (maxProcessedEntries - len entries)) entries.

End Stages.

(** ** What is documented of encoding/json *)

(** The bits of a float64 that is neither an infinity nor a NaN. *)
Definition finite (bits : Z) : bool := negb (Z.land (Z.shiftr bits 52) 2047 =? 2047).

(** The values that can be written and read back: strings are valid UTF-8, keys are distinct
    and in order, numbers are finite. *)
Fixpoint valid_value (v : value) : bool :=
  match v with
  | VNull | VBool _ => true
  | VNumber bits => finite bits
  | VString s => ValidString s
  | VArray l => forallb valid_value l
  | VObject m =>
      forallb (fun '(k, v) => ValidString k && valid_value v) m &&
      bool_decide (StronglySorted (fun a b => str_lt a b = true) m.*1)
  end.

Definition max_of {A} (f : A -> nat) (l : list A) : nat := foldr (fun x n => Nat.max (f x) n) O l.

(** The number of containers around the innermost value. *)
Fixpoint nesting (v : value) : nat :=
  match v with
  | VArray l => S (max_of nesting l)
  | VObject m => S (max_of (fun kv => nesting kv.2) m)
  | _ => O
  end.

(** The decoder refuses documents nested deeper than 10000. *)
Definition decodable (v : value) : bool := valid_value v && (Z.of_nat (nesting v) <=? 10000).

(** [u] is [n] levels inside [v]. *)
Inductive inside : value -> nat -> value -> Prop :=
| inside_here v : inside v O v
| inside_array c l n u : c ∈ l -> inside c n u -> inside (VArray l) (S n) u
| inside_object k c m n u : (k, c) ∈ m -> inside c n u -> inside (VObject m) (S n) u.

Class BodyCodecOk `{BodyCodec} : Prop := {
  Unmarshal_decodable b v : UnmarshalAny b = Some v -> decodable v = true;
  Marshal_Unmarshal v : decodable v = true -> exists b, MarshalAny v = Some b /\ UnmarshalAny b = Some v;
  (** The message of a log is a string of the document: body, logs, element, message. *)
  logs_from_body b v logs l : UnmarshalAny b = Some v -> UnmarshalLogs b = Some logs -> l ∈ logs ->
    l_Message l = [] \/ inside v 3 (VString (l_Message l))
}.

(** ** Values *)

Section ValueInd.
Variables (P : value -> Prop).
Hypotheses (Hnull : P VNull) (Hbool : forall b, P (VBool b)) (Hnumber : forall n, P (VNumber n))
  (Hstring : forall s, P (VString s)) (Harray : forall l, Forall P l -> P (VArray l))
  (Hobject : forall m, Forall (fun kv => P kv.2) m -> P (VObject m)).

Fixpoint value_rect' (v : value) : P v :=
  match v with
  | VNull => Hnull
  | VBool b => Hbool b
  | VNumber n => Hnumber n
  | VString s => Hstring s
  | VArray l =>
      Harray l ((fix go (l : list value) : Forall P l :=
        match l with [] => Forall_nil_2 _ | c :: l => Forall_cons_2 _ c l (value_rect' c) (go l) end) l)
  | VObject m =>
      Hobject m ((fix go (m : list (bytes * value)) : Forall (fun kv => P kv.2) m :=
        match m with
        | [] => Forall_nil_2 _
        | kv :: m => Forall_cons_2 (fun kv => P kv.2) kv m (value_rect' kv.2) (go m)
        end) m)
  end.
End ValueInd.

Lemma max_of_le {A} (f g : A -> nat) l : Forall (fun x => (f x <= g x)%nat) l -> (max_of f l <= max_of g l)%nat.
Proof. unfold max_of. induction 1; cbn [foldr]; lia. Qed.

Lemma max_of_map {A B} (f : B -> nat) (h : A -> B) l : max_of f (map h l) = max_of (fun x => f (h x)) l.
Proof. induction l as [| x l IH]; [done |]. cbn. by f_equal. Qed.

(** ** Redaction keeps UTF-8 *)

(** The classes of the patterns are ASCII. *)
Ltac ascii_class := intros b; unfold isDigit, isUpper, isLower, isBlank, cont, ascii;
  repeat match goal with |- context [one_of ?l b] =>
    let H := fresh in pose proof (one_of_all l ascii b eq_refl) as H; unfold ascii in H; destruct (one_of l b);
      [specialize (H eq_refl) | clear H]
  end; cbn [orb]; lia.

Lemma pii_ascii p : p ∈ pii_patterns -> all_in ascii p.
Proof.
  assert (Forall (all_in ascii) pii_patterns) as Hf.
  { repeat apply Forall_cons_2; [| | | | apply Forall_nil_2].
    - split; [apply all_in_times | apply all_in_up_to]; split; ascii_class.
    - repeat split; ascii_class.
    - repeat split; ascii_class.
    - repeat split; ascii_class. }
  rewrite list.Forall_forall in Hf. auto.
Qed.

Section Redact.
Context (p : re) (Hp : pattern p) (Ha : all_in ascii p).

Lemma match_ascii prev s m rest : match_at p prev s = Some (m, rest) -> s = m ++ rest /\ m <> [] /\ forallb ascii m = true.
Proof.
  intros (Hs & Hl & Hm & _)%match_at_some; [| done]. split; [done |]. split; [done |]. by apply (lang_all _ p).
Qed.

Lemma replace_wide fuel prev c t : Forall (fun b => ascii b = false) c -> (length (c ++ t) <= fuel)%nat ->
  replace_loop fuel p prev (c ++ t) = c ++ replace_loop (fuel - length c) p (before prev c) t.
Proof.
  intros Hc. revert fuel prev. induction Hc as [| b c Hb Hc IH]; intros fuel prev Hl.
  { cbn. by rewrite Nat.sub_0_r. }
  destruct fuel as [| fuel]; [cbn in Hl; lia |]. cbn [app replace_loop length Nat.sub].
  destruct (match_at p prev (b :: c ++ t)) as [[m rest] |] eqn:E.
  - apply match_ascii in E as (Hs & Hm & Hf). destruct m as [| b' m]; [done |]. injection Hs as <- _.
    cbn in Hf. apply andb_true_iff in Hf as [Hf _]. congruence.
  - rewrite IH by (cbn in Hl; lia). by rewrite before_cons.
Qed.

Lemma replace_utf8 fuel prev s : (length s <= fuel)%nat -> utf8 s -> utf8 (replace_loop fuel p prev s).
Proof.
  revert prev s. induction fuel as [fuel IH] using lt_wf_ind. intros prev s Hl Hu.
  destruct Hu as [| c s Hc Hu]; [by destruct fuel; constructor |].
  destruct Hc as [b Hb | c r Hw Hf Hd].
  - destruct fuel as [| fuel]; [cbn in Hl; lia |]. cbn [app replace_loop].
    destruct (match_at p prev (b :: s)) as [[m rest] |] eqn:E.
    + apply match_ascii in E as (Hs & Hm & Hma). apply utf8_app; [by apply utf8_ascii |].
      apply IH; [lia | |].
      * apply (f_equal length) in Hs. rewrite length_app in Hs. destruct m; [done |]. cbn in *. lia.
      * apply (utf8_ascii_app m); [done |]. rewrite <- Hs. apply (utf8_rune [b]); auto.
    + apply (utf8_rune [b]); [auto |]. apply IH; [lia | cbn in Hl; lia | done].
  - rewrite replace_wide by done. rewrite length_app in Hl. apply utf8_app.
    + pose proof (utf8_rune c [] (rune_wide c r Hw Hf Hd) utf8_nil) as Hc. by rewrite app_nil_r in Hc.
    + apply IH; [lia | lia | done].
Qed.
End Redact.

Lemma redacted_utf8 patterns s : (forall p, p ∈ patterns -> p ∈ pii_patterns) -> utf8 s ->
  utf8 (fold_left (fun s re => ReplaceAllString re s) patterns s).
Proof.
  revert s. induction patterns as [| p ps IH]; intros s Hps Hu; [done |]. cbn [fold_left]. apply IH.
  - intros q Hq. apply Hps. by right.
  - assert (p ∈ pii_patterns) as Hp by (apply Hps; by left).
    apply replace_utf8; [by apply pii_patterns_ok | by apply pii_ascii | done | done].
Qed.

(** ** Scrubbing a body *)

Section ScrubLemmas.
Context {U : Unicode} {J : BodyCodec} {JOk : BodyCodecOk}.
Context (patterns : list re) (fields : gset bytes) (Hps : forall p, p ∈ patterns -> p ∈ pii_patterns).

Lemma filteredValue_utf8 : ValidString filteredValue = true.
Proof. by vm_compute. Qed.

Lemma scrub_valid v key depth : valid_value v = true -> valid_value (scrubValue key v patterns fields depth) = true.
Proof.
  revert key depth. induction v as [| b | n | s | l IH | m IH] using value_rect'; intros key depth Hv;
    cbn [scrubValue]; case_bool_decide as Hd; try done; cbn [valid_value] in *.
  - apply ValidString_utf8, redacted_utf8; [done |]. by apply ValidString_utf8.
  - rewrite forallb_forall in Hv |- *. intros x (c & <- & Hc)%in_map_iff. rewrite list.Forall_forall in IH.
    apply IH; [by apply list_elem_of_In | by apply Hv].
  - apply andb_true_iff in Hv as [Hv Hs]. apply andb_true_iff. split.
    + rewrite forallb_forall in Hv |- *. intros x ([k c] & <- & Hc)%in_map_iff.
      pose proof (Hv _ Hc) as [Hk Hvc]%andb_true_iff. rewrite list.Forall_forall in IH.
      destruct (bool_decide (ToLower k ∈ fields)); apply andb_true_iff; (split; [done |]); [exact filteredValue_utf8 |].
      apply (IH (k, c)); [by apply list_elem_of_In | done].
    + apply bool_decide_eq_true in Hs. apply bool_decide_eq_true.
      replace ((map (fun '(k, c) => _) m).*1) with m.*1; [done |]. clear. induction m as [| [k c] m IH]; [done |].
      cbn [map fmap list_fmap fst]. f_equal; [by case_bool_decide | exact IH].
Qed.

Lemma scrub_nesting v key depth : (nesting (scrubValue key v patterns fields depth) <= nesting v)%nat.
Proof.
  revert key depth. induction v as [| b | n | s | l IH | m IH] using value_rect'; intros key depth;
    cbn [scrubValue]; case_bool_decide as Hd; try done; cbn [nesting]; apply le_n_S; rewrite max_of_map; apply max_of_le.
  - eapply Forall_impl; [exact IH |]. cbn. auto.
  - eapply Forall_impl; [exact IH |]. cbn. intros [k c] Hc. case_bool_decide; cbn; [lia | apply Hc].
Qed.

Lemma scrub_decodable v : decodable v = true -> decodable (scrubValue [] v patterns fields 0) = true.
Proof.
  unfold decodable. intros [Hv Hn]%andb_true_iff. rewrite scrub_valid by done.
  pose proof (scrub_nesting v [] 0). cbn. lia.
Qed.

(** What lies inside a scrubbed value was scrubbed at its depth, or filtered. *)
Lemma scrub_inside v key depth n u : inside (scrubValue key v patterns fields depth) n u -> (depth + n <= maxScrubDepth)%nat ->
  u = VString filteredValue \/ exists v0 key0, u = scrubValue key0 v0 patterns fields (depth + n).
Proof.
  revert key depth n. induction v as [| b | x | s | l IH | m IH] using value_rect'; intros key depth n Hi Hd;
    (assert (depth <= maxScrubDepth)%nat as Hle by lia);
    match type of Hi with inside (scrubValue _ ?v _ _ _) _ _ => destruct n as [| n];
      [inversion Hi; subst; right; exists v, key; by rewrite Nat.add_0_r |] end;
    cbn [scrubValue] in Hi; rewrite bool_decide_false in Hi by lia; inversion Hi as [| c l' n' u' Hc Hin | k c l' n' u' Hc Hin]; subst.
  - apply list_elem_of_In, in_map_iff in Hc as (c0 & <- & Hc). rewrite list.Forall_forall in IH.
    rewrite Nat.add_succ_r. apply (IH c0) in Hin; [done | by apply list_elem_of_In | lia].
  - apply list_elem_of_In, in_map_iff in Hc as ([k0 c0] & Heq & Hc). rewrite list.Forall_forall in IH.
    case_bool_decide; injection Heq as <- <-.
    + left. by inversion Hin.
    + rewrite Nat.add_succ_r. apply (IH (k0, c0)) in Hin; [done | by apply list_elem_of_In | lia].
Qed.

Lemma filtered_clean q : q ∈ pii_patterns -> clean q filteredValue.
Proof.
  intros Hq a m b Heq (Hl & _). destruct (pat_telling q (pii_patterns_ok q Hq) m Hl) as (c & Hc & Ht).
  assert (c ∈ filteredValue) as Hf by (rewrite Heq; set_solver).
  assert (forallb (fun b => negb (isDigit b || (b =? 64))) filteredValue = true) as Hn by done.
  rewrite forallb_forall in Hn. apply list_elem_of_In, Hn in Hf. by rewrite Ht in Hf.
Qed.

Lemma scrub_string_clean v key n s q : q ∈ patterns ->
  inside (scrubValue key v patterns fields 0) n (VString s) -> (n <= maxScrubDepth)%nat -> clean q s.
Proof.
  intros Hq Hi Hn. apply scrub_inside in Hi as [[= ->] | (v0 & key0 & Hs)]; [by apply filtered_clean, Hps | | done].
  destruct v0; cbn [scrubValue] in Hs; rewrite bool_decide_false in Hs by (cbn; lia); try done. injection Hs as ->.
  apply scrub_fold_clean; [| by apply pii_patterns_ok, Hps | by left].
  apply list.Forall_forall. intros p Hp. by apply pii_patterns_ok, Hps.
Qed.

Lemma scrub_field_filtered v key n m k u : inside (scrubValue key v patterns fields 0) n (VObject m) -> (n <= maxScrubDepth)%nat ->
  (k, u) ∈ m -> ToLower k ∈ fields -> u = VString filteredValue.
Proof.
  intros Hi Hn Hk Hf. apply scrub_inside in Hi as [? | (v0 & key0 & Hs)]; [done | | done].
  destruct v0; cbn [scrubValue] in Hs; rewrite bool_decide_false in Hs by (cbn; lia); try done. injection Hs as ->.
  apply list_elem_of_In, in_map_iff in Hk as ([k0 c0] & Heq & _). case_bool_decide; by injection Heq as -> <-.
Qed.

(** A body the decoder accepts is replaced by the encoding of its scrubbed value. *)
Lemma scrubBodyWith_value b v : UnmarshalAny b = Some v ->
  UnmarshalAny (scrubBodyWith b patterns fields) = Some (scrubValue [] v patterns fields 0).
Proof.
  intros Hb. unfold scrubBodyWith. rewrite Hb.
  destruct (Marshal_Unmarshal (scrubValue [] v patterns fields 0)) as (b' & Hm & Hu); [by apply scrub_decodable, (Unmarshal_decodable b) |].
  by rewrite Hm.
Qed.

End ScrubLemmas.

(** ** Specification of sampling *)

Section Spec.
Context {U : Unicode} {M : MD5} {J : BodyCodec} {F : Type}.
Context (at_least_one : F -> bool) (draw : nat -> F -> bool).

(** The last rule for a service, or else the last default rule. *)
Definition rule_for (rules : list (SamplingRule F)) (service : bytes) : option (SamplingRule F) :=
  match last (filter (fun r => rule_Service r = service) rules) with
  | Some r => Some r
  | None => last (filter (fun r => rule_Service r = star) rules)
  end.

(** The rate an entry is sampled at, when chance decides. *)
Definition drawn (rules : list (SamplingRule F)) (e : Entry) : option F :=
  match rule_for rules (Service e) with
  | None => None
  | Some r =>
      if (KeepErrors r && isErrorLevel (Level e)) || at_least_one (Rate r) then None else Some (Rate r)
  end.

(** Whether the i-th entry of a batch is kept, [n] draws being taken before the batch. *)
Definition kept (rules : list (SamplingRule F)) (n : nat) (entries : list Entry) (i : nat) (e : Entry) : bool :=
  match drawn rules e with
  | None => true
  | Some rate => draw (n + length (omap (drawn rules) (take i entries))) rate
  end.

Definition sampled (rules : list (SamplingRule F)) (n : nat) (entries : list Entry) : list Entry :=
  concat (imap (fun i e => if kept rules n entries i e then [e] else []) entries).

Lemma compile_spec (rules : list (SamplingRule F)) service :
  (compileSamplingRules rules).1 !! service =
    (if bool_decide (service = star) then None else last (filter (fun r => rule_Service r = service) rules)) /\
  (compileSamplingRules rules).2 = last (filter (fun r => rule_Service r = star) rules).
Proof.
  unfold compileSamplingRules. induction rules as [| r rules [IHm IHd]] using rev_ind.
  { split; [| done]. cbn [foldl fst]. rewrite lookup_empty. by destruct (bool_decide (service = star)). }
  rewrite foldl_app. cbn [foldl]. destruct (foldl _ _ rules) as [m d]. cbn [fst snd] in *. rewrite !filter_app.
  destruct (bool_decide_reflect (rule_Service r = star)) as [Hr | Hr]; cbn [fst snd].
  - rewrite (filter_cons_True (fun r : SamplingRule F => rule_Service r = star) r) by done. rewrite !filter_nil, last_snoc. split; [| done].
    rewrite IHm. case_bool_decide as Hs; [done |]. rewrite (filter_cons_False (fun r : SamplingRule F => rule_Service r = service) r) by congruence. by rewrite app_nil_r.
  - rewrite (filter_cons_False (fun r : SamplingRule F => rule_Service r = star) r) by done. rewrite app_nil_r. split; [| done].
    destruct (decide (rule_Service r = service)) as [<- | Hn].
    + rewrite lookup_insert_eq, bool_decide_false by done. rewrite (filter_cons_True (fun r0 : SamplingRule F => rule_Service r0 = rule_Service r) r) by done. by rewrite filter_nil, last_snoc.
    + rewrite lookup_insert_ne, IHm by done. rewrite (filter_cons_False (fun r : SamplingRule F => rule_Service r = service) r) by done. by rewrite app_nil_r.
Qed.

Lemma rule_of_spec (rules : list (SamplingRule F)) c e : rule_of (NewPipeline rules c) e = rule_for rules (Service e).
Proof.
  unfold rule_of, NewPipeline, rule_for. destruct (compileSamplingRules rules) as [m d] eqn:E.
  destruct (buildScrubbers c). cbn [ruleMap defaultRule].
  pose proof (compile_spec rules (Service e)) as [Hm Hd]. rewrite E in Hm, Hd. cbn [fst snd] in Hm, Hd. rewrite Hm, Hd.
  case_bool_decide as Hs; [| done]. rewrite Hs. by destruct (last (filter (fun r : SamplingRule F => rule_Service r = star) rules)).
Qed.

Lemma sample_loop_spec rules c n entries :
  sample_loop at_least_one draw (NewPipeline rules c) n entries = sampled rules n entries.
Proof.
  revert n. induction entries as [| e entries IH]; intros n; [done |]. unfold sampled in *. rewrite imap_cons. cbn [concat sample_loop].
  rewrite rule_of_spec.
  assert (forall k b, drawn rules e = k -> b = kept rules n (e :: entries) 0 e ->
    (if b then [e] else []) ++ concat (imap (fun i e0 => if kept rules (n + length (omap (drawn rules) [e])) entries i e0 then [e0] else []) entries) =
    (if kept rules n (e :: entries) 0 e then [e] else []) ++
    concat (imap ((fun i e0 => if kept rules n (e :: entries) i e0 then [e0] else []) ∘ S) entries)) as Hstep.
  { intros k b _ ->. f_equal. f_equal. apply imap_ext. intros i e0 Hi. unfold compose, kept. cbn [take].
    destruct (drawn rules e0); [| done]. change (e :: take i entries) with ([e] ++ take i entries).
    by rewrite omap_app, length_app, Nat.add_assoc. }
  destruct (rule_for rules (Service e)) as [r |] eqn:Er; cycle 1.
  - assert (drawn rules e = None) as Hd by (unfold drawn; by rewrite Er). rewrite <- (Hstep None true Hd).
    + cbn. rewrite Hd. cbn. by rewrite Nat.add_0_r, IH.
    + unfold kept. by rewrite Hd.
  - destruct ((KeepErrors r && isErrorLevel (Level e)) || at_least_one (Rate r)) eqn:Ek.
    + assert (drawn rules e = None) as Hd by (unfold drawn; by rewrite Er, Ek). rewrite <- (Hstep None true Hd).
      * cbn. rewrite Hd. cbn. rewrite Nat.add_0_r, IH. destruct (KeepErrors r && isErrorLevel (Level e)); [done |]. cbn in Ek. by rewrite Ek.
      * unfold kept. by rewrite Hd.
    + assert (drawn rules e = Some (Rate r)) as Hd by (unfold drawn; by rewrite Er, Ek). apply orb_false_iff in Ek as [-> ->].
      rewrite <- (Hstep _ (draw n (Rate r)) Hd).
      * cbn. rewrite Hd. cbn. rewrite Nat.add_1_r, IH. by destruct (draw n (Rate r)).
      * unfold kept. rewrite Hd. cbn. by rewrite Nat.add_0_r.
Qed.

Lemma applySampling_spec rules c entries :
  applySampling at_least_one draw (NewPipeline rules c) entries = sampled rules 0 entries.
Proof.
  unfold applySampling. assert (samplingRules (NewPipeline rules c) = rules) as ->.
  { unfold NewPipeline. by destruct (compileSamplingRules rules), (buildScrubbers c). }
  case_bool_decide as Hr; [| apply sample_loop_spec]. subst rules. generalize O as n. intros n.
  rewrite <- (sample_loop_spec [] c). revert n. induction entries as [| e entries IH]; intros n; [done |].
  cbn [sample_loop]. rewrite rule_of_spec. cbn. f_equal. apply IH.
Qed.

(** One entry with the first [k] of its in-request logs. *)
Definition with_logs (e : Entry) (k : nat) : list Entry := e :: take k (expandInRequestLogs e).

Lemma expanded_len e : (length (expandInRequestLogs e) <= maxExpandedLogs)%nat.
Proof.
  unfold expandInRequestLogs. repeat case_match; cbn [length]; try lia. rewrite length_fmap, length_take. lia.
Qed.

Lemma with_logs_all e : with_logs e maxExpandedLogs = e :: expandInRequestLogs e.
Proof. unfold with_logs. by rewrite take_ge by apply expanded_len. Qed.

Lemma process_loop_groups (p : Pipeline (F:=F)) budget entries : 0 <= budget ->
  exists ks, length ks = length entries /\
    process_loop p budget entries = concat (zip_with with_logs (prepare p <$> entries) ks) /\
    len entries <= len (process_loop p budget entries) <= len entries + budget /\
    (len (process_loop p budget entries) < len entries + budget -> Forall (fun k => k = maxExpandedLogs) ks).
Proof.
  revert budget. induction entries as [| e entries IH]; intros budget Hb.
  { exists []. split; [done |]. split; [done |]. split; [cbn; lia | by constructor]. }
  cbn [process_loop]. set (e' := prepare p e).
  assert (forall k (xs : list Entry) b, xs = take k (expandInRequestLogs e') -> b = budget - len xs -> 0 <= b ->
    (b = 0 \/ k = maxExpandedLogs) ->
    exists ks, length ks = length (e :: entries) /\
      e' :: xs ++ process_loop p b entries = concat (zip_with with_logs (prepare p <$> (e :: entries)) ks) /\
      len (e :: entries) <= len (e' :: xs ++ process_loop p b entries) <= len (e :: entries) + budget /\
      (len (e' :: xs ++ process_loop p b entries) < len (e :: entries) + budget -> Forall (fun k => k = maxExpandedLogs) ks)) as Hstep.
  { intros k xs b Hxs Hbb Hb0 Hk. destruct (IH b Hb0) as (ks & Hlen & Heq & Hle & Hlt). exists (k :: ks).
    cbn [length fmap list_fmap zip_with concat]. fold e'. unfold with_logs at 1. rewrite <- Hxs, Heq. split; [by rewrite Hlen |].
    split; [done |]. rewrite <- Heq. rewrite !len_cons, !len_app in *. split; [pose proof (len_nonneg xs); lia |]. intros Hs.
    constructor; [| apply Hlt; lia]. destruct Hk as [-> | ->]; [| done]. lia. }
  destruct (negb (bool_decide (Body e' = [])) && (0 <? budget)) eqn:Hc.
  - apply andb_true_iff in Hc as [_ Hpos]. apply Z.ltb_lt in Hpos.
    destruct (decide (len (expandInRequestLogs e') <= budget)) as [Hfit | Hcut].
    + rewrite take_ge by (unfold len in Hfit; lia). apply (Hstep maxExpandedLogs); [| lia | lia | by right].
      by rewrite take_ge by apply expanded_len.
    + apply (Hstep (Z.to_nat budget)); [done | lia | |]; [| left]; rewrite len_take; lia.
  - destruct (bool_decide (Body e' = [])) eqn:Hbody.
    + apply bool_decide_eq_true in Hbody. apply (Hstep maxExpandedLogs [] budget); [| rewrite len_nil; lia | lia | by right].
      unfold expandInRequestLogs. by rewrite bool_decide_true.
    + cbn in Hc. apply Z.ltb_ge in Hc. apply (Hstep O [] budget); [done | rewrite len_nil; lia | lia | left; lia].
Qed.

Lemma sampled_le (rules : list (SamplingRule F)) n entries : (length (sampled rules n entries) <= length entries)%nat.
Proof.
  unfold sampled. generalize (kept rules n entries) as f. intros f. revert f.
  induction entries as [| e entries IH]; intros f; [done |]. rewrite imap_cons. cbn [concat length].
  rewrite length_app. specialize (IH (f ∘ S)). unfold compose in *. destruct (f 0%nat e); cbn [length]; lia.
Qed.

Lemma process_groups (rules : list (SamplingRule F)) c entries :
  let p := NewPipeline rules c in
  let out := Process at_least_one draw p entries in
  let input := sampled rules 0 entries in
  exists ks, length ks = length input /\
    out = concat (zip_with with_logs (prepare p <$> input) ks) /\
    len out <= Z.max (len entries) maxProcessedEntries /\
    (len out < maxProcessedEntries -> Forall (fun k => k = maxExpandedLogs) ks).
Proof.
  intros p out input. subst out. assert (applySampling at_least_one draw p entries = input) as Hs by apply applySampling_spec.
  unfold Process. rewrite Hs.
  destruct (process_loop_groups p (Z.max 0 (maxProcessedEntries - len input)) input) as (ks & Hl & Heq & Hle & Hlt); [lia |].
  exists ks. split; [done |]. split; [done |]. assert (len input <= len entries) by (pose proof (sampled_le rules 0 entries); unfold len; fold input in H; lia).
  split; [lia |]. intros Hlen. apply Hlt. lia.
Qed.

(** ** Specification of redaction *)

(** Nothing that [q] matches is left in the texts of an entry, nor in its body as deep as
    scrubbing goes; there the sensitive fields are filtered too. *)
Definition redacted (c : PIIConfig) (q : re) (e : Entry) : Prop :=
  clean q (Message e) /\ clean q (ErrorMessage e) /\
  (Body e <> [] -> exists v, UnmarshalAny (Body e) = Some v /\
    (forall n s, inside v n (VString s) -> (n <= maxScrubDepth)%nat -> clean q s) /\
    (forall n m k u, inside v n (VObject m) -> (n <= maxScrubDepth)%nat -> (k, u) ∈ m ->
      ToLower k ∈ ToLower <$> SensitiveFields c -> u = VString filteredValue)).

Lemma buildScrubbers_patterns c p : p ∈ (buildScrubbers c).1 -> p ∈ pii_patterns.
Proof.
  unfold buildScrubbers, pii_patterns. cbn [fst].
  destruct (ScrubCreditCards c), (ScrubEmails c), (ScrubPhones c), (ScrubSSN c); cbn [app];
    rewrite ?elem_of_cons; intuition; by apply elem_of_nil in H.
Qed.

Lemma buildScrubbers_fields c k : k ∈ (buildScrubbers c).2 <-> k ∈ ToLower <$> SensitiveFields c.
Proof.
  unfold buildScrubbers. cbn [snd]. induction (SensitiveFields c) as [| f l IH] using rev_ind; [set_solver |].
  rewrite foldl_app, fmap_app. cbn [foldl fmap list_fmap]. set_solver.
Qed.

Lemma NewPipeline_parts (rules : list (SamplingRule F)) c :
  piiConfig (NewPipeline rules c) = c /\ scrubPatterns (NewPipeline rules c) = (buildScrubbers c).1 /\
  sensitive (NewPipeline rules c) = (buildScrubbers c).2.
Proof. unfold NewPipeline. by destruct (compileSamplingRules rules), (buildScrubbers c). Qed.

Lemma scrubEntry_redacted `{!BodyCodecOk} (rules : list (SamplingRule F)) c q e :
  Enabled c = true -> q ∈ (buildScrubbers c).1 -> (Body e <> [] -> is_Some (UnmarshalAny (Body e))) ->
  redacted c q (scrubEntry (NewPipeline rules c) e).
Proof.
  intros Hen Hq Hb. destruct (NewPipeline_parts rules c) as (Hc & Hp & Hs).
  pose proof (buildScrubbers_patterns c) as Hps. unfold scrubEntry. rewrite Hc, Hp, Hs, Hen. cbn [negb].
  assert ((buildScrubbers c).1 <> []) as Hne by (intros Hn; rewrite Hn in Hq; by apply elem_of_nil in Hq).
  rewrite (bool_decide_false ((buildScrubbers c).1 = [])) by done. cbn [andb].
  assert (forall m, clean q (scrubString m (buildScrubbers c).1)) as Hclean by (intros m; by apply scrubString_clean).
  assert (forall e1, Message e1 = scrubString (Message e) (buildScrubbers c).1 ->
    ErrorMessage e1 = scrubString (ErrorMessage e) (buildScrubbers c).1 ->
    Body e1 = (if bool_decide (Body e = []) then [] else scrubBodyWith (Body e) (buildScrubbers c).1 (buildScrubbers c).2) -> redacted c q e1) as Hr.
  { intros e1 H1 H2 H3. split; [by rewrite H1 |]. split; [by rewrite H2 |]. rewrite H3. case_bool_decide as Hbe; [done |].
    intros _. destruct (Hb Hbe) as [v0 Hv0]. exists (scrubValue [] v0 (buildScrubbers c).1 (buildScrubbers c).2 0).
    split; [by apply scrubBodyWith_value |]. split.
    - intros n s Hi Hn. by apply (scrub_string_clean (buildScrubbers c).1 (buildScrubbers c).2 Hps v0 [] n).
    - intros n m k u Hi Hn Hk Hf. eapply (scrub_field_filtered (buildScrubbers c).1 (buildScrubbers c).2); [exact Hi | done | exact Hk |].
      by apply buildScrubbers_fields. }
  assert (forall m1 m2, Body (set ErrorMessage m1 (set Message m2 e)) = Body e) as Hbody by (intros m1 m2; by destruct e).
  cbv zeta. rewrite Hbody.
  case_bool_decide as Hbe; apply Hr; by destruct e.
Qed.

Lemma sampled_elem (rules : list (SamplingRule F)) n entries e : e ∈ sampled rules n entries -> e ∈ entries.
Proof.
  unfold sampled. rewrite list_elem_of_In, in_concat. intros (l & Hl & He). apply list_elem_of_In in Hl, He.
  apply list_elem_of_lookup in Hl as [i Hi].
  rewrite list_lookup_imap in Hi. destruct (entries !! i) as [e0 |] eqn:E; [| done]. injection Hi as <-.
  destruct (kept rules n entries i e0); [| by apply elem_of_nil in He]. apply list_elem_of_singleton in He as ->.
  by eapply list_elem_of_lookup_2.
Qed.

Lemma computeErrorFingerprint_body e : Body (computeErrorFingerprint e) = Body e.
Proof. unfold computeErrorFingerprint. case_match; [done |]. by destruct e. Qed.

(** What the pipeline puts out is redacted, the logs it expands included. *)
Lemma process_redacted `{!BodyCodecOk} (rules : list (SamplingRule F)) c q entries e :
  Enabled c = true -> q ∈ (buildScrubbers c).1 ->
  Forall (fun e => Body e <> [] -> is_Some (UnmarshalAny (Body e))) entries ->
  e ∈ Process at_least_one draw (NewPipeline rules c) entries -> redacted c q e.
Proof.
  intros Hen Hq Hbs He. destruct (process_groups rules c entries) as (ks & _ & Hout & _). rewrite Hout in He. clear Hout.
  rewrite list_elem_of_In, in_concat in He. destruct He as (l & Hl & He). apply list_elem_of_In in Hl, He.
  apply list_elem_of_lookup in Hl as [i Hi].
  apply lookup_zip_with_Some in Hi as (e1 & k & -> & Hi & _). apply list_lookup_fmap_Some in Hi as (e0 & -> & Hi).
  assert (e0 ∈ entries) as He0 by (eapply sampled_elem, list_elem_of_lookup_2, Hi).
  assert (redacted c q (prepare (NewPipeline rules c) e0)) as Hr.
  { apply scrubEntry_redacted; [done | done |]. rewrite list.Forall_forall in Hbs.
    destruct (isErrorLevel (Level e0)); rewrite ?computeErrorFingerprint_body; by apply Hbs. }
  set (e1 := prepare (NewPipeline rules c) e0) in *.
  apply elem_of_cons in He as [-> | He]; [done |]. apply elem_of_take in He as (j & He & _).
  apply list_elem_of_lookup_2 in He. unfold expandInRequestLogs in He.
  case_bool_decide as Hbe; [by apply elem_of_nil in He |].
  destruct (negb (contains_text (Body e1) inRequestLogsKey)); [by apply elem_of_nil in He |].
  destruct (UnmarshalLogs (Body e1)) as [logs |] eqn:El; [| by apply elem_of_nil in He].
  apply list_elem_of_fmap in He as (lg & -> & Hlg). apply elem_of_take in Hlg as (j' & Hlg & _). apply list_elem_of_lookup_2 in Hlg.
  destruct Hr as (_ & _ & Hr). destruct (Hr Hbe) as (v & Hv & Hstr & _).
  split; [| split; [apply clean_nil | by intros ?]]. change (Message (child_of e1 lg)) with (l_Message lg).
  destruct (logs_from_body _ _ _ lg Hv El Hlg) as [-> | Hin]; [apply clean_nil |]. apply (Hstr 3%nat); [done |].
  unfold maxScrubDepth. lia.
Qed.

End Spec.

(** ** A codec *)

(** Values as trees over texts, to have a codec with the documented laws. *)
Fixpoint to_tree (v : value) : gen_tree (bytes + Z) :=
  match v with
  | VNull => GenNode 0 []
  | VBool b => GenNode (if b then 2 else 1) []
  | VNumber n => GenLeaf (inr n)
  | VString s => GenLeaf (inl s)
  | VArray l => GenNode 3 (to_tree <$> l)
  | VObject m => GenNode 4 ((fun kv => GenNode 0 [GenLeaf (inl kv.1); to_tree kv.2]) <$> m)
  end.

Fixpoint of_tree (t : gen_tree (bytes + Z)) : value :=
  match t with
  | GenLeaf (inr n) => VNumber n
  | GenLeaf (inl s) => VString s
  | GenNode 1 [] => VBool false
  | GenNode 2 [] => VBool true
  | GenNode 3 l => VArray (of_tree <$> l)
  | GenNode 4 l =>
      VObject ((fun t => match t with GenNode _ [GenLeaf (inl k); t] => (k, of_tree t) | _ => ([], VNull) end) <$> l)
  | _ => VNull
  end.

Lemma of_to_tree v : of_tree (to_tree v) = v.
Proof.
  induction v as [| b | n | s | l IH | m IH] using value_rect'; cbn [to_tree of_tree]; try done; [by destruct b | |]; f_equal;
    rewrite <- list_fmap_compose; (etrans; [| apply list_fmap_id]); apply list_fmap_ext; intros i x Hx;
    rewrite list.Forall_forall in IH; apply list_elem_of_lookup_2 in Hx.
  - by apply IH.
  - destruct x as [k c]. cbn. f_equal. by apply (IH (k, c)).
Qed.

(** The logs of a document {"logs": [{"message": m}, ...]}. *)
Definition logs_of (v : value) : option (list InRequestLog) :=
  match v with
  | VObject [(_, VArray l)] =>
      mapM (fun c => match c with VObject [(_, VString m)] => Some (mkInRequestLog [] m 7) | _ => None end) l
  | _ => None
  end.

Definition tree_decode (b : bytes) : option value :=
  match drop (length inRequestLogsKey) b with
  | [Zpos p] => t ← decode p; if decodable (of_tree t) then Some (of_tree t) else None
  | _ => None
  end.

Definition tree_codec : BodyCodec := {|
  UnmarshalAny := tree_decode;
  UnmarshalLogs := fun b => v ← tree_decode b; logs_of v;
  MarshalAny := fun v =>
    if decodable v then Some (inRequestLogsKey ++ [Zpos (encode (to_tree v))]) else None
|}.

Lemma tree_codec_ok : @BodyCodecOk tree_codec.
Proof.
  split; unfold UnmarshalAny, UnmarshalLogs, MarshalAny, tree_codec.
  - intros b v. unfold tree_decode. destruct (drop _ b) as [| [| p | p] [|]]; try done.
    destruct (decode p) as [t |]; [| done]. cbn. destruct (decodable (of_tree t)) eqn:E; [| done]. by intros [= <-].
  - intros v Hv. rewrite Hv. eexists. split; [done |]. unfold tree_decode. rewrite drop_app_length, decode_encode. cbn. by rewrite of_to_tree, Hv.
  - intros b v logs l -> Hl Hin. cbn in Hl. unfold logs_of in Hl. destruct v as [| | | | | [| [k [| | | | a |]] [|]]]; try done.
    right. apply mapM_Some in Hl. apply list_elem_of_lookup in Hin as [i Hi].
    destruct (Forall2_lookup_r _ _ _ _ _ Hl Hi) as (c & Hc & He). apply list_elem_of_lookup_2 in Hc.
    destruct c as [| | | | | [| [k' [| | | s | |]] [|]]]; try done. injection He as <-. cbn.
    eapply inside_object; [apply list_elem_of_here |]. eapply inside_array; [exact Hc |].
    eapply inside_object; [apply list_elem_of_here |]. constructor.
Qed.

(** ** Claims *)

Section Claims.
Context {U : Unicode} {M : MD5} {J : BodyCodec} {F : Type}.
Context (at_least_one : F -> bool) (draw : nat -> F -> bool).

(** C36: Nothing of what the configuration protects leaves the pipeline: in every entry it puts
    out, sampled or expanded from the body of another, the message and the error message hold
    no match of an enabled pattern, and neither does any string of the body within the depth
    that is scrubbed, where every sensitive field is filtered - provided the decoder accepts
    the bodies that come in. *)
Theorem process_redacts `{!BodyCodecOk} (rules : list (SamplingRule F)) (c : PIIConfig) (q : re) (entries : list Entry) :
  Enabled c = true -> q ∈ (buildScrubbers c).1 ->
  Forall (fun e => Body e <> [] -> is_Some (UnmarshalAny (Body e))) entries ->
  Forall (redacted c q) (Process at_least_one draw (NewPipeline rules c) entries).
Proof. intros Hen Hq Hb. apply list.Forall_forall. intros e He. by eapply process_redacted. Qed.

(** What the pipeline puts out: the entries the sampling rules keep (the last rule for the
    service, else the last default rule; errors that are to be kept, always), in their order,
    each followed by its in-request logs. The whole is never more than the larger of the
    batch and 10000 entries, and only when it reaches 10000 are logs cut. *)
Theorem process_exact (rules : list (SamplingRule F)) (c : PIIConfig) (entries : list Entry) :
  let p := NewPipeline rules c in
  let out := Process at_least_one draw p entries in
  let input := sampled at_least_one draw rules 0 entries in
  len out <= Z.max (len entries) maxProcessedEntries /\
  (exists ks, length ks = length input /\ out = concat (zip_with with_logs (prepare p <$> input) ks)) /\
  (len out < maxProcessedEntries -> out = concat ((fun e => prepare p e :: expandInRequestLogs (prepare p e)) <$> input)).
Proof.
  cbv zeta. destruct (process_groups at_least_one draw rules c entries) as (ks & Hl & Hout & Hle & Hall).
  split; [done |]. split; [by exists ks |]. intros Hlt. specialize (Hall Hlt). rewrite Hout. clear -Hl Hall. revert ks Hl Hall.
  induction (sampled at_least_one draw rules 0 entries) as [| e es IH]; intros [| k ks]; try done.
  intros [= Hl] [-> Hks]%Forall_cons. cbn [fmap list_fmap zip_with concat]. rewrite with_logs_all. f_equal. by apply IH.
Qed.

(** ** Limits of redaction *)

(** A body the decoder refuses keeps its text, and so do the logs read from it: decoding into
    [any] refuses a number out of the range of a float64 anywhere in the document, decoding
    the logs does not look at it. *)
Lemma refused_body_leaks (p : Pipeline (F:=F)) e l :
  UnmarshalAny (Body e) = None -> Body e <> [] -> contains_text (Body e) inRequestLogsKey = true ->
  UnmarshalLogs (Body e) = Some [l] ->
  Body (scrubEntry p e) = Body e /\ l_Message l ∈ Message <$> expandInRequestLogs (scrubEntry p e).
Proof.
  intros Hu Hb Hc Hl. assert (Body (scrubEntry p e) = Body e) as Heq.
  { unfold scrubEntry. destruct (negb _); [done |]. destruct (_ && _); [done |]. cbv zeta. case_bool_decide; [done |].
    change (scrubBodyWith (Body e) (scrubPatterns p) (sensitive p) = Body e). unfold scrubBodyWith. by rewrite Hu. }
  split; [done |]. unfold expandInRequestLogs. rewrite Heq, bool_decide_false, Hc, Hl by done. cbn. set_solver.
Qed.

(** [n] arrays around a value. *)
Fixpoint in_arrays (n : nat) (v : value) : value := match n with O => v | S n => VArray [in_arrays n v] end.

(** A value more than 32 levels deep is left as it is. *)
Lemma deep_value_leaks v patterns fields : scrubValue [] (in_arrays 33 v) patterns fields 0 = in_arrays 33 v.
Proof. by destruct v. Qed.

End Claims.

(** The digest of nothing but the text. *)
Definition plain_md5 : MD5 := fun s => s.

Definition leaky_value : value :=
  VObject [(str "logs", VArray [VObject [(str "message", VString (str "ssn 123-45-6789"))]])].

Definition leaky_body : bytes := default [] (MarshalAny (BodyCodec := tree_codec) leaky_value).

Definition leaky_entry : Entry :=
  set Message (str "mail joe@example.com") (set Body leaky_body (set Ts 100 Entry0)).

Definition half_rule : SamplingRule bool := mkSamplingRule star false true.

Lemma process_redacts_witness :
  Forall (redacted (U := ascii_unicode) (J := tree_codec) DefaultPIIConfig ssnRe)
    (Process (U := ascii_unicode) (M := plain_md5) (J := tree_codec) id (fun n _ => bool_decide (n = 0%nat))
      (NewPipeline (U := ascii_unicode) [half_rule] DefaultPIIConfig) [leaky_entry; leaky_entry]) /\
  ((fun e => (Ts e, Level e, Message e)) <$>
    Process (U := ascii_unicode) (M := plain_md5) (J := tree_codec) id (fun n _ => bool_decide (n = 0%nat))
      (NewPipeline (U := ascii_unicode) [half_rule] DefaultPIIConfig) [leaky_entry; leaky_entry])
    = [(100, [], str "mail [FILTERED]"); (107, str "info", str "ssn [FILTERED]")].
Proof.
  split; [| by vm_compute].
  apply (process_redacts (U := ascii_unicode) (M := plain_md5) (J := tree_codec) id (fun n _ => bool_decide (n = 0%nat))
    (H := tree_codec_ok) [half_rule] DefaultPIIConfig ssnRe [leaky_entry; leaky_entry]).
  - reflexivity.
  - change ((buildScrubbers (U := ascii_unicode) DefaultPIIConfig).1) with [creditCardRe; emailRe; phoneRe; ssnRe].
    do 3 apply list_elem_of_further. apply list_elem_of_here.
  - assert (is_Some (UnmarshalAny (BodyCodec := tree_codec) (Body leaky_entry))) as Hs by (exists leaky_value; by vm_compute).
    apply Forall_cons_2; [by intros _ |]. apply Forall_cons_2; [by intros _ |]. apply Forall_nil_2.
Defined.
