(* ===== verification/Floats.v ===== *)
(** * float64 and time.ParseDuration

    Go's float64 is the binary64 format of IEEE 754: [SpecFloat] of the Standard Library
    with 53 bits of precision, every operation rounded to nearest, ties to even.  The
    duration syntax of package time needs both integers and floats. *)

From stdpp Require Import base list gmap strings numbers sorting.
From Stdlib Require Import ZArith Lia SpecFloat.
From S2P Require Import Prelude Index.

(** ** float64 *)

Definition float : Type := spec_float.

#[export] Instance float_eq_dec : EqDecision float.
Proof. solve_decision. Defined.

(** [float64(n)] of an integer. *)
Definition of_int (n : Z) : float := binary_normalize 53 1024 n 0 false.

Definition fadd : float -> float -> float := SFadd 53 1024.
Definition fsub : float -> float -> float := SFsub 53 1024.
Definition fmul : float -> float -> float := SFmul 53 1024.
Definition fdiv : float -> float -> float := SFdiv 53 1024.
Definition fabs : float -> float := SFabs.

(** The comparisons of Go: every one but [!=] is false of a NaN. *)
Definition flt (x y : float) : bool := SFltb x y.
Definition fle (x y : float) : bool := SFleb x y.
Definition feq (x y : float) : bool := SFeqb x y.

Definition zero : float := of_int 0.

(** A decimal literal: the nearest float64 to [n / d]. *)
Definition literal (n d : Z) : float := fdiv (of_int n) (of_int d).

(** [math.Ceil], as an integer; zero for what is not finite. *)
Definition ceil (x : float) : Z :=
  match x with
  | S754_finite s m e =>
      let n := if s then Z.neg m else Z.pos m in
      if 0 <=? e then n * 2 ^ e else - ((- n) / 2 ^ (- e))
  | _ => 0
  end.

(** Conversion to an integer, towards zero; zero for what is not finite. *)
Definition trunc (x : float) : Z :=
  match x with
  | S754_finite s m e =>
      let n := if 0 <=? e then Z.pos m * 2 ^ e else Z.pos m / 2 ^ (- e) in if s then - n else n
  | _ => 0
  end.

(** The order of [sort.Float64s]: NaNs first. *)
Definition is_nan (x : float) : bool := negb (feq x x).
Definition float_less (x y : float) : bool := flt x y || (is_nan x && negb (is_nan y)).
Definition float_le (x y : float) : Prop := float_less y x = false.

#[export] Instance float_le_dec x y : Decision (float_le x y).
Proof. unfold float_le. apply _. Defined.

(** [sort.Float64s] *)
Definition Float64s : list float -> list float := merge_sort float_le.

(** ** Durations *)

Definition nanosecond : Z := 1.
Definition microsecond : Z := 1000.
Definition millisecond : Z := 1000 * microsecond.
Definition second : Z := 1000 * millisecond.
Definition minute : Z := 60 * second.
Definition hour : Z := 60 * minute.

Definition unitMap (u : bytes) : option Z :=
  if bool_decide (u = str "ns") then Some nanosecond
  else if bool_decide (u = str "us") || bool_decide (u = [194; 181; 115]) || bool_decide (u = [206; 188; 115]) then Some microsecond
  else if bool_decide (u = str "ms") then Some millisecond
  else if bool_decide (u = str "s") then Some second
  else if bool_decide (u = str "m") then Some minute
  else if bool_decide (u = str "h") then Some hour
  else None.

Definition is_digit (c : Z) : bool := cont 48 57 c.

(** [leadingInt] from [x] on: [None] is an overflow. *)
Fixpoint leadingInt (s : bytes) (x : Z) : option (Z * bytes) :=
  match s with
  | c :: t =>
      if is_digit c then
        if 2 ^ 63 / 10 <? x then None
        else
          let x := x * 10 + (c - 48) in
          if 2 ^ 63 <? x then None else leadingInt t x
      else Some (x, s)
  | [] => Some (x, s)
  end.

(** [leadingFraction]: the digits that fit, and ten to their number. *)
Fixpoint leadingFraction (s : bytes) (x : Z) (scale : float) (overflow : bool) : Z * float * bytes :=
  match s with
  | c :: t =>
      if is_digit c then
        if overflow then leadingFraction t x scale true
        else if (2 ^ 63 - 1) / 10 <? x then leadingFraction t x scale true
        else
          let y := x * 10 + (c - 48) in
          if 2 ^ 63 <? y then leadingFraction t x scale true
          else leadingFraction t y (fmul scale (of_int 10)) false
      else (x, scale, s)
  | [] => (x, scale, s)
  end.

Fixpoint unit_of (s : bytes) : bytes * bytes :=
  match s with
  | c :: t => if (c =? 46) || is_digit c then ([], s) else let '(u, rest) := unit_of t in (c :: u, rest)
  | [] => ([], [])
  end.

(** One number with its unit: what it adds, and the rest. *)
Definition duration_part (s : bytes) : option (Z * bytes) :=
  match s with
  | [] => None
  | c :: _ =>
      if negb ((c =? 46) || is_digit c) then None
      else
        '(v, s1) ← leadingInt s 0;
        let pre := negb (bool_decide (length s = length s1)) in
        let '(f, scale, s2, post) :=
          match s1 with
          | 46 :: t => let '(f, scale, s2) := leadingFraction t 0 (of_int 1) false in
                       (f, scale, s2, negb (bool_decide (length t = length s2)))
          | _ => (0, of_int 1, s1, false)
          end in
        if negb pre && negb post then None
        else
          let '(u, rest) := unit_of s2 in
          if bool_decide (u = []) then None
          else
            unit ← unitMap u;
            if 2 ^ 63 / unit <? v then None
            else
              let v := v * unit in
              if 0 <? f then
                let v := uint64 (v + trunc (fmul (of_int f) (fdiv (of_int unit) scale))) in
                if 2 ^ 63 <? v then None else Some (v, rest)
              else Some (v, rest)
  end.

(** The loop of [ParseDuration]; every round takes at least one byte. *)
Fixpoint duration_loop (fuel : nat) (s : bytes) (d : Z) : option Z :=
  match fuel, s with
  | S fuel, _ :: _ =>
      '(v, s) ← duration_part s;
      let d := uint64 (d + v) in
      if 2 ^ 63 <? d then None else duration_loop fuel s d
  | _, _ => Some d
  end.

(** [time.ParseDuration], in nanoseconds *)
Definition ParseDuration (s : bytes) : option Z :=
  let '(neg, s) :=
    match s with
    | 45 :: t => (true, t)
    | 43 :: t => (false, t)
    | _ => (false, s)
    end in
  if bool_decide (s = str "0") then Some 0
  else if bool_decide (s = []) then None
  else
    d ← duration_loop (length s) s 0;
    if neg then Some (int64 (- d)) else if 2 ^ 63 - 1 <? d then None else Some d.

(** ** Facts *)

Lemma feq_ltb_le x y : fle x y = flt x y || feq x y.
Proof. unfold fle, flt, feq, SFleb, SFltb, SFeqb. by destruct (SFcompare x y) as [[] |]. Qed.

(** Comparisons are false of a NaN. *)
Lemma nan_compares y : flt S754_nan y = false /\ flt y S754_nan = false /\ feq S754_nan y = false /\ feq y S754_nan = false.
Proof. by destruct y. Qed.

Lemma duration_part_shorter s v rest : duration_part s = Some (v, rest) -> (length rest < length s)%nat.
Proof.
  assert (forall s x v t, leadingInt s x = Some (v, t) -> (length t <= length s)%nat) as Hi.
  { intros s0. induction s0 as [| c t IH]; intros x v0 t0; cbn [leadingInt]; [by intros [= _ <-] |].
    repeat case_match; try done; [intros Ht%IH; cbn; lia | by intros [= _ <-]]. }
  assert (forall s x sc o f sc' t, leadingFraction s x sc o = (f, sc', t) -> (length t <= length s)%nat) as Hf.
  { intros s0. induction s0 as [| c t IH]; intros x sc o f sc' t0; cbn [leadingFraction]; [by intros [= _ _ <-] |].
    repeat case_match; try (intros Ht%IH; cbn; lia). by intros [= _ _ <-]. }
  assert (forall s u t, unit_of s = (u, t) -> u <> [] -> (length t < length s)%nat) as Hu.
  { intros s0. induction s0 as [| c t IH]; intros u t0; cbn [unit_of]; [by intros [= <- _] |].
    destruct ((c =? 46) || is_digit c); [by intros [= <- _] |]. destruct (unit_of t) as [u1 t1] eqn:E.
    intros [= _ <-] _. destruct (decide (u1 = [])) as [-> | Hne]; [| specialize (IH u1 t1 eq_refl Hne); cbn; lia].
    destruct t as [| c' t']; cbn [unit_of] in E; [by injection E as <-; cbn; lia |].
    destruct ((c' =? 46) || is_digit c'); [injection E as <-; cbn; lia |]. by destruct (unit_of t'). }
  unfold duration_part. destruct s as [| c s]; [done |]. destruct (negb _); [done |].
  destruct (leadingInt (c :: s) 0) as [[v0 s1] |] eqn:Ei; [| done]. apply Hi in Ei. cbn [mbind option_bind].
  assert (forall t f s2 (post : bool), (length s2 <= length s1)%nat ->
    (if negb (negb (bool_decide (length (c :: s) = length s1))) && negb post then None
     else let '(u, rest) := unit_of s2 in
          if bool_decide (u = []) then None
          else unit ← unitMap u;
            if 2 ^ 63 / unit <? v0 then None
            else
              let v := v0 * unit in
              if 0 <? f then
                let v := uint64 (v + trunc (fmul (of_int f) (fdiv (of_int unit) t))) in
                if 2 ^ 63 <? v then None else Some (v, rest)
              else Some (v, rest)) = Some (v, rest) -> (length rest < length (c :: s))%nat) as Hrest.
  { intros t f s2 post Hl. destruct (_ && _); [done |]. destruct (unit_of s2) as [u r] eqn:Eu.
    case_bool_decide as Hne; [done |]. apply Hu in Eu; [| done].
    destruct (unitMap u) as [unit |]; [| done]. cbn [mbind option_bind]. destruct (_ <? _); [done |].
    cbv zeta. destruct (0 <? f); [destruct (_ <? _); [done |] |]; intros [= _ <-]; cbn [length] in *; lia. }
  destruct s1 as [| c1 t1]; [by apply Hrest |].
  destruct (decide (c1 = 46)) as [-> | Hn].
  - destruct (leadingFraction t1 0 (of_int 1) false) as [[f sc] s2] eqn:Ef. apply Hf in Ef.
    apply Hrest. cbn [length] in *. lia.
  - assert (forall A (x y : A), match c1 with 46 => x | _ => y end = y) as Hm.
    { intros A x y. repeat case_match; try done. }
    intros He. apply (Hrest (of_int 1) 0 (c1 :: t1) false); [done |]. revert He. by rewrite Hm.
Qed.

(** ** Integers that are exact *)

Lemma digits_iter k m : Z.pos (digits2_pos (Pos.iter xO m k)) = Z.pos (digits2_pos m) + Z.pos k.
Proof.
  revert m. induction k as [| k IH] using Pos.peano_ind; intros m.
  - cbn. lia.
  - rewrite Pos.iter_succ. cbn [digits2_pos]. rewrite Pos2Z.inj_succ, IH. lia.
Qed.

Lemma iter_xO k m : Z.pos (Pos.iter xO m k) = Z.pos m * 2 ^ Z.pos k.
Proof.
  induction k as [| k IH] using Pos.peano_ind; [cbn [Pos.iter]; lia |].
  rewrite Pos.iter_succ, Pos2Z.inj_xO, IH, Pos2Z.inj_succ, Z.pow_succ_r by lia. lia.
Qed.

Lemma digits_lower m : 2 ^ (Z.pos (digits2_pos m) - 1) <= Z.pos m.
Proof.
  induction m as [m IH | m IH |]; cbn [digits2_pos]; [| | done].
  - rewrite Pos2Z.inj_succ, Pos2Z.inj_xI. replace (Z.succ _ - 1) with (Z.succ (Z.pos (digits2_pos m) - 1)) by lia.
    rewrite Z.pow_succ_r by lia. lia.
  - rewrite Pos2Z.inj_succ, (Pos2Z.inj_xO m). replace (Z.succ _ - 1) with (Z.succ (Z.pos (digits2_pos m) - 1)) by lia.
    rewrite Z.pow_succ_r by lia. lia.
Qed.

(** A mantissa of 53 digits is left as it is. *)
Lemma round_exact s m e : Z.pos (digits2_pos m) = 53 -> - 1074 <= e <= 971 ->
  binary_round_aux 53 1024 s (Z.pos m) e loc_Exact = S754_finite s m e.
Proof.
  intros Hd He. unfold binary_round_aux, shr_fexp. cbn [shr_record_of_loc Zdigits2]. rewrite Hd.
  assert (fexp 53 1024 (53 + e) - e = 0) as Hf by (unfold fexp, emin; lia). rewrite Hf. cbn [shr shr_m loc_of_shr_record round_nearest_even].
  unfold Zdigits2. rewrite Hd, Hf. cbn [shr shr_m]. by replace (e <=? 1024 - 53) with true by lia.
Qed.

Lemma round_small s m : Z.pos m < 2 ^ 53 ->
  exists mz e, binary_round 53 1024 s m 0 = S754_finite s mz e /\ (if 0 <=? e then Z.pos mz * 2 ^ e else Z.pos mz / 2 ^ (- e)) = Z.pos m.
Proof.
  intros Hm. assert (Z.pos (digits2_pos m) <= 53) as Hd.
  { pose proof (digits_lower m). apply Znot_gt_le. intros Hg. assert (2 ^ 53 <= 2 ^ (Z.pos (digits2_pos m) - 1)); [| lia].
    apply Z.pow_le_mono_r; lia. }
  unfold binary_round. rewrite Z.add_0_r. unfold fexp, emin.
  replace (Z.max (Z.pos (digits2_pos m) - 53) (3 - 1024 - 53)) with (Z.pos (digits2_pos m) - 53) by lia.
  unfold shl_align. rewrite Z.sub_0_r. destruct (Z.pos (digits2_pos m) - 53) as [| p | p] eqn:E; [| lia |].
  - rewrite round_exact by lia. exists m, 0. split; [done |]. cbn. lia.
  - rewrite round_exact by (rewrite ?digits_iter; lia). exists (Pos.iter xO m p), (Z.neg p). split; [done |].
    cbn [Z.leb Z.compare]. rewrite iter_xO. change (- Z.neg p) with (Z.pos p). apply Z.div_mul. lia.
Qed.

(** An integer below 2^53 becomes a float64 of its value and comes back. *)
Lemma of_int_exact n : Z.abs n < 2 ^ 53 ->
  trunc (of_int n) = n /\ match of_int n with S754_zero _ | S754_finite _ _ _ => True | _ => False end.
Proof.
  intros Hn. unfold of_int, binary_normalize. destruct n as [| m | m]; [done | |].
  - destruct (round_small false m) as (mz & e & -> & Ht); [lia |]. split; [| done]. unfold trunc. by rewrite Ht.
  - destruct (round_small true m) as (mz & e & -> & Ht); [lia |]. split; [| done]. unfold trunc. by rewrite Ht.
Qed.
