(* ===== verification/Conditions.v ===== *)
(** * Watch conditions and metrics (internal/watcher)

    watch_conditions.go, watch_metrics.go, watch_helpers.go: a condition is a tree of
    all/any/not over typed leaves, a leaf measures the log store and compares in float64.
    The summaries, texts for people, are left out.
    Main results: a tree's verdict is the boolean formula it writes, every leaf evaluated
    in order whatever the others say, and its error the first one of a leaf. *)

From stdpp Require Import base list gmap strings numbers sorting.
From Stdlib Require Import ZArith Lia.
From S2P Require Import Prelude Index Query Guard Floats.

(** ** Data *)

Record Leaf := mkLeaf {
  c_Type : bytes;
  c_Metric : bytes;
  c_Op : bytes;
  c_Service : bytes;
  c_Endpoint : bytes;
  c_Value : float;
  BaselineMultiple : float;
  ChangePct : float;
  CompareWindow : bytes;
  c_Field : bytes;
  Distinct : bool;
  c_Query : bytes;
  Window : bytes
}.

(** A node; a child may be a nil pointer, which JSON writes as null. *)
Inductive Condition := mkCondition (All Any : list (option Condition)) (Not : option Condition) (leaf : Leaf).

Record ConditionResult := mkResult { Breached : bool; r_Value : float }.

Record WatchBaseline := mkBaseline {
  ErrorRate : float;
  AvgResponseMs : float;
  P95ResponseMs : float;
  b_LogCount : Z;
  b_ErrorCount : Z;
  b_SQLCount : float;
  b_CacheHitRate : float;
  WindowDuration : bytes
}.

Record LogCountParams := mkCountParams { Since : Z; Until : Z; lc_Service : bytes; lc_Level : bytes; lc_Environment : bytes }.

(** The fields a watch sets of the parameters, and reads of the results. *)
Record SummarySearch := mkSummarySearch { ss_Start : Z; ss_End : Z; ss_Path : bytes; ss_Environment : bytes; ss_SortBy : bytes; ss_Limit : Z }.
Record Summary := mkSummary { sm_Service : bytes; sm_DurationMs : float }.
Record SummaryAggregate := mkSummaryAggregate { sa_Start : Z; sa_End : Z; sa_Service : bytes; sa_Endpoint : bytes; sa_Environment : bytes }.
Record Aggregates := mkAggregates { ag_Count : Z; AvgDuration : float; AvgSQLCount : float }.
Record LogSearch := mkLogSearch { ls_Service : bytes; ls_Environment : bytes; ls_Start : Z; ls_End : Z; ls_Limit : Z }.

(** The interface store.LogStore, as far as watches use it, at the time of an evaluation; a
    found entry is its timestamp. *)
Class LogStore := {
  CountByLevel : LogCountParams -> result (list (bytes * Z));
  DistinctValues : bytes -> LogCountParams -> result (list bytes);
  SearchRequestSummaries : SummarySearch -> result (list Summary);
  AggregateRequestSummaries : SummaryAggregate -> result Aggregates;
  SearchLogs : LogSearch -> result (list Z)
}.

(** ** Helpers *)

Definition ErrInvalidWatchConfig : gerror := Sentinel "invalid watch configuration".
Definition configErrorf (msg : string) : gerror := Wrapf msg ErrInvalidWatchConfig.

Definition parseDurationOr (value : bytes) (def : Z) : Z :=
  if bool_decide (value = []) then def
  else match ParseDuration value with
  | None => def
  | Some d => if d <=? 0 then def else d
  end.

(** [Duration.Seconds] *)
Definition Seconds (d : Z) : float := fadd (of_int (Z.quot d second)) (fdiv (of_int (Z.rem d second)) (of_int (10 ^ 9))).

Definition compare (value : float) (op : bytes) (threshold : float) : result bool :=
  if bool_decide (op = str "gt") then Ok (flt threshold value)
  else if bool_decide (op = str "gte") then Ok (fle threshold value)
  else if bool_decide (op = str "lt") then Ok (flt value threshold)
  else if bool_decide (op = str "lte") then Ok (fle value threshold)
  else if bool_decide (op = str "eq") then Ok (feq value threshold)
  else if bool_decide (op = str "neq") then Ok (negb (feq value threshold))
  else Err (configErrorf "unknown comparison operator").

Section Watch.
Context {U : Unicode} {T : Text} {L : LogStore}.

Definition watchQueryLevels (level : bytes) : option bytes :=
  if bool_decide (level = str "debug") then Some (str "debug")
  else if bool_decide (level = str "info") then Some (str "info")
  else if bool_decide (level = str "warn") then Some (str "warn")
  else if bool_decide (level = str "warning") then Some (str "warn")
  else if bool_decide (level = str "error") then Some (str "error")
  else if bool_decide (level = str "fatal") then Some (str "fatal")
  else None.

Definition normalizeQueryLevel (level : bytes) : option bytes := watchQueryLevels (ToLower (Guard.TrimSpace level)).

Record countQueryFilter := mkFilter { f_Level : bytes; f_Service : bytes }.

Definition apply (f : countQueryFilter) (p : LogCountParams) : LogCountParams :=
  let p := if bool_decide (f_Level f = []) then p else mkCountParams (Since p) (Until p) (lc_Service p) (f_Level f) (lc_Environment p) in
  if bool_decide (f_Service f = []) then p else mkCountParams (Since p) (Until p) (f_Service f) (lc_Level p) (lc_Environment p).

(** [strings.Cut] at the first colon. *)
Fixpoint cut_colon (s : bytes) : option (bytes * bytes) :=
  match s with
  | [] => None
  | c :: t => if c =? 58 then Some ([], t) else '(k, v) ← cut_colon t; Some (c :: k, v)
  end.

(** One term of a count query. *)
Definition query_term (condService term : bytes) (f : countQueryFilter) : result countQueryFilter :=
  match cut_colon term with
  | None | Some (_, []) => Err (configErrorf "count query term is not supported")
  | Some (key, value) =>
      let key := ToLower key in
      if bool_decide (key = str "level") then
        match normalizeQueryLevel value with
        | None => Err (configErrorf "count query level is not a level the system stores")
        | Some canonical => Ok (mkFilter canonical (f_Service f))
        end
      else if bool_decide (key = str "service") then
        if negb (bool_decide (condService = [])) && negb (EqualFold condService value)
        then Err (configErrorf "count query service conflicts with the condition's service")
        else Ok (mkFilter (f_Level f) value)
      else if bool_decide (key = str "env") || bool_decide (key = str "environment")
      then Err (configErrorf "count query may not set the environment")
      else Err (configErrorf "count query field is not supported by the log store")
  end.

Fixpoint query_terms (condService : bytes) (terms : list bytes) (f : countQueryFilter) : result countQueryFilter :=
  match terms with
  | [] => Ok f
  | t :: terms => f ← query_term condService t f; query_terms condService terms f
  end.

(** [strings.Fields] splits at white space. *)
Definition parseCountQuery (query condService : bytes) : result countQueryFilter :=
  query_terms condService (FieldsFunc query IsSpace) (mkFilter [] []).

(** ** Metrics *)

Definition isErrorLevel (level : bytes) : bool :=
  let l := ToLower level in bool_decide (l = str "error") || bool_decide (l = str "fatal").

Definition total_of (counts : list (bytes * Z)) : Z := foldr (fun c n => c.2 + n) 0 counts.
Definition errors_of (counts : list (bytes * Z)) : Z := total_of (filter (fun c => Is_true (isErrorLevel c.1)) counts).

Definition measureErrorRate (service environment : bytes) (start end_ : Z) : result float :=
  counts ← wrap "counting by level" (CountByLevel (mkCountParams start end_ service [] environment));
  Ok (if total_of counts =? 0 then zero else fdiv (of_int (errors_of counts)) (of_int (total_of counts))).

Definition aggregate (service endpoint environment : bytes) (start end_ : Z) : result Aggregates :=
  wrap "aggregating summaries" (AggregateRequestSummaries (mkSummaryAggregate start end_ service endpoint environment)).

Definition measureResponseTime (service endpoint environment : bytes) (start end_ : Z) : result float :=
  agg ← aggregate service endpoint environment start end_;
  Ok (if ag_Count agg =? 0 then zero else AvgDuration agg).

Definition p95Percentile : float := literal 95 100.
Definition p95SampleLimit : Z := 200.

Definition measureP95Response (service endpoint environment : bytes) (start end_ : Z) : result float :=
  summaries ← wrap "searching for P95" (SearchRequestSummaries
    (mkSummarySearch start end_ endpoint environment (str "duration_ms") p95SampleLimit));
  let durations := sm_DurationMs <$>
    filter (fun s => Is_true (bool_decide (service = []) || bool_decide (sm_Service s = service))) summaries in
  if bool_decide (durations = []) then Ok zero
  else
    let durations := Float64s durations in
    let idx := ceil (fmul (of_int (len durations)) p95Percentile) - 1 in
    let idx := if idx <? 0 then 0 else idx in
    let idx := if len durations <=? idx then len durations - 1 else idx in
    index durations idx.

Definition measureLogCount (service environment : bytes) (start end_ : Z) : result float :=
  counts ← wrap "counting by level" (CountByLevel (mkCountParams start end_ service [] environment));
  Ok (of_int (total_of counts)).

Definition measureErrorCount (service environment : bytes) (start end_ : Z) : result float :=
  counts ← wrap "counting errors" (CountByLevel (mkCountParams start end_ service [] environment));
  Ok (of_int (errors_of counts)).

Definition measureHeartbeat (service environment : bytes) (start end_ : Z) : result float :=
  entries ← wrap "searching for heartbeat" (SearchLogs (mkLogSearch service environment start end_ 1));
  Ok (match entries with
      | [] => Seconds (end_ - start)
      | t :: _ => Seconds (end_ - t)
      end).

Definition measureSQLCount (service endpoint environment : bytes) (start end_ : Z) : result float :=
  agg ← aggregate service endpoint environment start end_;
  Ok (if ag_Count agg =? 0 then zero else AvgSQLCount agg).

Definition MeasureRange (metric service endpoint environment : bytes) (start end_ : Z) : result float :=
  if bool_decide (metric = str "error_rate") then measureErrorRate service environment start end_
  else if bool_decide (metric = str "response_time") then measureResponseTime service endpoint environment start end_
  else if bool_decide (metric = str "p95_response") then measureP95Response service endpoint environment start end_
  else if bool_decide (metric = str "log_count") then measureLogCount service environment start end_
  else if bool_decide (metric = str "error_count") then measureErrorCount service environment start end_
  else if bool_decide (metric = str "heartbeat") then measureHeartbeat service environment start end_
  else if bool_decide (metric = str "sql_count") then measureSQLCount service endpoint environment start end_
  else if bool_decide (metric = str "cache_hit_rate") then Err (configErrorf "metric is not supported by this log store")
  else Err (configErrorf "unknown metric").

(** The instant of an evaluation is [now]. *)
Definition Measure (now : Z) (metric service endpoint environment : bytes) (window : Z) : result float :=
  MeasureRange metric service endpoint environment (now - window) now.

Definition baselineValueForMetric (b : WatchBaseline) (metric : bytes) : float :=
  if bool_decide (metric = str "error_rate") then ErrorRate b
  else if bool_decide (metric = str "response_time") then AvgResponseMs b
  else if bool_decide (metric = str "p95_response") then P95ResponseMs b
  else if bool_decide (metric = str "log_count") then of_int (b_LogCount b)
  else if bool_decide (metric = str "error_count") then of_int (b_ErrorCount b)
  else if bool_decide (metric = str "sql_count") then b_SQLCount b
  else if bool_decide (metric = str "cache_hit_rate") then b_CacheHitRate b
  else zero.

Definition isCountMetric (m : bytes) : bool := bool_decide (m = str "log_count") || bool_decide (m = str "error_count").

(** ** Leaves *)

Definition defaultCountWindow : Z := 1 * hour.

Definition evalThreshold (now : Z) (c : Leaf) (environment : bytes) (checkWindow : Z) : result ConditionResult :=
  value ← wrap "measuring" (Measure now (c_Metric c) (c_Service c) (c_Endpoint c) environment checkWindow);
  breached ← compare value (c_Op c) (c_Value c);
  Ok (mkResult breached value).

Definition evalRelative (now : Z) (c : Leaf) (baseline : option WatchBaseline) (environment : bytes) (checkWindow : Z) : result ConditionResult :=
  match baseline with
  | None => Ok (mkResult false zero)
  | Some baseline =>
      let window := parseDurationOr (WindowDuration baseline) checkWindow in
      value ← wrap "measuring" (Measure now (c_Metric c) (c_Service c) (c_Endpoint c) environment window);
      let baselineValue := baselineValueForMetric baseline (c_Metric c) in
      if feq baselineValue zero then Ok (mkResult false value)
      else
        breached ← compare value (c_Op c) (fmul baselineValue (BaselineMultiple c));
        Ok (mkResult breached value)
  end.

Definition evalDelta (now : Z) (c : Leaf) (environment : bytes) (checkWindow : Z) : result ConditionResult :=
  let compareWindow := parseDurationOr (CompareWindow c) checkWindow in
  let currentStart := now - checkWindow in
  let previousStart := currentStart - compareWindow in
  currentValue ← wrap "measuring current" (MeasureRange (c_Metric c) (c_Service c) (c_Endpoint c) environment currentStart now);
  previousValue ← wrap "measuring previous" (MeasureRange (c_Metric c) (c_Service c) (c_Endpoint c) environment previousStart currentStart);
  let previousValue :=
    if isCountMetric (c_Metric c) && negb (compareWindow =? checkWindow) && (0 <? compareWindow)
    then fmul previousValue (fdiv (Seconds checkWindow) (Seconds compareWindow)) else previousValue in
  if feq previousValue zero then Ok (mkResult false currentValue)
  else
    let deltaPct := fmul (fdiv (fsub currentValue previousValue) (fabs previousValue)) (of_int 100) in
    breached ← compare (fabs deltaPct) (c_Op c) (ChangePct c);
    Ok (mkResult breached deltaPct).

(** [evalCount] where the evaluator was given a log store; without one it is an error. *)
Definition evalCount (now : Z) (c : Leaf) (environment : bytes) : result ConditionResult :=
  let window := parseDurationOr (Window c) defaultCountWindow in
  filter ← parseCountQuery (c_Query c) (c_Service c);
  let params := apply filter (mkCountParams (now - window) now (c_Service c) [] environment) in
  if Distinct c && negb (bool_decide (c_Field c = [])) then
    values ← wrap "counting distinct" (DistinctValues (c_Field c) params);
    let count := of_int (len values) in
    breached ← compare count (c_Op c) (c_Value c);
    Ok (mkResult breached count)
  else
    counts ← wrap "counting logs" (CountByLevel params);
    let value := of_int (total_of counts) in
    breached ← compare value (c_Op c) (c_Value c);
    Ok (mkResult breached value).

(** The switch on the type of a leaf. *)
Definition evalLeaf (now : Z) (baseline : option WatchBaseline) (environment : bytes) (checkWindow : Z) (c : Leaf) : result ConditionResult :=
  if bool_decide (c_Type c = str "threshold") then evalThreshold now c environment checkWindow
  else if bool_decide (c_Type c = str "relative") then evalRelative now c baseline environment checkWindow
  else if bool_decide (c_Type c = str "delta") then evalDelta now c environment checkWindow
  else if bool_decide (c_Type c = str "count") then evalCount now c environment
  else Err (configErrorf "unknown condition type").

(** ** Trees *)

Section Trees.
Context (now : Z) (baseline : option WatchBaseline) (environment : bytes) (checkWindow : Z).

(** The loops of evalAll and evalAny: every child in order, the first error ends it. *)
Definition eval_children (eval : Condition -> result ConditionResult) : list (option Condition) -> result (list ConditionResult) :=
  fix go conditions :=
    match conditions with
    | [] => Ok []
    | c :: conditions =>
        r ← match c with Some c => eval c | None => Panic end;
        rs ← go conditions;
        Ok (r :: rs)
    end.

Definition evalAll (rs : list ConditionResult) : ConditionResult := mkResult (forallb Breached rs) zero.
Definition evalAny (rs : list ConditionResult) : ConditionResult := mkResult (existsb Breached rs) zero.

Fixpoint EvaluateCondition (c : Condition) : result ConditionResult :=
  match c with
  | mkCondition All Any Not leaf =>
      if negb (bool_decide (length All = 0%nat)) then evalAll <$> eval_children EvaluateCondition All
      else if negb (bool_decide (length Any = 0%nat)) then evalAny <$> eval_children EvaluateCondition Any
      else match Not with
      | Some c => r ← EvaluateCondition c; Ok (mkResult (negb (Breached r)) (r_Value r))
      | None => evalLeaf now baseline environment checkWindow leaf
      end
  end.

(** *** The formula a tree writes *)

(** The leaves an evaluation visits, in order; [None] is a nil child. *)
Fixpoint visited (c : Condition) : list (option Leaf) :=
  match c with
  | mkCondition All Any Not leaf =>
      let children l := concat (map (fun c => match c with Some c => visited c | None => [None] end) l) in
      if negb (bool_decide (length All = 0%nat)) then children All
      else if negb (bool_decide (length Any = 0%nat)) then children Any
      else match Not with Some c => visited c | None => [Some leaf] end
  end.

(** What a visited leaf answers. *)
Definition answer (l : option Leaf) : result ConditionResult :=
  match l with Some l => evalLeaf now baseline environment checkWindow l | None => Panic end.

Definition says (l : Leaf) : bool :=
  match evalLeaf now baseline environment checkWindow l with Ok r => Breached r | _ => false end.

(** The truth of the formula, leaves that fail counting as false. *)
Fixpoint truth (c : Condition) : bool :=
  match c with
  | mkCondition All Any Not leaf =>
      let child c := match c with Some c => truth c | None => false end in
      if negb (bool_decide (length All = 0%nat)) then forallb child All
      else if negb (bool_decide (length Any = 0%nat)) then existsb child Any
      else match Not with Some c => negb (truth c) | None => says leaf end
  end.

(** The first failure among some answers. *)
Fixpoint failure (rs : list (result ConditionResult)) : option (result ConditionResult) :=
  match rs with
  | [] => None
  | Ok _ :: rs => failure rs
  | r :: _ => Some r
  end.

Lemma failure_app rs rs' : failure (rs ++ rs') = match failure rs with Some r => Some r | None => failure rs' end.
Proof. induction rs as [| r rs IH]; [done |]. by destruct r. Qed.

Section Ind.
Variable P : Condition -> Prop.
Hypothesis Hnode : forall All Any Not leaf,
  Forall (fun c => forall c', c = Some c' -> P c') All -> Forall (fun c => forall c', c = Some c' -> P c') Any ->
  (forall c', Not = Some c' -> P c') -> P (mkCondition All Any Not leaf).

Fixpoint condition_rect' (c : Condition) : P c :=
  match c with
  | mkCondition All Any Not leaf =>
      let go := fix go (l : list (option Condition)) : Forall (fun c => forall c', c = Some c' -> P c') l :=
        match l with
        | [] => Forall_nil_2 _
        | Some c :: l => Forall_cons_2 (fun c => forall c', c = Some c' -> P c') (Some c) l
            (fun c' H => match H in _ = o return match o with Some c' => P c' | None => True end with eq_refl => condition_rect' c end) (go l)
        | None :: l => Forall_cons_2 (fun c => forall c', c = Some c' -> P c') None l (fun c' H => match H with end) (go l)
        end in
      Hnode All Any Not leaf (go All) (go Any)
        (match Not return forall c', Not = Some c' -> P c' with
         | Some c => fun c' H => match H in _ = o return match o with Some c' => P c' | None => True end with eq_refl => condition_rect' c end
         | None => fun c' H => match H with end
         end)
  end.
End Ind.

(** The result of a visit: the first failure, or the verdict. *)
Definition verdict (leaves : list (option Leaf)) (b : bool) (m : result ConditionResult) : Prop :=
  match failure (map answer leaves) with
  | Some f => match f with Err e => m = Err e | _ => m = Panic end
  | None => exists r, m = Ok r /\ Breached r = b
  end.

Definition child_truth (c : option Condition) : bool := match c with Some c => truth c | None => false end.
Definition child_visits (c : option Condition) : list (option Leaf) := match c with Some c => visited c | None => [None] end.

Lemma eval_children_spec l :
  Forall (fun c => forall c', c = Some c' -> verdict (visited c') (truth c') (EvaluateCondition c')) l ->
  match failure (map answer (concat (map child_visits l))) with
  | Some f => match f with Err e => eval_children EvaluateCondition l = Err e | _ => eval_children EvaluateCondition l = Panic end
  | None => exists rs, eval_children EvaluateCondition l = Ok rs /\ map Breached rs = map child_truth l
  end.
Proof.
  induction 1 as [| c l Hc Hl IH]; [by exists [] |]. cbn [map concat eval_children]. rewrite map_app, failure_app.
  destruct c as [c |]; [| done]. specialize (Hc c eq_refl). cbn [child_visits child_truth]. unfold verdict in Hc.
  destruct (failure (map answer (visited c))) as [[r | e |] |] eqn:Ef; try by rewrite Hc.
  destruct Hc as (r & -> & Hr). cbn [mbind result_bind].
  destruct (failure (map answer (concat (map child_visits l)))) as [[r' | e |] |]; try by rewrite IH.
  destruct IH as (rs & -> & Hrs). exists (r :: rs). split; [done |]. cbn. by rewrite Hr, Hrs.
Qed.

Lemma forallb_map {A B} (f : B -> bool) (g : A -> B) l : forallb f (map g l) = forallb (fun x => f (g x)) l.
Proof. induction l as [| x l IH]; [done |]. cbn. by rewrite IH. Qed.

Lemma existsb_map {A B} (f : B -> bool) (g : A -> B) l : existsb f (map g l) = existsb (fun x => f (g x)) l.
Proof. induction l as [| x l IH]; [done |]. cbn. by rewrite IH. Qed.

Lemma EvaluateCondition_spec c : verdict (visited c) (truth c) (EvaluateCondition c).
Proof.
  induction c as [All Any Not leaf HA HY HN] using condition_rect'.
  pose proof (eval_children_spec All HA) as SA. pose proof (eval_children_spec Any HY) as SY.
  unfold verdict. cbn [visited truth EvaluateCondition]. fold child_truth child_visits.
  assert (forall (f : list ConditionResult -> ConditionResult) l b,
    (forall rs, map Breached rs = map child_truth l -> Breached (f rs) = b) ->
    match failure (map answer (concat (map child_visits l))) with
    | Some f => match f with Err e => eval_children EvaluateCondition l = Err e | _ => eval_children EvaluateCondition l = Panic end
    | None => exists rs, eval_children EvaluateCondition l = Ok rs /\ map Breached rs = map child_truth l
    end -> verdict (concat (map child_visits l)) b (f <$> eval_children EvaluateCondition l)) as Hf.
  { intros f l b Hb. unfold verdict. destruct (failure (map answer (concat (map child_visits l)))) as [[r | e |] |]; intros Hl; try by rewrite Hl.
    destruct Hl as (rs & -> & Hrs). exists (f rs). auto. }
  case_bool_decide as Ha; cbn [negb].
  2:{ apply (Hf evalAll); [| exact SA]. intros rs Hrs. cbn.
      transitivity (forallb id (map Breached rs)); [by rewrite forallb_map | by rewrite Hrs, forallb_map]. }
  case_bool_decide as Hy; cbn [negb].
  2:{ apply (Hf evalAny); [| exact SY]. intros rs Hrs. cbn.
      transitivity (existsb id (map Breached rs)); [by rewrite existsb_map | by rewrite Hrs, existsb_map]. }
  destruct Not as [c |].
  - specialize (HN c eq_refl). unfold verdict in HN. destruct (failure (map answer (visited c))) as [[r | e |] |]; try by rewrite HN.
    destruct HN as (r & -> & Hr). cbn. eexists. split; [done |]. cbn. by rewrite Hr.
  - cbn. unfold says. destruct (evalLeaf now baseline environment checkWindow leaf) as [r | e |]; [| done | done]. by exists r.
Qed.

End Trees.

(** ** Claims *)

(** C39: A condition tree is evaluated leaf by leaf, in order and without a short cut: when no
    leaf fails, the verdict is the boolean formula of the tree over what its leaves say, and
    otherwise the evaluation ends with the first failure, a nil child being a panic. *)
Theorem condition_tree_exact (now : Z) (baseline : option WatchBaseline) (environment : bytes) (checkWindow : Z) (c : Condition) :
  match failure (map (answer now baseline environment checkWindow) (visited c)) with
  | None => exists r, EvaluateCondition now baseline environment checkWindow c = Ok r /\
      Breached r = truth now baseline environment checkWindow c
  | Some (Err e) => EvaluateCondition now baseline environment checkWindow c = Err e
  | Some _ => EvaluateCondition now baseline environment checkWindow c = Panic
  end.
Proof.
  pose proof (EvaluateCondition_spec now baseline environment checkWindow c) as H. unfold verdict in H.
  by destruct (failure _) as [[r | e |] |].
Qed.

(** A null among the children is dereferenced. *)
Lemma null_condition_panics now baseline environment checkWindow rest leaf :
  EvaluateCondition now baseline environment checkWindow (mkCondition (None :: rest) [] None leaf) = Panic.
Proof. done. Qed.

Lemma parseDurationOr_positive value def : 0 < def -> 0 < parseDurationOr value def.
Proof.
  intros Hd. unfold parseDurationOr. case_bool_decide; [done |]. destruct (ParseDuration value) as [d |]; [| done].
  destruct (d <=? 0) eqn:E; [done | lia].
Qed.

End Watch.

(** A thousand requests of 1 to 1000 milliseconds, the slowest first. *)
Definition busy_store : LogStore := {|
  CountByLevel := fun _ => Ok [];
  DistinctValues := fun _ _ => Ok [];
  SearchRequestSummaries := fun p =>
    Ok (take (Z.to_nat (ss_Limit p)) ((fun d => mkSummary [] (of_int (1000 - Z.of_nat d))) <$> seq 0 1000));
  AggregateRequestSummaries := fun _ => Ok (mkAggregates 0 zero zero);
  SearchLogs := fun _ => Ok []
|}.

(** The 95th percentile is taken among the 200 slowest requests: 990 here, where 950 of the
    1000 requests take 950 milliseconds or less. *)
Lemma p95_of_the_slowest : measureP95Response (L := busy_store) [] [] [] 0 1 = Ok (of_int 990).
Proof. by vm_compute. Qed.
