(* ===== verification/KeyedMutex.v ===== *)
(** * The keyed mutex of the watch evaluator (watcher/watch_evaluator.go)

    [lock] and the closure it returns, critical section by critical section: the table of
    mutexes under [k.mu], the mutex of a key, and the references that decide when its entry
    is removed.  [Watches] uses it as a set of held keys; this is why it may.
    Main results: at most one goroutine holds a key, though its mutex comes and goes; an
    entry is in the table exactly while somebody uses it. *)

From stdpp Require Import base list gmap strings numbers sorting.
From Stdlib Require Import ZArith Lia.
From S2P Require Import Prelude.

(** [refCountedMutex] *)
Record Mutex := mkMutex { mu_locked : bool; refs : Z }.

(** Where a goroutine is: it waits for a mutex it has counted itself on, holds it, or has
    unlocked it and is about to give up its reference. *)
Inductive phase := Idle | Waiting (key : bytes) (m : nat) | Holding (key : bytes) (m : nat) | Releasing (key : bytes) (m : nat).

#[export] Instance phase_eq_dec : EqDecision phase.
Proof. solve_decision. Defined.

(** [keyedMutex], the mutexes by address, and the goroutines. *)
Record KM := mkKM { table : gmap bytes nat; heap : gmap nat Mutex; next : nat; procs : list phase }.

(** The first critical section of [lock]: find or make the mutex, and count a reference. *)
Definition register (key : bytes) (s : KM) : nat * KM :=
  let '(m, s) :=
    match table s !! key with
    | Some m => (m, s)
    | None => (next s, mkKM (<[key := next s]> (table s)) (<[next s := mkMutex false 0]> (heap s)) (S (next s)) (procs s))
    end in
  (m, mkKM (table s) (alter (fun x => mkMutex (mu_locked x) (refs x + 1)) m (heap s)) (next s) (procs s)).

Definition set_locked (b : bool) (m : nat) (s : KM) : KM :=
  mkKM (table s) (alter (fun x => mkMutex b (refs x)) m (heap s)) (next s) (procs s).

(** The last critical section of the closure. *)
Definition unregister (key : bytes) (m : nat) (s : KM) : KM :=
  let heap := alter (fun x => mkMutex (mu_locked x) (refs x - 1)) m (heap s) in
  let gone := match heap !! m with Some x => refs x =? 0 | None => false end in
  mkKM (if gone then delete key (table s) else table s) heap (next s) (procs s).

Definition with_proc (i : nat) (p : phase) (s : KM) : KM := mkKM (table s) (heap s) (next s) (<[i := p]> (procs s)).

(** [size] *)
Definition size_of (s : KM) : Z := Z.of_nat (base.size (table s)).

Inductive mstep : KM -> KM -> Prop :=
| mstep_register s i key m s' :
    procs s !! i = Some Idle -> register key s = (m, s') -> mstep s (with_proc i (Waiting key m) s')
| mstep_acquire s i key m x :
    procs s !! i = Some (Waiting key m) -> heap s !! m = Some x -> mu_locked x = false ->
    mstep s (with_proc i (Holding key m) (set_locked true m s))
| mstep_unlock s i key m :
    procs s !! i = Some (Holding key m) -> mstep s (with_proc i (Releasing key m) (set_locked false m s))
| mstep_unregister s i key m :
    procs s !! i = Some (Releasing key m) -> mstep s (with_proc i Idle (unregister key m s)).

(** [n] goroutines and a zero value. *)
Definition km_start (n : nat) : KM := mkKM ∅ ∅ 0 (replicate n Idle).

Inductive km_reachable (n : nat) : KM -> Prop :=
| km_reach_start : km_reachable n (km_start n)
| km_reach_step s s' : km_reachable n s -> mstep s s' -> km_reachable n s'.

(** ** The invariant *)

Definition key_of (p : phase) : option (bytes * nat) :=
  match p with Idle => None | Waiting k m | Holding k m | Releasing k m => Some (k, m) end.

Definition uses (m : nat) (p : phase) : nat := match key_of p with Some (_, m') => if decide (m' = m) then 1 else 0 | None => 0 end.
Definition holds (m : nat) (p : phase) : nat := match p with Holding _ m' => if decide (m' = m) then 1 else 0 | _ => 0 end.

Record minv (s : KM) : Prop := {
  minv_procs i p k m : procs s !! i = Some p -> key_of p = Some (k, m) -> table s !! k = Some m;
  minv_table k m : table s !! k = Some m -> exists x, heap s !! m = Some x /\
    refs x = Z.of_nat (sum_list_with (uses m) (procs s)) /\ 0 < refs x /\
    sum_list_with (holds m) (procs s) = (if mu_locked x then 1 else 0)%nat;
  minv_inj k k' m : table s !! k = Some m -> table s !! k' = Some m -> k = k';
  minv_fresh k m : table s !! k = Some m -> (m < next s)%nat
}.

Lemma sum_with_update (f : phase -> nat) ps i p p' : ps !! i = Some p ->
  (sum_list_with f (<[i := p']> ps) + f p = sum_list_with f ps + f p')%nat.
Proof.
  revert i. induction ps as [| x ps IH]; intros [| i] Hi; try done; cbn [sum_list_with] in *.
  - injection Hi as ->. cbn. lia.
  - specialize (IH i Hi). change (<[S i := p']> (x :: ps)) with (x :: <[i := p']> ps). cbn [sum_list_with]. lia.
Qed.

Lemma sum_with_elem (f : phase -> nat) ps i p : ps !! i = Some p -> (f p <= sum_list_with f ps)%nat.
Proof.
  revert i. induction ps as [| x ps IH]; intros [| i] Hi; try done; cbn [sum_list_with].
  - injection Hi as ->. lia.
  - specialize (IH i Hi). lia.
Qed.

Lemma sum_with_two (f : phase -> nat) ps i j p q : i <> j -> ps !! i = Some p -> ps !! j = Some q ->
  (f p + f q <= sum_list_with f ps)%nat.
Proof.
  revert i j. induction ps as [| x ps IH]; intros [| i] [| j] Hn Hi Hj; try done; cbn [sum_list_with].
  - injection Hi as ->. pose proof (sum_with_elem f ps j q Hj). lia.
  - injection Hj as ->. pose proof (sum_with_elem f ps i p Hi). lia.
  - specialize (IH i j ltac:(congruence) Hi Hj). lia.
Qed.

(** Nobody uses a mutex that is not in the table. *)
Lemma uses_fresh s m : minv s -> (forall k, table s !! k <> Some m) -> sum_list_with (uses m) (procs s) = 0%nat.
Proof.
  intros I Hn. assert (Forall (fun p => uses m p = 0%nat) (procs s)) as Hf.
  { apply Forall_lookup. intros i p Hi. unfold uses. destruct (key_of p) as [[k m'] |] eqn:Hk; [| done].
    destruct (decide (m' = m)) as [-> |]; [| done]. by destruct (Hn k), (minv_procs s I i p k m). }
  induction Hf as [| p ps Hp Hf IH]; [done |]. cbn. lia.
Qed.

Lemma holds_le_uses m p : (holds m p <= uses m p)%nat.
Proof. destruct p; cbn; repeat destruct (decide _); lia. Qed.

Lemma sum_with_le (f g : phase -> nat) ps : (forall p, f p <= g p)%nat -> (sum_list_with f ps <= sum_list_with g ps)%nat.
Proof. intros Hfg. induction ps as [| p ps IH]; [done |]. cbn. specialize (Hfg p). lia. Qed.

(** ** Preservation *)

(** Which phases a step of one goroutine moves between, and what it leaves of the rest. *)
Lemma minv_start n : minv (km_start n).
Proof.
  split; cbn [km_start table heap next procs]; try done.
  intros i p k m Hi Hk. apply lookup_replicate in Hi as [-> _]. done.
Qed.

(** A step that keeps the table. *)
Lemma minv_same s i p p' key m x x' :
  minv s -> procs s !! i = Some p -> table s !! key = Some m -> heap s !! m = Some x ->
  (p' = Idle \/ key_of p' = Some (key, m)) -> (p = Idle \/ key_of p = Some (key, m)) ->
  refs x' = refs x + Z.of_nat (uses m p') - Z.of_nat (uses m p) -> 0 < refs x' ->
  ((if mu_locked x then 1 else 0) + holds m p' = (if mu_locked x' then 1 else 0) + holds m p)%nat ->
  minv (mkKM (table s) (<[m := x']> (heap s)) (next s) (<[i := p']> (procs s))).
Proof.
  intros I Hi Ht Hh Hp' Hp Hr Hpos Hl.
  assert (forall m' q, m' <> m -> (q = Idle \/ key_of q = Some (key, m)) -> uses m' q = 0%nat /\ holds m' q = 0%nat) as Hother.
  { intros m' q Hn [-> | Hq]; [done |]. assert (uses m' q = 0%nat) as Hu by (unfold uses; rewrite Hq; by rewrite decide_False).
    split; [done |]. pose proof (holds_le_uses m' q). lia. }
  split; cbn [table heap next procs].
  - intros j q k m' Hj Hk. destruct (decide (j = i)) as [-> | Hn].
    + rewrite list_lookup_insert_eq in Hj by (by apply lookup_lt_Some in Hi). injection Hj as <-.
      destruct Hp' as [-> | Hp']; [done |]. congruence.
    + rewrite list_lookup_insert_ne in Hj by done. by apply (minv_procs s I j q).
  - intros k m' Hk. destruct (minv_table s I k m' Hk) as (y & Hy & Hry & Hpy & Hly).
    pose proof (sum_with_update (uses m') (procs s) i p p' Hi) as Hsu.
    pose proof (sum_with_update (holds m') (procs s) i p p' Hi) as Hsh.
    destruct (decide (m' = m)) as [-> | Hn].
    + exists x'. rewrite lookup_insert_eq. assert (y = x) as -> by congruence. split; [done |]. split; [lia |]. split; [done |]. lia.
    + exists y. rewrite lookup_insert_ne by done. destruct (Hother m' p Hn Hp), (Hother m' p' Hn Hp'). split; [done |]. split; [lia |]. split; [done |]. lia.
  - apply (minv_inj s I).
  - apply (minv_fresh s I).
Qed.

Lemma alter_insert (f : Mutex -> Mutex) (h : gmap nat Mutex) m x : h !! m = Some x -> alter f m h = <[m := f x]> h.
Proof.
  intros Hx. apply map_eq. intros j. destruct (decide (j = m)) as [-> | Hn].
  - by rewrite lookup_alter_eq, lookup_insert_eq, Hx.
  - by rewrite lookup_alter_ne, lookup_insert_ne.
Qed.

(** A mutex made for a key. *)
Lemma minv_fresh_entry s i key : minv s -> procs s !! i = Some Idle -> table s !! key = None ->
  minv (mkKM (<[key := next s]> (table s)) (<[next s := mkMutex false 1]> (heap s)) (S (next s)) (<[i := Waiting key (next s)]> (procs s))).
Proof.
  intros I Hi Hn. set (m := next s).
  assert (forall k, table s !! k <> Some m) as Hfresh by (intros k Hk; pose proof (minv_fresh s I k m Hk); subst m; lia).
  pose proof (uses_fresh s m I Hfresh) as Hu0.
  assert (sum_list_with (holds m) (procs s) = 0%nat) as Hh0.
  { pose proof (sum_with_le (holds m) (uses m) (procs s) (holds_le_uses m)). lia. }
  split; cbn [table heap next procs].
  - intros j q k m' Hj Hk. destruct (decide (j = i)) as [-> | Hne].
    + rewrite list_lookup_insert_eq in Hj by (by apply lookup_lt_Some in Hi). injection Hj as <-. injection Hk as <- <-. by rewrite lookup_insert_eq.
    + rewrite list_lookup_insert_ne in Hj by done. pose proof (minv_procs s I j q k m' Hj Hk).
      rewrite lookup_insert_ne; [done |]. intros ->. congruence.
  - intros k m' Hk. pose proof (sum_with_update (uses m') (procs s) i Idle (Waiting key m) Hi) as Hsu.
    pose proof (sum_with_update (holds m') (procs s) i Idle (Waiting key m) Hi) as Hsh. cbn in Hsh.
    destruct (decide (k = key)) as [-> | Hne].
    + rewrite lookup_insert_eq in Hk. injection Hk as <-. exists (mkMutex false 1). rewrite lookup_insert_eq.
      change (uses m Idle) with 0%nat in Hsu. assert (uses m (Waiting key m) = 1%nat) as H1 by (unfold uses; cbn; by rewrite decide_True).
      cbn [refs mu_locked]. split; [done |]. split; [lia |]. split; [lia |]. lia.
    + rewrite lookup_insert_ne in Hk by done. assert (m' <> m) as Hm by (intros ->; by destruct (Hfresh k)).
      destruct (minv_table s I k m' Hk) as (y & Hy & Hry & Hpy & Hly). exists y. rewrite lookup_insert_ne by done.
      change (uses m' Idle) with 0%nat in Hsu. assert (uses m' (Waiting key m) = 0%nat) as H1 by (unfold uses; cbn; by rewrite decide_False).
      split; [done |]. split; [lia |]. split; [done |]. lia.
  - intros k k' m' Hk Hk'. destruct (decide (k = key)) as [-> | H1]; destruct (decide (k' = key)) as [-> | H2]; [done | | |].
    + rewrite lookup_insert_eq in Hk. rewrite lookup_insert_ne in Hk' by done. injection Hk as <-. by destruct (Hfresh k').
    + rewrite lookup_insert_eq in Hk'. rewrite lookup_insert_ne in Hk by done. injection Hk' as <-. by destruct (Hfresh k).
    + rewrite lookup_insert_ne in Hk, Hk' by done. by apply (minv_inj s I k k' m').
  - intros k m' Hk. destruct (decide (k = key)) as [-> | Hne].
    + rewrite lookup_insert_eq in Hk. injection Hk as <-. lia.
    + rewrite lookup_insert_ne in Hk by done. pose proof (minv_fresh s I k m' Hk). lia.
Qed.

(** The last reference is given up. *)
Lemma minv_gone s i key m x : minv s -> procs s !! i = Some (Releasing key m) -> heap s !! m = Some x -> refs x = 1 ->
  minv (mkKM (delete key (table s)) (<[m := mkMutex (mu_locked x) 0]> (heap s)) (next s) (<[i := Idle]> (procs s))).
Proof.
  intros I Hi Hx Hr. pose proof (minv_procs s I i _ key m Hi eq_refl) as Ht.
  destruct (minv_table s I key m Ht) as (y & Hy & Hry & _ & _). assert (y = x) as -> by congruence.
  split; cbn [table heap next procs].
  - intros j q k m' Hj Hk. destruct (decide (j = i)) as [-> | Hne].
    + rewrite list_lookup_insert_eq in Hj by (by apply lookup_lt_Some in Hi). by injection Hj as <-.
    + rewrite list_lookup_insert_ne in Hj by done. pose proof (minv_procs s I j q k m' Hj Hk) as Hk'.
      apply lookup_delete_Some. split; [| done]. intros ->. assert (m' = m) as -> by congruence.
      pose proof (sum_with_two (uses m) (procs s) i j _ q (not_eq_sym Hne) Hi Hj) as H2.
      unfold uses in H2 at 1 2. rewrite Hk in H2. cbn [key_of] in H2. rewrite !decide_True in H2 by done. lia.
  - intros k m' [Hne Hk]%lookup_delete_Some. assert (m' <> m) as Hm.
    { intros ->. by apply Hne, (minv_inj s I key k m). }
    destruct (minv_table s I k m' Hk) as (z & Hz & Hrz & Hpz & Hlz). exists z. rewrite lookup_insert_ne by done.
    pose proof (sum_with_update (uses m') (procs s) i _ Idle Hi) as Hsu.
    pose proof (sum_with_update (holds m') (procs s) i _ Idle Hi) as Hsh.
    unfold uses in Hsu at 2 4. cbn [key_of] in Hsu. rewrite decide_False in Hsu by done. cbn [holds] in Hsh.
    split; [done |]. split; [lia |]. split; [done |]. lia.
  - intros k k' m' [_ Hk]%lookup_delete_Some [_ Hk']%lookup_delete_Some. by apply (minv_inj s I k k' m').
  - intros k m' [_ Hk]%lookup_delete_Some. by apply (minv_fresh s I k).
Qed.

Lemma uses_of p k m : key_of p = Some (k, m) -> uses m p = 1%nat.
Proof. unfold uses. intros ->. by rewrite decide_True. Qed.

Lemma mstep_minv s s' : mstep s s' -> minv s -> minv s'.
Proof.
  intros Hs I. destruct Hs as [s i key m s' Hi Hreg | s i key m x Hi Hx Hlk | s i key m Hi | s i key m Hi].
  - unfold register in Hreg. destruct (table s !! key) as [m0 |] eqn:Ht; injection Hreg as <- <-; unfold with_proc; cbn [table heap next procs].
    + destruct (minv_table s I key m0 Ht) as (x & Hx & Hr & Hpos & Hl). rewrite (alter_insert _ _ _ x Hx).
      apply (minv_same s i Idle _ key m0 x); try done; [by right | by left | | cbn; lia].
      rewrite (uses_of (Waiting key m0) key m0 eq_refl). change (uses m0 Idle) with 0%nat. cbn [refs]. lia.
    + rewrite (alter_insert _ _ _ (mkMutex false 0)) by apply lookup_insert_eq. cbn. rewrite insert_insert_eq. by apply minv_fresh_entry.
  - pose proof (minv_procs s I i _ key m Hi eq_refl) as Ht. unfold with_proc, set_locked. cbn [table heap next procs].
    rewrite (alter_insert _ _ _ x Hx). destruct (minv_table s I key m Ht) as (y & Hy & Hr & Hpos & Hl). assert (y = x) as -> by congruence.
    apply (minv_same s i (Waiting key m) _ key m x); try done; [by right | by right | cbn; lia |].
    cbn. rewrite Hlk, decide_True by done. lia.
  - pose proof (minv_procs s I i _ key m Hi eq_refl) as Ht. unfold with_proc, set_locked. cbn [table heap next procs].
    destruct (minv_table s I key m Ht) as (x & Hx & Hr & Hpos & Hl). rewrite (alter_insert _ _ _ x Hx).
    apply (minv_same s i (Holding key m) _ key m x); try done; [by right | by right | cbn; lia |].
    pose proof (sum_with_elem (holds m) (procs s) i _ Hi) as He. cbn in *. rewrite decide_True in * by done.
    destruct (mu_locked x); lia.
  - pose proof (minv_procs s I i _ key m Hi eq_refl) as Ht. unfold with_proc, unregister. cbn [table heap next procs].
    destruct (minv_table s I key m Ht) as (x & Hx & Hr & Hpos & Hl). rewrite (alter_insert _ _ _ x Hx), lookup_insert_eq. cbn [refs].
    destruct (refs x - 1 =? 0) eqn:Hz.
    + assert (refs x - 1 = 0) as -> by lia. apply (minv_gone s i key m x); try done. lia.
    + apply (minv_same s i (Releasing key m) _ key m x); try done; [by left | by right | | cbn; lia].
      rewrite (uses_of (Releasing key m) key m eq_refl). change (uses m Idle) with 0%nat. cbn [refs]. lia.
Qed.

Lemma km_reachable_minv n s : km_reachable n s -> minv s.
Proof. induction 1; [apply minv_start | by eapply mstep_minv]. Qed.

(** The keys that are held. *)
Definition held (s : KM) : gset bytes :=
  list_to_set (omap (fun p => match p with Holding k _ => Some k | _ => None end) (procs s)).

(** The lock [Watches] assumes: a key is taken when nobody has it, and given back. *)
Inductive lock_step : gset bytes -> gset bytes -> Prop :=
| lock_take key l : key ∉ l -> lock_step l ({[key]} ∪ l)
| lock_give key l : key ∈ l -> lock_step l (l ∖ {[key]}).

Lemma elem_of_held s key : key ∈ held s <-> exists i m, procs s !! i = Some (Holding key m).
Proof.
  unfold held. rewrite elem_of_list_to_set, list_elem_of_omap. split.
  - intros (p & Hp & Hk). destruct p as [| | k m |]; try done. injection Hk as ->. apply list_elem_of_lookup in Hp as [i Hi]. by exists i, m.
  - intros (i & m & Hi). exists (Holding key m). split; [by apply list_elem_of_lookup_2 in Hi | done].
Qed.

Lemma one_holder s i j key m m' : minv s ->
  procs s !! i = Some (Holding key m) -> procs s !! j = Some (Holding key m') -> i = j.
Proof.
  intros I Hi Hj. destruct (decide (i = j)) as [Heq | Hne]; [done | exfalso].
  pose proof (minv_procs s I i _ key m Hi eq_refl) as Ht. pose proof (minv_procs s I j _ key m' Hj eq_refl) as Ht'.
  assert (m' = m) as -> by congruence. destruct (minv_table s I key m Ht) as (x & _ & _ & _ & Hl).
  pose proof (sum_with_two (holds m) (procs s) i j _ _ Hne Hi Hj) as H2. cbn in H2. rewrite !decide_True in H2 by done.
  destruct (mu_locked x); lia.
Qed.

(** What a goroutine that changes its phase does to the held keys. *)
Lemma held_insert s s' i p p' : procs s !! i = Some p -> procs s' = <[i := p']> (procs s) ->
  forall key, key ∈ held s' <-> (exists m, p' = Holding key m) \/ exists j m, j <> i /\ procs s !! j = Some (Holding key m).
Proof.
  intros Hi Hs key. rewrite elem_of_held, Hs. assert (i < length (procs s))%nat as Hlt by (by apply lookup_lt_Some in Hi). split.
  - intros (j & m & Hj). destruct (decide (j = i)) as [-> | Hn].
    + rewrite list_lookup_insert_eq in Hj by done. injection Hj as ->. left. by exists m.
    + rewrite list_lookup_insert_ne in Hj by done. right. by exists j, m.
  - intros [[m ->] | (j & m & Hn & Hj)].
    + exists i, m. by rewrite list_lookup_insert_eq.
    + exists j, m. by rewrite list_lookup_insert_ne.
Qed.

Lemma held_same s s' i p p' : procs s !! i = Some p -> procs s' = <[i := p']> (procs s) ->
  (forall k m, p <> Holding k m) -> (forall k m, p' <> Holding k m) -> held s' = held s.
Proof.
  intros Hi Hs Hp Hp'. apply set_eq. intros key. rewrite (held_insert s s' i p p' Hi Hs), elem_of_held. split.
  - intros [[m Hm] | (j & m & _ & Hj)]; [by destruct (Hp' key m) | by exists j, m].
  - intros (j & m & Hj). right. exists j, m. split; [| done]. intros ->. rewrite Hi in Hj. injection Hj as ->. by destruct (Hp key m).
Qed.

Lemma register_procs key s : procs (register key s).2 = procs s.
Proof. unfold register. by destruct (table s !! key). Qed.

Lemma mstep_held s s' : minv s -> mstep s s' -> held s' = held s \/ lock_step (held s) (held s').
Proof.
  intros I Hs. destruct Hs as [s i key m s' Hi Hreg | s i key m x Hi Hx Hlk | s i key m Hi | s i key m Hi].
  - left. pose proof (register_procs key s) as Hp. rewrite Hreg in Hp. cbn in Hp.
    apply (held_same _ _ i Idle (Waiting key m)); try done. cbn. by rewrite Hp.
  - right. assert (held (with_proc i (Holding key m) (set_locked true m s)) = {[key]} ∪ held s) as ->.
    { apply set_eq. intros k. rewrite (held_insert s (with_proc i (Holding key m) (set_locked true m s)) i (Waiting key m) (Holding key m) Hi eq_refl), elem_of_union, elem_of_singleton, elem_of_held. split.
      - intros [[m' [= -> _]] | (j & m' & _ & Hj)]; [by left | right; by exists j, m'].
      - intros [-> | (j & m' & Hj)]; [left; by exists m |]. right. exists j, m'. split; [| done]. intros ->. congruence. }
    constructor. rewrite elem_of_held. intros (j & m' & Hj). pose proof (minv_procs s I i _ key m Hi eq_refl) as Ht.
    pose proof (minv_procs s I j _ key m' Hj eq_refl) as Ht'. assert (m' = m) as -> by congruence.
    destruct (minv_table s I key m Ht) as (y & Hy & _ & _ & Hl). assert (y = x) as -> by congruence. rewrite Hlk in Hl.
    pose proof (sum_with_elem (holds m) (procs s) j _ Hj) as He. cbn in He. rewrite decide_True in He by done. lia.
  - right. assert (held (with_proc i (Releasing key m) (set_locked false m s)) = held s ∖ {[key]}) as ->.
    { apply set_eq. intros k. rewrite (held_insert s (with_proc i (Releasing key m) (set_locked false m s)) i (Holding key m) (Releasing key m) Hi eq_refl), elem_of_difference, elem_of_singleton, elem_of_held. split.
      - intros [[m' Hm'] | (j & m' & Hn & Hj)]; [done |]. split; [by exists j, m' |]. intros ->. by apply Hn, (one_holder s j i key m' m I).
      - intros [(j & m' & Hj) Hn]. right. exists j, m'. split; [| done]. intros ->. congruence. }
    constructor. apply elem_of_held. by exists i, m.
  - left. by apply (held_same _ _ i (Releasing key m) Idle).
Qed.

(** ** Claims *)

(** C40: The keyed mutex is a lock per key: every step of any number of goroutines leaves the set
    of held keys as it is, or takes a key nobody holds, or gives one back; two goroutines
    never hold one key, although its mutex is removed and made again. *)
Theorem keyed_mutex_is_a_lock (n : nat) (s s' : KM) :
  km_reachable n s -> mstep s s' ->
  (held s' = held s \/ lock_step (held s) (held s')) /\
  (forall i j key m m', procs s !! i = Some (Holding key m) -> procs s !! j = Some (Holding key m') -> i = j).
Proof.
  intros I%km_reachable_minv Hs. split; [by apply mstep_held |]. intros i j key m m'. by apply one_holder.
Qed.

(** The table has no leak: a key has an entry exactly while some goroutine waits for it,
    holds it or is giving it up, so that once all are idle the table is empty. *)
Theorem keyed_mutex_no_leak (n : nat) (s : KM) :
  km_reachable n s ->
  (forall key, is_Some (table s !! key) <-> exists i p m, procs s !! i = Some p /\ key_of p = Some (key, m)) /\
  (Forall (fun p => p = Idle) (procs s) -> size_of s = 0).
Proof.
  intros I%km_reachable_minv.
  assert (forall key, is_Some (table s !! key) <-> exists i p m, procs s !! i = Some p /\ key_of p = Some (key, m)) as Hkeys.
  { intros key. split.
    - intros [m Hm]. destruct (minv_table s I key m Hm) as (x & _ & Hr & Hpos & _).
      destruct (decide (Exists (fun p => uses m p <> 0%nat) (procs s))) as [He | He].
      + apply Exists_exists in He as (p & Hp & Hu). apply list_elem_of_lookup in Hp as [i Hi]. unfold uses in Hu.
        destruct (key_of p) as [[k m'] |] eqn:Hk; [| done]. destruct (decide (m' = m)) as [-> |]; [| done].
        pose proof (minv_procs s I i p k m Hi Hk) as Hk'. exists i, p, m. split; [done |]. by rewrite Hk, (minv_inj s I key k m).
      + exfalso. assert (sum_list_with (uses m) (procs s) = 0%nat) as Hz; [| lia].
        apply not_Exists_Forall in He; [| intros p; apply _]. clear Hr. induction He as [| p ps Hp _ IH]; [done |]. cbn.
        destruct (decide (uses m p = 0%nat)) as [-> | Hn]; [apply IH | by destruct Hp].
    - intros (i & p & m & Hi & Hk). exists m. by apply (minv_procs s I i p). }
  split; [done |]. intros Hidle. unfold size_of. assert (table s = ∅) as ->; [| done].
  apply map_eq. intros key. rewrite lookup_empty. destruct (table s !! key) eqn:E; [exfalso | done].
  destruct (proj1 (Hkeys key)) as (i & p & m & Hi & Hk); [by rewrite E |]. rewrite Forall_lookup in Hidle.
  by rewrite (Hidle i p Hi) in Hk.
Qed.

(** Two goroutines that have asked for one key, and the first of them with it. *)
Definition asked (i : nat) (key : bytes) (s : KM) : KM :=
  let '(m, s') := register key s in with_proc i (Waiting key m) s'.

Definition both_ask : KM := asked 1 (str "w") (asked 0 (str "w") (km_start 2)).
Definition one_has : KM := with_proc 0 (Holding (str "w") 0) (set_locked true 0 both_ask).

Lemma asked_reachable n i key s : km_reachable n s -> procs s !! i = Some Idle -> km_reachable n (asked i key s).
Proof.
  intros Hs Hi. unfold asked. destruct (register key s) as [m s'] eqn:Hr. eapply km_reach_step; [exact Hs |].
  by eapply mstep_register.
Qed.

Lemma both_ask_reachable : km_reachable 2 both_ask.
Proof. do 2 (apply asked_reachable; [| done]). apply km_reach_start. Qed.

Lemma one_has_step : mstep both_ask one_has.
Proof. by apply (mstep_acquire both_ask 0 (str "w") 0 (mkMutex false 2)). Qed.

Lemma keyed_mutex_is_a_lock_witness :
  ((held one_has = held both_ask \/ lock_step (held both_ask) (held one_has)) /\
   (forall i j key m m', procs both_ask !! i = Some (Holding key m) -> procs both_ask !! j = Some (Holding key m') -> i = j)) /\
  procs one_has = [Holding (str "w") 0; Waiting (str "w") 0].
Proof.
  split; [| reflexivity]. exact (keyed_mutex_is_a_lock 2 both_ask one_has both_ask_reachable one_has_step).
Defined.

Lemma keyed_mutex_no_leak_witness :
  ((forall key, is_Some (table both_ask !! key) <-> exists i p m, procs both_ask !! i = Some p /\ key_of p = Some (key, m)) /\
   (Forall (fun p => p = Idle) (procs both_ask) -> size_of both_ask = 0)) /\ size_of both_ask = 1.
Proof. split; [exact (keyed_mutex_no_leak 2 both_ask both_ask_reachable) | by vm_compute]. Defined.
