(* ===== verification/Watches.v ===== *)
(** * Watches: evaluation, scheduling, alerts (internal/watcher)

    watch_evaluator.go, watch_session.go, watch_scheduler.go and watch_stream.go over the
    statements of adapter/sqlite/watch_store.go.  A function that talks to the store is a
    [prog], a tree of its calls, so that one definition is both run on its own ([interp])
    and interleaved with others call by call ([step]).
    Main results: what an evaluation does on every branch; whatever scheduler ticks, stream
    evaluations and deletions run at once, an alert needs the watch to have left the
    triggered status, checks never lose an increment of the breach counter, and the
    evaluators cannot deadlock. *)

From stdpp Require Import base list gmap strings numbers sorting.
From Stdlib Require Import ZArith Lia.
From S2P Require Import Prelude Index Query Guard Floats Conditions.

(** ** Data *)

Inductive WatchStatus := StatusActive | StatusTriggered | StatusResolved | StatusExpired.

#[export] Instance WatchStatus_eq_dec : EqDecision WatchStatus.
Proof. solve_decision. Defined.

(** A row of the table watches, without its id. *)
Record Watch := mkWatch {
  ConditionsJSON : bytes;
  w_Service : bytes;
  w_Endpoint : bytes;
  w_Environment : bytes;
  CheckInterval : bytes;
  BaselineWindow : bytes;
  MinConsecutive : Z;
  w_Status : WatchStatus;
  BaselineJSON : option WatchBaseline;
  ConsecutiveBreaches : Z;
  CurrentValue : option float;
  ExpiresAt : option Z;
  LastCheckedAt : option Z;
  NextCheckAt : option Z
}.

Definition set_status (s : WatchStatus) (w : Watch) : Watch :=
  mkWatch (ConditionsJSON w) (w_Service w) (w_Endpoint w) (w_Environment w) (CheckInterval w) (BaselineWindow w)
    (MinConsecutive w) s (BaselineJSON w) (ConsecutiveBreaches w) (CurrentValue w) (ExpiresAt w) (LastCheckedAt w) (NextCheckAt w).

Definition set_checked (value : float) (breaches now nextCheck : Z) (w : Watch) : Watch :=
  mkWatch (ConditionsJSON w) (w_Service w) (w_Endpoint w) (w_Environment w) (CheckInterval w) (BaselineWindow w)
    (MinConsecutive w) (w_Status w) (BaselineJSON w) breaches (Some value) (ExpiresAt w) (Some now) (Some nextCheck).

Definition set_baseline (b : option WatchBaseline) (w : Watch) : Watch :=
  mkWatch (ConditionsJSON w) (w_Service w) (w_Endpoint w) (w_Environment w) (CheckInterval w) (BaselineWindow w)
    (MinConsecutive w) (w_Status w) b (ConsecutiveBreaches w) (CurrentValue w) (ExpiresAt w) (LastCheckedAt w) (NextCheckAt w).

(** What is kept of a run. *)
Inductive RunStatus := RunRunning | RunCompleted (breached : bool) | RunFailed.

(** Writes to the table watches, as they happened: the status a write replaced, the breach
    counter a check replaced. *)
Inductive event :=
| EvStatus (id : bytes) (old new : WatchStatus)
| EvCheck (id : bytes) (old new : Z).

(** The database, its history, and the keyed locks that are held. *)
Record DB := mkDB {
  watches : gmap bytes Watch;
  runs : gmap bytes RunStatus;
  alerts : list (bytes * bytes);
  history : list event;
  locks : gset bytes
}.

(** [json.Unmarshal] of a condition, and of its type and metric alone. *)
Class ConditionCodec := {
  UnmarshalCondition : bytes -> option Condition;
  UnmarshalPeek : bytes -> option (bytes * bytes)
}.

Record WatchEvalResult := mkEval { e_Value : float; e_Breached : bool; HasAlert : bool }.

(** ** Calls

    What a watcher calls: the watch store, the keyed locks, the clock, its context, and the
    log store through a condition or a metric. *)
Inductive call : Type -> Type :=
| GetByID (id : bytes) : call Watch
| UpdateAfterCheck (id : bytes) (value : float) (breaches nextCheck : Z) : call unit
| UpdateStatus (id : bytes) (status : WatchStatus) : call unit
| ExpireWatches : call Z
| GetDueWatches : call (list (bytes * Watch))
| ListByStatus (status : WatchStatus) (limit : Z) : call (list (bytes * Watch))
| CreateRun (id : bytes) : call bytes
| CompleteRun (run : bytes) (value : float) (breached : bool) : call unit
| FailRun (run : bytes) : call unit
| CreateAlert (id run : bytes) : call unit
| EvalCondition (c : Condition) (baseline : option WatchBaseline) (environment : bytes) (window : Z) : call ConditionResult
| MeasureMetric (metric service endpoint environment : bytes) (window : Z) : call float
| Lock (id : bytes) : call unit
| Unlock (id : bytes) : call unit
| Now : call Z
| CtxErr : call bool.

Inductive prog (A : Type) : Type :=
| Ret (r : result A)
| Do {B : Type} (c : call B) (k : result B -> prog A).
Arguments Ret {A} r.
Arguments Do {A B} c k.

(** [p], and then what becomes of its result. *)
Fixpoint pthen {A B} (p : prog A) (f : result A -> prog B) : prog B :=
  match p with
  | Ret r => f r
  | Do c k => Do c (fun r => pthen (k r) f)
  end.

#[export] Instance prog_ret : MRet prog := fun A a => Ret (Ok a).
#[export] Instance prog_bind : MBind prog := fun A B f p =>
  pthen p (fun r => match r with Ok a => f a | Err e => Ret (Err e) | Panic => Ret Panic end).

Definition do {B} (c : call B) : prog B := Do c Ret.

(** A result of a function that makes no call. *)
Definition pure {A} (r : result A) : prog A := Ret r.

Definition wrapP {A} (msg : string) (p : prog A) : prog A := pthen p (fun r => Ret (wrap msg r)).

(** A call whose error is only logged. *)
Definition ignore {A} (p : prog A) : prog unit :=
  pthen p (fun r => match r with Panic => Ret Panic | _ => Ret (Ok tt) end).

(** [if err != nil { handle }] around the result of [p]; a panic goes through. *)
Definition on_error {A} (p : prog A) (handle : gerror -> prog A) : prog A :=
  pthen p (fun r => match r with Err e => handle e | _ => Ret r end).

(** [defer]: [d] runs whatever [p] ends in, a panic too. *)
Definition defer {A} (d : prog unit) (p : prog A) : prog A :=
  pthen p (fun r => pthen d (fun _ => Ret r)).

(** ** The evaluator *)

Definition defaultCheckInterval : Z := 30 * second.

Section Evaluator.
Context {K : ConditionCodec}.

Definition ParseCondition (raw : bytes) : result Condition :=
  if bool_decide (raw = []) then Err (configErrorf "empty condition")
  else match UnmarshalCondition raw with
  | None => Err (configErrorf "parsing condition")
  | Some c => Ok c
  end.

Definition evaluateLocked (id : bytes) (w : Watch) : prog WatchEvalResult :=
  let window := parseDurationOr (CheckInterval w) defaultCheckInterval in
  cond ← pure (wrap "parsing conditions" (ParseCondition (ConditionsJSON w)));
  condResult ← wrapP "evaluating conditions" (do (EvalCondition cond (BaselineJSON w) (w_Environment w) window));
  let value := r_Value condResult in
  let breached := Breached condResult in
  let breaches := if breached then ConsecutiveBreaches w + 1 else 0 in
  now ← do Now;
  let nextCheck := now + parseDurationOr (CheckInterval w) defaultCheckInterval in
  wrapP "updating after check" (do (UpdateAfterCheck id value breaches nextCheck));;
  if negb breached then mret (mkEval value breached false)
  else if breaches <? MinConsecutive w then mret (mkEval value breached false)
  else if bool_decide (w_Status w = StatusTriggered) then mret (mkEval value breached false)
  else
    wrapP "updating watch to triggered" (do (UpdateStatus id StatusTriggered));;
    mret (mkEval value breached true).

Definition recordFailedCheck (id : bytes) (w : Watch) (evalErr : gerror) : prog unit :=
  if ErrIs evalErr ErrInvalidWatchConfig then ignore (do (UpdateStatus id StatusExpired))
  else
    let value := default zero (CurrentValue w) in
    now ← do Now;
    let nextCheck := now + parseDurationOr (CheckInterval w) defaultCheckInterval in
    ignore (do (UpdateAfterCheck id value (ConsecutiveBreaches w) nextCheck)).

Definition Evaluate (id : bytes) : prog WatchEvalResult :=
  do (Lock id);;
  defer (do (Unlock id)) (
    cur ← wrapP "reading watch" (do (GetByID id));
    on_error (evaluateLocked id cur) (fun err => recordFailedCheck id cur err;; pure (Err err))).

(** ** Sessions *)

Definition autoResolveDrift : float := literal 10 100.
Definition defaultBaselineWindow : Z := 1 * hour.

Definition ConditionsMetric (raw : bytes) : bytes :=
  if bool_decide (raw = []) || bool_decide (raw = str "null") then []
  else match UnmarshalPeek raw with
  | Some (type, metric) => if bool_decide (type = []) then [] else metric
  | None => []
  end.

Definition CheckAutoResolve (id : bytes) (w : Watch) : prog unit :=
  if negb (bool_decide (w_Status w = StatusTriggered)) then mret tt
  else
    let window := parseDurationOr (BaselineWindow w) defaultBaselineWindow in
    let metric := ConditionsMetric (ConditionsJSON w) in
    if bool_decide (metric = []) then
      cond ← pure (ParseCondition (ConditionsJSON w));
      result ← do (EvalCondition cond (BaselineJSON w) (w_Environment w) (parseDurationOr (CheckInterval w) defaultCheckInterval));
      if negb (Breached result) then do (UpdateStatus id StatusResolved) else mret tt
    else
      match BaselineJSON w with
      | None => mret tt
      | Some baseline =>
          value ← do (MeasureMetric metric (w_Service w) (w_Endpoint w) (w_Environment w) window);
          let baselineValue := baselineValueForMetric baseline metric in
          if feq baselineValue zero then mret tt
          else
            let drift := fdiv (fabs (fsub value baselineValue)) (fabs baselineValue) in
            if fle drift autoResolveDrift then do (UpdateStatus id StatusResolved) else mret tt
      end.

Definition Cleanup : prog unit := ignore (do ExpireWatches).

(** ** The scheduler *)

Definition maxTriggeredWatchesPerPoll : Z := 500.

Definition createAlert (id run : bytes) : prog unit := ignore (do (CreateAlert id run)).

(** [evaluateWatch], and [evaluateOne] of the stream evaluator. *)
Definition evaluateWatch (id : bytes) : prog unit :=
  pthen (do (CreateRun id)) (fun r =>
    match r with
    | Ok run =>
        pthen (Evaluate id) (fun r =>
          match r with
          | Panic => Ret Panic
          | Err _ => ignore (do (FailRun run))
          | Ok result =>
              ignore (do (CompleteRun run (e_Value result) (e_Breached result)));;
              if HasAlert result then createAlert id run else mret tt
          end)
    | Err _ => mret tt
    | Panic => Ret Panic
    end).

(** A loop over watches that ends when the context does. *)
Fixpoint each_watch (body : bytes -> Watch -> prog unit) (ws : list (bytes * Watch)) : prog unit :=
  match ws with
  | [] => mret tt
  | (id, w) :: ws =>
      stopped ← do CtxErr;
      if (stopped : bool) then mret tt else body id w;; each_watch body ws
  end.

Definition checkTriggeredWatches : prog unit :=
  pthen (do (ListByStatus StatusTriggered maxTriggeredWatchesPerPoll)) (fun r =>
    match r with
    | Ok ws =>
        now ← do Now;
        each_watch (fun id w =>
          if match ExpiresAt w with Some t => t <=? now | None => false end
          then ignore (do (UpdateStatus id StatusExpired))
          else ignore (CheckAutoResolve id w)) ws
    | Err _ => mret tt
    | Panic => Ret Panic
    end).

Definition tick : prog unit :=
  Cleanup;;
  checkTriggeredWatches;;
  pthen (do GetDueWatches) (fun r =>
    match r with
    | Ok ws => each_watch (fun id _ => evaluateWatch id) ws
    | Err _ => mret tt
    | Panic => Ret Panic
    end).

(** ** The stream evaluator *)

Definition defaultStreamCheckInterval : Z := 30 * second.

(** Whether the loop of [evaluateMatching] goes on to evaluate a watch. *)
Definition matches_stream (services : gset bytes) (now : Z) (w : Watch) : bool :=
  (bool_decide (w_Service w = []) || bool_decide (w_Service w ∈ services)) &&
  match LastCheckedAt w with
  | Some t => negb (now - t <? Z.quot (parseDurationOr (CheckInterval w) defaultStreamCheckInterval) 2)
  | None => true
  end.

Fixpoint each_matching (services : gset bytes) (now : Z) (ws : list (bytes * Watch)) : prog unit :=
  match ws with
  | [] => mret tt
  | (id, w) :: ws =>
      (if matches_stream services now w then evaluateWatch id else mret tt);; each_matching services now ws
  end.

Definition evaluateMatching (services : gset bytes) : prog unit :=
  pthen (do (ListByStatus StatusActive 0)) (fun r =>
    match r with
    | Ok ws => now ← do Now; each_matching services now ws
    | Err _ => mret tt
    | Panic => Ret Panic
    end).

End Evaluator.

(** ** The store *)

(** What the world decides about one call: whether a statement executes, the clock, the
    context, the log store as it is then, and the id of a new run.  Where SQL leaves the
    order of rows open, it is that of the map. *)
Record choice := mkChoice { works : bool; clock : Z; ctx_done : bool; log_store : LogStore; new_run : bytes }.

Definition ErrNotFound : gerror := Sentinel "not found".

Section Store.
Context {U : Unicode} {T : Text}.

Definition write (id : bytes) (f : Watch -> Watch) (ev : Watch -> list event) (db : DB) : DB * result unit :=
  match watches db !! id with
  | Some w => (mkDB (<[id := f w]> (watches db)) (runs db) (alerts db) (history db ++ ev w) (locks db), Ok tt)
  | None => (db, Err ErrNotFound)
  end.

Definition expirable (now : Z) (w : Watch) : bool :=
  bool_decide (w_Status w = StatusActive) && match ExpiresAt w with Some t => t <=? now | None => false end.

Definition due (now : Z) (w : Watch) : bool :=
  bool_decide (w_Status w = StatusActive) && match NextCheckAt w with Some t => t <=? now | None => true end.

Definition select (p : Watch -> bool) (m : gmap bytes Watch) : list (bytes * Watch) :=
  filter (fun kv => Is_true (p kv.2)) (map_to_list m).

Definition exec (ch : choice) {B} (c : call B) : DB -> DB * result B :=
  let stmt {B : Type} (run : DB -> DB * result B) : DB -> DB * result B := fun db =>
    if works ch then run db else (db, Err (Errorf "database")) in
  match c in call B return DB -> DB * result B with
  | GetByID id => stmt (fun db => (db, match watches db !! id with Some w => Ok w | None => Err ErrNotFound end))
  | UpdateAfterCheck id value breaches nextCheck => stmt (fun db =>
      write id (set_checked value breaches (clock ch) nextCheck) (fun w => [EvCheck id (ConsecutiveBreaches w) breaches]) db)
  | UpdateStatus id status => stmt (fun db =>
      write id (set_status status) (fun w => [EvStatus id (w_Status w) status]) db)
  | ExpireWatches => stmt (fun db =>
      let hit := select (expirable (clock ch)) (watches db) in
      (mkDB ((fun w => if expirable (clock ch) w then set_status StatusExpired w else w) <$> watches db)
        (runs db) (alerts db) (history db ++ ((fun kv => EvStatus kv.1 StatusActive StatusExpired) <$> hit)) (locks db),
       Ok (len hit)))
  | GetDueWatches => stmt (fun db => (db, Ok (select (due (clock ch)) (watches db))))
  | ListByStatus status limit => stmt (fun db =>
      let l := select (fun w => bool_decide (w_Status w = status)) (watches db) in
      (db, Ok (if 0 <? limit then take (Z.to_nat limit) l else l)))
  | CreateRun id => stmt (fun db =>
      (mkDB (watches db) (<[new_run ch := RunRunning]> (runs db)) (alerts db) (history db) (locks db), Ok (new_run ch)))
  | CompleteRun run _ breached => stmt (fun db =>
      match runs db !! run with
      | Some _ => (mkDB (watches db) (<[run := RunCompleted breached]> (runs db)) (alerts db) (history db) (locks db), Ok tt)
      | None => (db, Err ErrNotFound)
      end)
  | FailRun run => stmt (fun db =>
      match runs db !! run with
      | Some _ => (mkDB (watches db) (<[run := RunFailed]> (runs db)) (alerts db) (history db) (locks db), Ok tt)
      | None => (db, Err ErrNotFound)
      end)
  | CreateAlert id run => stmt (fun db =>
      (mkDB (watches db) (runs db) (alerts db ++ [(id, run)]) (history db) (locks db), Ok tt))
  | EvalCondition c baseline environment window => fun db =>
      (db, EvaluateCondition (L := log_store ch) (clock ch) baseline environment window c)
  | MeasureMetric metric service endpoint environment window => fun db =>
      (db, Measure (L := log_store ch) (clock ch) metric service endpoint environment window)
  | Lock id => fun db => (mkDB (watches db) (runs db) (alerts db) (history db) ({[id]} ∪ locks db), Ok tt)
  | Unlock id => fun db => (mkDB (watches db) (runs db) (alerts db) (history db) (locks db ∖ {[id]}), Ok tt)
  | Now => fun db => (db, Ok (clock ch))
  | CtxErr => fun db => (db, Ok (ctx_done ch))
  end.

(** A program on its own, the n-th call under the n-th choice. *)
Fixpoint interp (chs : nat -> choice) (n : nat) {A} (p : prog A) (db : DB) : DB * result A :=
  match p with
  | Ret r => (db, r)
  | Do c k => let '(db, r) := exec (chs n) c db in interp chs (S n) (k r) db
  end.

(** ** Interleavings *)

(** Any number of threads, and the ids that were ever given out. *)
Record System := mkSystem { db : DB; threads : list (prog unit); used : gset bytes }.

(** A lock that is held blocks. *)
Definition enabled {B} (c : call B) (db : DB) : bool :=
  match c with Lock id => bool_decide (id ∉ locks db) | _ => true end.

Definition with_watches (m : gmap bytes Watch) (db : DB) : DB := mkDB m (runs db) (alerts db) (history db) (locks db).

Context {K : ConditionCodec}.

(** One step: a call of a thread, a new scheduler tick or stream evaluation, or a write of
    the tools: a watch is created under a new id, deleted, or given a baseline. *)
Inductive step : System -> System -> Prop :=
| step_call s i B (c : call B) k ch :
    threads s !! i = Some (Do c k) -> enabled c (db s) = true ->
    step s (mkSystem (exec ch c (db s)).1 (<[i := k (exec ch c (db s)).2]> (threads s)) (used s))
| step_tick s : step s (mkSystem (db s) (threads s ++ [tick]) (used s))
| step_stream s services : step s (mkSystem (db s) (threads s ++ [evaluateMatching services]) (used s))
| step_create s id w :
    id ∉ used s -> w_Status w = StatusActive -> ConsecutiveBreaches w = 0 ->
    step s (mkSystem (with_watches (<[id := w]> (watches (db s))) (db s)) (threads s) ({[id]} ∪ used s))
| step_delete s id : step s (mkSystem (with_watches (delete id (watches (db s))) (db s)) (threads s) (used s))
| step_baseline s id w b :
    watches (db s) !! id = Some w ->
    step s (mkSystem (with_watches (<[id := set_baseline b w]> (watches (db s))) (db s)) (threads s) (used s)).

(** A start of the process over a database that has no history yet. *)
Definition initial (s : System) : Prop :=
  threads s = [] /\ locks (db s) = ∅ /\ history (db s) = [] /\ alerts (db s) = [] /\ dom (watches (db s)) ⊆ used s.

Inductive reachable : System -> Prop :=
| reach_initial s : initial s -> reachable s
| reach_step s s' : reachable s -> step s s' -> reachable s'.

End Store.

(** ** The protocol of a thread

    What a thread may assume and owes, from its calls alone: the lock it holds and what it
    has read under it, and whether it may create an alert. *)
Inductive own := Free | Locked (id : bytes) | Read (id : bytes) (w : Watch) | Done (id : bytes) (w : Watch) (n : Z).

Record tstate := mkT { owns : own; credit : option bytes }.

Definition own_id (o : own) : option bytes :=
  match o with Free => None | Locked id | Read id _ | Done id _ _ => Some id end.

(** The row read under the lock, with the counter the thread left in it. *)
Definition own_row (o : own) : option (bytes * Watch * Z) :=
  match o with
  | Read id w => Some (id, w, ConsecutiveBreaches w)
  | Done id w n => Some (id, w, n)
  | _ => None
  end.

Definition near (old new : Z) : Prop := new = 0 \/ Z.abs (new - old) <= 1.

Definition pre {B} (c : call B) (st : tstate) : Prop :=
  match c with
  | Lock id => owns st = Free
  | Unlock id => own_id (owns st) = Some id
  | GetByID id => own_id (owns st) = Some id
  | UpdateAfterCheck id _ n _ => exists w m, own_row (owns st) = Some (id, w, m) /\ near m n
  | UpdateStatus id StatusTriggered =>
      credit st = None /\ exists w m, own_row (owns st) = Some (id, w, m) /\ w_Status w <> StatusTriggered
  | CreateAlert id _ => credit st = Some id
  | _ => True
  end.

Definition post {B} (c : call B) (st : tstate) : result B -> tstate -> Prop :=
  match c in call B return result B -> tstate -> Prop with
  | Lock id => fun r st' => r = Ok tt /\ st' = mkT (Locked id) (credit st)
  | Unlock id => fun r st' => r = Ok tt /\ st' = mkT Free (credit st)
  | GetByID id => fun r st' =>
      match r with Ok w => st' = mkT (Read id w) (credit st) | Err _ => st' = st | Panic => False end
  | UpdateAfterCheck id _ n _ => fun r st' =>
      match r with
      | Ok _ => exists w m, own_row (owns st) = Some (id, w, m) /\ st' = mkT (Done id w n) (credit st)
      | Err _ => st' = st
      | Panic => False
      end
  | UpdateStatus id status => fun r st' =>
      match r with
      | Ok _ => st' = if bool_decide (status = StatusTriggered) then mkT (Locked id) (Some id) else st
      | Err _ => st' = st
      | Panic => False
      end
  | CreateAlert id _ => fun r st' => r <> Panic /\ st' = mkT (owns st) None
  | EvalCondition _ _ _ _ | MeasureMetric _ _ _ _ _ => fun _ st' => st' = st
  | _ => fun r st' => r <> Panic /\ st' = st
  end.

(** Every call of a program respects the protocol, and it ends in [Q]. *)
Fixpoint follows {A} (p : prog A) (Q : tstate -> result A -> Prop) (st : tstate) : Prop :=
  match p with
  | Ret r => Q st r
  | Do c k => pre c st /\ forall r st', post c st r st' -> follows (k r) Q st'
  end.

Lemma follows_mono {A} (p : prog A) (Q Q' : tstate -> result A -> Prop) st :
  follows p Q st -> (forall st r, Q st r -> Q' st r) -> follows p Q' st.
Proof.
  intros Hp HQ. revert st Hp. induction p as [r | B c k IH]; intros st; cbn; [apply HQ |].
  intros [Hpre Hk]. split; [done |]. intros r st' Hpost. apply IH. by apply Hk.
Qed.

Lemma follows_then {A B} (p : prog A) (f : result A -> prog B) Q st :
  follows p (fun st r => follows (f r) Q st) st -> follows (pthen p f) Q st.
Proof.
  revert st. induction p as [r | C c k IH]; intros st; [done |]. cbn. intros [Hpre Hk]. split; [done |].
  intros r st' Hpost. apply IH. by apply Hk.
Qed.

Lemma follows_bind {A B} (p : prog A) (f : A -> prog B) Q st :
  follows p (fun st r => match r with Ok a => follows (f a) Q st | Err e => Q st (Err e) | Panic => Q st Panic end) st ->
  follows (p ≫= f) Q st.
Proof. intros Hp. apply follows_then. eapply follows_mono; [exact Hp |]. by intros st' [a | e |]. Qed.

Section Protocol.
Context {K : ConditionCodec}.

Lemma follows_do {B} (c : call B) (Q : tstate -> result B -> Prop) st :
  pre c st -> (forall r st', post c st r st' -> Q st' r) -> follows (do c) Q st.
Proof. intros Hpre Hk. split; [done | exact Hk]. Qed.

Lemma follows_wrap {A} msg (p : prog A) (Q : tstate -> result A -> Prop) st :
  follows p (fun st r => Q st (wrap msg r)) st -> follows (wrapP msg p) Q st.
Proof. intros Hp. by apply follows_then. Qed.

Lemma follows_ignore {A} (p : prog A) (Q : tstate -> result unit -> Prop) st :
  follows p (fun st r => Q st (match r with Panic => Panic | _ => Ok tt end)) st -> follows (ignore p) Q st.
Proof. intros Hp. apply follows_then. eapply follows_mono; [exact Hp |]. by intros st' [a | e |]. Qed.

Definition idle : tstate := mkT Free None.

(** The state an evaluation leaves its thread in, but for the lock. *)
Definition after_eval (id : bytes) (st : tstate) (r : result WatchEvalResult) : Prop :=
  own_id (owns st) = Some id /\
  credit st = match r with Ok res => if HasAlert res then Some id else None | _ => None end.

Lemma follows_evaluateLocked id w :
  follows (evaluateLocked id w) (fun st r => after_eval id st r /\
    (r <> Panic -> is_ok r = false -> exists m, own_row (owns st) = Some (id, w, m) /\ near m (ConsecutiveBreaches w)))
    (mkT (Read id w) None).
Proof.
  assert (near (ConsecutiveBreaches w) (ConsecutiveBreaches w)) as Hnear by (right; lia).
  unfold evaluateLocked, pure. apply follows_bind. cbn [follows].
  destruct (wrap "parsing conditions" (ParseCondition (ConditionsJSON w))) as [cond | e |]; [| by repeat (split || exists (ConsecutiveBreaches w)) | done].
  apply follows_bind, follows_wrap, follows_do; [done |]. intros r st' ->.
  destruct r as [[breached value] | e |]; cbn [wrap Breached r_Value]; [| by repeat (split || exists (ConsecutiveBreaches w)) | done].
  apply follows_bind, follows_do; [done |]. intros r st' [Hr ->]. destruct r as [now | e |]; [| by repeat (split || exists (ConsecutiveBreaches w)) | done].
  set (n := if breached then ConsecutiveBreaches w + 1 else 0).
  apply follows_bind, follows_wrap, follows_do.
  { exists w, (ConsecutiveBreaches w). split; [done |]. unfold n, near. destruct breached; lia. }
  intros r st' Hpost. destruct r as [[] | e |]; cbn [post] in Hpost; [| subst st'; by repeat (split || exists (ConsecutiveBreaches w)) | done].
  destruct Hpost as (w' & m & [= <- <-] & ->). cbn [wrap credit].
  destruct breached; cbn [negb]; [| by repeat split].
  destruct (n <? MinConsecutive w); [by repeat split |]. case_bool_decide as Hs; [by repeat split |].
  apply follows_bind, follows_wrap, follows_do; [split; [done |]; by exists w, n |].
  intros r st' Hpost. destruct r as [[] | e |]; cbn [post] in Hpost; [| | done]; subst st'; cbn [wrap]; [by repeat split |].
  split; [done |]. intros _ _. exists n. split; [done |]. unfold n, near. lia.
Qed.

Lemma follows_recordFailedCheck id w e st m :
  own_row (owns st) = Some (id, w, m) -> near m (ConsecutiveBreaches w) ->
  follows (recordFailedCheck id w e) (fun st' _ => own_id (owns st') = Some id /\ credit st' = credit st) st.
Proof.
  intros Hrow Hnear. assert (own_id (owns st) = Some id) as Hid by (destruct (owns st); naive_solver).
  unfold recordFailedCheck. destruct (ErrIs e ErrInvalidWatchConfig).
  - apply follows_ignore, follows_do; [done |]. intros r st' Hpost. destruct r as [[] | e' |]; cbn in Hpost; [| | done]; by subst st'.
  - apply follows_bind, follows_do; [done |]. intros r st' [Hr ->]. destruct r as [now | e' |]; [| done | done].
    apply follows_ignore, follows_do; [by exists w, m |]. intros r' st' Hpost.
    destruct r' as [[] | e' |]; cbn in Hpost; [| by subst st' | done]. destruct Hpost as (w' & m' & Hrow' & ->).
    by split.
Qed.

Lemma follows_Evaluate id :
  follows (Evaluate id) (fun st r => st = mkT Free (match r with Ok res => if HasAlert res then Some id else None | _ => None end)) idle.
Proof.
  unfold Evaluate. apply follows_bind, follows_do; [done |]. intros r st' [-> ->]. apply follows_then.
  assert (forall st (r : result WatchEvalResult), after_eval id st r ->
    follows (pthen (do (Unlock id)) (fun _ => Ret r)) (fun st r => st = mkT Free (match r with Ok res => if HasAlert res then Some id else None | _ => None end)) st) as Hun.
  { intros st r [Hid Hcr]. split; [done |]. intros u st' [_ ->]. cbn. by rewrite Hcr. }
  eapply follows_mono; [| exact Hun]. clear Hun. apply follows_bind, follows_wrap, follows_do; [done |].
  intros r st' Hpost. destruct r as [w | e |]; cbn in Hpost; [| subst st'; by split | done]. subst st'. cbn [wrap].
  apply follows_then. eapply follows_mono; [apply follows_evaluateLocked |]. intros st r [[Hid Hcr] Herr].
  destruct r as [res | e |]; [by split | | by split]. destruct (Herr ltac:(done) eq_refl) as (m & Hrow & Hnear).
  apply follows_bind. eapply follows_mono; [by eapply follows_recordFailedCheck |]. intros st' r' [Hid' Hcr'].
  destruct r'; cbn [follows]; (split; [done | by rewrite Hcr', Hcr]).
Qed.

(** A thread between two watches. *)
Definition ends_idle {A} (st : tstate) (r : result A) : Prop := st = idle.

(** A call that leaves the thread as it is, and its result for the next. *)
Lemma follows_neutral {B} (c : call B) st :
  (forall r st', post c st r st' -> st' = st) -> pre c st -> follows (do c) (fun st' _ => st' = st) st.
Proof. intros Hp Hpre. apply follows_do; [done |]. exact Hp. Qed.

Lemma follows_evaluateWatch id : follows (evaluateWatch id) ends_idle idle.
Proof.
  unfold evaluateWatch. apply follows_then, follows_do; [done |]. intros r st' [Hr ->].
  destruct r as [run | e |]; [| done | done]. apply follows_then. eapply follows_mono; [apply follows_Evaluate |].
  intros st r ->. destruct r as [res | e |]; [| | done].
  - apply follows_bind, follows_ignore, follows_do; [done |]. intros r st' [Hr' ->]. destruct r as [[] | e |]; [| | done];
      (destruct (HasAlert res); [| done]); apply follows_ignore, follows_do; try done; intros r st' [_ ->]; done.
  - apply follows_ignore, follows_do; [done |]. by intros r st' [_ ->].
Qed.

Lemma follows_each_watch (body : bytes -> Watch -> prog unit) ws :
  (forall id w, follows (body id w) ends_idle idle) -> follows (each_watch body ws) ends_idle idle.
Proof.
  intros Hb. induction ws as [| [id w] ws IH]; [done |]. cbn [each_watch]. apply follows_bind, follows_do; [done |].
  intros r st' [Hr ->]. destruct r as [stopped | e |]; [| done | done]. destruct stopped; [done |].
  apply follows_bind. eapply follows_mono; [apply Hb |]. intros st r ->. by destruct r.
Qed.

Lemma follows_CheckAutoResolve id w : follows (CheckAutoResolve id w) ends_idle idle.
Proof.
  assert (follows (do (UpdateStatus id StatusResolved)) (@ends_idle unit) idle) as Hres.
  { apply follows_do; [done |]. intros [[] | e |] st' Hpost; cbn in Hpost; by subst. }
  unfold CheckAutoResolve. destruct (negb _); [done |]. case_bool_decide as Hm.
  - unfold pure. apply follows_bind. cbn [follows]. destruct (ParseCondition (ConditionsJSON w)) as [c | e |]; [| done | done].
    apply follows_bind, follows_do; [done |]. intros r st' ->. destruct r as [res | e |]; [| done | done].
    by destruct (negb (Breached res)).
  - destruct (BaselineJSON w) as [b |]; [| done]. apply follows_bind, follows_do; [done |]. intros r st' ->.
    destruct r as [v | e |]; [| done | done]. destruct (feq _ _); [done |]. by destruct (fle _ _).
Qed.

Lemma follows_tick : follows tick ends_idle idle.
Proof.
  unfold tick. apply follows_bind. unfold Cleanup. apply follows_ignore, follows_do; [done |]. intros r st' [Hr ->].
  assert (follows (checkTriggeredWatches;; pthen (do GetDueWatches) (fun r =>
    match r with Ok ws => each_watch (fun id _ => evaluateWatch id) ws | Err _ => mret tt | Panic => Ret Panic end))
    ends_idle idle) as Hmain; [| by destruct r]. clear r Hr.
  apply follows_bind. unfold checkTriggeredWatches. apply follows_then, follows_do; [done |]. intros r st' [Hr ->].
  assert (forall st (r : result unit), st = idle -> match r with
    | Ok _ => follows (pthen (do GetDueWatches) (fun r => match r with Ok ws => each_watch (fun id _ => evaluateWatch id) ws | Err _ => mret tt | Panic => Ret Panic end)) ends_idle st
    | Err e => ends_idle st (@Err unit e) | Panic => ends_idle st (@Panic unit) end) as Hdue.
  { intros st [[] | e |] ->; [| done | done]. apply follows_then, follows_do; [done |]. intros r' st' [Hr' ->].
    destruct r' as [ws | e |]; [| done | done]. apply follows_each_watch. intros id w. apply follows_evaluateWatch. }
  destruct r as [ws | e |]; [| exact (Hdue idle (Ok tt) eq_refl) | done].
  apply follows_bind, follows_do; [done |]. intros r st' [Hr' ->]. destruct r as [now | e |]; [| done | done].
  eapply follows_mono; [apply follows_each_watch | exact Hdue]. intros id w. destruct (match ExpiresAt w with Some t => _ | None => _ end).
  - apply follows_ignore, follows_do; [done |]. intros [[] | e |] st' Hpost; cbn in Hpost; by subst.
  - apply follows_ignore. eapply follows_mono; [apply follows_CheckAutoResolve |]. done.
Qed.

Lemma follows_evaluateMatching services : follows (evaluateMatching services) ends_idle idle.
Proof.
  unfold evaluateMatching. apply follows_then, follows_do; [done |]. intros r st' [Hr ->]. destruct r as [ws | e |]; [| done | done].
  apply follows_bind, follows_do; [done |]. intros r st' [Hr' ->]. destruct r as [now | e |]; [| done | done].
  clear Hr Hr'. induction ws as [| [id w] ws IH]; [done |]. cbn [each_matching]. apply follows_bind.
  eapply follows_mono with (Q := ends_idle).
  - destruct (matches_stream services now w); [apply follows_evaluateWatch | done].
  - intros st r ->. destruct r; [exact IH | done | done].
Qed.

End Protocol.

(** ** The invariant of a system *)

Definition ev_ok (e : event) : Prop :=
  match e with
  | EvStatus _ old StatusTriggered => old <> StatusTriggered
  | EvStatus _ _ _ => True
  | EvCheck _ old new => near old new
  end.

Definition is_trigger (id : bytes) (e : event) : bool :=
  match e with EvStatus id' _ StatusTriggered => bool_decide (id' = id) | _ => false end.

(** How often a watch was triggered, and its alerts. *)
Definition triggers (id : bytes) (h : list event) : nat := length (filter (fun e => Is_true (is_trigger id e)) h).
Definition alerts_of (id : bytes) (l : list (bytes * bytes)) : nat := length (filter (fun a => a.1 = id) l).

Definition due_alert (id : bytes) (st : tstate) : nat := if decide (credit st = Some id) then 1 else 0.

(** What a thread knows of the row it has read under its lock. *)
Definition row_ok (m : gmap bytes Watch) (o : own) : Prop :=
  forall id w n row, own_row o = Some (id, w, n) -> m !! id = Some row ->
    ConsecutiveBreaches row = n /\ (w_Status row = StatusTriggered -> w_Status w = StatusTriggered).

Section Invariant.
Context {U : Unicode} {T : Text} {K : ConditionCodec}.

Record inv (s : System) (sts : list tstate) : Prop := {
  inv_threads : Forall2 (fun st p => follows p ends_idle st) sts (threads s);
  inv_locks id : id ∈ locks (db s) <-> exists i st, sts !! i = Some st /\ own_id (owns st) = Some id;
  inv_unique i j st st' id : sts !! i = Some st -> sts !! j = Some st' ->
    own_id (owns st) = Some id -> own_id (owns st') = Some id -> i = j;
  inv_rows i st : sts !! i = Some st -> row_ok (watches (db s)) (owns st);
  inv_used : dom (watches (db s)) ⊆ used s;
  inv_read i st id w n : sts !! i = Some st -> own_row (owns st) = Some (id, w, n) -> id ∈ used s;
  inv_history : Forall ev_ok (history (db s));
  inv_alerts id : (alerts_of id (alerts (db s)) + sum_list_with (due_alert id) sts <= triggers id (history (db s)))%nat
}.

Lemma sum_with_insert (f : tstate -> nat) sts i st st' : sts !! i = Some st ->
  (sum_list_with f (<[i := st']> sts) + f st = sum_list_with f sts + f st')%nat.
Proof.
  revert i. induction sts as [| x sts IH]; intros [| i] Hi; try done; cbn [sum_list_with] in *.
  - injection Hi as ->. cbn. lia.
  - specialize (IH i Hi). change (<[S i := st']> (x :: sts)) with (x :: <[i := st']> sts). cbn [sum_list_with]. lia.
Qed.

Lemma triggers_app id h h' : triggers id (h ++ h') = (triggers id h + triggers id h')%nat.
Proof. unfold triggers. by rewrite filter_app, length_app. Qed.

Lemma alerts_of_app id l l' : alerts_of id (l ++ l') = (alerts_of id l + alerts_of id l')%nat.
Proof. unfold alerts_of. by rewrite filter_app, length_app. Qed.

(** What one call does to the database, seen from the thread [st] that becomes [st']. *)
Record effect (db db' : DB) (st st' : tstate) (ids : gset bytes) : Prop := {
  eff_locks id : id ∈ locks db' <-> (id ∈ locks db /\ own_id (owns st) <> Some id) \/ own_id (owns st') = Some id;
  eff_fresh id : own_id (owns st') = Some id -> own_id (owns st) = Some id \/ id ∉ locks db;
  eff_row : row_ok (watches db') (owns st');
  eff_others o : (forall id, own_id o = Some id -> own_id (owns st) <> Some id) ->
    row_ok (watches db) o -> row_ok (watches db') o;
  eff_dom : dom (watches db') ⊆ dom (watches db);
  eff_read id w n : own_row (owns st') = Some (id, w, n) -> id ∈ ids;
  eff_history : exists evs, history db' = history db ++ evs /\ Forall ev_ok evs;
  eff_alerts id : (alerts_of id (alerts db') + due_alert id st' + triggers id (history db) <=
    alerts_of id (alerts db) + due_alert id st + triggers id (history db'))%nat
}.

Lemma inv_effect s sts i st st' p db' :
  inv s sts -> sts !! i = Some st -> effect (db s) db' st st' (used s) -> follows p ends_idle st' ->
  inv (mkSystem db' (<[i := p]> (threads s)) (used s)) (<[i := st']> sts).
Proof.
  intros I Hi E Hp. assert (i < length sts)%nat as Hlt by (by apply lookup_lt_Some in Hi).
  assert (forall j x, <[i := st']> sts !! j = Some x -> (j = i /\ x = st') \/ (j <> i /\ sts !! j = Some x)) as Hlook.
  { intros j x. destruct (decide (j = i)) as [-> | Hn].
    - rewrite list_lookup_insert_eq by done. intros [= <-]. by left.
    - rewrite list_lookup_insert_ne by done. by right. }
  split; cbn [db threads used].
  - by apply Forall2_insert; [apply (inv_threads s) |].
  - intros id. rewrite (eff_locks _ _ _ _ _ E id). split.
    + intros [[Hin Hno] | Ho]; [| by exists i, st'; rewrite list_lookup_insert_eq].
      apply (inv_locks _ _ I) in Hin as (j & x & Hj & Hx). exists j, x. split; [| done].
      rewrite list_lookup_insert_ne; [done |]. intros ->. congruence.
    + intros (j & x & Hj & Hx). apply Hlook in Hj as [[-> ->] | [Hn Hj]]; [by right |]. left. split.
      * apply (inv_locks _ _ I). by exists j, x.
      * intros Ho. by apply Hn, (inv_unique _ _ I j i x st id).
  - intros j k x y id Hj Hk Hx Hy. apply Hlook in Hj as [[-> ->] | [Hn Hj]]; apply Hlook in Hk as [[-> ->] | [Hn' Hk]]; [done | | |].
    + exfalso. destruct (eff_fresh _ _ _ _ _ E id Hx) as [Ho | Ho]; [by apply Hn', (inv_unique _ _ I k i y st id) |].
      apply Ho, (inv_locks _ _ I). by exists k, y.
    + exfalso. destruct (eff_fresh _ _ _ _ _ E id Hy) as [Ho | Ho]; [by apply Hn, (inv_unique _ _ I j i x st id) |].
      apply Ho, (inv_locks _ _ I). by exists j, x.
    + by apply (inv_unique _ _ I j k x y id).
  - intros j x Hj. apply Hlook in Hj as [[-> ->] | [Hn Hj]]; [apply (eff_row _ _ _ _ _ E) |].
    apply (eff_others _ _ _ _ _ E); [| by apply (inv_rows _ _ I j)]. intros id Hx Ho. by apply Hn, (inv_unique _ _ I j i x st id).
  - etrans; [apply (eff_dom _ _ _ _ _ E) | apply (inv_used _ _ I)].
  - intros j x id w n Hj Hr. apply Hlook in Hj as [[-> ->] | [Hn Hj]]; [by eapply (eff_read _ _ _ _ _ E) | by eapply (inv_read _ _ I j)].
  - destruct (eff_history _ _ _ _ _ E) as (evs & -> & Hev). apply Forall_app_2; [apply (inv_history _ _ I) | done].
  - intros id. pose proof (inv_alerts _ _ I id). pose proof (eff_alerts _ _ _ _ _ E id).
    pose proof (sum_with_insert (due_alert id) sts i st st' Hi). lia.
Qed.

(** A call that leaves the tables, the history and the locks alone. *)
Lemma effect_none db db' st st' ids :
  watches db' = watches db -> history db' = history db -> locks db' = locks db -> alerts db' = alerts db ->
  owns st' = owns st -> (credit st' = credit st \/ credit st' = None) ->
  (forall id, own_id (owns st) = Some id -> id ∈ locks db) -> row_ok (watches db) (owns st) ->
  (forall id w n, own_row (owns st) = Some (id, w, n) -> id ∈ ids) -> effect db db' st st' ids.
Proof.
  intros Hw Hh Hl Ha Ho Hc Hlk Hr Hu. split; rewrite ?Hw, ?Hh, ?Hl, ?Ha, ?Ho; try done.
  - intros id. split; [| naive_solver]. intros Hin. destruct (decide (own_id (owns st) = Some id)); naive_solver.
  - naive_solver.
  - exists []. by rewrite app_nil_r.
  - intros id. unfold due_alert. destruct Hc as [-> | ->]; [lia |]. rewrite (decide_False (P := None = Some id)) by done.
    destruct (decide _); lia.
Qed.

Lemma own_row_id o id w n : own_row o = Some (id, w, n) -> own_id o = Some id.
Proof. destruct o; naive_solver. Qed.

Section Exec.
Context (ch : choice) (st : tstate) (d : DB) (ids : gset bytes).
Context (Hlk : forall id, own_id (owns st) = Some id -> id ∈ locks d)
  (Hrow : row_ok (watches d) (owns st))
  (Hrd : forall id w n, own_row (owns st) = Some (id, w, n) -> id ∈ ids)
  (Hdom : dom (watches d) ⊆ ids).

(** The step of a call: where its thread goes, and what it does. *)
Definition goes {B} (c : call B) : Prop :=
  exists st', post c st (exec ch c d).2 st' /\ effect d (exec ch c d).1 st st' ids.

Lemma still d' : watches d' = watches d -> history d' = history d -> locks d' = locks d -> alerts d' = alerts d ->
  effect d d' st st ids.
Proof. intros. apply effect_none; auto. Qed.

(** A write of one row whose counter the thread may set, or whose status. *)
Lemma effect_write id w f ev st' :
  watches d !! id = Some w -> own_id (owns st') = own_id (owns st) ->
  (forall id w n, own_row (owns st') = Some (id, w, n) -> exists w' n', own_row (owns st) = Some (id, w', n')) ->
  row_ok (<[id := f w]> (watches d)) (owns st') ->
  (forall o, (forall id, own_id o = Some id -> own_id (owns st) <> Some id) -> row_ok (watches d) o -> row_ok (<[id := f w]> (watches d)) o) ->
  Forall ev_ok (ev w) ->
  (forall id', due_alert id' st' <= due_alert id' st + triggers id' (ev w))%nat ->
  effect d (write id f ev d).1 st st' ids.
Proof.
  intros Hw Ho Hr Hrow' Hoth Hev Hal. unfold write. rewrite Hw. cbn [fst].
  split; cbn [watches runs alerts history locks]; rewrite ?Ho; try done.
  - intros id'. split; [| naive_solver]. intros Hin. destruct (decide (own_id (owns st) = Some id')); naive_solver.
  - intros id' Hid. naive_solver.
  - rewrite dom_insert_L. apply elem_of_dom_2 in Hw. set_solver.
  - intros id' w' n Hrr. destruct (Hr _ _ _ Hrr) as (w'' & n' & Hs). eauto.
  - by exists (ev w).
  - intros id'. rewrite triggers_app. specialize (Hal id'). lia.
Qed.

(** A new status other than triggered is compatible with whatever a thread has read. *)
Lemma row_ok_status m id w s o : s <> StatusTriggered -> m !! id = Some w -> row_ok m o -> row_ok (<[id := set_status s w]> m) o.
Proof.
  intros Hs Hw Ho id' w' n row Hr. destruct (decide (id' = id)) as [-> | Hn].
  - rewrite lookup_insert_eq. intros [= <-]. destruct (Ho id w' n w Hr Hw) as [Hn _]. by split.
  - rewrite lookup_insert_ne by done. by apply Ho.
Qed.

(** A row one thread writes under its lock is none that another has read. *)
Lemma row_ok_other m id row o : own_id (owns st) = Some id ->
  (forall id, own_id o = Some id -> own_id (owns st) <> Some id) -> row_ok m o -> row_ok (<[id := row]> m) o.
Proof.
  intros Hid Hne Ho id' w' n r Hr. destruct (decide (id' = id)) as [-> | Hn].
  - apply own_row_id in Hr. by destruct (Hne id Hr).
  - rewrite lookup_insert_ne by done. by apply Ho.
Qed.

Lemma goes_UpdateAfterCheck id value n nextCheck : pre (UpdateAfterCheck id value n nextCheck) st -> goes (UpdateAfterCheck id value n nextCheck).
Proof.
  intros (w & m & Hr & Hnear). unfold goes. cbn [exec post]. destruct (works ch); [| exists st; split; [done | by apply still]].
  destruct (watches d !! id) as [row |] eqn:Hw; cycle 1.
  { unfold write. rewrite Hw. exists st. split; [done |]. by apply still. }
  destruct (Hrow id w m row Hr Hw) as [Hm Hst]. pose proof (own_row_id _ _ _ _ Hr) as Hid.
  exists (mkT (Done id w n) (credit st)). split; [unfold write; rewrite Hw; cbn; by exists w, m |].
  apply (effect_write id row); [done | by rewrite Hid | | | | |].
  - intros id' w' n' [= <- <- <-]. eauto.
  - intros id' w' n' r [= <- <- <-]. rewrite lookup_insert_eq. by intros [= <-].
  - intros o Hne. by apply row_ok_other.
  - constructor; [| by constructor]. cbn. by rewrite Hm.
  - intros id'. unfold due_alert. cbn. lia.
Qed.

Lemma goes_UpdateStatus id s : pre (UpdateStatus id s) st -> goes (UpdateStatus id s).
Proof.
  intros Hpre. unfold goes. cbn [exec post]. destruct (works ch); [| exists st; split; [done | by apply still]].
  destruct (watches d !! id) as [row |] eqn:Hw; cycle 1.
  { unfold write. rewrite Hw. exists st. split; [done |]. by apply still. }
  destruct (decide (s = StatusTriggered)) as [-> | Hs].
  - destruct Hpre as (Hcr & w & m & Hr & Hst). destruct (Hrow id w m row Hr Hw) as [Hm Hst']. pose proof (own_row_id _ _ _ _ Hr) as Hid.
    exists (mkT (Locked id) (Some id)). split; [unfold write; by rewrite Hw |].
    apply (effect_write id row); [done | by rewrite Hid | done | done | | |].
    + intros o Hne. by apply row_ok_other.
    + constructor; [| by constructor]. cbn. naive_solver.
    + intros id'. unfold due_alert, triggers. cbn [credit]. destruct (decide (Some id = Some id')) as [[= ->] | _]; [| lia].
      rewrite filter_cons_True by (cbn; by rewrite bool_decide_true). cbn. lia.
  - exists st. split; [unfold write; rewrite Hw; cbn; by rewrite bool_decide_false by done |].
    apply (effect_write id row); [done | done | eauto | by apply row_ok_status | | |].
    + intros o _. by apply row_ok_status.
    + constructor; [| by constructor]. by destruct s.
    + intros id'. lia.
Qed.

Lemma row_ok_expire now m o : row_ok m o ->
  row_ok ((fun w => if expirable now w then set_status StatusExpired w else w) <$> m) o.
Proof.
  intros Ho id w n row Hr. rewrite lookup_fmap. destruct (m !! id) as [x |] eqn:Hx; [| done]. intros [= <-].
  destruct (Ho id w n x Hr Hx) as [Hn Hs]. destruct (expirable now x); by split.
Qed.

Lemma goes_ExpireWatches : goes ExpireWatches.
Proof.
  unfold goes. cbn [exec post]. exists st. destruct (works ch); [| split; [done | by apply still]]. split; [done |].
  set (hit := select (expirable (clock ch)) (watches d)).
  split; cbn [fst watches runs alerts history locks]; try done.
  - intros id. split; [| naive_solver]. intros Hin. destruct (decide (own_id (owns st) = Some id)); naive_solver.
  - naive_solver.
  - by apply row_ok_expire.
  - intros o _. by apply row_ok_expire.
  - by rewrite dom_fmap_L.
  - exists ((fun kv => EvStatus kv.1 StatusActive StatusExpired) <$> hit). split; [done |].
    apply Forall_fmap, Forall_true. by intros [].
  - intros id. rewrite triggers_app. lia.
Qed.

Lemma goes_GetByID id : pre (GetByID id) st -> goes (GetByID id).
Proof.
  intros Hid. unfold goes. cbn [exec post]. destruct (works ch); [| exists st; split; [done | by apply still]].
  destruct (watches d !! id) as [w |] eqn:Hw; [| exists st; split; [done | by apply still]].
  exists (mkT (Read id w) (credit st)). split; [done |]. cbn [pre] in Hid.
  split; cbn [fst owns own_id]; try done.
  - intros id'. split; [| naive_solver]. intros Hin. destruct (decide (Some id = Some id')); naive_solver.
  - naive_solver.
  - intros id' w' n row [= <- <- <-]. rewrite Hw. intros [= <-]. done.
  - intros id' w' n [= <- <- <-]. apply Hdom. by apply elem_of_dom_2 in Hw.
  - exists []. by rewrite app_nil_r.
Qed.

Lemma goes_CreateAlert id run : pre (CreateAlert id run) st -> goes (CreateAlert id run).
Proof.
  intros Hcr. unfold goes. cbn [exec post]. exists (mkT (owns st) None). destruct (works ch); cbn [fst snd].
  - split; [done |]. split; cbn [watches runs alerts history locks owns credit]; try done.
    + intros id'. split; [| naive_solver]. intros Hin. destruct (decide (own_id (owns st) = Some id')); naive_solver.
    + naive_solver.
    + exists []. by rewrite app_nil_r.
    + intros id'. rewrite alerts_of_app. unfold due_alert, alerts_of. cbn [credit]. rewrite Hcr.
      destruct (decide (id = id')) as [-> | Hn].
      * rewrite filter_cons_True, decide_False, decide_True by done. cbn. lia.
      * rewrite filter_cons_False, !decide_False by (cbn; congruence). cbn. lia.
  - split; [done |]. apply effect_none; auto.
Qed.

Lemma goes_Lock id : pre (Lock id) st -> enabled (Lock id) d = true -> goes (Lock id).
Proof.
  intros Ho He%bool_decide_eq_true. cbn in Ho. unfold goes. cbn [exec post fst snd].
  exists (mkT (Locked id) (credit st)). split; [done |]. rewrite Ho in *.
  split; cbn [watches runs alerts history locks owns credit own_id]; try done.
  - intros id'. rewrite elem_of_union, elem_of_singleton, Ho. cbn. naive_solver.
  - intros id' [= <-]. by right.
  - exists []. by rewrite app_nil_r.
Qed.

Lemma goes_Unlock id : pre (Unlock id) st -> goes (Unlock id).
Proof.
  intros Ho. cbn in Ho. unfold goes. cbn [exec post fst snd]. exists (mkT Free (credit st)). split; [done |].
  split; cbn [watches runs alerts history locks owns credit own_id]; try done.
  - intros id'. rewrite elem_of_difference, elem_of_singleton, Ho. naive_solver.
  - exists []. by rewrite app_nil_r.
Qed.

Lemma exec_goes {B} (c : call B) : pre c st -> enabled c d = true -> goes c.
Proof.
  intros Hpre Hen. destruct c.
  - by apply goes_GetByID.
  - by apply goes_UpdateAfterCheck.
  - by apply goes_UpdateStatus.
  - apply goes_ExpireWatches.
  - exists st. cbn [exec post]. destruct (works ch); split; try done; by apply still.
  - exists st. cbn [exec post]. destruct (works ch); split; try done; by apply still.
  - exists st. cbn [exec post]. destruct (works ch); split; try done; by apply still.
  - exists st. cbn [exec post]. destruct (works ch), (runs d !! run); split; try done; by apply still.
  - exists st. cbn [exec post]. destruct (works ch), (runs d !! run); split; try done; by apply still.
  - by apply goes_CreateAlert.
  - exists st. by split; [| apply still].
  - exists st. by split; [| apply still].
  - by apply goes_Lock.
  - by apply goes_Unlock.
  - exists st. by split; [| apply still].
  - exists st. by split; [| apply still].
Qed.

End Exec.

Lemma inv_spawn s sts p : inv s sts -> follows p ends_idle idle -> inv (mkSystem (db s) (threads s ++ [p]) (used s)) (sts ++ [idle]).
Proof.
  intros I Hp.
  assert (forall i st, (sts ++ [idle]) !! i = Some st -> sts !! i = Some st \/ st = idle) as Hl.
  { intros i st [Hi | [_ Hi]]%lookup_app_Some; [by left |]. right. by apply list_lookup_singleton_Some in Hi as [_ <-]. }
  split; cbn [db threads used].
  - apply Forall2_app; [apply (inv_threads _ _ I) | by constructor].
  - intros id. rewrite (inv_locks _ _ I). split.
    + intros (i & st & Hi & Ho). exists i, st. split; [by apply lookup_app_l_Some | done].
    + intros (i & st & [Hi | ->]%Hl & Ho); [by exists i, st | done].
  - intros i j st st' id Hi Hj Ho Ho'. apply Hl in Hi as [Hi | ->]; [| done]. apply Hl in Hj as [Hj | ->]; [| done].
    by apply (inv_unique _ _ I i j st st' id).
  - intros i st [Hi | ->]%Hl; [by apply (inv_rows _ _ I i) | done].
  - apply (inv_used _ _ I).
  - intros i st id w n [Hi | ->]%Hl Hr; [by apply (inv_read _ _ I i st id w n) | done].
  - apply (inv_history _ _ I).
  - intros id. pose proof (inv_alerts _ _ I id). rewrite sum_list_with_app. cbn [sum_list_with].
    assert (due_alert id idle = 0%nat) by done. lia.
Qed.

(** A write of the tools: no lock, no history, and the rows that threads have read keep the
    counter and the status. *)
Lemma inv_tools s sts m ids :
  inv s sts -> (forall i st, sts !! i = Some st -> row_ok m (owns st)) -> dom m ⊆ ids -> used s ⊆ ids ->
  inv (mkSystem (with_watches m (db s)) (threads s) ids) sts.
Proof.
  intros I Hr Hd Hu. split; cbn [db threads used with_watches watches locks history alerts]; try apply I; try done.
  intros i st id w n Hi Hrow. by apply Hu, (inv_read _ _ I i st id w n).
Qed.

Lemma reachable_system_inv s : reachable s -> exists sts, inv s sts.
Proof.
  induction 1 as [s (Ht & Hl & Hh & Ha & Hd) | s s' _ [sts I] Hs].
  { exists []. split; rewrite ?Ht, ?Hl, ?Hh, ?Ha; try done. intros id. split; [set_solver | intros (i & st & Hi & _); done]. }
  destruct Hs as [s i B c k ch Hi He | s | s services | s id w Hf Hs Hb | s id | s id w b Hw].
  - destruct (Forall2_lookup_r _ _ _ _ _ (inv_threads _ _ I) Hi) as (st & Hst & Hpre & Hk).
    destruct (exec_goes ch st (db s) (used s)) with (c := c) as (st' & Hpost & Heff); try done.
    + intros id Ho. apply (inv_locks _ _ I). by exists i, st.
    + by apply (inv_rows _ _ I i).
    + intros id w n Hrow. by apply (inv_read _ _ I i st id w n).
    + apply (inv_used _ _ I).
    + exists (<[i := st']> sts). apply (inv_effect s sts i st); [done | done | done | by apply Hk].
  - exists (sts ++ [idle]). by apply inv_spawn; [| apply follows_tick].
  - exists (sts ++ [idle]). by apply inv_spawn; [| apply follows_evaluateMatching].
  - exists sts. apply inv_tools; [done | | | set_solver].
    + intros i st Hi id' w' n row Hr. assert (id' <> id) as Hn.
      { intros ->. by apply Hf, (inv_read _ _ I i st id w' n). }
      rewrite lookup_insert_ne by done. by apply (inv_rows _ _ I i st Hi).
    + rewrite dom_insert_L. pose proof (inv_used _ _ I). set_solver.
  - exists sts. apply inv_tools; [done | | | done].
    + intros i st Hi id' w' n row Hr Hl. apply lookup_delete_Some in Hl as [_ Hl]. by apply (inv_rows _ _ I i st Hi id' w' n).
    + rewrite dom_delete_L. pose proof (inv_used _ _ I). set_solver.
  - exists sts. apply inv_tools; [done | | | done].
    + intros i st Hi id' w' n row Hr. destruct (decide (id' = id)) as [-> | Hn].
      * rewrite lookup_insert_eq. intros [= <-]. by apply (inv_rows _ _ I i st Hi id w' n w).
      * rewrite lookup_insert_ne by done. by apply (inv_rows _ _ I i st Hi).
    + rewrite dom_insert_L. pose proof (inv_used _ _ I). apply elem_of_dom_2 in Hw. set_solver.
Qed.

End Invariant.

(** ** An evaluation on its own *)

Section Alone.
Context {U : Unicode} {T : Text} {K : ConditionCodec}.

(** What an evaluation makes of a row and answers, when every statement executes:
    [verdict] is what the condition says at the time, [at_check] the instant that the next
    check is counted from, [at_write] that of the statement. *)
Definition evaluated (w : Watch) (verdict : result ConditionResult) (at_check at_write : Z) : Watch * result WatchEvalResult :=
  let nextCheck := at_check + parseDurationOr (CheckInterval w) defaultCheckInterval in
  match verdict with
  | Ok res =>
      let n := if Breached res then ConsecutiveBreaches w + 1 else 0 in
      let alert := Breached res && (MinConsecutive w <=? n) && negb (bool_decide (w_Status w = StatusTriggered)) in
      let w := set_checked (r_Value res) n at_write nextCheck w in
      (if alert then set_status StatusTriggered w else w, Ok (mkEval (r_Value res) (Breached res) alert))
  | Err e =>
      (if ErrIs e ErrInvalidWatchConfig then set_status StatusExpired w
       else set_checked (default zero (CurrentValue w)) (ConsecutiveBreaches w) at_write nextCheck w, Err e)
  | Panic => (w, Panic)
  end.

(** The verdict on a row: its condition parsed and evaluated. *)
Definition verdict_on (ch : choice) (w : Watch) : result ConditionResult :=
  cond ← wrap "parsing conditions" (ParseCondition (ConditionsJSON w));
  wrap "evaluating conditions" (EvaluateCondition (L := log_store ch) (clock ch) (BaselineJSON w) (w_Environment w)
    (parseDurationOr (CheckInterval w) defaultCheckInterval) cond).

(** Run the calls of a program. *)
Ltac run := cbn -[parseDurationOr ErrIs].

(** The final state of an evaluation. *)
Ltac done_with := eexists; split; [reflexivity |]; cbn [watches locks alerts runs history];
  repeat match goal with H : ?l = locks _ |- context [?l] => rewrite H end; split; [| done].

Lemma Evaluate_spec chs d id w :
  watches d !! id = Some w -> id ∉ locks d -> (forall n, works (chs n) = true) ->
  let '(w', r) := evaluated w (verdict_on (chs 2%nat) w) (clock (chs 3%nat)) (clock (chs 4%nat)) in
  exists d', interp chs 0 (Evaluate id) d = (d', r) /\ watches d' = <[id := w']> (watches d) /\
    locks d' = locks d /\ alerts d' = alerts d /\ runs d' = runs d.
Proof.
  intros Hw Hl Hworks. destruct (evaluated _ _ _ _) as [w' r] eqn:Hev.
  assert (({[id]} ∪ locks d) ∖ {[id]} = locks d) as Hlock by set_solver.
  unfold verdict_on in Hev. unfold Evaluate, evaluateLocked, recordFailedCheck, ignore, defer, on_error, pure, do, wrapP.
  run. rewrite (Hworks 1%nat). run. rewrite Hw. run.
  destruct (ParseCondition (ConditionsJSON w)) as [cond | e |] eqn:Hp; run; cbn [wrap mbind result_bind] in Hev.
  - destruct (wrap "evaluating conditions" _) as [res | e |]; run; unfold evaluated in Hev; cbv zeta in Hev.
    + rewrite (Hworks 4%nat). unfold write. run. rewrite Hw. run. destruct res as [breached value]. cbn [Breached r_Value] in *.
      destruct breached; run; cbn [andb] in Hev; [| injection Hev as <- <-; by done_with].
      destruct (ConsecutiveBreaches w + 1 <? MinConsecutive w) eqn:Hmin; run.
      { rewrite (proj2 (Z.leb_gt _ _)) in Hev by lia. injection Hev as <- <-. by done_with. }
      rewrite (proj2 (Z.leb_le _ _)) in Hev by lia. cbn [andb] in Hev.
      destruct (bool_decide (w_Status w = StatusTriggered)) eqn:Hs; run; cbn [negb] in Hev; [injection Hev as <- <-; by done_with |].
      rewrite (Hworks 5%nat). unfold write. cbn [watches]. rewrite lookup_insert_eq. run. injection Hev as <- <-. done_with.
      by rewrite insert_insert_eq.
    + destruct (ErrIs e ErrInvalidWatchConfig); run; injection Hev as <- <-.
      * rewrite (Hworks 3%nat). unfold write. run. rewrite Hw. run. by done_with.
      * rewrite (Hworks 4%nat). unfold write. run. rewrite Hw. run. by done_with.
    + injection Hev as <- <-. done_with. by rewrite insert_id.
  - assert (ErrIs (Wrapf "parsing conditions" e) ErrInvalidWatchConfig = true) as Hinv.
    { unfold ParseCondition in Hp. case_bool_decide; [by injection Hp as <- | by destruct (UnmarshalCondition (ConditionsJSON w)); [| injection Hp as <-]]. }
    unfold evaluated in Hev. cbn [wrap] in Hev. cbv zeta in Hev. rewrite Hinv in *. run. injection Hev as <- <-.
    rewrite (Hworks 2%nat). unfold write. run. rewrite Hw. run. by done_with.
  - unfold ParseCondition in Hp. case_bool_decide; [done |]. by destruct (UnmarshalCondition (ConditionsJSON w)).
Qed.

End Alone.

(** A thread that has ended. *)
Definition finished (p : prog unit) : bool := match p with Ret _ => true | Do _ _ => false end.

(** ** Claims *)

Section Claims.
Context {U : Unicode} {T : Text} {K : ConditionCodec}.

(** C38: What one evaluation does, on every branch, when its statements execute: a breach raises
    the counter by one and anything else resets it; the watch is triggered, and an alert
    asked for, exactly when the counter reaches the required number of consecutive breaches
    and the watch is not triggered already; an invalid definition disables the watch, any
    other failure keeps the counter and moves the schedule; a panic changes nothing; and the
    lock is released on every branch. *)
Theorem evaluate_exact (chs : nat -> choice) (d : DB) (id : bytes) (w : Watch) :
  watches d !! id = Some w -> id ∉ locks d -> (forall n, works (chs n) = true) ->
  let '(w', r) := evaluated w (verdict_on (chs 2%nat) w) (clock (chs 3%nat)) (clock (chs 4%nat)) in
  exists d', interp chs 0 (Evaluate id) d = (d', r) /\ watches d' = <[id := w']> (watches d) /\
    locks d' = locks d /\ alerts d' = alerts d /\ runs d' = runs d.
Proof. apply Evaluate_spec. Qed.

(** C37: Whatever schedulers, stream evaluations and tools run at once, with statements that fail
    and threads that panic: a watch is only triggered from a status other than triggered, so
    between two triggers it was resolved, expired or created anew, and there is at most one
    alert for every trigger. *)
Theorem alerts_follow_triggers (s : System) (id : bytes) :
  reachable s ->
  (forall old, EvStatus id old StatusTriggered ∈ history (db s) -> old <> StatusTriggered) /\
  (alerts_of id (alerts (db s)) <= triggers id (history (db s)))%nat.
Proof.
  intros [sts I]%reachable_system_inv. split; [| pose proof (inv_alerts _ _ I id); lia].
  intros old Hin. pose proof (inv_history _ _ I) as Hh. rewrite list.Forall_forall in Hh. by apply (Hh _ Hin).
Qed.

(** The breach counter is never computed from a stale value: every check that is recorded
    resets the counter, or moves the value it replaces by at most one, however many
    evaluations of the watch run at once. *)
Theorem checks_are_serial (s : System) (id : bytes) (old new : Z) :
  reachable s -> EvCheck id old new ∈ history (db s) -> new = 0 \/ Z.abs (new - old) <= 1.
Proof.
  intros [sts I]%reachable_system_inv Hin. pose proof (inv_history _ _ I) as Hh. rewrite list.Forall_forall in Hh. by apply (Hh _ Hin).
Qed.

(** The evaluators never deadlock: as long as a thread has a call to make, some thread can
    make one; and once all have ended every lock is free. *)
Theorem evaluators_progress (s : System) :
  reachable s ->
  (exists i B (c : call B) k, threads s !! i = Some (Do c k) /\ enabled c (db s) = true) \/
  (Forall (fun p => finished p = true) (threads s) /\ locks (db s) = ∅).
Proof.
  intros [sts I]%reachable_system_inv.
  assert (forall i st, sts !! i = Some st -> owns st <> Free -> exists B (c : call B) k, threads s !! i = Some (Do c k) /\ enabled c (db s) = true) as Hown.
  { intros i st Hi Ho. destruct (Forall2_lookup_l _ _ _ _ _ (inv_threads _ _ I) Hi) as (p & Hp & Hwp).
    destruct p as [r | B c k]; [by rewrite Hwp in Ho |]. exists B, c, k. split; [done |]. destruct Hwp as [Hpre _]. by destruct c. }
  destruct (decide (locks (db s) = ∅)) as [Hl | Hl].
  - destruct (decide (Forall (fun p => finished p = true) (threads s))) as [Hall | Hex]; [by right |].
    apply not_Forall_Exists in Hex; [| apply _]. apply Exists_exists in Hex as (p & Hp & Hn). apply list_elem_of_lookup in Hp as [i Hi].
    left. destruct p as [r | B c k]; [by destruct Hn |]. exists i, B, c, k. split; [done |].
    destruct c; try done. cbn. apply bool_decide_eq_true. rewrite Hl. set_solver.
  - apply set_choose_L in Hl as [id Hid]. apply (inv_locks _ _ I) in Hid as (i & st & Hi & Ho). left. exists i.
    apply (Hown i st Hi). intros Hf. by rewrite Hf in Ho.
Qed.

(** ** Runs *)

(** One call of the i-th thread, when it has one that is enabled. *)
Definition step_thread (i : nat) (ch : choice) (s : System) : System :=
  match threads s !! i with
  | Some (Do c k) =>
      if enabled c (db s)
      then mkSystem (exec ch c (db s)).1 (<[i := k (exec ch c (db s)).2]> (threads s)) (used s)
      else s
  | _ => s
  end.

Fixpoint run_threads (schedule : list (nat * choice)) (s : System) : System :=
  match schedule with
  | [] => s
  | (i, ch) :: schedule => run_threads schedule (step_thread i ch s)
  end.

Lemma run_threads_reachable schedule s : reachable s -> reachable (run_threads schedule s).
Proof.
  revert s. induction schedule as [| [i ch] schedule IH]; intros s Hs; [done |]. cbn [run_threads]. apply IH.
  unfold step_thread. destruct (threads s !! i) as [[r | B c k] |] eqn:Ht; [done | | done].
  destruct (enabled c (db s)) eqn:He; [| done]. eapply reach_step; [exact Hs |]. by apply (step_call s i B c k ch).
Qed.

End Claims.

(** A store of twenty error entries, and a condition "more than ten of them". *)
Definition twenty_errors : LogStore := {|
  CountByLevel := fun _ => Ok [(str "error", 20)];
  DistinctValues := fun _ _ => Ok [];
  SearchRequestSummaries := fun _ => Ok [];
  AggregateRequestSummaries := fun _ => Ok (mkAggregates 0 zero zero);
  SearchLogs := fun _ => Ok []
|}.

Definition ten_errors : Leaf :=
  mkLeaf (str "threshold") (str "error_count") (str "gt") [] [] (of_int 10) zero zero [] [] false [] [].

(** Every document is that condition, but for one that holds a null. *)
Definition one_condition : ConditionCodec := {|
  UnmarshalCondition := fun raw =>
    Some (mkCondition (if bool_decide (raw = str "null in it") then [None] else []) [] None ten_errors);
  UnmarshalPeek := fun _ => None
|}.

Definition plain_text : Text := {| EqualFold := fun a b => bool_decide (a = b); Query.TrimSpace := fun s => s |}.

Definition all_works (t : Z) : choice := mkChoice true t false twenty_errors (str "run").
Definition statement_fails (t : Z) : choice := mkChoice false t false twenty_errors (str "run").

(** A watch of that condition in a given status. *)
Definition watch_in (s : WatchStatus) (conditions : bytes) (required : Z) : Watch :=
  mkWatch conditions [] [] [] (str "30s") (str "1h") required s None 0 None None None None.

Definition db_with (w : Watch) : DB := mkDB {[str "w" := w]} ∅ [] [] ∅.

Lemma evaluate_exact_witness :
  let w := watch_in StatusActive (str "cond") 1 in
  let '(w', r) := evaluated w (verdict_on (U := ascii_unicode) (T := plain_text) (K := one_condition) (all_works 0) w) 0 0 in
  (w_Status w', ConsecutiveBreaches w', HasAlert <$> r) = (StatusTriggered, 1, Ok true) /\
  exists d', interp (U := ascii_unicode) (T := plain_text) (fun _ => all_works 0) 0 (Evaluate (K := one_condition) (str "w")) (db_with w) = (d', r) /\
    watches d' = <[str "w" := w']> (watches (db_with w)) /\
    locks d' = locks (db_with w) /\ alerts d' = alerts (db_with w) /\ runs d' = runs (db_with w).
Proof.
  pose proof (evaluate_exact (U := ascii_unicode) (T := plain_text) (K := one_condition) (fun _ => all_works 0)
    (db_with (watch_in StatusActive (str "cond") 1)) (str "w") (watch_in StatusActive (str "cond") 1)
    (lookup_singleton_eq _ _) (not_elem_of_empty _) (fun _ => eq_refl)) as H.
  split; [by vm_compute | exact H].
Defined.

(** Two scheduler ticks that race for one watch, call by call. *)
Definition racing : System :=
  let s0 := mkSystem (db_with (watch_in StatusActive (str "cond") 2)) [] {[str "w"]} in
  let s1 := mkSystem (db s0) (threads s0 ++ [tick (K := one_condition)]) (used s0) in
  let s2 := mkSystem (db s1) (threads s1 ++ [tick (K := one_condition)]) (used s1) in
  run_threads (U := ascii_unicode) (T := plain_text)
    (concat (replicate 40 [(0%nat, all_works 7); (1%nat, all_works 8)])) s2.

Lemma racing_reachable : reachable (U := ascii_unicode) (T := plain_text) (K := one_condition) racing.
Proof.
  apply run_threads_reachable. eapply reach_step; [| apply step_tick]. eapply reach_step; [| apply step_tick].
  apply reach_initial. unfold initial. cbn [db threads used]. do 4 (split; [done |]). by vm_compute.
Qed.

Lemma alerts_follow_triggers_witness :
  ((forall old, EvStatus (str "w") old StatusTriggered ∈ history (db racing) -> old <> StatusTriggered) /\
   (alerts_of (str "w") (alerts (db racing)) <= triggers (str "w") (history (db racing)))%nat) /\
  history (db racing) = [EvCheck (str "w") 0 1; EvCheck (str "w") 1 2; EvStatus (str "w") StatusActive StatusTriggered] /\
  alerts (db racing) = [(str "w", str "run")].
Proof.
  split; [| by vm_compute].
  exact (alerts_follow_triggers (U := ascii_unicode) (T := plain_text) (K := one_condition) racing (str "w") racing_reachable).
Defined.

Lemma checks_are_serial_witness :
  EvCheck (str "w") 1 2 ∈ history (db racing) /\ (2 = 0 \/ Z.abs (2 - 1) <= 1).
Proof.
  assert (EvCheck (str "w") 1 2 ∈ history (db racing)) as Hin.
  { assert (history (db racing) = [EvCheck (str "w") 0 1; EvCheck (str "w") 1 2; EvStatus (str "w") StatusActive StatusTriggered]) as -> by by vm_compute.
    apply list_elem_of_further, list_elem_of_here. }
  split; [exact Hin |].
  exact (checks_are_serial (U := ascii_unicode) (T := plain_text) (K := one_condition) racing (str "w") 1 2 racing_reachable Hin).
Defined.

Lemma evaluators_progress_witness :
  ((exists i B (c : call B) k, threads racing !! i = Some (Do c k) /\ enabled c (db racing) = true) \/
   (Forall (fun p => finished p = true) (threads racing) /\ locks (db racing) = ∅)) /\
  (finished <$> threads racing) = [true; true].
Proof.
  split; [| by vm_compute].
  exact (evaluators_progress (U := ascii_unicode) (T := plain_text) (K := one_condition) racing racing_reachable).
Defined.

(** ** Limits *)

(** A watch that has expired, or was resolved, since its row was listed is triggered again:
    only the triggered status is looked at. *)
Lemma expired_watch_triggered :
  let out := interp (U := ascii_unicode) (T := plain_text) (fun _ => all_works 7) 0 (Evaluate (K := one_condition) (str "w"))
    (db_with (watch_in StatusExpired (str "cond") 1)) in
  history out.1 = [EvCheck (str "w") 0 1; EvStatus (str "w") StatusExpired StatusTriggered] /\ HasAlert <$> out.2 = Ok true.
Proof. by vm_compute. Qed.

(** The status is written before the alert: when creating the alert fails, later evaluations
    see a watch that is triggered and stay silent. *)
Lemma alert_lost :
  let out := interp (U := ascii_unicode) (T := plain_text) (fun n => if bool_decide (n = 9%nat) then statement_fails 7 else all_works 7) 0
    (evaluateWatch (K := one_condition) (str "w");; evaluateWatch (K := one_condition) (str "w"))
    (db_with (watch_in StatusActive (str "cond") 1)) in
  alerts out.1 = [] /\ w_Status <$> (watches out.1 !! str "w") = Some StatusTriggered /\ out.2 = Ok tt.
Proof. by vm_compute. Qed.

(** When the update to triggered fails, the failed check writes back the counter it read
    before its own increment. *)
Lemma increment_lost :
  history (interp (U := ascii_unicode) (T := plain_text) (fun n => if bool_decide (n = 5%nat) then statement_fails 7 else all_works 7) 0
    (Evaluate (K := one_condition) (str "w")) (db_with (watch_in StatusActive (str "cond") 1))).1 =
  [EvCheck (str "w") 0 1; EvCheck (str "w") 1 0].
Proof. by vm_compute. Qed.

(** A null inside a stored condition makes the evaluation panic, in the goroutine of the
    scheduler, which recovers from nothing; the lock is released. *)
Lemma null_condition_stops_the_scheduler :
  let out := interp (U := ascii_unicode) (T := plain_text) (fun _ => all_works 7) 0 (tick (K := one_condition))
    (db_with (watch_in StatusActive (str "null in it") 1)) in
  out.2 = Panic /\ locks out.1 = ∅.
Proof. by vm_compute. Qed.
