(* ===== verification/Adapter.v ===== *)
(** * The log store adapter (pkg/store/models_logs.go, logstore/adapter)

    The rest of the program reads and writes [LogEntry] values; the engine stores
    [chunk.Entry] rows.  This file has both conversions, the write path with its write-back
    of ids, and the cache that makes a repeated batch harmless.
    Main results: the cache is the list of the last [maxTrackedBatches] recorded batches;
    without sampling in the engine an id written back belongs to its entry. *)

From stdpp Require Import base list gmap strings numbers sorting.
From Stdlib Require Import ZArith Lia SpecFloat.
From S2P Require Import Prelude Schema Ids Zstd Wal Writer Index Scrub Utf8 Pipeline Floats.

(** ** The canonical entry (pkg/store) *)

(** [store.RequestSummary] *)
Module Req.
Record RequestSummary := mkRequestSummary {
  ID : Z;
  LogID : Z;
  Controller : bytes;
  Action : bytes;
  Method : bytes;
  Path : bytes;
  Status : Z;
  DurationMs : float;
  DBTimeMs : float;
  ViewTimeMs : float;
  SQLCount : Z;
  SQLTotalMs : float;
  SQLSlowestMs : float;
  SQLSlowestName : bytes;
  NPlusOne : bool;
  ViewCount : Z;
  ViewTotalMs : float;
  ViewSlowestMs : float;
  ViewSlowestTemplate : bytes;
  CacheReads : Z;
  CacheHits : Z;
  CacheWrites : Z;
  CacheHitRatio : float;
  HTTPExternalCount : Z;
  HTTPExternalTotalMs : float;
  HTTPSlowestMs : float;
  HTTPSlowestHost : bytes;
  MemoryBeforeMb : float;
  MemoryAfterMb : float;
  MemoryDeltaMb : float;
  Timeline : bytes;
  TimeBreakdown : bytes;
  DuplicateQueries : Z;
  WorstDuplicateCount : Z;
  TopDuplicates : bytes
}.
End Req.

(** [store.LogEntry]; an instant is its nanoseconds since the epoch, a map the list of its
    pairs in key order, [None] for a nil map. *)
Module Log.
Record LogEntry := mkLogEntry {
  ID : Z;
  Timestamp : Z;
  Level : bytes;
  Service : bytes;
  Environment : bytes;
  CommitHash : bytes;
  TraceID : bytes;
  SpanID : bytes;
  ParentSpanID : bytes;
  RequestID : bytes;
  UserID : bytes;
  Message : bytes;
  EventType : bytes;
  ExceptionClass : bytes;
  ErrorFingerprint : bytes;
  SourceFile : bytes;
  SourceLine : Z;
  Host : bytes;
  Kind : bytes;
  TenantID : bytes;
  SessionID : bytes;
  Route : bytes;
  CacheMs : Z;
  CacheHits : Z;
  CacheMisses : Z;
  ExtMs : Z;
  ExtCount : Z;
  RenderMs : Z;
  AllocCount : Z;
  MemDeltaMb : Z;
  SlowQueries : Z;
  ErrorMessage : bytes;
  JobClass : bytes;
  JobQueue : bytes;
  JobID : bytes;
  QueueMs : Z;
  DurationMs : float;
  DbMs : float;
  DbCount : Z;
  Status : Z;
  Metadata : option (list (bytes * value));
  MetadataJSON : bytes;
  DeepCapture : bytes;
  RequestSummary : option Req.RequestSummary;
  CreatedAt : Z
}.

(** [e.ID = id] and [e.ErrorFingerprint = fp] *)
Definition with_ID (id : Z) (e : LogEntry) : LogEntry :=
  let '(mkLogEntry _ ts l s env c t sp ps r u m et ec fp sf sl h k te se ro cm ch cx em ec' rm ac md sq er jc jq ji qm d db dc st me mj dp rs ca) := e in
  mkLogEntry id ts l s env c t sp ps r u m et ec fp sf sl h k te se ro cm ch cx em ec' rm ac md sq er jc jq ji qm d db dc st me mj dp rs ca.

Definition with_fingerprint (fp : bytes) (e : LogEntry) : LogEntry :=
  let '(mkLogEntry i ts l s env c t sp ps r u m et ec _ sf sl h k te se ro cm ch cx em ec' rm ac md sq er jc jq ji qm d db dc st me mj dp rs ca) := e in
  mkLogEntry i ts l s env c t sp ps r u m et ec fp sf sl h k te se ro cm ch cx em ec' rm ac md sq er jc jq ji qm d db dc st me mj dp rs ca.
End Log.

Definition MemDeltaScale : Z := 100.

(** ** Conversions *)

(** What [int(x)] gives for a float64 that is out of range: the language leaves it open. *)
Class Conversion := out_of_range : float -> Z.

Definition fits_int (n : Z) : bool := (- 2 ^ 63 <=? n) && (n <? 2 ^ 63).

(** [int(x)] *)
Definition int_of `{Conversion} (x : float) : Z :=
  match x with
  | S754_zero _ => 0
  | S754_finite _ _ _ => if fits_int (trunc x) then trunc x else out_of_range x
  | _ => out_of_range x
  end.

Definition milliseconds : Z := 1000000.

(** [t.UnixMilli()] and [time.UnixMilli(ms)] *)
Definition UnixMilli (t : Z) : Z := int64 (t / milliseconds).
Definition of_UnixMilli (ms : Z) : Z := ms * milliseconds.

(** [strings] literals of the adapter *)
Definition http_request : bytes := str "http.request".
Definition metadata_key : bytes := str "metadata".

Definition memDeltaScale : float := of_int 100.

(** [*dst] after [setIfZero(dst, v)] *)
Definition setIfZero (dst v : Z) : Z := if (dst =? 0) && (0 <? v) then v else dst.

Section Convert.
Context {J : BodyCodec} {K : Conversion}.

(** [ne.Body] *)
Definition body_of (e : Log.LogEntry) : bytes :=
  if negb (bool_decide (Log.MetadataJSON e = [])) then Log.MetadataJSON e
  else match Log.Metadata e with
  | Some ((_ :: _) as m) => default [] (MarshalAny (VObject [(metadata_key, VObject m)]))
  | _ => []
  end.

(** The struct literal of [oldToNew], with the body. *)
Definition flat_fields (e : Log.LogEntry) : Entry := {|
  ID := 0;
  Ts := UnixMilli (Log.Timestamp e);
  ReceivedAt := 0;
  Level := Log.Level e;
  Service := Log.Service e;
  Message := Log.Message e;
  Env := Log.Environment e;
  Version := Log.CommitHash e;
  Host := Log.Host e;
  Kind := Log.Kind e;
  EventType := Log.EventType e;
  TraceID := Log.TraceID e;
  SpanID := Log.SpanID e;
  ParentSpanID := Log.ParentSpanID e;
  RequestID := Log.RequestID e;
  UserID := Log.UserID e;
  TenantID := Log.TenantID e;
  SessionID := Log.SessionID e;
  Method := [];
  Path := [];
  Route := Log.Route e;
  Handler := [];
  Status := Log.Status e;
  DurationMs := int_of (Log.DurationMs e);
  DbMs := int_of (Log.DbMs e);
  DbCount := Log.DbCount e;
  CacheMs := Log.CacheMs e;
  CacheHits := Log.CacheHits e;
  CacheMisses := Log.CacheMisses e;
  ExtMs := Log.ExtMs e;
  ExtCount := Log.ExtCount e;
  RenderMs := Log.RenderMs e;
  AllocCount := Log.AllocCount e;
  MemDeltaMb := Log.MemDeltaMb e;
  NPlusOne := None;
  SlowQueries := Log.SlowQueries e;
  DupQueries := 0;
  ErrorClass := Log.ExceptionClass e;
  ErrorMessage := Log.ErrorMessage e;
  SourceFile := Log.SourceFile e;
  SourceLine := Log.SourceLine e;
  ErrorFingerprint := Log.ErrorFingerprint e;
  JobClass := Log.JobClass e;
  JobQueue := Log.JobQueue e;
  JobID := Log.JobID e;
  QueueMs := Log.QueueMs e;
  Body := body_of e
|}.

(** The request summary over the flat fields; its integers wrap as the source's do. *)
Definition summary_fields (rs : Req.RequestSummary) (ne : Entry) : Entry :=
  let ne := if bool_decide (EventType ne = []) then set EventType http_request ne else ne in
  let ne :=
    set Handler (if negb (bool_decide (Req.Action rs = [])) then Req.Controller rs ++ str "#" ++ Req.Action rs
                 else Req.Controller rs) ne in
  let ne := set Method (Req.Method rs) ne in
  let ne := set Path (Req.Path rs) ne in
  let ne := set Status (Req.Status rs) ne in
  let ne := set DurationMs (int_of (Req.DurationMs rs)) ne in
  let ne := set DbMs (int_of (Req.DBTimeMs rs)) ne in
  let ne := set DbCount (Req.SQLCount rs) ne in
  let ne := set NPlusOne (Some (Req.NPlusOne rs)) ne in
  let ne := set DupQueries (Req.DuplicateQueries rs) ne in
  let ne := set CacheHits (setIfZero (CacheHits ne) (Req.CacheHits rs)) ne in
  let ne := set CacheMisses (setIfZero (CacheMisses ne) (int64 (Req.CacheReads rs - Req.CacheHits rs))) ne in
  let ne := set RenderMs (setIfZero (RenderMs ne) (int_of (Req.ViewTimeMs rs))) ne in
  let ne := set ExtMs (setIfZero (ExtMs ne) (int_of (Req.HTTPExternalTotalMs rs))) ne in
  let ne := set ExtCount (setIfZero (ExtCount ne) (Req.HTTPExternalCount rs)) ne in
  set MemDeltaMb (setIfZero (MemDeltaMb ne) (int_of (fmul (Req.MemoryDeltaMb rs) memDeltaScale))) ne.

Definition oldToNew (e : Log.LogEntry) : Entry :=
  match Log.RequestSummary e with
  | Some rs => summary_fields rs (flat_fields e)
  | None => flat_fields e
  end.

Definition requestSummaryFromEntry (e : Entry) : Req.RequestSummary := {|
  Req.ID := 0;
  Req.LogID := ID e;
  Req.Controller := Handler e;
  Req.Action := [];
  Req.Method := Method e;
  Req.Path := Path e;
  Req.Status := Status e;
  Req.DurationMs := of_int (DurationMs e);
  Req.DBTimeMs := of_int (DbMs e);
  Req.ViewTimeMs := of_int (RenderMs e);
  Req.SQLCount := DbCount e;
  Req.SQLTotalMs := zero;
  Req.SQLSlowestMs := zero;
  Req.SQLSlowestName := [];
  Req.NPlusOne := default false (NPlusOne e);
  Req.ViewCount := 0;
  Req.ViewTotalMs := zero;
  Req.ViewSlowestMs := zero;
  Req.ViewSlowestTemplate := [];
  Req.CacheReads := int64 (CacheHits e + CacheMisses e);
  Req.CacheHits := CacheHits e;
  Req.CacheWrites := 0;
  Req.CacheHitRatio := zero;
  Req.HTTPExternalCount := ExtCount e;
  Req.HTTPExternalTotalMs := of_int (ExtMs e);
  Req.HTTPSlowestMs := zero;
  Req.HTTPSlowestHost := [];
  Req.MemoryBeforeMb := zero;
  Req.MemoryAfterMb := zero;
  Req.MemoryDeltaMb := fdiv (of_int (MemDeltaMb e)) memDeltaScale;
  Req.Timeline := [];
  Req.TimeBreakdown := [];
  Req.DuplicateQueries := DupQueries e;
  Req.WorstDuplicateCount := 0;
  Req.TopDuplicates := []
|}.

(** [m[k]] of a map listed by key. *)
Fixpoint get_key (k : bytes) (m : list (bytes * value)) : option value :=
  match m with
  | [] => None
  | (k', v) :: m => if bool_decide (k' = k) then Some v else get_key k m
  end.

(** [old.Metadata] *)
Definition metadata_of (body : bytes) : option (list (bytes * value)) :=
  if bool_decide (body = []) then None
  else match UnmarshalAny body with
  | Some (VObject m) => match get_key metadata_key m with Some (VObject meta) => Some meta | _ => None end
  | _ => None
  end.

Definition newToOld (e : Entry) : Log.LogEntry := {|
  Log.ID := ID e;
  Log.Timestamp := of_UnixMilli (Ts e);
  Log.Level := Level e;
  Log.Service := Service e;
  Log.Environment := Env e;
  Log.CommitHash := Version e;
  Log.TraceID := TraceID e;
  Log.SpanID := SpanID e;
  Log.ParentSpanID := ParentSpanID e;
  Log.RequestID := RequestID e;
  Log.UserID := UserID e;
  Log.Message := Message e;
  Log.EventType := EventType e;
  Log.ExceptionClass := ErrorClass e;
  Log.ErrorFingerprint := ErrorFingerprint e;
  Log.SourceFile := SourceFile e;
  Log.SourceLine := SourceLine e;
  Log.Host := Host e;
  Log.Kind := Kind e;
  Log.TenantID := TenantID e;
  Log.SessionID := SessionID e;
  Log.Route := Route e;
  Log.CacheMs := CacheMs e;
  Log.CacheHits := CacheHits e;
  Log.CacheMisses := CacheMisses e;
  Log.ExtMs := ExtMs e;
  Log.ExtCount := ExtCount e;
  Log.RenderMs := RenderMs e;
  Log.AllocCount := AllocCount e;
  Log.MemDeltaMb := MemDeltaMb e;
  Log.SlowQueries := SlowQueries e;
  Log.ErrorMessage := ErrorMessage e;
  Log.JobClass := JobClass e;
  Log.JobQueue := JobQueue e;
  Log.JobID := JobID e;
  Log.QueueMs := QueueMs e;
  Log.DurationMs := of_int (DurationMs e);
  Log.DbMs := of_int (DbMs e);
  Log.DbCount := DbCount e;
  Log.Status := Status e;
  Log.Metadata := metadata_of (Body e);
  Log.MetadataJSON := [];
  Log.DeepCapture := [];
  Log.RequestSummary := if 0 <? DurationMs e then Some (requestSummaryFromEntry e) else None;
  Log.CreatedAt := of_UnixMilli (ReceivedAt e)
|}.

(** ** Writing *)

(** The loop that writes the ids back. *)
Definition write_back (entries : list Log.LogEntry) (result : list Entry) : list Log.LogEntry :=
  if bool_decide (length result = length entries) then zip_with (fun e r => Log.with_ID (ID r) e) entries result
  else entries.

(** [BatchInsert]: the caller's slice afterwards and the outcome, over an engine of state [S]. *)
Definition BatchInsert {S : Type} (Ingest : S -> list Entry -> S * result (list Entry)) (s : S)
    (entries : list Log.LogEntry) : S * list Log.LogEntry * result Z :=
  if bool_decide (entries = []) then (s, entries, Ok 0)
  else
    let '(s, r) := Ingest s (oldToNew <$> entries) in
    match r with
    | Ok result => (s, write_back entries result, Ok (len result))
    | Err err => (s, entries, Err err)
    | Panic => (s, entries, Panic)
    end.

End Convert.

(** ** Recent batches *)

Record BatchRecord := mkBatchRecord { BatchID : bytes; LogCount : Z; BatchReceivedAt : Z }.

Definition maxTrackedBatches : nat := Z.to_nat 20000.

(** [batchSeen] and [batchOrder]. *)
Record Batches := mkBatches { batchSeen : gmap bytes BatchRecord; batchOrder : list bytes }.

Definition no_batches : Batches := mkBatches ∅ [].

(** [for len(a.batchOrder) > maxTrackedBatches] *)
Fixpoint evict (order : list bytes) (seen : gmap bytes BatchRecord) : Batches :=
  match order with
  | oldest :: rest =>
      if bool_decide (maxTrackedBatches < length order)%nat then evict rest (delete oldest seen)
      else mkBatches seen order
  | [] => mkBatches seen order
  end.

Definition RecordBatch (a : Batches) (batchID : bytes) (logCount now : Z) : Batches :=
  if bool_decide (batchID = []) then a
  else if bool_decide (is_Some (batchSeen a !! batchID)) then a
  else evict (batchOrder a ++ [batchID]) (<[batchID := mkBatchRecord batchID logCount now]> (batchSeen a)).

Definition GetBatch (a : Batches) (batchID : bytes) : option BatchRecord :=
  if bool_decide (batchID = []) then None else batchSeen a !! batchID.

(** The loop of [PruneBatches]; [kept] and [pruned] so far. *)
Fixpoint prune_loop (cutoff : Z) (order : list bytes) (seen : gmap bytes BatchRecord) (kept : list bytes) (pruned : Z)
  : Batches * Z :=
  match order with
  | [] => (mkBatches seen kept, pruned)
  | id :: order =>
      match seen !! id with
      | Some rec =>
          if BatchReceivedAt rec <? cutoff then prune_loop cutoff order (delete id seen) kept (pruned + 1)
          else prune_loop cutoff order seen (kept ++ [id]) pruned
      | None => prune_loop cutoff order seen kept pruned
      end
  end.

Definition PruneBatches (a : Batches) (now olderThan : Z) : Batches * Z :=
  prune_loop (now - olderThan) (batchOrder a) (batchSeen a) [] 0.

(** One call of the cache's interface and what it answers. *)
Inductive batch_call :=
| CRecord (batchID : bytes) (logCount now : Z)
| CGet (batchID : bytes)
| CPrune (now olderThan : Z).

Inductive batch_answer :=
| ADone
| AFound (r : option BatchRecord)
| APruned (n : Z).

Definition batch_step (a : Batches) (c : batch_call) : Batches * batch_answer :=
  match c with
  | CRecord id n now => (RecordBatch a id n now, ADone)
  | CGet id => (a, AFound (GetBatch a id))
  | CPrune now olderThan => let '(a, n) := PruneBatches a now olderThan in (a, APruned n)
  end.

(** ** Its specification: the recorded batches, oldest first *)

Definition find_batch (id : bytes) (l : list BatchRecord) : option BatchRecord := list_find (fun r => BatchID r = id) l ≫= fun p => Some p.2.

Definition spec_step (l : list BatchRecord) (c : batch_call) : list BatchRecord * batch_answer :=
  match c with
  | CRecord id n now =>
      if bool_decide (id = []) || bool_decide (is_Some (find_batch id l)) then (l, ADone)
      else let l := l ++ [mkBatchRecord id n now] in (drop (length l - maxTrackedBatches) l, ADone)
  | CGet id => (l, AFound (find_batch id l))
  | CPrune now olderThan =>
      let kept := filter (fun r => now - olderThan <= BatchReceivedAt r) l in (kept, APruned (len l - len kept))
  end.

(** Answers of a run of calls, of the cache and of its specification. *)
Fixpoint answers {S : Type} (step : S -> batch_call -> S * batch_answer) (s : S) (cs : list batch_call) : S * list batch_answer :=
  match cs with
  | [] => (s, [])
  | c :: cs => let '(s, r) := step s c in let '(s, rs) := answers step s cs in (s, r :: rs)
  end.

(** ** The cache implements its specification *)

Definition ids_of (l : list BatchRecord) : list bytes := BatchID <$> l.
Definition seen_of (l : list BatchRecord) : gmap bytes BatchRecord := list_to_map ((fun r => (BatchID r, r)) <$> l).

Record represents (a : Batches) (l : list BatchRecord) : Prop := {
  rep_order : batchOrder a = ids_of l;
  rep_seen : batchSeen a = seen_of l;
  rep_nodup : NoDup (ids_of l);
  rep_named : [] ∉ ids_of l;
  rep_len : (length l <= maxTrackedBatches)%nat
}.

Lemma ids_of_app l l' : ids_of (l ++ l') = ids_of l ++ ids_of l'.
Proof. apply fmap_app. Qed.

Lemma seen_fst l : ((fun r => (BatchID r, r)) <$> l).*1 = ids_of l.
Proof. unfold ids_of. rewrite <- list_fmap_compose. by apply list_fmap_ext. Qed.

Lemma find_batch_cons id r l : find_batch id (r :: l) = if bool_decide (BatchID r = id) then Some r else find_batch id l.
Proof.
  unfold find_batch. cbn [list_find]. destruct (decide (BatchID r = id)) as [E | E].
  - by rewrite bool_decide_true.
  - rewrite bool_decide_false by done. by destruct (list_find _ l) as [[i x] |].
Qed.

Lemma seen_find l id : seen_of l !! id = find_batch id l.
Proof.
  induction l as [| r l IH]; [done |]. rewrite find_batch_cons. unfold seen_of in *. cbn [fmap list_fmap list_to_map foldr].
  case_bool_decide as E; [subst; by rewrite lookup_insert_eq | by rewrite lookup_insert_ne].
Qed.

Lemma find_batch_app id l r : find_batch id l = None -> find_batch id (l ++ [r]) = if bool_decide (BatchID r = id) then Some r else None.
Proof.
  induction l as [| x l IH]; cbn [app]; rewrite ?find_batch_cons; [done |].
  destruct (bool_decide (BatchID x = id)); [by intros [=] | apply IH].
Qed.

Lemma find_batch_none id l : find_batch id l = None <-> id ∉ ids_of l.
Proof.
  induction l as [| r l IH]; [split; [intros _; apply not_elem_of_nil | done] |].
  rewrite find_batch_cons. unfold ids_of in *. cbn [fmap list_fmap]. rewrite not_elem_of_cons. case_bool_decide as E.
  - split; [done | intros [Hn _]; by destruct Hn].
  - rewrite IH. split; [intros Hn; split; [congruence | done] | tauto].
Qed.

Lemma seen_app l r : BatchID r ∉ ids_of l -> seen_of (l ++ [r]) = <[BatchID r := r]> (seen_of l).
Proof.
  intros Hr. apply map_eq. intros id. rewrite seen_find. destruct (decide (id = BatchID r)) as [-> | Hn].
  - rewrite lookup_insert_eq, find_batch_app by (by apply find_batch_none). by rewrite bool_decide_true.
  - rewrite lookup_insert_ne, seen_find by congruence. induction l as [| x l IH]; cbn [app]; rewrite ?find_batch_cons.
    + by rewrite bool_decide_false by congruence.
    + case_bool_decide; [done |]. apply IH. unfold ids_of in *. cbn [fmap list_fmap] in Hr. set_solver.
Qed.

Lemma delete_seen r l : BatchID r ∉ ids_of l -> delete (BatchID r) (seen_of (r :: l)) = seen_of l.
Proof.
  intros Hr. unfold seen_of at 1. cbn [fmap list_fmap list_to_map foldr]. rewrite delete_insert_id; [done |].
  fold (seen_of l). rewrite seen_find. by apply find_batch_none.
Qed.

(** Evicting leaves the last [maxTrackedBatches]. *)
Lemma evict_drop l : NoDup (ids_of l) ->
  let l' := drop (length l - maxTrackedBatches) l in evict (ids_of l) (seen_of l) = mkBatches (seen_of l') (ids_of l').
Proof.
  induction l as [| r l IH]; intros Hn; [done |]. apply NoDup_cons in Hn as [Hr Hn]. unfold ids_of at 1. cbn [fmap list_fmap evict].
  fold (ids_of l). assert (length (BatchID r :: ids_of l) = length (r :: l)) as -> by (cbn; unfold ids_of; by rewrite length_fmap).
  case_bool_decide as E.
  - rewrite delete_seen by done. rewrite IH by done. cbn [length] in *. cbv zeta.
    replace (S (length l) - maxTrackedBatches)%nat with (S (length l - maxTrackedBatches)) by lia. done.
  - cbv zeta. replace (length (r :: l) - maxTrackedBatches)%nat with O by lia. done.
Qed.


(** The loop of pruning: [done_] was kept, [l] is to come. *)
Lemma prune_loop_filter cutoff l done_ pruned : NoDup (ids_of (done_ ++ l)) ->
  let kept := filter (fun r => cutoff <= BatchReceivedAt r) l in
  prune_loop cutoff (ids_of l) (seen_of (done_ ++ l)) (ids_of done_) pruned =
    (mkBatches (seen_of (done_ ++ kept)) (ids_of (done_ ++ kept)), pruned + (len l - len kept)).
Proof.
  revert done_ pruned. induction l as [| r l IH]; intros done_ pruned Hn; cbv zeta.
  { rewrite filter_nil, !app_nil_r. cbn [ids_of fmap list_fmap prune_loop]. by rewrite Z.add_0_r. }
  cbn [ids_of fmap list_fmap prune_loop]. fold (ids_of l).
  assert (BatchID r ∉ ids_of done_ /\ BatchID r ∉ ids_of l /\ NoDup (ids_of (done_ ++ l))) as (Hd & Hl & Hn').
  { unfold ids_of in *. rewrite fmap_app in *. cbn [fmap list_fmap] in Hn. rewrite <- Permutation_middle in Hn.
    apply NoDup_cons in Hn as [Hr Hn]. rewrite elem_of_app in Hr. tauto. }
  assert (seen_of (done_ ++ r :: l) !! BatchID r = Some r) as ->.
  { rewrite seen_find. clear IH Hn Hn' Hl. induction done_ as [| x d IH]; cbn [app]; rewrite find_batch_cons.
    - by rewrite bool_decide_true.
    - unfold ids_of in Hd. cbn [fmap list_fmap] in Hd. apply not_elem_of_cons in Hd as [Hx Hd].
      rewrite bool_decide_false by congruence. by apply IH. }
  rewrite filter_cons. destruct (decide (cutoff <= BatchReceivedAt r)) as [Hc | Hc].
  - replace (BatchReceivedAt r <? cutoff) with false by lia.
    change [BatchID r] with (ids_of [r]). rewrite <- ids_of_app. rewrite (cons_middle r done_ l), app_assoc in Hn |- *.
    rewrite IH by done. cbv zeta. f_equal; [by rewrite <- app_assoc |]. rewrite !len_cons. lia.
  - replace (BatchReceivedAt r <? cutoff) with true by lia.
    assert (delete (BatchID r) (seen_of (done_ ++ r :: l)) = seen_of (done_ ++ l)) as ->.
    { apply map_eq. intros id. rewrite seen_find. destruct (decide (id = BatchID r)) as [-> | Hne].
      - rewrite lookup_delete_eq. symmetry. apply find_batch_none. unfold ids_of in *. rewrite fmap_app, elem_of_app. tauto.
      - rewrite lookup_delete_ne, seen_find by done. clear IH Hn Hn' Hl Hd.
        induction done_ as [| x d IH]; cbn [app]; rewrite !find_batch_cons; [by rewrite bool_decide_false |].
        by rewrite IH. }
    rewrite IH by done. f_equal. rewrite len_cons. lia.
Qed.

Lemma batch_step_spec a l c : represents a l ->
  represents (batch_step a c).1 (spec_step l c).1 /\ (batch_step a c).2 = (spec_step l c).2.
Proof.
  intros [Ho Hs Hn Hm Hl]. destruct c as [id n now | id | now older]; cbn [batch_step spec_step].
  - split; [| by destruct (bool_decide _ || _)]. unfold RecordBatch.
    destruct (bool_decide (id = [])) eqn:E; [done |]. apply bool_decide_eq_false in E. rewrite Hs, seen_find. cbn [orb fst].
    case_bool_decide as Ef; [done |]. cbn [fst]. set (r := mkBatchRecord id n now).
    assert (id ∉ ids_of l) as Hid. { apply find_batch_none. by apply eq_None_not_Some. }
    replace (batchOrder a ++ [id]) with (ids_of (l ++ [r])) by (rewrite Ho; unfold ids_of; by rewrite fmap_app).
    change (<[id := r]> (seen_of l)) with (<[BatchID r := r]> (seen_of l)). rewrite <- seen_app by done.
    assert (NoDup (ids_of (l ++ [r]))) as Hn2.
    { unfold ids_of. rewrite fmap_app. apply NoDup_app. split; [done |]. split; [| apply NoDup_singleton].
      cbn [fmap list_fmap]. intros x Hx Hx'. apply list_elem_of_singleton in Hx' as ->. done. }
    rewrite evict_drop by done. set (k := (length (l ++ [r]) - maxTrackedBatches)%nat).
    assert (ids_of (l ++ [r]) = ids_of (take k (l ++ [r])) ++ ids_of (drop k (l ++ [r]))) as Hsplit.
    { unfold ids_of. by rewrite <- fmap_app, take_drop. }
    constructor; cbn [batchOrder batchSeen]; [done | done | | |].
    + rewrite Hsplit in Hn2. by apply NoDup_app in Hn2 as (_ & _ & Hn2).
    + intros Hin. assert ([] ∈ ids_of (l ++ [r])) as Hin2 by (rewrite Hsplit, elem_of_app; by right).
      unfold ids_of in Hin2. rewrite fmap_app, elem_of_app in Hin2. destruct Hin2 as [Hin2 | Hin2]; [done |].
      apply list_elem_of_singleton in Hin2. cbn in Hin2. congruence.
    + rewrite length_drop. unfold k. lia.
  - split; [done |]. cbn [snd]. f_equal. unfold GetBatch. rewrite Hs, seen_find. case_bool_decide as E; [| done].
    subst. symmetry. by apply find_batch_none.
  - unfold PruneBatches. rewrite Ho, Hs. pose proof (prune_loop_filter (now - older) l [] 0 Hn) as Hp. cbv zeta in Hp. cbn [app] in Hp.
    change (ids_of []) with (@nil bytes) in Hp. rewrite Hp. cbn [fst snd]. set (kept := filter _ l). split; [| done].
    assert (sublist kept l) as Hsub by apply sublist_filter.
    constructor; cbn [batchOrder batchSeen]; [done | done | | |].
    + eapply sublist_NoDup; [exact Hn |]. by apply fmap_sublist.
    + intros Hin. apply Hm. eapply elem_of_sublist; [exact Hin |]. by apply fmap_sublist.
    + apply sublist_length in Hsub. lia.
Qed.

Lemma no_batches_represents : represents no_batches [].
Proof. constructor; [done | done | constructor | apply not_elem_of_nil | cbn; lia]. Qed.

Lemma answers_spec cs a l : represents a l ->
  represents (answers batch_step a cs).1 (answers spec_step l cs).1 /\
  (answers batch_step a cs).2 = (answers spec_step l cs).2.
Proof.
  revert a l. induction cs as [| c cs IH]; intros a l HR; [done |]. cbn [answers].
  destruct (batch_step_spec a l c HR) as [HR' Ha]. destruct (batch_step a c) as [a' r], (spec_step l c) as [l' r'].
  cbn [fst snd] in *. subst r'. destruct (IH a' l' HR') as [HR'' Hb].
  destruct (answers batch_step a' cs) as [a'' rs], (answers spec_step l' cs) as [l'' rs'].
  cbn [fst snd] in *. by subst.
Qed.

(** C23: The batch cache answers every sequence of record, look-up and prune calls as the
    list of the recorded batches would: an id is recorded once, the newest
    [maxTrackedBatches] are kept in order, and a prune drops exactly the old ones; so the
    cache never grows past its bound and its map and its queue always agree. *)
Theorem batch_cache_refines (cs : list batch_call) :
  (answers batch_step no_batches cs).2 = (answers spec_step [] cs).2 /\
  represents (answers batch_step no_batches cs).1 (answers spec_step [] cs).1.
Proof. destruct (answers_spec cs _ _ no_batches_represents). done. Qed.

(** ** A retry within the window is recognised *)

Lemma find_batch_drop k l id r : find_batch id l = Some r -> NoDup (ids_of l) -> id ∈ ids_of (drop k l) ->
  find_batch id (drop k l) = Some r.
Proof.
  revert k. induction l as [| x l IH]; intros [| k] Hf Hn Hin; [done | done | done |].
  apply NoDup_cons in Hn as [Hx Hn]. rewrite find_batch_cons in Hf. cbn [drop] in *. case_bool_decide as E.
  - subst. exfalso. apply Hx. eapply elem_of_sublist; [exact Hin |]. apply fmap_sublist, sublist_drop.
  - by apply IH.
Qed.

Definition is_record (c : batch_call) : bool := match c with CRecord _ _ _ => true | _ => false end.
Definition is_prune (c : batch_call) : bool := match c with CPrune _ _ => true | _ => false end.

(** The number of batches recorded by [cs]. *)
Definition records (cs : list batch_call) : nat := length (filter (fun c => is_record c = true) cs).

Lemma records_cons c cs : records (c :: cs) = ((if is_record c then 1 else 0) + records cs)%nat.
Proof. unfold records. rewrite filter_cons. destruct (is_record c); [by rewrite decide_True | by rewrite decide_False]. Qed.

Lemma spec_keeps cs pre r post :
  forallb (fun c => negb (is_prune c)) cs = true -> (length post + records cs < maxTrackedBatches)%nat ->
  exists pre' post', (answers spec_step (pre ++ r :: post) cs).1 = pre' ++ r :: post'.
Proof.
  revert pre post. induction cs as [| c cs IH]; intros pre post Hp Hl; [by exists pre, post |].
  cbn [forallb] in Hp. apply andb_true_iff in Hp as [Hc Hp]. rewrite records_cons in Hl. cbn [answers].
  destruct c as [id n now | id | now older]; [| | done]; cbn [spec_step is_record] in *.
  - destruct (bool_decide (id = []) || _) eqn:E.
    + destruct (IH pre post Hp) as (pre' & post' & Ha); [lia |].
      destruct (answers spec_step (pre ++ r :: post) cs) as [l rs]. by exists pre', post'.
    + set (x := mkBatchRecord id n now). rewrite <- app_assoc. cbn [app].
      destruct (IH (drop (length (pre ++ r :: post ++ [x]) - maxTrackedBatches) pre) (post ++ [x]) Hp) as (pre' & post' & Ha).
      { rewrite length_app. cbn [length]. lia. }
      assert (forall A (k : nat) (a b : list A), (k <= length a)%nat -> drop k (a ++ b) = drop k a ++ b) as Hdrop.
      { intros A k a b Hk. rewrite drop_app. replace (k - length a)%nat with O by lia. by rewrite drop_0. }
      cbv zeta. rewrite Hdrop by (rewrite !length_app; cbn [length]; rewrite length_app; cbn [length]; lia).
      destruct (answers spec_step _ cs) as [l rs]. by exists pre', post'.
  - destruct (IH pre post Hp) as (pre' & post' & Ha); [lia |].
    destruct (answers spec_step (pre ++ r :: post) cs) as [l rs]. by exists pre', post'.
Qed.

Lemma find_middle pre r post : NoDup (ids_of (pre ++ r :: post)) -> find_batch (BatchID r) (pre ++ r :: post) = Some r.
Proof.
  induction pre as [| x pre IH]; cbn [app]; rewrite find_batch_cons; [by rewrite bool_decide_true |].
  intros Hn. apply NoDup_cons in Hn as [Hx Hn]. rewrite bool_decide_false; [by apply IH |].
  intros He. apply Hx. rewrite He, ids_of_app, elem_of_app. right. by left.
Qed.

Lemma GetBatch_find a l id : represents a l -> GetBatch a id = find_batch id l.
Proof. intros HR. pose proof (batch_step_spec a l (CGet id) HR) as [_ H]. by injection H. Qed.

Lemma recognised_later (before after : list batch_call) (id : bytes) (n now : Z) :
  let a := (answers batch_step no_batches before).1 in
  id <> [] -> GetBatch a id = None ->
  forallb (fun c => negb (is_prune c)) after = true -> (records after < maxTrackedBatches)%nat ->
  GetBatch (answers batch_step (RecordBatch a id n now) after).1 id = Some (mkBatchRecord id n now).
Proof.
  intros a Hid Hg Hp Hl. destruct (answers_spec before _ _ no_batches_represents) as [HR _]. fold a in HR.
  set (l := (answers spec_step [] before).1) in *. pose proof (batch_step_spec a l (CRecord id n now) HR) as [HR' _].
  cbn [batch_step spec_step fst] in HR'. rewrite (GetBatch_find a l) in Hg by done.
  rewrite Hg in HR'. rewrite (bool_decide_false (id = [])), bool_decide_false in HR' by (done || by intros [? [=]]).
  cbn [orb fst] in HR'. set (r := mkBatchRecord id n now) in *.
  replace (drop (length (l ++ [r]) - maxTrackedBatches) (l ++ [r]))
    with (drop (length (l ++ [r]) - maxTrackedBatches) l ++ [r]) in HR'.
  2: { pose proof (rep_len _ _ HR). rewrite (drop_app_le l) by (rewrite length_app; cbn [length]; unfold maxTrackedBatches in *; lia). done. }
  destruct (spec_keeps after (drop (length (l ++ [r]) - maxTrackedBatches) l) r [] Hp) as (pre & post & Ha); [cbn; lia |].
  destruct (answers_spec after _ _ HR') as [HR'' _]. rewrite Ha in HR''. rewrite (GetBatch_find _ _ _ HR'').
  change id with (BatchID r). apply find_middle, HR''.
Qed.

(** Once recorded, a batch is recognised with its count, whatever the cache held before,
    for as long as fewer than [maxTrackedBatches] further records are made and nothing is pruned. *)
Theorem retry_recognised (before after : list batch_call) (id : bytes) (n now : Z) :
  let a := (answers batch_step no_batches before).1 in
  id <> [] -> GetBatch a id = None ->
  forallb (fun c => negb (is_prune c)) after = true -> (records after < maxTrackedBatches)%nat ->
  GetBatch (answers batch_step (RecordBatch a id n now) after).1 id = Some (mkBatchRecord id n now).
Proof. apply recognised_later. Qed.

Lemma retry_recognised_witness :
  let a := (answers batch_step no_batches [CRecord (str "b1") 3 10; CGet (str "b2")]).1 in
  GetBatch (answers batch_step (RecordBatch a (str "b2") 7 20) [CRecord (str "b3") 1 30; CGet (str "b1")]).1 (str "b2") =
    Some (mkBatchRecord (str "b2") 7 20).
Proof.
  apply (retry_recognised [CRecord (str "b1") 3 10; CGet (str "b2")] [CRecord (str "b3") 1 30; CGet (str "b1")]);
    [done | vm_compute; done | done |]. change (1 < maxTrackedBatches)%nat. unfold maxTrackedBatches. lia.
Defined.

(** ** Whose id is written back *)

Section WriteBack.
Context {U : Unicode} {M : MD5} {J : BodyCodec} {K : Conversion} {C : Zstd} {F : Type}.
Context (at_least_one : F -> bool) (draw : nat -> F -> bool) (cb : bool).

Lemma process_loop_length (p : Pipeline) budget es : (length es <= length (process_loop (F := F) p budget es))%nat.
Proof.
  revert budget. induction es as [| e es IH]; intros budget; [done |]. cbn [process_loop].
  destruct (_ && _); cbn [length]; [rewrite length_app |]; etransitivity; [| | apply le_n_S, IH |];
    [apply le_n_S; etransitivity; [apply IH | apply Nat.le_add_l] | apply le_n | apply le_n].
Qed.

(** As many rows out as entries in: nothing was expanded. *)
Lemma process_loop_exact (p : Pipeline) budget es : length (process_loop (F := F) p budget es) = length es ->
  process_loop p budget es = prepare p <$> es.
Proof.
  revert budget. induction es as [| e es IH]; intros budget Hl; [done |]. cbn [process_loop fmap list_fmap] in *.
  destruct (_ && _); cbn [length] in Hl.
  - rewrite length_app in Hl. set (x := take _ _) in *.
    pose proof (process_loop_length p (budget - len x) es) as Hle.
    assert (x = []) as -> by (apply nil_length_inv; lia). cbn [app length] in *. rewrite IH by lia. done.
  - rewrite IH by lia. done.
Qed.

(** A stored row of [e]: its id and receipt time set, as the live tail keeps it. *)
Definition row_of (e row : Entry) : Prop := exists id now, tailed cb (set ReceivedAt now (set ID id e)) row.

(** What the engine returns is what its pipeline lets through, stored. *)
Definition stores {S : Type} (p : Pipeline (F := F)) (Ingest : S -> list Entry -> S * result (list Entry)) : Prop :=
  forall s es s' rows, Ingest s es = (s', Ok rows) -> Forall2 row_of (Process at_least_one draw p es) rows.

(** With no sampling rule in the engine, as the server runs it, an id written back into
    the caller's batch is the id of the row made from that very entry, or the batch is left
    as it was. *)
Theorem ids_belong_to_their_entries {S : Type} (p : Pipeline (F := F)) (Ingest : S -> list Entry -> S * result (list Entry))
    (s s' : S) (entries entries' : list Log.LogEntry) (n : Z) :
  samplingRules p = [] -> stores p Ingest -> BatchInsert Ingest s entries = (s', entries', Ok n) ->
  entries' = entries \/
  Forall2 (fun e e' => exists row, row_of (prepare p (oldToNew e)) row /\ e' = Log.with_ID (ID row) e) entries entries'.
Proof.
  intros Hr Hst. unfold BatchInsert. case_bool_decide as E; [intros [= <- <- <-]; by left |].
  destruct (Ingest s (oldToNew <$> entries)) as [s2 [rows | err |]] eqn:Hi; intros [= <- <- <-].
  unfold write_back. case_bool_decide as El; [right | by left]. apply Hst in Hi. clear E.
  pose proof (Forall2_length _ _ _ Hi) as Hl. unfold Process, applySampling in *. rewrite Hr in *. rewrite bool_decide_true in * by done.
  rewrite process_loop_exact in Hi by (rewrite Hl, El; symmetry; apply length_fmap).
  clear Hl El. rewrite <- list_fmap_compose in Hi. revert rows Hi. induction entries as [| e entries IH]; intros rows Hi.
  - constructor.
  - inversion Hi as [| ? row ? rows' Hrow Hrest Heq1 Heq2]. subst. cbn [zip_with]. constructor; [by exists row | by apply IH].
Qed.

End WriteBack.

(** ** What is read back *)

Section ReadBack.
Context {J : BodyCodec} {K : Conversion}.

Lemma int_of_int n : Z.abs n < 2 ^ 53 -> int_of (of_int n) = n.
Proof.
  intros Hn. destruct (of_int_exact n Hn) as [Ht Hf]. unfold int_of. destruct (of_int n) as [s | s | | s m e]; try done.
  rewrite Ht. unfold fits_int. by replace ((- 2 ^ 63 <=? n) && (n <? 2 ^ 63)) with true by lia.
Qed.

Lemma UnixMilli_of ms : is_int64 ms -> UnixMilli (of_UnixMilli ms) = ms.
Proof. intros Hm. unfold UnixMilli, of_UnixMilli. rewrite Z.div_mul by done. by apply int64_small. Qed.

(** The integers of a row that pass through a float64. *)
Definition exact_row (e : Entry) : Prop :=
  is_int64 (Ts e) /\ Forall (fun n => Z.abs n < 2 ^ 53) [DurationMs e; DbMs e; RenderMs e; ExtMs e].

Lemma misses_back hits misses : is_int64 misses -> is_int64 hits ->
  setIfZero misses (int64 (int64 (hits + misses) - hits)) = misses.
Proof.
  intros Hm Hh. unfold setIfZero. destruct (misses =? 0) eqn:E; [| done]. apply Z.eqb_eq in E as ->.
  rewrite Z.add_0_r, (int64_small hits), Z.sub_diag by done. done.
Qed.

Lemma setIfZero_same n : setIfZero n n = n.
Proof. unfold setIfZero. destruct (n =? 0); [by destruct (0 <? n) | done]. Qed.

Lemma memory_back n : setIfZero n (int_of (fmul (fdiv (of_int n) memDeltaScale) memDeltaScale)) = n.
Proof. unfold setIfZero. destruct (n =? 0) eqn:E; [| done]. apply Z.eqb_eq in E as ->. by vm_compute. Qed.

(** C24: A row that was read and is written again is the same row but for its id, its receipt
    time and its body: when it has a duration it is stamped as a request if its event type
    was empty, and when it has none its method, path, handler, N+1 flag and duplicate count
    are gone. *)
Theorem row_roundtrip (e : Entry) :
  exact_row e -> is_int64 (CacheHits e) -> is_int64 (CacheMisses e) ->
  oldToNew (newToOld e) =
    set ID 0 (set ReceivedAt 0 (set Body (body_of (newToOld e))
      (if 0 <? DurationMs e then
         set NPlusOne (Some (default false (NPlusOne e)))
           (if bool_decide (EventType e = []) then set EventType http_request e else e)
       else set Method [] (set Path [] (set Handler [] (set NPlusOne None (set DupQueries 0 e))))))).
Proof.
  intros [Ht Hf] Hh Hm. rewrite !Forall_cons in Hf. destruct Hf as (Hd & Hdb & Hr & Hx & _).
  unfold oldToNew. cbn [Log.RequestSummary newToOld]. destruct (0 <? DurationMs e) eqn:E.
  - unfold summary_fields. cbv zeta.
    assert (flat_fields (newToOld e) = set ID 0 (set ReceivedAt 0 (set Body (body_of (newToOld e))
      (set Method [] (set Path [] (set Handler [] (set NPlusOne None (set DupQueries 0 e)))))))) as ->.
    { unfold flat_fields. cbn [newToOld Log.Timestamp Log.DurationMs Log.DbMs]. rewrite UnixMilli_of, !int_of_int by done. reflexivity. }
    destruct e. unfold set, requestSummaryFromEntry. cbn in *. case_bool_decide; cbn;
      rewrite !setIfZero_same, ?int_of_int, ?setIfZero_same, ?misses_back, ?memory_back by done; reflexivity.
  - unfold flat_fields. cbn [newToOld Log.Timestamp Log.DurationMs Log.DbMs]. rewrite UnixMilli_of, !int_of_int by done. reflexivity.
Qed.

Lemma Body_oldToNew (e : Log.LogEntry) : Body (oldToNew e) = body_of e.
Proof. unfold oldToNew. destruct (Log.RequestSummary e); [| done]. unfold summary_fields. by destruct (bool_decide (EventType _ = [])). Qed.

(** Metadata that is marshalled on the way in is there on the way out. *)
Lemma metadata_back `{!BodyCodecOk} (e : Log.LogEntry) m : Log.MetadataJSON e = [] -> Log.Metadata e = Some m -> m <> [] ->
  decodable (VObject [(metadata_key, VObject m)]) = true -> UnmarshalAny [] = None ->
  Log.Metadata (newToOld (oldToNew e)) = Some m.
Proof.
  intros Hj Hm Hne Hd Hn. cbn [newToOld Log.Metadata].
  rewrite Body_oldToNew.
  unfold body_of. rewrite Hj, Hm. rewrite (bool_decide_true ([] = [])) by done. cbn [negb]. destruct m as [| kv m]; [done |].
  destruct (Marshal_Unmarshal _ Hd) as (b & -> & Hu). cbn [default id]. unfold metadata_of.
  rewrite bool_decide_false by (intros ->; congruence). rewrite Hu. cbn [get_key]. by rewrite bool_decide_true.
Qed.

(** Metadata that came with its wire JSON is not: reading looks under the key "metadata" only. *)
Lemma metadata_lost (e : Log.LogEntry) m : Log.MetadataJSON e <> [] -> UnmarshalAny (Log.MetadataJSON e) = Some (VObject m) ->
  get_key metadata_key m = None -> Log.Metadata (newToOld (oldToNew e)) = None.
Proof.
  intros Hj Hu Hk. cbn [newToOld Log.Metadata].
  rewrite Body_oldToNew.
  unfold body_of. rewrite (bool_decide_false (Log.MetadataJSON e = [])) by done. cbn [negb]. unfold metadata_of.
  by rewrite bool_decide_false, Hu, Hk.
Qed.

(** A request that took no whole millisecond is read back without its summary, and with it
    its method and path; a job with a duration is read back with one. *)
Lemma fast_request_lost (e : Log.LogEntry) rs : Log.RequestSummary e = Some rs -> int_of (Req.DurationMs rs) = 0 ->
  Log.RequestSummary (newToOld (oldToNew e)) = None.
Proof. intros Hr Hd. unfold oldToNew. rewrite Hr. unfold summary_fields. destruct e. unfold set. cbn in *. case_bool_decide; cbn; by rewrite Hd. Qed.

Lemma job_becomes_request (e : Log.LogEntry) : Log.RequestSummary e = None -> 0 < int_of (Log.DurationMs e) ->
  is_Some (Log.RequestSummary (newToOld (oldToNew e))).
Proof.
  intros Hr Hd. unfold oldToNew. rewrite Hr. cbn [newToOld Log.RequestSummary flat_fields DurationMs].
  by replace (0 <? int_of (Log.DurationMs e)) with true by lia.
Qed.

End ReadBack.

(** ** Concrete values *)

Definition zero_time : Z := - 62135596800 * 1000000000.

(** [store.LogEntry{}] with a service and the wire JSON of its metadata. *)
Definition plain_log (service metadataJSON : bytes) : Log.LogEntry := {|
  Log.ID := 0; Log.Timestamp := 0; Log.Level := str "info"; Log.Service := service; Log.Environment := [];
  Log.CommitHash := []; Log.TraceID := []; Log.SpanID := []; Log.ParentSpanID := []; Log.RequestID := [];
  Log.UserID := []; Log.Message := str "m"; Log.EventType := []; Log.ExceptionClass := [];
  Log.ErrorFingerprint := []; Log.SourceFile := []; Log.SourceLine := 0; Log.Host := []; Log.Kind := [];
  Log.TenantID := []; Log.SessionID := []; Log.Route := []; Log.CacheMs := 0; Log.CacheHits := 0;
  Log.CacheMisses := 0; Log.ExtMs := 0; Log.ExtCount := 0; Log.RenderMs := 0; Log.AllocCount := 0;
  Log.MemDeltaMb := 0; Log.SlowQueries := 0; Log.ErrorMessage := []; Log.JobClass := []; Log.JobQueue := [];
  Log.JobID := []; Log.QueueMs := 0; Log.DurationMs := zero; Log.DbMs := zero; Log.DbCount := 0; Log.Status := 0;
  Log.Metadata := None; Log.MetadataJSON := metadataJSON; Log.DeepCapture := []; Log.RequestSummary := None;
  Log.CreatedAt := zero_time
|}.

Definition no_conversion : Conversion := fun _ => 0.

(** Cutting instead of rounding: 0.29 MB is kept as 28 hundredths. *)
Lemma memory_cut : int_of (H := no_conversion) (fmul (literal 29 100) memDeltaScale) = 28.
Proof. by vm_compute. Qed.

Definition timed_row : Entry :=
  set DurationMs 12 (set CacheHits 3 (set CacheMisses 4 (set MemDeltaMb 29 (set Ts 1700000000123
    (set Method (str "GET") (set Path (str "/a") Entry0)))))).

Lemma row_roundtrip_witness :
  let e := timed_row in
  exact_row e /\
  oldToNew (J := tree_codec) (K := no_conversion) (newToOld (J := tree_codec) e) =
    set ID 0 (set ReceivedAt 0 (set Body (body_of (J := tree_codec) (newToOld (J := tree_codec) e))
      (if 0 <? DurationMs e then
         set NPlusOne (Some (default false (NPlusOne e)))
           (if bool_decide (EventType e = []) then set EventType http_request e else e)
       else set Method [] (set Path [] (set Handler [] (set NPlusOne None (set DupQueries 0 e))))))).
Proof.
  assert (exact_row timed_row) as H.
  { split; [split; vm_compute; congruence |]. repeat constructor. }
  split; [done |]. apply (row_roundtrip (J := tree_codec) (K := no_conversion) timed_row); [done | |]; split; vm_compute; congruence.
Defined.

(** The engine as it stores a batch in an empty segment: the pipeline, then the ids. *)
Definition first_store (rules : list (SamplingRule bool)) (s : Z) (es : list Entry) : Z * result (list Entry) :=
  (s + 1, Ok (assign_ids 5 0 0
    (Process (U := ascii_unicode) (M := plain_md5) (J := tree_codec) id (fun _ r => r)
      (NewPipeline (U := ascii_unicode) rules DefaultPIIConfig) es))).

Lemma assign_ids_rows `{!Zstd} cb hour now idx es : Forall2 (row_of cb) es (assign_ids hour now idx es).
Proof.
  revert idx. induction es as [| e es IH]; intros idx; cbn [assign_ids]; constructor; [| apply IH].
  exists (IDForPosition hour idx), now. by left.
Qed.

Lemma ids_belong_to_their_entries_witness :
  let batch := [plain_log (str "a") []; plain_log (str "b") []] in
  let r := BatchInsert (J := tree_codec) (K := no_conversion) (first_store []) 0 batch in
  r.1.2 = batch \/
  Forall2 (fun e e' => exists row,
    row_of (C := stored_codec) true (prepare (U := ascii_unicode) (M := plain_md5) (J := tree_codec)
      (NewPipeline (U := ascii_unicode) (F := bool) [] DefaultPIIConfig) (oldToNew (J := tree_codec) (K := no_conversion) e)) row /\
    e' = Log.with_ID (ID row) e) batch r.1.2.
Proof.
  apply (ids_belong_to_their_entries (U := ascii_unicode) (M := plain_md5) (J := tree_codec) (K := no_conversion) (C := stored_codec)
    id (fun _ r => r) true (NewPipeline (U := ascii_unicode) [] DefaultPIIConfig) (first_store []) 0 1 _ _ 2).
  - done.
  - intros s es s' rows [= <- <-]. apply assign_ids_rows.
  - by vm_compute.
Defined.

(** With a sampling rule it may be another row's: the first entry is dropped, the second
    brings a log of its own, and the first gets the id of the second. *)
Lemma id_of_another_row :
  let batch := [plain_log (str "noisy") []; plain_log (str "kept") leaky_body] in
  let r := BatchInsert (J := tree_codec) (K := no_conversion)
             (first_store [mkSamplingRule (str "noisy") false false]) 0 batch in
  (Log.ID <$> r.1.2) = [IDForPosition 5 0; IDForPosition 5 1] /\
  match first_store [mkSamplingRule (str "noisy") false false] 0 (oldToNew (J := tree_codec) (K := no_conversion) <$> batch) with
  | (_, Ok rows) => (fun e => (ID e, Service e)) <$> rows =
      [(IDForPosition 5 0, str "kept"); (IDForPosition 5 1, str "kept")]
  | _ => False
  end.
Proof. by vm_compute. Qed.
