(* ===== verification/IngestHttp.v ===== *)
(** * HTTP ingest (internal/ingest: limits, flat_handler, fingerprint, sampling, decode, handler)

    A request is decoded, checked entry by entry, turned into canonical entries, sampled and
    stored.  JSON and MessagePack decoding are parameters; the stores and
    the queue are functions of an abstract state.
    Main results: every string column is cut to its published cap and stays valid UTF-8; what
    a client sends is what a reader gets; a batch id is recorded only for a batch that was
    stored, so a retry never loses one; the suggestion for a misspelt field is a nearest
    name, by the distance a two-row table computes. *)

From stdpp Require Import base list gmap strings numbers sorting.
From Stdlib Require Import ZArith Lia SpecFloat.
From S2P Require Import Prelude Strconv Times Schema Ids Zstd Wal Writer Index Guard Scrub Utf8 Pipeline Floats Adapter.

(** ** Limits *)

Definition maxIdentFieldBytes : Z := 512.
Definition maxPathFieldBytes : Z := 2048.
Definition maxMessageBytes : Z := 16384.

(** An ellipsis (three bytes) and "[truncated]". *)
Definition truncationMarker : bytes := [226; 128; 166] ++ str "[truncated]".

(** [for keep > 0 && !utf8.RuneStart(s[keep]) { keep-- }]; the index is in range. *)
Fixpoint back_up (s : bytes) (keep : nat) : nat :=
  match keep with
  | O => O
  | S n => if RuneStart (default 0 (s !! keep)) then keep else back_up s n
  end.

Definition truncateField (s : bytes) (max : Z) : bytes :=
  if len s <=? max then s
  else
    let keep := max - len truncationMarker in
    let keep := if keep <? 0 then 0 else keep in
    take (back_up s (Z.to_nat keep)) s ++ truncationMarker.

Definition validLevels : list bytes :=
  str <$> (["debug"; "info"; "warn"; "warning"; "error"; "fatal"]%string).

Definition isValidLevel (level : bytes) : bool := bool_decide (level ∈ validLevels).

Definition normalizeLevel (level : bytes) : bytes :=
  if bool_decide (level = str "warning") then str "warn" else level.

Definition kindLog : bytes := str "log".
Definition kindRequest : bytes := str "request".
Definition kindJob : bytes := str "job".
Definition kindEvent : bytes := str "event".

(** ** The wire format *)

(** [flatEntry]; [jsonInt] is an integer, [jsonFloat] a float64, [json.RawMessage] its text. *)
Module Flat.
Record flatEntry := mkFlatEntry {
  Ts : bytes;
  Level : bytes;
  Service : bytes;
  Message : bytes;
  Env : bytes;
  Version : bytes;
  Host : bytes;
  Kind : bytes;
  EventType : bytes;
  TraceID : bytes;
  SpanID : bytes;
  ParentSpanID : bytes;
  RequestID : bytes;
  UserID : bytes;
  TenantID : bytes;
  SessionID : bytes;
  Method : bytes;
  Path : bytes;
  Route : bytes;
  Handler : bytes;
  Status : Z;
  DurationMs : Z;
  DbMs : Z;
  DbCount : Z;
  CacheMs : Z;
  CacheHits : Z;
  CacheMisses : Z;
  ExtMs : Z;
  ExtCount : Z;
  RenderMs : Z;
  AllocCount : Z;
  MemDeltaMb : float;
  NPlusOne : option bool;
  SlowQueries : Z;
  DupQueries : Z;
  ErrorClass : bytes;
  ErrorMessage : bytes;
  SourceFile : bytes;
  SourceLine : Z;
  JobClass : bytes;
  JobQueue : bytes;
  JobID : bytes;
  QueueMs : Z;
  Body : bytes
}.
End Flat.

(** [fe.Level = level] *)
Definition with_Level (level : bytes) (fe : Flat.flatEntry) : Flat.flatEntry :=
  let '(Flat.mkFlatEntry ts _ sv m en v h k et tr sp ps rq u te se me pa ro ha st d db dc cm ch cx em ec rm ac md np sq dq er em' sf sl jc jq ji qm bo) := fe in
  Flat.mkFlatEntry ts level sv m en v h k et tr sp ps rq u te se me pa ro ha st d db dc cm ch cx em ec rm ac md np sq dq er em' sf sl jc jq ji qm bo.

(** [math.Round], half away from zero, as an integer. *)
Definition round_half (x : float) : Z :=
  match x with
  | S754_finite s m e =>
      let n := if 0 <=? e then Z.pos m * 2 ^ e else (2 * Z.pos m + 2 ^ (- e)) / 2 ^ (1 - e) in
      if s then - n else n
  | _ => 0
  end.

(** [int(math.Round(x))] *)
Definition int_round `{Conversion} (x : float) : Z :=
  match x with
  | S754_zero _ => 0
  | S754_finite _ _ _ => if fits_int (round_half x) then round_half x else out_of_range x
  | _ => out_of_range x
  end.

(** [strconv.ParseFloat(s, 64)] *)
Class FloatSyntax := ParseFloat : bytes -> option float.

(** [jsonInt.UnmarshalJSON] and [jsonFloat.UnmarshalJSON] over the old value: [None] is an error. *)
Definition jsonInt_UnmarshalJSON `{FloatSyntax, Conversion} (old : Z) (b : bytes) : option Z :=
  let s := TrimSpace b in
  if bool_decide (s = []) || bool_decide (s = str "null") then Some old
  else int_round <$> ParseFloat s.

Definition jsonFloat_UnmarshalJSON `{FloatSyntax} (old : float) (b : bytes) : option float :=
  let s := TrimSpace b in
  if bool_decide (s = []) || bool_decide (s = str "null") then Some old else ParseFloat s.

(** The map [json.Unmarshal] leaves of an empty one, whether or not it returns an error:
    nil for null, otherwise the members it could decode. *)
Class MapDecoder := UnmarshalMap : bytes -> option (list (bytes * value)).

(** What [DecodeInterfaceLoose] returns. *)
Inductive loose := LNil | LInt (n : Z) | LUint (n : Z) | LFloat (x : float) | LString (s : bytes) | LOther.

Definition jsonInt_DecodeMsgpack `{FloatSyntax, Conversion} (old : Z) (v : loose) : option Z :=
  match v with
  | LNil => Some old
  | LInt n => Some n
  | LUint n => Some (int64 n)
  | LFloat x => Some (int_round x)
  | LString s => int_round <$> ParseFloat (TrimSpace s)
  | LOther => None
  end.

Definition jsonFloat_DecodeMsgpack `{FloatSyntax} (old : float) (v : loose) : option float :=
  match v with
  | LNil => Some old
  | LInt n | LUint n => Some (of_int n)
  | LFloat x => Some x
  | LString s => ParseFloat (TrimSpace s)
  | LOther => None
  end.

(** ** From the wire to the canonical entry *)

Section Entries.
Context {U : Unicode} {M : MD5} {D : MapDecoder} {K : Conversion}.

Definition deriveKind (fe : Flat.flatEntry) : bytes :=
  let k := ToLower (TrimSpace (Flat.Kind fe)) in
  if negb (bool_decide (k = [])) then k
  else if bool_decide (Flat.EventType fe = http_request) then kindRequest
  else if negb (bool_decide (Flat.Method fe = [])) || negb (bool_decide (Flat.Path fe = [])) ||
          negb (bool_decide (Flat.Route fe = [])) || (0 <? Flat.Status fe) then kindRequest
  else if negb (bool_decide (Flat.JobClass fe = [])) || negb (bool_decide (Flat.JobQueue fe = [])) ||
          negb (bool_decide (Flat.JobID fe = [])) then kindJob
  else if negb (bool_decide (Flat.EventType fe = [])) then kindEvent
  else kindLog.

(** *** Error fingerprints *)

(** [strings.LastIndex] and [strings.TrimSuffix] of one byte. *)
Fixpoint last_index (s : bytes) (b : Z) : option nat :=
  match s with
  | [] => None
  | c :: s => match last_index s b with Some i => Some (S i) | None => if c =? b then Some O else None end
  end.

Definition trim_suffix (b : Z) (s : bytes) : bytes :=
  match last s with Some c => if c =? b then removelast s else s | None => s end.

Definition at_prefix : bytes := str "at ".
Definition file_prefix : bytes := str "File " ++ [34].

Definition extractFileFromFrame (frame : bytes) : bytes :=
  let frame := TrimSpace frame in
  let frame :=
    if starts at_prefix frame then
      match last_index frame 40 with
      | Some idx => trim_suffix 41 (drop (S idx) frame)
      | None => TrimPrefix at_prefix frame
      end
    else frame in
  let plain := fun frame => TrimSpace (take (default (length frame) (IndexOf frame [58])) frame) in
  if starts file_prefix frame then
    let frame := TrimPrefix file_prefix frame in
    match IndexOf frame [34] with
    | Some idx => take idx frame
    | None => plain frame
    end
  else plain frame.

(** [strings.SplitN(s, sep, n)] of one byte. *)
Fixpoint SplitN (n : nat) (s : bytes) (sep : Z) : list bytes :=
  match n with
  | O => []
  | S O => [s]
  | S n =>
      match IndexOf s [sep] with
      | Some i => take i s :: SplitN n (drop (S i) s) sep
      | None => [s]
      end
  end.

Fixpoint stack_loop (lines : list bytes) : bytes :=
  match lines with
  | [] => []
  | line :: lines =>
      let line := TrimSpace line in
      if bool_decide (line = []) || starts (str "Error:") line || starts (str "TypeError:") line then stack_loop lines
      else
        let f := extractFileFromFrame line in
        if negb (bool_decide (f = [])) then f else stack_loop lines
  end.

Definition extractFileFromStackLine (stack : bytes) : bytes := stack_loop (SplitN 3 stack 10).

Definition extractSourceFileFromBacktrace (metadata : option (list (bytes * value))) : bytes :=
  match metadata with
  | None => []
  | Some m =>
      let from_frames :=
        match get_key (str "backtrace") m with
        | Some (VArray (VString frame :: _)) => if bool_decide (frame = []) then [] else extractFileFromFrame frame
        | _ => []
        end in
      if negb (bool_decide (from_frames = [])) then from_frames
      else match get_key (str "stack_trace") m with
      | Some (VString st) => if bool_decide (st = []) then [] else extractFileFromStackLine st
      | _ => []
      end
  end.

Definition GenerateErrorFingerprint (e : Log.LogEntry) : bytes :=
  let level := ToLower (Log.Level e) in
  if negb (bool_decide (level = str "error")) && negb (bool_decide (level = str "fatal")) then []
  else
    let exceptionClass :=
      if bool_decide (Log.ExceptionClass e = []) then
        match Log.Metadata e ≫= get_key (str "error_class") with Some (VString v) => v | _ => [] end
      else Log.ExceptionClass e in
    let sourceFile :=
      if bool_decide (Log.SourceFile e = []) then extractSourceFileFromBacktrace (Log.Metadata e) else Log.SourceFile e in
    Compute (Log.Service e) exceptionClass sourceFile (Log.Message e).

(** *** The mapping *)

(** [metadata]: nil without a body. *)
Definition body_metadata (body : bytes) : option (list (bytes * value)) :=
  if bool_decide (body = []) then None else UnmarshalMap body.

(** [h.Cfg]: nil, or the default environment. *)
Context (DefaultEnv : option bytes).

Definition ident (s : bytes) : bytes := truncateField s maxIdentFieldBytes.
Definition path_like (s : bytes) : bytes := truncateField s maxPathFieldBytes.
Definition text_like (s : bytes) : bytes := truncateField s maxMessageBytes.

Definition request_summary (fe : Flat.flatEntry) : Req.RequestSummary := {|
  Req.ID := 0;
  Req.LogID := 0;
  Req.Controller := path_like (Flat.Handler fe);
  Req.Action := [];
  Req.Method := ident (Flat.Method fe);
  Req.Path := path_like (Flat.Path fe);
  Req.Status := Flat.Status fe;
  Req.DurationMs := of_int (Flat.DurationMs fe);
  Req.DBTimeMs := of_int (Flat.DbMs fe);
  Req.ViewTimeMs := zero;
  Req.SQLCount := Flat.DbCount fe;
  Req.SQLTotalMs := zero;
  Req.SQLSlowestMs := zero;
  Req.SQLSlowestName := [];
  Req.NPlusOne := default false (Flat.NPlusOne fe);
  Req.ViewCount := 0;
  Req.ViewTotalMs := zero;
  Req.ViewSlowestMs := zero;
  Req.ViewSlowestTemplate := [];
  Req.CacheReads := 0;
  Req.CacheHits := 0;
  Req.CacheWrites := 0;
  Req.CacheHitRatio := zero;
  Req.HTTPExternalCount := 0;
  Req.HTTPExternalTotalMs := zero;
  Req.HTTPSlowestMs := zero;
  Req.HTTPSlowestHost := [];
  Req.MemoryBeforeMb := zero;
  Req.MemoryAfterMb := zero;
  Req.MemoryDeltaMb := zero;
  Req.Timeline := [];
  Req.TimeBreakdown := [];
  Req.DuplicateQueries := Flat.DupQueries fe;
  Req.WorstDuplicateCount := 0;
  Req.TopDuplicates := []
|}.

(** The entry before its fingerprint; rows that are not requests carry their own timing. *)
Definition flat_log (fe : Flat.flatEntry) (ts : Z) : Log.LogEntry :=
  let env := match DefaultEnv with Some d => if bool_decide (Flat.Env fe = []) then d else Flat.Env fe | None => Flat.Env fe end in
  let kind := ident (deriveKind fe) in
  let request := bool_decide (kind = kindRequest) in
  {|
  Log.ID := 0;
  Log.Timestamp := ts;
  Log.Level := normalizeLevel (ToLower (Flat.Level fe));
  Log.Service := ident (Flat.Service fe);
  Log.Environment := ident env;
  Log.CommitHash := ident (Flat.Version fe);
  Log.TraceID := ident (Flat.TraceID fe);
  Log.SpanID := ident (Flat.SpanID fe);
  Log.ParentSpanID := ident (Flat.ParentSpanID fe);
  Log.RequestID := ident (Flat.RequestID fe);
  Log.UserID := ident (Flat.UserID fe);
  Log.Message := text_like (Flat.Message fe);
  Log.EventType := ident (Flat.EventType fe);
  Log.ExceptionClass := ident (Flat.ErrorClass fe);
  Log.ErrorFingerprint := [];
  Log.SourceFile := path_like (Flat.SourceFile fe);
  Log.SourceLine := Flat.SourceLine fe;
  Log.Host := ident (Flat.Host fe);
  Log.Kind := kind;
  Log.TenantID := ident (Flat.TenantID fe);
  Log.SessionID := ident (Flat.SessionID fe);
  Log.Route := path_like (Flat.Route fe);
  Log.CacheMs := Flat.CacheMs fe;
  Log.CacheHits := Flat.CacheHits fe;
  Log.CacheMisses := Flat.CacheMisses fe;
  Log.ExtMs := Flat.ExtMs fe;
  Log.ExtCount := Flat.ExtCount fe;
  Log.RenderMs := Flat.RenderMs fe;
  Log.AllocCount := Flat.AllocCount fe;
  Log.MemDeltaMb := int_round (fmul (Flat.MemDeltaMb fe) (of_int MemDeltaScale));
  Log.SlowQueries := Flat.SlowQueries fe;
  Log.ErrorMessage := text_like (Flat.ErrorMessage fe);
  Log.JobClass := ident (Flat.JobClass fe);
  Log.JobQueue := ident (Flat.JobQueue fe);
  Log.JobID := ident (Flat.JobID fe);
  Log.QueueMs := Flat.QueueMs fe;
  Log.DurationMs := if request then zero else of_int (Flat.DurationMs fe);
  Log.DbMs := if request then zero else of_int (Flat.DbMs fe);
  Log.DbCount := if request then 0 else Flat.DbCount fe;
  Log.Status := if request then 0 else Flat.Status fe;
  Log.Metadata := body_metadata (Flat.Body fe);
  Log.MetadataJSON := Flat.Body fe;
  Log.DeepCapture := [];
  Log.RequestSummary := if request then Some (request_summary fe) else None;
  Log.CreatedAt := zero_time
|}.

Definition flatToLogEntry (fe : Flat.flatEntry) (ts : Z) : Log.LogEntry :=
  let entry := flat_log fe ts in
  let fp := GenerateErrorFingerprint entry in
  if negb (bool_decide (fp = [])) then Log.with_fingerprint fp entry else entry.

End Entries.

(** ** Requests *)

(** [ingestLogEntry], without the parsed timestamp. *)
Module Nested.
Record ingestLogEntry := mkIngestLogEntry {
  Ts : bytes;
  Level : bytes;
  Service : bytes;
  Env : bytes;
  Version : bytes;
  Host : bytes;
  Kind : bytes;
  Message : bytes;
  EventType : bytes;
  TraceID : bytes;
  SpanID : bytes;
  ParentSpanID : bytes;
  RequestID : bytes;
  UserID : bytes;
  TenantID : bytes;
  SessionID : bytes;
  Method : bytes;
  Path : bytes;
  Route : bytes;
  Controller : bytes;
  Status : Z;
  DurationMs : Z;
  DbMs : Z;
  DbCount : Z;
  CacheMs : Z;
  CacheHits : Z;
  CacheMisses : Z;
  ExtMs : Z;
  ExtCount : Z;
  RenderMs : Z;
  AllocCount : Z;
  MemDeltaMb : float;
  NPlusOne : option bool;
  SlowQueries : Z;
  DupQueries : Z;
  ErrorClass : bytes;
  ErrorMessage : bytes;
  SourceFile : bytes;
  SourceLine : Z;
  JobClass : bytes;
  JobQueue : bytes;
  JobID : bytes;
  QueueMs : Z;
  Body : bytes
}.
End Nested.

(** [toFlat]; the timestamp travels beside it. *)
Definition toFlat (e : Nested.ingestLogEntry) : Flat.flatEntry := {|
  Flat.Ts := [];
  Flat.Level := Nested.Level e;
  Flat.Service := Nested.Service e;
  Flat.Message := Nested.Message e;
  Flat.Env := Nested.Env e;
  Flat.Version := Nested.Version e;
  Flat.Host := Nested.Host e;
  Flat.Kind := Nested.Kind e;
  Flat.EventType := Nested.EventType e;
  Flat.TraceID := Nested.TraceID e;
  Flat.SpanID := Nested.SpanID e;
  Flat.ParentSpanID := Nested.ParentSpanID e;
  Flat.RequestID := Nested.RequestID e;
  Flat.UserID := Nested.UserID e;
  Flat.TenantID := Nested.TenantID e;
  Flat.SessionID := Nested.SessionID e;
  Flat.Method := Nested.Method e;
  Flat.Path := Nested.Path e;
  Flat.Route := Nested.Route e;
  Flat.Handler := Nested.Controller e;
  Flat.Status := Nested.Status e;
  Flat.DurationMs := Nested.DurationMs e;
  Flat.DbMs := Nested.DbMs e;
  Flat.DbCount := Nested.DbCount e;
  Flat.CacheMs := Nested.CacheMs e;
  Flat.CacheHits := Nested.CacheHits e;
  Flat.CacheMisses := Nested.CacheMisses e;
  Flat.ExtMs := Nested.ExtMs e;
  Flat.ExtCount := Nested.ExtCount e;
  Flat.RenderMs := Nested.RenderMs e;
  Flat.AllocCount := Nested.AllocCount e;
  Flat.MemDeltaMb := Nested.MemDeltaMb e;
  Flat.NPlusOne := Nested.NPlusOne e;
  Flat.SlowQueries := Nested.SlowQueries e;
  Flat.DupQueries := Nested.DupQueries e;
  Flat.ErrorClass := Nested.ErrorClass e;
  Flat.ErrorMessage := Nested.ErrorMessage e;
  Flat.SourceFile := Nested.SourceFile e;
  Flat.SourceLine := Nested.SourceLine e;
  Flat.JobClass := Nested.JobClass e;
  Flat.JobQueue := Nested.JobQueue e;
  Flat.JobID := Nested.JobID e;
  Flat.QueueMs := Nested.QueueMs e;
  Flat.Body := Nested.Body e
|}.

(** [e.Level = level] of the nested payload. *)
Definition nested_with_Level (level : bytes) (e : Nested.ingestLogEntry) : Nested.ingestLogEntry := {|
  Nested.Ts := Nested.Ts e;
  Nested.Level := level;
  Nested.Service := Nested.Service e;
  Nested.Env := Nested.Env e;
  Nested.Version := Nested.Version e;
  Nested.Host := Nested.Host e;
  Nested.Kind := Nested.Kind e;
  Nested.Message := Nested.Message e;
  Nested.EventType := Nested.EventType e;
  Nested.TraceID := Nested.TraceID e;
  Nested.SpanID := Nested.SpanID e;
  Nested.ParentSpanID := Nested.ParentSpanID e;
  Nested.RequestID := Nested.RequestID e;
  Nested.UserID := Nested.UserID e;
  Nested.TenantID := Nested.TenantID e;
  Nested.SessionID := Nested.SessionID e;
  Nested.Method := Nested.Method e;
  Nested.Path := Nested.Path e;
  Nested.Route := Nested.Route e;
  Nested.Controller := Nested.Controller e;
  Nested.Status := Nested.Status e;
  Nested.DurationMs := Nested.DurationMs e;
  Nested.DbMs := Nested.DbMs e;
  Nested.DbCount := Nested.DbCount e;
  Nested.CacheMs := Nested.CacheMs e;
  Nested.CacheHits := Nested.CacheHits e;
  Nested.CacheMisses := Nested.CacheMisses e;
  Nested.ExtMs := Nested.ExtMs e;
  Nested.ExtCount := Nested.ExtCount e;
  Nested.RenderMs := Nested.RenderMs e;
  Nested.AllocCount := Nested.AllocCount e;
  Nested.MemDeltaMb := Nested.MemDeltaMb e;
  Nested.NPlusOne := Nested.NPlusOne e;
  Nested.SlowQueries := Nested.SlowQueries e;
  Nested.DupQueries := Nested.DupQueries e;
  Nested.ErrorClass := Nested.ErrorClass e;
  Nested.ErrorMessage := Nested.ErrorMessage e;
  Nested.SourceFile := Nested.SourceFile e;
  Nested.SourceLine := Nested.SourceLine e;
  Nested.JobClass := Nested.JobClass e;
  Nested.JobQueue := Nested.JobQueue e;
  Nested.JobID := Nested.JobID e;
  Nested.QueueMs := Nested.QueueMs e;
  Nested.Body := Nested.Body e
|}.

(** *** Decoding a body *)

Definition maxIngestBatchEntries : nat := Z.to_nat 5000.

(** [json.Decoder] over what is left of a reader: decoding into [T] and into [any], reading
    one delimiter, and whether the current array has another element.  [Sentinel "EOF"] is
    [io.EOF]. *)
Class JSONDecoder (T : Type) := {
  DState : Type;
  NewDecoder : reader -> DState;
  Decode : DState -> result (T * DState);
  DecodeAny : DState -> result DState;
  Token : DState -> result DState;
  More : DState -> bool
}.

Definition requireJSONEOF {T} `{JSONDecoder T} (dec : DState) : result unit :=
  match DecodeAny dec with
  | Ok _ => Err (Errorf "request body contains multiple JSON values")
  | Err e => if bool_decide (e = EOF) then Ok tt else Err e
  | Panic => Panic
  end.

(** [for dec.More()]; [room] more entries fit. *)
Fixpoint more_loop {T} `{JSONDecoder T} (room : nat) (dec : DState) (entries : list T) : result (list T * DState) :=
  if More dec then
    match room with
    | O => Err (Errorf "batch exceeds the maximum of %d entries")
    | S room =>
        '(entry, dec) ← wrap "entry %d" (Decode dec);
        more_loop room dec (entries ++ [entry])
    end
  else Ok (entries, dec).

(** [decodeJSONOneOrMany]: the bytes skipped are space, tab, return and newline. *)
Fixpoint decode_from {T} `{JSONDecoder T} (data : bytes) (err : gerror) : result (list T) :=
  match data with
  | [] => if bool_decide (err = EOF) then Err (Errorf "empty request body") else Err err
  | b :: rest =>
      if (b =? 32) || (b =? 9) || (b =? 13) || (b =? 10) then decode_from rest err
      else
        let dec := NewDecoder (mkReader data err) in
        if b =? 123 then
          '(one, dec) ← Decode dec;
          _ ← requireJSONEOF dec;
          Ok [one]
        else if b =? 91 then
          dec ← Token dec;
          '(entries, dec) ← more_loop maxIngestBatchEntries dec [];
          dec ← Token dec;
          _ ← requireJSONEOF dec;
          Ok entries
        else Err (Errorf "request body must be one object or an array")
  end.

Definition decodeJSONOneOrMany {T} `{JSONDecoder T} (r : reader) : result (list T) := decode_from (rd_data r) (rd_err r).

(** *** Sampling *)

Section Sampling.
Context {U : Unicode} {F : Type}.
Context (at_least_one : F -> bool) (draw : nat -> F -> bool).

Record compiledSamplingRules := mkCompiled {
  byService : gmap bytes (SamplingRule F);
  c_defaultRule : option (SamplingRule F)
}.

Definition compileSamplingRules (rules : list (SamplingRule F)) : compiledSamplingRules :=
  foldl (fun c r =>
    if bool_decide (rule_Service r = star) then mkCompiled (byService c) (Some r)
    else mkCompiled (<[rule_Service r := r]> (byService c)) (c_defaultRule c)) (mkCompiled ∅ None) rules.

Definition IsErrorLevel (level : bytes) : bool :=
  bool_decide (ToLower level ∈ (str <$> (["error"; "warn"; "warning"; "fatal"]%string))).

(** The loop of [apply], [n] draws taken so far. *)
Fixpoint apply_loop (r : compiledSamplingRules) (n : nat) (entries : list Log.LogEntry) : list Log.LogEntry :=
  match entries with
  | [] => []
  | e :: entries =>
      match (match byService r !! Log.Service e with Some rule => Some rule | None => c_defaultRule r end) with
      | None => e :: apply_loop r n entries
      | Some rule =>
          if KeepErrors rule && IsErrorLevel (Log.Level e) then e :: apply_loop r n entries
          else if at_least_one (Rate rule) then e :: apply_loop r n entries
          else if draw n (Rate rule) then e :: apply_loop r (S n) entries
          else apply_loop r (S n) entries
      end
  end.

Definition apply (r : compiledSamplingRules) (entries : list Log.LogEntry) : list Log.LogEntry :=
  if bool_decide (c_defaultRule r = None) && bool_decide (byService r = ∅) then entries
  else apply_loop r 0 entries.

(** [samplingCached] and [samplingExpires]. *)
Record SamplingCache := mkSamplingCache { samplingCached : option compiledSamplingRules; samplingExpires : Z }.

Definition samplingCacheTTL : Z := 5 * second.
Definition samplingErrorCacheTTL : Z := second.

Definition cachedSamplingRules (GetSamplingRules : result (list (SamplingRule F))) (now : Z) (c : SamplingCache)
  : SamplingCache * compiledSamplingRules :=
  match samplingCached c with
  | Some r => if now <? samplingExpires c then (c, r) else
      match GetSamplingRules with
      | Ok rules => let r := compileSamplingRules rules in (mkSamplingCache (Some r) (now + samplingCacheTTL), r)
      | _ => (mkSamplingCache (Some r) (now + samplingErrorCacheTTL), r)
      end
  | None =>
      match GetSamplingRules with
      | Ok rules => let r := compileSamplingRules rules in (mkSamplingCache (Some r) (now + samplingCacheTTL), r)
      | _ => let r := compileSamplingRules [] in (mkSamplingCache (Some r) (now + samplingErrorCacheTTL), r)
      end
  end.

End Sampling.

(** *** Handlers *)

(** Why a request is refused; an index is the entry's, as in the messages. *)
Inductive complaint :=
| BadApiVersion
| OldApiVersion (v : Z)
| BadBatchID
| BadBody (e : gerror)
| BadTs (i : Z)
| Missing (i : Z) (fields : list bytes)
| BadLevel (i : Z) (level : bytes)
| InsertFailed.

(** [WriteError], the two shapes of [WriteJSON], and a panic for the server's recovery. *)
Inductive response :=
| Refused (status : Z) (why : complaint)
| Deduplicated (count : Z)
| Accepted (status count : Z) (sampled : bool)
| Panicked.

Definition StatusOK : Z := 200.
Definition StatusCreated : Z := 201.
Definition StatusBadRequest : Z := 400.
Definition StatusInternalServerError : Z := 500.

Definition APIVersion : Z := 1.
Definition MinClientAPIVersion : Z := 1.

(** [batchIDPattern]: 8-4-4-4-12 hexadecimal digits. *)
Fixpoint hex_groups (groups : list nat) (s : bytes) : bool :=
  match groups with
  | [] => false
  | [n] => bool_decide (length s = n) && forallb isHex s
  | n :: groups =>
      bool_decide (length (take n s) = n) && forallb isHex (take n s) && starts [45] (drop n s) && hex_groups groups (drop (S n) s)
  end.

Definition IsValidBatchID (id : bytes) : bool := hex_groups [8; 4; 4; 4; 12]%nat id.

(** What the handlers call: the engine, the ingest queue when there is one, the sampling
    settings when there are, and the deployment environment; [rand] is the sampling draw. *)
Class Backend (St F : Type) := {
  engine_Ingest : St -> list Entry -> St * result (list Entry);
  queue_Enqueue : option (St -> list Log.LogEntry -> St * result Z);
  settings_GetSamplingRules : option (St -> result (list (SamplingRule F)));
  config_DefaultEnv : option bytes;
  rate_at_least_one : F -> bool;
  rand : nat -> F -> bool
}.

(** The stores behind the handler, the recent batches, the cached rules and the batches
    handed to the side effects, newest last. *)
Record World (St F : Type) := mkWorld {
  stores_of : St;
  batches_of : Batches;
  sampling_of : SamplingCache (F := F);
  posted : list (list Log.LogEntry)
}.
Arguments mkWorld {St F} _ _ _ _.
Arguments stores_of {St F} _.
Arguments batches_of {St F} _.
Arguments sampling_of {St F} _.
Arguments posted {St F} _.

Section Handlers.
Context {U : Unicode} {M : MD5} {D : MapDecoder} {J : BodyCodec} {K : Conversion} {St F : Type} {B : Backend St F}.

(** [checkBatchDup]: the batch id, or a response already written. *)
Definition checkBatchDup (w : World St F) (header : bytes) : bytes + response :=
  if bool_decide (header = []) then inl []
  else if negb (IsValidBatchID header) then inr (Refused StatusBadRequest BadBatchID)
  else match GetBatch (batches_of w) header with
  | Some existing => inr (Deduplicated (LogCount existing))
  | None => inl header
  end.

(** The rules applied to a batch. *)
Definition sample (w : World St F) (now : Z) (logEntries : list Log.LogEntry) : SamplingCache * list Log.LogEntry :=
  match settings_GetSamplingRules with
  | Some get =>
      let '(c, r) := cachedSamplingRules (get (stores_of w)) now (sampling_of w) in
      (c, apply rate_at_least_one rand r logEntries)
  | None => (sampling_of w, logEntries)
  end.

(** [storeAndRespond]; [now] is the clock of the call. *)
Definition storeAndRespond (w : World St F) (now : Z) (logEntries : list Log.LogEntry) (batchID : bytes) : World St F * response :=
  let originalCount := len logEntries in
  let '(cache, logEntries) := sample w now logEntries in
  let '(st, logEntries, r) :=
    match queue_Enqueue with
    | Some enqueue =>
        if bool_decide (batchID = []) then let '(st, r) := enqueue (stores_of w) logEntries in (st, logEntries, r)
        else BatchInsert engine_Ingest (stores_of w) logEntries
    | None => BatchInsert engine_Ingest (stores_of w) logEntries
    end in
  let failed := mkWorld st (batches_of w) cache (posted w) in
  match r with
  | Panic => (failed, Panicked)
  | Err _ => (failed, Refused StatusInternalServerError InsertFailed)
  | Ok count =>
      let batches := if negb (bool_decide (batchID = [])) then RecordBatch (batches_of w) batchID count now else batches_of w in
      let posted := if 0 <? count then posted w ++ [logEntries] else posted w in
      (mkWorld st batches cache posted,
       Accepted (if count =? 0 then StatusOK else StatusCreated) count (len logEntries <? originalCount))
  end.

(** The loop of [HandleFlatIngest]; [clock i] is [time.Now()] at entry [i]. *)
Fixpoint flat_loop (clock : Z -> Z) (i : Z) (entries : list Flat.flatEntry) : list Log.LogEntry + complaint :=
  match entries with
  | [] => inl []
  | fe :: entries =>
      if bool_decide (Flat.Level fe = []) || bool_decide (Flat.Message fe = []) then inr (Missing i [])
      else
        let fe := with_Level (ToLower (Flat.Level fe)) fe in
        if negb (isValidLevel (Flat.Level fe)) then inr (BadLevel i (Flat.Level fe))
        else
          match (if bool_decide (Flat.Ts fe = []) then Some (clock i) else parse_RFC3339 (Flat.Ts fe)) with
          | None => inr (BadTs i)
          | Some ts =>
              match flat_loop clock (i + 1) entries with
              | inl es => inl (flatToLogEntry config_DefaultEnv fe ts :: es)
              | inr c => inr c
              end
          end
  end.

(** [HandleFlatIngest] of a request that is not a dry run; validate mode answers before anything
    is stored (Validate.v has its reports). *)
Definition HandleFlatIngest `{JSONDecoder Flat.flatEntry} (w : World St F) (clock : Z -> Z) (now : Z) (header : bytes) (body : reader)
  : World St F * response :=
  match checkBatchDup w header with
  | inr r => (w, r)
  | inl batchID =>
      match decodeJSONOneOrMany body with
      | Err e => (w, Refused StatusBadRequest (BadBody e))
      | Panic => (w, Panicked)
      | Ok entries =>
          match flat_loop clock 0 entries with
          | inr c => (w, Refused StatusBadRequest c)
          | inl logEntries => storeAndRespond w now logEntries batchID
          end
      end
  end.

(** The validation loop of [HandleIngestLogs]: the entries with their levels normalized, and
    their timestamps. *)
Fixpoint nested_loop (clock : Z -> Z) (i : Z) (entries : list Nested.ingestLogEntry)
  : list (Nested.ingestLogEntry * Z) + complaint :=
  match entries with
  | [] => inl []
  | e :: entries =>
      match (if bool_decide (Nested.Ts e = []) then Some (clock i) else parse_RFC3339 (Nested.Ts e)) with
      | None => inr (BadTs i)
      | Some ts =>
          let missing := (if bool_decide (Nested.Level e = []) then [str "level"] else []) ++
                         (if bool_decide (Nested.Message e = []) then [str "message"] else []) in
          if negb (bool_decide (missing = [])) then inr (Missing i missing)
          else
            let level := ToLower (Nested.Level e) in
            if negb (isValidLevel level) then inr (BadLevel i level)
            else
              match nested_loop clock (i + 1) entries with
              | inl es => inl ((nested_with_Level (normalizeLevel level) e, ts) :: es)
              | inr c => inr c
              end
      end
  end.

(** The body of [POST /api/logs]: MessagePack, decoded as an array or else as one object, or JSON. *)
Inductive payload :=
| Msgpack (body : bytes + gerror)
| JSON (body : reader).

Class MsgpackDecoder (T : Type) := {
  Unmarshal_many : bytes -> option (list T);
  Unmarshal_one : bytes -> option T
}.

Definition decode_payload `{JSONDecoder Nested.ingestLogEntry, MsgpackDecoder Nested.ingestLogEntry} (p : payload)
  : result (list Nested.ingestLogEntry) :=
  match p with
  | Msgpack (inr _) => Err (Errorf "failed to read request body")
  | Msgpack (inl body) =>
      let decoded :=
        match Unmarshal_many body with
        | Some entries => Ok entries
        | None =>
            match Unmarshal_one body with
            | Some single => Ok [single]
            | None => Err (Errorf "invalid msgpack")
            end
        end in
      entries ← decoded;
      if bool_decide (maxIngestBatchEntries < length entries)%nat then Err (Errorf "batch exceeds the maximum of %d entries")
      else Ok entries
  | JSON body => decodeJSONOneOrMany body
  end.

(** The X-API-Version check of [HandleIngestLogs]. *)
Definition checkAPIVersion (clientVersion : bytes) : option complaint :=
  if bool_decide (clientVersion = []) then None
  else match Atoi clientVersion with
  | None => Some BadApiVersion
  | Some v => if v <? MinClientAPIVersion then Some (OldApiVersion v) else None
  end.

Definition HandleIngestLogs `{JSONDecoder Nested.ingestLogEntry, MsgpackDecoder Nested.ingestLogEntry} (w : World St F) (clock : Z -> Z) (now : Z)
    (clientVersion header : bytes) (body : payload) : World St F * response :=
  match checkAPIVersion clientVersion with
  | Some c => (w, Refused StatusBadRequest c)
  | None =>
      match checkBatchDup w header with
      | inr r => (w, r)
      | inl batchID =>
          match decode_payload body with
          | Err e => (w, Refused StatusBadRequest (BadBody e))
          | Panic => (w, Panicked)
          | Ok entries =>
              match nested_loop clock 0 entries with
              | inr c => (w, Refused StatusBadRequest c)
              | inl es =>
                  storeAndRespond w now ((fun '(e, ts) => flatToLogEntry config_DefaultEnv (toFlat e) ts) <$> es) batchID
              end
          end
      end
  end.

End Handlers.

(** ** Truncation *)

Lemma len_marker : len truncationMarker = 14.
Proof. done. Qed.

Lemma back_up_le s keep : (back_up s keep <= keep)%nat.
Proof. induction keep as [| n IH]; [done |]. cbn [back_up]. destruct (RuneStart _); lia. Qed.

Lemma back_up_start s keep : back_up s keep = O \/ RuneStart (default 0 (s !! back_up s keep)) = true.
Proof. induction keep as [| n IH]; [by left |]. cbn [back_up]. destruct (RuneStart (default 0 (s !! S n))) eqn:E; [by right | done]. Qed.

Lemma back_up_last s keep j : (back_up s keep < j <= keep)%nat -> RuneStart (default 0 (s !! j)) = false.
Proof.
  induction keep as [| n IH]; [lia |]. cbn [back_up]. destruct (RuneStart (default 0 (s !! S n))) eqn:E; [lia |].
  intros Hj. destruct (decide (j = S n)) as [-> | Hne]; [done |]. apply IH. lia.
Qed.

Lemma truncateField_short s max : len s <= max -> truncateField s max = s.
Proof. intros H. unfold truncateField. by replace (len s <=? max) with true by lia. Qed.

Lemma truncateField_long s max : max < len s -> 14 <= max ->
  truncateField s max = take (back_up s (Z.to_nat (max - 14))) s ++ truncationMarker.
Proof.
  intros Hs Hm. unfold truncateField. replace (len s <=? max) with false by lia. rewrite len_marker. cbv zeta.
  by replace (max - 14 <? 0) with false by lia.
Qed.

Lemma truncateField_len s max : 14 <= max -> len (truncateField s max) <= max.
Proof.
  intros Hm. destruct (decide (len s <= max)) as [H | H]; [by rewrite truncateField_short |].
  rewrite truncateField_long, len_app, len_marker by lia. unfold len. rewrite length_take.
  pose proof (back_up_le s (Z.to_nat (max - 14))). lia.
Qed.

Lemma continuation_byte b : cont 128 191 b = true -> RuneStart b = false.
Proof.
  intros Hb. unfold cont in Hb. assert (b ∈ seqZ 128 64) as Hin by (apply elem_of_seqZ; lia). clear Hb. revert b Hin.
  apply Forall_forall. apply (bool_decide_unpack _). vm_compute. exact I.
Qed.

Lemma cont_wider lo hi b : 128 <= lo -> hi <= 191 -> cont lo hi b = true -> cont 128 191 b = true.
Proof. unfold cont. lia. Qed.

(** The bytes of a rune after its first are continuation bytes. *)
Lemma rune_inside c k b : rune c -> c !! S k = Some b -> RuneStart b = false.
Proof.
  intros [b0 H0 | c' r Hl Hf Hd] Hk; [done |]. apply continuation_byte. specialize (Hd []). rewrite app_nil_r in Hd.
  destruct c' as [| b0 c']; [done |]. cbn [DecodeRune] in Hd. cbn [lookup list_lookup] in Hk.
  destruct (b0 <? 128); [injection Hd; intros; cbn in *; lia |].
  destruct ((b0 <? 194) || (244 <? b0)); [injection Hd; intros; cbn in *; lia |].
  destruct (b0 <? 224).
  { destruct c' as [| b1 c']; [done |]. destruct (cont 128 191 b1) eqn:C; [| injection Hd; intros; cbn in *; lia].
    injection Hd as _ Hlen. destruct c'; [| cbn in Hlen; lia]. destruct k; [by injection Hk as -> | done]. }
  destruct (b0 <? 240).
  { destruct c' as [| b1 [| b2 c']]; [done | injection Hd; intros; cbn in *; lia |].
    destruct (cont (if b0 =? 224 then 160 else 128) (if b0 =? 237 then 159 else 191) b1 && cont 128 191 b2) eqn:C;
      [| injection Hd; intros; cbn in *; lia].
    apply andb_true_iff in C as [C1 C2]. injection Hd as _ Hlen. destruct c'; [| cbn in Hlen; lia].
    destruct k as [| [| k]]; [injection Hk as -> | by injection Hk as -> | done].
    eapply cont_wider; [| | exact C1]; [destruct (b0 =? 224); lia | destruct (b0 =? 237); lia]. }
  destruct c' as [| b1 [| b2 [| b3 c']]]; [done | injection Hd; intros; cbn in *; lia | injection Hd; intros; cbn in *; lia |].
  destruct (cont (if b0 =? 240 then 144 else 128) (if b0 =? 244 then 143 else 191) b1 && cont 128 191 b2 && cont 128 191 b3) eqn:C;
    [| injection Hd; intros; cbn in *; lia].
  apply andb_true_iff in C as [[C1 C2]%andb_true_iff C3]. injection Hd as _ Hlen. destruct c'; [| cbn in Hlen; lia].
  destruct k as [| [| [| k]]]; [injection Hk as -> | by injection Hk as -> | by injection Hk as -> | done].
  eapply cont_wider; [| | exact C1]; [destruct (b0 =? 240); lia | destruct (b0 =? 244); lia].
Qed.

(** A text is cut between two runes wherever a rune starts. *)
Lemma utf8_cut s k b : utf8 s -> s !! k = Some b -> RuneStart b = true -> utf8 (take k s).
Proof.
  intros Hu. revert k. induction Hu as [| c s Hc Hu IH]; intros k Hk Hb; [done |].
  destruct (decide (length c <= k)%nat) as [Hl | Hl].
  - rewrite take_app_ge by done. constructor; [done |]. apply IH; [| done]. by rewrite lookup_app_r in Hk.
  - destruct k as [| k]; [by rewrite take_0 |]. rewrite lookup_app_l in Hk by lia.
    by rewrite (rune_inside c k b) in Hb.
Qed.

Lemma utf8_marker : utf8 truncationMarker.
Proof. by apply ValidString_utf8. Qed.

(** C25: A string at or under its cap is kept; a longer one is cut to at most the cap, with the
    marker at its end, before the last rune that leaves room for it, and a valid UTF-8 text
    stays one. *)
Theorem truncation_exact (s : bytes) (max : Z) : 14 <= max ->
  let t := truncateField s max in
  len t <= max /\ (utf8 s -> utf8 t) /\
  (len s <= max -> t = s) /\
  (max < len s -> exists k, t = take k s ++ truncationMarker /\ (k <= Z.to_nat (max - 14))%nat /\
    (k = O \/ RuneStart (default 0 (s !! k)) = true) /\
    (forall j, (k < j <= Z.to_nat (max - 14))%nat -> RuneStart (default 0 (s !! j)) = false)).
Proof.
  intros Hm t. split; [by apply truncateField_len | split; [| split; [by apply truncateField_short |]]].
  - intros Hu. unfold t. destruct (decide (len s <= max)) as [H | H]; [by rewrite truncateField_short |].
    rewrite truncateField_long by lia. apply utf8_app; [| apply utf8_marker].
    destruct (back_up_start s (Z.to_nat (max - 14))) as [-> | Hs]; [rewrite take_0; constructor |].
    destruct (s !! back_up s (Z.to_nat (max - 14))) as [b |] eqn:E; [by eapply utf8_cut |].
    apply lookup_ge_None in E. pose proof (back_up_le s (Z.to_nat (max - 14))). unfold len in H. lia.
  - intros Hs. exists (back_up s (Z.to_nat (max - 14))). split; [by apply truncateField_long |].
    split; [apply back_up_le | split; [apply back_up_start |]]. intros j. apply back_up_last.
Qed.

Lemma truncation_exact_witness :
  let s := str "0123" ++ [195; 169] ++ str "01234567890123" in
  truncateField s 17 = str "012" ++ truncationMarker /\ truncateField s 19 = str "0123" ++ truncationMarker /\
  len (truncateField s 17) <= 17.
Proof. split; [done | split; [done |]]. apply (truncation_exact (str "0123" ++ [195; 169] ++ str "01234567890123") 17). done. Defined.

(** ** The published contract (spec.go, validate.go) *)

Definition fieldCaps : list (string * Z) := [
  ("service", maxIdentFieldBytes);
  ("env", maxIdentFieldBytes);
  ("version", maxIdentFieldBytes);
  ("host", maxIdentFieldBytes);
  ("kind", maxIdentFieldBytes);
  ("event_type", maxIdentFieldBytes);
  ("trace_id", maxIdentFieldBytes);
  ("span_id", maxIdentFieldBytes);
  ("parent_span_id", maxIdentFieldBytes);
  ("request_id", maxIdentFieldBytes);
  ("user_id", maxIdentFieldBytes);
  ("tenant_id", maxIdentFieldBytes);
  ("session_id", maxIdentFieldBytes);
  ("method", maxIdentFieldBytes);
  ("error_class", maxIdentFieldBytes);
  ("job_class", maxIdentFieldBytes);
  ("job_queue", maxIdentFieldBytes);
  ("job_id", maxIdentFieldBytes);
  ("path", maxPathFieldBytes);
  ("route", maxPathFieldBytes);
  ("handler", maxPathFieldBytes);
  ("source_file", maxPathFieldBytes);
  ("message", maxMessageBytes);
  ("error_message", maxMessageBytes)
]%string.

Definition assoc {A} (name : string) (l : list (string * A)) : option A :=
  match list_find (fun p => p.1 = name) l with Some (_, (_, a)) => Some a | None => None end.

(** The wire name of each field of [flatEntry], as its tags give it. *)
Definition wire_strings : list (string * (Flat.flatEntry -> bytes)) := [
  ("service", Flat.Service);
  ("message", Flat.Message);
  ("env", Flat.Env);
  ("version", Flat.Version);
  ("host", Flat.Host);
  ("kind", Flat.Kind);
  ("event_type", Flat.EventType);
  ("trace_id", Flat.TraceID);
  ("span_id", Flat.SpanID);
  ("parent_span_id", Flat.ParentSpanID);
  ("request_id", Flat.RequestID);
  ("user_id", Flat.UserID);
  ("tenant_id", Flat.TenantID);
  ("session_id", Flat.SessionID);
  ("method", Flat.Method);
  ("path", Flat.Path);
  ("route", Flat.Route);
  ("handler", Flat.Handler);
  ("error_class", Flat.ErrorClass);
  ("error_message", Flat.ErrorMessage);
  ("source_file", Flat.SourceFile);
  ("job_class", Flat.JobClass);
  ("job_queue", Flat.JobQueue);
  ("job_id", Flat.JobID)
]%string.

Definition wire_ints : list (string * (Flat.flatEntry -> Z)) := [
  ("status", Flat.Status);
  ("duration_ms", Flat.DurationMs);
  ("db_ms", Flat.DbMs);
  ("db_count", Flat.DbCount);
  ("cache_ms", Flat.CacheMs);
  ("cache_hits", Flat.CacheHits);
  ("cache_misses", Flat.CacheMisses);
  ("ext_ms", Flat.ExtMs);
  ("ext_count", Flat.ExtCount);
  ("render_ms", Flat.RenderMs);
  ("alloc_count", Flat.AllocCount);
  ("slow_queries", Flat.SlowQueries);
  ("dup_queries", Flat.DupQueries);
  ("source_line", Flat.SourceLine);
  ("queue_ms", Flat.QueueMs)
]%string.

(** Fields that only reach storage on request rows. *)
Definition requestOnlyFields : list string := ["method"; "path"; "handler"; "n_plus_one"; "dup_queries"]%string.

Section Contract.
Context {U : Unicode} {M : MD5} {D : MapDecoder} {J : BodyCodec} {K : Conversion} (DefaultEnv : option bytes).

(** Whether [fe] is stored as a request. *)
Definition is_request (fe : Flat.flatEntry) : bool := bool_decide (ident (deriveKind fe) = kindRequest).

(** The row of an accepted entry as it is handed to the engine, whose pipeline scrubs its path,
    message and body before they are stored. *)
Definition handed_row (fe : Flat.flatEntry) (ts : Z) : Entry := oldToNew (flatToLogEntry DefaultEnv fe ts).

(** The columns the server fills in or derives: a missing environment is the default one, the
    kind is told from the fields, a request without event type is an http.request, and the
    fingerprint is the server's own. *)
Definition derived (fe : Flat.flatEntry) (ts : Z) : list (string * bytes) := [
  ("env", ident (if bool_decide (Flat.Env fe = []) then default [] DefaultEnv else Flat.Env fe));
  ("kind", ident (deriveKind fe));
  ("event_type", if is_request fe && bool_decide (ident (Flat.EventType fe) = []) then http_request else ident (Flat.EventType fe));
  ("error_fingerprint", GenerateErrorFingerprint (flat_log DefaultEnv fe ts))
]%string.

(** A column of the row holds its derived value or the wire field of its name: a string cut to
    its published cap, an integer as it is, and nothing where the field is dropped. *)
Definition lands (fe : Flat.flatEntry) (ts : Z) (row : Entry) (fd : field) : Prop :=
  match fd with
  | FStr _ proj name =>
      match assoc name (derived fe ts) with
      | Some v => proj row = v
      | None =>
          exists get cap, assoc name wire_strings = Some get /\ assoc name fieldCaps = Some cap /\
            proj row = if is_request fe || negb (bool_decide (name ∈ requestOnlyFields)) then truncateField (get fe) cap else []
      end
  | FInt _ proj name =>
      (name = "mem_delta_mb"%string /\ proj row = int_round (fmul (Flat.MemDeltaMb fe) (of_int 100))) \/
      (exists get, assoc name wire_ints = Some get /\
        proj row = if is_request fe || negb (bool_decide (name ∈ requestOnlyFields)) then get fe else 0)
  | FStatus _ proj => proj row = Flat.Status fe
  | FBool _ proj => proj row = if is_request fe then Some (default false (Flat.NPlusOne fe)) else None
  end.

Lemma same_fingerprint (row : Entry) fp : ErrorFingerprint row = fp -> set ErrorFingerprint fp row = row.
Proof. intros <-. by destruct row. Qed.

Lemma fingerprint_oldToNew e : ErrorFingerprint (oldToNew e) = Log.ErrorFingerprint e.
Proof. unfold oldToNew. destruct (Log.RequestSummary e); [| done]. unfold summary_fields. by destruct (bool_decide (EventType _ = [])). Qed.

Lemma with_fingerprint_oldToNew fp e : oldToNew (Log.with_fingerprint fp e) = set ErrorFingerprint fp (oldToNew e).
Proof.
  assert (flat_fields (Log.with_fingerprint fp e) = set ErrorFingerprint fp (flat_fields e)) as Hf by (by destruct e).
  assert (Log.RequestSummary (Log.with_fingerprint fp e) = Log.RequestSummary e) as Hr by (by destruct e).
  unfold oldToNew. rewrite Hf, Hr. destruct (Log.RequestSummary e) as [rs |]; [| done].
  unfold summary_fields. cbv zeta. change (EventType (set ErrorFingerprint fp (flat_fields e))) with (EventType (flat_fields e)).
  by destruct (bool_decide (EventType (flat_fields e) = [])).
Qed.

Lemma fingerprint_len e : len (GenerateErrorFingerprint e) <= 16 \/ GenerateErrorFingerprint e = [].
Proof.
  unfold GenerateErrorFingerprint. cbv zeta. destruct (_ && _); [by right |]. unfold Compute. destruct (_ && _); [by right | left].
  unfold len. rewrite length_take. lia.
Qed.

Lemma flat_columns fe ts :
  handed_row fe ts = set ErrorFingerprint (GenerateErrorFingerprint (flat_log DefaultEnv fe ts)) (oldToNew (flat_log DefaultEnv fe ts)).
Proof.
  unfold handed_row, flatToLogEntry. cbv zeta. case_bool_decide as E; cbn [negb]; rewrite ?E.
  - symmetry. by apply same_fingerprint, fingerprint_oldToNew.
  - apply with_fingerprint_oldToNew.
Qed.

Lemma setIfZero_0 n : setIfZero n 0 = n.
Proof. unfold setIfZero. by rewrite andb_false_r. Qed.

Lemma same_MemDeltaMb row : set MemDeltaMb (MemDeltaMb row) row = row.
Proof. by destruct row. Qed.
Lemma same_ExtCount row : set ExtCount (ExtCount row) row = row.
Proof. by destruct row. Qed.
Lemma same_ExtMs row : set ExtMs (ExtMs row) row = row.
Proof. by destruct row. Qed.
Lemma same_RenderMs row : set RenderMs (RenderMs row) row = row.
Proof. by destruct row. Qed.
Lemma same_CacheMisses row : set CacheMisses (CacheMisses row) row = row.
Proof. by destruct row. Qed.
Lemma same_CacheHits row : set CacheHits (CacheHits row) row = row.
Proof. by destruct row. Qed.

(** What a request summary made of a wire entry adds to the row. *)
Lemma summary_of_wire fe ne : Z.abs (Flat.DurationMs fe) < 2 ^ 53 -> Z.abs (Flat.DbMs fe) < 2 ^ 53 ->
  summary_fields (request_summary fe) ne =
    set DupQueries (Flat.DupQueries fe) (set NPlusOne (Some (default false (Flat.NPlusOne fe))) (set DbCount (Flat.DbCount fe)
      (set DbMs (Flat.DbMs fe) (set DurationMs (Flat.DurationMs fe) (set Status (Flat.Status fe) (set Path (path_like (Flat.Path fe))
        (set Method (ident (Flat.Method fe)) (set Handler (path_like (Flat.Handler fe))
          (if bool_decide (EventType ne = []) then set EventType http_request ne else ne))))))))).
Proof.
  intros Hd Hb. unfold summary_fields. cbv zeta. cbn [request_summary Req.Action Req.Controller Req.Method Req.Path Req.Status
    Req.DurationMs Req.DBTimeMs Req.SQLCount Req.NPlusOne Req.DuplicateQueries Req.CacheHits Req.CacheReads Req.ViewTimeMs
    Req.HTTPExternalTotalMs Req.HTTPExternalCount Req.MemoryDeltaMb].
  rewrite !int_of_int by done. change (int_of zero) with 0. change (int_of (fmul zero memDeltaScale)) with 0.
  change (int64 (0 - 0)) with 0. rewrite !setIfZero_0, same_MemDeltaMb, same_ExtCount, same_ExtMs, same_RenderMs, same_CacheMisses, same_CacheHits.
  reflexivity.
Qed.

Lemma derived_env fe : (match DefaultEnv with Some d => if bool_decide (Flat.Env fe = []) then d else Flat.Env fe | None => Flat.Env fe end) =
  (if bool_decide (Flat.Env fe = []) then default [] DefaultEnv else Flat.Env fe).
Proof. case_bool_decide as E; destruct DefaultEnv; by rewrite ?E. Qed.

Ltac column :=
  first [ left; split; [done | reflexivity]
        | eexists; eexists; split; [reflexivity | split; [reflexivity | reflexivity]]
        | right; eexists; split; [reflexivity | reflexivity]
        | reflexivity ].

(** A row that is no request carries its own timing. *)
Lemma plain_timing fe ts : is_request fe = false -> Z.abs (Flat.DurationMs fe) < 2 ^ 53 -> Z.abs (Flat.DbMs fe) < 2 ^ 53 ->
  let row := flat_fields (flat_log DefaultEnv fe ts) in
  (Status row, DurationMs row, DbMs row, DbCount row) = (Flat.Status fe, Flat.DurationMs fe, Flat.DbMs fe, Flat.DbCount fe).
Proof.
  intros Hr Hd Hb row. unfold row, flat_fields, flat_log. cbv zeta. cbn [Status DurationMs DbMs DbCount Log.Status Log.DurationMs Log.DbMs Log.DbCount].
  fold (is_request fe). by rewrite Hr, !int_of_int.
Qed.

(** The derived columns of the row. *)
Lemma derived_columns fe ts : let e := flat_fields (flat_log DefaultEnv fe ts) in
  Env e = ident (if bool_decide (Flat.Env fe = []) then default [] DefaultEnv else Flat.Env fe) /\
  EventType e = ident (Flat.EventType fe).
Proof.
  split; [| reflexivity]. unfold flat_fields, flat_log. cbv zeta. cbn [Env Log.Environment]. by rewrite derived_env.
Qed.

(** C21: Every column of the row that is handed to the engine's pipeline holds the field the client
    sent under that name: the strings cut to the cap the specification publishes, the integers
    unchanged, memory in hundredths of a megabyte, and the fields the validator reports as
    dropped empty exactly on the rows that are not requests.  The level is the sent one in its
    canonical spelling, and the columns the server derives have their derived values: the
    environment (the default one when none was sent), the kind, the event type (http.request
    when a request names none) and the fingerprint of an error. *)
Theorem wire_to_column (fe : Flat.flatEntry) (ts : Z) :
  Z.abs (Flat.DurationMs fe) < 2 ^ 53 -> Z.abs (Flat.DbMs fe) < 2 ^ 53 ->
  let row := handed_row fe ts in
  Forall (lands fe ts row) fields /\
  Ts row = UnixMilli ts /\
  Level row = normalizeLevel (ToLower (Flat.Level fe)) /\
  Message row = truncateField (Flat.Message fe) maxMessageBytes /\
  Service row = truncateField (Flat.Service fe) maxIdentFieldBytes /\
  Body row = Flat.Body fe.
Proof.
  intros Hd Hb row. unfold row. rewrite flat_columns. clear row.
  assert (body_of (flat_log DefaultEnv fe ts) = Flat.Body fe) as Hbody.
  { unfold body_of, flat_log. cbv zeta. cbn [Log.MetadataJSON Log.Metadata]. case_bool_decide as E; [| done]. cbn [negb].
    unfold body_metadata. by rewrite bool_decide_true. }
  destruct (derived_columns fe ts) as [Henv Hev]. cbv zeta in Henv, Hev.
  unfold oldToNew. destruct (Log.RequestSummary (flat_log DefaultEnv fe ts)) as [rs |] eqn:Hs.
  - assert (is_request fe = true /\ rs = request_summary fe) as [Hr ->].
    { unfold flat_log in Hs. cbv zeta in Hs. cbn [Log.RequestSummary] in Hs. fold (is_request fe) in Hs. destruct (is_request fe); [| done].
      by injection Hs as <-. }
    rewrite summary_of_wire by done. rewrite Hev. destruct (bool_decide (ident (Flat.EventType fe) = [])) eqn:He;
      (split; [| done]); repeat (apply Forall_cons; split); try apply Forall_nil_2; hnf; rewrite ?Hr, ?He; first [ column | exact Henv ].
  - assert (is_request fe = false) as Hr.
    { unfold flat_log in Hs. cbv zeta in Hs. cbn [Log.RequestSummary] in Hs. fold (is_request fe) in Hs. by destruct (is_request fe). }
    pose proof (plain_timing fe ts Hr Hd Hb) as Ht. injection Ht as Hst Hdu Hdb Hdc. set (row := flat_fields _) in *.
    split; [| done].
    repeat (apply Forall_cons; split); try apply Forall_nil_2; hnf; rewrite ?Hr;
      first [ column | exact Henv | exact Hst | right; eexists; split; [reflexivity | first [exact Hdu | exact Hdb | exact Hdc]] ].
Qed.

(** No column is longer than the specification says. *)
Definition capped (row : Entry) (fd : field) : Prop :=
  match fd with
  | FStr _ proj name => len (proj row) <= default 16 (assoc name fieldCaps)
  | _ => True
  end.

Lemma ident_cap s : len (ident s) <= 512.
Proof. by apply truncateField_len. Qed.
Lemma path_cap s : len (path_like s) <= 2048.
Proof. by apply truncateField_len. Qed.
Lemma text_cap s : len (text_like s) <= 16384.
Proof. by apply truncateField_len. Qed.

(** The row as a record of its fields. *)
Ltac row_fields :=
  cbv beta iota zeta delta [summary_fields flat_fields set set_EventType set_Handler set_Method set_Path set_Status set_DurationMs set_DbMs set_DbCount set_NPlusOne set_DupQueries set_CacheHits set_CacheMisses set_RenderMs set_ExtMs set_ExtCount set_MemDeltaMb set_ErrorFingerprint
    ID Ts ReceivedAt Level Service Message Env Version Host Kind EventType TraceID SpanID ParentSpanID RequestID UserID TenantID SessionID Method Path Route Handler Status DurationMs DbMs DbCount CacheMs CacheHits CacheMisses ExtMs ExtCount RenderMs AllocCount MemDeltaMb NPlusOne SlowQueries DupQueries ErrorClass ErrorMessage SourceFile SourceLine ErrorFingerprint JobClass JobQueue JobID QueueMs Body
    Log.ID Log.Timestamp Log.Level Log.Service Log.Environment Log.CommitHash Log.TraceID Log.SpanID Log.ParentSpanID Log.RequestID Log.UserID Log.Message Log.EventType Log.ExceptionClass Log.ErrorFingerprint Log.SourceFile Log.SourceLine Log.Host Log.Kind Log.TenantID Log.SessionID Log.Route Log.CacheMs Log.CacheHits Log.CacheMisses Log.ExtMs Log.ExtCount Log.RenderMs Log.AllocCount Log.MemDeltaMb Log.SlowQueries Log.ErrorMessage Log.JobClass Log.JobQueue Log.JobID Log.QueueMs Log.DurationMs Log.DbMs Log.DbCount Log.Status Log.Metadata Log.MetadataJSON Log.DeepCapture Log.RequestSummary Log.CreatedAt
    Req.ID Req.LogID Req.Controller Req.Action Req.Method Req.Path Req.Status Req.DurationMs Req.DBTimeMs Req.ViewTimeMs Req.SQLCount Req.SQLTotalMs Req.SQLSlowestMs Req.SQLSlowestName Req.NPlusOne Req.ViewCount Req.ViewTotalMs Req.ViewSlowestMs Req.ViewSlowestTemplate Req.CacheReads Req.CacheHits Req.CacheWrites Req.CacheHitRatio Req.HTTPExternalCount Req.HTTPExternalTotalMs Req.HTTPSlowestMs Req.HTTPSlowestHost Req.MemoryBeforeMb Req.MemoryAfterMb Req.MemoryDeltaMb Req.Timeline Req.TimeBreakdown Req.DuplicateQueries Req.WorstDuplicateCount Req.TopDuplicates request_summary].

Ltac cap_column :=
  lazymatch goal with
  | |- True => exact I
  | |- len (ident _) <= _ => eapply Z.le_trans; [apply ident_cap | by vm_compute]
  | |- len (path_like _) <= _ => eapply Z.le_trans; [apply path_cap | by vm_compute]
  | |- len (text_like _) <= _ => eapply Z.le_trans; [apply text_cap | by vm_compute]
  | |- len [] <= _ => by vm_compute
  | |- len http_request <= _ => by vm_compute
  | H : len ?fp <= 16 |- len ?fp <= _ => exact H
  end.

Lemma caps_in_log row : Forall (capped row) fields ->
  Forall (fun fd => match fd with FStr _ proj _ => Wal.truncateField (proj row) = Ok (proj row) | _ => True end) fields.
Proof.
  assert (Forall (fun fd => match fd with FStr _ _ name => default 16 (assoc name fieldCaps) <= MaxFieldBytes | _ => True end) fields) as Hm.
  { repeat (apply Forall_cons; split); try apply Forall_nil_2; first [exact I | vm_compute; congruence]. }
  intros Hc. apply Forall_forall. intros fd Hin. rewrite Forall_forall in Hm, Hc. specialize (Hm fd Hin). specialize (Hc fd Hin).
  destruct fd as [i proj S name | | |]; [| done | done | done]. cbn [capped] in Hc. unfold Wal.truncateField.
  by replace (len (proj row) <=? MaxFieldBytes) with true by lia.
Qed.

(** Whatever a client sends, every string column of the row it becomes is within the cap
    published for it, the fingerprint within 16 bytes, and the write-ahead log, which has a
    cap of its own, stores it whole. *)
Theorem columns_capped (fe : Flat.flatEntry) (ts : Z) :
  let row := handed_row fe ts in
  Forall (capped row) fields /\ len (Message row) <= maxMessageBytes /\ len (Service row) <= maxIdentFieldBytes /\
  Forall (fun fd => match fd with FStr _ proj _ => Wal.truncateField (proj row) = Ok (proj row) | _ => True end) fields.
Proof.
  intros row. assert (Forall (capped row) fields /\ len (Message row) <= maxMessageBytes /\ len (Service row) <= maxIdentFieldBytes)
    as (Hc & Hm & Hs); [| split; [done | split; [done | split; [done | by apply caps_in_log]]]].
  unfold row. rewrite flat_columns. clear row. set (fp := GenerateErrorFingerprint _).
  assert (len fp <= 16) as Hf by (destruct (fingerprint_len (flat_log DefaultEnv fe ts)) as [H | E]; [done | unfold fp; rewrite E, len_nil; lia]).
  clearbody fp.
  unfold oldToNew, flat_log. cbv zeta. cbn [Log.RequestSummary].
  destruct (bool_decide (ident (deriveKind fe) = kindRequest)).
  - unfold summary_fields. cbv zeta. cbn [request_summary Req.Action]. rewrite (bool_decide_true ([] = [])) by done. cbn [negb].
    destruct (bool_decide (EventType (flat_fields _) = [])); row_fields;
      (split; [| split; cap_column]); repeat (apply Forall_cons; split); try apply Forall_nil_2; cbn [capped]; row_fields; cap_column.
  - row_fields. (split; [| split; cap_column]); repeat (apply Forall_cons; split); try apply Forall_nil_2; cbn [capped]; row_fields; cap_column.
Qed.

End Contract.

(** ** One error, one fingerprint *)

Section Fingerprints.
Context {U : Unicode} {M : MD5} {D : MapDecoder} {J : BodyCodec} {K : Conversion}.

(** The class and the file the ingest handler reads for an entry. *)
Definition metadata_class (e : Log.LogEntry) : bytes :=
  match Log.Metadata e ≫= get_key (str "error_class") with Some (VString v) => v | _ => [] end.

Definition metadata_file (e : Log.LogEntry) : bytes := extractSourceFileFromBacktrace (Log.Metadata e).

Lemma error_fingerprint (e : Log.LogEntry) : isErrorLevel (Log.Level e) = true ->
  GenerateErrorFingerprint e =
    Compute (Log.Service e) (if bool_decide (Log.ExceptionClass e = []) then metadata_class e else Log.ExceptionClass e)
      (if bool_decide (Log.SourceFile e = []) then metadata_file e else Log.SourceFile e) (Log.Message e).
Proof.
  unfold isErrorLevel. intros Hl. unfold GenerateErrorFingerprint. cbv zeta. rewrite <- negb_orb, Hl. done.
Qed.

Lemma row_identity (e : Log.LogEntry) : let row := oldToNew e in
  (Service row, ErrorClass row, SourceFile row, Message row) = (Log.Service e, Log.ExceptionClass e, Log.SourceFile e, Log.Message e).
Proof. unfold oldToNew. destruct (Log.RequestSummary e); [| done]. unfold summary_fields. by destruct (bool_decide (EventType _ = [])). Qed.

Lemma stored_fingerprint (e : Log.LogEntry) :
  ErrorFingerprint (computeErrorFingerprint (oldToNew e)) =
    if bool_decide (Log.ExceptionClass e = []) && bool_decide (Log.SourceFile e = []) then Log.ErrorFingerprint e
    else Compute (Log.Service e) (Log.ExceptionClass e) (Log.SourceFile e) (Log.Message e).
Proof.
  unfold computeErrorFingerprint. pose proof (row_identity e) as Hi. injection Hi as Hs Hc Hf Hm. rewrite Hs, Hc, Hf, Hm.
  destruct (_ && _); [apply fingerprint_oldToNew | done].
Qed.

(** The fingerprint a stored error carries, which the engine computes again from its
    columns, is the one its error group is keyed by, provided the columns name the class and
    the file whenever the body does, or name neither. *)
Theorem fingerprints_agree (e : Log.LogEntry) :
  isErrorLevel (Log.Level e) = true -> Log.ErrorFingerprint e = GenerateErrorFingerprint e ->
  (Log.ExceptionClass e = [] /\ Log.SourceFile e = []) \/
  ((Log.ExceptionClass e <> [] \/ metadata_class e = []) /\ (Log.SourceFile e <> [] \/ metadata_file e = [])) ->
  ErrorFingerprint (computeErrorFingerprint (oldToNew e)) = Log.ErrorFingerprint e.
Proof.
  intros Hl Hfp Hcond. rewrite stored_fingerprint. destruct (bool_decide (Log.ExceptionClass e = []) && _) eqn:E; [done |].
  destruct Hcond as [[Hc Hs] | [Hc Hs]]; [by rewrite Hc, Hs in E |]. rewrite Hfp, error_fingerprint by done.
  f_equal.
  - destruct (bool_decide (Log.ExceptionClass e = [])) eqn:En; [| done]. apply bool_decide_eq_true in En. destruct Hc as [? | ->]; done.
  - destruct (bool_decide (Log.SourceFile e = [])) eqn:En; [| done]. apply bool_decide_eq_true in En. destruct Hs as [? | ->]; done.
Qed.

(** When only the body's backtrace names the file, they are digests of different texts: the
    group's of the file, the log's of the message. *)
Lemma backtrace_splits_error (e : Log.LogEntry) f :
  isErrorLevel (Log.Level e) = true -> Log.ExceptionClass e <> [] -> Log.SourceFile e = [] -> metadata_file e = f -> f <> [] ->
  GenerateErrorFingerprint e = Compute (Log.Service e) (Log.ExceptionClass e) f (Log.Message e) /\
  ErrorFingerprint (computeErrorFingerprint (oldToNew e)) = Compute (Log.Service e) (Log.ExceptionClass e) [] (Log.Message e).
Proof.
  intros Hl Hc Hs Hf Hne. rewrite error_fingerprint, stored_fingerprint by done.
  rewrite Hs, Hf, (bool_decide_false (Log.ExceptionClass e = [])), (bool_decide_true ([] = [])) by done. done.
Qed.

(** A backtrace sent as one string, the published form, names no file. *)
Lemma string_backtrace_ignored s m : get_key (str "stack_trace") m = None -> get_key (str "backtrace") m = Some (VString s) ->
  extractSourceFileFromBacktrace (Some m) = [].
Proof. intros Hs Hb. unfold extractSourceFileFromBacktrace. by rewrite Hb, Hs. Qed.

End Fingerprints.

Definition plain_decoder : MapDecoder := fun _ => None.

Definition error_log : Log.LogEntry :=
  let e := plain_log (str "shop") [] in
  let '(Log.mkLogEntry i ts _ s env c t sp ps r u m et _ fp _ sl h k te se ro cm ch cx em ec' rm ac md sq er jc jq ji qm d db dc st _ mj dp rs ca) := e in
  let e := Log.mkLogEntry i ts (str "error") s env c t sp ps r u m et (str "KeyError") fp [] sl h k te se ro cm ch cx em ec' rm ac md sq er jc jq ji qm d db dc st
    (Some [(str "backtrace", VArray [VString (str "app/pay.rb:87:in charge")])]) mj dp rs ca in
  e.

Definition grouped (e : Log.LogEntry) : Log.LogEntry :=
  Log.with_fingerprint (GenerateErrorFingerprint (U := ascii_unicode) (M := plain_md5) e) e.

Definition plain_error : Log.LogEntry :=
  let '(Log.mkLogEntry i ts l s env c t sp ps r u m et ec fp sf sl h k te se ro cm ch cx em ec' rm ac md sq er jc jq ji qm d db dc st _ mj dp rs ca) := error_log in
  Log.mkLogEntry i ts l s env c t sp ps r u m et ec fp (str "app/pay.rb") sl h k te se ro cm ch cx em ec' rm ac md sq er jc jq ji qm d db dc st None mj dp rs ca.

Lemma fingerprints_agree_witness :
  ErrorFingerprint (computeErrorFingerprint (H := plain_md5) (oldToNew (J := tree_codec) (K := no_conversion) (grouped plain_error))) =
    Log.ErrorFingerprint (grouped plain_error) /\
  Log.ErrorFingerprint (grouped plain_error) = str "shop" ++ [0] ++ str "KeyError" ++ [0] ++ str "ap".
Proof.
  split; [| by vm_compute].
  apply (fingerprints_agree (U := ascii_unicode) (M := plain_md5) (J := tree_codec) (K := no_conversion) (grouped plain_error)).
  - by vm_compute.
  - by vm_compute.
  - right. split; left; vm_compute; congruence.
Defined.

(** The same error with the file in its backtrace only. *)
Lemma split_error :
  metadata_file error_log = str "app/pay.rb" /\
  ErrorFingerprint (computeErrorFingerprint (H := plain_md5) (oldToNew (J := tree_codec) (K := no_conversion) (grouped error_log))) <>
    Log.ErrorFingerprint (grouped error_log).
Proof. split; [by vm_compute | vm_compute; congruence]. Qed.

(** A warning an ingest rule keeps with the errors is no error to the engine's own rules. *)
Lemma warnings_kept_by_ingest_only :
  IsErrorLevel (U := ascii_unicode) (str "warn") = true /\ isErrorLevel (U := ascii_unicode) (str "warn") = false.
Proof. split; by vm_compute. Qed.

(** ** The two endpoints *)

(** What is documented of [strings.ToLower]: lower-case ASCII is unchanged. *)
Class LevelCase (U : Unicode) : Prop := ToLower_level l : l ∈ validLevels -> ToLower l = l.

#[export] Instance ascii_levels : LevelCase ascii_unicode.
Proof.
  intros l Hl. apply (bool_decide_unpack (ToLower (Unicode := ascii_unicode) l = l)).
  revert l Hl. apply Forall_forall. repeat (apply Forall_cons; split); try apply Forall_nil_2; by vm_compute.
Qed.

(** The same fields as a client of the flat endpoint sends them: only the name of the
    controller differs. *)
Definition of_nested (e : Nested.ingestLogEntry) : Flat.flatEntry := {|
  Flat.Ts := Nested.Ts e;
  Flat.Level := Nested.Level e;
  Flat.Service := Nested.Service e;
  Flat.Message := Nested.Message e;
  Flat.Env := Nested.Env e;
  Flat.Version := Nested.Version e;
  Flat.Host := Nested.Host e;
  Flat.Kind := Nested.Kind e;
  Flat.EventType := Nested.EventType e;
  Flat.TraceID := Nested.TraceID e;
  Flat.SpanID := Nested.SpanID e;
  Flat.ParentSpanID := Nested.ParentSpanID e;
  Flat.RequestID := Nested.RequestID e;
  Flat.UserID := Nested.UserID e;
  Flat.TenantID := Nested.TenantID e;
  Flat.SessionID := Nested.SessionID e;
  Flat.Method := Nested.Method e;
  Flat.Path := Nested.Path e;
  Flat.Route := Nested.Route e;
  Flat.Handler := Nested.Controller e;
  Flat.Status := Nested.Status e;
  Flat.DurationMs := Nested.DurationMs e;
  Flat.DbMs := Nested.DbMs e;
  Flat.DbCount := Nested.DbCount e;
  Flat.CacheMs := Nested.CacheMs e;
  Flat.CacheHits := Nested.CacheHits e;
  Flat.CacheMisses := Nested.CacheMisses e;
  Flat.ExtMs := Nested.ExtMs e;
  Flat.ExtCount := Nested.ExtCount e;
  Flat.RenderMs := Nested.RenderMs e;
  Flat.AllocCount := Nested.AllocCount e;
  Flat.MemDeltaMb := Nested.MemDeltaMb e;
  Flat.NPlusOne := Nested.NPlusOne e;
  Flat.SlowQueries := Nested.SlowQueries e;
  Flat.DupQueries := Nested.DupQueries e;
  Flat.ErrorClass := Nested.ErrorClass e;
  Flat.ErrorMessage := Nested.ErrorMessage e;
  Flat.SourceFile := Nested.SourceFile e;
  Flat.SourceLine := Nested.SourceLine e;
  Flat.JobClass := Nested.JobClass e;
  Flat.JobQueue := Nested.JobQueue e;
  Flat.JobID := Nested.JobID e;
  Flat.QueueMs := Nested.QueueMs e;
  Flat.Body := Nested.Body e
|}.

Definition is_refused (r : response) : bool := match r with Refused 400 _ => true | _ => false end.

Section Endpoints.
Context {U : Unicode} {LC : LevelCase U} {M : MD5} {D : MapDecoder} {J : BodyCodec} {K : Conversion} {St F : Type} {B : Backend St F}.

Lemma ToLower_valid level : isValidLevel (ToLower level) = true -> ToLower (ToLower level) = ToLower level.
Proof. unfold isValidLevel. intros H. apply bool_decide_eq_true in H. by apply ToLower_level. Qed.

Lemma normalize_twice level : isValidLevel (ToLower level) = true ->
  normalizeLevel (ToLower (normalizeLevel (ToLower level))) = normalizeLevel (ToLower level).
Proof.
  intros H. unfold normalizeLevel at 2. case_bool_decide as E; [| by rewrite ToLower_valid].
  rewrite E, ToLower_level; [done |]. unfold validLevels. set_solver.
Qed.

(** The entry depends on the level only through its normal form, and not on the text of its time. *)
Lemma flatToLogEntry_level env level e ts : isValidLevel (ToLower level) = true ->
  flatToLogEntry env (toFlat (nested_with_Level (normalizeLevel (ToLower level)) e)) ts =
  flatToLogEntry env (with_Level (ToLower level) (of_nested e)) ts.
Proof.
  intros H. unfold flatToLogEntry. cbv zeta.
  assert (flat_log env (toFlat (nested_with_Level (normalizeLevel (ToLower level)) e)) ts =
          flat_log env (with_Level (ToLower level) (of_nested e)) ts) as ->; [| done].
  destruct e. unfold flat_log. cbv zeta. cbn [Flat.Level toFlat nested_with_Level with_Level of_nested Nested.Level].
  rewrite normalize_twice, ToLower_valid by done. reflexivity.
Qed.

Lemma loops_agree clock es i :
  match nested_loop clock i es, flat_loop (St := St) (F := F) clock i (of_nested <$> es) with
  | inl a, inl b => (fun '(e, ts) => flatToLogEntry config_DefaultEnv (toFlat e) ts) <$> a = b
  | inr _, inr _ => True
  | _, _ => False
  end.
Proof.
  revert i. induction es as [| e es IH]; intros i; [done |]. cbn [nested_loop flat_loop fmap list_fmap].
  specialize (IH (i + 1)). set (lvl := Nested.Level e).
  change (Flat.Level (of_nested e)) with lvl. change (Flat.Message (of_nested e)) with (Nested.Message e). cbv zeta.
  change (Flat.Ts (with_Level (ToLower lvl) (of_nested e))) with (Nested.Ts e).
  change (Flat.Level (with_Level (ToLower lvl) (of_nested e))) with (ToLower lvl).
  destruct (bool_decide (lvl = [])) eqn:El; cbn [orb app].
  { destruct (if bool_decide (Nested.Ts e = []) then _ else _); [| done]. by rewrite bool_decide_false by done. }
  destruct (bool_decide (Nested.Message e = [])) eqn:Em; cbn [app].
  { destruct (if bool_decide (Nested.Ts e = []) then _ else _); [| done]. by rewrite bool_decide_false by done. }
  destruct (isValidLevel (ToLower lvl)) eqn:Ev; cbn [negb].
  2: { destruct (if bool_decide (Nested.Ts e = []) then _ else _); [| done]. by rewrite bool_decide_true by done. }
  destruct (if bool_decide (Nested.Ts e = []) then Some (clock i) else parse_RFC3339 (Nested.Ts e)) as [ts |]; [| done].
  rewrite bool_decide_true by done. cbn [negb].
  destruct (nested_loop clock (i + 1) es) as [a | c], (flat_loop clock (i + 1) (of_nested <$> es)) as [b | c']; try done.
  cbn [fmap list_fmap]. f_equal; [by apply flatToLogEntry_level | done].
Qed.

(** C22: A batch sent to either endpoint, with the same fields, has the same effect and the
    same answer, unless it is refused, and then both refuse it and change nothing. *)
Theorem endpoints_agree `{JSONDecoder Flat.flatEntry, JSONDecoder Nested.ingestLogEntry, MsgpackDecoder Nested.ingestLogEntry}
    (w : World St F) (clock : Z -> Z) (now : Z) (version header : bytes) (flat_body : reader) (nested_body : payload)
    (es : list Nested.ingestLogEntry) :
  checkAPIVersion version = None ->
  decode_payload nested_body = Ok es -> decodeJSONOneOrMany flat_body = Ok (of_nested <$> es) ->
  let '(w1, r1) := HandleIngestLogs w clock now version header nested_body in
  let '(w2, r2) := HandleFlatIngest w clock now header flat_body in
  w1 = w2 /\ (r1 = r2 \/ (is_refused r1 = true /\ is_refused r2 = true /\ w1 = w)).
Proof.
  intros Hv Hn Hf. unfold HandleIngestLogs, HandleFlatIngest. rewrite Hv, Hn, Hf. clear Hv Hn Hf.
  destruct (checkBatchDup w header) as [batchID | r]; [| split; [done | by left]].
  pose proof (loops_agree clock es 0) as Hl. destruct (nested_loop clock 0 es) as [a | c], (flat_loop clock 0 (of_nested <$> es)) as [b | c']; try done.
  - rewrite Hl. destruct (storeAndRespond w now b batchID) as [w' r]. split; [done | by left].
  - split; [done | by right].
Qed.

End Endpoints.

(** ** A batch is stored once *)

(** A request to either endpoint. *)
Inductive request :=
| RFlat (header : bytes) (body : reader)
| RNested (version header : bytes) (body : payload).

Definition batch_header (q : request) : bytes := match q with RFlat h _ | RNested _ h _ => h end.

(** The request passes the version check, which the flat endpoint does not make. *)
Definition version_ok (q : request) : bool :=
  match q with RFlat _ _ => true | RNested v _ _ => bool_decide (checkAPIVersion v = None) end.

Section History.
Context {U : Unicode} {M : MD5} {D : MapDecoder} {J : BodyCodec} {K : Conversion} {St F : Type} {B : Backend St F}.
Context {JF : JSONDecoder Flat.flatEntry} {JN : JSONDecoder Nested.ingestLogEntry} {MN : MsgpackDecoder Nested.ingestLogEntry}.

(** [clock i] and [now] are the clock while the request is served. *)
Definition handle (w : World St F) (clock : Z -> Z) (now : Z) (q : request) : World St F * response :=
  match q with
  | RFlat header body => HandleFlatIngest w clock now header body
  | RNested version header body => HandleIngestLogs w clock now version header body
  end.

(** Requests one after the other, each with its clock, and their answers. *)
Fixpoint serve (w : World St F) (qs : list ((Z -> Z) * Z * request)) : World St F * list response :=
  match qs with
  | [] => (w, [])
  | (clock, now, q) :: qs =>
      let '(w, r) := handle w clock now q in
      let '(w, rs) := serve w qs in (w, r :: rs)
  end.

(** What a request does to the batch cache. *)
Definition batch_effect (now : Z) (q : request) (r : response) : list batch_call :=
  match r with
  | Accepted _ n _ => if bool_decide (batch_header q = []) then [] else [CRecord (batch_header q) n now]
  | _ => []
  end.

Lemma store_effect w now es id w' r : storeAndRespond w now es id = (w', r) ->
  batches_of w' = match r with
                  | Accepted _ n _ => if bool_decide (id = []) then batches_of w else RecordBatch (batches_of w) id n now
                  | _ => batches_of w
                  end.
Proof.
  unfold storeAndRespond. cbv zeta. destruct (sample w now es) as [cache les].
  destruct (match queue_Enqueue with Some _ => _ | None => _ end) as [[st les'] [n | err |]]; intros [= <- <-]; [| done | done].
  cbn [batches_of]. by destruct (bool_decide (id = [])).
Qed.

(** Either handler: the check of the batch id, and then either a refusal or the shared tail. *)
Lemma handle_shape w clock now q w' r : version_ok q = true -> handle w clock now q = (w', r) ->
  match checkBatchDup w (batch_header q) with
  | inr dup => w' = w /\ r = dup
  | inl id => (w' = w /\ (is_refused r = true \/ r = Panicked)) \/ exists es, storeAndRespond w now es id = (w', r)
  end.
Proof.
  intros Hv. destruct q as [header body | version header body]; cbn [handle batch_header].
  - unfold HandleFlatIngest. destruct (checkBatchDup w header) as [id | dup]; [| by intros [= <- <-]].
    destruct (decodeJSONOneOrMany body) as [fes | e |]; [| intros [= <- <-]; left; auto | intros [= <- <-]; left; auto].
    destruct (flat_loop clock 0 fes) as [les | c]; [intros H; right; by exists les | intros [= <- <-]; left; auto].
  - cbn [version_ok] in Hv. apply bool_decide_eq_true in Hv. unfold HandleIngestLogs. rewrite Hv.
    destruct (checkBatchDup w header) as [id | dup]; [| by intros [= <- <-]].
    destruct (decode_payload body) as [fes | e |]; [| intros [= <- <-]; left; auto | intros [= <- <-]; left; auto].
    destruct (nested_loop clock 0 fes) as [les | c]; [intros H; right; eauto | intros [= <- <-]; left; auto].
Qed.

Lemma handle_old_version w clock now q : version_ok q = false -> exists c, handle w clock now q = (w, Refused StatusBadRequest c).
Proof.
  destruct q as [header body | version header body]; [done |]. cbn [version_ok handle]. intros Hv. apply bool_decide_eq_false in Hv.
  unfold HandleIngestLogs. destruct (checkAPIVersion version) as [c |]; [by exists c | done].
Qed.

Lemma check_inl (w : World St F) header id : checkBatchDup w header = inl id ->
  id = header /\ (header <> [] -> IsValidBatchID header = true /\ GetBatch (batches_of w) header = None).
Proof.
  unfold checkBatchDup. case_bool_decide as E; [intros [= <-]; by subst |].
  destruct (IsValidBatchID header) eqn:Ev; [| done]. cbn [negb]. destruct (GetBatch _ header) eqn:Eg; [done | by intros [= <-]].
Qed.

Lemma handle_effect w clock now q w' r : handle w clock now q = (w', r) ->
  batches_of w' = (answers batch_step (batches_of w) (batch_effect now q r)).1.
Proof.
  intros H. destruct (version_ok q) eqn:Hv.
  2: { destruct (handle_old_version w clock now q Hv) as [c Hc]. rewrite Hc in H. by injection H as <- <-. }
  pose proof (handle_shape _ _ _ _ _ _ Hv H) as Hs. destruct (checkBatchDup w (batch_header q)) as [id | dup] eqn:Hc.
  - destruct (check_inl _ _ _ Hc) as [-> _]. destruct Hs as [[-> [Hr | ->]] | [es Hs]]; [by destruct r | done |].
    rewrite (store_effect _ _ _ _ _ _ Hs). unfold batch_effect. destruct r as [| | s n b |]; try done. by case_bool_decide.
  - destruct Hs as [-> ->]. unfold checkBatchDup in Hc. case_bool_decide; [done |]. destruct (IsValidBatchID _); [| by injection Hc as <-].
    cbn [negb] in Hc. destruct (GetBatch _ _); [by injection Hc as <- | done].
Qed.

(** The calls a history makes on the cache. *)
Fixpoint batch_calls (qs : list ((Z -> Z) * Z * request)) (rs : list response) : list batch_call :=
  match qs, rs with
  | (_, now, q) :: qs, r :: rs => batch_effect now q r ++ batch_calls qs rs
  | _, _ => []
  end.

Lemma answers_app a cs cs' : (answers batch_step a (cs ++ cs')).1 = (answers batch_step (answers batch_step a cs).1 cs').1.
Proof.
  revert a. induction cs as [| c cs IH]; intros a; [done |]. cbn [app answers]. destruct (batch_step a c) as [a' x].
  specialize (IH a'). destruct (answers batch_step a' (cs ++ cs')), (answers batch_step a' cs). done.
Qed.

Lemma serve_effect w qs : batches_of (serve w qs).1 = (answers batch_step (batches_of w) (batch_calls qs (serve w qs).2)).1.
Proof.
  revert w. induction qs as [| [[clock now] q] qs IH]; intros w; [done |]. cbn [serve].
  destruct (handle w clock now q) as [w' r] eqn:Hh. specialize (IH w'). destruct (serve w' qs) as [w'' rs]. cbn [fst snd batch_calls] in *.
  by rewrite IH, answers_app, (handle_effect _ _ _ _ _ _ Hh).
Qed.

Lemma batch_calls_records qs rs : (records (batch_calls qs rs) <= length qs)%nat /\ forallb (fun c => negb (is_prune c)) (batch_calls qs rs) = true.
Proof.
  revert rs. induction qs as [| [[clock now] q] qs IH]; intros [| r rs]; try (split; [cbn; lia | done]).
  destruct (IH rs) as [Hr Hp]. cbn [batch_calls length].
  assert (batch_effect now q r = [] \/ exists id n, batch_effect now q r = [CRecord id n now]) as [-> | (id & n & ->)].
  { unfold batch_effect. destruct r; auto. destruct (bool_decide (batch_header q = [])); eauto. }
  - cbn [app]. split; [lia | done].
  - cbn [app]. rewrite records_cons. cbn [is_record forallb is_prune negb]. split; [lia | done].
Qed.

(** C16: In any history of requests from an empty cache, shorter than the cache is long, once
    a batch with an id is accepted every later request with that id, to either endpoint and
    whatever it carries, is answered with the count of the first and stores nothing. *)
Theorem batch_stored_once (w : World St F) (before between : list ((Z -> Z) * Z * request))
    (clock clock' : Z -> Z) (now now' : Z) (q q' : request) (status n : Z) (sampled : bool) :
  batches_of w = no_batches -> (length between < maxTrackedBatches)%nat ->
  batch_header q <> [] -> batch_header q' = batch_header q -> version_ok q' = true ->
  let w1 := (serve w before).1 in
  let w2 := (handle w1 clock now q).1 in
  let w3 := (serve w2 between).1 in
  (handle w1 clock now q).2 = Accepted status n sampled ->
  handle w3 clock' now' q' = (w3, Deduplicated n).
Proof.
  intros Hw Hl Hne Hh Hv w1 w2 w3 Hr. unfold w3. clear w3. set (w3 := (serve w2 between).1).
  destruct (handle w1 clock now q) as [w2' r] eqn:Hq. cbn [fst snd] in *. subst r. unfold w2 in *. clear w2.
  assert (version_ok q = true) as Hvq.
  { destruct (version_ok q) eqn:E; [done |]. destruct (handle_old_version w1 clock now q E) as [c Hc]. congruence. }
  pose proof (handle_shape _ _ _ _ _ _ Hvq Hq) as Hs. destruct (checkBatchDup w1 (batch_header q)) as [id | dup] eqn:Hc.
  2: { destruct Hs as [_ <-]. unfold checkBatchDup in Hc. rewrite bool_decide_false in Hc by done. destruct (IsValidBatchID _); [| done].
       cbn [negb] in Hc. by destruct (GetBatch _ _). }
  destruct (check_inl _ _ _ Hc) as [-> Hid]. destruct (Hid Hne) as [Hvalid Hget].
  assert (GetBatch (batches_of w3) (batch_header q) = Some (mkBatchRecord (batch_header q) n now)) as Hfound.
  { unfold w3. rewrite serve_effect, (handle_effect _ _ _ _ _ _ Hq). cbn [batch_effect]. rewrite bool_decide_false by done.
    destruct (batch_calls_records between (serve w2' between).2) as [Hrec Hpr].
    pose proof (serve_effect w before) as Hb. fold w1 in Hb. rewrite Hw in Hb. rewrite Hb in Hget |- *.
    cbn [answers batch_step fst]. apply recognised_later; [done | done | done | lia]. }
  destruct (handle w3 clock' now' q') as [w4 r'] eqn:Hq'. pose proof (handle_shape _ _ _ _ _ _ Hv Hq') as Hs'. rewrite Hh in Hs'.
  unfold checkBatchDup in Hs'. rewrite bool_decide_false, Hvalid, Hfound in Hs' by done. cbn [negb LogCount] in Hs'. by destruct Hs' as [-> ->].
Qed.

End History.

Lemma evict_lookup order seen k r : batchSeen (evict order seen) !! k = Some r -> seen !! k = Some r.
Proof.
  revert seen. induction order as [| o order IH]; intros seen; [done |]. cbn [evict]. case_bool_decide; [| done].
  intros H'. apply IH in H'. by apply lookup_delete_Some in H' as [_ H'].
Qed.

Lemma RecordBatch_new a id id' n now r : GetBatch a id' = None -> GetBatch (RecordBatch a id n now) id' = Some r ->
  id' = id /\ r = mkBatchRecord id n now.
Proof.
  unfold GetBatch. destruct (bool_decide (id' = [])); [done |]. intros Hn. unfold RecordBatch.
  destruct (bool_decide (id = [])); [congruence |]. destruct (bool_decide (is_Some _)); [congruence |].
  intros H. apply evict_lookup in H. apply lookup_insert_Some in H as [[<- <-] | [_ H]]; [done | congruence].
Qed.

Section Durable.
Context {U : Unicode} {M : MD5} {D : MapDecoder} {J : BodyCodec} {K : Conversion} {St F : Type} {B : Backend St F}.
Context {JF : JSONDecoder Flat.flatEntry} {JN : JSONDecoder Nested.ingestLogEntry} {MN : MsgpackDecoder Nested.ingestLogEntry}.

(** C17: A batch id becomes known only through a request that carries it and whose entries
    the engine has stored, bypassing the queue, and with the count the client was told: a
    batch that was refused or failed can be sent again. *)
Theorem recorded_when_stored (w w' : World St F) (clock : Z -> Z) (now : Z) (q : request) (r : response) (id : bytes) (rec : BatchRecord) :
  handle w clock now q = (w', r) ->
  GetBatch (batches_of w) id = None -> GetBatch (batches_of w') id = Some rec ->
  batch_header q = id /\ BatchID rec = id /\
  exists entries entries' status sampled,
    BatchInsert engine_Ingest (stores_of w) entries = (stores_of w', entries', Ok (LogCount rec)) /\
    r = Accepted status (LogCount rec) sampled.
Proof.
  intros Hh Hn Hs. destruct (version_ok q) eqn:Hv.
  2: { destruct (handle_old_version w clock now q Hv) as [c Hc]. rewrite Hc in Hh. injection Hh as <- <-. congruence. }
  pose proof (handle_shape _ _ _ _ _ _ Hv Hh) as Hsh. destruct (checkBatchDup w (batch_header q)) as [bid | dup] eqn:Hc;
    [| destruct Hsh as [-> _]; congruence].
  destruct (check_inl _ _ _ Hc) as [-> _]. destruct Hsh as [[-> _] | [es Hst]]; [congruence |].
  unfold storeAndRespond in Hst. cbv zeta in Hst. destruct (sample w now es) as [cache les].
  destruct (bool_decide (batch_header q = [])) eqn:Eh.
  - destruct (match queue_Enqueue with Some _ => _ | None => _ end) as [[st les'] [n | err |]]; injection Hst as <- <-;
      cbn [batches_of negb] in Hs; congruence.
  - assert (match queue_Enqueue with
            | Some _ => BatchInsert engine_Ingest (stores_of w) les
            | None => BatchInsert engine_Ingest (stores_of w) les
            end = BatchInsert engine_Ingest (stores_of w) les) as Hq by (by destruct queue_Enqueue).
    rewrite Hq in Hst. destruct (BatchInsert engine_Ingest (stores_of w) les) as [[st les'] [n | err |]] eqn:Hb; injection Hst as <- <-;
      cbn [batches_of negb] in Hs; [| congruence | congruence].
    destruct (RecordBatch_new _ _ _ _ _ _ Hn Hs) as [-> ->]. split; [done | split; [done |]]. cbn [LogCount stores_of]. eauto 10.
Qed.

End Durable.

(** ** A concrete server *)

(** One request row, as every decoder below reads it. *)
Definition sample_nested : Nested.ingestLogEntry := {|
  Nested.Ts := str "2026-04-04T10:15:30.5Z"; Nested.Level := str "warning"; Nested.Service := str "shop"; Nested.Env := [];
  Nested.Version := str "a1b2"; Nested.Host := []; Nested.Kind := []; Nested.Message := str "GET /cart"; Nested.EventType := [];
  Nested.TraceID := []; Nested.SpanID := []; Nested.ParentSpanID := []; Nested.RequestID := []; Nested.UserID := str "u1";
  Nested.TenantID := []; Nested.SessionID := []; Nested.Method := str "GET"; Nested.Path := str "/cart"; Nested.Route := [];
  Nested.Controller := str "cart"; Nested.Status := 200; Nested.DurationMs := 12; Nested.DbMs := 3; Nested.DbCount := 2;
  Nested.CacheMs := 0; Nested.CacheHits := 1; Nested.CacheMisses := 2; Nested.ExtMs := 0; Nested.ExtCount := 0;
  Nested.RenderMs := 0; Nested.AllocCount := 0; Nested.MemDeltaMb := literal 17 10; Nested.NPlusOne := Some true;
  Nested.SlowQueries := 0; Nested.DupQueries := 4; Nested.ErrorClass := []; Nested.ErrorMessage := []; Nested.SourceFile := [];
  Nested.SourceLine := 0; Nested.JobClass := []; Nested.JobQueue := []; Nested.JobID := []; Nested.QueueMs := 0; Nested.Body := []
|}.

(** A decoder that reads every object as [v] and finds nothing after it. *)
Definition object_decoder {T} (v : T) : JSONDecoder T := {|
  DState := bytes;
  NewDecoder := rd_data;
  Decode := fun d => Ok (v, []);
  DecodeAny := fun _ => Err EOF;
  Token := fun d => Ok d;
  More := fun _ => false
|}.

Definition flat_decoder : JSONDecoder Flat.flatEntry := object_decoder (of_nested sample_nested).
Definition nested_decoder : JSONDecoder Nested.ingestLogEntry := object_decoder sample_nested.
Definition msgpack_decoder : MsgpackDecoder Nested.ingestLogEntry :=
  {| Unmarshal_many := fun _ => None; Unmarshal_one := fun _ => Some sample_nested |}.

(** No queue, no sampling settings; the state counts the batches stored. *)
Definition small_backend : Backend Z bool := {|
  engine_Ingest := first_store [];
  queue_Enqueue := None;
  settings_GetSamplingRules := None;
  config_DefaultEnv := Some (str "production");
  rate_at_least_one := id;
  rand := fun _ r => r
|}.

Definition start : World Z bool := mkWorld 0 no_batches (mkSamplingCache None 0) [].

Definition sample_id : bytes := str "01234567-89ab-cdef-0123-456789abcdef".
Definition object_body : reader := mkReader (str "  {}") EOF.

#[local] Existing Instances ascii_unicode plain_md5 plain_decoder tree_codec no_conversion small_backend
  flat_decoder nested_decoder msgpack_decoder.

Lemma wire_to_column_witness :
  let fe := of_nested sample_nested in
  Forall (lands (Some (str "production")) fe 5000000 (handed_row (Some (str "production")) fe 5000000)) fields /\
  (let row := handed_row (Some (str "production")) fe 5000000 in
   (Ts row, Kind row, EventType row, Env row, MemDeltaMb row, DupQueries row) = (5, str "request", http_request, str "production", 170, 4)).
Proof.
  split; [| by vm_compute]. apply (wire_to_column (Some (str "production")) (of_nested sample_nested) 5000000); by vm_compute.
Defined.

Lemma endpoints_agree_witness :
  let '(w1, r1) := HandleIngestLogs start (fun _ => 9) 9 (str "1") sample_id (Msgpack (inl [])) in
  let '(w2, r2) := HandleFlatIngest start (fun _ => 9) 9 sample_id object_body in
  w1 = w2 /\ (r1 = r2 \/ (is_refused r1 = true /\ is_refused r2 = true /\ w1 = start)).
Proof.
  apply (endpoints_agree (U := ascii_unicode) (LC := ascii_levels) start (fun _ => 9) 9 (str "1") sample_id object_body (Msgpack (inl [])) [sample_nested]);
    by vm_compute.
Defined.

Lemma batch_stored_once_witness :
  let w2 := (handle start (fun _ => 9) 9 (RFlat sample_id object_body)).1 in
  (handle start (fun _ => 9) 9 (RFlat sample_id object_body)).2 = Accepted StatusCreated 1 false /\
  handle w2 (fun _ => 9) 9 (RNested [] sample_id (Msgpack (inl []))) = (w2, Deduplicated 1).
Proof.
  split; [by vm_compute |].
  apply (batch_stored_once start [] [] (fun _ => 9) (fun _ => 9) 9 9 (RFlat sample_id object_body) (RNested [] sample_id (Msgpack (inl [])))
    StatusCreated 1 false); try (by vm_compute). apply Nat.ltb_lt. by vm_compute.
Defined.

Lemma recorded_when_stored_witness :
  let q := RFlat sample_id object_body in
  let w' := (handle start (fun _ => 9) 9 q).1 in
  batch_header q = sample_id /\ BatchID (mkBatchRecord sample_id 1 9) = sample_id /\
  exists entries entries' status sampled,
    BatchInsert engine_Ingest (stores_of start) entries = (stores_of w', entries', Ok (LogCount (mkBatchRecord sample_id 1 9))) /\
    (handle start (fun _ => 9) 9 q).2 = Accepted status (LogCount (mkBatchRecord sample_id 1 9)) sampled.
Proof.
  apply (recorded_when_stored start _ (fun _ => 9) 9 (RFlat sample_id object_body) _ sample_id (mkBatchRecord sample_id 1 9));
    [by destruct (handle _ _ _ _) | by vm_compute | by vm_compute].
Defined.

(** Requests are served concurrently, and the check of the batch id and its record are not
    one step: a retry that arrives while the first attempt is being stored passes the check
    too, and the batch is stored twice. *)
Lemma concurrent_retry_stored_twice :
  let es := [plain_log (str "shop") []] in
  checkBatchDup start sample_id = inl sample_id /\
  let '(w1, r1) := storeAndRespond start 9 es sample_id in
  let '(w2, r2) := storeAndRespond w1 9 es sample_id in
  r1 = Accepted StatusCreated 1 false /\ r2 = Accepted StatusCreated 1 false /\ stores_of w2 = 2.
Proof. by vm_compute. Qed.
