(* ===== verification/Validate.v ===== *)
(** * Validate mode (internal/ingest/validate.go, spec.go)

    The dry run of the ingest endpoint tells a client which fields it misspelt and which
    values have the wrong type.
    Main results: the two-row table of [editDistance] computes the least number of edits;
    a suggestion is an accepted name at the least distance, and there is none only when every
    name is three edits or more away; when two names are equally near, which one is
    suggested depends on the order a map is ranged over. *)

From stdpp Require Import base list gmap strings numbers sorting.
From Stdlib Require Import ZArith Lia SpecFloat.
From S2P Require Import Prelude Schema Index Guard Utf8 Pipeline Floats Adapter IngestHttp.

(** ** Field names *)

(** [SpecFields]: the name and the wire type of each field of [flatEntry]. *)
Definition SpecFields : list (string * string) := [
  ("ts", "string");
  ("level", "string");
  ("service", "string");
  ("message", "string");
  ("env", "string");
  ("version", "string");
  ("host", "string");
  ("kind", "string");
  ("event_type", "string");
  ("trace_id", "string");
  ("span_id", "string");
  ("parent_span_id", "string");
  ("request_id", "string");
  ("user_id", "string");
  ("tenant_id", "string");
  ("session_id", "string");
  ("method", "string");
  ("path", "string");
  ("route", "string");
  ("handler", "string");
  ("status", "integer");
  ("duration_ms", "integer");
  ("db_ms", "integer");
  ("db_count", "integer");
  ("cache_ms", "integer");
  ("cache_hits", "integer");
  ("cache_misses", "integer");
  ("ext_ms", "integer");
  ("ext_count", "integer");
  ("render_ms", "integer");
  ("alloc_count", "integer");
  ("mem_delta_mb", "number");
  ("n_plus_one", "boolean");
  ("slow_queries", "integer");
  ("dup_queries", "integer");
  ("error_class", "string");
  ("error_message", "string");
  ("source_file", "string");
  ("source_line", "integer");
  ("job_class", "string");
  ("job_queue", "string");
  ("job_id", "string");
  ("queue_ms", "integer");
  ("body", "object")
]%string.

Definition fieldNames : list bytes := (fun f => str f.1) <$> SpecFields.

Definition fieldAliases : list (string * string) := [
  ("timestamp", "ts");
  ("time", "ts");
  ("@timestamp", "ts");
  ("datetime", "ts");
  ("date", "ts");
  ("when", "ts");
  ("severity", "level");
  ("levelname", "level");
  ("log_level", "level");
  ("loglevel", "level");
  ("priority", "level");
  ("msg", "message");
  ("text", "message");
  ("content", "message");
  ("summary", "message");
  ("logger", "service");
  ("app", "service");
  ("application", "service");
  ("service_name", "service");
  ("component", "service");
  ("environment", "env");
  ("stage", "env");
  ("deployment", "env");
  ("release", "version");
  ("commit", "version");
  ("sha", "version");
  ("revision", "version");
  ("build", "version");
  ("hostname", "host");
  ("server", "host");
  ("pod", "host");
  ("container", "host");
  ("instance", "host");
  ("duration", "duration_ms");
  ("elapsed", "duration_ms");
  ("latency", "duration_ms");
  ("took", "duration_ms");
  ("response_time", "duration_ms");
  ("runtime", "duration_ms");
  ("status_code", "status");
  ("http_status", "status");
  ("response_status", "status");
  ("url", "path");
  ("uri", "path");
  ("request_path", "path");
  ("endpoint", "route");
  ("pattern", "route");
  ("verb", "method");
  ("http_method", "method");
  ("request_method", "method");
  ("controller", "handler");
  ("action", "handler");
  ("function", "handler");
  ("operation", "handler");
  ("user", "user_id");
  ("uid", "user_id");
  ("actor", "user_id");
  ("current_user", "user_id");
  ("account_id", "tenant_id");
  ("org_id", "tenant_id");
  ("organization_id", "tenant_id");
  ("workspace_id", "tenant_id");
  ("trace", "trace_id");
  ("traceid", "trace_id");
  ("correlation_id", "request_id");
  ("req_id", "request_id");
  ("span", "span_id");
  ("spanid", "span_id");
  ("parent_id", "parent_span_id");
  ("exception", "error_class");
  ("error_type", "error_class");
  ("exception_class", "error_class");
  ("class", "error_class");
  ("error", "error_message");
  ("err", "error_message");
  ("exception_message", "error_message");
  ("reason", "error_message");
  ("file", "source_file");
  ("filename", "source_file");
  ("path_to_file", "source_file");
  ("line", "source_line");
  ("lineno", "source_line");
  ("line_number", "source_line");
  ("queue", "job_queue");
  ("worker", "job_class");
  ("job", "job_class");
  ("task", "job_class");
  ("db_time", "db_ms");
  ("sql_time", "db_ms");
  ("sql_count", "db_count");
  ("query_count", "db_count");
  ("metadata", "body");
  ("extra", "body");
  ("fields", "body");
  ("attributes", "body");
  ("attrs", "body");
  ("context", "body");
  ("data", "body");
  ("payload", "body");
  ("details", "body");
  ("queries", "body");
  ("stack", "body.backtrace");
  ("stacktrace", "body.backtrace");
  ("backtrace", "body.backtrace");
  ("stack_trace", "body.backtrace");
  ("traceback", "body.backtrace");
  ("params", "body.params")
]%string.

(** The alias map of a lower-case key. *)
Definition alias_of (k : bytes) : option bytes :=
  match list_find (fun p => str p.1 = k) fieldAliases with Some (_, (_, target)) => Some (str target) | None => None end.

(** ** Edit distance *)

(** [row[j]]; every index is in range. *)
Definition cell (row : list nat) (j : nat) : nat := default O (row !! j).

(** The inner loop from column [j], over what is left of [b]; [x] is a[i-1]. *)
Fixpoint row_loop (x : Z) (b : bytes) (j : nat) (prev curr : list nat) : list nat :=
  match b with
  | [] => curr
  | y :: b =>
      let cost := if x =? y then 0%nat else 1%nat in
      let v := Nat.min (cell prev j + 1) (Nat.min (cell curr (j - 1) + 1) (cell prev (j - 1) + cost)) in
      row_loop x b (S j) prev (<[j := v]> curr)
  end.

(** The outer loop from row [i], over what is left of [a]; the rows are swapped after each. *)
Fixpoint rows_loop (a b : bytes) (i : nat) (prev curr : list nat) : list nat :=
  match a with
  | [] => prev
  | x :: a =>
      let curr := <[O := i]> curr in
      rows_loop a b (S i) (row_loop x b 1 prev curr) prev
  end.

Definition editDistance (a b : bytes) : nat :=
  cell (rows_loop a b 1 (seq 0 (S (length b))) (replicate (S (length b)) O)) (length b).

(** ** Suggestions *)

(** No suggestion, a field, or a key inside a field. *)
Inductive suggestion := NoField | Field (name : bytes) | Inside (name key : bytes).

(** [for name := range fieldNames()] in the order [names]. *)
Fixpoint nearest (k : bytes) (names : list bytes) (best : bytes) (bestDist : nat) : bytes :=
  match names with
  | [] => best
  | name :: names =>
      let d := editDistance k name in
      if bool_decide (d < bestDist)%nat then nearest k names name d else nearest k names best bestDist
  end.

Section Suggest.
Context {U : Unicode}.

Definition suggestField (names : list bytes) (key : bytes) : suggestion :=
  let k := ToLower (TrimSpace key) in
  match alias_of k with
  | Some target =>
      match SplitN 2 target 46 with
      | [outer; inner] => Inside outer inner
      | _ => Field target
      end
  | None =>
      let best := nearest k names [] 3 in
      if bool_decide (best = []) then NoField else Field best
  end.

(** *** Types and levels *)

Definition jsonKindOf (s : bytes) : string :=
  match s with
  | 34 :: _ => "string"
  | 123 :: _ => "object"
  | 91 :: _ => "an array"
  | 116 :: _ | 102 :: _ => "boolean"
  | _ => "number"
  end%string.

(** Whether [checkWireType] has a complaint about a value for the declared type. *)
Definition checkWireType (want : string) (raw : bytes) : bool :=
  let s := TrimSpace raw in
  if bool_decide (s = []) || bool_decide (s = str "null") then false
  else
    let got := jsonKindOf s in
    if bool_decide (got = want) then false
    else if bool_decide (want = "integer") || bool_decide (want = "number") then negb (bool_decide (got = "number"))
    else bool_decide (want = "string") || bool_decide (want = "boolean") || bool_decide (want = "object").

(** The level part of a report: an error, or a warning with the level it says is stored. *)
Inductive level_report := LevelMissing | LevelUnknown | LevelLowered (stored : bytes) | LevelAliased (stored : bytes) | LevelFine.

Definition report_level (level : bytes) : level_report :=
  if bool_decide (level = []) then LevelMissing
  else
    let lower := ToLower level in
    if negb (isValidLevel lower) then LevelUnknown
    else if negb (bool_decide (lower = level)) then LevelLowered lower
    else if bool_decide (lower = str "warning") then LevelAliased (str "warn")
    else LevelFine.

End Suggest.

(** ** Edits *)

(** [edits a b n]: [n] insertions, deletions and substitutions turn [a] into [b]. *)
Inductive edits : bytes -> bytes -> nat -> Prop :=
| edits_nil : edits [] [] 0
| edits_keep c a b n : edits a b n -> edits (c :: a) (c :: b) n
| edits_subst c d a b n : edits a b n -> edits (c :: a) (d :: b) (S n)
| edits_delete c a b n : edits a b n -> edits (c :: a) b (S n)
| edits_insert d a b n : edits a b n -> edits a (d :: b) (S n).

#[export] Hint Constructors edits : core.

(** The least such [n]. *)
Definition best (a b : bytes) (n : nat) : Prop := edits a b n /\ forall m, edits a b m -> (n <= m)%nat.

Lemma edits_app a b n a' b' m : edits a b n -> edits a' b' m -> edits (a ++ a') (b ++ b') (n + m).
Proof. intros H. revert a' b' m. induction H; intros a' b' m H'; cbn [app Nat.add]; auto. Qed.

Lemma edits_rev a b n : edits a b n -> edits (reverse a) (reverse b) n.
Proof.
  induction 1 as [| c a b n H IH | c d a b n H IH | c a b n H IH | d a b n H IH]; [done | | | |]; rewrite ?reverse_cons.
  - rewrite <- (Nat.add_0_r n). apply edits_app; auto.
  - rewrite <- Nat.add_1_r. apply edits_app; auto.
  - rewrite <- Nat.add_1_r, <- (app_nil_r (reverse b)). apply edits_app; auto.
  - rewrite <- Nat.add_1_r, <- (app_nil_r (reverse a)). apply edits_app; auto.
Qed.

Lemma best_rev a b n : best (reverse a) (reverse b) n -> best a b n.
Proof.
  intros [He Hl]. split; [| intros m Hm; by apply Hl, edits_rev]. apply edits_rev in He. by rewrite !reverse_involutive in He.
Qed.

Lemma best_nil_l b : best [] b (length b).
Proof.
  split; [induction b; cbn [length]; auto |]. intros m H. remember [] as a eqn:Ha. induction H; cbn [length]; try done; try lia.
  specialize (IHedits Ha). lia.
Qed.

Lemma best_nil_r a : best a [] (length a).
Proof.
  split; [induction a; cbn [length]; auto |]. intros m H. remember [] as b eqn:Hb. induction H; cbn [length]; try done; try lia.
  specialize (IHedits Hb). lia.
Qed.

(** The recurrence of the table. *)
Lemma best_cons x y a b up left diag : best a (y :: b) up -> best (x :: a) b left -> best a b diag ->
  best (x :: a) (y :: b) (Nat.min (up + 1) (Nat.min (left + 1) (diag + (if x =? y then 0 else 1)))).
Proof.
  intros [Hu Lu] [Hl Ll] [Hd Ld]. split.
  - destruct (Nat.min_spec (up + 1) (Nat.min (left + 1) (diag + (if x =? y then 0 else 1)))) as [[_ ->] | [_ ->]];
      [rewrite Nat.add_1_r; auto |].
    destruct (Nat.min_spec (left + 1) (diag + (if x =? y then 0 else 1))) as [[_ ->] | [_ ->]]; [rewrite Nat.add_1_r; auto |].
    destruct (x =? y) eqn:E; [apply Z.eqb_eq in E as ->; rewrite Nat.add_0_r; auto | rewrite Nat.add_1_r; auto].
  - intros m Hm. inversion Hm as [| c a' b' n H | c d a' b' n H | c a' b' n H | d a' b' n H]; subst.
    + rewrite Z.eqb_refl. specialize (Ld _ H). lia.
    + specialize (Ld _ H). destruct (x =? y); lia.
    + specialize (Lu _ H). lia.
    + specialize (Ll _ H). lia.
Qed.

(** The same at the end of the texts. *)
Lemma best_snoc x y a b up left diag : best a (b ++ [y]) up -> best (a ++ [x]) b left -> best a b diag ->
  best (a ++ [x]) (b ++ [y]) (Nat.min (up + 1) (Nat.min (left + 1) (diag + (if x =? y then 0 else 1)))).
Proof.
  assert (forall a b n, best a b n -> best (reverse a) (reverse b) n) as Hr.
  { intros a' b' n H. apply best_rev. by rewrite !reverse_involutive. }
  intros Hu Hl Hd. apply best_rev. rewrite !reverse_snoc. apply best_cons; [rewrite <- reverse_snoc | rewrite <- reverse_snoc |]; by apply Hr.
Qed.

(** The first [n + 1] cells of a row hold the distances from [pa] to the prefixes of [b]. *)
Definition filled (pa b : bytes) (n : nat) (row : list nat) : Prop :=
  length row = S (length b) /\ forall j, (j <= n)%nat -> best pa (take j b) (cell row j).

Lemma row_loop_filled x pa pb b prev curr :
  filled pa (pb ++ b) (length (pb ++ b)) prev -> filled (pa ++ [x]) (pb ++ b) (length pb) curr ->
  filled (pa ++ [x]) (pb ++ b) (length (pb ++ b)) (row_loop x b (S (length pb)) prev curr).
Proof.
  revert pb curr. induction b as [| y b IH]; intros pb curr Hp Hc; [by rewrite app_nil_r in * |].
  cbn [row_loop]. specialize (IH (pb ++ [y])). rewrite <- app_assoc in IH. cbn [app] in IH.
  assert (length (pb ++ [y]) = S (length pb)) as Hl by (rewrite length_app; cbn; lia). rewrite Hl in IH. apply IH; [done |]. clear IH.
  destruct Hp as [Hpl Hp], Hc as [Hcl Hc]. replace (S (length pb) - 1)%nat with (length pb) by lia.
  rewrite length_app in *. cbn [length] in *. split; [by rewrite length_insert, length_app |]. intros j Hj.
  unfold cell at 1. destruct (decide (j = S (length pb))) as [-> | Hne].
  - rewrite list_lookup_insert_eq by lia. cbn [default id].
    replace (take (S (length pb)) (pb ++ y :: b)) with (pb ++ [y]).
    2: { rewrite take_app_ge by lia. replace (S (length pb) - length pb)%nat with 1%nat by lia. done. }
    apply best_snoc.
    + specialize (Hp (S (length pb)) ltac:(lia)). rewrite take_app_ge in Hp by lia.
      by replace (S (length pb) - length pb)%nat with 1%nat in Hp by lia.
    + specialize (Hc (length pb) ltac:(lia)). by rewrite take_app_length in Hc.
    + specialize (Hp (length pb) ltac:(lia)). by rewrite take_app_length in Hp.
  - rewrite list_lookup_insert_ne by done. apply Hc. lia.
Qed.

Lemma rows_loop_filled a b pa prev curr : filled pa b (length b) prev -> length curr = S (length b) ->
  filled (pa ++ a) b (length b) (rows_loop a b (S (length pa)) prev curr).
Proof.
  revert pa prev curr. induction a as [| x a IH]; intros pa prev curr Hp Hc; [by rewrite app_nil_r |].
  cbn [rows_loop]. specialize (IH (pa ++ [x])). rewrite <- app_assoc, length_app, Nat.add_1_r in IH. cbn [app] in IH.
  apply IH; [| by destruct Hp]. clear IH. apply (row_loop_filled x pa [] b); [done |].
  split; [by rewrite length_insert |]. intros j Hj. assert (j = O) as -> by (cbn in Hj; lia). unfold cell.
  rewrite list_lookup_insert_eq by lia. rewrite take_0. cbn [default id].
  replace (S (length pa)) with (length (pa ++ [x])) by (rewrite length_app; cbn; lia). apply best_nil_r.
Qed.

Lemma editDistance_best a b : best a b (editDistance a b).
Proof.
  unfold editDistance. destruct (rows_loop_filled a b [] (seq 0 (S (length b))) (replicate (S (length b)) O)) as [_ H].
  - split; [by rewrite length_seq |]. intros j Hj. unfold cell. rewrite lookup_seq_lt by lia. cbn [default id Nat.add].
    rewrite <- (length_take_le b j) at 2 by done. apply best_nil_l.
  - by rewrite length_replicate.
  - specialize (H (length b) ltac:(lia)). by rewrite take_ge in H by done.
Qed.

(** C26: The two rows that [editDistance] keeps swapping compute the edit distance: some
    sequence of that many insertions, deletions and substitutions turns one name into the
    other, and no shorter one does. *)
Theorem editDistance_exact (a b : bytes) :
  edits a b (editDistance a b) /\ forall n, edits a b n -> (editDistance a b <= n)%nat.
Proof. apply editDistance_best. Qed.

(** ** Suggestions are nearest names *)

Lemma nearest_spec k names best0 dist0 :
  (nearest k names best0 dist0 = best0 /\ forall name, name ∈ names -> (dist0 <= editDistance k name)%nat) \/
  (nearest k names best0 dist0 ∈ names /\ (editDistance k (nearest k names best0 dist0) < dist0)%nat /\
   forall name, name ∈ names -> (editDistance k (nearest k names best0 dist0) <= editDistance k name)%nat).
Proof.
  revert best0 dist0. induction names as [| name names IH]; intros best0 dist0; cbn [nearest].
  { left. split; [done | intros name H; by apply elem_of_nil in H]. }
  case_bool_decide as E.
  - right. destruct (IH name (editDistance k name)) as [[-> H] | (Hin & Hlt & H)].
    + split; [left | split; [done |]]. intros n [-> | Hn]%elem_of_cons; [done | by apply H].
    + split; [by right | split; [lia |]]. intros n [-> | Hn]%elem_of_cons; [lia | by apply H].
  - destruct (IH best0 dist0) as [[-> H] | (Hin & Hlt & H)].
    + left. split; [done |]. intros n [-> | Hn]%elem_of_cons; [lia | by apply H].
    + right. split; [by right | split; [done |]]. intros n [-> | Hn]%elem_of_cons; [lia | by apply H].
Qed.

Lemma fieldNames_named : [] ∉ fieldNames.
Proof. apply (bool_decide_unpack ([] ∉ fieldNames)). by vm_compute. Qed.

(** In whatever order the names are ranged over, a key that is no alias gets an
    accepted name within two edits and no farther than any other, or no suggestion when
    every accepted name is three edits away or more. *)
Theorem suggestion_nearest {U : Unicode} (names : list bytes) (key : bytes) :
  names ≡ₚ fieldNames -> alias_of (ToLower (TrimSpace key)) = None ->
  let k := ToLower (TrimSpace key) in
  match suggestField names key with
  | NoField => forall name, name ∈ fieldNames -> (3 <= editDistance k name)%nat
  | Field name => name ∈ fieldNames /\ (editDistance k name <= 2)%nat /\
      forall name', name' ∈ fieldNames -> (editDistance k name <= editDistance k name')%nat
  | Inside _ _ => False
  end.
Proof.
  intros Hp Ha k. unfold suggestField. fold k in Ha |- *. rewrite Ha. cbv zeta.
  assert (forall n, n ∈ names <-> n ∈ fieldNames) as Hin by (intros n; by rewrite Hp).
  destruct (nearest_spec k names [] 3) as [[-> H] | (Hn & Hlt & H)].
  - rewrite bool_decide_true by done. intros name Hname. by apply H, Hin.
  - rewrite bool_decide_false by (intros E; rewrite E in Hn; by apply Hin, fieldNames_named in Hn).
    split; [by apply Hin | split; [lia |]]. intros n Hname. by apply H, Hin.
Qed.

Lemma suggestion_nearest_witness :
  suggestField (U := ascii_unicode) fieldNames (str " Servce ") = Field (str "service") /\
  editDistance (str "servce") (str "service") = 1%nat /\
  match suggestField (U := ascii_unicode) fieldNames (str " Servce ") with
  | NoField => forall name, name ∈ fieldNames -> (3 <= editDistance (str "servce") name)%nat
  | Field name => name ∈ fieldNames /\ (editDistance (str "servce") name <= 2)%nat /\
      forall name', name' ∈ fieldNames -> (editDistance (str "servce") name <= editDistance (str "servce") name')%nat
  | Inside _ _ => False
  end.
Proof.
  split; [by vm_compute | split; [by vm_compute |]].
  apply (suggestion_nearest (U := ascii_unicode) fieldNames (str " Servce ")); [done | by vm_compute].
Defined.

(** A key as near to two names gets the first one ranged over, and a map is ranged over in no
    fixed order. *)
Lemma suggestion_not_determined :
  suggestField (U := ascii_unicode) fieldNames (str "xx_ms") = Field (str "db_ms") /\
  suggestField (U := ascii_unicode) (reverse fieldNames) (str "xx_ms") = Field (str "ext_ms").
Proof. split; by vm_compute. Qed.

(** The report names the lower-case level; what is stored is its canonical form. *)
Lemma report_of_upper_warning :
  report_level (U := ascii_unicode) (str "WARNING") = LevelLowered (str "warning") /\
  normalizeLevel (ToLower (Unicode := ascii_unicode) (str "WARNING")) = str "warn".
Proof. split; by vm_compute. Qed.

(** Every alias stands for an accepted field. *)
Lemma aliases_accepted : Forall (fun p : string * string => default [] (head (SplitN 2 (str p.2) 46)) ∈ fieldNames) fieldAliases.
Proof. apply (bool_decide_unpack (Forall (fun p : string * string => default [] (head (SplitN 2 (str p.2) 46)) ∈ fieldNames) fieldAliases)). by vm_compute. Qed.
