(* ===== verification/ErrorGroups.v ===== *)
(** * Error groups (adapter/sqlite/error_group_store.go, error_impact_store.go)

    One row per fingerprint and environment, with its lifecycle and the log of its
    transitions; the users an error hit.  The tables are finite maps and a list, a statement
    may fail, and a transaction that fails leaves the database as it was.
    Main results: the event log explains the status of every row; an operation in one
    environment changes nothing a caller of another can see but the list of environments;
    transitions are idempotent; a filed issue is never replaced. *)

From stdpp Require Import base list gmap strings numbers sorting.
From Stdlib Require Import ZArith Lia SpecFloat.
From S2P Require Import Prelude Schema Index Utf8 Pipeline Floats Adapter IngestHttp.

(** ** Tables *)

Inductive ErrorGroupStatus := ErrorGroupUnresolved | ErrorGroupResolved | ErrorGroupIgnored.

#[export] Instance status_eq_dec : EqDecision ErrorGroupStatus.
Proof. solve_decision. Defined.

Inductive action := Resolved | Ignored | Reopened.

#[export] Instance action_eq_dec : EqDecision action.
Proof. solve_decision. Defined.

(** A row of error_groups but for its key; instants are seconds, text columns of RFC 3339
    compare like them.  [seen_in_envs] is the decoded JSON array. *)
Record group := mkGroup {
  g_service : bytes;
  exception_class : bytes;
  g_message : bytes;
  g_source_file : bytes;
  g_source_line : Z;
  g_status : ErrorGroupStatus;
  first_seen_at : Z;
  last_seen_at : Z;
  occurrence_count : Z;
  last_log_id : option Z;
  reopened_count : Z;
  resolved_at : option Z;
  ignored_at : option Z;
  unique_users : Z;
  impact_score : float;
  seen_in_envs : gset bytes;
  issue_url : option bytes
}.

(** Fingerprint and environment. *)
Abbreviation key := (bytes * bytes)%type.

Record event_row := mkEventRow { ev_key : key; ev_action : action; ev_reason : bytes; ev_created : Z }.

(** A row of error_impacts: the key is the group's and the user. *)
Record impact := mkImpact {
  i_service : bytes;
  i_first_seen : Z;
  i_last_seen : Z;
  i_count : Z;
  i_context : bytes;
  i_last_log_id : Z
}.

(** Events oldest first. *)
Record DB := mkDB { groups : gmap key group; events : list event_row; impacts : gmap (key * bytes) impact }.

Definition empty_db : DB := mkDB ∅ [] ∅.

Definition with_groups (g : gmap key group) (d : DB) : DB := mkDB g (events d) (impacts d).
Definition with_impacts (i : gmap (key * bytes) impact) (d : DB) : DB := mkDB (groups d) (events d) i.
Definition with_events (e : list event_row) (d : DB) : DB := mkDB (groups d) e (impacts d).

(** [WHERE fingerprint = ? [AND environment = ?]] *)
Definition in_scope (fp env : bytes) (k : key) : bool :=
  bool_decide (k.1 = fp) && (bool_decide (env = []) || bool_decide (k.2 = env)).

(** [UPDATE error_groups SET .. WHERE ..] *)
Definition update_where (c : key -> group -> bool) (f : group -> group) (m : gmap key group) : gmap key group :=
  map_imap (fun k g => Some (if c k g then f g else g)) m.

(** The rows and the keys a query selects, in an order the store leaves open. *)
Definition rows_where (c : key -> group -> bool) (m : gmap key group) : list (key * group) :=
  filter (fun kg : key * group => c kg.1 kg.2 = true) (map_to_list m).

Definition keys_where (c : key -> group -> bool) (m : gmap key group) : list key := (rows_where c m).*1.

Definition ErrNotFound : gerror := Sentinel "not found".

(** [ORDER BY f DESC] *)
Definition desc {A} (f : A -> Z) (a b : A) : Prop := f b <= f a.

#[export] Instance desc_dec {A} (f : A -> Z) : RelDecision (desc f).
Proof. intros a b. unfold desc. apply _. Defined.

#[export] Instance desc_total {A} (f : A -> Z) : Total (desc f).
Proof. intros a b. unfold desc. lia. Qed.

(** ** Upsert *)

Definition seconds_of (t : Z) : Z := t / 1000000000.

(** [truncate] *)
Definition truncate (s : bytes) (maxLen : nat) : bytes := if bool_decide (length s <= maxLen)%nat then s else take maxLen s.

Definition new_group (e : Log.LogEntry) (ts : Z) (lastLogID : option Z) : group := {|
  g_service := Log.Service e;
  exception_class := Log.ExceptionClass e;
  g_message := truncate (Log.Message e) 500;
  g_source_file := Log.SourceFile e;
  g_source_line := Log.SourceLine e;
  g_status := ErrorGroupUnresolved;
  first_seen_at := ts;
  last_seen_at := ts;
  occurrence_count := 1;
  last_log_id := lastLogID;
  reopened_count := 0;
  resolved_at := None;
  ignored_at := None;
  unique_users := 0;
  impact_score := zero;
  seen_in_envs := {[Log.Environment e]};
  issue_url := None
|}.

(** [g] with what an upsert or a transition may change. *)
Definition seen_again (ts : Z) (lastLogID : option Z) (g : group) : group :=
  mkGroup (g_service g) (exception_class g) (g_message g) (g_source_file g) (g_source_line g) (g_status g)
    (first_seen_at g) ts (occurrence_count g + 1) lastLogID (reopened_count g) (resolved_at g) (ignored_at g)
    (unique_users g) (impact_score g) (seen_in_envs g) (issue_url g).

Definition with_envs (envs : gset bytes) (g : group) : group :=
  mkGroup (g_service g) (exception_class g) (g_message g) (g_source_file g) (g_source_line g) (g_status g)
    (first_seen_at g) (last_seen_at g) (occurrence_count g) (last_log_id g) (reopened_count g) (resolved_at g) (ignored_at g)
    (unique_users g) (impact_score g) envs (issue_url g).

Definition with_status (s : ErrorGroupStatus) (reopened : Z) (resolved ignored : option Z) (g : group) : group :=
  mkGroup (g_service g) (exception_class g) (g_message g) (g_source_file g) (g_source_line g) s
    (first_seen_at g) (last_seen_at g) (occurrence_count g) (last_log_id g) reopened resolved ignored
    (unique_users g) (impact_score g) (seen_in_envs g) (issue_url g).

Definition with_issue (url : bytes) (g : group) : group :=
  mkGroup (g_service g) (exception_class g) (g_message g) (g_source_file g) (g_source_line g) (g_status g)
    (first_seen_at g) (last_seen_at g) (occurrence_count g) (last_log_id g) (reopened_count g) (resolved_at g) (ignored_at g)
    (unique_users g) (impact_score g) (seen_in_envs g) (Some url).

(** The environments the rows of a fingerprint are in. *)
Definition envs_of (fp : bytes) (m : gmap key group) : gset bytes :=
  list_to_set (snd <$> keys_where (fun k _ => in_scope fp [] k) m).

(** The four statements of [upsertErrorGroup]. *)
Definition insert_or_count (e : Log.LogEntry) (d : DB) : DB :=
  let k := (Log.ErrorFingerprint e, Log.Environment e) in
  let ts := seconds_of (Log.Timestamp e) in
  let lastLogID := if 0 <? Log.ID e then Some (Log.ID e) else None in
  with_groups (match groups d !! k with
               | Some g => <[k := seen_again ts lastLogID g]> (groups d)
               | None => <[k := new_group e ts lastLogID]> (groups d)
               end) d.

Definition refresh_envs (fp : bytes) (d : DB) : DB :=
  with_groups (update_where (fun k _ => in_scope fp [] k) (with_envs (envs_of fp (groups d))) (groups d)) d.

(** The row reopened, and whether there was one. *)
Definition reopen_resolved (k : key) (d : DB) : DB * bool :=
  match groups d !! k with
  | Some g =>
      if bool_decide (g_status g = ErrorGroupResolved) then
        (with_groups (<[k := with_status ErrorGroupUnresolved (reopened_count g + 1) (resolved_at g) (ignored_at g) g]> (groups d)) d, true)
      else (d, false)
  | None => (d, false)
  end.

(** An event of a group that does not exist violates the foreign key. *)
Definition insert_event (k : key) (a : action) (reason : bytes) (now : Z) (d : DB) : option DB :=
  if bool_decide (is_Some (groups d !! k)) then Some (with_events (events d ++ [mkEventRow k a reason now]) d) else None.

Definition reopen_reason : bytes := str "New occurrence after resolution".

Section Store.
Context {U : Unicode}.

(** [upsertErrorGroup] outside a transaction; [ok n] says whether its n-th statement succeeds. *)
Definition upsertErrorGroup (ok : nat -> bool) (d : DB) (e : Log.LogEntry) (now : Z) : DB * result unit :=
  if bool_decide (Log.ErrorFingerprint e = []) then (d, Ok tt)
  else
    let level := ToLower (Log.Level e) in
    if negb (bool_decide (level = str "error")) && negb (bool_decide (level = str "fatal")) then (d, Ok tt)
    else if negb (ok 0%nat) then (d, Err (Errorf "upsert error group"))
    else
      let d := insert_or_count e d in
      if negb (ok 1%nat) then (d, Err (Errorf "updating seen_in_envs"))
      else
        let d := refresh_envs (Log.ErrorFingerprint e) d in
        if negb (ok 2%nat) then (d, Err (Errorf "reopen check"))
        else
          let k := (Log.ErrorFingerprint e, Log.Environment e) in
          let '(d, reopened) := reopen_resolved k d in
          if reopened then
            if negb (ok 3%nat) then (d, Err (Errorf "insert reopen event"))
            else match insert_event k Reopened reopen_reason now d with
                 | Some d => (d, Ok tt)
                 | None => (d, Err (Errorf "insert reopen event"))
                 end
          else (d, Ok tt).

(** The loop of [UpsertBatch]; [ok i n] is for the n-th statement of entry [i], made at [clock i]. *)
Fixpoint upsert_loop (ok : nat -> nat -> bool) (clock : nat -> Z) (i : nat) (d : DB) (entries : list Log.LogEntry) : DB * result unit :=
  match entries with
  | [] => (d, Ok tt)
  | e :: entries =>
      match upsertErrorGroup (ok i) d e (clock i) with
      | (d, Ok _) => upsert_loop ok clock (S i) d entries
      | (d, Err err) => (d, Err err)
      | (d, Panic) => (d, Panic)
      end
  end.

(** [RunInTx]: the changes are kept when the body succeeds and the commit does. *)
Definition in_tx {A} (commits : bool) (d : DB) (body : DB * result A) : DB * result A :=
  match body with
  | (d', Ok a) => if commits then (d', Ok a) else (d, Err (Errorf "commit"))
  | (_, r) => (d, r)
  end.

Definition UpsertBatch (ok : nat -> nat -> bool) (clock : nat -> Z) (commits : bool) (d : DB) (entries : list Log.LogEntry)
  : DB * result unit :=
  in_tx commits d (upsert_loop ok clock 0 d entries).

(** ** Transitions *)

(** [statusGuard] and [setClause] *)
Definition transitions (a : action) (g : group) : bool :=
  match a with
  | Resolved => negb (bool_decide (g_status g = ErrorGroupResolved))
  | Ignored => negb (bool_decide (g_status g = ErrorGroupIgnored))
  | Reopened => bool_decide (g_status g = ErrorGroupResolved) || bool_decide (g_status g = ErrorGroupIgnored)
  end.

Definition transition (a : action) (now : Z) (g : group) : group :=
  match a with
  | Resolved => with_status ErrorGroupResolved (reopened_count g) (Some now) (ignored_at g) g
  | Ignored => with_status ErrorGroupIgnored (reopened_count g) (resolved_at g) (Some now) g
  | Reopened => with_status ErrorGroupUnresolved (reopened_count g) (resolved_at g) (ignored_at g) g
  end.

(** The rows of the event log a transition writes. *)
Definition transition_events (envs : list key) (a : action) (reason : bytes) (now : Z) : list event_row :=
  (fun k => mkEventRow k a reason now) <$> envs.

(** [changeStatus]; [ok] says whether every statement and the commit succeed, as a failure
    of any rolls the transaction back. *)
Definition changeStatus (ok : bool) (d : DB) (fingerprint environment : bytes) (a : action) (reason : bytes) (now : Z) : DB * result unit :=
  if negb ok then (d, Err (Errorf "changing status"))
  else if bool_decide (keys_where (fun k _ => in_scope fingerprint environment k) (groups d) = []) then (d, Err ErrNotFound)
  else
    let c := fun k g => in_scope fingerprint environment k && transitions a g in
    let envs := keys_where c (groups d) in
    (mkDB (update_where c (transition a now) (groups d)) (events d ++ transition_events envs a reason now) (impacts d), Ok tt).

(** ** Retention *)

(** [Prune]: deleting a group cascades to its events and its impacts, so that the clean-up of
    orphaned impacts that follows finds none; instants in nanoseconds. *)
Definition Prune (ok : bool) (d : DB) (now olderThan : Z) : DB * result Z :=
  if negb ok then (d, Err (Errorf "prune"))
  else
    let cutoff := seconds_of (now - olderThan) in
    let gone := filter (fun kg : key * group => last_seen_at kg.2 < cutoff) (groups d) in
    let left := groups d ∖ gone in
    (mkDB left (filter (fun ev => is_Some (left !! ev_key ev)) (events d))
       (filter (fun ki : (key * bytes) * impact => is_Some (left !! ki.1.1)) (impacts d)),
     Ok (Z.of_nat (size gone))).

(** ** Issues *)

Definition no_issue (g : group) : bool :=
  match issue_url g with None => true | Some u => bool_decide (u = []) end.

(** [SetIssueURL]: the update, and the check when it claimed no row; [ok n] as above. *)
Definition SetIssueURL (ok : nat -> bool) (d : DB) (fingerprint environment url : bytes) : DB * result unit :=
  if bool_decide (url = []) then (d, Err (Errorf "issue url is required"))
  else if negb (ok 0%nat) then (d, Err (Errorf "setting issue url"))
  else
    let c := fun k g => in_scope fingerprint environment k && no_issue g in
    let n := length (keys_where c (groups d)) in
    let d' := with_groups (update_where c (with_issue url) (groups d)) d in
    if bool_decide (n = O) then
      if negb (ok 1%nat) then (d', Err (Errorf "verifying error group for issue url"))
      else if bool_decide (keys_where (fun k _ => in_scope fingerprint environment k) (groups d') = []) then (d', Err ErrNotFound)
      else (d', Ok tt)
    else (d', Ok tt).

(** ** Reading; [ok] says whether the query succeeds *)

(** The row of least rank, none without rows. *)
Definition first_by {A} (R : A -> A -> Prop) `{!RelDecision R} (l : list A) : option A := head (merge_sort R l).

Definition last_seen (kg : key * group) : Z := last_seen_at kg.2.

(** [Get] *)
Definition Get (ok : bool) (d : DB) (fingerprint environment : bytes) : result (key * group) :=
  if negb ok then Err (Errorf "query failed")
  else match first_by (desc last_seen) (rows_where (fun k _ => in_scope fingerprint environment k) (groups d)) with
       | Some row => Ok row
       | None => Err ErrNotFound
       end.

(** [ListErrorGroupParams]; [None] is the empty status. *)
Record ListErrorGroupParams := mkListParams {
  p_Status : option ErrorGroupStatus;
  p_Service : bytes;
  p_Environment : bytes;
  p_Since : option Z;
  p_ActiveSince : option Z;
  p_SortBy : bytes;
  p_Limit : Z;
  p_Offset : Z
}.

Definition is_status (status : option ErrorGroupStatus) (g : group) : bool :=
  match status with Some s => bool_decide (g_status g = s) | None => true end.

(** A filter on a column: the empty value asks for nothing. *)
Definition column_is (wanted v : bytes) : bool := bool_decide (wanted = []) || bool_decide (v = wanted).

Definition at_least (bound : option Z) (t : Z) : bool := match bound with Some b => b <=? t | None => true end.

Definition list_filter (p : ListErrorGroupParams) (k : key) (g : group) : bool :=
  is_status (p_Status p) g && column_is (p_Service p) (g_service g) && column_is (p_Environment p) k.2 &&
  at_least (p_Since p) (first_seen_at g) && at_least (p_ActiveSince p) (last_seen_at g).

(** [orderBy]: the column the rows are in descending order of. *)
Definition list_column (sortBy : bytes) (kg : key * group) : Z :=
  if bool_decide (sortBy = str "occurrence_count") then occurrence_count kg.2
  else if bool_decide (sortBy = str "first_seen_at") then first_seen_at kg.2
  else last_seen_at kg.2.

(** [List]; a negative offset is none. *)
Definition List (ok : bool) (d : DB) (p : ListErrorGroupParams) : result (list (key * group)) :=
  if negb ok then Err (Errorf "list error groups")
  else
    let limit := if p_Limit p <=? 0 then 50 else p_Limit p in
    Ok (take (Z.to_nat limit) (drop (Z.to_nat (p_Offset p))
      (merge_sort (desc (list_column (p_SortBy p))) (rows_where (list_filter p) (groups d))))).

(** [Count] *)
Definition Count (ok : bool) (d : DB) (status : option ErrorGroupStatus) (environment : bytes) : result nat :=
  if negb ok then Err (Errorf "query failed")
  else Ok (length (rows_where (fun k g => is_status status g && column_is environment k.2) (groups d))).

(** [IssueURL]: the filed issues first. *)
Definition unfiled_last (kg : key * group) : Z := if no_issue kg.2 then 0 else 1.

Definition IssueURL (ok : bool) (d : DB) (fingerprint environment : bytes) : result bytes :=
  if negb ok then Err (Errorf "reading issue url")
  else match first_by (desc unfiled_last) (rows_where (fun k _ => in_scope fingerprint environment k) (groups d)) with
       | Some kg => Ok (default [] (issue_url kg.2))
       | None => Err ErrNotFound
       end.

Definition defaultEventLimit : Z := 20.
Definition maxEventLimit : Z := 500.

(** [ListEvents]: newest first. *)
Definition ListEvents (ok : bool) (d : DB) (fingerprint environment : bytes) (limit : Z) : result (list event_row) :=
  let limit := if limit <=? 0 then defaultEventLimit else limit in
  let limit := if maxEventLimit <? limit then maxEventLimit else limit in
  if negb ok then Err (Errorf "list events")
  else Ok (take (Z.to_nat limit)
    (merge_sort (desc ev_created) (filter (fun ev => in_scope fingerprint environment (ev_key ev) = true) (events d)))).

(** ** Impact on users *)

(** [trackErrorImpact]: a group that does not exist violates the foreign key. *)
Definition trackErrorImpact (ok : bool) (d : DB) (fingerprint environment userID contextJSON : bytes) (logID : Z) (service : bytes) (now : Z)
  : DB * result unit :=
  if bool_decide (fingerprint = []) || bool_decide (userID = []) then (d, Ok tt)
  else if negb ok then (d, Err (Errorf "track impact"))
  else
    let k := ((fingerprint, environment), userID) in
    match impacts d !! k with
    | Some i =>
        (with_impacts (<[k := mkImpact (i_service i) (i_first_seen i) now (i_count i + 1) contextJSON logID]> (impacts d)) d, Ok tt)
    | None =>
        if bool_decide (is_Some (groups d !! (fingerprint, environment))) then
          (with_impacts (<[k := mkImpact service now now 1 contextJSON logID]> (impacts d)) d, Ok tt)
        else (d, Err (Errorf "FOREIGN KEY constraint failed"))
    end.

(** [json.Marshal] of the metadata. *)
Context (Marshal : option (list (bytes * value)) -> bytes).

Fixpoint track_loop (ok : nat -> bool) (clock : nat -> Z) (i : nat) (d : DB) (entries : list Log.LogEntry) : DB * result unit :=
  match entries with
  | [] => (d, Ok tt)
  | e :: entries =>
      match trackErrorImpact (ok i) d (Log.ErrorFingerprint e) (Log.Environment e) (Log.UserID e) (Marshal (Log.Metadata e))
              (Log.ID e) (Log.Service e) (clock i) with
      | (d, Ok _) => track_loop ok clock (S i) d entries
      | (d, Err err) => (d, Err err)
      | (d, Panic) => (d, Panic)
      end
  end.

Definition TrackImpactBatch (ok : nat -> bool) (clock : nat -> Z) (commits : bool) (d : DB) (entries : list Log.LogEntry)
  : DB * result unit :=
  in_tx commits d (track_loop ok clock 0 d entries).

(** The error statements of [processAfterInsert]: a batch that fails is logged and the next one is tried. *)
Definition processErrors (ok1 : nat -> nat -> bool) (ok2 : nat -> bool) (clock1 clock2 : nat -> Z) (commit1 commit2 : bool) (d : DB)
    (entries : list Log.LogEntry) : DB :=
  (TrackImpactBatch ok2 clock2 commit2 (UpsertBatch ok1 clock1 commit1 d entries).1 entries).1.

(** The impacts of a fingerprint, of one environment or of all. *)
Definition impacts_of (fp env : bytes) (d : DB) : list ((key * bytes) * impact) :=
  filter (fun p : (key * bytes) * impact => in_scope fp env p.1.1 = true) (map_to_list (impacts d)).

Definition total_count (l : list ((key * bytes) * impact)) : Z := foldr (fun p n => i_count p.2 + n) 0 l.

(** A sum read as a float64 and converted back. *)
Definition scanned_total `{Conversion} (n : Z) : Z := int_of (of_int n).

(** [ErrorImpact] but for the common traits. *)
Record ErrorImpact := mkErrorImpact { im_Environment : bytes; im_UniqueUsers : Z; im_TotalOccurrences : Z; im_ImpactScore : float }.

(** [ORDER BY impact_score DESC, last_seen_at DESC] *)
Definition score_desc (a b : key * group) : Prop :=
  (flt (impact_score b.2) (impact_score a.2) ||
   (feq (impact_score b.2) (impact_score a.2) && (last_seen b <=? last_seen a))) = true.

#[local] Instance score_desc_dec : RelDecision score_desc.
Proof. intros a b. unfold score_desc. apply _. Defined.

(** [GetImpact] without the common traits; [ok n] says whether its n-th query succeeds. *)
Definition GetImpact `{Conversion} (ok : nat -> bool) (d : DB) (fingerprint environment : bytes) : result ErrorImpact :=
  if negb (ok 0%nat) then Err (Errorf "getting impact")
  else
    let rows := impacts_of fingerprint environment d in
    let users := len rows in
    let total := match rows with [] => 0 | _ => scanned_total (total_count rows) end in
    if negb (ok 1%nat) then Err (Errorf "getting impact score")
    else match first_by score_desc (rows_where (fun k _ => in_scope fingerprint environment k) (groups d)) with
         | Some (k, g) => Ok (mkErrorImpact k.2 users total (impact_score g))
         | None => Ok (mkErrorImpact [] users total zero)
         end.

(** [GetAffectedUsers]: the impact rows of every environment, by occurrences, most first. *)
Definition occurrences (p : (key * bytes) * impact) : Z := i_count p.2.

Definition GetAffectedUsers (ok : bool) (d : DB) (fingerprint : bytes) (limit : Z) : result (list ((key * bytes) * impact)) :=
  let limit := if limit <=? 0 then 20 else limit in
  if negb ok then Err (Errorf "getting affected users")
  else Ok (take (Z.to_nat limit) (merge_sort (desc occurrences) (impacts_of fingerprint [] d))).

(** [ErrorSummary] *)
Record ErrorSummary := mkErrorSummary {
  es_Fingerprint : bytes;
  es_ExceptionClass : bytes;
  es_Message : bytes;
  es_OccurrenceCount : Z;
  es_FirstSeenAt : Z;
  es_LastSeenAt : Z;
  es_Status : ErrorGroupStatus
}.

Definition summary_of (d : DB) (p : (key * bytes) * impact) : ErrorSummary :=
  match groups d !! p.1.1 with
  | Some g => mkErrorSummary p.1.1.1 (exception_class g) (g_message g) (i_count p.2) (i_first_seen p.2) (i_last_seen p.2) (g_status g)
  | None => mkErrorSummary p.1.1.1 [] [] (i_count p.2) (i_first_seen p.2) (i_last_seen p.2) ErrorGroupUnresolved
  end.

(** [GetUserErrors] *)
Definition impact_seen (p : (key * bytes) * impact) : Z := i_last_seen p.2.

Definition GetUserErrors (ok : bool) (d : DB) (userID : bytes) (since : Z) : result (list ErrorSummary) :=
  if negb ok then Err (Errorf "getting user errors")
  else Ok (summary_of d <$> merge_sort (desc impact_seen)
    (filter (fun p : (key * bytes) * impact => (bool_decide (p.1.2 = userID) && (since <=? impact_seen p)) = true) (map_to_list (impacts d)))).

(** *** Scores *)

Record scoredImpact := mkScored { sc_key : key; uniqueUsers : Z; totalOccurrences : Z; lastSeen : Z; score : float }.

(** [computeRecencyWeight]; [now] in nanoseconds. *)
Definition computeRecencyWeight (now lastSeen : Z) : float :=
  let age := now - lastSeen * 1000000000 in
  if age <? 3600 * 1000000000 then of_int 1
  else if age <? 24 * 3600 * 1000000000 then literal 8 10
  else if age <? 7 * 24 * 3600 * 1000000000 then literal 5 10
  else literal 2 10.

(** [math.Log2] *)
Context (Log2 : float -> float).

(** The groups that have impacts. *)
Definition impacted (d : DB) : list key := remove_dups ((fun p : (key * bytes) * impact => p.1.1) <$> map_to_list (impacts d)).

Definition impacts_at (k : key) (d : DB) : list ((key * bytes) * impact) :=
  filter (fun p : (key * bytes) * impact => p.1.1 = k) (map_to_list (impacts d)).

Definition max_seen (l : list ((key * bytes) * impact)) : Z :=
  match l with [] => 0 | p :: l => foldr (fun p n => Z.max (impact_seen p) n) (impact_seen p) l end.

(** [collectScoredImpacts] *)
Definition scored `{Conversion} (now : Z) (d : DB) (k : key) : scoredImpact :=
  let rows := impacts_at k d in
  let users := len rows in
  let total := scanned_total (total_count rows) in
  let last := max_seen rows in
  mkScored k users total last (fmul (fmul (of_int users) (Log2 (of_int (int64 (total + 1))))) (computeRecencyWeight now last)).

Definition collectScoredImpacts `{Conversion} (now : Z) (d : DB) : list scoredImpact := scored now d <$> impacted d.

(** [math.Round] and [round2] *)
Definition Round (x : float) : float :=
  match x with
  | S754_finite s _ _ => if bool_decide (round_half x = 0) then S754_zero s else of_int (round_half x)
  | _ => x
  end.

Definition round2 (f : float) : float := fdiv (Round (fmul f (of_int 100))) (of_int 100).

Definition with_score (users : Z) (sc : float) (g : group) : group :=
  mkGroup (g_service g) (exception_class g) (g_message g) (g_source_file g) (g_source_line g) (g_status g)
    (first_seen_at g) (last_seen_at g) (occurrence_count g) (last_log_id g) (reopened_count g) (resolved_at g) (ignored_at g)
    users sc (seen_in_envs g) (issue_url g).

Fixpoint score_loop (ok : nat -> bool) (i : nat) (d : DB) (l : list scoredImpact) : DB * result unit :=
  match l with
  | [] => (d, Ok tt)
  | s :: l =>
      if negb (ok i) then (d, Err (Errorf "updating impact score"))
      else score_loop ok (S i) (with_groups (alter (with_score (uniqueUsers s) (round2 (score s))) (sc_key s) (groups d)) d) l
  end.

(** The order of the scores, highest first. *)
Definition higher_score (a b : scoredImpact) : Prop := flt (score a) (score b) = false.

#[local] Instance higher_score_dec : RelDecision higher_score.
Proof. intros a b. unfold higher_score. apply _. Defined.

(** [ComputeImpactScores] without the traits; [ok n] is for its n-th update. *)
Definition ComputeImpactScores `{Conversion} (query : bool) (ok : nat -> bool) (now : Z) (d : DB) : DB * result unit :=
  if negb query then (d, Err (Errorf "querying impact data"))
  else score_loop ok 0 d (merge_sort higher_score (collectScoredImpacts now d)).

(** [ImpactQueryParams] *)
Record ImpactQueryParams := mkImpactQuery {
  q_Status : option ErrorGroupStatus;
  q_Service : bytes;
  q_Environment : bytes;
  q_Since : option Z;
  q_SortBy : bytes;
  q_Limit : Z
}.

(** [sortCol], as the order of two rows. *)
Definition impact_desc (sortBy : bytes) (a b : key * group) : Prop :=
  (if bool_decide (sortBy = str "unique_users") then unique_users b.2 <=? unique_users a.2
   else if bool_decide (sortBy = str "occurrence_count") then occurrence_count b.2 <=? occurrence_count a.2
   else if bool_decide (sortBy = str "last_seen") then last_seen b <=? last_seen a
   else fle (impact_score b.2) (impact_score a.2)) = true.

#[local] Instance impact_desc_dec (sortBy : bytes) : RelDecision (impact_desc sortBy).
Proof. intros a b. unfold impact_desc. apply _. Defined.

(** [ErrorGroupWithImpact] *)
Record ErrorGroupWithImpact := mkWithImpact { ei_key : key; ei_group : group; TopAffectedUsers : list ((key * bytes) * impact) }.

(** [TopByImpact]; the users of a group are none when their query fails. *)
Definition TopByImpact (ok : bool) (users_ok : key -> bool) (d : DB) (p : ImpactQueryParams) : result (list ErrorGroupWithImpact) :=
  if negb ok then Err (Errorf "querying top by impact")
  else
    let limit := if q_Limit p <=? 0 then 20 else q_Limit p in
    let rows := rows_where (fun k g =>
        is_status (q_Status p) g && column_is (q_Service p) (g_service g) && at_least (q_Since p) (last_seen_at g)) (groups d) in
    Ok ((fun kg : key * group => mkWithImpact kg.1 kg.2
           (match GetAffectedUsers (users_ok kg.1) d kg.1.1 3 with Ok l => l | _ => [] end)) <$>
         take (Z.to_nat limit) (merge_sort (impact_desc (q_SortBy p)) rows)).

End Store.

(** ** Lookups *)

Lemma in_scope_spec fp env (k : key) : in_scope fp env k = true <-> k.1 = fp /\ (env = [] \/ k.2 = env).
Proof. unfold in_scope. rewrite andb_true_iff, orb_true_iff, !bool_decide_eq_true. done. Qed.

Lemma in_scope_all fp (k : key) : in_scope fp [] k = true <-> k.1 = fp.
Proof. rewrite in_scope_spec. naive_solver. Qed.

Lemma lookup_update_where c f m (k : key) :
  update_where c f m !! k = (fun g => if c k g then f g else g) <$> m !! k.
Proof. unfold update_where. rewrite map_lookup_imap. by destruct (m !! k). Qed.

Lemma elem_of_rows_where c m (k : key) g : (k, g) ∈ rows_where c m <-> m !! k = Some g /\ c k g = true.
Proof. unfold rows_where. rewrite list_elem_of_filter, elem_of_map_to_list. cbn. tauto. Qed.

Lemma elem_of_keys_where c m (k : key) : k ∈ keys_where c m <-> exists g, m !! k = Some g /\ c k g = true.
Proof.
  unfold keys_where. rewrite list_elem_of_fmap. split.
  - intros ([k' g] & -> & Hin). apply elem_of_rows_where in Hin. eauto.
  - intros (g & Hg). exists (k, g). by rewrite elem_of_rows_where.
Qed.

Lemma NoDup_keys_where c m : NoDup (keys_where c m).
Proof.
  unfold keys_where, rows_where. assert (H := NoDup_fst_map_to_list m). revert H.
  induction (map_to_list m) as [| [k g] l IH]; intros H; [constructor |].
  cbn in H. apply NoDup_cons in H as [Hk H]. rewrite filter_cons. case_decide; cbn; [| by apply IH].
  apply NoDup_cons. split; [| by apply IH].
  rewrite list_elem_of_fmap in Hk |- *. intros (x & E & Hx). apply Hk. exists x. split; [done |].
  by apply list_elem_of_filter in Hx as [_ Hx].
Qed.

Lemma keys_where_nil c m : keys_where c m = [] <-> forall (k : key) g, m !! k = Some g -> c k g = false.
Proof.
  split.
  - intros E k g Hg. apply not_true_is_false. intros Hc.
    assert (Hin : k ∈ keys_where c m) by (apply elem_of_keys_where; eauto). rewrite E in Hin. by apply not_elem_of_nil in Hin.
  - intros H. destruct (keys_where c m) as [| k l] eqn:E; [done | exfalso].
    assert (Hin : k ∈ keys_where c m) by (rewrite E; left). apply elem_of_keys_where in Hin as (g & Hg & Hc).
    rewrite (H k g Hg) in Hc. done.
Qed.

Lemma elem_of_envs_of fp m env : env ∈ envs_of fp m <-> is_Some (m !! (fp, env)).
Proof.
  unfold envs_of. rewrite elem_of_list_to_set, list_elem_of_fmap. split.
  - intros ([fp' e] & -> & Hin). apply elem_of_keys_where in Hin as (g & Hg & Hc). apply in_scope_all in Hc. cbn in *. subst. eauto.
  - intros [g Hg]. exists (fp, env). split; [done |]. apply elem_of_keys_where. exists g. by rewrite in_scope_all.
Qed.

Lemma envs_of_dom fp m m' : (forall k, k.1 = fp -> is_Some (m !! k) <-> is_Some (m' !! k)) -> envs_of fp m = envs_of fp m'.
Proof. intros H. apply set_eq. intros env. rewrite !elem_of_envs_of. by apply H. Qed.

Lemma first_by_elem {A} (R : A -> A -> Prop) `{!RelDecision R} l x : first_by R l = Some x -> x ∈ l.
Proof.
  unfold first_by. intros H. rewrite <- (merge_sort_Permutation R l).
  destruct (merge_sort R l); [done |]. cbn in H. injection H as <-. left.
Qed.

Lemma first_by_none {A} (R : A -> A -> Prop) `{!RelDecision R} l : first_by R l = None <-> l = [].
Proof.
  unfold first_by. assert (P := merge_sort_Permutation R l). split.
  - destruct (merge_sort R l); [| done]. intros _. by apply Permutation_nil_l in P.
  - intros ->. done.
Qed.

(** ** What the event log explains *)

Definition status_after (a : action) : ErrorGroupStatus :=
  match a with Resolved => ErrorGroupResolved | Ignored => ErrorGroupIgnored | Reopened => ErrorGroupUnresolved end.

Definition log_of (k : key) (evs : list event_row) : list event_row := filter (fun ev => ev_key ev = k) evs.

(** The status the log of a row says it has. *)
Definition logged (k : key) (evs : list event_row) : ErrorGroupStatus :=
  match last (log_of k evs) with Some ev => status_after (ev_action ev) | None => ErrorGroupUnresolved end.

Definition reopenings (k : key) (evs : list event_row) : Z := len (filter (fun ev => ev_action ev = Reopened) (log_of k evs)).

Lemma log_of_app k evs evs' : log_of k (evs ++ evs') = log_of k evs ++ log_of k evs'.
Proof. apply filter_app. Qed.

Lemma log_of_one k ev : log_of k [ev] = if decide (ev_key ev = k) then [ev] else [].
Proof. unfold log_of. rewrite filter_cons, filter_nil. done. Qed.

Lemma logged_snoc k evs ev : logged k (evs ++ [ev]) = if decide (ev_key ev = k) then status_after (ev_action ev) else logged k evs.
Proof.
  unfold logged. rewrite log_of_app, log_of_one. destruct (decide (ev_key ev = k)).
  - by rewrite last_snoc.
  - by rewrite app_nil_r.
Qed.

Lemma reopenings_snoc k evs ev : reopenings k evs <= reopenings k (evs ++ [ev]).
Proof. unfold reopenings. rewrite log_of_app, filter_app, len_app. unfold len. lia. Qed.

Lemma reopenings_reopened k evs ev : ev_key ev = k -> ev_action ev = Reopened -> reopenings k (evs ++ [ev]) = reopenings k evs + 1.
Proof.
  intros Hk Ha. unfold reopenings. rewrite log_of_app, log_of_one, decide_True by done.
  rewrite filter_app, len_app, filter_cons, decide_True by done. done.
Qed.

Lemma logged_transition ks k evs a reason now :
  logged k (evs ++ transition_events ks a reason now) = if decide (k ∈ ks) then status_after a else logged k evs.
Proof.
  revert evs. induction ks as [| k' ks IH]; intros evs; cbn [transition_events fmap list_fmap].
  { rewrite app_nil_r, decide_False; [done | apply not_elem_of_nil]. }
  change (evs ++ mkEventRow k' a reason now :: ?l) with (evs ++ ([mkEventRow k' a reason now] ++ l)).
  rewrite app_assoc. rewrite IH, logged_snoc. cbn [ev_key ev_action].
  destruct (decide (k ∈ ks)), (decide (k ∈ k' :: ks)), (decide (k' = k)); set_solver.
Qed.

Lemma reopenings_transition ks k evs a reason now : reopenings k evs <= reopenings k (evs ++ transition_events ks a reason now).
Proof. unfold reopenings. rewrite log_of_app, filter_app, len_app. unfold len. lia. Qed.

Lemma logged_none k evs : (forall ev, ev ∈ evs -> ev_key ev <> k) -> logged k evs = ErrorGroupUnresolved /\ reopenings k evs = 0.
Proof.
  intros H. assert (E : log_of k evs = []).
  { destruct (log_of k evs) as [| ev l] eqn:E; [done | exfalso].
    assert (Hin : ev ∈ log_of k evs) by (rewrite E; left). apply list_elem_of_filter in Hin as [Hk Hin]. by apply (H ev). }
  unfold logged, reopenings. by rewrite E.
Qed.

(** What holds of a database: the last event of a row explains its status, and reopenings are
    not counted twice, but in the rows of [B]; with [V], a fingerprint was seen in the
    environments it has rows in. *)
Record wf (V : Prop) (B : gset key) (d : DB) : Prop := mkWf {
  wf_status : forall k g, groups d !! k = Some g -> k ∉ B -> g_status g = logged k (events d);
  wf_counts : forall k g, groups d !! k = Some g ->
    1 <= occurrence_count g /\ 0 <= reopened_count g /\ (k ∉ B -> reopened_count g <= reopenings k (events d));
  wf_events : forall ev, ev ∈ events d -> is_Some (groups d !! ev_key ev);
  wf_impacts : forall k u i, impacts d !! (k, u) = Some i -> is_Some (groups d !! k) /\ 1 <= i_count i;
  wf_envs : V -> forall fp env g env', groups d !! (fp, env) = Some g -> is_Some (groups d !! (fp, env')) -> env' ∈ seen_in_envs g
}.

Lemma wf_empty {V B} : wf V B empty_db.
Proof. constructor; cbn; intros *; rewrite ?lookup_empty; try done; intros H; by apply not_elem_of_nil in H || inversion H. Qed.

(** ** An accepted entry *)

Lemma update_where_insert c f m (k : key) g :
  update_where c f (<[k := g]> m) = <[k := if c k g then f g else g]> (update_where c f m).
Proof.
  apply map_eq. intros k'. rewrite lookup_update_where. destruct (decide (k = k')) as [<- | Hne].
  - by rewrite !lookup_insert_eq.
  - by rewrite !lookup_insert_ne, lookup_update_where.
Qed.

Section Upsert.
Context {U : Unicode}.

(** The entries that count as an occurrence of an error. *)
Definition is_occurrence (e : Log.LogEntry) : bool :=
  negb (bool_decide (Log.ErrorFingerprint e = [])) &&
  (bool_decide (ToLower (Log.Level e) = str "error") || bool_decide (ToLower (Log.Level e) = str "fatal")).

Definition key_of (e : Log.LogEntry) : key := (Log.ErrorFingerprint e, Log.Environment e).

(** The row after an occurrence. *)
Definition occurred (e : Log.LogEntry) (old : option group) : group :=
  let ts := seconds_of (Log.Timestamp e) in
  let lastLogID := if 0 <? Log.ID e then Some (Log.ID e) else None in
  match old with Some g => seen_again ts lastLogID g | None => new_group e ts lastLogID end.

Definition reopened (g : group) : group :=
  if bool_decide (g_status g = ErrorGroupResolved)
  then with_status ErrorGroupUnresolved (reopened_count g + 1) (resolved_at g) (ignored_at g) g else g.

Definition was_resolved (k : key) (d : DB) : bool :=
  match groups d !! k with Some g => bool_decide (g_status g = ErrorGroupResolved) | None => false end.

(** The database after an upsert whose statements succeed. *)
Definition upserted (d : DB) (e : Log.LogEntry) (now : Z) : DB :=
  let k := key_of e in
  let envs := {[Log.Environment e]} ∪ envs_of (Log.ErrorFingerprint e) (groups d) in
  mkDB (update_where (fun k' _ => in_scope (Log.ErrorFingerprint e) [] k') (with_envs envs)
          (<[k := reopened (occurred e (groups d !! k))]> (groups d)))
    (if was_resolved k d then events d ++ [mkEventRow k Reopened reopen_reason now] else events d) (impacts d).

Lemma insert_or_count_groups e d : groups (insert_or_count e d) = <[key_of e := occurred e (groups d !! key_of e)]> (groups d).
Proof. unfold insert_or_count, occurred, key_of. by destruct (groups d !! _). Qed.

Lemma envs_of_insert e g m : envs_of (Log.ErrorFingerprint e) (<[key_of e := g]> m) = {[Log.Environment e]} ∪ envs_of (Log.ErrorFingerprint e) m.
Proof.
  apply set_eq. intros env. rewrite elem_of_union, elem_of_singleton, !elem_of_envs_of.
  unfold key_of. destruct (decide (env = Log.Environment e)) as [-> | Hne].
  - rewrite lookup_insert_eq. naive_solver.
  - rewrite lookup_insert_ne by congruence. naive_solver.
Qed.

Lemma status_occurred e old : g_status (occurred e old) = match old with Some g => g_status g | None => ErrorGroupUnresolved end.
Proof. by destruct old. Qed.

Lemma upsert_skips ok d e now : is_occurrence e = false -> upsertErrorGroup ok d e now = (d, Ok tt).
Proof.
  unfold is_occurrence, upsertErrorGroup. intros H. destruct (bool_decide (Log.ErrorFingerprint e = [])); [done |].
  destruct (bool_decide (ToLower _ = str "error")); [done |]. by destruct (bool_decide (ToLower _ = str "fatal")).
Qed.

Definition refreshed (d : DB) (e : Log.LogEntry) : DB := refresh_envs (Log.ErrorFingerprint e) (insert_or_count e d).

Lemma groups_refreshed d e :
  groups (refreshed d e) =
    update_where (fun k' _ => in_scope (Log.ErrorFingerprint e) [] k')
      (with_envs ({[Log.Environment e]} ∪ envs_of (Log.ErrorFingerprint e) (groups d)))
      (<[key_of e := occurred e (groups d !! key_of e)]> (groups d)).
Proof. unfold refreshed, refresh_envs, with_groups. cbn [groups]. by rewrite insert_or_count_groups, envs_of_insert. Qed.

Lemma refreshed_eq d e : refreshed d e = mkDB (groups (refreshed d e)) (events d) (impacts d).
Proof. done. Qed.

Lemma in_own_scope e : in_scope (Log.ErrorFingerprint e) [] (key_of e) = true.
Proof. by apply in_scope_all. Qed.

(** The third and fourth statements finish the work of the first two. *)
Lemma reopen_refreshed d e now :
  let k := key_of e in
  upserted d e now =
    match reopen_resolved k (refreshed d e) with
    | (d', true) => default d' (insert_event k Reopened reopen_reason now d')
    | (d', false) => d'
    end /\
  ((reopen_resolved k (refreshed d e)).2 = true ->
   is_Some (insert_event k Reopened reopen_reason now (reopen_resolved k (refreshed d e)).1)).
Proof.
  intros k. unfold reopen_resolved, upserted, was_resolved. rewrite groups_refreshed, lookup_update_where. fold k.
  set (envs := {[_]} ∪ _). set (occ := occurred e (groups d !! k)).
  rewrite lookup_insert_eq. cbn [fmap option_fmap option_map]. unfold k at 3 12. rewrite in_own_scope. cbn [with_envs g_status].
  assert (Hs : g_status occ = match groups d !! k with Some g => g_status g | None => ErrorGroupUnresolved end) by apply status_occurred.
  unfold reopened. rewrite Hs.
  destruct (groups d !! k) as [g |] eqn:Eg; [destruct (bool_decide (g_status g = ErrorGroupResolved)) eqn:Er |].
  all: cbn [fst snd]; rewrite ?update_where_insert, ?in_own_scope; fold k; cycle 1.
  1, 2: split; [| done]; rewrite refreshed_eq, groups_refreshed, update_where_insert, in_own_scope; fold k; by rewrite Eg.
  - unfold insert_event. cbn [with_groups groups]. rewrite bool_decide_true by (rewrite lookup_insert_eq; eauto).
    split; [| eauto]. cbn [default]. unfold with_events, with_groups. cbn [groups events impacts].
    rewrite insert_insert_eq. done.
Qed.

Lemma upsert_skipped e : is_occurrence e = false ->
  Log.ErrorFingerprint e = [] \/ (ToLower (Log.Level e) <> str "error" /\ ToLower (Log.Level e) <> str "fatal").
Proof.
  unfold is_occurrence. rewrite andb_false_iff, negb_false_iff, orb_false_iff, !bool_decide_eq_true, !bool_decide_eq_false. done.
Qed.

(** The four statements of an occurrence, one after the other. *)
Lemma upsert_unfold ok d e now : is_occurrence e = true ->
  upsertErrorGroup ok d e now =
    if negb (ok 0%nat) then (d, Err (Errorf "upsert error group"))
    else if negb (ok 1%nat) then (insert_or_count e d, Err (Errorf "updating seen_in_envs"))
    else if negb (ok 2%nat) then (refreshed d e, Err (Errorf "reopen check"))
    else if (reopen_resolved (key_of e) (refreshed d e)).2 && negb (ok 3%nat)
         then ((reopen_resolved (key_of e) (refreshed d e)).1, Err (Errorf "insert reopen event"))
    else (upserted d e now, Ok tt).
Proof.
  intros Hocc. destruct (reopen_refreshed d e now) as [Hup Hev]. unfold upsertErrorGroup.
  unfold is_occurrence in Hocc. apply andb_true_iff in Hocc as [Hfp Hl].
  destruct (bool_decide (Log.ErrorFingerprint e = [])); [done |].
  destruct (bool_decide (ToLower (Log.Level e) = str "error")), (bool_decide (ToLower (Log.Level e) = str "fatal")); try done.
  all: cbn [negb andb]; destruct (ok 0%nat); [cbn [negb] | done]; destruct (ok 1%nat); [cbn [negb] | done];
    destruct (ok 2%nat); [cbn [negb] | done]; fold (refreshed d e); fold (key_of e);
    destruct (reopen_resolved (key_of e) (refreshed d e)) as [d' [|]]; cbn [fst snd andb] in *; [| by rewrite Hup];
    destruct (ok 3%nat); [cbn [negb] | done]; rewrite Hup; by destruct (Hev eq_refl) as [? ->].
Qed.

Lemma upsert_ok ok d e now d' : upsertErrorGroup ok d e now = (d', Ok tt) -> is_occurrence e = true -> d' = upserted d e now.
Proof.
  intros H Hocc. rewrite (upsert_unfold _ _ _ _ Hocc) in H.
  destruct (ok 0%nat), (ok 1%nat), (ok 2%nat); try done. cbn [negb] in H. by destruct (_.2 && _); simplify_eq.
Qed.

Lemma upsert_succeeds ok d e now : (forall n, ok n = true) -> is_occurrence e = true -> upsertErrorGroup ok d e now = (upserted d e now, Ok tt).
Proof. intros H Hocc. by rewrite (upsert_unfold _ _ _ _ Hocc), !H, andb_false_r. Qed.

(** The environments an upsert writes down. *)
Definition envs_with (d : DB) (e : Log.LogEntry) : gset bytes := {[Log.Environment e]} ∪ envs_of (Log.ErrorFingerprint e) (groups d).

Lemma lookup_upserted d e now k :
  groups (upserted d e now) !! k =
    if decide (k = key_of e) then Some (with_envs (envs_with d e) (reopened (occurred e (groups d !! key_of e))))
    else if decide (k.1 = Log.ErrorFingerprint e) then with_envs (envs_with d e) <$> groups d !! k
    else groups d !! k.
Proof.
  unfold upserted. cbn [groups]. rewrite update_where_insert, in_own_scope. fold (envs_with d e).
  destruct (decide (k = key_of e)) as [-> | Hne]; [by rewrite lookup_insert_eq |].
  rewrite lookup_insert_ne by done. rewrite lookup_update_where. destruct (decide (k.1 = _)) as [Hk | Hk].
  - by apply in_scope_all in Hk as ->.
  - destruct (in_scope _ [] k) eqn:Ei; [by apply in_scope_all in Ei |]. by destruct (groups d !! k).
Qed.

(** A row after an upsert, from the row before. *)
Lemma upserted_row d e now k g : groups (upserted d e now) !! k = Some g ->
  (k = key_of e /\ g = with_envs (envs_with d e) (reopened (occurred e (groups d !! key_of e)))) \/
  (k <> key_of e /\ exists g0, groups d !! k = Some g0 /\
     g = if decide (k.1 = Log.ErrorFingerprint e) then with_envs (envs_with d e) g0 else g0).
Proof.
  rewrite lookup_upserted. destruct (decide (k = key_of e)) as [-> | Hne]; [intros [= <-]; by left |].
  right. split; [done |]. destruct (decide (k.1 = _)).
  - destruct (groups d !! k) as [g0 |]; [| done]. injection H as <-. eauto.
  - eauto.
Qed.

Lemma upserted_keys d e now k : is_Some (groups (upserted d e now) !! k) <-> k = key_of e \/ is_Some (groups d !! k).
Proof.
  rewrite lookup_upserted. destruct (decide (k = key_of e)); [naive_solver |].
  destruct (decide (k.1 = _)); rewrite ?fmap_is_Some; naive_solver.
Qed.

Lemma was_resolved_spec k d : was_resolved k d = true <-> exists g, groups d !! k = Some g /\ g_status g = ErrorGroupResolved.
Proof. unfold was_resolved. destruct (groups d !! k) as [g |]; [| naive_solver]. rewrite bool_decide_eq_true. naive_solver. Qed.

(** The row of the entry: reopened when it was resolved. *)
Lemma own_row d e :
  let g := reopened (occurred e (groups d !! key_of e)) in
  g_status g = (if was_resolved (key_of e) d then ErrorGroupUnresolved
                else match groups d !! key_of e with Some g0 => g_status g0 | None => ErrorGroupUnresolved end) /\
  occurrence_count g = match groups d !! key_of e with Some g0 => occurrence_count g0 + 1 | None => 1 end /\
  reopened_count g = match groups d !! key_of e with Some g0 => reopened_count g0 | None => 0 end +
                     (if was_resolved (key_of e) d then 1 else 0).
Proof.
  cbn zeta. unfold was_resolved, reopened, occurred. destruct (groups d !! key_of e) as [g0 |]; [| done].
  cbn [seen_again g_status]. destruct (bool_decide (g_status g0 = ErrorGroupResolved)); cbn; repeat split; lia.
Qed.

Lemma logged_upserted d e now k :
  logged k (events (upserted d e now)) =
    if decide (k = key_of e) then (if was_resolved k d then ErrorGroupUnresolved else logged k (events d)) else logged k (events d).
Proof.
  cbn [upserted events]. destruct (was_resolved (key_of e) d) eqn:Er; [rewrite logged_snoc; cbn [ev_key ev_action] |].
  - destruct (decide (key_of e = k)), (decide (k = key_of e)); subst; try done. by rewrite Er.
  - destruct (decide (k = key_of e)) as [-> |]; [by rewrite Er | done].
Qed.

Lemma reopenings_upserted d e now k :
  reopenings k (events d) <= reopenings k (events (upserted d e now)) /\
  reopenings (key_of e) (events (upserted d e now)) = reopenings (key_of e) (events d) + (if was_resolved (key_of e) d then 1 else 0).
Proof.
  cbn [upserted events]. destruct (was_resolved (key_of e) d).
  - split; [apply reopenings_snoc | by rewrite reopenings_reopened].
  - split; lia.
Qed.

Lemma no_log {V B} d k : wf V B d -> groups d !! k = None -> logged k (events d) = ErrorGroupUnresolved /\ reopenings k (events d) = 0.
Proof.
  intros W Hk. apply logged_none. intros ev Hin E. destruct (wf_events _ _ _ W ev Hin) as [g Hg]. rewrite E in Hg. congruence.
Qed.

Lemma seen_with_envs envs g : seen_in_envs (with_envs envs g) = envs.
Proof. done. Qed.

Lemma wf_upserted {V B} d e now : wf V B d -> wf V B (upserted d e now).
Proof.
  intros W. assert (Hown := own_row d e). assert (Hnone := no_log d (key_of e) W). destruct W as [Ws Wc We Wi Wv]. constructor.
  - intros k g Hg HB. rewrite logged_upserted. apply upserted_row in Hg as [[-> ->] | (Hne & g0 & Hg0 & ->)].
    + rewrite decide_True by done. cbn [with_envs g_status]. destruct Hown as (-> & _).
      destruct (was_resolved (key_of e) d); [done |].
      destruct (groups d !! key_of e) as [g0 |] eqn:Eg; [by apply Ws | symmetry; by apply Hnone].
    + rewrite (decide_False (P := k = key_of e)) by done. rewrite <- (Ws k g0 Hg0 HB). by destruct (decide (k.1 = _)).
  - intros k g Hg. destruct (reopenings_upserted d e now k) as [Hle Heq]. apply upserted_row in Hg as [[-> ->] | (Hne & g0 & Hg0 & ->)].
    + cbn [with_envs occurrence_count reopened_count]. destruct Hown as (_ & -> & ->). rewrite Heq.
      destruct (groups d !! key_of e) as [g0 |] eqn:Eg.
      * apply Wc in Eg as (? & ? & HB). destruct (was_resolved _ d); (split; [lia |]; split; [lia |]; intros ?%HB; lia).
      * destruct (Hnone eq_refl) as [_ ->]. destruct (was_resolved _ d); lia.
    + apply Wc in Hg0 as (? & ? & HB). destruct (decide _); cbn [with_envs occurrence_count reopened_count];
        (split; [lia |]; split; [lia |]; intros ?%HB; lia).
  - intros ev Hin. apply upserted_keys. cbn [upserted events] in Hin.
    destruct (was_resolved (key_of e) d); [apply elem_of_app in Hin as [Hin | Hin] |]; try (right; by apply We).
    apply list_elem_of_singleton in Hin as ->. by left.
  - intros k u i Hi. apply (Wi k u i) in Hi as [Hk Hc]. split; [| done]. apply upserted_keys. by right.
  - intros HV fp env g env' Hg Henv. apply upserted_keys in Henv. apply upserted_row in Hg as [[E ->] | (Hne & g0 & Hg0 & ->)].
    + rewrite seen_with_envs. unfold envs_with. injection E as -> ->. rewrite elem_of_union, elem_of_singleton, elem_of_envs_of.
      unfold key_of in Henv. naive_solver.
    + destruct (decide _) as [Hfp | Hfp].
      * rewrite seen_with_envs. unfold envs_with. cbn in Hfp. subst fp. rewrite elem_of_union, elem_of_singleton, elem_of_envs_of.
        unfold key_of in Henv. naive_solver.
      * apply (Wv HV fp env g0); [done |]. destruct Henv as [E | Henv]; [| done]. by injection E.
Qed.

Lemma wf_upsert {V B} ok d e now d' : wf V B d -> upsertErrorGroup ok d e now = (d', Ok tt) -> wf V B d'.
Proof.
  intros W H. destruct (is_occurrence e) eqn:Hocc.
  - rewrite (upsert_ok _ _ _ _ _ H Hocc). by apply wf_upserted.
  - rewrite upsert_skips in H by done. by injection H as <-.
Qed.

Lemma wf_upsert_loop {V B} ok clock i d entries d' : wf V B d -> upsert_loop ok clock i d entries = (d', Ok tt) -> wf V B d'.
Proof.
  revert i d. induction entries as [| e entries IH]; intros i d W H; cbn in H; [by injection H as <- |].
  destruct (upsertErrorGroup (ok i) d e (clock i)) as [d1 [[] | |]] eqn:E1; [| done..].
  apply (wf_upsert (V := V) (B := B)) in E1; [| done]. by apply IH in H.
Qed.

Lemma in_tx_wf {V B A} commits d (body : DB * result A) :
  wf V B d -> (forall a, body.2 = Ok a -> wf V B body.1) -> wf V B (in_tx commits d body).1.
Proof. intros W H. destruct body as [d' [a | |]]; cbn; [| done..]. destruct commits; [by apply (H a) | done]. Qed.

Lemma wf_batch {V B} ok clock commits d entries : wf V B d -> wf V B (UpsertBatch ok clock commits d entries).1.
Proof.
  intros W. apply in_tx_wf; [done |]. intros [] E. destruct (upsert_loop ok clock 0 d entries) as [d' r] eqn:El. cbn in E |- *. subst r.
  by apply (wf_upsert_loop (V := V) (B := B)) in El.
Qed.
End Upsert.

(** ** The other operations *)

(** Rows changed in place, in columns nothing else depends on. *)
Lemma wf_rows {V B} d d' (f : key -> group -> group) :
  wf V B d -> (forall k, groups d' !! k = f k <$> groups d !! k) -> events d' = events d -> impacts d' = impacts d ->
  (forall k g, groups d !! k = Some g -> g_status (f k g) = g_status g /\ occurrence_count (f k g) = occurrence_count g /\
     reopened_count (f k g) = reopened_count g /\ seen_in_envs (f k g) = seen_in_envs g) -> wf V B d'.
Proof.
  intros [Ws Wc We Wi Wv] Hg He Hi Hf.
  assert (Hrow : forall k g, groups d' !! k = Some g -> exists g0, groups d !! k = Some g0 /\ g_status g = g_status g0 /\
     occurrence_count g = occurrence_count g0 /\ reopened_count g = reopened_count g0 /\ seen_in_envs g = seen_in_envs g0).
  { intros k g. rewrite Hg. destruct (groups d !! k) as [g0 |] eqn:E; [| done]. intros [= <-]. apply Hf in E. eauto. }
  assert (Hkey : forall k, is_Some (groups d' !! k) <-> is_Some (groups d !! k)) by (intros k; by rewrite Hg, fmap_is_Some).
  constructor; rewrite ?He, ?Hi.
  - intros k g (g0 & Hg0 & -> & _)%Hrow. by apply Ws.
  - intros k g (g0 & Hg0 & _ & -> & -> & _)%Hrow. by apply Wc.
  - intros ev Hin. apply Hkey. by apply We.
  - intros k u i Hk. rewrite Hkey. by apply (Wi k u).
  - intros HV fp env g env' (g0 & Hg0 & _ & _ & _ & ->)%Hrow Henv. apply (Wv HV fp env g0); [done |]. by apply Hkey.
Qed.

Lemma wf_issue {V B} ok d fp env url : wf V B d -> wf V B (SetIssueURL ok d fp env url).1.
Proof.
  intros W. unfold SetIssueURL. destruct (bool_decide (url = [])); [done |]. destruct (ok 0%nat); [cbn [negb] | done].
  assert (W' : wf V B (with_groups (update_where (fun k g => in_scope fp env k && no_issue g) (with_issue url) (groups d)) d)).
  { apply (wf_rows d _ (fun k g => if in_scope fp env k && no_issue g then with_issue url g else g) W); try done.
    - intros k. apply lookup_update_where.
    - intros k g _. by destruct (in_scope fp env k && no_issue g). }
  destruct (bool_decide _); [| done]. destruct (ok 1%nat); [cbn [negb] | done]. by destruct (bool_decide _).
Qed.

Lemma wf_scores {V B} ok i d l : wf V B d -> wf V B (score_loop ok i d l).1.
Proof.
  revert i d. induction l as [| s l IH]; intros i d W; cbn [score_loop]; [done |]. destruct (ok i); [cbn [negb] | done]. apply IH.
  apply (wf_rows d _ (fun k g => if decide (sc_key s = k) then with_score (uniqueUsers s) (round2 (score s)) g else g) W); try done.
  - intros k. cbn [with_groups groups]. rewrite lookup_alter. destruct (decide (sc_key s = k)) as [-> |]; [done |]. by destruct (groups d !! k).
  - intros k g _. by destruct (decide (sc_key s = k)).
Qed.

Lemma wf_compute_scores {V B} `{Conversion} Log2 query ok now d : wf V B d -> wf V B (ComputeImpactScores Log2 query ok now d).1.
Proof. intros W. unfold ComputeImpactScores. destruct query; [| done]. by apply wf_scores. Qed.

Lemma transition_status a now g : transitions a g = true -> g_status (transition a now g) = status_after a.
Proof. by destruct a. Qed.

Lemma transition_keeps a now g : occurrence_count (transition a now g) = occurrence_count g /\
  reopened_count (transition a now g) = reopened_count g /\ seen_in_envs (transition a now g) = seen_in_envs g.
Proof. by destruct a. Qed.

(** The database after a transition that commits. *)
Definition transitioned (d : DB) (fp env : bytes) (a : action) (reason : bytes) (now : Z) : DB :=
  let c := fun k g => in_scope fp env k && transitions a g in
  mkDB (update_where c (transition a now) (groups d)) (events d ++ transition_events (keys_where c (groups d)) a reason now) (impacts d).

Lemma wf_transitioned {V B} d fp env a reason now : wf V B d -> wf V B (transitioned d fp env a reason now).
Proof.
  intros [Ws Wc We Wi Wv]. unfold transitioned. set (c := fun k g => _).
  assert (Hkey : forall k, is_Some (update_where c (transition a now) (groups d) !! k) <-> is_Some (groups d !! k))
    by (intros k; by rewrite lookup_update_where, fmap_is_Some).
  constructor; cbn [groups events impacts].
  - intros k g. rewrite lookup_update_where, logged_transition. destruct (groups d !! k) as [g0 |] eqn:E; [| done]. intros [= <-] HB.
    destruct (c k g0) eqn:Ec.
    + rewrite decide_True by (apply elem_of_keys_where; eauto). apply transition_status. by apply andb_true_iff in Ec as [_ ?].
    + rewrite decide_False; [by apply Ws |]. intros (g1 & Hg1 & Hc)%elem_of_keys_where. congruence.
  - intros k g. rewrite lookup_update_where. destruct (groups d !! k) as [g0 |] eqn:E; [| done]. intros [= <-].
    apply Wc in E as (H1 & H2 & HB). assert (Hre := reopenings_transition (keys_where c (groups d)) k (events d) a reason now).
    destruct (transition_keeps a now g0) as (Ho & Hr & _). destruct (c k g0); [rewrite Ho, Hr |];
      (split; [done |]; split; [done |]; intros ?%HB; lia).
  - intros ev. rewrite elem_of_app, Hkey. intros [Hin | Hin]; [by apply We |].
    unfold transition_events in Hin. apply list_elem_of_fmap in Hin as (k & -> & (g & Hg & _)%elem_of_keys_where). cbn. eauto.
  - intros k u i. rewrite Hkey. apply Wi.
  - intros HV fp' env' g env''. rewrite Hkey, lookup_update_where. destruct (groups d !! (fp', env')) as [g0 |] eqn:E; [| done].
    intros [= <-] Henv. destruct (transition_keeps a now g0) as (_ & _ & Hs). assert (H := Wv HV _ _ _ _ E Henv). by destruct (c _ _); rewrite ?Hs.
Qed.

Lemma wf_change {V B} ok d fp env a reason now : wf V B d -> wf V B (changeStatus ok d fp env a reason now).1.
Proof.
  intros W. unfold changeStatus. destruct ok; [cbn [negb] | done]. destruct (bool_decide _); [done |]. by apply wf_transitioned.
Qed.

Lemma lookup_pruned (c : Z) (m : gmap key group) k g :
  (m ∖ filter (fun kg : key * group => last_seen_at kg.2 < c) m) !! k = Some g <-> m !! k = Some g /\ c <= last_seen_at g.
Proof.
  rewrite lookup_difference_Some, map_lookup_filter_None. cbn. split.
  - intros [Hg [Hn | Hn]]; [congruence |]. split; [done |]. specialize (Hn g Hg). lia.
  - intros [Hg Hc]. split; [done |]. right. intros g' Hg'. assert (g' = g) as -> by congruence. lia.
Qed.

Lemma log_of_left (P : event_row -> Prop) `{!forall ev, Decision (P ev)} k evs :
  (forall ev, ev_key ev = k -> P ev) -> log_of k (filter P evs) = log_of k evs.
Proof.
  intros HP. unfold log_of. rewrite list_filter_filter. apply list_filter_iff. intros ev. split; [tauto | auto].
Qed.

Lemma wf_prune {V B} ok d now olderThan : wf V B d -> wf V B (Prune ok d now olderThan).1.
Proof.
  intros [Ws Wc We Wi Wv]. unfold Prune. destruct ok; [cbn [negb fst] | done].
  set (c := seconds_of _). set (left := groups d ∖ _).
  assert (Hrow : forall k g, left !! k = Some g -> groups d !! k = Some g) by (intros k g (? & _)%lookup_pruned; done).
  assert (Hlog : forall k g, left !! k = Some g -> log_of k (filter (fun ev => is_Some (left !! ev_key ev)) (events d)) = log_of k (events d)).
  { intros k g Hg. apply log_of_left. intros ev ->. eauto. }
  constructor; cbn [groups events impacts].
  - intros k g Hg. unfold logged. rewrite (Hlog k g Hg). by apply Ws, Hrow.
  - intros k g Hg. unfold reopenings. rewrite (Hlog k g Hg). by apply Wc, Hrow.
  - intros ev [? _]%list_elem_of_filter. done.
  - intros k u i (Hi & Hk)%map_lookup_filter_Some. cbn in Hk. split; [done |]. by apply (Wi k u).
  - intros HV fp env g env' Hg [g' Hg']. apply (Wv HV fp env g env'); [by apply Hrow |]. exists g'. by apply Hrow.
Qed.

Lemma wf_track {V B} ok d fp env u ctx id sv now : wf V B d -> wf V B (trackErrorImpact ok d fp env u ctx id sv now).1.
Proof.
  intros W. unfold trackErrorImpact. destruct (_ || _); [done |]. destruct ok; [cbn [negb] | done].
  assert (Hput : forall i, is_Some (groups d !! (fp, env)) -> 1 <= i_count i -> wf V B (with_impacts (<[((fp, env), u) := i]> (impacts d)) d)).
  { intros i Hk Hi. destruct W as [Ws Wc We Wi Wv]. constructor; cbn [with_impacts groups events impacts]; try done.
    intros k u' i'. destruct (decide (((fp, env), u) = (k, u'))) as [E | Hne].
    - injection E as <- <-. rewrite lookup_insert_eq. by intros [= <-].
    - rewrite lookup_insert_ne by done. apply Wi. }
  destruct (impacts d !! _) as [i |] eqn:Ei.
  - apply (wf_impacts _ _ d W) in Ei as [Hk Hc]. apply Hput; [done |]. cbn. lia.
  - destruct (bool_decide (is_Some _)) eqn:Eb; [| done]. apply bool_decide_eq_true in Eb. by apply Hput.
Qed.

Lemma wf_track_loop {V B} Marshal ok clock i d entries : wf V B d -> wf V B (track_loop Marshal ok clock i d entries).1.
Proof.
  revert i d. induction entries as [| e entries IH]; intros i d W; cbn [track_loop]; [done |].
  assert (W1 := wf_track (ok i) d (Log.ErrorFingerprint e) (Log.Environment e) (Log.UserID e) (Marshal (Log.Metadata e)) (Log.ID e)
                  (Log.Service e) (clock i) W).
  destruct (trackErrorImpact _ _ _ _ _ _ _ _ _) as [d1 [[] | |]]; [by apply IH | done..].
Qed.

Lemma wf_track_batch {V B} Marshal ok clock commits d entries : wf V B d -> wf V B (TrackImpactBatch Marshal ok clock commits d entries).1.
Proof.
  intros W. apply in_tx_wf; [done |]. intros [] _. by apply wf_track_loop.
Qed.

(** ** Reachable databases *)

Section Reachable.
Context {U : Unicode} {K : Conversion}.

(** One operation of the stores that keeps every row consistent, whatever fails in it; a single
    upsert, which runs outside a transaction, is one when it succeeds ([any_step] has the others). *)
Inductive step : DB -> DB -> Prop :=
| step_upsert ok d e now d' : upsertErrorGroup ok d e now = (d', Ok tt) -> step d d'
| step_upsert_batch ok clock commits d entries : step d (UpsertBatch ok clock commits d entries).1
| step_status ok d fp env a reason now : step d (changeStatus ok d fp env a reason now).1
| step_prune ok d now olderThan : step d (Prune ok d now olderThan).1
| step_issue ok d fp env url : step d (SetIssueURL ok d fp env url).1
| step_track ok d fp env user ctx id service now : step d (trackErrorImpact ok d fp env user ctx id service now).1
| step_track_batch Marshal ok clock commits d entries : step d (TrackImpactBatch Marshal ok clock commits d entries).1
| step_scores Log2 query ok now d : step d (ComputeImpactScores Log2 query ok now d).1.

Definition reachable (d : DB) : Prop := rtc step empty_db d.

Lemma step_wf {V B} d d' : step d d' -> wf V B d -> wf V B d'.
Proof.
  intros [] W; eauto using wf_upsert, wf_batch, wf_change, wf_prune, wf_issue, wf_track, wf_track_batch, wf_compute_scores.
Qed.

Lemma reachable_wf d : reachable d -> wf True ∅ d.
Proof.
  intros H. unfold reachable in H. apply (rtc_ind_r (wf True ∅) empty_db wf_empty) in H; [done |].
  intros d1 d2 _ Hs W. by apply (step_wf d1).
Qed.

(** An upsert that failed in between left the row reopened without the event. *)
Definition left_unexplained (d : DB) (e : Log.LogEntry) (d' : DB) : gset key :=
  if was_resolved (key_of e) d && negb (was_resolved (key_of e) d') then {[key_of e]} else ∅.

(** One operation of the stores, whatever fails in it: the single upserts that fail included,
    which run outside a transaction.  Beside the database, the rows a failed upsert reopened
    without the event. *)
Inductive any_step : DB * gset key -> DB * gset key -> Prop :=
| any_operation d d' B : step d d' -> any_step (d, B) (d', B)
| any_failed_upsert ok d e now d' err B :
    upsertErrorGroup ok d e now = (d', Err err) -> any_step (d, B) (d', B ∪ left_unexplained d e d').

Lemma wf_wider {V : Prop} {B : gset key} (B' : gset key) d : B ⊆ B' -> wf V B d -> wf False B' d.
Proof.
  intros HB [Ws Wc We Wi _]. split; [| | done | done | done].
  - intros k g Hg Hk. apply Ws; set_solver.
  - intros k g (H1 & H2 & H3)%Wc. split; [done |]. split; [done |]. intros Hk. apply H3. set_solver.
Qed.

(** The rows after an upsert that failed, from the rows before: outside [X], only the counts of
    occurrences moved. *)
Definition row_grown (X : gset key) (k : key) (old new : option group) : Prop :=
  match new with
  | Some g => 1 <= occurrence_count g /\ match old with Some g0 => reopened_count g0 <= reopened_count g | None => 0 <= reopened_count g end /\
      (k ∉ X -> match old with
                | Some g0 => g_status g = g_status g0 /\ reopened_count g = reopened_count g0
                | None => g_status g = ErrorGroupUnresolved /\ reopened_count g = 0
                end)
  | None => old = None
  end.

Lemma wf_grown {V : Prop} {B : gset key} (X : gset key) d m :
  wf V B d -> (forall k, row_grown X k (groups d !! k) (m !! k)) -> wf False (B ∪ X) (with_groups m d).
Proof.
  intros W Hm. assert (Hkey : forall k, is_Some (groups d !! k) -> is_Some (m !! k)).
  { intros k [g Hg]. specialize (Hm k). rewrite Hg in Hm. destruct (m !! k); [eauto | done]. }
  pose proof W as [Ws Wc We Wi _]. split; cbn [with_groups groups events impacts]; [| | | | done].
  - intros k g Hg HB. specialize (Hm k). rewrite Hg in Hm. destruct Hm as (_ & _ & Hk). specialize (Hk ltac:(set_solver)).
    destruct (groups d !! k) as [g0 |] eqn:E0; destruct Hk as [-> _]; [apply Ws; [done | set_solver] |].
    symmetry. by apply (no_log d k W).
  - intros k g Hg. specialize (Hm k). rewrite Hg in Hm. destruct Hm as (H1 & H2 & Hk). split; [done |].
    destruct (groups d !! k) as [g0 |] eqn:E0.
    + destruct (Wc _ _ E0) as (_ & H3 & H4). split; [lia |]. intros HB. destruct Hk as [_ ->]; [set_solver | apply H4; set_solver].
    + split; [done |]. intros HB. destruct Hk as [_ ->]; [set_solver |]. unfold reopenings, len. lia.
  - intros ev Hin. by apply Hkey, We.
  - intros k u i Hi. destruct (Wi k u i Hi). by split; [apply Hkey |].
Qed.

Lemma grown_same {V : Prop} {B : gset key} d k X : wf V B d -> row_grown X k (groups d !! k) (groups d !! k).
Proof. intros W. destruct (groups d !! k) as [g |] eqn:E; [| done]. destruct (wf_counts _ _ _ W k g E). by repeat split. Qed.

Lemma grown_counted {V : Prop} {B : gset key} d e k X : wf V B d -> row_grown X k (groups d !! k) (groups (insert_or_count e d) !! k).
Proof.
  intros W. rewrite insert_or_count_groups. destruct (decide (key_of e = k)) as [<- | Hne].
  - rewrite lookup_insert_eq. unfold occurred. destruct (groups d !! key_of e) as [g |] eqn:E; cbn; [| done].
    destruct (wf_counts _ _ _ W _ _ E). repeat split; lia.
  - rewrite lookup_insert_ne by done. by apply (grown_same (V := V) (B := B)).
Qed.

Lemma grown_envs X k old new (c : bool) envs :
  row_grown X k old new -> row_grown X k old ((fun g => if c then with_envs envs g else g) <$> new).
Proof. destruct c; [| by destruct new]. by destruct new, old. Qed.

Lemma grown_refreshed {V : Prop} {B : gset key} d e k X : wf V B d -> row_grown X k (groups d !! k) (groups (refreshed d e) !! k).
Proof.
  intros W. assert (H := grown_counted d e k X W). rewrite insert_or_count_groups in H.
  rewrite groups_refreshed, lookup_update_where. by apply (grown_envs X k _ _ (in_scope _ _ k)).
Qed.

Lemma grown_reopened {V : Prop} {B : gset key} d e k : wf V B d ->
  row_grown {[key_of e]} k (groups d !! k) (groups (reopen_resolved (key_of e) (refreshed d e)).1 !! k).
Proof.
  intros W. assert (H := grown_refreshed d e k {[key_of e]} W). unfold reopen_resolved.
  destruct (groups (refreshed d e) !! key_of e) as [g |] eqn:E; [| done]. destruct (bool_decide _); [| done]. cbn [fst with_groups groups].
  destruct (decide (key_of e = k)) as [<- | Hne]; [| by rewrite lookup_insert_ne]. rewrite lookup_insert_eq. rewrite E in H.
  destruct H as (H1 & H2 & _). split; [done |]. split; [| set_solver]. cbn. destruct (groups d !! key_of e); lia.
Qed.

(** The third statement alone. *)
Lemma reopen_shape d e : (reopen_resolved (key_of e) (refreshed d e)).2 = true ->
  let d' := (reopen_resolved (key_of e) (refreshed d e)).1 in
  d' = with_groups (groups d') d /\ was_resolved (key_of e) d = true /\ was_resolved (key_of e) d' = false.
Proof.
  unfold reopen_resolved. destruct (groups (refreshed d e) !! key_of e) as [g |] eqn:E; [| done].
  destruct (bool_decide _) eqn:Eb; [| done]. intros _. cbn [fst]. split; [done |].
  rewrite groups_refreshed, lookup_update_where, lookup_insert_eq, in_own_scope in E. injection E as <-.
  apply bool_decide_eq_true in Eb. cbn [with_envs g_status] in Eb. rewrite status_occurred in Eb.
  unfold was_resolved. cbn [with_groups groups]. rewrite lookup_insert_eq. split; [| done].
  destruct (groups d !! key_of e); [by apply bool_decide_eq_true | done].
Qed.

Lemma wf_failed_upsert {V : Prop} {B : gset key} ok d e now d' err :
  wf V B d -> upsertErrorGroup ok d e now = (d', Err err) -> wf False (B ∪ left_unexplained d e d') d'.
Proof.
  intros W H. destruct (is_occurrence e) eqn:Hocc; [| by rewrite upsert_skips in H].
  assert (Hwide : forall m X, (forall k, row_grown X k (groups d !! k) (m !! k)) -> X ⊆ left_unexplained d e (with_groups m d) ->
    wf False (B ∪ left_unexplained d e (with_groups m d)) (with_groups m d)).
  { intros m X Hm HX. apply (wf_wider (V := False) (B := B ∪ X)); [set_solver |]. by apply (wf_grown (V := V)). }
  rewrite (upsert_unfold _ _ _ _ Hocc) in H.
  destruct (ok 0%nat); cbn [negb] in H; [| injection H as <- _; apply (wf_wider (V := V) (B := B)); [set_solver | done]].
  destruct (ok 1%nat); cbn [negb] in H; [| injection H as <- _; apply (Hwide _ ∅); [intros k; by apply (grown_counted (V := V) (B := B)) | set_solver]].
  destruct (ok 2%nat); cbn [negb] in H; [| injection H as <- _; apply (Hwide _ ∅); [intros k; by apply (grown_refreshed (V := V) (B := B)) | set_solver]].
  destruct (_.2) eqn:E2; cbn [andb] in H; [| done]. destruct (ok 3%nat); cbn [negb] in H; [done |]. injection H as <- _.
  destruct (reopen_shape d e E2) as [Es Hs]. rewrite Es. apply (Hwide _ {[key_of e]}).
  - intros k. by apply (grown_reopened (V := V) (B := B)).
  - rewrite <- Es. unfold left_unexplained. by destruct Hs as [-> ->].
Qed.

Lemma any_wf (p : DB * gset key) : rtc any_step (empty_db, ∅) p -> wf False p.2 p.1.
Proof.
  revert p. apply (rtc_ind_r (fun p => wf False p.2 p.1) (empty_db, ∅)); [apply wf_empty |]. intros p1 p2 _ Hs W.
  destruct Hs as [d d' B Hs | ok d e now d' err B E]; cbn [fst snd] in *; [by apply (step_wf d) | by apply (wf_failed_upsert ok d e now d' err W)].
Qed.

(** The runs without a failed single upsert are runs. *)
Lemma reachable_any d : reachable d -> rtc any_step (empty_db, ∅) (d, ∅).
Proof. intros H. induction H as [d | d1 d2 d3 Hs _ IH]; [apply rtc_refl |]. eapply rtc_l; [by apply any_operation | exact IH]. Qed.

End Reachable.

(** ** Environments are isolated *)

(** [d] and [d'] agree on every environment but [env], up to the list of the environments a
    fingerprint was seen in. *)
Definition same_elsewhere (env : bytes) (d d' : DB) : Prop :=
  forall k : key, k.2 <> env ->
    with_envs ∅ <$> groups d !! k = with_envs ∅ <$> groups d' !! k /\
    log_of k (events d) = log_of k (events d') /\
    forall u, impacts d !! (k, u) = impacts d' !! (k, u).

#[export] Instance same_elsewhere_equiv env : Equivalence (same_elsewhere env).
Proof.
  split.
  - intros d k _. done.
  - intros d d' H k Hk. destruct (H k Hk) as (Hg & He & Hi). repeat split; [done | done |]. intros u. by rewrite Hi.
  - intros d d' d'' H H' k Hk. destruct (H k Hk) as (Hg & He & Hi), (H' k Hk) as (Hg' & He' & Hi').
    repeat split; [congruence | congruence |]. intros u. by rewrite Hi, Hi'.
Qed.

Lemma elsewhere_not_in_scope fp env (k : key) : env <> [] -> k.2 <> env -> in_scope fp env k = false.
Proof. intros He Hk. apply not_true_is_false. rewrite in_scope_spec. naive_solver. Qed.

Section Isolation.
Context {U : Unicode}.

Lemma upserted_elsewhere d e now : same_elsewhere (Log.Environment e) d (upserted d e now).
Proof.
  intros k Hk. assert (Hne : k <> key_of e) by (intros ->; by apply Hk). split; [| split; [| done]].
  - rewrite lookup_upserted, decide_False by done. destruct (decide (k.1 = _)); [| done]. by destruct (groups d !! k).
  - cbn [upserted events]. destruct (was_resolved (key_of e) d); [| done].
    rewrite log_of_app, log_of_one, decide_False, app_nil_r; [done | by intros <-].
Qed.

Lemma upsert_loop_elsewhere ok clock i d entries d' env :
  Forall (fun e => Log.Environment e = env) entries -> upsert_loop ok clock i d entries = (d', Ok tt) -> same_elsewhere env d d'.
Proof.
  intros HF. revert i d. induction HF as [| e entries He HF IH]; intros i d H; cbn in H; [by injection H as <- |].
  destruct (upsertErrorGroup (ok i) d e (clock i)) as [d1 [[] | |]] eqn:E1; [| done..].
  etrans; [| by apply (IH (S i) d1)]. destruct (is_occurrence e) eqn:Hocc.
  - rewrite (upsert_ok _ _ _ _ _ E1 Hocc), <- He. apply upserted_elsewhere.
  - rewrite upsert_skips in E1 by done. by injection E1 as <-.
Qed.

Lemma in_tx_elsewhere {A} env commits d (body : DB * result A) :
  (forall a, body.2 = Ok a -> same_elsewhere env d body.1) -> same_elsewhere env d (in_tx commits d body).1.
Proof. intros H. destruct body as [d' [a | |]]; cbn; [| done..]. destruct commits; [by apply (H a) | done]. Qed.

Lemma batch_elsewhere env ok clock commits d entries :
  Forall (fun e => Log.Environment e = env) entries -> same_elsewhere env d (UpsertBatch ok clock commits d entries).1.
Proof.
  intros HF. apply in_tx_elsewhere. intros [] E. destruct (upsert_loop ok clock 0 d entries) as [d' r] eqn:El. cbn in E |- *. subst r.
  by apply (upsert_loop_elsewhere ok clock 0 d entries).
Qed.

Lemma track_elsewhere ok d fp env u ctx id sv now : same_elsewhere env d (trackErrorImpact ok d fp env u ctx id sv now).1.
Proof.
  unfold trackErrorImpact. destruct (_ || _); [done |]. destruct ok; [cbn [negb] | done].
  assert (Hput : forall i, same_elsewhere env d (with_impacts (<[((fp, env), u) := i]> (impacts d)) d)).
  { intros i k Hk. repeat split. intros u'. cbn [with_impacts impacts]. rewrite lookup_insert_ne; [done |]. intros E. apply Hk. by injection E as <-. }
  destruct (impacts d !! _); [apply Hput |]. by destruct (bool_decide _); [apply Hput |].
Qed.

Lemma track_batch_elsewhere Marshal env ok clock commits d entries :
  Forall (fun e => Log.Environment e = env) entries -> same_elsewhere env d (TrackImpactBatch Marshal ok clock commits d entries).1.
Proof.
  intros HF. apply in_tx_elsewhere. intros [] _. revert d. generalize 0%nat. induction HF as [| e entries He HF IH]; intros i d; cbn [track_loop]; [done |].
  assert (H1 := track_elsewhere (ok i) d (Log.ErrorFingerprint e) (Log.Environment e) (Log.UserID e) (Marshal (Log.Metadata e)) (Log.ID e)
                  (Log.Service e) (clock i)).
  destruct (trackErrorImpact _ _ _ _ _ _ _ _ _) as [d1 [[] | |]]; cbn [fst] in H1; rewrite He in H1; [| done..].
  etrans; [exact H1 | apply IH].
Qed.

Lemma update_elsewhere d fp env (c : group -> bool) f : env <> [] ->
  same_elsewhere env d (with_groups (update_where (fun k g => in_scope fp env k && c g) f (groups d)) d).
Proof.
  intros He k Hk. repeat split. cbn [with_groups groups]. rewrite lookup_update_where, (elsewhere_not_in_scope fp env k) by done.
  by destruct (groups d !! k).
Qed.

Lemma issue_elsewhere ok d fp env url : env <> [] -> same_elsewhere env d (SetIssueURL ok d fp env url).1.
Proof.
  intros He. unfold SetIssueURL. destruct (bool_decide (url = [])); [done |]. destruct (ok 0%nat); [cbn [negb] | done].
  assert (H := update_elsewhere d fp env no_issue (with_issue url) He).
  destruct (bool_decide _); [| done]. destruct (ok 1%nat); [cbn [negb] | done]. by destruct (bool_decide _).
Qed.

Lemma change_elsewhere ok d fp env a reason now : env <> [] -> same_elsewhere env d (changeStatus ok d fp env a reason now).1.
Proof.
  intros He. unfold changeStatus. destruct ok; [cbn [negb] | done]. destruct (bool_decide _); [done |]. cbn [fst].
  intros k Hk. destruct (update_elsewhere d fp env (transitions a) (transition a now) He k Hk) as (Hg & _). split; [exact Hg |]. split; [| done].
  cbn [events]. rewrite log_of_app. assert (E : log_of k (transition_events (keys_where (fun k g => in_scope fp env k && transitions a g) (groups d)) a reason now) = []).
  { destruct (log_of k _) as [| ev l] eqn:E; [done | exfalso]. assert (Hin : ev ∈ ev :: l) by left. rewrite <- E in Hin.
    apply list_elem_of_filter in Hin as [<- (k' & -> & Hin)%list_elem_of_fmap]. cbn in Hk.
    apply elem_of_keys_where in Hin as (g & _ & Hc). rewrite elsewhere_not_in_scope in Hc; done. }
  by rewrite E, app_nil_r.
Qed.
End Isolation.

(** What an operation on behalf of one environment can be. *)
Inductive scoped_step `{Unicode} (env : bytes) : DB -> DB -> Prop :=
| scoped_upsert_batch ok clock commits d entries :
    Forall (fun e => Log.Environment e = env) entries -> scoped_step env d (UpsertBatch ok clock commits d entries).1
| scoped_track_batch Marshal ok clock commits d entries :
    Forall (fun e => Log.Environment e = env) entries -> scoped_step env d (TrackImpactBatch Marshal ok clock commits d entries).1
| scoped_status ok d fp a reason now : scoped_step env d (changeStatus ok d fp env a reason now).1
| scoped_issue ok d fp url : scoped_step env d (SetIssueURL ok d fp env url).1.

(** C33: Whatever is done on behalf of one environment, and however many times, changes nothing of
    any other: not a column of a row but the list of environments its fingerprint was seen in,
    not an event, not an affected user. *)
Theorem environments_isolated `{Unicode} (env : bytes) (d d' : DB) :
  env <> [] -> rtc (scoped_step env) d d' -> same_elsewhere env d d'.
Proof.
  intros He. induction 1 as [d | d d1 d' Hs _ IH]; [done |]. etrans; [| exact IH].
  destruct Hs; eauto using batch_elsewhere, track_batch_elsewhere, change_elsewhere, issue_elsewhere.
Qed.

(** C32: After any sequence of operations, failed or not, single upserts included: the last event
    of a row explains its status and no more reopenings are counted than were recorded, except
    in the rows that a failed single upsert, which runs outside a transaction, reopened without
    the event ([reopened_without_event]); and no event or user is left without its row. *)
Theorem status_explained `{Unicode, Conversion} (d : DB) (unexplained : gset key) :
  rtc any_step (empty_db, ∅) (d, unexplained) ->
  (forall k g, groups d !! k = Some g ->
     1 <= occurrence_count g /\ 0 <= reopened_count g /\
     (k ∉ unexplained -> g_status g = logged k (events d) /\ reopened_count g <= reopenings k (events d))) /\
  (forall ev, ev ∈ events d -> is_Some (groups d !! ev_key ev)) /\
  (forall k u i, impacts d !! (k, u) = Some i -> is_Some (groups d !! k)).
Proof.
  intros [Ws Wc We Wi _]%any_wf. cbn [fst snd] in *. split; [| split; [done |]].
  - intros k g Hg. destruct (Wc k g Hg) as (H1 & H2 & H3). split; [done |]. split; [done |]. intros Hk. split; [by apply Ws | by apply H3].
  - intros k u i Hi. by apply (Wi k u i).
Qed.

(** ** Transitions *)

Lemma transitions_spec a g : transitions a g = true <-> g_status g <> status_after a.
Proof.
  destruct a; cbn; rewrite ?negb_true_iff, ?orb_true_iff, ?bool_decide_eq_false, ?bool_decide_eq_true; [done | done |].
  destruct (g_status g); naive_solver.
Qed.

Lemma update_where_none c f m : (forall (k : key) g, m !! k = Some g -> c k g = false) -> update_where c f m = m.
Proof. intros H. apply map_eq. intros k. rewrite lookup_update_where. destruct (m !! k) as [g |] eqn:E; [| done]. cbn. by rewrite (H k g E). Qed.

(** The rows a call names. *)
Definition named (fp env : bytes) (d : DB) (k : key) : Prop := in_scope fp env k = true /\ is_Some (groups d !! k).

Lemma none_named fp env d : keys_where (fun k _ => in_scope fp env k) (groups d) = [] <-> forall k, ~ named fp env d k.
Proof.
  rewrite keys_where_nil. split.
  - intros H k [Hk [g Hg]]. rewrite (H k g Hg) in Hk. done.
  - intros H k g Hg. apply not_true_is_false. intros Hk. apply (H k). split; eauto.
Qed.

Lemma changed d fp env a reason now k0 : named fp env d k0 ->
  changeStatus true d fp env a reason now = (transitioned d fp env a reason now, Ok tt).
Proof.
  intros Hk. unfold changeStatus. cbn [negb]. rewrite bool_decide_false; [done |]. rewrite none_named. intros H. by apply (H k0).
Qed.

Lemma lookup_transitioned d fp env a reason now k :
  groups (transitioned d fp env a reason now) !! k =
    (fun g => if in_scope fp env k && transitions a g then transition a now g else g) <$> groups d !! k.
Proof. unfold transitioned. cbn [groups]. by rewrite lookup_update_where. Qed.

Lemma named_transitioned d fp env a reason now k : named fp env (transitioned d fp env a reason now) k <-> named fp env d k.
Proof. unfold named. by rewrite lookup_transitioned, fmap_is_Some. Qed.

Lemma transitioned_noop d fp env a reason now :
  (forall (k : key) g, groups d !! k = Some g -> in_scope fp env k && transitions a g = false) -> transitioned d fp env a reason now = d.
Proof.
  intros Hno. unfold transitioned. rewrite update_where_none by done. apply keys_where_nil in Hno as ->. cbn. rewrite app_nil_r. by destruct d.
Qed.

Lemma transitioned_again d fp env a reason now reason' now' :
  let d' := transitioned d fp env a reason now in transitioned d' fp env a reason' now' = d'.
Proof.
  intros d'. apply transitioned_noop. intros k g. unfold d'. rewrite lookup_transitioned.
  destruct (groups d !! k) as [g0 |]; [| done]. intros [= <-].
  destruct (in_scope fp env k); [cbn [andb] | done]. destruct (transitions a g0) eqn:Et; [| done].
  apply not_true_is_false. rewrite transitions_spec, transition_status; [congruence | done].
Qed.

(** C34: A transition is refused only when it names no row; otherwise every row it names ends in the
    target state, one that was already there is left exactly as it was, every other row is
    untouched, each row that changed has one new event, and repeating the call changes nothing. *)
Theorem transition_exact (d : DB) (fp env : bytes) (a : action) (reason : bytes) (now : Z) :
  let r := changeStatus true d fp env a reason now in
  let d' := r.1 in
  ((exists k, named fp env d k) -> r.2 = Ok tt) /\
  ((forall k, ~ named fp env d k) -> r = (d, Err ErrNotFound)) /\
  (forall k g, groups d !! k = Some g -> exists g', groups d' !! k = Some g' /\
     (in_scope fp env k = true -> g_status g' = status_after a) /\
     (in_scope fp env k = false \/ g_status g = status_after a -> g' = g)) /\
  (exists l, events d' = events d ++ l /\ NoDup (ev_key <$> l) /\ forall ev, ev ∈ l <->
     exists g, ev = mkEventRow (ev_key ev) a reason now /\ groups d !! ev_key ev = Some g /\
       in_scope fp env (ev_key ev) = true /\ g_status g <> status_after a) /\
  (forall reason' now', changeStatus true d' fp env a reason' now' = r).
Proof.
  destruct (keys_where (fun k _ => in_scope fp env k) (groups d)) as [| k0 ks] eqn:Ek.
  - assert (E : forall reason now, changeStatus true d fp env a reason now = (d, Err ErrNotFound)).
    { intros. unfold changeStatus. by rewrite Ek. }
    rewrite E. cbn [fst snd]. assert (Hno := proj1 (none_named fp env d) Ek). split; [intros [k Hk]; by destruct (Hno k) |].
    split; [done |]. split; [| split; [| done]].
    + intros k g Hg. exists g. split; [done |]. split; [| done]. intros Hk. destruct (Hno k). split; eauto.
    + exists []. rewrite app_nil_r. split; [done |]. split; [constructor |]. intros ev. split; [by intros ?%not_elem_of_nil |].
      intros (g & _ & Hg & Hk & _). destruct (Hno (ev_key ev)). split; eauto.
  - assert (Hk0 : named fp env d k0).
    { assert (Hin : k0 ∈ k0 :: ks) by left. rewrite <- Ek in Hin. apply elem_of_keys_where in Hin as (g & Hg & Hs). split; eauto. }
    rewrite (changed d fp env a reason now k0 Hk0). cbn [fst snd]. split; [done |]. split; [intros H; by destruct (H k0) |]. split; [| split].
    + intros k g Hg. rewrite lookup_transitioned, Hg. cbn. eexists. split; [done |].
      destruct (in_scope fp env k); cbn [andb]; [| done]. destruct (transitions a g) eqn:Et; rewrite ?transition_status by done.
      * apply transitions_spec in Et. split; [done | naive_solver].
      * apply not_true_iff_false in Et. rewrite transitions_spec in Et. split; [intros _; by apply dec_stable | done].
    + eexists. split; [done |]. unfold transition_events. split.
      * rewrite <- list_fmap_compose. cbn. rewrite list_fmap_id. apply NoDup_keys_where.
      * intros ev. rewrite list_elem_of_fmap. split.
        -- intros (k & -> & (g & Hg & [Hk Ht]%andb_true_iff)%elem_of_keys_where). cbn. exists g. by apply transitions_spec in Ht.
        -- intros (g & E & Hg & Hk & Ht%transitions_spec). exists (ev_key ev). split; [exact E |]. apply elem_of_keys_where. exists g. by rewrite Hk.
    + intros reason' now'. rewrite (changed _ _ _ _ _ _ k0) by (by apply named_transitioned). by rewrite transitioned_again.
Qed.

(** ** What a stored batch leaves behind *)

Section Batch.
Context {U : Unicode} {M : MD5} {D : MapDecoder}.

(** The entries of a row, and of a user of it. *)
Definition is_for (k : key) (e : Log.LogEntry) : bool := bool_decide (key_of e = k) && is_occurrence e.

Definition is_hit (k : key) (u : bytes) (e : Log.LogEntry) : bool :=
  bool_decide (key_of e = k) && bool_decide (Log.UserID e = u) && negb (bool_decide (Log.ErrorFingerprint e = [])) && negb (bool_decide (u = [])).

Definition tally (c : Log.LogEntry -> bool) (entries : list Log.LogEntry) : Z := len (filter (fun e => c e = true) entries).

Definition occurrences_of (k : key) (d : DB) : Z := match groups d !! k with Some g => occurrence_count g | None => 0 end.
Definition status_of (k : key) (d : DB) : ErrorGroupStatus := match groups d !! k with Some g => g_status g | None => ErrorGroupUnresolved end.
Definition hits_of (k : key) (u : bytes) (d : DB) : Z := match impacts d !! (k, u) with Some i => i_count i | None => 0 end.

(** An occurrence reopens what was resolved, and nothing else. *)
Definition after_occurrence (s : ErrorGroupStatus) : ErrorGroupStatus :=
  match s with ErrorGroupResolved => ErrorGroupUnresolved | _ => s end.

Lemma tally_cons c e entries : tally c (e :: entries) = (if c e then 1 else 0) + tally c entries.
Proof. unfold tally. rewrite filter_cons. destruct (c e) eqn:Ec; [rewrite (decide_True (P := true = true)) by done; rewrite len_cons; lia | done]. Qed.

Lemma is_for_true k e : is_occurrence e = true -> is_for k e = bool_decide (key_of e = k).
Proof. unfold is_for. intros ->. apply andb_true_r. Qed.

Lemma is_for_false k e : is_occurrence e = false -> is_for k e = false.
Proof. unfold is_for. intros ->. apply andb_false_r. Qed.

Lemma tally_nonneg c entries : 0 <= tally c entries.
Proof. unfold tally, len. lia. Qed.

Lemma occurrences_upserted d e now k :
  occurrences_of k (upserted d e now) = occurrences_of k d + (if bool_decide (key_of e = k) then 1 else 0) /\
  status_of k (upserted d e now) = (if bool_decide (key_of e = k) then after_occurrence (status_of k d) else status_of k d).
Proof.
  unfold occurrences_of, status_of. rewrite lookup_upserted. destruct (own_row d e) as (Hs & Ho & _).
  destruct (decide (k = key_of e)) as [-> | Hne].
  - rewrite bool_decide_true by done. cbn [with_envs occurrence_count g_status]. rewrite Ho, Hs. unfold was_resolved.
    destruct (groups d !! key_of e) as [g |]; [| done]. split; [done |]. by destruct (g_status g).
  - rewrite bool_decide_false by congruence. destruct (decide (k.1 = _)), (groups d !! k); cbn; split; lia || done.
Qed.

Lemma upsert_loop_tallies ok clock i d entries : (forall i n, ok i n = true) ->
  exists d', upsert_loop ok clock i d entries = (d', Ok tt) /\ impacts d' = impacts d /\ forall k,
    occurrences_of k d' = occurrences_of k d + tally (is_for k) entries /\
    status_of k d' = (if 0 <? tally (is_for k) entries then after_occurrence (status_of k d) else status_of k d) /\
    (is_Some (groups d' !! k) <-> is_Some (groups d !! k) \/ 0 < tally (is_for k) entries).
Proof.
  intros Hok. revert i d. induction entries as [| e entries IH]; intros i d; cbn [upsert_loop].
  { exists d. split; [done |]. split; [done |]. intros k. change (tally (is_for k) []) with 0. cbn. intuition lia. }
  destruct (is_occurrence e) eqn:Hocc.
  - rewrite upsert_succeeds by auto. destruct (IH (S i) (upserted d e (clock i))) as (d' & -> & Himp & Hk). exists d'. split; [done |]. split; [done |].
    intros k. destruct (Hk k) as (Hn & Hs & Hd), (occurrences_upserted d e (clock i) k) as [Hn' Hs'].
    rewrite tally_cons. assert (Hp := tally_nonneg (is_for k) entries). rewrite Hn, Hs, Hd, Hn', Hs', upserted_keys.
    rewrite is_for_true by done. destruct (bool_decide (key_of e = k)) eqn:Eb; rewrite ?bool_decide_eq_true, ?bool_decide_eq_false in Eb.
    + rewrite (proj2 (Z.ltb_lt 0 (1 + _))) by lia. split; [lia |]. split; [destruct (0 <? _); [by destruct (status_of k d) | done] |].
      split; [intros _; right; lia | intros _; by left; left].
    + split; [lia |]. split; [done |]. assert (k <> key_of e) by congruence. intuition lia.
  - rewrite upsert_skips by done. destruct (IH (S i) d) as (d' & -> & Himp & Hk). exists d'. split; [done |]. split; [done |].
    intros k. rewrite tally_cons, is_for_false by done. apply Hk.
Qed.

Lemma hits_insert k u i (d : DB) k' u' :
  hits_of k' u' (with_impacts (<[(k, u) := i]> (impacts d)) d) = if bool_decide ((k, u) = (k', u')) then i_count i else hits_of k' u' d.
Proof.
  unfold hits_of. cbn [with_impacts impacts]. destruct (bool_decide ((k, u) = (k', u'))) eqn:E.
  - apply bool_decide_eq_true in E as [= <- <-]. by rewrite lookup_insert_eq.
  - apply bool_decide_eq_false in E. by rewrite lookup_insert_ne.
Qed.

Lemma track_tallies ok d fp env user ctx id service now : ok = true -> (fp <> [] -> is_Some (groups d !! (fp, env))) ->
  exists d', trackErrorImpact ok d fp env user ctx id service now = (d', Ok tt) /\ groups d' = groups d /\ events d' = events d /\
    forall k u, hits_of k u d' = hits_of k u d +
      (if bool_decide ((fp, env) = k) && bool_decide (user = u) && negb (bool_decide (fp = [])) && negb (bool_decide (u = [])) then 1 else 0).
Proof.
  intros -> Hfk. unfold trackErrorImpact. destruct (bool_decide (fp = [])) eqn:Ef; cbn [orb negb].
  { exists d. repeat split. intros k u. rewrite andb_false_r. cbn [andb]. lia. }
  apply bool_decide_eq_false in Ef. destruct (bool_decide (user = [])) eqn:Eu; cbn [orb].
  { exists d. repeat split. intros k u. apply bool_decide_eq_true in Eu as ->.
    destruct (bool_decide ([] = u)) eqn:E; [apply bool_decide_eq_true in E as <-; cbn |]; rewrite !andb_false_r; cbn; lia. }
  apply bool_decide_eq_false in Eu.
  assert (Hput : forall i, hits_of (fp, env) user d + 1 = i_count i -> exists d',
            (with_impacts (<[((fp, env), user) := i]> (impacts d)) d, Ok tt) = (d', @Ok unit tt) /\ groups d' = groups d /\ events d' = events d /\
            forall k u, hits_of k u d' = hits_of k u d +
              (if bool_decide ((fp, env) = k) && bool_decide (user = u) && true && negb (bool_decide (u = [])) then 1 else 0)).
  { intros i Hi. eexists. split; [done |]. repeat split. intros k u. rewrite hits_insert.
    destruct (bool_decide (((fp, env), user) = (k, u))) eqn:E.
    - apply bool_decide_eq_true in E as [= <- <-]. rewrite !bool_decide_true, bool_decide_false by done. cbn. lia.
    - apply bool_decide_eq_false in E. destruct (bool_decide ((fp, env) = k)) eqn:E1, (bool_decide (user = u)) eqn:E2; cbn; try lia.
      apply bool_decide_eq_true in E1 as <-, E2 as <-. done. }
  destruct (impacts d !! _) as [i |] eqn:Ei.
  - apply Hput. unfold hits_of. by rewrite Ei.
  - rewrite bool_decide_true by auto. apply Hput. unfold hits_of. by rewrite Ei.
Qed.

Lemma track_loop_tallies Marshal ok clock i d entries : (forall n, ok n = true) ->
  Forall (fun e => Log.ErrorFingerprint e <> [] -> is_Some (groups d !! key_of e)) entries ->
  exists d', track_loop Marshal ok clock i d entries = (d', Ok tt) /\ groups d' = groups d /\ events d' = events d /\ forall k u,
    hits_of k u d' = hits_of k u d + tally (is_hit k u) entries.
Proof.
  intros Hok HF. revert i d HF. induction entries as [| e entries IH]; intros i d HF; cbn [track_loop].
  { exists d. repeat split. intros k u. change (tally (is_hit k u) []) with 0. lia. }
  apply Forall_cons in HF as [He HF].
  destruct (track_tallies (ok i) d (Log.ErrorFingerprint e) (Log.Environment e) (Log.UserID e) (Marshal (Log.Metadata e))
              (Log.ID e) (Log.Service e) (clock i) (Hok i) He) as (d1 & -> & Hg & Hev & Hh).
  destruct (IH (S i) d1) as (d' & -> & Hg' & Hev' & Hh'); [by rewrite Hg |]. exists d'. split; [done |]. split; [congruence |]. split; [congruence |].
  change (forall k u, hits_of k u d1 = hits_of k u d + (if is_hit k u e then 1 else 0)) in Hh.
  intros k u. rewrite Hh', Hh, tally_cons. lia.
Qed.

(** Rows of the ingest endpoints carry the fingerprint the server computes, which only errors have. *)
Lemma fingerprinted_occurrence e : Log.ErrorFingerprint e = GenerateErrorFingerprint e -> Log.ErrorFingerprint e <> [] -> is_occurrence e = true.
Proof.
  intros E Hne. unfold is_occurrence. rewrite (bool_decide_false _ Hne). rewrite E in Hne. unfold GenerateErrorFingerprint in Hne.
  by destruct (bool_decide (ToLower _ = str "error")), (bool_decide (ToLower _ = str "fatal")).
Qed.

Lemma ingest_fingerprint `{Conversion} env fe ts id :
  let e := Log.with_ID id (flatToLogEntry env fe ts) in Log.ErrorFingerprint e = GenerateErrorFingerprint e.
Proof.
  cbn zeta. unfold flatToLogEntry. set (entry := flat_log env fe ts).
  assert (Hid : forall e, GenerateErrorFingerprint (Log.with_ID id e) = GenerateErrorFingerprint e /\
                          Log.ErrorFingerprint (Log.with_ID id e) = Log.ErrorFingerprint e) by (by intros []).
  assert (Hfp : forall fp e, GenerateErrorFingerprint (Log.with_fingerprint fp e) = GenerateErrorFingerprint e /\
                             Log.ErrorFingerprint (Log.with_fingerprint fp e) = fp) by (by intros fp []).
  destruct (bool_decide (GenerateErrorFingerprint entry = [])) eqn:E; cbn [negb].
  - apply bool_decide_eq_true in E. destruct (Hid entry) as [-> ->]. by rewrite E.
  - destruct (Hid (Log.with_fingerprint (GenerateErrorFingerprint entry) entry)) as [-> ->].
    destruct (Hfp (GenerateErrorFingerprint entry) entry) as [-> ->]. done.
Qed.

(** C20: When its statements succeed, the error work of a stored batch counts every occurrence once
    in the row of its fingerprint and environment and once for its user, reopens exactly the
    resolved rows that occurred again, and never trips over the foreign key. *)
Theorem batch_tracked (Marshal : option (list (bytes * value)) -> bytes) (clock1 clock2 : nat -> Z) (d : DB) (entries : list Log.LogEntry) :
  Forall (fun e => Log.ErrorFingerprint e = GenerateErrorFingerprint e) entries ->
  let all := fun _ => true in
  let d1 := UpsertBatch (fun _ => all) clock1 true d entries in
  let d2 := TrackImpactBatch Marshal all clock2 true d1.1 entries in
  d1.2 = Ok tt /\ d2.2 = Ok tt /\ processErrors Marshal (fun _ => all) all clock1 clock2 true true d entries = d2.1 /\
  forall k,
    occurrences_of k d2.1 = occurrences_of k d + tally (is_for k) entries /\
    status_of k d2.1 = (if 0 <? tally (is_for k) entries then after_occurrence (status_of k d) else status_of k d) /\
    forall u, hits_of k u d2.1 = hits_of k u d + tally (is_hit k u) entries.
Proof.
  intros HF all. destruct (upsert_loop_tallies (fun _ => all) clock1 0 d entries) as (d1 & E1 & Himp & H1); [done |].
  assert (EU : UpsertBatch (fun _ => all) clock1 true d entries = (d1, Ok tt)) by (unfold UpsertBatch; by rewrite E1).
  unfold processErrors. rewrite EU. cbn [fst snd].
  destruct (track_loop_tallies Marshal all clock2 0 d1 entries) as (d2 & E2 & Hg & _ & H2); [done | |].
  { apply Forall_forall. intros e Hin Hne. apply (H1 (key_of e)). right.
    rewrite Forall_forall in HF. assert (Hocc := fingerprinted_occurrence e (HF e Hin) Hne).
    clear -Hin Hocc. induction Hin as [e l | e e' l Hin IH]; rewrite tally_cons.
    - rewrite is_for_true, bool_decide_true by done. assert (H := tally_nonneg (is_for (key_of e)) l). lia.
    - specialize (IH Hocc). destruct (is_for (key_of e) e'); lia. }
  assert (ET : TrackImpactBatch Marshal all clock2 true d1 entries = (d2, Ok tt)) by (unfold TrackImpactBatch; by rewrite E2).
  rewrite ET. cbn [fst snd]. split; [done |]. split; [done |]. split; [done |].
  intros k. destruct (H1 k) as (Ho & Hs & _). split; [| split].
  - rewrite <- Ho. unfold occurrences_of. by rewrite Hg.
  - rewrite <- Hs. unfold status_of. by rewrite Hg.
  - intros u. rewrite H2. unfold hits_of. by rewrite Himp.
Qed.
End Batch.

(** ** Filed issues *)

(** Every row is still there, and one with an issue has the same issue. *)
Definition keeps_issues (d d' : DB) : Prop := forall k g, groups d !! k = Some g ->
  exists g', groups d' !! k = Some g' /\ (no_issue g = false -> issue_url g' = issue_url g).

#[export] Instance keeps_issues_preorder : PreOrder keeps_issues.
Proof.
  split.
  - intros d k g Hg. eauto.
  - intros d1 d2 d3 H12 H23 k g Hg. destruct (H12 k g Hg) as (g2 & Hg2 & E2), (H23 k g2 Hg2) as (g3 & Hg3 & E3).
    exists g3. split; [done |]. intros Hn. rewrite <- (E2 Hn). apply E3. unfold no_issue in *. by rewrite (E2 Hn).
Qed.

Lemma keeps_rows d d' (f : key -> group -> group) :
  (forall k, groups d' !! k = f k <$> groups d !! k) ->
  (forall k g, no_issue g = false -> issue_url (f k g) = issue_url g) -> keeps_issues d d'.
Proof. intros Hg Hf k g E. exists (f k g). by rewrite Hg, E; auto. Qed.

Section Issues.
Context {U : Unicode} {K : Conversion}.

Lemma keeps_upserted d e now : keeps_issues d (upserted d e now).
Proof.
  intros k g Hg. rewrite lookup_upserted. destruct (decide (k = key_of e)) as [-> | Hne].
  - eexists. split; [done |]. intros _. rewrite Hg. unfold reopened, occurred. by destruct (bool_decide _).
  - rewrite Hg. destruct (decide (k.1 = _)); cbn; eauto.
Qed.

Lemma keeps_upsert ok d e now d' : upsertErrorGroup ok d e now = (d', Ok tt) -> keeps_issues d d'.
Proof.
  intros H. destruct (is_occurrence e) eqn:Hocc.
  - rewrite (upsert_ok _ _ _ _ _ H Hocc). apply keeps_upserted.
  - rewrite upsert_skips in H by done. by injection H as <-.
Qed.

Lemma keeps_in_tx {A} commits d (body : DB * result A) : (forall a, body.2 = Ok a -> keeps_issues d body.1) -> keeps_issues d (in_tx commits d body).1.
Proof. intros H. destruct body as [d' [a | |]]; cbn; [| done..]. destruct commits; [by apply (H a) | done]. Qed.

Lemma keeps_batch ok clock commits d entries : keeps_issues d (UpsertBatch ok clock commits d entries).1.
Proof.
  apply keeps_in_tx. intros [] E. generalize 0%nat E. clear E. revert d. induction entries as [| e entries IH]; intros d i E; cbn [upsert_loop] in E |- *; [done |].
  destruct (upsertErrorGroup (ok i) d e (clock i)) as [d1 [[] | |]] eqn:E1; [| done..].
  apply keeps_upsert in E1. etrans; [exact E1 | by apply IH].
Qed.

Lemma keeps_same_groups d d' : groups d' = groups d -> keeps_issues d d'.
Proof. intros E k g Hg. rewrite E. eauto. Qed.

Lemma groups_track ok d fp env u ctx id sv now : groups (trackErrorImpact ok d fp env u ctx id sv now).1 = groups d.
Proof.
  unfold trackErrorImpact. destruct (_ || _); [done |]. destruct ok; [cbn [negb] | done].
  destruct (impacts d !! _); [done |]. by destruct (bool_decide _).
Qed.

Lemma groups_track_batch Marshal ok clock commits d entries : groups (TrackImpactBatch Marshal ok clock commits d entries).1 = groups d.
Proof.
  assert (H : forall i d, groups (track_loop Marshal ok clock i d entries).1 = groups d).
  { induction entries as [| e entries IH]; intros i d0; cbn [track_loop]; [done |].
    assert (H1 := groups_track (ok i) d0 (Log.ErrorFingerprint e) (Log.Environment e) (Log.UserID e) (Marshal (Log.Metadata e)) (Log.ID e)
                  (Log.Service e) (clock i)).
    destruct (trackErrorImpact _ _ _ _ _ _ _ _ _) as [d1 [[] | |]]; [| done..]. rewrite IH. exact H1. }
  unfold TrackImpactBatch. specialize (H 0%nat d). destruct (track_loop _ _ _ _ _ _) as [d1 [[] | |]]; cbn; [| done..]. by destruct commits.
Qed.

Lemma keeps_issue ok d fp env url : keeps_issues d (SetIssueURL ok d fp env url).1.
Proof.
  unfold SetIssueURL. destruct (bool_decide (url = [])); [done |]. destruct (ok 0%nat); [cbn [negb] | done].
  assert (H : keeps_issues d (with_groups (update_where (fun k g => in_scope fp env k && no_issue g) (with_issue url) (groups d)) d)).
  { eapply keeps_rows; [intros k; apply lookup_update_where |]. intros k g Hn. cbn. by rewrite Hn, andb_false_r. }
  destruct (bool_decide _); [| done]. destruct (ok 1%nat); [cbn [negb] | done]. by destruct (bool_decide _).
Qed.

Lemma keeps_scores ok i d l : keeps_issues d (score_loop ok i d l).1.
Proof.
  revert i d. induction l as [| s l IH]; intros i d; cbn [score_loop]; [done |]. destruct (ok i); [cbn [negb] | done]. etrans; [| apply IH].
  apply (keeps_rows _ _ (fun k g => if decide (sc_key s = k) then with_score (uniqueUsers s) (round2 (score s)) g else g)).
  - intros k. cbn [with_groups groups]. rewrite lookup_alter. destruct (decide (sc_key s = k)) as [-> |]; [done |]. by destruct (groups d !! k).
  - intros k g _. by destruct (decide (sc_key s = k)).
Qed.

Lemma keeps_change ok d fp env a reason now : keeps_issues d (changeStatus ok d fp env a reason now).1.
Proof.
  unfold changeStatus. destruct ok; [cbn [negb] | done]. destruct (bool_decide _); [done |]. cbn [fst].
  eapply keeps_rows; [intros k; cbn [groups]; apply lookup_update_where |]. intros k g _. cbn. destruct (_ && _); [| done]. by destruct a.
Qed.

Lemma step_keeps d d' k g g' : step d d' -> groups d !! k = Some g -> groups d' !! k = Some g' -> no_issue g = false -> issue_url g' = issue_url g.
Proof.
  intros Hs Hg Hg' Hn.
  assert (H : keeps_issues d d' \/ forall k g, groups d' !! k = Some g -> groups d !! k = Some g).
  { destruct Hs as [ok d e now d' H | | | | | | |]; [left; by apply keeps_upsert in H | left; apply keeps_batch | left; apply keeps_change | right
      | left; apply keeps_issue | left; apply keeps_same_groups, groups_track | left; apply keeps_same_groups, groups_track_batch | left].
    - intros k' g0. unfold Prune. destruct ok; [cbn | done]. intros (? & _)%lookup_pruned. done.
    - unfold ComputeImpactScores. destruct query; [apply keeps_scores | done]. }
  destruct H as [H | H].
  - destruct (H k g Hg) as (g2 & Hg2 & E). rewrite Hg' in Hg2. injection Hg2 as ->. by apply E.
  - apply H in Hg'. congruence.
Qed.

(** Filing an issue that reports success leaves every row it names with an issue, the one it
    already had or else the new one; and no later operation replaces the issue of a row. *)
Theorem issue_filed_once :
  (forall ok d fp env url d', SetIssueURL ok d fp env url = (d', Ok tt) ->
     url <> [] /\ (exists k, named fp env d k) /\
     forall k g, groups d !! k = Some g -> in_scope fp env k = true ->
       exists g', groups d' !! k = Some g' /\ issue_url g' = (if no_issue g then Some url else issue_url g)) /\
  (forall d d' k g g', step d d' -> groups d !! k = Some g -> no_issue g = false -> groups d' !! k = Some g' -> issue_url g' = issue_url g).
Proof.
  split; [| eauto using step_keeps]. intros ok d fp env url d'. unfold SetIssueURL.
  destruct (bool_decide (url = [])) eqn:Eu; [done |]. destruct (ok 0%nat); [cbn [negb] | done].
  set (c := fun k g => _). set (d1 := with_groups _ d). intros H. split; [by apply bool_decide_eq_false in Eu |].
  assert (d' = d1 /\ exists k, named fp env d1 k) as [-> [k0 Hk0]].
  { revert H. destruct (bool_decide (length _ = O)) eqn:En.
    - destruct (ok 1%nat); [cbn [negb] | done]. destruct (bool_decide (keys_where _ _ = [])) eqn:Eb; [done |]. intros [= <-]. split; [done |].
      apply bool_decide_eq_false in Eb. destruct (keys_where _ (groups d1)) as [| k l] eqn:Ek; [done |]. exists k.
      assert (Hin : k ∈ k :: l) by left. rewrite <- Ek in Hin. apply elem_of_keys_where in Hin as (g & Hg & Hs). split; eauto.
    - intros [= <-]. split; [done |]. apply bool_decide_eq_false in En. destruct (keys_where c (groups d)) as [| k l] eqn:Ek; [done |]. exists k.
      assert (Hin : k ∈ k :: l) by left. rewrite <- Ek in Hin. apply elem_of_keys_where in Hin as (g & Hg & [Hs _]%andb_true_iff).
      split; [done |]. unfold d1. cbn [with_groups groups]. rewrite lookup_update_where, Hg. eauto. }
  split.
  - exists k0. destruct Hk0 as [Hk Hs]. split; [done |]. unfold d1 in Hs. cbn [with_groups groups] in Hs. by rewrite lookup_update_where, fmap_is_Some in Hs.
  - intros k g Hg Hk. eexists. unfold d1. cbn [with_groups groups]. rewrite lookup_update_where, Hg. split; [done |].
    unfold c. rewrite Hk. cbn [andb]. by destruct (no_issue g).
Qed.
End Issues.

(** ** Affected users *)

Lemma elem_of_users ok d fp limit l p : GetAffectedUsers ok d fp limit = Ok l -> p ∈ l -> p.1.1.1 = fp /\ impacts d !! p.1 = Some p.2.
Proof.
  unfold GetAffectedUsers. destruct ok; [cbn [negb] | done]. intros [= <-] Hp%subseteq_take.
  rewrite merge_sort_Permutation in Hp. unfold impacts_of in Hp. apply list_elem_of_filter in Hp as [Hs Hp].
  destruct p as [ku i]. apply elem_of_map_to_list in Hp. cbn in *. by apply in_scope_all in Hs.
Qed.

Lemma Get_row ok d fp env k g : Get ok d fp env = Ok (k, g) -> groups d !! k = Some g /\ k.1 = fp /\ (env = [] \/ k.2 = env).
Proof.
  unfold Get. destruct ok; [cbn [negb] | done]. destruct (first_by _ _) as [kg |] eqn:Ef; [| done]. intros [= ->].
  by apply first_by_elem, elem_of_rows_where in Ef as [Hg Hs%in_scope_spec].
Qed.

(** A fingerprint that was seen in one environment has the users of that environment only. *)
Lemma users_of_one_env `{Unicode, Conversion} (d : DB) k g ok limit l p :
  reachable d -> groups d !! k = Some g -> (base.size (seen_in_envs g) <= 1)%nat ->
  GetAffectedUsers ok d k.1 limit = Ok l -> p ∈ l -> p.1.1 = k.
Proof.
  intros W%reachable_wf Hg Hsize Hl Hp. destruct (elem_of_users _ _ _ _ _ _ Hl Hp) as [Hfp Hi].
  destruct p as [[[fp' env'] u] i], k as [fp env]. cbn in *. subst fp'.
  destruct (wf_impacts _ _ _ W _ _ _ Hi) as [Hrow _].
  assert (H1 := wf_envs _ _ _ W I _ _ _ env' Hg Hrow). assert (H2 := wf_envs _ _ _ W I _ _ _ env Hg (ex_intro _ g Hg)).
  destruct (decide (env' = env)) as [-> | Hne]; [done | exfalso].
  assert (Hsub : {[env; env']} ⊆ seen_in_envs g) by set_solver.
  apply subseteq_size in Hsub. rewrite size_union in Hsub by set_solver. rewrite !size_singleton in Hsub. lia.
Qed.

(** ** Samples *)

(** An error of [user] in [env] at second [t]. *)
Definition boom (env user : bytes) (t : Z) : Log.LogEntry :=
  let '(Log.mkLogEntry i ts l s _ c tr sp ps r _ m et ec fp sf sl h k te se ro cm ch cx em ec' rm ac md sq er jc jq ji qm d db dc st mt mj dp rs ca) := plain_error in
  grouped (Log.mkLogEntry i (t * 1000000000) l s env c tr sp ps r user m et ec fp sf sl h k te se ro cm ch cx em ec' rm ac md sq er jc jq ji qm d db dc st mt mj dp rs ca).

Definition prod : bytes := str "production".
Definition staging : bytes := str "staging".
Definition boom_fp : bytes := Log.ErrorFingerprint (boom prod [] 0).

#[local] Existing Instances ascii_unicode plain_md5 plain_decoder no_conversion.

Definition always {A} (_ : A) : bool := true.

(** Two occurrences in production, one in staging; the error is then resolved in production. *)
Definition seen_db : DB :=
  processErrors (fun _ => []) (fun _ => always) always (fun _ => 100) (fun _ => 100) true true empty_db
    [boom prod (str "ann") 100; boom staging (str "bob") 101; boom prod (str "cid") 102].

Definition resolved_db : DB := (changeStatus true seen_db boom_fp prod Resolved (str "fixed") 200).1.

Lemma reachable_step (d d' : DB) : reachable d -> step d d' -> reachable d'.
Proof. intros H Hs. by apply rtc_r with d. Qed.

Lemma seen_db_reachable : reachable seen_db.
Proof. eapply reachable_step; [eapply reachable_step; [apply rtc_refl | apply step_upsert_batch] | apply step_track_batch]. Qed.

Lemma resolved_db_reachable : reachable resolved_db.
Proof. eapply reachable_step; [apply seen_db_reachable | apply step_status]. Qed.

(** The recurrence in production fails at its last statement: its row is left without the event,
    the one in staging is not. *)
Definition cut_upsert : DB * result unit := upsertErrorGroup (fun n => negb (n =? 3)%nat) resolved_db (boom prod [] 300) 300.

Lemma status_explained_witness :
  left_unexplained resolved_db (boom prod [] 300) cut_upsert.1 = {[(boom_fp, prod)]} /\
  status_of (boom_fp, staging) cut_upsert.1 = ErrorGroupUnresolved /\
  forall k g, groups cut_upsert.1 !! k = Some g -> k <> (boom_fp, prod) -> g_status g = logged k (events cut_upsert.1).
Proof.
  assert (E : left_unexplained resolved_db (boom prod [] 300) cut_upsert.1 = {[(boom_fp, prod)]}).
  { unfold left_unexplained.
    assert (was_resolved (key_of (boom prod [] 300)) resolved_db && negb (was_resolved (key_of (boom prod [] 300)) cut_upsert.1) = true)
      as -> by (vm_compute; reflexivity).
    assert (key_of (boom prod [] 300) = (boom_fp, prod)) as -> by (vm_compute; reflexivity). done. }
  split; [exact E |]. split; [by vm_compute |]. intros k g Hg Hk.
  assert (H : rtc any_step (empty_db, ∅) (cut_upsert.1, ∅ ∪ left_unexplained resolved_db (boom prod [] 300) cut_upsert.1)).
  { eapply rtc_r; [exact (reachable_any resolved_db resolved_db_reachable) |].
    apply (any_failed_upsert (fun n => negb (n =? 3)%nat) resolved_db (boom prod [] 300) 300 _ (Errorf "insert reopen event")).
    transitivity (cut_upsert.1, cut_upsert.2); [apply surjective_pairing | apply (f_equal (pair _)); vm_compute; reflexivity]. }
  apply (status_explained _ _ H) in Hg as (_ & _ & Hg). apply Hg. rewrite E. clear - Hk.
  intros [Hn | Hn]%elem_of_union; [by apply not_elem_of_empty in Hn | by apply elem_of_singleton in Hn].
Defined.

Lemma environments_isolated_witness :
  let d := (UpsertBatch (fun _ => always) (fun _ => 300) true resolved_db [boom prod [] 300]).1 in
  staging <> prod /\ status_of (boom_fp, prod) d = ErrorGroupUnresolved /\ same_elsewhere prod resolved_db d.
Proof.
  split; [by vm_compute |]. split; [by vm_compute |]. apply environments_isolated; [by vm_compute |].
  apply rtc_once, scoped_upsert_batch. constructor; [by vm_compute | constructor].
Defined.

Lemma batch_tracked_witness :
  let entries := [boom prod (str "ann") 100; boom staging (str "bob") 101; boom prod (str "cid") 102] in
  Forall (fun e => Log.ErrorFingerprint e = GenerateErrorFingerprint e) entries /\
  occurrences_of (boom_fp, prod) seen_db = 2 /\ hits_of (boom_fp, prod) (str "ann") seen_db = 1 /\
  forall k, occurrences_of k seen_db = tally (is_for k) entries.
Proof.
  intros entries. assert (HF : Forall (fun e => Log.ErrorFingerprint e = GenerateErrorFingerprint e) entries)
    by (repeat (constructor; [by vm_compute |]); constructor).
  split; [exact HF |]. split; [by vm_compute |]. split; [by vm_compute |]. intros k.
  destruct (batch_tracked (fun _ => []) (fun _ => 100) (fun _ => 100) empty_db entries HF) as (_ & _ & E & H).
  destruct (H k) as [Ho _]. unfold seen_db. fold entries. change (fun _ : nat => always) with (fun _ _ : nat => true).
  change always with (fun _ : nat => true). rewrite E, Ho. unfold occurrences_of. cbn. rewrite lookup_empty. done.
Defined.

Lemma transition_exact_witness :
  (exists k, named boom_fp prod seen_db k) /\ (changeStatus true seen_db boom_fp prod Resolved (str "fixed") 200).2 = Ok tt /\
  changeStatus true resolved_db boom_fp prod Resolved (str "again") 300 = changeStatus true seen_db boom_fp prod Resolved (str "fixed") 200.
Proof.
  assert (H : exists k, named boom_fp prod seen_db k).
  { exists (boom_fp, prod). split; [by vm_compute |]. destruct (groups seen_db !! (boom_fp, prod)) eqn:E; [eauto |]. exfalso.
    revert E. vm_compute. discriminate. }
  destruct (transition_exact seen_db boom_fp prod Resolved (str "fixed") 200) as (Hok & _ & _ & _ & Hagain).
  split; [exact H |]. split; [exact (Hok H) | apply Hagain].
Defined.

Lemma issue_filed_once_witness :
  SetIssueURL always seen_db boom_fp prod (str "issue/1") = ((SetIssueURL always seen_db boom_fp prod (str "issue/1")).1, Ok tt) /\
  exists k, named boom_fp prod seen_db k.
Proof.
  assert (E : SetIssueURL always seen_db boom_fp prod (str "issue/1") = ((SetIssueURL always seen_db boom_fp prod (str "issue/1")).1, Ok tt))
    by (vm_compute; reflexivity).
  split; [exact E |]. destruct issue_filed_once as [H _]. by destruct (H _ _ _ _ _ _ E) as (_ & Hk & _).
Defined.

(** An entry older than the resolution reopens the row and moves the time it was last seen back. *)
Lemma late_entry_reopens :
  let d := (UpsertBatch (fun _ => always) (fun _ => 300) true resolved_db [boom prod [] 50]).1 in
  status_of (boom_fp, prod) resolved_db = ErrorGroupResolved /\ (last_seen_at <$> groups resolved_db !! (boom_fp, prod)) = Some 102 /\
  status_of (boom_fp, prod) d = ErrorGroupUnresolved /\ (last_seen_at <$> groups d !! (boom_fp, prod)) = Some 50.
Proof. by vm_compute. Qed.

(** A single upsert whose last statement fails has reopened the row without an event. *)
Lemma reopened_without_event :
  let r := upsertErrorGroup (fun n => negb (n =? 3)%nat) resolved_db (boom prod [] 300) 300 in
  r.2 = Err (Errorf "insert reopen event") /\ status_of (boom_fp, prod) r.1 = ErrorGroupUnresolved /\
  logged (boom_fp, prod) (events r.1) = ErrorGroupResolved.
Proof. by vm_compute. Qed.
