(* ===== verification/EnvScope.v ===== *)
(** * Environment scopes (mcp/envscope, mcp/tools/env*.go, errors_*.go, users.go)

    A caller of the tools carries the environments its token allows.  This file models the
    scope, how a tool picks the environment it works in, and the tools over error groups and
    affected users, on the stores of ErrorGroups.
    Main results: a caller pinned to some environments changes nothing outside of them, and is
    shown no row, event or user of another by the tools that check; the ones that do not are
    named, each with a database that shows it. *)

From stdpp Require Import base list gmap strings numbers sorting.
From Stdlib Require Import ZArith Lia SpecFloat.
From S2P Require Import Prelude Schema Index Utf8 Pipeline Query Floats Adapter IngestHttp ErrorGroups.

(** ** Arguments (args.go) *)

Abbreviation args := (list (bytes * value)).

Definition ArgString (a : args) (k : bytes) : bytes := match get_key k a with Some (VString s) => s | _ => [] end.

(** The float64 of 64 bits. *)
Definition float_of_bits (b : Z) : float :=
  let s := Z.testbit b 63 in
  let e := Z.land (Z.shiftr b 52) 2047 in
  let m := Z.land b (2 ^ 52 - 1) in
  if e =? 2047 then (if m =? 0 then S754_infinity s else S754_nan)
  else match (if e =? 0 then m else m + 2 ^ 52) with
       | Zpos p => S754_finite s p ((if e =? 0 then 1 else e) - 1075)
       | _ => S754_zero s
       end.

(** [ArgInt] *)
Definition ArgInt `{Conversion} (a : args) (k : bytes) (def max : Z) : Z :=
  match get_key k a with
  | Some (VNumber bits) =>
      let v := float_of_bits bits in
      if fle v zero then def
      else let n := int_of v in if max <? n then max else n
  | _ => def
  end.

(** ** Scopes (envscope.go) *)

Definition WildcardEnv : bytes := str "*".

Record EnvScope := mkEnvScope { Allowed : list bytes; scope_UserID : bytes }.

(** [FromUser] of the environments and the id of a user. *)
Definition FromUser (u : option (list bytes * bytes)) : EnvScope :=
  match u with Some (envs, id) => mkEnvScope envs id | None => mkEnvScope [] [] end.

Definition AllowsAll (s : EnvScope) : bool := bool_decide (WildcardEnv ∈ Allowed s).

Definition Allows (s : EnvScope) (env : bytes) : bool := if AllowsAll s then true else bool_decide (env ∈ Allowed s).

Definition SoleEnv (s : EnvScope) : option bytes :=
  match Allowed s with [e] => if bool_decide (e = WildcardEnv) then None else Some e | _ => None end.

Definition IsLegacyWildcard (s : EnvScope) : bool := bool_decide (Allowed s = [WildcardEnv]).

Definition IsEmpty (s : EnvScope) : bool := bool_decide (Allowed s = []).

Definition Mode (s : EnvScope) : string :=
  if IsEmpty s then "denied"
  else if IsLegacyWildcard s then "legacy_wildcard"
  else if bool_decide (length (Allowed s) = 1%nat) then "single" else "multi".

(** ** The environment of a call (envresolve.go, envguard.go) *)

Inductive env_error :=
| NotAuthorized (requested : bytes) (allowed : list bytes)
| NoEnvScope
| EnvRequired (allowed : list bytes)
| WildcardRefused
| NoWildcardFallback.

(** The context: a scope, or none outside the MCP middleware. *)
Abbreviation context := (option EnvScope).

Section Resolve.
Context (OPENTRACE_DEFAULT_ENV : bytes).

Definition defaultEnv : bytes := if bool_decide (OPENTRACE_DEFAULT_ENV = []) then str "production" else OPENTRACE_DEFAULT_ENV.

Definition environment : bytes := str "environment".

Definition ResolveEnv (ctx : context) (a : args) : env_error + bytes :=
  match ctx with
  | None => inr (ArgString a environment)
  | Some scope =>
      let requested := ArgString a environment in
      if negb (bool_decide (requested = [])) then
        if negb (Allows scope requested) then inl (NotAuthorized requested (Allowed scope)) else inr requested
      else match SoleEnv scope with
           | Some env => inr env
           | None =>
               if IsLegacyWildcard scope then inr defaultEnv
               else if IsEmpty scope then inl NoEnvScope
               else inl (EnvRequired (Allowed scope))
           end
  end.

Definition ResolveEnvStrict (ctx : context) (a : args) : env_error + bytes :=
  match ctx with
  | None => inr (ArgString a environment)
  | Some scope =>
      let requested := ArgString a environment in
      if bool_decide (requested = WildcardEnv) then inl WildcardRefused
      else if negb (bool_decide (requested = [])) then
        if negb (Allows scope requested) then inl (NotAuthorized requested (Allowed scope)) else inr requested
      else match SoleEnv scope with
           | Some env => inr env
           | None =>
               if IsLegacyWildcard scope then inl NoWildcardFallback
               else if IsEmpty scope then inl NoEnvScope
               else inl (EnvRequired (Allowed scope))
           end
  end.

Definition scopeAllowsEnv (ctx : context) (env : bytes) : bool := match ctx with Some s => Allows s env | None => true end.

Definition scopeIsPinned (ctx : context) : bool := match ctx with Some s => negb (AllowsAll s) | None => false end.

(** ** The tools *)

Inductive complaint :=
| NotConfigured (what : string)
| Required (what : string)
| BadWindow
| BadEnv (e : env_error)
| NoGroup
| NoGroupIn (env : bytes)
| Failed (what : string).

(** What a tool answers: an error, a message that there is nothing, or data. *)
Inductive answer (A : Type) := ToolError (c : complaint) | EmptyResult | Answer (a : A).
Arguments ToolError {A} c.
Arguments EmptyResult {A}.
Arguments Answer {A} a.

(** Which stores are configured, and the money paths. *)
Record ErrorsDeps := mkErrorsDeps { hasErrorGroupStore : bool; hasErrorImpactStore : bool; CriticalPaths : list bytes }.

Definition fingerprint_arg : bytes := str "fingerprint".

(** [fingerprintInEnv]; [ok] says whether the query succeeds. *)
Definition fingerprintInEnv (ctx : context) (deps : ErrorsDeps) (ok : bool) (d : DB) (fingerprint env : bytes) : bool :=
  if negb (hasErrorGroupStore deps) then false
  else match Get ok d fingerprint env with
       | Ok (k, _) => scopeAllowsEnv ctx k.2
       | _ => false
       end.

Definition affectedUsersAllowed (ctx : context) (deps : ErrorsDeps) (ok : bool) (d : DB) (fingerprint env : bytes) : bool :=
  if negb (scopeIsPinned ctx) then true
  else if negb (hasErrorGroupStore deps) then false
  else match Get ok d fingerprint env with
       | Ok (k, g) => if negb (scopeAllowsEnv ctx k.2) then false else bool_decide (base.size (seen_in_envs g) <= 1)%nat
       | _ => false
       end.

(** *** Lifecycle (errors_resolve.go) *)

Definition resolveWriteEnv (ctx : context) (ok : bool) (d : DB) (a : args) (fingerprint : bytes) : complaint + bytes :=
  match ResolveEnv ctx a with
  | inl e => inl (BadEnv e)
  | inr env =>
      if bool_decide (env = []) then inr []
      else match Get ok d fingerprint env with
           | Ok _ => inr env
           | _ => inl (NoGroupIn env)
           end
  end.

Definition envLabel (env : bytes) : bytes := if bool_decide (env = []) then str "all" else env.

(** [ErrorsResolve], [ErrorsIgnore] and [ErrorsReopen], by the transition; the answer is the
    environment written to.  [ok] is for the query, [commits] for the transition. *)
Definition lifecycle (act : action) (ctx : context) (deps : ErrorsDeps) (ok commits : bool) (d : DB) (a : args) (now : Z) : DB * answer bytes :=
  if negb (hasErrorGroupStore deps) then (d, ToolError (NotConfigured "ErrorGroupStore"))
  else
    let fingerprint := ArgString a fingerprint_arg in
    if bool_decide (fingerprint = []) then (d, ToolError (Required "fingerprint"))
    else
      let reason := ArgString a (str "reason") in
      if bool_decide (reason = []) then (d, ToolError (Required "reason"))
      else match resolveWriteEnv ctx ok d a fingerprint with
           | inl c => (d, ToolError c)
           | inr env =>
               match changeStatus commits d fingerprint env act reason now with
               | (d, Ok _) => (d, Answer (envLabel env))
               | (d, _) => (d, ToolError (Failed "change"))
               end
           end.

Definition ErrorsResolve := lifecycle Resolved.
Definition ErrorsIgnore := lifecycle Ignored.
Definition ErrorsReopen := lifecycle Reopened.

(** *** Reading groups (errors_detail.go, errors_list.go, errors_resolve.go) *)

Definition lifecycleEventLimit : Z := 10.

(** [ErrorsDetail] without the occurrences it reads from the log: a row and its events.
    [ok n] is for the n-th query; events that cannot be read are left out. *)
Definition ErrorsDetail (ctx : context) (deps : ErrorsDeps) (ok : nat -> bool) (d : DB) (a : args)
  : answer ((key * group) * list event_row) :=
  if negb (hasErrorGroupStore deps) then ToolError (NotConfigured "ErrorGroupStore")
  else
    let fingerprint := ArgString a fingerprint_arg in
    if bool_decide (fingerprint = []) then ToolError (Required "fingerprint")
    else match ResolveEnv ctx a with
         | inl e => ToolError (BadEnv e)
         | inr env =>
             match Get (ok 0%nat) d fingerprint env with
             | Ok (k, g) =>
                 if negb (scopeAllowsEnv ctx k.2) then ToolError NoGroup
                 else Answer ((k, g), match ListEvents (ok 1%nat) d fingerprint k.2 lifecycleEventLimit with Ok l => l | _ => [] end)
             | _ => ToolError NoGroup
             end
         end.

(** A status argument: the empty one is no filter, a value that is no status matches nothing. *)
Definition status_arg (s : bytes) : option (option ErrorGroupStatus) :=
  if bool_decide (s = []) then Some None
  else if bool_decide (s = str "unresolved") then Some (Some ErrorGroupUnresolved)
  else if bool_decide (s = str "resolved") then Some (Some ErrorGroupResolved)
  else if bool_decide (s = str "ignored") then Some (Some ErrorGroupIgnored)
  else None.

(** A query filtered by the status argument. *)
Definition by_status {A} (ok : bool) (a : args) (query : option ErrorGroupStatus -> result (list A)) : result (list A) :=
  match status_arg (ArgString a (str "status")) with
  | Some status => query status
  | None => if ok then Ok [] else Err (Errorf "query failed")
  end.

Definition service_arg : bytes := str "service".
Definition limit_arg : bytes := str "limit".

(** [ErrorsList]; [window] is the outcome of [OptionalSinceParamStrict].  The number of
    unresolved groups, zero when it cannot be read, and the groups. *)
Definition ErrorsList `{Conversion} (ctx : context) (deps : ErrorsDeps) (ok : nat -> bool) (d : DB) (a : args) (window : complaint + option Z)
  : answer (nat * list (key * group)) :=
  if negb (hasErrorGroupStore deps) then ToolError (NotConfigured "ErrorGroupStore")
  else match ResolveEnv ctx a with
       | inl e => ToolError (BadEnv e)
       | inr env =>
           match window with
           | inl c => ToolError c
           | inr active =>
               match by_status (ok 0%nat) a (fun status =>
                       List (ok 0%nat) d (mkListParams status (ArgString a service_arg) env None active
                         (ArgString a (str "sort_by")) (ArgInt a limit_arg 20 100) 0)) with
               | Ok [] => EmptyResult
               | Ok rows => Answer (match Count (ok 1%nat) d (Some ErrorGroupUnresolved) env with Ok n => n | _ => O end, rows)
               | _ => ToolError (Failed "list error groups")
               end
           end
       end.

(** [HandleNewErrors]; [since] is the outcome of [GetSinceParam]. *)
Definition HandleNewErrors (ctx : context) (deps : ErrorsDeps) (ok : bool) (d : DB) (a : args) (since : Z) : answer (list (key * group)) :=
  if negb (hasErrorGroupStore deps) then ToolError (NotConfigured "ErrorGroupStore")
  else match ResolveEnv ctx a with
       | inl e => ToolError (BadEnv e)
       | inr env =>
           match List ok d (mkListParams None (ArgString a service_arg) env (Some since) None (str "first_seen_at") 20 0) with
           | Ok [] => EmptyResult
           | Ok rows => Answer rows
           | _ => ToolError (Failed "list error groups")
           end
       end.

(** *** Impact (errors_impact.go) *)

(** What [ErrorsImpact] answers, without the common traits: the totals, whether they are of
    every environment, the affected users unless they are withheld, and the group. *)
Record ImpactAnswer := mkImpactAnswer {
  ia_impact : ErrorImpact;
  ia_cross_env : bool;
  ia_users : option (list ((ErrorGroups.key * bytes) * impact));
  ia_group : option (ErrorGroups.key * group)
}.

(** [ok n] is for the n-th query. *)
Definition ErrorsImpact `{Conversion} (ctx : context) (deps : ErrorsDeps) (ok : nat -> bool) (d : DB) (a : args) : answer ImpactAnswer :=
  if negb (hasErrorImpactStore deps) then ToolError (NotConfigured "ErrorImpactStore")
  else
    let fingerprint := ArgString a fingerprint_arg in
    if bool_decide (fingerprint = []) then ToolError (Required "fingerprint")
    else match ResolveEnv ctx a with
         | inl e => ToolError (BadEnv e)
         | inr env =>
             let pinned := scopeIsPinned ctx in
             if pinned && negb (fingerprintInEnv ctx deps (ok 0%nat) d fingerprint env) then ToolError NoGroup
             else
               let impactEnv := if pinned then env else [] in
               match GetImpact (fun n => ok (S n)) d fingerprint impactEnv with
               | Ok im =>
                   let crossEnvAggregate := bool_decide (impactEnv = []) && bool_decide (im_Environment im = []) in
                   if bool_decide (impactEnv = []) && negb (bool_decide (im_Environment im = [])) && negb (scopeAllowsEnv ctx (im_Environment im))
                   then ToolError NoGroup
                   else
                     let users :=
                       if negb (affectedUsersAllowed ctx deps (ok 3%nat) d fingerprint env) then None
                       else match GetAffectedUsers (ok 4%nat) d fingerprint (ArgInt a limit_arg 10 100) with
                            | Ok l => Some l
                            | _ => Some []
                            end in
                     let groupEnv := if bool_decide (im_Environment im = []) then env else im_Environment im in
                     let group :=
                       if hasErrorGroupStore deps then
                         match Get (ok 5%nat) d fingerprint groupEnv with
                         | Ok (k, g) => if scopeAllowsEnv ctx k.2 then Some (k, g) else None
                         | _ => None
                         end
                       else None in
                     Answer (mkImpactAnswer im crossEnvAggregate users group)
               | _ => ToolError (Failed "get impact")
               end
         end.

(** [ErrorsUserErrors]; [since] is the outcome of parsing the window, [gate n] the query for
    the n-th row.  The rows kept, and how many were hidden. *)
Fixpoint keep_rows (ctx : context) (deps : ErrorsDeps) (gate : nat -> bool) (d : DB) (env : bytes) (n : nat) (l : list ErrorSummary)
  : list ErrorSummary :=
  match l with
  | [] => []
  | e :: l =>
      let rest := keep_rows ctx deps gate d env (S n) l in
      if fingerprintInEnv ctx deps (gate n) d (es_Fingerprint e) env then e :: rest else rest
  end.

Definition user_id_arg : bytes := str "user_id".

Definition ErrorsUserErrors (ctx : context) (deps : ErrorsDeps) (ok : bool) (gate : nat -> bool) (d : DB) (a : args) (since : complaint + Z)
  : answer (list ErrorSummary * nat) :=
  if negb (hasErrorImpactStore deps) then ToolError (NotConfigured "ErrorImpactStore")
  else
    let userID := ArgString a user_id_arg in
    if bool_decide (userID = []) then ToolError (Required "user_id")
    else match since with
         | inl c => ToolError c
         | inr since =>
             match ResolveEnv ctx a with
             | inl e => ToolError (BadEnv e)
             | inr env =>
                 match GetUserErrors ok d userID since with
                 | Ok errors =>
                     let kept := if scopeIsPinned ctx then keep_rows ctx deps gate d env 0 errors else errors in
                     match kept with
                     | [] => EmptyResult
                     | _ => Answer (kept, (length errors - length kept)%nat)
                     end
                 | _ => ToolError (Failed "get user errors")
                 end
             end
         end.

Definition maxRankingLimit : Z := 100.
Definition maxRankingScan : Z := 200.

(** [isCriticalPath] (critical.go) *)
Definition isCriticalPath `{Unicode} (patterns fields : list bytes) : bool :=
  if bool_decide (patterns = []) then false
  else existsb (fun f => if bool_decide (f = []) then false
                         else existsb (fun p => Contains (ToLower f) (ToLower p)) patterns) fields.

Record RankingEntry := mkRankingEntry { re_key : ErrorGroups.key; re_group : group; re_critical : bool; re_users : list bytes }.

Definition ranking_entry `{Unicode} (ctx : context) (deps : ErrorsDeps) (gate : ErrorGroups.key -> bool) (d : DB) (r : ErrorGroupWithImpact)
  : RankingEntry :=
  mkRankingEntry (ei_key r) (ei_group r)
    (isCriticalPath (CriticalPaths deps) [g_service (ei_group r); g_message (ei_group r); exception_class (ei_group r)])
    (if affectedUsersAllowed ctx deps (gate (ei_key r)) d (ei_key r).1 (ei_key r).2
     then (fun p : (ErrorGroups.key * bytes) * impact => p.1.2) <$> TopAffectedUsers r else []).

(** [sort.SliceStable]: the critical entries first. *)
Definition critical_first (l : list RankingEntry) : list RankingEntry :=
  filter (fun e => re_critical e = true) l ++ filter (fun e => re_critical e = false) l.

(** [ErrorsRanking]; [since] is the outcome of parsing the window. *)
Definition ErrorsRanking `{Unicode, Conversion} (ctx : context) (deps : ErrorsDeps) (ok : bool) (users_ok gate : ErrorGroups.key -> bool)
    (d : DB) (a : args) (since : complaint + Z) : answer (list RankingEntry) :=
  if negb (hasErrorImpactStore deps) then ToolError (NotConfigured "ErrorImpactStore")
  else match ResolveEnv ctx a with
       | inl e => ToolError (BadEnv e)
       | inr env =>
           let limit := ArgInt a limit_arg 20 maxRankingLimit in
           match since with
           | inl c => ToolError c
           | inr since =>
               let scan := if scopeIsPinned ctx then maxRankingScan else limit in
               match by_status ok a (fun status => TopByImpact ok users_ok d
                       (mkImpactQuery status (ArgString a service_arg) env (Some since) (ArgString a (str "sort_by")) scan)) with
               | Ok results =>
                   let results :=
                     if scopeIsPinned ctx then
                       filter (fun r => (scopeAllowsEnv ctx (ei_key r).2 && (bool_decide (env = []) || bool_decide ((ei_key r).2 = env))) = true) results
                     else results in
                   let results := if limit <? len results then take (Z.to_nat limit) results else results in
                   match results with
                   | [] => EmptyResult
                   | _ => Answer (critical_first (ranking_entry ctx deps gate d <$> results))
                   end
               | _ => ToolError (Failed "get top errors")
               end
           end
       end.

(** *** The users tool (users.go) *)

Definition maxUsersLimit : Z := 200.
Definition defaultUsersLimit : Z := 50.

Definition usersLimit `{Conversion} (a : args) : Z := ArgInt a limit_arg defaultUsersLimit maxUsersLimit.

(** [HandleUserErrors]; [since] is the outcome of [ResolveWindow]. *)
Definition HandleUserErrors `{Conversion} (ctx : context) (deps : ErrorsDeps) (ok : bool) (d : DB) (a : args) (since : complaint + Z)
  : answer (list ErrorSummary) :=
  match ResolveEnv ctx a with
  | inl e => ToolError (BadEnv e)
  | inr _ =>
      if negb (hasErrorImpactStore deps) then ToolError (NotConfigured "ErrorImpactStore")
      else
        let userID := ArgString a user_id_arg in
        if bool_decide (userID = []) then ToolError (Required "user_id")
        else match since with
             | inl c => ToolError c
             | inr since =>
                 match GetUserErrors ok d userID since with
                 | Ok summaries =>
                     let limit := usersLimit a in
                     Answer (if limit <? len summaries then take (Z.to_nat limit) summaries else summaries)
                 | _ => ToolError (Failed "reading this user's errors")
                 end
             end
  end.

(** [HandleUserImpact]: the impact, when it can be read, and the affected users. *)
Definition HandleUserImpact `{Conversion} (ctx : context) (deps : ErrorsDeps) (ok : nat -> bool) (d : DB) (a : args)
  : answer (option ErrorImpact * list ((ErrorGroups.key * bytes) * impact)) :=
  match ResolveEnv ctx a with
  | inl e => ToolError (BadEnv e)
  | inr env =>
      if negb (hasErrorImpactStore deps) then ToolError (NotConfigured "ErrorImpactStore")
      else
        let fingerprint := ArgString a fingerprint_arg in
        if bool_decide (fingerprint = []) then ToolError (Required "fingerprint")
        else if hasErrorGroupStore deps && negb (match Get (ok 0%nat) d fingerprint env with Ok _ => true | _ => false end)
             then ToolError (NoGroupIn env)
        else match GetAffectedUsers (ok 3%nat) d fingerprint (usersLimit a) with
             | Ok users => Answer (match GetImpact (fun n => ok (S n)) d fingerprint env with Ok im => Some im | _ => None end, users)
             | _ => ToolError (Failed "reading affected users")
             end
  end.
End Resolve.

Arguments ToolError {A} c.
Arguments EmptyResult {A}.
Arguments Answer {A} a.

(** ** A pinned caller *)

Section Pinned.
Context {U : Unicode} {K : Conversion} (default_env : bytes).

(** The caller's token names environments, none of them empty, and is no wildcard. *)
Context (sc : EnvScope) (pinned : AllowsAll sc = false) (named_envs : [] ∉ Allowed sc).

Lemma pinned_is : scopeIsPinned (Some sc) = true.
Proof using pinned. cbn. by rewrite pinned. Qed.

Lemma pinned_allows env : scopeAllowsEnv (Some sc) env = true <-> env ∈ Allowed sc.
Proof using pinned. cbn. unfold Allows. rewrite pinned. apply bool_decide_eq_true. Qed.

(** The environment a tool works in is one the token names. *)
Lemma resolved_env a env : ResolveEnv default_env (Some sc) a = inr env -> env ∈ Allowed sc /\ env <> [].
Proof using pinned named_envs.
  assert (Hne : env ∈ Allowed sc -> env <> []) by (intros H ->; done). intros H. enough (env ∈ Allowed sc) by auto.
  unfold ResolveEnv in H. destruct (bool_decide (ArgString a environment = [])); cbn [negb] in H.
  - destruct (SoleEnv sc) as [e |] eqn:Es.
    + injection H as <-. unfold SoleEnv in Es. destruct (Allowed sc) as [| e' []]; [done | | done].
      destruct (bool_decide _); [done |]. injection Es as ->. left.
    + destruct (IsLegacyWildcard sc) eqn:Ew; [| by destruct (IsEmpty sc)]. exfalso. unfold IsLegacyWildcard in Ew.
      apply bool_decide_eq_true in Ew. unfold AllowsAll in pinned. rewrite Ew in pinned. apply bool_decide_eq_false in pinned. apply pinned. left.
  - destruct (Allows sc (ArgString a environment)) eqn:Ea; [| done]. injection H as <-. by apply pinned_allows.
Qed.

Lemma List_rows ok d p rows : List ok d p = Ok rows -> p_Environment p <> [] -> Forall (fun r => r.1.2 = p_Environment p) rows.
Proof.
  unfold List. destruct ok; [cbn [negb] | done]. intros [= <-] Hne. apply Forall_forall. intros r Hr%subseteq_take.
  apply (subseteq_drop (Z.to_nat (p_Offset p))) in Hr. rewrite merge_sort_Permutation in Hr. destruct r as [k g].
  apply elem_of_rows_where in Hr as [_ Hf]. unfold list_filter, column_is in Hf. cbn.
  repeat (apply andb_true_iff in Hf as [Hf ?Hc]). apply orb_true_iff in Hc1 as [Hc1 | Hc1]; by apply bool_decide_eq_true in Hc1.
Qed.

Lemma ListEvents_rows ok d fp env limit l ev : ListEvents ok d fp env limit = Ok l -> env <> [] -> ev ∈ l -> ev_key ev = (fp, env).
Proof.
  unfold ListEvents. destruct ok; [cbn [negb] | done]. intros [= <-] Hne Hev%subseteq_take.
  rewrite merge_sort_Permutation in Hev. apply list_elem_of_filter in Hev as [[Hfp [He | He]]%in_scope_spec _]; [done |].
  destruct (ev_key ev). cbn in *. congruence.
Qed.

(** The users shown for a row are users of that row. *)
Lemma allowed_users deps ok d (k : ErrorGroups.key) users_ok limit l p : reachable d -> k.2 ∈ Allowed sc ->
  affectedUsersAllowed (Some sc) deps ok d k.1 k.2 = true -> GetAffectedUsers users_ok d k.1 limit = Ok l -> p ∈ l -> p.1.1 = k.
Proof using pinned named_envs.
  intros Hd Hk Ha Hl Hp. unfold affectedUsersAllowed in Ha. rewrite pinned_is in Ha. cbn [negb] in Ha.
  destruct (hasErrorGroupStore deps); [cbn [negb] in Ha | done].
  destruct (Get ok d k.1 k.2) as [[k' g] | |] eqn:Eg; [| done..]. destruct (scopeAllowsEnv (Some sc) k'.2); [cbn [negb] in Ha | done].
  apply bool_decide_eq_true in Ha. apply Get_row in Eg as (Hg & Hk1 & [He | He]); [by rewrite He in Hk |].
  assert (k' = k) as -> by (destruct k', k; cbn in *; congruence). by apply (users_of_one_env d k g users_ok limit l).
Qed.

Lemma group_in_env deps ok d fp env : env <> [] -> fingerprintInEnv (Some sc) deps ok d fp env = true -> is_Some (groups d !! (fp, env)).
Proof.
  intros Hne. unfold fingerprintInEnv. destruct (hasErrorGroupStore deps); [cbn [negb] | done].
  destruct (Get ok d fp env) as [[k g] | |] eqn:Eg; [| done..]. intros _. apply Get_row in Eg as (Hg & <- & [He | He]); [done |].
  destruct k. cbn in *. subst. eauto.
Qed.

Lemma by_status_ok {A} ok a (query : option ErrorGroupStatus -> result (list A)) l :
  by_status ok a query = Ok l -> l = [] \/ exists status, query status = Ok l.
Proof. unfold by_status. destruct (status_arg _); [eauto |]. destruct ok; [| done]. intros [= <-]. by left. Qed.

Lemma errors_list_scoped deps ok d a window n rows :
  ErrorsList default_env (Some sc) deps ok d a window = Answer (n, rows) ->
  exists env, env ∈ Allowed sc /\ Forall (fun r => r.1.2 = env) rows /\
    (n = O \/ Count true d (Some ErrorGroupUnresolved) env = Ok n).
Proof using pinned named_envs.
  unfold ErrorsList. destruct (hasErrorGroupStore deps); [cbn [negb] | done].
  destruct (ResolveEnv default_env (Some sc) a) as [e | env] eqn:Er; [done |]. apply resolved_env in Er as [Hin Hne].
  destruct window as [c | active]; [done |]. destruct (by_status _ _ _) as [l | |] eqn:El; [| done..].
  destruct l as [| r l]; [done |]. intros [= <- <-]. exists env. split; [done |]. split.
  - apply by_status_ok in El as [E | [status El]]; [done |]. by apply List_rows in El.
  - unfold Count. destruct (ok 1%nat); cbn; auto.
Qed.

Lemma new_errors_scoped deps ok d a since rows :
  HandleNewErrors default_env (Some sc) deps ok d a since = Answer rows -> exists env, env ∈ Allowed sc /\ Forall (fun r => r.1.2 = env) rows.
Proof using pinned named_envs.
  unfold HandleNewErrors. destruct (hasErrorGroupStore deps); [cbn [negb] | done].
  destruct (ResolveEnv default_env (Some sc) a) as [e | env] eqn:Er; [done |]. apply resolved_env in Er as [Hin Hne].
  destruct (List _ _ _) as [l | |] eqn:El; [| done..]. destruct l as [| r l]; [done |]. intros [= <-]. exists env. split; [done |].
  by apply List_rows in El.
Qed.

Lemma detail_scoped deps ok d a row evs : ErrorsDetail default_env (Some sc) deps ok d a = Answer (row, evs) ->
  row.1.2 ∈ Allowed sc /\ groups d !! row.1 = Some row.2 /\ Forall (fun ev => ev_key ev = row.1) evs.
Proof using pinned named_envs.
  unfold ErrorsDetail. destruct (hasErrorGroupStore deps); [cbn [negb] | done]. destruct (bool_decide _); [done |].
  destruct (ResolveEnv default_env (Some sc) a) as [e | env] eqn:Er; [done |]. apply resolved_env in Er as [Hin Hne].
  destruct (Get _ _ _ env) as [[k g] | |] eqn:Eg; [| done..]. destruct (scopeAllowsEnv (Some sc) k.2) eqn:Ea; [cbn [negb] | done].
  apply pinned_allows in Ea. apply Get_row in Eg as (Hg & Hk & _). intros [= <- <-]. split; [done |]. split; [done |].
  apply Forall_forall. intros ev Hev. destruct (ListEvents _ _ _ _ _) as [l | |] eqn:El; [| by apply not_elem_of_nil in Hev..].
  cbn [fst]. rewrite (surjective_pairing k), Hk. apply (ListEvents_rows _ _ _ _ _ l ev El); [| done]. intros E. by rewrite E in Ea.
Qed.

Lemma impact_scoped deps ok d a r : reachable d -> ErrorsImpact default_env (Some sc) deps ok d a = Answer r ->
  exists env, env ∈ Allowed sc /\
    let k := (ArgString a fingerprint_arg, env) in
    is_Some (groups d !! k) /\ GetImpact (fun n => ok (S n)) d k.1 env = Ok (ia_impact r) /\
    (forall l p, ia_users r = Some l -> p ∈ l -> p.1.1 = k) /\
    (forall row, ia_group r = Some row -> row.1.2 ∈ Allowed sc).
Proof using pinned named_envs.
  intros Hd. unfold ErrorsImpact. destruct (hasErrorImpactStore deps); [cbn [negb] | done].
  set (fp := ArgString a fingerprint_arg). destruct (bool_decide (fp = [])); [done |].
  destruct (ResolveEnv default_env (Some sc) a) as [e | env] eqn:Er; [done |]. apply resolved_env in Er as [Hin Hne].
  rewrite pinned_is. cbn [andb]. destruct (fingerprintInEnv _ _ _ _ _ _) eqn:Ef; [cbn [negb] | done]. apply group_in_env in Ef; [| done].
  destruct (GetImpact _ d fp env) as [im | |] eqn:Ei; [| done..]. rewrite (bool_decide_false _ Hne). cbn [andb]. intros [= <-].
  exists env. split; [done |]. cbn [ia_impact ia_users ia_group fst]. split; [done |]. split; [done |]. split.
  - intros l p Hl Hp. destruct (affectedUsersAllowed _ _ _ _ _ _) eqn:Ea; [cbn [negb] in Hl | done].
    destruct (GetAffectedUsers _ d fp _) as [l' | |] eqn:El; injection Hl as <-; [| by apply not_elem_of_nil in Hp..].
    by apply (allowed_users deps (ok 3%nat) d (fp, env) _ _ _ p Hd Hin Ea El).
  - intros row. destruct (hasErrorGroupStore deps); [| discriminate]. destruct (Get _ _ _ _) as [[k g] | |]; [| discriminate..].
    destruct (Allows sc k.2) eqn:Ea; [| discriminate]. intros [= <-]. by apply pinned_allows.
Qed.

Lemma TopByImpact_rows ok users_ok d p l r : TopByImpact ok users_ok d p = Ok l -> r ∈ l ->
  groups d !! ei_key r = Some (ei_group r) /\
  TopAffectedUsers r = match GetAffectedUsers (users_ok (ei_key r)) d (ei_key r).1 3 with Ok l => l | _ => [] end.
Proof.
  unfold TopByImpact. destruct ok; [cbn [negb] | done]. intros [= <-] ([k g] & -> & Hin)%list_elem_of_fmap. cbn. split; [| done].
  apply subseteq_take in Hin. rewrite merge_sort_Permutation in Hin. by apply elem_of_rows_where in Hin as [Hg _].
Qed.

Lemma elem_of_critical_first e l : e ∈ critical_first l <-> e ∈ l.
Proof.
  unfold critical_first. rewrite elem_of_app, !list_elem_of_filter. destruct (re_critical e); naive_solver.
Qed.

Lemma ranking_scoped deps ok users_ok gate d a since l e : reachable d ->
  ErrorsRanking default_env (Some sc) deps ok users_ok gate d a since = Answer l -> e ∈ l ->
  (re_key e).2 ∈ Allowed sc /\ groups d !! re_key e = Some (re_group e) /\
  forall u, u ∈ re_users e -> is_Some (impacts d !! (re_key e, u)).
Proof using pinned named_envs.
  intros Hd. unfold ErrorsRanking. destruct (hasErrorImpactStore deps); [cbn [negb] | done].
  destruct (ResolveEnv default_env (Some sc) a) as [err | env]; [done |]. destruct since as [c | since]; [done |]. rewrite pinned_is.
  destruct (by_status _ _ _) as [results | |] eqn:El; [| done..].
  set (kept := filter _ results). set (shown := if _ <? len kept then _ else kept).
  destruct shown as [| r0 shown'] eqn:Esh; [done |]. rewrite <- Esh. clear r0 shown' Esh. intros [= <-] He.
  apply elem_of_critical_first, list_elem_of_fmap in He as (r & -> & Hr).
  assert (Hk : r ∈ kept) by (unfold shown in Hr; destruct (_ <? len kept); [by apply subseteq_take in Hr | done]).
  apply list_elem_of_filter in Hk as [[Ha _]%andb_true_iff Hin]. apply pinned_allows in Ha. cbn [ranking_entry re_key re_group re_users].
  assert (Hrow : groups d !! ei_key r = Some (ei_group r) /\
            TopAffectedUsers r = match GetAffectedUsers (users_ok (ei_key r)) d (ei_key r).1 3 with Ok l => l | _ => [] end).
  { apply by_status_ok in El as [-> | [status El]]; [by apply not_elem_of_nil in Hin | by apply (TopByImpact_rows _ _ _ _ _ r El)]. }
  destruct Hrow as [Hg Hu]. split; [done |]. split; [done |]. intros u Hin'.
  destruct (affectedUsersAllowed _ _ _ _ _ _) eqn:Eal; [| by apply not_elem_of_nil in Hin'].
  apply list_elem_of_fmap in Hin' as (p & -> & Hp). rewrite Hu in Hp.
  destruct (GetAffectedUsers _ _ _ _) as [us | |] eqn:Eu; [| by apply not_elem_of_nil in Hp..].
  assert (E := allowed_users deps _ d (ei_key r) _ _ _ p Hd Ha Eal Eu Hp). destruct (elem_of_users _ _ _ _ _ _ Eu Hp) as [_ Hi].
  destruct p as [[k u'] i]. cbn in *. subst k. eauto.
Qed.

Lemma user_errors_scoped deps ok gate d a since kept hidden :
  ErrorsUserErrors default_env (Some sc) deps ok gate d a since = Answer (kept, hidden) ->
  exists env, env ∈ Allowed sc /\ forall e, e ∈ kept -> is_Some (groups d !! (es_Fingerprint e, env)).
Proof using pinned named_envs.
  unfold ErrorsUserErrors. destruct (hasErrorImpactStore deps); [cbn [negb] | done]. destruct (bool_decide _); [done |].
  destruct since as [c | since]; [done |]. destruct (ResolveEnv default_env (Some sc) a) as [err | env] eqn:Er; [done |].
  apply resolved_env in Er as [Hin Hne]. destruct (GetUserErrors _ _ _ _) as [errors | |]; [| done..]. rewrite pinned_is.
  destruct (keep_rows _ _ _ _ _ _ _) as [| e0 l] eqn:Ek; [done |]. rewrite <- Ek. intros [= <- _]. clear Ek. exists env. split; [done |]. intros e.
  generalize 0%nat. induction errors as [| e' errors IH]; intros n; cbn [keep_rows]; [by intros ?%not_elem_of_nil |].
  destruct (fingerprintInEnv _ _ _ _ _ _) eqn:Ef; [| apply IH]. rewrite elem_of_cons. intros [-> | H]; [by apply group_in_env in Ef | by apply (IH (S n))].
Qed.

(** C18: A caller pinned to some environments is shown groups, events, totals and affected users of
    those environments only: by the listings, the detail, the impact and the ranking. *)
Theorem pinned_reads_own_environments (deps : ErrorsDeps) (d : DB) (a : args) : reachable d ->
  (forall ok window n rows, ErrorsList default_env (Some sc) deps ok d a window = Answer (n, rows) ->
     exists env, env ∈ Allowed sc /\ Forall (fun r => r.1.2 = env) rows /\ (n = O \/ Count true d (Some ErrorGroupUnresolved) env = Ok n)) /\
  (forall ok since rows, HandleNewErrors default_env (Some sc) deps ok d a since = Answer rows ->
     exists env, env ∈ Allowed sc /\ Forall (fun r => r.1.2 = env) rows) /\
  (forall ok row evs, ErrorsDetail default_env (Some sc) deps ok d a = Answer (row, evs) ->
     row.1.2 ∈ Allowed sc /\ groups d !! row.1 = Some row.2 /\ Forall (fun ev => ev_key ev = row.1) evs) /\
  (forall ok r, ErrorsImpact default_env (Some sc) deps ok d a = Answer r ->
     exists env, env ∈ Allowed sc /\
       let k := (ArgString a fingerprint_arg, env) in
       is_Some (groups d !! k) /\ GetImpact (fun n => ok (S n)) d k.1 env = Ok (ia_impact r) /\
       (forall l p, ia_users r = Some l -> p ∈ l -> p.1.1 = k) /\
       (forall row, ia_group r = Some row -> row.1.2 ∈ Allowed sc)) /\
  (forall ok users_ok gate since l e, ErrorsRanking default_env (Some sc) deps ok users_ok gate d a since = Answer l -> e ∈ l ->
     (re_key e).2 ∈ Allowed sc /\ groups d !! re_key e = Some (re_group e) /\
     forall u, u ∈ re_users e -> is_Some (impacts d !! (re_key e, u))).
Proof using pinned named_envs.
  intros Hd. split; [intros *; apply errors_list_scoped |]. split; [intros *; apply new_errors_scoped |].
  split; [intros *; apply detail_scoped |]. split; [intros ok r; by apply impact_scoped | intros ok uo gate since l e; by apply ranking_scoped].
Qed.

(** C19: Its transitions move the row of one of its environments to the target state, or change
    nothing; of any other environment nothing changes, and the answer names the one written to. *)
Theorem pinned_writes_own_environments (act : action) (deps : ErrorsDeps) (ok commits : bool) (d : DB) (a : args) (now : Z) :
  let r := lifecycle default_env act (Some sc) deps ok commits d a now in
  (r.1 = d /\ exists c, r.2 = ToolError c) \/
  (exists env, env ∈ Allowed sc /\ r.2 = Answer env /\ same_elsewhere env d r.1 /\
     let k := (ArgString a fingerprint_arg, env) in is_Some (groups d !! k) /\ status_of k r.1 = status_after act).
Proof using pinned named_envs.
  cbn zeta. unfold lifecycle. destruct (hasErrorGroupStore deps); cbn [negb]; [| left; eauto].
  set (fp := ArgString a fingerprint_arg). destruct (bool_decide (fp = [])); [left; eauto |].
  destruct (bool_decide (ArgString a (str "reason") = [])); [left; eauto |].
  unfold resolveWriteEnv. destruct (ResolveEnv default_env (Some sc) a) as [e | env] eqn:Er; [left; eauto |].
  apply resolved_env in Er as [Hin Hne]. rewrite (bool_decide_false _ Hne).
  destruct (Get ok d fp env) as [[k g] | |] eqn:Eg; [| left; eauto..]. apply Get_row in Eg as (Hg & Hk & [He | He]); [done |].
  assert (k = (fp, env)) as -> by (destruct k; cbn in *; congruence).
  assert (Hel := change_elsewhere commits d fp env act (ArgString a (str "reason")) now Hne).
  destruct commits; [| left; eauto].
  assert (Hnamed : named fp env d (fp, env)) by (split; [apply in_scope_spec; auto | eauto]).
  rewrite (changed _ _ _ _ _ _ _ Hnamed) in Hel |- *. cbn [fst snd] in *. right. exists env. split; [done |].
  unfold envLabel. rewrite (bool_decide_false _ Hne). split; [done |]. split; [done |]. split; [eauto |].
  unfold status_of. rewrite lookup_transitioned, Hg. cbn [fmap option_fmap option_map].
  rewrite (proj2 (in_scope_spec fp env (fp, env))) by auto. cbn [andb]. destruct (transitions act g) eqn:Et; [by apply transition_status |].
  apply dec_stable. intros H. apply transitions_spec in H. congruence.
Qed.
End Pinned.

(** ** Samples *)

#[local] Existing Instances ascii_unicode no_conversion.

Definition staging_token : EnvScope := mkEnvScope [staging] (str "u7").
Definition wildcard_token : EnvScope := mkEnvScope [WildcardEnv] (str "u8").
Definition empty_env_token : EnvScope := mkEnvScope [[]] (str "u9").

Definition all_deps : ErrorsDeps := mkErrorsDeps true true [].

Definition of_fingerprint (a : args) : args := (fingerprint_arg, VString boom_fp) :: a.
Definition reason_arg : args := [(str "reason", VString (str "fixed"))].

Lemma pinned_reads_own_environments_witness :
  AllowsAll staging_token = false /\ [] ∉ Allowed staging_token /\ reachable seen_db /\
  match ErrorsList [] (Some staging_token) all_deps always seen_db [] (inr None) with
  | Answer (n, rows) => n = 1%nat /\ rows.*1 = [(boom_fp, staging)] /\ exists env, env ∈ Allowed staging_token /\ Forall (fun r => r.1.2 = env) rows
  | _ => False
  end.
Proof.
  assert (Hp : AllowsAll staging_token = false) by (vm_compute; reflexivity).
  assert (Hn : [] ∉ Allowed staging_token) by (apply (bool_decide_eq_true _); vm_compute; reflexivity).
  split; [exact Hp |]. split; [exact Hn |]. split; [apply seen_db_reachable |].
  destruct (pinned_reads_own_environments [] staging_token Hp Hn all_deps seen_db [] seen_db_reachable) as [H _].
  specialize (H always (inr None)). destruct (ErrorsList _ _ _ _ _ _ _) as [c | | [n rows]] eqn:E; [revert E; vm_compute; discriminate.. |].
  destruct (H n rows eq_refl) as (env & Hin & HF & _). split; [| split; [| eauto]].
  - apply (f_equal (fun r => match r with Answer x => x.1 | _ => O end)) in E. cbn [fst] in E. rewrite <- E. by vm_compute.
  - apply (f_equal (fun r => match r with Answer x => x.2.*1 | _ => [] end)) in E. cbn [snd] in E. rewrite <- E. by vm_compute.
Defined.

Lemma pinned_writes_own_environments_witness :
  let a := of_fingerprint reason_arg in
  let r := lifecycle [] Resolved (Some staging_token) all_deps true true seen_db a 200 in
  AllowsAll staging_token = false /\ [] ∉ Allowed staging_token /\ r.2 = Answer staging /\
  status_of (boom_fp, staging) r.1 = ErrorGroupResolved /\ status_of (boom_fp, prod) r.1 = ErrorGroupUnresolved /\
  ((r.1 = seen_db /\ exists c, r.2 = ToolError c) \/
   (exists env, env ∈ Allowed staging_token /\ r.2 = Answer env /\ same_elsewhere env seen_db r.1 /\
      let k := (ArgString a fingerprint_arg, env) in is_Some (groups seen_db !! k) /\ status_of k r.1 = ErrorGroupResolved)).
Proof.
  assert (Hp : AllowsAll staging_token = false) by (vm_compute; reflexivity).
  assert (Hn : [] ∉ Allowed staging_token) by (apply (bool_decide_eq_true _); vm_compute; reflexivity).
  split; [exact Hp |]. split; [exact Hn |]. split; [by vm_compute |]. split; [by vm_compute |]. split; [by vm_compute |].
  exact (pinned_writes_own_environments [] staging_token Hp Hn Resolved all_deps true true seen_db (of_fingerprint reason_arg) 200).
Defined.

(** ** What the other tools show *)

(** The user ids of an answer. *)
Definition shown_users {A} (r : answer (A * list ((ErrorGroups.key * bytes) * impact))) : list (ErrorGroups.key * bytes) :=
  match r with Answer (_, l) => l.*1 | _ => [] end.

(** The impact action of the users tool shows a caller pinned to staging the users of production:
    the group exists in both environments, and nothing else is checked. *)
Theorem user_impact_crosses_environments :
  reachable seen_db /\ AllowsAll staging_token = false /\
  ((boom_fp, prod), str "ann") ∈ shown_users (HandleUserImpact [] (Some staging_token) all_deps always seen_db (of_fingerprint [])).
Proof.
  split; [apply seen_db_reachable |]. split; [by vm_compute |]. apply (bool_decide_eq_true _). by vm_compute.
Qed.

(** Production, and no other environment, has an error of this user. *)
Definition prod_db : DB :=
  processErrors (fun _ => []) (fun _ => always) always (fun _ => 100) (fun _ => 100) true true empty_db [boom prod (str "ann") 100].

(** The errors action of the users tool shows it an error of production alone. *)
Theorem user_errors_unscoped :
  reachable prod_db /\ AllowsAll staging_token = false /\ groups prod_db !! (boom_fp, staging) = None /\
  match HandleUserErrors [] (Some staging_token) all_deps true prod_db [(user_id_arg, VString (str "ann"))] (inr 0) with
  | Answer [e] => es_Fingerprint e = boom_fp /\ es_Message e <> []
  | _ => False
  end.
Proof.
  split; [eapply reachable_step; [eapply reachable_step; [apply rtc_refl | apply step_upsert_batch] | apply step_track_batch] |].
  split; [by vm_compute |]. split; [by vm_compute |]. vm_compute. split; [reflexivity | discriminate].
Qed.

(** The user_errors action of the errors tool asks only whether the fingerprint is also known in
    the caller's environment: it shows what a user met in production. *)
Theorem user_errors_cross_environments :
  match ErrorsUserErrors [] (Some staging_token) all_deps true always seen_db [(user_id_arg, VString (str "ann"))] (inr 0) with
  | Answer ([e], hidden) => es_Fingerprint e = boom_fp /\ es_OccurrenceCount e = 1 /\ hidden = O
  | _ => False
  end /\
  hits_of (boom_fp, staging) (str "ann") seen_db = 0.
Proof. by vm_compute. Qed.

Definition ranked (r : answer (list RankingEntry)) : list ErrorGroups.key := match r with Answer l => re_key <$> l | _ => [] end.

Definition listed (r : answer (nat * list (ErrorGroups.key * group))) : list ErrorGroups.key :=
  match r with Answer (_, l) => l.*1 | _ => [] end.

(** The ranking ignores the environment a wildcard caller asks for. *)
Theorem ranking_ignores_environment :
  (boom_fp, prod) ∈
    ranked (ErrorsRanking [] (Some wildcard_token) all_deps true always always seen_db [(environment, VString staging)] (inr 0)).
Proof. apply (bool_decide_eq_true _). by vm_compute. Qed.

(** A wildcard caller that names no environment resolves in the default one alone. *)
Theorem wildcard_resolves_default_only :
  let r := lifecycle [] Resolved (Some wildcard_token) all_deps true true seen_db (of_fingerprint reason_arg) 200 in
  r.2 = Answer prod /\ status_of (boom_fp, prod) r.1 = ErrorGroupResolved /\ status_of (boom_fp, staging) r.1 = ErrorGroupUnresolved.
Proof. by vm_compute. Qed.

(** A token for the empty environment, and no other, lists the groups of all. *)
Theorem empty_environment_sees_all :
  AllowsAll empty_env_token = false /\
  let l := listed (ErrorsList [] (Some empty_env_token) all_deps always seen_db [] (inr None)) in
  (boom_fp, prod) ∈ l /\ (boom_fp, staging) ∈ l.
Proof. split; [by vm_compute |]. split; apply (bool_decide_eq_true _); by vm_compute. Qed.
