(* ===== verification/Accounts.v ===== *)
(** * Accounts (internal/adapter/sqlite/user_store.go, internal/routes/auth, internal/mcp/tools/admin_users.go)

    The table of users with the operations of its store, the tools that change roles and remove
    users, the tracker of failed logins, and [connect], which makes the first administrator and
    hands out MCP tokens.
    Main results: once there is an active administrator there always is one; only one
    administrator is ever made by a first connection; a token handed out is accepted; a password
    is guessed at most five times in any lockout span, when the guesses are made one by one. *)

From stdpp Require Import base list gmap strings numbers sorting.
From Stdlib Require Import ZArith Lia.
From S2P Require Import Prelude Schema Query Guard.

(** ** Users *)

Definition RoleAdmin : bytes := str "admin".
Definition RoleMember : bytes := str "member".

(** A row of the table; its environments are the list that the column holds as JSON, and times
    are in seconds. *)
Record User := mkUser {
  user_ID : bytes;
  Email : bytes;
  PasswordHash : bytes;
  DisplayName : bytes;
  Role : bytes;
  MCPToken : option bytes;
  MCPEnabled : bool;
  IsActive : bool;
  AllowedEnvironments : list bytes;
  user_CreatedAt : Z;
  user_UpdatedAt : Z;
  last_catchup_at : option Z
}.

#[export] Instance User_eq_dec : EqDecision User.
Proof. solve_decision. Defined.

Inductive store_error := ErrEmailTaken | ErrNotFound | ErrLastAdmin | ErrDB.

Record CreateUserParams := mkCreateParams {
  cp_Email : bytes;
  cp_PasswordHash : bytes;
  cp_DisplayName : bytes;
  cp_Role : bytes;
  cp_MCPToken : option bytes;
  cp_AllowedEnvironments : list bytes
}.

Record UpdateUserParams := mkUpdateParams {
  up_DisplayName : option bytes;
  up_Role : option bytes;
  up_MCPEnabled : option bool;
  up_IsActive : option bool;
  up_AllowedEnvironments : option (list bytes)
}.

(** The CHECK of the role column. *)
Definition role_allowed (role : bytes) : bool := bool_decide (role = RoleAdmin) || bool_decide (role = RoleMember).

Definition has_token (u : User) : bool := match MCPToken u with Some _ => true | None => false end.

(** The UNIQUE of the token column, which does not relate NULLs. *)
Definition token_taken (token : option bytes) (users : list User) : bool :=
  match token with Some _ => existsb (fun u => bool_decide (MCPToken u = token)) users | None => false end.

(** [userStore.Create]: [id] and [now] are the new identifier and the clock, [ok] whether the
    database answers. *)
Definition Create (ok : bool) (id : bytes) (now : Z) (params : CreateUserParams) (users : list User) : list User * (User + store_error) :=
  let role := if bool_decide (cp_Role params = []) then RoleMember else cp_Role params in
  let u := mkUser id (cp_Email params) (cp_PasswordHash params) (cp_DisplayName params) role (cp_MCPToken params)
             (match cp_MCPToken params with Some _ => true | None => false end) true (cp_AllowedEnvironments params) now now None in
  if negb ok || negb (role_allowed role) || existsb (fun u => bool_decide (user_ID u = id)) users || token_taken (cp_MCPToken params) users
  then (users, inr ErrDB)
  else if existsb (fun u => bool_decide (Email u = cp_Email params)) users then (users, inr ErrEmailTaken)
  else (users ++ [u], inl u).

(** [getUser], for its three conditions. *)
Definition getUser (ok : bool) (P : User -> bool) (users : list User) : User + store_error :=
  if negb ok then inr ErrDB else match head (filter (fun u => P u = true) users) with Some u => inl u | None => inr ErrNotFound end.

Definition GetByID (ok : bool) (id : bytes) := getUser ok (fun u => bool_decide (user_ID u = id)).
Definition GetByEmail (ok : bool) (email : bytes) := getUser ok (fun u => bool_decide (Email u = email)).
Definition GetByMCPToken (ok : bool) (token : bytes) :=
  getUser ok (fun u => bool_decide (MCPToken u = Some token) && MCPEnabled u && IsActive u).

Definition active_admin (u : User) : bool := bool_decide (Role u = RoleAdmin) && IsActive u.

(** [checkLastAdminTx] *)
Definition checkLastAdminTx (id : bytes) (users : list User) : option store_error :=
  match GetByID true id users with
  | inr e => Some e
  | inl u =>
      if negb (active_admin u) then None
      else if existsb (fun v => active_admin v && negb (bool_decide (user_ID v = id))) users then None
      else Some ErrLastAdmin
  end.

(** UPDATE of the rows of an id. *)
Definition update_where (id : bytes) (f : User -> User) (users : list User) : list User :=
  (fun u => if bool_decide (user_ID u = id) then f u else u) <$> users.

Definition exists_id (id : bytes) (users : list User) : bool := existsb (fun u => bool_decide (user_ID u = id)) users.

(** The SET clauses of [userStore.Update]. *)
Definition apply_update (now : Z) (params : UpdateUserParams) (u : User) : User :=
  mkUser (user_ID u) (Email u) (PasswordHash u) (default (DisplayName u) (up_DisplayName params)) (default (Role u) (up_Role params))
    (MCPToken u) (default (MCPEnabled u) (up_MCPEnabled params)) (default (IsActive u) (up_IsActive params))
    (default (AllowedEnvironments u) (up_AllowedEnvironments params)) (user_CreatedAt u) now (last_catchup_at u).

(** [demotesAdmin] of [userStore.Update]. *)
Definition demotesAdmin (params : UpdateUserParams) : bool :=
  bool_decide (up_Role params = Some RoleMember) || bool_decide (up_IsActive params = Some false).

(** Its transaction. *)
Definition update_tx (ok : bool) (now : Z) (id : bytes) (params : UpdateUserParams) (users : list User) : list User * option store_error :=
  match (if demotesAdmin params then checkLastAdminTx id users else None) with
  | Some e => (users, Some e)
  | None =>
      if negb ok then (users, Some ErrDB)
      else if negb (exists_id id users) then (users, Some ErrNotFound)
      else if negb (match up_Role params with Some role => role_allowed role | None => true end) then (users, Some ErrDB)
      else (update_where id (apply_update now params) users, None)
  end.

(** [userStore.Update]; [get_ok] is for the read after the transaction. *)
Definition Update (ok get_ok : bool) (now : Z) (id : bytes) (params : UpdateUserParams) (users : list User) : list User * (User + store_error) :=
  match update_tx ok now id params users with
  | (users, Some e) => (users, inr e)
  | (users, None) => (users, GetByID get_ok id users)
  end.

(** The UPDATEs of one column: [None] when they succeed. *)
Definition update_one (ok : bool) (id : bytes) (f : User -> User) (users : list User) : list User * option store_error :=
  if negb ok then (users, Some ErrDB) else (update_where id f users, if exists_id id users then None else Some ErrNotFound).

Definition UpdatePassword (ok : bool) (now : Z) (id hash : bytes) (users : list User) : list User * option store_error :=
  update_one ok id (fun u => mkUser (user_ID u) (Email u) hash (DisplayName u) (Role u) (MCPToken u) (MCPEnabled u) (IsActive u)
    (AllowedEnvironments u) (user_CreatedAt u) now (last_catchup_at u)) users.

Definition set_token (now : Z) (token : bytes) (u : User) : User :=
  mkUser (user_ID u) (Email u) (PasswordHash u) (DisplayName u) (Role u) (Some token) (MCPEnabled u) (IsActive u)
    (AllowedEnvironments u) (user_CreatedAt u) now (last_catchup_at u).

(** [UpdateMCPToken]: a token of another user violates the constraint. *)
Definition UpdateMCPToken (ok : bool) (now : Z) (id token : bytes) (users : list User) : list User * option store_error :=
  if exists_id id users && existsb (fun u => bool_decide (MCPToken u = Some token) && negb (bool_decide (user_ID u = id))) users
  then (users, Some ErrDB)
  else update_one ok id (set_token now token) users.

(** [userStore.Delete] *)
Definition Delete (ok : bool) (id : bytes) (users : list User) : list User * option store_error :=
  match checkLastAdminTx id users with
  | Some e => (users, Some e)
  | None => if negb ok then (users, Some ErrDB) else (filter (fun u => user_ID u <> id) users, None)
  end.

Definition Count (ok : bool) (users : list User) : option nat := if ok then Some (length users) else None.

(** [CatchupCursor]; [None] inside is the zero time. *)
Definition CatchupCursor (ok : bool) (id : bytes) (users : list User) : option Z + store_error :=
  match GetByID ok id users with inl u => inl (last_catchup_at u) | inr e => inr e end.

(** [SetCatchupCursor] *)
Definition SetCatchupCursor (ok : bool) (id : bytes) (at_ : Z) (users : list User) : list User * option store_error :=
  if negb ok then (users, Some ErrDB)
  else
    let forward u := match last_catchup_at u with None => true | Some t => t <? at_ end in
    ((fun u => if bool_decide (user_ID u = id) && forward u then
        mkUser (user_ID u) (Email u) (PasswordHash u) (DisplayName u) (Role u) (MCPToken u) (MCPEnabled u) (IsActive u)
          (AllowedEnvironments u) (user_CreatedAt u) (user_UpdatedAt u) (Some at_)
      else u) <$> users,
     if exists_id id users then None else Some ErrNotFound).

(** *** The tools *)

(** A tool answers with an error text or with the user it changed. *)
Inductive tool_result := ToolError | ToolUser (u : User).

Definition tool_of (r : list User * (User + store_error)) : list User * tool_result :=
  (r.1, match r.2 with inl u => ToolUser u | inr _ => ToolError end).

(** [HandleUpdateRole] *)
Definition HandleUpdateRole (ok get_ok : bool) (now : Z) (userID roleStr : bytes) (users : list User) : list User * tool_result :=
  if bool_decide (userID = []) then (users, ToolError)
  else if negb (bool_decide (roleStr = str "admin")) && negb (bool_decide (roleStr = str "member")) then (users, ToolError)
  else tool_of (Update ok get_ok now userID (mkUpdateParams None (Some roleStr) None None None) users).

(** [HandleToggleActive]; [None] is an argument that is not a bool. *)
Definition HandleToggleActive (ok get_ok : bool) (now : Z) (userID : bytes) (active : option bool) (users : list User) : list User * tool_result :=
  if bool_decide (userID = []) then (users, ToolError)
  else match active with
       | None => (users, ToolError)
       | Some b => tool_of (Update ok get_ok now userID (mkUpdateParams None None None (Some b) None) users)
       end.

(** [HandleDeleteUser] *)
Definition HandleDeleteUser (ok get_ok : bool) (userID : bytes) (users : list User) : list User * tool_result :=
  if bool_decide (userID = []) then (users, ToolError)
  else match GetByID get_ok userID users with
       | inr _ => (users, ToolError)
       | inl u => match Delete ok userID users with
                  | (users, Some _) => (users, ToolError)
                  | (users, None) => (users, ToolUser u)
                  end
       end.

(** ** Failed logins *)

(** A lockout or a failure that never happened is a zero time. *)
Record loginAttempt := mkAttempt { failures : Z; lockedAt : option Z; lastFailure : option Z }.

Notation loginTracker := (gmap bytes loginAttempt).

Definition maxFailedLogins : Z := 5.
Definition lockoutDuration : Z := 900000000000.
Definition failureDecayWindow : Z := 3600000000000.
Definition maxTrackedLogins : nat := Z.to_nat 10000.

(** [now.Sub(t) > d]; the zero time is further away than any duration. *)
Definition older (now d : Z) (t : option Z) : bool := match t with Some t => d <? now - t | None => true end.

(** [expired] *)
Definition attempt_expired (now : Z) (a : loginAttempt) : bool :=
  if match lockedAt a with Some t => now - t <=? lockoutDuration | None => false end then false
  else older now failureDecayWindow (lastFailure a).

(** [pruneLocked] *)
Definition pruneLocked (now : Z) (lt : loginTracker) : loginTracker :=
  if bool_decide (base.size lt < maxTrackedLogins)%nat then lt
  else
    let lt := filter (fun e : bytes * loginAttempt => attempt_expired now e.2 = false) lt in
    if bool_decide (base.size lt < maxTrackedLogins)%nat then lt
    else filter (fun e : bytes * loginAttempt => older now lockoutDuration (lockedAt e.2) = false) lt.

(** What [recordFailure] makes of an entry. *)
Definition fail_entry (now : Z) (a : loginAttempt) : loginAttempt :=
  let a := if match lastFailure a with Some t => failureDecayWindow <? now - t | None => false end
           then mkAttempt 0 None (lastFailure a) else a in
  let n := failures a + 1 in
  mkAttempt n (if maxFailedLogins <=? n then Some now else lockedAt a) (Some now).

(** [recordFailure] *)
Definition recordFailure (now : Z) (email : bytes) (lt : loginTracker) : loginTracker :=
  match lt !! email with
  | Some a => <[email := fail_entry now a]> lt
  | None => <[email := fail_entry now (mkAttempt 0 None None)]> (pruneLocked now lt)
  end.

(** [isLocked] *)
Definition isLocked (now : Z) (email : bytes) (lt : loginTracker) : loginTracker * bool :=
  match lt !! email with
  | None => (lt, false)
  | Some a =>
      if attempt_expired now a then (delete email lt, false)
      else match lockedAt a with
           | None => (lt, false)
           | Some t => if lockoutDuration <? now - t then (delete email lt, false) else (lt, true)
           end
  end.

(** [recordSuccess] *)
Definition recordSuccess (email : bytes) (lt : loginTracker) : loginTracker := delete email lt.

(** ** Connecting *)

(** The password hashes; the first argument of the generator is its salt, and it fails on long
    passwords. *)
Class Bcrypt := {
  GenerateFromPassword : bytes -> bytes -> option bytes;
  CompareHashAndPassword : bytes -> bytes -> bool
}.

Record connectRequest := mkConnect { req_Email : bytes; req_Password : bytes; req_Environments : list bytes }.

(** [scopeMode] *)
Definition scopeMode (envs : list bytes) : bytes :=
  match envs with
  | [] => str "denied"
  | [e] => if bool_decide (e = str "*") then str "legacy_wildcard" else str "single"
  | _ => str "multi"
  end.

Inductive response :=
  | Failed (status : Z)
  | Connected (status : Z) (token : bytes) (created_admin : bool) (envs : list bytes) (mode id email role : bytes).

(** What a connection draws from outside: the answers of the database to its calls, the clock in
    seconds and in nanoseconds, a fresh id, the salt, and a token. *)
Record world := mkWorld {
  count_ok : bool; create_ok : bool; get_ok : bool; token_ok : bool; enable_ok : bool; reread_ok : bool;
  now_s : Z; now_ns : Z; fresh_id : bytes; salt : bytes; fresh_token : option bytes
}.

Section Connect.
Context {B : Bcrypt}.

(** [handleConnectCreateAdmin] *)
Definition handleConnectCreateAdmin (w : world) (req : connectRequest) (users : list User) : list User * response :=
  if len (req_Password req) <? 12 then (users, Failed 400)
  else match GenerateFromPassword (salt w) (req_Password req) with
       | None => (users, Failed 500)
       | Some hash =>
           match fresh_token w with
           | None => (users, Failed 500)
           | Some mcpToken =>
               let displayName := default [] (head (Split (req_Email req) 64)) in
               let envs := if bool_decide (req_Environments req = []) then [str "production"] else req_Environments req in
               match Create (create_ok w) (fresh_id w) (now_s w)
                       (mkCreateParams (req_Email req) hash displayName RoleAdmin (Some mcpToken) envs) users with
               | (users, inr _) => (users, Failed 500)
               | (users, inl u) => (users, Connected 201 mcpToken true envs (scopeMode envs) (user_ID u) (Email u) (Role u))
               end
           end
       end.

(** [handleConnectLogin] between the check of the lockout and the outcome of the password. *)
Definition credentials (w : world) (req : connectRequest) (users : list User) : User + Z :=
  match GetByEmail (get_ok w) (req_Email req) users with
  | inr _ => inr 401
  | inl u => if negb (IsActive u) then inr 403
             else if CompareHashAndPassword (PasswordHash u) (req_Password req) then inl u else inr 401
  end.

(** After the password: the token of the user, a new one if it has none, and MCP enabled. *)
Definition issue_token (w : world) (u : User) (users : list User) : list User * response :=
  let saved :=
    match MCPToken u with
    | Some (b :: t) => inl (users, b :: t)
    | _ => match fresh_token w with
           | None => inr users
           | Some newToken => match UpdateMCPToken (token_ok w) (now_s w) (user_ID u) newToken users with
                              | (users, Some _) => inr users
                              | (users, None) => inl (users, newToken)
                              end
           end
    end in
  match saved with
  | inr users => (users, Failed 500)
  | inl (users, mcpToken) =>
      let users := if MCPEnabled u then users
                   else (Update (enable_ok w) (reread_ok w) (now_s w) (user_ID u) (mkUpdateParams None None (Some true) None None) users).1 in
      (users, Connected 200 mcpToken false (AllowedEnvironments u) (scopeMode (AllowedEnvironments u)) (user_ID u) (Email u) (Role u))
  end.

(** [handleConnectLogin] *)
Definition handleConnectLogin (w : world) (req : connectRequest) (users : list User) (lt : loginTracker) : list User * loginTracker * response :=
  let '(lt, locked) := isLocked (now_ns w) (req_Email req) lt in
  if locked then (users, lt, Failed 429)
  else match credentials w req users with
       | inr status => (users, recordFailure (now_ns w) (req_Email req) lt, Failed status)
       | inl u => let '(users, resp) := issue_token w u users in (users, recordSuccess (req_Email req) lt, resp)
       end.

(** [handleConnect]; [None] is a body that is not JSON. *)
Definition handleConnect (w : world) (body : option connectRequest) (users : list User) (lt : loginTracker) : list User * loginTracker * response :=
  match body with
  | None => (users, lt, Failed 400)
  | Some req =>
      let req := mkConnect (TrimSpace (req_Email req)) (req_Password req) (req_Environments req) in
      if bool_decide (req_Email req = []) || bool_decide (req_Password req = []) then (users, lt, Failed 400)
      else match Count (count_ok w) users with
           | None => (users, lt, Failed 500)
           | Some O => let '(users, resp) := handleConnectCreateAdmin w req users in (users, lt, resp)
           | Some (S _) => handleConnectLogin w req users lt
           end
  end.

(** What changes the table: connections, the tools, users made for a proxy, and the other
    operations of the store. *)
Inductive account_event :=
  | EvConnect (w : world) (body : option connectRequest)
  | EvRole (ok get_ok : bool) (now : Z) (userID role : bytes)
  | EvActive (ok get_ok : bool) (now : Z) (userID : bytes) (active : option bool)
  | EvDelete (ok get_ok : bool) (userID : bytes)
  | EvCreate (ok : bool) (id : bytes) (now : Z) (params : CreateUserParams)
  | EvUpdate (ok get_ok : bool) (now : Z) (id : bytes) (params : UpdateUserParams)
  | EvPassword (ok : bool) (now : Z) (id hash : bytes)
  | EvToken (ok : bool) (now : Z) (id token : bytes)
  | EvCursor (ok : bool) (id : bytes) (at_ : Z).

Definition account_step (ev : account_event) (users : list User) (lt : loginTracker) : list User * loginTracker * option response :=
  match ev with
  | EvConnect w body => let '(users, lt, resp) := handleConnect w body users lt in (users, lt, Some resp)
  | EvRole ok get_ok now userID role => ((HandleUpdateRole ok get_ok now userID role users).1, lt, None)
  | EvActive ok get_ok now userID active => ((HandleToggleActive ok get_ok now userID active users).1, lt, None)
  | EvDelete ok get_ok userID => ((HandleDeleteUser ok get_ok userID users).1, lt, None)
  | EvCreate ok id now params => ((Create ok id now params users).1, lt, None)
  | EvUpdate ok get_ok now id params => ((Update ok get_ok now id params users).1, lt, None)
  | EvPassword ok now id hash => ((UpdatePassword ok now id hash users).1, lt, None)
  | EvToken ok now id token => ((UpdateMCPToken ok now id token users).1, lt, None)
  | EvCursor ok id at_ => ((SetCatchupCursor ok id at_ users).1, lt, None)
  end.

(** The table and the answers after some events. *)
Fixpoint account_run (evs : list account_event) (users : list User) (lt : loginTracker) : list User * loginTracker * list response :=
  match evs with
  | [] => (users, lt, [])
  | ev :: evs =>
      let '(users, lt, resp) := account_step ev users lt in
      let '(users, lt, out) := account_run evs users lt in
      (users, lt, match resp with Some r => r :: out | None => out end)
  end.
End Connect.

(** ** The table is well formed *)

Record users_ok (users : list User) : Prop := mkUsersOk {
  uo_ids : NoDup (user_ID <$> users);
  uo_emails : NoDup (Email <$> users);
  uo_tokens : forall u v t, u ∈ users -> v ∈ users -> MCPToken u = Some t -> MCPToken v = Some t -> user_ID u = user_ID v;
  uo_roles : forall u, u ∈ users -> role_allowed (Role u) = true
}.

Lemma existsb_In {A} (P : A -> bool) (l : list A) : existsb P l = true <-> exists x, x ∈ l /\ P x = true.
Proof. rewrite existsb_exists. split; intros (x & H & HP); exists x; (split; [by apply list_elem_of_In | done]). Qed.

Lemma no_user_exists {A} (P : A -> bool) (l : list A) : existsb P l = false <-> forall x, x ∈ l -> P x = false.
Proof.
  rewrite <- not_true_iff_false, existsb_In. split.
  - intros H x Hx. apply not_true_iff_false. intros HP. apply H. eauto.
  - intros H (x & Hx & HP). by rewrite H in HP.
Qed.

Lemma same_user users u v : NoDup (user_ID <$> users) -> u ∈ users -> v ∈ users -> user_ID u = user_ID v -> u = v.
Proof.
  intros Hn Hu Hv E. apply list_elem_of_lookup in Hu as [i Hi], Hv as [j Hj].
  assert (i = j) as <-; [| congruence].
  apply (NoDup_lookup (user_ID <$> users) i j (user_ID u)); [done | by rewrite list_lookup_fmap, Hi | by rewrite list_lookup_fmap, Hj, E].
Qed.

(** A read finds a row with its condition. *)
Lemma getUser_spec ok P users u : getUser ok P users = inl u -> u ∈ users /\ P u = true.
Proof.
  unfold getUser. destruct ok; cbn [negb]; [| done]. destruct (head (filter _ users)) as [v |] eqn:E; [| done]. intros [= <-].
  assert (Hin : v ∈ filter (fun u => P u = true) users) by (destruct (filter _ users); [done | injection E as ->; by left]).
  apply list_elem_of_filter in Hin. tauto.
Qed.

Lemma getUser_found P users u : u ∈ users -> P u = true -> exists v, getUser true P users = inl v.
Proof.
  intros Hu HP. unfold getUser. cbn [negb]. assert (Hin : u ∈ filter (fun u => P u = true) users) by (by apply list_elem_of_filter).
  destruct (filter _ users) as [| v l]; [by apply not_elem_of_nil in Hin | by exists v].
Qed.

Lemma getUser_unique P users u : (forall v, v ∈ users -> P v = true -> v = u) -> u ∈ users -> P u = true -> getUser true P users = inl u.
Proof.
  intros Hone Hu HP. destruct (getUser_found P users u Hu HP) as [v Hv]. rewrite Hv. apply getUser_spec in Hv as [Hv HPv]. by rewrite (Hone v).
Qed.

Lemma GetByID_unique users u : users_ok users -> u ∈ users -> GetByID true (user_ID u) users = inl u.
Proof.
  intros Hok Hu. apply getUser_unique; [| done | by rewrite bool_decide_eq_true]. intros v Hv E%bool_decide_eq_true.
  by apply (same_user users); [apply uo_ids | ..].
Qed.

(** *** The operations keep it *)

(** A change of some rows that keeps what the constraints read. *)
Lemma map_ok f users : users_ok users ->
  (forall u, u ∈ users -> user_ID (f u) = user_ID u /\ Email (f u) = Email u /\ MCPToken (f u) = MCPToken u /\ role_allowed (Role (f u)) = true) ->
  users_ok (f <$> users).
Proof.
  intros Hok Hf.
  assert (Hids : user_ID <$> (f <$> users) = user_ID <$> users).
  { rewrite <- list_fmap_compose. apply list_fmap_ext. intros i u Hi. cbn. by apply Hf, (list_elem_of_lookup_2 _ i). }
  assert (Hems : Email <$> (f <$> users) = Email <$> users).
  { rewrite <- list_fmap_compose. apply list_fmap_ext. intros i u Hi. cbn. by apply Hf, (list_elem_of_lookup_2 _ i). }
  constructor; [rewrite Hids; apply Hok | rewrite Hems; apply Hok | |].
  - intros u v t (u' & -> & Hu)%list_elem_of_fmap (v' & -> & Hv)%list_elem_of_fmap.
    destruct (Hf u' Hu) as (-> & _ & -> & _), (Hf v' Hv) as (-> & _ & -> & _). by apply (uo_tokens _ Hok).
  - intros u (u' & -> & Hu)%list_elem_of_fmap. by apply Hf.
Qed.

Lemma update_one_ok ok id f users : users_ok users ->
  (forall u, u ∈ users -> user_ID u = id -> user_ID (f u) = user_ID u /\ Email (f u) = Email u /\ MCPToken (f u) = MCPToken u /\ role_allowed (Role (f u)) = true) ->
  users_ok (update_one ok id f users).1.
Proof.
  intros Hok Hf. unfold update_one. destruct ok; [| done]. cbn [negb fst]. apply map_ok; [done |]. intros u Hu.
  case_bool_decide; [by apply Hf |]. split_and!; [done | done | done | by apply (uo_roles _ Hok)].
Qed.

Lemma Create_ok ok id now params users : users_ok users -> users_ok (Create ok id now params users).1.
Proof.
  intros Hok. unfold Create. destruct (negb ok || _ || _ || _) eqn:E; [done |]. destruct (existsb (fun u => bool_decide (Email u = cp_Email params)) users) eqn:Ee; [done |]. cbn [fst].
  rewrite !orb_false_iff in E. destruct E as [[[_ Hr%negb_false_iff] Hid] Ht].
  assert (Hids : forall v, v ∈ users -> user_ID v <> id) by (intros v Hv; apply (proj1 (no_user_exists _ _) Hid) in Hv; by apply bool_decide_eq_false in Hv).
  assert (Hems : forall v, v ∈ users -> Email v <> cp_Email params) by (intros v Hv; apply (proj1 (no_user_exists _ _) Ee) in Hv; by apply bool_decide_eq_false in Hv).
  assert (Htk : forall v t, v ∈ users -> cp_MCPToken params = Some t -> MCPToken v <> Some t).
  { intros v t Hv Hp. unfold token_taken in Ht. rewrite Hp in Ht. apply (proj1 (no_user_exists _ _) Ht) in Hv. by apply bool_decide_eq_false in Hv. }
  constructor.
  - rewrite fmap_app. apply NoDup_app. split_and!; [apply Hok | | apply NoDup_singleton]. intros i (v & -> & Hv)%list_elem_of_fmap Hi%list_elem_of_singleton. by apply (Hids v).
  - rewrite fmap_app. apply NoDup_app. split_and!; [apply Hok | | apply NoDup_singleton]. intros i (v & -> & Hv)%list_elem_of_fmap Hi%list_elem_of_singleton. by apply (Hems v).
  - intros u v t [Hu | ->%list_elem_of_singleton]%elem_of_app [Hv | ->%list_elem_of_singleton]%elem_of_app Htu Htv; cbn [MCPToken] in *; [by apply (uo_tokens _ Hok _ _ t) | | | done].
    + by destruct (Htk u t).
    + by destruct (Htk v t).
  - intros u [Hu | ->%list_elem_of_singleton]%elem_of_app; [by apply Hok | done].
Qed.

Lemma update_tx_ok ok now id params users : users_ok users -> users_ok (update_tx ok now id params users).1.
Proof.
  intros Hok. unfold update_tx. destruct (if demotesAdmin params then _ else _); [done |]. destruct ok; [| done]. cbn [negb].
  destruct (exists_id id users); [| done]. cbn [negb]. destruct (match up_Role params with Some _ => _ | None => _ end) eqn:Hr; [| done]. cbn [negb fst].
  apply map_ok; [done |]. intros u Hu. assert (Hru := uo_roles _ Hok u Hu). case_bool_decide; [| done]. cbn. split_and!; [done | done | done |].
  by destruct (up_Role params).
Qed.

Lemma Update_fst ok get_ok now id params users : (Update ok get_ok now id params users).1 = (update_tx ok now id params users).1.
Proof. unfold Update. by destruct (update_tx ok now id params users) as [users' [e |]]. Qed.

Lemma UpdateMCPToken_ok ok now id token users : users_ok users -> users_ok (UpdateMCPToken ok now id token users).1.
Proof.
  intros Hok. unfold UpdateMCPToken. destruct (exists_id id users) eqn:Hex; cbn [andb].
  2: { apply update_one_ok; [done |]. intros u Hu E. unfold exists_id in Hex. apply (proj1 (no_user_exists _ _) Hex) in Hu. by apply bool_decide_eq_false in Hu. }
  destruct (existsb _ users) eqn:Et; [done |]. unfold update_one. destruct ok; [| done]. cbn [negb fst].
  assert (Hno : forall v, v ∈ users -> MCPToken v = Some token -> user_ID v = id).
  { intros v Hv Ht. apply (proj1 (no_user_exists _ _) Et) in Hv. rewrite bool_decide_true in Hv by done. cbn in Hv. by apply negb_false_iff, bool_decide_eq_true in Hv. }
  set (f := fun u => if bool_decide (user_ID u = id) then set_token now token u else u).
  assert (Hf : forall u, user_ID (f u) = user_ID u /\ Email (f u) = Email u /\ Role (f u) = Role u) by (intros u; unfold f; by case_bool_decide).
  change (update_where id (set_token now token) users) with (f <$> users). constructor.
  - rewrite <- list_fmap_compose. erewrite list_fmap_ext; [apply (uo_ids _ Hok) |]. intros i u _. apply Hf.
  - rewrite <- list_fmap_compose. erewrite list_fmap_ext; [apply (uo_emails _ Hok) |]. intros i u _. apply Hf.
  - intros u v t (u' & -> & Hu)%list_elem_of_fmap (v' & -> & Hv)%list_elem_of_fmap. unfold f.
    destruct (decide (user_ID u' = id)) as [Eu | Nu], (decide (user_ID v' = id)) as [Ev | Nv];
      rewrite ?(bool_decide_true (user_ID u' = id)), ?(bool_decide_true (user_ID v' = id)), ?(bool_decide_false (user_ID u' = id)), ?(bool_decide_false (user_ID v' = id)) by done;
      cbn [set_token MCPToken user_ID]; intros H1 H2; [congruence | | | by apply (uo_tokens _ Hok _ _ t)].
    + injection H1 as <-. by destruct (Nv (Hno v' Hv H2)).
    + injection H2 as <-. by destruct (Nu (Hno u' Hu H1)).
  - intros u (u' & -> & Hu)%list_elem_of_fmap. rewrite (proj2 (proj2 (Hf u'))). by apply Hok.
Qed.

Lemma Delete_ok ok id users : users_ok users -> users_ok (Delete ok id users).1.
Proof.
  intros Hok. unfold Delete. destruct (checkLastAdminTx id users); [done |]. destruct ok; [| done]. cbn [negb fst].
  assert (Hsub : filter (fun u => user_ID u <> id) users `sublist_of` users) by apply sublist_filter.
  constructor.
  - eapply sublist_NoDup; [apply (uo_ids _ Hok) | by apply fmap_sublist].
  - eapply sublist_NoDup; [apply (uo_emails _ Hok) | by apply fmap_sublist].
  - intros u v t Hu Hv. apply list_elem_of_filter in Hu as [_ Hu], Hv as [_ Hv]. by apply (uo_tokens _ Hok).
  - intros u Hu. apply list_elem_of_filter in Hu as [_ Hu]. by apply Hok.
Qed.

Lemma SetCatchupCursor_ok ok id at_ users : users_ok users -> users_ok (SetCatchupCursor ok id at_ users).1.
Proof.
  intros Hok. unfold SetCatchupCursor. destruct ok; [| done]. cbn [negb fst]. apply map_ok; [done |]. intros u Hu.
  assert (Hr := uo_roles _ Hok u Hu). by destruct (bool_decide (user_ID u = id) && _).
Qed.

(** ** An administrator remains *)

Definition has_admin (users : list User) : Prop := exists u, u ∈ users /\ active_admin u = true.

(** The check lets a user go when it is not the last active administrator. *)
Lemma checkLastAdmin_none id users : checkLastAdminTx id users = None -> users_ok users ->
  (exists u, u ∈ users /\ user_ID u = id) /\
  (has_admin users -> exists v, v ∈ users /\ user_ID v <> id /\ active_admin v = true).
Proof.
  unfold checkLastAdminTx. intros H Hok. destruct (GetByID true id users) as [u | e] eqn:E; [| done].
  apply getUser_spec in E as [Hu E%bool_decide_eq_true]. split; [eauto |]. intros (v & Hv & Ha).
  destruct (active_admin u) eqn:Eu; cbn [negb] in H.
  - destruct (existsb _ users) eqn:Ex; [| done]. apply existsb_In in Ex as (w & Hw & [Hwa Hne]%andb_true_iff).
    apply negb_true_iff, bool_decide_eq_false in Hne. eauto.
  - exists v. split_and!; [done | | done]. intros Ei. assert (v = u) as -> by (apply (same_user users); [apply Hok | done | done | congruence]). congruence.
Qed.

Lemma map_admin f users : (forall u, u ∈ users -> active_admin u = true -> active_admin (f u) = true) -> has_admin users -> has_admin (f <$> users).
Proof. intros Hf (u & Hu & Ha). exists (f u). split; [by apply list_elem_of_fmap_2 | by apply Hf]. Qed.

Lemma update_one_admin ok id f users : (forall u, active_admin (f u) = active_admin u) -> has_admin users -> has_admin (update_one ok id f users).1.
Proof.
  intros Hf Ha. unfold update_one. destruct ok; [| done]. apply map_admin; [| done]. intros u _ Hu. case_bool_decide; [by rewrite Hf | done].
Qed.

Lemma Create_admin ok id now params users : has_admin users -> has_admin (Create ok id now params users).1.
Proof.
  intros (u & Hu & Ha). unfold Create. destruct (negb ok || _ || _ || _); [by exists u |].
  destruct (existsb (fun u => bool_decide (Email u = cp_Email params)) users); [by exists u |]. exists u. split; [| done]. apply elem_of_app. by left.
Qed.

Lemma update_tx_admin ok now id params users : users_ok users -> has_admin users -> has_admin (update_tx ok now id params users).1.
Proof.
  intros Hok Ha. unfold update_tx. destruct (demotesAdmin params) eqn:Ed.
  - destruct (checkLastAdminTx id users) as [e |] eqn:E; [done |]. destruct (checkLastAdmin_none _ _ E Hok) as [_ H].
    destruct (H Ha) as (v & Hv & Hne & Hva). destruct ok; [| done]. destruct (exists_id id users); [| done].
    destruct (match up_Role params with Some _ => _ | None => _ end); [| done]. exists v. cbn [negb fst]. split; [| done].
    apply list_elem_of_fmap. exists v. by rewrite bool_decide_false.
  - destruct ok; [| done]. destruct (exists_id id users); [| done]. destruct (match up_Role params with Some _ => _ | None => _ end) eqn:Er; [| done].
    cbn [negb fst]. apply map_admin; [| done]. intros u Hu Hua. case_bool_decide; [| done].
    unfold active_admin in *. apply andb_true_iff in Hua as [Hr%bool_decide_eq_true Hact]. cbn [apply_update Role IsActive].
    unfold demotesAdmin in Ed. apply orb_false_iff in Ed as [E1%bool_decide_eq_false E2%bool_decide_eq_false].
    apply andb_true_iff. rewrite bool_decide_eq_true. split.
    + destruct (up_Role params) as [role |]; [| done]. cbn. unfold role_allowed in Er. apply orb_true_iff in Er as [Er%bool_decide_eq_true | Er%bool_decide_eq_true]; [done | by subst].
    + by destruct (up_IsActive params) as [[|] |].
Qed.

Lemma UpdateMCPToken_admin ok now id token users : has_admin users -> has_admin (UpdateMCPToken ok now id token users).1.
Proof. intros Ha. unfold UpdateMCPToken. destruct (_ && _); [done |]. by apply update_one_admin. Qed.

Lemma Delete_admin ok id users : users_ok users -> has_admin users -> has_admin (Delete ok id users).1.
Proof.
  intros Hok Ha. unfold Delete. destruct (checkLastAdminTx id users) as [e |] eqn:E; [done |].
  destruct (checkLastAdmin_none _ _ E Hok) as [_ H]. destruct (H Ha) as (v & Hv & Hne & Hva). destruct ok; [| done].
  exists v. split; [by apply list_elem_of_filter | done].
Qed.

Lemma SetCatchupCursor_admin ok id at_ users : has_admin users -> has_admin (SetCatchupCursor ok id at_ users).1.
Proof. intros Ha. unfold SetCatchupCursor. destruct ok; [| done]. apply map_admin; [| done]. intros u _ Hu. by destruct (bool_decide (user_ID u = id) && _). Qed.

(** What every operation keeps: a well-formed table, and an administrator once there is one. *)
Definition keeps (users users' : list User) : Prop := users_ok users -> users_ok users' /\ (has_admin users -> has_admin users').

Lemma keeps_refl users : keeps users users.
Proof. done. Qed.

Lemma keeps_trans a b c : keeps a b -> keeps b c -> keeps a c.
Proof. intros H1 H2 H. destruct (H1 H) as [Hb Hab]. destruct (H2 Hb) as [Hc Hbc]. auto. Qed.

Lemma keeps_Create ok id now params users : keeps users (Create ok id now params users).1.
Proof. intros H. split; [by apply Create_ok | apply Create_admin]. Qed.

Lemma keeps_Update ok get_ok now id params users : keeps users (Update ok get_ok now id params users).1.
Proof. rewrite Update_fst. intros H. split; [by apply update_tx_ok | by apply update_tx_admin]. Qed.

Lemma keeps_Token ok now id token users : keeps users (UpdateMCPToken ok now id token users).1.
Proof. intros H. split; [by apply UpdateMCPToken_ok | apply UpdateMCPToken_admin]. Qed.

Lemma keeps_Delete ok id users : keeps users (Delete ok id users).1.
Proof. intros H. split; [by apply Delete_ok | by apply Delete_admin]. Qed.

Lemma keeps_Password ok now id hash users : keeps users (UpdatePassword ok now id hash users).1.
Proof.
  intros H. split; [| by apply update_one_admin]. apply update_one_ok; [done |]. intros u Hu _. cbn. split_and!; [done | done | done | by apply H].
Qed.

Lemma keeps_Cursor ok id at_ users : keeps users (SetCatchupCursor ok id at_ users).1.
Proof. intros H. split; [by apply SetCatchupCursor_ok | apply SetCatchupCursor_admin]. Qed.

Create HintDb accounts.
#[local] Hint Resolve keeps_refl keeps_Create keeps_Update keeps_Token keeps_Delete keeps_Password keeps_Cursor : accounts.

Lemma keeps_role ok get_ok now userID role users : keeps users (HandleUpdateRole ok get_ok now userID role users).1.
Proof. unfold HandleUpdateRole. case_bool_decide; [done |]. destruct (_ && _); [done | apply keeps_Update]. Qed.

Lemma keeps_active ok get_ok now userID active users : keeps users (HandleToggleActive ok get_ok now userID active users).1.
Proof. unfold HandleToggleActive. case_bool_decide; [done |]. destruct active; [apply keeps_Update | done]. Qed.

Lemma keeps_tool_delete ok get_ok userID users : keeps users (HandleDeleteUser ok get_ok userID users).1.
Proof.
  unfold HandleDeleteUser. case_bool_decide; [done |]. destruct (GetByID get_ok userID users); [| done].
  assert (Hd := keeps_Delete ok userID users). by destruct (Delete ok userID users) as [users' [e |]].
Qed.

Section ConnectKeeps.
Context {B : Bcrypt}.

Lemma keeps_issue_token w u users : keeps users (issue_token w u users).1.
Proof.
  unfold issue_token.
  assert (Hup : forall us t, keeps users us -> keeps users (let us' := if MCPEnabled u then us else (Update (enable_ok w) (reread_ok w) (now_s w) (user_ID u) (mkUpdateParams None None (Some true) None None) us).1 in
    (us', Connected 200 t false (AllowedEnvironments u) (scopeMode (AllowedEnvironments u)) (user_ID u) (Email u) (Role u))).1).
  { intros us t H. cbn [fst]. destruct (MCPEnabled u); [done |]. eapply keeps_trans; [done | apply keeps_Update]. }
  assert (Hn : forall new, keeps users (UpdateMCPToken (token_ok w) (now_s w) (user_ID u) new users).1) by auto with accounts.
  destruct (MCPToken u) as [[| b t] |]; [| by apply Hup |]; (destruct (fresh_token w) as [new |]; [| done]; specialize (Hn new);
    destruct (UpdateMCPToken _ _ _ _ _) as [users' [e |]]; [done | by apply Hup]).
Qed.

Lemma keeps_connect w body users lt : keeps users (handleConnect w body users lt).1.1.
Proof.
  unfold handleConnect. destruct body as [req |]; [| done]. set (req' := mkConnect _ _ _). destruct (_ || _); [done |].
  destruct (Count (count_ok w) users) as [[| n] |]; [| | done].
  - unfold handleConnectCreateAdmin. destruct (_ <? _); [done |]. destruct (GenerateFromPassword _ _); [| done]. destruct (fresh_token w); [| done].
    assert (H := keeps_Create (create_ok w) (fresh_id w) (now_s w)). match goal with |- context [Create ?a ?b ?c ?p users] => specialize (H p users); destruct (Create a b c p users) as [users' [v | e]] end; done.
  - unfold handleConnectLogin. destruct (isLocked _ _ lt) as [lt' [|]]; [done |]. destruct (credentials w req' users) as [u | st]; [| done].
    assert (H := keeps_issue_token w u users). by destruct (issue_token w u users).
Qed.

Lemma keeps_step ev users lt : keeps users (account_step ev users lt).1.1.
Proof.
  destruct ev as [w body | | | | | | | |]; cbn [account_step fst]; auto using keeps_role, keeps_active, keeps_tool_delete with accounts.
  assert (H := keeps_connect w body users lt). by destruct (handleConnect w body users lt) as [[users' lt'] resp].
Qed.

Lemma keeps_run evs users lt : keeps users (account_run evs users lt).1.1.
Proof.
  revert users lt. induction evs as [| ev evs IH]; intros users lt; cbn [account_run]; [done |].
  assert (H := keeps_step ev users lt). destruct (account_step ev users lt) as [[users1 lt1] resp]. specialize (IH users1 lt1).
  destruct (account_run evs users1 lt1) as [[users2 lt2] out]. eapply keeps_trans; [apply H | apply IH].
Qed.

(** Once there is an active administrator there is one, whatever is called in whatever order and
    wherever the database fails. *)
Theorem admin_remains (evs : list account_event) (users : list User) (lt : loginTracker) :
  users_ok users -> has_admin users -> has_admin (account_run evs users lt).1.1.
Proof. intros Hok Ha. by apply keeps_run. Qed.
End ConnectKeeps.

(** ** The first administrator *)

Section FirstAdmin.
Context {B : Bcrypt}.

(** Connections on an empty table, with the mutex they hold between the count and the creation;
    the other operations, those of later logins included, come between them. *)
Record setup_state := mkSetup { su_users : list User; firstAdminMu : option (world * connectRequest); su_out : list response }.

Definition is_connect (ev : account_event) : bool := match ev with EvConnect _ _ => true | _ => false end.

Inductive setup_step : setup_state -> setup_state -> Prop :=
  | setup_count w req users out :
      Count (count_ok w) users = Some O -> setup_step (mkSetup users None out) (mkSetup users (Some (w, req)) out)
  | setup_create w req users out :
      setup_step (mkSetup users (Some (w, req)) out)
        (mkSetup (handleConnectCreateAdmin w req users).1 None ((handleConnectCreateAdmin w req users).2 :: out))
  | setup_other ev users mu out :
      is_connect ev = false -> setup_step (mkSetup users mu out) (mkSetup (account_step ev users ∅).1.1 mu out).

Definition created (r : response) : bool := match r with Connected _ _ c _ _ _ _ _ => c | Failed _ => false end.

Lemma create_admin_made w req users : users_ok users ->
  keeps users (handleConnectCreateAdmin w req users).1 /\
  (created (handleConnectCreateAdmin w req users).2 = true -> has_admin (handleConnectCreateAdmin w req users).1).
Proof.
  intros Hok. unfold handleConnectCreateAdmin. destruct (_ <? _); [done |]. destruct (GenerateFromPassword _ _) as [hash |]; [| done].
  destruct (fresh_token w) as [tok |]; [| done]. set (p := mkCreateParams _ _ _ _ _ _).
  assert (Hk := keeps_Create (create_ok w) (fresh_id w) (now_s w) p users).
  assert (Hc : forall users' u, Create (create_ok w) (fresh_id w) (now_s w) p users = (users', inl u) -> has_admin users').
  { intros users' u. unfold Create. destruct (negb _ || _ || _ || _); [done |].
    destruct (existsb (fun u => bool_decide (Email u = cp_Email p)) users); [done |]. intros [= <- <-].
    eexists. split; [apply elem_of_app; right; by left | reflexivity]. }
  destruct (Create (create_ok w) (fresh_id w) (now_s w) p users) as [users' [u | e]]; [| done]. split; [done | intros _; by apply (Hc _ u)].
Qed.

Lemma users_ok_nil : users_ok [].
Proof. constructor; [constructor | constructor | intros u v t H; by apply not_elem_of_nil in H | intros u H; by apply not_elem_of_nil in H]. Qed.

(** After an administrator was made there is one, and nobody is about to make another. *)
Definition setup_inv (st : setup_state) : Prop :=
  let made := filter (fun r => created r = true) (su_out st) in
  users_ok (su_users st) /\ (length made <= 1)%nat /\ (made <> [] -> has_admin (su_users st) /\ firstAdminMu st = None).

Lemma setup_inv_step st st' : setup_step st st' -> setup_inv st -> setup_inv st'.
Proof.
  intros Hs (Hok & Hle & Hmade). unfold setup_inv. destruct Hs as [w req users out Hc | w req users out | ev users mu out He]; cbn [su_users su_out firstAdminMu] in *.
  - split_and!; [done | done |]. intros Hf. destruct (Hmade Hf) as [(u & Hu & _) _]. unfold Count in Hc. destruct (count_ok w); [| done].
    destruct users; [by apply not_elem_of_nil in Hu | done].
  - destruct (create_admin_made w req users Hok) as [Hk Hmk]. split_and!; [by apply Hk | |].
    + rewrite filter_cons. case_decide; cbn [length]; [| done]. destruct (filter _ out); [done |]. by destruct (Hmade ltac:(done)).
    + rewrite filter_cons. case_decide as Hd; [intros _; split; [by apply Hmk | done] |]. intros Hf. by destruct (Hmade Hf).
  - assert (Hk := keeps_step ev users ∅ Hok). split_and!; [apply Hk | done |]. intros Hf. destruct (Hmade Hf) as [Ha ->]. split; [by apply Hk | done].
Qed.

(** However connections and other calls interleave, at most one of them is told that it made the
    administrator. *)
Theorem first_admin_once (st : setup_state) :
  rtc setup_step (mkSetup [] None []) st -> (length (filter (fun r => created r = true) (su_out st)) <= 1)%nat.
Proof.
  intros Hr. assert (Hinv : setup_inv st); [| apply Hinv].
  assert (H0 : setup_inv (mkSetup [] None [])) by (split_and!; [apply users_ok_nil | cbn; lia | done]).
  induction Hr as [st | st st' st'' Hs _ IH]; [done |]. by apply IH, (setup_inv_step st).
Qed.

(** ** A token that is handed out works *)

Lemma token_found users u t : users_ok users -> u ∈ users -> MCPToken u = Some t -> MCPEnabled u = true -> IsActive u = true ->
  GetByMCPToken true t users = inl u.
Proof.
  intros Hok Hu Ht He Ha. apply getUser_unique; [| done |].
  - intros v Hv [[Hvt%bool_decide_eq_true _]%andb_true_iff _]%andb_true_iff. apply (same_user users); [apply Hok | done | done |].
    by apply (uo_tokens _ Hok v u t).
  - by rewrite He, Ha, bool_decide_true.
Qed.

Lemma update_where_in id f users u : u ∈ users -> user_ID u = id -> f u ∈ update_where id f users.
Proof. intros Hu E. unfold update_where. apply list_elem_of_fmap. exists u. by rewrite bool_decide_true. Qed.

Lemma exists_id_in users u : u ∈ users -> exists_id (user_ID u) users = true.
Proof. intros Hu. apply existsb_In. exists u. by rewrite bool_decide_true. Qed.

(** Enabling MCP, when it is not. *)
Definition enabled (w : world) (u : User) (users : list User) : list User :=
  if MCPEnabled u then users
  else (Update (enable_ok w) (reread_ok w) (now_s w) (user_ID u) (mkUpdateParams None None (Some true) None None) users).1.

Lemma enabled_works w u v t users : users_ok users -> v ∈ users -> enable_ok w = true -> user_ID v = user_ID u ->
  MCPToken v = Some t -> MCPEnabled v = MCPEnabled u -> IsActive v = true ->
  exists x, GetByMCPToken true t (enabled w u users) = inl x /\ user_ID x = user_ID v /\ Email x = Email v /\ Role x = Role v /\
    AllowedEnvironments x = AllowedEnvironments v.
Proof.
  intros Hok Hv Hw Hid Ht He Ha. unfold enabled. destruct (MCPEnabled u) eqn:Eu; [exists v; split; [by apply token_found | done] |].
  rewrite Update_fst. assert (Hok' := update_tx_ok (enable_ok w) (now_s w) (user_ID u) (mkUpdateParams None None (Some true) None None) users Hok).
  revert Hok'. unfold update_tx. rewrite Hw, <- Hid, (exists_id_in users v Hv). cbn [demotesAdmin up_Role up_IsActive negb fst]. intros Hok'.
  set (p := mkUpdateParams None None (Some true) None None) in *. exists (apply_update (now_s w) p v). split; [| done].
  apply token_found; [done | by apply update_where_in | done | done | done].
Qed.

Lemma Create_inl ok id now p users us u : Create ok id now p users = (us, inl u) ->
  us = users ++ [u] /\ user_ID u = id /\ Email u = cp_Email p /\ Role u = (if bool_decide (cp_Role p = []) then RoleMember else cp_Role p) /\
  MCPToken u = cp_MCPToken p /\ MCPEnabled u = match cp_MCPToken p with Some _ => true | None => false end /\ IsActive u = true /\
  AllowedEnvironments u = cp_AllowedEnvironments p.
Proof.
  unfold Create. destruct (negb ok || _ || _ || _); [done |]. destruct (existsb (fun u => bool_decide (Email u = cp_Email p)) users); [done |].
  by intros [= <- <-].
Qed.

Lemma token_saved ok now u new users us : users_ok users -> u ∈ users -> UpdateMCPToken ok now (user_ID u) new users = (us, None) ->
  users_ok us /\ set_token now new u ∈ us.
Proof.
  intros Hok Hu E. split; [assert (H := UpdateMCPToken_ok ok now (user_ID u) new users Hok); by rewrite E in H |].
  unfold UpdateMCPToken in E. destruct (_ && _); [done |]. unfold update_one in E. destruct ok; [| done]. cbn [negb] in E.
  injection E as <- _. by apply update_where_in.
Qed.

(** Whoever is told of a token can use it at once: the token names the user of the answer, who
    was just created or gave the password of an active account. *)
Theorem connect_token_works (w : world) (req : connectRequest) (users : list User) (lt : loginTracker)
    (st : Z) (t : bytes) (c : bool) (envs : list bytes) (mode id email role : bytes) :
  users_ok users -> enable_ok w = true ->
  (handleConnect w (Some req) users lt).2 = Connected st t c envs mode id email role ->
  (exists u, GetByMCPToken true t (handleConnect w (Some req) users lt).1.1 = inl u /\
     user_ID u = id /\ Email u = email /\ Role u = role /\ AllowedEnvironments u = envs) /\
  email = TrimSpace (req_Email req) /\
  (if c then users = [] /\ role = RoleAdmin /\ 12 <= len (req_Password req)
   else exists u, u ∈ users /\ user_ID u = id /\ Email u = email /\ IsActive u = true /\ CompareHashAndPassword (PasswordHash u) (req_Password req) = true).
Proof.
  intros Hok Hw. unfold handleConnect. set (req' := mkConnect _ _ _). destruct (bool_decide _ || bool_decide _); [done |].
  destruct (count_ok w); cbn [Count]; [| done]. destruct users as [| u0 users0]; cbn [length].
  - unfold handleConnectCreateAdmin. destruct (len (req_Password req') <? 12) eqn:El; [done |]. destruct (GenerateFromPassword _ _) as [hash |]; [| done].
    destruct (fresh_token w) as [tok |]; [| done]. set (envs' := if bool_decide (req_Environments req' = []) then _ else _). set (p := mkCreateParams _ _ _ _ _ _).
    destruct (Create (create_ok w) (fresh_id w) (now_s w) p []) as [us [u | e]] eqn:E; [| done].
    assert (Hus := Create_ok (create_ok w) (fresh_id w) (now_s w) p [] Hok). rewrite E in Hus. cbn [fst snd] in *.
    destruct (Create_inl _ _ _ _ _ _ _ E) as (-> & Hid & Hem & Hro & Hto & Hen & Hac & Hae).
    intros [= <- <- <- <- <- <- <- <-]. split_and!; [| by rewrite Hem | done | by rewrite Hro | by apply Z.ltb_ge in El].
    exists u. split; [| done]. apply token_found; [done | by left | by rewrite Hto | by rewrite Hen | done].
  - set (users := u0 :: users0) in *. clearbody users. unfold handleConnectLogin. destruct (isLocked _ _ lt) as [lt' [|]]; [done |].
    destruct (credentials w req' users) as [u | s] eqn:Ec; [| done]. unfold credentials in Ec.
    destruct (GetByEmail (get_ok w) (req_Email req') users) as [u' |] eqn:Eg; [| done]. apply getUser_spec in Eg as [Hu Em%bool_decide_eq_true].
    destruct (IsActive u') eqn:Ea; cbn [negb] in Ec; [| done]. destruct (CompareHashAndPassword _ _) eqn:Ep; [| done]. injection Ec as ->.
    assert (Hlast : forall us t', users_ok us -> (exists v, v ∈ us /\ MCPToken v = Some t' /\ user_ID v = user_ID u /\ Email v = Email u /\ Role v = Role u /\
        AllowedEnvironments v = AllowedEnvironments u /\ MCPEnabled v = MCPEnabled u /\ IsActive v = true) ->
      exists x, GetByMCPToken true t' (enabled w u us) = inl x /\ user_ID x = user_ID u /\ Email x = Email u /\ Role x = Role u /\ AllowedEnvironments x = AllowedEnvironments u).
    { intros us t' Hus (v & Hv & Ht & H1 & H2 & H3 & H4 & H5 & H6). destruct (enabled_works w u v t' us Hus Hv Hw H1 Ht H5 H6) as (x & Hx & X1 & X2 & X3 & X4).
      exists x. split_and!; congruence. }
    unfold issue_token. destruct (MCPToken u) as [[| b tk] |] eqn:Et;
      [destruct (fresh_token w) as [new |]; [| done]; destruct (UpdateMCPToken _ _ _ new users) as [us [e |]] eqn:Eu; [done |]
      | | destruct (fresh_token w) as [new |]; [| done]; destruct (UpdateMCPToken _ _ _ new users) as [us [e |]] eqn:Eu; [done |]];
      cbn [snd fst]; intros [= <- <- <- <- <- <- <- <-]; (split_and!; [| exact Em | by exists u]).
    + destruct (token_saved _ _ u new users us Hok Hu Eu) as [H1 H2]. apply (Hlast us new H1). exists (set_token (now_s w) new u). by split_and!.
    + apply (Hlast users (b :: tk) Hok). exists u. by split_and!.
    + destruct (token_saved _ _ u new users us Hok Hu Eu) as [H1 H2]. apply (Hlast us new H1). exists (set_token (now_s w) new u). by split_and!.
Qed.
End FirstAdmin.

(** *** Concrete runs *)

(** Hashes that are the salt before the password. *)
#[local] Instance toy_bcrypt : Bcrypt := {
  GenerateFromPassword salt pw := if 72 <? len pw then None else Some (salt ++ pw);
  CompareHashAndPassword hash pw := bool_decide (drop (length hash - length pw) hash = pw) && bool_decide (hash <> [])
}.

Definition sample_world : world := mkWorld true true true true true true 10 10 (str "u9") (str "salt") (Some (str "tok9")).
Definition root_user : User := mkUser (str "u1") (str "root@x.io") (str "saltcorrect horse") (str "root") RoleAdmin None false true [str "production"] 0 0 None.
Definition root_request : connectRequest := mkConnect (str " root@x.io ") (str "correct horse") [].

Definition sample_removals : list account_event :=
  [EvDelete true true (str "u1"); EvRole true true 1 (str "u1") RoleMember; EvActive true true 2 (str "u1") (Some false);
   EvCreate true (str "u2") 3 (mkCreateParams (str "b@x.io") (str "h") (str "b") RoleAdmin None []); EvDelete true true (str "u1"); EvDelete true true (str "u2")].

Lemma root_ok : users_ok [root_user].
Proof.
  constructor; [apply NoDup_singleton | apply NoDup_singleton | |].
  - by intros u v t ->%list_elem_of_singleton ->%list_elem_of_singleton.
  - by intros u ->%list_elem_of_singleton.
Qed.

(** The first three calls are refused; the first administrator goes once there is another. *)
Example sample_removals_run : user_ID <$> (account_run sample_removals [root_user] ∅).1.1 = [str "u2"].
Proof. vm_compute. reflexivity. Qed.

Theorem admin_remains_witness : has_admin (account_run sample_removals [root_user] ∅).1.1.
Proof. apply (admin_remains sample_removals [root_user] ∅ root_ok). exists root_user. split; [by left | vm_compute; reflexivity]. Defined.

Definition first_request : connectRequest := mkConnect (str "a@x.io") (str "a long password") [].

Theorem first_admin_once_witness :
  exists st, rtc setup_step (mkSetup [] None []) st /\ created <$> su_out st = [true; false] /\ (length (filter (fun r => created r = true) (su_out st)) <= 1)%nat.
Proof.
  set (two := handleConnectCreateAdmin sample_world first_request []).
  assert (Hshort : rtc setup_step (mkSetup [] None []) (mkSetup two.1 None [two.2; Failed 400])).
  { eapply rtc_l; [apply (setup_count sample_world (mkConnect (str "a@x.io") (str "short") [])); reflexivity |].
    eapply rtc_l; [apply setup_create |]. eapply rtc_l; [apply (setup_count sample_world first_request); reflexivity |].
    eapply rtc_l; [apply setup_create | apply rtc_refl]. }
  exists (mkSetup two.1 None [two.2; Failed 400]). split; [exact Hshort |].
  split; [vm_compute; reflexivity | exact (first_admin_once _ Hshort)].
Defined.

Theorem connect_token_works_witness :
  exists u, GetByMCPToken true (str "tok9") (handleConnect sample_world (Some root_request) [root_user] ∅).1.1 = inl u /\ user_ID u = str "u1".
Proof.
  destruct (connect_token_works sample_world root_request [root_user] ∅ 200 (str "tok9") false [str "production"] (str "single") (str "u1") (str "root@x.io") RoleAdmin root_ok)
    as [(u & Hu & Hid & _) _]; [vm_compute; reflexivity | vm_compute; reflexivity |].
  exists u. split; assumption.
Defined.

(** ** Guessing a password *)

(** One login as the tracker sees it: refused, or the password looked at and then right or not. *)
Definition try_login (now : Z) (email : bytes) (right : bool) (lt : loginTracker) : loginTracker * bool :=
  let '(lt, locked) := isLocked now email lt in
  if locked then (lt, false) else (if right then recordSuccess email lt else recordFailure now email lt, true).

(** [handleConnectLogin] changes the tracker so, and answers 429 exactly when it does not look. *)
Lemma login_is_try `{B : Bcrypt} w req users lt :
  let right := match credentials w req users with inl _ => true | inr _ => false end in
  (handleConnectLogin w req users lt).1.2 = (try_login (now_ns w) (req_Email req) right lt).1 /\
  ((handleConnectLogin w req users lt).2 = Failed 429 <-> (try_login (now_ns w) (req_Email req) right lt).2 = false).
Proof.
  unfold handleConnectLogin, try_login. destruct (isLocked (now_ns w) (req_Email req) lt) as [lt' [|]]; [done |].
  destruct (credentials w req users) as [u | st] eqn:Ec; cbn [fst snd].
  - destruct (issue_token w u users) as [us r] eqn:Ei. cbn [fst snd]. split; [done |]. split; [| done]. intros ->. exfalso.
    unfold issue_token in Ei. destruct (match MCPToken u with Some _ => _ | None => _ end) as [[? ?] |]; congruence.
  - split; [done |]. split; [| done]. intros [= ->]. exfalso. unfold credentials in Ec.
    destruct (GetByEmail _ _ _); [| done]. destruct (IsActive _); [| done]. by destruct (CompareHashAndPassword _ _).
Qed.

Record attempt := mkTry { try_email : bytes; try_now : Z; try_right : bool }.

Fixpoint tries (evs : list attempt) (lt : loginTracker) : list bool :=
  match evs with
  | [] => []
  | ev :: evs => let '(lt, looked) := try_login (try_now ev) (try_email ev) (try_right ev) lt in looked :: tries evs lt
  end.

(** The passwords of [email] looked at from [t] to the end of one lockout. *)
Definition guesses (email : bytes) (t : Z) (evs : list attempt) (looked : list bool) : Z :=
  len (filter (fun e : attempt * bool => try_email e.1 = email /\ e.2 = true /\ t <= try_now e.1 <= t + lockoutDuration) (zip evs looked)).

(** *** The entry of one address *)

Definition entry_try (now : Z) (e : option loginAttempt) : option loginAttempt * bool :=
  let fresh := Some (fail_entry now (mkAttempt 0 None None)) in
  match e with
  | None => (fresh, true)
  | Some a =>
      if attempt_expired now a then (fresh, true)
      else match lockedAt a with
           | None => (Some (fail_entry now a), true)
           | Some t => if lockoutDuration <? now - t then (fresh, true) else (e, false)
           end
  end.

Fixpoint entry_tries (email : bytes) (evs : list attempt) (e : option loginAttempt) : list (Z * bool) :=
  match evs with
  | [] => []
  | ev :: evs => if bool_decide (try_email ev = email)
                 then let '(e, looked) := entry_try (try_now ev) e in (try_now ev, looked) :: entry_tries email evs e
                 else entry_tries email evs e
  end.

Definition looked_in (t : Z) (out : list (Z * bool)) : Z := len (filter (fun o : Z * bool => o.2 = true /\ t <= o.1 <= t + lockoutDuration) out).

Lemma looked_cons t now ok out :
  looked_in t ((now, ok) :: out) = (if ok && (t <=? now) && (now <=? t + lockoutDuration) then 1 else 0) + looked_in t out.
Proof.
  unfold looked_in. rewrite filter_cons. cbn [fst snd]. destruct ok, (Z.leb_spec t now), (Z.leb_spec now (t + lockoutDuration)); cbn [andb].
  1: rewrite decide_True by (split; [done | lia]); rewrite len_cons; lia.
  all: rewrite decide_False by (intros [? ?]; (lia || done)); lia.
Qed.

Fixpoint tries_from (t : Z) (evs : list attempt) : Prop :=
  match evs with [] => True | ev :: evs => t <= try_now ev /\ tries_from (try_now ev) evs end.

Lemma tries_from_le t t' evs : t <= t' -> tries_from t' evs -> tries_from t evs.
Proof. destruct evs as [| ev evs]; cbn; [done |]. intros ? []. split; [lia | done]. Qed.

(** An entry after a failure at [l]: locked exactly from the fifth. *)
Definition entry_ok (a : loginAttempt) : Prop :=
  exists l, lastFailure a = Some l /\ 1 <= failures a /\ lockedAt a = (if maxFailedLogins <=? failures a then Some l else None).

Definition opt_entry_ok (e : option loginAttempt) : Prop := match e with Some a => entry_ok a | None => True end.

Lemma fresh_entry now : fail_entry now (mkAttempt 0 None None) = mkAttempt 1 None (Some now).
Proof. reflexivity. Qed.

Lemma entry_try_ok now e : opt_entry_ok e -> opt_entry_ok (entry_try now e).1.
Proof.
  assert (Hf : entry_ok (fail_entry now (mkAttempt 0 None None))) by (exists now; done).
  destruct e as [a |]; [| done]. intros (l & Hl & Hn & Hk). cbn [entry_try]. destruct (attempt_expired now a); [done |]. rewrite Hk.
  destruct (Z.leb_spec maxFailedLogins (failures a)) as [H | H]; [destruct (_ <? _); [done |]; exists l; by rewrite Hk, (proj2 (Z.leb_le _ _) H) |].
  cbn [fst]. exists now. unfold fail_entry. rewrite Hl. destruct (failureDecayWindow <? now - l); cbn [failures lockedAt lastFailure]; [done |].
  split_and!; [done | lia | by rewrite Hk].
Qed.

(** After the span nothing is counted. *)
Lemma looked_after email t evs e : tries_from (t + lockoutDuration + 1) evs -> looked_in t (entry_tries email evs e) = 0.
Proof.
  revert e. induction evs as [| ev evs IH]; intros e Hs; cbn [entry_tries]; [done |]. destruct Hs as [Hn Hs].
  assert (Hs' := tries_from_le _ _ _ Hn Hs). case_bool_decide; [| by apply IH]. destruct (entry_try _ e) as [e' ok].
  rewrite looked_cons, IH by done. destruct (Z.leb_spec (try_now ev) (t + lockoutDuration)); [lia |]. by rewrite andb_false_r.
Qed.

(** An entry that failed in the span leaves what is missing to five. *)
Lemma looked_same email t evs a l : entry_ok a -> lastFailure a = Some l -> t <= l -> tries_from l evs ->
  looked_in t (entry_tries email evs (Some a)) <= Z.max 0 (maxFailedLogins - failures a).
Proof.
  revert a l. induction evs as [| ev evs IH]; intros a l Ha Hl Ht Hs; cbn [entry_tries]; [change (looked_in t []) with 0; lia |].
  destruct Hs as [Hn Hs]. case_bool_decide; [| apply (IH a l); [done | done | done | by apply (tries_from_le _ (try_now ev))]].
  destruct (Z.le_gt_cases (try_now ev) (t + lockoutDuration)) as [Hin | Hout].
  2: { destruct (entry_try _ _) as [e' ok]. rewrite looked_cons, looked_after by (apply (tries_from_le _ (try_now ev)); [lia | done]).
       destruct (Z.leb_spec (try_now ev) (t + lockoutDuration)); [lia |]. rewrite andb_false_r. lia. }
  destruct Ha as (l' & Hl' & Hf & Hk). rewrite Hl in Hl'. injection Hl' as <-.
  assert (Hexp : attempt_expired (try_now ev) a = false).
  { unfold attempt_expired, older. rewrite Hl. destruct (match lockedAt a with Some _ => _ | None => _ end); [done |].
    apply Z.ltb_ge. unfold failureDecayWindow, lockoutDuration in *. lia. }
  cbn [entry_try]. rewrite Hexp, Hk. destruct (Z.leb_spec maxFailedLogins (failures a)) as [H5 | H5].
  - rewrite (proj2 (Z.ltb_ge _ _)) by lia. rewrite looked_cons. cbn [andb]. apply (IH a l); [| done | done | by apply (tries_from_le _ (try_now ev))].
    exists l. by rewrite Hk, (proj2 (Z.leb_le _ _) H5).
  - assert (Hfe : fail_entry (try_now ev) a = mkAttempt (failures a + 1) (if maxFailedLogins <=? failures a + 1 then Some (try_now ev) else None) (Some (try_now ev))).
    { unfold fail_entry. rewrite Hl. rewrite (proj2 (Z.ltb_ge _ _)) by (unfold failureDecayWindow, lockoutDuration in *; lia). by rewrite Hk. }
    rewrite looked_cons, Hfe. specialize (IH (fail_entry (try_now ev) a) (try_now ev)). rewrite Hfe in IH. cbn [failures lastFailure] in IH.
    assert (Hr := IH ltac:(exists (try_now ev); cbn; split_and!; [done | lia | done]) eq_refl ltac:(lia) Hs). destruct (true && _ && _); lia.
Qed.

Lemma looked_from email t evs e : opt_entry_ok e -> tries_from t evs -> looked_in t (entry_tries email evs e) <= maxFailedLogins.
Proof.
  revert e. induction evs as [| ev evs IH]; intros e He Hs; cbn [entry_tries]; [by change (looked_in t []) with 0 |].
  destruct Hs as [Hn Hs]. assert (Hs' := tries_from_le _ _ _ Hn Hs). case_bool_decide; [| by apply IH].
  assert (Ho := entry_try_ok (try_now ev) e He).
  assert (Hnew : forall a, entry_ok a -> lastFailure a = Some (try_now ev) -> looked_in t ((try_now ev, true) :: entry_tries email evs (Some a)) <= maxFailedLogins).
  { intros a Ha Hl. rewrite looked_cons. assert (H1 := looked_same email t evs a (try_now ev) Ha Hl Hn Hs). destruct Ha as (_ & _ & H2 & _).
    unfold maxFailedLogins in *. destruct (true && _ && _); lia. }
  assert (Hfresh := Hnew (fail_entry (try_now ev) (mkAttempt 0 None None)) ltac:(by exists (try_now ev)) eq_refl).
  unfold entry_try in *. destruct e as [a |]; [| done]. destruct (attempt_expired (try_now ev) a); [done |].
  destruct (lockedAt a) as [s |]; [| by apply Hnew]. destruct (lockoutDuration <? try_now ev - s); [done |].
  rewrite looked_cons. cbn [andb]. by apply IH.
Qed.

Lemma looked_any email t t0 evs e : opt_entry_ok e -> tries_from t0 evs -> looked_in t (entry_tries email evs e) <= maxFailedLogins.
Proof.
  revert t0 e. induction evs as [| ev evs IH]; intros t0 e He Hs; [by change (looked_in t []) with 0 |].
  destruct (Z.le_gt_cases t (try_now ev)) as [Hge | Hlt].
  - apply looked_from; [done |]. destruct Hs. by split.
  - destruct Hs as [_ Hs]. cbn [entry_tries]. case_bool_decide; [| by apply (IH (try_now ev))].
    assert (Ho := entry_try_ok (try_now ev) e He). destruct (entry_try (try_now ev) e) as [e' ok]. rewrite looked_cons.
    destruct (Z.leb_spec t (try_now ev)); [lia |]. rewrite andb_false_r. by apply (IH (try_now ev)).
Qed.

(** *** The tracker and the entry *)

Lemma pruneLocked_room now lt : (base.size lt < maxTrackedLogins)%nat -> pruneLocked now lt = lt.
Proof. intros H. unfold pruneLocked. by rewrite bool_decide_true. Qed.

Lemma try_lookup now email right lt : (base.size lt < maxTrackedLogins)%nat ->
  (forall e, e <> email -> (try_login now email right lt).1 !! e = lt !! e) /\
  (right = false -> (try_login now email right lt).1 !! email = (entry_try now (lt !! email)).1 /\
     (try_login now email right lt).2 = (entry_try now (lt !! email)).2).
Proof.
  intros Hs. unfold try_login, isLocked, entry_try.
  assert (Hd : (base.size (delete email lt) < maxTrackedLogins)%nat).
  { eapply Nat.le_lt_trans; [apply map_subseteq_size, delete_subseteq | done]. }
  assert (Hfresh : forall m, (base.size m < maxTrackedLogins)%nat -> m !! email = None ->
    recordFailure now email m = <[email := fail_entry now (mkAttempt 0 None None)]> m).
  { intros m Hm E. unfold recordFailure. by rewrite E, pruneLocked_room. }
  assert (Hdel : lt !! email = None \/ is_Some (lt !! email)) by (destruct (lt !! email); eauto).
  destruct (lt !! email) as [a |] eqn:E; [destruct (attempt_expired now a); [| destruct (lockedAt a) as [s |]; [destruct (lockoutDuration <? now - s) |]] |]; cbn [fst snd].
  all: split; [intros e He | intros ->].
  all: try destruct right; unfold recordSuccess; try (rewrite Hfresh by (done || by rewrite lookup_delete_eq)).
  all: rewrite ?lookup_insert_eq, ?lookup_insert_ne, ?lookup_delete_ne by done; try done.
  all: unfold recordFailure; rewrite E; rewrite ?lookup_insert_eq, ?lookup_insert_ne by done; done.
Qed.

Lemma tries_project (K : gset bytes) email evs lt : (base.size K < maxTrackedLogins)%nat ->
  (forall ev, ev ∈ evs -> try_email ev ∈ K /\ (try_email ev = email -> try_right ev = false)) -> dom lt ⊆ K ->
  (fun e : attempt * bool => (try_now e.1, e.2)) <$> filter (fun e : attempt * bool => try_email e.1 = email) (zip evs (tries evs lt)) = entry_tries email evs (lt !! email).
Proof.
  intros HK. revert lt. induction evs as [| ev evs IH]; intros lt Hev Hd; cbn [tries]; [done |].
  assert (Hs : (base.size lt < maxTrackedLogins)%nat).
  { rewrite <- (size_dom (D := gset bytes)). eapply Nat.le_lt_trans; [by apply (subseteq_size _ K) | done]. }
  destruct (Hev ev ltac:(by left)) as [HinK Hwrong]. destruct (try_lookup (try_now ev) (try_email ev) (try_right ev) lt Hs) as [Hother Hsame].
  destruct (try_login _ _ _ lt) as [lt1 looked] eqn:Et. cbn [fst snd] in *.
  assert (Hd1 : dom lt1 ⊆ K).
  { intros k Hk. apply elem_of_dom in Hk. destruct (decide (k = try_email ev)) as [-> | Hne]; [done |]. rewrite Hother in Hk by done. by apply Hd, elem_of_dom. }
  assert (IH' := IH lt1 ltac:(intros ev' H; apply Hev; by right) Hd1). cbn [zip zip_with]. rewrite filter_cons. cbn [entry_tries fst].
  destruct (decide (try_email ev = email)) as [Hem | Hne].
  - rewrite bool_decide_true by done. rewrite Hem in *. destruct (Hsame (Hwrong eq_refl)) as [H1 H2]. rewrite fmap_cons, IH', H1. cbn [fst snd].
    destruct (entry_try (try_now ev) (lt !! email)) as [e' ok]. cbn [fst snd] in *. by subst.
  - rewrite bool_decide_false by done. by rewrite IH', Hother.
Qed.

Lemma guesses_entry email t evs looked : guesses email t evs looked =
  looked_in t ((fun e : attempt * bool => (try_now e.1, e.2)) <$> filter (fun e : attempt * bool => try_email e.1 = email) (zip evs looked)).
Proof.
  unfold guesses, looked_in. generalize (zip evs looked) as l. intros l. induction l as [| [ev b] l IH]; [done |].
  rewrite !filter_cons. cbn [fst snd]. destruct (decide (try_email ev = email)) as [He | He].
  - rewrite fmap_cons, filter_cons. cbn [fst snd]. destruct (decide (b = true /\ t <= try_now ev <= t + lockoutDuration)) as [H | H].
    + rewrite decide_True by tauto. rewrite !len_cons. lia.
    + rewrite decide_False by tauto. done.
  - rewrite decide_False by tauto. done.
Qed.

(** One login at a time, of fewer addresses than the tracker holds: within any span of a lockout
    at most five wrong passwords of an address are looked at. *)
Theorem guesses_bounded (email : bytes) (t0 t : Z) (evs : list attempt) :
  tries_from t0 evs -> (forall ev, ev ∈ evs -> try_email ev = email -> try_right ev = false) ->
  (length (remove_dups (try_email <$> evs)) < maxTrackedLogins)%nat ->
  guesses email t evs (tries evs ∅) <= 5.
Proof.
  intros Hs Hw Hk. rewrite guesses_entry, (tries_project (list_to_set (try_email <$> evs))).
  - rewrite lookup_empty. by apply (looked_any email t t0).
  - eapply Nat.le_lt_trans; [| exact Hk]. apply Nat.eq_le_incl. rewrite <- (size_list_to_set (C := gset bytes)) by apply NoDup_remove_dups.
    apply set_size_proper. intros k. by rewrite !elem_of_list_to_set, elem_of_remove_dups.
  - intros ev Hin. split; [apply elem_of_list_to_set; by apply list_elem_of_fmap_2 | by apply Hw].
  - rewrite dom_empty_L. apply empty_subseteq.
Qed.

(** Four addresses, one of them under attack: the sixth guess is not looked at until the lockout
    is over. *)
Definition minutes (n : Z) : Z := n * 60000000000.
Definition sample_tries : list attempt :=
  [mkTry (str "a") (minutes 0) false; mkTry (str "a") (minutes 1) false; mkTry (str "b") (minutes 1) true; mkTry (str "a") (minutes 2) false;
   mkTry (str "a") (minutes 3) false; mkTry (str "a") (minutes 4) false; mkTry (str "a") (minutes 5) false; mkTry (str "a") (minutes 20) false].

Example sample_tries_run : tries sample_tries ∅ = [true; true; true; true; true; true; false; true].
Proof. vm_compute. reflexivity. Qed.

Theorem guesses_bounded_witness : guesses (str "a") 0 sample_tries (tries sample_tries ∅) <= 5.
Proof.
  apply (guesses_bounded (str "a") 0 0); [cbn; unfold minutes; lia | | vm_compute; lia].
  intros ev Hin. repeat (apply elem_of_cons in Hin as [-> | Hin]; [by vm_compute |]). by apply not_elem_of_nil in Hin.
Defined.

(** *** Where the tracker gives way *)

(** The check and the count are apart: any number of logins that are checked before the first of
    them fails are all looked at. *)
Theorem lockout_not_atomic (email : bytes) (now : Z) (n : nat) :
  Nat.iter n (fun st : loginTracker * list bool => let '(lt, locked) := isLocked now email st.1 in (lt, locked :: st.2)) (∅, []) = (∅, repeat false n).
Proof. induction n as [| n IH]; [done |]. rewrite Nat.iter_succ, IH. cbn [fst snd repeat]. unfold isLocked. by rewrite lookup_empty. Qed.

Definition fail_at (now : Z) (emails : list bytes) (lt : loginTracker) : loginTracker :=
  fold_left (fun lt email => recordFailure now email lt) emails lt.

Definition locked_now (now : Z) (lt : loginTracker) : Prop := forall k a, lt !! k = Some a -> lockedAt a = Some now.

Lemma prune_keeps_locked now lt : locked_now now lt -> pruneLocked now lt = lt.
Proof.
  intros H. unfold pruneLocked. case_bool_decide; [done |].
  rewrite (map_filter_id _ lt).
  - case_bool_decide; [done |]. apply map_filter_id. intros k a Hk. cbn. rewrite (H k a Hk). cbn. apply Z.ltb_ge. unfold lockoutDuration. lia.
  - intros k a Hk. cbn. unfold attempt_expired. rewrite (H k a Hk). by rewrite (proj2 (Z.leb_le _ _)) by (unfold lockoutDuration; lia).
Qed.

Lemma five_failures now email lt : locked_now now lt -> lt !! email = None ->
  fail_at now (repeat email 5) lt = <[email := mkAttempt 5 (Some now) (Some now)]> lt.
Proof.
  intros Hl E. cbn [repeat fail_at fold_left]. unfold recordFailure at 5. rewrite E, prune_keeps_locked by done.
  assert (Hf : forall n k, failures n = k -> k < 5 -> (lastFailure n = Some now) -> lockedAt n = None -> forall lt',
    recordFailure now email (<[email := n]> lt') = <[email := mkAttempt (k + 1) (if 5 <=? k + 1 then Some now else None) (Some now)]> lt').
  { intros n k <- Hk Hn Hz lt'. unfold recordFailure. rewrite lookup_insert_eq, insert_insert_eq. f_equal. unfold fail_entry. rewrite Hn.
    rewrite (proj2 (Z.ltb_ge _ _)) by (unfold failureDecayWindow; lia). by rewrite Hz. }
  rewrite fresh_entry. rewrite (Hf _ 1) by done. rewrite (Hf _ 2) by done. rewrite (Hf _ 3) by done. by rewrite (Hf _ 4) by done.
Qed.

(** Addresses that are locked out are never dropped, so the tracker outgrows its ten thousand
    entries when enough of them are. *)
Theorem tracker_outgrows_limit (n : nat) : exists emails, base.size (fail_at 0 emails ∅) = n.
Proof.
  set (addr i := [Z.of_nat i] : bytes).
  assert (H : exists emails, locked_now 0 (fail_at 0 emails ∅) /\ base.size (fail_at 0 emails ∅) = n /\
    forall k, (n <= k)%nat -> fail_at 0 emails ∅ !! addr k = None); [| destruct H as (emails & _ & H & _); eauto].
  induction n as [| n (emails & Hl & Hs & Hfree)].
  - exists []. cbn [fail_at fold_left]. split_and!; [intros k a H; by rewrite lookup_empty in H | apply map_size_empty | intros; apply lookup_empty].
  - exists (emails ++ repeat (addr n) 5). unfold fail_at. rewrite fold_left_app. fold (fail_at 0 emails ∅). fold (fail_at 0 (repeat (addr n) 5) (fail_at 0 emails ∅)).
    rewrite five_failures by (done || by apply Hfree). split_and!.
    + intros k a H. apply lookup_insert_Some in H as [[_ <-] | [_ H]]; [done | by apply (Hl k)].
    + rewrite map_size_insert_None by (by apply Hfree). by rewrite Hs.
    + intros k Hk. rewrite lookup_insert_ne; [apply Hfree; lia |]. unfold addr. intros [= E%Nat2Z.inj]. lia.
Qed.
