(* ===== verification/Gate.v ===== *)
(** * The gate of the server (internal/api: middleware.go, proxy_auth.go, mcp_sse_gate.go)

    What stands between a connection and a handler: the rate limiter with its bounded table, the
    address it counts by, the bytes admitted at once, the checks of keys, tokens, roles and
    origins, and the binding of MCP sessions to users.
    Main results: the limiter's table stays bounded whatever the keys; a client that is not
    evicted is admitted at most twice its limit in any window; the address of a client behind a
    proxy does not depend on what the client wrote; a session serves one user between sweeps. *)

From stdpp Require Import base list gmap strings numbers sorting.
From Stdlib Require Import ZArith Lia.
From S2P Require Import Prelude Schema Query Guard Accounts.

(** ** Addresses *)

(** Package net: splitting host and port, and the canonical text of an address that parses. *)
Class Net := {
  SplitHostPort : bytes -> option bytes;
  ParseIP : bytes -> option bytes;
  IsLoopback : bytes -> bool
}.

(** A request, as far as the gate reads it; headers are the lines received under a name. *)
Record request := mkRequest {
  RemoteAddr : bytes;
  Method : bytes;
  headers : bytes -> list bytes;
  ContentLength : Z;
  sessionid : bytes
}.

(** [r.Header.Get]: the first line. *)
Definition header_get (r : request) (name : bytes) : bytes := match headers r name with v :: _ => v | [] => [] end.

Section Addresses.
Context {N : Net}.

Definition peer (r : request) : bytes := default (RemoteAddr r) (SplitHostPort (RemoteAddr r)).

(** The hops of a forwarded header from the right: [None] falls back to the peer. *)
Fixpoint walk_hops (trusted : list bytes) (hops : list bytes) : option bytes :=
  match hops with
  | [] => None
  | hop :: hops =>
      match ParseIP hop with
      | None => None
      | Some ip => if bool_decide (ip ∈ trusted) || bool_decide (hop ∈ trusted) then walk_hops trusted hops else Some ip
      end
  end.

Definition forwarded_for : bytes := str "X-Forwarded-For".

Definition comma : Z := 44.

(** [clientIP] *)
Definition clientIP (trusted : list bytes) (r : request) : bytes :=
  let ip := peer r in
  if bool_decide (trusted = []) || negb (bool_decide (ip ∈ trusted)) then ip
  else
    let fwd := header_get r forwarded_for in
    if bool_decide (fwd = []) then ip
    else default ip (walk_hops trusted (rev (TrimSpace <$> Split fwd comma))).

(** *** Identities asserted by a proxy *)

(** [peerTrustedProxy] *)
Definition peerTrustedProxy (trusted : list bytes) (r : request) : bool :=
  let ip := peer r in
  if negb (bool_decide (trusted = [])) then bool_decide (ip ∈ trusted)
  else match ParseIP ip with Some a => IsLoopback a | None => false end.

Definition defaultProxyRole : bytes := RoleMember.

(** [resolveProxyRole] *)
Definition resolveProxyRole (header : bytes) (allowAdmin : bool) : bytes :=
  if bool_decide (header = RoleAdmin) then (if allowAdmin then RoleAdmin else defaultProxyRole)
  else if bool_decide (header = RoleMember) then RoleMember
  else defaultProxyRole.

(** What a check decides: to answer with a status, or to go on, as a user or as nobody. *)
Inductive verdict := Reply (status : Z) | Next (u : option User).

(** [ProxyAuth] with its variable set: [lookup_ok] and [create_ok] are the answers of the
    database, [fresh] and [now] the id and the clock of a user it creates. *)
Definition ProxyAuth (trusted : list bytes) (allowAdminHeader : bool) (lookup_ok create_ok : bool) (fresh : bytes) (now : Z)
    (users : list User) (r : request) : list User * verdict :=
  if negb (peerTrustedProxy trusted r) then (users, Next None)
  else
    let email := header_get r (str "X-Forwarded-User") in
    if bool_decide (email = []) then (users, Next None)
    else
      let role := resolveProxyRole (header_get r (str "X-Forwarded-User-Role")) allowAdminHeader in
      match GetByEmail lookup_ok email users with
      | inl u => (users, Next (Some u))
      | inr ErrNotFound =>
          match Create create_ok fresh now (mkCreateParams email (str "-") email role None []) users with
          | (users, inl u) => (users, Next (Some u))
          | (users, inr _) => (users, Reply 500)
          end
      | inr _ => (users, Reply 503)
      end.

(** [RequireAdmin]; a request without user is sent to the login page. *)
Definition RequireAdmin (u : option User) : verdict :=
  match u with
  | None => Reply 302
  | Some u => if bool_decide (Role u = RoleAdmin) then Next (Some u) else Reply 403
  end.
End Addresses.

(** ** Keys, tokens and origins *)

Definition bearer : bytes := str "Bearer ".

(** [APIKeyAuth] *)
Definition APIKeyAuth (apiKey : bytes) (r : request) : bool :=
  bool_decide (apiKey = []) || bool_decide (header_get r (str "Authorization") = bearer ++ apiKey).

(** [getEffectiveAPIKey]: [None] is a failure to read it; [stored] is the settings store. *)
Definition getEffectiveAPIKey (configured : bytes) (stored : option (option bytes)) : option bytes :=
  if negb (bool_decide (configured = [])) then Some configured
  else match stored with Some key => key | None => Some [] end.

(** [DynamicAPIKeyAuth] *)
Definition DynamicAPIKeyAuth (configured : bytes) (stored : option (option bytes)) (r : request) : verdict :=
  match getEffectiveAPIKey configured stored with
  | None => Reply 503
  | Some apiKey => if APIKeyAuth apiKey r then Next None else Reply 401
  end.

(** [MCPTokenAuth] with a user store. *)
Definition MCPTokenAuth (ok : bool) (users : list User) (r : request) : verdict :=
  let header := header_get r (str "Authorization") in
  if negb (bool_decide (take 7 header = bearer)) then Reply 401
  else match GetByMCPToken ok (drop 7 header) users with
       | inr _ => Reply 401
       | inl u => if negb (IsActive u) then Reply 403 else Next (Some u)
       end.

(** [parseCORSOriginsString] *)
Definition parseCORSOriginsString (s : bytes) : list bytes := filter (fun p => p <> []) (TrimSpace <$> Split s comma).

(** [getEffectiveCORSOrigins]; [stored] is what the settings hold, [None] when they cannot be read. *)
Definition getEffectiveCORSOrigins (configured : list bytes) (stored : option bytes) : list bytes :=
  if negb (bool_decide (configured = [])) then configured
  else match stored with
       | Some raw => if bool_decide (raw = []) then [] else parseCORSOriginsString raw
       | None => []
       end.

(** [DynamicCORSMiddleware]: the origin allowed, if any, and whether the handler is called. *)
Definition DynamicCORSMiddleware (origins : list bytes) (r : request) : option bytes * bool :=
  let origin := header_get r (str "Origin") in
  let preflight := bool_decide (Method r = str "OPTIONS") in
  if bool_decide (origin = []) then (None, true)
  else if bool_decide (origins = []) then (None, true)
  else if bool_decide (origins = [str "*"]) || bool_decide (origin ∈ origins) then (Some origin, negb preflight)
  else (None, negb preflight).

(** ** Bytes in flight *)

(** [InFlightBodyLimit]: its capacity, and the weight of a request. *)
Definition inflight_capacity (maxInFlightBytes maxRequestBytes : Z) : Z :=
  if maxInFlightBytes <? maxRequestBytes then maxRequestBytes else maxInFlightBytes.

Definition inflight_weight (maxRequestBytes : Z) (r : request) : Z :=
  let weight := ContentLength r in if (weight <=? 0) || (maxRequestBytes <? weight) then maxRequestBytes else weight.

(** ** The rate limiter *)

Record rateLimitEntry := mkRateEntry { count : Z; resetAt : Z; lastSeen : Z }.

(** An entry has the number of its allocation, which stands for its address. *)
Record RateLimiter := mkLimiter {
  entries : gmap bytes (nat * rateLimitEntry);
  order : list (bytes * nat);
  orderHead : nat;
  next_entry : nat
}.

Definition NewRateLimiter : RateLimiter := mkLimiter ∅ [] 0 0.

Definition maxRateLimitEntries : nat := Z.to_nat 10000.
Definition orderCompactThreshold : nat := Z.to_nat 1024.
Definition orderSlackFactor : nat := 2.

(** A record is live when its key still has the entry it was made for. *)
Definition is_live (m : gmap bytes (nat * rateLimitEntry)) (rec : bytes * nat) : bool :=
  match m !! rec.1 with Some e => bool_decide (e.1 = rec.2) | None => false end.

(** [orderNeedsCompactionLocked] *)
Definition orderNeedsCompactionLocked (rl : RateLimiter) : bool :=
  bool_decide (orderCompactThreshold <= orderHead rl)%nat ||
  (bool_decide (orderCompactThreshold <= length (order rl))%nat &&
   bool_decide (orderSlackFactor * base.size (entries rl) < length (order rl))%nat).

(** [compactOrderLocked] *)
Definition compactOrderLocked (rl : RateLimiter) : RateLimiter :=
  if negb (orderNeedsCompactionLocked rl) then rl
  else mkLimiter (entries rl) (filter (fun rec => is_live (entries rl) rec = true) (drop (orderHead rl) (order rl))) 0 (next_entry rl).

(** The loop of [addEntryLocked] over the records from the head. *)
Fixpoint evict_loop (recs : list (bytes * nat)) (head : nat) (m : gmap bytes (nat * rateLimitEntry))
  : nat * gmap bytes (nat * rateLimitEntry) :=
  match recs with
  | [] => (head, m)
  | rec :: recs =>
      if bool_decide (maxRateLimitEntries <= base.size m)%nat then
        evict_loop recs (S head) (if is_live m rec then delete rec.1 m else m)
      else (head, m)
  end.

(** [addEntryLocked] *)
Definition addEntryLocked (key : bytes) (e : rateLimitEntry) (rl : RateLimiter) : RateLimiter :=
  let '(head, m) := evict_loop (drop (orderHead rl) (order rl)) (orderHead rl) (entries rl) in
  compactOrderLocked (mkLimiter (<[key := (next_entry rl, e)]> m) (order rl ++ [(key, next_entry rl)]) head (S (next_entry rl))).

(** A sweep of [cleanup] at [now]. *)
Definition sweep (now : Z) (rl : RateLimiter) : RateLimiter :=
  compactOrderLocked (mkLimiter (filter (fun ke : bytes * (nat * rateLimitEntry) => negb (resetAt ke.2.2 <? now) = true) (entries rl))
    (order rl) (orderHead rl) (next_entry rl)).

Section Serve.
Context (limit window : Z).

(** The critical section of [Middleware]: whether the request of [ip] at [now] is admitted. *)
Definition serve (ip : bytes) (now : Z) (rl : RateLimiter) : RateLimiter * bool :=
  match entries rl !! ip with
  | Some (i, entry) =>
      if resetAt entry <? now then (addEntryLocked ip (mkRateEntry 1 (now + window) now) rl, true)
      else
        let c := count entry + 1 in
        (mkLimiter (<[ip := (i, mkRateEntry c (resetAt entry) now)]> (entries rl)) (order rl) (orderHead rl) (next_entry rl),
         negb (limit <? c))
  | None => (addEntryLocked ip (mkRateEntry 1 (now + window) now) rl, true)
  end.

(** What happens to the limiter: requests and sweeps. *)
Inductive gate_event := Request (ip : bytes) (now : Z) | Sweep (now : Z).

Definition when (ev : gate_event) : Z := match ev with Request _ now => now | Sweep now => now end.

(** The limiter after some events, and the requests of [ip] with their verdicts. *)
Fixpoint run (evs : list gate_event) (rl : RateLimiter) : RateLimiter * list (bytes * Z * bool) :=
  match evs with
  | [] => (rl, [])
  | Request ip now :: evs =>
      let '(rl, ok) := serve ip now rl in
      let '(rl, out) := run evs rl in (rl, (ip, now, ok) :: out)
  | Sweep now :: evs => run evs (sweep now rl)
  end.
End Serve.

(** *** The table is bounded *)

Lemma max_entries : (1024 <= maxRateLimitEntries)%nat.
Proof. unfold maxRateLimitEntries. lia. Qed.

Lemma is_live_spec m (rec : bytes * nat) : is_live m rec = true <-> exists e, m !! rec.1 = Some (rec.2, e).
Proof.
  unfold is_live. destruct (m !! rec.1) as [[i e] |]; [| naive_solver]. rewrite bool_decide_eq_true. cbn. naive_solver.
Qed.

(** Every entry has its record, and addresses are not reused. *)
Definition recorded (m : gmap bytes (nat * rateLimitEntry)) (recs : list (bytes * nat)) : Prop :=
  forall k i e, m !! k = Some (i, e) -> (k, i) ∈ recs.

Record limiter_ok (rl : RateLimiter) : Prop := mkLimiterOk {
  lo_head : (orderHead rl <= length (order rl))%nat;
  lo_recorded : recorded (entries rl) (drop (orderHead rl) (order rl));
  lo_fresh : forall rec, rec ∈ order rl -> (rec.2 < next_entry rl)%nat;
  lo_nodup : NoDup (order rl);
  lo_size : (base.size (entries rl) <= maxRateLimitEntries)%nat;
  lo_order : (length (order rl) <= 2 * maxRateLimitEntries)%nat
}.

Lemma recorded_nil m : recorded m [] -> m = ∅.
Proof.
  intros H. apply map_empty. intros k. destruct (m !! k) as [[i e] |] eqn:E; [| done].
  apply H in E. by apply not_elem_of_nil in E.
Qed.

(** Live records are no more than the entries. *)
Lemma live_records m recs : NoDup recs -> (length (filter (fun rec => is_live m rec = true) recs) <= base.size m)%nat.
Proof.
  intros Hn. set (l := filter _ recs).
  assert (Hk : NoDup l.*1).
  { assert (Hl : NoDup l) by (by apply NoDup_filter). assert (HF : forall rec, rec ∈ l -> is_live m rec = true) by (intros rec Hr; apply list_elem_of_filter in Hr; tauto).
    clearbody l. induction Hl as [| rec l Hr Hl IH]; [constructor |]. rewrite fmap_cons. apply NoDup_cons.
    split; [| apply IH; intros; apply HF; by right]. rewrite list_elem_of_fmap. intros (rec' & E & Hr').
    destruct (proj1 (is_live_spec m rec) (HF rec (list_elem_of_here _ _))) as [e He].
    destruct (proj1 (is_live_spec m rec') (HF rec' (list_elem_of_further _ _ _ Hr'))) as [e' He'].
    rewrite E in He. assert (rec = rec') as -> by (destruct rec, rec'; cbn in *; congruence). done. }
  rewrite <- (length_fmap fst l), <- (size_list_to_set (C := gset bytes) l.*1) by done.
  rewrite <- (size_dom (D := gset bytes) m). apply subseteq_size. intros k Hin.
  apply elem_of_list_to_set, list_elem_of_fmap in Hin as (rec & -> & Hr). apply list_elem_of_filter in Hr as [Hl _].
  apply is_live_spec in Hl as [e He]. apply elem_of_dom. eauto.
Qed.

Lemma compact_ok rl : (orderHead rl <= length (order rl))%nat -> recorded (entries rl) (drop (orderHead rl) (order rl)) -> (forall rec, rec ∈ order rl -> (rec.2 < next_entry rl)%nat) ->
  NoDup (order rl) -> (base.size (entries rl) <= maxRateLimitEntries)%nat -> limiter_ok (compactOrderLocked rl).
Proof.
  intros Hh Hr Hf Hn Hs. unfold compactOrderLocked. destruct (orderNeedsCompactionLocked rl) eqn:E; cbn [negb].
  - assert (Hd : NoDup (drop (orderHead rl) (order rl))) by (eapply sublist_NoDup; [exact Hn | apply sublist_drop]).
    constructor; cbn [entries order orderHead next_entry]; [lia | | | by apply NoDup_filter | done |].
    + intros k i e Hk. rewrite drop_0. apply list_elem_of_filter. split; [| by apply (Hr k i e)]. apply is_live_spec. eauto.
    + intros rec Hin. apply list_elem_of_filter in Hin as [_ Hin]. apply Hf. by apply subseteq_drop in Hin.
    + assert (H := live_records (entries rl) _ Hd). lia.
  - constructor; try done. unfold orderNeedsCompactionLocked in E. apply orb_false_iff in E as [_ E].
    apply andb_false_iff in E as [E | E]; apply bool_decide_eq_false in E; unfold orderCompactThreshold, orderSlackFactor in E;
      assert (H := max_entries); lia.
Qed.

Lemma evict_loop_ok recs head m :
  recorded m recs ->
  exists n, (n <= length recs)%nat /\ (evict_loop recs head m).1 = (head + n)%nat /\ recorded (evict_loop recs head m).2 (drop n recs) /\
    (evict_loop recs head m).2 ⊆ m /\ (base.size (evict_loop recs head m).2 < maxRateLimitEntries)%nat.
Proof.
  revert head m. induction recs as [| rec recs IH]; intros head m Hr; cbn [evict_loop].
  { apply recorded_nil in Hr as ->. exists 0%nat. assert (H := max_entries). cbn [fst snd]. rewrite map_size_empty. split_and!; [cbn; lia | lia | | reflexivity | lia].
    intros k i e H'. by rewrite lookup_empty in H'. }
  destruct (bool_decide (maxRateLimitEntries <= base.size m)%nat) eqn:Es.
  - set (m1 := if is_live m rec then delete rec.1 m else m).
    assert (H1 : recorded m1 recs).
    { intros k i e Hk. assert (Hm : m !! k = Some (i, e)).
      { unfold m1 in Hk. destruct (is_live m rec); [| done]. by apply lookup_delete_Some in Hk as [_ Hk]. }
      destruct (proj1 (elem_of_cons _ _ _) (Hr k i e Hm)) as [<- | Hin]; [| done]. exfalso.
      unfold m1 in Hk. rewrite (proj2 (is_live_spec m (k, i))) in Hk by (cbn; eauto). cbn in Hk. by rewrite lookup_delete_eq in Hk. }
    destruct (IH (S head) m1 H1) as (n & Hn & E & Hrec & Hsub & Hsz). exists (S n). cbn [drop length]. split_and!; [lia | rewrite E; lia | done | | done].
    etrans; [exact Hsub |]. unfold m1. destruct (is_live m rec); [apply delete_subseteq | done].
  - apply bool_decide_eq_false in Es. exists 0%nat. cbn [fst snd]. rewrite drop_0. split_and!; [lia | lia | done | reflexivity | lia].
Qed.

Lemma addEntry_ok key e rl : limiter_ok rl -> limiter_ok (addEntryLocked key e rl).
Proof.
  intros [Hh Hr Hf Hn Hs Ho]. unfold addEntryLocked.
  destruct (evict_loop_ok _ (orderHead rl) _ Hr) as (n & Hle & E & Hrec & Hsub & Hsz).
  destruct (evict_loop _ _ _) as [head m]. cbn [fst snd] in *. subst head. rewrite length_drop in Hle.
  apply compact_ok; cbn [entries order orderHead next_entry].
  - rewrite length_app. lia.
  - intros k i e' Hk. rewrite drop_app_le by lia. apply elem_of_app. destruct (decide (key = k)) as [<- | Hne].
    + rewrite lookup_insert_eq in Hk. injection Hk as <- <-. right. by left.
    + rewrite lookup_insert_ne in Hk by done. left. rewrite <- drop_drop. by apply (Hrec k i e').
  - intros rec [Hin | ->%list_elem_of_singleton]%elem_of_app; [apply Hf in Hin; lia | cbn; lia].
  - apply NoDup_app. split; [done |]. split; [| apply NoDup_singleton]. intros rec Hin ->%list_elem_of_singleton. apply Hf in Hin. cbn in Hin. lia.
  - assert (H : (base.size (<[key := (next_entry rl, e)]> m) <= S (base.size m))%nat).
    { rewrite map_size_insert. destruct (m !! key); unfold id; lia. }
    lia.
Qed.

Lemma serve_ok limit window ip now rl : limiter_ok rl -> limiter_ok (serve limit window ip now rl).1.
Proof.
  intros Hok. unfold serve. destruct (entries rl !! ip) as [[i entry] |] eqn:E; [| by apply addEntry_ok].
  destruct (resetAt entry <? now); [by apply addEntry_ok |]. destruct Hok as [Hh Hr Hf Hn Hs Ho]. constructor; cbn [fst entries order orderHead next_entry]; try done.
  - intros k i' e' Hk. destruct (decide (ip = k)) as [<- | Hne].
    + rewrite lookup_insert_eq in Hk. injection Hk as <- <-. by apply (Hr ip i entry).
    + rewrite lookup_insert_ne in Hk by done. by apply (Hr k i' e').
  - rewrite map_size_insert_Some; eauto.
Qed.

Lemma sweep_ok now rl : limiter_ok rl -> limiter_ok (sweep now rl).
Proof.
  intros [Hh Hr Hf Hn Hs Ho]. apply compact_ok; cbn [entries order orderHead next_entry]; try done.
  - intros k i e Hk. apply map_lookup_filter_Some in Hk as [Hk _]. by apply (Hr k i e).
  - etrans; [apply map_subseteq_size, map_filter_subseteq | done].
Qed.

Lemma run_ok limit window evs rl : limiter_ok rl -> limiter_ok (run limit window evs rl).1.
Proof.
  revert rl. induction evs as [| [ip now | now] evs IH]; intros rl Hok; cbn [run]; [done | |].
  - assert (H1 := serve_ok limit window ip now rl Hok). destruct (serve limit window ip now rl) as [rl1 ok].
    specialize (IH rl1 H1). by destruct (run limit window evs rl1).
  - by apply IH, sweep_ok.
Qed.

Lemma new_ok : limiter_ok NewRateLimiter.
Proof.
  constructor; cbn [NewRateLimiter entries order orderHead next_entry drop length]; try lia.
  - intros k i e. by rewrite lookup_empty.
  - intros rec H. by apply not_elem_of_nil in H.
  - constructor.
  - rewrite map_size_empty. lia.
Qed.

(** Whatever the requests and their addresses, the limiter keeps at most its ten thousand
    entries, and a queue at most twice as long. *)
Theorem limiter_bounded (limit window : Z) (evs : list gate_event) :
  let rl := (run limit window evs NewRateLimiter).1 in
  (base.size (entries rl) <= maxRateLimitEntries)%nat /\ (length (order rl) <= 2 * maxRateLimitEntries)%nat.
Proof. assert (H := run_ok limit window evs _ new_ok). split; [apply (lo_size _ H) | apply (lo_order _ H)]. Qed.

(** *** One client *)

(** The counter of one client: its count and the end of its window. *)
Section Counter.
Context (limit window : Z).

Definition counter_serve (now : Z) (st : option (Z * Z)) : option (Z * Z) * bool :=
  match st with
  | Some (c, r) => if r <? now then (Some (1, now + window), true) else (Some (c + 1, r), negb (limit <? c + 1))
  | None => (Some (1, now + window), true)
  end.

Definition counter_sweep (now : Z) (st : option (Z * Z)) : option (Z * Z) :=
  match st with Some (c, r) => if r <? now then None else st | None => None end.

Fixpoint counter_run (ip : bytes) (evs : list gate_event) (st : option (Z * Z)) : list (Z * bool) :=
  match evs with
  | [] => []
  | Request ip' now :: evs =>
      if bool_decide (ip' = ip) then let '(st, ok) := counter_serve now st in (now, ok) :: counter_run ip evs st else counter_run ip evs st
  | Sweep now :: evs => counter_run ip evs (counter_sweep now st)
  end.

(** The requests admitted from [t] to the end of one window. *)
Definition admitted_in (t : Z) (out : list (Z * bool)) : Z :=
  len (filter (fun o : Z * bool => o.2 = true /\ t <= o.1 <= t + window) out).

Definition remaining (st : option (Z * Z)) : Z := match st with Some (c, _) => Z.max 0 (limit - c) | None => 0 end.

Lemma admitted_cons t now ok out :
  admitted_in t ((now, ok) :: out) = (if ok && (t <=? now) && (now <=? t + window) then 1 else 0) + admitted_in t out.
Proof.
  unfold admitted_in. rewrite filter_cons. cbn [fst snd]. destruct ok, (Z.leb_spec t now), (Z.leb_spec now (t + window)); cbn [andb].
  1: rewrite decide_True by (split; [done | lia]); rewrite len_cons; lia.
  all: rewrite decide_False by (intros [? ?]; (lia || done)); lia.
Qed.

Fixpoint sorted_from (t : Z) (evs : list gate_event) : Prop :=
  match evs with [] => True | ev :: evs => t <= when ev /\ sorted_from (when ev) evs end.

Lemma sorted_le t t' evs : t <= t' -> sorted_from t' evs -> sorted_from t evs.
Proof. destruct evs as [| ev evs]; cbn; [done |]. intros ? []. split; [lia | done]. Qed.

(** Nothing is counted after the interval. *)
Lemma admitted_after ip t evs st : 0 <= window -> sorted_from (t + window + 1) evs -> admitted_in t (counter_run ip evs st) = 0.
Proof.
  intros Hw. revert st. induction evs as [| [ip' now | now] evs IH]; intros st Hs; cbn [counter_run]; [done | |];
    destruct Hs as [Hn Hs]; assert (Hs' := sorted_le _ _ _ Hn Hs); [| by apply IH].
  destruct (bool_decide (ip' = ip)); [| by apply IH]. destruct (counter_serve now st) as [st' ok].
  rewrite admitted_cons, IH by done. cbn in Hn. destruct (Z.leb_spec now (t + window)); [lia |]. by rewrite andb_false_r.
Qed.

(** An entry that lasts to the end of the interval. *)
Lemma admitted_same ip t evs c r : 0 <= window -> t + window <= r -> sorted_from t evs ->
  admitted_in t (counter_run ip evs (Some (c, r))) <= Z.max 0 (limit - c).
Proof.
  intros Hw Hr. revert c. induction evs as [| [ip' now | now] evs IH]; intros c Hs; cbn [counter_run]; [change (admitted_in t []) with 0; lia | |];
    destruct Hs as [Hn Hs]; cbn in Hn.
  - assert (Hs' := sorted_le t _ _ Hn Hs). destruct (bool_decide (ip' = ip)); [| by apply IH]. cbn [counter_serve].
    destruct (Z.ltb_spec r now).
    + rewrite admitted_cons, admitted_after; [| done | by apply (sorted_le _ now); [lia |]].
      destruct (Z.leb_spec now (t + window)); [lia |]. rewrite andb_false_r. lia.
    + rewrite admitted_cons. specialize (IH (c + 1) Hs'). destruct (Z.ltb_spec limit (c + 1)); cbn [negb andb]; [lia |].
      destruct ((t <=? now) && (now <=? t + window)); lia.
  - cbn [counter_sweep]. destruct (Z.ltb_spec r now); [| apply IH; by apply (sorted_le t now)].
    rewrite admitted_after; [lia | done | by apply (sorted_le _ now); [lia |]].
Qed.

Lemma admitted_from ip t evs st : 0 <= window -> sorted_from t evs -> match st with Some (c, _) => 0 <= c | None => True end ->
  admitted_in t (counter_run ip evs st) <= remaining st + Z.max 1 limit.
Proof.
  intros Hw. revert st. induction evs as [| [ip' now | now] evs IH]; intros st Hs Hc; cbn [counter_run].
  - change (admitted_in t []) with 0. unfold remaining. destruct st as [[c r] |]; lia.
  - destruct Hs as [Hn Hs]. cbn in Hn. assert (Hs' := sorted_le t _ _ Hn Hs). destruct (bool_decide (ip' = ip)); [| by apply IH].
    assert (Hnew : admitted_in t ((now, true) :: counter_run ip evs (Some (1, now + window))) <= Z.max 1 limit).
    { rewrite admitted_cons. assert (H := admitted_same ip t evs 1 (now + window) Hw ltac:(lia) Hs'). destruct (true && _ && _); lia. }
    unfold counter_serve. destruct st as [[c r] |]; [| cbn [remaining]; lia]. cbn [remaining]. destruct (r <? now); [lia |].
    rewrite admitted_cons. assert (H := IH (Some (c + 1, r)) Hs'). cbv beta iota in H. cbv beta iota in Hc. specialize (H ltac:(lia)). cbn [remaining] in H.
    destruct (Z.ltb_spec limit (c + 1)); cbn [negb andb]; [lia |]. destruct ((t <=? now) && (now <=? t + window)); lia.
  - destruct Hs as [Hn Hs]. cbn in Hn. assert (Hs' := sorted_le t _ _ Hn Hs). destruct st as [[c r] |]; cbn [counter_sweep]; [| by apply IH].
    destruct (r <? now); [| by apply IH]. assert (H := IH None Hs' I). cbn [remaining] in *. lia.
Qed.

Lemma admitted_any ip t t0 evs st : 0 <= window -> sorted_from t0 evs -> match st with Some (c, _) => 0 <= c | None => True end ->
  admitted_in t (counter_run ip evs st) <= 2 * Z.max 1 limit.
Proof.
  intros Hw. revert t0 st. induction evs as [| ev evs IH]; intros t0 st Hs Hc; [change (0 <= 2 * Z.max 1 limit); lia |].
  destruct (Z.le_gt_cases t (when ev)) as [Hge | Hlt].
  - assert (Hs' : sorted_from t (ev :: evs)) by (destruct Hs; split; [lia | done]).
    assert (H := admitted_from ip t (ev :: evs) st Hw Hs' Hc). unfold remaining in H. destruct st as [[c r] |]; cbv beta iota in Hc; lia.
  - destruct Hs as [_ Hs]. destruct ev as [ip' now | now]; cbn [counter_run when] in *.
    + destruct (bool_decide (ip' = ip)); [| by apply (IH now)]. destruct (counter_serve now st) as [st' ok] eqn:E.
      rewrite admitted_cons. destruct (Z.leb_spec t now); [lia |]. rewrite andb_false_r. apply (IH now); [done |].
      unfold counter_serve in E. destruct st as [[c r] |]; [destruct (r <? now) |]; injection E as <- _; lia.
    + apply (IH now); [done |]. destruct st as [[c r] |]; cbn [counter_sweep]; [| done]. by destruct (r <? now).
Qed.

Definition counter_of (ip : bytes) (rl : RateLimiter) : option (Z * Z) :=
  (fun e : nat * rateLimitEntry => (count e.2, resetAt e.2)) <$> entries rl !! ip.

Lemma entries_compact rl : entries (compactOrderLocked rl) = entries rl.
Proof. unfold compactOrderLocked. by destruct (orderNeedsCompactionLocked rl). Qed.

(** With room in the table nobody is evicted. *)
Lemma entries_add key e rl : (base.size (entries rl) < maxRateLimitEntries)%nat -> entries (addEntryLocked key e rl) = <[key := (next_entry rl, e)]> (entries rl).
Proof.
  intros Hs. unfold addEntryLocked. assert (E : evict_loop (drop (orderHead rl) (order rl)) (orderHead rl) (entries rl) = (orderHead rl, entries rl)).
  { destruct (drop _ _) as [| rec recs]; cbn [evict_loop]; [done |]. rewrite bool_decide_false by lia. done. }
  rewrite E. by rewrite entries_compact.
Qed.

(** The requests of one client, with their times and verdicts. *)
Definition of_client (ip : bytes) (out : list (bytes * Z * bool)) : list (Z * bool) :=
  (fun o : bytes * Z * bool => (o.1.2, o.2)) <$> filter (fun o : bytes * Z * bool => o.1.1 = ip) out.

Lemma serve_counter ip ip' now rl : (base.size (entries rl) < maxRateLimitEntries)%nat ->
  counter_of ip (serve limit window ip' now rl).1 = (if bool_decide (ip' = ip) then (counter_serve now (counter_of ip rl)).1 else counter_of ip rl) /\
  (ip' = ip -> (serve limit window ip' now rl).2 = (counter_serve now (counter_of ip rl)).2) /\
  (forall k, is_Some (entries (serve limit window ip' now rl).1 !! k) -> k = ip' \/ is_Some (entries rl !! k)).
Proof.
  intros Hs.
  assert (Hadd : forall e, counter_of ip (addEntryLocked ip' e rl) = (if bool_decide (ip' = ip) then Some (count e, resetAt e) else counter_of ip rl) /\
    (forall k, is_Some (entries (addEntryLocked ip' e rl) !! k) -> k = ip' \/ is_Some (entries rl !! k))).
  { intros e. unfold counter_of. rewrite (entries_add _ _ _ Hs). split.
    - case_bool_decide as Hip; [subst ip'; by rewrite lookup_insert_eq | by rewrite lookup_insert_ne].
    - intros k Hk. destruct (decide (ip' = k)) as [-> | Hne]; [by left | right]. by rewrite lookup_insert_ne in Hk. }
  unfold serve. destruct (entries rl !! ip') as [[i entry] |] eqn:E.
  - destruct (resetAt entry <? now) eqn:Er; cbn [fst snd].
    + destruct (Hadd (mkRateEntry 1 (now + window) now)) as [Hc Hd]. rewrite Hc. split_and!; [| | done].
      * case_bool_decide as Hip; [subst ip' | done]. unfold counter_of. rewrite E. cbn. by rewrite Er.
      * intros <-. unfold counter_of. rewrite E. cbn. by rewrite Er.
    + unfold counter_of. cbn [entries]. split_and!.
      * case_bool_decide as Hip; [subst ip'; rewrite lookup_insert_eq, E; cbn; by rewrite Er | by rewrite lookup_insert_ne].
      * intros <-. rewrite E. cbn. by rewrite Er.
      * intros k Hk. destruct (decide (ip' = k)) as [-> | Hne]; [by left | right]. by rewrite lookup_insert_ne in Hk.
  - cbn [fst snd]. destruct (Hadd (mkRateEntry 1 (now + window) now)) as [Hc Hd]. rewrite Hc. split_and!; [| | done].
    + case_bool_decide as Hip; [subst ip' | done]. unfold counter_of. by rewrite E.
    + intros <-. unfold counter_of. by rewrite E.
Qed.

Lemma sweep_counter ip now rl : counter_of ip (sweep now rl) = counter_sweep now (counter_of ip rl) /\
  (forall k, is_Some (entries (sweep now rl) !! k) -> is_Some (entries rl !! k)).
Proof.
  unfold counter_of, sweep. rewrite entries_compact. cbn [entries]. split.
  - rewrite map_lookup_filter. destruct (entries rl !! ip) as [[i e] |]; [| done]. cbn.
    destruct (resetAt e <? now); cbn; [by rewrite option_guard_False by done | by rewrite option_guard_True by done].
  - intros k [e He]. apply map_lookup_filter_Some in He as [He _]. eauto.
Qed.

Definition clients (evs : list gate_event) : list bytes := omap (fun ev => match ev with Request ip _ => Some ip | Sweep _ => None end) evs.

(** Without eviction a client meets its own counter only. *)
Lemma run_counter (K : gset bytes) ip evs rl : (base.size K < maxRateLimitEntries)%nat ->
  (forall k, k ∈ clients evs -> k ∈ K) -> (forall k, is_Some (entries rl !! k) -> k ∈ K) ->
  of_client ip (run limit window evs rl).2 = counter_run ip evs (counter_of ip rl).
Proof.
  intros HK. revert rl. induction evs as [| [ip' now | now] evs IH]; intros rl Hin Hd; cbn [run counter_run]; [done | |].
  - assert (Hs : (base.size (entries rl) < maxRateLimitEntries)%nat).
    { rewrite <- (size_dom (D := gset bytes)). eapply Nat.le_lt_trans; [apply (subseteq_size _ K) | done]. intros k Hk. apply Hd. by apply elem_of_dom. }
    destruct (serve_counter ip ip' now rl Hs) as (Hc & Ho & Hk). destruct (serve limit window ip' now rl) as [rl1 ok]. cbn [fst snd] in *.
    specialize (IH rl1). destruct (run limit window evs rl1) as [rl2 out]. cbn [fst snd] in *. unfold of_client in *. rewrite filter_cons. cbn [fst snd].
    assert (IH' := IH ltac:(intros k H; apply Hin; by right) ltac:(intros k H; destruct (Hk k H) as [-> | H']; [apply Hin; by left | by apply Hd])).
    rewrite Hc in IH'. destruct (decide (ip' = ip)) as [-> | Hne].
    + rewrite bool_decide_true in * by done. destruct (counter_serve now (counter_of ip rl)) as [st ok'] eqn:E. cbn [fst snd] in *.
      rewrite fmap_cons, IH', Ho by done. done.
    + rewrite bool_decide_false in * by done. done.
  - destruct (sweep_counter ip now rl) as [Hc Hk]. rewrite <- Hc. apply IH; [done |]. intros k H. by apply Hd, Hk.
Qed.
End Counter.

(** While fewer clients than the table holds come, whatever they send and whenever the sweeps
    run, a client is admitted at most twice its limit in any span of a window. *)
Theorem admitted_bounded (limit window t0 t : Z) (ip : bytes) (evs : list gate_event) :
  0 <= window -> sorted_from t0 evs -> (length (remove_dups (clients evs)) < maxRateLimitEntries)%nat ->
  admitted_in window t (of_client ip (run limit window evs NewRateLimiter).2) <= 2 * Z.max 1 limit.
Proof.
  intros Hw Hs Hk. rewrite (run_counter limit window (list_to_set (clients evs))).
  - by apply (admitted_any limit window ip t t0).
  - assert (E : size (list_to_set (clients evs) : gset bytes) = length (remove_dups (clients evs))).
    { rewrite <- (size_list_to_set (C := gset bytes)) by apply NoDup_remove_dups. apply set_size_proper. intros k.
      by rewrite !elem_of_list_to_set, elem_of_remove_dups. }
    by rewrite E.
  - intros k Hin. by apply elem_of_list_to_set.
  - intros k [e He]. cbn [NewRateLimiter entries] in He. by rewrite lookup_empty in He.
Qed.

(** *** Nobody is refused before its limit *)

(** The requests of [ip] from time [t]. *)
Definition requests_since (ip : bytes) (t : Z) (out : list (bytes * Z * bool)) : Z :=
  len (filter (fun o : bytes * Z * bool => o.1.1 = ip /\ t <= o.1.2) out).

Lemma since_snoc ip t out ip' now ok :
  requests_since ip t (out ++ [(ip', now, ok)]) = requests_since ip t out + (if bool_decide (ip' = ip /\ t <= now) then 1 else 0).
Proof.
  unfold requests_since. rewrite filter_app, len_app, filter_cons, filter_nil. cbn [fst snd].
  destruct (decide (ip' = ip /\ t <= now)); [rewrite bool_decide_true by done | rewrite bool_decide_false by done]; done.
Qed.

Lemma since_mono ip t t' out : t' <= t -> requests_since ip t out <= requests_since ip t' out.
Proof.
  intros Ht. unfold requests_since. induction out as [| o out IH]; [done |]. rewrite !filter_cons. revert IH.
  repeat case_decide; rewrite ?len_cons; lia || (destruct_and?; exfalso; naive_solver lia).
Qed.

(** Entries count requests received since their window opened, before [last]. *)
Definition counted (window last : Z) (past : list (bytes * Z * bool)) (rl : RateLimiter) : Prop :=
  forall k i e, entries rl !! k = Some (i, e) -> count e <= requests_since k (resetAt e - window) past /\ resetAt e - window <= last.

Lemma evict_sub recs head m : (evict_loop recs head m).2 ⊆ m.
Proof.
  revert head m. induction recs as [| rec recs IH]; intros head m; cbn [evict_loop]; [done |]. case_bool_decide; [| done].
  etrans; [apply IH |]. destruct (is_live m rec); [apply delete_subseteq | done].
Qed.

Lemma lookup_add key e rl k v : entries (addEntryLocked key e rl) !! k = Some v ->
  (k = key /\ v = (next_entry rl, e)) \/ entries rl !! k = Some v.
Proof.
  unfold addEntryLocked. assert (H := evict_sub (drop (orderHead rl) (order rl)) (orderHead rl) (entries rl)).
  destruct (evict_loop _ _ _) as [head m]. cbn [snd] in H. rewrite entries_compact. cbn [entries]. intros Hk.
  apply lookup_insert_Some in Hk as [[<- <-] | [_ Hk]]; [by left | right]. by apply (lookup_weaken m).
Qed.

Lemma counted_add window last past ip now e rl : counted window last past rl -> last <= now -> e = mkRateEntry 1 (now + window) now ->
  counted window now (past ++ [(ip, now, true)]) (addEntryLocked ip e rl).
Proof.
  intros Hc Hl -> k i e' Hk. rewrite since_snoc. apply lookup_add in Hk as [[-> [= -> ->]] | Hk].
  - cbn [count resetAt]. rewrite bool_decide_true by (split; [done | lia]).
    assert (H := len_nonneg (filter (fun o : bytes * Z * bool => o.1.1 = ip /\ now + window - window <= o.1.2) past)). unfold requests_since. lia.
  - apply Hc in Hk as [H1 H2]. case_bool_decide; lia.
Qed.

Lemma serve_counted limit window last past ip now rl : counted window last past rl -> last <= now ->
  counted window now (past ++ [(ip, now, (serve limit window ip now rl).2)]) (serve limit window ip now rl).1 /\
  ((serve limit window ip now rl).2 = false -> limit < requests_since ip (now - window) (past ++ [(ip, now, false)])).
Proof.
  intros Hc Hl. unfold serve. destruct (entries rl !! ip) as [[i entry] |] eqn:E; [| split; [by apply (counted_add window last) | done]].
  destruct (resetAt entry <? now) eqn:Er; [split; [by apply (counted_add window last) | done] |]. apply Z.ltb_ge in Er.
  destruct (Hc _ _ _ E) as [H1 H2]. cbn [fst snd]. split.
  - intros k i' e' Hk. cbn [entries] in Hk. rewrite since_snoc. apply lookup_insert_Some in Hk as [[<- [= <- <-]] | [_ Hk]].
    + cbn [count resetAt]. rewrite bool_decide_true by (split; [done | lia]). lia.
    + apply Hc in Hk as [H3 H4]. case_bool_decide; lia.
  - intros Ho. apply negb_false_iff, Z.ltb_lt in Ho. rewrite since_snoc, bool_decide_true by (split; [done | lia]).
    assert (H : requests_since ip (resetAt entry - window) past <= requests_since ip (now - window) past).
    { apply since_mono. lia. }
    lia.
Qed.

Lemma run_counted limit window last past evs rl i ip now :
  counted window last past rl -> sorted_from last evs -> (run limit window evs rl).2 !! i = Some (ip, now, false) ->
  limit < requests_since ip (now - window) (past ++ take (S i) (run limit window evs rl).2).
Proof.
  revert last past rl i. induction evs as [| [ip' t | t] evs IH]; intros last past rl i Hc Hs; cbn [run]; [done | |]; destruct Hs as [Hl Hs]; cbn [when] in *.
  - destruct (serve_counted limit window last past ip' t rl Hc Hl) as [Hc1 Hr]. destruct (serve limit window ip' t rl) as [rl1 ok]. cbn [fst snd] in *.
    specialize (IH t (past ++ [(ip', t, ok)]) rl1). destruct (run limit window evs rl1) as [rl2 out]. cbn [fst snd] in *. destruct i as [| i]; cbn [lookup list_lookup].
    + intros [= -> -> ->]. cbn [take]. rewrite take_0. by apply Hr.
    + intros Hi. specialize (IH i Hc1 Hs Hi). by rewrite <- app_assoc in IH.
  - intros Hi. apply (IH t past (sweep t rl) i); [| done | done]. intros k j e Hk. unfold sweep in Hk. rewrite entries_compact in Hk. cbn [entries] in Hk.
    apply map_lookup_filter_Some in Hk as [Hk _]. apply Hc in Hk. lia.
Qed.

(** Whatever other clients send, evictions included, a request is refused only when its client
    has sent more than the limit within one window. *)
Theorem refused_over_limit (limit window t0 : Z) (evs : list gate_event) (i : nat) (ip : bytes) (now : Z) :
  sorted_from t0 evs -> (run limit window evs NewRateLimiter).2 !! i = Some (ip, now, false) ->
  limit < requests_since ip (now - window) (take (S i) (run limit window evs NewRateLimiter).2).
Proof.
  intros Hs Hi. apply (run_counted limit window t0 [] evs NewRateLimiter i ip now); [| done | done].
  intros k j e Hk. cbn [NewRateLimiter entries] in Hk. by rewrite lookup_empty in Hk.
Qed.

(** Two requests a second at most: the third is refused, another client is not. *)
Definition sample_evs : list gate_event :=
  [Request (str "10.0.0.1") 0; Request (str "10.0.0.1") 1; Request (str "10.0.0.1") 2; Request (str "10.0.0.2") 3; Sweep 500; Request (str "10.0.0.1") 1001].

Example sample_run : (snd <$> (run 2 1000 sample_evs NewRateLimiter).2) = [true; true; false; true; true].
Proof. vm_compute. reflexivity. Qed.

Theorem admitted_bounded_witness : admitted_in 1000 1 (of_client (str "10.0.0.1") (run 2 1000 sample_evs NewRateLimiter).2) <= 2 * Z.max 1 2.
Proof. apply (admitted_bounded 2 1000 0); [lia | cbn; lia | vm_compute; lia]. Defined.

Theorem refused_over_limit_witness : 2 < requests_since (str "10.0.0.1") (2 - 1000) (take 3 (run 2 1000 sample_evs NewRateLimiter).2).
Proof. apply (refused_over_limit 2 1000 0 sample_evs 2); [cbn; lia | vm_compute; reflexivity]. Defined.

(** ** The address of a client *)

Lemma split_loop_app (a b : bytes) (c : Z) cur : split_loop (a ++ c :: b) c cur = split_loop a c cur ++ Split b c.
Proof.
  revert cur. induction a as [| x a IH]; intros cur; cbn [app split_loop].
  - by rewrite Z.eqb_refl.
  - destruct (x =? c); [| apply IH]. by rewrite IH.
Qed.

Lemma Split_app (a b : bytes) (c : Z) : Split (a ++ c :: b) c = Split a c ++ Split b c.
Proof. apply split_loop_app. Qed.

Lemma Split_none (a : bytes) (c : Z) : c ∉ a -> Split a c = [a].
Proof.
  assert (H : forall cur, c ∉ a -> split_loop a c cur = [cur ++ a]).
  { induction a as [| x a IH]; intros cur Hc; cbn [split_loop]; [by rewrite app_nil_r |].
    rewrite not_elem_of_cons in Hc. destruct Hc as [Hx Hc]. destruct (Z.eqb_spec x c); [congruence |]. rewrite IH by done. by rewrite <- app_assoc. }
  intros Hc. apply (H [] Hc).
Qed.

Section Client.
Context {N : Net} (trusted : list bytes).

(** A hop written by a proxy of the chain. *)
Definition trusted_hop (seg : bytes) : Prop :=
  exists ip, ParseIP (TrimSpace seg) = Some ip /\ (ip ∈ trusted \/ TrimSpace seg ∈ trusted).

(** What the chain appends after the client's part: its hops, each after a comma. *)
Definition appended (segs : list bytes) : bytes := concat ((fun seg => comma :: seg) <$> segs).

Lemma split_appended (a : bytes) (segs : list bytes) : Forall (fun seg => comma ∉ seg) segs ->
  Split (a ++ appended segs) comma = Split a comma ++ segs.
Proof.
  intros H. revert a. induction H as [| seg segs Hc _ IH]; intros a; unfold appended in *; cbn [fmap list_fmap concat]; [by rewrite !app_nil_r |].
  cbn [app]. rewrite Split_app. f_equal. rewrite (IH seg), Split_none by done. done.
Qed.

Lemma walk_trusted (segs : list bytes) (hops : list bytes) : Forall trusted_hop segs ->
  walk_hops trusted (rev (TrimSpace <$> segs) ++ hops) = walk_hops trusted hops.
Proof.
  intros H. revert hops. induction H as [| seg segs [ip [Hp Ht]] _ IH]; intros hops; [done |].
  cbn [fmap list_fmap rev]. rewrite <- app_assoc. rewrite IH. cbn [app walk_hops]. rewrite Hp.
  assert (E : bool_decide (ip ∈ trusted) || bool_decide (TrimSpace seg ∈ trusted) = true); [| by rewrite E].
  apply orb_true_iff. rewrite !bool_decide_eq_true. tauto.
Qed.

(** The header after the chain: the client sent one, or none. *)
Definition forwarded_line (claimed : option bytes) (segs : list bytes) : bytes :=
  match claimed with Some c => c ++ appended segs | None => drop 1 (appended segs) end.

Lemma split_line claimed seg chain : comma ∉ seg -> Forall (fun s => comma ∉ s) chain ->
  exists before, Split (forwarded_line claimed (seg :: chain)) comma = before ++ seg :: chain.
Proof.
  intros Hc Hcs. destruct claimed as [c |]; cbn [forwarded_line].
  - exists (Split c comma). apply split_appended. by constructor.
  - exists []. change (drop 1 (appended (seg :: chain))) with (seg ++ appended chain). rewrite split_appended, Split_none by done. done.
Qed.

(** Behind the trusted chain the limiter counts by the address the chain saw, whatever the client
    wrote before it on the line. *)
Theorem client_ip_unforgeable (r : request) (claimed : option bytes) (seg : bytes) (chain : list bytes) (ip : bytes) (more : list bytes) :
  peer r ∈ trusted -> headers r forwarded_for = forwarded_line claimed (seg :: chain) :: more ->
  seg <> [] -> comma ∉ seg -> Forall (fun s => comma ∉ s) chain -> Forall trusted_hop chain ->
  ParseIP (TrimSpace seg) = Some ip -> ip ∉ trusted -> TrimSpace seg ∉ trusted ->
  clientIP trusted r = ip.
Proof.
  intros Hp Hh Hne Hc Hcs Ht Hip Hn Hn'. unfold clientIP, header_get. rewrite Hh.
  rewrite bool_decide_false by (intros E; rewrite E in Hp; by apply not_elem_of_nil in Hp). rewrite bool_decide_true by done. cbn [negb orb].
  rewrite bool_decide_false by (destruct claimed as [[| ? ?] |], seg; done).
  destruct (split_line claimed seg chain Hc Hcs) as [before ->]. rewrite fmap_app, rev_app_distr. cbn [fmap list_fmap rev].
  rewrite <- !app_assoc. rewrite walk_trusted by done. cbn [app walk_hops]. rewrite Hip.
  by rewrite !bool_decide_false by done.
Qed.
End Client.

(** *** A small network *)

(** Addresses are digits and dots, ports follow a colon. *)
#[local] Instance toy_net : Net := {
  SplitHostPort s := match Split s 58 with [host; _] => Some host | _ => None end;
  ParseIP s := if negb (bool_decide (s = [])) && forallb (fun b => (b =? 46) || (48 <=? b) && (b <=? 57)) s then Some s else None;
  IsLoopback s := bool_decide (s = str "127.0.0.1")
}.

(** A request through a proxy at 10.0.0.9. *)
Definition proxied (lines : list bytes) : request :=
  mkRequest (str "10.0.0.9:5000") (str "GET") (fun name => if bool_decide (name = forwarded_for) then lines else []) 0 [].

Definition proxied_line : bytes := str "6.6.6.6, 203.0.113.7".

Theorem client_ip_unforgeable_witness : clientIP [str "10.0.0.9"] (proxied [proxied_line]) = str "203.0.113.7".
Proof.
  apply (client_ip_unforgeable [str "10.0.0.9"] _ (Some (str "6.6.6.6")) (str " 203.0.113.7") [] _ []).
  all: try (vm_compute; reflexivity); try (constructor); try (apply (bool_decide_unpack _); vm_compute; exact I).
Defined.

(** A proxy that adds a line of its own instead of extending the client's is not read: the
    client chooses the address it is counted by. *)
Theorem second_line_ignored :
  exists r, peer r ∈ [str "10.0.0.9"] /\ headers r forwarded_for = [str "6.6.6.6"; str "203.0.113.7"] /\
    clientIP [str "10.0.0.9"] r = str "6.6.6.6".
Proof.
  exists (proxied [str "6.6.6.6"; str "203.0.113.7"]). split_and!; [apply (bool_decide_unpack _); vm_compute; exact I | |]; vm_compute; reflexivity.
Qed.

(** ** Who passes *)

(** A peer that is not a trusted proxy asserts nobody, and creates nobody. *)
Lemma untrusted_peer_anonymous `{N : Net} trusted allow lk ck fresh now users r :
  peerTrustedProxy trusted r = false -> ProxyAuth trusted allow lk ck fresh now users r = (users, Next None).
Proof. intros H. unfold ProxyAuth. by rewrite H. Qed.

(** A proxy makes at most one user: active, without token, with the asserted address, and an
    administrator only when the operator allowed the header to say so. *)
Theorem proxy_creates_members `{N : Net} (trusted : list bytes) (allow lk ck : bool) (fresh : bytes) (now : Z) (users : list User) (r : request) :
  (ProxyAuth trusted allow lk ck fresh now users r).1 = users \/
  exists u, (ProxyAuth trusted allow lk ck fresh now users r).1 = users ++ [u] /\ peerTrustedProxy trusted r = true /\
    Email u = header_get r (str "X-Forwarded-User") /\ Email u ∉ Email <$> users /\ MCPToken u = None /\
    (Role u = RoleAdmin -> allow = true /\ header_get r (str "X-Forwarded-User-Role") = RoleAdmin).
Proof.
  unfold ProxyAuth. destruct (peerTrustedProxy trusted r); cbn [negb]; [| by left]. case_bool_decide; [by left |].
  set (email := header_get r (str "X-Forwarded-User")). set (hdr := header_get r (str "X-Forwarded-User-Role")).
  destruct (GetByEmail lk email users) as [u | []] eqn:Eg; [by left | by left | | by left | by left].
  destruct (Create ck fresh now _ users) as [us [u | e]] eqn:Ec; [right | left].
  - destruct (Create_inl _ _ _ _ _ _ _ Ec) as (-> & _ & Em & Er & Et & _). exists u. split_and!; [done | done | done | | done |].
    + rewrite Em. intros (v & Ev & Hv)%list_elem_of_fmap. cbn [cp_Email] in Ev. destruct lk; [| done].
      destruct (getUser_found (fun u => bool_decide (Email u = email)) users v Hv) as [w Hw]; [by apply bool_decide_eq_true |].
      unfold GetByEmail in Eg. by rewrite Hw in Eg.
    + rewrite Er. cbn [cp_Role]. unfold resolveProxyRole. destruct (decide (hdr = RoleAdmin)) as [E | E].
      * rewrite (bool_decide_true (hdr = RoleAdmin)) by done. destruct allow; [done | intros Hr; vm_compute in Hr; discriminate].
      * rewrite (bool_decide_false (hdr = RoleAdmin)) by done. destruct (bool_decide (hdr = RoleMember)); intros Hr; vm_compute in Hr; discriminate.
  - unfold Create in Ec. destruct (negb ck || _ || _ || _); [by injection Ec as <- |].
    destruct (existsb (fun u => bool_decide (Email u = _)) users); [by injection Ec as <- | done].
Qed.

(** A disabled account is refused with a token, but a proxy may still assert it, and a disabled
    administrator passes [RequireAdmin]. *)
Theorem disabled_admin_passes :
  exists (users : list User) (r : request) (u : User),
    IsActive u = false /\ ProxyAuth (N := toy_net) [str "10.0.0.9"] false true true [] 0 users r = (users, Next (Some u)) /\
    RequireAdmin (Some u) = Next (Some u) /\
    MCPTokenAuth true users (mkRequest [] [] (fun _ => [bearer ++ default [] (MCPToken u)]) 0 []) = Reply 401.
Proof.
  set (u := mkUser (str "u1") (str "root@x.io") (str "h") [] RoleAdmin (Some (str "t")) true false [] 0 0 None).
  exists [u], (mkRequest (str "10.0.0.9:1") (str "GET") (fun name => if bool_decide (name = str "X-Forwarded-User") then [str "root@x.io"] else []) 0 []), u.
  split_and!; [reflexivity | | |]; vm_compute; reflexivity.
Qed.

(** A user that a proxy asserts before anybody connected takes the place of the first
    administrator: no connection makes one any more. *)
Theorem proxy_user_blocks_setup `{B : Bcrypt} :
  exists (r : request) (u : User),
    ProxyAuth (N := toy_net) [str "10.0.0.9"] false true true (str "u1") 0 [] r = ([u], Next (Some u)) /\ Role u = RoleMember /\
    forall w body lt, created (handleConnect w body [u] lt).2 = false.
Proof.
  exists (mkRequest (str "10.0.0.9:1") (str "GET") (fun name => if bool_decide (name = str "X-Forwarded-User") then [str "ann@x.io"] else []) 0 []).
  eexists. split; [vm_compute; reflexivity |]. split; [reflexivity |]. intros w [req |] lt; [| done]. unfold handleConnect.
  destruct (_ || _); [done |]. destruct (count_ok w); [| done]. cbn [Count length]. unfold handleConnectLogin.
  destruct (isLocked _ _ lt) as [lt' [|]]; [done |]. destruct (credentials _ _ _) as [v | s]; [| done]. unfold issue_token.
  by destruct (match MCPToken v with Some _ => _ | None => _ end) as [[? ?] |].
Qed.

(** A token admits exactly an active user that holds it and has it enabled. *)
Theorem token_admits (users : list User) (r : request) (u : User) :
  MCPTokenAuth true users r = Next (Some u) ->
  u ∈ users /\ IsActive u = true /\ MCPEnabled u = true /\
  exists token, header_get r (str "Authorization") = bearer ++ token /\ MCPToken u = Some token.
Proof.
  unfold MCPTokenAuth. case_bool_decide as Hb; cbn [negb]; [| done].
  destruct (GetByMCPToken true _ users) as [v | e] eqn:E; [| done]. destruct (IsActive v) eqn:Ea; cbn [negb]; [| done]. intros [= ->].
  apply getUser_spec in E as [Hin [[Ht%bool_decide_eq_true He]%andb_true_iff _]%andb_true_iff]. split_and!; [done | done | done |].
  exists (drop 7 (header_get r (str "Authorization"))). split; [| done]. rewrite <- Hb at 1. by rewrite take_drop.
Qed.

(** When the key cannot be read nobody passes; otherwise the key, or no key, decides. *)
Theorem api_key_fails_closed (configured : bytes) (stored : option (option bytes)) (r : request) :
  DynamicAPIKeyAuth configured stored r = Next None ->
  (configured = [] /\ (stored = None \/ stored = Some (Some []))) \/
  exists key, getEffectiveAPIKey configured stored = Some key /\ key <> [] /\ header_get r (str "Authorization") = bearer ++ key.
Proof.
  unfold DynamicAPIKeyAuth, getEffectiveAPIKey, APIKeyAuth. case_bool_decide as Hc; cbn [negb].
  - destruct stored as [[key |] |]; cbn; try done; [| by left; auto]. case_bool_decide; cbn; [intros _; subst; left; auto |]. case_bool_decide; cbn; try done. intros _. right. eauto.
  - rewrite bool_decide_false by done. cbn. case_bool_decide; cbn; try done. intros _. right. eauto.
Qed.

(** ** Sessions *)

(** The channel of [initDone] is closed or not; [session_user] is empty until somebody binds. *)
Record sseSessionState := mkSession { initDone : bool; lastTouch : Z; session_user : bytes }.

Notation sseInitGate := (gmap bytes sseSessionState).

Definition newSessionState (now : Z) : sseSessionState := mkSession false now [].

(** [stateFor] *)
Definition stateFor (now : Z) (sid : bytes) (g : sseInitGate) : sseInitGate :=
  match g !! sid with
  | None => <[sid := newSessionState now]> g
  | Some s => <[sid := mkSession (initDone s) now (session_user s)]> g
  end.

(** [markInitialized] *)
Definition markInitialized (now : Z) (sid : bytes) (g : sseInitGate) : sseInitGate :=
  let g := stateFor now sid g in
  match g !! sid with
  | Some s => <[sid := mkSession true (lastTouch s) (session_user s)]> g
  | None => g
  end.

(** [bindUser] *)
Definition bindUser (now : Z) (sid userID : bytes) (g : sseInitGate) : sseInitGate * bool :=
  if bool_decide (userID = []) then (g, true)
  else
    let s := default (newSessionState now) (g !! sid) in
    if bool_decide (session_user s = []) then (<[sid := mkSession (initDone s) now userID]> g, true)
    else (<[sid := mkSession (initDone s) now (session_user s)]> g, bool_decide (session_user s = userID)).

Definition gateSessionTTL : Z := 3600000000000.

(** A sweep of [sweepLoop]. *)
Definition sweep_sessions (now : Z) (g : sseInitGate) : sseInitGate :=
  filter (fun ke : bytes * sseSessionState => ~ lastTouch ke.2 < now - gateSessionTTL) g.

(** What [wrap] does with a request it lets through: pass it on, pass it on and mark the session,
    or hold it until the session is initialized or the wait is over. *)
Inductive forward := Pass | PassThenMark | HoldThenPass (initialized : bool).

(** [wrap] up to the point where the request is passed on; [method] is what [peekMethod] finds,
    [None] when the body cannot be read. *)
Definition wrap (now : Z) (r : request) (userID : bytes) (method : option bytes) (g : sseInitGate) : sseInitGate * option forward :=
  if negb (bool_decide (Method r = str "POST")) then (g, Some Pass)
  else if bool_decide (sessionid r = []) then (g, Some Pass)
  else
    let '(g, ok) := bindUser now (sessionid r) userID g in
    if negb ok then (g, None)
    else match method with
         | None => (g, Some Pass)
         | Some m =>
             if bool_decide (m = str "initialize") then (g, Some PassThenMark)
             else if bool_decide (m = str "ping") || bool_decide (m = str "notifications/initialized") || bool_decide (m = str "notifications/cancelled")
             then (g, Some Pass)
             else let g := stateFor now (sessionid r) g in (g, Some (HoldThenPass (match g !! sessionid r with Some s => initDone s | None => false end)))
         end.

(** What happens to the gate: posts, the marks that follow an initialize, and sweeps. *)
Inductive session_event :=
  | Post (now : Z) (r : request) (userID : bytes) (method : option bytes)
  | Mark (now : Z) (sid : bytes)
  | SweepSessions (now : Z).

Definition session_step (ev : session_event) (g : sseInitGate) : sseInitGate * option forward :=
  match ev with
  | Post now r userID method => wrap now r userID method g
  | Mark now sid => (markInitialized now sid g, None)
  | SweepSessions now => (sweep_sessions now g, None)
  end.

Fixpoint sessions (evs : list session_event) (g : sseInitGate) : sseInitGate :=
  match evs with [] => g | ev :: evs => sessions evs (session_step ev g).1 end.

(** A post of [userID] to the session, which the gate reads. *)
Definition posts (sid userID : bytes) (ev : session_event) : Prop :=
  match ev with Post _ r u _ => Method r = str "POST" /\ sessionid r = sid /\ u = userID | _ => False end.

Definition is_sweep (ev : session_event) : Prop := match ev with SweepSessions _ => True | _ => False end.

(** *** A session has one user *)

Definition owner (sid : bytes) (g : sseInitGate) : bytes := match g !! sid with Some s => session_user s | None => [] end.

Lemma owner_stateFor now sid sid' g : owner sid (stateFor now sid' g) = owner sid g.
Proof.
  unfold owner, stateFor. destruct (decide (sid' = sid)) as [-> | Hne].
  - destruct (g !! sid) as [s |]; by rewrite lookup_insert_eq.
  - destruct (g !! sid'); by rewrite lookup_insert_ne.
Qed.

Lemma owner_mark now sid sid' g : owner sid (markInitialized now sid' g) = owner sid g.
Proof.
  rewrite <- (owner_stateFor now sid sid' g). unfold markInitialized, owner. destruct (stateFor now sid' g !! sid') as [s |] eqn:E; [| done].
  destruct (decide (sid' = sid)) as [-> | Hne]; [by rewrite lookup_insert_eq, E | by rewrite lookup_insert_ne].
Qed.

Lemma owner_bind now sid sid' u g :
  owner sid (bindUser now sid' u g).1 = (if bool_decide (sid' = sid /\ u <> [] /\ owner sid g = []) then u else owner sid g) /\
  (bindUser now sid' u g).2 = bool_decide (u = [] \/ owner sid' g = [] \/ owner sid' g = u).
Proof.
  unfold bindUser. destruct (decide (u = [])) as [-> | Hu].
  { rewrite bool_decide_true by done. cbn [fst snd]. rewrite bool_decide_false, bool_decide_true by naive_solver. done. }
  rewrite (bool_decide_false (u = [])) by done. set (s := default (newSessionState now) (g !! sid')).
  assert (Es : session_user s = owner sid' g) by (unfold s, owner; by destruct (g !! sid')).
  destruct (decide (owner sid' g = [])) as [E | E].
  - rewrite bool_decide_true by congruence. cbn [fst snd]. split.
    + unfold owner at 1. destruct (decide (sid' = sid)) as [-> | Hne].
      * rewrite lookup_insert_eq. by rewrite bool_decide_true.
      * rewrite lookup_insert_ne by done. by rewrite bool_decide_false by naive_solver.
    + by rewrite bool_decide_true by auto.
  - rewrite bool_decide_false by congruence. cbn [fst snd]. split.
    + unfold owner at 1. destruct (decide (sid' = sid)) as [-> | Hne].
      * rewrite lookup_insert_eq. cbn [session_user]. rewrite Es. by rewrite bool_decide_false by naive_solver.
      * rewrite lookup_insert_ne by done. by rewrite bool_decide_false by naive_solver.
    + rewrite Es. apply bool_decide_ext. naive_solver.
Qed.

Definition time_of (ev : session_event) : Z := match ev with Post now _ _ _ | Mark now _ | SweepSessions now => now end.

Fixpoint ordered_from (t : Z) (evs : list session_event) : Prop :=
  match evs with [] => True | ev :: evs => t <= time_of ev /\ ordered_from (time_of ev) evs end.

(** The session is bound to [u], and was touched by each of the [past] posts of a user. *)
Definition bound (sid u : bytes) (last : Z) (past : list session_event) (g : sseInitGate) : Prop :=
  exists s, g !! sid = Some s /\ session_user s = u /\ lastTouch s <= last /\
    forall ev u', ev ∈ past -> posts sid u' ev -> u' <> [] -> time_of ev <= lastTouch s.

Lemma bound_later sid u last last' past g : bound sid u last past g -> last <= last' -> bound sid u last' past g.
Proof. intros (s & H1 & H2 & H3 & H4) Hl. exists s. split_and!; [done | done | lia | done]. Qed.

Lemma bound_stateFor sid u last past g now sid' : bound sid u last past g -> last <= now -> bound sid u now past (stateFor now sid' g).
Proof.
  intros (s & H1 & H2 & H3 & H4) Hl. destruct (decide (sid' = sid)) as [-> | Hne].
  - exists (mkSession (initDone s) now (session_user s)). unfold stateFor. rewrite H1, lookup_insert_eq. split_and!; [done | done | cbn; lia |].
    intros ev u' Hin Hp Hu. specialize (H4 ev u' Hin Hp Hu). cbn. lia.
  - exists s. split_and!; [| done | lia | done]. unfold stateFor. destruct (g !! sid'); by rewrite lookup_insert_ne.
Qed.

Lemma bound_mark sid u last past g now sid' : bound sid u last past g -> last <= now -> bound sid u now past (markInitialized now sid' g).
Proof.
  intros H Hl. destruct (bound_stateFor sid u last past g now sid' H Hl) as (s & H1 & H2 & H3 & H4). unfold markInitialized.
  destruct (stateFor now sid' g !! sid') as [s' |] eqn:E; [| by exists s]. destruct (decide (sid' = sid)) as [-> | Hne].
  - rewrite E in H1. injection H1 as ->. exists (mkSession true (lastTouch s) (session_user s)). rewrite lookup_insert_eq. split_and!; done.
  - exists s. rewrite lookup_insert_ne by done. split_and!; done.
Qed.

(** A post other than one of nobody touches the session. *)
Lemma bound_bind sid u last past g now sid' u' ev : u <> [] -> bound sid u last past g -> last <= now -> time_of ev = now ->
  (forall u'', posts sid u'' ev -> u'' = u' /\ sid' = sid) -> bound sid u now (past ++ [ev]) (bindUser now sid' u' g).1.
Proof.
  intros Hu (s & H1 & H2 & H3 & H4) Hl Ht Hev. unfold bindUser. destruct (decide (u' = [])) as [-> | Hu'].
  { rewrite bool_decide_true by done. exists s. split_and!; [done | done | lia |]. intros ev' u'' [Hin | ->%list_elem_of_singleton]%elem_of_app Hp Hne; [by apply (H4 ev' u'') |].
    by destruct (Hev u'' Hp) as [-> _]. }
  rewrite (bool_decide_false (u' = [])) by done. destruct (decide (sid' = sid)) as [-> | Hne].
  - rewrite H1. cbn [default]. rewrite bool_decide_false by (cbn; congruence). cbn [fst]. eexists. rewrite lookup_insert_eq. split_and!; [done | done | cbn; lia |].
    cbn. intros ev' u'' [Hin | ->%list_elem_of_singleton]%elem_of_app Hp Hne; [specialize (H4 ev' u'' Hin Hp Hne); lia | lia].
  - exists s. split_and!; [by case_bool_decide; cbn [fst]; rewrite lookup_insert_ne | done | lia |].
    intros ev' u'' [Hin | ->%list_elem_of_singleton]%elem_of_app Hp Hne'; [by apply (H4 ev' u'') |]. by destruct (Hev u'' Hp) as [_ ->].
Qed.

Lemma bound_other sid u last past g ev : bound sid u last past g -> (forall u', ~ posts sid u' ev) -> bound sid u last (past ++ [ev]) g.
Proof.
  intros (s & H1 & H2 & H3 & H4) Hn. exists s. split_and!; [done | done | done |].
  intros ev' u'' [Hin | ->%list_elem_of_singleton]%elem_of_app Hp Hne; [by apply (H4 ev' u'') |]. by destruct (Hn u'').
Qed.

Lemma bound_wrap sid u last past g now r u' m : sid <> [] -> u <> [] -> bound sid u last past g -> last <= now ->
  bound sid u now (past ++ [Post now r u' m]) (wrap now r u' m g).1.
Proof.
  intros Hsid Hu Hb Hl. unfold wrap. destruct (decide (Method r = str "POST")) as [HM | HM].
  2: { rewrite (bool_decide_false (Method r = _)) by done. apply bound_other; [by apply (bound_later _ _ last) |]. cbn. tauto. }
  rewrite (bool_decide_true (Method r = _)) by done. cbn [negb]. destruct (decide (sessionid r = [])) as [HS | HS].
  { rewrite bool_decide_true by done. cbn [fst]. apply bound_other; [by apply (bound_later _ _ last) |]. cbn. intros u'' (_ & H & _). congruence. }
  rewrite (bool_decide_false (sessionid r = [])) by done.
  assert (H1 := bound_bind sid u last past g now (sessionid r) u' (Post now r u' m) Hu Hb Hl eq_refl ltac:(cbn; naive_solver)).
  destruct (bindUser now (sessionid r) u' g) as [g1 [|]]; cbn [negb fst] in *; [| done]. destruct m as [m |]; [| done].
  case_bool_decide; [done |]. destruct (bool_decide _ || _ || _); [done |]. cbn [fst]. apply (bound_stateFor _ _ now); [done | lia].
Qed.

Lemma bound_step sid u last past g ev : sid <> [] -> u <> [] -> bound sid u last past g -> last <= time_of ev -> ~ is_sweep ev ->
  bound sid u (time_of ev) (past ++ [ev]) (session_step ev g).1.
Proof.
  intros Hsid Hu Hb Hl Hn. destruct ev as [now r u' m | now sid' | now]; cbn [session_step time_of fst] in *; [by apply (bound_wrap _ _ last) | | done].
  apply bound_other; [by apply (bound_mark _ _ last) | cbn; tauto].
Qed.

(** A sweep keeps the session unless it was idle for the time to live. *)
Lemma bound_sweep sid u last past g ts : bound sid u last past g -> last <= ts ->
  bound sid u ts (past ++ [SweepSessions ts]) (sweep_sessions ts g) \/
  forall ev u', ev ∈ past -> posts sid u' ev -> u' <> [] -> time_of ev < ts - gateSessionTTL.
Proof.
  intros (s & H1 & H2 & H3 & H4) Hl. destruct (decide (lastTouch s < ts - gateSessionTTL)) as [Hlt | Hge].
  - right. intros ev u' Hin Hp Hne. specialize (H4 ev u' Hin Hp Hne). lia.
  - left. apply bound_other; [| cbn; tauto]. exists s. split_and!; [| done | lia | done]. unfold sweep_sessions. by apply map_lookup_filter_Some.
Qed.

Lemma bound_run sid u last past g evs : sid <> [] -> u <> [] -> bound sid u last past g -> ordered_from last evs ->
  owner sid (sessions evs g) = u \/
  exists pre ts rest, evs = pre ++ SweepSessions ts :: rest /\
    forall ev u', ev ∈ past ++ pre -> posts sid u' ev -> u' <> [] -> time_of ev < ts - gateSessionTTL.
Proof.
  intros Hsid Hu. revert last past g. induction evs as [| ev evs IH]; intros last past g Hb Ho; cbn [sessions].
  { left. destruct Hb as (s & H1 & H2 & _). unfold owner. by rewrite H1. }
  destruct Ho as [Hl Ho].
  assert (Hstep : bound sid u (time_of ev) (past ++ [ev]) (session_step ev g).1 \/
    exists ts, ev = SweepSessions ts /\ forall ev u', ev ∈ past -> posts sid u' ev -> u' <> [] -> time_of ev < ts - gateSessionTTL).
  { destruct ev as [now r u' m | now sid' | now]; [left; by apply (bound_step _ _ last); [.. | cbn; tauto] | left; by apply (bound_step _ _ last); [.. | cbn; tauto] |].
    destruct (bound_sweep sid u last past g now Hb Hl) as [H | H]; [by left | right; eauto]. }
  destruct Hstep as [Hb1 | (ts & -> & Hidle)].
  - destruct (IH _ _ _ Hb1 Ho) as [H | (pre & ts & rest & -> & H)]; [by left | right].
    exists (ev :: pre), ts, rest. split; [done |]. intros ev' u' Hin. apply H. by rewrite <- app_assoc.
  - right. exists [], ts, evs. split; [done |]. by rewrite app_nil_r.
Qed.

Lemma bind_bound sid u now g ev : u <> [] -> (bindUser now sid u g).2 = true -> time_of ev = now -> bound sid u now [ev] (bindUser now sid u g).1.
Proof.
  intros Hu Hok Ht. rewrite (proj2 (owner_bind now sid sid u g)) in Hok. apply bool_decide_eq_true in Hok.
  assert (Ho : owner sid g = [] \/ owner sid g = u) by tauto. clear Hok. unfold bindUser, owner in *. rewrite (bool_decide_false (u = [])) by done.
  set (s := default (newSessionState now) (g !! sid)) in *.
  assert (Es : session_user s = [] \/ session_user s = u) by (unfold s; by destruct (g !! sid); cbn; auto).
  exists (mkSession (initDone s) now u). split_and!; [| done | cbn; lia | by intros ev' u' ->%list_elem_of_singleton _ _; cbn; lia].
  case_bool_decide; cbn [fst]; rewrite lookup_insert_eq; [done |]. destruct Es as [Es | <-]; [congruence | done].
Qed.

Lemma posts_admitted sid u ev g : sid <> [] -> u <> [] -> posts sid u ev -> (session_step ev g).2 <> None ->
  bound sid u (time_of ev) [ev] (session_step ev g).1 /\ (owner sid g = [] \/ owner sid g = u).
Proof.
  intros Hsid Hu Hp. destruct ev as [now r u' m | |]; try done. destruct Hp as (HM & HS & ->). cbn [session_step time_of]. unfold wrap.
  rewrite HM, HS. rewrite bool_decide_true by done. cbn [negb]. rewrite bool_decide_false by done.
  destruct (bindUser now sid u g) as [g1 ok] eqn:E. destruct ok; cbn [negb snd]; [| done]. intros _.
  assert (Hb := bind_bound sid u now g (Post now r u m) Hu ltac:(by rewrite E) eq_refl). rewrite E in Hb. cbn [fst] in Hb. split.
  - destruct m as [m |]; [| done]. case_bool_decide; [done |]. destruct (bool_decide _ || _ || _); [done |]. cbn [fst].
    apply (bound_stateFor _ _ now); [done | lia].
  - assert (H := proj2 (owner_bind now sid sid u g)). rewrite E in H. cbn [snd] in H. symmetry in H. apply bool_decide_eq_true in H. tauto.
Qed.

(** Two users are let through with the same session only when a sweep between their posts found
    that no user had posted to it for an hour. *)
Theorem session_one_user (sid : bytes) (g : sseInitGate) (first last : session_event) (evs : list session_event) (u1 u2 : bytes) :
  sid <> [] -> u1 <> [] -> u2 <> [] -> u1 <> u2 -> posts sid u1 first -> posts sid u2 last ->
  ordered_from (time_of first) evs -> (session_step first g).2 <> None ->
  (session_step last (sessions evs (session_step first g).1)).2 <> None ->
  exists pre ts rest, evs = pre ++ SweepSessions ts :: rest /\
    forall ev u', ev ∈ first :: pre -> posts sid u' ev -> u' <> [] -> time_of ev < ts - gateSessionTTL.
Proof.
  intros Hsid Hu1 Hu2 Hne Hp1 Hp2 Ho H1 H2. destruct (posts_admitted sid u1 first g Hsid Hu1 Hp1 H1) as [Hb _].
  destruct (posts_admitted sid u2 last _ Hsid Hu2 Hp2 H2) as [_ Hown].
  destruct (bound_run sid u1 _ _ _ evs Hsid Hu1 Hb Ho) as [H | H]; [| done]. destruct Hown; congruence.
Qed.

(** A call of one user that a method gates. *)
Definition sample_post (now : Z) (u : bytes) : session_event :=
  Post now (mkRequest [] (str "POST") (fun _ => []) 0 (str "s1")) u (Some (str "tools/call")).

Definition hour : Z := gateSessionTTL.

(** Alice's session, idle for more than an hour, is taken over by Bob. *)
Theorem session_one_user_witness :
  exists pre ts rest, [SweepSessions (2 * hour)] = pre ++ SweepSessions ts :: rest /\
    forall ev u', ev ∈ sample_post 0 (str "alice") :: pre -> posts (str "s1") u' ev -> u' <> [] -> time_of ev < ts - gateSessionTTL.
Proof.
  apply (session_one_user (str "s1") ∅ (sample_post 0 (str "alice")) (sample_post (3 * hour) (str "bob")) [SweepSessions (2 * hour)] (str "alice") (str "bob")).
  all: vm_compute; try done; try (split; [reflexivity | split; reflexivity]); intuition discriminate.
Defined.

(** Without the idle hour Bob is refused. *)
Example other_user_refused : (session_step (sample_post 10 (str "bob")) (sessions [SweepSessions 5] (session_step (sample_post 0 (str "alice")) ∅).1)).2 = None.
Proof. vm_compute. reflexivity. Qed.

(** After an idle hour a session that a client still holds open is anybody's. *)
Theorem idle_session_rebound :
  exists g, owner (str "s1") g = str "bob" /\
    g = sessions [SweepSessions (2 * hour); sample_post (3 * hour) (str "bob")] (session_step (sample_post 0 (str "alice")) ∅).1.
Proof. eexists. split; [| reflexivity]. vm_compute. reflexivity. Qed.

(** Every request fits the bytes in flight, so an idle server admits it. *)
Lemma weight_admissible (maxInFlightBytes maxRequestBytes : Z) (r : request) : 0 < maxRequestBytes ->
  0 < inflight_weight maxRequestBytes r <= inflight_capacity maxInFlightBytes maxRequestBytes.
Proof.
  intros H. unfold inflight_weight, inflight_capacity.
  destruct (Z.leb_spec (ContentLength r) 0), (Z.ltb_spec maxRequestBytes (ContentLength r)), (Z.ltb_spec maxInFlightBytes maxRequestBytes); cbn [orb]; lia.
Qed.
